(* ===== verification/_CoqProject ===== *)
-Q . S2P
Prelude.v
Bytes.v
Decimal.v
Utf8.v
Sql.v
Hlc.v
Wildmat.v
Article.v
Validation.v
Headers.v
Util.v
Policy.v
Crypto.v
BlockStore.v
Canonical.v
LogEntry.v
LogStorage.v
MemStorage.v
SqliteStorage.v
MsgIdMap.v
Ingest.v
IngestQueue.v
Append.v
AppendTips.v
Verify.v
Reconcile.v
Backfill.v
Pipeline.v
Staging.v
PinClient.v
Retention.v
Drain.v
Lines.v
NntpCommand.v
ArticleNumbers.v
Overview.v
NntpResponse.v
Injection.v
Peers.v
PeerAuth.v
ArticleSig.v
VerifStore.v
PostChecks.v
Ipld.v
ReaderStore.v
ReaderPost.v
AuthLimiter.v
Credentials.v
ReaderQuery.v
ReaderSession.v
Session.v
SieveLexer.v
SieveForm.v
SieveMatch.v
SieveEval.v
SmtpText.v
SmtpStore.v
Spool.v
NntpClient.v
SmtpQueue.v
MailAuth.v
SmtpDelivery.v
SmtpSession.v
MtaSts.v
RelayClient.v
RelayQueue.v
ImapMailbox.v
ImapSession.v
Json.v
MailEmail.v
MailState.v
MailTokens.v
