(* ===== verification/Prelude.v ===== *)
(** * A verification of stoa, a Usenet server over content-addressed storage

    Stoa is a set of daemons over shared libraries.  The _transit_ daemon
    ([crates/transit]) exchanges articles with other servers: a peering session
    checks what a peer offers and puts it into a bounded queue or a write-ahead
    staging area; a drain task runs each article through a pipeline that stores
    its bytes as a content-addressed block, records its Message-ID and appends
    a signed entry to the log of each newsgroup; a garbage collector unpins what
    the retention policy no longer wants.  The _reader_ daemon
    ([crates/reader]) serves news clients over NNTP: a session logs in, selects
    groups, reads articles from the same stores, and posts new ones through a
    pipeline that signs them.  The _core_ library ([crates/core]) holds the
    clock, the log, the canonical encodings, the article's block structure and
    the checks; the _auth_ library ([crates/auth]) decides who may log in; the
    _verify_ library ([crates/verify]) checks signatures.  The _smtp_ daemon
    ([crates/smtp]) takes mail, filters it with a Sieve interpreter
    ([crates/sieve-native]), and delivers it to the mail store, to newsgroups
    over a queue of articles, or to other servers over a relay queue.  The
    _imap_ daemon ([crates/imap]) and the _mail_ daemon ([crates/mail], JMAP
    over HTTP) show groups and mail to mail clients.

    ** How the model is built

    The development is a shallow embedding: one definition per function, with
    the source's names, executable on concrete input.  A [str] or [Vec<u8>] is a
    list of bytes ([Bytes], with the UTF-8 rules of the standard library in
    [Utf8]); a machine integer is a [Z] whose wrap-around or saturation is
    written out where the code can reach it; a fallible function returns
    [result], a stateful one is a [prog] (state in, result and state out, also
    on errors).  A database is a [Sql.Pool]: its committed rows and the outcomes
    its next round trips will have, so that every statement can fail.  What is
    not in the sources is a parameter: CIDs, SHA-256 and Ed25519 ([Crypto]),
    the [tokio] channel ([IngestQueue]), regular expressions ([SieveMatch]), the
    advisory lock and the pin service ([Retention], [PinClient]), DAG-CBOR and
    MIME parsing ([Ipld], [PostChecks]), dates, DKIM, bcrypt, X.509 and JWT
    ([Injection], [ArticleSig], [Credentials]).  Each comes with named laws that
    state its documented behaviour, where a theorem relies on it, and with a
    concrete instance on which the witnesses evaluate.

    ** Parts

    Shared: [Prelude] (integers, results, programs, sums, tactics), [Bytes],
    [Decimal], [Utf8], [Sql], [Crypto].

    Core: [Hlc] (hlc.rs: every trace of timestamps is strictly increasing, a
    peer can push the clock by the allowed skew only), [Wildmat] (wildmat.rs:
    the two-row matcher decides the declarative meaning of a pattern),
    [Article], [Validation] (validation.rs: accepted iff acceptable, and how that
    differs from the documented rules), [Canonical] (canonical.rs: equal bytes iff equal up to order), [LogEntry]
    (types.rs, signing.rs: an identifier binds its entry up to an exhibited hash
    collision), [LogStorage] (the storage trait and its contract), [MemStorage]
    and [SqliteStorage] (two backends that refine the contract, whatever
    fails), [Append] and [AppendTips] (append.rs, also as tasks interleaved at
    their await points: the tips stay the frontier of the log, and replicas
    converge), [Verify], [Reconcile], [Backfill], [MsgIdMap] (msgid_map.rs
    refines a partial map), [Util] (util.rs: the printed date is the
    calendar's).

    Transit: [Headers] and [Ingest] (ingestion.rs, header scanners),
    [BlockStore] and [Pipeline] (pipeline.rs), [IngestQueue]
    (ingestion_queue.rs, all interleavings of senders and receiver), [Staging]
    (staging.rs and the workers of main.rs), [Drain] (the drain tasks of main.rs,
    where queue, staging and pipeline meet), [Peers] (peer_registry.rs,
    blacklist.rs, feed_negotiation.rs), [PeerAuth] (auth.rs, both ends byte by
    byte over bounded channels), [Session] (session.rs over a byte stream), [Policy], [PinClient] and [Retention]
    (the retention directory).

    Reader: [Lines] (lines and dot-stuffing), [NntpCommand] (session/command.rs:
    what is printed for a command parses back to it), [NntpResponse]
    (session/response.rs and session/commands: an article served is read back
    by the framing rules), [ArticleNumbers] (store/article_numbers.rs refines a
    list of articles per group), [Overview] (store/overview.rs), [Injection]
    (post/injection.rs: the headers the server answers for are its own),
    [ArticleSig] (post/sign.rs, did_verify.rs and verify/x_sig.rs),
    [VerifStore] (the verification results), [PostChecks]
    (post/validate_headers.rs), [Ipld] (core's ipld directory: every block is
    addressed by its digest), [ReaderStore] (post/ipfs_write.rs), [ReaderPost]
    (run_post_pipeline of session/lifecycle.rs), [AuthLimiter]
    (auth_limiter.rs), [Credentials] (the auth crate), [ReaderQuery] (the
    commands that read the stores, and the fallback to transit's staging area),
    [ReaderSession] (session/dispatch.rs and the command loop of
    session/lifecycle.rs over a byte stream).

    Sieve: [SieveLexer], [SieveForm], [SieveMatch], [SieveEval] (lexer.rs,
    form.rs, message.rs, evaluator.rs and lib.rs of sieve-native).

    SMTP: [SmtpText] (the text of commands, messages and headers), [SmtpStore]
    (store.rs and the administration of scripts), [Spool] (a directory whose
    operations can fail or be cut short), [NntpClient] (nntp_client.rs),
    [SmtpQueue] (queue.rs: every file operation of enqueue and drain is a step,
    a queued article is not lost), [MailAuth] (auth.rs), [SmtpDelivery]
    (sieve_delivery of session.rs), [SmtpSession] (session.rs over a byte
    stream), [MtaSts] (policies: parsing, cache, enforcement), [RelayClient]
    (relay_client.rs against scripted replies), [RelayQueue] (relay_queue.rs and
    relay_health.rs, all interleavings).

    IMAP: [ImapMailbox] (session/mailbox.rs: LIST and its patterns, UIDVALIDITY
    among racing sessions), [ImapSession] (the command loop and AUTHENTICATE
    over the events of the protocol library).

    JMAP: [Json], [MailEmail] (the email directory: Email/get and the creation
    of articles), [MailState] (the state directory, Email/set, Mailbox/set and
    Email/changes), [MailTokens] (token_store.rs, auth_token.rs and the
    authentication middleware of server.rs).

    ** How the parts compose

    The clients of a store are proved against its interface: [Append],
    [Verify], [Reconcile], [Backfill] and [Pipeline] against [LogStorageLaws];
    [Ingest], [Pipeline], [Drain] and [Retention] against [MsgIdLaws];
    [Pipeline] and [Drain] against [IpfsLaws].  [Session] runs the real checks
    of [Ingest], the real queue of [IngestQueue] and the real staging area of
    [Staging]; [Drain] runs the real pipeline.  So an article can be followed: a
    session acknowledges the articles it stored and stores what passed the
    checks ([session_accounts]), a staged article survives until it is processed ([staged_article_survives]),
    the pipeline stores it in every part ([run_pipeline_spec]), it is then
    refused as a duplicate as long as it is not collected
    ([ingested_is_duplicate]), and it is collected when and only when its
    retention ends ([gc_keeps_retained],
    [gc_collects_expired]).  On the reader's side a session runs the real POST
    pipeline and the real lookups: an accepted post is stored, numbered and
    logged ([post_pipeline_spec]) and is what is then served
    ([posted_article_is_served]), as is an article still in transit's staging
    area ([staged_article_is_served]); nobody gets that far without a login
    where one is required ([no_access_without_login]).

    Mail can be followed the same way.  An SMTP session hands on only mail of
    clients that may send it ([no_mail_without_login]); what it accepts is kept
    where the script sends it ([accepted_mail_is_kept]), in the queue of
    articles until a news server has it ([queued_article_not_lost]) or in the
    relay queue until a peer has it ([relayed_mail_not_lost]).  The relay client
    writes one fixed sequence of lines ([relay_transcript]), which the modelled
    server reads back as the same message ([relayed_body_arrives]), and respects
    policies while it knows them ([enforced_while_cached]).  The mail daemon
    uses the reader's block store, the auth library's providers and passwords
    and the tables the SMTP daemon writes: who calls it is authenticated
    ([callers_authenticated], [tokens_are_live]), articles it makes have its
    headers only ([jmap_article_genuine]), and its clients learn of changes
    ([changes_complete]).

    Some theorems state what the code should not do, as it stands: who can log
    in with a fixed password ([unknown_user_logs_in]), who cannot at all
    ([password_login_impossible]), articles that run as commands
    ([non_utf8_post_runs_rest]), forged headers ([bare_cr_forges_header]), a
    Message-ID lost to a failed post ([failed_post_burns_message_id]), a
    signature that survives what it should not
    ([posted_signature_defeats_verification]), mail lost to a failing database
    ([outage_loses_mail]), policies lifted by a DNS record
    ([rotation_lifts_policy]), a user name that counts as a wrong password
    ([login_locks_after_one_mistake]), listed names that cannot be opened
    ([listed_names_unusable]), operators anyone can be
    ([operator_without_account]), a message that breaks its reader
    ([one_mail_breaks_email_get]), created mail that cannot be read
    ([created_email_not_found]), changes clients do not learn of
    ([change_lost_in_between], [delivered_mail_not_reported]), a refused update
    that takes effect ([refused_update_applied]), and preferences that are never
    stored ([preferences_never_stored]).

    ** Fuel and bounds

    Recursion that is not structural takes fuel, and the fuel is proved enough.
    [Reconcile.bfs] and [Backfill.backfill_loop] recurse on the budgets the code
    itself has ([MAX_BFS_VISITS], [MAX_BACKFILL_ENTRIES]).  The Sieve lexer
    takes the length of the script, since each step consumes a byte; the reader
    takes [2 * n + 2] for [n] tokens; the evaluator takes the size of the
    script, its fuel being the depth of calls, which for a compiled script has
    a bound of its own ([sieve_bounded]); the reader's calls have none
    ([reader_nests_without_limit]).  A peering session takes the length of what
    the peer sends ([session_ends]), and a reader session one turn more than the
    bytes of its client, since each turn reads a line ([reader_session_ends]).
    A staging worker takes the number of runs the retry limit allows
    ([staging_drains]).  A printed [u64] has at most 20 digits ([Decimal]).

    ** Not modelled

    Transport and platform: sockets, TLS, HTTP and DNS clients, file watching,
    signals, logging, metrics, command lines and configuration files.  The
    production block and object stores and the HTTP pin and IPNS clients only
    forward to services that are not part of the sources.  The rate limiter,
    back-pressure and peer score compute with floating-point numbers.  The
    full-text index of the reader is a library's.  Of the mail daemon the
    queries, blobs, uploads, feeds, pages, the ActivityPub bridge and the
    dispatcher of its JMAP library are left out; of IMAP the wire format, which
    is a library's.  The control program, the command line tools, backups,
    imports and the tls and lmdb libraries are not modelled; the manifest lists
    every part with its reason.  The texts of error messages leave out the values the code
    interpolates where no decision depends on them. *)

From stdpp Require Export base tactics list sorting gmap strings.
From Stdlib Require Export ZArith Lia.

#[export] Set Default Goal Selector "!".

(** ** Machine integers *)

Declare Scope rust_scope.
Delimit Scope rust_scope with rust.
Open Scope Z_scope.

Definition u32_max : Z := 2 ^ 32 - 1.
Definition u64_max : Z := 2 ^ 64 - 1.
Definition i64_max : Z := 2 ^ 63 - 1.

Definition in_u8 (x : Z) : Prop := 0 <= x < 256.
Definition in_u32 (x : Z) : Prop := 0 <= x <= u32_max.
Definition in_u64 (x : Z) : Prop := 0 <= x <= u64_max.

(** [wrapping_u64 x] is the value an unchecked [u64] operation leaves in the
    register in a release build. *)
Definition wrapping_u64 (x : Z) : Z := x mod 2 ^ 64.

(** [x as i64] and [saturating_sub] on [u64]. *)
Definition as_i64 (x : Z) : Z := if x <=? i64_max then x else x - 2 ^ 64.
Definition saturating_sub (x y : Z) : Z := Z.max 0 (x - y).

(** [u32::checked_add]. *)
Definition checked_add_u32 (x y : Z) : option Z :=
  if x + y <=? u32_max then Some (x + y) else None.

(** [i64::try_from(x : u64)]. *)
Definition i64_try_from (x : Z) : option Z :=
  if x <=? i64_max then Some x else None.

(** [u64::to_be_bytes] and [u32::to_be_bytes]: [n] bytes, most significant
    first. *)
Fixpoint be_bytes (n : nat) (x : Z) : list Z :=
  match n with
  | O => []
  | S n' => (x / 256 ^ Z.of_nat n') mod 256 :: be_bytes n' x
  end.

(** ** Results *)

Inductive result (E A : Type) : Type :=
| Ok (a : A)
| Err (e : E).
Arguments Ok {E A} a.
Arguments Err {E A} e.

#[export] Instance result_ret E : MRet (result E) := @Ok E.
#[export] Instance result_bind E : MBind (result E) := λ A B k m,
  match m with Ok a => k a | Err e => Err e end.
#[export] Instance result_fmap E : FMap (result E) := λ A B f m,
  match m with Ok a => Ok (f a) | Err e => Err e end.

Definition map_err {E E' A} (f : E → E') (r : result E A) : result E' A :=
  match r with Ok a => Ok a | Err e => Err (f e) end.

Definition is_ok {E A} (r : result E A) : bool :=
  match r with Ok _ => true | Err _ => false end.

#[export] Instance result_eq_dec {E A} `{EqDecision E, EqDecision A} :
  EqDecision (result E A).
Proof. solve_decision. Defined.

(** ** Stateful programs

    An [async fn] on a store: it may fail, and it leaves the store changed
    either way. *)

Definition prog (S E A : Type) : Type := S → result E A * S.

#[export] Instance prog_ret S E : MRet (prog S E) := λ A a s, (Ok a, s).
#[export] Instance prog_bind S E : MBind (prog S E) := λ A B k m s,
  match m s with
  | (Ok a, s') => k a s'
  | (Err e, s') => (Err e, s')
  end.

(** [return Err(e)]. *)
Definition throw {S E A} (e : E) : prog S E A := λ s, (Err e, s).

(** [r?] for a pure [r]. *)
Definition lift {S E A} (r : result E A) : prog S E A := λ s, (r, s).

(** [.await.map_err(f)?], and [?] through a [From] conversion. *)
Definition prog_map_err {S E E' A} (f : E → E') (m : prog S E A) : prog S E' A :=
  λ s, let '(r, s') := m s in (map_err f r, s').

(** ** Automation *)

(** The outcomes of single statements; filled by the SQL layer. *)
Create HintDb sql_db.

(** Case on every boolean comparison in sight and keep its meaning. *)
Ltac break_if :=
  match goal with
  | |- context [if ?b then _ else _] => destruct b eqn:?
  | H : context [if ?b then _ else _] |- _ => destruct b eqn:?
  end.

(** Close an equation between closed terms by evaluation.  Unlike
    [vm_compute; reflexivity] it does not normalise the types and class
    instances the equation mentions. *)
Ltac vm_refl :=
  match goal with |- @eq ?A _ ?y => vm_cast_no_check (@eq_refl A y) end.

Ltac to_prop :=
  repeat match goal with
  | H : (_ && _)%bool = true |- _ => apply andb_true_iff in H; destruct H
  | H : (_ || _)%bool = false |- _ => apply orb_false_iff in H; destruct H
  | H : negb _ = true |- _ => apply negb_true_iff in H
  | H : negb _ = false |- _ => apply negb_false_iff in H
  | H : (_ <=? _) = true |- _ => apply Z.leb_le in H
  | H : (_ <=? _) = false |- _ => apply Z.leb_gt in H
  | H : (_ <? _) = true |- _ => apply Z.ltb_lt in H
  | H : (_ <? _) = false |- _ => apply Z.ltb_ge in H
  | H : (_ =? _) = true |- _ => apply Z.eqb_eq in H
  | H : (_ =? _) = false |- _ => apply Z.eqb_neq in H
  | H : (_ =? _)%nat = true |- _ => apply Nat.eqb_eq in H
  | H : (_ =? _)%nat = false |- _ => apply Nat.eqb_neq in H
  | H : (_ <=? _)%nat = true |- _ => apply Nat.leb_le in H
  | H : (_ <=? _)%nat = false |- _ => apply Nat.leb_gt in H
  | H : (_ <? _)%nat = true |- _ => apply Nat.ltb_lt in H
  | H : (_ <? _)%nat = false |- _ => apply Nat.ltb_ge in H
  | H : bool_decide _ = true |- _ => apply bool_decide_eq_true in H
  | H : bool_decide _ = false |- _ => apply bool_decide_eq_false in H
  end.

(** ** Lists *)

Lemma forallb_spec {A} (f : A → bool) l : forallb f l = true ↔ Forall (λ x, f x = true) l.
Proof.
  rewrite forallb_forall, Forall_forall. by setoid_rewrite list_elem_of_In.
Qed.

Lemma existsb_spec {A} (f : A → bool) l : existsb f l = true ↔ Exists (λ x, f x = true) l.
Proof.
  rewrite existsb_exists, Exists_exists. by setoid_rewrite list_elem_of_In.
Qed.

Lemma existsb_false {A} (f : A → bool) l : existsb f l = false ↔ Forall (λ x, f x = false) l.
Proof.
  induction l as [|x l IH]; simpl; [done|].
  by rewrite orb_false_iff, Forall_cons, IH.
Qed.

(** ** Sums *)

Definition zsum {A} (f : A → Z) (l : list A) : Z := foldr (λ x acc, f x + acc) 0 l.
Arguments zsum : simpl never.

Lemma zsum_app {A} (f : A → Z) l k : zsum f (l ++ k) = zsum f l + zsum f k.
Proof. unfold zsum. induction l as [|x l IH]; simpl; [done|]. rewrite IH. lia. Qed.

Lemma zsum_cons {A} (f : A → Z) x l : zsum f (x :: l) = f x + zsum f l.
Proof. done. Qed.

Lemma zsum_singleton {A} (f : A → Z) x : zsum f [x] = f x.
Proof. unfold zsum. simpl. lia. Qed.

Lemma zsum_snoc {A} (f : A → Z) l x : zsum f (l ++ [x]) = zsum f l + f x.
Proof. by rewrite zsum_app, zsum_singleton. Qed.

Lemma zsum_insert {A} (f : A → Z) l i x y :
  l !! i = Some x → zsum f (<[ i := y ]> l) = zsum f l - f x + f y.
Proof.
  revert i. induction l as [|z l IH]; intros [|i]; simpl; try done; rewrite !zsum_cons.
  - intros [= ->]. lia.
  - intros H. rewrite (IH i H). lia.
Qed.

Lemma zsum_nonneg {A} (f : A → Z) l : (∀ x, 0 <= f x) → 0 <= zsum f l.
Proof. intros Hf. induction l as [|x l IH]; [done|]. rewrite !zsum_cons. specialize (Hf x). lia. Qed.

Lemma zsum_mono {A} (f g : A → Z) l : (∀ x, f x <= g x) → zsum f l <= zsum g l.
Proof. intros Hf. induction l as [|x l IH]; [done|]. rewrite !zsum_cons. specialize (Hf x). lia. Qed.

(** ** Storing a [u64] in a signed column *)

Lemma as_i64_small x : 0 <= x <= i64_max → as_i64 x = x.
Proof. intros. unfold as_i64. break_if; to_prop; [done|lia]. Qed.

Lemma wrapping_u64_range x : in_u64 (wrapping_u64 x).
Proof. unfold in_u64, wrapping_u64, u64_max. pose proof (Z.mod_pos_bound x (2 ^ 64) ltac:(lia)). lia. Qed.

Lemma wrapping_small x : in_u64 x → wrapping_u64 x = x.
Proof. unfold in_u64, wrapping_u64, u64_max. intros. apply Z.mod_small. lia. Qed.

Lemma as_i64_u64 x : in_u64 x → wrapping_u64 (as_i64 x) = x.
Proof.
  unfold in_u64, as_i64, wrapping_u64, i64_max, u64_max. intros Hx. break_if; to_prop.
  - apply Z.mod_small. lia.
  - replace (x - 2 ^ 64) with (x + (-1) * 2 ^ 64) by lia. rewrite Z_mod_plus_full.
    apply Z.mod_small. lia.
Qed.
