(* ===== verification/Bytes.v ===== *)
(** Bytes and strings as the code handles them.

    A Rust [str] is its UTF-8 bytes, a list of integers in [0, 256).  Where the
    code walks [chars()], every character it singles out is ASCII, and no byte
    of a multi-byte encoding is below 128, so walking the bytes meets the same
    characters in the same order.  This file holds the ASCII classes, the slice
    and [str] methods the components call, and the byte order of [Ord for str]
    with the sorting facts the canonical encodings need. *)

From S2P Require Import Prelude.

Abbreviation bytes := (list Z) (only parsing).

(** A literal: the bytes of an ASCII string. *)
Definition lit (s : string) : bytes :=
  (λ a, Z.of_N (Ascii.N_of_ascii a)) <$> String.list_ascii_of_string s.
Arguments lit : simpl never.

Definition NUL : Z := 0.
Definition HT : Z := 9.
Definition LF : Z := 10.
Definition CR : Z := 13.
Definition CRLF : bytes := [CR; LF].
Definition SP : Z := 32.

(** ** ASCII classes *)

Definition is_ascii_upper (c : Z) : bool := (65 <=? c) && (c <=? 90).
Definition is_ascii_lower (c : Z) : bool := (97 <=? c) && (c <=? 122).
Definition is_ascii_digit (c : Z) : bool := (48 <=? c) && (c <=? 57).
Definition is_ascii_alphabetic (c : Z) : bool :=
  is_ascii_upper c || is_ascii_lower c.
Definition is_ascii_alphanumeric (c : Z) : bool :=
  is_ascii_alphabetic c || is_ascii_digit c.
Definition to_ascii_lower (c : Z) : Z :=
  if is_ascii_upper c then c + 32 else c.
Definition to_ascii_upper (c : Z) : Z :=
  if is_ascii_lower c then c - 32 else c.

Definition to_ascii_lowercase (s : bytes) : bytes := to_ascii_lower <$> s.
Definition to_ascii_uppercase (s : bytes) : bytes := to_ascii_upper <$> s.

(** [str::eq_ignore_ascii_case]. *)
Definition eq_ignore_ascii_case (a b : bytes) : bool :=
  bool_decide (to_ascii_lowercase a = to_ascii_lowercase b).

(** ** Slice and string methods *)

(** [contains(&b)] on a byte slice, [contains(c)] on a [str] for ASCII [c]. *)
Definition contains (c : Z) (s : bytes) : bool := existsb (Z.eqb c) s.

Fixpoint starts_with (s p : bytes) {struct p} : bool :=
  match p, s with
  | [], _ => true
  | c :: p', d :: s' => (c =? d) && starts_with s' p'
  | _ :: _, [] => false
  end.

(** [strip_prefix]: the rest after the prefix [p], if [s] starts with it. *)
Fixpoint strip_prefix (p s : bytes) : option bytes :=
  match p, s with
  | [], _ => Some s
  | c :: p', d :: s' => if c =? d then strip_prefix p' s' else None
  | _ :: _, [] => None
  end.

Definition strip_suffix (p s : bytes) : option bytes :=
  (@rev Z) <$> strip_prefix (rev p) (rev s).

(** [split(c)]: the pieces between occurrences of [c]; one empty piece for the
    empty string, as in Rust. *)
Fixpoint split (c : Z) (s : bytes) : list bytes :=
  match s with
  | [] => [[]]
  | d :: s' =>
      if d =? c then [] :: split c s'
      else match split c s' with
           | p :: ps => (d :: p) :: ps
           | [] => [[d]]
           end
  end.

(** [split_once(c)]: before and after the first [c]. *)
Fixpoint split_once (c : Z) (s : bytes) : option (bytes * bytes) :=
  match s with
  | [] => None
  | d :: s' =>
      if d =? c then Some ([], s')
      else match split_once c s' with
           | Some (l, r) => Some (d :: l, r)
           | None => None
           end
  end.

(** [Vec<&str>::join(sep)]. *)
Fixpoint join (sep : bytes) (l : list bytes) : bytes :=
  match l with
  | [] => []
  | [x] => x
  | x :: l' => x ++ sep ++ join sep l'
  end.

(** [haystack.windows(n).position(|w| w == needle)]. *)
Fixpoint find_subsequence (hay needle : bytes) : option nat :=
  if starts_with hay needle then Some O
  else match hay with
       | [] => None
       | _ :: hay' => S <$> find_subsequence hay' needle
       end.

(** [str::contains(&str)]. *)
Definition contains_seq (hay needle : bytes) : bool :=
  match find_subsequence hay needle with Some _ => true | None => false end.

(** UTF-8 continuation bytes, and the bytes of the first [char] of a string:
    its leading byte and the continuation bytes after it. *)
Definition is_continuation (b : Z) : bool := (128 <=? b) && (b <=? 191).

Fixpoint take_while (f : Z → bool) (s : bytes) : bytes :=
  match s with
  | [] => []
  | c :: s' => if f c then c :: take_while f s' else []
  end.

Fixpoint drop_while (f : Z → bool) (s : bytes) : bytes :=
  match s with
  | [] => []
  | c :: s' => if f c then drop_while f s' else s
  end.

Definition first_char (s : bytes) : bytes :=
  match s with
  | [] => []
  | c :: s' => c :: take_while is_continuation s'
  end.

(** ** Facts about the methods *)

Lemma take_drop_while f s : take_while f s ++ drop_while f s = s.
Proof. induction s as [|c s IH]; simpl; [done|]. destruct (f c); simpl; congruence. Qed.

Lemma contains_spec c s : contains c s = true ↔ c ∈ s.
Proof.
  unfold contains. rewrite existsb_exists. setoid_rewrite Z.eqb_eq.
  setoid_rewrite <- list_elem_of_In. naive_solver.
Qed.

Lemma contains_false c s : contains c s = false ↔ c ∉ s.
Proof. rewrite <- contains_spec. destruct (contains c s); naive_solver. Qed.

Lemma strip_prefix_Some p s r : strip_prefix p s = Some r ↔ s = p ++ r.
Proof.
  revert s. induction p as [|c p IH]; intros s; simpl; [naive_solver|].
  destruct s as [|d s]; [naive_solver|].
  destruct (Z.eqb_spec c d) as [->|]; [rewrite IH|]; split; congruence.
Qed.

Lemma strip_suffix_Some p s r : strip_suffix p s = Some r ↔ s = r ++ p.
Proof.
  unfold strip_suffix. rewrite fmap_Some.
  setoid_rewrite strip_prefix_Some. split.
  - intros (x & Hs & ->). rewrite <- (rev_involutive s), Hs.
    by rewrite rev_app_distr, rev_involutive.
  - intros ->. exists (rev r). by rewrite rev_app_distr, rev_involutive.
Qed.

Lemma starts_with_spec s p : starts_with s p = true ↔ ∃ r, s = p ++ r.
Proof.
  revert s. induction p as [|c p IH]; intros s; simpl.
  { split; [|done]. by exists s. }
  destruct s as [|d s]; [split; [done|by intros [r ?]]|].
  rewrite andb_true_iff, IH, Z.eqb_eq. split.
  - intros [-> [r ->]]. by exists r.
  - intros [r [= -> ->]]. eauto.
Qed.

Lemma split_not_nil c s : split c s ≠ [].
Proof. destruct s as [|d s]; simpl; [done|]. destruct (d =? c); [done|]. by destruct (split c s). Qed.

Lemma split_pieces c s p : p ∈ split c s → c ∉ p.
Proof.
  revert p. induction s as [|d s IH]; intros p; simpl.
  - intros ->%list_elem_of_singleton. by apply not_elem_of_nil.
  - destruct (Z.eqb_spec d c) as [->|Hne].
    + intros [->|?]%elem_of_cons; [apply not_elem_of_nil|auto].
    + destruct (split c s) as [|q qs] eqn:E;
        [by destruct (split_not_nil c s)|].
      intros [->|Hp]%elem_of_cons.
      * rewrite not_elem_of_cons. split; [congruence|]. apply IH. by left.
      * apply IH. by right.
Qed.

Lemma join_split c s : join [c] (split c s) = s.
Proof.
  induction s as [|d s IH]; [done|]. simpl.
  destruct (Z.eqb_spec d c) as [->|Hne].
  - destruct (split c s) eqn:E; [by destruct (split_not_nil c s)|].
    simpl. simpl in IH. by rewrite IH.
  - destruct (split c s) as [|q qs] eqn:E; [by destruct (split_not_nil c s)|].
    rewrite <- IH. by destruct qs.
Qed.

(** Splitting undoes joining when no piece holds the separator. *)
Lemma split_piece c p : c ∉ p → split c p = [p].
Proof.
  induction p as [|d p IH]; [done|]. simpl. intros Hc.
  apply not_elem_of_cons in Hc as [Hd Hp].
  destruct (Z.eqb_spec d c); [congruence|]. by rewrite IH.
Qed.

Lemma split_app_sep c p s : c ∉ p → split c (p ++ c :: s) = p :: split c s.
Proof.
  induction p as [|d p IH]; intros Hc; simpl.
  - by rewrite Z.eqb_refl.
  - apply not_elem_of_cons in Hc as [Hd Hp].
    destruct (Z.eqb_spec d c); [congruence|]. by rewrite IH.
Qed.

Lemma split_app c (x y : bytes) : split c (x ++ c :: y) = split c x ++ split c y.
Proof.
  induction x as [|d x IH]; [cbn; by rewrite Z.eqb_refl|]. cbn [app split]. destruct (d =? c); [by rewrite IH|].
  rewrite IH. pose proof (split_not_nil c x). by destruct (split c x).
Qed.

Lemma split_snoc c d (x : bytes) :
  d ≠ c → ∃ ls l, split c x = ls ++ [l] ∧ split c (x ++ [d]) = ls ++ [l ++ [d]].
Proof.
  intros Hd. induction x as [|e x (ls & l & E1 & E2)].
  - exists [], []. cbn. by rewrite (proj2 (Z.eqb_neq d c)).
  - cbn [app split]. rewrite E1, E2. destruct (e =? c); [by exists ([] :: ls), l|].
    destruct ls as [|l' ls]; [by exists [], (e :: l)|by exists ((e :: l') :: ls), l].
Qed.

Lemma split_join c l :
  l ≠ [] → Forall (λ p, c ∉ p) l → split c (join [c] l) = l.
Proof.
  intros Hne Hl. induction l as [|p l IH]; [done|].
  apply Forall_cons in Hl as [Hp Hl].
  destruct l as [|q l]; [by apply split_piece|].
  change (join [c] (p :: q :: l)) with (p ++ c :: join [c] (q :: l)).
  rewrite split_app_sep by done. by rewrite IH.
Qed.

Lemma split_once_Some c s l r :
  split_once c s = Some (l, r) ↔ s = l ++ c :: r ∧ c ∉ l.
Proof.
  revert l. induction s as [|d s IH]; intros l; simpl.
  - split; [done|]. intros [H _]. by destruct l.
  - destruct (Z.eqb_spec d c) as [->|Hne].
    + split; [intros [= <- <-]; split; [done|apply not_elem_of_nil]|].
      intros [Hs Hl]. destruct l as [|x l]; simplify_eq/=; [done|].
      set_solver.
    + split.
      * destruct (split_once c s) as [[l' r']|]; [|done].
        intros [= <- <-]. destruct (proj1 (IH l') eq_refl) as [-> Hl].
        split; [done|]. apply not_elem_of_cons. split; [congruence|done].
      * intros [Hs Hl]. destruct l as [|x l]; simplify_eq/=.
        apply not_elem_of_cons in Hl as [_ Hl].
        by rewrite (proj2 (IH l) (conj eq_refl Hl)).
Qed.

(** The first separator cuts a string in one way only. *)
Lemma sep_inj c (l1 l2 r1 r2 : bytes) :
  c ∉ l1 → c ∉ l2 → l1 ++ c :: r1 = l2 ++ c :: r2 → l1 = l2 ∧ r1 = r2.
Proof.
  intros H1 H2 Heq.
  assert (H1' : split_once c (l1 ++ c :: r1) = Some (l1, r1)) by by apply split_once_Some.
  rewrite Heq, (proj2 (split_once_Some c _ l2 r2)) in H1' by done. by simplify_eq.
Qed.

(** ** Case folding *)

Lemma to_ascii_lower_idemp c : to_ascii_lower (to_ascii_lower c) = to_ascii_lower c.
Proof.
  unfold to_ascii_lower, is_ascii_upper.
  repeat break_if; to_prop; try lia; done.
Qed.

Lemma to_ascii_lowercase_idemp s :
  to_ascii_lowercase (to_ascii_lowercase s) = to_ascii_lowercase s.
Proof.
  unfold to_ascii_lowercase. rewrite <- list_fmap_compose.
  apply list_fmap_ext. intros _ c _. apply to_ascii_lower_idemp.
Qed.

Lemma length_to_ascii_lowercase s : length (to_ascii_lowercase s) = length s.
Proof. apply length_fmap. Qed.

(** ** The byte order of [Ord for str] and [Ord for Vec<u8>] *)

Fixpoint lex_leb (a b : bytes) : bool :=
  match a, b with
  | [], _ => true
  | _ :: _, [] => false
  | x :: a', y :: b' => (x <? y) || ((x =? y) && lex_leb a' b')
  end.

Definition bytes_le (a b : bytes) : Prop := lex_leb a b = true.

#[export] Instance bytes_le_dec : RelDecision bytes_le.
Proof. intros a b. unfold bytes_le. apply _. Defined.

#[export] Instance bytes_le_trans : Transitive bytes_le.
Proof.
  unfold bytes_le. intros a. induction a as [|x a IH]; intros b c; [done|].
  destruct b as [|y b]; [done|]. destruct c as [|z c]; simpl; [done|].
  rewrite !orb_true_iff, !andb_true_iff, !Z.ltb_lt, !Z.eqb_eq.
  intros [?|[-> H1]] [?|[-> H2]]; [left; lia|left; lia|left; lia|].
  right. split; [done|]. by eapply IH.
Qed.

#[export] Instance bytes_le_antisymm : AntiSymm (=) bytes_le.
Proof.
  unfold bytes_le. intros a. induction a as [|x a IH]; intros [|y b]; simpl; try done.
  rewrite !orb_true_iff, !andb_true_iff, !Z.ltb_lt, !Z.eqb_eq.
  intros [?|[-> H1]] [?|[? H2]]; try lia. f_equal. by apply IH.
Qed.

#[export] Instance bytes_le_total : Total bytes_le.
Proof.
  unfold bytes_le. intros a. induction a as [|x a IH]; intros [|y b]; simpl; auto.
  rewrite !orb_true_iff, !andb_true_iff, !Z.ltb_lt, !Z.eqb_eq.
  destruct (IH b); destruct (Z.lt_trichotomy x y) as [?|[->|?]]; auto.
Qed.

(** [a.0.cmp(b.0).then_with(|| a.1.cmp(b.1))]. *)
Definition pair_leb (a b : bytes * bytes) : bool :=
  if bool_decide (a.1 = b.1) then lex_leb a.2 b.2 else lex_leb a.1 b.1.

Definition pair_le (a b : bytes * bytes) : Prop := pair_leb a b = true.

#[export] Instance pair_le_dec : RelDecision pair_le.
Proof. intros a b. unfold pair_le. apply _. Defined.

#[export] Instance pair_le_trans : Transitive pair_le.
Proof.
  intros [a1 a2] [b1 b2] [c1 c2]. unfold pair_le, pair_leb; simpl.
  destruct (decide (a1 = b1)) as [->|Hab], (decide (b1 = c1)) as [->|Hbc].
  - rewrite !bool_decide_eq_true_2 by done. apply bytes_le_trans.
  - by rewrite bool_decide_eq_true_2, bool_decide_eq_false_2.
  - by rewrite bool_decide_eq_false_2, bool_decide_eq_true_2.
  - rewrite !(bool_decide_eq_false_2 (_ = _)) by done. intros Hle1 Hle2.
    case_bool_decide; [|by apply (bytes_le_trans _ b1)]. subst.
    destruct Hab. by apply (anti_symm bytes_le).
Qed.

#[export] Instance pair_le_antisymm : AntiSymm (=) pair_le.
Proof.
  intros [a1 a2] [b1 b2]. unfold pair_le, pair_leb; simpl.
  destruct (decide (a1 = b1)) as [->|Hab].
  - rewrite !bool_decide_eq_true_2 by done. intros. f_equal.
    by apply (anti_symm bytes_le).
  - rewrite !bool_decide_eq_false_2 by congruence. intros.
    destruct Hab. by apply (anti_symm bytes_le).
Qed.

#[export] Instance pair_le_total : Total pair_le.
Proof.
  intros [a1 a2] [b1 b2]. unfold pair_le, pair_leb; simpl.
  destruct (decide (a1 = b1)) as [->|Hab].
  - rewrite !bool_decide_eq_true_2 by done. apply (total bytes_le).
  - rewrite !bool_decide_eq_false_2 by congruence. apply (total bytes_le).
Qed.

(** [sort_unstable]: the sorted permutation, unique for a total order. *)
Definition sort_bytes (l : list bytes) : list bytes := merge_sort bytes_le l.
Definition sort_pairs (l : list (bytes * bytes)) : list (bytes * bytes) :=
  merge_sort pair_le l.

Lemma merge_sort_perm_eq {A} (R : relation A) `{!RelDecision R, !Transitive R,
    !AntiSymm (=) R, !Total R} (l1 l2 : list A) :
  l1 ≡ₚ l2 → merge_sort R l1 = merge_sort R l2.
Proof.
  intros H. apply (Sorted_unique R).
  - by apply Sorted_merge_sort.
  - by apply Sorted_merge_sort.
  - by rewrite !merge_sort_Permutation.
Qed.

Lemma sort_bytes_perm l : sort_bytes l ≡ₚ l.
Proof. apply merge_sort_Permutation. Qed.

Lemma sort_pairs_perm l : sort_pairs l ≡ₚ l.
Proof. apply merge_sort_Permutation. Qed.

(** The sorts are proper for permutation: the encodings built on them do not
    see the order the caller listed things in. *)
#[export] Instance sort_bytes_proper : Proper ((≡ₚ) ==> (=)) sort_bytes.
Proof. intros l1 l2. apply merge_sort_perm_eq; apply _. Qed.

#[export] Instance sort_pairs_proper : Proper ((≡ₚ) ==> (=)) sort_pairs.
Proof. intros l1 l2. apply merge_sort_perm_eq; apply _. Qed.

(** ** Big-endian integers *)

Lemma length_be_bytes n x : length (be_bytes n x) = n.
Proof. induction n; simpl; auto. Qed.

Lemma be_bytes_inj n x y :
  0 <= x < 256 ^ Z.of_nat n → 0 <= y < 256 ^ Z.of_nat n →
  be_bytes n x = be_bytes n y → x = y.
Proof.
  assert (Hmod : ∀ n x y, be_bytes n x = be_bytes n y →
    x mod 256 ^ Z.of_nat n = y mod 256 ^ Z.of_nat n).
  { clear. intros n x y. induction n as [|n IH]; simpl be_bytes.
    - intros _. by rewrite !Z.mod_1_r.
    - intros [= Hh Ht%IH]. rewrite Nat2Z.inj_succ, Z.pow_succ_r by lia.
      rewrite (Z.mul_comm 256), !Z.rem_mul_r by lia. by rewrite Hh, Ht. }
  intros Hx Hy H%Hmod. by rewrite !Z.mod_small in H.
Qed.

(** ** Patterns of segments *)

(** A pattern matches a text that splits into one segment per character of it,
    [elem] saying what a character stands for. *)
Definition segmented (elem : Z → bytes → Prop) (pattern text : bytes) : Prop :=
  ∃ segs, Forall2 elem pattern segs ∧ text = concat segs.

Lemma segmented_nil elem t : segmented elem [] t ↔ t = [].
Proof.
  split.
  - intros (segs & H & ->). by apply Forall2_nil_inv_l in H as ->.
  - intros ->. by exists [].
Qed.

Lemma segmented_snoc elem p x t :
  segmented elem (p ++ [x]) t ↔ ∃ t1 s, t = t1 ++ s ∧ segmented elem p t1 ∧ elem x s.
Proof.
  split.
  - intros (segs & H & ->). apply Forall2_app_inv_l in H as (l & r & H1 & H2 & ->).
    apply Forall2_cons_inv_l in H2 as (s & r' & Hs & Hr & ->).
    apply Forall2_nil_inv_l in Hr as ->.
    exists (concat l), s. split_and!; [|by exists l|done].
    rewrite concat_app. simpl. by rewrite app_nil_r.
  - intros (t1 & s & -> & (l & H1 & ->) & Hs). exists (l ++ [s]). split.
    + by apply Forall2_app; repeat constructor.
    + rewrite concat_app. simpl. by rewrite app_nil_r.
Qed.

Lemma segmented_cons elem x p t :
  segmented elem (x :: p) t ↔ ∃ s t1, t = s ++ t1 ∧ elem x s ∧ segmented elem p t1.
Proof.
  split.
  - intros (segs & H & ->). apply Forall2_cons_inv_l in H as (s & segs' & Hs & H & ->). exists s, (concat segs').
    split_and!; [done|done|by exists segs'].
  - intros (s & t1 & -> & Hs & (l & H & ->)). exists (s :: l). split; [by constructor|done].
Qed.
