(* ===== verification/Decimal.v ===== *)
(** Decimal numbers: [u64::to_string] and [str::parse::<u64>]. *)

From S2P Require Import Prelude Bytes.

Module Decimal.

(** The digits of [x], most significant first; one unit of fuel per digit. *)
Fixpoint dec_digits (fuel : nat) (x : Z) : bytes :=
  match fuel with
  | O => []
  | S f => (if x <? 10 then [] else dec_digits f (x / 10)) ++ [48 + x mod 10]
  end.

(** A [u64] has at most twenty digits. *)
Definition to_decimal (x : Z) : bytes := dec_digits 20 x.

Definition dec_value (s : bytes) : Z := foldl (λ acc c, acc * 10 + (c - 48)) 0 s.

(** [str::parse::<u64>]: an optional [+], then digits, in range. *)
Definition parse_u64 (s : bytes) : option Z :=
  let ds := default s (strip_prefix [43] s) in
  match ds with
  | [] => None
  | _ => if forallb is_ascii_digit ds && (dec_value ds <=? u64_max) then Some (dec_value ds) else None
  end.

Lemma dec_value_snoc s c : dec_value (s ++ [c]) = dec_value s * 10 + (c - 48).
Proof. unfold dec_value. by rewrite foldl_app. Qed.

Lemma dec_digits_value fuel x :
  0 <= x < 10 ^ Z.of_nat fuel → dec_value (dec_digits fuel x) = x.
Proof.
  revert x. induction fuel as [|f IH]; intros x Hx.
  - simpl in *. unfold dec_value. simpl. lia.
  - cbn [dec_digits]. rewrite dec_value_snoc.
    rewrite Nat2Z.inj_succ, Z.pow_succ_r in Hx by lia.
    pose proof (Z.div_mod x 10 ltac:(lia)). destruct (x <? 10) eqn:Hlt; to_prop.
    + unfold dec_value. simpl. rewrite Z.mod_small by lia. lia.
    + rewrite IH; [lia|]. split; [apply Z.div_pos; lia|]. apply Z.div_lt_upper_bound; lia.
Qed.

Lemma dec_digits_digit fuel x : 0 <= x → Forall (λ c, is_ascii_digit c = true) (dec_digits fuel x).
Proof.
  revert x. induction fuel as [|f IH]; intros x Hx; [constructor|].
  cbn [dec_digits]. apply Forall_app. split.
  - destruct (x <? 10); [constructor|]. apply IH. apply Z.div_pos; lia.
  - constructor; [|constructor]. pose proof (Z.mod_pos_bound x 10 ltac:(lia)).
    unfold is_ascii_digit. apply andb_true_iff. split; apply Z.leb_le; lia.
Qed.

Lemma dec_digits_cons fuel x : 0 <= x → ∃ c s, dec_digits (S fuel) x = c :: s ∧ is_ascii_digit c = true.
Proof.
  intros Hx. pose proof (dec_digits_digit (S fuel) x Hx) as H.
  destruct (dec_digits (S fuel) x) as [|c s] eqn:E; [|inversion H; eauto].
  cbn [dec_digits] in E. by apply app_nil in E as [_ ?].
Qed.

(** What is printed is read back. *)
Lemma parse_to_decimal x : in_u64 x → parse_u64 (to_decimal x) = Some x.
Proof.
  intros Hx. unfold in_u64 in Hx. unfold parse_u64, to_decimal.
  assert (Hv : dec_value (dec_digits 20 x) = x).
  { apply dec_digits_value. unfold u64_max in Hx. lia. }
  pose proof (dec_digits_digit 20 x ltac:(lia)) as Hd. apply forallb_spec in Hd.
  destruct (dec_digits_cons 19 x ltac:(lia)) as (c & s & E & Hc). rewrite E in *.
  assert (Hp : strip_prefix [43] (c :: s) = None).
  { cbn [strip_prefix]. destruct (43 =? c) eqn:Hb; [|done]. to_prop. subst. vm_compute in Hc. done. }
  rewrite Hp. simpl default. rewrite Hd, Hv. destruct (x <=? u64_max) eqn:?; to_prop; [done|lia].
Qed.

End Decimal.
