(* ===== verification/Utf8.v ===== *)
(** UTF-8 as the standard library handles it.

    [std::str::from_utf8], [String::from_utf8_lossy], slicing a [str] by byte
    index (which panics inside a character), [trim] by the Unicode
    [White_Space] property and [trim_ascii].  The header scanners of the
    transit daemon call all of them on bytes a peer sent. *)

From S2P Require Import Prelude Bytes.

Module Utf8.

(** A panic unwinds the task that runs the code. *)
Inductive Panic := CharBoundary.

(** ** Well-formed sequences *)

Definition lead2 (b : Z) : bool := (194 <=? b) && (b <=? 223).
Definition lead3 (b : Z) : bool := (224 <=? b) && (b <=? 239).
Definition lead4 (b : Z) : bool := (240 <=? b) && (b <=? 244).

(** The second byte is restricted after E0, ED, F0 and F4. *)
Definition second_ok (b0 b1 : Z) : bool :=
  is_continuation b1 &&
  (if b0 =? 224 then 160 <=? b1
   else if b0 =? 237 then b1 <=? 159
   else if b0 =? 240 then 144 <=? b1
   else if b0 =? 244 then b1 <=? 143
   else true).

(** [std::str::from_utf8(s).is_ok()]. *)
Fixpoint is_utf8 (s : bytes) : bool :=
  match s with
  | [] => true
  | b0 :: s1 =>
      if b0 <? 128 then is_utf8 s1
      else if lead2 b0 then
        match s1 with
        | b1 :: s2 => is_continuation b1 && is_utf8 s2
        | _ => false
        end
      else if lead3 b0 then
        match s1 with
        | b1 :: b2 :: s3 => second_ok b0 b1 && is_continuation b2 && is_utf8 s3
        | _ => false
        end
      else if lead4 b0 then
        match s1 with
        | b1 :: b2 :: b3 :: s4 =>
            second_ok b0 b1 && is_continuation b2 && is_continuation b3 && is_utf8 s4
        | _ => false
        end
      else false
  end.

Definition from_utf8 (s : bytes) : option bytes := if is_utf8 s then Some s else None.

(** U+FFFD. *)
Definition REPLACEMENT : bytes := [239; 191; 189].

(** [String::from_utf8_lossy]: every maximal prefix of a malformed sequence is
    replaced. *)
Fixpoint from_utf8_lossy (s : bytes) : bytes :=
  match s with
  | [] => []
  | b0 :: s1 =>
      if b0 <? 128 then b0 :: from_utf8_lossy s1
      else if lead2 b0 then
        match s1 with
        | b1 :: s2 =>
            if is_continuation b1 then b0 :: b1 :: from_utf8_lossy s2
            else REPLACEMENT ++ from_utf8_lossy s1
        | [] => REPLACEMENT
        end
      else if lead3 b0 then
        match s1 with
        | b1 :: s2 =>
            if second_ok b0 b1 then
              match s2 with
              | b2 :: s3 =>
                  if is_continuation b2 then b0 :: b1 :: b2 :: from_utf8_lossy s3
                  else REPLACEMENT ++ from_utf8_lossy s2
              | [] => REPLACEMENT
              end
            else REPLACEMENT ++ from_utf8_lossy s1
        | [] => REPLACEMENT
        end
      else if lead4 b0 then
        match s1 with
        | b1 :: s2 =>
            if second_ok b0 b1 then
              match s2 with
              | b2 :: s3 =>
                  if is_continuation b2 then
                    match s3 with
                    | b3 :: s4 =>
                        if is_continuation b3 then b0 :: b1 :: b2 :: b3 :: from_utf8_lossy s4
                        else REPLACEMENT ++ from_utf8_lossy s3
                    | [] => REPLACEMENT
                    end
                  else REPLACEMENT ++ from_utf8_lossy s2
              | [] => REPLACEMENT
              end
            else REPLACEMENT ++ from_utf8_lossy s1
        | [] => REPLACEMENT
        end
      else REPLACEMENT ++ from_utf8_lossy s1
  end.

(** ** Slicing *)

(** [str::is_char_boundary]. *)
Definition is_char_boundary (s : bytes) (n : nat) : bool :=
  match n with
  | O => true
  | _ => match s !! n with
         | Some b => negb (is_continuation b)
         | None => (n =? length s)%nat
         end
  end.

(** [&s[..n]]. *)
Definition str_to (s : bytes) (n : nat) : result Panic bytes :=
  if is_char_boundary s n then Ok (take n s) else Err CharBoundary.

(** ** Trimming *)

(** [char::is_whitespace] on one-, two- and three-byte characters. *)
Definition ws1 (b : Z) : bool := ((9 <=? b) && (b <=? 13)) || (b =? 32).
Definition ws2 (b0 b1 : Z) : bool := (b0 =? 194) && ((b1 =? 133) || (b1 =? 160)).
Definition ws3 (b0 b1 b2 : Z) : bool :=
  ((b0 =? 225) && (b1 =? 154) && (b2 =? 128)) ||
  ((b0 =? 226) && (b1 =? 128) &&
     (((128 <=? b2) && (b2 <=? 138)) || (b2 =? 168) || (b2 =? 169) || (b2 =? 175))) ||
  ((b0 =? 226) && (b1 =? 129) && (b2 =? 159)) ||
  ((b0 =? 227) && (b1 =? 128) && (b2 =? 128)).

(** [str::trim_start]. *)
Fixpoint trim_start (s : bytes) : bytes :=
  match s with
  | [] => []
  | b0 :: s1 =>
      if ws1 b0 then trim_start s1
      else match s1 with
           | [] => s
           | b1 :: s2 =>
               if ws2 b0 b1 then trim_start s2
               else match s2 with
                    | [] => s
                    | b2 :: s3 => if ws3 b0 b1 b2 then trim_start s3 else s
                    end
           end
  end.

(** [str::trim_end], on the reversed bytes. *)
Fixpoint trim_end_rev (s : bytes) : bytes :=
  match s with
  | [] => []
  | b0 :: s1 =>
      if ws1 b0 then trim_end_rev s1
      else match s1 with
           | [] => s
           | b1 :: s2 =>
               if ws2 b1 b0 then trim_end_rev s2
               else match s2 with
                    | [] => s
                    | b2 :: s3 => if ws3 b2 b1 b0 then trim_end_rev s3 else s
                    end
           end
  end.

(** [str::trim]. *)
Definition trim (s : bytes) : bytes := rev (trim_end_rev (rev (trim_start s))).

(** [u8::is_ascii_whitespace]: unlike [ws1] it leaves out the vertical tab. *)
Definition is_ascii_whitespace (b : Z) : bool :=
  (b =? 9) || (b =? 10) || (b =? 12) || (b =? 13) || (b =? 32).

(** [trim_ascii_start], [trim_ascii]. *)
Definition trim_ascii_start (s : bytes) : bytes := drop_while is_ascii_whitespace s.
Definition trim_ascii (s : bytes) : bytes :=
  rev (drop_while is_ascii_whitespace (rev (trim_ascii_start s))).

(** ** Splitting at white space *)

(** [splitn(2, char::is_whitespace)]: before and after the first white-space
    character, if there is one. *)
Fixpoint split_once_ws (s : bytes) : option (bytes * bytes) :=
  match s with
  | [] => None
  | b0 :: s1 =>
      let next := match split_once_ws s1 with Some (l, r) => Some (b0 :: l, r) | None => None end in
      if ws1 b0 then Some ([], s1)
      else match s1 with
           | [] => next
           | b1 :: s2 =>
               if ws2 b0 b1 then Some ([], s2)
               else match s2 with
                    | [] => next
                    | b2 :: s3 => if ws3 b0 b1 b2 then Some ([], s3) else next
                    end
           end
  end.

(** [split_once] by a class of ASCII bytes. *)
Fixpoint split_once_by (f : Z → bool) (s : bytes) : option (bytes * bytes) :=
  match s with
  | [] => None
  | c :: s' =>
      if f c then Some ([], s')
      else match split_once_by f s' with Some (l, r) => Some (c :: l, r) | None => None end
  end.

(** [split] by a class of ASCII bytes. *)
Fixpoint split_by (f : Z → bool) (s : bytes) : list bytes :=
  match s with
  | [] => [[]]
  | c :: s' =>
      if f c then [] :: split_by f s'
      else match split_by f s' with p :: ps => (c :: p) :: ps | [] => [[c]] end
  end.

(** [split_ascii_whitespace]. *)
Definition split_ascii_whitespace (s : bytes) : list bytes :=
  List.filter (λ p, negb (bool_decide (p = []))) (split_by is_ascii_whitespace s).

(** ** ASCII *)

Definition ascii (s : bytes) : Prop := Forall (λ b, 0 <= b < 128) s.

Lemma ascii_is_utf8 s : ascii s → is_utf8 s = true.
Proof.
  induction 1 as [|b s Hb _ IH]; simpl; [done|]. by rewrite (proj2 (Z.ltb_lt b 128)) by lia.
Qed.

Lemma ascii_not_continuation b : 0 <= b < 128 → is_continuation b = false.
Proof. unfold is_continuation. intros Hb. by rewrite (proj2 (Z.leb_gt 128 b)) by lia. Qed.

Lemma ascii_boundary s n : ascii s → (n <= length s)%nat → is_char_boundary s n = true.
Proof.
  intros Hs Hn. unfold is_char_boundary. destruct n; [done|].
  destruct (s !! S n) as [b|] eqn:E.
  - rewrite ascii_not_continuation; [done|]. by eapply Forall_lookup_1 in Hs.
  - apply lookup_ge_None in E. apply Nat.eqb_eq. lia.
Qed.

Lemma ascii_no_wide b0 b1 b2 : 0 <= b0 < 128 → ws2 b0 b1 = false ∧ ws3 b0 b1 b2 = false.
Proof.
  intros Hb. unfold ws2, ws3.
  rewrite !(proj2 (Z.eqb_neq b0 _)) by lia. done.
Qed.

Lemma trim_start_ascii s : ascii s → trim_start s = drop_while ws1 s.
Proof.
  induction 1 as [|b s Hb _ IH]; simpl; [done|]. destruct (ws1 b); [done|].
  destruct s as [|b1 [|b2 s]]; [done| |];
    by rewrite ?(proj1 (ascii_no_wide b b1 0 Hb)), ?(proj2 (ascii_no_wide b b1 b2 Hb)).
Qed.

Lemma ascii_no_wide_rev b0 b1 b2 : 0 <= b0 < 128 → ws2 b1 b0 = false ∧ ws3 b2 b1 b0 = false.
Proof.
  intros Hb. unfold ws2, ws3.
  rewrite !(proj2 (Z.eqb_neq b0 _)), (proj2 (Z.leb_gt 128 b0)) by lia.
  split; [by rewrite andb_false_r|]. by rewrite ?andb_false_r.
Qed.

Lemma trim_end_rev_ascii s : ascii s → trim_end_rev s = drop_while ws1 s.
Proof.
  induction 1 as [|b s Hb _ IH]; simpl; [done|]. destruct (ws1 b); [done|].
  destruct s as [|b1 [|b2 s]]; [done| |];
    by rewrite ?(proj1 (ascii_no_wide_rev b b1 0 Hb)), ?(proj2 (ascii_no_wide_rev b b1 b2 Hb)).
Qed.

(** A word of printable ASCII. *)
Definition graphic (b : Z) : Prop := 33 <= b < 127.
Definition token (s : bytes) : Prop := s ≠ [] ∧ Forall graphic s.

Lemma token_ascii s : Forall graphic s → ascii s.
Proof. intros H. eapply Forall_impl; [exact H|]. unfold graphic. simpl. lia. Qed.

Lemma graphic_ws1 b : graphic b → ws1 b = false.
Proof.
  unfold graphic, ws1. intros Hb. rewrite (proj2 (Z.leb_gt b 13)) by lia.
  rewrite (proj2 (Z.eqb_neq b 32)) by lia. by rewrite andb_false_r.
Qed.

Lemma graphic_whitespace b : graphic b → is_ascii_whitespace b = false.
Proof.
  unfold graphic, is_ascii_whitespace. intros Hb. by rewrite !(proj2 (Z.eqb_neq b _)) by lia.
Qed.

Lemma split_once_ws_token s r :
  Forall graphic s → split_once_ws (s ++ SP :: r) = Some (s, r).
Proof.
  induction 1 as [|b s Hb _ IH]; [done|]. cbn [app split_once_ws]. rewrite IH, (graphic_ws1 b Hb).
  unfold graphic in Hb. destruct (s ++ SP :: r) as [|b1 [|b2 s3]]; [done| |];
    by rewrite ?(proj1 (ascii_no_wide b b1 0 ltac:(lia))), ?(proj2 (ascii_no_wide b b1 b2 ltac:(lia))).
Qed.

Lemma split_once_ws_none s : Forall graphic s → split_once_ws s = None.
Proof.
  induction 1 as [|b s Hb _ IH]; [done|]. cbn [split_once_ws]. rewrite IH, (graphic_ws1 b Hb).
  unfold graphic in Hb. destruct s as [|b1 [|b2 s3]]; [done| |];
    by rewrite ?(proj1 (ascii_no_wide b b1 0 ltac:(lia))), ?(proj2 (ascii_no_wide b b1 b2 ltac:(lia))).
Qed.

Lemma split_once_by_first f s c r :
  Forall (λ b, f b = false) s → f c = true → split_once_by f (s ++ c :: r) = Some (s, r).
Proof.
  intros Hs Hc. induction Hs as [|b s Hb _ IH]; simpl; [by rewrite Hc|]. by rewrite Hb, IH.
Qed.

Lemma split_once_by_none f s : Forall (λ b, f b = false) s → split_once_by f s = None.
Proof. induction 1 as [|b s Hb _ IH]; simpl; [done|]. by rewrite Hb, IH. Qed.

Lemma split_by_first f s c r :
  Forall (λ b, f b = false) s → f c = true → split_by f (s ++ c :: r) = s :: split_by f r.
Proof.
  intros Hs Hc. induction Hs as [|b s Hb _ IH]; simpl; [by rewrite Hc|]. by rewrite Hb, IH.
Qed.

Lemma split_by_none f s : Forall (λ b, f b = false) s → split_by f s = [s].
Proof. induction 1 as [|b s Hb _ IH]; simpl; [done|]. by rewrite Hb, IH. Qed.

Lemma token_not_whitespace s : Forall graphic s → Forall (λ b, is_ascii_whitespace b = false) s.
Proof. intros H. eapply Forall_impl; [exact H|]. apply graphic_whitespace. Qed.

Lemma split_ascii_whitespace_token s r :
  token s → split_ascii_whitespace (s ++ SP :: r) = s :: split_ascii_whitespace r.
Proof.
  intros [Hne Hs]. unfold split_ascii_whitespace.
  rewrite split_by_first by (done || by apply token_not_whitespace). simpl.
  by rewrite bool_decide_eq_false_2.
Qed.

Lemma split_ascii_whitespace_one s : token s → split_ascii_whitespace s = [s].
Proof.
  intros [Hne Hs]. unfold split_ascii_whitespace. rewrite split_by_none by by apply token_not_whitespace.
  simpl. by rewrite bool_decide_eq_false_2.
Qed.

(** Text that [trim] leaves alone: ASCII that neither begins nor ends with a
    space. *)
Definition bordered (s : bytes) : Prop :=
  ascii s ∧ (∀ b s', s = b :: s' → ws1 b = false) ∧ (∀ b s', s = s' ++ [b] → ws1 b = false).

Lemma trim_bordered s : bordered s → trim s = s.
Proof.
  intros (Ha & Hf & Hl). unfold trim. rewrite trim_start_ascii by done.
  assert (drop_while ws1 s = s) as ->.
  { destruct s as [|b s]; [done|]. simpl. by rewrite (Hf b s). }
  rewrite trim_end_rev_ascii by (by apply List.Forall_rev).
  destruct s as [|b s _] using rev_ind; [done|]. rewrite rev_app_distr. simpl.
  rewrite (Hl b s) by done. simpl. by rewrite rev_involutive.
Qed.

Lemma token_bordered s : Forall graphic s → bordered s.
Proof.
  intros Hs. split_and!; [by apply token_ascii| |].
  - intros b s' ->. inversion Hs. by apply graphic_ws1.
  - intros b s' ->. apply Forall_app in Hs as [_ Hb]. inversion Hb. by apply graphic_ws1.
Qed.

Lemma bordered_words s t : bordered s → bordered t → s ≠ [] → t ≠ [] → bordered (s ++ SP :: t).
Proof.
  intros (Ha & Hf & _) (Ha' & _ & Hl') Hs Ht. split_and!.
  - apply Forall_app. split; [done|]. apply Forall_cons. split; [done|done].
  - intros b s' Heq. destruct s as [|c s]; [done|]. injection Heq as -> _. by eapply Hf.
  - intros b s' Heq. destruct t as [|c t _] using rev_ind; [done|].
    replace (s ++ SP :: t ++ [c]) with ((s ++ SP :: t) ++ [c]) in Heq by (by rewrite <- app_assoc).
    apply app_inj_tail in Heq as [_ ->]. by eapply Hl'.
Qed.

(** Trimming only removes. *)
Lemma trim_start_elem c : ∀ s, c ∈ trim_start s → c ∈ s.
Proof.
  fix IH 1. intros [|b0 s1]; [done|]. cbn [trim_start]. destruct (ws1 b0).
  { intros H%IH. by apply list_elem_of_further. }
  destruct s1 as [|b1 s2]; [done|]. destruct (ws2 b0 b1).
  { intros H%IH. by do 2 apply list_elem_of_further. }
  destruct s2 as [|b2 s3]; [done|]. destruct (ws3 b0 b1 b2); [|done].
  intros H%IH. by do 3 apply list_elem_of_further.
Qed.

Lemma trim_end_rev_elem c : ∀ s, c ∈ trim_end_rev s → c ∈ s.
Proof.
  fix IH 1. intros [|b0 s1]; [done|]. cbn [trim_end_rev]. destruct (ws1 b0).
  { intros H%IH. by apply list_elem_of_further. }
  destruct s1 as [|b1 s2]; [done|]. destruct (ws2 b1 b0).
  { intros H%IH. by do 2 apply list_elem_of_further. }
  destruct s2 as [|b2 s3]; [done|]. destruct (ws3 b2 b1 b0); [|done].
  intros H%IH. by do 3 apply list_elem_of_further.
Qed.

Lemma trim_elem c s : c ∈ trim s → c ∈ s.
Proof.
  unfold trim. intros H. rewrite list_elem_of_In, <- in_rev, <- list_elem_of_In in H.
  apply trim_end_rev_elem in H. rewrite list_elem_of_In, <- in_rev, <- list_elem_of_In in H.
  by apply trim_start_elem.
Qed.

(** ** Lossy decoding *)

(** Lossy decoding adds no ASCII byte. *)
Lemma lossy_elem c s : 0 <= c < 128 → c ∈ from_utf8_lossy s → c ∈ s.
Proof.
  intros Hc. assert (Hr : c ∉ REPLACEMENT) by (unfold REPLACEMENT; rewrite !elem_of_cons, elem_of_nil; lia).
  remember (length s) as n eqn:Hn. assert (Hle : (length s <= n)%nat) by lia. clear Hn.
  revert s Hle. induction n as [|n IH]; intros [|b0 s1] Hle; try done; [simpl in Hle; lia|].
  assert (Hstep : ∀ t, (length t <= n)%nat → c ∈ REPLACEMENT ++ from_utf8_lossy t → c ∈ t).
  { intros t Ht. rewrite elem_of_app. intros [?|?]; [tauto|auto]. }
  cbn [from_utf8_lossy]. simpl in Hle.
  destruct s1 as [|b1 [|b2 [|b3 s4]]]; simpl in Hle; repeat case_match; intros Hin;
    first [tauto | apply Hstep in Hin; [|simpl; lia] |
      repeat (apply elem_of_cons in Hin as [Hin|Hin]; [rewrite !elem_of_cons; tauto|]);
      apply IH in Hin; [|simpl; lia] ];
    rewrite ?elem_of_cons in *; tauto.
Qed.

Lemma lossy_valid s : is_utf8 s = true → from_utf8_lossy s = s.
Proof.
  induction s as [s IH] using (induction_ltof1 _ length). unfold ltof in IH.
  assert (IH' : ∀ a b, s = a :: b → is_utf8 b = true → from_utf8_lossy b = b)
    by (intros a b -> ?; apply IH; simpl; [lia|done]).
  destruct s as [|b0 s1]; [done|]. simpl. destruct (b0 <? 128); [intros; f_equal; eauto|].
  destruct (lead2 b0); [|destruct (lead3 b0); [|destruct (lead4 b0); [|done]]].
  - destruct s1 as [|b1 s2]; [done|]. intros [-> H]%andb_true_iff.
    do 2 f_equal. apply IH; simpl; [lia|done].
  - destruct s1 as [|b1 [|b2 s3]]; [done..|]. intros [[-> ->]%andb_true_iff H]%andb_true_iff.
    do 3 f_equal. apply IH; simpl; [lia|done].
  - destruct s1 as [|b1 [|b2 [|b3 s4]]]; [done..|].
    intros [[[-> ->]%andb_true_iff ->]%andb_true_iff H]%andb_true_iff.
    do 4 f_equal. apply IH; simpl; [lia|done].
Qed.

(** Valid text followed by anything. *)
Lemma is_utf8_app s t : is_utf8 s = true → is_utf8 (s ++ t) = is_utf8 t.
Proof.
  induction s as [s IH] using (induction_ltof1 _ length). unfold ltof in IH.
  destruct s as [|b0 s1]; [done|]. cbn [app is_utf8].
  destruct (b0 <? 128); [intros; apply IH; simpl; [lia|done]|].
  destruct (lead2 b0); [|destruct (lead3 b0); [|destruct (lead4 b0); [|done]]].
  - destruct s1 as [|b1 s2]; [done|]. cbn [app]. intros [-> H]%andb_true_iff. apply IH; simpl; [lia|done].
  - destruct s1 as [|b1 [|b2 s3]]; [done..|]. cbn [app]. intros [[-> ->]%andb_true_iff H]%andb_true_iff.
    apply IH; simpl; [lia|done].
  - destruct s1 as [|b1 [|b2 [|b3 s4]]]; [done..|]. cbn [app].
    intros [[[-> ->]%andb_true_iff ->]%andb_true_iff H]%andb_true_iff. apply IH; simpl; [lia|done].
Qed.

Lemma replacement_utf8 s : is_utf8 (REPLACEMENT ++ s) = is_utf8 s.
Proof. done. Qed.

(** The result of a lossy decoding is a [String]. *)
Lemma lossy_utf8 s : is_utf8 (from_utf8_lossy s) = true.
Proof.
  induction s as [s IH] using (induction_ltof1 _ length). unfold ltof in IH.
  destruct s as [|b0 s1]; [done|]. cbn [from_utf8_lossy].
  repeat match goal with
  | |- context [if ?b then _ else _] => destruct b eqn:?
  | |- context [match ?l with [] => _ | _ :: _ => _ end] => destruct l
  end; rewrite ?replacement_utf8; try done; try (apply IH; simpl; lia);
    try (cbn [is_utf8]; repeat match goal with H : _ = _ |- _ => rewrite H end; cbn [andb]);
    try (apply IH; simpl; lia).
Qed.

End Utf8.
