(* ===== verification/Sql.v ===== *)
(** Access to an SQL database through [sqlx].

    A pool is the committed rows and the outcomes the database will give to the
    coming round trips; a pool is reliable when it holds no failure.  A
    transaction works on a copy of the rows that [commit_tx] installs, so that
    an early return rolls back. *)

From S2P Require Import Prelude Bytes.

Module Sql.

Record Pool (T : Type) := mkPool { rows : T; faults : list bool }.
Arguments mkPool {T} rows faults.
Arguments rows {T} p.
Arguments faults {T} p.

Section Sql.
Context {T : Type}.

Definition pool_reliable (p : Pool T) : Prop := Forall (λ f, f = false) (faults p).

(** One [begin], [execute], [fetch] or [commit]; [Err] is [sqlx::Error]. *)
Definition round_trip : prog (Pool T) () () := λ p,
  match faults p with
  | [] => (Ok tt, p)
  | f :: fs => (if f then Err tt else Ok tt, mkPool (rows p) fs)
  end.

Definition select {A} (f : T → A) : prog (Pool T) () A := λ p,
  match round_trip p with
  | (Ok _, p') => (Ok (f (rows p')), p')
  | (Err e, p') => (Err e, p')
  end.

(** [pool.begin()]: the working copy. *)
Definition begin_tx : prog (Pool T) () T := select id.

(** [tx.commit()]. *)
Definition commit_tx (t : T) : prog (Pool T) () () := λ p,
  match round_trip p with
  | (Ok _, p') => (Ok tt, mkPool t (faults p'))
  | (Err e, p') => (Err e, p')
  end.

(** A single statement run outside a transaction. *)
Definition execute (f : T → T) : prog (Pool T) () () := λ p,
  match round_trip p with
  | (Ok _, p') => (Ok tt, mkPool (f (rows p')) (faults p'))
  | (Err e, p') => (Err e, p')
  end.

(** [m] leaves the rows related by [Q] or, on an error, as they were; only an
    unreliable pool can make it fail otherwise than [X] says. *)
Definition db_outcome {E A} (p : Pool T) (m : prog (Pool T) E A) (Q : A → T → Prop)
    (X : E → Prop) : Prop :=
  match m p with
  | (Ok a, p') => (pool_reliable p → pool_reliable p') ∧ Q a (rows p')
  | (Err e, p') =>
      (pool_reliable p → pool_reliable p') ∧ rows p' = rows p ∧ (X e ∨ ¬ pool_reliable p)
  end.

Lemma round_trip_rows (p : Pool T) : rows (round_trip p).2 = rows p.
Proof. unfold round_trip. destruct (faults p) as [|[] fs]; done. Qed.

Lemma round_trip_ok p (X : () → Prop) :
  db_outcome p round_trip (λ _ t, t = rows p) X.
Proof.
  unfold db_outcome, round_trip, pool_reliable. destruct p as [t [|[] fs]]; simpl; [done| |].
  - rewrite Forall_cons. split_and!; [tauto|done|]. right. naive_solver.
  - rewrite Forall_cons. tauto.
Qed.

Lemma select_ok {A} (f : T → A) p (X : () → Prop) :
  db_outcome p (select f) (λ a t, t = rows p ∧ a = f (rows p)) X.
Proof.
  pose proof (round_trip_ok p X) as H. unfold db_outcome, select in *.
  destruct (round_trip p) as [[a|e] p']; [|done]. destruct H as (? & Ht). rewrite Ht. auto.
Qed.

Lemma begin_tx_ok p (X : () → Prop) :
  db_outcome p begin_tx (λ a t, t = rows p ∧ a = rows p) X.
Proof. apply (select_ok id). Qed.

Lemma execute_ok (f : T → T) p (X : () → Prop) :
  db_outcome p (execute f) (λ _ t, t = f (rows p)) X.
Proof.
  pose proof (round_trip_ok p X) as H. unfold db_outcome, execute in *.
  destruct (round_trip p) as [[a|e] p']; [|done]. destruct H as (? & Ht). by rewrite Ht.
Qed.

Lemma commit_tx_ok t p (X : () → Prop) :
  db_outcome p (commit_tx t) (λ _ t', t' = t) X.
Proof.
  pose proof (round_trip_ok p X) as H. unfold db_outcome, commit_tx in *.
  destruct (round_trip p) as [[a|e] p']; [|done]. destruct H as (? & Ht). done.
Qed.

Lemma db_outcome_map_err {E E' A} (f : E → E') p (m : prog (Pool T) E A) Q (X : E' → Prop) :
  db_outcome p m Q (λ e, X (f e)) → db_outcome p (prog_map_err f m) Q X.
Proof. unfold db_outcome, prog_map_err. by destruct (m p) as [[a|e] p']. Qed.

Lemma db_outcome_impl {E A} p (m : prog (Pool T) E A) (Q Q' : A → T → Prop) (X X' : E → Prop) :
  db_outcome p m Q X → (∀ a t, Q a t → Q' a t) → (∀ e, X e → X' e) → db_outcome p m Q' X'.
Proof. unfold db_outcome. destruct (m p) as [[a|e] p']; naive_solver. Qed.

Lemma db_outcome_ret {E A} p (a : A) (Q : A → T → Prop) (X : E → Prop) :
  Q a (rows p) → db_outcome p (mret a) Q X.
Proof. done. Qed.

Lemma db_outcome_throw {E A} p (e : E) (Q : A → T → Prop) (X : E → Prop) :
  X e → db_outcome p (throw e) Q X.
Proof. unfold db_outcome. simpl. auto. Qed.

(** A step that leaves the committed rows alone, followed by the rest. *)
Lemma db_outcome_bind {E A B} p (m : prog (Pool T) E A) (k : A → prog (Pool T) E B)
    (P : A → Prop) Q X :
  db_outcome p m (λ a t, t = rows p ∧ P a) X →
  (∀ a p', rows p' = rows p → P a → db_outcome p' (k a) Q X) →
  db_outcome p (mbind k m) Q X.
Proof.
  unfold db_outcome, mbind, prog_bind. destruct (m p) as [[a|e] p']; [|done].
  intros (Hr & Ht & HP) Hk. specialize (Hk a p' Ht HP).
  destruct (k a p') as [[b|e] p'']; destruct Hk as (Hr' & Hk); [split; [auto|done]|].
  destruct Hk as (-> & HX). split_and!; [auto|done|tauto].
Qed.

(** A statement inside a transaction: it only costs a round trip. *)
Lemma db_outcome_trip {E B} (f : () → E) p (k : prog (Pool T) E B) Q X :
  (∀ p', rows p' = rows p → db_outcome p' k Q X) →
  db_outcome p (mbind (λ _, k) (prog_map_err f round_trip)) Q X.
Proof.
  intros Hk. eapply (db_outcome_bind _ _ _ (λ _, True)); [|auto].
  apply db_outcome_map_err.
  eapply db_outcome_impl; [apply (round_trip_ok p (λ e, X (f e)))|naive_solver|done].
Qed.

(** A reliable pool answers. *)
Lemma round_trip_reliable p :
  pool_reliable p → ∃ p', round_trip p = (Ok tt, p') ∧ rows p' = rows p ∧ pool_reliable p'.
Proof.
  destruct p as [t [|[] fs]]; unfold pool_reliable; simpl; intros Hp; [by eexists|by apply Forall_cons in Hp as [? _]|].
  apply Forall_cons in Hp as [_ Hp]. by eexists.
Qed.

Lemma execute_reliable f p :
  pool_reliable p → ∃ p', execute f p = (Ok tt, p') ∧ rows p' = f (rows p) ∧ pool_reliable p'.
Proof.
  intros (p' & E & <- & Hp)%round_trip_reliable. unfold execute. rewrite E. by eexists.
Qed.

Lemma select_reliable {A} (f : T → A) p :
  pool_reliable p → ∃ p', select f p = (Ok (f (rows p)), p') ∧ rows p' = rows p ∧ pool_reliable p'.
Proof. intros (p' & E & <- & Hp)%round_trip_reliable. unfold select. rewrite E. by eexists. Qed.

End Sql.

#[export] Hint Resolve round_trip_ok select_ok begin_tx_ok execute_ok commit_tx_ok
  db_outcome_map_err db_outcome_ret db_outcome_throw : sql_db.

End Sql.
