(* ===== verification/Hlc.v ===== *)
(** The hybrid logical clock: [crates/core/src/hlc.rs], and its persistence
    across restarts, [crates/transit/src/hlc_persist.rs] with the start-up code
    of [crates/transit/src/main.rs].

    A timestamp [(wall_ms, logical, node_id)] is compared lexicographically.
    The theorems reduce the clock to one number, the tick
    [wall_ms * 2^32 + logical]: [send] and [receive] are maxima of ticks, from
    which strict monotonicity of every trace and the bound on how far a peer
    can push the clock follow. *)

From S2P Require Import Prelude Bytes.

Module Hlc.

(** ** Data *)

Record HlcTimestamp := mkTs { wall_ms : Z; logical : Z; node_id : bytes }.

#[export] Instance HlcTimestamp_eq_dec : EqDecision HlcTimestamp.
Proof. solve_decision. Defined.

(** Derived [Ord]: field by field, in declaration order. *)
Definition ts_ltb (a b : HlcTimestamp) : bool :=
  (wall_ms a <? wall_ms b) ||
  ((wall_ms a =? wall_ms b) &&
   ((logical a <? logical b) ||
    ((logical a =? logical b) && negb (lex_leb (node_id b) (node_id a))))).

Definition ts_lt (a b : HlcTimestamp) : Prop := ts_ltb a b = true.

Inductive HlcError :=
| ClockSkewExceeded (observed_ms now_ms max_skew_ms : Z).

Definition DEFAULT_MAX_CLOCK_SKEW_MS : Z := 5000.

Record HlcClock := mkClock {
  last : HlcTimestamp;
  clock_node_id : bytes;
  max_clock_skew_ms : Z
}.

(** ** Operations *)

Definition new (nid : bytes) (initial_wall_ms : Z) : HlcClock :=
  mkClock (mkTs initial_wall_ms 0 nid) nid DEFAULT_MAX_CLOCK_SKEW_MS.

Definition new_seeded (nid : bytes) (now_ms : Z) (checkpoint : HlcTimestamp) : HlcClock :=
  let last :=
    if now_ms <=? wall_ms checkpoint
    then mkTs (wall_ms checkpoint) (logical checkpoint) nid
    else mkTs now_ms 0 nid in
  mkClock last nid DEFAULT_MAX_CLOCK_SKEW_MS.

Definition last_timestamp (c : HlcClock) : HlcTimestamp := last c.

(** [match logical.checked_add(1) { Some(l) => l, None => { new_wall += 1; 0 } }]:
    the pair (new_wall, new_logical) after the bump. *)
Definition bump_logical (new_wall l : Z) : Z * Z :=
  match checked_add_u32 l 1 with
  | Some l' => (new_wall, l')
  | None => (wrapping_u64 (new_wall + 1), 0)
  end.

Definition send (c : HlcClock) (now_ms : Z) : HlcTimestamp * HlcClock :=
  let new_wall := Z.max (wall_ms (last c)) now_ms in
  let '(new_wall, new_logical) :=
    if new_wall =? wall_ms (last c)
    then bump_logical new_wall (logical (last c))
    else (new_wall, 0) in
  let last' := mkTs new_wall new_logical (clock_node_id c) in
  (last', mkClock last' (clock_node_id c) (max_clock_skew_ms c)).

Definition receive (c : HlcClock) (now_ms : Z) (observed : HlcTimestamp)
  : result HlcError HlcTimestamp * HlcClock :=
  if (now_ms <? wall_ms observed) && (max_clock_skew_ms c <? wall_ms observed - now_ms)
  then (Err (ClockSkewExceeded (wall_ms observed) now_ms (max_clock_skew_ms c)), c)
  else
    let new_wall := Z.max (Z.max (wall_ms (last c)) (wall_ms observed)) now_ms in
    let '(new_wall, new_logical) :=
      if (new_wall =? wall_ms (last c)) && (new_wall =? wall_ms observed)
      then bump_logical new_wall (Z.max (logical (last c)) (logical observed))
      else if new_wall =? wall_ms (last c)
      then bump_logical new_wall (logical (last c))
      else if new_wall =? wall_ms observed
      then bump_logical new_wall (logical observed)
      else (new_wall, 0) in
    let last' := mkTs new_wall new_logical (clock_node_id c) in
    (Ok last', mkClock last' (clock_node_id c) (max_clock_skew_ms c)).

(** *** Persistence *)

(** [u64 as i64], [i64 as u64] and [i64 as u32]. *)
Definition u64_as_i64 (x : Z) : Z := if x <=? i64_max then x else x - 2 ^ 64.
Definition i64_as_u64 (x : Z) : Z := x mod 2 ^ 64.
Definition i64_as_u32 (x : Z) : Z := x mod 2 ^ 32.

(** The single row of [hlc_checkpoint]. *)
Record HlcRow := mkRow { row_wall : Z; row_logical : Z; row_saved_at : Z; row_node : bytes }.

Definition save_hlc_checkpoint (ts : HlcTimestamp) (now_ms : Z) (_ : option HlcRow)
  : option HlcRow :=
  Some (mkRow (u64_as_i64 (wall_ms ts)) (logical ts) (u64_as_i64 now_ms) (node_id ts)).

Definition load_hlc_checkpoint (row : option HlcRow) : option HlcTimestamp :=
  (λ r, mkTs (i64_as_u64 (row_wall r)) (i64_as_u32 (row_logical r))
             (take 8 (row_node r) ++ replicate (8 - length (row_node r)) 0)) <$> row.

(** The clock of a starting daemon; [None] stands for a missing row and for a
    failed read alike, as in [main.rs]. *)
Definition startup_clock (nid : bytes) (now_ms : Z) (loaded : option HlcTimestamp) : HlcClock :=
  match loaded with
  | Some checkpoint => new_seeded nid now_ms checkpoint
  | None => new nid now_ms
  end.

(** *** Traces *)

Inductive HlcEvent :=
| Send (now_ms : Z)
| Receive (now_ms : Z) (observed : HlcTimestamp).

Definition hlc_step (c : HlcClock) (ev : HlcEvent) : option HlcTimestamp * HlcClock :=
  match ev with
  | Send now => let '(ts, c') := send c now in (Some ts, c')
  | Receive now obs =>
      match receive c now obs with
      | (Ok ts, c') => (Some ts, c')
      | (Err _, c') => (None, c')
      end
  end.

(** The timestamps a clock emits over a list of events, and its final state. *)
Fixpoint hlc_run (c : HlcClock) (evs : list HlcEvent) : list HlcTimestamp * HlcClock :=
  match evs with
  | [] => ([], c)
  | ev :: evs' =>
      let '(o, c1) := hlc_step c ev in
      let '(out, c2) := hlc_run c1 evs' in
      (match o with Some ts => ts :: out | None => out end, c2)
  end.

(** ** Ticks *)

Definition tick (ts : HlcTimestamp) : Z := wall_ms ts * 2 ^ 32 + logical ts.

Definition wf_ts (ts : HlcTimestamp) : Prop := in_u64 (wall_ms ts) ∧ in_u32 (logical ts).

Definition ev_now (ev : HlcEvent) : Z :=
  match ev with Send now => now | Receive now _ => now end.

Definition wf_ev (ev : HlcEvent) : Prop :=
  in_u64 (ev_now ev) ∧ match ev with Send _ => True | Receive _ obs => wf_ts obs end.

(** The largest timestamp the representation holds. *)
Definition tick_max : Z := 2 ^ 96 - 1.

Lemma tick_lt a b : wf_ts a → wf_ts b → tick a < tick b → ts_lt a b.
Proof.
  destruct a as [wa la na], b as [wb lb nb].
  unfold wf_ts, in_u64, in_u32, u32_max, tick, ts_lt, ts_ltb; simpl.
  intros [? ?] [? ?] ?.
  destruct (Z.ltb_spec wa wb); [done|].
  destruct (Z.eqb_spec wa wb); [|lia].
  by destruct (Z.ltb_spec la lb); [|lia].
Qed.

Lemma ts_lt_tick a b : wf_ts a → wf_ts b → ts_lt a b → tick a <= tick b.
Proof.
  destruct a as [wa la na], b as [wb lb nb].
  unfold wf_ts, in_u64, in_u32, u32_max, tick, ts_lt, ts_ltb; simpl.
  rewrite !orb_true_iff, !andb_true_iff, !orb_true_iff, !andb_true_iff.
  rewrite !Z.ltb_lt, !Z.eqb_eq. lia.
Qed.

Lemma tick_bound ts : wf_ts ts → 0 <= tick ts <= tick_max.
Proof. unfold wf_ts, in_u64, in_u32, u64_max, u32_max, tick, tick_max. lia. Qed.

(** The bump of the counter is the successor of the tick. *)
Lemma bump_logical_tick w l nid :
  in_u64 w → in_u32 l → w * 2 ^ 32 + l < tick_max →
  let '(w', l') := bump_logical w l in
  wf_ts (mkTs w' l' nid) ∧ tick (mkTs w' l' nid) = w * 2 ^ 32 + l + 1.
Proof.
  unfold bump_logical, checked_add_u32, wf_ts, in_u64, in_u32, u64_max, u32_max,
    tick, tick_max, wrapping_u64. intros Hw Hl Hlt.
  destruct (Z.leb_spec (l + 1) (2 ^ 32 - 1)); simpl; [lia|].
  assert (l = 2 ^ 32 - 1) as -> by lia. rewrite Z.mod_small by lia. lia.
Qed.

Lemma send_tick c now :
  wf_ts (last c) → in_u64 now → tick (last c) < tick_max →
  let '(ts, c') := send c now in
  last c' = ts ∧ wf_ts ts ∧ tick ts = Z.max (tick (last c) + 1) (now * 2 ^ 32).
Proof.
  destruct c as [[w l n] nid skew]. unfold send; simpl. intros [Hw Hl] Hnow Hlt.
  simpl in *. pose proof (bump_logical_tick w l nid Hw Hl Hlt) as Hb.
  unfold in_u64, in_u32, u64_max, u32_max, tick in *. simpl in *.
  destruct (Z.eqb_spec (Z.max w now) w) as [Heq|Hne].
  - rewrite Heq. destruct (bump_logical w l) as [w' l']. destruct Hb as [Hwf Ht].
    split_and!; [done|apply Hwf..|]. simpl. lia.
  - unfold wf_ts, in_u64, in_u32, u64_max, u32_max. simpl. split_and!; done || lia.
Qed.

Lemma receive_tick c now obs :
  wf_ts (last c) → wf_ts obs → in_u64 now →
  tick (last c) < tick_max → tick obs < tick_max →
  wall_ms obs - now <= max_clock_skew_ms c ∨ wall_ms obs <= now →
  ∃ ts, receive c now obs = (Ok ts, mkClock ts (clock_node_id c) (max_clock_skew_ms c)) ∧
    wf_ts ts ∧ node_id ts = clock_node_id c ∧
    tick ts = Z.max (Z.max (tick (last c)) (tick obs) + 1) (now * 2 ^ 32).
Proof.
  destruct c as [[w l n] nid skew], obs as [ow ol on]. unfold receive; simpl.
  intros [Hw Hl] [How Hol] Hnow Hlt Hlt' Hskew. simpl in *.
  replace ((now <? ow) && (skew <? ow - now)) with false by lia.
  assert (Hmax : in_u32 (Z.max l ol)) by (unfold in_u32 in *; lia).
  pose proof (bump_logical_tick w l nid Hw Hl Hlt) as Hb1.
  pose proof (bump_logical_tick ow ol nid How Hol Hlt') as Hb2.
  assert (Hb3 : ow = w → let '(w', l') := bump_logical w (Z.max l ol) in
    wf_ts (mkTs w' l' nid) ∧ tick (mkTs w' l' nid) = w * 2 ^ 32 + Z.max l ol + 1).
  { intros ->. apply bump_logical_tick; [done..|]. unfold tick in *. simpl in *. lia. }
  unfold in_u64, in_u32, u64_max, u32_max, tick in *. simpl in *.
  set (nw := Z.max (Z.max w ow) now).
  destruct (Z.eqb_spec nw w) as [E1|E1], (Z.eqb_spec nw ow) as [E2|E2]; simpl.
  - rewrite E1. destruct (bump_logical w (Z.max l ol)) as [w' l'].
    eexists; repeat split; [apply Hb3; lia..|]. simpl. destruct (Hb3 ltac:(lia)). lia.
  - rewrite E1. destruct (bump_logical w l) as [w' l'].
    eexists; repeat split; [apply Hb1..|]. simpl. lia.
  - rewrite E2. destruct (bump_logical ow ol) as [w' l'].
    eexists; repeat split; [apply Hb2..|]. simpl. lia.
  - eexists. split; [reflexivity|].
    unfold wf_ts, in_u64, in_u32, u64_max, u32_max. simpl. repeat split; lia.
Qed.

(** ** Traces of events *)

(** A clock whose skew limit is [skew], run on events whose local times are at
    most [M], never holds or accepts a tick above [horizon]. *)
Definition horizon (c : HlcClock) (M : Z) : Z :=
  Z.max (tick (last c)) ((M + max_clock_skew_ms c + 1) * 2 ^ 32 - 1).

Definition wf_clock (c : HlcClock) : Prop :=
  wf_ts (last c) ∧ 0 <= max_clock_skew_ms c.

Definition tick_ltR (a b : HlcTimestamp) : Prop := tick a < tick b.

(** What one event does to a clock that stays under [T] ticks. *)
Lemma hlc_step_spec c ev M T :
  wf_clock c → wf_ev ev → ev_now ev <= M →
  tick (last c) <= T → (M + max_clock_skew_ms c + 1) * 2 ^ 32 - 1 <= T → T + 1 < tick_max →
  let '(o, c') := hlc_step c ev in
  wf_clock c' ∧ max_clock_skew_ms c' = max_clock_skew_ms c ∧ tick (last c') <= T + 1 ∧
  match o with
  | Some ts => last c' = ts ∧ tick (last c) < tick ts
  | None => c' = c
  end.
Proof.
  intros [Hwf Hskew] [Hnow Hobs] HM HT HT2 Hmax. unfold wf_clock.
  assert (HnowT : ev_now ev * 2 ^ 32 <= T) by (unfold in_u64 in *; lia).
  destruct ev as [now|now obs]; simpl in *.
  - pose proof (send_tick c now Hwf Hnow ltac:(lia)) as H.
    destruct (send c now) as [ts c'] eqn:E. destruct H as (<- & Hts & Htick).
    assert (max_clock_skew_ms c' = max_clock_skew_ms c) as ->.
    { unfold send in E. repeat case_match; simplify_eq; done. }
    split_and!; done || lia.
  - destruct (decide (wall_ms obs - now <= max_clock_skew_ms c ∨ wall_ms obs <= now))
      as [Hok|Hbad].
    + assert (Hobs_tick : tick obs <= T).
      { destruct Hobs as [? ?]. unfold tick, in_u64, in_u32, u32_max in *. lia. }
      destruct (receive_tick c now obs) as (ts & -> & Hts & _ & Htick); [done || lia..|].
      simpl. split_and!; done || lia.
    + unfold receive.
      replace ((now <? wall_ms obs) && (max_clock_skew_ms c <? wall_ms obs - now))
        with true by lia.
      split_and!; done || lia.
Qed.

Lemma hlc_run_spec evs : ∀ c M T,
  wf_clock c → Forall wf_ev evs → Forall (λ ev, ev_now ev <= M) evs →
  tick (last c) <= T → (M + max_clock_skew_ms c + 1) * 2 ^ 32 - 1 <= T →
  T + Z.of_nat (length evs) < tick_max →
  let '(out, c') := hlc_run c evs in
  wf_clock c' ∧ Forall wf_ts out ∧ tick (last c') <= T + Z.of_nat (length evs) ∧
  StronglySorted tick_ltR (last c :: out) ∧
  Forall (λ ts, tick ts <= tick (last c')) (last c :: out).
Proof.
  induction evs as [|ev evs IH]; intros c M T Hc Hwf HM HT HT2 Hmax; simpl.
  - split_and!; [done|done|lia|by repeat constructor|by repeat constructor].
  - apply Forall_cons in Hwf as [Hev Hwf]. apply Forall_cons in HM as [Hm HM].
    simpl in Hmax.
    pose proof (hlc_step_spec c ev M T Hc Hev Hm HT HT2 ltac:(lia)) as Hstep.
    destruct (hlc_step c ev) as [o c1]. destruct Hstep as (Hc1 & Hskew & Ht1 & Ho).
    assert (Hle : tick (last c) <= tick (last c1)) by (destruct o; naive_solver lia).
    specialize (IH c1 M (T + 1) Hc1 Hwf HM Ht1 ltac:(lia) ltac:(lia)).
    destruct (hlc_run c1 evs) as [out c2]. destruct IH as (Hc2 & Hout & Ht2 & Hs & Hl).
    apply StronglySorted_inv in Hs as [Hs Hlt]. apply Forall_cons in Hl as [Hl1 Hl].
    assert (Hlt' : Forall (tick_ltR (last c)) out).
    { eapply Forall_impl; [exact Hlt|]. unfold tick_ltR. intros; lia. }
    assert (Hwf1 : wf_ts (last c1)) by apply Hc1.
    destruct o as [ts|]; [destruct Ho as [<- Hgt]|subst c1]; split_and!; try done; try lia.
    + by constructor.
    + constructor; [by constructor|]. by constructor.
    + constructor; [lia|]. by constructor.
    + by constructor.
    + by constructor.
Qed.

(** [send] is the successor of the clock's reading, or the local time when
    that is later: the new reading is exactly [max (last + 1) (now, 0)] on the
    ticks [(wall_ms, logical)], it is returned, kept in the clock, in range and
    strictly above the previous reading, on the counter-overflow path too. *)
Theorem send_is_max c now :
  wf_ts (last c) → in_u64 now → tick (last c) < tick_max →
  let '(ts, c') := send c now in
  last_timestamp c' = ts ∧ wf_ts ts ∧ ts_lt (last c) ts ∧
  tick ts = Z.max (tick (last c) + 1) (now * 2 ^ 32).
Proof.
  intros Hc Hnow Hlt. pose proof (send_tick c now Hc Hnow Hlt) as H.
  destruct (send c now) as [ts c']. destruct H as (<- & Hwf & Ht).
  split_and!; [done..| |done]. apply tick_lt; [done..|lia].
Qed.

Lemma send_is_max_witness :
  let c := mkClock (mkTs 1000 u32_max (lit "node")) (lit "node") 5000 in
  send c 1000 = (mkTs 1001 0 (lit "node"),
    mkClock (mkTs 1001 0 (lit "node")) (lit "node") 5000) ∧
  tick (mkTs 1001 0 (lit "node")) = Z.max (tick (last c) + 1) (1000 * 2 ^ 32).
Proof.
  intros c. pose proof (send_is_max c 1000) as H.
  specialize (H ltac:(done) ltac:(done) ltac:(vm_compute; done)).
  split; [vm_compute; done|]. apply H.
Defined.

(** [receive] rejects a peer timestamp exactly when it is more than
    [max_clock_skew_ms] ahead of the local time, leaving the clock as it was;
    otherwise the new reading is [max (max last observed + 1) (now, 0)], above
    both the previous reading and the peer's, with this node's id. *)
Theorem receive_is_max c now obs :
  wf_ts (last c) → wf_ts obs → in_u64 now →
  tick (last c) < tick_max → tick obs < tick_max → 0 <= max_clock_skew_ms c →
  let ahead := wall_ms obs - now in
  (max_clock_skew_ms c < ahead →
     receive c now obs =
       (Err (ClockSkewExceeded (wall_ms obs) now (max_clock_skew_ms c)), c)) ∧
  (ahead <= max_clock_skew_ms c → ∃ ts c',
     receive c now obs = (Ok ts, c') ∧ last c' = ts ∧ wf_ts ts ∧
     node_id ts = clock_node_id c ∧ ts_lt (last c) ts ∧ ts_lt obs ts ∧
     tick ts = Z.max (Z.max (tick (last c)) (tick obs) + 1) (now * 2 ^ 32)).
Proof.
  intros Hc Hobs Hnow Hlt Hlt' Hs ahead. unfold ahead. split.
  - intros Hbad. unfold receive.
    by replace ((now <? wall_ms obs) && (max_clock_skew_ms c <? wall_ms obs - now))
      with true by lia.
  - intros Hok.
    destruct (receive_tick c now obs) as (ts & Hr & Hwf & Hn & Ht); [done..|lia|].
    eexists ts, _. split_and!; [exact Hr|done..| | |done];
      (apply tick_lt; [done..|lia]).
Qed.

Lemma receive_is_max_witness :
  let c := new (lit "nodeA") 1000 in
  fst (receive c 5000 (mkTs 9000 7 (lit "nodeB"))) = Ok (mkTs 9000 8 (lit "nodeA")) ∧
  receive c 1000 (mkTs 6001 0 (lit "nodeB")) = (Err (ClockSkewExceeded 6001 1000 5000), c).
Proof.
  intros c. split; [vm_compute; done|].
  apply (receive_is_max c 1000 (mkTs 6001 0 (lit "nodeB"))); vm_compute; done.
Defined.

(** C28. Every trace of sends and receives emits strictly increasing timestamps,
    all above the clock's first reading, whatever the peers send and however
    the local time jumps, as long as the range of the representation is not
    exhausted. *)
Theorem trace_strictly_increasing c evs M :
  wf_clock c → Forall wf_ev evs → Forall (λ ev, ev_now ev <= M) evs →
  horizon c M + Z.of_nat (length evs) < tick_max →
  let '(out, c') := hlc_run c evs in
  StronglySorted ts_lt (last c :: out) ∧ wf_clock c'.
Proof.
  intros Hc Hwf HM Hmax. unfold horizon in Hmax.
  pose proof (hlc_run_spec evs c M _ Hc Hwf HM (Z.le_max_l _ _) (Z.le_max_r _ _) Hmax) as H.
  destruct (hlc_run c evs) as [out c']. destruct H as (Hc' & Hout & _ & Hs & _).
  split; [|done]. assert (Hall : Forall wf_ts (last c :: out)).
  { constructor; [apply Hc|done]. }
  clear -Hs Hall. induction Hs as [|x l Hs IH Hx]; [constructor|].
  apply Forall_cons in Hall as [Hwx Hwl]. constructor; [by apply IH|].
  rewrite Forall_forall in Hwl, Hx |- *. intros y Hy. apply tick_lt; auto.
  by apply Hx.
Qed.

Lemma trace_strictly_increasing_witness :
  let c := new (lit "nodeA") 1000 in
  let evs := [Send 1000; Receive 1000 (mkTs 4000 7 (lit "nodeB")); Send 900; Send 5000;
              Receive 1000 (mkTs 99000 0 (lit "nodeB"))] in
  StronglySorted ts_lt (last c :: fst (hlc_run c evs)) ∧ length (fst (hlc_run c evs)) = 4%nat.
Proof.
  intros c evs. split; [|vm_compute; done].
  pose proof (trace_strictly_increasing c evs 5000) as H.
  destruct (hlc_run c evs) as [out c']. apply H;
    [vm_compute; done|repeat constructor; vm_compute; done
    |repeat constructor; vm_compute; done|vm_compute; done].
Defined.

(** A peer cannot run the clock away: after any trace whose local times stay
    at or below [M], the reading is at most [max_clock_skew_ms] (plus one
    millisecond) past [M] and one tick per event, no matter which timestamps
    the peers claim. *)
Theorem peers_cannot_run_clock_away c evs M :
  wf_clock c → Forall wf_ev evs → Forall (λ ev, ev_now ev <= M) evs →
  horizon c M + Z.of_nat (length evs) < tick_max →
  tick (last (snd (hlc_run c evs))) <=
    Z.max (tick (last c)) ((M + max_clock_skew_ms c + 1) * 2 ^ 32 - 1) +
    Z.of_nat (length evs).
Proof.
  intros Hc Hwf HM Hmax.
  pose proof (hlc_run_spec evs c M _ Hc Hwf HM (Z.le_max_l _ _) (Z.le_max_r _ _) Hmax) as H.
  destruct (hlc_run c evs) as [out c']. simpl. apply H.
Qed.

Lemma peers_cannot_run_clock_away_witness :
  let c := new (lit "nodeA") 1000 in
  let evs := [Receive 1000 (mkTs 6000 u32_max (lit "evil"));
              Receive 1000 (mkTs 6000 u32_max (lit "evil"));
              Receive 1000 (mkTs u64_max 0 (lit "evil"))] in
  last (snd (hlc_run c evs)) = mkTs 6001 1 (lit "nodeA") ∧
  tick (last (snd (hlc_run c evs))) <= 6001 * 2 ^ 32 - 1 + 3.
Proof.
  intros c evs. split; [vm_compute; done|].
  apply (peers_cannot_run_clock_away c evs 1000);
    [vm_compute; done|repeat constructor; vm_compute; done
    |repeat constructor; vm_compute; done|vm_compute; done].
Defined.

(** *** Restarts *)

Lemma load_save ts now row :
  wf_ts ts → length (node_id ts) = 8%nat →
  load_hlc_checkpoint (save_hlc_checkpoint ts now row) = Some ts.
Proof.
  destruct ts as [w l n]. unfold wf_ts, in_u64, in_u32, u64_max, u32_max. simpl.
  intros [Hw Hl] Hn. unfold load_hlc_checkpoint, save_hlc_checkpoint. simpl.
  do 2 f_equal.
  - unfold i64_as_u64, u64_as_i64, i64_max. break_if; to_prop.
    + apply Z.mod_small. lia.
    + rewrite <- (Z.mod_small w (2 ^ 64)) at 2 by lia.
      replace (w - 2 ^ 64) with (w + (-1) * 2 ^ 64) by lia. apply Z.mod_add. lia.
  - unfold i64_as_u32. apply Z.mod_small. lia.
  - rewrite take_ge by lia. rewrite Hn. apply app_nil_r.
Qed.

(** Restarting from a saved checkpoint preserves monotonicity: the daemon
    that saves the reading of its clock, loads it back and seeds a new clock
    emits, from its first [send] on, a timestamp above the saved one, at any
    local time, including one before the checkpoint. *)
Theorem restart_after_save c saved_at row nid now now' :
  wf_ts (last c) → length (node_id (last c)) = 8%nat → in_u64 now → in_u64 now' →
  tick (last c) < tick_max → now * 2 ^ 32 < tick_max →
  let row' := save_hlc_checkpoint (last_timestamp c) saved_at row in
  let c2 := startup_clock nid now (load_hlc_checkpoint row') in
  ts_lt (last c) (fst (send c2 now')) ∧ tick (last c) < tick (fst (send c2 now')).
Proof.
  intros Hc Hlen Hnow Hnow' Hlt Hlt'. cbv zeta. unfold last_timestamp.
  rewrite (load_save (last c) saved_at row Hc Hlen). simpl.
  set (c2 := new_seeded nid now (last c)).
  assert (Hc2 : wf_ts (last c2) ∧ tick (last c) <= tick (last c2) < tick_max).
  { unfold c2, new_seeded. destruct Hc as [Hw Hl]. unfold in_u64, in_u32, u32_max in *.
    break_if; to_prop; unfold wf_ts, tick in *; simpl in *;
      (split; [split; unfold in_u64, in_u32, u32_max; lia|lia]). }
  destruct Hc2 as [Hwf2 Hle].
  pose proof (send_tick c2 now' Hwf2 Hnow' ltac:(lia)) as H.
  destruct (send c2 now') as [ts c3]. destruct H as (_ & Hts & Ht). simpl.
  split; [apply tick_lt; [done..|lia]|lia].
Qed.

Lemma restart_after_save_witness :
  let c := mkClock (mkTs 2000 5 (lit "nodeAAAA")) (lit "nodeAAAA") 5000 in
  let c2 := startup_clock (lit "nodeAAAA") 1500
    (load_hlc_checkpoint (save_hlc_checkpoint (last_timestamp c) 2001 None)) in
  fst (send c2 1500) = mkTs 2000 6 (lit "nodeAAAA") ∧ tick (last c) < tick (fst (send c2 1500)).
Proof.
  intros c c2. split; [vm_compute; done|].
  apply (restart_after_save c 2001 None (lit "nodeAAAA") 1500 1500); vm_compute; done.
Defined.

(** The checkpoint written every 30 seconds does not cover what is emitted
    after it: a timestamp sent between the last save and a crash is not below
    the first timestamp after a restart whose local time was stepped back,
    although the start-up comment promises a timestamp strictly greater than
    any previously emitted one. *)
Theorem restart_can_regress :
  ∃ c now crash_now restart_now nid,
    let row := save_hlc_checkpoint (last_timestamp c) now None in
    let '(emitted, _) := send c crash_now in
    let c2 := startup_clock nid restart_now (load_hlc_checkpoint row) in
    wf_clock c ∧ now <= restart_now ∧ ts_lt (fst (send c2 restart_now)) emitted.
Proof.
  exists (new (lit "nodeAAAA") 1000), 1000, 2000, 1500, (lit "nodeAAAA").
  vm_compute. done.
Qed.

End Hlc.
