(* ===== verification/Wildmat.v ===== *)
(** Newsgroup patterns and filters: [crates/core/src/wildmat.rs].

    The two-row dynamic program [wildmat_match] is proved equal to the meaning
    of a pattern ([glob]: the name splits into one segment per pattern
    character); [GroupFilter] is proved to be "the first matching pattern
    decides, nothing matches means rejected". *)

From S2P Require Import Prelude Bytes.

Module Wildmat.

Definition STAR : Z := 42.
Definition QUEST : Z := 63.

(** ** The matcher *)

(** The loop that fills [prev] for the empty text; [b] is [prev[j - 1]], and
    the [break] leaves the rest [false]. *)
Fixpoint init_row (b : bool) (pattern : bytes) : list bool :=
  match pattern with
  | [] => []
  | p :: pattern' =>
      if p =? STAR then b :: init_row b pattern'
      else replicate (length pattern) false
  end.

(** The inner loop over [j]: [cj1] is [curr[j - 1]], [prev] starts at index
    [j - 1]. *)
Fixpoint next_row (t : Z) (cj1 : bool) (pattern : bytes) (prev : list bool) : list bool :=
  match pattern, prev with
  | pc :: pattern', pj1 :: ((pj :: _) as prev') =>
      let cj :=
        if pc =? STAR then cj1 || pj
        else if pc =? QUEST then pj1
        else pj1 && (t =? pc) in
      cj :: next_row t cj pattern' prev'
  | _, _ => []
  end.

Definition wildmat_match (text pattern : bytes) : bool :=
  let prev := foldl (λ prev t, false :: next_row t false pattern prev)
                    (true :: init_row true pattern) text in
  default false (prev !! length pattern).

Definition has_wildcard (pattern : bytes) : bool :=
  contains STAR pattern || contains QUEST pattern.

Definition matches_wildmat (name pattern : bytes) : bool :=
  if bool_decide (pattern = lit "*") then true
  else if negb (has_wildcard pattern) then eq_ignore_ascii_case name pattern
  else wildmat_match (to_ascii_lowercase name) (to_ascii_lowercase pattern).

Definition matches_wildmat_prefolded (name pattern_bytes : bytes) : bool :=
  if negb (contains STAR pattern_bytes) && negb (contains QUEST pattern_bytes)
  then (length name =? length pattern_bytes)%nat &&
       forallb (λ ab, to_ascii_lower ab.1 =? ab.2) (zip name pattern_bytes)
  else wildmat_match (to_ascii_lowercase name) pattern_bytes.

(** ** Patterns and filters *)

Inductive WildmatError :=
| EmptyFilter
| AllNegation
| EmptyPattern
| InvalidCharacter (ch : bytes)
| ConsecutiveDots.

Record WildmatPattern := mkPattern { is_negated : bool; bare_pattern : bytes }.

(** ['a'..='z' | '0'..='9' | '+' | '-' | '_' | '.' | '*' | '?']. *)
Definition pattern_char (c : Z) : bool :=
  is_ascii_lower c || is_ascii_digit c || (c =? 43) || (c =? 45) || (c =? 95)
  || (c =? 46) || (c =? STAR) || (c =? QUEST).

(** The first character outside the set, if any. *)
Fixpoint first_invalid (s : bytes) : option bytes :=
  match s with
  | [] => None
  | c :: s' => if pattern_char c then first_invalid s' else Some (first_char s)
  end.

Definition parse (s : bytes) : result WildmatError WildmatPattern :=
  if bool_decide (s = []) then Err EmptyPattern
  else
    let '(neg, bare) :=
      match strip_prefix (lit "!") s with
      | Some stripped => (true, to_ascii_lowercase stripped)
      | None => (false, to_ascii_lowercase s)
      end in
    if bool_decide (bare = []) then Err EmptyPattern
    else match first_invalid bare with
         | Some ch => Err (InvalidCharacter ch)
         | None =>
             if contains_seq bare (lit "..") then Err ConsecutiveDots
             else Ok (mkPattern neg bare)
         end.

Record GroupFilter := mkFilter { patterns : list WildmatPattern }.

(** [iter().map(parse).collect::<Result<Vec<_>, _>>()]: the first error wins. *)
Fixpoint parse_all (raw : list bytes) : result WildmatError (list WildmatPattern) :=
  match raw with
  | [] => Ok []
  | s :: raw' => p ← parse s; ps ← parse_all raw'; Ok (p :: ps)
  end.

Definition filter_new (raw_patterns : list bytes) : result WildmatError GroupFilter :=
  ps ← parse_all raw_patterns;
  if bool_decide (ps = []) then Err EmptyFilter
  else if forallb is_negated ps then Err AllNegation
  else Ok (mkFilter ps).

Fixpoint accepts_patterns (ps : list WildmatPattern) (name : bytes) : bool :=
  match ps with
  | [] => false
  | p :: ps' =>
      if matches_wildmat_prefolded name (bare_pattern p) then negb (is_negated p)
      else accepts_patterns ps' name
  end.

Definition accepts (f : GroupFilter) (name : bytes) : bool :=
  if bool_decide (name = []) then false else accepts_patterns (patterns f) name.

(** [type GroupPolicy = Option<Arc<GroupFilter>>]. *)
Definition GroupPolicy : Type := option GroupFilter.

(** ** The meaning of a pattern *)

(** What one pattern character stands for. *)
Definition elem_matches (p : Z) (seg : bytes) : Prop :=
  if p =? STAR then True
  else if p =? QUEST then length seg = 1%nat
  else seg = [p].

(** A pattern matches a text that splits into one segment per character. *)
Definition glob : bytes → bytes → Prop := segmented elem_matches.

Lemma glob_nil t : glob [] t ↔ t = [].
Proof. apply segmented_nil. Qed.

Lemma glob_snoc p x t :
  glob (p ++ [x]) t ↔ ∃ t1 s, t = t1 ++ s ∧ glob p t1 ∧ elem_matches x s.
Proof. apply segmented_snoc. Qed.

Lemma glob_snoc_star p t :
  glob (p ++ [STAR]) t ↔ ∃ t1 s, t = t1 ++ s ∧ glob p t1.
Proof. rewrite glob_snoc. unfold elem_matches. simpl. naive_solver. Qed.

(** One more text character: the recurrence of the dynamic program. *)
Lemma glob_snoc_step p x t c :
  glob (p ++ [x]) (t ++ [c]) ↔
    if x =? STAR then glob p (t ++ [c]) ∨ glob (p ++ [x]) t
    else if x =? QUEST then glob p t
    else glob p t ∧ c = x.
Proof.
  destruct (Z.eqb_spec x STAR) as [->|Hs].
  - rewrite !glob_snoc_star. split.
    + intros (t1 & s & Ht & Hp). destruct s as [|z s _] using rev_ind.
      * left. rewrite app_nil_r in Ht. by rewrite Ht.
      * right. rewrite app_assoc in Ht. apply app_inj_tail in Ht as [-> ->]. by exists t1, s.
    + intros [Hp|(t1 & s & -> & Hp)].
      * exists (t ++ [c]), []. by rewrite app_nil_r.
      * exists t1, (s ++ [c]). by rewrite app_assoc.
  - rewrite glob_snoc. unfold elem_matches.
    destruct (Z.eqb_spec x STAR); [done|]. destruct (Z.eqb_spec x QUEST) as [->|Hq]; split.
    + intros (t1 & s & Ht & Hp & Hl). destruct s as [|z [|]]; try done.
      by apply app_inj_tail in Ht as [-> ->].
    + intros Hp. by exists t, [c].
    + intros (t1 & s & Ht & Hp & ->). by apply app_inj_tail in Ht as [-> ->].
    + intros [Hp ->]. by exists t, [x].
Qed.

Lemma glob_snoc_nil p x :
  glob (p ++ [x]) [] ↔ x = STAR ∧ glob p [].
Proof.
  rewrite glob_snoc. unfold elem_matches. split.
  - intros (t1 & s & Ht & Hp & Hx). symmetry in Ht. apply app_nil in Ht as [-> ->].
    destruct (Z.eqb_spec x STAR); [done|]. by destruct (x =? QUEST).
  - intros [-> Hp]. by exists [], [].
Qed.

(** ** The rows of the program *)

(** [l] lists, for each prefix of the pattern from [pre] on, whether it
    matches [t]. *)
Fixpoint row_ok (pre rest t : bytes) (l : list bool) : Prop :=
  match rest, l with
  | [], [b] => b = true ↔ glob pre t
  | x :: rest', b :: l' => (b = true ↔ glob pre t) ∧ row_ok (pre ++ [x]) rest' t l'
  | _, _ => False
  end.

Lemma row_ok_head pre rest t l :
  row_ok pre rest t l → ∃ b l', l = b :: l' ∧ (b = true ↔ glob pre t).
Proof. destruct rest, l as [|b [|]]; simpl; try done; naive_solver. Qed.

Lemma row_ok_false pre rest :
  ¬ glob pre [] → row_ok pre rest [] (false :: replicate (length rest) false).
Proof.
  revert pre. induction rest as [|x rest IH]; intros pre Hn; simpl; [naive_solver|].
  split; [naive_solver|]. apply IH. by rewrite glob_snoc_nil; intros [_ ?].
Qed.

Lemma init_row_ok b pre rest :
  (b = true ↔ glob pre []) → row_ok pre rest [] (b :: init_row b rest).
Proof.
  revert pre. induction rest as [|x rest IH]; intros pre Hb; [done|].
  change (init_row b (x :: rest)) with
    (if x =? STAR then b :: init_row b rest else replicate (length (x :: rest)) false).
  destruct (Z.eqb_spec x STAR) as [->|Hx].
  - split; [done|]. apply IH. rewrite glob_snoc_nil. naive_solver.
  - split; [done|]. apply row_ok_false. rewrite glob_snoc_nil. naive_solver.
Qed.

Lemma next_row_ok t c cj pre rest prev :
  row_ok pre rest t prev → (cj = true ↔ glob pre (t ++ [c])) →
  row_ok pre rest (t ++ [c]) (cj :: next_row c cj rest prev).
Proof.
  revert pre cj prev. induction rest as [|x rest IH]; intros pre cj prev Hrow Hcj; [done|].
  destruct prev as [|b prev]; [done|]. destruct Hrow as [Hb Hrow].
  destruct (row_ok_head _ _ _ _ Hrow) as (b' & prev' & -> & Hb').
  split; [done|]. simpl. apply IH; [done|].
  rewrite glob_snoc_step.
  destruct (x =? STAR); [by rewrite orb_true_iff, <- Hcj, <- Hb'|].
  destruct (x =? QUEST); [done|]. by rewrite andb_true_iff, Z.eqb_eq, Hb.
Qed.

Lemma row_ok_last pre rest t l :
  row_ok pre rest t l → ∃ b, l !! length rest = Some b ∧ (b = true ↔ glob (pre ++ rest) t).
Proof.
  revert pre l. induction rest as [|x rest IH]; intros pre l Hrow.
  - destruct l as [|b [|]]; try done. exists b. by rewrite app_nil_r.
  - destruct l as [|b l]; [done|]. destruct Hrow as [_ Hrow].
    destruct (IH _ _ Hrow) as (b' & Hl & Hb'). exists b'.
    by rewrite <- app_assoc in Hb'.
Qed.

Lemma wildmat_match_glob text pattern :
  wildmat_match text pattern = true ↔ glob pattern text.
Proof.
  unfold wildmat_match.
  assert (Hrows : ∀ t2 t1 prev, row_ok [] pattern t1 prev →
    row_ok [] pattern (t1 ++ t2)
      (foldl (λ prev t, false :: next_row t false pattern prev) prev t2)).
  { induction t2 as [|c t2 IH]; intros t1 prev Hrow; simpl; [by rewrite app_nil_r|].
    rewrite cons_middle, app_assoc. apply IH, next_row_ok; [done|].
    rewrite glob_nil. split; [done|]. by destruct t1. }
  specialize (Hrows text [] (true :: init_row true pattern)).
  simpl in Hrows. destruct (row_ok_last [] pattern text _ ltac:(apply Hrows, init_row_ok;
    by rewrite glob_nil)) as (b & -> & Hb). done.
Qed.

(** ** Fast paths *)

Lemma glob_literal pattern t :
  contains STAR pattern = false → contains QUEST pattern = false →
  glob pattern t ↔ t = pattern.
Proof.
  rewrite !contains_false. intros Hs Hq.
  assert (Hseg : Forall (λ p, ∀ seg, elem_matches p seg ↔ seg = [p]) pattern).
  { apply Forall_forall. intros p Hp seg. unfold elem_matches.
    destruct (Z.eqb_spec p STAR); [congruence|].
    destruct (Z.eqb_spec p QUEST); [congruence|done]. }
  clear Hs Hq. revert t. induction Hseg as [|p pat Hp Hpat IH]; intros t.
  - by rewrite glob_nil.
  - split.
    + intros (segs & H & ->). apply Forall2_cons_inv_l in H as (s & segs' & Hs & H & ->).
      apply Hp in Hs as ->. simpl. f_equal. apply IH. by exists segs'.
    + intros ->. destruct (proj2 (IH pat) eq_refl) as (segs & H & Hc).
      exists ([p] :: segs). split; [constructor; [by apply Hp|done]|]. simpl. congruence.
Qed.

Lemma contains_lower c s :
  is_ascii_alphabetic c = false → contains c (to_ascii_lowercase s) = contains c s.
Proof.
  intros Hc. induction s as [|d s IH]; [done|].
  change (contains c (to_ascii_lowercase (d :: s))) with
    ((c =? to_ascii_lower d) || contains c (to_ascii_lowercase s)).
  rewrite IH. change (contains c (d :: s)) with ((c =? d) || contains c s).
  f_equal. unfold is_ascii_alphabetic, is_ascii_lower,
    to_ascii_lower, is_ascii_upper in *. break_if; lia.
Qed.

Lemma prefolded_glob name pattern :
  matches_wildmat_prefolded name pattern = true ↔ glob pattern (to_ascii_lowercase name).
Proof.
  unfold matches_wildmat_prefolded.
  destruct (negb (contains STAR pattern) && negb (contains QUEST pattern)) eqn:E.
  - to_prop. rewrite glob_literal by done. unfold to_ascii_lowercase.
    clear. revert pattern. induction name as [|c name IH]; intros [|p pat]; simpl; try done.
    specialize (IH pat). rewrite andb_true_iff in IH. rewrite !andb_true_iff, Z.eqb_eq.
    split; [intros (? & -> & ?); f_equal; by apply IH|].
    intros [= -> Hp]. split_and!; [by apply IH|done|by apply IH].
  - apply wildmat_match_glob.
Qed.

(** C29. The iterative matcher computes exactly the meaning of the pattern: the
    name, lower-cased, splits into one segment per character of the lower-cased
    pattern, where [*] stands for any segment, [?] for one byte and any other
    character for itself.  The three entry points (the public function with its
    two fast paths, the raw program, and the pre-folded variant used by
    filters) agree with it on every input. *)
Theorem wildmat_correct name pattern :
  (matches_wildmat name pattern = true ↔
     glob (to_ascii_lowercase pattern) (to_ascii_lowercase name)) ∧
  (wildmat_match name pattern = true ↔ glob pattern name) ∧
  (matches_wildmat_prefolded name pattern = true ↔ glob pattern (to_ascii_lowercase name)).
Proof.
  split_and!; [|apply wildmat_match_glob|apply prefolded_glob].
  unfold matches_wildmat. case_bool_decide as Hstar.
  { subst. split; [|done]. intros _. exists [to_ascii_lowercase name].
    split; [repeat constructor|]. simpl. by rewrite app_nil_r. }
  destruct (has_wildcard pattern) eqn:E; simpl; [apply wildmat_match_glob|].
  unfold has_wildcard in E. to_prop.
  rewrite glob_literal by (rewrite contains_lower; done).
  unfold eq_ignore_ascii_case. by rewrite bool_decide_eq_true.
Qed.

(** ** Filters *)

Definition valid_pattern (p : WildmatPattern) : Prop :=
  bare_pattern p ≠ [] ∧ Forall (λ c, pattern_char c = true) (bare_pattern p) ∧
  contains_seq (bare_pattern p) (lit "..") = false.

Lemma first_invalid_None s : first_invalid s = None ↔ Forall (λ c, pattern_char c = true) s.
Proof.
  induction s as [|c s IH]; simpl; [done|]. rewrite Forall_cons.
  destruct (pattern_char c); naive_solver.
Qed.

Lemma parse_Ok s p :
  parse s = Ok p ↔
    valid_pattern p ∧
    ∃ raw, bare_pattern p = to_ascii_lowercase raw ∧
      if is_negated p then s = lit "!" ++ raw else s = raw ∧ strip_prefix (lit "!") s = None.
Proof.
  unfold parse, valid_pattern. split.
  - case_bool_decide; [done|].
    destruct (strip_prefix (lit "!") s) as [r|] eqn:Es;
      (case_bool_decide; [done|]);
      (destruct (first_invalid _) eqn:Ei; [done|]); apply first_invalid_None in Ei;
      (destruct (contains_seq _ _) eqn:Ec; [done|]); intros [= <-]; simpl.
    + apply strip_prefix_Some in Es. naive_solver.
    + naive_solver.
  - destruct p as [neg bare]; cbn [is_negated bare_pattern]. intros [(Hne & Hv%first_invalid_None & Hd) (raw & -> & Hs)].
    assert (s ≠ []) by (destruct neg; naive_solver). rewrite bool_decide_eq_false_2 by done.
    destruct neg; [assert (strip_prefix (lit "!") s = Some raw) as ->
                     by by apply strip_prefix_Some
                  |destruct Hs as [<- ->]];
      by rewrite bool_decide_eq_false_2, Hv, Hd.
Qed.

Lemma parse_all_Ok raw ps : parse_all raw = Ok ps ↔ Forall2 (λ s p, parse s = Ok p) raw ps.
Proof.
  revert ps. induction raw as [|s raw IH]; intros ps; simpl.
  - split; [intros [= <-]; constructor|by intros ->%Forall2_nil_inv_l].
  - unfold mbind, result_bind. split.
    + destruct (parse s) as [p|] eqn:E; [|done]. destruct (parse_all raw) as [ps'|]; [|done].
      intros [= <-]. constructor; [done|]. by apply IH.
    + intros (p & ps' & -> & H & ->)%Forall2_cons_inv_l. by rewrite (proj2 (IH ps') H).
Qed.

(** A filter is built exactly when every raw pattern parses, the list is not
    empty and some pattern is positive; each pattern it holds is non-empty,
    lower case, within the wildmat alphabet and free of empty components.  In
    particular a filter that could accept nothing is refused. *)
Theorem filter_new_spec raw f :
  filter_new raw = Ok f ↔
    Forall2 (λ s p, parse s = Ok p) raw (patterns f) ∧ Forall valid_pattern (patterns f) ∧
    Exists (λ p, is_negated p = false) (patterns f).
Proof.
  unfold filter_new, mbind, result_bind. split.
  - destruct (parse_all raw) as [ps|] eqn:E; [|done]. apply parse_all_Ok in E.
    case_bool_decide; [done|]. destruct (forallb is_negated ps) eqn:En; [done|].
    intros [= <-]. simpl. split_and!; [done| |].
    + clear En H. induction E as [|s p raw ps Hp E IH]; constructor; [|done].
      by apply parse_Ok in Hp as [? _].
    + clear E H. induction ps as [|p ps IH]; [done|]. simpl in En.
      destruct (is_negated p) eqn:Ep; [by apply Exists_cons_tl, IH|by apply Exists_cons_hd].
  - destruct f as [ps]; simpl. intros (E%parse_all_Ok & _ & Hex). rewrite E.
    apply Exists_exists in Hex as (p & Hp & Hneg).
    rewrite bool_decide_eq_false_2 by (intros ->; by apply not_elem_of_nil in Hp).
    destruct (forallb is_negated ps) eqn:En; [|done].
    rewrite forallb_forall in En. apply list_elem_of_In in Hp.
    rewrite (En p Hp) in Hneg. done.
Qed.

Lemma filter_new_spec_witness :
  filter_new [lit "Comp.*"; lit "!comp.binaries.?"] =
    Ok (mkFilter [mkPattern false (lit "comp.*"); mkPattern true (lit "comp.binaries.?")]) ∧
  Exists (λ p, is_negated p = false)
    [mkPattern false (lit "comp.*"); mkPattern true (lit "comp.binaries.?")].
Proof.
  split; [vm_compute; done|].
  apply (filter_new_spec [lit "Comp.*"; lit "!comp.binaries.?"]
    (mkFilter [mkPattern false (lit "comp.*"); mkPattern true (lit "comp.binaries.?")])).
  vm_compute; done.
Defined.

(** What a filter decides: the first pattern that matches the lower-cased name. *)
Definition decided_by (ps : list WildmatPattern) (name : bytes) (p : WildmatPattern) : Prop :=
  ∃ before after, ps = before ++ p :: after ∧
    glob (bare_pattern p) (to_ascii_lowercase name) ∧
    Forall (λ q, ¬ glob (bare_pattern q) (to_ascii_lowercase name)) before.

(** A filter accepts a name exactly when the name is not empty and the first
    pattern that matches it is a positive one: earlier patterns shadow later
    ones, and a name no pattern matches is rejected. *)
Theorem accepts_first_match f name :
  accepts f name = true ↔
    name ≠ [] ∧ ∃ p, is_negated p = false ∧ decided_by (patterns f) name p.
Proof.
  unfold accepts. case_bool_decide as Hn; [naive_solver|].
  transitivity (∃ p, is_negated p = false ∧ decided_by (patterns f) name p); [|naive_solver].
  destruct f as [ps]; simpl. unfold decided_by. induction ps as [|q ps IH]; simpl.
  - split; [done|]. by intros (p & _ & [] & after & Heq & _).
  - destruct (matches_wildmat_prefolded name (bare_pattern q)) eqn:E.
    + apply prefolded_glob in E. rewrite negb_true_iff. split.
      * intros Hneg. exists q. split; [done|]. by exists [], ps.
      * intros (p & Hneg & [|q' before] & after & [= <- Hps] & Hp & Hb); [done|].
        by apply Forall_cons in Hb as [Hq _].
    + assert (Hq : ¬ glob (bare_pattern q) (to_ascii_lowercase name)).
      { rewrite <- prefolded_glob. congruence. }
      rewrite IH. clear IH. split.
      * intros (p & Hneg & before & after & -> & Hp & Hb). exists p. split; [done|].
        exists (q :: before), after. split_and!; [done..|]. by constructor.
      * intros (p & Hneg & [|q' before] & after & [= <- Hps] & Hp & Hb); [done|].
        apply Forall_cons in Hb as [_ Hb]. exists p. split; [done|]. by exists before, after.
Qed.

(** The order [["comp.*", "!comp.binaries"]], given in the comments of
    [GroupFilter::accepts] as the way to exempt [comp.binaries], does not exempt
    it: the first pattern already matches and accepts the name.  The exception
    only takes effect when it comes first. *)
Theorem trailing_exception_is_dead :
  (∃ f, filter_new [lit "comp.*"; lit "!comp.binaries"] = Ok f ∧
        accepts f (lit "comp.binaries") = true) ∧
  (∃ f, filter_new [lit "!comp.binaries"; lit "comp.*"] = Ok f ∧
        accepts f (lit "comp.binaries") = false ∧ accepts f (lit "comp.lang.rust") = true).
Proof. split; (eexists; split; [reflexivity|]); vm_compute; done. Qed.

End Wildmat.
