(* ===== verification/Article.v ===== *)
(** Articles, group names and the error types of the ingress path:
    [crates/core/src/article.rs] and [crates/core/src/error.rs].

    A [GroupName] can only be built by [group_new], so the predicate
    [valid_group] is its type invariant; [is_valid_group_name] is proved to be
    the dotted grammar of the documentation. *)

From S2P Require Import Prelude Bytes.

Module Article.

(** ** Errors *)

Inductive ValidationError :=
| InvalidGroupName (n : bytes)
| InvalidMessageId (id : bytes)
| MissingMandatoryHeader (h : bytes)
| HeaderFieldTooLong (field : bytes) (len limit : Z)
| ValidationArticleTooBig (size limit : Z)
| DateOutOfRange (d : bytes)
| InvalidGroupInNewsgroups (g : bytes)
| EmptyNewsgroups
| TooManyNewsgroups (count limit : Z)
| InvalidHeaderValue (field reason : bytes).

Inductive ProtocolError :=
| UnknownCommand (cmd : bytes)
| InvalidSyntax (msg : bytes)
| NoGroupSelected
| NoSuchGroup (g : bytes)
| NoSuchArticle
| NotAuthenticated
| DuplicateMessageId (id : bytes)
| PostingNotPermitted
| TransferNotPossible (msg : bytes)
| ArticleTooBig (size limit : Z)
| ValidationFailed (e : ValidationError)
| ServiceUnavailable (msg : bytes).

(** [ProtocolError::response_code]. *)
Definition response_code (e : ProtocolError) : Z :=
  match e with
  | UnknownCommand _ => 500
  | InvalidSyntax _ => 501
  | NoGroupSelected => 412
  | NoSuchGroup _ => 411
  | NoSuchArticle => 430
  | NotAuthenticated => 480
  | DuplicateMessageId _ => 435
  | PostingNotPermitted => 440
  | TransferNotPossible _ => 436
  | ArticleTooBig _ _ => 441
  | ValidationFailed _ => 441
  | ServiceUnavailable _ => 400
  end.

(** ** Group names *)

Definition DOT : Z := 46.

(** [c.is_ascii_alphanumeric() || c == '-' || c == '+' || c == '_']. *)
Definition group_char (c : Z) : bool :=
  is_ascii_alphanumeric c || (c =? 45) || (c =? 43) || (c =? 95).

(** The body of the loop over [name.split('.')]. *)
Definition valid_component (component : bytes) : bool :=
  match component with
  | [] => false
  | c :: chars => is_ascii_alphabetic c && forallb group_char chars
  end.

Definition is_valid_group_name (name : bytes) : bool :=
  if bool_decide (name = []) then false
  else forallb valid_component (split DOT name).

Record GroupName := mkGroupName { as_str : bytes }.

#[export] Instance GroupName_eq_dec : EqDecision GroupName.
Proof. solve_decision. Defined.

#[export] Instance GroupName_countable : Countable GroupName.
Proof.
  refine (inj_countable' as_str mkGroupName _). by intros [].
Defined.

#[export] Instance as_str_inj : Inj (=) (=) as_str.
Proof. by intros [] [] [= ->]. Qed.

(** [GroupName::new]. *)
Definition group_new (name : bytes) : result ValidationError GroupName :=
  if is_valid_group_name name then Ok (mkGroupName name)
  else Err (InvalidGroupName name).

(** ** Articles *)

Record ArticleHeader := mkHeader {
  from : bytes;
  date : bytes;
  message_id : bytes;
  newsgroups : list GroupName;
  subject : bytes;
  path : bytes;
  extra_headers : list (bytes * bytes)
}.

Record Article := mkArticle { header : ArticleHeader; body : bytes }.

(** ** The grammar of group names *)

(** [[a-zA-Z][a-zA-Z0-9\-+_]*]. *)
Definition component_spec (p : bytes) : Prop :=
  ∃ c chars, p = c :: chars ∧ is_ascii_alphabetic c = true ∧
    Forall (λ d, group_char d = true) chars.

Lemma valid_component_spec p : valid_component p = true ↔ component_spec p.
Proof.
  unfold component_spec. destruct p as [|c chars]; simpl; [naive_solver|].
  rewrite andb_true_iff, forallb_spec.
  naive_solver.
Qed.

Lemma group_char_not_dot c : group_char c = true → c ≠ DOT.
Proof. intros H ->. done. Qed.

Lemma component_no_dot p : component_spec p → DOT ∉ p.
Proof.
  intros (c & chars & -> & Hc & Hchars) [Heq|Hin]%elem_of_cons; [by subst c|].
  rewrite Forall_forall in Hchars. by apply Hchars, group_char_not_dot in Hin.
Qed.

Definition valid_group (g : GroupName) : Prop := is_valid_group_name (as_str g) = true.

(** [GroupName::new] accepts a string exactly when it is one or more
    components, each a letter followed by letters, digits, hyphens, plus signs
    or underscores, joined by single dots, and then wraps it unchanged; any
    other string comes back in the error. *)
Theorem group_new_grammar name :
  (group_new name = Ok (mkGroupName name) ∧
   ∃ comps, comps ≠ [] ∧ Forall component_spec comps ∧ name = join [DOT] comps) ∨
  (group_new name = Err (InvalidGroupName name) ∧
   ¬ ∃ comps, comps ≠ [] ∧ Forall component_spec comps ∧ name = join [DOT] comps).
Proof.
  assert (Hspec : is_valid_group_name name = true ↔
    ∃ comps, comps ≠ [] ∧ Forall component_spec comps ∧ name = join [DOT] comps).
  { unfold is_valid_group_name.
    transitivity (Forall component_spec (split DOT name)).
    - case_bool_decide as Hn.
      + subst. split; [done|]. intros H. inversion H as [|? ? (c & ch & ? & _)]. done.
      + rewrite forallb_spec. apply Forall_iff, valid_component_spec.
    - split.
      + intros H. exists (split DOT name). split_and!; [apply split_not_nil|done|].
        by rewrite join_split.
      + intros (comps & Hne & Hc & ->). rewrite split_join; [done|done|].
        eapply Forall_impl; [exact Hc|]. apply component_no_dot. }
  rewrite <- Hspec. unfold group_new. destruct (is_valid_group_name name); auto.
Qed.

End Article.
