(* ===== verification/Validation.v ===== *)
(** Article ingress validation: [crates/core/src/validation.rs].

    [validate_article_ingress] is the single check POST and IHAVE share.  It is
    proved to accept exactly the articles that satisfy [acceptable], a conjunction
    that does not follow the code's order, and to answer every refusal with code
    441.  [documented] states the rules as the comments do: they are a little
    stricter, and agree when header names are printable ASCII and the Message-ID is
    ASCII. *)

From S2P Require Import Prelude Bytes Utf8 Wildmat Article.

Module Validation.
Import Utf8 Wildmat Article.

Definition MAX_NEWSGROUPS : Z := 100.
Definition MAX_HEADER_VALUE : Z := 998.
Definition MAX_HEADER_NAME : Z := 76.
Definition MAX_MSGID_BYTES : Z := 998.

(** [s.len()]. *)
Definition len {A} (s : list A) : Z := Z.of_nat (length s).

Record ValidationConfig := mkConfig {
  max_article_bytes : Z;
  allowed_groups : GroupPolicy
}.

(** [ValidationConfig::default]. *)
Definition default_config : ValidationConfig := mkConfig (1024 * 1024) None.

(** ** Message-IDs *)

Definition LT : Z := 60.
Definition GT : Z := 62.
Definition AT : Z := 64.

(** The closure [forbidden]. *)
Definition forbidden (c : Z) : bool :=
  (c <=? 0x20) || (c =? LT) || (c =? GT) || (c =? 0x7f).

Definition is_valid_message_id (id : bytes) : bool :=
  match (s ← strip_prefix [LT] id; strip_suffix [GT] s) with
  | None => false
  | Some inner =>
      if negb (length (List.filter (Z.eqb AT) inner) =? 1)%nat then false
      else match split_once AT inner with
           | None => false (* unreachable: one @ confirmed above *)
           | Some (local, domain) =>
               if bool_decide (local = []) || bool_decide (domain = []) then false
               else if existsb forbidden local || existsb forbidden domain then false
               else true
           end
  end.

Definition validate_message_id (id : bytes) : result ValidationError () :=
  if MAX_MSGID_BYTES <? len id then Err (InvalidMessageId id)
  else if negb (is_valid_message_id id) then Err (InvalidMessageId id)
  else Ok tt.

(** ** The ingress checks *)

Definition REASON_VALUE : bytes :=
  lit "NUL byte or bare CR/LF forbidden in header values (RFC 5322 §2.2)".
Definition REASON_EMPTY_NAME : bytes :=
  lit "header field name must not be empty (RFC 5322 §2.2)".
Definition REASON_NAME : bytes :=
  lit "header field name contains NUL, CR, LF, or colon (RFC 5322 §2.2)".
Definition REASON_FILTER : bytes :=
  lit "none of the article's groups match the configured filter".

Definition COLON : Z := 58.

(** [contains('\x00') || contains('\r') || contains('\n')]. *)
Definition has_nul_cr_lf (s : bytes) : bool :=
  contains NUL s || contains CR s || contains LF s.

(** The loop over [mandatory_fields]. *)
Fixpoint check_mandatory (fields : list (bytes * bytes)) : result ValidationError () :=
  match fields with
  | [] => Ok tt
  | (name, value) :: fields' =>
      if bool_decide (value = []) then Err (MissingMandatoryHeader name)
      else if MAX_HEADER_VALUE <? len value then
        Err (HeaderFieldTooLong name (len value) MAX_HEADER_VALUE)
      else if has_nul_cr_lf value then Err (InvalidHeaderValue name REASON_VALUE)
      else check_mandatory fields'
  end.

(** The loop over [h.extra_headers]. *)
Fixpoint check_extra (fields : list (bytes * bytes)) : result ValidationError () :=
  match fields with
  | [] => Ok tt
  | (name, value) :: fields' =>
      if bool_decide (name = []) then
        Err (InvalidHeaderValue (lit "(empty)") REASON_EMPTY_NAME)
      else if MAX_HEADER_NAME <? len name then
        Err (HeaderFieldTooLong name (len name) MAX_HEADER_NAME)
      else if has_nul_cr_lf name || contains COLON name then
        Err (InvalidHeaderValue name REASON_NAME)
      else if MAX_HEADER_VALUE <? len value then
        Err (HeaderFieldTooLong name (len value) MAX_HEADER_VALUE)
      else if has_nul_cr_lf value then Err (InvalidHeaderValue name REASON_VALUE)
      else check_extra fields'
  end.

Definition mandatory_fields (h : ArticleHeader) : list (bytes * bytes) :=
  [(lit "From", from h); (lit "Date", date h); (lit "Message-ID", message_id h);
   (lit "Subject", subject h); (lit "Path", path h)].

Definition check_newsgroups (h : ArticleHeader) : result ValidationError () :=
  if bool_decide (newsgroups h = []) then Err EmptyNewsgroups
  else if MAX_NEWSGROUPS <? len (newsgroups h) then
    Err (TooManyNewsgroups (len (newsgroups h)) MAX_NEWSGROUPS)
  else Ok tt.

Definition check_filter (h : ArticleHeader) (policy : GroupPolicy) : result ValidationError () :=
  match policy with
  | None => Ok tt
  | Some filter =>
      if existsb (λ g, accepts filter (as_str g)) (newsgroups h) then Ok tt
      else Err (InvalidGroupInNewsgroups REASON_FILTER)
  end.

Definition check_message_id (h : ArticleHeader) : result ValidationError () :=
  if negb (is_ok (validate_message_id (message_id h))) then
    Err (InvalidMessageId (message_id h))
  else Ok tt.

Definition check_body (a : Article) (config : ValidationConfig) : result ValidationError () :=
  if max_article_bytes config <? len (body a) then
    Err (ValidationArticleTooBig (len (body a)) (max_article_bytes config))
  else Ok tt.

(** The function body; [.into()] wraps every error as [ValidationFailed]. *)
Definition validate_article_ingress (article : Article) (config : ValidationConfig) :
    result ProtocolError () :=
  let h := header article in
  map_err ValidationFailed (
    _ ← check_mandatory (mandatory_fields h);
    _ ← check_message_id h;
    _ ← check_newsgroups h;
    _ ← check_filter h (allowed_groups config);
    _ ← check_extra (extra_headers h);
    check_body article config).

(** The storage trait, and [check_duplicate]. *)
Class MsgIdStorage (S : Type) := msgid_contains : S → bytes → bool.

Definition check_duplicate {S} `{MsgIdStorage S} (message_id : bytes) (storage : S) :
    result ProtocolError () :=
  if msgid_contains storage message_id then Err (DuplicateMessageId message_id) else Ok tt.

(** ** The rules *)

Definition msgid_char (c : Z) : Prop :=
  0x20 < c ∧ c ≠ 0x7f ∧ c ≠ LT ∧ c ≠ GT ∧ c ≠ AT.

(** [<local@domain>], both parts non-empty runs of [msgid_char]. *)
Definition msgid_spec (id : bytes) : Prop :=
  ∃ local domain, id = LT :: local ++ AT :: domain ++ [GT] ∧
    local ≠ [] ∧ domain ≠ [] ∧ Forall msgid_char local ∧ Forall msgid_char domain.

Definition flat (s : bytes) : Prop := NUL ∉ s ∧ CR ∉ s ∧ LF ∉ s.

Definition good_value (v : bytes) : Prop := len v <= MAX_HEADER_VALUE ∧ flat v.

Definition good_name (n : bytes) : Prop :=
  n ≠ [] ∧ len n <= MAX_HEADER_NAME ∧ flat n ∧ COLON ∉ n.

Definition acceptable (a : Article) (config : ValidationConfig) : Prop :=
  let h := header a in
  Forall (λ v, v ≠ [] ∧ good_value v) [from h; date h; message_id h; subject h; path h] ∧
  msgid_spec (message_id h) ∧
  1 <= len (newsgroups h) <= MAX_NEWSGROUPS ∧
  (∀ filter, allowed_groups config = Some filter →
     ∃ g, g ∈ newsgroups h ∧ accepts filter (as_str g) = true) ∧
  Forall (λ nv, good_name nv.1 ∧ good_value nv.2) (extra_headers h) ∧
  len (body a) <= max_article_bytes config.

(** The rules as the comments state them: header names are printable US-ASCII, 33
    to 126, excluding the colon, and no white space occurs in a Message-ID. *)
Definition documented (a : Article) (config : ValidationConfig) : Prop :=
  let h := header a in
  Forall (λ v, v ≠ [] ∧ good_value v) [from h; date h; message_id h; subject h; path h] ∧
  (msgid_spec (message_id h) ∧ split_once_ws (message_id h) = None) ∧
  1 <= len (newsgroups h) <= MAX_NEWSGROUPS ∧
  (∀ filter, allowed_groups config = Some filter →
     ∃ g, g ∈ newsgroups h ∧ accepts filter (as_str g) = true) ∧
  Forall (λ nv, (nv.1 ≠ [] ∧ len nv.1 <= MAX_HEADER_NAME ∧ Forall graphic nv.1 ∧ COLON ∉ nv.1) ∧ good_value nv.2)
    (extra_headers h) ∧
  len (body a) <= max_article_bytes config.

Lemma has_nul_cr_lf_flat s : has_nul_cr_lf s = false ↔ flat s.
Proof.
  unfold has_nul_cr_lf, flat. rewrite !orb_false_iff, !contains_false. tauto.
Qed.

Lemma filter_count_0 c l : length (List.filter (Z.eqb c) l) = 0%nat ↔ c ∉ l.
Proof.
  induction l as [|d l IH]; simpl; [set_solver|]. rewrite not_elem_of_cons.
  destruct (Z.eqb_spec c d); simpl; [naive_solver|]. rewrite IH. naive_solver.
Qed.

(** One separator: splitting there leaves none on either side. *)
Lemma split_one_at c s l r :
  s = l ++ c :: r → c ∉ l → length (List.filter (Z.eqb c) s) = 1%nat ↔ c ∉ r.
Proof.
  intros -> Hl. rewrite List.filter_app, length_app. simpl. rewrite Z.eqb_refl. simpl.
  apply filter_count_0 in Hl as ->. rewrite <- filter_count_0. lia.
Qed.

Lemma forbidden_spec c : forbidden c = false ∧ c ≠ AT ↔ msgid_char c.
Proof.
  unfold forbidden, msgid_char. rewrite !orb_false_iff, !Z.eqb_neq, Z.leb_gt. tauto.
Qed.

Lemma forbidden_run s : existsb forbidden s = false ∧ AT ∉ s ↔ Forall msgid_char s.
Proof.
  rewrite existsb_false. induction s as [|c s IH]; [set_solver|].
  rewrite !Forall_cons, not_elem_of_cons, <- IH, <- forbidden_spec. naive_solver.
Qed.

Lemma is_valid_message_id_spec id : is_valid_message_id id = true ↔ msgid_spec id.
Proof.
  unfold is_valid_message_id, msgid_spec. split.
  - destruct (strip_prefix [LT] id) as [s|] eqn:E1; [|done].
    apply strip_prefix_Some in E1 as ->. simpl.
    destruct (strip_suffix [GT] s) as [inner|] eqn:E2; [|done].
    apply strip_suffix_Some in E2 as ->. break_if; [done|]. to_prop.
    destruct (split_once AT inner) as [[l r]|] eqn:E3; [|done].
    apply split_once_Some in E3 as [-> Hl].
    apply (split_one_at AT _ l r eq_refl Hl) in Heqb.
    repeat break_if; try done. intros _. to_prop.
    exists l, r. split_and!; [by rewrite <- app_assoc|done|done|by apply forbidden_run..].
  - intros (l & r & -> & Hl & Hr & [Hfl Hal]%forbidden_run & [Hfr Har]%forbidden_run).
    replace (LT :: l ++ AT :: r ++ [GT]) with ([LT] ++ ((l ++ AT :: r) ++ [GT]))
      by (simpl; by rewrite <- app_assoc).
    rewrite (proj2 (strip_prefix_Some _ _ _) eq_refl). cbn [mbind option_bind].
    rewrite (proj2 (strip_suffix_Some _ _ _) eq_refl).
    rewrite (proj2 (split_one_at AT _ l r eq_refl Hal) Har). simpl.
    rewrite (proj2 (split_once_Some AT _ l r) (conj eq_refl Hal)).
    rewrite !bool_decide_eq_false_2 by done. by rewrite Hfl, Hfr.
Qed.

Lemma check_mandatory_Ok fields :
  check_mandatory fields = Ok tt ↔ Forall (λ v, v ≠ [] ∧ good_value v) fields.*2.
Proof.
  induction fields as [|[n v] fields IH]; [done|].
  rewrite fmap_cons, Forall_cons, <- IH. unfold good_value. cbn [check_mandatory snd].
  case_bool_decide; [naive_solver|]. rewrite <- has_nul_cr_lf_flat.
  repeat break_if; to_prop; naive_solver lia.
Qed.

Lemma check_extra_Ok fields :
  check_extra fields = Ok tt ↔
  Forall (λ nv, good_name nv.1 ∧ good_value nv.2) fields.
Proof.
  induction fields as [|[n v] fields IH]; [done|].
  rewrite Forall_cons, <- IH. unfold good_name, good_value. cbn [check_extra fst snd].
  case_bool_decide; [naive_solver|].
  rewrite <- !has_nul_cr_lf_flat, <- contains_false.
  destruct (has_nul_cr_lf n), (contains COLON n), (has_nul_cr_lf v); simpl;
    repeat break_if; to_prop; naive_solver lia.
Qed.

Lemma check_newsgroups_Ok h :
  check_newsgroups h = Ok tt ↔ 1 <= len (newsgroups h) <= MAX_NEWSGROUPS.
Proof.
  unfold check_newsgroups, len. case_bool_decide as Hn.
  - rewrite Hn. simpl. split; [done|lia].
  - assert (length (newsgroups h) ≠ 0%nat) by (by rewrite length_zero_iff_nil).
    break_if; to_prop; split; (done || lia).
Qed.

Lemma check_filter_Ok h policy :
  check_filter h policy = Ok tt ↔
  ∀ filter, policy = Some filter → ∃ g, g ∈ newsgroups h ∧ accepts filter (as_str g) = true.
Proof.
  destruct policy as [f|]; simpl; [|naive_solver].
  destruct (existsb _ _) eqn:E.
  - rewrite existsb_spec, Exists_exists in E. naive_solver.
  - split; [done|]. intros H. destruct (H f eq_refl) as (g & Hg & Ha).
    rewrite existsb_false, Forall_forall in E. rewrite E in Ha by done. done.
Qed.

Lemma check_message_id_Ok h :
  check_message_id h = Ok tt ↔ len (message_id h) <= MAX_MSGID_BYTES ∧ msgid_spec (message_id h).
Proof.
  unfold check_message_id, validate_message_id. rewrite <- is_valid_message_id_spec.
  destruct (is_valid_message_id (message_id h)),
    (Z.ltb_spec MAX_MSGID_BYTES (len (message_id h))); simpl; naive_solver lia.
Qed.

Lemma check_body_Ok a config :
  check_body a config = Ok tt ↔ len (body a) <= max_article_bytes config.
Proof. unfold check_body. break_if; to_prop; naive_solver lia. Qed.

Lemma bind_unit_Ok {E B} (m : result E ()) (k : result E B) b :
  (_ ← m; k) = Ok b ↔ m = Ok tt ∧ k = Ok b.
Proof. destruct m as [[]|]; simpl; naive_solver. Qed.

Lemma validate_Ok_iff article config :
  validate_article_ingress article config = Ok tt ↔ acceptable article config.
Proof.
  unfold validate_article_ingress, acceptable. cbv zeta.
  rewrite <- check_body_Ok, <- check_extra_Ok, <- check_filter_Ok, <- check_newsgroups_Ok.
  change [_; _; _; _; _] with (mandatory_fields (header article)).*2.
  rewrite <- check_mandatory_Ok.
  match goal with |- map_err _ ?r = _ ↔ _ => transitivity (r = Ok tt) end.
  { unfold map_err. by case_match; naive_solver. }
  rewrite !bind_unit_Ok, check_message_id_Ok, check_mandatory_Ok.
  simpl. rewrite !Forall_cons. unfold good_value, MAX_HEADER_VALUE, MAX_MSGID_BYTES. naive_solver.
Qed.

Lemma graphic_flat s : Forall graphic s → flat s.
Proof.
  rewrite Forall_forall. intros H. unfold flat, NUL, CR, LF.
  split_and!; intros Hc; specialize (H _ Hc); unfold graphic in H; lia.
Qed.

(** An ASCII Message-ID has no white space. *)
Lemma ascii_msgid_graphic id : msgid_spec id → ascii id → Forall graphic id.
Proof.
  intros (l & r & -> & _ & _ & Hl & Hr) Ha.
  assert (H : ∀ s, Forall msgid_char s → ascii s → Forall graphic s).
  { intros s Hs. unfold ascii. rewrite !Forall_forall in *. intros Has c Hc. specialize (Hs c Hc). specialize (Has c Hc).
    unfold msgid_char, graphic in *. lia. }
  unfold ascii in Ha. rewrite Forall_cons, Forall_app, Forall_cons, Forall_app in Ha.
  destruct Ha as (_ & Hal & _ & Har & _). rewrite Forall_cons, Forall_app, Forall_cons, Forall_app, Forall_singleton.
  split_and!; [by unfold graphic, LT|by apply H|by unfold graphic, AT|by apply H|by unfold graphic, GT].
Qed.

Lemma documented_acceptable article config : documented article config → acceptable article config.
Proof.
  intros (H1 & [H2 _] & H3 & H4 & H5 & H6). refine (conj H1 (conj H2 (conj H3 (conj H4 (conj _ H6))))).
  eapply Forall_impl; [exact H5|]. cbn.
  intros [n v] [(Hn & Hl & Hg & Hc) Hv]. split; [|done]. split_and!; [done|done|apply graphic_flat, Hg|done].
Qed.

(** C30. [validate_article_ingress] accepts an article exactly when the five
    mandatory headers are present, at most 998 bytes and free of NUL, CR and LF;
    the Message-ID is [<local@domain>] with one at sign and no space, ASCII control
    character or angle bracket inside; there are 1 to 100 groups, one of them
    passing the configured filter; every extra header has a non-empty name of at
    most 76 bytes without NUL, CR, LF and colon, and a legal value; and the body is
    within the limit.  So it accepts every article the documented rules allow, and
    only those when the header names are printable ASCII and the Message-ID is
    ASCII.  Every refusal is answered with code 441. *)
Theorem validate_article_ingress_spec article config :
  (validate_article_ingress article config = Ok tt ↔ acceptable article config) ∧
  (documented article config → validate_article_ingress article config = Ok tt) ∧
  (validate_article_ingress article config = Ok tt → ascii (message_id (header article)) →
   Forall (λ nv, Forall graphic nv.1) (extra_headers (header article)) → documented article config) ∧
  (∀ e, validate_article_ingress article config = Err e → response_code e = 441).
Proof.
  split; [apply validate_Ok_iff|]. split; [intros H; by apply validate_Ok_iff, documented_acceptable|]. split.
  - intros (H1 & H2 & H3 & H4 & H5 & H6)%validate_Ok_iff Ha Hn.
    refine (conj H1 (conj (conj H2 _) (conj H3 (conj H4 (conj _ H6))))).
    + by apply split_once_ws_none, ascii_msgid_graphic.
    + rewrite Forall_forall in *. intros nv Hnv. destruct (H5 nv Hnv) as [(Hne & Hl & _ & Hc) Hv].
      split; [|done]. split_and!; [done|done|by apply Hn|done].
  - intros e. unfold validate_article_ingress, map_err. case_match; [done|]. by intros [= <-].
Qed.

Definition sample_article : Article :=
  mkArticle (mkHeader (lit "u@example.org") (lit "Mon, 01 Jan 2024 00:00:00 +0000")
               (lit "<1@example.org>") [mkGroupName (lit "comp.lang.rust"); mkGroupName (lit "alt.test")]
               (lit "hello") (lit "example.org!u") [(lit "X-B", lit "2"); (lit "X-A", lit "1")])
            (lit "body").

Definition ungrouped_article : Article :=
  mkArticle (mkHeader (lit "u@example.org") (lit "Mon, 01 Jan 2024 00:00:00 +0000")
               (lit "<1@example.org>") [] (lit "hello") (lit "example.org!u") [])
            (lit "body").

Lemma validate_article_ingress_spec_witness :
  acceptable sample_article default_config ∧ documented sample_article default_config ∧
  response_code (ValidationFailed EmptyNewsgroups) = 441.
Proof.
  split; [|split].
  - apply (validate_article_ingress_spec sample_article default_config). vm_compute; done.
  - apply (validate_article_ingress_spec sample_article default_config); [vm_compute; done| |];
      by apply (bool_decide_eq_true_1 _); vm_refl.
  - apply (validate_article_ingress_spec ungrouped_article default_config). vm_compute; done.
Defined.

(** Neither a header name with a space nor a no-break space (194, 160) in the
    Message-ID is refused. *)
Definition lenient_article : Article :=
  mkArticle (mkHeader (lit "u@example.org") (lit "Mon, 01 Jan 2024 00:00:00 +0000")
               (lit "<1" ++ [194; 160] ++ lit "@example.org>") [mkGroupName (lit "alt.test")]
               (lit "hello") (lit "example.org!u") [(lit "X B", lit "2")])
            (lit "body").

Lemma lenient_article_accepted :
  validate_article_ingress lenient_article default_config = Ok tt ∧ ¬ documented lenient_article default_config.
Proof. split; [vm_refl|]. by intros (_ & [_ H] & _). Qed.

End Validation.
