(* ===== verification/Headers.v ===== *)
(** The header scanners of the transit daemon: [has_header],
    [extract_body_msgid] and [prepend_path_header] of
    [crates/transit/src/peering/ingestion.rs] and
    [parse_message_id_and_newsgroups] of [crates/transit/src/peering/pipeline.rs].

    All of them walk the raw article line by line up to the first blank line.
    [headers_of] is that header section; the scanners are characterised on it.
    Slicing a [str] at a fixed byte index panics inside a character, so the two
    scanners that do it return [result Panic _]. *)

From S2P Require Import Prelude Bytes Utf8 Validation.

Module Headers.
Import Utf8 Validation.

Definition COMMA : Z := 44.

(** A line without its trailing CR. *)
Definition strip_cr (line : bytes) : bytes := default line (strip_suffix [CR] line).

(** [trimmed.first().is_some_and(|&b| b == b' ' || b == b'\t')]. *)
Definition is_folded (line : bytes) : bool :=
  match line with b :: _ => (b =? SP) || (b =? HT) | [] => false end.

(** ** [has_header] *)

Fixpoint has_header_in (name : bytes) (lines : list bytes) : bool :=
  match lines with
  | [] => false
  | line :: rest =>
      let trimmed := strip_cr line in
      if bool_decide (trimmed = []) then false
      else if (length name <? length trimmed)%nat
              && eq_ignore_ascii_case (take (length name) trimmed) name
              && bool_decide (trimmed !! length name = Some COLON) then true
      else has_header_in name rest
  end.

Definition has_header (article_bytes name : bytes) : bool :=
  has_header_in name (split LF article_bytes).

(** ** [extract_body_msgid] *)

Definition MID : bytes := lit "message-id:".
Definition NG : bytes := lit "newsgroups:".

(** The inner loop: the continuation lines of the field. *)
Fixpoint fold_value (value : bytes) (lines : list bytes) : option bytes :=
  match lines with
  | [] => Some value
  | cont :: rest =>
      let ct := strip_cr cont in
      if bool_decide (ct = []) then Some value
      else if is_folded ct then
        cs ← from_utf8 ct; fold_value (value ++ trim_ascii cs) rest
      else Some value
  end.

Fixpoint extract_in (lines : list bytes) : result Panic (option bytes) :=
  match lines with
  | [] => Ok None
  | line :: rest =>
      let trimmed := strip_cr line in
      if bool_decide (trimmed = []) then Ok None
      else if is_folded trimmed then extract_in rest
      else match from_utf8 trimmed with
           | None => extract_in rest
           | Some s =>
               if (length s <? length MID)%nat then extract_in rest
               else
                 pre ← str_to s (length MID);
                 if negb (eq_ignore_ascii_case pre MID) then extract_in rest
                 else Ok (trim_ascii <$> fold_value (trim_ascii_start (drop (length MID) s)) rest)
           end
  end.

Definition extract_body_msgid (article_bytes : bytes) : result Panic (option bytes) :=
  extract_in (split LF article_bytes).

(** ** [parse_message_id_and_newsgroups] *)

(** Which header the loop is accumulating. *)
Inductive Current := CNone | CMessageId | CNewsgroups.

#[export] Instance current_eq_dec : EqDecision Current.
Proof. solve_decision. Defined.

(** [v.push_str(..)] on the header being accumulated. *)
Definition push_cont (cur : Current) (cont : bytes) (mid ng : option bytes) :
    option bytes * option bytes :=
  match cur with
  | CMessageId => ((λ v, v ++ trim cont) <$> mid, ng)
  | CNewsgroups => (mid, (λ v, v ++ [COMMA] ++ trim cont) <$> ng)
  | CNone => (mid, ng)
  end.

(** [field.is_none() && s.len() >= P.len() && s[..P.len()].eq_ignore_ascii_case(P)]. *)
Definition starts_field (field : option bytes) (s prefix : bytes) : result Panic bool :=
  match field with
  | Some _ => Ok false
  | None =>
      if (length s <? length prefix)%nat then Ok false
      else pre ← str_to s (length prefix); Ok (eq_ignore_ascii_case pre prefix)
  end.

Fixpoint parse_in (mid ng : option bytes) (cur : Current) (lines : list bytes) :
    result Panic (option bytes * option bytes) :=
  match lines with
  | [] => Ok (mid, ng)
  | line :: rest =>
      let trimmed := strip_cr line in
      if bool_decide (trimmed = []) then Ok (mid, ng)
      else if is_folded trimmed then
        match from_utf8 trimmed with
        | None => parse_in mid ng CNone rest
        | Some cont => let '(mid, ng) := push_cont cur cont mid ng in parse_in mid ng cur rest
        end
      else if bool_decide (cur = CNone) && bool_decide (is_Some mid) && bool_decide (is_Some ng)
        then Ok (mid, ng)
      else match from_utf8 trimmed with
           | None => parse_in mid ng CNone rest
           | Some s =>
               is_mid ← starts_field mid s MID;
               if is_mid : bool then
                 parse_in (Some (trim (drop (length MID) s))) ng CMessageId rest
               else
                 is_ng ← starts_field ng s NG;
                 if is_ng : bool then
                   parse_in mid (Some (trim (drop (length NG) s))) CNewsgroups rest
                 else parse_in mid ng CNone rest
           end
  end.

(** [.split(',').map(trim).filter(|s| !s.is_empty())]. *)
Definition split_groups (v : bytes) : list bytes :=
  List.filter (λ s, negb (bool_decide (s = []))) (trim <$> split COMMA v).

Definition parse_message_id_and_newsgroups (article_bytes : bytes) :
    result Panic (option (bytes * list bytes)) :=
  '(mid, ng) ← parse_in None None CNone (split LF article_bytes);
  Ok (match mid with
      | None => None
      | Some mid => Some (mid, split_groups (default [] ng))
      end).

(** ** [prepend_path_header] *)

Definition PATH : bytes := lit "path:".

Definition is_path (line : bytes) : bool :=
  (length PATH <=? length line)%nat && eq_ignore_ascii_case (take (length PATH) line) PATH.

Definition new_path (hostname : bytes) : bytes := lit "Path: " ++ hostname.

(** The rewritten [Path:] line. *)
Definition hop (hostname line : bytes) : bytes :=
  new_path hostname ++ lit "!" ++ trim (from_utf8_lossy (drop (length PATH) line)).

Fixpoint prepend_in (hostname : bytes) (path_found in_body : bool) (lines : list bytes) : bytes :=
  match lines with
  | [] => []
  | line :: rest =>
      if bool_decide (line = []) && bool_decide (rest = []) then []
      else if in_body then line ++ [LF] ++ prepend_in hostname path_found true rest
      else
        let trimmed := strip_cr line in
        if bool_decide (trimmed = []) then
          (if path_found then [] else new_path hostname ++ CRLF) ++
          CRLF ++ prepend_in hostname path_found true rest
        else if is_path trimmed then
          hop hostname trimmed ++ CRLF ++ prepend_in hostname true false rest
        else trimmed ++ CRLF ++ prepend_in hostname path_found false rest
  end.

Definition prepend_path_header (article_bytes hostname : bytes) : bytes :=
  prepend_in hostname false false (split LF article_bytes).

(** ** The header section *)

Fixpoint headers_of (lines : list bytes) : list bytes :=
  match lines with
  | [] => []
  | line :: rest =>
      let trimmed := strip_cr line in
      if bool_decide (trimmed = []) then [] else trimmed :: headers_of rest
  end.

Definition header_section (article_bytes : bytes) : list bytes :=
  headers_of (split LF article_bytes).

(** [name: value] in any case. *)
Definition declares (name line : bytes) : Prop :=
  ∃ n v, line = n ++ COLON :: v ∧ to_ascii_lowercase n = to_ascii_lowercase name.

Lemma eq_ignore_ascii_case_spec a b :
  eq_ignore_ascii_case a b = true ↔ to_ascii_lowercase a = to_ascii_lowercase b.
Proof. apply bool_decide_eq_true. Qed.

Lemma length_lowercase_eq a b :
  to_ascii_lowercase a = to_ascii_lowercase b → length a = length b.
Proof. intros H%(f_equal length). by rewrite !length_to_ascii_lowercase in H. Qed.

Lemma declares_dec name line :
  (length name <? length line)%nat && eq_ignore_ascii_case (take (length name) line) name
    && bool_decide (line !! length name = Some COLON) = true ↔ declares name line.
Proof.
  rewrite !andb_true_iff, Nat.ltb_lt, eq_ignore_ascii_case_spec, bool_decide_eq_true.
  unfold declares. split.
  - intros [[Hlen Heq] Hc]. exists (take (length name) line), (drop (S (length name)) line).
    split; [|done]. by rewrite <- (take_drop_middle line (length name) COLON Hc) at 1.
  - intros (n & v & -> & Hn). pose proof (length_lowercase_eq _ _ Hn) as Hlen.
    rewrite length_app, <- Hlen, take_app_length. simpl. split_and!; [lia|done|].
    by rewrite lookup_app_r, Nat.sub_diag by lia.
Qed.

Lemma has_header_spec article name :
  has_header article name = true ↔ Exists (declares name) (header_section article).
Proof.
  unfold has_header, header_section. induction (split LF article) as [|line rest IH]; simpl.
  - by rewrite Exists_nil.
  - case_bool_decide; [by rewrite Exists_nil|]. rewrite Exists_cons, <- IH, <- declares_dec.
    destruct (_ && _) eqn:E; naive_solver.
Qed.

(** ** Where the scanners panic *)

(** A field line the scanners look at: not a continuation, valid UTF-8. *)
Definition field_line (line : bytes) : Prop := is_folded line = false ∧ is_utf8 line = true.

(** Byte 11 of the line, counting from 0, is inside a character. *)
Definition splits_char (line : bytes) : Prop :=
  field_line line ∧ is_continuation <$> line !! length MID = Some true.

Definition starts_with_field (prefix line : bytes) : Prop :=
  field_line line ∧ to_ascii_lowercase (take (length prefix) line) = to_ascii_lowercase prefix.

Lemma boundary_spec (s : bytes) n :
  (0 < n <= length s)%nat →
  is_char_boundary s n = false ↔ is_continuation <$> s !! n = Some true.
Proof.
  intros Hn. unfold is_char_boundary. destruct n as [|n]; [lia|].
  destruct (s !! S n) as [b|] eqn:E.
  - rewrite negb_false_iff. simpl. split; congruence.
  - apply lookup_ge_None in E. rewrite Nat.eqb_neq. simpl. split; [lia|done].
Qed.

Lemma length_MID : length MID = 11%nat.
Proof. reflexivity. Qed.

(** One step of the scan over a line that neither starts the field nor splits
    a character. *)
Lemma extract_skip line rest :
  strip_cr line ≠ [] → ¬ splits_char (strip_cr line) → ¬ starts_with_field MID (strip_cr line) →
  extract_in (line :: rest) = extract_in rest.
Proof.
  intros Hne Hsp Hst. cbn [extract_in]. cbv zeta. rewrite bool_decide_eq_false_2 by done.
  destruct (is_folded (strip_cr line)) eqn:Ef; [done|]. unfold from_utf8.
  destruct (is_utf8 (strip_cr line)) eqn:Eu; [|done].
  destruct (Nat.ltb_spec (length (strip_cr line)) (length MID)) as [|Hlen]; [done|].
  unfold str_to. destruct (is_char_boundary _ _) eqn:Eb; simpl.
  - destruct (eq_ignore_ascii_case _ _) eqn:Ee; [|done].
    apply eq_ignore_ascii_case_spec in Ee. by destruct Hst.
  - apply boundary_spec in Eb; [|rewrite length_MID in *; lia]. by destruct Hsp.
Qed.

Lemma extract_split line rest :
  strip_cr line ≠ [] → splits_char (strip_cr line) → extract_in (line :: rest) = Err CharBoundary.
Proof.
  intros Hne ((Hf & Hu) & Hc). cbn [extract_in]. cbv zeta. rewrite bool_decide_eq_false_2 by done.
  rewrite Hf. unfold from_utf8. rewrite Hu.
  destruct (strip_cr line !! length MID) as [b|] eqn:Hb; [|done]. rewrite <- Hb in Hc.
  pose proof (lookup_lt_Some _ _ _ Hb).
  destruct (Nat.ltb_spec (length (strip_cr line)) (length MID)); [lia|]. unfold str_to.
  apply boundary_spec in Hc as ->; [done|]. rewrite length_MID in *. lia.
Qed.

#[export] Instance splits_char_dec line : Decision (splits_char line).
Proof. unfold splits_char, field_line. apply _. Defined.

#[export] Instance starts_with_field_dec prefix line : Decision (starts_with_field prefix line).
Proof. unfold starts_with_field, field_line. apply _. Defined.

(** [extract_body_msgid] panics exactly when the header section has, before
    any [Message-ID] field, a field line of valid UTF-8 whose byte 11 (counting
    from 0) continues a multi-byte character: the slice [s[..11]] is taken
    without checking for a character boundary.  A [Subject] whose second letter
    is accented, written in UTF-8, is such a line. *)
Theorem extract_body_msgid_panics article :
  extract_body_msgid article = Err CharBoundary ↔
  ∃ before line after, header_section article = before ++ line :: after ∧
    Forall (λ l, ¬ starts_with_field MID l) before ∧ splits_char line.
Proof.
  unfold extract_body_msgid, header_section. induction (split LF article) as [|line rest IH].
  { simpl. split; [done|]. intros ([|] & ? & ? & ? & _); done. }
  destruct (decide (strip_cr line = [])) as [Hn|Hn].
  { simpl. rewrite bool_decide_eq_true_2 by done. split; [done|]. intros ([|] & ? & ? & ? & _); done. }
  assert (Hh : headers_of (line :: rest) = strip_cr line :: headers_of rest)
    by (simpl; by rewrite bool_decide_eq_false_2). rewrite Hh. clear Hh.
  destruct (decide (splits_char (strip_cr line))) as [Hs|Hs].
  { rewrite extract_split by done. split; [|done]. intros _.
    by exists [], (strip_cr line), (headers_of rest). }
  destruct (decide (starts_with_field MID (strip_cr line))) as [Hm|Hm].
  - split.
    + destruct Hm as [[Hf Hu] He]. cbn [extract_in]. cbv zeta.
      rewrite bool_decide_eq_false_2, Hf by done. unfold from_utf8, str_to. rewrite Hu.
      destruct (Nat.ltb_spec (length (strip_cr line)) (length MID)) as [Hlt|Hle].
      { apply length_lowercase_eq in He. rewrite length_take in He. lia. }
      destruct (is_char_boundary _ _) eqn:Eb; cbn [mbind result_bind].
      { apply eq_ignore_ascii_case_spec in He. by rewrite He. }
      apply boundary_spec in Eb; [|rewrite length_MID in *; lia]. by destruct Hs.
    + intros ([|l before] & line' & after & [= <- Heq] & Hb & Hsp); [done|].
      by apply Forall_cons in Hb as [? _].
  - rewrite extract_skip by done. rewrite IH. split.
    + intros (before & line' & after & -> & Hb & Hsp).
      exists (strip_cr line :: before), line', after. by rewrite Forall_cons.
    + intros ([|l before] & line' & after & [= <- Heq] & Hb & Hsp); [done|].
      apply Forall_cons in Hb as [_ Hb]. by exists before, line', after.
Qed.

(** ** The Path header *)

(** Raw header lines: non-empty, without LF and without a trailing CR. *)
Definition raw_line (h : bytes) : Prop := h ≠ [] ∧ LF ∉ h ∧ strip_cr h = h.

(** The bytes of header lines, each ended by CRLF. *)
Definition render (hs : list bytes) : bytes := concat ((λ h, h ++ CRLF) <$> hs).

(** The body as the code writes it: a last line without LF gets one. *)
Definition terminated (body : bytes) : bytes :=
  match last body with
  | None => body
  | Some c => if c =? LF then body else body ++ [LF]
  end.

Lemma strip_cr_app h : strip_cr (h ++ [CR]) = h.
Proof. unfold strip_cr. by rewrite (proj2 (strip_suffix_Some [CR] (h ++ [CR]) h) eq_refl). Qed.

Lemma split_render_line h rest :
  LF ∉ h → split LF (h ++ CRLF ++ rest) = (h ++ [CR]) :: split LF rest.
Proof.
  intros Hh. replace (h ++ CRLF ++ rest) with ((h ++ [CR]) ++ LF :: rest)
    by (by rewrite <- app_assoc). rewrite split_app_sep; [done|].
  rewrite elem_of_app, list_elem_of_singleton. by intros [?|?].
Qed.

Lemma render_cons h hs rest : render (h :: hs) ++ rest = h ++ CRLF ++ render hs ++ rest.
Proof. unfold render. simpl. by rewrite <- !app_assoc. Qed.

Lemma split_render_lines hs rest :
  Forall (λ h, LF ∉ h) hs →
  split LF (render hs ++ rest) = ((λ h, h ++ [CR]) <$> hs) ++ split LF rest.
Proof.
  induction 1 as [|h hs Hlf _ IH]; [done|].
  by rewrite render_cons, split_render_line, IH.
Qed.

Lemma split_render hs rest :
  Forall raw_line hs →
  split LF (render hs ++ rest) = ((λ h, h ++ [CR]) <$> hs) ++ split LF rest.
Proof.
  intros H. apply split_render_lines. eapply Forall_impl; [exact H|]. by intros h (_ & Hlf & _).
Qed.

Lemma headers_of_render hs rest :
  Forall raw_line hs →
  headers_of (((λ h, h ++ [CR]) <$> hs) ++ [CR] :: rest) = hs.
Proof.
  induction 1 as [|h hs (Hne & _ & _) _ IH]; [done|].
  rewrite fmap_cons. cbn [app headers_of]. cbv zeta. by rewrite strip_cr_app, bool_decide_eq_false_2, IH.
Qed.

(** An article in transit form has the header section it was rendered from. *)
Lemma header_section_render hs body :
  Forall raw_line hs → header_section (render hs ++ CRLF ++ body) = hs.
Proof.
  intros Hhs. unfold header_section. rewrite split_render by done.
  change (CRLF ++ body) with ([] ++ CRLF ++ body). rewrite split_render_line by apply not_elem_of_nil.
  by apply headers_of_render.
Qed.

Lemma terminated_cons (l x : bytes) : terminated (l ++ LF :: x) = l ++ LF :: terminated x.
Proof.
  unfold terminated. rewrite last_app_cons. destruct x as [|c x]; [done|].
  rewrite last_cons_cons. destruct (last (c :: x)) as [d|]; [|done].
  destruct (d =? LF); [done|]. by rewrite <- app_assoc.
Qed.

Lemma terminated_piece l : LF ∉ l → l ≠ [] → terminated l = l ++ [LF].
Proof.
  intros Hlf Hne. unfold terminated. destruct (last l) as [c|] eqn:E.
  - apply last_Some_elem_of in E. destruct (Z.eqb_spec c LF); [congruence|done].
  - by apply last_None in E.
Qed.

Lemma prepend_body host pf lines :
  Forall (λ l, LF ∉ l) lines → prepend_in host pf true lines = terminated (join [LF] lines).
Proof.
  induction 1 as [|l lines Hl Hls IH]; [done|]. cbn [prepend_in].
  destruct lines as [|l' lines].
  - rewrite (bool_decide_eq_true_2 ([] = [])), andb_true_r by done. case_bool_decide as Hn.
    + by rewrite Hn.
    + simpl. by rewrite terminated_piece.
  - rewrite (bool_decide_eq_false_2 (l' :: lines = [])), andb_false_r by done. rewrite IH.
    change (join [LF] (l :: l' :: lines)) with (l ++ LF :: join [LF] (l' :: lines)).
    by rewrite terminated_cons.
Qed.

(** The header lines with the hop added to every [Path] line. *)
Definition with_hop (host : bytes) (hs : list bytes) : list bytes :=
  (λ h, if is_path h then hop host h else h) <$> hs.

(** The line added when there is no [Path] line. *)
Definition path_line (host : bytes) (hs : list bytes) : list bytes :=
  if existsb is_path hs then [] else [new_path host].

Lemma prepend_headers host pf hs rest :
  Forall raw_line hs → rest ≠ [] →
  prepend_in host pf false (((λ h, h ++ [CR]) <$> hs) ++ rest) =
  render (with_hop host hs) ++ prepend_in host (pf || existsb is_path hs) false rest.
Proof.
  intros Hhs Hrest. revert pf. induction Hhs as [|h hs (Hne & _ & _) _ IH]; intros pf.
  { by rewrite orb_false_r. }
  unfold with_hop. rewrite !fmap_cons. cbn [app prepend_in existsb].
  rewrite bool_decide_eq_false_2 by (by destruct h). cbv zeta.
  rewrite andb_false_l, strip_cr_app, (bool_decide_eq_false_2 (h = [])) by done.
  rewrite render_cons. fold (with_hop host hs).
  destruct (is_path h); rewrite IH; [by rewrite orb_true_l, orb_true_r|done].
Qed.

Lemma prepend_path_header_eq host hs body :
  Forall raw_line hs →
  prepend_path_header (render hs ++ CRLF ++ body) host =
  render (with_hop host hs ++ path_line host hs) ++ CRLF ++ terminated body.
Proof.
  intros Hhs. unfold prepend_path_header. rewrite split_render by done.
  change (CRLF ++ body) with ([] ++ CRLF ++ body). rewrite split_render_line by apply not_elem_of_nil.
  rewrite prepend_headers by done. cbn [orb app prepend_in]. cbv zeta.
  rewrite (bool_decide_eq_false_2 ([CR] = [])), andb_false_l by done.
  change (strip_cr [CR]) with (@nil Z). rewrite bool_decide_eq_true_2 by done.
  rewrite prepend_body by (apply Forall_forall; intros l; apply split_pieces).
  rewrite join_split. unfold path_line, render. rewrite fmap_app, concat_app, <- app_assoc.
  destruct (existsb is_path hs); [done|]. simpl. by rewrite app_nil_r.
Qed.

(** [prepend_path_header] on an article as it travels (header lines ended
    by CRLF, a blank line, a body): every [Path] line gets the local host and an
    exclamation mark in front of its trimmed value, an article without one gets
    a [Path] line naming the host at the end of its headers, all other header
    lines and the body are kept byte for byte (a body whose last line lacks its
    newline gets one). *)
Theorem prepend_path_header_spec host hs body :
  Forall raw_line hs →
  prepend_path_header (render hs ++ CRLF ++ body) host =
  render (with_hop host hs ++ path_line host hs) ++ CRLF ++ terminated body.
Proof. apply prepend_path_header_eq. Qed.

(** ** Unfolded ASCII headers *)

Definition VT : Z := 11.

(** A header line as most articles have it. *)
Definition plain_line (h : bytes) : Prop :=
  raw_line h ∧ ascii h ∧ is_folded h = false ∧ VT ∉ h.

Definition begins (prefix h : bytes) : bool :=
  eq_ignore_ascii_case (take (length prefix) h) prefix.

(** What follows the first line that begins with [prefix]. *)
Fixpoint first_field (prefix : bytes) (hs : list bytes) : option bytes :=
  match hs with
  | [] => None
  | h :: hs' => if begins prefix h then Some (drop (length prefix) h) else first_field prefix hs'
  end.

Lemma begins_length prefix h : begins prefix h = true → (length prefix <= length h)%nat.
Proof.
  unfold begins. rewrite eq_ignore_ascii_case_spec. intros H%length_lowercase_eq.
  rewrite length_take in H. lia.
Qed.

(** What the two scanners find at the start of a plain line. *)
Lemma plain_prefix prefix h :
  ascii h →
  (if (length h <? length prefix)%nat then Ok false
   else pre ← str_to h (length prefix); Ok (eq_ignore_ascii_case pre prefix)) =
  Ok (E := Panic) (begins prefix h).
Proof.
  intros Ha. destruct (Nat.ltb_spec (length h) (length prefix)) as [Hlt|Hle].
  - destruct (begins prefix h) eqn:E; [|done]. apply begins_length in E. lia.
  - unfold str_to. by rewrite ascii_boundary.
Qed.

Lemma drop_while_ext (f g : Z → bool) s :
  (∀ c, c ∈ s → f c = g c) → drop_while f s = drop_while g s.
Proof.
  induction s as [|c s IH]; intros H; simpl; [done|]. rewrite (H c) by (by left).
  destruct (g c); [|done]. apply IH. intros d ?. apply H. by right.
Qed.

Lemma drop_while_sub f (s : bytes) c : c ∈ drop_while f s → c ∈ s.
Proof. intros H. rewrite <- (take_drop_while f s), elem_of_app. by right. Qed.

Lemma ws_agree c : c ≠ VT → ws1 c = is_ascii_whitespace c.
Proof.
  unfold ws1, is_ascii_whitespace, VT. intros Hc.
  destruct (Z.leb_spec 9 c), (Z.leb_spec c 13), (Z.eqb_spec c 9), (Z.eqb_spec c 10),
    (Z.eqb_spec c 12), (Z.eqb_spec c 13), (Z.eqb_spec c 32); simpl; lia || done.
Qed.

(** On ASCII without vertical tabs the two trims agree. *)
Lemma trim_agrees s : ascii s → VT ∉ s → trim s = trim_ascii s.
Proof.
  intros Ha Hvt. unfold trim, trim_ascii, trim_ascii_start. rewrite trim_start_ascii by done.
  rewrite (drop_while_ext ws1 is_ascii_whitespace s) by (intros c ?; apply ws_agree; congruence).
  rewrite trim_end_rev_ascii.
  - f_equal. apply drop_while_ext. intros c Hc. apply ws_agree. intros ->.
    rewrite list_elem_of_In, <- in_rev, <- list_elem_of_In in Hc. by apply drop_while_sub in Hc.
  - apply Forall_rev. apply Forall_forall. intros c Hc%drop_while_sub.
    by eapply Forall_forall in Ha.
Qed.

Lemma drop_while_idemp f s : drop_while f (drop_while f s) = drop_while f s.
Proof. induction s as [|c s IH]; simpl; [done|]. destruct (f c) eqn:E; simpl; [done|]. by rewrite E. Qed.

Lemma trim_ascii_start_trim s : trim_ascii (trim_ascii_start s) = trim_ascii s.
Proof. unfold trim_ascii, trim_ascii_start. by rewrite drop_while_idemp. Qed.

(** The lines of an article with these headers. *)
Definition lines_of (hs rest : list bytes) : list bytes :=
  ((λ h, h ++ [CR]) <$> hs) ++ [CR] :: rest.

Lemma fold_value_plain v hs rest : Forall plain_line hs → fold_value v (lines_of hs rest) = Some v.
Proof.
  unfold lines_of. destruct hs as [|h hs]; [done|].
  intros [((Hne & _ & _) & _ & Hf & _) _]%Forall_cons. rewrite fmap_cons.
  cbn [app fold_value]. cbv zeta. by rewrite strip_cr_app, bool_decide_eq_false_2, Hf.
Qed.

Lemma extract_plain hs rest :
  Forall plain_line hs → extract_in (lines_of hs rest) = Ok (trim_ascii <$> first_field MID hs).
Proof.
  induction 1 as [|h hs ((Hne & _ & _) & Ha & Hf & _) Hhs IH]; [done|].
  unfold lines_of. rewrite fmap_cons. cbn [app extract_in first_field]. cbv zeta.
  rewrite strip_cr_app, bool_decide_eq_false_2, Hf by done. fold (lines_of hs rest).
  unfold from_utf8. rewrite ascii_is_utf8 by done.
  pose proof (plain_prefix MID h Ha) as Hpre. revert Hpre.
  destruct (length h <? length MID)%nat; [intros [= <-]; done|].
  destruct (str_to h (length MID)) as [pre|]; [|done]. cbn [mbind result_bind].
  intros [= ->]. destruct (begins MID h); [|done]. cbn [negb].
  rewrite fold_value_plain by done. simpl. by rewrite trim_ascii_start_trim.
Qed.

Lemma begins_exclusive h : begins MID h = true → begins NG h = false.
Proof.
  unfold begins. rewrite eq_ignore_ascii_case_spec. intros H. apply bool_decide_eq_false_2.
  change (length NG) with (length MID). rewrite H. vm_compute. done.
Qed.

(** Add what the scan finds to what it has. *)
Definition or_else (acc : option bytes) (found : option bytes) : option bytes :=
  match acc with Some v => Some v | None => trim <$> found end.

Lemma starts_field_plain acc h prefix :
  ascii h →
  starts_field acc h prefix = Ok (match acc with Some _ => false | None => begins prefix h end).
Proof. intros Ha. destruct acc; simpl; [done|]. by apply plain_prefix. Qed.

Lemma parse_plain hs rest mid ng cur :
  Forall plain_line hs →
  parse_in mid ng cur (lines_of hs rest) =
  Ok (or_else mid (first_field MID hs), or_else ng (first_field NG hs)).
Proof.
  intros Hhs. revert mid ng cur.
  induction Hhs as [|h hs ((Hne & _ & _) & Ha & Hf & _) _ IH]; intros mid ng cur.
  { by destruct mid, ng. }
  unfold lines_of. rewrite fmap_cons. cbn [app parse_in first_field]. cbv zeta.
  rewrite strip_cr_app, bool_decide_eq_false_2, Hf by done. fold (lines_of hs rest).
  destruct (_ && _) eqn:Eb.
  { to_prop. destruct mid, ng; naive_solver. }
  unfold from_utf8. rewrite ascii_is_utf8, !starts_field_plain by done. cbn [mbind result_bind].
  pose proof (begins_exclusive h) as Hex.
  destruct mid as [m|]; [|destruct (begins MID h)]; cbn [or_else].
  - destruct ng as [g|]; [|destruct (begins NG h)]; by rewrite IH.
  - rewrite IH, Hex by done. done.
  - destruct ng as [g|]; [|destruct (begins NG h)]; by rewrite IH.
Qed.

(** A host name, as configuration validation admits it. *)
Definition plain_host (host : bytes) : Prop :=
  ascii host ∧ LF ∉ host ∧ CR ∉ host ∧ VT ∉ host.

Lemma strip_cr_no l : last l ≠ Some CR → strip_cr l = l.
Proof.
  unfold strip_cr. intros H. destruct (strip_suffix [CR] l) as [l'|] eqn:E; [|done].
  apply strip_suffix_Some in E as ->. by rewrite last_snoc in H.
Qed.

Lemma last_rev (l : bytes) : last (rev l) = head l.
Proof. destruct l as [|c l]; simpl; [done|]. apply last_snoc. Qed.

Lemma head_drop_while f (l : bytes) c : head (drop_while f l) = Some c → f c = false.
Proof. induction l as [|d l IH]; simpl; [done|]. destruct (f d) eqn:E; [done|]. by intros [= <-]. Qed.

(** Trimming ASCII keeps only bytes that were there and leaves no CR at the
    end. *)
Lemma trim_plain s :
  ascii s → (∀ c, c ∈ trim s → c ∈ s) ∧ last (trim s) ≠ Some CR.
Proof.
  intros Ha. unfold trim. rewrite trim_start_ascii by done. rewrite trim_end_rev_ascii.
  2:{ apply Forall_rev, Forall_forall. intros c Hc%drop_while_sub. by eapply Forall_forall in Ha. }
  split.
  - intros c. rewrite list_elem_of_In, <- in_rev, <- list_elem_of_In.
    intros Hc%drop_while_sub. rewrite list_elem_of_In, <- in_rev, <- list_elem_of_In in Hc.
    by apply drop_while_sub in Hc.
  - rewrite last_rev. intros H%head_drop_while. done.
Qed.

Lemma plain_new_path host x :
  plain_host host → ascii x → LF ∉ x → VT ∉ x → last (new_path host ++ x) ≠ Some CR →
  plain_line (new_path host ++ x).
Proof.
  intros (Ha & Hlf & _ & Hvt) Hax Hlfx Hvtx Hl. unfold plain_line, raw_line, new_path, ascii in *.
  assert (Hp : Forall (λ c, 0 <= c < 128 ∧ c ≠ LF ∧ c ≠ VT) (lit "Path: ")).
  { by apply (bool_decide_eq_true_1 _). }
  rewrite Forall_forall in Hp. split_and!.
  - done.
  - rewrite !elem_of_app. intros [[H|H]|H]; [by apply Hp in H as (_ & ? & _)|done|done].
  - by apply strip_cr_no.
  - rewrite !Forall_app. split_and!; [|done|done]. apply Forall_forall. intros c Hc. by apply Hp.
  - done.
  - rewrite !elem_of_app. intros [[H|H]|H]; [by apply Hp in H as (_ & _ & ?)|done|done].
Qed.

Lemma last_new_path host : plain_host host → last (new_path host) ≠ Some CR.
Proof.
  intros (_ & _ & Hcr & _). unfold new_path. rewrite last_app.
  destruct (last host) as [c|] eqn:E; [|done]. apply last_Some_elem_of in E. congruence.
Qed.

Lemma plain_hop host h : plain_host host → plain_line h → plain_line (hop host h).
Proof.
  intros Hh ((_ & Hlf & _) & Ha & _ & Hvt). unfold hop.
  assert (Hd : ascii (drop (length PATH) h)) by (by apply Forall_drop).
  rewrite lossy_valid by (by apply ascii_is_utf8).
  destruct (trim_plain _ Hd) as [Hsub Hlast].
  assert (Hsub' : ∀ c, c ∈ trim (drop (length PATH) h) → c ∈ h).
  { intros c Hc%Hsub. rewrite <- (take_drop (length PATH) h), elem_of_app. by right. }
  apply plain_new_path; [done|..].
  - apply Forall_app. split; [by apply (bool_decide_eq_true_1 _)|].
    apply Forall_forall. intros c Hc%Hsub'. by eapply Forall_forall in Ha.
  - rewrite elem_of_app. intros [H|H%Hsub']; [by apply (list_elem_of_singleton (A := Z)) in H|done].
  - rewrite elem_of_app. intros [H|H%Hsub']; [by apply (list_elem_of_singleton (A := Z)) in H|done].
  - rewrite !last_app. by destruct (last (trim _)).
Qed.

(** A line whose first letter differs from the prefix's does not begin with
    it. *)
Lemma begins_head prefix h p c :
  head prefix = Some p → head h = Some c → to_ascii_lower c ≠ to_ascii_lower p →
  begins prefix h = false.
Proof.
  destruct prefix as [|p' prefix], h as [|c' h]; simpl; [done..|]. intros [= ->] [= ->] Hne.
  apply bool_decide_eq_false_2. unfold to_ascii_lowercase. simpl. congruence.
Qed.

Lemma is_path_head h : is_path h = true → ∃ c, head h = Some c ∧ to_ascii_lower c = 112.
Proof.
  unfold is_path. rewrite andb_true_iff, eq_ignore_ascii_case_spec. intros [_ H].
  destruct h as [|c h]; [done|]. exists c. split; [done|]. apply (f_equal head) in H. by injection H.
Qed.

Lemma begins_new_path prefix host p x :
  head prefix = Some p → to_ascii_lower p ≠ 112 → begins prefix (new_path host ++ x) = false.
Proof. intros Hp Hne. by apply (begins_head _ _ p 80). Qed.

Lemma first_field_app prefix hs hs' :
  first_field prefix (hs ++ hs') =
  match first_field prefix hs with Some v => Some v | None => first_field prefix hs' end.
Proof. induction hs as [|h hs IH]; simpl; [done|]. by destruct (begins prefix h). Qed.

Lemma with_hop_app host hs hs' : with_hop host (hs ++ hs') = with_hop host hs ++ with_hop host hs'.
Proof. apply fmap_app. Qed.

(** Rewriting the [Path] lines changes no other field. *)
Lemma first_field_hop prefix host hs p :
  head prefix = Some p → to_ascii_lower p ≠ 112 →
  first_field prefix (with_hop host hs) = first_field prefix hs.
Proof.
  intros Hp Hne. unfold with_hop. induction hs as [|h hs IH]; [done|].
  rewrite fmap_cons. cbn [first_field]. rewrite IH. destruct (is_path h) eqn:Ep; [|done].
  destruct (is_path_head h Ep) as (c & Hc & Hlow). unfold hop.
  by rewrite (begins_new_path _ _ p), (begins_head prefix h p c) by (done || congruence).
Qed.

Lemma first_field_with_hop prefix host hs p :
  head prefix = Some p → to_ascii_lower p ≠ 112 →
  first_field prefix (with_hop host hs ++ path_line host hs) = first_field prefix hs.
Proof.
  intros Hp Hne. rewrite first_field_app, (first_field_hop _ _ _ p) by done.
  destruct (first_field prefix hs); [done|]. unfold path_line. destruct (existsb is_path hs); [done|].
  cbn [first_field]. by rewrite <- (app_nil_r (new_path host)), (begins_new_path _ _ p).
Qed.

Lemma plain_with_hop host hs :
  plain_host host → Forall plain_line hs → Forall plain_line (with_hop host hs ++ path_line host hs).
Proof.
  intros Hh Hhs. apply Forall_app. split.
  - unfold with_hop. apply Forall_fmap. eapply Forall_impl; [done|]. simpl. intros h Hp.
    destruct (is_path h); [by apply plain_hop|done].
  - unfold path_line. destruct (existsb is_path hs); [done|]. apply Forall_singleton.
    rewrite <- (app_nil_r (new_path host)).
    apply plain_new_path; [done|apply Forall_nil_2|apply not_elem_of_nil..|].
    rewrite app_nil_r. by apply last_new_path.
Qed.

(** The groups named by the first [Newsgroups] line. *)
Definition groups_of (hs : list bytes) : list bytes :=
  split_groups (default [] (trim <$> first_field NG hs)).

Lemma first_field_plain prefix hs v :
  Forall plain_line hs → first_field prefix hs = Some v → ascii v ∧ VT ∉ v.
Proof.
  induction 1 as [|h hs (_ & Ha & _ & Hvt) _ IH]; simpl; [done|].
  destruct (begins prefix h); [|done]. intros [= <-]. split; [by apply Forall_drop|].
  intros H. apply Hvt. rewrite <- (take_drop (length prefix) h), elem_of_app. by right.
Qed.

Lemma plain_raw hs : Forall plain_line hs → Forall raw_line hs.
Proof. intros Hhs. eapply Forall_impl; [done|]. by intros ? [? _]. Qed.

Lemma lines_of_render hs body :
  Forall raw_line hs → split LF (render hs ++ CRLF ++ body) = lines_of hs (split LF body).
Proof.
  intros Hhs. rewrite split_render by done.
  change (CRLF ++ body) with ([] ++ CRLF ++ body). by rewrite split_render_line by apply not_elem_of_nil.
Qed.

Lemma keys_agree host hs body :
  plain_host host → Forall plain_line hs →
  let article := render hs ++ CRLF ++ body in
  ∃ key, extract_body_msgid article = Ok key ∧
    parse_message_id_and_newsgroups (prepend_path_header article host) =
      Ok ((λ m, (m, groups_of hs)) <$> key).
Proof.
  intros Hh Hhs article. exists (trim_ascii <$> first_field MID hs). split.
  { unfold extract_body_msgid, article. rewrite lines_of_render by (by apply plain_raw). by apply extract_plain. }
  pose proof (plain_with_hop host hs Hh Hhs) as Hhs'.
  unfold article, parse_message_id_and_newsgroups. rewrite prepend_path_header_eq, lines_of_render
    by (by apply plain_raw).
  rewrite parse_plain by done. cbn [mbind result_bind or_else].
  rewrite (first_field_with_hop MID host hs 109), (first_field_with_hop NG host hs 110) by done.
  destruct (first_field MID hs) as [v|] eqn:E; simpl; [|done].
  apply first_field_plain in E as [Ha Hvt]; [|done]. by rewrite trim_agrees.
Qed.

(** For an article whose header lines are unfolded ASCII, the Message-ID the
    duplicate check looks up, extracted from the bytes as received, is the one
    the pipeline stores, extracted after the [Path] header was rewritten; and
    the pipeline's groups are those of the first [Newsgroups] line.  Neither
    scan panics. *)
Theorem storage_key_is_dedup_key host hs body :
  plain_host host → Forall plain_line hs →
  let article := render hs ++ CRLF ++ body in
  ∃ key, extract_body_msgid article = Ok key ∧
    parse_message_id_and_newsgroups (prepend_path_header article host) =
      Ok ((λ m, (m, groups_of hs)) <$> key).
Proof. exact (keys_agree host hs body). Qed.

(** ** A line only the pipeline's scan reads *)

(** Header lines among which the duplicate check stops, at a plain Message-ID,
    before a line that has byte 11 inside a character; [Newsgroups] comes after
    that line, so the pipeline's scan goes on to it. *)
Definition poisonous (pre : list bytes) (bad : bytes) (post : list bytes) (mid : bytes) : Prop :=
  Forall plain_line pre ∧ trim_ascii <$> first_field MID pre = Some mid ∧ first_field NG pre = None ∧
  splits_char bad ∧ Forall (λ h, raw_line h ∧ is_path h = false) (bad :: post).

Lemma lines_app pre bad post rest :
  lines_of (pre ++ bad :: post) rest =
  ((λ h, h ++ [CR]) <$> pre) ++ (bad ++ [CR]) :: lines_of post rest.
Proof. unfold lines_of. by rewrite fmap_app, fmap_cons, <- app_assoc. Qed.

Lemma extract_before_bad pre bad post rest v :
  Forall plain_line pre → raw_line bad → splits_char bad → first_field MID pre = Some v →
  extract_in (lines_of (pre ++ bad :: post) rest) = Ok (Some (trim_ascii v)).
Proof.
  intros Hpre [Hb _] [[Hbf _] _]. rewrite lines_app.
  induction Hpre as [|h hs ((Hne & _ & _) & Ha & Hf & _) Hhs IH]; [done|].
  cbn [fmap list_fmap app extract_in first_field]. cbv zeta.
  rewrite strip_cr_app, bool_decide_eq_false_2, Hf by done.
  unfold from_utf8. rewrite ascii_is_utf8 by done.
  pose proof (plain_prefix MID h Ha) as Hp. revert Hp.
  destruct (length h <? length MID)%nat; [intros [= <-]; done|].
  destruct (str_to h (length MID)) as [p|]; [|done]. cbn [mbind result_bind].
  intros [= ->]. destruct (begins MID h); [|done]. cbn [negb]. intros [= <-].
  assert (Hfold : ∀ x, fold_value x
    (((λ h, h ++ [CR]) <$> hs) ++ (bad ++ [CR]) :: lines_of post rest) = Some x).
  { intros x. destruct Hhs as [|h' hs' ((Hne' & _) & _ & Hf' & _) _]; cbn [fmap list_fmap app fold_value];
      cbv zeta; by rewrite strip_cr_app, bool_decide_eq_false_2, ?Hf', ?Hbf. }
  rewrite Hfold. simpl. by rewrite trim_ascii_start_trim.
Qed.

Lemma parse_hits_bad pre bad post rest mid cur :
  Forall plain_line pre → raw_line bad → splits_char bad →
  first_field NG pre = None →
  parse_in mid None cur (lines_of (pre ++ bad :: post) rest) = Err CharBoundary.
Proof.
  intros Hpre [Hb _] [[Hbf Hutf] Hsplit]. rewrite lines_app. revert mid cur.
  induction Hpre as [|h hs ((Hne & _ & _) & Ha & Hf & _) _ IH]; intros mid cur.
  - intros _. cbn [fmap list_fmap app parse_in]. cbv zeta.
    rewrite strip_cr_app, bool_decide_eq_false_2, Hbf by done.
    rewrite (bool_decide_eq_false_2 (is_Some None)) by (by intros []). rewrite andb_false_r.
    unfold from_utf8. rewrite Hutf.
    assert (Hs : ∀ p, length p = 11%nat → starts_field None bad p = Err CharBoundary).
    { intros p Hp. change (length MID) with 11%nat in Hsplit. cbn [starts_field]. rewrite Hp.
      destruct (bad !! 11%nat) as [b|] eqn:E; [|done]. pose proof (lookup_lt_Some _ _ _ E).
      destruct (Nat.ltb_spec (length bad) 11); [lia|]. unfold str_to.
      rewrite (proj2 (boundary_spec bad 11 ltac:(lia))); [done|]. by rewrite E. }
    destruct mid as [m|]; [change (starts_field (Some m) bad MID) with (Ok (E := Panic) false)|];
      cbn [mbind result_bind]; rewrite ?(Hs MID), ?(Hs NG) by done; done.
  - cbn [fmap list_fmap app parse_in first_field]. cbv zeta.
    rewrite strip_cr_app, bool_decide_eq_false_2, Hf by done.
    rewrite (bool_decide_eq_false_2 (is_Some None)) by (by intros []). rewrite andb_false_r.
    unfold from_utf8. rewrite ascii_is_utf8, !starts_field_plain by done. cbn [mbind result_bind].
    destruct (begins NG h); [done|]. intros Hng.
    by destruct mid as [m|]; [|destruct (begins MID h)]; apply IH.
Qed.

(** The two scans disagree on such an article: the first one finds the
    Message-ID, the second one panics. *)
Lemma poisonous_scans host pre bad post mid body :
  plain_host host → poisonous pre bad post mid →
  let article := render (pre ++ bad :: post) ++ CRLF ++ body in
  extract_body_msgid article = Ok (Some mid) ∧
  parse_message_id_and_newsgroups (prepend_path_header article host) = Err CharBoundary.
Proof.
  intros Hh (Hpre & Hmid & Hng & Hsp & Hrest) article.
  assert (Hrest' : Forall raw_line (bad :: post)) by (eapply Forall_impl; [done|]; by intros ? []).
  assert (Hraw : Forall raw_line (pre ++ bad :: post)).
  { apply Forall_app. split; [by apply plain_raw|done]. }
  assert (Hhop : with_hop host (bad :: post) = bad :: post).
  { clear -Hrest. induction Hrest as [|h hs [_ Hp] _ IH]; [done|]. unfold with_hop in *.
    by rewrite fmap_cons, Hp, IH. }
  apply Forall_cons in Hrest' as [Hb _]. split.
  - destruct (first_field MID pre) as [v|] eqn:E; [|done]. injection Hmid as <-.
    unfold extract_body_msgid, article. rewrite lines_of_render by done. by apply extract_before_bad.
  - unfold article, parse_message_id_and_newsgroups. rewrite prepend_path_header_eq by done.
    pose proof (plain_with_hop host pre Hh Hpre) as [Hpre' _]%Forall_app.
    assert (Hpl : Forall raw_line (path_line host (pre ++ bad :: post))).
    { unfold path_line. destruct (existsb _ _); [done|]. apply Forall_singleton.
      rewrite <- (app_nil_r (new_path host)).
      apply plain_new_path; [done|apply Forall_nil_2|apply not_elem_of_nil..|].
      rewrite app_nil_r. by apply last_new_path. }
    rewrite with_hop_app, Hhop, <- app_assoc, <- app_comm_cons, lines_of_render.
    + rewrite parse_hits_bad; [done..|]. by rewrite first_field_hop with (p := 110).
    + apply Forall_app. split; [by apply plain_raw|]. constructor; [done|].
      apply Forall_app. split; [|done]. eapply Forall_impl; [apply (Forall_inv_tail Hrest)|]. by intros ? [].
Qed.

(** ** Concrete articles *)

Module HeaderSamples.

Definition host : bytes := lit "news.example.com".

Definition sample_headers : list bytes :=
  [lit "Path: peer.example!user"; lit "From: u@example.org"; lit "Date: 1 Jan 2024 00:00 GMT";
   lit "Message-ID: <1@example.org>"; lit "Newsgroups: comp.lang.rust, alt.test"; lit "Subject: hello"].

Definition sample_body : bytes := lit "Hello." ++ CRLF.

Definition sample : bytes := render sample_headers ++ CRLF ++ sample_body.

Lemma sample_plain : plain_host host ∧ Forall plain_line sample_headers.
Proof. by apply (bool_decide_eq_true_1 _). Qed.

Lemma sample_raw : Forall raw_line sample_headers.
Proof. by apply (bool_decide_eq_true_1 _). Qed.

Lemma prepend_path_header_spec_witness :
  prepend_path_header sample host =
  render (lit "Path: news.example.com!peer.example!user" :: tail sample_headers) ++ CRLF ++ sample_body.
Proof.
  unfold sample. rewrite (prepend_path_header_spec host sample_headers sample_body sample_raw).
  reflexivity.
Defined.

Lemma storage_key_is_dedup_key_witness :
  extract_body_msgid sample = Ok (Some (lit "<1@example.org>")) ∧
  parse_message_id_and_newsgroups (prepend_path_header sample host) =
    Ok (Some (lit "<1@example.org>", [lit "comp.lang.rust"; lit "alt.test"])).
Proof.
  destruct sample_plain as [Hh Hhs].
  destruct (storage_key_is_dedup_key host sample_headers sample_body Hh Hhs) as (key & Hk & Hp).
  assert (Hv : extract_body_msgid sample = Ok (Some (lit "<1@example.org>"))) by vm_refl.
  unfold sample in *. rewrite Hv in Hk. injection Hk as <-. split; [exact Hv|]. rewrite Hp. reflexivity.
Defined.

(** The name line of a folded [Message-ID] ends in a space: the duplicate check
    keeps the space, the pipeline trims it, so the article is stored under a key
    the duplicate check never asks for. *)
Definition folded_sample : bytes :=
  render [lit "From: u@example.org"; lit "Date: 1 Jan 2024 00:00 GMT";
          lit "Message-ID: <1 "; lit " @example.org>"; lit "Newsgroups: alt.test"; lit "Subject: x"]
  ++ CRLF ++ sample_body.

Lemma folded_keys_differ :
  extract_body_msgid folded_sample = Ok (Some (lit "<1 @example.org>")) ∧
  parse_message_id_and_newsgroups (prepend_path_header folded_sample host) =
    Ok (Some (lit "<1@example.org>", [lit "alt.test"])).
Proof. split; vm_refl. Qed.

(** [Subject: Hé]: byte 11 is the second byte of the accented letter. *)
Definition accented_sample : bytes :=
  render [lit "From: u@example.org"; lit "Subject: H" ++ [195; 169]; lit "Message-ID: <1@example.org>";
          lit "Date: 1 Jan 2024 00:00 GMT"; lit "Newsgroups: alt.test"]
  ++ CRLF ++ sample_body.

Lemma accented_subject_panics : extract_body_msgid accented_sample = Err CharBoundary.
Proof. vm_refl. Qed.

End HeaderSamples.

End Headers.
