(* ===== verification/Util.v ===== *)
(** Shared utilities of [crates/core/src/util.rs]: the date printed by
    [epoch_to_rfc2822], the header separator search [split_headers_body] and the
    NNTP transport encoding [nntp_dot_stuff].

    The civil date of the printer is proved to be the calendar's: day 0 is
    1970-01-01, and the day after any date is the calendar's next day. *)

From S2P Require Import Prelude Bytes Decimal Utf8 Headers.

Module Util.
Import Decimal Headers.

(** ** [epoch_to_rfc2822] *)

Definition DAYS : list bytes :=
  [lit "Thu"; lit "Fri"; lit "Sat"; lit "Sun"; lit "Mon"; lit "Tue"; lit "Wed"].
Definition MONTHS : list bytes :=
  [lit "Jan"; lit "Feb"; lit "Mar"; lit "Apr"; lit "May"; lit "Jun"; lit "Jul"; lit "Aug";
   lit "Sep"; lit "Oct"; lit "Nov"; lit "Dec"].

(** The date of a day counted from 1970-01-01: year, month and day.  Rust's
    division and remainder truncate. *)
Definition civil_from_days (days_since_epoch : Z) : Z * Z * Z :=
  let z := days_since_epoch + 719468 in
  let era := Z.quot (if 0 <=? z then z else z - 146096) 146097 in
  let doe := z - era * 146097 in
  let yoe := Z.quot (doe - Z.quot doe 1460 + Z.quot doe 36524 - Z.quot doe 146096) 365 in
  let y := yoe + era * 400 in
  let doy := doe - (365 * yoe + Z.quot yoe 4 - Z.quot yoe 100) in
  let mp := Z.quot (5 * doy + 2) 153 in
  let d := doy - Z.quot (153 * mp + 2) 5 + 1 in
  let m := if mp <? 10 then mp + 3 else mp - 9 in
  let y := if m <=? 2 then y + 1 else y in
  (y, m, d).

(** [{:02}] of a number that is not negative, and [{}] of an [i64]. *)
Definition pad2 (n : Z) : bytes := if n <? 10 then lit "0" ++ to_decimal n else to_decimal n.
Definition show_i64 (n : Z) : bytes := if n <? 0 then lit "-" ++ to_decimal (- n) else to_decimal n.

Definition epoch_to_rfc2822 (secs : Z) : bytes :=
  let days_since_epoch := secs / 86400 in                        (* div_euclid *)
  let day_secs := secs mod 86400 in                              (* rem_euclid *)
  let sec := Z.rem day_secs 60 in
  let min := Z.rem (Z.quot day_secs 60) 60 in
  let hour := Z.quot day_secs 3600 in
  let wday := Z.rem (Z.rem days_since_epoch 7 + 7) 7 in
  let '(y, m, d) := civil_from_days days_since_epoch in
  nth (Z.to_nat wday) DAYS [] ++ lit ", " ++ pad2 d ++ lit " " ++ nth (Z.to_nat (m - 1)) MONTHS [] ++
  lit " " ++ show_i64 y ++ lit " " ++ pad2 hour ++ lit ":" ++ pad2 min ++ lit ":" ++ pad2 sec ++
  lit " +0000".

(** ** [split_headers_body] *)

(** [for i in i..i + n { if bytes[i..].starts_with(sep) { return Some((&bytes[..i],
    &bytes[i + sep.len()..])) } }]. *)
Fixpoint find_separator (sep bytes : bytes) (i n : nat) : option (list Z * list Z) :=
  match n with
  | O => None
  | S n' =>
      if starts_with (drop i bytes) sep
      then Some (take i bytes, drop (i + length sep) bytes)
      else find_separator sep bytes (S i) n'
  end.

Definition split_headers_body (bytes : bytes) : option (list Z * list Z) :=
  match find_separator (CRLF ++ CRLF) bytes 0 (length bytes - 3) with
  | Some r => Some r
  | None => find_separator [LF; LF] bytes 0 (length bytes - 1)
  end.

(** ** [nntp_dot_stuff] *)

Definition stuffed_line (line : bytes) : bytes :=
  (if starts_with line (lit ".") then lit "." else []) ++ line ++ CRLF.

(** The loop from index [i] on, [n] bytes before the end, with the open line
    beginning at [start]; [None] is a slice whose end lies before its start. *)
Fixpoint dot_stuff_loop (bytes : bytes) (n i start : nat) (out : list Z) : option (nat * list Z) :=
  match n with
  | O => Some (start, out)
  | S n' =>
      if bool_decide (bytes !! i = Some LF) then
        let line_end :=
          if (0 <? i)%nat && bool_decide (bytes !! (i - 1)%nat = Some CR) then (i - 1)%nat else i in
        if (line_end <? start)%nat then None
        else
          let line := take (line_end - start) (drop start bytes) in
          dot_stuff_loop bytes n' (S i) (S i) (out ++ stuffed_line line)
      else dot_stuff_loop bytes n' (S i) start out
  end.

Definition nntp_dot_stuff (bytes : bytes) : option (list Z) :=
  '(start, out) ← dot_stuff_loop bytes (length bytes) 0 0 [];
  Some (if (start <? length bytes)%nat then out ++ stuffed_line (drop start bytes) else out).

(** ** The calendar *)

Definition leap (y : Z) : bool :=
  (y mod 4 =? 0) && (negb (y mod 100 =? 0) || (y mod 400 =? 0)).

Definition month_length (y m : Z) : Z :=
  if m =? 2 then (if leap y then 29 else 28)
  else if (m =? 4) || (m =? 6) || (m =? 9) || (m =? 11) then 30 else 31.

Definition next_day (date : Z * Z * Z) : Z * Z * Z :=
  let '(y, m, d) := date in
  if d <? month_length y m then (y, m, d + 1)
  else if m <? 12 then (y, m + 1, 1) else (y + 1, 1, 1).

(** A day by its 400-year era, year and month counted from March, and day. *)
Definition march_day (era yoe mp d : Z) : Z :=
  era * 146097 + (365 * yoe + yoe / 4 - yoe / 100) + (153 * mp + 2) / 5 + d - 1 - 719468.

Definition march_date (era yoe mp d : Z) : Z * Z * Z :=
  (yoe + era * 400 + (if mp <? 10 then 0 else 1), (if mp <? 10 then mp + 3 else mp - 9), d).

Definition march_ok (era yoe mp d : Z) : Prop :=
  0 <= yoe <= 399 ∧ 0 <= mp <= 11 ∧ 1 <= d ∧
  let '(y, m, _) := march_date era yoe mp d in d <= month_length y m.

Ltac zdm := Z.div_mod_to_equations; lia.
Ltac dates := rewrite !pair_equal_spec; lia.

Lemma leap_spec y : leap y = true ↔ y mod 4 = 0 ∧ (y mod 100 ≠ 0 ∨ y mod 400 = 0).
Proof. unfold leap. rewrite andb_true_iff, orb_true_iff, negb_true_iff, !Z.eqb_eq, Z.eqb_neq. done. Qed.

(** The last day of a month, in terms of the March count. *)
Lemma march_length era yoe mp :
  0 <= yoe <= 399 → 0 <= mp <= 11 →
  let '(y, m, _) := march_date era yoe mp 1 in
  if mp =? 11 then
    month_length y m = 28 + (365 * (yoe + 1) + (yoe + 1) / 4 - (yoe + 1) / 100 + (if yoe =? 399 then 1 else 0)
                             - (365 * yoe + yoe / 4 - yoe / 100) - 365)
  else month_length y m = (153 * (mp + 1) + 2) / 5 - (153 * mp + 2) / 5.
Proof.
  intros Hy Hmp. unfold march_date.
  assert (Hcases : mp = 0 ∨ mp = 1 ∨ mp = 2 ∨ mp = 3 ∨ mp = 4 ∨ mp = 5 ∨ mp = 6 ∨ mp = 7 ∨ mp = 8 ∨
    mp = 9 ∨ mp = 10 ∨ mp = 11) by lia.
  repeat destruct Hcases as [->|Hcases]; [reflexivity..|subst mp].
  change (11 =? 11) with true. change (11 <? 10) with false. cbv iota.
  unfold month_length. change (11 - 9 =? 2) with true. cbv iota.
  destruct (leap (yoe + era * 400 + 1)) eqn:E.
  - apply leap_spec in E. destruct (Z.eqb_spec yoe 399); zdm.
  - assert (~ ((yoe + era * 400 + 1) mod 4 = 0 ∧
      ((yoe + era * 400 + 1) mod 100 ≠ 0 ∨ (yoe + era * 400 + 1) mod 400 = 0))) as H.
    { rewrite <- leap_spec. congruence. }
    destruct (Z.eqb_spec yoe 399); zdm.
Qed.

Lemma era_floor z : Z.quot (if 0 <=? z then z else z - 146096) 146097 = z / 146097.
Proof.
  destruct (Z.leb_spec 0 z); [by rewrite Z.quot_div_nonneg by lia|].
  rewrite <- (Z.opp_involutive (z - 146096)), Z.quot_opp_l, Z.quot_div_nonneg by lia. zdm.
Qed.

(** The algorithm on a day of an era, year and month. *)
Lemma civil_march era yoe mp d :
  march_ok era yoe mp d → civil_from_days (march_day era yoe mp d) = march_date era yoe mp d.
Proof.
  intros (Hy & Hmp & Hd & Hlen). pose proof (march_length era yoe mp Hy Hmp) as Hl.
  unfold march_date in *. cbv beta iota zeta in Hlen, Hl.
  assert (Hlen' : if mp =? 11 then d <= 28 + (365 * (yoe + 1) + (yoe + 1) / 4 - (yoe + 1) / 100 +
      (if yoe =? 399 then 1 else 0) - (365 * yoe + yoe / 4 - yoe / 100) - 365)
    else d <= (153 * (mp + 1) + 2) / 5 - (153 * mp + 2) / 5) by (destruct (mp =? 11); lia).
  clear Hl Hlen. set (doy := (153 * mp + 2) / 5 + d - 1).
  assert (Hdoy : 0 <= doy < 365 * (yoe + 1) + (yoe + 1) / 4 - (yoe + 1) / 100 +
    (if yoe =? 399 then 1 else 0) - (365 * yoe + yoe / 4 - yoe / 100)).
  { unfold doy. destruct (Z.eqb_spec mp 11), (Z.eqb_spec yoe 399); zdm. }
  set (doe := (365 * yoe + yoe / 4 - yoe / 100) + doy).
  assert (Hdoe : 0 <= doe < 146097) by (unfold doe; destruct (Z.eqb_spec yoe 399); zdm).
  assert (Hera : (march_day era yoe mp d + 719468) / 146097 = era).
  { replace (march_day era yoe mp d + 719468) with (doe + era * 146097) by (unfold march_day, doe, doy; lia).
    rewrite Z.div_add by lia. rewrite Z.div_small by lia. lia. }
  unfold civil_from_days. cbv zeta. rewrite era_floor, Hera.
  replace (march_day era yoe mp d + 719468 - era * 146097) with doe by (unfold march_day, doe, doy; lia).
  assert (Hyoe : Z.quot (doe - Z.quot doe 1460 + Z.quot doe 36524 - Z.quot doe 146096) 365 = yoe).
  { rewrite !(Z.quot_div_nonneg doe) by lia. rewrite Z.quot_div_nonneg by zdm.
    subst doe. clearbody doy. destruct (Z.eqb_spec yoe 399); zdm. }
  rewrite Hyoe, (Z.quot_div_nonneg yoe 4), (Z.quot_div_nonneg yoe 100) by lia.
  replace (doe - (365 * yoe + yoe / 4 - yoe / 100)) with doy by (unfold doe; lia).
  assert (Hm : Z.quot (5 * doy + 2) 153 = mp).
  { rewrite Z.quot_div_nonneg by lia. unfold doy in *. destruct (Z.eqb_spec mp 11), (Z.eqb_spec yoe 399); zdm. }
  rewrite Hm, Z.quot_div_nonneg by lia.
  replace (doy - (153 * mp + 2) / 5 + 1) with d by (unfold doy; lia).
  destruct (Z.ltb_spec mp 10).
  - destruct (Z.leb_spec (mp + 3) 2); [lia|]. by rewrite Z.add_0_r.
  - by destruct (Z.leb_spec (mp - 9) 2); [|lia].
Qed.

(** Every day has a March count. *)
Lemma march_exists n : ∃ era yoe mp d, march_ok era yoe mp d ∧ n = march_day era yoe mp d.
Proof.
  set (z := n + 719468). set (era := z / 146097). set (doe := z - era * 146097).
  set (yoe := (doe - doe / 1460 + doe / 36524 - doe / 146096) / 365).
  set (doy := doe - (365 * yoe + yoe / 4 - yoe / 100)). set (mp := (5 * doy + 2) / 153).
  assert (Hdoe : 0 <= doe < 146097) by (subst doe era; zdm).
  assert (Hy : 0 <= yoe <= 399 ∧ 0 <= doy < 365 * (yoe + 1) + (yoe + 1) / 4 - (yoe + 1) / 100 +
    (if yoe =? 399 then 1 else 0) - (365 * yoe + yoe / 4 - yoe / 100)).
  { subst doy yoe. clearbody doe. clear -Hdoe. split; [zdm|]. split; [zdm|].
    destruct (Z.eqb_spec ((doe - doe / 1460 + doe / 36524 - doe / 146096) / 365) 399); zdm. }
  destruct Hy as [Hy Hdoy].
  assert (Hmp : 0 <= mp <= 11).
  { subst mp. clearbody doy yoe. clear -Hdoy Hy. destruct (Z.eqb_spec yoe 399); zdm. }
  exists era, yoe, mp, (doy - (153 * mp + 2) / 5 + 1). split.
  - split; [done|]. split; [done|]. split; [subst mp; clearbody doy; clear; zdm|].
    pose proof (march_length era yoe mp Hy Hmp) as Hl. unfold march_date in *. cbv beta iota zeta in Hl |- *.
    subst mp. clearbody doy yoe. clear -Hl Hdoy Hy. set (mp := (5 * doy + 2) / 153) in *.
    destruct (Z.eqb_spec mp 11); rewrite Hl; subst mp; zdm.
  - unfold march_day. subst doy doe z. lia.
Qed.

Lemma march_first era yoe mp : 0 <= yoe <= 399 → 0 <= mp <= 11 → march_ok era yoe mp 1.
Proof.
  intros Hy Hmp. unfold march_ok. split_and!; [lia..|]. unfold march_date, month_length. repeat case_match; lia.
Qed.

(** The successor in terms of the March count. *)
Lemma march_next era yoe mp d :
  march_ok era yoe mp d →
  ∃ era' yoe' mp' d', march_ok era' yoe' mp' d' ∧
    march_day era' yoe' mp' d' = march_day era yoe mp d + 1 ∧
    march_date era' yoe' mp' d' = next_day (march_date era yoe mp d).
Proof.
  intros Hok. pose proof Hok as (Hy & Hmp & Hd & Hlen). pose proof (march_length era yoe mp Hy Hmp) as Hl.
  unfold march_date in Hl, Hlen |- *. unfold next_day. cbv beta iota zeta in Hl, Hlen |- *.
  set (y := yoe + era * 400 + (if mp <? 10 then 0 else 1)) in *.
  set (m := if mp <? 10 then mp + 3 else mp - 9) in *.
  destruct (Z.ltb_spec d (month_length y m)) as [Hlt|Hge].
  { exists era, yoe, mp, (d + 1). split_and!; [|unfold march_day; lia|done].
    unfold march_ok. split_and!; [lia..|]. unfold march_date. fold m y. lia. }
  assert (d = month_length y m) as Hd' by lia. destruct (Z.eqb_spec mp 11) as [->|Hne].
  - assert (m = 2) as -> by done. change (2 <? 12) with true. cbv iota.
    destruct (Z.eqb_spec yoe 399) as [->|Hn].
    + exists (era + 1), 0, 0, 1. split_and!; [by apply march_first|unfold march_day; zdm|].
      unfold y. simpl. dates.
    + exists era, (yoe + 1), 0, 1. split_and!; [by apply march_first; lia|unfold march_day; zdm|].
      unfold y. simpl. dates.
  - exists era, yoe, (mp + 1), 1. split_and!; [apply march_first; lia|unfold march_day; lia|].
    unfold y, m. destruct (Z.ltb_spec mp 10), (Z.ltb_spec (mp + 1) 10); try lia.
    + destruct (Z.ltb_spec (mp + 3) 12); [|lia]. dates.
    + destruct (Z.ltb_spec (mp + 3) 12); [lia|]. dates.
    + destruct (Z.ltb_spec (mp - 9) 12); [|lia]. dates.
Qed.

(** The date [epoch_to_rfc2822] prints is the calendar's, for every [i64]: day
    zero is 1 January 1970, the day after any date is the Gregorian calendar's
    next day, and every date is a valid one. *)
Theorem civil_is_calendar :
  civil_from_days 0 = (1970, 1, 1) ∧
  ∀ n, civil_from_days (n + 1) = next_day (civil_from_days n) ∧
    let '(y, m, d) := civil_from_days n in 1 <= m <= 12 ∧ 1 <= d <= month_length y m.
Proof.
  split; [reflexivity|]. intros n. destruct (march_exists n) as (era & yoe & mp & d & Hok & ->).
  rewrite (civil_march _ _ _ _ Hok). split.
  - destruct (march_next _ _ _ _ Hok) as (era' & yoe' & mp' & d' & Hok' & <- & <-). by apply civil_march.
  - destruct Hok as (_ & Hmp & Hd & Hlen). unfold march_date in *. cbv beta iota zeta in Hlen |- *.
    split; [|lia]. destruct (Z.ltb_spec mp 10); lia.
Qed.

(** ** Dot-stuffing *)

(** The transport form of a text: the complete lines, each without its newline
    and one CR before it, and the rest after the last newline. *)
Definition stuffed (lines : list bytes) (partial : bytes) : bytes :=
  concat ((λ l, stuffed_line (strip_cr l)) <$> lines) ++
  (if bool_decide (partial = []) then [] else stuffed_line partial).

Lemma strip_cr_take (l : bytes) :
  strip_cr l = if bool_decide (last l = Some CR) then take (length l - 1) l else l.
Proof.
  destruct (decide (last l = Some CR)) as [H|H].
  - rewrite bool_decide_eq_true_2 by done. apply last_Some in H as [l' ->].
    rewrite strip_cr_app, length_app. simpl. by rewrite Nat.add_sub, take_app_length.
  - rewrite bool_decide_eq_false_2 by done. by apply strip_cr_no.
Qed.

Lemma lookup_last_before (pre cur rest : bytes) :
  cur ≠ [] → (pre ++ cur ++ rest) !! (length pre + length cur - 1)%nat = last cur.
Proof.
  intros Hc. rewrite lookup_app_r by (destruct cur; simpl in *; [done|lia]).
  rewrite lookup_app_l by (destruct cur; simpl in *; [done|lia]).
  rewrite last_lookup. f_equal. lia.
Qed.

Lemma take_strip_cr (l r : bytes) : take (length (strip_cr l)) (l ++ r) = strip_cr l.
Proof.
  rewrite strip_cr_take. case_bool_decide as H; [|apply take_app_length].
  apply last_Some in H as [l' ->]. rewrite length_take, length_app. simpl.
  replace (length l' + 1 - 1)%nat with (length l') by lia.
  by rewrite Nat.min_l, <- app_assoc, !take_app_length by lia.
Qed.

(** The loop with the open line [cur] before it and [rest] ahead. *)
Lemma dot_stuff_loop_spec rest pre cur out ls p :
  LF ∉ cur → (pre = [] ∨ last pre = Some LF) → split LF (cur ++ rest) = ls ++ [p] →
  dot_stuff_loop (pre ++ cur ++ rest) (length rest) (length pre + length cur) (length pre) out =
  Some ((length pre + length cur + length rest - length p)%nat,
        out ++ concat ((λ l, stuffed_line (strip_cr l)) <$> ls)) ∧
  (length p <= length cur + length rest)%nat.
Proof.
  revert pre cur out ls p. induction rest as [|c rest IH]; intros pre cur out ls p Hlf Hpre Hsp.
  - rewrite app_nil_r, split_piece in Hsp by done. apply (app_inj_tail []) in Hsp as [<- <-].
    simpl. rewrite app_nil_r. split; [|lia]. f_equal. f_equal. lia.
  - cbn [dot_stuff_loop length].
    assert (Hc : (pre ++ cur ++ c :: rest) !! (length pre + length cur)%nat = Some c).
    { rewrite app_assoc, <- length_app, list_lookup_middle by done. done. }
    rewrite Hc. destruct (decide (c = LF)) as [->|Hne].
    + rewrite bool_decide_eq_true_2 by done. rewrite split_app_sep in Hsp by done.
      destruct ls as [|l ls]; [by destruct (split_not_nil LF rest); injection Hsp|].
      injection Hsp as <- Hsp.
      assert (Hend : (if (0 <? length pre + length cur)%nat &&
          bool_decide ((pre ++ cur ++ LF :: rest) !! (length pre + length cur - 1)%nat = Some CR)
        then length pre + length cur - 1 else length pre + length cur)%nat =
        (length pre + length (strip_cr cur))%nat).
      { destruct cur as [|x cur]; [simpl|].
        - rewrite Nat.add_0_r. destruct Hpre as [->|Hl]; [done|].
          rewrite bool_decide_eq_false_2; [rewrite andb_false_r; simpl; lia|].
          rewrite lookup_app_l by (destruct pre; simpl in *; [done|lia]).
          by rewrite Nat.sub_1_r, <- last_lookup, Hl.
        - rewrite lookup_last_before by done.
          destruct (Nat.ltb_spec 0 (length pre + length (x :: cur))); [|simpl in *; lia].
          rewrite strip_cr_take. simpl andb. case_bool_decide; [|done].
          rewrite length_take. simpl. lia. }
      rewrite Hend. destruct (Nat.ltb_spec (length pre + length (strip_cr cur)) (length pre)); [lia|].
      replace (length pre + length (strip_cr cur) - length pre)%nat with (length (strip_cr cur)) by lia.
      rewrite drop_app_length, take_strip_cr.
      specialize (IH (pre ++ cur ++ [LF]) [] (out ++ stuffed_line (strip_cr cur)) ls p).
      rewrite !length_app, <- !app_assoc in IH. simpl in IH.
      replace (length pre + (length cur + 1) + 0)%nat with (S (length pre + length cur)) in IH by lia.
      replace (length pre + (length cur + 1))%nat with (S (length pre + length cur)) in IH by lia.
      destruct IH as [-> Hle]; [apply not_elem_of_nil|right; by rewrite app_assoc, last_snoc|done|].
      split; [|lia]. f_equal. f_equal. lia.
    + rewrite bool_decide_eq_false_2 by congruence.
      specialize (IH pre (cur ++ [c]) out ls p). rewrite <- app_assoc in IH. simpl in IH.
      rewrite length_app in IH. simpl in IH. replace (length pre + (length cur + 1))%nat with (S (length pre + length cur)) in IH by lia.
      destruct IH as [-> Hle]; [set_solver|done|done|]. split; [|lia]. f_equal. f_equal. lia.
Qed.

Lemma join_snoc c (ls : list bytes) p : ∃ x, join [c] (ls ++ [p]) = x ++ p.
Proof.
  induction ls as [|l ls [x Hx]]; [by exists []|]. exists (l ++ c :: x). simpl.
  destruct (ls ++ [p]) as [|q qs] eqn:E; [by destruct ls|]. rewrite Hx. by rewrite <- app_assoc.
Qed.

(** The encoder never slices out of range and is the line-wise encoding. *)
Lemma nntp_dot_stuff_eq b ls p :
  split LF b = ls ++ [p] → nntp_dot_stuff b = Some (stuffed ls p).
Proof.
  intros Hsp. unfold nntp_dot_stuff.
  destruct (dot_stuff_loop_spec b [] [] [] ls p) as [E Hle]; [apply not_elem_of_nil|by left|done|].
  simpl in E, Hle. rewrite E. cbn [mbind option_bind]. f_equal. unfold stuffed.
  destruct (join_snoc LF ls p) as [x Hx]. rewrite <- Hsp, join_split in Hx. subst b.
  rewrite !length_app, Nat.add_sub, drop_app_length. destruct p as [|c p].
  - simpl. rewrite Nat.add_0_r, Nat.ltb_irrefl. by rewrite app_nil_r.
  - simpl length. destruct (Nat.ltb_spec (length x) (length x + S (length p))); [done|lia].
Qed.

(** ** The header separator *)

(** [sep] occurs at index [j]. *)
Definition occurs (sep b : bytes) (j : nat) : Prop := ∃ r, drop j b = sep ++ r.

Lemma find_separator_spec sep b i n :
  (i + n + length sep <= S (length b))%nat →
  match find_separator sep b i n with
  | Some (h, r) => b = h ++ sep ++ r ∧ (i <= length h)%nat ∧
      ∀ j, (i <= j < length h)%nat → ¬ occurs sep b j
  | None => ∀ j, (i <= j < i + n)%nat → ¬ occurs sep b j
  end.
Proof.
  revert i. induction n as [|n IH]; intros i Hlen; cbn [find_separator]; [lia|].
  destruct (starts_with (drop i b) sep) eqn:E.
  - apply starts_with_spec in E as [r Hr]. split_and!.
    + rewrite <- drop_drop, Hr, drop_app_length, <- Hr. symmetry. apply take_drop.
    + rewrite length_take. lia.
    + intros j Hj. rewrite length_take in Hj. lia.
  - assert (Hi : ¬ occurs sep b i).
    { intros [r Hr]. assert (starts_with (drop i b) sep = true); [|congruence].
      apply starts_with_spec. eauto. }
    specialize (IH (S i)). destruct (find_separator sep b (S i) n) as [[h r]|].
    + destruct IH as (Hb & Hh & Hno); [lia|]. split_and!; [done|lia|].
      intros j Hj. destruct (decide (j = i)) as [->|]; [done|]. apply Hno. lia.
    + intros j Hj. destruct (decide (j = i)) as [->|]; [done|]. apply IH; lia.
Qed.

Lemma occurs_bound sep b j : occurs sep b j → sep ≠ [] → (j + length sep <= length b)%nat.
Proof.
  intros [r Hr] Hne. apply (f_equal length) in Hr. rewrite length_drop, length_app in Hr.
  destruct sep; simpl in *; [done|lia].
Qed.

(** The first CRLF pair separates; without one the first LF pair does. *)
Lemma split_headers_body_spec b :
  match split_headers_body b with
  | Some (h, r) =>
      (b = h ++ (CRLF ++ CRLF) ++ r ∧ ∀ j, (j < length h)%nat → ¬ occurs (CRLF ++ CRLF) b j) ∨
      (b = h ++ [LF; LF] ++ r ∧ (∀ j, ¬ occurs (CRLF ++ CRLF) b j) ∧
       ∀ j, (j < length h)%nat → ¬ occurs [LF; LF] b j)
  | None => ∀ j, ¬ occurs (CRLF ++ CRLF) b j ∧ ¬ occurs [LF; LF] b j
  end.
Proof.
  unfold split_headers_body.
  assert (Hall : ∀ sep k, sep ≠ [] → length sep = S k →
    match find_separator sep b 0 (length b - k) with
    | Some (h, r) => b = h ++ sep ++ r ∧ ∀ j, (j < length h)%nat → ¬ occurs sep b j
    | None => ∀ j, ¬ occurs sep b j
    end).
  { intros sep k Hne Hk. destruct (Nat.lt_ge_cases (length b) (length sep)) as [Hlt|Hge].
    - replace (length b - k)%nat with O by lia. simpl. intros j Ho%occurs_bound; [lia|done].
    - pose proof (find_separator_spec sep b 0 (length b - k) ltac:(lia)) as H.
      destruct (find_separator _ _ _ _) as [[h r]|].
      + destruct H as (Hb & _ & Hno). split; [done|]. intros j Hj. apply Hno. lia.
      + intros j Ho. apply (H j); [|done]. apply occurs_bound in Ho; [lia|done]. }
  pose proof (Hall (CRLF ++ CRLF) 3%nat ltac:(done) eq_refl) as H1.
  pose proof (Hall [LF; LF] 1%nat ltac:(done) eq_refl) as H2.
  destruct (find_separator (CRLF ++ CRLF) _ _ _) as [[h r]|]; [by left|].
  destruct (find_separator [LF; LF] _ _ _) as [[h r]|]; [right; naive_solver|auto].
Qed.

End Util.
