(* ===== verification/Policy.v ===== *)
(** The retention policy: [crates/transit/src/retention/policy.rs].

    A policy is a list of rules; the first rule that matches an article in one
    of its groups decides for that group, and the article is kept when some
    group decides to pin it. *)

From S2P Require Import Prelude Bytes Utf8.

Module Policy.
Import Utf8.

Definition COMMA : Z := 44.
Definition DOT : Z := 46.

(** ** Data *)

Record ArticleMeta := mkMeta { group : bytes; size_bytes : Z; age_days : Z }.

Inductive PinAction := Pin | Skip.

Record PinRule := mkRule {
  groups : bytes;
  max_age_days : option Z;
  max_article_bytes : option Z;
  action : PinAction
}.

Record PinPolicy := mkPolicy { rules : list PinRule }.

Inductive PolicyValidationError :=
| EmptyPolicy
| InvalidGroupPattern (p : bytes)
| UselessRule (rule_index : nat) (reason : bytes).

#[export] Instance action_eq_dec : EqDecision PinAction.
Proof. solve_decision. Defined.

Definition rule_count (p : PinPolicy) : nat := length (rules p).

(** ** Patterns *)

Definition matches_group_glob (pattern group : bytes) : bool :=
  if bool_decide (pattern = lit "all") then true
  else match strip_suffix (lit ".**") pattern with
  | Some prefix => starts_with group (prefix ++ [DOT])
  | None =>
      match strip_suffix (lit ".*") pattern with
      | Some prefix => starts_with group (prefix ++ [DOT])
      | None => bool_decide (pattern = group)
      end
  end.

Definition is_valid_component (component : bytes) : bool :=
  match component with
  | [] => false
  | first :: chars => is_ascii_alphabetic first && forallb is_ascii_alphanumeric chars
  end.

Definition is_valid_dotted_name (s : bytes) : bool :=
  match s with
  | [] => false
  | _ => forallb is_valid_component (split DOT s)
  end.

Definition is_valid_group_pattern (pattern : bytes) : bool :=
  if bool_decide (pattern = lit "all") then true
  else
    let base :=
      match strip_suffix (lit ".**") pattern with
      | Some p => p
      | None => match strip_suffix (lit ".*") pattern with
                | Some p => p
                | None => pattern
                end
      end in
    is_valid_dotted_name base.

(** ** Evaluation *)

Definition over (x : Z) (limit : option Z) : bool :=
  match limit with Some m => m <? x | None => false end.

Definition matches_rule (rule : PinRule) (meta : ArticleMeta) : bool :=
  if negb (matches_group_glob (groups rule) (group meta)) then false
  else if over (age_days meta) (max_age_days rule) then false
  else if over (size_bytes meta) (max_article_bytes rule) then false
  else true.

(** The inner loop: the action of the first rule that matches. *)
Fixpoint first_action (rs : list PinRule) (meta : ArticleMeta) : option PinAction :=
  match rs with
  | [] => None
  | rule :: rs' => if matches_rule rule meta then Some (action rule) else first_action rs' meta
  end.

Definition group_names (g : bytes) : list bytes :=
  List.filter (λ s, negb (bool_decide (s = []))) (trim <$> split COMMA g).

Definition should_pin (policy : PinPolicy) (meta : ArticleMeta) : bool :=
  existsb (λ g, bool_decide (first_action (rules policy)
                               (mkMeta g (size_bytes meta) (age_days meta)) = Some Pin))
    (group_names (group meta)).

(** ** Validation *)

Fixpoint validate_rules (i : nat) (rs : list PinRule) : result PolicyValidationError () :=
  match rs with
  | [] => Ok tt
  | rule :: rs' =>
      if negb (is_valid_group_pattern (groups rule)) then Err (InvalidGroupPattern (groups rule))
      else if bool_decide (max_age_days rule = Some 0) && bool_decide (groups rule = lit "all")
      then Err (UselessRule i (lit "max_age_days=0 matches no articles"))
      else validate_rules (S i) rs'
  end.

(** Repeated patterns are only logged. *)
Definition validate (policy : PinPolicy) : result PolicyValidationError () :=
  match rules policy with
  | [] => Err EmptyPolicy
  | rs => validate_rules 0 rs
  end.

(** ** What they decide *)

(** The groups a pattern stands for. *)
Definition denotes (pattern group : bytes) : Prop :=
  pattern = lit "all" ∨
  (∃ prefix r, (pattern = prefix ++ lit ".*" ∨ pattern = prefix ++ lit ".**") ∧
     group = prefix ++ DOT :: r) ∨
  pattern = group.

Lemma starts_with_dot prefix g :
  starts_with g (prefix ++ [DOT]) = true ↔ ∃ r, g = prefix ++ DOT :: r.
Proof. rewrite starts_with_spec. setoid_rewrite <- app_assoc. done. Qed.

(** A pattern does not end in both suffixes. *)
Lemma suffixes_apart (p q : bytes) : p ++ lit ".*" ≠ q ++ lit ".**".
Proof.
  change (lit ".**") with (lit ".*" ++ [42]). change (lit ".*") with ([46] ++ [42]).
  rewrite !app_assoc. intros [H _]%app_inj_tail. apply app_inj_tail in H as [_ [=]].
Qed.

Lemma matches_group_glob_spec pattern g :
  Forall (λ c, c ≠ 42) g → matches_group_glob pattern g = true ↔ denotes pattern g.
Proof.
  intros Hg. unfold matches_group_glob, denotes. case_bool_decide as Hall; [naive_solver|].
  destruct (strip_suffix (lit ".**") pattern) as [p|] eqn:E2;
    [|destruct (strip_suffix (lit ".*") pattern) as [p|] eqn:E1].
  - apply strip_suffix_Some in E2. rewrite starts_with_dot. split; [naive_solver|].
    intros [?|[(p' & r & [Hp|Hp] & ->)|Hp]]; [done| | |].
    + rewrite E2 in Hp. by apply symmetry, suffixes_apart in Hp.
    + rewrite E2 in Hp. apply app_inv_tail in Hp as ->. eauto.
    + exfalso. rewrite <- Hp, E2, Forall_app in Hg. destruct Hg as [_ Hg].
      inversion Hg as [|?? _ Hg']; inversion Hg'; subst; done.
  - apply strip_suffix_Some in E1. rewrite starts_with_dot. split; [naive_solver|].
    intros [?|[(p' & r & [Hp|Hp] & ->)|Hp]]; [done| | |].
    + rewrite E1 in Hp. apply app_inv_tail in Hp as ->. eauto.
    + rewrite E1 in Hp. by apply suffixes_apart in Hp.
    + exfalso. rewrite <- Hp, E1, Forall_app in Hg. destruct Hg as [_ Hg].
      inversion Hg as [|?? _ Hg']; inversion Hg'; subst; done.
  - rewrite bool_decide_eq_true. split; [tauto|]. intros [?|[(p & r & [Hp|Hp] & _)|?]]; [done|exfalso|exfalso|done].
    + by rewrite (proj2 (strip_suffix_Some _ _ p) Hp) in E1.
    + by rewrite (proj2 (strip_suffix_Some _ _ p) Hp) in E2.
Qed.

(** The first matching rule, spelled out. *)
Lemma first_action_Some rs meta a :
  first_action rs meta = Some a ↔
  ∃ pre rule post, rs = pre ++ rule :: post ∧ action rule = a ∧ matches_rule rule meta = true ∧
    Forall (λ r, matches_rule r meta = false) pre.
Proof.
  induction rs as [|rule rs IH]; simpl.
  { split; [done|]. by intros ([|] & ? & ? & ? & _). }
  destruct (matches_rule rule meta) eqn:E.
  - split.
    + intros [= <-]. by exists [], rule, rs.
    + intros ([|r pre] & rule' & post & Heq & Ha & Hm & Hf); simplify_eq/=; [done|].
      inversion Hf. congruence.
  - rewrite IH. split.
    + intros (pre & rule' & post & -> & Ha & Hm & Hf). exists (rule :: pre), rule', post. auto.
    + intros ([|r pre] & rule' & post & Heq & Ha & Hm & Hf); simplify_eq/=; [congruence|].
      inversion Hf. eauto 10.
Qed.

(** An article is pinned when in one of its groups the first rule that matches
    it there says so. *)
Lemma should_pin_spec policy meta :
  should_pin policy meta = true ↔
  ∃ g pre rule post, g ∈ group_names (group meta) ∧ rules policy = pre ++ rule :: post ∧
    action rule = Pin ∧
    matches_rule rule (mkMeta g (size_bytes meta) (age_days meta)) = true ∧
    Forall (λ r, matches_rule r (mkMeta g (size_bytes meta) (age_days meta)) = false) pre.
Proof.
  unfold should_pin. rewrite existsb_spec, Exists_exists.
  setoid_rewrite bool_decide_eq_true. setoid_rewrite first_action_Some. naive_solver.
Qed.

(** A group that decides to skip does not keep a later group from pinning. *)
Lemma skip_does_not_veto (policy : PinPolicy) (g1 g2 : bytes) (size age : Z) :
  g2 ∈ group_names (g1 ++ COMMA :: g2) →
  should_pin policy (mkMeta g2 size age) = true →
  group_names g2 = [g2] →
  should_pin policy (mkMeta (g1 ++ COMMA :: g2) size age) = true.
Proof.
  rewrite !should_pin_spec. cbn [group size_bytes age_days]. intros Hin (g & pre & rule & post & Hg & H) Hn.
  rewrite Hn, list_elem_of_singleton in Hg. subst g. eauto 10.
Qed.

(** The one rule [main.rs] builds, ["pin-all"]: every article of at most [d]
    whole days that names a group. *)
Definition pin_all (d : Z) : PinRule := mkRule (lit "all") (Some d) None Pin.

Lemma should_pin_all d meta :
  group_names (group meta) ≠ [] →
  should_pin (mkPolicy [pin_all d]) meta = (age_days meta <=? d).
Proof.
  intros Hne. unfold should_pin. cbn [rules].
  assert (Hm : ∀ g, bool_decide (first_action [pin_all d] (mkMeta g (size_bytes meta) (age_days meta))
                                 = Some Pin) = (age_days meta <=? d)).
  { intros g. simpl. unfold matches_rule. simpl. rewrite Z.leb_antisym.
    by destruct (d <? age_days meta). }
  destruct (group_names (group meta)) as [|g gs]; [done|]. cbn [existsb]. rewrite Hm.
  destruct (age_days meta <=? d); [done|]. apply existsb_false, Forall_forall. auto.
Qed.

Lemma zero_day_rule_matches g size :
  group_names g ≠ [] → should_pin (mkPolicy [pin_all 0]) (mkMeta g size 0) = true.
Proof. intros H. by rewrite should_pin_all. Qed.

End Policy.
