(* ===== verification/Crypto.v ===== *)
(** The third-party identifiers and primitives the log is built on.

    [CidLib] collects what the code calls of the [cid] and [multihash] crates,
    [SigLib] what it calls of [ed25519_dalek]; their laws are the documented
    behaviour the code relies on.  None of them says that SHA-256 is
    injective: the theorems that need two different inputs to hash apart say
    "or there is a collision" and name it.  [ToyCrypto] is a concrete instance
    on which every witness evaluates. *)

From S2P Require Import Prelude Bytes.

Class CidLib := {
  Cid : Type;
  cid_eq_dec :: EqDecision Cid;
  cid_countable :: Countable Cid;
  (** [Cid::to_bytes], [Cid::try_from(&[u8])]. *)
  cid_to_bytes : Cid → bytes;
  cid_try_from : bytes → option Cid;
  (** [Cid::to_string], [Cid::from_str]. *)
  cid_to_string : Cid → bytes;
  cid_from_str : bytes → option Cid;
  (** [Cid::codec], [cid.hash().digest()]. *)
  cid_codec : Cid → Z;
  cid_digest : Cid → bytes;
  (** [Cid::new_v1(codec, Multihash::wrap(code, digest))]. *)
  cid_new_v1 : Z → Z → bytes → Cid;
  (** [Code::Sha2_256.digest(data).digest()]. *)
  sha256 : bytes → bytes
}.

Class CidLaws (lib : CidLib) : Prop := {
  cid_roundtrip c : cid_try_from (cid_to_bytes c) = Some c;
  cid_string_roundtrip c : cid_from_str (cid_to_string c) = Some c;
  (** The binary form of a CID is self-delimiting. *)
  cid_prefix_free c d x y : cid_to_bytes c ++ x = cid_to_bytes d ++ y → c = d ∧ x = y;
  cid_nonempty c : cid_to_bytes c ≠ [];
  cid_new_v1_digest codec code d : cid_digest (cid_new_v1 codec code d) = d;
  cid_new_v1_codec codec code d : cid_codec (cid_new_v1 codec code d) = codec;
  length_sha256 data : length (sha256 data) = 32%nat
}.

Class SigLib := {
  SigningKey : Type;
  VerifyingKey : Type;
  verifying_key : SigningKey → VerifyingKey;
  (** [key.sign(msg).to_bytes()] and [pubkey.verify(msg, Signature::from_bytes(sig))]. *)
  ed_sign : SigningKey → bytes → bytes;
  ed_verify : VerifyingKey → bytes → bytes → bool
}.

Class SigLaws (lib : SigLib) : Prop := {
  length_ed_sign k m : length (ed_sign k m) = 64%nat;
  ed_sign_verifies k m : ed_verify (verifying_key k) m (ed_sign k m) = true
}.

(** Two inputs that collide under SHA-256. *)
Definition collision `{CidLib} (x y : bytes) : Prop := x ≠ y ∧ sha256 x = sha256 y.

Lemma cid_to_bytes_inj `{CidLib, !CidLaws _} c d : cid_to_bytes c = cid_to_bytes d → c = d.
Proof. intros Heq. apply (cid_prefix_free c d [] []). by rewrite !app_nil_r. Qed.

Lemma cid_to_string_inj `{CidLib, !CidLaws _} c d : cid_to_string c = cid_to_string d → c = d.
Proof. intros Heq. pose proof (cid_string_roundtrip c). rewrite Heq, cid_string_roundtrip in *. congruence. Qed.

(** Concatenated CIDs decode uniquely. *)
Lemma concat_cids_inj `{CidLib, !CidLaws _} (l1 l2 : list Cid) :
  concat (cid_to_bytes <$> l1) = concat (cid_to_bytes <$> l2) → l1 = l2.
Proof.
  revert l2. induction l1 as [|c l1 IH]; intros [|d l2]; simpl; [done| | |].
  - intros Hnil. symmetry in Hnil. apply app_nil in Hnil as [Hd _].
    by apply cid_nonempty in Hd.
  - intros Hnil. apply app_nil in Hnil as [Hc _]. by apply cid_nonempty in Hc.
  - intros [-> Hrest]%cid_prefix_free. f_equal. by apply IH.
Qed.

(** ** A concrete instance *)

Module ToyCrypto.

(** A CID is its codec and digest; the hash is a polynomial modulo [2^24]. *)
Definition toy_hash (data : bytes) : Z :=
  foldl (λ h b, Z.land (h * 257 + b + 1) 0xffffff) 7 data.

#[export] Instance toy_cid : CidLib := {|
  Cid := Z * list Z;
  cid_to_bytes c := c.1 :: Z.of_nat (length c.2) :: c.2;
  cid_try_from b := match b with codec :: _ :: d => Some (codec, d) | _ => None end;
  cid_to_string c := c.1 :: c.2;
  cid_from_str b := match b with codec :: d => Some (codec, d) | [] => None end;
  cid_codec := fst;
  cid_digest := snd;
  cid_new_v1 codec _ d := (codec, d);
  sha256 data := be_bytes 32 (toy_hash data)
|}.

#[export] Instance toy_cid_laws : CidLaws toy_cid.
Proof.
  split; simpl.
  - by intros [].
  - by intros [].
  - intros [c x] [d y] r s. simpl. intros [= -> Hlen Happ]. apply Nat2Z.inj in Hlen.
    by apply app_inj_1 in Happ as [-> ->].
  - done.
  - done.
  - done.
  - done.
Qed.

#[export] Instance toy_sig : SigLib := {|
  SigningKey := Z;
  VerifyingKey := Z;
  verifying_key k := k;
  ed_sign k m := be_bytes 64 (toy_hash (k :: m));
  ed_verify k m s := bool_decide (s = be_bytes 64 (toy_hash (k :: m)))
|}.

#[export] Instance toy_sig_laws : SigLaws toy_sig.
Proof.
  split.
  - intros k m. apply (length_be_bytes 64).
  - intros k m. by apply bool_decide_eq_true.
Qed.

End ToyCrypto.
