(* ===== verification/BlockStore.v ===== *)
(** Raw block storage of the transit daemon: the trait [IpfsStore] and its
    in-memory implementation in [crates/transit/src/peering/pipeline.rs], with
    [DeletionOutcome] of [crates/core/src/ipfs/mod.rs].

    The production backends talk to a daemon or to LMDB; the pipeline is proved
    against [IpfsLaws], which the in-memory store satisfies. *)

From S2P Require Import Prelude Bytes Crypto.

Module BlockStore.

Inductive IpfsError :=
| WriteFailed (msg : bytes)
| ReadFailed (msg : bytes).

Inductive DeletionOutcome :=
| Immediate
| Deferred (readable_for_approx_secs : option Z).

Section Blocks.
Context {lib : CidLib}.

Class IpfsStore (I : Type) := {
  put_raw : bytes → prog I IpfsError Cid;
  get_raw : Cid → prog I IpfsError (option bytes);
  delete_block : Cid → prog I IpfsError DeletionOutcome
}.

(** The default body of [delete]. *)
Definition default_delete {I} (cid : Cid) : prog I IpfsError DeletionOutcome := mret (Deferred None).

(** [Cid::new_v1(0x55, Code::Sha2_256.digest(data))]. *)
Definition raw_cid (data : bytes) : Cid := cid_new_v1 0x55 0x12 (sha256 data).

Class BlockView (I : Type) := {
  blocks : I → gmap Cid bytes;
  ipfs_reliable : I → Prop
}.

(** A store addresses a block by its raw CID, a failed write loses nothing, and
    a deletion touches no other block. *)
Class IpfsLaws (I : Type) `{BlockView I} `{IpfsStore I} : Prop := {
  put_raw_ok data s :
    match put_raw data s with
    | (Ok c, s') => c = raw_cid data ∧ blocks s' = <[ c := data ]> (blocks s) ∧
                    (ipfs_reliable s → ipfs_reliable s')
    | (Err _, s') => blocks s ⊆ blocks s' ∧ ¬ ipfs_reliable s
    end;
  get_raw_ok c s :
    match get_raw c s with
    | (Ok r, s') => r = blocks s !! c ∧ blocks s' = blocks s ∧
                    (ipfs_reliable s → ipfs_reliable s')
    | (Err _, s') => blocks s' = blocks s ∧ ¬ ipfs_reliable s
    end;
  delete_block_ok c s :
    let '(_, s') := delete_block c s in
    ∀ d, d ≠ c → blocks s' !! d = blocks s !! d
}.

(** ** Blocks under encoded CIDs *)

(** The blocks of a map whose keys are CIDs written by [enc]. *)
Definition keyed_blocks (enc : Cid → bytes) (dec : bytes → option Cid) (m : gmap bytes bytes) : gmap Cid bytes :=
  list_to_map (omap (λ kv : bytes * bytes,
    match dec kv.1 with
    | Some c => if bool_decide (enc c = kv.1) then Some (c, kv.2) else None
    | None => None
    end) (map_to_list m)).

Lemma keyed_blocks_lookup enc dec m c :
  (∀ c, dec (enc c) = Some c) → keyed_blocks enc dec m !! c = m !! enc c.
Proof.
  intros Hdec. apply option_eq. intros b. unfold keyed_blocks. rewrite <- elem_of_list_to_map.
  - rewrite list_elem_of_omap. split.
    + intros ([k v] & Hin & Heq). simpl in Heq. destruct (dec k) as [d|]; [|done].
      case_bool_decide as Hd; [|done]. simplify_eq. by apply elem_of_map_to_list in Hin.
    + intros Hb. exists (enc c, b). split; [by apply elem_of_map_to_list|]. simpl.
      by rewrite Hdec, bool_decide_eq_true_2.
  - pose proof (NoDup_fst_map_to_list m) as Hnd. revert Hnd.
    induction (map_to_list m) as [|[k v] l IH]; simpl.
    { intros _. apply NoDup_nil_2. }
    rewrite NoDup_cons. intros [Hk Hnd]. destruct (dec k) as [d|] eqn:E; [|auto].
    case_bool_decide as Hd; simpl; [|auto]. apply NoDup_cons. split; [|auto].
    intros ([d' v'] & -> & Hin)%list_elem_of_fmap. apply list_elem_of_omap in Hin as ([k' w] & Hin & Heq).
    simpl in Heq. destruct (dec k') as [d''|]; [|done]. case_bool_decide; [|done].
    simplify_eq. apply Hk. apply list_elem_of_fmap. simpl in *. eexists; split; [|done]. simpl. congruence.
Qed.

Lemma keyed_blocks_insert enc dec m c data :
  (∀ c, dec (enc c) = Some c) →
  keyed_blocks enc dec (<[ enc c := data ]> m) = <[ c := data ]> (keyed_blocks enc dec m).
Proof.
  intros Hdec. apply map_eq. intros d. rewrite keyed_blocks_lookup by done.
  destruct (decide (c = d)) as [<-|Hne]; [by rewrite !lookup_insert_eq|].
  rewrite !lookup_insert_ne; [by rewrite keyed_blocks_lookup|done|].
  intros E. apply (f_equal dec) in E. rewrite !Hdec in E. congruence.
Qed.

(** ** [MemIpfsStore] *)

(** [RwLock<HashMap<String, Vec<u8>>>], keyed by [cid.to_string()]. *)
Record MemIpfsStore := mkMemIpfs { mem_blocks : gmap bytes bytes }.

Definition mem_ipfs_new : MemIpfsStore := mkMemIpfs ∅.

Definition mem_put_raw (data : bytes) : prog MemIpfsStore IpfsError Cid := λ s,
  let cid := raw_cid data in
  (Ok cid, mkMemIpfs (<[ cid_to_string cid := data ]> (mem_blocks s))).

Definition mem_get_raw (cid : Cid) : prog MemIpfsStore IpfsError (option bytes) := λ s,
  (Ok (mem_blocks s !! cid_to_string cid), s).

#[export] Instance mem_ipfs_store : IpfsStore MemIpfsStore := {|
  put_raw := mem_put_raw;
  get_raw := mem_get_raw;
  delete_block := default_delete
|}.

(** The blocks under the strings that are CIDs. *)
#[export] Instance mem_ipfs_view : BlockView MemIpfsStore := {|
  blocks s := keyed_blocks cid_to_string cid_from_str (mem_blocks s);
  ipfs_reliable _ := True
|}.

Context {laws : CidLaws lib}.

Lemma mem_blocks_lookup (s : MemIpfsStore) c :
  blocks s !! c = mem_blocks s !! cid_to_string c.
Proof. apply keyed_blocks_lookup, cid_string_roundtrip. Qed.

#[export] Instance mem_ipfs_laws : IpfsLaws MemIpfsStore.
Proof.
  split.
  - intros data s. cbv [put_raw mem_ipfs_store mem_put_raw]. split_and!; [done| |done].
    apply keyed_blocks_insert, cid_string_roundtrip.
  - intros c s. cbv [get_raw mem_ipfs_store mem_get_raw]. by rewrite mem_blocks_lookup.
  - done.
Qed.

End Blocks.

End BlockStore.
