(* ===== verification/Canonical.v ===== *)
(** Canonical serialisation: [crates/core/src/canonical.rs].

    The bytes an article or a log entry is hashed and signed over.  Both
    encodings are proved to be exactly as fine as they should be: two articles
    that passed validation have the same bytes iff they differ only in the
    order of their groups and extra headers, and two log entries have the same
    identifier bytes iff they agree on the wall-clock time, the article, the
    signature and the multiset of parents. *)

From S2P Require Import Prelude Bytes Crypto Article Validation.

Module Canonical.
Import Article Validation.

(** ** Articles *)

Definition push_header (out name value : bytes) : bytes :=
  out ++ name ++ lit ": " ++ value ++ [CR; LF].

Definition canonical_bytes (article : Article) : bytes :=
  let h := header article in
  let out := push_header [] (lit "From") (from h) in
  let out := push_header out (lit "Date") (date h) in
  let out := push_header out (lit "Message-ID") (message_id h) in
  let groups := sort_bytes (as_str <$> newsgroups h) in
  let out := push_header out (lit "Newsgroups") (join (lit ",") groups) in
  let out := push_header out (lit "Subject") (subject h) in
  let out := push_header out (lit "Path") (path h) in
  let extra := sort_pairs (extra_headers h) in
  let out := foldl (λ out kv, push_header out kv.1 kv.2) out extra in
  out ++ [NUL; LF] ++ body article.

(** Articles that differ only in the order of their groups and extra headers. *)
Definition same_article (a b : Article) : Prop :=
  from (header a) = from (header b) ∧ date (header a) = date (header b) ∧
  message_id (header a) = message_id (header b) ∧
  newsgroups (header a) ≡ₚ newsgroups (header b) ∧
  subject (header a) = subject (header b) ∧ path (header a) = path (header b) ∧
  extra_headers (header a) ≡ₚ extra_headers (header b) ∧ body a = body b.

#[export] Instance same_article_equiv : Equivalence same_article.
Proof.
  unfold same_article. split.
  - by intros a.
  - intros a b (-> & -> & -> & -> & -> & -> & -> & ->). done.
  - intros a b c (-> & -> & -> & -> & -> & -> & -> & ->). done.
Qed.

#[export] Instance canonical_bytes_proper : Proper (same_article ==> (=)) canonical_bytes.
Proof.
  intros a b (Hf & Hd & Hm & Hg & Hs & Hp & He & Hb). unfold canonical_bytes.
  by rewrite Hf, Hd, Hm, Hg, Hs, Hp, He, Hb.
Qed.

(** One header line, without the accumulator. *)
Definition header_line (kv : bytes * bytes) : bytes :=
  kv.1 ++ COLON :: SP :: kv.2 ++ [CR; LF].

Lemma push_header_line out name value :
  push_header out name value = out ++ header_line (name, value).
Proof. done. Qed.

Lemma push_headers_lines out l :
  foldl (λ out kv, push_header out kv.1 kv.2) out l = out ++ concat (header_line <$> l).
Proof.
  revert out. induction l as [|[k v] l IH]; intros out; simpl; [by rewrite app_nil_r|].
  rewrite IH, push_header_line, <- app_assoc. done.
Qed.

Definition header_lines (a : Article) : list (bytes * bytes) :=
  let h := header a in
  [(lit "From", from h); (lit "Date", date h); (lit "Message-ID", message_id h);
   (lit "Newsgroups", join (lit ",") (sort_bytes (as_str <$> newsgroups h)));
   (lit "Subject", subject h); (lit "Path", path h)] ++ sort_pairs (extra_headers h).

Lemma canonical_bytes_lines a :
  canonical_bytes a = concat (header_line <$> header_lines a) ++ NUL :: LF :: body a.
Proof.
  unfold canonical_bytes, header_lines. cbv zeta.
  rewrite push_headers_lines, !push_header_line, fmap_app, concat_app.
  cbn [fmap list_fmap concat]. by rewrite !app_nil_r, <- !app_assoc.
Qed.

(** A line that can be read back: its name stops at the first colon, its value
    at the first CR, and it cannot be mistaken for the separator. *)
Definition clean_line (kv : bytes * bytes) : Prop :=
  kv.1 ≠ [] ∧ NUL ∉ kv.1 ∧ COLON ∉ kv.1 ∧ CR ∉ kv.2.

Lemma header_line_inj kv1 kv2 r1 r2 :
  clean_line kv1 → clean_line kv2 →
  header_line kv1 ++ r1 = header_line kv2 ++ r2 → kv1 = kv2 ∧ r1 = r2.
Proof.
  destruct kv1 as [n1 v1], kv2 as [n2 v2]. unfold clean_line, header_line; simpl.
  intros (_ & _ & Hn1 & Hv1) (_ & _ & Hn2 & Hv2). rewrite <- !app_assoc. simpl.
  intros [-> [= Hrest]]%sep_inj; [|done..]. rewrite <- !app_assoc in Hrest. simpl in Hrest.
  apply sep_inj in Hrest as [-> [= ->]]; done.
Qed.

Lemma header_lines_inj l1 l2 b1 b2 :
  Forall clean_line l1 → Forall clean_line l2 →
  concat (header_line <$> l1) ++ NUL :: LF :: b1 = concat (header_line <$> l2) ++ NUL :: LF :: b2 →
  l1 = l2 ∧ b1 = b2.
Proof.
  intros H1. revert l2. induction H1 as [|kv1 l1 Hkv1 H1 IH]; intros l2 H2.
  - destruct H2 as [|[[|c n] v] l2 (Hne & Hnul & _) H2]; simpl; [by intros [=]|done|].
    intros [= <- _]. destruct Hnul. by left.
  - destruct H2 as [|kv2 l2 Hkv2 H2]; simpl.
    + destruct kv1 as [[|c n] v], Hkv1 as (Hne & Hnul & _); [done|].
      intros [= -> _]. destruct Hnul. by left.
    + rewrite <- !app_assoc. intros [-> Heq]%header_line_inj; [|done..].
      by destruct (IH l2 H2 Heq) as [-> ->].
Qed.

#[export] Instance clean_line_dec kv : Decision (clean_line kv).
Proof. unfold clean_line. apply _. Defined.

Lemma clean_mandatory n v : bool_decide (clean_line (n, [])) = true → CR ∉ v → clean_line (n, v).
Proof. intros (? & ? & ? & _)%bool_decide_eq_true ?. done. Qed.

Lemma component_chars p c : component_spec p → c ∈ p → group_char c = true.
Proof.
  intros (d & ds & -> & Hd & Hds) [->|Hin]%elem_of_cons.
  - unfold group_char, is_ascii_alphanumeric. by rewrite Hd.
  - rewrite Forall_forall in Hds. by apply Hds.
Qed.

(** Every byte of a valid group name is a name character or a dot. *)
Lemma valid_group_chars g c : valid_group g → c ∈ as_str g → group_char c = true ∨ c = DOT.
Proof.
  unfold valid_group, is_valid_group_name. case_bool_decide; [done|].
  rewrite forallb_spec. intros Hc Hin. destruct (decide (c = DOT)) as [|Hdot]; [by right|].
  left. rewrite <- (join_split DOT (as_str g)) in Hin. clear H.
  induction Hc as [|p ps Hp%valid_component_spec Hps IH]; [by apply not_elem_of_nil in Hin|].
  destruct ps as [|q ps]; [by eapply component_chars|].
  change (join [DOT] (p :: q :: ps)) with (p ++ DOT :: join [DOT] (q :: ps)) in Hin.
  apply elem_of_app in Hin as [Hin|[?|Hin]%elem_of_cons]; [by eapply component_chars|done|auto].
Qed.

Definition COMMA : Z := 44.

Lemma join_elem c sep l : c ∈ join [sep] l → c = sep ∨ ∃ p, p ∈ l ∧ c ∈ p.
Proof.
  induction l as [|p l IH]; [by intros ?%not_elem_of_nil|]. destruct l as [|q l].
  - intros Hc. right. exists p. by rewrite list_elem_of_singleton.
  - change (join [sep] (p :: q :: l)) with (p ++ sep :: join [sep] (q :: l)).
    intros [Hc|[->|Hc]%elem_of_cons]%elem_of_app.
    + right. exists p. split; [by left|done].
    + by left.
    + destruct (IH Hc) as [|(r & Hr & ?)]; [by left|]. right. exists r. split; [by right|done].
Qed.

Lemma groups_no_char c gs :
  group_char c = false → c ≠ DOT → Forall valid_group gs →
  Forall (λ p, c ∉ p) (sort_bytes (as_str <$> gs)).
Proof.
  intros Hc Hd Hgs. apply Forall_forall. intros p Hp Hin.
  rewrite sort_bytes_perm in Hp. apply list_elem_of_fmap in Hp as (g & -> & Hg).
  rewrite Forall_forall in Hgs. destruct (valid_group_chars g c (Hgs g Hg) Hin); congruence.
Qed.

Lemma sort_not_nil {A} (f : A → bytes) l : l ≠ [] → sort_bytes (f <$> l) ≠ [].
Proof.
  intros Hl Hs. apply Hl. apply (fmap_nil_inv f), Permutation_nil_r.
  by rewrite <- Hs, sort_bytes_perm.
Qed.

(** The comma-separated sorted list determines the groups up to order. *)
Lemma groups_inj gs1 gs2 :
  gs1 ≠ [] → gs2 ≠ [] → Forall valid_group gs1 → Forall valid_group gs2 →
  join (lit ",") (sort_bytes (as_str <$> gs1)) = join (lit ",") (sort_bytes (as_str <$> gs2)) →
  gs1 ≡ₚ gs2.
Proof.
  intros Hn1 Hn2 Hv1 Hv2 Heq. change (lit ",") with [COMMA] in Heq.
  apply (f_equal (split COMMA)) in Heq.
  rewrite !split_join in Heq by (by apply sort_not_nil || by apply groups_no_char).
  assert (Hp : as_str <$> gs1 ≡ₚ as_str <$> gs2).
  { by rewrite <- (sort_bytes_perm (as_str <$> gs1)), Heq, sort_bytes_perm. }
  apply Permutation_map_inv in Hp as (gs & Hgs & ->).
  by apply (inj (fmap as_str)) in Hgs as ->.
Qed.

Definition lines_clean (a : Article) : Prop :=
  flat (from (header a)) ∧ flat (date (header a)) ∧ flat (message_id (header a)) ∧
  flat (subject (header a)) ∧ flat (path (header a)) ∧
  Forall valid_group (newsgroups (header a)) ∧ newsgroups (header a) ≠ [] ∧
  Forall (λ nv, good_name nv.1 ∧ good_value nv.2) (extra_headers (header a)).

Lemma header_lines_clean a : lines_clean a → Forall clean_line (header_lines a).
Proof.
  intros ((_ & Hf & _) & (_ & Hd & _) & (_ & Hm & _) & (_ & Hs & _) & (_ & Hp & _) &
    Hg & Hne & He).
  unfold header_lines. apply Forall_app. split.
  - repeat (apply Forall_cons; split; [apply clean_mandatory; [done|]|]); try done.
    change (lit ",") with [COMMA]. intros [?|(p & Hp' & Hc)]%join_elem; [done|].
    pose proof (groups_no_char CR _ eq_refl ltac:(done) Hg) as Hno.
    rewrite Forall_forall in Hno. by apply (Hno p).
  - rewrite sort_pairs_perm. eapply Forall_impl; [exact He|]. intros [n v].
    unfold good_name, good_value, flat, clean_line. naive_solver.
Qed.

(** What validation guarantees of an article whose groups were built by
    [GroupName::new] is what the encoding needs. *)
Lemma validated_clean a config :
  validate_article_ingress a config = Ok tt → Forall valid_group (newsgroups (header a)) →
  lines_clean a.
Proof.
  intros Hv Hg. apply validate_Ok_iff in Hv as (Hm & _ & Hn & _ & He & _).
  rewrite !Forall_cons in Hm. unfold lines_clean, good_value in *.
  split_and!; try naive_solver. intros Hnil. rewrite Hnil in Hn. by destruct Hn.
Qed.

(** C26. Two articles that passed ingress validation have the same canonical
    bytes exactly when they are the same article up to the order in which their
    groups and extra headers are listed.  In one direction the content
    identifier does not depend on insertion order; in the other no header
    injection makes two different articles share it. *)
Theorem canonical_bytes_exact a b config config' :
  validate_article_ingress a config = Ok tt → validate_article_ingress b config' = Ok tt →
  Forall valid_group (newsgroups (header a)) → Forall valid_group (newsgroups (header b)) →
  canonical_bytes a = canonical_bytes b ↔ same_article a b.
Proof.
  intros Ha Hb Hga Hgb. apply validated_clean in Ha, Hb; [|done..]. split; [|by intros ->].
  rewrite !canonical_bytes_lines. intros [Hl Hbody]%header_lines_inj;
    [|by apply header_lines_clean..].
  unfold header_lines in Hl. cbv zeta in Hl. cbn [app] in Hl.
  injection Hl as Hf Hd Hm Hgr Hs Hp He. unfold same_article. split_and!; try done.
  - apply groups_inj; [apply Ha|apply Hb|done|done|done].
  - by rewrite <- (sort_pairs_perm (extra_headers (header a))), He, sort_pairs_perm.
Qed.

Definition reordered_article : Article :=
  mkArticle (mkHeader (lit "u@example.org") (lit "Mon, 01 Jan 2024 00:00:00 +0000")
               (lit "<1@example.org>") [mkGroupName (lit "alt.test"); mkGroupName (lit "comp.lang.rust")]
               (lit "hello") (lit "example.org!u") [(lit "X-A", lit "1"); (lit "X-B", lit "2")])
            (lit "body").

Lemma canonical_bytes_exact_witness :
  canonical_bytes sample_article = canonical_bytes reordered_article ∧
  same_article sample_article reordered_article.
Proof.
  split; [vm_compute; reflexivity|].
  apply (canonical_bytes_exact sample_article reordered_article default_config default_config);
    [vm_compute; reflexivity|vm_compute; reflexivity| | |vm_compute; reflexivity];
    repeat constructor; vm_compute; reflexivity.
Defined.

(** ** Log entries *)

Section LogEntries.
Context {lib : CidLib}.

(** [parent_bytes.sort()] and the loop that appends them. *)
Definition sorted_cids (parent_cids : list Cid) : bytes :=
  concat (sort_bytes (cid_to_bytes <$> parent_cids)).

Definition log_entry_canonical_bytes (hlc_timestamp : Z) (article_cid : Cid)
    (parent_cids : list Cid) : bytes :=
  be_bytes 8 hlc_timestamp ++ cid_to_bytes article_cid ++ sorted_cids parent_cids.

Definition entry_id_bytes (hlc_timestamp : Z) (article_cid : Cid)
    (operator_signature : bytes) (parent_cids : list Cid) : bytes :=
  be_bytes 8 hlc_timestamp ++ cid_to_bytes article_cid ++ operator_signature ++
  sorted_cids parent_cids.

#[export] Instance sorted_cids_proper : Proper ((≡ₚ) ==> (=)) sorted_cids.
Proof. intros l1 l2 Hp. unfold sorted_cids. by rewrite Hp. Qed.

Context {laws : CidLaws lib}.

Lemma sort_cids_perm (l : list Cid) :
  ∃ l', sort_bytes (cid_to_bytes <$> l) = cid_to_bytes <$> l' ∧ l ≡ₚ l'.
Proof.
  apply Permutation_map_inv, sort_bytes_perm.
Qed.

(** The encodings see the parents as a multiset. *)
Lemma sorted_cids_inj l1 l2 : sorted_cids l1 = sorted_cids l2 → l1 ≡ₚ l2.
Proof.
  unfold sorted_cids.
  destruct (sort_cids_perm l1) as (l1' & -> & ->), (sort_cids_perm l2) as (l2' & -> & ->).
  by intros ->%concat_cids_inj.
Qed.

Lemma u64_be_bytes x y : in_u64 x → in_u64 y → be_bytes 8 x = be_bytes 8 y → x = y.
Proof.
  unfold in_u64, u64_max. intros Hx Hy Heq.
  apply (be_bytes_inj 8); [change (256 ^ Z.of_nat 8) with (2 ^ 64); lia..|done].
Qed.

Lemma log_entry_canonical_bytes_inj w1 w2 a1 a2 p1 p2 :
  in_u64 w1 → in_u64 w2 →
  log_entry_canonical_bytes w1 a1 p1 = log_entry_canonical_bytes w2 a2 p2 ↔
  w1 = w2 ∧ a1 = a2 ∧ p1 ≡ₚ p2.
Proof.
  intros Hw1 Hw2. unfold log_entry_canonical_bytes. split; [|by intros (-> & -> & ->)].
  intros [Hw Hrest]%app_inj_1; [|by rewrite !length_be_bytes].
  apply u64_be_bytes in Hw; [|done..]. apply cid_prefix_free in Hrest as [-> Hp].
  apply sorted_cids_inj in Hp. done.
Qed.

Lemma entry_id_bytes_inj w1 w2 a1 a2 s1 s2 p1 p2 :
  in_u64 w1 → in_u64 w2 → length s1 = length s2 →
  entry_id_bytes w1 a1 s1 p1 = entry_id_bytes w2 a2 s2 p2 ↔
  w1 = w2 ∧ a1 = a2 ∧ s1 = s2 ∧ p1 ≡ₚ p2.
Proof.
  intros Hw1 Hw2 Hs. unfold entry_id_bytes. split; [|by intros (-> & -> & -> & ->)].
  intros [Hw Hrest]%app_inj_1; [|by rewrite !length_be_bytes].
  apply u64_be_bytes in Hw; [|done..]. apply cid_prefix_free in Hrest as [-> Hrest].
  apply app_inj_1 in Hrest as [-> Hp]; [|done]. apply sorted_cids_inj in Hp. done.
Qed.

End LogEntries.

End Canonical.
