(* ===== verification/LogEntry.v ===== *)
(** Log entries, their identifiers and their signatures:
    [crates/core/src/group_log/types.rs], the identifier of [append.rs], the
    signature half of [verify.rs], and [sign]/[verify] of [signing.rs].

    An identifier is proved to bind exactly the wall-clock time, the article,
    the signature and the multiset of parents of a signed entry, up to a SHA-256
    collision that the theorem exhibits. *)

From S2P Require Import Prelude Bytes Crypto Article Validation Canonical Hlc.

Module LogEntry.
Import Canonical Hlc.

(** [LogEntryId([u8; 32])]. *)
Record LogEntryId := mkId { id_bytes : bytes }.

#[export] Instance LogEntryId_eq_dec : EqDecision LogEntryId.
Proof. solve_decision. Defined.

#[export] Instance LogEntryId_countable : Countable LogEntryId.
Proof. refine (inj_countable' id_bytes mkId _). by intros []. Defined.

#[export] Instance mkId_inj : Inj (=) (=) mkId.
Proof. by intros ? ? [= ->]. Qed.

#[export] Instance id_bytes_inj : Inj (=) (=) id_bytes.
Proof. by intros [] [] [= ->]. Qed.

(** [<[u8; 32]>::try_from(digest)] followed by [LogEntryId::from_bytes]. *)
Definition try_into_id (digest : bytes) : option LogEntryId :=
  if (length digest =? 32)%nat then Some (mkId digest) else None.

Inductive StorageError :=
| Database (msg : bytes)
| MigrationFailed (msg : bytes)
| EntryNotFound (id : LogEntryId)
| DuplicateEntry (id : LogEntryId)
| IpfsWriteFailed (msg : bytes)
| IpfsPinFailed (msg : bytes)
| IpfsNotReachable.

Inductive SigningError :=
| InvalidKeyMaterial (msg : bytes)
| SignatureLengthInvalid (got expected : Z)
| VerificationFailed
| KeyNotLoaded
| SigningIo (msg : bytes)
| InvalidKey (msg : bytes).

Section Entries.
Context {lib : CidLib} {siglib : SigLib}.

Record LogEntry := mkEntry {
  hlc_timestamp : HlcTimestamp;
  article_cid : Cid;
  operator_signature : bytes;
  parent_cids : list Cid
}.

(** [LogEntryId::to_cid]: CIDv1, DAG-CBOR, SHA2-256. *)
Definition to_cid (id : LogEntryId) : Cid := cid_new_v1 0x71 0x12 (id_bytes id).

Definition entry_bytes (entry : LogEntry) : bytes :=
  entry_id_bytes (wall_ms (hlc_timestamp entry)) (article_cid entry)
    (operator_signature entry) (parent_cids entry).

(** [LogEntryId::from_entry]. *)
Definition from_entry (entry : LogEntry) : LogEntryId := mkId (sha256 (entry_bytes entry)).

(** [append::compute_entry_id], the same computation. *)
Definition compute_entry_id (entry : LogEntry) : LogEntryId :=
  mkId (sha256 (entry_id_bytes (wall_ms (hlc_timestamp entry)) (article_cid entry)
    (operator_signature entry) (parent_cids entry))).

(** [verify::tip_hash]. *)
Definition tip_hash (tips : list Cid) : bytes := sha256 (sorted_cids tips).

(** ** Signatures *)

(** [signing::sign] and [signing::verify]. *)
Definition sign (key : SigningKey) (canonical_bytes : bytes) : bytes :=
  ed_sign key canonical_bytes.

Definition verify (pubkey : VerifyingKey) (canonical_bytes sig : bytes) : result SigningError () :=
  if ed_verify pubkey canonical_bytes sig then Ok tt else Err VerificationFailed.

(** [verify::VerifiedEntry]: only [verify_signature] builds one. *)
Record VerifiedEntry := mkVerified { into_inner : LogEntry }.

Definition signed_bytes (entry : LogEntry) : bytes :=
  log_entry_canonical_bytes (wall_ms (hlc_timestamp entry)) (article_cid entry)
    (parent_cids entry).

Definition check_signature (entry : LogEntry) (pubkey : VerifyingKey) : result SigningError () :=
  let canonical := signed_bytes entry in
  if negb (length (operator_signature entry) =? 64)%nat then
    Err (SignatureLengthInvalid (Z.of_nat (length (operator_signature entry))) 64)
  else verify pubkey canonical (operator_signature entry).

(** [verify_signature]; its errors are [VerifyError::InvalidSignature]. *)
Definition verify_signature (entry : LogEntry) (pubkey : VerifyingKey) :
    result SigningError VerifiedEntry :=
  _ ← check_signature entry pubkey; Ok (mkVerified entry).

(** ** What an identifier binds *)

Definition same_content (e1 e2 : LogEntry) : Prop :=
  wall_ms (hlc_timestamp e1) = wall_ms (hlc_timestamp e2) ∧
  article_cid e1 = article_cid e2 ∧ operator_signature e1 = operator_signature e2 ∧
  parent_cids e1 ≡ₚ parent_cids e2.

#[export] Instance same_content_equiv : Equivalence same_content.
Proof.
  unfold same_content. split.
  - by intros e.
  - intros e1 e2 (-> & -> & -> & ->). done.
  - intros e1 e2 e3 (-> & -> & -> & ->). done.
Qed.

#[export] Instance from_entry_proper : Proper (same_content ==> (=)) from_entry.
Proof.
  intros e1 e2 (Hw & Ha & Hs & Hp). unfold from_entry, entry_bytes, entry_id_bytes.
  by rewrite Hw, Ha, Hs, Hp.
Qed.

Lemma check_signature_length e pk : check_signature e pk = Ok tt →
  length (operator_signature e) = 64%nat.
Proof. unfold check_signature. break_if; [done|]. by to_prop. Qed.

Lemma verify_signature_Ok e pk v :
  verify_signature e pk = Ok v ↔ v = mkVerified e ∧ length (operator_signature e) = 64%nat ∧
    ed_verify pk (signed_bytes e) (operator_signature e) = true.
Proof.
  unfold verify_signature, check_signature, verify, mbind, result_bind.
  destruct (Nat.eqb_spec (length (operator_signature e)) 64); simpl; [|naive_solver].
  break_if; naive_solver.
Qed.

Context {laws : CidLaws lib}.

Lemma from_entry_exact e1 e2 :
  in_u64 (wall_ms (hlc_timestamp e1)) → in_u64 (wall_ms (hlc_timestamp e2)) →
  length (operator_signature e1) = length (operator_signature e2) →
  from_entry e1 = from_entry e2 ↔
    same_content e1 e2 ∨ collision (entry_bytes e1) (entry_bytes e2).
Proof.
  intros H1 H2 Hs. split; [|intros [->|[_ Hc]]; [done|unfold from_entry; congruence]].
  intros [= Heq]. destruct (decide (entry_bytes e1 = entry_bytes e2)) as [Hb|Hb]; [|by right].
  left. by apply entry_id_bytes_inj in Hb.
Qed.

(** C27. For entries whose signatures were verified, equal identifiers mean the
    same wall-clock time, article, signature and parents (in any order), unless
    the two encodings collide under SHA-256; and the identifier does not depend
    on anything else.  The same holds of [tip_hash] and the tip set.  In
    particular the logical counter and the node of the HLC timestamp are not
    part of an entry's identity. *)
Theorem entry_id_binds e1 e2 pk1 pk2 v1 v2 t1 t2 :
  verify_signature e1 pk1 = Ok v1 → verify_signature e2 pk2 = Ok v2 →
  in_u64 (wall_ms (hlc_timestamp e1)) → in_u64 (wall_ms (hlc_timestamp e2)) →
  (from_entry e1 = from_entry e2 ↔
     same_content e1 e2 ∨ collision (entry_bytes e1) (entry_bytes e2)) ∧
  (tip_hash t1 = tip_hash t2 ↔ t1 ≡ₚ t2 ∨ collision (sorted_cids t1) (sorted_cids t2)).
Proof.
  intros (_ & Hl1 & _)%verify_signature_Ok (_ & Hl2 & _)%verify_signature_Ok H1 H2. split.
  - apply from_entry_exact; [done|done|congruence].
  - unfold tip_hash. split; [|intros [->|[_ Hc]]; done].
    intros Heq. destruct (decide (sorted_cids t1 = sorted_cids t2)) as [Hb|Hb]; [|by right].
    left. by apply sorted_cids_inj.
Qed.

End Entries.

(** ** A concrete entry, signed with the concrete key 5 *)

Module Samples.
Import ToyCrypto.

Definition key : SigningKey := 5.
Definition pk : VerifyingKey := verifying_key key.

Definition signed_entry (ts : HlcTimestamp) (a : Cid) (parents : list Cid) : LogEntry :=
  mkEntry ts a (sign key (log_entry_canonical_bytes (wall_ms ts) a parents)) parents.

Definition cid_a : Cid := (0x71, [1; 2; 3]).
Definition cid_p : Cid := (0x71, [4]).
Definition cid_q : Cid := (0x71, [5; 6]).

Definition entry1 : LogEntry := signed_entry (mkTs 1000 0 [0]) cid_a [cid_p; cid_q].
Definition entry2 : LogEntry := signed_entry (mkTs 1000 7 [9]) cid_a [cid_q; cid_p].

Lemma entry1_verifies : verify_signature entry1 pk = Ok (mkVerified entry1).
Proof. vm_refl. Qed.

Lemma entry2_verifies : verify_signature entry2 pk = Ok (mkVerified entry2).
Proof. vm_refl. Qed.

Lemma entry_id_binds_witness :
  from_entry entry1 = from_entry entry2 ∧ tip_hash [cid_p; cid_q] = tip_hash [cid_q; cid_p].
Proof.
  destruct (entry_id_binds entry1 entry2 pk pk _ _ [cid_p; cid_q] [cid_q; cid_p]
    entry1_verifies entry2_verifies ltac:(by vm_compute) ltac:(by vm_compute)) as [Hid Htip].
  split.
  - apply Hid. left. split; [done|]. split; [done|]. split; [vm_refl|].
    apply (perm_swap (A:=Cid)).
  - apply Htip. left. apply (perm_swap (A:=Cid)).
Defined.

End Samples.

End LogEntry.
