(* ===== verification/LogStorage.v ===== *)
(** The storage interface of the group log: the trait of
    [crates/core/src/group_log/storage.rs].

    [LogStorage] is the trait: one stateful operation per method.
    [StorageView] and [LogStorageLaws] are its contract, stated on an abstract
    log (a finite map of entries and a set of tips per group).  The clients
    (append, verification, reconciliation, backfill, the ingest pipelines) are
    proved against the contract; [MemStorage] and [SqliteStorage] implement
    it. *)

From S2P Require Import Prelude Bytes Crypto Article Hlc LogEntry.

Module LogStorage.
Import Article Hlc LogEntry.

Section Interface.
Context {lib : CidLib}.

(** ** The trait *)

Class LogStorage (S : Type) := {
  insert_entry : LogEntryId → LogEntry → prog S StorageError ();
  get_entry : LogEntryId → prog S StorageError (option LogEntry);
  has_entry : LogEntryId → prog S StorageError bool;
  get_parent_cids : LogEntryId → prog S StorageError (option (list Cid));
  list_tips : GroupName → prog S StorageError (list LogEntryId);
  set_tips : GroupName → list LogEntryId → prog S StorageError ();
  advance_tips : GroupName → list LogEntryId → LogEntryId → prog S StorageError ();
  insert_entry_and_advance_tips :
    LogEntryId → LogEntry → GroupName → list LogEntryId → LogEntryId → prog S StorageError ();
  tip_count : GroupName → prog S StorageError Z
}.

(** ** The abstract log *)

(** What every backend keeps of an entry: the HLC's logical counter and node,
    and the order of the parents, are not part of it. *)
Record AbsEntry := mkAbs {
  ae_wall : Z;
  ae_article : Cid;
  ae_signature : bytes;
  ae_parents : gset Cid
}.

Definition entry_view (e : LogEntry) : AbsEntry :=
  mkAbs (wall_ms (hlc_timestamp e)) (article_cid e) (operator_signature e)
    (list_to_set (parent_cids e)).

(** A backend's state seen as an abstract log.  [reliable] says that no
    database operation will fail; [storable] which entries the backend can
    represent. *)
Class StorageView (S : Type) := {
  st_inv : S → Prop;
  reliable : S → Prop;
  storable : LogEntry → Prop;
  entries_of : S → gmap LogEntryId AbsEntry;
  tips_of : S → GroupName → gset LogEntryId
}.

(** The type invariants of [[u8; 32]] and [u64]. *)
Definition wf_id (id : LogEntryId) : Prop := length (id_bytes id) = 32%nat.
Definition wf_entry (e : LogEntry) : Prop := in_u64 (wall_ms (hlc_timestamp e)).

Section Contract.
Context {S : Type} `{view : StorageView S}.

Definition same_log (s s' : S) : Prop :=
  entries_of s' = entries_of s ∧ ∀ g, tips_of s' g = tips_of s g.

#[export] Instance same_log_equiv : Equivalence same_log.
Proof.
  unfold same_log. split.
  - done.
  - by intros s1 s2 [-> Ht].
  - intros s1 s2 s3 [-> Ht1] [-> Ht2]. split; [done|]. intros g. by rewrite Ht2.
Qed.

(** The tip sets after removing [parents] and adding [new_tip] in group [g]. *)
Definition advanced (s s' : S) (g : GroupName) (parents : list LogEntryId) (new_tip : LogEntryId) :
    Prop :=
  ∀ g', tips_of s' g' =
    if decide (g' = g) then (tips_of s g ∖ list_to_set parents) ∪ {[ new_tip ]}
    else tips_of s g'.

(** [m] run in [s] either yields a value and a state related by [Q], or fails
    with an error satisfying [X] and leaves the log as it was. *)
Definition outcome {E A} (s : S) (m : prog S E A) (Q : A → S → Prop) (X : E → Prop) : Prop :=
  match m s with
  | (Ok a, s') => st_inv s' ∧ (reliable s → reliable s') ∧ Q a s'
  | (Err e, s') => st_inv s' ∧ (reliable s → reliable s') ∧ same_log s s' ∧ X e
  end.

(** An error that is not an answer: the backend failed. *)
Definition backend_fault (s : S) (e : StorageError) : Prop :=
  ¬ reliable s ∧ ∀ id, e ≠ DuplicateEntry id.

(** The errors of an insertion. *)
Definition insert_fault (s : S) (id : LogEntryId) (entry : LogEntry) (e : StorageError) : Prop :=
  (e = DuplicateEntry id ∧ is_Some (entries_of s !! id)) ∨
  ((¬ reliable s ∨ ¬ storable entry) ∧ ∀ id', e ≠ DuplicateEntry id').

Definition inserted (s s' : S) (id : LogEntryId) (entry : LogEntry) : Prop :=
  entries_of s !! id = None ∧ entries_of s' = <[ id := entry_view entry ]> (entries_of s).

Context `{store : LogStorage S}.

Class LogStorageLaws : Prop := {
  has_entry_ok id s : st_inv s →
    outcome s (has_entry id)
      (λ b s', same_log s s' ∧ b = bool_decide (is_Some (entries_of s !! id))) (backend_fault s);
  get_entry_ok id s : st_inv s →
    outcome s (get_entry id)
      (λ r s', same_log s s' ∧ entry_view <$> r = entries_of s !! id) (backend_fault s);
  get_parent_cids_ok id s : st_inv s →
    outcome s (get_parent_cids id)
      (λ r s', same_log s s' ∧
         list_to_set (C := gset Cid) <$> r = ae_parents <$> (entries_of s !! id)) (backend_fault s);
  list_tips_ok g s : st_inv s →
    outcome s (list_tips g)
      (λ l s', same_log s s' ∧ NoDup l ∧ list_to_set l = tips_of s g) (backend_fault s);
  set_tips_ok g tips s : st_inv s → NoDup tips → Forall wf_id tips →
    outcome s (set_tips g tips)
      (λ _ s', entries_of s' = entries_of s ∧
         ∀ g', tips_of s' g' = if decide (g' = g) then list_to_set tips else tips_of s g')
      (backend_fault s);
  advance_tips_ok g parents new_tip s : st_inv s → wf_id new_tip →
    outcome s (advance_tips g parents new_tip)
      (λ _ s', entries_of s' = entries_of s ∧ advanced s s' g parents new_tip) (backend_fault s);
  insert_entry_ok id entry s : st_inv s → wf_entry entry →
    outcome s (insert_entry id entry)
      (λ _ s', inserted s s' id entry ∧ ∀ g, tips_of s' g = tips_of s g)
      (insert_fault s id entry);
  insert_entry_and_advance_tips_ok id entry g parents new_tip s :
    st_inv s → wf_entry entry → wf_id new_tip →
    outcome s (insert_entry_and_advance_tips id entry g parents new_tip)
      (λ _ s', inserted s s' id entry ∧ advanced s s' g parents new_tip)
      (insert_fault s id entry);
  tip_count_ok g s : st_inv s →
    outcome s (tip_count g)
      (λ n s', same_log s s' ∧ n = Z.of_nat (size (tips_of s g))) (backend_fault s)
}.

(** ** Rules for programs built from the operations *)

Lemma outcome_ret {E A} (s : S) (a : A) (Q : A → S → Prop) (X : E → Prop) :
  st_inv s → Q a s → outcome s (mret a) Q X.
Proof. unfold outcome, mret, prog_ret. auto. Qed.

Lemma outcome_throw {E A} (s : S) (e : E) (Q : A → S → Prop) (X : E → Prop) :
  st_inv s → X e → outcome s (throw e) Q X.
Proof. intros Hi HX. unfold outcome, throw. by split_and!. Qed.

Lemma outcome_bind_throw {E A B} (s : S) (e : E) (k : A → prog S E B) (Q : B → S → Prop)
    (X : E → Prop) :
  st_inv s → X e → outcome s (mbind k (throw e)) Q X.
Proof. intros Hi HX. unfold outcome, throw, mbind, prog_bind. by split_and!. Qed.

Lemma outcome_bind_ret {E A B} (s : S) (a : A) (k : A → prog S E B) (Q : B → S → Prop)
    (X : E → Prop) :
  outcome s (k a) Q X → outcome s (mbind k (mret a)) Q X.
Proof. done. Qed.

Lemma outcome_bind_lift {E A B} (s : S) (a : A) (k : A → prog S E B) (Q : B → S → Prop)
    (X : E → Prop) :
  outcome s (k a) Q X → outcome s (mbind k (lift (Ok a))) Q X.
Proof. done. Qed.

Lemma outcome_lift {E A} (s : S) (a : A) (Q : A → S → Prop) (X : E → Prop) :
  st_inv s → Q a s → outcome s (lift (Ok a)) Q X.
Proof. apply outcome_ret. Qed.

Lemma outcome_impl {E A} (s : S) (m : prog S E A) (Q Q' : A → S → Prop) (X X' : E → Prop) :
  outcome s m Q X → (∀ a s', Q a s' → Q' a s') → (∀ e, X e → X' e) → outcome s m Q' X'.
Proof. unfold outcome. destruct (m s) as [[a|e] s']; naive_solver. Qed.

Lemma outcome_map_err {E E' A} (f : E → E') (s : S) (m : prog S E A) (Q : A → S → Prop)
    (X : E' → Prop) :
  outcome s m Q (λ e, X (f e)) → outcome s (prog_map_err f m) Q X.
Proof. unfold outcome, prog_map_err. destruct (m s) as [[a|e] s']; done. Qed.

(** A step that leaves the log alone, followed by the rest. *)
Lemma outcome_bind {E A B} (s : S) (m : prog S E A) (k : A → prog S E B)
    (P : A → S → Prop) (Q : B → S → Prop) (X : E → Prop) :
  outcome s m (λ a s', same_log s s' ∧ P a s') X →
  (∀ a s', st_inv s' → (reliable s → reliable s') → same_log s s' → P a s' →
     outcome s' (k a) Q X) →
  outcome s (mbind k m) Q X.
Proof.
  unfold outcome, mbind, prog_bind. destruct (m s) as [[a|e] s'].
  - intros (Hi & Hr & Hsame & HP) Hk. specialize (Hk a s' Hi Hr Hsame HP).
    destruct (k a s') as [[b|e] s''].
    + destruct Hk as (? & ? & ?). split_and!; auto.
    + destruct Hk as (? & ? & ? & ?). split_and!; auto. by transitivity s'.
  - naive_solver.
Qed.

Lemma outcome_assoc {E A B C} (s : S) (m : prog S E A) (k : A → prog S E B)
    (k' : B → prog S E C) (Q : C → S → Prop) (X : E → Prop) :
  outcome s (mbind (λ a, mbind k' (k a)) m) Q X → outcome s (mbind k' (mbind k m)) Q X.
Proof. unfold outcome, mbind, prog_bind. by destruct (m s) as [[] ?]. Qed.

End Contract.

End Interface.

Arguments LogStorageLaws {lib} S {view store}.

End LogStorage.
