(* ===== verification/MemStorage.v ===== *)
(** The in-memory backend: [crates/core/src/group_log/mem_storage.rs].

    Two hash maps behind locks.  The backend never fails on its own account and
    keeps whole entries, so [reliable] and [storable] are trivial; its
    invariant is that no tip list holds an id twice. *)

From S2P Require Import Prelude Bytes Crypto Article Hlc LogEntry LogStorage.

Module MemStorage.
Import Article Hlc LogEntry LogStorage.

Section Mem.
Context {lib : CidLib}.

Record MemLogStorage := mkMem {
  mem_entries : gmap LogEntryId LogEntry;
  mem_tips : gmap bytes (list LogEntryId)
}.

(** [MemLogStorage::new]. *)
Definition mem_new : MemLogStorage := mkMem ∅ ∅.

Definition mem_insert_entry (id : LogEntryId) (entry : LogEntry) :
    prog MemLogStorage StorageError () := λ st,
  if bool_decide (is_Some (mem_entries st !! id)) then (Err (DuplicateEntry id), st)
  else (Ok tt, mkMem (<[ id := entry ]> (mem_entries st)) (mem_tips st)).

Definition mem_get_entry (id : LogEntryId) : prog MemLogStorage StorageError (option LogEntry) :=
  λ st, (Ok (mem_entries st !! id), st).

Definition mem_has_entry (id : LogEntryId) : prog MemLogStorage StorageError bool :=
  λ st, (Ok (bool_decide (is_Some (mem_entries st !! id))), st).

Definition mem_get_parent_cids (id : LogEntryId) :
    prog MemLogStorage StorageError (option (list Cid)) :=
  λ st, (Ok (parent_cids <$> (mem_entries st !! id)), st).

Definition mem_tip_list (st : MemLogStorage) (g : GroupName) : list LogEntryId :=
  default [] (mem_tips st !! as_str g).

Definition mem_list_tips (g : GroupName) : prog MemLogStorage StorageError (list LogEntryId) :=
  λ st, (Ok (mem_tip_list st g), st).

Definition mem_set_tips (g : GroupName) (tips : list LogEntryId) :
    prog MemLogStorage StorageError () :=
  λ st, (Ok tt, mkMem (mem_entries st) (<[ as_str g := tips ]> (mem_tips st))).

Definition mem_advance_tips (g : GroupName) (parents_to_remove : list LogEntryId)
    (new_tip : LogEntryId) : prog MemLogStorage StorageError () := λ st,
  let current := mem_tip_list st g in
  let current := List.filter (λ id, negb (bool_decide (id ∈ parents_to_remove))) current in
  let current := if bool_decide (new_tip ∈ current) then current else current ++ [new_tip] in
  (Ok tt, mkMem (mem_entries st) (<[ as_str g := current ]> (mem_tips st))).

Definition mem_insert_entry_and_advance_tips (id : LogEntryId) (entry : LogEntry)
    (g : GroupName) (parents_to_remove : list LogEntryId) (new_tip : LogEntryId) :
    prog MemLogStorage StorageError () :=
  _ ← mem_insert_entry id entry; mem_advance_tips g parents_to_remove new_tip.

Definition mem_tip_count (g : GroupName) : prog MemLogStorage StorageError Z :=
  λ st, (Ok (Z.of_nat (length (mem_tip_list st g))), st).

#[export] Instance mem_storage : LogStorage MemLogStorage := {|
  insert_entry := mem_insert_entry;
  get_entry := mem_get_entry;
  has_entry := mem_has_entry;
  get_parent_cids := mem_get_parent_cids;
  list_tips := mem_list_tips;
  set_tips := mem_set_tips;
  advance_tips := mem_advance_tips;
  insert_entry_and_advance_tips := mem_insert_entry_and_advance_tips;
  tip_count := mem_tip_count
|}.

#[export] Instance mem_view : StorageView MemLogStorage := {|
  st_inv st := ∀ g, NoDup (mem_tip_list st g);
  reliable _ := True;
  storable _ := True;
  entries_of st := entry_view <$> mem_entries st;
  tips_of st g := list_to_set (mem_tip_list st g)
|}.

Lemma mem_tip_list_insert es ts g g' l :
  mem_tip_list (mkMem es (<[ as_str g := l ]> ts)) g' =
  if decide (g' = g) then l else mem_tip_list (mkMem es ts) g'.
Proof.
  unfold mem_tip_list. simpl. case_decide as Hg.
  - subst. by rewrite lookup_insert_eq.
  - rewrite lookup_insert_ne; [done|]. intros Heq. by apply Hg, (inj as_str).
Qed.

(** [retain] and [push]: the tip list after an advance. *)
Definition advance_list (l parents : list LogEntryId) (t : LogEntryId) : list LogEntryId :=
  let l := List.filter (λ id, negb (bool_decide (id ∈ parents))) l in
  if bool_decide (t ∈ l) then l else l ++ [t].

Lemma elem_of_list_filter {A} (f : A → bool) l x :
  x ∈ List.filter f l ↔ x ∈ l ∧ f x = true.
Proof. by rewrite !list_elem_of_In, filter_In. Qed.

Lemma advance_list_ok l parents t :
  NoDup l → NoDup (advance_list l parents t) ∧
  list_to_set (C := gset LogEntryId) (advance_list l parents t) =
    (list_to_set l ∖ list_to_set parents) ∪ {[ t ]}.
Proof.
  intros Hl. unfold advance_list.
  set (f := λ id, negb (bool_decide (id ∈ parents))).
  assert (Hf : NoDup (List.filter f l)) by by apply NoDup_ListNoDup, List.NoDup_filter, NoDup_ListNoDup.
  assert (Hin : ∀ x, x ∈ List.filter f l ↔ x ∈ l ∧ x ∉ parents).
  { intros x. unfold f. rewrite elem_of_list_filter, negb_true_iff, bool_decide_eq_false. done. }
  case_bool_decide as Ht; split; [done| | |].
  - set_solver.
  - apply NoDup_app. split_and!; [done|set_solver|apply NoDup_singleton].
  - set_solver.
Qed.

Lemma mem_advance_ok es ts g parents t :
  (∀ g', NoDup (mem_tip_list (mkMem es ts) g')) →
  let st' := mkMem es (<[ as_str g := advance_list (mem_tip_list (mkMem es ts) g) parents t ]> ts) in
  (∀ g', NoDup (mem_tip_list st' g')) ∧ advanced (mkMem es ts) st' g parents t.
Proof.
  intros Hi st'. destruct (advance_list_ok _ parents t (Hi g)) as [Hnd Hset]. split.
  - intros g'. unfold st'. rewrite mem_tip_list_insert. by case_decide.
  - intros g'. unfold st'; simpl. rewrite mem_tip_list_insert. by case_decide.
Qed.

#[export] Instance mem_laws : LogStorageLaws MemLogStorage.
Proof.
  split; unfold outcome; simpl.
  - intros id [es ts] Hi. split_and!; [done..|]. simpl. apply bool_decide_ext.
    by rewrite lookup_fmap, fmap_is_Some.
  - intros id [es ts] Hi. split_and!; [done..|]. simpl. by rewrite lookup_fmap.
  - intros id [es ts] Hi. split_and!; [done..|]. simpl. rewrite lookup_fmap.
    by destruct (es !! id).
  - intros g st Hi. by split_and!.
  - intros g tips [es ts] Hi Hnd _. split_and!; [|done..|].
    + intros g'. rewrite mem_tip_list_insert. by case_decide.
    + intros g'. rewrite mem_tip_list_insert. by case_decide.
  - intros g parents t [es ts] Hi _. destruct (mem_advance_ok es ts g parents t Hi). by split_and!.
  - intros id e [es ts] Hi _. unfold mem_insert_entry; simpl. case_bool_decide as Hid.
    + split_and!; [done..|]. left. split; [done|]. simpl. by rewrite lookup_fmap, fmap_is_Some.
    + apply eq_None_not_Some in Hid. unfold inserted; simpl.
      by rewrite fmap_insert, lookup_fmap, Hid.
  - intros id e g parents t [es ts] Hi _ _.
    unfold mem_insert_entry_and_advance_tips, mem_insert_entry, mbind, prog_bind; simpl.
    case_bool_decide as Hid; simpl.
    + split_and!; [done..|]. left. split; [done|]. simpl. by rewrite lookup_fmap, fmap_is_Some.
    + apply eq_None_not_Some in Hid.
      destruct (mem_advance_ok (<[id:=e]> es) ts g parents t Hi) as [Hi' Hadv].
      unfold inserted; simpl. rewrite fmap_insert, lookup_fmap, Hid. by split_and!.
  - intros g st Hi. split_and!; [done..|]. by rewrite size_list_to_set.
Qed.

End Mem.

End MemStorage.
