(* ===== verification/SqliteStorage.v ===== *)
(** The SQL backend: [crates/core/src/group_log/sqlite_storage.rs] over the
    schema of [crates/core/migrations/20260101_000001_log_storage.sql].

    The three tables are values; a transaction works on a copy of them that
    [commit] installs, so that an early return rolls back.  Any statement may
    fail: [faults] is the sequence of outcomes the database will give, one per
    round trip, and a state is [reliable] when it holds no failure.  A [SELECT]
    without [ORDER BY] returns its rows in an order [row_order] the code may not
    rely on. *)

From S2P Require Import Prelude Bytes Crypto Article Canonical Hlc LogEntry LogStorage MemStorage.

Module SqliteStorage.
Import Article Hlc Canonical LogEntry LogStorage MemStorage.

(** The order in which the engine happens to return the rows of one column. *)
Class SqlEngine := {
  row_order : list bytes → list bytes;
  row_order_perm l : row_order l ≡ₚ l
}.

Section Sqlite.
Context {lib : CidLib} {engine : SqlEngine}.

(** ** Tables *)

(** [log_entries(id PRIMARY KEY, hlc_timestamp, article_cid, operator_signature)]. *)
Record EntryRow := mkRow { row_ts : Z; row_cid : bytes; row_sig : bytes }.

Record Tables := mkTables {
  log_entries : gmap LogEntryId EntryRow;
  log_entry_parents : list (LogEntryId * bytes);  (* PRIMARY KEY (entry_id, parent_id) *)
  group_tips : list (bytes * bytes)               (* PRIMARY KEY (group_name, tip_id) *)
}.

Record SqlDb := mkDb { committed : Tables; faults : list bool }.

Definition sql_new : SqlDb := mkDb (mkTables ∅ [] []) [].

(** ** Round trips and transactions *)

Definition DB_ERROR : StorageError := Database (lit "database error").
Definition BAD_TS : StorageError := Database (lit "HLC timestamp exceeds i64::MAX").
Definition BAD_CID : StorageError := Database (lit "invalid CID bytes").
Definition BAD_TIP : StorageError := Database (lit "corrupt tip_id").
Definition NEG_TS : StorageError := Database (lit "corrupt hlc_timestamp").
Definition NEG_COUNT : StorageError := Database (lit "corrupt tip_count").

(** One [begin], [execute], [fetch] or [commit]: it fails if the database says
    so ([db_err]). *)
Definition round_trip : prog SqlDb StorageError () := λ db,
  match faults db with
  | [] => (Ok tt, db)
  | f :: fs => (if f then Err DB_ERROR else Ok tt, mkDb (committed db) fs)
  end.

Definition tables : prog SqlDb StorageError Tables := λ db, (Ok (committed db), db).

(** [pool.begin()]: the working copy of the transaction. *)
Definition begin_tx : prog SqlDb StorageError Tables := _ ← round_trip; tables.

(** [tx.commit()]: installs the working copy. *)
Definition install (t : Tables) : prog SqlDb StorageError () :=
  λ db, (Ok tt, mkDb t (faults db)).

Definition commit (t : Tables) : prog SqlDb StorageError () := _ ← round_trip; install t.

(** ** Statements *)

(** [INSERT INTO log_entries ...]: [None] is the unique violation. *)
Definition insert_row (id : LogEntryId) (r : EntryRow) (t : Tables) : option Tables :=
  if bool_decide (is_Some (log_entries t !! id)) then None
  else Some (mkTables (<[ id := r ]> (log_entries t)) (log_entry_parents t) (group_tips t)).

(** [INSERT INTO log_entry_parents ... ON CONFLICT DO NOTHING]. *)
Definition insert_parent (id : LogEntryId) (pb : bytes) (t : Tables) : Tables :=
  if bool_decide ((id, pb) ∈ log_entry_parents t) then t
  else mkTables (log_entries t) (log_entry_parents t ++ [(id, pb)]) (group_tips t).

(** [DELETE FROM group_tips WHERE group_name = ? AND tip_id IN (...)]. *)
Definition delete_tips (g : bytes) (parents : list LogEntryId) (t : Tables) : Tables :=
  mkTables (log_entries t) (log_entry_parents t)
    (List.filter (λ row, negb (bool_decide (row.1 = g) &&
                               bool_decide (row.2 ∈ id_bytes <$> parents))) (group_tips t)).

(** [DELETE FROM group_tips WHERE group_name = ?]. *)
Definition delete_group (g : bytes) (t : Tables) : Tables :=
  mkTables (log_entries t) (log_entry_parents t)
    (List.filter (λ row, negb (bool_decide (row.1 = g))) (group_tips t)).

(** [INSERT INTO group_tips ... ON CONFLICT DO NOTHING]. *)
Definition insert_tip (g tip : bytes) (t : Tables) : Tables :=
  if bool_decide ((g, tip) ∈ group_tips t) then t
  else mkTables (log_entries t) (log_entry_parents t) (group_tips t ++ [(g, tip)]).

(** The bulk [INSERT INTO group_tips] of [set_tips]; [None] is a unique
    violation, which the code reports as a database error. *)
Definition insert_tips (g : bytes) (tips : list LogEntryId) (t : Tables) : option Tables :=
  let rows := (λ id, (g, id_bytes id)) <$> tips in
  if bool_decide (NoDup (group_tips t ++ rows)) then
    Some (mkTables (log_entries t) (log_entry_parents t) (group_tips t ++ rows))
  else None.

(** [SELECT parent_id FROM log_entry_parents WHERE entry_id = ?]. *)
Definition select_parents (id : LogEntryId) (t : Tables) : list bytes :=
  row_order (List.filter (λ row, bool_decide (row.1 = id)) (log_entry_parents t)).*2.

(** [SELECT tip_id FROM group_tips WHERE group_name = ?]. *)
Definition select_tips (g : bytes) (t : Tables) : list bytes :=
  row_order (List.filter (λ row, bool_decide (row.1 = g)) (group_tips t)).*2.

(** ** The methods *)

(** [cid_from_bytes]. *)
Definition cid_from_bytes (b : bytes) : result StorageError Cid :=
  match cid_try_from b with Some c => Ok c | None => Err BAD_CID end.

(** The loops over fetched rows. *)
Fixpoint cids_from_rows (rows : list bytes) : result StorageError (list Cid) :=
  match rows with
  | [] => Ok []
  | pb :: rows' => c ← cid_from_bytes pb; cs ← cids_from_rows rows'; Ok (c :: cs)
  end.

Fixpoint tips_from_rows (rows : list bytes) : result StorageError (list LogEntryId) :=
  match rows with
  | [] => Ok []
  | b :: rows' =>
      if negb (length b =? 32)%nat then Err BAD_TIP
      else ids ← tips_from_rows rows'; Ok (mkId b :: ids)
  end.

(** The loop that inserts the parent edges, one round trip each. *)
Fixpoint insert_parents (id : LogEntryId) (parents : list Cid) (t : Tables) :
    prog SqlDb StorageError Tables :=
  match parents with
  | [] => mret t
  | c :: parents' =>
      _ ← round_trip; insert_parents id parents' (insert_parent id (cid_to_bytes c) t)
  end.

(** The checked conversion, the transaction's first statement and the parent
    edges, which [insert_entry] and [insert_entry_and_advance_tips] share. *)
Definition insert_in_tx (id : LogEntryId) (entry : LogEntry) : prog SqlDb StorageError Tables :=
  match i64_try_from (wall_ms (hlc_timestamp entry)) with
  | None => throw BAD_TS
  | Some ts =>
      t ← begin_tx;
      _ ← round_trip;
      match insert_row id (mkRow ts (cid_to_bytes (article_cid entry)) (operator_signature entry)) t with
      | None => throw (DuplicateEntry id)
      | Some t => insert_parents id (parent_cids entry) t
      end
  end.

Definition sql_insert_entry (id : LogEntryId) (entry : LogEntry) : prog SqlDb StorageError () :=
  t ← insert_in_tx id entry; commit t.

(** Removal of the parents and insertion of the tip, inside a transaction. *)
Definition advance_in_tx (g : GroupName) (parents_to_remove : list LogEntryId)
    (new_tip : LogEntryId) (t : Tables) : prog SqlDb StorageError Tables :=
  t ← (if bool_decide (parents_to_remove = []) then mret t
       else _ ← round_trip; mret (delete_tips (as_str g) parents_to_remove t));
  _ ← round_trip;
  mret (insert_tip (as_str g) (id_bytes new_tip) t).

Definition sql_advance_tips (g : GroupName) (parents_to_remove : list LogEntryId)
    (new_tip : LogEntryId) : prog SqlDb StorageError () :=
  t ← begin_tx; t ← advance_in_tx g parents_to_remove new_tip t; commit t.

Definition sql_insert_entry_and_advance_tips (id : LogEntryId) (entry : LogEntry)
    (g : GroupName) (parents_to_remove : list LogEntryId) (new_tip : LogEntryId) :
    prog SqlDb StorageError () :=
  t ← insert_in_tx id entry; t ← advance_in_tx g parents_to_remove new_tip t; commit t.

Definition sql_has_entry (id : LogEntryId) : prog SqlDb StorageError bool :=
  _ ← round_trip; t ← tables; mret (bool_decide (is_Some (log_entries t !! id))).

Definition sql_get_entry (id : LogEntryId) : prog SqlDb StorageError (option LogEntry) :=
  _ ← round_trip; t ← tables;
  match log_entries t !! id with
  | None => mret None
  | Some row =>
      article_cid ← lift (cid_from_bytes (row_cid row));
      _ ← round_trip; t ← tables;
      parent_cids ← lift (cids_from_rows (select_parents id t));
      if row_ts row <? 0 then throw NEG_TS
      else mret (Some (mkEntry (mkTs (row_ts row) 0 (replicate 8 0)) article_cid
                         (row_sig row) parent_cids))
  end.

Definition sql_get_parent_cids (id : LogEntryId) :
    prog SqlDb StorageError (option (list Cid)) :=
  _ ← round_trip; t ← tables;
  match log_entries t !! id with
  | None => mret None
  | Some _ =>
      _ ← round_trip; t ← tables;
      parent_cids ← lift (cids_from_rows (select_parents id t));
      mret (Some parent_cids)
  end.

Definition sql_list_tips (g : GroupName) : prog SqlDb StorageError (list LogEntryId) :=
  _ ← round_trip; t ← tables; lift (tips_from_rows (select_tips (as_str g) t)).

Definition sql_set_tips (g : GroupName) (tips : list LogEntryId) : prog SqlDb StorageError () :=
  t ← begin_tx;
  _ ← round_trip;
  let t := delete_group (as_str g) t in
  if bool_decide (tips = []) then commit t
  else
    _ ← round_trip;
    match insert_tips (as_str g) tips t with
    | None => throw DB_ERROR
    | Some t => commit t
    end.

(** [SELECT COUNT( * )], an [i64]. *)
Definition sql_tip_count (g : GroupName) : prog SqlDb StorageError Z :=
  _ ← round_trip; t ← tables;
  let n := Z.of_nat (length (select_tips (as_str g) t)) in
  if n <? 0 then throw NEG_COUNT else mret n.

#[export] Instance sql_storage : LogStorage SqlDb := {|
  insert_entry := sql_insert_entry;
  get_entry := sql_get_entry;
  has_entry := sql_has_entry;
  get_parent_cids := sql_get_parent_cids;
  list_tips := sql_list_tips;
  set_tips := sql_set_tips;
  advance_tips := sql_advance_tips;
  insert_entry_and_advance_tips := sql_insert_entry_and_advance_tips;
  tip_count := sql_tip_count
|}.

(** ** The tables as an abstract log *)

Definition parent_rows (t : Tables) (id : LogEntryId) : list bytes :=
  (List.filter (λ row, bool_decide (row.1 = id)) (log_entry_parents t)).*2.

Definition tip_rows (t : Tables) (g : bytes) : list bytes :=
  (List.filter (λ row, bool_decide (row.1 = g)) (group_tips t)).*2.

Definition parent_set (t : Tables) (id : LogEntryId) : gset Cid :=
  list_to_set (omap cid_try_from (parent_rows t id)).

Definition tab_entries (t : Tables) : gmap LogEntryId AbsEntry :=
  map_imap (λ id row,
    (λ c, mkAbs (row_ts row) c (row_sig row) (parent_set t id)) <$> cid_try_from (row_cid row))
    (log_entries t).

Definition tab_tips (t : Tables) (g : GroupName) : gset LogEntryId :=
  list_to_set (mkId <$> tip_rows t (as_str g)).

(** What the code writes: times are non-negative, CIDs parse, edges belong to
    stored entries, tips are 32 bytes and the rows respect their keys. *)
Definition wf_tables (t : Tables) : Prop :=
  (∀ id row, log_entries t !! id = Some row →
     0 <= row_ts row ∧ ∃ c, row_cid row = cid_to_bytes c) ∧
  (∀ id pb, (id, pb) ∈ log_entry_parents t →
     (∃ c, pb = cid_to_bytes c) ∧ is_Some (log_entries t !! id)) ∧
  NoDup (group_tips t) ∧ (∀ g b, (g, b) ∈ group_tips t → length b = 32%nat) ∧
  NoDup (log_entry_parents t).

#[export] Instance sql_view : StorageView SqlDb := {|
  st_inv db := wf_tables (committed db);
  reliable db := Forall (λ f, f = false) (faults db);
  storable e := wall_ms (hlc_timestamp e) <= i64_max;
  entries_of db := tab_entries (committed db);
  tips_of db g := tab_tips (committed db) g
|}.

Lemma sql_new_wf : wf_tables (committed sql_new).
Proof.
  split_and!; simpl; [by intros id row ?%lookup_empty_Some|by intros ? ? ?%not_elem_of_nil
    |apply NoDup_nil_2|by intros ? ? ?%not_elem_of_nil|apply NoDup_nil_2].
Qed.

Lemma sql_new_empty id : tab_entries (committed sql_new) !! id = None.
Proof. unfold tab_entries. rewrite map_lookup_imap. simpl. by rewrite lookup_empty. Qed.

Context {laws : CidLaws lib}.

Lemma elem_of_parent_rows t id pb : pb ∈ parent_rows t id ↔ (id, pb) ∈ log_entry_parents t.
Proof.
  unfold parent_rows. rewrite list_elem_of_fmap. setoid_rewrite elem_of_list_filter.
  setoid_rewrite bool_decide_eq_true. split.
  - by intros ([i b] & -> & ? & <-).
  - intros Hin. by exists (id, pb).
Qed.

Lemma elem_of_tip_rows t g b : b ∈ tip_rows t g ↔ (g, b) ∈ group_tips t.
Proof.
  unfold tip_rows. rewrite list_elem_of_fmap. setoid_rewrite elem_of_list_filter.
  setoid_rewrite bool_decide_eq_true. split.
  - by intros ([i c] & -> & ? & <-).
  - intros Hin. by exists (g, b).
Qed.

Lemma elem_of_parent_set t id c :
  wf_tables t → c ∈ parent_set t id ↔ (id, cid_to_bytes c) ∈ log_entry_parents t.
Proof.
  intros (_ & Hp & _). unfold parent_set.
  rewrite elem_of_list_to_set, list_elem_of_omap. setoid_rewrite elem_of_parent_rows. split.
  - intros (pb & Hin & Hc). destruct (Hp _ _ Hin) as [[c' ->] _].
    rewrite cid_roundtrip in Hc. by simplify_eq.
  - intros Hin. exists (cid_to_bytes c). by rewrite cid_roundtrip.
Qed.

Lemma elem_of_tab_tips t g id : id ∈ tab_tips t g ↔ (as_str g, id_bytes id) ∈ group_tips t.
Proof.
  unfold tab_tips. rewrite elem_of_list_to_set, list_elem_of_fmap.
  setoid_rewrite elem_of_tip_rows. destruct id as [b]. naive_solver.
Qed.

Lemma lookup_tab_entries t id :
  tab_entries t !! id = row ← log_entries t !! id;
    (λ c, mkAbs (row_ts row) c (row_sig row) (parent_set t id)) <$> cid_try_from (row_cid row).
Proof. unfold tab_entries. by rewrite map_lookup_imap. Qed.

Lemma lookup_tab_entries_Some t id row c :
  log_entries t !! id = Some row → row_cid row = cid_to_bytes c →
  tab_entries t !! id = Some (mkAbs (row_ts row) c (row_sig row) (parent_set t id)).
Proof. intros Hr Hc. by rewrite lookup_tab_entries, Hr; simpl; rewrite Hc, cid_roundtrip. Qed.

Lemma is_Some_tab_entries t id :
  wf_tables t → is_Some (tab_entries t !! id) ↔ is_Some (log_entries t !! id).
Proof.
  intros (He & _). rewrite lookup_tab_entries. destruct (log_entries t !! id) as [row|] eqn:E; simpl; [|done].
  destruct (He _ _ E) as (_ & c & ->). by rewrite cid_roundtrip.
Qed.

(** ** The statements on the abstract log *)

Definition add_parents (id : LogEntryId) (cs : list Cid) (t : Tables) : Tables :=
  foldl (λ t c, insert_parent id (cid_to_bytes c) t) t cs.

Lemma add_parents_spec id cs t :
  log_entries (add_parents id cs t) = log_entries t ∧
  group_tips (add_parents id cs t) = group_tips t ∧
  (NoDup (log_entry_parents t) → NoDup (log_entry_parents (add_parents id cs t))) ∧
  ∀ x, x ∈ log_entry_parents (add_parents id cs t) ↔
    x ∈ log_entry_parents t ∨ ∃ c, c ∈ cs ∧ x = (id, cid_to_bytes c).
Proof.
  revert t. induction cs as [|c cs IH]; intros t; simpl.
  - split_and!; [done..|]. intros x. set_solver.
  - destruct (IH (insert_parent id (cid_to_bytes c) t)) as (-> & -> & Hnd & Hin).
    assert (Hone : ∀ x, x ∈ log_entry_parents (insert_parent id (cid_to_bytes c) t) ↔
      x ∈ log_entry_parents t ∨ x = (id, cid_to_bytes c)).
    { intros x. unfold insert_parent. case_bool_decide; simpl; set_solver. }
    split_and!; [unfold insert_parent; by case_bool_decide..| |].
    { intros Ht. apply Hnd. unfold insert_parent. case_bool_decide as Hc; [done|]. simpl.
      apply NoDup_app. split_and!; [done| |apply NoDup_singleton].
      by intros x Hx ->%list_elem_of_singleton. }
    intros x. rewrite Hin, Hone. setoid_rewrite elem_of_cons. naive_solver.
Qed.

Lemma tab_tips_ext t t' : group_tips t' = group_tips t → tab_tips t' = tab_tips t.
Proof. intros H. unfold tab_tips, tip_rows. by rewrite H. Qed.

Lemma tab_entries_ext t t' :
  log_entries t' = log_entries t → log_entry_parents t' = log_entry_parents t →
  tab_entries t' = tab_entries t.
Proof. intros H1 H2. unfold tab_entries, parent_set, parent_rows. by rewrite H1, H2. Qed.

(** The rows an insertion writes for an entry. *)
Definition with_entry (id : LogEntryId) (e : LogEntry) (t : Tables) : Tables :=
  add_parents id (parent_cids e)
    (mkTables (<[ id := mkRow (wall_ms (hlc_timestamp e)) (cid_to_bytes (article_cid e))
                          (operator_signature e) ]> (log_entries t))
       (log_entry_parents t) (group_tips t)).

Lemma with_entry_wf id e t : wf_tables t → wf_entry e → wf_tables (with_entry id e t).
Proof.
  intros (He & Hp & Hnd & Ht & Hnp) Hw. unfold with_entry.
  match goal with |- context [add_parents id ?cs ?t0] =>
    destruct (add_parents_spec id cs t0) as (Hle & Hgt & Hnp' & Hin) end.
  unfold wf_tables. rewrite Hle, Hgt. simpl. split_and!; [| |done|done|by apply Hnp'].
  - intros id' row. destruct (decide (id' = id)) as [->|Hne].
    + rewrite lookup_insert_eq. intros [= <-]. simpl. split; [|eauto].
      unfold wf_entry, in_u64 in Hw. lia.
    + rewrite lookup_insert_ne by done. apply He.
  - intros id' pb [Hold|(c & _ & [= -> ->])]%Hin; simpl in *.
    + destruct (Hp _ _ Hold) as [? ?]. split; [done|].
      destruct (decide (id' = id)) as [->|]; [by rewrite lookup_insert_eq|by rewrite lookup_insert_ne].
    + split; [eauto|]. by rewrite lookup_insert_eq.
Qed.

Lemma with_entry_tips id e t : tab_tips (with_entry id e t) = tab_tips t.
Proof.
  apply tab_tips_ext. unfold with_entry.
  by match goal with |- context [add_parents id ?cs ?t0] =>
    destruct (add_parents_spec id cs t0) as (_ & -> & _) end.
Qed.

Lemma with_entry_entries id e t :
  wf_tables t → wf_entry e → log_entries t !! id = None →
  tab_entries (with_entry id e t) = <[ id := entry_view e ]> (tab_entries t).
Proof.
  intros Hwf Hw Hnone. pose proof (with_entry_wf id e t Hwf Hw) as Hwf'.
  assert (Hset : ∀ id', parent_set (with_entry id e t) id' =
    if decide (id' = id) then list_to_set (parent_cids e) else parent_set t id').
  { intros id'. apply set_eq. intros c. rewrite elem_of_parent_set by done.
    unfold with_entry. rewrite (proj2 (proj2 (proj2 (add_parents_spec _ _ _)))). simpl.
    case_decide as Hid.
    - subst id'. rewrite elem_of_list_to_set. split.
      + intros [Hold|(c' & Hc' & [= Heq])]; [|by apply cid_to_bytes_inj in Heq as ->].
        destruct Hwf as (_ & Hp & _). destruct (Hp _ _ Hold) as [_ [? ?]]. congruence.
      + eauto.
    - rewrite elem_of_parent_set by done. naive_solver. }
  apply map_eq. intros id'. rewrite lookup_tab_entries, Hset.
  change (log_entries (with_entry id e t)) with
    (log_entries (add_parents id (parent_cids e) (mkTables (<[ id := mkRow
       (wall_ms (hlc_timestamp e)) (cid_to_bytes (article_cid e)) (operator_signature e) ]>
       (log_entries t)) (log_entry_parents t) (group_tips t)))).
  rewrite (proj1 (add_parents_spec _ _ _)). cbn [log_entries].
  destruct (decide (id' = id)) as [->|Hne].
  - rewrite !lookup_insert_eq. simpl. by rewrite cid_roundtrip.
  - rewrite !lookup_insert_ne by done. by rewrite lookup_tab_entries.
Qed.

(** The tip statements of an advance. *)
Definition with_tip (g : GroupName) (parents : list LogEntryId) (new_tip : LogEntryId)
    (t : Tables) : Tables :=
  insert_tip (as_str g) (id_bytes new_tip) (delete_tips (as_str g) parents t).

Lemma delete_tips_nil g t : delete_tips g [] t = t.
Proof.
  destruct t as [es ps ts]. unfold delete_tips; cbn [log_entries log_entry_parents group_tips].
  rewrite forallb_filter_id; [done|]. apply forallb_spec, Forall_forall. intros row _.
  rewrite (bool_decide_eq_false_2 (_ ∈ _)) by apply not_elem_of_nil. by rewrite andb_false_r.
Qed.

Lemma elem_of_delete_tips g parents t row :
  row ∈ group_tips (delete_tips g parents t) ↔
  row ∈ group_tips t ∧ ¬ (row.1 = g ∧ row.2 ∈ id_bytes <$> parents).
Proof.
  unfold delete_tips; simpl. rewrite elem_of_list_filter, negb_true_iff, andb_false_iff.
  rewrite !bool_decide_eq_false. destruct (decide (row.1 = g)); naive_solver.
Qed.

Lemma NoDup_list_filter {A} (f : A → bool) l : NoDup l → NoDup (List.filter f l).
Proof. rewrite !NoDup_ListNoDup. apply List.NoDup_filter. Qed.

Lemma elem_of_with_tip g parents t new_tip row :
  row ∈ group_tips (with_tip g parents new_tip t) ↔
  row = (as_str g, id_bytes new_tip) ∨
  (row ∈ group_tips t ∧ ¬ (row.1 = as_str g ∧ row.2 ∈ id_bytes <$> parents)).
Proof.
  rewrite <- elem_of_delete_tips. unfold with_tip, insert_tip. case_bool_decide; [|simpl]; set_solver.
Qed.

Lemma with_tip_wf g parents t new_tip :
  wf_tables t → wf_id new_tip → wf_tables (with_tip g parents new_tip t).
Proof.
  intros (He & Hp & Hnd & Ht & Hnp) Hid.
  assert (Hkeep : log_entries (with_tip g parents new_tip t) = log_entries t ∧
    log_entry_parents (with_tip g parents new_tip t) = log_entry_parents t).
  { unfold with_tip, insert_tip. by case_bool_decide. }
  destruct Hkeep as [Hk1 Hk2]. unfold wf_tables. rewrite Hk1, Hk2. split_and!; [done..| | |done].
  - unfold with_tip, insert_tip. pose proof (NoDup_list_filter (λ row, negb (bool_decide (row.1 = as_str g) &&
      bool_decide (row.2 ∈ id_bytes <$> parents))) _ Hnd).
    case_bool_decide as Hin; simpl; [done|].
    apply NoDup_app. split_and!; [done| |apply NoDup_singleton].
    intros x Hx ->%list_elem_of_singleton. by apply Hin.
  - intros g' b [[= _ ->]|[Hin _]]%elem_of_with_tip; [done|by eapply Ht].
Qed.

Lemma with_tip_entries g parents t new_tip :
  tab_entries (with_tip g parents new_tip t) = tab_entries t.
Proof. apply tab_entries_ext; unfold with_tip, insert_tip; by case_bool_decide. Qed.

Lemma with_tip_tips g parents t new_tip g' :
  tab_tips (with_tip g parents new_tip t) g' =
  if decide (g' = g) then (tab_tips t g ∖ list_to_set parents) ∪ {[ new_tip ]} else tab_tips t g'.
Proof.
  apply set_eq. intros id. rewrite elem_of_tab_tips, elem_of_with_tip. simpl.
  assert (Hpar : id_bytes id ∈ id_bytes <$> parents ↔ id ∈ parents).
  { rewrite list_elem_of_fmap. destruct id as [b]. split; [|by exists (mkId b)].
    intros ([b'] & ? & ?). by simplify_eq/=. }
  rewrite Hpar. case_decide as Hg.
  - subst. rewrite elem_of_union, elem_of_difference, elem_of_tab_tips, elem_of_singleton,
      elem_of_list_to_set. destruct id, new_tip. naive_solver.
  - rewrite elem_of_tab_tips. split; [|].
    + intros [[= Heq _]|[? _]]; [by apply (inj as_str) in Heq|done].
    + intros ?. right. split; [done|]. intros [Heq _]. by apply Hg, (inj as_str).
Qed.

(** ** The methods meet the contract *)

(** The database as seen by one method call: only [faults] moves before the
    commit. *)
Lemma outcome_round_trip {A} (k : () → prog SqlDb StorageError A) db Q X :
  st_inv db → (¬ reliable db → X DB_ERROR) →
  (∀ db', committed db' = committed db → (reliable db → reliable db') → outcome db' (k tt) Q X) →
  outcome db (mbind k round_trip) Q X.
Proof.
  intros Hi HX Hk. eapply (outcome_bind _ _ _ (λ _ db', committed db' = committed db)).
  - destruct db as [t [|[] fs]]; unfold outcome, round_trip, same_log; simpl in *.
    + by split_and!.
    + rewrite Forall_cons in *. split_and!; [done|naive_solver|done|done|naive_solver].
    + rewrite Forall_cons. by split_and!; [|intros [_ ?]|..].
  - intros [] db' _ Hr _ Hc. by apply Hk.
Qed.

Lemma outcome_commit t db Q X :
  wf_tables t → st_inv db → (¬ reliable db → X DB_ERROR) → (∀ fs, Q tt (mkDb t fs)) →
  outcome db (commit t) Q X.
Proof.
  intros Hwf Hi HX HQ. apply outcome_round_trip; [done|done|]. intros db' Hc Hr.
  unfold outcome, install. by split_and!.
Qed.

Lemma outcome_tables {A} (k : Tables → prog SqlDb StorageError A) db Q X :
  outcome db (k (committed db)) Q X → outcome db (mbind k tables) Q X.
Proof. done. Qed.

Lemma outcome_begin {A} (k : Tables → prog SqlDb StorageError A) db Q X :
  st_inv db → (¬ reliable db → X DB_ERROR) →
  (∀ db', committed db' = committed db → (reliable db → reliable db') →
     outcome db' (k (committed db)) Q X) →
  outcome db (mbind k begin_tx) Q X.
Proof.
  intros Hi HX Hk.
  apply outcome_assoc, outcome_round_trip; [done|done|]. intros db' Hc Hr.
  specialize (Hk db' Hc Hr). unfold outcome, mbind, prog_bind, tables in *. by rewrite Hc.
Qed.

Lemma outcome_insert_parents {A} id cs t (k : Tables → prog SqlDb StorageError A) db Q X :
  st_inv db → (¬ reliable db → X DB_ERROR) →
  (∀ db', committed db' = committed db → (reliable db → reliable db') →
     outcome db' (k (add_parents id cs t)) Q X) →
  outcome db (mbind k (insert_parents id cs t)) Q X.
Proof.
  revert t db. induction cs as [|c cs IH]; intros t db Hi HX Hk; simpl.
  - by apply (Hk db).
  - apply outcome_assoc, outcome_round_trip; [done|done|]. intros db' Hc Hr.
    apply IH; [simpl; by rewrite Hc|auto|]. intros db'' Hc' Hr'. apply Hk; [congruence|auto].
Qed.

(** The first half of both insertions: it stops at a duplicate or hands over the
    tables with the entry's rows. *)
Lemma outcome_insert_in_tx {A} id e (k : Tables → prog SqlDb StorageError A) db Q :
  st_inv db → wf_entry e →
  (∀ db', committed db' = committed db → (reliable db → reliable db') →
     log_entries (committed db) !! id = None →
     outcome db' (k (with_entry id e (committed db))) Q (insert_fault db id e)) →
  outcome db (mbind k (insert_in_tx id e)) Q (insert_fault db id e).
Proof.
  intros Hi He Hk. unfold insert_in_tx.
  destruct (i64_try_from (wall_ms (hlc_timestamp e))) as [ts|] eqn:Ets; unfold i64_try_from in Ets.
  - assert (Hf : ¬ reliable db → insert_fault db id e DB_ERROR) by (right; by split; [left|]).
    break_if; simplify_eq. apply outcome_assoc, outcome_begin; [done|done|]. intros db1 Hc1 Hr1.
    apply outcome_assoc, outcome_round_trip; [simpl; by rewrite Hc1|tauto|]. intros db2 Hc2 Hr2.
    unfold insert_row. case_bool_decide as Hid.
    + apply outcome_bind_throw; [simpl; by rewrite Hc2, Hc1|]. left. split; [done|].
      simpl. by apply is_Some_tab_entries.
    + apply eq_None_not_Some in Hid. apply outcome_insert_parents; [simpl; by rewrite Hc2, Hc1|tauto|].
      intros db3 Hc3 Hr3. apply Hk; [congruence|auto|done].
  - break_if; [done|]. to_prop. apply outcome_bind_throw; [done|]. right. simpl.
    split; [right; lia|done].
Qed.

Lemma outcome_advance_in_tx {A} g parents new_tip t (k : Tables → prog SqlDb StorageError A) db Q X :
  st_inv db → (¬ reliable db → X DB_ERROR) →
  (∀ db', committed db' = committed db → (reliable db → reliable db') →
     outcome db' (k (with_tip g parents new_tip t)) Q X) →
  outcome db (mbind k (advance_in_tx g parents new_tip t)) Q X.
Proof.
  intros Hi HX Hk. unfold advance_in_tx. case_bool_decide as Hp.
  - subst. apply outcome_assoc, outcome_bind_ret, outcome_assoc, outcome_round_trip; [done|done|].
    intros db' Hc Hr. specialize (Hk db' Hc Hr). unfold with_tip in Hk.
    by rewrite delete_tips_nil in Hk.
  - apply outcome_assoc, outcome_assoc, outcome_round_trip; [done|done|]. intros db1 Hc1 Hr1.
    apply outcome_assoc, outcome_round_trip; [simpl; by rewrite Hc1|tauto|]. intros db2 Hc2 Hr2.
    apply (Hk db2); [congruence|auto].
Qed.

Lemma tips_from_rows_Ok rows :
  Forall (λ b, length b = 32%nat) rows → tips_from_rows rows = Ok (mkId <$> rows).
Proof.
  induction 1 as [|b rows Hb Hrows IH]; [done|]. simpl. rewrite Hb. simpl. by rewrite IH.
Qed.

Lemma cids_from_rows_Ok (rows : list bytes) :
  Forall (λ b, ∃ c, b = cid_to_bytes c) rows →
  cids_from_rows rows = Ok (omap cid_try_from rows).
Proof.
  induction 1 as [|b rows [c ->] Hrows IH]; [done|]. simpl.
  unfold cid_from_bytes. rewrite cid_roundtrip. simpl. by rewrite IH.
Qed.

Lemma NoDup_omap_parsed (rows : list bytes) :
  NoDup rows → Forall (λ b, ∃ c, b = cid_to_bytes c) rows → NoDup (omap cid_try_from rows).
Proof.
  induction 1 as [|b rows Hb Hnd IH]; [constructor|]. intros [[c ->] Hrows]%Forall_cons. simpl.
  rewrite cid_roundtrip. constructor; [|by apply IH].
  intros (b' & Hb' & Hc)%list_elem_of_omap. rewrite Forall_forall in Hrows.
  destruct (Hrows b' Hb') as [c' ->]. rewrite cid_roundtrip in Hc. by simplify_eq.
Qed.

Lemma select_parents_Ok t id :
  wf_tables t → ∃ cs, cids_from_rows (select_parents id t) = Ok cs ∧
    list_to_set cs = parent_set t id ∧ NoDup cs.
Proof.
  intros (_ & Hp & _ & _ & Hnp). unfold select_parents. fold (parent_rows t id).
  exists (omap cid_try_from (row_order (parent_rows t id))). split_and!.
  - apply cids_from_rows_Ok. rewrite row_order_perm. apply Forall_forall.
    intros pb Hpb%elem_of_parent_rows. by apply (Hp id pb).
  - unfold parent_set. by rewrite row_order_perm.
  - rewrite row_order_perm. apply NoDup_omap_parsed; [|apply Forall_forall].
    + apply NoDup_fmap_2_strong; [|by apply NoDup_list_filter].
      intros [i1 b1] [i2 b2] [_ H1]%elem_of_list_filter [_ H2]%elem_of_list_filter Heq.
      to_prop. by simplify_eq/=.
    + intros pb Hpb%elem_of_parent_rows. by apply (Hp id pb).
Qed.

Lemma select_tips_Ok t g :
  wf_tables t → ∃ ids, tips_from_rows (select_tips (as_str g) t) = Ok ids ∧ NoDup ids ∧
    list_to_set ids = tab_tips t g ∧ length ids = length (select_tips (as_str g) t).
Proof.
  intros (_ & _ & Hnd & Ht & _). unfold select_tips. fold (tip_rows t (as_str g)).
  exists (mkId <$> row_order (tip_rows t (as_str g))). split_and!.
  - apply tips_from_rows_Ok. rewrite row_order_perm. apply Forall_forall.
    intros b Hb%elem_of_tip_rows. by apply (Ht (as_str g)).
  - rewrite row_order_perm. apply (NoDup_fmap_2 _). unfold tip_rows.
    apply NoDup_fmap_2_strong; [|by apply NoDup_list_filter].
    intros [g1 b1] [g2 b2] [_ H1]%elem_of_list_filter [_ H2]%elem_of_list_filter Heq.
    to_prop. by simplify_eq/=.
  - unfold tab_tips. by rewrite row_order_perm.
  - by rewrite length_fmap.
Qed.

(** The writing methods. *)
Lemma sql_writes_ok :
  (∀ id e db, st_inv db → wf_entry e →
    outcome db (sql_insert_entry id e)
      (λ _ s', inserted db s' id e ∧ ∀ g, tips_of s' g = tips_of db g) (insert_fault db id e)) ∧
  (∀ g ps t db, st_inv db → wf_id t →
    outcome db (sql_advance_tips g ps t)
      (λ _ s', entries_of s' = entries_of db ∧ advanced db s' g ps t) (backend_fault db)) ∧
  (∀ id e g ps t db, st_inv db → wf_entry e → wf_id t →
    outcome db (sql_insert_entry_and_advance_tips id e g ps t)
      (λ _ s', inserted db s' id e ∧ advanced db s' g ps t) (insert_fault db id e)).
Proof.
  assert (Hif : ∀ db id e, ¬ reliable db → insert_fault db id e DB_ERROR)
    by (intros; right; by split; [left|]).
  assert (Hnone : ∀ db id, st_inv db → log_entries (committed db) !! id = None →
    entries_of db !! id = None).
  { intros db id Hi Hid. apply eq_None_not_Some. intros Hs. apply is_Some_tab_entries in Hs; [|done].
    by rewrite Hid in Hs. }
  split_and!.
  - intros id e db Hi He. apply outcome_insert_in_tx; [done..|]. intros db' Hc Hr Hid.
    apply outcome_commit; [by apply with_entry_wf|simpl; by rewrite Hc|intros; apply Hif; tauto|].
    intros fs. unfold inserted. simpl. rewrite with_entry_tips, with_entry_entries by done.
    split_and!; [by apply Hnone|done..].
  - intros g ps t db Hi Ht. apply outcome_begin; [done|by intros; split|]. intros db1 Hc1 Hr1.
    apply outcome_advance_in_tx; [simpl; by rewrite Hc1|intros; split; [tauto|done]|].
    intros db2 Hc2 Hr2. apply outcome_commit;
      [by apply with_tip_wf|simpl; by rewrite Hc2, Hc1|intros; split; [tauto|done]|].
    intros fs. split; simpl; [apply with_tip_entries|]. intros g'. apply with_tip_tips.
  - intros id e g ps t db Hi He Ht. apply outcome_insert_in_tx; [done..|]. intros db1 Hc1 Hr1 Hid.
    apply outcome_advance_in_tx; [simpl; by rewrite Hc1|intros; apply Hif; tauto|].
    intros db2 Hc2 Hr2. apply outcome_commit;
      [by apply with_tip_wf, Ht; apply with_entry_wf|simpl; by rewrite Hc2, Hc1
      |intros; apply Hif; tauto|].
    intros fs. unfold inserted. simpl. rewrite with_tip_entries, with_entry_entries by done.
    split_and!; [by apply Hnone|done|]. intros g'. simpl.
    by rewrite with_tip_tips, with_entry_tips.
Qed.

(** The rows [set_tips] leaves. *)
Definition with_tips (g : GroupName) (tips : list LogEntryId) (t : Tables) : Tables :=
  mkTables (log_entries t) (log_entry_parents t)
    (group_tips (delete_group (as_str g) t) ++ ((λ id, (as_str g, id_bytes id)) <$> tips)).

Lemma elem_of_with_tips g tips t g' b :
  (g', b) ∈ group_tips (with_tips g tips t) ↔
  if decide (g' = as_str g) then mkId b ∈ tips else (g', b) ∈ group_tips t.
Proof.
  unfold with_tips, delete_group; simpl.
  rewrite elem_of_app, elem_of_list_filter, list_elem_of_fmap, negb_true_iff, bool_decide_eq_false.
  simpl. case_decide as Hg; split.
  - intros [[_ ?]|([b'] & [= -> ->] & ?)]; done.
  - intros Hin. right. exists (mkId b). by rewrite Hg.
  - intros [[? _]|([b'] & [= ? ?] & ?)]; done.
  - naive_solver.
Qed.

Lemma with_tips_wf g tips t :
  wf_tables t → NoDup tips → Forall wf_id tips → wf_tables (with_tips g tips t).
Proof.
  intros (He & Hp & Hn & Ht & Hnp) Hnd Hwf. split_and!; [done..| | |done].
  - apply NoDup_app. split_and!; [by apply NoDup_list_filter| |].
    + intros [g' b] [_ Hne]%elem_of_list_filter ([b'] & [= -> _] & _)%list_elem_of_fmap.
      simpl in Hne. by rewrite bool_decide_eq_true_2 in Hne.
    + apply NoDup_fmap_2; [|done]. by intros [] [] [= ->].
  - intros g' b Hin%elem_of_with_tips. case_decide; [|by eapply Ht].
    rewrite Forall_forall in Hwf. by apply Hwf in Hin.
Qed.

Lemma with_tips_tips g tips t g' :
  tab_tips (with_tips g tips t) g' =
  if decide (g' = g) then list_to_set tips else tab_tips t g'.
Proof.
  apply set_eq. intros [b]. rewrite elem_of_tab_tips. cbn [id_bytes]. rewrite elem_of_with_tips.
  destruct (decide (g' = g)) as [->|Hg].
  - rewrite decide_True by done. by rewrite elem_of_list_to_set.
  - rewrite decide_False by (by intros ?%(inj as_str)). by rewrite elem_of_tab_tips.
Qed.

Lemma sql_set_tips_ok g tips db :
  st_inv db → NoDup tips → Forall wf_id tips →
  outcome db (sql_set_tips g tips)
    (λ _ s', entries_of s' = entries_of db ∧
       ∀ g', tips_of s' g' = if decide (g' = g) then list_to_set tips else tips_of db g')
    (backend_fault db).
Proof.
  intros Hi Hnd Hwf. pose proof (with_tips_wf g tips _ Hi Hnd Hwf) as Hwf'.
  assert (Hend : ∀ db', committed db' = committed db → (reliable db → reliable db') →
    outcome db' (commit (with_tips g tips (committed db))) (λ _ s', entries_of s' = entries_of db ∧
       ∀ g', tips_of s' g' = if decide (g' = g) then list_to_set tips else tips_of db g')
    (backend_fault db)).
  { intros db' Hc Hr. apply outcome_commit; [done|simpl; by rewrite Hc|intros; split; [tauto|done]|].
    intros fs. split; [by apply tab_entries_ext|apply with_tips_tips]. }
  apply outcome_begin; [done|by intros; split|]. intros db1 Hc1 Hr1.
  apply outcome_round_trip; [simpl; by rewrite Hc1|intros; split; [tauto|done]|]. intros db2 Hc2 Hr2.
  cbv zeta. case_bool_decide as Hnil.
  - subst. unfold with_tips in Hend. simpl in Hend. rewrite app_nil_r in Hend.
    apply Hend; [congruence|tauto].
  - apply outcome_round_trip; [simpl; by rewrite Hc2, Hc1|intros; split; [tauto|done]|].
    intros db3 Hc3 Hr3. unfold insert_tips. rewrite bool_decide_eq_true_2 by apply Hwf'.
    apply Hend; [congruence|tauto].
Qed.

(** What the columns lose and the keys add: the HLC is its wall-clock part, and
    the parents are distinct. *)
Definition from_row (e : LogEntry) : Prop :=
  logical (hlc_timestamp e) = 0 ∧ node_id (hlc_timestamp e) = replicate 8 0 ∧
  NoDup (parent_cids e).

(** The reading methods. *)
Lemma sql_reads_ok id g db :
  st_inv db →
  outcome db (sql_get_entry id) (λ r s', same_log db s' ∧ entry_view <$> r = entries_of db !! id ∧
    ∀ e, r = Some e → from_row e) (backend_fault db) ∧
  outcome db (sql_get_parent_cids id) (λ r s', same_log db s' ∧
    list_to_set (C := gset Cid) <$> r = ae_parents <$> (entries_of db !! id)) (backend_fault db) ∧
  outcome db (sql_list_tips g) (λ l s', same_log db s' ∧ NoDup l ∧ list_to_set l = tips_of db g)
    (backend_fault db).
Proof.
  intros Hi. pose proof Hi as (He & _).
  assert (Hsame : ∀ db', committed db' = committed db → same_log db db').
  { intros db' Hc. unfold same_log. simpl. by rewrite Hc. }
  destruct (select_parents_Ok _ id Hi) as (cs & Hcs & Hset & Hcsnd).
  split_and!; (apply outcome_round_trip; [done|by intros; split|]; intros db1 Hc1 Hr1);
    apply outcome_tables; rewrite Hc1.
  - destruct (log_entries (committed db) !! id) as [row|] eqn:Er.
    + destruct (He _ _ Er) as (Hts & c & Hrc). unfold cid_from_bytes. rewrite Hrc, cid_roundtrip.
      apply outcome_bind_lift, outcome_round_trip;
        [simpl; by rewrite Hc1|intros; split; [tauto|done]|]. intros db2 Hc2 Hr2.
      apply outcome_tables. rewrite Hc2, Hc1, Hcs. apply outcome_bind_lift.
      destruct (Z.ltb_spec (row_ts row) 0); [lia|].
      apply outcome_ret; [simpl; by rewrite Hc2, Hc1|]. split; [apply Hsame; congruence|].
      simpl. rewrite (lookup_tab_entries_Some _ _ _ c) by done. unfold entry_view. simpl.
      rewrite Hset. split; [done|]. by intros e [= <-].
    + apply outcome_ret; [simpl; by rewrite Hc1|]. split; [by apply Hsame|].
      simpl. by rewrite lookup_tab_entries, Er.
  - destruct (log_entries (committed db) !! id) as [row|] eqn:Er.
    + destruct (He _ _ Er) as (Hts & c & Hrc).
      apply outcome_round_trip; [simpl; by rewrite Hc1|intros; split; [tauto|done]|]. intros db2 Hc2 Hr2.
      apply outcome_tables. rewrite Hc2, Hc1, Hcs. apply outcome_bind_lift.
      apply outcome_ret; [simpl; by rewrite Hc2, Hc1|]. split; [apply Hsame; congruence|].
      simpl. rewrite (lookup_tab_entries_Some _ _ _ c) by done. simpl. by rewrite Hset.
    + apply outcome_ret; [simpl; by rewrite Hc1|]. split; [by apply Hsame|].
      simpl. by rewrite lookup_tab_entries, Er.
  - destruct (select_tips_Ok _ g Hi) as (ids & -> & Hnd & Hids & _).
    apply outcome_lift; [simpl; by rewrite Hc1|]. split_and!; [by apply Hsame|done..].
Qed.

(** [SqliteLogStorage] implements the contract of the trait. *)
#[export] Instance sql_laws : LogStorageLaws SqlDb.
Proof.
  destruct sql_writes_ok as (Hins & Hadv & Hboth). split.
  - intros id db Hi. apply outcome_round_trip; [done|by intros; split|]. intros db' Hc Hr.
    apply outcome_tables. rewrite Hc. apply outcome_ret; [simpl; by rewrite Hc|].
    split; [unfold same_log; simpl; by rewrite Hc|].
    apply bool_decide_ext. symmetry. by apply is_Some_tab_entries.
  - intros id db Hi. eapply outcome_impl; [by apply (sql_reads_ok id (mkGroupName []))|naive_solver|done].
  - intros id db Hi. by apply (sql_reads_ok id (mkGroupName [])).
  - intros g db Hi. by apply (sql_reads_ok (mkId []) g).
  - intros g tips db. apply sql_set_tips_ok.
  - intros g ps t db. apply Hadv.
  - intros id e db. apply Hins.
  - intros id e g ps t db. apply Hboth.
  - intros g db Hi. apply outcome_round_trip; [done|by intros; split|]. intros db' Hc Hr.
    apply outcome_tables. rewrite Hc. cbv zeta.
    destruct (select_tips_Ok _ g Hi) as (ids & _ & Hnd & Hids & Hlen).
    destruct (Z.ltb_spec (Z.of_nat (length (select_tips (as_str g) (committed db)))) 0); [lia|].
    apply outcome_ret; [simpl; by rewrite Hc|]. split; [unfold same_log; simpl; by rewrite Hc|].
    simpl. rewrite <- Hids, <- Hlen. by rewrite size_list_to_set.
Qed.

(** C25. Both backends implement the storage contract: each operation either
    answers as the abstract log says and changes exactly what it should, or
    reports an error and leaves the log as it was.  For the SQL backend this
    holds whatever round trips fail, so no failed call leaves an entry without
    its parent edges or without its tip; and an operation on a database that
    does not fail only fails for an entry whose time does not fit a 64-bit
    signed column. *)
Theorem backends_implement_storage :
  LogStorageLaws MemLogStorage ∧ LogStorageLaws SqlDb.
Proof. split; apply _. Qed.

(** An entry with distinct parents written to the SQL backend and read back
    is the same entry for everything that identifies and authenticates it: same
    identifier, same signed bytes, same signature.  What does not survive is the
    HLC's logical counter and node, which read back as zero. *)
Theorem sql_entry_roundtrip id e db :
  st_inv db → reliable db → wf_entry e → storable e → NoDup (parent_cids e) →
  entries_of db !! id = None →
  ∃ db1 db2 e', sql_insert_entry id e db = (Ok tt, db1) ∧
    sql_get_entry id db1 = (Ok (Some e'), db2) ∧
    same_content e' e ∧ from_entry e' = from_entry e ∧ signed_bytes e' = signed_bytes e ∧
    hlc_timestamp e' = mkTs (wall_ms (hlc_timestamp e)) 0 (replicate 8 0).
Proof.
  intros Hi Hr He Hst Hnd Hnone.
  pose proof (proj1 sql_writes_ok id e db Hi He) as Hins. unfold outcome in Hins.
  destruct (sql_insert_entry id e db) as [[[]|err] db1].
  2:{ destruct Hins as (_ & _ & _ & [[_ [? ?]]|[[?|?] _]]); [congruence|done|done]. }
  destruct Hins as (Hi1 & Hr1 & [_ Hes] & _).
  pose proof (proj1 (sql_reads_ok id (mkGroupName []) db1 Hi1)) as Hget. unfold outcome in Hget.
  destruct (sql_get_entry id db1) as [[r|err] db2] eqn:Eget.
  2:{ destruct Hget as (_ & _ & _ & Hn & _). by destruct Hn; apply Hr1. }
  destruct Hget as (_ & _ & _ & Hview & Hrow). rewrite Hes, lookup_insert_eq in Hview.
  destruct r as [e'|]; [|done]. destruct (Hrow e' eq_refl) as (Hl & Hn & Hnd').
  injection Hview as Hw Ha Hs Hp.
  assert (Hsame : same_content e' e).
  { split_and!; [done..|]. apply NoDup_Permutation; [done..|]. intros c.
    rewrite <- !(elem_of_list_to_set (C := gset Cid)). by rewrite Hp. }
  exists db1, db2, e'. split_and!; [done..|by rewrite Hsame| |].
  - unfold signed_bytes, log_entry_canonical_bytes. destruct Hsame as (-> & -> & _ & ->). done.
  - destruct (hlc_timestamp e'); simpl in *. congruence.
Qed.

End Sqlite.

(** ** Concrete instances *)

Module SqlSamples.
Import ToyCrypto LogEntry.Samples.

(** An engine that returns rows in reverse order. *)
#[export] Instance toy_engine : SqlEngine :=
  {| row_order := @rev (list Z); row_order_perm l := Permutation_sym (Permutation_rev l) |}.

Lemma backends_implement_storage_witness :
  LogStorageLaws MemLogStorage ∧ LogStorageLaws SqlDb.
Proof. apply backends_implement_storage. Defined.

Lemma sql_entry_roundtrip_witness :
  ∃ db1 db2 e', sql_insert_entry (from_entry entry1) entry1 sql_new = (Ok tt, db1) ∧
    sql_get_entry (from_entry entry1) db1 = (Ok (Some e'), db2) ∧ from_entry e' = from_entry entry1.
Proof.
  destruct (sql_entry_roundtrip (from_entry entry1) entry1 sql_new) as
    (db1 & db2 & e' & H1 & H2 & _ & H3 & _).
  - apply sql_new_wf.
  - constructor.
  - by vm_compute.
  - by vm_compute.
  - apply NoDup_cons. split; [|apply NoDup_singleton].
    intros Hin%list_elem_of_singleton. discriminate Hin.
  - apply sql_new_empty.
  - exists db1, db2, e'. exact (conj H1 (conj H2 H3)).
Defined.

End SqlSamples.

End SqliteStorage.
