(* ===== verification/MsgIdMap.v ===== *)
(** The Message-ID map: [crates/core/src/msgid_map.rs] over the table of
    [crates/core/migrations/20260102_msgid_map.sql].

    [MsgIdStore] is the interface the ingest code uses and [MsgIdLaws] what it
    promises, on an abstract partial map; the SQL implementation is proved to
    keep the promise whatever the database's faults. *)

From S2P Require Import Prelude Bytes Crypto LogEntry Sql SqliteStorage.

Module MsgIdMap.
Import LogEntry SqliteStorage Sql.

Section Interface.
Context {lib : CidLib}.

Class MsgIdStore (M : Type) := {
  msgid_insert : bytes → Cid → prog M StorageError ();
  lookup_by_msgid : bytes → prog M StorageError (option Cid);
  lookup_by_cid : Cid → prog M StorageError (option bytes);
  delete_by_cid : Cid → prog M StorageError ()
}.

Class MsgIdView (M : Type) := {
  msgid_inv : M → Prop;
  msgid_reliable : M → Prop;
  msgids : M → gmap bytes Cid
}.

(** [m] yields a value and a map related by [Q], or fails as [X] allows and
    leaves the map. *)
Definition msgid_outcome {M A} `{MsgIdView M} (s : M) (m : prog M StorageError A)
    (Q : A → gmap bytes Cid → Prop) (X : Prop) : Prop :=
  match m s with
  | (Ok a, s') => msgid_inv s' ∧ (msgid_reliable s → msgid_reliable s') ∧ Q a (msgids s')
  | (Err _, s') =>
      msgid_inv s' ∧ (msgid_reliable s → msgid_reliable s') ∧ msgids s' = msgids s ∧
      (X ∨ ¬ msgid_reliable s)
  end.

Class MsgIdLaws (M : Type) `{MsgIdView M} `{MsgIdStore M} : Prop := {
  (** A new mapping is added, the same mapping is accepted again, and a
      different CID for a known Message-ID is refused. *)
  msgid_insert_ok mid c s : msgid_inv s →
    msgid_outcome s (msgid_insert mid c)
      (λ _ t, t = <[ mid := c ]> (msgids s) ∧ (msgids s !! mid = None ∨ msgids s !! mid = Some c))
      (∃ d, d ≠ c ∧ msgids s !! mid = Some d);
  lookup_by_msgid_ok mid s : msgid_inv s →
    msgid_outcome s (lookup_by_msgid mid) (λ r t, t = msgids s ∧ r = msgids s !! mid) False;
  lookup_by_cid_ok c s : msgid_inv s →
    msgid_outcome s (lookup_by_cid c)
      (λ r t, t = msgids s ∧
         match r with
         | Some mid => msgids s !! mid = Some c
         | None => ∀ mid, msgids s !! mid ≠ Some c
         end) False;
  delete_by_cid_ok c s : msgid_inv s →
    msgid_outcome s (delete_by_cid c)
      (λ _ t, ∀ mid, t !! mid = if decide (msgids s !! mid = Some c) then None else msgids s !! mid)
      False
}.

End Interface.

(** ** The SQL implementation *)

Section Sql.
Context {lib : CidLib} {engine : SqlEngine}.

(** [msgid_map(message_id TEXT PRIMARY KEY, cid BLOB)]. *)
Abbreviation MsgIdMap := (Pool (gmap bytes bytes)) (only parsing).

Definition db_error : () → StorageError := λ _, Database (lit "database error").
Definition COLLISION : StorageError := Database (lit "already mapped to a different CID").
Definition BAD_CID_BYTES : StorageError := Database (lit "invalid CID bytes").

Definition insert (message_id : bytes) (cid : Cid) : prog MsgIdMap StorageError () :=
  let cid_bytes := cid_to_bytes cid in
  tx ← prog_map_err db_error begin_tx;
  (* INSERT ... ON CONFLICT DO NOTHING *)
  _ ← prog_map_err db_error round_trip;
  match tx !! message_id with
  | None =>
      prog_map_err db_error (commit_tx (<[ message_id := cid_bytes ]> tx))
  | Some stored_bytes =>
      (* SELECT cid FROM msgid_map WHERE message_id = ? *)
      _ ← prog_map_err db_error round_trip;
      _ ← prog_map_err db_error (commit_tx tx);
      if bool_decide (stored_bytes = cid_bytes) then mret tt else throw COLLISION
  end.

Definition sql_lookup_by_msgid (message_id : bytes) : prog MsgIdMap StorageError (option Cid) :=
  row ← prog_map_err db_error (select (λ t : gmap bytes bytes, t !! message_id));
  match row with
  | None => mret None
  | Some b => match cid_try_from b with
              | Some c => mret (Some c)
              | None => throw BAD_CID_BYTES
              end
  end.

(** The Message-IDs of the rows with these CID bytes, in the engine's order. *)
Definition rows_with_cid (cid_bytes : bytes) (t : gmap bytes bytes) : list bytes :=
  row_order (filter (λ r : bytes * bytes, r.2 = cid_bytes) (map_to_list t)).*1.

Definition sql_lookup_by_cid (cid : Cid) : prog MsgIdMap StorageError (option bytes) :=
  prog_map_err db_error (select (λ t, head (rows_with_cid (cid_to_bytes cid) t))).

Definition sql_delete_by_cid (cid : Cid) : prog MsgIdMap StorageError () :=
  prog_map_err db_error
    (execute (filter (λ r : bytes * bytes, r.2 ≠ cid_to_bytes cid))).

#[export] Instance sql_msgid_store : MsgIdStore MsgIdMap := {|
  msgid_insert := insert;
  lookup_by_msgid := sql_lookup_by_msgid;
  lookup_by_cid := sql_lookup_by_cid;
  delete_by_cid := sql_delete_by_cid
|}.

(** Every row holds the bytes of a CID. *)
Definition rows_ok (t : gmap bytes bytes) : Prop :=
  ∀ mid b, t !! mid = Some b → ∃ c, b = cid_to_bytes c.

#[export] Instance sql_msgid_view : MsgIdView MsgIdMap := {|
  msgid_inv p := rows_ok (rows p);
  msgid_reliable := pool_reliable;
  msgids p := omap cid_try_from (rows p)
|}.

Context {laws : CidLaws lib}.

Lemma rows_ok_lookup t mid c :
  rows_ok t → omap (M := gmap bytes) cid_try_from t !! mid = Some c ↔ t !! mid = Some (cid_to_bytes c).
Proof.
  intros Hok. rewrite lookup_omap. destruct (t !! mid) as [b|] eqn:E; simpl; [|done].
  destruct (Hok mid b E) as [d ->]. rewrite cid_roundtrip.
  split; intros [= Heq]; [by subst|by apply cid_to_bytes_inj in Heq as ->].
Qed.

Lemma rows_ok_None t mid :
  rows_ok t → omap (M := gmap bytes) cid_try_from t !! mid = None ↔ t !! mid = None.
Proof.
  intros Hok. rewrite lookup_omap. destruct (t !! mid) as [b|] eqn:E; simpl; [|done].
  destruct (Hok mid b E) as [d ->]. by rewrite cid_roundtrip.
Qed.

(** A [db_outcome] that keeps the rows CID bytes is a [msgid_outcome]. *)
Lemma msgid_outcome_db {A : Type} (p : MsgIdMap) (m : prog MsgIdMap StorageError A)
    (Q : A → gmap bytes Cid → Prop) (X : Prop) (R : A → gmap bytes bytes → Prop) :
  rows_ok (rows p) → db_outcome p m R (λ _, X) →
  (∀ a t, R a t → rows_ok t ∧ Q a (omap cid_try_from t)) →
  msgid_outcome p m Q X.
Proof.
  unfold db_outcome, msgid_outcome. simpl. intros Hok.
  destruct (m p) as [[a|e] p'].
  - intros (Hr & HR) HQ. destruct (HQ _ _ HR). auto.
  - intros (Hr & -> & HX) _. auto.
Qed.

Lemma insert_db mid c p :
  db_outcome p (insert mid c)
    (λ _ t, t = <[ mid := cid_to_bytes c ]> (rows p) ∧
       (rows p !! mid = None ∨ rows p !! mid = Some (cid_to_bytes c)))
    (λ _, ∃ b, b ≠ cid_to_bytes c ∧ rows p !! mid = Some b).
Proof.
  unfold insert. cbv zeta.
  eapply (db_outcome_bind _ _ _ (λ t, t = rows p)); [auto with sql_db|].
  intros tx p1 H1 ->. apply db_outcome_trip. intros p2 H2.
  destruct (rows p !! mid) as [b|] eqn:E.
  - apply db_outcome_trip. intros p3 H3. eapply (db_outcome_bind _ _ _ (λ _, True)).
    { apply db_outcome_map_err. eapply db_outcome_impl; [eapply commit_tx_ok| |intros e H; exact H].
      intros [] t ->. split; [congruence|done]. }
    intros _ p4 H4 _. case_bool_decide as Hb.
    + apply db_outcome_ret. subst b. split; [|auto]. rewrite insert_id by done. congruence.
    + apply db_outcome_throw. eauto.
  - apply db_outcome_map_err. eapply db_outcome_impl; [eapply commit_tx_ok|naive_solver|intros e H; exact H].
Qed.

Lemma rows_with_cid_spec b t mid : mid ∈ rows_with_cid b t ↔ t !! mid = Some b.
Proof.
  unfold rows_with_cid. rewrite row_order_perm, list_elem_of_fmap.
  setoid_rewrite list_elem_of_filter. setoid_rewrite elem_of_map_to_list'. split.
  - intros ([mid' b'] & -> & <- & ?). done.
  - intros ?. by exists (mid, b).
Qed.

Lemma sql_insert_law (mid : bytes) (c : Cid) (p : MsgIdMap) : msgid_inv p →
  msgid_outcome p (msgid_insert mid c)
    (λ _ t, t = <[ mid := c ]> (msgids p) ∧ (msgids p !! mid = None ∨ msgids p !! mid = Some c))
    (∃ d, d ≠ c ∧ msgids p !! mid = Some d).
Proof.
  intros Hok. eapply msgid_outcome_db; [done| |].
  - eapply db_outcome_impl; [apply insert_db|intros a t H; exact H|].
    intros _ (b & Hne & Hb). destruct (Hok mid b Hb) as [d ->]. exists d.
    split; [by intros ->|]. by apply rows_ok_lookup.
  - intros _ t [-> Hold]. split.
    { intros mid' b [[<- <-]|[_ ?]]%lookup_insert_Some; eauto. }
    split; [|destruct Hold; [left; by apply rows_ok_None|right; by apply rows_ok_lookup]].
    apply map_eq. intros mid'. rewrite lookup_omap. destruct (decide (mid = mid')) as [->|].
    + rewrite !lookup_insert_eq. simpl. apply cid_roundtrip.
    + rewrite !lookup_insert_ne by done. simpl. by rewrite lookup_omap.
Qed.

Lemma sql_lookup_law (mid : bytes) (p : MsgIdMap) : msgid_inv p →
  msgid_outcome p (lookup_by_msgid mid) (λ r t, t = msgids p ∧ r = msgids p !! mid) False.
Proof.
  intros Hok.
  eapply (msgid_outcome_db _ _ _ _ (λ r t, t = rows p ∧ r = msgids p !! mid)); [done| |].
  - eapply (db_outcome_bind _ _ _ (λ row, row = rows p !! mid)).
    { auto with sql_db. }
    intros row p' Hp ->. destruct (rows p !! mid) as [b|] eqn:E.
    + destruct (Hok mid b E) as [d ->]. rewrite cid_roundtrip. apply db_outcome_ret.
      split; [done|]. symmetry. by apply rows_ok_lookup.
    + apply db_outcome_ret. split; [done|]. symmetry. by apply rows_ok_None.
  - intros r t [-> ->]. done.
Qed.

Lemma sql_lookup_by_cid_law (c : Cid) (p : MsgIdMap) : msgid_inv p →
  msgid_outcome p (lookup_by_cid c)
    (λ r t, t = msgids p ∧
       match r with
       | Some mid => msgids p !! mid = Some c
       | None => ∀ mid, msgids p !! mid ≠ Some c
       end) False.
Proof.
  intros Hok. eapply msgid_outcome_db; [done|apply db_outcome_map_err, select_ok|].
  intros r t [-> ->]. split_and!; [done|done|]. destruct (head _) as [mid|] eqn:E.
  - apply rows_ok_lookup; [done|]. apply rows_with_cid_spec.
    destruct (rows_with_cid _ _); simplify_eq/=. by left.
  - intros mid Hm. apply rows_ok_lookup in Hm; [|done]. apply rows_with_cid_spec in Hm.
    destruct (rows_with_cid _ _); [by apply not_elem_of_nil in Hm|done].
Qed.

Lemma sql_delete_law (c : Cid) (p : MsgIdMap) : msgid_inv p →
  msgid_outcome p (delete_by_cid c)
    (λ _ t, ∀ mid, t !! mid = if decide (msgids p !! mid = Some c) then None else msgids p !! mid)
    False.
Proof.
  intros Hok. eapply msgid_outcome_db; [done|apply db_outcome_map_err, execute_ok|].
  intros _ t ->. split.
  { intros mid b [Hb _]%map_lookup_filter_Some. eauto. }
  intros mid. rewrite lookup_omap, map_lookup_filter. destruct (decide _) as [Hm|Hm].
  - apply rows_ok_lookup in Hm as ->; [|done]. simpl. by rewrite option_guard_False by naive_solver.
  - simpl in *. rewrite lookup_omap in *. destruct (rows p !! mid) as [b|] eqn:E; simpl in *; [|done].
    destruct (Hok mid b E) as [d ->]. rewrite cid_roundtrip in Hm.
    rewrite option_guard_True; [done|]. intros ->%cid_to_bytes_inj. done.
Qed.

#[export] Instance sql_msgid_laws : MsgIdLaws MsgIdMap.
Proof.
  split; [apply sql_insert_law|apply sql_lookup_law|apply sql_lookup_by_cid_law|apply sql_delete_law].
Qed.

(** The SQL Message-ID map keeps the interface's promise: insertion is
    idempotent, refuses a second CID for a known Message-ID and is otherwise
    the only change; lookups in both directions answer from the map; deletion
    by CID removes exactly the Message-IDs of that CID; and an error, which only
    a collision or a database fault can cause, changes nothing. *)
Theorem sql_msgid_map_laws : MsgIdLaws MsgIdMap.
Proof. apply _. Qed.

End Sql.

Module MsgIdSamples.
Import ToyCrypto LogEntry.Samples SqlSamples.

Definition mid1 : bytes := lit "<one@example.com>".

Definition sql_msgids_new : Pool (gmap bytes bytes) := mkPool ∅ [].

Lemma rows_ok_empty : rows_ok ∅.
Proof. intros mid b. rewrite lookup_empty. intros [=]. Qed.

Lemma sql_msgid_map_laws_witness :
  ∃ p1 p2, msgid_insert mid1 cid_a sql_msgids_new = (Ok tt, p1) ∧
    lookup_by_msgid mid1 p1 = (Ok (Some cid_a), p2).
Proof.
  pose proof (msgid_insert_ok (MsgIdLaws := sql_msgid_map_laws) mid1 cid_a sql_msgids_new rows_ok_empty)
    as H1. unfold msgid_outcome in H1.
  destruct (msgid_insert mid1 cid_a sql_msgids_new) as [[[]|e] p1].
  - destruct H1 as (Hinv & Hrel & Hmap & _). exists p1.
    pose proof (lookup_by_msgid_ok (MsgIdLaws := sql_msgid_map_laws) mid1 p1 Hinv) as H2.
    unfold msgid_outcome in H2. destruct (lookup_by_msgid mid1 p1) as [[r|e] p2].
    + destruct H2 as (_ & _ & _ & ->). exists p2. rewrite Hmap, lookup_insert_eq. split; reflexivity.
    + destruct H2 as (_ & _ & _ & [[]|Hn]). destruct (Hn (Hrel (Forall_nil_2 _))).
  - destruct H1 as (_ & _ & _ & [(d & _ & Hd)|Hn]).
    + exfalso. cbn in Hd. rewrite lookup_omap, lookup_empty in Hd. discriminate Hd.
    + destruct (Hn (Forall_nil_2 _)).
Defined.

End MsgIdSamples.

End MsgIdMap.
