(* ===== verification/Ingest.v ===== *)
(** Accepting an article from a peer: [check_ingest] and the response lines of
    [crates/transit/src/peering/ingestion.rs], and the peering mode of
    [crates/transit/src/peering/mode_stream.rs].

    [check_ingest] is modelled against the interface of the Message-ID map.  The
    texts of its errors leave out the values the code interpolates. *)

From S2P Require Import Prelude Bytes Utf8 Validation Crypto LogEntry Sql SqliteStorage MsgIdMap Headers.

Module Ingest.
Import Utf8 Validation LogEntry MsgIdMap Headers.

Definition MAX_ARTICLE_BYTES : Z := 1048576.

Inductive IngestResult :=
| Accepted
| Duplicate
| Rejected (msg : bytes)
| TransientError (msg : bytes).

Definition MANDATORY : list bytes :=
  [lit "From"; lit "Date"; lit "Message-ID"; lit "Newsgroups"; lit "Subject"].

(** The loop over the mandatory headers. *)
Fixpoint check_headers (article_bytes : bytes) (names : list bytes) : IngestResult :=
  match names with
  | [] => Accepted
  | name :: rest =>
      if negb (has_header article_bytes name)
      then Rejected (lit "missing mandatory header: " ++ name)
      else check_headers article_bytes rest
  end.

(** ** Response lines *)

Definition ihave_response (r : IngestResult) : bytes :=
  match r with
  | Accepted => lit "235 Article transferred OK" ++ CRLF
  | Duplicate => lit "435 Duplicate" ++ CRLF
  | Rejected _ => lit "437 Article rejected" ++ CRLF
  | TransientError _ => lit "436 Transfer failed, try again later" ++ CRLF
  end.

Definition takethis_response (r : IngestResult) : bytes :=
  match r with
  | Accepted => lit "239 Article transferred OK" ++ CRLF
  | Duplicate => lit "438 Already have it" ++ CRLF
  | Rejected _ => lit "439 Article not wanted" ++ CRLF
  | TransientError _ => lit "431 Try sending it again later" ++ CRLF
  end.

Definition check_response (r : IngestResult) : bytes :=
  match r with
  | Accepted => lit "238 Send it" ++ CRLF
  | Duplicate => lit "438 Already have it" ++ CRLF
  | Rejected _ => lit "438 Article not wanted" ++ CRLF
  | TransientError _ => lit "431 Try sending it again later" ++ CRLF
  end.

Inductive PeeringMode := Ihave | Streaming.

Definition handle_mode_stream (current_mode : PeeringMode) : bytes * PeeringMode :=
  (lit "203 Streaming permitted" ++ CRLF, Streaming).

Definition capabilities_response : bytes :=
  render [lit "101 Capability list:"; lit "VERSION 2"; lit "IHAVE"; lit "STREAMING"; lit "."].

Definition check_mode_guard (mode : PeeringMode) : option bytes :=
  match mode with
  | Streaming => None
  | Ihave => Some (lit "401 This command is only allowed in streaming mode" ++ CRLF)
  end.

Definition takethis_mode_guard (mode : PeeringMode) : option bytes :=
  match mode with
  | Streaming => None
  | Ihave => Some (lit "500 Command not available in current mode" ++ CRLF)
  end.

Section Check.
Context {lib : CidLib} {M : Type} {store : MsgIdStore M}.

Definition check_ingest (envelope_msgid article_bytes : bytes) : prog M Panic IngestResult :=
  if negb (is_ok (validate_message_id envelope_msgid)) then
    mret (Rejected (lit "invalid envelope Message-ID format"))
  else if MAX_ARTICLE_BYTES <? len article_bytes then mret (Rejected (lit "article too large"))
  else
    key ← lift (extract_body_msgid article_bytes);
    let body_msgid := default [] key in
    if bool_decide (body_msgid = []) then mret (check_headers article_bytes MANDATORY)
    else λ s,
      match lookup_by_msgid body_msgid s with
      | (Err _, s') => (Ok (TransientError (lit "storage error during duplicate check")), s')
      | (Ok (Some _), s') => (Ok Duplicate, s')
      | (Ok None, s') => (Ok (check_headers article_bytes MANDATORY), s')
      end.

(** ** The contract *)

Context {view : MsgIdView M} {mlaws : MsgIdLaws M}.

(** The limits on what a peer may offer. *)
Definition offerable (envelope_msgid article_bytes : bytes) : Prop :=
  len envelope_msgid <= MAX_MSGID_BYTES ∧ msgid_spec envelope_msgid ∧
  len article_bytes <= MAX_ARTICLE_BYTES.

(** Every mandatory header is declared in the header section. *)
Definition complete (article_bytes : bytes) : Prop :=
  Forall (λ name, Exists (declares name) (header_section article_bytes)) MANDATORY.

Lemma check_headers_spec article names :
  match check_headers article names with
  | Accepted => Forall (λ name, Exists (declares name) (header_section article)) names
  | Rejected _ => ¬ Forall (λ name, Exists (declares name) (header_section article)) names
  | _ => False
  end.
Proof.
  induction names as [|name names IH]; simpl; [done|].
  destruct (has_header article name) eqn:E; simpl.
  - apply has_header_spec in E. destruct (check_headers article names); rewrite ?Forall_cons; tauto.
  - rewrite Forall_cons, <- has_header_spec, E. naive_solver.
Qed.

Lemma validate_message_id_spec id :
  is_ok (validate_message_id id) = true ↔ len id <= MAX_MSGID_BYTES ∧ msgid_spec id.
Proof.
  unfold validate_message_id. rewrite <- is_valid_message_id_spec.
  destruct (is_valid_message_id id), (Z.ltb_spec MAX_MSGID_BYTES (len id)); simpl; naive_solver lia.
Qed.

Lemma offerable_spec envelope article :
  offerable envelope article ↔
  is_ok (validate_message_id envelope) = true ∧ len article <= MAX_ARTICLE_BYTES.
Proof. unfold offerable. rewrite validate_message_id_spec. tauto. Qed.

(** The verdict on an offer within the limits when the database works. *)
Lemma check_ingest_verdict envelope article mid s :
  msgid_inv s → msgid_reliable s → offerable envelope article →
  extract_body_msgid article = Ok (Some mid) → mid ≠ [] →
  (check_ingest envelope article s).1 =
    Ok (if decide (is_Some (msgids s !! mid)) then Duplicate else check_headers article MANDATORY).
Proof.
  intros Hi Hrel [Hv Hlen]%offerable_spec Hext Hne. unfold check_ingest.
  rewrite Hv. cbn [negb]. destruct (Z.ltb_spec MAX_ARTICLE_BYTES (len article)); [lia|].
  unfold mbind, prog_bind, lift. rewrite Hext. cbn [default from_option id].
  rewrite bool_decide_eq_false_2 by done.
  pose proof (lookup_by_msgid_ok mid s Hi) as Hl. unfold msgid_outcome in Hl.
  destruct (lookup_by_msgid mid s) as [[r|e] s1]; [|by destruct Hl as (_ & _ & _ & [[]|?])].
  destruct Hl as (_ & _ & _ & ->). destruct (msgids s !! mid); [by rewrite decide_True|].
  rewrite decide_False; [done|]. by intros [].
Qed.

Lemma complete_accepted article : complete article → check_headers article MANDATORY = Accepted.
Proof.
  intros Hc. pose proof (check_headers_spec article MANDATORY) as H. fold (complete article) in H.
  by destruct (check_headers article MANDATORY).
Qed.

Lemma check_ingest_inv envelope article s r s' :
  msgid_inv s → check_ingest envelope article s = (r, s') → msgid_inv s'.
Proof.
  intros Hi. unfold check_ingest. destruct (negb _); [by intros [= <- <-]|].
  destruct (_ <? _); [by intros [= <- <-]|]. unfold mbind, prog_bind, lift.
  destruct (extract_body_msgid article) as [key|e]; [|by intros [= <- <-]].
  case_bool_decide; [by intros [= <- <-]|].
  pose proof (lookup_by_msgid_ok (default [] key) s Hi) as Hl. unfold msgid_outcome in Hl.
  destruct (lookup_by_msgid _ s) as [[[c|]|e] s1]; intros [= <- <-]; apply Hl.
Qed.

Lemma check_ingest_ok envelope article s r s' :
  msgid_inv s → check_ingest envelope article s = (r, s') →
  msgids s' = msgids s ∧
  match r with
  | Ok Accepted => offerable envelope article ∧ complete article ∧
      ∃ key, extract_body_msgid article = Ok key ∧
        ∀ mid, key = Some mid → mid = [] ∨ msgids s !! mid = None
  | Ok Duplicate => offerable envelope article ∧
      ∃ mid, extract_body_msgid article = Ok (Some mid) ∧ is_Some (msgids s !! mid)
  | Ok (Rejected _) => ¬ offerable envelope article ∨ ¬ complete article
  | Ok (TransientError _) => ¬ msgid_reliable s
  | Err e => extract_body_msgid article = Err e
  end.
Proof.
  intros Hi. unfold check_ingest. pose proof (offerable_spec envelope article) as Hoff.
  destruct (is_ok (validate_message_id envelope)); cbn [negb].
  2:{ intros [= <- <-]. split; [done|]. naive_solver. }
  destruct (Z.ltb_spec MAX_ARTICLE_BYTES (len article)) as [Hlen|Hlen].
  { intros [= <- <-]. split; [done|]. left. rewrite Hoff. lia. }
  apply proj2 in Hoff. specialize (Hoff (conj eq_refl Hlen)).
  unfold mbind, prog_bind, lift. destruct (extract_body_msgid article) as [key|e].
  2:{ by intros [= <- <-]. }
  pose proof (check_headers_spec article MANDATORY) as Hh. fold (complete article) in Hh.
  revert Hh. generalize (check_headers article MANDATORY) as verdict. intros verdict Hh.
  case_bool_decide as Hk; unfold mret, prog_ret.
  - intros [= <- <-]. split; [done|]. destruct verdict; [|done|by right|done].
    split; [done|]. split; [done|]. exists key. split; [done|]. intros mid ->. by left.
  - destruct key as [mid|]; [|done]. cbn [from_option id] in *.
    pose proof (lookup_by_msgid_ok mid s Hi) as Hl. unfold msgid_outcome in Hl.
    destruct (lookup_by_msgid mid s) as [[c|e] s1].
    + destruct Hl as (_ & _ & Hm & ->). destruct (msgids s !! mid) as [c|] eqn:E; intros [= <- <-].
      { split; [done|]. split; [done|]. exists mid. by rewrite E. }
      split; [done|]. destruct verdict; [|done|by right|done].
      split; [done|]. split; [done|]. exists (Some mid). split; [done|]. intros ? [= <-]. by right.
    + destruct Hl as (_ & _ & Hm & [[]|?]). by intros [= <- <-].
Qed.

(** [check_ingest] on every branch.  It changes no mapping.  It accepts only
    an offer within the limits whose body names a Message-ID that is not mapped
    yet (or none) and declares the five mandatory headers; it says duplicate
    only when the body's Message-ID, not the envelope's, is mapped; it rejects
    only an offer over the limits or an incomplete article; it asks to try again
    only when the database failed; and it panics only when the Message-ID
    extraction does. *)
Theorem check_ingest_spec envelope article s r s' :
  msgid_inv s → check_ingest envelope article s = (r, s') →
  msgids s' = msgids s ∧
  match r with
  | Ok Accepted => offerable envelope article ∧ complete article ∧
      ∃ key, extract_body_msgid article = Ok key ∧
        ∀ mid, key = Some mid → mid = [] ∨ msgids s !! mid = None
  | Ok Duplicate => offerable envelope article ∧
      ∃ mid, extract_body_msgid article = Ok (Some mid) ∧ is_Some (msgids s !! mid)
  | Ok (Rejected _) => ¬ offerable envelope article ∨ ¬ complete article
  | Ok (TransientError _) => ¬ msgid_reliable s
  | Err e => extract_body_msgid article = Err e
  end.
Proof. apply check_ingest_ok. Qed.

End Check.

Module IngestSamples.
Import ToyCrypto LogEntry.Samples SqliteStorage.SqlSamples MsgIdSamples HeaderSamples Sql.

Definition envelope : bytes := lit "<1@example.org>".

Definition known : Pool (gmap bytes bytes) := mkPool {[ envelope := cid_to_bytes cid_a ]} [].

Lemma known_inv : msgid_inv known.
Proof.
  intros mid b H. unfold known in H. cbn [rows] in H.
  apply lookup_singleton_Some in H as [_ <-]. exists cid_a. reflexivity.
Qed.

Lemma new_inv : msgid_inv sql_msgids_new.
Proof. exact rows_ok_empty. Qed.

Lemma check_ingest_spec_witness :
  (∃ mid, extract_body_msgid sample = Ok (Some mid) ∧ is_Some (msgids known !! mid)) ∧
  complete sample.
Proof.
  split.
  - destruct (check_ingest_spec envelope sample known (Ok Duplicate) known known_inv ltac:(vm_refl))
      as (_ & _ & Hd). exact Hd.
  - destruct (check_ingest_spec envelope sample sql_msgids_new (Ok Accepted) sql_msgids_new
      new_inv ltac:(vm_refl)) as (_ & _ & Hc & _). exact Hc.
Defined.

End IngestSamples.

End Ingest.
