(* ===== verification/IngestQueue.v ===== *)
(** The bounded ingestion queue: [crates/transit/src/peering/ingestion_queue.rs].

    Peering sessions call [try_enqueue] from many tasks while one drain task
    calls [recv].  Every atomic operation and every channel operation is one
    step ([sender_step], [recv_step]), and [step] interleaves them freely.  The
    [tokio] channel is a parameter ([Mpsc], [MpscLaws]).  The invariant of all
    reachable states gives the two high-water marks, first-in first-out delivery
    without loss and the meaning of the counters; a call returns after at most
    four steps of its own, and the receiver drains whatever is queued. *)

From S2P Require Import Prelude Bytes.

Module IngestQueue.

Record QueuedArticle := mkQueued { qa_bytes : bytes; qa_message_id : bytes }.

#[export] Instance queued_article_eq_dec : EqDecision QueuedArticle.
Proof. solve_decision. Defined.

(** [article.bytes.len() as u64]. *)
Definition article_bytes (a : QueuedArticle) : Z := Z.of_nat (length (qa_bytes a)).

Record QueueMetrics := mkMetrics {
  depth_current : Z;
  depth_max : Z;
  bytes_current : Z;
  bytes_max : Z;
  accepted_total : Z;
  rejected_full_total : Z;
}.

Definition metrics_new (max_depth max_bytes : Z) : QueueMetrics :=
  mkMetrics 0 max_depth 0 max_bytes 0 0.

Definition is_full (m : QueueMetrics) : bool := depth_max m <=? depth_current m.

Definition is_bytes_overloaded (m : QueueMetrics) (n : Z) : bool :=
  bytes_max m <? wrapping_u64 (bytes_current m + n).

Definition below_drain_threshold (m : QueueMetrics) : bool :=
  wrapping_u64 (depth_current m * 10) <? wrapping_u64 (depth_max m * 8).

(** [fetch_add] and [fetch_sub] wrap around. *)
Definition add_depth (d : Z) (m : QueueMetrics) : QueueMetrics :=
  mkMetrics (wrapping_u64 (depth_current m + d)) (depth_max m) (bytes_current m) (bytes_max m)
    (accepted_total m) (rejected_full_total m).
Definition add_bytes (d : Z) (m : QueueMetrics) : QueueMetrics :=
  mkMetrics (depth_current m) (depth_max m) (wrapping_u64 (bytes_current m + d)) (bytes_max m)
    (accepted_total m) (rejected_full_total m).
Definition add_accepted (m : QueueMetrics) : QueueMetrics :=
  mkMetrics (depth_current m) (depth_max m) (bytes_current m) (bytes_max m)
    (wrapping_u64 (accepted_total m + 1)) (rejected_full_total m).
Definition add_rejected (m : QueueMetrics) : QueueMetrics :=
  mkMetrics (depth_current m) (depth_max m) (bytes_current m) (bytes_max m)
    (accepted_total m) (wrapping_u64 (rejected_full_total m + 1)).

(** ** The channel *)

Inductive SendOutcome := SendOk | SendFull | SendClosed.

(** [tokio::sync::mpsc]: a bounded channel. *)
Class Mpsc (C : Type) := {
  channel : nat → C;
  try_send : C → QueuedArticle → SendOutcome * C;
  try_recv : C → option (QueuedArticle * C);
  drop_receiver : C → C;
  queued : C → list QueuedArticle;
  capacity : C → nat;
  is_closed : C → bool;
}.

(** Its documented behaviour. *)
Class MpscLaws (C : Type) {M : Mpsc C} : Prop := {
  channel_law n : (0 < n)%nat →
    queued (channel n) = [] ∧ capacity (channel n) = n ∧ is_closed (channel n) = false;
  try_send_law c a :
    match try_send c a with
    | (SendClosed, c') => is_closed c = true ∧ c' = c
    | (SendFull, c') => is_closed c = false ∧ (capacity c <= length (queued c))%nat ∧ c' = c
    | (SendOk, c') => is_closed c = false ∧ (length (queued c) < capacity c)%nat ∧
        queued c' = queued c ++ [a] ∧ capacity c' = capacity c ∧ is_closed c' = false
    end;
  try_recv_law c :
    match try_recv c with
    | None => queued c = []
    | Some (a, c') => queued c = a :: queued c' ∧ capacity c' = capacity c ∧
        is_closed c' = is_closed c
    end;
  drop_law c :
    queued (drop_receiver c) = [] ∧ capacity (drop_receiver c) = capacity c ∧
    is_closed (drop_receiver c) = true;
}.

Section Queue.
Context {C : Type} {M : Mpsc C}.

(** ** [try_enqueue] and [recv], one shared access at a time *)

Inductive SendError := TransferNotPossible | QueueUnavailable.

(** What the call answers: [Err("436 ...")] or [Err("431 ...")]. *)
Definition error_line (e : SendError) : bytes :=
  match e with
  | TransferNotPossible => lit "436 Transfer not possible; try again later" ++ CRLF
  | QueueUnavailable => lit "431 Ingestion queue unavailable" ++ CRLF
  end.

Inductive SenderPc :=
| Reserve (a : QueuedArticle)
| TrySend (a : QueuedArticle)
| Refund (a : QueuedArticle) (e : SendError)
| CountRejected
| CountDepth
| CountAccepted
| Returned (r : result SendError ()).

Definition sender_step (pc : SenderPc) (mc : QueueMetrics * C) : SenderPc * (QueueMetrics * C) :=
  let '(m, c) := mc in
  match pc with
  | Reserve a =>
      let prev := bytes_current m in
      let m' := add_bytes (article_bytes a) m in
      if bytes_max m <? wrapping_u64 (prev + article_bytes a)
      then (Refund a TransferNotPossible, (m', c)) else (TrySend a, (m', c))
  | TrySend a =>
      match try_send c a with
      | (SendOk, c') => (CountDepth, (m, c'))
      | (SendFull, c') => (Refund a TransferNotPossible, (m, c'))
      | (SendClosed, c') => (Refund a QueueUnavailable, (m, c'))
      end
  | Refund a e =>
      let m' := add_bytes (- article_bytes a) m in
      match e with
      | TransferNotPossible => (CountRejected, (m', c))
      | QueueUnavailable => (Returned (Err QueueUnavailable), (m', c))
      end
  | CountRejected => (Returned (Err TransferNotPossible), (add_rejected m, c))
  | CountDepth => (CountAccepted, (add_depth 1 m, c))
  | CountAccepted => (Returned (Ok tt), (add_accepted m, c))
  | Returned r => (Returned r, (m, c))
  end.

Fixpoint run_sender (n : nat) (pc : SenderPc) (mc : QueueMetrics * C) :
    SenderPc * (QueueMetrics * C) :=
  match n with
  | O => (pc, mc)
  | S n' => let '(pc', mc') := sender_step pc mc in run_sender n' pc' mc'
  end.

(** A call that runs alone; the last component is what the caller sees. *)
Definition try_enqueue (a : QueuedArticle) (mc : QueueMetrics * C) :
    option (result SendError ()) * (QueueMetrics * C) :=
  let '(pc, mc') := run_sender 4 (Reserve a) mc in
  (match pc with Returned r => Some r | _ => None end, mc').

Inductive RecvPc :=
| RIdle
| RGot (a : QueuedArticle)
| RCounted (a : QueuedArticle).

(** The article [recv] returns appears when its last statement has run; [None]
    while it waits on an empty channel. *)
Definition recv_step (pc : RecvPc) (mc : QueueMetrics * C) :
    option (RecvPc * option QueuedArticle * (QueueMetrics * C)) :=
  let '(m, c) := mc in
  match pc with
  | RIdle =>
      match try_recv c with
      | None => None
      | Some (a, c') => Some (RGot a, None, (m, c'))
      end
  | RGot a => Some (RCounted a, None, (add_depth (-1) m, c))
  | RCounted a => Some (RIdle, Some a, (add_bytes (- article_bytes a) m, c))
  end.

Definition ingestion_queue (max_depth : nat) (max_bytes : Z) : QueueMetrics * C :=
  (metrics_new (Z.of_nat max_depth) max_bytes, channel max_depth).

(** ** All interleavings *)

Record State := mkState {
  shared : QueueMetrics * C;
  senders : list SenderPc;
  receiver : RecvPc;
  (* histories *)
  sent : list QueuedArticle;
  delivered : list QueuedArticle;
  dropped : list QueuedArticle;
}.

Definition metrics (st : State) : QueueMetrics := (shared st).1.
Definition chan (st : State) : list QueuedArticle := queued (shared st).2.
Definition closed (st : State) : bool := is_closed (shared st).2.

Definition init (max_depth : nat) (max_bytes : Z) : State :=
  mkState (ingestion_queue max_depth max_bytes) [] RIdle [] [] [].

(** The article [recv] has taken from the channel and not returned yet. *)
Definition taken (pc : RecvPc) : list QueuedArticle :=
  match pc with RIdle => [] | RGot a | RCounted a => [a] end.

Definition held (pc : SenderPc) : Z :=
  match pc with Reserve a | TrySend a | Refund a _ => article_bytes a | _ => 0 end.
Definition reserved (pc : SenderPc) : Z :=
  match pc with TrySend a | Refund a _ => article_bytes a | _ => 0 end.
Definition passed (pc : SenderPc) : Z :=
  match pc with TrySend a => article_bytes a | _ => 0 end.

(** Articles that are out of the senders' hands. *)
Definition in_queue (st : State) : list QueuedArticle :=
  taken (receiver st) ++ chan st ++ dropped st.
Definition queue_bytes (st : State) : Z := zsum article_bytes (in_queue st).

(** The articles alive at once. *)
Definition live_bytes (st : State) : Z := zsum held (senders st) + queue_bytes st.

Definition pushed (pc pc' : SenderPc) : list QueuedArticle :=
  match pc, pc' with TrySend a, CountDepth => [a] | _, _ => [] end.

Inductive Label := LCall (a : QueuedArticle) | LSend (i : nat) | LRecv | LDrop.

Inductive step : Label → State → State → Prop :=
| step_call a st :
    (* articles are vectors in one address space *)
    live_bytes st + article_bytes a <= u64_max →
    step (LCall a) st
      (mkState (shared st) (senders st ++ [Reserve a]) (receiver st)
         (sent st) (delivered st) (dropped st))
| step_send i pc pc' mc' st :
    senders st !! i = Some pc →
    sender_step pc (shared st) = (pc', mc') →
    step (LSend i) st
      (mkState mc' (<[ i := pc' ]> (senders st)) (receiver st)
         (sent st ++ pushed pc pc') (delivered st) (dropped st))
| step_recv pc' out mc' st :
    recv_step (receiver st) (shared st) = Some (pc', out, mc') →
    step LRecv st
      (mkState mc' (senders st) pc' (sent st) (delivered st ++ option_list out) (dropped st))
| step_drop st :
    receiver st = RIdle →
    step LDrop st
      (mkState ((shared st).1, drop_receiver (shared st).2) (senders st) RIdle
         (sent st) (delivered st) (chan st ++ dropped st)).

Inductive run : list Label → State → State → Prop :=
| run_nil st : run [] st st
| run_snoc ls l st st' st'' : run ls st st' → step l st' st'' → run (ls ++ [l]) st st''.

(** ** The invariant *)

Definition uncounted_depth (pc : SenderPc) : Z :=
  match pc with CountDepth => 1 | _ => 0 end.
Definition uncounted_accept (pc : SenderPc) : Z :=
  match pc with CountDepth | CountAccepted => 1 | _ => 0 end.
Definition rejected (pc : SenderPc) : Z :=
  match pc with Returned (Err TransferNotPossible) => 1 | _ => 0 end.
Definition past_send (pc : SenderPc) : Z :=
  match pc with CountDepth | CountAccepted | Returned (Ok _) => 1 | _ => 0 end.
Definition undecremented (pc : RecvPc) : Z :=
  match pc with RGot _ => 1 | _ => 0 end.

Record inv (max_depth : nat) (max_bytes : Z) (st : State) : Prop := {
  inv_limits : depth_max (metrics st) = Z.of_nat max_depth ∧
    bytes_max (metrics st) = max_bytes ∧ capacity (shared st).2 = max_depth;
  inv_len : (length (chan st) <= max_depth)%nat;
  inv_bytes : bytes_current (metrics st) = zsum reserved (senders st) + queue_bytes st;
  inv_bound : zsum passed (senders st) + queue_bytes st <= max_bytes;
  inv_live : live_bytes st <= u64_max;
  inv_depth : depth_current (metrics st) =
    wrapping_u64 (undecremented (receiver st) + Z.of_nat (length (chan st ++ dropped st)) -
                  zsum uncounted_depth (senders st));
  inv_accepted : accepted_total (metrics st) =
    wrapping_u64 (Z.of_nat (length (sent st)) - zsum uncounted_accept (senders st));
  inv_rejected : rejected_full_total (metrics st) = wrapping_u64 (zsum rejected (senders st));
  inv_fifo : sent st = delivered st ++ in_queue st;
  inv_open : closed st = false → dropped st = [];
  inv_answers : Z.of_nat (length (sent st)) = zsum past_send (senders st);
}.

Context {L : MpscLaws C}.

Lemma article_bytes_nonneg a : 0 <= article_bytes a.
Proof. unfold article_bytes. lia. Qed.

Lemma held_nonneg pc : 0 <= held pc.
Proof. destruct pc; simpl; try lia; apply article_bytes_nonneg. Qed.

Lemma reserved_nonneg pc : 0 <= reserved pc.
Proof. destruct pc; simpl; try lia; apply article_bytes_nonneg. Qed.

Lemma passed_nonneg pc : 0 <= passed pc.
Proof. destruct pc; simpl; try lia; apply article_bytes_nonneg. Qed.

Lemma reserved_le_held pc : reserved pc <= held pc.
Proof. destruct pc; simpl; try lia; apply article_bytes_nonneg. Qed.

Lemma passed_le_reserved pc : passed pc <= reserved pc.
Proof. destruct pc; simpl; try lia; apply article_bytes_nonneg. Qed.

Lemma wrapping_wrap x y : wrapping_u64 (wrapping_u64 x + y) = wrapping_u64 (x + y).
Proof. unfold wrapping_u64. by rewrite Zplus_mod_idemp_l. Qed.

Lemma queue_bytes_eq st :
  queue_bytes st = zsum article_bytes (taken (receiver st)) + zsum article_bytes (chan st) +
                   zsum article_bytes (dropped st).
Proof. unfold queue_bytes, in_queue. rewrite !zsum_app. lia. Qed.

Lemma queue_bytes_nonneg st : 0 <= queue_bytes st.
Proof. apply zsum_nonneg, article_bytes_nonneg. Qed.

Lemma inv_init max_depth max_bytes :
  (0 < max_depth)%nat → 0 <= max_bytes → inv max_depth max_bytes (init max_depth max_bytes).
Proof.
  intros Hd Hb. destruct (channel_law max_depth Hd) as (Hq & Hc & Ho).
  split; unfold init, chan, closed, live_bytes, queue_bytes, in_queue, chan, metrics; simpl;
    rewrite ?Hq; simpl; try done; lia.
Qed.

Lemma inv_call max_depth max_bytes a st :
  inv max_depth max_bytes st → live_bytes st + article_bytes a <= u64_max →
  inv max_depth max_bytes
    (mkState (shared st) (senders st ++ [Reserve a]) (receiver st)
       (sent st) (delivered st) (dropped st)).
Proof.
  intros [] Hlive. split; try done; unfold live_bytes, queue_bytes, in_queue, metrics, chan in *;
    simpl; rewrite ?zsum_snoc; simpl; rewrite ?Z.add_0_r, ?Z.sub_0_r; try done; lia.
Qed.

(** The sums of a state in which sender [i] has moved. *)
Ltac sender_sums Hi :=
  rewrite ?(zsum_insert held _ _ _ _ Hi), ?(zsum_insert reserved _ _ _ _ Hi),
    ?(zsum_insert passed _ _ _ _ Hi), ?(zsum_insert uncounted_depth _ _ _ _ Hi),
    ?(zsum_insert uncounted_accept _ _ _ _ Hi), ?(zsum_insert rejected _ _ _ _ Hi), ?(zsum_insert past_send _ _ _ _ Hi).

Lemma bytes_in_u64 max_depth max_bytes st :
  inv max_depth max_bytes st → in_u64 (zsum reserved (senders st) + queue_bytes st).
Proof.
  intros [_ _ _ _ Hlive _ _ _ _ _ _]. unfold live_bytes in Hlive.
  pose proof (zsum_mono reserved held (senders st) reserved_le_held).
  pose proof (zsum_nonneg reserved (senders st) reserved_nonneg).
  pose proof (queue_bytes_nonneg st). unfold in_u64. lia.
Qed.

(** A sender that leaves the channel alone. *)
Lemma inv_counter max_depth max_bytes i pc pc' m' st :
  inv max_depth max_bytes st → senders st !! i = Some pc →
  depth_max m' = depth_max (metrics st) → bytes_max m' = bytes_max (metrics st) →
  held pc' <= held pc → zsum passed (senders st) - passed pc + passed pc' + queue_bytes st <= max_bytes →
  bytes_current m' = wrapping_u64 (bytes_current (metrics st) + (reserved pc' - reserved pc)) →
  (depth_current m' = wrapping_u64 (depth_current (metrics st) + (uncounted_depth pc - uncounted_depth pc'))) →
  (accepted_total m' = wrapping_u64 (accepted_total (metrics st) + (uncounted_accept pc - uncounted_accept pc'))) →
  (rejected_full_total m' = wrapping_u64 (rejected_full_total (metrics st) + (rejected pc' - rejected pc))) →
  past_send pc' = past_send pc →
  inv max_depth max_bytes
    (mkState (m', (shared st).2) (<[ i := pc' ]> (senders st)) (receiver st)
       (sent st ++ []) (delivered st) (dropped st)).
Proof.
  intros Hinv Hi Hdm Hbm Hh Hp Hb Hd Ha Hr Hps. pose proof (bytes_in_u64 _ _ _ Hinv) as Hu64.
  destruct Hinv as [Hlim Hlen Hbytes Hbound Hlive Hdepth Hacc Hrej Hfifo Hopen Hans].
  split; unfold live_bytes, queue_bytes, in_queue, metrics, chan, closed in *; simpl in *;
    sender_sums Hi; rewrite ?app_nil_r; try done.
  - rewrite Hdm, Hbm. done.
  - rewrite Hb, Hbytes. unfold in_u64 in Hu64.
    assert (Hin : reserved pc' <= held pc') by apply reserved_le_held.
    pose proof (zsum_mono reserved held (senders st) reserved_le_held).
    assert (0 <= zsum reserved (senders st) - reserved pc + reserved pc').
    { rewrite <- (zsum_insert reserved _ _ _ pc' Hi). apply zsum_nonneg, reserved_nonneg. }
    assert (zsum reserved (senders st) - reserved pc + reserved pc' <=
            zsum held (senders st) - held pc + held pc').
    { rewrite <- (zsum_insert reserved _ _ _ pc' Hi), <- (zsum_insert held _ _ _ pc' Hi).
      apply zsum_mono, reserved_le_held. }
    pose proof (queue_bytes_nonneg st) as Hq. unfold queue_bytes, in_queue, chan in Hq.
    rewrite wrapping_small; [lia|]. unfold in_u64. lia.
  - lia.
  - rewrite Hd, Hdepth, wrapping_wrap. f_equal. lia.
  - rewrite Ha, Hacc, wrapping_wrap. f_equal. lia.
  - rewrite Hr, Hrej, wrapping_wrap. f_equal. lia.
  - lia.
Qed.

(** Counters a step leaves alone. *)
Lemma inv_same max_depth max_bytes st :
  inv max_depth max_bytes st →
  depth_current (metrics st) = wrapping_u64 (depth_current (metrics st) + 0) ∧
  bytes_current (metrics st) = wrapping_u64 (bytes_current (metrics st) + 0) ∧
  accepted_total (metrics st) = wrapping_u64 (accepted_total (metrics st) + 0) ∧
  rejected_full_total (metrics st) = wrapping_u64 (rejected_full_total (metrics st) + 0).
Proof.
  intros Hinv. pose proof (bytes_in_u64 _ _ _ Hinv) as Hu64. destruct Hinv.
  rewrite inv_depth0, inv_accepted0, inv_rejected0, !wrapping_wrap, !Z.add_0_r.
  split_and!; try done. by rewrite inv_bytes0, wrapping_small.
Qed.

(** [try_send] succeeds: the article moves from the sender to the channel. *)
Lemma inv_sent max_depth max_bytes i a c' st :
  inv max_depth max_bytes st → senders st !! i = Some (TrySend a) →
  try_send (shared st).2 a = (SendOk, c') →
  inv max_depth max_bytes
    (mkState ((shared st).1, c') (<[ i := CountDepth ]> (senders st)) (receiver st)
       (sent st ++ [a]) (delivered st) (dropped st)).
Proof.
  intros Hinv Hi Hs. pose proof (try_send_law (shared st).2 a) as Hlaw. rewrite Hs in Hlaw.
  destruct Hlaw as (Ho & Hlt & Hq & Hc & Ho').
  destruct Hinv as [Hlim Hlen Hbytes Hbound Hlive Hdepth Hacc Hrej Hfifo Hopen Hans].
  unfold live_bytes, queue_bytes, in_queue, metrics, chan, closed in *.
  rewrite (Hopen Ho) in *. rewrite app_nil_r in *.
  split; unfold live_bytes, queue_bytes, in_queue, metrics, chan, closed in *; simpl in *;
    sender_sums Hi; rewrite ?Hq, ?app_nil_r, ?zsum_app, ?zsum_singleton in *; simpl;
    rewrite ?length_app; simpl; try done.
  - naive_solver.
  - naive_solver lia.
  - lia.
  - lia.
  - lia.
  - rewrite Hdepth. f_equal. lia.
  - rewrite Hacc. f_equal. lia.
  - rewrite Hrej. f_equal. lia.
  - by rewrite Hfifo, <- !app_assoc.
  - lia.
Qed.

(** A reservation that passes the check leaves room for everything admitted. *)
Lemma reserve_bound max_depth max_bytes i a st :
  inv max_depth max_bytes st → senders st !! i = Some (Reserve a) →
  wrapping_u64 (bytes_current (metrics st) + article_bytes a) <= max_bytes →
  zsum passed (senders st) + article_bytes a + queue_bytes st <= max_bytes.
Proof.
  intros [_ _ Hb _ Hlive _ _ _ _ _ _] Hi. unfold live_bytes in Hlive. rewrite Hb.
  pose proof (zsum_mono reserved held (<[ i := TrySend a ]> (senders st)) reserved_le_held) as Hh.
  revert Hh. sender_sums Hi. simpl. intros Hh.
  pose proof (zsum_nonneg reserved (senders st) reserved_nonneg).
  pose proof (zsum_mono passed reserved (senders st) passed_le_reserved).
  pose proof (queue_bytes_nonneg st). pose proof (article_bytes_nonneg a).
  rewrite wrapping_small; [lia|]. unfold in_u64. lia.
Qed.

Lemma inv_send max_depth max_bytes i pc pc' mc' st :
  inv max_depth max_bytes st → senders st !! i = Some pc →
  sender_step pc (shared st) = (pc', mc') →
  inv max_depth max_bytes
    (mkState mc' (<[ i := pc' ]> (senders st)) (receiver st)
       (sent st ++ pushed pc pc') (delivered st) (dropped st)).
Proof.
  intros Hinv Hi Hstep. pose proof (inv_same _ _ _ Hinv) as (Hd & Hb & Ha & Hr).
  assert (Hbd := inv_bound _ _ _ Hinv).
  assert (Hpassed : passed pc <= zsum passed (senders st)).
  { pose proof (zsum_nonneg passed (<[ i := CountDepth ]> (senders st)) passed_nonneg) as H0.
    revert H0. sender_sums Hi. simpl. lia. }
  assert (Hsh : shared st = (metrics st, (shared st).2)) by apply surjective_pairing.
  assert (Hmax := inv_limits _ _ _ Hinv). destruct Hmax as (_ & Hmax & _).
  unfold sender_step in Hstep. rewrite Hsh in Hstep.
  assert (Hpos := λ a, article_bytes_nonneg a).
  destruct pc as [a|a|a e| | | |r]; simpl in *.
  - pose proof (reserve_bound _ _ _ _ _ Hinv Hi) as Hres. specialize (Hpos a).
    destruct (bytes_max _ <? _) eqn:Hover; injection Hstep as <- <-; to_prop; simpl;
      eapply inv_counter; try done; simpl; try lia; f_equal; lia.
  - pose proof (try_send_law (shared st).2 a) as Hlaw. specialize (Hpos a).
    destruct (try_send _ a) as [[] c'] eqn:Hs; injection Hstep as <- <-; simpl;
      [by apply inv_sent|destruct Hlaw as (_ & _ & ->)|destruct Hlaw as (_ & ->)];
      (eapply inv_counter; try done; simpl; rewrite ?Z.sub_diag; try done; lia).
  - specialize (Hpos a). destruct e; injection Hstep as <- <-; simpl;
      (eapply inv_counter; try done; simpl; try lia); f_equal; lia.
  - injection Hstep as <- <-; simpl. eapply inv_counter; try done; simpl; lia.
  - injection Hstep as <- <-; simpl. eapply inv_counter; try done; simpl; lia.
  - injection Hstep as <- <-; simpl. eapply inv_counter; try done; simpl; lia.
  - injection Hstep as <- <-; simpl. destruct r as [[]|[]];
      (eapply inv_counter; try done; simpl; rewrite ?Z.sub_diag; try done; lia).
Qed.

Lemma inv_recv max_depth max_bytes pc' out mc' st :
  inv max_depth max_bytes st → recv_step (receiver st) (shared st) = Some (pc', out, mc') →
  inv max_depth max_bytes
    (mkState mc' (senders st) pc' (sent st) (delivered st ++ option_list out) (dropped st)).
Proof.
  intros Hinv Hstep. pose proof (bytes_in_u64 _ _ _ Hinv) as Hu64.
  pose proof (zsum_nonneg reserved (senders st) reserved_nonneg).
  pose proof (zsum_nonneg article_bytes (chan st ++ dropped st) article_bytes_nonneg).
  destruct Hinv as [Hlim Hlen Hbytes Hbound Hlive Hdepth Hacc Hrej Hfifo Hopen Hans].
  unfold live_bytes, queue_bytes, in_queue, metrics, chan, closed in *.
  destruct (shared st) as [m c] eqn:Hsh. unfold recv_step in Hstep.
  destruct (receiver st) as [|a|a]; simpl in *.
  - pose proof (try_recv_law c) as Hlaw. destruct (try_recv c) as [[a c']|]; [|done].
    injection Hstep as <- <- <-. destruct Hlaw as (Hq & Hcap & Ho). rewrite Hq in *.
    split; unfold live_bytes, queue_bytes, in_queue, metrics, chan, closed in *; simpl in *;
      rewrite ?app_nil_r; try done; try lia; try (by rewrite Hcap); try (by rewrite Ho).
    rewrite Hdepth. f_equal. lia.
  - injection Hstep as <- <- <-.
    split; unfold live_bytes, queue_bytes, in_queue, metrics, chan, closed in *; simpl in *;
      rewrite ?app_nil_r; try done; try lia.
    rewrite Hdepth, wrapping_wrap. f_equal. lia.
  - injection Hstep as <- <- <-. rewrite zsum_cons in *.
    pose proof (article_bytes_nonneg a). unfold in_u64 in Hu64.
    split; unfold live_bytes, queue_bytes, in_queue, metrics, chan, closed in *; simpl in *;
      rewrite <- ?app_assoc; try done; try lia.
    rewrite Hbytes, wrapping_small; [lia|]. unfold in_u64. lia.
Qed.

Lemma inv_drop max_depth max_bytes st :
  inv max_depth max_bytes st → receiver st = RIdle →
  inv max_depth max_bytes
    (mkState ((shared st).1, drop_receiver (shared st).2) (senders st) RIdle
       (sent st) (delivered st) (chan st ++ dropped st)).
Proof.
  intros Hinv Hidle. destruct (drop_law (shared st).2) as (Hq & Hcap & Ho).
  destruct Hinv as [Hlim Hlen Hbytes Hbound Hlive Hdepth Hacc Hrej Hfifo Hopen Hans].
  unfold live_bytes, queue_bytes, in_queue, metrics, chan, closed in *. rewrite Hidle in *.
  split; unfold live_bytes, queue_bytes, in_queue, metrics, chan, closed in *; simpl in *;
    rewrite ?Hq, ?Hcap, ?Ho; simpl; try done. lia.
Qed.

Lemma inv_step max_depth max_bytes l st st' :
  inv max_depth max_bytes st → step l st st' → inv max_depth max_bytes st'.
Proof.
  intros Hinv Hstep. destruct Hstep;
    [by apply inv_call|by eapply inv_send|by eapply inv_recv|by apply inv_drop].
Qed.

Definition reachable (max_depth : nat) (max_bytes : Z) (st : State) : Prop :=
  ∃ ls, run ls (init max_depth max_bytes) st.

Lemma inv_run max_depth max_bytes ls st st' :
  inv max_depth max_bytes st → run ls st st' → inv max_depth max_bytes st'.
Proof.
  intros Hinv Hrun. induction Hrun as [|ls l st st' st'' Hrun IH Hstep]; [done|].
  apply (inv_step _ _ _ _ _ (IH Hinv) Hstep).
Qed.

Lemma inv_reachable max_depth max_bytes st :
  (0 < max_depth)%nat → 0 <= max_bytes → reachable max_depth max_bytes st →
  inv max_depth max_bytes st.
Proof.
  intros Hd Hb (ls & Hrun). eapply inv_run; [by apply inv_init|done].
Qed.

(** No call of [try_enqueue] is under way. *)
Definition settled (st : State) : Prop := ∀ pc, pc ∈ senders st → ∃ r, pc = Returned r.

Lemma settled_zero (f : SenderPc → Z) st :
  (∀ r, f (Returned r) = 0) → settled st → zsum f (senders st) = 0.
Proof.
  intros Hf. unfold settled. induction (senders st) as [|pc l IH]; intros Hs; [done|].
  rewrite zsum_cons, IH by set_solver. destruct (Hs pc) as (r & ->); [set_solver|].
  rewrite Hf. done.
Qed.

(** C24. In every interleaving of any number of [try_enqueue] calls with the
    drain task, the queue never holds more than [max_depth] articles nor more
    than [max_bytes] bytes; exactly as many articles were sent as calls were (or
    are about to be) answered [Ok]; they are delivered in the order they were
    sent, none lost or duplicated while the receiver lives; and when no call is
    under way and the receiver waits, the counters are exact. *)
Theorem queue_bounds_and_order max_depth max_bytes st :
  (0 < max_depth)%nat → 0 <= max_bytes → reachable max_depth max_bytes st →
  (length (chan st) <= max_depth)%nat ∧
  zsum article_bytes (chan st) <= max_bytes ∧
  sent st = delivered st ++ taken (receiver st) ++ chan st ++ dropped st ∧
  Z.of_nat (length (sent st)) = zsum past_send (senders st) ∧
  (closed st = false → dropped st = []) ∧
  (settled st → receiver st = RIdle → closed st = false → in_u64 (Z.of_nat (length (chan st))) →
   depth_current (metrics st) = Z.of_nat (length (chan st)) ∧
   bytes_current (metrics st) = zsum article_bytes (chan st) ∧
   accepted_total (metrics st) = wrapping_u64 (Z.of_nat (length (sent st)))).
Proof.
  intros Hd Hb Hr. destruct (inv_reachable _ _ _ Hd Hb Hr) as
    [Hlim Hlen Hbytes Hbound Hlive Hdepth Hacc Hrej Hfifo Hopen Hans].
  split_and!; try done.
  - pose proof (zsum_nonneg passed (senders st) passed_nonneg).
    pose proof (zsum_nonneg article_bytes (taken (receiver st)) article_bytes_nonneg).
    pose proof (zsum_nonneg article_bytes (dropped st) article_bytes_nonneg).
    rewrite queue_bytes_eq in Hbound. lia.
  - intros Hset Hidle Ho Hu64.
    rewrite Hdepth, Hbytes, Hacc, queue_bytes_eq, Hidle, (Hopen Ho), app_nil_r.
    rewrite !settled_zero by done. simpl. rewrite Z.sub_0_r, wrapping_small by done.
    split_and!; [done| |f_equal; lia]. unfold zsum at 1 3. simpl. lia.
Qed.

(** ** Progress *)

Definition recv_rank (pc : RecvPc) : nat :=
  match pc with RIdle => 0 | RGot _ => 1 | RCounted _ => 2 end.

(** How often [recv] has been scheduled. *)
Definition is_recv (l : Label) : bool := match l with LRecv => true | _ => false end.
Definition recv_steps (ls : list Label) : nat := length (filter is_recv ls).
Definition is_send (i : nat) (l : Label) : bool :=
  match l with LSend j => (i =? j)%nat | _ => false end.
Definition send_steps (i : nat) (ls : list Label) : nat := length (filter (is_send i) ls).

Lemma step_recv_rank l st st' :
  step l st st' →
  (3 * length (delivered st') + recv_rank (receiver st') =
   3 * length (delivered st) + recv_rank (receiver st) + recv_steps [l])%nat.
Proof.
  unfold recv_steps. destruct 1 as [| |pc' out mc' st Hrecv|st Hidle]; simpl; try lia.
  - destruct (shared st) as [m c]. unfold recv_step in Hrecv.
    destruct (receiver st) as [|a|a]; [destruct (try_recv c) as [[a c']|]; [|done]| |];
      injection Hrecv as <- <- <-; simpl; rewrite ?app_nil_r, ?length_app; simpl; lia.
  - rewrite Hidle. simpl. lia.
Qed.

Lemma run_recv_rank ls st st' :
  run ls st st' →
  (3 * length (delivered st') + recv_rank (receiver st') =
   3 * length (delivered st) + recv_rank (receiver st) + recv_steps ls)%nat.
Proof.
  induction 1 as [|ls l st st' st'' Hrun IH Hstep]; [unfold recv_steps; simpl; lia|].
  pose proof (step_recv_rank _ _ _ Hstep) as Hs. unfold recv_steps in *.
  rewrite filter_app, length_app. lia.
Qed.

Lemma run_sent ls st st' : run ls st st' → sent st `prefix_of` sent st'.
Proof.
  induction 1 as [|ls l st st' st'' Hrun IH Hstep]; [done|].
  etrans; [apply IH|]. destruct Hstep; simpl; [done|by apply prefix_app_r|done|done].
Qed.

Lemma recv_enabled st :
  taken (receiver st) ++ chan st ≠ [] → ∃ x, recv_step (receiver st) (shared st) = Some x.
Proof.
  unfold chan. destruct (shared st) as [m c]. unfold recv_step. destruct (receiver st); eauto.
  pose proof (try_recv_law c) as Hlaw. destruct (try_recv c) as [[a c']|]; [eauto|].
  simpl. by rewrite Hlaw.
Qed.

Lemma prefix_of_longer {A} (l1 l2 l : list A) :
  l1 `prefix_of` l → l2 `prefix_of` l → (length l1 <= length l2)%nat → l1 `prefix_of` l2.
Proof.
  intros H1 H2 Hlen. destruct (prefix_weak_total _ _ _ H1 H2) as [?|H]; [done|].
  by rewrite (prefix_length_eq _ _ H Hlen).
Qed.

(** The queue drains: while an article waits and the receiver lives, [recv]
    can always take its next step; and in every continuation, whatever the
    senders do meanwhile, once [recv] has been scheduled three times per article
    that was queued, all of those articles have been delivered, in order. *)
Theorem queue_drains max_depth max_bytes st :
  (0 < max_depth)%nat → 0 <= max_bytes → reachable max_depth max_bytes st →
  (taken (receiver st) ++ chan st ≠ [] → ∃ st', step LRecv st st') ∧
  (∀ ls st', run ls st st' → closed st' = false →
     (3 * length (taken (receiver st) ++ chan st) <= recv_steps ls)%nat →
     delivered st ++ taken (receiver st) ++ chan st `prefix_of` delivered st').
Proof.
  intros Hd Hb Hr. split.
  - intros Hne. destruct (recv_enabled st Hne) as (((pc' & out) & mc') & Hx).
    eexists. by econstructor.
  - intros ls st' Hrun Ho Hn. pose proof (run_recv_rank _ _ _ Hrun) as Hrank.
    assert (Hi := inv_reachable _ _ _ Hd Hb Hr).
    apply (prefix_of_longer _ _ (sent st')).
    + etrans; [|apply (run_sent _ _ _ Hrun)]. rewrite (inv_fifo _ _ _ Hi). unfold in_queue.
      rewrite !app_assoc. by apply prefix_app_r.
    + rewrite (inv_fifo _ _ _ (inv_run _ _ _ _ _ Hi Hrun)). by apply prefix_app_r.
    + rewrite !length_app in *. destruct (receiver st), (receiver st'); simpl in *; lia.
Qed.

(** Steps a call has still to make. *)
Definition send_rank (pc : SenderPc) : nat :=
  match pc with
  | Reserve _ => 4
  | TrySend _ => 3
  | Refund _ _ | CountDepth => 2
  | CountRejected | CountAccepted => 1
  | Returned _ => 0
  end.

Lemma sender_step_rank pc mc pc' mc' :
  sender_step pc mc = (pc', mc') → (send_rank pc' <= send_rank pc - 1)%nat.
Proof.
  destruct mc as [m c]. destruct pc as [a|a|a []| | | |r]; simpl.
  - break_if; intros [= <- <-]; simpl; lia.
  - destruct (try_send c a) as [[] c']; intros [= <- <-]; simpl; lia.
  - intros [= <- <-]; simpl; lia.
  - intros [= <- <-]; simpl; lia.
  - intros [= <- <-]; simpl; lia.
  - intros [= <- <-]; simpl; lia.
  - intros [= <- <-]; simpl; lia.
  - intros [= <- <-]; simpl; lia.
Qed.

Lemma run_send_rank i pc ls st st' :
  run ls st st' → senders st !! i = Some pc →
  ∃ pc', senders st' !! i = Some pc' ∧ (send_rank pc' <= send_rank pc - send_steps i ls)%nat.
Proof.
  intros Hrun Hi. induction Hrun as [|ls l st st' st'' Hrun IH Hstep].
  - exists pc. unfold send_steps. simpl. split; [done|lia].
  - destruct (IH Hi) as (pc1 & H1 & Hr). unfold send_steps in *.
    rewrite filter_app, length_app.
    destruct Hstep as [a st1 Hl|j p p' mc' st1 Hj Hs|pc' out mc' st1 Hs|st1 Hs]; simpl.
    + exists pc1. split; [by apply lookup_app_l_Some|lia].
    + destruct (decide (i = j)) as [<-|Hne].
      * exists p'. rewrite list_lookup_insert_eq by by eapply lookup_lt_Some.
        apply sender_step_rank in Hs. rewrite filter_cons_True by (simpl; rewrite Nat.eqb_refl; done).
        simplify_eq. simpl. split; [done|lia].
      * exists pc1. rewrite list_lookup_insert_ne by done. apply Nat.eqb_neq in Hne.
        rewrite filter_cons_False by (simpl; rewrite Hne; tauto). simpl. split; [done|lia].
    + exists pc1. split; [done|lia].
    + exists pc1. split; [done|lia].
Qed.

(** A call that runs alone, on every branch. *)
Lemma try_enqueue_eq a m c :
  try_enqueue a (m, c) =
  (let n := article_bytes a in
   let refunded := add_bytes (- n) (add_bytes n m) in
   if bytes_max m <? wrapping_u64 (bytes_current m + n)
   then (Some (Err TransferNotPossible), (add_rejected refunded, c))
   else match try_send c a with
        | (SendOk, c') => (Some (Ok tt), (add_accepted (add_depth 1 (add_bytes n m)), c'))
        | (SendFull, c') => (Some (Err TransferNotPossible), (add_rejected refunded, c'))
        | (SendClosed, c') => (Some (Err QueueUnavailable), (refunded, c'))
        end).
Proof.
  unfold try_enqueue. cbn [run_sender sender_step]. destruct (bytes_max m <? _); [done|].
  cbn [run_sender sender_step]. by destruct (try_send c a) as [[] c'].
Qed.

(** [try_enqueue] always returns: whatever the other tasks do in between, a
    call that has been scheduled four times has its answer, and a call that runs
    alone is [try_enqueue]. *)
Theorem try_enqueue_returns i a ls st st' :
  senders st !! i = Some (Reserve a) → run ls st st' → (4 <= send_steps i ls)%nat →
  (∃ r, senders st' !! i = Some (Returned r)) ∧
  ∃ r, (try_enqueue a (shared st)).1 = Some r.
Proof.
  intros Hi Hrun Hn. split.
  - destruct (run_send_rank _ _ _ _ _ Hrun Hi) as (pc' & Hpc & Hr). simpl in Hr.
    destruct pc'; simpl in Hr; try lia. eauto.
  - destruct (shared st) as [m c]. rewrite try_enqueue_eq. cbv zeta. break_if; [by eexists|].
    destruct (try_send c a) as [[] c']; by eexists.
Qed.

(** ** Executing a schedule *)

Definition exec (l : Label) (st : State) : option State :=
  match l with
  | LCall a =>
      if live_bytes st + article_bytes a <=? u64_max
      then Some (mkState (shared st) (senders st ++ [Reserve a]) (receiver st)
                   (sent st) (delivered st) (dropped st))
      else None
  | LSend i =>
      pc ← senders st !! i;
      let '(pc', mc') := sender_step pc (shared st) in
      Some (mkState mc' (<[ i := pc' ]> (senders st)) (receiver st)
              (sent st ++ pushed pc pc') (delivered st) (dropped st))
  | LRecv =>
      '(pc', out, mc') ← recv_step (receiver st) (shared st);
      Some (mkState mc' (senders st) pc' (sent st) (delivered st ++ option_list out) (dropped st))
  | LDrop =>
      match receiver st with
      | RIdle => Some (mkState ((shared st).1, drop_receiver (shared st).2) (senders st) RIdle
                         (sent st) (delivered st) (chan st ++ dropped st))
      | _ => None
      end
  end.

Lemma exec_step l st st' : exec l st = Some st' → step l st st'.
Proof.
  destruct l as [a|i| |]; simpl.
  - break_if; [|done]. intros [= <-]. to_prop. by constructor.
  - destruct (senders st !! i) as [pc|] eqn:Hi; simpl; [|done].
    destruct (sender_step pc (shared st)) as [pc' mc'] eqn:Hs. intros [= <-]. by constructor.
  - destruct (recv_step _ _) as [[[pc' out] mc']|] eqn:Hs; simpl; [|done].
    intros [= <-]. by constructor.
  - destruct (receiver st) eqn:Hr; [|done..]. intros [= <-]. by constructor.
Qed.

Definition exec_all (ls : list Label) (st : State) : option State :=
  foldl (λ o l, o ≫= exec l) (Some st) ls.

Lemma exec_all_run ls st st' : exec_all ls st = Some st' → run ls st st'.
Proof.
  unfold exec_all. revert st'. induction ls as [|l ls IH] using rev_ind; intros st'.
  - intros [= <-]. constructor.
  - rewrite foldl_app. simpl. destruct (foldl _ _ ls) as [st1|] eqn:H1; simpl; [|done].
    intros Hx. econstructor; [by apply IH|by apply exec_step].
Qed.

End Queue.

(** ** A channel that is a list *)

Module QueueSamples.

Record ListChan := mkListChan { lc_items : list QueuedArticle; lc_cap : nat; lc_closed : bool }.

#[export] Instance list_mpsc : Mpsc ListChan := {|
  channel n := mkListChan [] n false;
  try_send c a :=
    if lc_closed c then (SendClosed, c)
    else if (lc_cap c <=? length (lc_items c))%nat then (SendFull, c)
    else (SendOk, mkListChan (lc_items c ++ [a]) (lc_cap c) false);
  try_recv c :=
    match lc_items c with
    | [] => None
    | a :: l => Some (a, mkListChan l (lc_cap c) (lc_closed c))
    end;
  drop_receiver c := mkListChan [] (lc_cap c) true;
  queued := lc_items;
  capacity := lc_cap;
  is_closed := lc_closed;
|}.

#[export] Instance list_mpsc_laws : MpscLaws ListChan.
Proof.
  split; simpl.
  - done.
  - intros c a. destruct (lc_closed c) eqn:Hc; [done|]. break_if; to_prop; naive_solver.
  - intros c. by destruct (lc_items c) eqn:Hc.
  - done.
Qed.

Definition article1 : QueuedArticle := mkQueued [1; 2; 3] (lit "<a@b>").
Definition article2 : QueuedArticle := mkQueued [4] (lit "<c@d>").
Definition start : State (C := ListChan) := init 2 10.

(** Two calls, both accepted; nothing received yet. *)
Definition two_calls : list Label :=
  [LCall article1; LCall article2; LSend 0; LSend 1; LSend 1; LSend 0;
   LSend 0; LSend 0; LSend 1; LSend 1].
Definition two_queued : State := default start (exec_all two_calls start).
Definition six_recvs : list Label := [LRecv; LRecv; LRecv; LRecv; LRecv; LRecv].
Definition drained : State := default start (exec_all six_recvs two_queued).
Definition called : State := default start (exec_all [LCall article1] start).
Definition four_sends : list Label := [LSend 0; LSend 0; LSend 0; LSend 0].
Definition answered : State := default start (exec_all four_sends called).

Lemma two_queued_reachable : reachable 2 10 two_queued.
Proof. exists two_calls. apply exec_all_run. vm_refl. Qed.

Lemma queue_bounds_and_order_witness :
  (length (chan two_queued) <= 2)%nat ∧ sent two_queued = [article2; article1] ∧
  zsum article_bytes (chan two_queued) <= 10.
Proof.
  destruct (queue_bounds_and_order 2 10 two_queued ltac:(lia) ltac:(lia) two_queued_reachable)
    as (Hl & Hb & _). split; [exact Hl|]. split; [vm_refl|exact Hb].
Defined.

Lemma queue_drains_witness :
  closed drained = false ∧
  delivered two_queued ++ taken (receiver two_queued) ++ chan two_queued `prefix_of` delivered drained.
Proof.
  split; [vm_refl|].
  apply (queue_drains 2 10 two_queued ltac:(lia) ltac:(lia) two_queued_reachable) with (ls := six_recvs).
  - apply exec_all_run. vm_refl.
  - vm_refl.
  - apply Nat.leb_le. vm_refl.
Defined.

Lemma try_enqueue_returns_witness :
  (∃ r, senders answered !! 0%nat = Some (Returned r)) ∧
  ∃ r, (try_enqueue article1 (shared called)).1 = Some r.
Proof.
  apply (try_enqueue_returns 0 article1 four_sends called answered).
  - vm_refl.
  - apply exec_all_run. vm_refl.
  - apply Nat.leb_le. vm_refl.
Defined.

(** The receiver can take an article and decrement [depth_current] before the
    sender has incremented it: the counter wraps around and an empty queue
    reports itself full. *)
Lemma empty_queue_reports_full :
  ∃ st : State (C := ListChan), reachable 2 10 st ∧ chan st = [] ∧ is_full (metrics st) = true.
Proof.
  eexists. split; [exists [LCall article1; LSend 0; LSend 0; LRecv; LRecv];
                   apply exec_all_run; vm_compute; reflexivity|].
  split; vm_refl.
Qed.

End QueueSamples.
End IngestQueue.
