(* ===== verification/Append.v ===== *)
(** Appending to a group log: [crates/core/src/group_log/append.rs].

    [append] is proved against the storage contract, so for every backend.  The
    tip set of a group is shown to be the frontier of the entries appended to
    it, for every interleaving of concurrent appends at their await points
    ([Task], [cstep]); a task run alone computes what [append] computes; and
    replicas that receive the same entries in any causal order, on any backend,
    end with the same log and the same tips. *)

From S2P Require Import Prelude Bytes Crypto Article Hlc LogEntry LogStorage MemStorage SqliteStorage.

Module Append.
Import Article Hlc LogEntry LogStorage.

Section Append.
Context {lib : CidLib}.

Inductive AppendError :=
| AppendStorage (e : StorageError)
| MissingParent (cid : Cid).

Section Code.
Context {S : Type} {store : LogStorage S}.

(** The loop over [entry.parent_cids]. *)
Fixpoint check_parents (parents : list Cid) : prog S AppendError (list LogEntryId) :=
  match parents with
  | [] => mret []
  | parent_cid :: parents' =>
      match try_into_id (cid_digest parent_cid) with
      | None => throw (MissingParent parent_cid)
      | Some parent_id =>
          b ← prog_map_err AppendStorage (has_entry parent_id);
          if negb b then throw (MissingParent parent_cid)
          else ids ← check_parents parents'; mret (parent_id :: ids)
      end
  end.

(** The final match: losing the race to a concurrent insert is success. *)
Definition commit_entry (entry_id : LogEntryId) (entry : LogEntry) (group : GroupName)
    (parent_ids : list LogEntryId) : prog S AppendError LogEntryId := λ s,
  match insert_entry_and_advance_tips entry_id entry group parent_ids entry_id s with
  | (Ok _, s') => (Ok entry_id, s')
  | (Err (DuplicateEntry _), s') => (Ok entry_id, s')
  | (Err e, s') => (Err (AppendStorage e), s')
  end.

Definition append (group : GroupName) (verified : VerifiedEntry) : prog S AppendError LogEntryId :=
  let entry := into_inner verified in
  let entry_id := compute_entry_id entry in
  b ← prog_map_err AppendStorage (has_entry entry_id);
  if b : bool then mret entry_id
  else
    parent_ids ← check_parents (parent_cids entry);
    commit_entry entry_id entry group parent_ids.

(** ** The same program, one storage call at a time *)

Inductive Task :=
| TStart (g : GroupName) (e : LogEntry)
| TParents (g : GroupName) (e : LogEntry) (todo : list Cid) (ids : list LogEntryId)
| TInsert (g : GroupName) (e : LogEntry) (ids : list LogEntryId)
| TDone (r : result AppendError LogEntryId).

Definition task_step (t : Task) (s : S) : Task * S :=
  match t with
  | TStart g e =>
      match has_entry (compute_entry_id e) s with
      | (Ok true, s') => (TDone (Ok (compute_entry_id e)), s')
      | (Ok false, s') => (TParents g e (parent_cids e) [], s')
      | (Err err, s') => (TDone (Err (AppendStorage err)), s')
      end
  | TParents g e [] ids => (TInsert g e ids, s)
  | TParents g e (c :: todo) ids =>
      match try_into_id (cid_digest c) with
      | None => (TDone (Err (MissingParent c)), s)
      | Some p =>
          match has_entry p s with
          | (Ok true, s') => (TParents g e todo (ids ++ [p]), s')
          | (Ok false, s') => (TDone (Err (MissingParent c)), s')
          | (Err err, s') => (TDone (Err (AppendStorage err)), s')
          end
      end
  | TInsert g e ids =>
      let '(r, s') := commit_entry (compute_entry_id e) e g ids s in (TDone r, s')
  | TDone r => (TDone r, s)
  end.

Fixpoint task_run (n : nat) (t : Task) (s : S) : Task * S :=
  match n with
  | O => (t, s)
  | Datatypes.S n' => let '(t', s') := task_step t s in task_run n' t' s'
  end.

Lemma task_run_done n r s : task_run n (TDone r) s = (TDone r, s).
Proof. by induction n. Qed.

Lemma task_run_parents g e todo ids s n :
  (length todo + 2 <= n)%nat →
  task_run n (TParents g e todo ids) s =
  (let '(r, s') := (parent_ids ← check_parents todo;
                    commit_entry (compute_entry_id e) e g (ids ++ parent_ids)) s in
   (TDone r, s')).
Proof.
  revert ids s n. induction todo as [|c todo IH]; intros ids s n Hn.
  - destruct n as [|[|n]]; simpl in *; [lia..|]. unfold mbind, prog_bind; simpl.
    rewrite app_nil_r. destruct (commit_entry _ _ _ _ s) as [r s']. apply task_run_done.
  - destruct n as [|n]; simpl in *; [lia|].
    destruct (try_into_id (cid_digest c)) as [p|]; [|apply task_run_done].
    unfold mbind, prog_bind, prog_map_err in *; simpl.
    destruct (has_entry p s) as [[[]|err] s']; simpl; [|apply task_run_done..].
    rewrite IH by lia. destruct (check_parents todo s') as [[ps|err] s'']; simpl; [|done].
    by rewrite <- app_assoc.
Qed.

(** A task that is scheduled until it is done, with nothing else running,
    computes exactly what [append] computes: one step for the duplicate check,
    one per parent, one to leave the loop and one to commit are enough. *)
Theorem task_run_append g e s :
  task_run (length (parent_cids e) + 3) (TStart g e) s =
  (let '(r, s') := append g (mkVerified e) s in (TDone r, s')).
Proof.
  rewrite Nat.add_succ_r. simpl. unfold append, mbind, prog_bind, prog_map_err; simpl.
  destruct (has_entry (compute_entry_id e) s) as [[[]|err] s']; simpl; [apply task_run_done| |apply task_run_done].
  rewrite task_run_parents by lia. done.
Qed.

End Code.

(** ** The DAG of an abstract log *)

(** The entry a parent link names. *)
Definition parent_id (c : Cid) : option LogEntryId := try_into_id (cid_digest c).

Definition parent_present (E : gmap LogEntryId AbsEntry) (c : Cid) : Prop :=
  ∃ p, parent_id c = Some p ∧ is_Some (E !! p).

(** [p] is a parent of the stored entry [id]. *)
Definition is_parent (E : gmap LogEntryId AbsEntry) (id p : LogEntryId) : Prop :=
  ∃ ae c, E !! id = Some ae ∧ c ∈ ae_parents ae ∧ parent_id c = Some p.

(** Every link of every stored entry leads to a stored entry. *)
Definition closed (E : gmap LogEntryId AbsEntry) : Prop :=
  ∀ id ae c, E !! id = Some ae → c ∈ ae_parents ae → parent_present E c.

(** Reachability through parent links. *)
Definition ancestor (E : gmap LogEntryId AbsEntry) : relation LogEntryId := rtc (is_parent E).

(** [T] is the frontier of the entries [A]: those no entry of [A] has as a
    parent. *)
Definition is_frontier (E : gmap LogEntryId AbsEntry) (A T : gset LogEntryId) : Prop :=
  ∀ x, x ∈ T ↔ x ∈ A ∧ ∀ y, y ∈ A → ¬ is_parent E y x.

Lemma is_frontier_unique E A T T' : is_frontier E A T → is_frontier E A T' → T = T'.
Proof. intros H H'. apply set_eq. intros x. by rewrite (H x), (H' x). Qed.

Lemma parent_present_mono E E' c : E ⊆ E' → parent_present E c → parent_present E' c.
Proof.
  intros Hsub (p & Hp & ae & Hae). exists p. split; [done|]. exists ae.
  by eapply lookup_weaken.
Qed.

Lemma is_parent_insert E id ae y x :
  E !! id = None →
  is_parent (<[ id := ae ]> E) y x ↔
    is_parent E y x ∨ (y = id ∧ ∃ c, c ∈ ae_parents ae ∧ parent_id c = Some x).
Proof.
  intros Hnone. unfold is_parent. destruct (decide (y = id)) as [->|Hne].
  - rewrite lookup_insert_eq, Hnone. naive_solver.
  - rewrite lookup_insert_ne by done. naive_solver.
Qed.

Lemma closed_insert E id ae :
  closed E → (∀ c, c ∈ ae_parents ae → parent_present E c) → E !! id = None →
  closed (<[ id := ae ]> E).
Proof.
  intros Hc Hp Hnone id' ae' c. assert (Hsub : E ⊆ <[id:=ae]> E) by by apply insert_subseteq.
  destruct (decide (id' = id)) as [->|Hne].
  - rewrite lookup_insert_eq. intros [= <-] ?. eapply parent_present_mono; eauto.
  - rewrite lookup_insert_ne by done. intros ? ?. eapply parent_present_mono; eauto.
Qed.

(** A stored entry's parents are stored, so an absent entry has no children. *)
Lemma closed_no_child E id y : closed E → E !! id = None → ¬ is_parent E y id.
Proof.
  intros Hc Hnone (ae & c & Hae & Hin & Hp). destruct (Hc _ _ _ Hae Hin) as (p & Hp' & [? ?]).
  congruence.
Qed.

(** The step that keeps the tips the frontier: retire the parents, add the
    entry. *)
Lemma is_frontier_insert E A T id ae (ids : list LogEntryId) :
  closed E → (∀ x, x ∈ A → is_Some (E !! x)) → E !! id = None →
  (∀ c, c ∈ ae_parents ae → parent_present E c) →
  (∀ x, x ∈ ids ↔ ∃ c, c ∈ ae_parents ae ∧ parent_id c = Some x) →
  is_frontier E A T →
  is_frontier (<[ id := ae ]> E) (A ∪ {[ id ]}) ((T ∖ list_to_set ids) ∪ {[ id ]}).
Proof.
  intros Hc HA Hnone Hpres Hids HT x.
  assert (Hchild : ∀ y, ¬ is_parent (<[ id := ae ]> E) y id).
  { intros y. rewrite is_parent_insert by done.
    intros [Hy|(-> & c & Hin & Hp)]; [by eapply closed_no_child|].
    destruct (Hpres c Hin) as (p & Hp' & [? ?]). congruence. }
  rewrite elem_of_union, elem_of_difference, elem_of_singleton, elem_of_list_to_set, (HT x), Hids.
  rewrite elem_of_union, elem_of_singleton. setoid_rewrite elem_of_union.
  setoid_rewrite elem_of_singleton.
  destruct (decide (x = id)) as [->|Hne]; [naive_solver|]. split.
  - intros [[[HxA Hno] Hnp]|?]; [|done]. split; [by left|].
    intros y Hy. rewrite is_parent_insert by done. intros [Hp|(-> & Hp)]; [|naive_solver].
    destruct Hy as [Hy| ->]; [by eapply Hno|]. destruct Hp as (? & ? & ? & _). congruence.
  - intros [[HxA|?] Hno]; [|done]. left. split_and!; [done| |].
    + intros y Hy Hp. apply (Hno y); [by left|]. apply is_parent_insert; auto.
    + intros Hp. apply (Hno id); [by right|]. apply is_parent_insert; auto.
Qed.

(** ** What [append] does to the abstract log *)

Section Spec.
Context {S : Type} {view : StorageView S} {store : LogStorage S}.
Context {slaws : LogStorageLaws S} {laws : CidLaws lib}.

Definition linked (E : gmap LogEntryId AbsEntry) (c : Cid) (p : LogEntryId) : Prop :=
  parent_id c = Some p ∧ is_Some (E !! p).

Lemma wf_compute_entry_id e : wf_id (compute_entry_id e).
Proof. apply length_sha256. Qed.

Definition append_fault (s : S) (parents : list Cid) (storable_entry : Prop) (err : AppendError) : Prop :=
  match err with
  | AppendStorage _ => ¬ reliable s ∨ ¬ storable_entry
  | MissingParent c => c ∈ parents ∧ ¬ parent_present (entries_of s) c
  end.

Lemma check_parents_ok parents s P :
  st_inv s →
  outcome s (check_parents parents)
    (λ ids s', same_log s s' ∧ Forall2 (linked (entries_of s)) parents ids)
    (append_fault s parents P).
Proof.
  revert s. induction parents as [|c parents IH]; intros s Hi; simpl.
  { by apply outcome_ret. }
  destruct (try_into_id (cid_digest c)) as [p|] eqn:Ep.
  2:{ apply outcome_throw; [done|]. split; [by left|]. intros (p & Hp & _).
      unfold parent_id in Hp. congruence. }
  apply (outcome_bind _ _ _ (λ b _, b = bool_decide (is_Some (entries_of s !! p)))).
  { apply outcome_map_err. eapply outcome_impl; [by apply has_entry_ok|done|].
    intros e [Hf _]. by left. }
  intros b s1 Hi1 Hr1 Hs1 ->. case_bool_decide as Hp; simpl.
  - pose proof Hs1 as [He1 _].
    apply (outcome_bind _ _ _ (λ ids _, Forall2 (linked (entries_of s)) parents ids)).
    { eapply outcome_impl; [by apply IH| |].
      - intros ids s2. by rewrite He1.
      - intros [err|d]; simpl; rewrite ?He1, ?elem_of_cons; tauto. }
    intros ids s2 Hi2 Hr2 Hs2 Hids. apply outcome_ret; [done|].
    split; [by transitivity s1|]. by constructor.
  - apply outcome_throw; [done|]. split; [by left|]. intros (q & Hq & ?).
    unfold parent_id in Hq. congruence.
Qed.

(** The entry is new, its parents are all stored, and the log gains exactly it
    and its tip. *)
Definition appended (s s' : S) (g : GroupName) (e : LogEntry) (ids : list LogEntryId) : Prop :=
  inserted s s' (compute_entry_id e) e ∧ advanced s s' g ids (compute_entry_id e) ∧
  Forall2 (linked (entries_of s)) (parent_cids e) ids.

Lemma commit_entry_ok g e ids s :
  st_inv s → wf_entry e →
  outcome s (commit_entry (compute_entry_id e) e g ids)
    (λ id s', id = compute_entry_id e ∧
       ((is_Some (entries_of s !! id) ∧ same_log s s') ∨
        (inserted s s' id e ∧ advanced s s' g ids id)))
    (append_fault s (parent_cids e) (storable e)).
Proof.
  intros Hi He.
  pose proof (insert_entry_and_advance_tips_ok (compute_entry_id e) e g ids (compute_entry_id e) s
    Hi He (wf_compute_entry_id e)) as H.
  unfold outcome, commit_entry in *.
  destruct (insert_entry_and_advance_tips _ _ _ _ _ s) as [[[]|err] s'].
  - destruct H as (? & ? & ? & ?). split_and!; auto.
  - destruct H as (? & ? & ? & [[-> ?]|[? Hne]]); [split_and!; auto|].
    destruct err; try (by split_and!; auto). by destruct (Hne id).
Qed.

Lemma append_outcome g e s :
  st_inv s → wf_entry e →
  outcome s (append g (mkVerified e))
    (λ id s', id = compute_entry_id e ∧
       ((is_Some (entries_of s !! id) ∧ same_log s s') ∨ ∃ ids, appended s s' g e ids))
    (append_fault s (parent_cids e) (storable e)).
Proof.
  intros Hi He. unfold append. cbv zeta. cbn [into_inner].
  apply (outcome_bind _ _ _ (λ b _, b = bool_decide (is_Some (entries_of s !! compute_entry_id e)))).
  { apply outcome_map_err. eapply outcome_impl; [by apply has_entry_ok|done|].
    intros err [Hf _]. by left. }
  intros b s1 Hi1 Hr1 Hs1 ->. pose proof Hs1 as [He1 Ht1]. case_bool_decide as Hp.
  - apply outcome_ret; [done|]. split; [done|]. by left.
  - apply (outcome_bind _ _ _ (λ ids _, Forall2 (linked (entries_of s)) (parent_cids e) ids)).
    { eapply outcome_impl;
        [by apply (check_parents_ok _ _ (storable e))|intros ids s2; by rewrite He1|].
      intros [err|c]; simpl; rewrite ?He1; [tauto|done]. }
    intros ids s2 Hi2 Hr2 Hs2 Hids. pose proof Hs2 as [He2 Ht2].
    eapply outcome_impl; [by apply commit_entry_ok| |].
    + intros id s3 [-> [[Hin _]|[[Hn Hi3] Ha3]]]; (split; [done|]).
      { rewrite He2, He1 in Hin. by destruct Hp. }
      right. exists ids. unfold appended, inserted, advanced in *. rewrite He2, He1 in *.
      split_and!; [done..| |done]. intros g'. rewrite Ha3, !Ht2, !Ht1. done.
    + intros [err|c]; simpl; rewrite ?He2, ?He1; [tauto|done].
Qed.

(** What [append] does, on every backend and every branch.  It returns the
    identifier of the entry; if the entry was stored already nothing changes;
    otherwise every parent was stored, and the log gains exactly this entry, and
    the group's tips lose exactly the parents and gain the entry.  A missing
    parent is reported by name and nothing changes; a storage error leaves the
    log as it was and only happens when the backend fails or cannot represent
    the entry. *)
Theorem append_spec g e s r s' :
  st_inv s → wf_entry e → append g (mkVerified e) s = (r, s') →
  st_inv s' ∧
  match r with
  | Ok id => id = compute_entry_id e ∧
      ((is_Some (entries_of s !! id) ∧ same_log s s') ∨
       (∃ ids, inserted s s' id e ∧ advanced s s' g ids id ∧
               Forall2 (linked (entries_of s)) (parent_cids e) ids))
  | Err (MissingParent c) =>
      same_log s s' ∧ c ∈ parent_cids e ∧ ¬ parent_present (entries_of s) c
  | Err (AppendStorage _) => same_log s s' ∧ (¬ reliable s ∨ ¬ storable e)
  end.
Proof.
  intros Hi He Happ. pose proof (append_outcome g e s Hi He) as H. unfold outcome in H.
  rewrite Happ in H. destruct r as [id|[err|c]].
  - destruct H as (? & _ & -> & [?|(ids & ? & ? & ?)]); eauto 10.
  - naive_solver.
  - naive_solver.
Qed.

End Spec.

(** ** Concurrent appends *)

Section Concurrent.
Context {S : Type} {view : StorageView S} {store : LogStorage S}.
Context {slaws : LogStorageLaws S} {laws : CidLaws lib}.

(** Running appends over a shared store, and the history of which entry was
    added to which group. *)
Record System := mkSys {
  tasks : list Task;
  shared : S;
  history : list (GroupName * LogEntryId)
}.

Definition members (h : list (GroupName * LogEntryId)) (g : GroupName) : gset LogEntryId :=
  list_to_set (omap (λ x, if decide (x.1 = g) then Some x.2 else None) h).

Definition new_history (t : Task) (s s' : S) (h : list (GroupName * LogEntryId)) :
    list (GroupName * LogEntryId) :=
  match t with
  | TInsert g e _ =>
      let id := compute_entry_id e in
      if negb (bool_decide (is_Some (entries_of s !! id))) && bool_decide (is_Some (entries_of s' !! id))
      then (g, id) :: h else h
  | _ => h
  end.

(** A new append arrives, or one of the running ones makes its next storage
    call. *)
Inductive cstep : System → System → Prop :=
| step_spawn ts s h g e :
    wf_entry e → cstep (mkSys ts s h) (mkSys (ts ++ [TStart g e]) s h)
| step_task ts s h i t t' s' :
    ts !! i = Some t → task_step t s = (t', s') →
    cstep (mkSys ts s h) (mkSys (<[ i := t' ]> ts) s' (new_history t s s' h)).

Lemma elem_of_members h g x : x ∈ members h g ↔ (g, x) ∈ h.
Proof.
  unfold members. rewrite elem_of_list_to_set, list_elem_of_omap. split.
  - intros ([g' y] & Hin & Heq). simpl in Heq. case_decide; naive_solver.
  - intros Hin. exists (g, x). simpl. by rewrite decide_True.
Qed.

Lemma members_cons h g x g' :
  members ((g, x) :: h) g' = if decide (g' = g) then members h g' ∪ {[ x ]} else members h g'.
Proof.
  apply set_eq. intros y. rewrite elem_of_members, elem_of_cons. case_decide as Hg.
  - rewrite elem_of_union, elem_of_singleton, elem_of_members. naive_solver.
  - rewrite elem_of_members. naive_solver.
Qed.

(** What each task knows about the log, and keeps knowing while it grows. *)
Definition task_ok (E : gmap LogEntryId AbsEntry) (t : Task) : Prop :=
  match t with
  | TStart _ e => wf_entry e
  | TParents _ e todo ids =>
      wf_entry e ∧ ∃ checked, parent_cids e = checked ++ todo ∧ Forall2 (linked E) checked ids
  | TInsert _ e ids => wf_entry e ∧ Forall2 (linked E) (parent_cids e) ids
  | TDone (Ok id) => is_Some (E !! id)
  | TDone (Err _) => True
  end.

(** The log part of the invariant: closed under parents, the tips of each group
    are the frontier of what was added to it, and they cover all of it. *)
Definition log_ok (s : S) (h : list (GroupName * LogEntryId)) : Prop :=
  st_inv s ∧ closed (entries_of s) ∧
  (∀ g id, (g, id) ∈ h → is_Some (entries_of s !! id)) ∧
  (∀ g, is_frontier (entries_of s) (members h g) (tips_of s g)) ∧
  (∀ g x, (g, x) ∈ h → ∃ t, t ∈ tips_of s g ∧ ancestor (entries_of s) t x).

Definition sys_ok (sys : System) : Prop :=
  log_ok (shared sys) (history sys) ∧ Forall (task_ok (entries_of (shared sys))) (tasks sys).

Lemma linked_mono E E' c p : E ⊆ E' → linked E c p → linked E' c p.
Proof. intros Hsub (Hp & ae & Hae). split; [done|]. exists ae. by eapply lookup_weaken. Qed.

Lemma task_ok_mono E E' t : E ⊆ E' → task_ok E t → task_ok E' t.
Proof.
  intros Hsub. assert (Hl : ∀ cs ids, Forall2 (linked E) cs ids → Forall2 (linked E') cs ids).
  { intros cs ids Hf. eapply Forall2_impl; [exact Hf|]. intros c p. by apply linked_mono. }
  destruct t as [| | |[id|]]; simpl; [done|naive_solver|naive_solver| |done].
  intros [ae Hae]. exists ae. by eapply lookup_weaken.
Qed.

Lemma log_ok_same s s' h : log_ok s h → st_inv s' → same_log s s' → log_ok s' h.
Proof.
  intros (_ & Hc & Hm & Hf & Hr) Hi [He Ht]. unfold log_ok. rewrite He.
  split_and!; [done..| |]; intros g; rewrite Ht; auto.
Qed.

Lemma ancestor_insert E id ae t x :
  E !! id = None → ancestor E t x → ancestor (<[ id := ae ]> E) t x.
Proof.
  intros Hn. apply rtc_subrel. intros y z Hyz. apply is_parent_insert; auto.
Qed.

Lemma is_frontier_other E A T id ae :
  E !! id = None → (∀ x, x ∈ A → is_Some (E !! x)) →
  is_frontier E A T → is_frontier (<[ id := ae ]> E) A T.
Proof.
  intros Hn HA HT x. rewrite (HT x). split; intros [HxA Hno]; (split; [done|]); intros y Hy Hp;
    apply (Hno y Hy).
  - apply is_parent_insert in Hp as [?|[-> _]]; [done| |done].
    destruct (HA _ Hy). congruence.
  - apply is_parent_insert; auto.
Qed.

Lemma linked_ids E e ids :
  Forall2 (linked E) (parent_cids e) ids →
  (∀ c, c ∈ ae_parents (entry_view e) → parent_present E c) ∧
  (∀ x, x ∈ ids ↔ ∃ c, c ∈ ae_parents (entry_view e) ∧ parent_id c = Some x).
Proof.
  intros Hf. simpl. setoid_rewrite elem_of_list_to_set. split.
  - intros c Hc. apply list_elem_of_lookup in Hc as [i Hi].
    destruct (Forall2_lookup_l _ _ _ _ _ Hf Hi) as (p & _ & Hp & ?). by exists p.
  - intros x. split.
    + intros Hx. apply list_elem_of_lookup in Hx as [i Hi].
      destruct (Forall2_lookup_r _ _ _ _ _ Hf Hi) as (c & Hc & Hp & _).
      exists c. split; [by eapply list_elem_of_lookup_2|done].
    + intros (c & Hc & Hp). apply list_elem_of_lookup in Hc as [i Hi].
      destruct (Forall2_lookup_l _ _ _ _ _ Hf Hi) as (p & Hip & Hp' & _).
      replace x with p by congruence. by eapply list_elem_of_lookup_2.
Qed.

(** Adding an entry whose parents are stored keeps the log invariant. *)
Lemma log_ok_insert s s' h g e ids :
  log_ok s h → st_inv s' → inserted s s' (compute_entry_id e) e →
  advanced s s' g ids (compute_entry_id e) → Forall2 (linked (entries_of s)) (parent_cids e) ids →
  log_ok s' ((g, compute_entry_id e) :: h).
Proof.
  set (id := compute_entry_id e). intros (_ & Hc & Hm & Hf & Hr) Hi [Hn He] Hadv Hlk.
  destruct (linked_ids _ _ _ Hlk) as [Hpres Hids]. unfold log_ok. rewrite He. split_and!.
  - done.
  - by apply closed_insert.
  - intros g' x [[= -> ->]|Hx]%elem_of_cons; [by rewrite lookup_insert_eq|].
    destruct (decide (x = id)) as [->|]; [by rewrite lookup_insert_eq|].
    rewrite lookup_insert_ne by done. by eapply Hm.
  - intros g'. rewrite members_cons, (Hadv g').
    assert (HA : ∀ g x, x ∈ members h g → is_Some (entries_of s !! x)).
    { intros g0 x Hx%elem_of_members. by eapply Hm. }
    case_decide as Hg; [subst|by apply is_frontier_other; [|apply HA|]].
    by apply is_frontier_insert; [|apply HA|..].
  - intros g' x Hx. rewrite (Hadv g'). apply elem_of_cons in Hx as [[= -> ->]|Hx].
    { rewrite decide_True by done. exists id. split; [set_solver|apply rtc_refl]. }
    destruct (Hr g' x Hx) as (t & Ht & Hanc). apply (ancestor_insert _ id (entry_view e)) in Hanc; [|done].
    case_decide as Hg; [subst|by exists t]. destruct (decide (t ∈ ids)) as [Hin|Hin].
    + exists id. split; [set_solver|]. eapply rtc_l; [|exact Hanc].
      apply is_parent_insert; [done|]. right. split; [done|]. by apply Hids.
    + exists t. split; [set_solver|done].
Qed.

(** One storage call of a task: the log only grows, and both invariants hold
    after it. *)
Lemma task_step_ok t s t' s' h :
  log_ok s h → task_ok (entries_of s) t → task_step t s = (t', s') →
  log_ok s' (new_history t s s' h) ∧ task_ok (entries_of s') t' ∧ entries_of s ⊆ entries_of s'.
Proof.
  intros Hlog Ht Hstep. pose proof Hlog as (Hi & _).
  destruct t as [g e|g e [|c todo] ids|g e ids|r]; simpl in *.
  - pose proof (has_entry_ok (compute_entry_id e) s Hi) as Hh. unfold outcome in Hh.
    destruct (has_entry (compute_entry_id e) s) as [[b|err] s1];
      destruct Hh as (Hi1 & _ & Hs1 & Hb); pose proof (log_ok_same _ _ _ Hlog Hi1 Hs1);
      destruct Hs1 as [He _]; [destruct b|]; simplify_eq; rewrite He; (split; [done|split; [|done]]).
    + symmetry in Hb. by apply bool_decide_eq_true in Hb.
    + simpl. split; [done|]. exists []. by split; [|constructor].
    + done.
  - simplify_eq. destruct Ht as (He & checked & Hp & Hf). rewrite app_nil_r in Hp.
    simpl. by rewrite Hp.
  - destruct Ht as (He & checked & Hp & Hf).
    destruct (try_into_id (cid_digest c)) as [p|] eqn:Ep; [|by simplify_eq].
    pose proof (has_entry_ok p s Hi) as Hh. unfold outcome in Hh.
    destruct (has_entry p s) as [[b|err] s1];
      destruct Hh as (Hi1 & _ & Hs1 & Hb); pose proof (log_ok_same _ _ _ Hlog Hi1 Hs1);
      destruct Hs1 as [Hes _]; [destruct b|]; simplify_eq; rewrite Hes; (split; [done|split; [|done]]);
      [|done|done].
    symmetry in Hb. apply bool_decide_eq_true in Hb. split; [done|].
    exists (checked ++ [c]). split; [by rewrite <- app_assoc|].
    apply Forall2_app; [done|]. by repeat constructor.
  - destruct Ht as (He & Hf).
    pose proof (commit_entry_ok g e ids s Hi He) as Hc. unfold outcome in Hc.
    destruct (commit_entry (compute_entry_id e) e g ids s) as [[id|err] s1]; simplify_eq.
    + destruct Hc as (Hi1 & _ & -> & [[Hin Hs1]|[Hins Hadv]]).
      * rewrite (bool_decide_eq_true_2 _ Hin). simpl. pose proof (log_ok_same _ _ _ Hlog Hi1 Hs1).
        by destruct Hs1 as [-> _].
      * pose proof (log_ok_insert _ _ _ _ _ _ Hlog Hi1 Hins Hadv Hf) as Hok. destruct Hins as [Hn Hes].
        rewrite Hes, Hn, lookup_insert_eq, bool_decide_eq_false_2 by (by intros [? ?]).
        split_and!; [done|simpl; by rewrite lookup_insert_eq|by apply insert_subseteq].
    + destruct Hc as (Hi1 & _ & Hs1 & _). pose proof (log_ok_same _ _ _ Hlog Hi1 Hs1).
      destruct Hs1 as [Hes _]. rewrite Hes, andb_negb_l. done.
  - by simplify_eq.
Qed.

Lemma cstep_ok sys sys' : sys_ok sys → cstep sys sys' → sys_ok sys'.
Proof.
  intros [Hlog Hts] Hstep. destruct Hstep as [ts s h g e He|ts s h i t t' s' Hi Ht]; simpl in *.
  - split; [done|]. simpl. apply Forall_app. split; [done|]. by apply Forall_singleton.
  - pose proof (Forall_lookup_1 _ _ _ _ Hts Hi) as Hok.
    destruct (task_step_ok _ _ _ _ _ Hlog Hok Ht) as (Hlog' & Hok' & Hsub).
    split; [done|]. simpl. apply Forall_insert; [|done].
    eapply Forall_impl; [exact Hts|]. intros t0. by apply task_ok_mono.
Qed.

Definition empty_log (s : S) : Prop :=
  st_inv s ∧ entries_of s = ∅ ∧ ∀ g, tips_of s g = ∅.

Lemma empty_log_ok s : empty_log s → log_ok s [].
Proof.
  intros (Hi & He & Ht). unfold log_ok. rewrite He. split_and!; [done|..].
  - by intros ? ? ? ?%lookup_empty_Some.
  - by intros ? ? ?%not_elem_of_nil.
  - intros g x. rewrite Ht. set_solver.
  - by intros ? ? ?%not_elem_of_nil.
Qed.

(** C15. Starting from an empty log, after any number of concurrent appends
    interleaved at any of their storage calls, finished or not: every link of
    every stored entry leads to a stored entry; the tips of each group are
    exactly the entries added to it that no entry added to it has as a parent;
    every entry ever added to a group is still reachable from its tips; and
    every append that reported success has its entry in the log. *)
Theorem concurrent_appends_keep_frontier s sys g :
  empty_log s → rtc cstep (mkSys [] s []) sys →
  closed (entries_of (shared sys)) ∧
  is_frontier (entries_of (shared sys)) (members (history sys) g) (tips_of (shared sys) g) ∧
  (∀ x, x ∈ members (history sys) g →
     ∃ t, t ∈ tips_of (shared sys) g ∧ ancestor (entries_of (shared sys)) t x) ∧
  (∀ id, TDone (Ok id) ∈ tasks sys → is_Some (entries_of (shared sys) !! id)).
Proof.
  intros Hs Hrun.
  assert (Hok : sys_ok sys).
  { assert (H0 : sys_ok (mkSys [] s [])) by (split; [by apply empty_log_ok|constructor]).
    clear Hs. induction Hrun as [|? ? ? Hstep _ IH]; [done|]. apply IH. by eapply cstep_ok. }
  destruct Hok as ((_ & Hc & _ & Hf & Hr) & Hts). split_and!; [done|apply Hf| |].
  - intros x Hx%elem_of_members. by apply Hr.
  - intros id Hin. rewrite Forall_forall in Hts. by apply Hts in Hin.
Qed.

(** A schedule, executed: which append arrives or moves next. *)
Inductive Event :=
| ESpawn (g : GroupName) (e : LogEntry)
| EStep (i : nat).

Definition cexec (sys : System) (ev : Event) : System :=
  match ev with
  | ESpawn g e => mkSys (tasks sys ++ [TStart g e]) (shared sys) (history sys)
  | EStep i =>
      match tasks sys !! i with
      | None => sys
      | Some t =>
          let '(t', s') := task_step t (shared sys) in
          mkSys (<[ i := t' ]> (tasks sys)) s' (new_history t (shared sys) s' (history sys))
      end
  end.

Lemma cexec_run sys evs :
  Forall (λ ev, match ev with ESpawn _ e => wf_entry e | EStep _ => True end) evs →
  rtc cstep sys (foldl cexec sys evs).
Proof.
  intros Hwf. revert sys. induction Hwf as [|ev evs Hev _ IH]; intros sys; [done|]. simpl.
  destruct sys as [ts s h], ev as [g e|i]; simpl.
  - eapply rtc_l; [by apply (step_spawn ts s h g e)|apply IH].
  - destruct (ts !! i) as [t|] eqn:Ei; [|apply IH].
    destruct (task_step t s) as [t' s'] eqn:Et. eapply rtc_l; [by eapply step_task|apply IH].
Qed.

End Concurrent.

(** ** Convergence *)

(** Parents before children. *)
Definition causal (l : list LogEntry) : Prop :=
  ∀ pre e post, l = pre ++ e :: post →
    Forall (λ c, ∃ e', e' ∈ pre ∧ parent_id c = Some (compute_entry_id e')) (parent_cids e).

(** Entries with the same identifier are the same entry: no SHA-256 collision
    among them (see [LogEntry.entry_id_binds]). *)
Definition no_collisions (l : list LogEntry) : Prop :=
  ∀ e1 e2, e1 ∈ l → e2 ∈ l → compute_entry_id e1 = compute_entry_id e2 →
    entry_view e1 = entry_view e2.

Lemma no_collisions_NoDup l : NoDup (compute_entry_id <$> l) → no_collisions l.
Proof.
  intros Hnd e1 e2 H1 H2 Heq. f_equal.
  apply list_elem_of_lookup in H1 as [i Hi], H2 as [j Hj].
  assert (i = j) as <-; [|congruence].
  eapply NoDup_lookup; [exact Hnd| |]; rewrite list_lookup_fmap, ?Hi, ?Hj; simpl; [done|by rewrite Heq].
Qed.

Fixpoint causalb (seen l : list LogEntry) : bool :=
  match l with
  | [] => true
  | e :: l' =>
      forallb (λ c, existsb (λ e', bool_decide (parent_id c = Some (compute_entry_id e'))) seen)
        (parent_cids e) && causalb (seen ++ [e]) l'
  end.

Lemma causalb_sound l : causalb [] l = true → causal l.
Proof.
  intros Hl pre e post ->.
  assert (Hgen : ∀ seen, causalb seen (pre ++ e :: post) = true →
    Forall (λ c, ∃ e', e' ∈ seen ++ pre ∧ parent_id c = Some (compute_entry_id e')) (parent_cids e)).
  { clear Hl. induction pre as [|x pre IH]; intros seen Hs; simpl in Hs; to_prop.
    - rewrite app_nil_r. apply forallb_spec in H. eapply Forall_impl; [exact H|]. intros c Hc.
      apply existsb_spec, Exists_exists in Hc as (e' & He' & Hp%bool_decide_eq_true). eauto.
    - apply IH in H0. by rewrite <- app_assoc in H0. }
  by apply (Hgen []).
Qed.

Definition log_of (l : list LogEntry) : gmap LogEntryId AbsEntry :=
  list_to_map ((λ e, (compute_entry_id e, entry_view e)) <$> l).

Lemma lookup_log_of l id ae :
  no_collisions l → log_of l !! id = Some ae ↔
  ∃ e, e ∈ l ∧ compute_entry_id e = id ∧ entry_view e = ae.
Proof.
  unfold log_of. induction l as [|e l IH]; intros Hnc; simpl.
  - rewrite lookup_empty. split; [done|]. by intros (? & ?%not_elem_of_nil & _).
  - assert (Hnc' : no_collisions l) by (intros e1 e2 ? ?; apply Hnc; by right).
    destruct (decide (compute_entry_id e = id)) as [<-|Hne].
    + rewrite lookup_insert_eq. split.
      * intros [= <-]. exists e. split; [by left|done].
      * intros (e' & He' & Hid & <-). f_equal. apply Hnc; [by left|done|done].
    + rewrite lookup_insert_ne, (IH Hnc') by done. setoid_rewrite elem_of_cons. naive_solver.
Qed.

(** Logs that hold the same entries are equal, whatever the order. *)
Lemma log_of_ext l1 l2 :
  no_collisions l1 → (∀ e, e ∈ l1 ↔ e ∈ l2) → log_of l1 = log_of l2.
Proof.
  intros H1 Heq. assert (H2 : no_collisions l2).
  { intros e1 e2 ?%Heq ?%Heq. by apply H1. }
  apply map_eq. intros id. apply option_eq. intros ae.
  rewrite !lookup_log_of by done. by setoid_rewrite Heq.
Qed.

Lemma log_of_snoc l e :
  no_collisions (l ++ [e]) →
  log_of (l ++ [e]) = <[ compute_entry_id e := entry_view e ]> (log_of l).
Proof.
  intros Hnc. change (<[ compute_entry_id e := entry_view e ]> (log_of l)) with (log_of (e :: l)).
  apply log_of_ext; [done|]. set_solver.
Qed.

Section Replica.
Context {S : Type} {view : StorageView S} {store : LogStorage S}.
Context {slaws : LogStorageLaws S} {laws : CidLaws lib}.

(** A replica that appends what it is given to one group, in order. *)
Definition append_all (g : GroupName) (l : list LogEntry) (s : S) : S :=
  foldl (λ s e, (append g (mkVerified e) s).2) s l.

(** What a replica holds after a causal delivery. *)
Definition replica_ok (g : GroupName) (l : list LogEntry) (s : S) : Prop :=
  st_inv s ∧ reliable s ∧ closed (entries_of s) ∧ entries_of s = log_of l ∧
  is_frontier (entries_of s) (dom (entries_of s)) (tips_of s g).

Lemma append_all_ok g l s :
  empty_log s → reliable s → Forall (λ e, wf_entry e ∧ storable e) l → causal l →
  no_collisions l → replica_ok g l (append_all g l s).
Proof.
  intros (Hi & He & Ht) Hrel. induction l as [|e l IH] using rev_ind; intros Hwf Hcau Hnc.
  { unfold replica_ok. simpl. rewrite He. split_and!; [done|done| |done|].
    - by intros ? ? ? ?%lookup_empty_Some.
    - intros x. rewrite Ht, dom_empty_L. set_solver. }
  apply Forall_app in Hwf as [Hwf [Hwe Hse]%Forall_singleton].
  destruct IH as (Hi1 & Hr1 & Hc1 & He1 & Hf1); [done| | |].
  { intros pre e' post ->. apply (Hcau pre e' (post ++ [e])). by rewrite <- app_assoc. }
  { intros e1 e2 ? ?. apply Hnc; set_solver. }
  unfold append_all in *. rewrite foldl_app. simpl. set (s1 := foldl _ s l) in *.
  unfold replica_ok. rewrite log_of_snoc by done.
  pose proof (append_outcome g e s1 Hi1 Hwe) as Happ. unfold outcome in Happ.
  destruct (append g (mkVerified e) s1) as [[id|err] s2]; simpl.
  - destruct Happ as (Hi2 & Hr2 & -> & [[[ae Hin] [Hes Hts]]|(ids & [Hn Hes] & Hadv & Hlk)]).
    + rewrite Hes, Hts. split_and!; [done|auto|done| |done]. rewrite He1. symmetry. apply insert_id.
      rewrite He1 in Hin. rewrite Hin. apply lookup_log_of in Hin as (e' & He' & Hid & <-).
      * f_equal. apply Hnc; set_solver.
      * intros e1 e2 ? ?. apply Hnc; set_solver.
    + destruct (linked_ids _ _ _ Hlk) as [Hpres Hids]. rewrite Hes.
      split_and!; [done|auto|by apply closed_insert|by rewrite He1|].
      rewrite dom_insert_L, (union_comm_L {[ _ ]}), (Hadv g), decide_True by done.
      apply is_frontier_insert; try done. intros x. by rewrite elem_of_dom.
  - destruct Happ as (_ & _ & _ & Herr). destruct err as [err|c]; simpl in Herr; [naive_solver|].
    destruct Herr as [Hc Hno]. destruct Hno.
    specialize (Hcau l e [] eq_refl). rewrite Forall_forall in Hcau.
    destruct (Hcau c Hc) as (e' & He' & Hp). exists (compute_entry_id e'). split; [done|].
    rewrite He1. exists (entry_view e'). apply lookup_log_of; [|eauto].
    intros e1 e2 ? ?. apply Hnc; set_solver.
Qed.

End Replica.

(** C16. Convergence.  Two replicas, on any backends, that append the same
    entries to a group, each in some order in which parents come before
    children, end with the same entries and the same tips: all of the entries,
    and exactly those that are nobody's parent.  Neither the order of delivery
    nor repeated deliveries matter. *)
Theorem replicas_converge {S1 S2 : Type} {view1 : StorageView S1} {store1 : LogStorage S1}
    {slaws1 : LogStorageLaws S1} {view2 : StorageView S2} {store2 : LogStorage S2}
    {slaws2 : LogStorageLaws S2} {laws : CidLaws lib} g (l1 l2 : list LogEntry) (s1 : S1) (s2 : S2) :
  empty_log s1 → empty_log s2 → reliable s1 → reliable s2 →
  Forall (λ e, wf_entry e ∧ storable (S := S1) e ∧ storable (S := S2) e) l1 →
  (∀ e, e ∈ l1 ↔ e ∈ l2) → causal l1 → causal l2 → no_collisions l1 →
  entries_of (append_all g l1 s1) = entries_of (append_all g l2 s2) ∧
  tips_of (append_all g l1 s1) g = tips_of (append_all g l2 s2) g ∧
  entries_of (append_all g l1 s1) = log_of l1 ∧
  is_frontier (log_of l1) (dom (log_of l1)) (tips_of (append_all g l1 s1) g).
Proof.
  intros Hs1 Hs2 Hr1 Hr2 Hwf Heq Hc1 Hc2 Hnc.
  assert (Hnc2 : no_collisions l2) by (intros e1 e2 ?%Heq ?%Heq; by apply Hnc).
  rewrite Forall_forall in Hwf.
  destruct (append_all_ok g l1 s1) as (_ & _ & _ & He1 & Hf1); [done|done| |done|done|].
  { apply Forall_forall. intros e He%Hwf. tauto. }
  destruct (append_all_ok g l2 s2) as (_ & _ & _ & He2 & Hf2); [done|done| |done|done|].
  { apply Forall_forall. intros e He%Heq%Hwf. tauto. }
  assert (Hlog : log_of l1 = log_of l2) by (by apply log_of_ext).
  rewrite He1 in *. rewrite He2 in *. split_and!; [done| |done|done].
  rewrite Hlog in Hf1. by eapply is_frontier_unique.
Qed.

End Append.

(** ** Concrete logs *)

Module AppendSamples.
Import ToyCrypto LogEntry.Samples MemStorage SqliteStorage SqlSamples.

Definition grp : GroupName := mkGroupName (lit "comp.lang.rust").

Definition root : LogEntry := signed_entry (mkTs 1 0 [0]) cid_a [].
Definition left_entry : LogEntry :=
  signed_entry (mkTs 2 0 [0]) cid_p [to_cid (compute_entry_id root)].
Definition right_entry : LogEntry :=
  signed_entry (mkTs 3 0 [0]) cid_q [to_cid (compute_entry_id root)].

Lemma mem_new_empty : empty_log mem_new.
Proof.
  split_and!; simpl; [|done|].
  - intros g. unfold mem_tip_list. simpl. rewrite lookup_empty. apply NoDup_nil_2.
  - intros g. unfold mem_tip_list. simpl. by rewrite lookup_empty.
Qed.

Lemma mem_new_lookup id : entries_of mem_new !! id = None.
Proof. simpl. by rewrite fmap_empty, lookup_empty. Qed.

Lemma sql_empty : empty_log sql_new.
Proof.
  split_and!; [apply sql_new_wf| |done]. apply map_empty. intros id. apply sql_new_empty.
Qed.

Lemma wf_signed ts a ps : in_u64 (wall_ms ts) → wf_entry (signed_entry ts a ps).
Proof. done. Qed.

Lemma wf_samples : wf_entry root ∧ wf_entry left_entry ∧ wf_entry right_entry.
Proof. split_and!; apply wf_signed; by vm_compute. Qed.

Definition after_root : MemLogStorage := (append grp (mkVerified root) mem_new).2.

Lemma append_root : append grp (mkVerified root) mem_new = (Ok (compute_entry_id root), after_root).
Proof. vm_refl. Qed.

Lemma append_orphan :
  append grp (mkVerified left_entry) mem_new =
  (Err (MissingParent (to_cid (compute_entry_id root))), mem_new).
Proof. vm_refl. Qed.

Lemma append_spec_witness :
  is_Some (entries_of after_root !! compute_entry_id root) ∧
  ¬ parent_present (entries_of mem_new) (to_cid (compute_entry_id root)).
Proof.
  destruct wf_samples as (Hw & Hwl & _). split.
  - destruct (append_spec _ _ _ _ _ (proj1 mem_new_empty) Hw append_root) as
      (_ & _ & [[Hin _]|(ids & [_ He] & _)]).
    + exact (False_ind _ (is_Some_None (eq_ind _ is_Some Hin _ (mem_new_lookup _)))).
    + rewrite He, lookup_insert_eq. eexists. reflexivity.
  - destruct (append_spec _ _ _ _ _ (proj1 mem_new_empty) Hwl append_orphan) as (_ & _ & _ & Hno).
    exact Hno.
Defined.

Definition schedule : list Event :=
  [ESpawn grp root; EStep 0; EStep 0; EStep 0; ESpawn grp left_entry; ESpawn grp right_entry;
   EStep 1; EStep 2; EStep 1; EStep 2; EStep 2; EStep 1; EStep 1; EStep 2].

Definition after_schedule : System := foldl cexec (mkSys [] mem_new []) schedule.

(** Two appends racing on the same parent both survive as tips. *)
Lemma concurrent_appends_keep_frontier_witness :
  length (history after_schedule) = 3%nat ∧
  is_frontier (entries_of (shared after_schedule)) (members (history after_schedule) grp)
    (tips_of (shared after_schedule) grp).
Proof.
  destruct wf_samples as (Hw & Hwl & Hwr). split; [vm_refl|].
  apply (concurrent_appends_keep_frontier mem_new after_schedule grp mem_new_empty).
  apply cexec_run. repeat apply Forall_cons_2;
    [exact Hw|exact I|exact I|exact I|exact Hwl|exact Hwr|exact I..|apply Forall_nil_2].
Defined.

Definition delivery1 : list LogEntry := [root; left_entry; right_entry].
Definition delivery2 : list LogEntry := [root; right_entry; root; left_entry].

Lemma same_elements {A} (x y z e : A) : e ∈ [x; y; z] ↔ e ∈ [x; z; x; y].
Proof. set_solver. Qed.

Lemma storable_signed ts a ps :
  wall_ms ts <= i64_max → storable (S := SqlDb) (signed_entry ts a ps).
Proof. done. Qed.

Lemma storable_root : storable (S := SqlDb) root.
Proof. apply storable_signed. done. Qed.

Lemma storable_left : storable (S := SqlDb) left_entry.
Proof. apply storable_signed. done. Qed.

Lemma storable_right : storable (S := SqlDb) right_entry.
Proof. apply storable_signed. done. Qed.

(** An in-memory replica and a SQL replica given the same entries in different
    orders agree. *)
Lemma replicas_converge_witness :
  tips_of (append_all grp delivery1 mem_new) grp = tips_of (append_all grp delivery2 sql_new) grp.
Proof.
  destruct wf_samples as (Hw & Hwl & Hwr).
  destruct (replicas_converge grp delivery1 delivery2 mem_new sql_new mem_new_empty sql_empty)
    as (_ & Htips & _).
  - done.
  - apply Forall_nil_2.
  - repeat apply Forall_cons_2;
      [exact (conj Hw (conj I storable_root))|exact (conj Hwl (conj I storable_left))
      |exact (conj Hwr (conj I storable_right))|apply Forall_nil_2].
  - apply same_elements.
  - apply causalb_sound. vm_refl.
  - apply causalb_sound. vm_refl.
  - apply no_collisions_NoDup. eapply bool_decide_eq_true_1. vm_refl.
  - exact Htips.
Defined.

End AppendSamples.

End Append.
