(* ===== verification/AppendTips.v ===== *)
(** Appending on top of a group's current tips.

    Both ingestion paths (the transit pipeline and the reader's POST) list a
    group's tips, make them the parents of a new entry and append it.  This file
    proves once what that does to the log: either an entry with the same
    identifier is already stored and nothing changes, or the group is left with
    the new entry as its only tip.  [grown] is the same for a list of groups. *)

From S2P Require Import Prelude Bytes Crypto Article Canonical Hlc LogEntry LogStorage Append.

Module AppendTips.
Import Article Hlc LogEntry LogStorage Append.

Section AppendTips.
Context {lib : CidLib} {S : Type} {view : StorageView S} {store : LogStorage S}.
Context {slaws : LogStorageLaws S} {laws : CidLaws lib}.

(** The group [g] has [id] as its only tip, the other groups their old tips. *)
Definition sole_tip (s s' : S) (g : GroupName) (id : LogEntryId) : Prop :=
  ∀ g', tips_of s' g' = if decide (g' = g) then {[ id ]} else tips_of s g'.

(** Every tip is the identifier of a stored entry. *)
Definition tips_stored (s : S) : Prop :=
  ∀ g id, id ∈ tips_of s g → wf_id id ∧ is_Some (entries_of s !! id).

(** What appending [e] to [g] on top of all its tips does. *)
Definition extended (s s' : S) (g : GroupName) (e : LogEntry) : Prop :=
  (is_Some (entries_of s !! from_entry e) ∧ same_log s s') ∨
  (inserted s s' (from_entry e) e ∧ sole_tip s s' g (from_entry e)).

Lemma parent_id_to_cid id : wf_id id → parent_id (to_cid id) = Some id.
Proof.
  unfold parent_id, to_cid, try_into_id, wf_id. rewrite cid_new_v1_digest. intros ->.
  by destruct id.
Qed.

Lemma linked_to_cid E l ids : Forall2 (linked E) (to_cid <$> l) ids → ids = l.
Proof.
  rewrite Forall2_fmap_l. induction 1 as [|id p l' ids' [Hp _] _ IH]; [done|].
  f_equal; [|done]. unfold parent_id, to_cid, try_into_id in Hp. rewrite cid_new_v1_digest in Hp.
  destruct (_ =? _)%nat; [|done]. destruct id. simpl in Hp. congruence.
Qed.

Lemma append_on_tips g e tips s :
  st_inv s → wf_entry e → list_to_set tips = tips_of s g → parent_cids e = to_cid <$> tips →
  outcome s (append g (mkVerified e)) (λ id s', id = from_entry e ∧ extended s s' g e)
    (λ _, ¬ reliable s ∨ ¬ storable e ∨ ¬ tips_stored s).
Proof.
  intros Hi He Htips Hps. eapply outcome_impl; [by apply append_outcome| |].
  - intros id s' [-> Hcase]. split; [done|].
    destruct Hcase as [?|(ids & Hins & Hadv & Hl)]; [by left|right]. split; [done|].
    rewrite Hps in Hl. apply linked_to_cid in Hl as ->.
    intros g'. rewrite (Hadv g'), Htips. case_decide; [|done]. subst. set_solver.
  - intros [err|c]; simpl; [tauto|]. intros [Hc Hno]. right; right. intros Hts. apply Hno.
    rewrite Hps in Hc. apply list_elem_of_fmap in Hc as (id & -> & Hid).
    destruct (Hts g id) as [Hw ?]; [rewrite <- Htips; by apply elem_of_list_to_set|].
    exists id. split; [by apply parent_id_to_cid|done].
Qed.

Lemma extended_same_l s s1 s' g e : same_log s s1 → extended s1 s' g e → extended s s' g e.
Proof.
  intros [He Ht]. unfold extended, inserted, sole_tip, same_log. rewrite He.
  intros [(? & ? & Ht')|[? Ht']]; [left; split_and!; [done..|]|right; split; [done|]];
    intros g'; by rewrite Ht', ?Ht.
Qed.

Lemma extended_mono s s' g e : extended s s' g e → entries_of s ⊆ entries_of s'.
Proof.
  intros [[_ [-> _]]|[[Hn ->] _]]; [done|]. by apply insert_subseteq.
Qed.

Lemma extended_present s s' g e : extended s s' g e → is_Some (entries_of s' !! from_entry e).
Proof.
  intros [[? [-> _]]|[[Hn ->] _]]; [done|]. rewrite lookup_insert_eq. eauto.
Qed.

Lemma extended_gain s s' g e id ae :
  extended s s' g e → entries_of s' !! id = Some ae →
  entries_of s !! id = Some ae ∨ (id = from_entry e ∧ ae = entry_view e).
Proof.
  intros [[_ [-> _]]|[[Hn ->] _]]; [auto|].
  intros [[<- <-]|[_ ?]]%lookup_insert_Some; auto.
Qed.

Lemma extended_tips_stored s s' g e : extended s s' g e → tips_stored s → tips_stored s'.
Proof.
  intros Hext Hts g' id Hid. pose proof (extended_mono _ _ _ _ Hext) as Hsub.
  assert (Hold : id ∈ tips_of s g' → wf_id id ∧ is_Some (entries_of s' !! id)).
  { intros [? [ae ?]]%Hts. split; [done|]. exists ae. by eapply lookup_weaken. }
  pose proof (extended_present _ _ _ _ Hext). destruct Hext as [[_ [_ Ht]]|[_ Ht]].
  - rewrite Ht in Hid. auto.
  - rewrite (Ht g') in Hid. case_decide; [|auto]. apply elem_of_singleton in Hid as ->.
    split; [apply (wf_compute_entry_id e)|done].
Qed.

(** ** Several groups in turn *)

(** Each group of the list, in turn, is extended by an entry that [made] relates
    to the group's tips at that time. *)
Inductive grown (made : list LogEntryId → LogEntry → Prop) : S → list GroupName → S → Prop :=
| grown_nil s s' : same_log s s' → grown made s [] s'
| grown_cons s s1 s' g gs tips e :
    NoDup tips → list_to_set tips = tips_of s g → made tips e → extended s s1 g e → grown made s1 gs s' →
    grown made s (g :: gs) s'.

Lemma grown_same_l made s s1 gs s' : same_log s s1 → grown made s1 gs s' → grown made s gs s'.
Proof.
  intros Hs. destruct 1 as [s1 s' Hs'|s1 s2 s' g gs tips e Hnd Htips He Hext Hg]; [constructor; by transitivity s1|].
  eapply (grown_cons _ _ s2); [done| |done| |done]; [by rewrite Htips, (proj2 Hs)|by eapply extended_same_l].
Qed.

End AppendTips.

End AppendTips.
