(* ===== verification/Verify.v ===== *)
(** Full verification of a log entry: [verify_entry] of
    [crates/core/src/group_log/verify.rs] (the signature half is in
    [LogEntry]). *)

From S2P Require Import Prelude Bytes Crypto Article Canonical Hlc LogEntry LogStorage Append MemStorage.

Module Verify.
Import Article Hlc LogEntry LogStorage Append.

Section Verify.
Context {lib : CidLib} {siglib : SigLib}.

Definition MAX_PARENT_CIDS : Z := 100.

Inductive VerifyError :=
| VerifyStorage (e : StorageError)
| InvalidSignature (e : SigningError)
| VerifyMissingParent (cid : Cid)
| HlcNotMonotonic (entry parent : HlcTimestamp)
| EntryIdMismatch
| TooManyParents (count : Z)
| InvalidArticleCidCodec (codec : Z).

Section Code.
Context {S : Type} {store : LogStorage S}.

(** The loop over [entry.parent_cids]: existence and HLC monotonicity. *)
Fixpoint verify_parents (ts : HlcTimestamp) (parents : list Cid) : prog S VerifyError () :=
  match parents with
  | [] => mret tt
  | parent_cid :: parents' =>
      match try_into_id (cid_digest parent_cid) with
      | None => throw (VerifyMissingParent parent_cid)
      | Some parent_id =>
          r ← prog_map_err VerifyStorage (get_entry parent_id);
          match r with
          | None => throw (VerifyMissingParent parent_cid)
          | Some parent_entry =>
              (* entry.hlc_timestamp <= parent_entry.hlc_timestamp *)
              if negb (ts_ltb (hlc_timestamp parent_entry) ts) then
                throw (HlcNotMonotonic ts (hlc_timestamp parent_entry))
              else verify_parents ts parents'
          end
      end
  end.

Definition verify_entry (entry : LogEntry) (entry_id : LogEntryId) (pubkey : VerifyingKey) :
    prog S VerifyError () :=
  let n := Z.of_nat (length (parent_cids entry)) in
  if MAX_PARENT_CIDS <? n then throw (TooManyParents n)
  else if negb (cid_codec (article_cid entry) =? 0x71) then
    throw (InvalidArticleCidCodec (cid_codec (article_cid entry)))
  else
    _ ← lift (map_err InvalidSignature (check_signature entry pubkey));
    _ ← verify_parents (hlc_timestamp entry) (parent_cids entry);
    if bool_decide (from_entry entry = entry_id) then mret tt else throw EntryIdMismatch.

End Code.

(** A parent link whose entry is stored with wall-clock time at most [w]. *)
Definition parent_not_later (E : gmap LogEntryId AbsEntry) (w : Z) (c : Cid) : Prop :=
  ∃ p ae, parent_id c = Some p ∧ E !! p = Some ae ∧ ae_wall ae <= w.

(** A parent whose stored time the entry does not exceed. *)
Definition parent_not_earlier (E : gmap LogEntryId AbsEntry) (te tp : HlcTimestamp) (c : Cid) : Prop :=
  ∃ p ae, parent_id c = Some p ∧ E !! p = Some ae ∧ ae_wall ae = wall_ms tp ∧ ts_ltb tp te = false.

Section Spec.
Context {S : Type} {view : StorageView S} {store : LogStorage S}.
Context {slaws : LogStorageLaws S}.

Definition verify_fault (s : S) (entry : LogEntry) (parents : list Cid) (err : VerifyError) : Prop :=
  match err with
  | VerifyStorage _ => ¬ reliable s
  | VerifyMissingParent c => c ∈ parents ∧ ¬ parent_present (entries_of s) c
  | HlcNotMonotonic te tp =>
      te = hlc_timestamp entry ∧ ∃ c, c ∈ parents ∧ parent_not_earlier (entries_of s) te tp c
  | _ => False
  end.

Lemma ts_ltb_wall a b : ts_ltb a b = true → wall_ms a <= wall_ms b.
Proof. unfold ts_ltb. intros. repeat break_if; to_prop; simplify_eq; lia. Qed.

Lemma verify_parents_ok entry parents s :
  st_inv s →
  outcome s (verify_parents (hlc_timestamp entry) parents)
    (λ _ s', same_log s s' ∧
       Forall (parent_not_later (entries_of s) (wall_ms (hlc_timestamp entry))) parents)
    (verify_fault s entry parents).
Proof.
  revert s. induction parents as [|c parents IH]; intros s Hi; simpl; [by apply outcome_ret|].
  destruct (try_into_id (cid_digest c)) as [p|] eqn:Ep.
  2:{ apply outcome_throw; [done|]. split; [by left|]. intros (p & Hp & _).
      unfold parent_id in Hp. congruence. }
  apply (outcome_bind _ _ _ (λ r _, entry_view <$> r = entries_of s !! p)).
  { apply outcome_map_err. eapply outcome_impl; [by apply get_entry_ok|done|]. by intros e [Hf _]. }
  intros r s1 Hi1 Hr1 Hs1 Hr. pose proof Hs1 as [He1 _]. destruct r as [pe|]; simpl in Hr.
  - destruct (ts_ltb (hlc_timestamp pe) (hlc_timestamp entry)) eqn:Et; simpl.
    + eapply outcome_impl; [by apply IH| |].
      * intros [] s2. rewrite He1. intros [Hs2 Hps]. split; [by transitivity s1|].
        constructor; [|done]. exists p, (entry_view pe). split_and!; [done|done|].
        by apply ts_ltb_wall.
      * intros []; simpl; rewrite ?He1; try setoid_rewrite elem_of_cons; naive_solver.
    + apply outcome_throw; [done|]. split; [done|]. exists c. split; [by left|].
      by exists p, (entry_view pe).
  - apply outcome_throw; [done|]. split; [by left|]. intros (q & Hq & ? & Hl).
    unfold parent_id in Hq. simplify_eq. congruence.
Qed.

(** [verify_entry] on every outcome.  It accepts only an entry with at most
    100 parents, a DAG-CBOR article, a 64-byte signature that verifies over the
    canonical bytes, parents that are all stored and not later than the entry,
    and the identifier that hashes its content.  Each refusal names a condition
    that really fails, and nothing is written in any case. *)
Theorem verify_entry_spec entry id pk s r s' :
  st_inv s → verify_entry entry id pk s = (r, s') →
  same_log s s' ∧
  match r with
  | Ok _ =>
      Z.of_nat (length (parent_cids entry)) <= MAX_PARENT_CIDS ∧
      cid_codec (article_cid entry) = 0x71 ∧
      verify_signature entry pk = Ok (mkVerified entry) ∧
      Forall (parent_not_later (entries_of s) (wall_ms (hlc_timestamp entry))) (parent_cids entry) ∧
      from_entry entry = id
  | Err (TooManyParents n) => n = Z.of_nat (length (parent_cids entry)) ∧ MAX_PARENT_CIDS < n
  | Err (InvalidArticleCidCodec c) => c = cid_codec (article_cid entry) ∧ c ≠ 0x71
  | Err (InvalidSignature e) => verify_signature entry pk = Err e
  | Err EntryIdMismatch => from_entry entry ≠ id
  | Err e => verify_fault s entry (parent_cids entry) e
  end.
Proof.
  intros Hi Hv. unfold verify_entry in Hv.
  assert (Hsig : verify_signature entry pk = (_ ← check_signature entry pk; Ok (mkVerified entry)))
    by done.
  destruct (Z.ltb_spec MAX_PARENT_CIDS (Z.of_nat (length (parent_cids entry)))).
  { unfold throw in Hv. simplify_eq. done. }
  destruct (Z.eqb_spec (cid_codec (article_cid entry)) 0x71); simpl in Hv.
  2:{ unfold throw in Hv. simplify_eq. done. }
  unfold mbind, prog_bind, lift in Hv. destruct (check_signature entry pk) as [[]|serr]; simpl in Hv.
  2:{ by simplify_eq. }
  pose proof (verify_parents_ok entry (parent_cids entry) s Hi) as Hp. unfold outcome in Hp.
  destruct (verify_parents _ _ s) as [[[]|err] s1].
  - destruct Hp as (_ & _ & Hs & Hps). case_bool_decide; unfold mret, prog_ret, throw in Hv;
      simplify_eq; done.
  - destruct Hp as (_ & _ & Hs & Herr). simplify_eq. split; [done|]. by destruct err.
Qed.

End Spec.

End Verify.

Module VerifySamples.
Import ToyCrypto LogEntry.Samples MemStorage AppendSamples.

Lemma verify_left :
  verify_entry left_entry (from_entry left_entry) pk after_root = (Ok tt, after_root).
Proof. vm_refl. Qed.

Lemma after_root_inv : st_inv after_root.
Proof.
  pose proof (append_outcome grp root mem_new (proj1 mem_new_empty) (proj1 wf_samples)) as H.
  unfold outcome in H. rewrite append_root in H. apply H.
Qed.

Lemma verify_entry_spec_witness :
  Forall (parent_not_later (entries_of after_root) 2) (parent_cids left_entry).
Proof.
  destruct (verify_entry_spec left_entry (from_entry left_entry) pk after_root (Ok tt) after_root
    after_root_inv verify_left) as (_ & _ & _ & _ & Hps & _).
  exact Hps.
Defined.

End VerifySamples.

End Verify.
