(* ===== verification/Reconcile.v ===== *)
(** Reconciling tip sets: [crates/core/src/group_log/reconcile.rs].

    The traversal is bounded by [MAX_BFS_VISITS]; the model recurses on that
    budget and is shown never to exhaust it.  [want] is exact; [have] is sound,
    duplicate free and capped, and complete when the traversal ran to its end. *)

From S2P Require Import Prelude Bytes Crypto Article Canonical Hlc LogEntry LogStorage Append MemStorage.

Module Reconcile.
Import Article Hlc LogEntry LogStorage Append.

Section Reconcile.
Context {lib : CidLib}.

Definition MAX_HAVE : Z := 1000.
Definition MAX_BFS_VISITS : Z := 5000.

Record ReconcileResult := mkReconcile {
  want : list LogEntryId;
  have : list LogEntryId;
  partial_have : bool
}.

Section Code.
Context {S : Type} {store : LogStorage S}.

(** The [want] loop. *)
Fixpoint collect_want (remote_tips : list LogEntryId) : prog S StorageError (list LogEntryId) :=
  match remote_tips with
  | [] => mret []
  | tip_id :: rest =>
      b ← has_entry tip_id;
      w ← collect_want rest;
      mret (if b : bool then w else tip_id :: w)
  end.

(** [pop_front] and [continue]: the first entry of the queue not visited yet,
    and the queue after it. *)
Fixpoint next_unvisited (visited : gset LogEntryId) (queue : list LogEntryId) :
    option (LogEntryId * list LogEntryId) :=
  match queue with
  | [] => None
  | x :: queue' => if bool_decide (x ∈ visited) then next_unvisited visited queue' else Some (x, queue')
  end.

(** One visit per unit of fuel; [None] would mean that the fuel ran out. *)
Fixpoint bfs (fuel : nat) (remote : gset LogEntryId) (queue : list LogEntryId)
    (visited : gset LogEntryId) (visits : Z) (acc : list LogEntryId) :
    prog S StorageError (option (list LogEntryId * bool)) :=
  match fuel with
  | O => mret None
  | Datatypes.S fuel' =>
      match next_unvisited visited queue with
      | None => mret (Some (acc, false))
      | Some (entry_id, queue) =>
          let visited := {[ entry_id ]} ∪ visited in
          let visits := visits + 1 in
          if MAX_BFS_VISITS <=? visits then mret (Some (acc, true))
          else
            let fresh := negb (bool_decide (entry_id ∈ remote)) in
            let acc := if fresh then acc ++ [entry_id] else acc in
            if fresh && (MAX_HAVE <=? Z.of_nat (length acc)) then
              mret (Some (acc, negb (bool_decide (queue = []))))
            else
              r ← get_parent_cids entry_id;
              let parents := match r with Some cs => omap (λ c, try_into_id (cid_digest c)) cs
                                        | None => [] end in
              bfs fuel' remote (queue ++ parents) visited visits acc
      end
  end.

Definition reconcile (group : GroupName) (remote_tips : list LogEntryId) :
    prog S StorageError (option ReconcileResult) :=
  w ← collect_want remote_tips;
  queue ← list_tips group;
  r ← bfs (Z.to_nat MAX_BFS_VISITS) (list_to_set remote_tips) queue ∅ 0 [];
  mret ((λ hp, mkReconcile w hp.1 hp.2) <$> r).

End Code.

Lemma next_unvisited_None visited queue :
  next_unvisited visited queue = None → ∀ x, x ∈ queue → x ∈ visited.
Proof.
  induction queue as [|y queue IH]; simpl; [by intros _ ? ?%not_elem_of_nil|].
  case_bool_decide; [|done]. intros Hn x [->|Hx]%elem_of_cons; auto.
Qed.

Lemma next_unvisited_Some visited queue x queue' :
  next_unvisited visited queue = Some (x, queue') →
  x ∉ visited ∧ x ∈ queue ∧ (∀ y, y ∈ queue' → y ∈ queue) ∧
  (∀ y, y ∈ queue → y ∈ visited ∨ y = x ∨ y ∈ queue').
Proof.
  induction queue as [|y queue IH]; simpl; [done|]. case_bool_decide as Hy.
  - intros (H1 & H2 & H3 & H4)%IH. setoid_rewrite elem_of_cons. naive_solver.
  - intros [= <- <-]. setoid_rewrite elem_of_cons. naive_solver.
Qed.

Section Spec.
Context {S : Type} {view : StorageView S} {store : LogStorage S}.
Context {slaws : LogStorageLaws S}.

Lemma collect_want_ok remote s :
  st_inv s →
  outcome s (collect_want remote)
    (λ w s', same_log s s' ∧ w = filter (λ id, entries_of s !! id = None) remote)
    (backend_fault s).
Proof.
  revert s. induction remote as [|x remote IH]; intros s Hi; simpl; [by apply outcome_ret|].
  apply (outcome_bind _ _ _ (λ b _, b = bool_decide (is_Some (entries_of s !! x))));
    [by apply has_entry_ok|].
  intros b s1 Hi1 Hr1 Hs1 ->. pose proof Hs1 as [He1 _].
  apply (outcome_bind _ _ _ (λ w _, w = filter (λ id, entries_of s !! id = None) remote)).
  { eapply outcome_impl; [by apply IH|intros w s2; by rewrite He1|].
    intros e [? ?]. split; [tauto|done]. }
  intros w s2 Hi2 Hr2 Hs2 ->. apply outcome_ret; [done|]. split; [by transitivity s1|].
  rewrite filter_cons. case_bool_decide as Hx; case_decide as Hd; [|done|done|].
  - destruct Hx. congruence.
  - by destruct Hd; apply eq_None_not_Some.
Qed.

(** The ids reachable from the tips of [g]. *)
Definition reachable (s : S) (g : GroupName) (x : LogEntryId) : Prop :=
  ∃ t, t ∈ tips_of s g ∧ ancestor (entries_of s) t x.

Record bfs_inv (s : S) (g : GroupName) (remote : gset LogEntryId) (queue : list LogEntryId)
    (visited : gset LogEntryId) (acc : list LogEntryId) : Prop := {
  bi_queue x : x ∈ queue → reachable s g x;
  bi_visited x : x ∈ visited → reachable s g x;
  bi_tips x : x ∈ tips_of s g → x ∈ visited ∨ x ∈ queue;
  bi_parents v p : v ∈ visited → is_parent (entries_of s) v p → p ∈ visited ∨ p ∈ queue;
  bi_acc x : x ∈ acc ↔ x ∈ visited ∧ x ∉ remote;
  bi_nodup : NoDup acc
}.

Lemma bfs_inv_step s g remote queue visited acc x queue' parents :
  bfs_inv s g remote queue visited acc →
  next_unvisited visited queue = Some (x, queue') →
  (∀ p, p ∈ parents ↔ is_parent (entries_of s) x p) →
  bfs_inv s g remote (queue' ++ parents) ({[ x ]} ∪ visited)
    (if bool_decide (x ∈ remote) then acc else acc ++ [x]).
Proof.
  intros [Hq Hv Ht Hp Ha Hn] (Hx & Hxq & Hsub & Hsplit)%next_unvisited_Some Hpar.
  assert (Hrx : reachable s g x) by auto. split.
  - intros y [Hy|Hy%Hpar]%elem_of_app; [auto|]. destruct Hrx as (t & Htt & Hanc).
    exists t. split; [done|]. by eapply rtc_r.
  - intros y. rewrite elem_of_union, elem_of_singleton. intros [->|?]; auto.
  - intros y Hy%Ht. rewrite elem_of_union, elem_of_app, elem_of_singleton.
    destruct Hy as [?|[?|[?|?]]%Hsplit]; auto.
  - intros v p. rewrite !elem_of_union, elem_of_app, !elem_of_singleton.
    intros [->|Hvv] Hvp; [right; right; by apply Hpar|].
    destruct (Hp _ _ Hvv Hvp) as [?|[?|[?|?]]%Hsplit]; auto.
  - intros y. rewrite elem_of_union, elem_of_singleton. case_bool_decide as Hr.
    + rewrite Ha. naive_solver.
    + rewrite elem_of_app, Ha, list_elem_of_singleton. naive_solver.
  - case_bool_decide; [done|]. apply NoDup_app. split_and!; [done| |apply NoDup_singleton].
    intros y [Hy _]%Ha ->%list_elem_of_singleton. done.
Qed.

(** A finished traversal has visited everything reachable. *)
Lemma bfs_inv_done s g remote queue visited acc :
  bfs_inv s g remote queue visited acc → (∀ x, x ∈ queue → x ∈ visited) →
  ∀ x, x ∈ acc ↔ reachable s g x ∧ x ∉ remote.
Proof.
  intros [Hq Hv Ht Hp Ha Hn] Hdone x. rewrite Ha.
  assert (Hall : reachable s g x → x ∈ visited); [|naive_solver].
  intros (t & Htt & Hanc). assert (Ht' : t ∈ visited) by (destruct (Ht t Htt); auto).
  clear Htt. induction Hanc as [|a b c Hab _ IH]; [done|]. apply IH.
  destruct (Hp a b Ht' Hab); auto.
Qed.

Definition have_sound (s : S) (g : GroupName) (remote : gset LogEntryId) (l : list LogEntryId) : Prop :=
  NoDup l ∧ Z.of_nat (length l) <= MAX_HAVE ∧ ∀ x, x ∈ l → reachable s g x ∧ x ∉ remote.

Definition have_complete (s : S) (g : GroupName) (remote : gset LogEntryId) (l : list LogEntryId) : Prop :=
  ∀ x, reachable s g x → x ∉ remote → x ∈ l.

Lemma bfs_inv_sound s g remote queue visited acc :
  bfs_inv s g remote queue visited acc → Z.of_nat (length acc) <= MAX_HAVE →
  have_sound s g remote acc.
Proof.
  intros [Hq Hv Ht Hp Ha Hn] Hlen. split_and!; [done..|]. intros x [? ?]%Ha. auto.
Qed.

Lemma same_log_reachable s s' g x : same_log s s' → reachable s' g x ↔ reachable s g x.
Proof. intros [He Ht]. unfold reachable. by rewrite He, Ht. Qed.

(** The entry that fills the list. *)
Lemma have_sound_snoc s g remote queue visited acc x queue' :
  bfs_inv s g remote queue visited acc → next_unvisited visited queue = Some (x, queue') →
  x ∉ remote → Z.of_nat (length acc) < MAX_HAVE →
  have_sound s g remote (if negb (bool_decide (x ∈ remote)) then acc ++ [x] else acc).
Proof.
  intros [Hq Hv Ht Hp Ha Hn] (Hxv & Hxq & _)%next_unvisited_Some Hx Hlen.
  rewrite bool_decide_eq_false_2 by done. simpl. split_and!.
  - apply NoDup_app. split_and!; [done| |apply NoDup_singleton].
    by intros y [Hy _]%Ha ->%list_elem_of_singleton.
  - rewrite length_app. simpl. lia.
  - intros y [[? ?]%Ha| ->%list_elem_of_singleton]%elem_of_app; auto.
Qed.

Lemma bfs_ok fuel remote queue visited visits acc s0 s g :
  st_inv s → same_log s0 s → bfs_inv s0 g remote queue visited acc →
  visits + Z.of_nat fuel = MAX_BFS_VISITS → (0 < fuel)%nat → Z.of_nat (length acc) < MAX_HAVE →
  outcome s (bfs fuel remote queue visited visits acc)
    (λ r s', same_log s s' ∧ ∃ l partial, r = Some (l, partial) ∧ have_sound s0 g remote l ∧
       (partial = false → Z.of_nat (length l) < MAX_HAVE → have_complete s0 g remote l))
    (backend_fault s).
Proof.
  revert queue visited visits acc s. induction fuel as [|fuel IH];
    intros queue visited visits acc s Hi Hs0 Hinv Hvis Hfuel Hlen; [lia|]. simpl.
  destruct (next_unvisited visited queue) as [[x queue']|] eqn:En.
  2:{ apply outcome_ret; [done|]. split; [done|]. exists acc, false. split; [done|].
      split; [eapply bfs_inv_sound; [done|lia]|]. intros _ _ x Hx Hr.
      eapply bfs_inv_done; [done|by apply next_unvisited_None|done]. }
  destruct (Z.leb_spec MAX_BFS_VISITS (visits + 1)).
  { apply outcome_ret; [done|]. split; [done|]. exists acc, true. split; [done|].
    split; [eapply bfs_inv_sound; [done|lia]|done]. }
  assert (Hstep : ∀ parents, (∀ p, p ∈ parents ↔ is_parent (entries_of s0) x p) →
    bfs_inv s0 g remote (queue' ++ parents) ({[ x ]} ∪ visited)
      (if negb (bool_decide (x ∈ remote)) then acc ++ [x] else acc)).
  { intros parents Hpar. pose proof (bfs_inv_step _ _ _ _ _ _ _ _ _ Hinv En Hpar).
    by case_bool_decide. }
  set (acc' := if negb (bool_decide (x ∈ remote)) then acc ++ [x] else acc) in *.
  assert (Hlen' : Z.of_nat (length acc') <= Z.of_nat (length acc) + 1).
  { unfold acc'. destruct (negb _); rewrite ?length_app; simpl; lia. }
  destruct (_ && (MAX_HAVE <=? Z.of_nat (length acc'))) eqn:Estop.
  { apply andb_true_iff in Estop as [Hfresh Hbig%Z.leb_le]. apply outcome_ret; [done|]. split; [done|].
    eexists _, _. split; [done|]. split; [|intros; lia].
    eapply (have_sound_snoc _ _ _ queue visited); [done|done| |lia].
    by apply negb_true_iff, bool_decide_eq_false in Hfresh. }
  apply (outcome_bind _ _ _ (λ r _,
    list_to_set (C := gset Cid) <$> r = ae_parents <$> (entries_of s !! x)));
    [by apply get_parent_cids_ok|].
  intros r s1 Hi1 Hr1 Hs1 Hr. eapply outcome_impl; [apply IH; try done| |].
  - by transitivity s.
  - apply Hstep. intros p. destruct Hs0 as [He0 _]. rewrite He0 in Hr.
    unfold is_parent. destruct r as [cs|]; simpl in Hr.
    + rewrite list_elem_of_omap. destruct (entries_of s0 !! x) as [ae|]; [|done].
      injection Hr as Hr. setoid_rewrite <- (elem_of_list_to_set (C := gset Cid)). rewrite Hr.
      unfold parent_id. naive_solver.
    + destruct (entries_of s0 !! x); [done|]. split; [by intros ?%not_elem_of_nil|naive_solver].
  - lia.
  - lia.
  - unfold acc' in *. destruct (negb (bool_decide (x ∈ remote))); simpl in Estop; to_prop; lia.
  - intros a s2 [? ?]. split; [by transitivity s1|done].
  - intros e [? ?]. split; [tauto|done].
Qed.

(** What a reconciliation round returns, on any backend.  [want] is exactly
    the remote tips that are not stored, in order.  [have] lists entries
    reachable from the local tips that are not remote tips, without repetition,
    at most 1000 of them; and when [partial_have] is false and the cap was not
    reached it lists all of them.  The traversal always ends within its visit
    budget, nothing is written, and the round only fails when the backend
    does. *)
Theorem reconcile_spec g remote s r s' :
  st_inv s → reconcile g remote s = (r, s') →
  same_log s s' ∧
  match r with
  | Ok None => False
  | Ok (Some res) =>
      want res = filter (λ id, entries_of s !! id = None) remote ∧
      have_sound s g (list_to_set remote) (have res) ∧
      (partial_have res = false → Z.of_nat (length (have res)) < MAX_HAVE →
       have_complete s g (list_to_set remote) (have res))
  | Err e => ¬ reliable s
  end.
Proof.
  intros Hi Hrun.
  assert (H : outcome s (reconcile g remote) (λ r s', same_log s s' ∧ ∃ res, r = Some res ∧
      want res = filter (λ id, entries_of s !! id = None) remote ∧
      have_sound s g (list_to_set remote) (have res) ∧
      (partial_have res = false → Z.of_nat (length (have res)) < MAX_HAVE →
       have_complete s g (list_to_set remote) (have res))) (backend_fault s)).
  { eapply (outcome_bind _ _ _ (λ w _, w = filter (λ id, entries_of s !! id = None) remote));
      [by apply collect_want_ok|]. intros w s1 Hi1 Hr1 Hs1 Hw.
    eapply (outcome_bind _ _ _ (λ l _, list_to_set l = tips_of s1 g)).
    { eapply outcome_impl; [by apply list_tips_ok|naive_solver|]. intros e [? ?]. split; [tauto|done]. }
    intros queue s2 Hi2 Hr2 Hs2 Hq. destruct Hs1 as [He1 Ht1].
    eapply (outcome_bind _ _ _ (λ r _, ∃ l partial, r = Some (l, partial) ∧
      have_sound s g (list_to_set remote) l ∧ (partial = false → Z.of_nat (length l) < MAX_HAVE →
        have_complete s g (list_to_set remote) l))).
    - eapply outcome_impl; [apply (bfs_ok _ _ _ _ _ _ s _ g)| |].
      + done.
      + by transitivity s1.
      + assert (Hqt : ∀ x, x ∈ queue ↔ x ∈ tips_of s g).
        { intros x. rewrite <- Ht1, <- Hq. by rewrite elem_of_list_to_set. }
        split; [|set_solver..|set_solver|apply NoDup_nil_2].
        intros x Hx%Hqt. exists x. split; [done|apply rtc_refl].
      + done.
      + unfold MAX_BFS_VISITS. lia.
      + done.
      + done.
      + intros e [? ?]. split; [tauto|done].
    - intros r3 s3 Hi3 Hr3 Hs3 (l & partial & -> & Hl & Hc). apply outcome_ret; [done|].
      split; [transitivity s1; [done|by transitivity s2]|]. simpl. eauto 10. }
  unfold outcome in H. rewrite Hrun in H. destruct r as [[res|]|e].
  - by destruct H as (_ & _ & Hs & res' & [= <-] & H).
  - by destruct H as (_ & _ & _ & ? & [=] & _).
  - by destruct H as (_ & _ & Hs & Hf & _).
Qed.

End Spec.

End Reconcile.

(** ** A chain longer than the cap *)

Module ReconcileSamples.
Import ToyCrypto LogEntry.Samples MemStorage AppendSamples.

Definition chain_id (i : Z) : LogEntryId := mkId (be_bytes 32 i).

Definition chain_entry (i : Z) : LogEntry :=
  mkEntry (mkTs i 0 []) cid_a [] (if i =? 0 then [] else [to_cid (chain_id (i - 1))]).

(** A log of [n] entries, each the parent of the next. *)
Definition chain_store (n : nat) : MemLogStorage :=
  mkMem (list_to_map ((λ i, (chain_id (Z.of_nat i), chain_entry (Z.of_nat i))) <$> seq 0 n))
        {[ as_str grp := [chain_id (Z.of_nat n - 1)] ]}.

Lemma chain_id_inj i j : 0 <= i < 2 ^ 256 → 0 <= j < 2 ^ 256 → chain_id i = chain_id j → i = j.
Proof.
  intros Hi Hj Heq. apply (f_equal id_bytes) in Heq.
  apply (be_bytes_inj 32); [change (256 ^ Z.of_nat 32) with (2 ^ 256); lia..|exact Heq].
Qed.

Lemma chain_lookup n i :
  (i < n)%nat → (n <= 2000)%nat →
  entries_of (chain_store n) !! chain_id (Z.of_nat i) = Some (entry_view (chain_entry (Z.of_nat i))).
Proof.
  intros Hi Hn. simpl. rewrite lookup_fmap.
  erewrite elem_of_list_to_map_1; [done| |].
  - rewrite <- list_fmap_compose. apply NoDup_fmap_2_strong; [|apply NoDup_seq].
    intros x y [_ Hx]%elem_of_seq [_ Hy]%elem_of_seq Heq. simpl in Heq.
    apply chain_id_inj in Heq; lia.
  - apply list_elem_of_fmap. exists i. split; [done|]. apply elem_of_seq. lia.
Qed.

Lemma chain_reachable n i :
  (i < n)%nat → (n <= 2000)%nat → reachable (chain_store n) grp (chain_id (Z.of_nat i)).
Proof.
  intros Hi Hn. remember (n - 1 - i)%nat as k eqn:Hk. revert i Hi Hk.
  induction k as [|k IH]; intros i Hi Hk.
  - exists (chain_id (Z.of_nat i)). split; [|apply rtc_refl]. simpl. unfold mem_tip_list. simpl.
    rewrite lookup_singleton_eq. simpl. replace (Z.of_nat n - 1) with (Z.of_nat i) by lia. set_solver.
  - destruct (IH (i + 1)%nat) as (t & Ht & Hanc); [lia|lia|]. exists t. split; [done|].
    eapply rtc_r; [exact Hanc|]. eexists _, (to_cid (chain_id (Z.of_nat i))).
    split; [apply chain_lookup; lia|]. split; [|done]. simpl.
    destruct (Z.eqb_spec (Z.of_nat (i + 1)) 0); [lia|].
    replace (Z.of_nat (i + 1) - 1) with (Z.of_nat i) by lia. set_solver.
Qed.

Lemma chain_parents n i :
  (0 < i < n)%nat → (n <= 2000)%nat →
  get_parent_cids (chain_id (Z.of_nat i)) (chain_store n) =
  (Ok (Some [to_cid (chain_id (Z.of_nat (i - 1)))]), chain_store n).
Proof.
  intros Hi Hn. simpl. unfold mem_get_parent_cids. simpl. do 2 f_equal.
  erewrite elem_of_list_to_map_1; [| |apply list_elem_of_fmap; exists i; split;
    [reflexivity|apply elem_of_seq; lia]].
  - simpl. destruct (Z.eqb_spec (Z.of_nat i) 0); [lia|].
    by replace (Z.of_nat i - 1) with (Z.of_nat (i - 1)) by lia.
  - rewrite <- list_fmap_compose. apply NoDup_fmap_2_strong; [|apply NoDup_seq].
    intros x y [_ Hx]%elem_of_seq [_ Hy]%elem_of_seq Heq. apply chain_id_inj in Heq; lia.
Qed.

(** The traversal of a chain walks down it, one entry per visit, until the list
    is full. *)
Lemma chain_bfs n i m fuel visited visits acc :
  (n <= 2000)%nat → (i < n)%nat → (1 <= m <= i + 1)%nat → (m <= fuel)%nat →
  Z.of_nat (length acc + m) = MAX_HAVE → visits + Z.of_nat m < MAX_BFS_VISITS →
  (∀ j, (j <= i)%nat → chain_id (Z.of_nat j) ∉ visited) →
  bfs fuel ∅ [chain_id (Z.of_nat i)] visited visits acc (chain_store n) =
  (Ok (Some (acc ++ ((λ k, chain_id (Z.of_nat (i - k))) <$> seq 0 m), false)), chain_store n).
Proof.
  intros Hn. revert i fuel visited visits acc.
  induction m as [|m IH]; intros i fuel visited visits acc Hi Hm Hf Hlen Hvis Hfresh; [lia|].
  destruct fuel as [|fuel]; [lia|]. cbn [bfs next_unvisited].
  rewrite bool_decide_eq_false_2 by (by apply Hfresh).
  destruct (Z.leb_spec MAX_BFS_VISITS (visits + 1)); [lia|].
  rewrite (bool_decide_eq_false_2 (_ ∈ ∅)) by set_solver. cbn [negb andb].
  rewrite length_app. cbn [length].
  destruct (Z.leb_spec MAX_HAVE (Z.of_nat (length acc + 1))).
  - assert (m = 0%nat) as -> by lia. cbn [seq fmap list_fmap]. rewrite Nat.sub_0_r. done.
  - unfold mbind, prog_bind. rewrite chain_parents by lia. cbn [omap list_omap].
    change (try_into_id (cid_digest (to_cid (chain_id (Z.of_nat (i - 1))))))
      with (Some (chain_id (Z.of_nat (i - 1)))). cbn [app].
    rewrite IH; [|lia|lia|lia|rewrite length_app; simpl; lia|lia|].
    + do 3 f_equal. rewrite <- app_assoc. f_equal. cbn [seq fmap list_fmap app].
      rewrite Nat.sub_0_r. do 2 f_equal. rewrite <- (fmap_S_seq 0), <- list_fmap_compose.
      apply list_fmap_ext. intros _ k _. simpl. do 2 f_equal. lia.
    + intros j Hj. rewrite elem_of_union, elem_of_singleton. intros [Heq|Hin].
      * apply chain_id_inj in Heq; lia.
      * apply (Hfresh j); [lia|done].
Qed.

(** The [m] newest entries of a chain of [n]. *)
Definition newest (n m : nat) : list LogEntryId :=
  (λ k, chain_id (Z.of_nat (n - 1 - k))) <$> seq 0 m.

Lemma chain_reconcile n m :
  Z.of_nat m = MAX_HAVE → (m < n)%nat → (n <= 2000)%nat →
  (reconcile grp [] (chain_store n)).1 = Ok (Some (mkReconcile [] (newest n m) false)).
Proof.
  intros Hm Hmn Hn. unfold MAX_HAVE in Hm.
  assert (Htips : list_tips grp (chain_store n) = (Ok [chain_id (Z.of_nat (n - 1))], chain_store n)).
  { unfold list_tips, mem_storage, mem_list_tips, mem_tip_list, chain_store. cbn [mem_tips].
    rewrite lookup_singleton_eq. simpl. by replace (Z.of_nat n - 1) with (Z.of_nat (n - 1)) by lia. }
  unfold reconcile, mbind, prog_bind. cbn [collect_want mret prog_ret].
  rewrite Htips, (chain_bfs n (n - 1) m); [done|lia|lia|lia|unfold MAX_BFS_VISITS; lia| | |].
  - unfold MAX_HAVE. simpl. lia.
  - unfold MAX_BFS_VISITS. lia.
  - intros j _. apply not_elem_of_empty.
Qed.

(** On a linear log of more than 1000 entries and an empty remote, a round
    returns the 1000 newest entries with [partial_have] false, although older
    entries, down to the first, are reachable and not among them:
    [partial_have] is computed from the queue before the parents of the current
    entry are enqueued, so no follow-up round is scheduled for the rest of the
    chain. *)
Theorem partial_have_misses_rest_of_chain n :
  (1000 < n)%nat → (n <= 2000)%nat →
  let listed := newest n (Z.to_nat MAX_HAVE) in
  (reconcile grp [] (chain_store n)).1 = Ok (Some (mkReconcile [] listed false)) ∧
  ∀ i, (i < n - 1000)%nat →
    reachable (chain_store n) grp (chain_id (Z.of_nat i)) ∧ chain_id (Z.of_nat i) ∉ listed.
Proof.
  intros Hlo Hn listed. assert (HM : Z.to_nat MAX_HAVE = 1000%nat) by (unfold MAX_HAVE; lia).
  split; [apply chain_reconcile; unfold MAX_HAVE; lia|].
  intros i Hi. split; [apply chain_reachable; lia|].
  unfold listed, newest. rewrite HM.
  intros (k & Heq & Hk%elem_of_seq)%list_elem_of_fmap. apply chain_id_inj in Heq; lia.
Qed.

Lemma partial_have_misses_rest_of_chain_witness :
  (reconcile grp [] (chain_store 1001)).1 =
    Ok (Some (mkReconcile [] (newest 1001 (Z.to_nat MAX_HAVE)) false)) ∧
  chain_id 0 ∉ newest 1001 (Z.to_nat MAX_HAVE).
Proof.
  destruct (partial_have_misses_rest_of_chain 1001 ltac:(lia) ltac:(lia)) as [Hrun Hmiss].
  split; [exact Hrun|]. apply (Hmiss 0%nat). lia.
Defined.

Definition three_result : ReconcileResult :=
  match (reconcile grp [chain_id 7] (chain_store 3)).1 with
  | Ok (Some res) => res
  | _ => mkReconcile [] [] true
  end.

Lemma three_run : reconcile grp [chain_id 7] (chain_store 3) = (Ok (Some three_result), chain_store 3).
Proof. vm_refl. Qed.

Lemma three_length : length (have three_result) = 3%nat.
Proof. vm_refl. Qed.

Lemma chain_store_inv n : st_inv (chain_store n).
Proof.
  intros g. unfold mem_tip_list. simpl. destruct (decide (as_str g = as_str grp)) as [->|Hne].
  - rewrite lookup_singleton_eq. apply NoDup_singleton.
  - rewrite lookup_singleton_ne by done. apply NoDup_nil_2.
Qed.

Lemma reconcile_spec_witness :
  have_complete (chain_store 3) grp (list_to_set [chain_id 7]) (have three_result).
Proof.
  destruct (reconcile_spec _ _ _ _ _ (chain_store_inv 3) three_run) as (_ & _ & _ & Hc).
  apply Hc; [vm_refl|]. rewrite three_length. done.
Defined.

End ReconcileSamples.

End Reconcile.
