(* ===== verification/Backfill.v ===== *)
(** Backfilling a DAG from a peer: [crates/core/src/group_log/backfill.rs].

    [fetch] stands for the callback: what the peer answers for each identifier,
    already signature-checked.  The traversal visits at most
    [MAX_BACKFILL_ENTRIES] identifiers, so the model recurses on that budget. *)

From S2P Require Import Prelude Bytes Crypto Article Canonical Hlc LogEntry LogStorage Append Reconcile MemStorage.

Module Backfill.
Import Article Hlc LogEntry LogStorage Append Reconcile.

Section Backfill.
Context {lib : CidLib}.

Definition MAX_BACKFILL_ENTRIES : Z := 50000.

Inductive BackfillError :=
| BackfillStorage (e : StorageError)
| FetchFailed (msg : bytes)
| MalformedParentCid (cid : Cid)
| Truncated (fetched : Z).

Definition ID_MISMATCH : bytes := lit "entry ID mismatch".

(** [parent_ids_from_entry]: non-32-byte digests are skipped. *)
Definition parent_ids_from_entry (entry : LogEntry) : list LogEntryId :=
  omap (λ c, try_into_id (cid_digest c)) (parent_cids entry).

(** The loop over the fetched entry's parents: the ids to enqueue. *)
Fixpoint strict_parents (visited : gset LogEntryId) (parents : list Cid) :
    result BackfillError (list LogEntryId) :=
  match parents with
  | [] => Ok []
  | c :: parents' =>
      match try_into_id (cid_digest c) with
      | None => Err (MalformedParentCid c)
      | Some p =>
          ps ← strict_parents visited parents';
          Ok (if bool_decide (p ∈ visited) then ps else p :: ps)
      end
  end.

Section Code.
Context {S : Type} {store : LogStorage S}.

(** The insertion and its count: a duplicate is not counted. *)
Definition insert_fetched (entry_id : LogEntryId) (entry : LogEntry) (fetched_count : Z) :
    prog S BackfillError Z := λ s,
  match insert_entry entry_id entry s with
  | (Ok _, s') => (Ok (fetched_count + 1), s')
  | (Err (DuplicateEntry _), s') => (Ok fetched_count, s')
  | (Err e, s') => (Err (BackfillStorage e), s')
  end.

Fixpoint backfill_loop (fuel : nat) (fetch : LogEntryId → result bytes VerifiedEntry)
    (queue : list LogEntryId) (visited : gset LogEntryId) (fetched_count : Z)
    (want_parent_ids : option (list LogEntryId)) :
    prog S BackfillError (option (Z * option (list LogEntryId))) :=
  match fuel with
  | O => mret None
  | Datatypes.S fuel' =>
      match next_unvisited visited queue with
      | None => mret (Some (fetched_count, want_parent_ids))
      | Some (entry_id, queue) =>
          let visited := {[ entry_id ]} ∪ visited in
          verified ← lift (map_err FetchFailed (fetch entry_id));
          let entry := into_inner verified in
          if negb (bool_decide (from_entry entry = entry_id)) then throw (FetchFailed ID_MISMATCH)
          else
            let want_parent_ids :=
              match want_parent_ids with
              | None => Some (parent_ids_from_entry entry)
              | Some ids => Some ids
              end in
            fetched_count ← insert_fetched entry_id entry fetched_count;
            if MAX_BACKFILL_ENTRIES <=? Z.of_nat (size visited) then throw (Truncated fetched_count)
            else
              parents ← lift (strict_parents visited (parent_cids entry));
              backfill_loop fuel' fetch (queue ++ parents) visited fetched_count want_parent_ids
      end
  end.

(** The early path: the entry is stored; make it a tip if it is not one. *)
Definition backfill_present (group : GroupName) (want_id : LogEntryId) : prog S BackfillError Z :=
  tips ← prog_map_err BackfillStorage (list_tips group);
  if bool_decide (want_id ∈ tips) then mret 0
  else
    r ← prog_map_err BackfillStorage (get_entry want_id);
    match r with
    | Some entry =>
        _ ← prog_map_err BackfillStorage (advance_tips group (parent_ids_from_entry entry) want_id);
        mret 0
    | None => mret 0
    end.

(** [None] would mean that the visit budget of the model ran out. *)
Definition backfill (group : GroupName) (want_id : LogEntryId)
    (fetch : LogEntryId → result bytes VerifiedEntry) : prog S BackfillError (option Z) :=
  b ← prog_map_err BackfillStorage (has_entry want_id);
  if b : bool then n ← backfill_present group want_id; mret (Some n)
  else
    r ← backfill_loop (Z.to_nat MAX_BACKFILL_ENTRIES) fetch [want_id] ∅ 0 None;
    match r with
    | None => mret None
    | Some (fetched_count, None) => mret (Some fetched_count)
    | Some (fetched_count, Some parent_ids) =>
        _ ← prog_map_err BackfillStorage (advance_tips group parent_ids want_id);
        mret (Some fetched_count)
    end.

End Code.

Lemma strict_parents_Ok visited cs ps :
  strict_parents visited cs = Ok ps →
  (∀ c, c ∈ cs → ∃ p, parent_id c = Some p ∧ (p ∈ visited ∨ p ∈ ps)).
Proof.
  revert ps. induction cs as [|c cs IH]; intros ps; simpl; [by intros _ ? ?%not_elem_of_nil|].
  destruct (try_into_id (cid_digest c)) as [p|] eqn:Ep; [|done].
  destruct (strict_parents visited cs) as [ps'|] eqn:Es; [|done]. intros [= <-].
  intros d [->|Hd]%elem_of_cons.
  - exists p. split; [done|]. case_bool_decide; [by left|right; by left].
  - destruct (IH ps' eq_refl d Hd) as (q & Hq & Hin). exists q. split; [done|].
    case_bool_decide; [done|]. rewrite elem_of_cons. tauto.
Qed.

(** An entry the peer served for [id] and that hashes to it. *)
Definition served (fetch : LogEntryId → result bytes VerifiedEntry) (id : LogEntryId)
    (ae : AbsEntry) : Prop :=
  ∃ e, fetch id = Ok (mkVerified e) ∧ from_entry e = id ∧ ae = entry_view e.

(** Everything reachable from [x] is stored. *)
Definition closed_from (E : gmap LogEntryId AbsEntry) (x : LogEntryId) : Prop :=
  ∀ y, ancestor E x y → ∃ ae, E !! y = Some ae ∧ ∀ c, c ∈ ae_parents ae → parent_present E c.

Section Spec.
Context {S : Type} {view : StorageView S} {store : LogStorage S}.
Context {slaws : LogStorageLaws S}.
Context (fetch : LogEntryId → result bytes VerifiedEntry).

(** From [s0] to [s] the log only gained entries the peer served under the
    identifiers they hash to. *)
Definition grown (s0 s : S) : Prop :=
  st_inv s ∧ (reliable s0 → reliable s) ∧ entries_of s0 ⊆ entries_of s ∧
  (∀ id ae, entries_of s !! id = Some ae →
     entries_of s0 !! id = Some ae ∨ (entries_of s0 !! id = None ∧ served fetch id ae)) ∧
  (∀ g, tips_of s g = tips_of s0 g).

(** No stored entry collides with one the peer serves under the same
    identifier. *)
Definition agrees (s0 : S) : Prop :=
  ∀ id ae ae', entries_of s0 !! id = Some ae → served fetch id ae' → ae = ae'.

Definition gained (s0 s : S) : Z :=
  Z.of_nat (size (entries_of s)) - Z.of_nat (size (entries_of s0)).

Record bf_inv (s0 s : S) (want : LogEntryId) (queue : list LogEntryId)
    (visited : gset LogEntryId) (n : Z) (wp : option (list LogEntryId)) : Prop := {
  bf_grown : grown s0 s;
  bf_count : n = gained s0 s;
  bf_visited v : v ∈ visited →
    ∃ ae, entries_of s !! v = Some ae ∧
      ∀ c, c ∈ ae_parents ae → ∃ p, parent_id c = Some p ∧ (p ∈ visited ∨ p ∈ queue);
  bf_want : want ∈ visited ∨ want ∈ queue;
  bf_wp : match wp with
          | None => visited = ∅ ∧ queue = [want]
          | Some ids => ∃ e, fetch want = Ok (mkVerified e) ∧ ids = parent_ids_from_entry e
          end
}.

Lemma grown_refl s : st_inv s → grown s s.
Proof. intros Hi. split_and!; auto. Qed.

Lemma grown_same s0 s s' : grown s0 s → st_inv s' → (reliable s → reliable s') → same_log s s' → grown s0 s'.
Proof.
  intros (_ & Hr & Hsub & Hp & Ht) Hi Hr' [He Ht']. unfold grown. rewrite He.
  split_and!; auto. intros g. by rewrite Ht'.
Qed.

(** One insertion of a served entry. *)
Lemma insert_fetched_ok s0 s id e n r s' :
  grown s0 s → n = gained s0 s → wf_entry e → fetch id = Ok (mkVerified e) → from_entry e = id →
  insert_fetched id e n s = (r, s') →
  grown s0 s' ∧
  match r with
  | Ok n' => n' = gained s0 s' ∧ is_Some (entries_of s' !! id) ∧
      (∀ v, v ≠ id → entries_of s' !! v = entries_of s !! v)
  | Err err => (∃ se, err = BackfillStorage se) ∧ (¬ reliable s0 ∨ ¬ storable e)
  end.
Proof.
  intros Hg Hn Hw Hf Hid Hrun. pose proof Hg as (Hi & Hr & Hsub & Hp & Ht).
  pose proof (insert_entry_ok id e s Hi Hw) as H. unfold outcome in H. unfold insert_fetched in Hrun.
  destruct (insert_entry id e s) as [[[]|err] s1].
  - destruct H as (Hi1 & Hr1 & [Hnone He] & Ht1). simplify_eq. split.
    + unfold grown. rewrite He. split_and!; auto.
      * etransitivity; [exact Hsub|]. by apply insert_subseteq.
      * intros v ae. destruct (decide (v = from_entry e)) as [->|Hne].
        -- rewrite lookup_insert_eq. intros [= <-]. right. split; [|by exists e].
           destruct (entries_of s0 !! from_entry e) eqn:E; [|done].
           rewrite (lookup_weaken _ _ _ _ E Hsub) in Hnone. done.
        -- rewrite lookup_insert_ne by done. apply Hp.
      * intros g. by rewrite Ht1.
    + unfold gained. rewrite He, lookup_insert_eq, map_size_insert_None by done.
      split_and!; [lia|eauto|]. intros v Hv. by rewrite lookup_insert_ne.
  - destruct H as (Hi1 & Hr1 & Hs1 & Hf1). pose proof (grown_same _ _ _ Hg Hi1 Hr1 Hs1).
    destruct Hs1 as [He _]. destruct Hf1 as [[-> Hin]|[Hbad Hne]].
    + simplify_eq. unfold gained. rewrite He. done.
    + destruct err; simplify_eq; (split; [done|]); try (by split; [eauto|tauto]). by destruct (Hne id0).
Qed.

Lemma bf_inv_step s0 s s1 want queue visited n wp id queue' e n' ps :
  agrees s0 → bf_inv s0 s want queue visited n wp →
  next_unvisited visited queue = Some (id, queue') →
  fetch id = Ok (mkVerified e) → from_entry e = id →
  grown s0 s1 → n' = gained s0 s1 → is_Some (entries_of s1 !! id) →
  (∀ v, v ≠ id → entries_of s1 !! v = entries_of s !! v) →
  strict_parents ({[ id ]} ∪ visited) (parent_cids e) = Ok ps →
  bf_inv s0 s1 want (queue' ++ ps) ({[ id ]} ∪ visited) n'
    (match wp with None => Some (parent_ids_from_entry e) | Some ids => Some ids end).
Proof.
  intros Hag [Hg Hn Hv Hw Hwp] Hnext Hf Hid Hg1 Hn1 [ae Hae] Hother Hps.
  pose proof (next_unvisited_Some _ _ _ _ Hnext) as (Hfresh & Hin & Hsub & Hsplit).
  assert (Hview : ae = entry_view e).
  { destruct Hg1 as (_ & _ & _ & Hprov & _).
    destruct (Hprov _ _ Hae) as [H0|[_ (e' & Hf' & _ & ->)]]; [|congruence].
    apply (Hag id ae _ H0). by exists e. }
  split; [done|done| | |].
  - intros v. rewrite elem_of_union, elem_of_singleton. intros [->|Hvv].
    + exists ae. split; [done|]. intros c Hc. rewrite Hview in Hc. simpl in Hc.
      rewrite elem_of_list_to_set in Hc. destruct (strict_parents_Ok _ _ _ Hps c Hc) as (p & Hp & Hpin).
      exists p. split; [done|]. rewrite elem_of_app. tauto.
    + destruct (Hv v Hvv) as (aev & Hev & Hpar). exists aev.
      rewrite Hother by (by intros ->). split; [done|]. intros c Hc.
      destruct (Hpar c Hc) as (p & Hp & Hpin). exists p. split; [done|].
      rewrite elem_of_union, elem_of_app, elem_of_singleton.
      destruct Hpin as [?|[?|[?|?]]%Hsplit]; auto.
  - rewrite elem_of_union, elem_of_app, elem_of_singleton.
    destruct Hw as [?|[?|[?|?]]%Hsplit]; auto.
  - destruct wp as [ids|]; [done|]. destruct Hwp as [-> ->]. simpl in Hnext.
    rewrite bool_decide_eq_false_2 in Hnext by set_solver. simplify_eq. by exists e.
Qed.

Lemma bf_inv_init s s1 want :
  grown s s1 → same_log s s1 → bf_inv s s1 want [want] ∅ 0 None.
Proof.
  intros Hg [He _]. split; [done| |by intros v ?%not_elem_of_empty|right; by left|done].
  unfold gained. rewrite He. lia.
Qed.

Lemma bf_inv_done s0 s want queue visited n wp :
  bf_inv s0 s want queue visited n wp → (∀ x, x ∈ queue → x ∈ visited) →
  closed_from (entries_of s) want.
Proof.
  intros [Hg Hn Hv Hw Hwp] Hdone y Hanc.
  assert (Hwant : want ∈ visited) by (destruct Hw; auto). clear Hw Hwp.
  assert (Hy : y ∈ visited).
  { induction Hanc as [|a b c Hab _ IH]; [done|]. apply IH.
    destruct Hab as (ae & l & Hae & Hl & Hp). destruct (Hv a Hwant) as (ae' & Hae' & Hpar).
    simplify_eq. destruct (Hpar l Hl) as (p & Hp' & [?|?]); simplify_eq; auto. }
  destruct (Hv y Hy) as (ae & Hae & Hpar). exists ae. split; [done|]. intros c Hc.
  destruct (Hpar c Hc) as (p & Hp & Hin). exists p. split; [done|].
  assert (Hpv : p ∈ visited) by (destruct Hin; auto).
  destruct (Hv p Hpv) as (aep & Haep & _). eauto.
Qed.

(** What is true whatever the outcome, and what success adds. *)
Definition loop_post (s0 : S) (want : LogEntryId)
    (r : result BackfillError (option (Z * option (list LogEntryId)))) (s' : S) : Prop :=
  grown s0 s' ∧
  match r with
  | Ok None => False
  | Ok (Some (n, wp)) =>
      n = gained s0 s' ∧ closed_from (entries_of s') want ∧
      ∃ e, fetch want = Ok (mkVerified e) ∧ wp = Some (parent_ids_from_entry e)
  | Err (Truncated n) => n = gained s0 s'
  | Err _ => True
  end.

Lemma backfill_loop_ok fuel s0 s want queue visited n wp r s' :
  agrees s0 → (∀ id v, fetch id = Ok v → wf_entry (into_inner v)) →
  bf_inv s0 s want queue visited n wp →
  Z.of_nat fuel + Z.of_nat (size visited) = MAX_BACKFILL_ENTRIES → (0 < fuel)%nat →
  backfill_loop fuel fetch queue visited n wp s = (r, s') → loop_post s0 want r s'.
Proof.
  intros Hag Hwf. revert s queue visited n wp.
  induction fuel as [|fuel IH]; intros s queue visited n wp Hinv Hsize Hfuel; [lia|].
  cbn [backfill_loop]. pose proof Hinv as [Hg Hn Hv Hw Hwp].
  destruct (next_unvisited visited queue) as [[id queue']|] eqn:Enext.
  2:{ unfold mret, prog_ret. intros [= <- <-]. split; [done|]. pose proof (next_unvisited_None _ _ Enext).
      split_and!; [done|by eapply bf_inv_done|].
      destruct wp as [ids|]; [destruct Hwp as (e & ? & ->); eauto|].
      destruct Hwp as [-> ->]. specialize (H want ltac:(by left)). set_solver. }
  unfold mbind, prog_bind, lift, throw. destruct (fetch id) as [[e]|msg] eqn:Efetch; simpl;
    [|intros [= <- <-]; by split].
  case_bool_decide as Hid; simpl; [|intros [= <- <-]; by split].
  destruct (insert_fetched id e n s) as [rn s1] eqn:Eins.
  apply (insert_fetched_ok s0) in Eins as [Hg1 Hrn]; [|done|done|by apply (Hwf id (mkVerified e))|done|done].
  destruct rn as [n'|err]; [|destruct Hrn as [[se ->] _]; intros [= <- <-]; by split].
  destruct Hrn as (Hn' & Hin & Hother).
  pose proof (next_unvisited_Some _ _ _ _ Enext) as (Hfresh & _).
  assert (Hsz : size ({[ id ]} ∪ visited) = Datatypes.S (size visited)).
  { rewrite size_union, size_singleton by set_solver. lia. }
  destruct (Z.leb_spec MAX_BACKFILL_ENTRIES (Z.of_nat (size ({[ id ]} ∪ visited)))).
  { intros [= <- <-]. by split. }
  destruct (strict_parents _ (parent_cids e)) as [ps|err] eqn:Eps; simpl.
  2:{ intros [= <- <-]. split; [done|]. destruct err; try done.
      exfalso. clear -Eps. induction (parent_cids e) as [|c cs IH] in Eps; simpl in Eps; [done|].
      destruct (try_into_id _); [|done]. destruct (strict_parents _ cs); simplify_eq/=; auto. }
  apply IH; [|lia|lia]. by eapply bf_inv_step.
Qed.

(** Backfilling an entry that is not stored.  Whatever happens, the log
    only gains entries the peer served under the identifiers they hash to.  On
    success the whole ancestry of the requested entry is stored with all its
    links, the count is the number of entries gained, and the group's tips lose
    its parents and gain it; on failure the tips are as before.  The traversal
    always ends within its budget. *)
Theorem backfill_spec g want s r s' :
  st_inv s → wf_id want → agrees s → (∀ id v, fetch id = Ok v → wf_entry (into_inner v)) →
  entries_of s !! want = None → backfill g want fetch s = (r, s') →
  entries_of s ⊆ entries_of s' ∧
  (∀ id ae, entries_of s' !! id = Some ae → entries_of s !! id = None → served fetch id ae) ∧
  match r with
  | Ok None => False
  | Ok (Some n) =>
      n = gained s s' ∧ closed_from (entries_of s') want ∧
      ∃ e, fetch want = Ok (mkVerified e) ∧ advanced s s' g (parent_ids_from_entry e) want
  | Err _ => ∀ g', tips_of s' g' = tips_of s g'
  end.
Proof.
  intros Hi Hwid Hag Hwf Hnone Hrun. unfold backfill, mbind, mret, prog_bind, prog_ret, prog_map_err in Hrun.
  assert (Hfuel : Z.of_nat (Z.to_nat MAX_BACKFILL_ENTRIES) = MAX_BACKFILL_ENTRIES) by done.
  revert Hrun Hfuel. generalize (Z.to_nat MAX_BACKFILL_ENTRIES) as fuel. intros fuel Hrun Hfuel.
  pose proof (has_entry_ok want s Hi) as Hhas. unfold outcome in Hhas.
  destruct (has_entry want s) as [[b|err] s1]; cbn [map_err] in Hrun.
  2:{ destruct Hhas as (_ & _ & [He Ht] & _). simplify_eq. rewrite He. naive_solver. }
  destruct Hhas as (Hi1 & Hr1 & Hs1 & ->). rewrite bool_decide_eq_false_2 in Hrun
    by (by rewrite Hnone; intros [? ?]).
  pose proof (grown_same _ _ _ (grown_refl s Hi) Hi1 Hr1 Hs1) as Hg1.
  destruct (backfill_loop _ fetch [want] ∅ 0 None s1) as [rl s2] eqn:Eloop.
  apply (backfill_loop_ok _ s _ want) in Eloop; [|done|done|by apply bf_inv_init|rewrite size_empty; lia|unfold MAX_BACKFILL_ENTRIES in *; lia].
  destruct Eloop as [(Hi2 & Hr2 & Hsub & Hprov & Ht2) Hpost].
  assert (Hserved : ∀ id ae, entries_of s2 !! id = Some ae → entries_of s !! id = None → served fetch id ae).
  { intros id ae Hae H0. destruct (Hprov id ae Hae) as [?|[_ ?]]; [congruence|done]. }
  destruct rl as [[[n wp]|]|err]; [|done|by simplify_eq].
  destruct Hpost as (Hn & Hclosed & e & Hfe & ->).
  pose proof (advance_tips_ok g (parent_ids_from_entry e) want s2 Hi2 Hwid) as Hadv.
  unfold outcome in Hadv. destruct (advance_tips _ _ _ s2) as [[[]|err] s3]; cbn [map_err] in Hrun; simplify_eq.
  - destruct Hadv as (_ & _ & He3 & Ha3). unfold gained. rewrite He3. split_and!; [done..|].
    exists e. split; [done|]. intros g'. rewrite (Ha3 g'), !Ht2. done.
  - destruct Hadv as (_ & _ & [He3 Ht3] & _). rewrite He3. split_and!; [done..|].
    intros g'. by rewrite Ht3.
Qed.

(** Backfilling an entry that is already stored fetches nothing and stores
    nothing, whatever the peer would serve and whatever ancestors are missing:
    it only makes the entry a tip.  So after a backfill that failed or was
    truncated once its first entry was stored, the follow-up backfill from the
    same identifier, which the documentation of [Truncated] tells the caller to
    schedule, reports success with 0 entries and leaves the gaps. *)
Theorem backfill_present_fetches_nothing g want s r s' :
  st_inv s → wf_id want → reliable s → is_Some (entries_of s !! want) →
  backfill g want fetch s = (r, s') →
  r = Ok (Some 0) ∧ entries_of s' = entries_of s ∧ want ∈ tips_of s' g.
Proof.
  intros Hi Hwid Hrel Hin Hrun.
  assert (H : outcome s (backfill g want fetch)
    (λ n s', n = Some 0 ∧ entries_of s' = entries_of s ∧ want ∈ tips_of s' g) (λ _, ¬ reliable s)).
  { eapply (outcome_bind _ _ _ (λ b _, b = bool_decide (is_Some (entries_of s !! want)))).
    { apply outcome_map_err. eapply outcome_impl; [by apply has_entry_ok|done|]. by intros e [? _]. }
    intros b s1 Hi1 Hr1 Hs1 ->. rewrite bool_decide_eq_true_2 by done. apply outcome_assoc.
    eapply (outcome_bind _ _ _ (λ l _, list_to_set l = tips_of s1 g)).
    { apply outcome_map_err. eapply outcome_impl; [by apply list_tips_ok|naive_solver|]. intros e [? _]. tauto. }
    intros tips s2 Hi2 Hr2 Hs2 Htips. destruct Hs1 as [He1 Ht1], Hs2 as [He2 Ht2].
    case_bool_decide as Htip.
    { apply outcome_ret; [done|]. split_and!; [done|congruence|]. rewrite Ht2, <- Htips. set_solver. }
    apply outcome_assoc.
    eapply (outcome_bind _ _ _ (λ e _, entry_view <$> e = entries_of s2 !! want)).
    { apply outcome_map_err. eapply outcome_impl; [by apply get_entry_ok|done|]. intros e [? _]. tauto. }
    intros e s3 Hi3 Hr3 [He3 Ht3] Hview. rewrite He2, He1 in Hview.
    destruct e as [e|]; [|destruct Hin; by rewrite <- Hview in *].
    pose proof (advance_tips_ok g (parent_ids_from_entry e) want s3 Hi3 Hwid) as Hadv.
    unfold outcome, mbind, prog_bind, prog_map_err in *.
    destruct (advance_tips _ _ _ s3) as [[[]|err] s4]; simpl.
    - destruct Hadv as (? & ? & He4 & Ha4). split_and!; [done|auto|done|congruence|].
      rewrite (Ha4 g), decide_True by done. set_solver.
    - destruct Hadv as (? & ? & ? & [? _]). split_and!; [done|done|done|tauto]. }
  unfold outcome in H. rewrite Hrun in H. destruct r as [n|err].
  - destruct H as (_ & _ & -> & ?). done.
  - destruct H as (_ & _ & _ & ?). done.
Qed.

End Spec.

End Backfill.

(** ** A concrete peer *)

Module BackfillSamples.
Import ToyCrypto LogEntry.Samples MemStorage AppendSamples.

(** A peer that serves the two entries, and one that loses the connection after
    the first. *)
Definition peer (id : LogEntryId) : result bytes VerifiedEntry :=
  if bool_decide (id = from_entry left_entry) then Ok (mkVerified left_entry)
  else if bool_decide (id = from_entry root) then Ok (mkVerified root)
  else Err (lit "not found").

Definition broken_peer (id : LogEntryId) : result bytes VerifiedEntry :=
  if bool_decide (id = from_entry left_entry) then Ok (mkVerified left_entry)
  else Err (lit "connection lost").

Definition filled : MemLogStorage := (backfill grp (from_entry left_entry) peer mem_new).2.
Definition broken : MemLogStorage := (backfill grp (from_entry left_entry) broken_peer mem_new).2.
Definition retried : MemLogStorage := (backfill grp (from_entry left_entry) peer broken).2.

Lemma run_filled :
  backfill grp (from_entry left_entry) peer mem_new = (Ok (Some 2), filled).
Proof. vm_refl. Qed.

Lemma run_broken :
  backfill grp (from_entry left_entry) broken_peer mem_new =
  (Err (FetchFailed (lit "connection lost")), broken).
Proof. vm_refl. Qed.

Lemma run_retried :
  backfill grp (from_entry left_entry) peer broken = (Ok (Some 0), retried).
Proof. vm_refl. Qed.

Lemma served_wf (b1 b2 : bool) e1 e2 err v :
  (if b1 then Ok (mkVerified e1) else if b2 then Ok (mkVerified e2) else Err err) =
    (Ok v : result bytes VerifiedEntry) →
  wf_entry e1 → wf_entry e2 → wf_entry (into_inner v).
Proof. destruct b1, b2; by intros [= <-]. Qed.

Lemma peer_wf id v : peer id = Ok v → wf_entry (into_inner v).
Proof.
  destruct wf_samples as (Hr & Hl & _). unfold peer. intros H.
  exact (served_wf _ _ _ _ _ _ H Hl Hr).
Qed.

Lemma mem_new_agrees : agrees (S := MemLogStorage) peer mem_new.
Proof. intros id ae ae'. rewrite mem_new_lookup. intros [=]. Qed.

Lemma backfill_spec_witness :
  gained mem_new filled = 2 ∧ closed_from (entries_of filled) (from_entry left_entry).
Proof.
  destruct (backfill_spec peer grp (from_entry left_entry) mem_new (Ok (Some 2)) filled
    (proj1 mem_new_empty) ltac:(reflexivity) mem_new_agrees peer_wf (mem_new_lookup _) run_filled)
    as (_ & _ & Hn & Hc & _).
  split; [exact (eq_sym Hn)|exact Hc].
Defined.

Lemma broken_inv : st_inv broken.
Proof.
  assert (H : bool_decide (mem_tips broken = ∅) = true) by vm_refl.
  apply bool_decide_eq_true_1 in H.
  intros g. unfold mem_tip_list. rewrite H, lookup_empty. apply NoDup_nil_2.
Qed.

Lemma broken_has_left : is_Some (entries_of broken !! from_entry left_entry).
Proof.
  assert (H : bool_decide (is_Some (mem_entries broken !! from_entry left_entry)) = true) by vm_refl.
  apply bool_decide_eq_true_1 in H. cbv [entries_of mem_view].
  rewrite lookup_fmap, fmap_is_Some. exact H.
Qed.

Lemma broken_lacks_root : entries_of broken !! from_entry root = None.
Proof.
  assert (H : bool_decide (is_Some (mem_entries broken !! from_entry root)) = false) by vm_refl.
  apply bool_decide_eq_false_1 in H. cbv [entries_of mem_view].
  rewrite lookup_fmap, fmap_None. apply eq_None_not_Some. exact H.
Qed.

(** The connection is lost after the first entry; the retry, with the peer
    serving everything, reports success and the parent stays missing. *)
Lemma backfill_present_fetches_nothing_witness :
  backfill grp (from_entry left_entry) peer broken = (Ok (Some 0), retried) ∧
  entries_of retried !! from_entry root = None.
Proof.
  destruct (backfill_present_fetches_nothing peer grp (from_entry left_entry) broken (Ok (Some 0))
    retried broken_inv ltac:(reflexivity) I broken_has_left run_retried) as (_ & He & _).
  split; [exact run_retried|]. rewrite He. exact broken_lacks_root.
Defined.

End BackfillSamples.

End Backfill.
