(* ===== verification/Pipeline.v ===== *)
(** The transit daemon's store-and-forward pipeline:
    [crates/transit/src/peering/pipeline.rs].

    [run_pipeline] composes the block store, the Message-ID map, the group log
    and the [articles] table, each through its interface; the state of all four
    is a [World].  Signature verification of the article body is recorded on the
    side and changes nothing else, so its recording step is an argument.  The
    texts of errors leave out the values the code interpolates. *)

From S2P Require Import Prelude Bytes Utf8 Wildmat Article Validation Headers Crypto BlockStore Canonical Hlc LogEntry LogStorage MemStorage Sql SqliteStorage MsgIdMap Append AppendTips Verify.

Module Pipeline.
Import Utf8 Wildmat Article Headers BlockStore Canonical Hlc LogEntry LogStorage MsgIdMap Append AppendTips Verify Sql.

Inductive PipelineError :=
| Permanent (msg : bytes)
| Transient (msg : bytes).

(** How a run can end without a result. *)
Inductive Abort :=
| Failed (e : PipelineError)
| Panicked (p : Panic).

(** A row of [articles(cid PRIMARY KEY, group_name, ingested_at_ms, byte_count)]. *)
Record ArticleRow := mkArticleRow {
  art_group_name : bytes;
  art_ingested_at_ms : Z;
  art_byte_count : Z
}.

Section Pipeline.
Context {lib : CidLib} {siglib : SigLib}.

Record PipelineResult := mkResult { res_cid : Cid; res_groups : list bytes }.

Record PipelineMetrics := mkMetrics {
  articles_ingested_total : Z;
  ipfs_write_latency_ms : Z
}.

Record PipelineCtx (V : Type) := mkCtx {
  timestamp : HlcTimestamp;
  operator_signing_key : SigningKey;
  local_hostname : bytes;
  (** [verify_article] with the configured store and keys, if any. *)
  verify_article : option (bytes → Cid → V → V);
  group_filter : GroupPolicy
}.
Arguments mkCtx {V}.
Arguments timestamp {V} _.
Arguments operator_signing_key {V} _.
Arguments local_hostname {V} _.
Arguments verify_article {V} _.
Arguments group_filter {V} _.

(** ** One group *)

(** The entry for an article on top of the given tips, signed. *)
Definition build_entry (ts : HlcTimestamp) (key : SigningKey) (cid : Cid)
    (tip_ids : list LogEntryId) : LogEntry :=
  let parent_cids := to_cid <$> tip_ids in
  let canonical := log_entry_canonical_bytes (wall_ms ts) cid parent_cids in
  mkEntry ts cid (sign key canonical) parent_cids.

Definition filter_accepts (policy : GroupPolicy) (name : bytes) : bool :=
  match policy with Some filter => accepts filter name | None => true end.

Section Log.
Context {S : Type} {store : LogStorage S}.

(** The body of the loop over the groups: the appended pair, or [None] where
    the code logs and continues. *)
Definition append_group (ts : HlcTimestamp) (key : SigningKey) (policy : GroupPolicy) (cid : Cid)
    (group_name_str : bytes) : prog S PipelineError (option (bytes * LogEntryId)) := λ s,
  match group_new group_name_str with
  | Err _ => (Ok None, s)
  | Ok group =>
      if negb (filter_accepts policy group_name_str) then (Ok None, s)
      else
        match list_tips group s with
        | (Err _, s1) => (Ok None, s1)
        | (Ok tip_ids, s1) =>
            match verify_signature (build_entry ts key cid tip_ids) (verifying_key key) with
            | Err _ => (Err (Permanent (lit "log entry signature self-check failed")), s1)
            | Ok verified =>
                match append group verified s1 with
                | (Err _, s2) => (Ok None, s2)
                | (Ok entry_id, s2) => (Ok (Some (group_name_str, entry_id)), s2)
                end
            end
        end
  end.

Fixpoint append_groups (ts : HlcTimestamp) (key : SigningKey) (policy : GroupPolicy) (cid : Cid)
    (names : list bytes) : prog S PipelineError (list (bytes * LogEntryId)) :=
  match names with
  | [] => mret []
  | name :: names' =>
      r ← append_group ts key policy cid name;
      rs ← append_groups ts key policy cid names';
      mret (match r with Some x => x :: rs | None => rs end)
  end.

End Log.

(** ** The run *)

Section Run.
Context {I M S V : Type} {ipfs : IpfsStore I} {mids : MsgIdStore M} {store : LogStorage S}.

Record World := mkWorld {
  w_ipfs : I;
  w_msgids : M;
  w_log : S;
  w_articles : Pool (gmap bytes ArticleRow);
  w_verify : V
}.

(** The upsert of the [articles] table: a known CID keeps its row and takes the
    new group list. *)
Definition upsert_article (cid_str all_groups : bytes) (ingested_at_ms byte_count : Z)
    (t : gmap bytes ArticleRow) : gmap bytes ArticleRow :=
  match t !! cid_str with
  | Some row => <[ cid_str := mkArticleRow all_groups (art_ingested_at_ms row) (art_byte_count row) ]> t
  | None => <[ cid_str := mkArticleRow all_groups ingested_at_ms byte_count ]> t
  end.

Definition on_ipfs {A} (m : prog I IpfsError A) (msg : bytes) : prog World Abort A := λ w,
  let '(r, i) := m (w_ipfs w) in
  (map_err (λ _, Failed (Transient msg)) r,
   mkWorld i (w_msgids w) (w_log w) (w_articles w) (w_verify w)).

Definition on_log {A} (m : prog S PipelineError A) : prog World Abort A := λ w,
  let '(r, s) := m (w_log w) in
  (map_err Failed r, mkWorld (w_ipfs w) (w_msgids w) s (w_articles w) (w_verify w)).

Definition on_articles (f : gmap bytes ArticleRow → gmap bytes ArticleRow) : prog World Abort () :=
  λ w, let '(r, p) := execute f (w_articles w) in
  (map_err (λ _, Failed (Transient (lit "articles table insert failed"))) r,
   mkWorld (w_ipfs w) (w_msgids w) (w_log w) p (w_verify w)).

(** The verification results go to their own store. *)
Definition record_verification (ctx : PipelineCtx V) (original_bytes : bytes) (cid : Cid) :
    prog World Abort () := λ w,
  (Ok tt, mkWorld (w_ipfs w) (w_msgids w) (w_log w) (w_articles w)
            (match verify_article ctx with
             | Some verify => verify original_bytes cid (w_verify w)
             | None => w_verify w
             end)).

(** The Message-ID insert; when it fails, the block just written is deleted
    whether or not the deletion works. *)
Definition insert_msgid (message_id : bytes) (cid : Cid) : prog World Abort () := λ w,
  match msgid_insert message_id cid (w_msgids w) with
  | (Ok _, m) => (Ok tt, mkWorld (w_ipfs w) m (w_log w) (w_articles w) (w_verify w))
  | (Err _, m) =>
      let '(_, i) := delete_block cid (w_ipfs w) in
      (Err (Failed (Transient (lit "msgid insert failed"))),
       mkWorld i m (w_log w) (w_articles w) (w_verify w))
  end.

(** [clock] is [SystemTime::now()] since the epoch in ms, [None] before 1970;
    [elapsed_ms] the time the block write took. *)
Definition run_pipeline (ctx : PipelineCtx V) (clock : option Z) (elapsed_ms : Z)
    (original_bytes : bytes) : prog World Abort (PipelineResult * PipelineMetrics) :=
  let article_bytes := prepend_path_header original_bytes (local_hostname ctx) in
  cid ← on_ipfs (put_raw article_bytes) (lit "IPFS write failed");
  _ ← record_verification ctx original_bytes cid;
  parsed ← lift (map_err Panicked (parse_message_id_and_newsgroups article_bytes));
  match parsed with
  | None => throw (Failed (Permanent (lit "missing Message-ID header")))
  | Some (message_id, group_name_strs) =>
      _ ← insert_msgid message_id cid;
      appended_groups ← on_log (append_groups (timestamp ctx) (operator_signing_key ctx)
                                  (group_filter ctx) cid group_name_strs);
      _ ← on_articles (upsert_article (cid_to_string cid) (join [COMMA] group_name_strs)
                         (default 1 clock) (Z.of_nat (length article_bytes)));
      mret (mkResult cid (fst <$> appended_groups), mkMetrics 1 elapsed_ms)
  end.

End Run.

(** ** What one group's step does *)

Definition eligible (policy : GroupPolicy) (name : bytes) : bool :=
  is_ok (group_new name) && filter_accepts policy name.

Section LogSpec.
Context {S : Type} {view : StorageView S} {store : LogStorage S}.
Context {slaws : LogStorageLaws S} {laws : CidLaws lib} {siglaws : SigLaws siglib}.
Context (ts : HlcTimestamp) (key : SigningKey) (policy : GroupPolicy) (cid : Cid).
Context (Hts : in_u64 (wall_ms ts)).

Lemma group_new_Ok name g : group_new name = Ok g → g = mkGroupName name.
Proof. unfold group_new. destruct (is_valid_group_name name); [|done]. by intros [= <-]. Qed.

(** The self-check of a freshly signed entry always passes. *)
Lemma build_entry_verifies tips :
  verify_signature (build_entry ts key cid tips) (verifying_key key) =
  Ok (mkVerified (build_entry ts key cid tips)).
Proof.
  apply verify_signature_Ok. split_and!; [done|apply length_ed_sign|apply ed_sign_verifies].
Qed.

(** An entry for the article on top of the given tips, signed by the operator. *)
Definition signed_for (key : SigningKey) (cid : Cid) (tips : list LogEntryId) (e : LogEntry) : Prop :=
  article_cid e = cid ∧ parent_cids e = to_cid <$> tips ∧ verify_signature e (verifying_key key) = Ok (mkVerified e).

Lemma build_entry_signed_for tips : signed_for key cid tips (build_entry ts key cid tips).
Proof. split_and!; [done|done|apply build_entry_verifies]. Qed.

(** The entry a step adds: over a listing of the group's tips. *)
Definition entry_for (s : S) (name : bytes) (e : LogEntry) : Prop :=
  ∃ tips, NoDup tips ∧ list_to_set tips = tips_of s (mkGroupName name) ∧
    e = build_entry ts key cid tips.

(** Nothing stands in the way of appending to an eligible group. *)
Definition smooth (s : S) : Prop :=
  reliable s ∧ tips_stored s ∧ ∀ tips, storable (build_entry ts key cid tips).

Lemma append_group_ok name s :
  st_inv s →
  outcome s (append_group ts key policy cid name)
    (λ r s',
       match r with
       | None => same_log s s' ∧ (eligible policy name = false ∨ ¬ smooth s)
       | Some (n, id) => n = name ∧ eligible policy name = true ∧
           ∃ e, entry_for s name e ∧ id = from_entry e ∧ extended s s' (mkGroupName name) e
       end) (λ _, False).
Proof.
  intros Hi. unfold outcome, append_group, eligible.
  destruct (group_new name) as [g|] eqn:Eg; simpl; [|by split_and!; auto].
  apply group_new_Ok in Eg as ->. destruct (filter_accepts policy name); simpl; [|by split_and!; auto].
  pose proof (list_tips_ok (mkGroupName name) s Hi) as Hl. unfold outcome in Hl.
  destruct (list_tips (mkGroupName name) s) as [[tips|err] s1].
  2:{ destruct Hl as (? & ? & ? & ? & _). unfold smooth. split_and!; [done..|]. right. tauto. }
  destruct Hl as (Hi1 & Hr1 & Hs1 & Hnd & Htips). pose proof Hs1 as [He1 Ht1]. rewrite build_entry_verifies.
  pose proof (append_on_tips (mkGroupName name) (build_entry ts key cid tips) tips s1 Hi1 Hts) as Ha.
  rewrite Ht1 in Ha. specialize (Ha Htips eq_refl). unfold outcome in Ha.
  destruct (append _ _ s1) as [[id|err] s2].
  - destruct Ha as (Hi2 & Hr2 & -> & Hext). split_and!; [done|auto|done|done|].
    exists (build_entry ts key cid tips). split; [by exists tips|]. split; [done|].
    by eapply extended_same_l.
  - destruct Ha as (Hi2 & Hr2 & Hs2 & Hf). split_and!; [done|auto|by transitivity s1|].
    right. intros (Hr & Hts' & Hst). destruct Hf as [Hf|[Hf|Hf]]; [by auto|by auto|].
    apply Hf. intros g id. rewrite Ht1, He1. apply Hts'.
Qed.

(** ** What the loop does *)

Lemma smooth_same s s' : same_log s s' → (reliable s → reliable s') → smooth s → smooth s'.
Proof.
  intros [He Ht] Hr (Hrel & Hst & Hsto). split_and!; [auto| |done].
  intros g id. rewrite Ht, He. apply Hst.
Qed.

Definition gained_only (s s' : S) : Prop :=
  ∀ id ae, entries_of s' !! id = Some ae → entries_of s !! id = Some ae ∨
    ∃ tips, id = from_entry (build_entry ts key cid tips) ∧
            ae = entry_view (build_entry ts key cid tips).

Lemma append_groups_ok names s :
  st_inv s →
  outcome s (append_groups ts key policy cid names)
    (λ rs s', entries_of s ⊆ entries_of s' ∧ gained_only s s' ∧ rs.*1 `sublist_of` names ∧
       Forall (λ x, eligible policy x.1 = true) rs ∧
       grown (signed_for key cid) s (mkGroupName <$> rs.*1) s' ∧
       (smooth s → rs.*1 = List.filter (eligible policy) names)) (λ _, False).
Proof.
  revert s. induction names as [|name names IH]; intros s Hi.
  { apply outcome_ret; [done|]. split_and!; [done|by left|done|done|by constructor|done]. }
  unfold outcome. cbn [append_groups]. unfold mbind, mret, prog_bind, prog_ret.
  pose proof (append_group_ok name s Hi) as Hg. unfold outcome in Hg.
  destruct (append_group ts key policy cid name s) as [[r|err] s1]; [|by destruct Hg as (_ & _ & _ & [])].
  destruct Hg as (Hi1 & Hr1 & Hr). pose proof (IH s1 Hi1) as Hrec. unfold outcome in Hrec.
  destruct (append_groups ts key policy cid names s1) as [[rs|err] s2];
    [|by destruct Hrec as (_ & _ & _ & [])].
  destruct Hrec as (Hi2 & Hr2 & Hsub & Hgain & Hsl & Hall & Hgrown & Hfull). split; [done|]. split; [auto|].
  destruct r as [[n id]|].
  - destruct Hr as (-> & Hel & e & (tips & Hnd & Htips & ->) & -> & Hext).
    assert (Hsub1 := extended_mono _ _ _ _ Hext). split_and!.
    + by etrans.
    + intros id ae [H|?]%Hgain; [|by right]. apply (extended_gain _ _ _ _ _ _ Hext) in H as [?|[-> ->]]; eauto.
    + simpl. by apply sublist_skip.
    + by apply Forall_cons.
    + eapply grown_cons; [exact Hnd|exact Htips|apply build_entry_signed_for|exact Hext|exact Hgrown].
    + intros (Hrel & Hst & Hsto). simpl. rewrite Hel. f_equal. apply Hfull. split_and!; [auto| |done].
      by eapply extended_tips_stored.
  - destruct Hr as [Hs1 Hwhy]. pose proof Hs1 as [He Ht]. unfold gained_only in *. rewrite He in *. split_and!; [done..| |done| |].
    + by apply sublist_cons.
    + by eapply grown_same_l.
    + intros Hsm. simpl. destruct Hwhy as [->|?]; [|done]. apply Hfull.
      by apply (smooth_same s).
Qed.

(** The listing order of the tips does not matter. *)
Lemma build_entry_perm tips tips' :
  tips ≡ₚ tips' → same_content (build_entry ts key cid tips) (build_entry ts key cid tips').
Proof.
  intros Hp. unfold same_content, build_entry. simpl. split_and!; [done|done| |by rewrite Hp].
  unfold log_entry_canonical_bytes. by rewrite Hp.
Qed.

Lemma list_to_set_perm (tips : list LogEntryId) (T : gset LogEntryId) :
  NoDup tips → list_to_set tips = T → tips ≡ₚ elements T.
Proof. intros Hnd <-. symmetry. by apply elements_list_to_set. Qed.

(** One group of the pipeline.  When the step reports an entry that was not
    stored, the log has gained exactly that entry, which names the article, is
    signed by the operator and has every earlier tip of the group as a parent;
    it is now the group's only tip and no other group is touched. *)
Theorem append_group_spec name s id n s' :
  st_inv s → append_group ts key policy cid name s = (Ok (Some (n, id)), s') →
  entries_of s !! id = None →
  ∃ e, id = from_entry e ∧ article_cid e = cid ∧
    verify_signature e (verifying_key key) = Ok (mkVerified e) ∧
    parent_cids e ≡ₚ to_cid <$> elements (tips_of s (mkGroupName name)) ∧
    entries_of s' = <[ id := entry_view e ]> (entries_of s) ∧
    sole_tip s s' (mkGroupName name) id.
Proof.
  intros Hi Hrun Hnew. pose proof (append_group_ok name s Hi) as H. unfold outcome in H.
  rewrite Hrun in H. destruct H as (_ & _ & _ & _ & e & (tips & Hnd & Htips & ->) & -> & Hext).
  exists (build_entry ts key cid tips). split_and!; [done|done|apply build_entry_verifies| |..].
  - simpl. by rewrite (list_to_set_perm tips _ Hnd Htips).
  - destruct Hext as [[[? ?] _]|[[_ ?] _]]; [congruence|done].
  - destruct Hext as [[[? ?] _]|[_ ?]]; [congruence|done].
Qed.

(** A crosspost that loses a group.  When two eligible groups have the same
    tips (two groups without articles, for instance) the two entries built for
    them are identical, because neither the identifier nor the signature covers
    the group.  The pipeline reports the article as appended to both, but the
    second append finds the entry stored and returns without touching the
    second group, whose tips stay as they were: the article is not in its log. *)
Theorem crosspost_second_group_lost n1 n2 s :
  let id := from_entry (build_entry ts key cid (elements (tips_of s (mkGroupName n1)))) in
  st_inv s → smooth s → eligible policy n1 = true → eligible policy n2 = true → n1 ≠ n2 →
  tips_of s (mkGroupName n1) = tips_of s (mkGroupName n2) → entries_of s !! id = None →
  ∃ s', append_groups ts key policy cid [n1; n2] s = (Ok [(n1, id); (n2, id)], s') ∧
    tips_of s' (mkGroupName n1) = {[ id ]} ∧
    tips_of s' (mkGroupName n2) = tips_of s (mkGroupName n2) ∧
    id ∉ tips_of s' (mkGroupName n2).
Proof.
  intros id Hi Hsm He1 He2 Hne Heq Hnew.
  assert (Hid : ∀ tips, NoDup tips → list_to_set tips = tips_of s (mkGroupName n1) →
    from_entry (build_entry ts key cid tips) = id).
  { intros tips Hnd Ht. apply from_entry_proper, build_entry_perm. by apply list_to_set_perm. }
  cbn [append_groups]. unfold mbind, mret, prog_bind, prog_ret.
  pose proof (append_group_ok n1 s Hi) as H1. unfold outcome in H1.
  destruct (append_group ts key policy cid n1 s) as [[[[n id1]|]|err] s1];
    [|destruct H1 as (_ & _ & _ & [?|?]); [congruence|done]|by destruct H1 as (_ & _ & _ & [])].
  destruct H1 as (Hi1 & Hr1 & -> & _ & e1 & (tips1 & Hnd1 & Ht1 & ->) & -> & Hext1).
  rewrite (Hid _ Hnd1 Ht1) in *. pose proof (extended_present _ _ _ _ Hext1) as Hin.
  pose proof (extended_tips_stored _ _ _ _ Hext1 (proj1 (proj2 Hsm))) as Hts1.
  destruct Hext1 as [[[? ?] _]|[[_ _] Hsole]]; rewrite (Hid _ Hnd1 Ht1) in *; [congruence|].
  assert (Hg2 : tips_of s1 (mkGroupName n2) = tips_of s (mkGroupName n2)).
  { rewrite (Hsole (mkGroupName n2)), decide_False; [done|congruence]. }
  pose proof (append_group_ok n2 s1 Hi1) as H2. unfold outcome in H2.
  destruct (append_group ts key policy cid n2 s1) as [[[[n id2]|]|err] s2];
    [|destruct H2 as (_ & _ & _ & [?|Hn]); [congruence|destruct Hn; split_and!; [apply Hr1, Hsm|done|apply Hsm]]
     |by destruct H2 as (_ & _ & _ & [])].
  destruct H2 as (_ & _ & -> & _ & e2 & (tips2 & Hnd2 & Ht2 & ->) & -> & Hext2).
  rewrite Hg2, <- Heq in Ht2. unfold extended, inserted in Hext2. rewrite (Hid _ Hnd2 Ht2) in *.
  destruct Hext2 as [[_ [_ Hsame]]|[[Hn _] _]]; [|destruct Hin; congruence].
  exists s2. split; [done|]. rewrite !Hsame, Hg2, (Hsole (mkGroupName n1)), decide_True by done.
  split_and!; [done|done|]. intros Hin'. destruct Hsm as (_ & Hst & _).
  destruct (Hst _ _ Hin') as [_ [? ?]]. congruence.
Qed.

End LogSpec.

(** No entry the pipeline writes passes [verify_entry]: the block store
    hands out raw-codec CIDs (0x55) and the verifier only admits DAG-CBOR
    (0x71). *)
Theorem pipeline_entries_fail_verification {S : Type} {store : LogStorage S} {laws : CidLaws lib}
    ts key data tips id pubkey (s : S) :
  Z.of_nat (length tips) <= MAX_PARENT_CIDS →
  verify_entry (build_entry ts key (raw_cid data) tips) id pubkey s =
  (Err (InvalidArticleCidCodec 0x55), s).
Proof.
  intros Hlen. unfold verify_entry. cbn [parent_cids article_cid build_entry].
  rewrite length_fmap. destruct (Z.ltb_spec MAX_PARENT_CIDS (Z.of_nat (length tips))); [lia|].
  unfold raw_cid. by rewrite cid_new_v1_codec.
Qed.

(** ** What a run does *)

Section RunSpec.
Context {I M S V : Type} {ipfs : IpfsStore I} {mids : MsgIdStore M} {store : LogStorage S}.
Context {iview : BlockView I} {mview : MsgIdView M} {view : StorageView S}.
Context {ilaws : IpfsLaws I} {mlaws : MsgIdLaws M} {slaws : LogStorageLaws S}.
Context {laws : CidLaws lib} {siglaws : SigLaws siglib}.

Abbreviation Node := (@World I M S V) (only parsing).

Definition world_ok (w : Node) : Prop := st_inv (w_log w) ∧ msgid_inv (w_msgids w).

(** Neither the block store nor a database will fail. *)
Definition calm (w : Node) : Prop :=
  ipfs_reliable (w_ipfs w) ∧ msgid_reliable (w_msgids w) ∧ pool_reliable (w_articles w).

(** The Message-ID is taken by another article. *)
Definition taken (w : Node) (mid : bytes) (cid : Cid) : Prop :=
  ∃ d, d ≠ cid ∧ msgids (w_msgids w) !! mid = Some d.

(** The article is recorded everywhere it should be. *)
Definition recorded (ctx : PipelineCtx V) (data : bytes) (mid : bytes) (names : list bytes)
    (w w' : Node) (res : PipelineResult) : Prop :=
  let cid := raw_cid data in
  res_cid res = cid ∧ blocks (w_ipfs w') !! cid = Some data ∧
  msgids (w_msgids w') = <[ mid := cid ]> (msgids (w_msgids w)) ∧
  art_group_name <$> rows (w_articles w') !! cid_to_string cid = Some (join [COMMA] names) ∧
  res_groups res `sublist_of` names ∧
  Forall (λ n, eligible (group_filter ctx) n = true) (res_groups res) ∧
  (smooth (timestamp ctx) (operator_signing_key ctx) cid (w_log w) →
     res_groups res = List.filter (eligible (group_filter ctx)) names) ∧
  grown (signed_for (operator_signing_key ctx) cid) (w_log w) (mkGroupName <$> res_groups res) (w_log w').

Lemma upsert_lookup cid_str groups at_ms n t :
  art_group_name <$> upsert_article cid_str groups at_ms n t !! cid_str = Some groups.
Proof. unfold upsert_article. by destruct (t !! cid_str); rewrite lookup_insert_eq. Qed.

(** The steps after the Message-ID was mapped. *)
Lemma finish_ok ctx clock elapsed data mid names (w : Node) r w' :
  world_ok w → in_u64 (wall_ms (timestamp ctx)) →
  blocks (w_ipfs w) !! raw_cid data = Some data →
  (appended_groups ← on_log (append_groups (timestamp ctx) (operator_signing_key ctx)
                               (group_filter ctx) (raw_cid data) names);
   _ ← on_articles (upsert_article (cid_to_string (raw_cid data)) (join [COMMA] names)
                      (default 1 clock) (Z.of_nat (length data)));
   mret (mkResult (raw_cid data) (fst <$> appended_groups), mkMetrics 1 elapsed)) w = (r, w') →
  world_ok w' ∧ entries_of (w_log w) ⊆ entries_of (w_log w') ∧ w_msgids w' = w_msgids w ∧
  match r with
  | Ok (res, _) => ∀ w0, w_log w0 = w_log w →
      msgids (w_msgids w) = <[ mid := raw_cid data ]> (msgids (w_msgids w0)) →
      recorded ctx data mid names w0 w' res
  | Err e => ¬ pool_reliable (w_articles w) ∧ ∃ msg, e = Failed (Transient msg)
  end.
Proof.
  intros [Hi Hmi] Hts Hb. unfold mbind, mret, prog_bind, prog_ret, on_log, on_articles.
  pose proof (append_groups_ok (timestamp ctx) (operator_signing_key ctx) (group_filter ctx)
    (raw_cid data) Hts names (w_log w) Hi) as Hg. unfold outcome in Hg.
  destruct (append_groups _ _ _ _ names (w_log w)) as [[rs|err] s1];
    [|by destruct Hg as (_ & _ & _ & [])].
  destruct Hg as (Hi1 & _ & Hsub & _ & Hsl & Hall & Hgrown & Hfull). cbn [map_err w_articles].
  pose proof (execute_ok (upsert_article (cid_to_string (raw_cid data)) (join [COMMA] names)
    (default 1 clock) (Z.of_nat (length data))) (w_articles w) (λ _, False)) as He.
  unfold db_outcome in He. destruct (execute _ (w_articles w)) as [[[]|[]] p]; cbn [map_err].
  2:{ intros [= <- <-]. destruct He as (_ & _ & [[]|Hn]). split_and!; [split; done|done|done|done|eauto]. }
  intros [= <- <-]. destruct He as [_ Hrows]. split_and!; [split; done|done|done|].
  intros w0 Hlog Hmap. unfold recorded. cbn [res_cid res_groups w_ipfs w_msgids w_articles w_log].
  split_and!; [done|done|done|rewrite Hrows; apply upsert_lookup|done|by apply Forall_fmap|by rewrite Hlog|by rewrite Hlog].
Qed.


End RunSpec.

End Pipeline.

(** ** A concrete node *)

Module PipelineSamples.
Import ToyCrypto LogEntry.Samples MemStorage SqliteStorage.SqlSamples MsgIdSamples HeaderSamples AppendSamples.

Definition ts0 : HlcTimestamp := mkTs 1000 0 [0].

Definition ctx0 : PipelineCtx () := mkCtx _ ts0 key host None None.

Definition world0 : World :=
  mkWorld (I := MemIpfsStore) (M := Pool (gmap bytes bytes)) (S := MemLogStorage) (V := ())
    mem_ipfs_new sql_msgids_new mem_new (mkPool ∅ []) tt.

Definition rust : bytes := lit "comp.lang.rust".
Definition alt : bytes := lit "alt.test".

Definition data0 : bytes := prepend_path_header sample host.
Definition cid0 : Cid := raw_cid data0.
Definition result0 : PipelineResult := mkResult cid0 [rust; alt].
Definition world1 : World := (run_pipeline ctx0 (Some 5) 3 sample world0).2.

Lemma run_sample :
  run_pipeline ctx0 (Some 5) 3 sample world0 = (Ok (result0, mkMetrics 1 3), world1).
Proof. vm_refl. Qed.

Lemma world0_ok : world_ok world0.
Proof. split; [exact (proj1 mem_new_empty)|exact rows_ok_empty]. Qed.

Lemma ts0_ok : in_u64 (wall_ms ts0).
Proof. by apply (bool_decide_eq_true_1 _). Qed.


Definition id_rust : LogEntryId := from_entry (build_entry ts0 key cid0 []).
Definition log1 : MemLogStorage := (append_group ts0 key None cid0 rust mem_new).2.

Lemma append_rust :
  append_group ts0 key None cid0 rust mem_new = (Ok (Some (rust, id_rust)), log1).
Proof. vm_refl. Qed.

Lemma append_group_spec_witness : tips_of log1 (mkGroupName rust) = {[ id_rust ]}.
Proof.
  destruct (append_group_spec ts0 key None cid0 ts0_ok rust mem_new id_rust rust log1
    (proj1 mem_new_empty) append_rust (mem_new_lookup _)) as (_ & _ & _ & _ & _ & _ & Hsole).
  rewrite (Hsole (mkGroupName rust)). apply decide_True. reflexivity.
Defined.

Lemma mem_new_tips g : tips_of mem_new g = ∅.
Proof. exact (proj2 (proj2 mem_new_empty) g). Qed.

Lemma mem_new_smooth : smooth ts0 key cid0 mem_new.
Proof.
  split; [exact I|]. split; [|intros tips; exact I].
  intros g id Hid. rewrite mem_new_tips in Hid. apply not_elem_of_empty in Hid. destruct Hid.
Qed.

(** The first article crossposted to two new groups is in the log of one. *)
Lemma crosspost_second_group_lost_witness :
  ∃ s' id, append_groups ts0 key None cid0 [rust; alt] mem_new = (Ok [(rust, id); (alt, id)], s') ∧
    id ∉ tips_of s' (mkGroupName alt).
Proof.
  destruct (crosspost_second_group_lost ts0 key None cid0 ts0_ok rust alt mem_new
    (proj1 mem_new_empty) mem_new_smooth ltac:(vm_refl) ltac:(vm_refl) ltac:(discriminate)
    (eq_trans (mem_new_tips _) (eq_sym (mem_new_tips _))) (mem_new_lookup _))
    as (s' & Hrun & _ & _ & Hno).
  eexists s', _. split; [exact Hrun|exact Hno].
Defined.

Lemma pipeline_entries_fail_verification_witness :
  verify_entry (build_entry ts0 key cid0 []) id_rust pk mem_new =
  (Err (InvalidArticleCidCodec 0x55), mem_new).
Proof.
  apply (pipeline_entries_fail_verification ts0 key data0 [] id_rust pk mem_new).
  unfold MAX_PARENT_CIDS. simpl. lia.
Defined.

End PipelineSamples.

End Pipeline.
