(* ===== verification/Staging.v ===== *)
(** The write-ahead staging area: [crates/transit/src/staging.rs], and the
    worker loop that drains it, [crates/transit/src/main.rs].

    The state is the [transit_staging] table behind a pool that can fail, and
    the staging directory, on which every operation can fail too.  An article
    that was accepted stays in the table with its file until it is completed or
    purged, whatever is interrupted meanwhile; the table respects both capacity
    limits; and a worker that meets no failures empties it after a bounded number
    of pipeline runs, whatever the pipeline answers; a panic of the pipeline ends
    the worker and leaves the row claimed. *)

From S2P Require Import Prelude Bytes Utf8 Sql.

Module Staging.
Import Utf8 Sql.

Record StagingConfig := mkConfig {
  path : bytes;
  max_bytes : Z;
  max_entries : Z;
  drain_workers : Z;
}.

Definition default_max_bytes : Z := 5 * 1024 * 1024 * 1024.
Definition default_max_entries : Z := 500000.
Definition default_drain_workers : Z := 1.

Inductive StagingError := Db | Io.

Record StagedArticle := mkStaged {
  sa_id : bytes;
  sa_message_id : bytes;
  sa_bytes : bytes;
  sa_file_path : bytes;
}.

Record Row := mkRow {
  r_id : bytes;
  r_message_id : bytes;
  r_file_path : bytes;
  r_received_at : Z;
  r_byte_size : Z;
  r_claimed_at : option Z;
  r_retry_count : Z;
}.

#[export] Instance row_eq_dec : EqDecision Row.
Proof. solve_decision. Defined.

Definition Table : Type := list Row.

(** ** The staging directory *)

Inductive IoOutcome := IoOk | IoFail | IoPartial (written : bytes).

(** Files by path, and the outcomes of the coming operations. *)
Record Disk := mkDisk { files : gmap bytes bytes; io : list IoOutcome }.

Definition next_io (d : Disk) : IoOutcome * Disk :=
  match io d with
  | [] => (IoOk, d)
  | o :: io' => (o, mkDisk (files d) io')
  end.

(** [tokio::fs::write]: a failed write may leave a partial file. *)
Definition fs_write (p b : bytes) : prog Disk () () := λ d,
  match next_io d with
  | (IoOk, d') => (Ok tt, mkDisk (<[ p := b ]> (files d')) (io d'))
  | (IoFail, d') => (Err tt, d')
  | (IoPartial w, d') => (Err tt, mkDisk (<[ p := w ]> (files d')) (io d'))
  end.

Definition fs_read (p : bytes) : prog Disk () bytes := λ d,
  match next_io d with
  | (IoOk, d') => (match files d' !! p with Some b => Ok b | None => Err tt end, d')
  | (_, d') => (Err tt, d')
  end.

Definition fs_remove (p : bytes) : prog Disk () () := λ d,
  match next_io d with
  | (IoOk, d') =>
      match files d' !! p with
      | Some _ => (Ok tt, mkDisk (delete p (files d')) (io d'))
      | None => (Err tt, d')
      end
  | (_, d') => (Err tt, d')
  end.

(** ** The store *)

Record Store := mkStore { db : Pool Table; disk : Disk }.

Definition on_db {A} (m : prog (Pool Table) () A) : prog Store StagingError A := λ s,
  let '(r, p) := m (db s) in (map_err (λ _, Db) r, mkStore p (disk s)).

Definition on_disk {A} (m : prog Disk () A) : prog Store StagingError A := λ s,
  let '(r, d) := m (disk s) in (map_err (λ _, Io) r, mkStore (db s) d).

(** [let _ = m.await;] *)
Definition ignore {A} (m : prog Store StagingError A) (s : Store) : Store := (m s).2.

(** [PathBuf::from(path).join(id)]. *)
Definition file_path_of (cfg : StagingConfig) (id : bytes) : bytes := path cfg ++ lit "/" ++ id.

(** The [INSERT]: [id] is the primary key and [message_id] is [UNIQUE]. *)
Definition insert_row (r : Row) (t : Table) : option Table :=
  if existsb (λ x, bool_decide (r_id x = r_id r) || bool_decide (r_message_id x = r_message_id r)) t
  then None else Some (t ++ [r]).

(** The body of the transaction in [try_stage]: the rows it would commit. *)
Definition stage_body (cfg : StagingConfig) (r : Row) : prog Store StagingError (option Table) :=
  t ← on_db (select id);
  if max_entries cfg <=? Z.of_nat (length t) then mret None
  else
    t ← on_db (select id);
    if max_bytes cfg <? zsum r_byte_size t + r_byte_size r then mret None
    else
      _ ← on_db round_trip;
      match insert_row r t with
      | None => throw Db
      | Some t' => mret (Some t')
      end.

(** [new_staging_id] is random: [id] is an argument, and so is the wall clock. *)
Definition try_stage (cfg : StagingConfig) (id : bytes) (now_secs : Z) (message_id bytes : bytes) :
    prog Store StagingError bool := λ s,
  let file_path := file_path_of cfg id in
  let row := mkRow id message_id file_path now_secs (Z.of_nat (length bytes)) None 0 in
  let remove s := ignore (on_disk (fs_remove file_path)) s in
  match on_disk (fs_write file_path bytes) s with
  | (Err e, s1) => (Err e, s1)
  | (Ok _, s1) =>
      match on_db round_trip s1 with                                  (* acquire *)
      | (Err e, s2) => (Err e, remove s2)
      | (Ok _, s2) =>
          match on_db round_trip s2 with                              (* BEGIN IMMEDIATE *)
          | (Err e, s3) => (Err e, remove s3)
          | (Ok _, s3) =>
              match stage_body cfg row s3 with
              | (Ok (Some t'), s4) =>
                  match on_db (commit_tx t') s4 with
                  | (Err e, s5) => (Err e, ignore (on_db round_trip) (remove s5))
                  | (Ok _, s5) => (Ok true, s5)
                  end
              | (Ok None, s4) => (Ok false, ignore (on_db round_trip) (remove s4))
              | (Err e, s4) => (Err e, ignore (on_db round_trip) (remove s4))
              end
          end
      end
  end.

(** [ORDER BY received_at ASC LIMIT 1]: which of several oldest rows comes first
    is the engine's choice. *)
Class OldestFirst := oldest : list Row → option Row.
Class OldestLaws {O : OldestFirst} : Prop := {
  oldest_law l : match oldest l with
    | None => l = []
    | Some r => r ∈ l ∧ ∀ r', r' ∈ l → r_received_at r <= r_received_at r'
    end;
}.

Definition unclaimed (r : Row) : bool := match r_claimed_at r with None => true | _ => false end.

Definition claim (now : Z) (r : Row) : Row :=
  mkRow (r_id r) (r_message_id r) (r_file_path r) (r_received_at r) (r_byte_size r) (Some now)
    (r_retry_count r).

Definition update_id (id : bytes) (f : Row → Row) (t : Table) : Table :=
  (λ r, if bool_decide (r_id r = id) then f r else r) <$> t.

Section Store.
Context {O : OldestFirst}.

Definition drain_one (now_secs : Z) : prog Store StagingError (option StagedArticle) := λ s,
  match on_db round_trip s with                                       (* acquire *)
  | (Err e, s1) => (Err e, s1)
  | (Ok _, s1) =>
      match on_db round_trip s1 with                                  (* BEGIN IMMEDIATE *)
      | (Err e, s2) => (Err e, s2)
      | (Ok _, s2) =>
          match on_db (select id) s2 with
          | (Err e, s3) => (Err e, ignore (on_db round_trip) s3)
          | (Ok t, s3) =>
              match oldest (List.filter unclaimed t) with
              | None => (Ok None, ignore (on_db round_trip) s3)
              | Some r =>
                  match on_db round_trip s3 with                      (* UPDATE *)
                  | (Err e, s4) => (Err e, ignore (on_db round_trip) s4)
                  | (Ok _, s4) =>
                      match on_db (commit_tx (update_id (r_id r) (claim now_secs) t)) s4 with
                      | (Err e, s5) => (Err e, ignore (on_db round_trip) s5)
                      | (Ok _, s5) =>
                          match on_disk (fs_read (r_file_path r)) s5 with
                          | (Err e, s6) => (Err e, s6)
                          | (Ok b, s6) =>
                              (Ok (Some (mkStaged (r_id r) (r_message_id r) b (r_file_path r))), s6)
                          end
                      end
                  end
              end
          end
      end
  end.

Definition unclaim (r : Row) : Row :=
  mkRow (r_id r) (r_message_id r) (r_file_path r) (r_received_at r) (r_byte_size r) None
    (r_retry_count r).

Definition reset_claims : prog Store StagingError () := on_db (execute (fmap unclaim)).

(** [entry.file_name()] of a path in the staging directory. *)
Definition file_name (cfg : StagingConfig) (p : bytes) : option bytes :=
  strip_prefix (path cfg ++ lit "/") p.

(** The loop over the directory: every entry without a row is removed. *)
Fixpoint remove_orphans (cfg : StagingConfig) (known : list bytes) (entries : list bytes)
    (deleted : Z) (d : Disk) : Z * Disk :=
  match entries with
  | [] => (deleted, d)
  | p :: entries' =>
      match file_name cfg p with
      | None => remove_orphans cfg known entries' deleted d
      | Some id =>
          if bool_decide (id ∈ known) then remove_orphans cfg known entries' deleted d
          else match fs_remove p d with
               | (Ok _, d') => remove_orphans cfg known entries' (deleted + 1) d'
               | (Err _, d') => remove_orphans cfg known entries' deleted d'
               end
      end
  end.

Definition cleanup_orphaned_files (cfg : StagingConfig) : prog Store StagingError Z := λ s,
  match on_db (select id) s with
  | (Err e, s1) => (Err e, s1)
  | (Ok t, s1) =>
      match next_io (disk s1) with                                    (* read_dir *)
      | (IoOk, d) =>
          let '(n, d') := remove_orphans cfg (r_id <$> t) ((map_to_list (files d)).*1) 0 d in
          (Ok n, mkStore (db s1) d')
      | (_, d) => (Err Io, mkStore (db s1) d)
      end
  end.

Definition complete (a : StagedArticle) : prog Store StagingError () := λ s,
  on_db (execute (List.filter (λ r, negb (bool_decide (r_id r = sa_id a)))))
    (ignore (on_disk (fs_remove (sa_file_path a))) s).

Definition purge (a : StagedArticle) : prog Store StagingError () := λ s,
  on_db (execute (List.filter (λ r, negb (bool_decide (r_id r = sa_id a)))))
    (ignore (on_disk (fs_remove (sa_file_path a))) s).

Definition retried (r : Row) : Row :=
  mkRow (r_id r) (r_message_id r) (r_file_path r) (r_received_at r) (r_byte_size r) None
    (r_retry_count r + 1).

(** [UPDATE ... RETURNING retry_count], with [fetch_one]: no row is an error. *)
Definition increment_retry_count (a : StagedArticle) : prog Store StagingError Z := λ s,
  match on_db (select id) s with
  | (Err e, s1) => (Err e, s1)
  | (Ok t, s1) =>
      match list_find (λ r, r_id r = sa_id a) t with
      | None => (Err Db, s1)
      | Some (_, r) =>
          (Ok (r_retry_count r + 1),
           mkStore (mkPool (update_id (sa_id a) retried t) (faults (db s1))) (disk s1))
      end
  end.

Definition pending_count : prog Store StagingError Z :=
  t ← on_db (select id); mret (Z.of_nat (length t)).

(** ** What survives

    Every way of leaving an operation early is covered: database and directory
    failures at any point, and a [try_stage] cancelled after its write
    ([OCut]); a [drain_one] whose worker dies is [ODrain] with nothing after it. *)

Inductive Op :=
| OStage (id : bytes) (now : Z) (message_id b : bytes)
| OCut (id b : bytes)
| ODrain (now : Z)
| OComplete (a : StagedArticle)
| OPurge (a : StagedArticle)
| ORetry (a : StagedArticle)
| OReset
| OCleanup.

Context (cfg : StagingConfig).

Definition run_op (o : Op) (s : Store) : Store :=
  match o with
  | OStage id now mid b => (try_stage cfg id now mid b s).2
  | OCut id b => (on_disk (fs_write (file_path_of cfg id) b) s).2
  | ODrain now => (drain_one now s).2
  | OComplete a => (complete a s).2
  | OPurge a => (purge a s).2
  | ORetry a => (increment_retry_count a s).2
  | OReset => (reset_claims s).2
  | OCleanup => (cleanup_orphaned_files cfg s).2
  end.

(** [id] is staged with its bytes. *)
Definition held (id mid b : bytes) (s : Store) : Prop :=
  (∃ r, r ∈ rows (db s) ∧ r_id r = id ∧ r_message_id r = mid ∧ r_file_path r = file_path_of cfg id) ∧
  files (disk s) !! file_path_of cfg id = Some b.

(** An article another worker handles, and an identifier drawn for another one. *)
Definition leaves_alone (id : bytes) (o : Op) : Prop :=
  match o with
  | OStage id' _ _ _ | OCut id' _ => id' ≠ id
  | OComplete a | OPurge a => sa_id a ≠ id ∧ sa_file_path a = file_path_of cfg (sa_id a)
  | _ => True
  end.

Lemma file_path_inj id id' : file_path_of cfg id = file_path_of cfg id' → id = id'.
Proof. unfold file_path_of. intros H. by simplify_list_eq. Qed.

Lemma select_rows {T A} (f : T → A) (p : Pool T) :
  rows (select f p).2 = rows p ∧ ∀ a, (select f p).1 = Ok a → a = f (rows p).
Proof.
  unfold select. pose proof (round_trip_rows p) as H.
  destruct (round_trip p) as [[[]|[]] p']; simpl in *; rewrite H; split; naive_solver.
Qed.

Lemma commit_rows {T} (t : T) (p : Pool T) :
  (commit_tx t p).1 = Ok tt ∧ rows (commit_tx t p).2 = t ∨
  (commit_tx t p).1 = Err tt ∧ rows (commit_tx t p).2 = rows p.
Proof.
  unfold commit_tx. pose proof (round_trip_rows p) as H.
  destruct (round_trip p) as [[[]|[]] p']; simpl in *; auto.
Qed.

Lemma execute_rows {T} (f : T → T) (p : Pool T) :
  (execute f p).1 = Ok tt ∧ rows (execute f p).2 = f (rows p) ∨
  (execute f p).1 = Err tt ∧ rows (execute f p).2 = rows p.
Proof.
  unfold execute. pose proof (round_trip_rows p) as H.
  destruct (round_trip p) as [[[]|[]] p']; simpl in *; rewrite ?H; auto.
Qed.

Lemma on_db_trip s : rows (db (on_db round_trip s).2) = rows (db s) ∧ disk (on_db round_trip s).2 = disk s.
Proof.
  unfold on_db. pose proof (round_trip_rows (db s)) as H. by destruct (round_trip (db s)) as [r p].
Qed.

Lemma on_db_select {A} (f : Table → A) s :
  rows (db (on_db (select f) s).2) = rows (db s) ∧ disk (on_db (select f) s).2 = disk s ∧
  ∀ a, (on_db (select f) s).1 = Ok a → a = f (rows (db s)).
Proof.
  unfold on_db. destruct (select_rows f (db s)) as (Hr & Ha).
  destruct (select f (db s)) as [[a|e] p]; simpl in *; split_and!; try done; intros ? [= <-]; auto.
Qed.

(** Removing or writing another file. *)
Definition same_file (q : bytes) (d d' : Disk) : Prop := files d' !! q = files d !! q.

Lemma fs_write_other q p b d : q ≠ p → same_file q d (fs_write p b d).2.
Proof.
  intros Hne. unfold same_file, fs_write, next_io. destruct (io d) as [|[] io']; simpl;
    rewrite ?lookup_insert_ne; done.
Qed.

Lemma fs_remove_other q p d : q ≠ p → same_file q d (fs_remove p d).2.
Proof.
  intros Hne. unfold same_file, fs_remove, next_io.
  destruct (io d) as [|[] io']; simpl; try done; destruct (files d !! p); simpl; try done;
    by rewrite lookup_delete_ne.
Qed.

Lemma fs_read_files p d : files (fs_read p d).2 = files d.
Proof. unfold fs_read, next_io. by destruct (io d) as [|[] io']. Qed.

(** The rows of [id] keep their identity and its file its content. *)
Definition same_key (r r' : Row) : Prop :=
  r_id r' = r_id r ∧ r_message_id r' = r_message_id r ∧ r_file_path r' = r_file_path r.

Definition kept (id : bytes) (s s' : Store) : Prop :=
  (∀ r, r ∈ rows (db s) → r_id r = id → ∃ r', r' ∈ rows (db s') ∧ same_key r r') ∧
  same_file (file_path_of cfg id) (disk s) (disk s').

Lemma kept_refl id s : kept id s s.
Proof. split; [|done]. intros r Hr _. by exists r. Qed.

Lemma kept_trans id s1 s2 s3 : kept id s1 s2 → kept id s2 s3 → kept id s1 s3.
Proof.
  intros [H1 F1] [H2 F2]. split; [|unfold same_file in *; congruence].
  intros r Hr Hid. destruct (H1 r Hr Hid) as (r' & Hr' & K1 & K2 & K3).
  destruct (H2 r' Hr') as (r'' & Hr'' & L1 & L2 & L3); [congruence|].
  exists r''. split; [done|]. repeat split; congruence.
Qed.

Lemma kept_held id mid b s s' : kept id s s' → held id mid b s → held id mid b s'.
Proof.
  intros [H F] [(r & Hr & H1 & H2 & H3) Hf]. split; [|unfold same_file in F; congruence].
  destruct (H r Hr H1) as (r' & Hr' & K1 & K2 & K3). exists r'. split_and!; congruence.
Qed.

Lemma kept_same_rows id s s' :
  rows (db s') = rows (db s) → same_file (file_path_of cfg id) (disk s) (disk s') → kept id s s'.
Proof. intros Hr Hf. split; [|done]. intros r. rewrite <- Hr. by exists r. Qed.

Lemma kept_trip id s : kept id s (on_db round_trip s).2.
Proof. destruct (on_db_trip s) as (H & D). apply kept_same_rows; [done|by rewrite D]. Qed.

Lemma kept_select {A} id (f : Table → A) s : kept id s (on_db (select f) s).2.
Proof. destruct (on_db_select f s) as (H & D & _). apply kept_same_rows; [done|by rewrite D]. Qed.

Lemma kept_remove id p s : p ≠ file_path_of cfg id → kept id s (on_disk (fs_remove p) s).2.
Proof.
  intros Hne. unfold on_disk. pose proof (fs_remove_other (file_path_of cfg id) p (disk s) ltac:(done)).
  destruct (fs_remove p (disk s)) as [r d]. by apply kept_same_rows.
Qed.

Lemma kept_write id p b s : p ≠ file_path_of cfg id → kept id s (on_disk (fs_write p b) s).2.
Proof.
  intros Hne. unfold on_disk. pose proof (fs_write_other (file_path_of cfg id) p b (disk s) ltac:(done)).
  destruct (fs_write p b (disk s)) as [r d]. by apply kept_same_rows.
Qed.

Lemma kept_read id p s : kept id s (on_disk (fs_read p) s).2.
Proof.
  unfold on_disk. pose proof (fs_read_files p (disk s)) as H.
  destruct (fs_read p (disk s)) as [r d]. apply kept_same_rows; [done|]. unfold same_file. simpl in *. by rewrite H.
Qed.

(** A statement whose effect on the rows keeps those of [id]. *)
Definition keeps_rows (id : bytes) (t t' : Table) : Prop :=
  ∀ r, r ∈ t → r_id r = id → ∃ r', r' ∈ t' ∧ same_key r r'.

Lemma kept_commit id t s : keeps_rows id (rows (db s)) t → kept id s (on_db (commit_tx t) s).2.
Proof.
  intros Hk. unfold on_db. pose proof (commit_rows t (db s)) as H.
  destruct (commit_tx t (db s)) as [r p]. simpl in *. split; [|done]. simpl.
  destruct H as [[_ ->]|[_ ->]]; [done|]. intros x Hx _. by exists x.
Qed.

Lemma kept_execute id f s : keeps_rows id (rows (db s)) (f (rows (db s))) → kept id s (on_db (execute f) s).2.
Proof.
  intros Hk. unfold on_db. pose proof (execute_rows f (db s)) as H.
  destruct (execute f (db s)) as [r p]. simpl in *. split; [|done]. simpl.
  destruct H as [[_ ->]|[_ ->]]; [done|]. intros x Hx _. by exists x.
Qed.

Lemma keeps_update id id' (f : Row → Row) t :
  (∀ r, same_key r (f r)) → keeps_rows id t (update_id id' f t).
Proof.
  intros Hf r Hr _. exists (if bool_decide (r_id r = id') then f r else r). split.
  - apply list_elem_of_fmap. by exists r.
  - destruct (bool_decide _); [apply Hf|done].
Qed.

Lemma keeps_filter id id' t :
  id' ≠ id → keeps_rows id t (List.filter (λ r, negb (bool_decide (r_id r = id'))) t).
Proof.
  intros Hne r Hr Hid. exists r. split; [|done]. apply list_elem_of_In, filter_In.
  rewrite <- list_elem_of_In. split; [done|]. apply negb_true_iff, bool_decide_eq_false. congruence.
Qed.

Lemma keeps_app id t t' : keeps_rows id t (t ++ t').
Proof. intros r Hr _. exists r. split; [|done]. set_solver. Qed.

Lemma kept_remove_orphans id known entries n d :
  id ∈ known →
  same_file (file_path_of cfg id) d (remove_orphans cfg known entries n d).2.
Proof.
  intros Hk. revert n d. induction entries as [|p entries IH]; intros n d; [done|]. simpl.
  destruct (file_name cfg p) as [id'|] eqn:Hn; [|apply IH].
  destruct (bool_decide (id' ∈ known)) eqn:Hin; [apply IH|]. to_prop.
  assert (Hne : file_path_of cfg id ≠ p).
  { apply strip_prefix_Some in Hn as ->. unfold file_path_of. intros H. simplify_list_eq. done. }
  pose proof (fs_remove_other _ _ d Hne) as Hs. unfold same_file in *.
  destruct (fs_remove p d) as [[] d']; rewrite IH; done.
Qed.

Lemma kept_stage_body id r s :
  match stage_body cfg r s with
  | (Ok (Some t'), s') => kept id s s' ∧ keeps_rows id (rows (db s')) t'
  | (_, s') => kept id s s'
  end.
Proof.
  unfold stage_body, mbind, prog_bind.
  pose proof (kept_select id (@Datatypes.id Table) s) as K1.
  destruct (on_db (select _) s) as [[t|e] s1]; [|done]. simpl in K1.
  destruct (max_entries cfg <=? _); [done|].
  pose proof (kept_select id (@Datatypes.id Table) s1) as K2. pose proof (on_db_select (@Datatypes.id Table) s1) as Hsel.
  destruct (on_db (select _) s1) as [[t2|e] s2]; simpl in *; [|by eapply kept_trans].
  assert (K12 := kept_trans _ _ _ _ K1 K2).
  destruct (max_bytes cfg <? _); [done|].
  pose proof (kept_trip id s2) as K3. pose proof (on_db_trip s2) as Htrip.
  destruct (on_db round_trip s2) as [[[]|e] s3]; simpl in *; [|by eapply kept_trans].
  assert (K13 := kept_trans _ _ _ _ K12 K3). unfold insert_row.
  destruct (existsb _ t2); [done|]. split; [done|].
  destruct Hsel as (Hr2 & _ & Ha). rewrite (Ha t2 eq_refl).
  destruct Htrip as (-> & _). rewrite Hr2. apply keeps_app.
Qed.

Lemma kept_try_stage id id' now mid b s :
  id' ≠ id → kept id s (try_stage cfg id' now mid b s).2.
Proof.
  intros Hne. assert (Hp : file_path_of cfg id' ≠ file_path_of cfg id) by (by intros ?%file_path_inj).
  assert (Hclean : ∀ x, kept id x (ignore (on_disk (fs_remove (file_path_of cfg id'))) x))
    by (intros; by apply kept_remove).
  assert (Hroll : ∀ x, kept id x (ignore (on_db round_trip)
    (ignore (on_disk (fs_remove (file_path_of cfg id'))) x)))
    by (intros; eapply kept_trans; [apply Hclean|apply kept_trip]).
  unfold try_stage. pose proof (kept_write id (file_path_of cfg id') b s Hp) as K1.
  destruct (on_disk _ s) as [[[]|e] s1]; [|done]. simpl in K1.
  pose proof (kept_trans _ _ _ _ K1 (kept_trip id s1)) as K2.
  destruct (on_db round_trip s1) as [[[]|e] s2]; [|by eapply kept_trans]. simpl in K2.
  pose proof (kept_trans _ _ _ _ K2 (kept_trip id s2)) as K3.
  destruct (on_db round_trip s2) as [[[]|e] s3]; [|by eapply kept_trans]. simpl in K3.
  set (row := mkRow _ _ _ _ _ _ _). pose proof (kept_stage_body id row s3) as Kb.
  destruct (stage_body cfg row s3) as [[[t'|]|e] s4]; [destruct Kb as (Kb & Kt)| |];
    pose proof (kept_trans _ _ _ _ K3 Kb) as K4; [|by eapply kept_trans..].
  pose proof (kept_trans _ _ _ _ K4 (kept_commit id t' s4 Kt)) as K5.
  destruct (on_db (commit_tx t') s4) as [[[]|e] s5]; [done|by eapply kept_trans].
Qed.

Lemma kept_drain id now s : kept id s (drain_one now s).2.
Proof.
  unfold drain_one. pose proof (kept_trip id s) as K1.
  destruct (on_db round_trip s) as [[[]|e] s1]; [|done]. simpl in K1.
  pose proof (kept_trans _ _ _ _ K1 (kept_trip id s1)) as K2.
  destruct (on_db round_trip s1) as [[[]|e] s2]; [|done]. simpl in K2.
  pose proof (kept_trans _ _ _ _ K2 (kept_select id (@Datatypes.id Table) s2)) as K3.
  pose proof (on_db_select (@Datatypes.id Table) s2) as (Hr3 & _ & Ha).
  destruct (on_db (select _) s2) as [[t|e] s3]; [|eapply kept_trans; [done|apply kept_trip]].
  simpl in K3, Hr3. pose proof (Ha t eq_refl) as ->. clear Ha.
  destruct (oldest _) as [r|]; [|eapply kept_trans; [done|apply kept_trip]].
  pose proof (kept_trans _ _ _ _ K3 (kept_trip id s3)) as K4. pose proof (on_db_trip s3) as (Hr4 & _).
  destruct (on_db round_trip s3) as [[[]|e] s4]; [|eapply kept_trans; [done|apply kept_trip]].
  simpl in K4, Hr4.
  set (t' := update_id (r_id r) (claim now) _).
  assert (Kt : keeps_rows id (rows (db s4)) t') by (rewrite Hr4, Hr3; by apply keeps_update).
  pose proof (kept_trans _ _ _ _ K4 (kept_commit id t' s4 Kt)) as K5.
  destruct (on_db (commit_tx t') s4) as [[[]|e] s5]; [|eapply kept_trans; [done|apply kept_trip]].
  simpl in K5. pose proof (kept_trans _ _ _ _ K5 (kept_read id (r_file_path r) s5)) as K6.
  by destruct (on_disk (fs_read (r_file_path r)) s5) as [[b|e] s6].
Qed.

Lemma kept_delete id a s :
  sa_id a ≠ id → sa_file_path a = file_path_of cfg (sa_id a) → kept id s (complete a s).2.
Proof.
  intros Hne Hp. unfold complete. eapply kept_trans; [apply (kept_remove id (sa_file_path a) s)|].
  - rewrite Hp. by intros ?%file_path_inj.
  - apply kept_execute. by apply keeps_filter.
Qed.

Lemma kept_op id o s :
  (∃ r, r ∈ rows (db s) ∧ r_id r = id) → leaves_alone id o → kept id s (run_op o s).
Proof.
  intros (r0 & Hr0 & Hid0) Ho. destruct o as [id' now mid b|id' b|now|a|a|a| |]; simpl in *.
  - by apply kept_try_stage.
  - apply kept_write. by intros ?%file_path_inj.
  - apply kept_drain.
  - destruct Ho. by apply kept_delete.
  - destruct Ho. by apply (kept_delete id a).
  - unfold increment_retry_count. pose proof (kept_select id (@Datatypes.id Table) s) as K.
    pose proof (on_db_select (@Datatypes.id Table) s) as (Hr & _ & Ha).
    destruct (on_db (select _) s) as [[t|e] s1]; [|done]. simpl in *.
    destruct (list_find _ t) as [[? r]|]; [|done]. simpl.
    eapply kept_trans; [exact K|]. split; [|done]. simpl. rewrite Hr, (Ha t eq_refl).
    by apply keeps_update.
  - apply kept_execute. intros r Hr _. exists (unclaim r). split; [|done].
    apply list_elem_of_fmap. by exists r.
  - unfold cleanup_orphaned_files. pose proof (kept_select id (@Datatypes.id Table) s) as K.
    pose proof (on_db_select (@Datatypes.id Table) s) as (Hr & _ & Ha).
    destruct (on_db (select _) s) as [[t|e] s1]; [|done]. simpl in *.
    pose proof (Ha t eq_refl) as ->. clear Ha. unfold next_io.
    assert (Hin : id ∈ r_id <$> rows (db s)) by (apply list_elem_of_fmap; by exists r0).
    destruct (io (disk s1)) as [|[] io']; try (eapply kept_trans; [exact K|by apply kept_same_rows]);
      match goal with |- context [remove_orphans cfg ?k ?es 0 ?d] =>
        pose proof (kept_remove_orphans id k es 0 d Hin) as Ho';
        destruct (remove_orphans cfg k es 0 d) as [n d'] end;
      (eapply kept_trans; [exact K|by apply kept_same_rows]).
Qed.

Lemma held_row id mid b s : held id mid b s → ∃ r, r ∈ rows (db s) ∧ r_id r = id.
Proof. intros [(r & Hr & Hid & _) _]. eauto. Qed.

Lemma held_ops id mid b os s :
  held id mid b s → Forall (leaves_alone id) os → held id mid b (foldl (λ s o, run_op o s) s os).
Proof.
  intros Hh Hos. revert s Hh. induction Hos as [|o os Ho Hos IH]; intros s Hh; [done|]. simpl.
  apply IH. eapply kept_held; [|done]. apply kept_op; [by eapply held_row|done].
Qed.

Lemma stage_body_rows r s :
  match stage_body cfg r s with
  | (Ok (Some t'), s') =>
      t' = rows (db s) ++ [r] ∧ Z.of_nat (length (rows (db s))) < max_entries cfg ∧
      zsum r_byte_size (rows (db s)) + r_byte_size r <= max_bytes cfg ∧
      Forall (λ x, r_id x ≠ r_id r ∧ r_message_id x ≠ r_message_id r) (rows (db s)) ∧
      rows (db s') = rows (db s) ∧ disk s' = disk s
  | (_, s') => rows (db s') = rows (db s) ∧ disk s' = disk s
  end.
Proof.
  unfold stage_body, mbind, prog_bind.
  pose proof (on_db_select (@Datatypes.id Table) s) as (R1 & D1 & A1).
  destruct (on_db (select _) s) as [[t|e] s1]; [|done]. simpl in *.
  pose proof (A1 t eq_refl) as ->. clear A1.
  destruct (max_entries cfg <=? _) eqn:He; [done|].
  pose proof (on_db_select (@Datatypes.id Table) s1) as (R2 & D2 & A2).
  destruct (on_db (select _) s1) as [[t|e] s2]; simpl in *; [|split; congruence].
  pose proof (A2 t eq_refl) as ->. clear A2. rewrite R1 in *.
  destruct (max_bytes cfg <? _) eqn:Hb; [split; congruence|].
  pose proof (on_db_trip s2) as (R3 & D3).
  destruct (on_db round_trip s2) as [[[]|e] s3]; simpl in *; [|split; congruence].
  unfold insert_row. destruct (existsb _ _) eqn:Hex; [split; simpl; congruence|].
  to_prop. split_and!; try done; try congruence. apply existsb_false in Hex.
  eapply Forall_impl; [exact Hex|]. intros x Hx. simpl in Hx. to_prop. done.
Qed.

Lemma ignore_remove_rows p s : rows (db (ignore (on_disk (fs_remove p)) s)) = rows (db s).
Proof. unfold ignore, on_disk. by destruct (fs_remove p (disk s)). Qed.

Lemma ignore_trip_rows s : rows (db (ignore (on_db round_trip) s)) = rows (db s).
Proof. apply on_db_trip. Qed.

Lemma on_db_commit t s :
  match on_db (commit_tx t) s with
  | (Ok _, s') => rows (db s') = t ∧ disk s' = disk s
  | (Err _, s') => rows (db s') = rows (db s) ∧ disk s' = disk s
  end.
Proof.
  unfold on_db. pose proof (commit_rows t (db s)) as H.
  destruct (commit_tx t (db s)) as [[[]|[]] p]; simpl in *; destruct H as [[? ?]|[? ?]]; done.
Qed.

(** [try_stage] on every branch. *)
Lemma try_stage_rows id now mid b s :
  match try_stage cfg id now mid b s with
  | (Ok true, s') =>
      rows (db s') = rows (db s) ++
        [mkRow id mid (file_path_of cfg id) now (Z.of_nat (length b)) None 0] ∧
      files (disk s') !! file_path_of cfg id = Some b ∧
      Z.of_nat (length (rows (db s))) < max_entries cfg ∧
      zsum r_byte_size (rows (db s)) + Z.of_nat (length b) <= max_bytes cfg ∧
      Forall (λ x, r_id x ≠ id ∧ r_message_id x ≠ mid) (rows (db s))
  | (_, s') => rows (db s') = rows (db s)
  end.
Proof.
  unfold try_stage. set (p := file_path_of cfg id).
  destruct (on_disk (fs_write p b) s) as [r1 s1] eqn:E1.
  assert (H1 : rows (db s1) = rows (db s) ∧ (r1 = Ok tt → files (disk s1) !! p = Some b)).
  { unfold on_disk, fs_write, next_io in E1. destruct (io (disk s)) as [|[] io'];
      injection E1 as <- <-; simpl; split; try done; intros _; by rewrite lookup_insert_eq. }
  destruct H1 as (R1 & F1). destruct r1 as [[]|e]; [|done]. specialize (F1 eq_refl).
  pose proof (on_db_trip s1) as (R2 & D2). destruct (on_db round_trip s1) as [[[]|e] s2]; simpl in *;
    [|rewrite ignore_remove_rows; congruence].
  pose proof (on_db_trip s2) as (R3 & D3). destruct (on_db round_trip s2) as [[[]|e] s3]; simpl in *;
    [|rewrite ignore_remove_rows; congruence].
  set (row := mkRow _ _ _ _ _ _ _). pose proof (stage_body_rows row s3) as Hb.
  destruct (stage_body cfg row s3) as [[[t'|]|e] s4].
  - destruct Hb as (-> & He & Hz & Hf & R4 & D4).
    pose proof (on_db_commit (rows (db s3) ++ [row]) s4) as Hc.
    destruct (on_db (commit_tx _) s4) as [[[]|e] s5]; destruct Hc as (R5 & D5).
    + rewrite R5, R3, R2, R1 in *. split_and!; try done. congruence.
    + rewrite ignore_trip_rows, ignore_remove_rows. congruence.
  - destruct Hb as (R4 & _). rewrite ignore_trip_rows, ignore_remove_rows. congruence.
  - destruct Hb as (R4 & _). rewrite ignore_trip_rows, ignore_remove_rows. congruence.
Qed.

(** C18. An article [try_stage] accepted stays staged, with exactly its bytes on
    disk, through any sequence of other operations, failed and interrupted ones,
    restarts and orphan cleanups included, until it is completed or purged
    itself; the table is then within both limits, and a refused or failed
    [try_stage] leaves the table unchanged. *)
Theorem staged_article_survives id now mid b os s s' r :
  try_stage cfg id now mid b s = (r, s') → Forall (leaves_alone id) os →
  match r with
  | Ok true =>
      held id mid b (foldl (λ s o, run_op o s) s' os) ∧
      Z.of_nat (length (rows (db s'))) <= max_entries cfg ∧
      zsum r_byte_size (rows (db s')) <= max_bytes cfg
  | _ => rows (db s') = rows (db s)
  end.
Proof.
  intros E Hos. pose proof (try_stage_rows id now mid b s) as H. rewrite E in H.
  destruct r as [[]|e]; [|done..]. destruct H as (Hr & Hf & He & Hz & _). split_and!.
  - apply held_ops; [|done]. split; [|done].
    exists (mkRow id mid (file_path_of cfg id) now (Z.of_nat (length b)) None 0). rewrite Hr.
    split_and!; [|done..]. apply elem_of_app. right. by apply list_elem_of_singleton.
  - rewrite Hr, length_app. simpl. lia.
  - rewrite Hr, zsum_snoc. simpl. lia.
Qed.

(** ** The drain worker *)

Inductive PipelineOutcome := Success | PermanentFailure | TransientFailure.

Definition MAX_STAGING_RETRIES : Z := 10.

Inductive Iteration :=
| Idle
| Handled (a : StagedArticle) (o : PipelineOutcome)
| Died (a : StagedArticle) (p : Panic)
| DrainError (e : StagingError).

Section Worker.
Context {W : Type} (pipeline : StagedArticle → W → result Panic PipelineOutcome * W).

(** One round of the worker loop; [W] is everything the pipeline works on.  A
    panic of the pipeline unwinds the task and leaves the row claimed. *)
Definition worker_iteration (now : Z) (ws : W * Store) : Iteration * (W * Store) :=
  let '(w, s) := ws in
  match drain_one now s with
  | (Ok None, s1) => (Idle, (w, s1))
  | (Err e, s1) => (DrainError e, (w, s1))
  | (Ok (Some a), s1) =>
      match pipeline a w with
      | (Err p, w') => (Died a p, (w', s1))
      | (Ok o, w') =>
          let s' :=
            match o with
            | Success => ignore (complete a) s1
            | PermanentFailure => ignore (purge a) s1
            | TransientFailure =>
                match increment_retry_count a s1 with
                | (Ok new_count, s2) =>
                    if MAX_STAGING_RETRIES <=? new_count then ignore (purge a) s2 else s2
                | (Err _, s2) => s2
                end
            end in
          (Handled a o, (w', s'))
      end
  end.

(** The iterations at the times [nows], until the task dies. *)
Fixpoint run_worker (nows : list Z) (ws : W * Store) : W * Store :=
  match nows with
  | [] => ws
  | now :: nows' =>
      match worker_iteration now ws with
      | (Died _ _, ws') => ws'
      | (_, ws') => run_worker nows' ws'
      end
  end.

(** Article bytes on which the pipeline does not panic. *)
Context (safe : bytes → Prop).
Context (safe_returns : ∀ a w, safe (sa_bytes a) → ∃ o w', pipeline a w = (Ok o, w')).

(** No failures ahead. *)
Definition reliable (s : Store) : Prop :=
  pool_reliable (db s) ∧ Forall (λ o, o = IoOk) (io (disk s)).

Definition row_ok (f : gmap bytes bytes) (r : Row) : Prop :=
  r_file_path r = file_path_of cfg (r_id r) ∧ (∃ b, f !! r_file_path r = Some b ∧ safe b) ∧
  0 <= r_retry_count r < MAX_STAGING_RETRIES.

Definition rows_ok (s : Store) : Prop :=
  NoDup (r_id <$> rows (db s)) ∧ Forall (row_ok (files (disk s))) (rows (db s)).

Definition all_unclaimed (s : Store) : Prop := Forall (λ r, r_claimed_at r = None) (rows (db s)).

Definition retries_left (t : Table) : Z := zsum (λ r, MAX_STAGING_RETRIES - r_retry_count r) t.

Lemma reliable_on_trip s :
  reliable s → ∃ s', on_db round_trip s = (Ok tt, s') ∧ rows (db s') = rows (db s) ∧
    disk s' = disk s ∧ reliable s'.
Proof.
  intros (Hp & Hio). destruct (round_trip_reliable _ Hp) as (p' & E & Hr & Hp'). unfold on_db. rewrite E.
  eexists. split_and!; [done|done|done|]. by split.
Qed.

Lemma reliable_select {A} (f : Table → A) s :
  reliable s → ∃ s', on_db (select f) s = (Ok (f (rows (db s))), s') ∧ rows (db s') = rows (db s) ∧
    disk s' = disk s ∧ reliable s'.
Proof.
  intros (Hp & Hio). destruct (round_trip_reliable _ Hp) as (p' & E & Hr & Hp'). unfold on_db, select.
  rewrite E. eexists. rewrite Hr. split_and!; [done|done|done|]. by split.
Qed.

Lemma reliable_commit t s :
  reliable s → ∃ s', on_db (commit_tx t) s = (Ok tt, s') ∧ rows (db s') = t ∧ disk s' = disk s ∧ reliable s'.
Proof.
  intros (Hp & Hio). destruct (round_trip_reliable _ Hp) as (p' & E & Hr & Hp'). unfold on_db, commit_tx.
  rewrite E. eexists. split_and!; [done|done|done|]. by split.
Qed.

Lemma reliable_execute f s :
  reliable s → ∃ s', on_db (execute f) s = (Ok tt, s') ∧ rows (db s') = f (rows (db s)) ∧
    disk s' = disk s ∧ reliable s'.
Proof.
  intros (Hp & Hio). destruct (round_trip_reliable _ Hp) as (p' & E & Hr & Hp'). unfold on_db, execute.
  rewrite E, Hr. eexists. split_and!; [done|done|done|]. by split.
Qed.

Lemma reliable_read p b s :
  reliable s → files (disk s) !! p = Some b →
  ∃ s', on_disk (fs_read p) s = (Ok b, s') ∧ db s' = db s ∧ files (disk s') = files (disk s) ∧ reliable s'.
Proof.
  intros (Hp & Hio) Hf. unfold on_disk, fs_read, next_io.
  destruct (io (disk s)) as [|o io'] eqn:E; simpl.
  - rewrite Hf. eexists. split_and!; [done|done|done|]. split; [done|]. simpl. by rewrite E.
  - apply Forall_cons in Hio as [-> Hio]. simpl. rewrite Hf. eexists. split_and!; [done|done|done|]. by split.
Qed.

Lemma reliable_remove p s :
  reliable s → let s' := ignore (on_disk (fs_remove p)) s in
  db s' = db s ∧ files (disk s') = delete p (files (disk s)) ∧ reliable s'.
Proof.
  intros (Hp & Hio). unfold ignore, on_disk, fs_remove, next_io.
  destruct (io (disk s)) as [|o io'] eqn:E; simpl.
  - destruct (files (disk s) !! p) eqn:Hf; simpl; (split_and!; [done| |split; simpl; rewrite ?E; done]); [done|].
    by rewrite delete_id.
  - apply Forall_cons in Hio as [-> Hio]. simpl.
    destruct (files (disk s) !! p) eqn:Hf; simpl; (split_and!; [done| |done]); [done|].
    by rewrite delete_id.
Qed.

Lemma update_id_other id f t : Forall (λ r, r_id r ≠ id) t → update_id id f t = t.
Proof.
  induction 1 as [|r t Hr Ht IH]; [done|]. unfold update_id in *. rewrite fmap_cons, IH.
  by rewrite bool_decide_eq_false_2.
Qed.

Lemma filter_other id t :
  Forall (λ r, r_id r ≠ id) t → List.filter (λ r, negb (bool_decide (r_id r = id))) t = t.
Proof.
  induction 1 as [|r t Hr Ht IH]; [done|]. simpl. rewrite bool_decide_eq_false_2 by done. simpl. by rewrite IH.
Qed.

(** The row of an identifier splits the table. *)
Lemma table_split r t :
  NoDup (r_id <$> t) → r ∈ t →
  ∃ t1 t2, t = t1 ++ r :: t2 ∧ Forall (λ x, r_id x ≠ r_id r) (t1 ++ t2).
Proof.
  intros Hnd (t1 & t2 & ->)%list_elem_of_split. exists t1, t2. split; [done|].
  rewrite fmap_app, fmap_cons, NoDup_app, NoDup_cons in Hnd. destruct Hnd as (_ & H1 & H2 & _).
  apply Forall_app. split; apply Forall_forall; intros x Hx E.
  - apply (H1 (r_id x)); [apply list_elem_of_fmap; by exists x|]. rewrite E. by left.
  - apply H2. rewrite <- E. apply list_elem_of_fmap. by exists x.
Qed.

Lemma update_split r t1 t2 f :
  Forall (λ x, r_id x ≠ r_id r) (t1 ++ t2) →
  update_id (r_id r) f (t1 ++ r :: t2) = t1 ++ f r :: t2.
Proof.
  intros [H1 H2]%Forall_app. unfold update_id. rewrite fmap_app, fmap_cons.
  fold (update_id (r_id r) f t1). fold (update_id (r_id r) f t2).
  by rewrite !update_id_other, bool_decide_eq_true_2 by done.
Qed.

Lemma filter_split r t1 t2 :
  Forall (λ x, r_id x ≠ r_id r) (t1 ++ t2) →
  List.filter (λ x, negb (bool_decide (r_id x = r_id r))) (t1 ++ r :: t2) = t1 ++ t2.
Proof.
  intros [H1 H2]%Forall_app. rewrite List.filter_app. simpl.
  rewrite bool_decide_eq_true_2 by done. simpl. by rewrite !filter_other.
Qed.

Lemma filter_unclaimed t : Forall (λ r, r_claimed_at r = None) t → List.filter unclaimed t = t.
Proof. induction 1 as [|r t Hr Ht IH]; [done|]. simpl. unfold unclaimed at 1. by rewrite Hr, IH. Qed.

Context {laws : OldestLaws}.

(** A worker that meets no failure is handed the oldest article with its bytes. *)
Lemma drain_one_ready now s :
  reliable s → rows_ok s → all_unclaimed s → rows (db s) ≠ [] →
  ∃ r b s', r ∈ rows (db s) ∧ (∀ r', r' ∈ rows (db s) → r_received_at r <= r_received_at r') ∧
    files (disk s) !! r_file_path r = Some b ∧ safe b ∧
    drain_one now s = (Ok (Some (mkStaged (r_id r) (r_message_id r) b (r_file_path r))), s') ∧
    rows (db s') = update_id (r_id r) (claim now) (rows (db s)) ∧
    files (disk s') = files (disk s) ∧ reliable s'.
Proof.
  intros Hrel (_ & Hok) Hun Hne. unfold drain_one.
  destruct (reliable_on_trip _ Hrel) as (s1 & -> & R1 & D1 & Hrel1).
  destruct (reliable_on_trip _ Hrel1) as (s2 & -> & R2 & D2 & Hrel2).
  destruct (reliable_select (@Datatypes.id Table) _ Hrel2) as (s3 & -> & R3 & D3 & Hrel3).
  unfold Datatypes.id. rewrite R2, R1, (filter_unclaimed _ Hun).
  pose proof (oldest_law (rows (db s))) as Hold. destruct (oldest (rows (db s))) as [r|]; [|done].
  destruct Hold as (Hin & Hmin).
  destruct (reliable_on_trip _ Hrel3) as (s4 & -> & R4 & D4 & Hrel4).
  destruct (reliable_commit (update_id (r_id r) (claim now) (rows (db s))) _ Hrel4) as (s5 & -> & R5 & D5 & Hrel5).
  rewrite Forall_forall in Hok. destruct (Hok r Hin) as (_ & (b & Hb & Hsafe) & _).
  destruct (reliable_read (r_file_path r) b s5 Hrel5) as (s6 & -> & DB6 & F6 & Hrel6); [congruence|].
  exists r, b, s6. split_and!; try done; congruence.
Qed.

(** Completing and purging both delete the row and its file. *)
Lemma complete_ready a s :
  reliable s →
  ∃ s', complete a s = (Ok tt, s') ∧
    rows (db s') = List.filter (λ r, negb (bool_decide (r_id r = sa_id a))) (rows (db s)) ∧
    files (disk s') = delete (sa_file_path a) (files (disk s)) ∧ reliable s'.
Proof.
  intros Hrel. unfold complete.
  destruct (reliable_remove (sa_file_path a) s Hrel) as (Hdb & Hf & Hrel').
  edestruct (λ f, reliable_execute f _ Hrel') as (s2 & E & R2 & D2 & Hrel2). rewrite E.
  exists s2. rewrite R2, Hdb, D2, Hf. done.
Qed.

Lemma retry_ready a r t1 t2 s :
  reliable s → sa_id a = r_id r → rows (db s) = t1 ++ r :: t2 →
  Forall (λ x, r_id x ≠ r_id r) (t1 ++ t2) →
  ∃ s', increment_retry_count a s = (Ok (r_retry_count r + 1), s') ∧
    rows (db s') = t1 ++ retried r :: t2 ∧ disk s' = disk s ∧ reliable s'.
Proof.
  intros Hrel Ha Ht Hne. unfold increment_retry_count.
  destruct (reliable_select (@Datatypes.id Table) s Hrel) as (s1 & -> & R1 & D1 & Hrel1).
  unfold Datatypes.id. rewrite Ht, Ha.
  assert (Hfind : list_find (λ x, r_id x = r_id r) (t1 ++ r :: t2) = Some (length t1, r)).
  { apply list_find_Some. rewrite lookup_app_r, Nat.sub_diag by done. split_and!; [done|done|].
    intros j y Hj Hlt. rewrite lookup_app_l in Hj by done.
    apply Forall_app in Hne as [H1 _]. rewrite Forall_forall in H1.
    apply H1. by eapply list_elem_of_lookup_2. }
  rewrite Hfind. eexists. split; [done|]. simpl. rewrite update_split by done.
  split_and!; [done|done|]. destruct Hrel1. by split.
Qed.

(** The table after an iteration: the row is gone, or has one retry less. *)
Lemma rows_ok_remove s s' r t1 t2 :
  rows_ok s → rows (db s) = t1 ++ r :: t2 → Forall (λ x, r_id x ≠ r_id r) (t1 ++ t2) →
  rows (db s') = t1 ++ t2 → files (disk s') = delete (r_file_path r) (files (disk s)) →
  rows_ok s' ∧ retries_left (rows (db s')) < retries_left (rows (db s)).
Proof.
  intros (Hnd & Hok) Ht Hne Ht' Hf'. rewrite Ht in Hnd, Hok. unfold rows_ok. rewrite Ht', Ht, Hf'.
  apply Forall_app in Hok as [H1 H2]. apply Forall_cons in H2 as [Hr H2].
  destruct Hr as (Hp & _ & Hc).
  split; [split|].
  - rewrite fmap_app, fmap_cons in Hnd. rewrite fmap_app. revert Hnd.
    rewrite !NoDup_app, NoDup_cons. set_solver.
  - apply Forall_forall. intros x Hx.
    assert (Hx' : row_ok (files (disk s)) x).
    { apply elem_of_app in Hx as [Hx|Hx]; [by eapply Forall_forall in H1|by eapply Forall_forall in H2]. }
    destruct Hx' as (Hxp & Hxf & Hxc). split; [done|]. split; [|done].
    rewrite Forall_forall in Hne. specialize (Hne x Hx).
    rewrite lookup_delete_ne; [done|]. rewrite Hp, Hxp. intros E%file_path_inj. congruence.
  - unfold retries_left. rewrite !zsum_app, zsum_cons. lia.
Qed.

Lemma rows_ok_retry s s' r r' t1 t2 :
  rows_ok s → rows (db s) = t1 ++ r :: t2 → same_key r r' →
  r_retry_count r' = r_retry_count r + 1 → r_retry_count r + 1 < MAX_STAGING_RETRIES →
  rows (db s') = t1 ++ r' :: t2 → files (disk s') = files (disk s) →
  rows_ok s' ∧ retries_left (rows (db s')) < retries_left (rows (db s)).
Proof.
  intros (Hnd & Hok) Ht (K1 & K2 & K3) Hc Hlt Ht' Hf'. rewrite Ht in Hnd, Hok.
  unfold rows_ok. rewrite Ht', Ht, Hf'. apply Forall_app in Hok as [H1 H2].
  apply Forall_cons in H2 as [(Hp & Hpf & Hpc) H2]. split; [split|].
  - rewrite fmap_app, fmap_cons in *. by rewrite K1.
  - apply Forall_app. split; [done|]. constructor; [|done].
    split; [congruence|]. split; [by rewrite K3|lia].
  - unfold retries_left. rewrite !zsum_app, !zsum_cons. lia.
Qed.

Definition handled_article (s : Store) (a : StagedArticle) : Prop :=
  ∃ r, r ∈ rows (db s) ∧ (∀ r', r' ∈ rows (db s) → r_received_at r <= r_received_at r') ∧
    sa_id a = r_id r ∧ sa_message_id a = r_message_id r ∧
    files (disk s) !! file_path_of cfg (r_id r) = Some (sa_bytes a).

Lemma worker_progress now w s :
  reliable s → rows_ok s → all_unclaimed s → rows (db s) ≠ [] →
  ∃ a o w' s', worker_iteration now (w, s) = (Handled a o, (w', s')) ∧ handled_article s a ∧
    reliable s' ∧ rows_ok s' ∧ all_unclaimed s' ∧
    retries_left (rows (db s')) < retries_left (rows (db s)).
Proof.
  intros Hrel Hok Hun Hne.
  destruct (drain_one_ready now s Hrel Hok Hun Hne) as (r & b & s1 & Hin & Hmin & Hb & Hsafe & Hd & R1 & F1 & Hrel1).
  pose proof (proj1 Hok) as Hnd. destruct (table_split r _ Hnd Hin) as (t1 & t2 & Ht & Hne2).
  assert (Hrp : r_file_path r = file_path_of cfg (r_id r)).
  { destruct Hok as (_ & Hall). rewrite Forall_forall in Hall. apply (Hall r Hin). }
  rewrite Ht, update_split in R1 by done.
  assert (Hun12 : Forall (λ r, r_claimed_at r = None) (t1 ++ t2)).
  { unfold all_unclaimed in Hun. rewrite Ht, Forall_app, Forall_cons in Hun. rewrite Forall_app. tauto. }
  unfold worker_iteration. rewrite Hd. set (a := mkStaged _ _ _ _).
  assert (Ha : handled_article s a) by (exists r; split_and!; try done; by rewrite <- Hrp).
  assert (Hgone : ∀ s2 c', reliable s2 → rows (db s2) = t1 ++ c' :: t2 → r_id c' = r_id r →
    files (disk s2) = files (disk s) →
    ∃ s3, complete a s2 = (Ok tt, s3) ∧ reliable s3 ∧ rows_ok s3 ∧ all_unclaimed s3 ∧
      retries_left (rows (db s3)) < retries_left (rows (db s))).
  { intros s2 c' Hrel2 R2 Hid F2. destruct (complete_ready a s2 Hrel2) as (s3 & E3 & R3 & F3 & Hrel3).
    rewrite R2 in R3. change (sa_id a) with (r_id r) in R3. rewrite <- Hid in R3.
    rewrite filter_split in R3 by (by rewrite Hid). rewrite F2 in F3.
    destruct (rows_ok_remove s s3 r t1 t2 Hok Ht Hne2 R3 F3) as (Hok3 & Hlt).
    exists s3. split_and!; try done. unfold all_unclaimed. by rewrite R3. }
  destruct (safe_returns a w Hsafe) as (o & w' & ->). destruct o.
  - destruct (Hgone s1 (claim now r) Hrel1 R1 eq_refl F1) as (s3 & E3 & ?).
    exists a, Success, w', s3. unfold ignore. rewrite E3. tauto.
  - destruct (Hgone s1 (claim now r) Hrel1 R1 eq_refl F1) as (s3 & E3 & ?).
    exists a, PermanentFailure, w', s3. unfold ignore. change (purge a) with (complete a). rewrite E3. tauto.
  - destruct (retry_ready a (claim now r) t1 t2 s1 Hrel1 eq_refl R1 Hne2) as (s2 & -> & R2 & D2 & Hrel2).
    simpl r_retry_count. destruct (MAX_STAGING_RETRIES <=? r_retry_count r + 1) eqn:Hmax; to_prop.
    + destruct (Hgone s2 (retried (claim now r)) Hrel2 R2 eq_refl) as (s3 & E3 & ?); [congruence|].
      exists a, TransientFailure, w', s3. unfold ignore. change (purge a) with (complete a). rewrite E3. tauto.
    + destruct (rows_ok_retry s s2 r (retried (claim now r)) t1 t2 Hok Ht) as (Hok2 & Hlt); try done;
        [by rewrite D2|].
      exists a, TransientFailure, w', s2. split_and!; try done.
      unfold all_unclaimed. rewrite R2. apply Forall_app in Hun12 as [? ?]. apply Forall_app.
      split; [done|]. by constructor.
Qed.

Definition draining (s : Store) : Prop := reliable s ∧ rows_ok s ∧ all_unclaimed s.

Lemma worker_idle now w s :
  draining s → rows (db s) = [] →
  ∃ s', worker_iteration now (w, s) = (Idle, (w, s')) ∧ draining s' ∧ rows (db s') = [].
Proof.
  intros (Hrel & Hok & Hun) Ht. unfold worker_iteration, drain_one.
  destruct (reliable_on_trip _ Hrel) as (s1 & -> & R1 & D1 & Hrel1).
  destruct (reliable_on_trip _ Hrel1) as (s2 & -> & R2 & D2 & Hrel2).
  destruct (reliable_select (@Datatypes.id Table) _ Hrel2) as (s3 & -> & R3 & D3 & Hrel3).
  unfold Datatypes.id. rewrite R2, R1, Ht. simpl.
  pose proof (oldest_law []) as Hold. destruct (oldest []) as [r|]; [set_solver|].
  destruct (reliable_on_trip _ Hrel3) as (s4 & E4 & R4 & D4 & Hrel4). unfold ignore. rewrite E4.
  exists s4. split; [done|]. assert (Hr : rows (db s4) = []) by congruence.
  split; [|done]. unfold draining, rows_ok, all_unclaimed. rewrite Hr.
  split_and!; [done|constructor|constructor|constructor].
Qed.

Lemma retries_left_nonneg s : rows_ok s → 0 <= retries_left (rows (db s)).
Proof.
  intros (_ & Hok). unfold retries_left. induction Hok as [|r t (_ & _ & Hr) Ht IH]; [done|].
  rewrite zsum_cons. lia.
Qed.

Lemma run_worker_draining nows w s :
  draining s → ∃ w' s', run_worker nows (w, s) = (w', s') ∧ draining s' ∧
    (rows (db s') = [] ∨
     retries_left (rows (db s')) + Z.of_nat (length nows) <= retries_left (rows (db s))).
Proof.
  revert w s. induction nows as [|now nows IH]; intros w s Hd.
  - exists w, s. split_and!; [done|done|]. right. simpl. lia.
  - cbn [run_worker]. destruct (decide (rows (db s) = [])) as [He|Hne].
    + destruct (worker_idle now w s Hd He) as (s1 & -> & Hd1 & He1). simpl.
      destruct (IH w s1 Hd1) as (w' & s' & Hrun & Hd' & Hor). exists w', s'. split_and!; try done.
      destruct Hor as [?|Hle]; [by left|]. pose proof (retries_left_nonneg s' (proj1 (proj2 Hd'))).
      rewrite He1 in Hle. unfold retries_left at 2, zsum at 1 in Hle. simpl in Hle.
      destruct nows as [|n2 nows]; [injection Hrun as <- <-; by left|]. simpl in Hle. lia.
    + destruct Hd as (Hrel & Hok & Hun).
      destruct (worker_progress now w s Hrel Hok Hun Hne) as (a & o & w1 & s1 & -> & _ & Hrel1 & Hok1 & Hun1 & Hlt).
      simpl. destruct (IH w1 s1) as (w' & s' & Hrun & Hd' & Hor); [done|]. exists w', s'.
      split_and!; try done. destruct Hor as [?|Hle]; [by left|]. right. lia.
Qed.

(** What a restart begins with. *)
Lemma reset_draining s :
  reliable s → rows_ok s →
  draining (reset_claims s).2 ∧ retries_left (rows (db (reset_claims s).2)) = retries_left (rows (db s)).
Proof.
  intros Hrel (Hnd & Hok). unfold reset_claims.
  edestruct (λ f, reliable_execute f s Hrel) as (s' & E & R & D & Hrel'). rewrite E. simpl.
  unfold draining, rows_ok, all_unclaimed. rewrite R, D. split_and!; try done.
  - by rewrite <- list_fmap_compose.
  - apply Forall_fmap. exact Hok.
  - apply Forall_fmap, Forall_true. done.
  - unfold retries_left. clear. induction (rows (db s)) as [|r t IH]; [done|].
    rewrite fmap_cons, !zsum_cons, IH. done.
Qed.

(** After a restart a worker that meets no failures hands every staged article
    to the pipeline, oldest first and with exactly its staged bytes; and whatever
    the pipeline answers, as long as it does not panic on any of them, the staging table is empty after at most ten runs per
    article. *)
Theorem staging_drains nows w s :
  reliable s → rows_ok s → 10 * Z.of_nat (length (rows (db s))) <= Z.of_nat (length nows) →
  let s0 := (reset_claims s).2 in
  rows (db (run_worker nows (w, s0)).2) = [] ∧
  ∀ nows1 now nows2, nows = nows1 ++ now :: nows2 →
    let ws := run_worker nows1 (w, s0) in
    match (worker_iteration now ws).1 with
    | Handled a _ => handled_article ws.2 a
    | Idle => rows (db ws.2) = []
    | DrainError _ | Died _ _ => False
    end.
Proof.
  intros Hrel Hok Hn s0. destruct (reset_draining s Hrel Hok) as (Hd & Hl). fold s0 in Hd, Hl. split.
  - destruct (run_worker_draining nows w s0 Hd) as (w' & s' & -> & Hd' & Hor). simpl.
    destruct Hor as [?|Hle]; [done|].
    assert (Hcount : retries_left (rows (db s')) ≤ 0).
    { assert (retries_left (rows (db s)) <= 10 * Z.of_nat (length (rows (db s)))); [|lia].
      destruct Hok as (_ & Hall). clear -Hall. unfold retries_left, MAX_STAGING_RETRIES.
      induction Hall as [|r t (_ & _ & Hr) Ht IH]; [done|]. rewrite zsum_cons. simpl length. lia. }
    destruct Hd' as (_ & (_ & Hall) & _). destruct (rows (db s')) as [|r t]; [done|].
    apply Forall_cons in Hall as [(_ & _ & Hr) Ht]. unfold retries_left in Hcount.
    rewrite zsum_cons in Hcount.
    assert (0 <= zsum (λ r, MAX_STAGING_RETRIES - r_retry_count r) t); [|lia].
    clear -Ht. induction Ht as [|x t (_ & _ & Hx) Ht IH]; [done|]. rewrite zsum_cons. lia.
  - intros nows1 now nows2 -> ws. subst ws.
    destruct (run_worker_draining nows1 w s0 Hd) as (w1 & s1 & -> & Hd1 & _). cbn [snd]. destruct (decide (rows (db s1) = [])) as [He|Hne].
    + by destruct (worker_idle now w1 s1 Hd1 He) as (s2 & -> & _).
    + destruct Hd1 as (Hrel1 & Hok1 & Hun1).
      by destruct (worker_progress now w1 s1 Hrel1 Hok1 Hun1 Hne) as (a & o & w2 & s2 & -> & Ha & _).
Qed.

Lemma update_claim_rows_ok id now s s' :
  rows_ok s → rows (db s') = update_id id (claim now) (rows (db s)) →
  files (disk s') = files (disk s) → rows_ok s'.
Proof.
  intros (Hnd & Hok) R F. unfold rows_ok. rewrite R, F. unfold update_id. split.
  - rewrite <- list_fmap_compose. erewrite list_fmap_ext; [exact Hnd|].
    intros i r _. simpl. by case_bool_decide.
  - apply Forall_fmap. eapply Forall_impl; [done|]. intros r Hr. simpl. by case_bool_decide.
Qed.

(** A pipeline that panics on the oldest article keeps a single worker from ever
    getting past it: it dies in its first round, and the next restart begins with
    the table this one began with. *)
Lemma panic_blocks_staging now nows w s r b p w' :
  let s0 := (reset_claims s).2 in
  reliable s → rows_ok s → r ∈ rows (db s0) →
  (∀ r', r' ∈ rows (db s0) → r' ≠ r → r_received_at r < r_received_at r') →
  files (disk s) !! r_file_path r = Some b →
  pipeline (mkStaged (r_id r) (r_message_id r) b (r_file_path r)) w = (Err p, w') →
  ∃ s', run_worker (now :: nows) (w, s0) = (w', s') ∧ reliable s' ∧ rows_ok s' ∧
    rows (db (reset_claims s').2) = rows (db s0).
Proof.
  intros s0 Hrel Hok Hin Hfirst Hb Hp. destruct (reset_draining s Hrel Hok) as ((Hrel0 & Hok0 & Hun) & _).
  assert (F0 : files (disk s0) = files (disk s)).
  { subst s0. unfold reset_claims. edestruct (λ f, reliable_execute f s Hrel) as (s' & E & _ & D & _).
    rewrite E. simpl. by rewrite D. }
  fold s0 in Hrel0, Hok0, Hun. rewrite <- F0 in Hb.
  destruct (drain_one_ready now s0 Hrel0 Hok0 Hun) as (r1 & b1 & s1 & Hin1 & Hmin & Hb1 & _ & Hd & R1 & F1 & Hrel1).
  { intros E. rewrite E in Hin. by apply not_elem_of_nil in Hin. }
  assert (r1 = r) as ->.
  { destruct (decide (r1 = r)) as [?|Hne]; [done|]. specialize (Hfirst r1 Hin1 Hne).
    specialize (Hmin r Hin). lia. }
  assert (b1 = b) as -> by congruence.
  exists s1. cbn [run_worker]. unfold worker_iteration. rewrite Hd, Hp. split; [done|].
  split; [done|]. split; [by eapply update_claim_rows_ok|].
  unfold reset_claims. edestruct (λ f, reliable_execute f s1 Hrel1) as (s2 & E & R2 & _). rewrite E. simpl.
  rewrite R2, R1. unfold update_id. rewrite <- list_fmap_compose.
  rewrite <- (list_fmap_id (rows (db s0))) at 2. apply list_fmap_ext. intros i x Hx. simpl.
  assert (Hc : r_claimed_at x = None).
  { unfold all_unclaimed in Hun. rewrite Forall_forall in Hun. apply Hun. by eapply list_elem_of_lookup_2. }
  destruct x; simpl in *. subst. by case_bool_decide.
Qed.

End Worker.
End Store.

(** ** An engine and a run *)

Module StagingSamples.

Definition older (r : Row) (o : option Row) : option Row :=
  match o with
  | Some r' => if r_received_at r' <? r_received_at r then Some r' else Some r
  | None => Some r
  end.

#[export] Instance first_oldest : OldestFirst := foldr older None.

#[export] Instance first_oldest_laws : OldestLaws.
Proof.
  split. unfold oldest, first_oldest. induction l as [|r l IH]; [done|]. simpl.
  destruct (foldr older None l) as [r'|]; simpl.
  - destruct IH as (Hin & Hmin). destruct (r_received_at r' <? r_received_at r) eqn:E; to_prop.
    + split; [by right|]. intros x [->|Hx]%elem_of_cons; [lia|auto].
    + split; [by left|]. intros x [->|Hx]%elem_of_cons; [lia|]. specialize (Hmin x Hx). lia.
  - subst. split; [by left|]. intros x ->%list_elem_of_singleton. lia.
Qed.

Definition cfg : StagingConfig := mkConfig (lit "/s") 100 10 1.
Definition empty : Store := mkStore (mkPool [] []) (mkDisk ∅ []).
Definition body1 : bytes := [1; 2; 3].
Definition staged1 : Store := (try_stage cfg (lit "aa") 5 (lit "<a@b>") body1 empty).2.
Definition staged2 : Store := (try_stage cfg (lit "bb") 4 (lit "<c@d>") [9] staged1).2.

(** Another article is staged, a session is cut off, the worker dies with
    the first one claimed, and the daemon restarts. *)
Definition mishaps : list Op :=
  [OStage (lit "bb") 6 (lit "<c@d>") [9]; OCut (lit "cc") [7]; ODrain 7; OReset; OCleanup].

Lemma staged_article_survives_witness :
  held cfg (lit "aa") (lit "<a@b>") body1
    (foldl (λ s o, run_op cfg o s) staged1 mishaps).
Proof.
  refine (proj1 (staged_article_survives cfg (lit "aa") 5 (lit "<a@b>") body1 mishaps empty staged1
                   (Ok true) _ _)); [vm_refl|].
  repeat constructor; by apply (bool_decide_eq_true_1 _); vm_refl.
Defined.

(** The pipeline fails twice, then accepts. *)
Definition flaky (a : StagedArticle) (w : nat) : result Panic PipelineOutcome * nat :=
  if (w <? 2)%nat then (Ok TransientFailure, S w) else (Ok Success, S w).

Lemma flaky_returns a w : True → ∃ o w', flaky a w = (Ok o, w').
Proof. unfold flaky. case_match; eauto. Qed.

Lemma staged2_ok : reliable staged2 ∧ rows_ok cfg (λ _, True) staged2.
Proof.
  split; [split; vm_compute; constructor|]. split.
  - apply (bool_decide_eq_true_1 _). vm_refl.
  - assert (Hr : rows (db staged2) =
      [mkRow (lit "aa") (lit "<a@b>") (lit "/s/aa") 5 3 None 0;
       mkRow (lit "bb") (lit "<c@d>") (lit "/s/bb") 4 1 None 0]) by vm_refl.
    rewrite Hr. repeat apply Forall_cons_2; [| |constructor];
      (split; [vm_refl|split; [|done]]).
    + exists body1. split; [vm_refl|done].
    + exists [9]. split; [vm_refl|done].
Qed.

Lemma staging_drains_witness :
  rows (db (run_worker flaky (repeat 8 20) (O, (reset_claims staged2).2)).2) = [].
Proof.
  destruct staged2_ok as (Hrel & Hok).
  refine (proj1 (staging_drains cfg flaky (λ _, True) flaky_returns (repeat 8 20) O staged2 Hrel Hok _)).
  by apply (bool_decide_eq_true_1 _); vm_refl.
Defined.

(** [complete] deletes the file before the row: if the deletion of the row
    fails, the row has lost its file and no worker can ever finish it.  Every
    restart claims it again, fails to read it and leaves it claimed. *)
Definition after_failed_complete : Store :=
  let a := mkStaged (lit "aa") (lit "<a@b>") body1 (lit "/s/aa") in
  (complete a (mkStore (mkPool (rows (db staged1)) [true]) (disk staged1))).2.

Lemma row_without_file_is_stuck :
  length (rows (db after_failed_complete)) = 1%nat ∧
  files (disk after_failed_complete) !! lit "/s/aa" = None ∧
  (drain_one 9 (reset_claims after_failed_complete).2).1 = Err Io ∧
  rows (db (reset_claims (drain_one 9 (reset_claims after_failed_complete).2).2).2) =
    rows (db after_failed_complete).
Proof. split_and!; vm_refl. Qed.

End StagingSamples.

End Staging.
