(* ===== verification/PinClient.v ===== *)
(** Pinning: [crates/transit/src/retention/pin_client.rs].

    [PinClient] is the trait and [PinLaws] what its documentation promises of
    the set of pinned CIDs.  An operation that reports an error may have taken
    effect all the same (the response of a remote node can be lost), so the
    laws only say that it did its work or nothing.  The in-memory client and
    the retry wrapper are proved to keep the promise; the HTTP client is a
    parameter, as it only forwards to an IPFS node. *)

From S2P Require Import Prelude Bytes Crypto.

Module PinClient.

Inductive PinError :=
| Unreachable (m : bytes)
| PinFailed (m : bytes).

Definition pin_error_to_string (e : PinError) : bytes :=
  match e with
  | Unreachable m => lit "IPFS node unreachable: " ++ m
  | PinFailed m => lit "pin operation failed: " ++ m
  end.

Section Interface.
Context {lib : CidLib}.

Class PinClient (P : Type) := {
  pin : Cid → prog P PinError ();
  unpin : Cid → prog P PinError ();
  is_pinned : Cid → prog P PinError bool;
  list_pinned : prog P PinError (list Cid)
}.

Class PinView (P : Type) := {
  pin_inv : P → Prop;
  pin_up : P → Prop;
  pinned : P → gset Cid
}.

(** [m] yields [Q], or fails because the node is not up; either way the pinned
    set is [after] or, on an error, possibly what it was. *)
Definition pin_outcome {P A} `{PinView P} (s : P) (m : prog P PinError A)
    (after : gset Cid) (Q : A → Prop) : Prop :=
  match m s with
  | (Ok a, s') => pin_inv s' ∧ (pin_up s → pin_up s') ∧ pinned s' = after ∧ Q a
  | (Err _, s') => pin_inv s' ∧ ¬ pin_up s ∧ (pinned s' = pinned s ∨ pinned s' = after)
  end.

Class PinLaws (P : Type) `{PinView P} `{PinClient P} : Prop := {
  pin_ok c s : pin_inv s → pin_outcome s (pin c) (pinned s ∪ {[ c ]}) (λ _, True);
  unpin_ok c s : pin_inv s → pin_outcome s (unpin c) (pinned s ∖ {[ c ]}) (λ _, True);
  is_pinned_ok c s : pin_inv s →
    pin_outcome s (is_pinned c) (pinned s) (λ b, b = bool_decide (c ∈ pinned s));
  list_pinned_ok s : pin_inv s →
    pin_outcome s list_pinned (pinned s) (λ l, l ≡ₚ elements (pinned s))
}.

End Interface.

Section Clients.
Context {lib : CidLib}.

(** ** [MemPinClient] *)

Record MemPinClient := mkMemPin {
  pinned_strings : gset bytes;
  force_error : option bytes;
  pin_call_count : Z
}.

Definition check_force_error (s : MemPinClient) : option PinError :=
  Unreachable <$> force_error s.

Definition mem_pin (cid : Cid) : prog MemPinClient PinError () := λ s,
  let s1 := mkMemPin (pinned_strings s) (force_error s) (wrapping_u64 (pin_call_count s + 1)) in
  match check_force_error s1 with
  | Some e => (Err e, s1)
  | None => (Ok tt, mkMemPin ({[ cid_to_string cid ]} ∪ pinned_strings s1) (force_error s1)
                      (pin_call_count s1))
  end.

Definition mem_unpin (cid : Cid) : prog MemPinClient PinError () := λ s,
  match check_force_error s with
  | Some e => (Err e, s)
  | None => (Ok tt, mkMemPin (pinned_strings s ∖ {[ cid_to_string cid ]}) (force_error s)
                      (pin_call_count s))
  end.

Definition mem_is_pinned (cid : Cid) : prog MemPinClient PinError bool := λ s,
  match check_force_error s with
  | Some e => (Err e, s)
  | None => (Ok (bool_decide (cid_to_string cid ∈ pinned_strings s)), s)
  end.

Fixpoint parse_cids (strings : list bytes) : result PinError (list Cid) :=
  match strings with
  | [] => Ok []
  | s :: strings' =>
      match cid_from_str s with
      | None => Err (PinFailed (lit "invalid CID in store"))
      | Some c => cs ← parse_cids strings'; mret (c :: cs)
      end
  end.

Definition mem_list_pinned : prog MemPinClient PinError (list Cid) := λ s,
  match check_force_error s with
  | Some e => (Err e, s)
  | None => (parse_cids (sort_bytes (elements (pinned_strings s))), s)
  end.

#[export] Instance mem_pin_client : PinClient MemPinClient := {|
  pin := mem_pin; unpin := mem_unpin; is_pinned := mem_is_pinned; list_pinned := mem_list_pinned
|}.

#[export] Instance mem_pin_view : PinView MemPinClient := {|
  pin_inv s := ∀ k, k ∈ pinned_strings s → ∃ c, k = cid_to_string c;
  pin_up s := force_error s = None;
  pinned s := list_to_set (omap cid_from_str (elements (pinned_strings s)))
|}.

(** ** [RetryPinClient] *)

Record RetryPinClient (P : Type) := mkRetry { inner : P; max_attempts : nat }.
Arguments mkRetry {P} inner max_attempts.
Arguments inner {P} r.
Arguments max_attempts {P} r.

(** The attempts still to be made; the delays between them have no effect on
    the client. *)
Fixpoint attempt {P A} (op : prog P PinError A) (left : nat) (last_err : PinError) :
    prog P PinError A := λ s,
  match left with
  | O => (Err last_err, s)
  | S left' =>
      match op s with
      | (Ok v, s') => (Ok v, s')
      | (Err e, s') => attempt op left' e s'
      end
  end.

Definition with_retry {P A} (op : prog P PinError A) (max_attempts : nat) : prog P PinError A :=
  attempt op max_attempts (Unreachable (lit "no attempts made")).

(** A method of the wrapper: the retried method of the client inside. *)
Definition retried {P A} (op : prog P PinError A) : prog (RetryPinClient P) PinError A := λ r,
  let '(x, p) := with_retry op (max_attempts r) (inner r) in (x, mkRetry p (max_attempts r)).

#[export] Instance retry_pin_client {P} `{!PinClient P} : PinClient (RetryPinClient P) := {|
  pin c := retried (pin c);
  unpin c := retried (unpin c);
  is_pinned c := retried (is_pinned c);
  list_pinned := retried list_pinned
|}.

#[export] Instance retry_pin_view {P} `{!PinView P} : PinView (RetryPinClient P) := {|
  pin_inv r := pin_inv (inner r);
  pin_up r := max_attempts r ≠ O ∧ pin_up (inner r);
  pinned r := pinned (inner r)
|}.

(** ** The clients keep the promise *)

Context {laws : CidLaws lib}.

Lemma mem_pinned_spec (s : MemPinClient) c :
  pin_inv s → c ∈ pinned s ↔ cid_to_string c ∈ pinned_strings s.
Proof.
  intros Hi. simpl. rewrite elem_of_list_to_set, list_elem_of_omap. split.
  - intros (k & Hk & Hc). apply elem_of_elements in Hk. destruct (Hi _ Hk) as [d ->].
    rewrite cid_string_roundtrip in Hc. by simplify_eq.
  - intros Hk. exists (cid_to_string c). by rewrite elem_of_elements, cid_string_roundtrip.
Qed.

Lemma mem_pinned_eq (s : MemPinClient) (C : gset Cid) :
  pin_inv s → (∀ c, cid_to_string c ∈ pinned_strings s ↔ c ∈ C) → pinned s = C.
Proof. intros Hi HC. apply set_eq. intros c. by rewrite mem_pinned_spec. Qed.

Lemma parse_cids_canonical (strings : list bytes) :
  Forall (λ k, ∃ c, k = cid_to_string c) strings →
  parse_cids strings = Ok (omap cid_from_str strings).
Proof.
  induction 1 as [|k strings [c ->] _ IH]; [done|]. simpl.
  rewrite cid_string_roundtrip, IH. done.
Qed.

Lemma NoDup_omap_canonical (strings : list bytes) :
  Forall (λ k, ∃ c, k = cid_to_string c) strings → NoDup strings →
  NoDup (omap cid_from_str strings).
Proof.
  induction 1 as [|k strings [c ->] Hs IH]; [intros _; apply NoDup_nil_2|].
  intros [Hk Hnd]%NoDup_cons. simpl. rewrite cid_string_roundtrip. apply NoDup_cons.
  split; [|by apply IH]. rewrite list_elem_of_omap. intros (k & Hin & Hc).
  rewrite Forall_forall in Hs. destruct (Hs _ Hin) as [d ->].
  rewrite cid_string_roundtrip in Hc. by simplify_eq.
Qed.

Lemma cid_string_eq c d : cid_to_string c = cid_to_string d ↔ c = d.
Proof. split; [apply cid_to_string_inj|by intros ->]. Qed.

(** Operations that keep the strings CIDs, when no error is forced. *)
Lemma mem_outcome {A} (s : MemPinClient) (m : prog MemPinClient PinError A) C (Q : A → Prop) :
  pin_inv s →
  (∀ e, check_force_error s = Some e → ∃ n, m s = (Err e, mkMemPin (pinned_strings s) (force_error s) n)) →
  (check_force_error s = None → ∃ a K n, m s = (Ok a, mkMemPin K None n) ∧
     (∀ k, k ∈ K → ∃ c, k = cid_to_string c) ∧ (∀ c, cid_to_string c ∈ K ↔ c ∈ C) ∧ Q a) →
  pin_outcome s m C Q.
Proof.
  intros Hi Herr Hok. unfold pin_outcome. destruct (check_force_error s) as [e|] eqn:E.
  - destruct (Herr e eq_refl) as [n ->]. unfold check_force_error in E. split_and!; [done| |by left].
    simpl. intros H. by rewrite H in E.
  - destruct (Hok eq_refl) as (a & K & n & -> & HK & HC & HQ). split_and!; [done|done| |done].
    by apply mem_pinned_eq.
Qed.

#[export] Instance mem_pin_laws : PinLaws MemPinClient.
Proof.
  assert (Hnone : ∀ s, check_force_error s = None → force_error s = None).
  { intros s. unfold check_force_error. by destruct (force_error s). }
  split; intros; apply mem_outcome; try done; cbn [pin unpin is_pinned list_pinned mem_pin_client].
  - unfold mem_pin. intros e He. unfold check_force_error in *. cbn [force_error]. rewrite He. eauto.
  - intros Hn. unfold mem_pin. rewrite (Hnone _ Hn). eexists _, _, _. split; [reflexivity|].
    split_and!; [set_unfold; naive_solver| |done].
    intros d. rewrite !elem_of_union, !elem_of_singleton, cid_string_eq, mem_pinned_spec by done. tauto.
  - unfold mem_unpin. intros e ->. destruct s; eauto.
  - intros Hn. unfold mem_unpin. rewrite Hn, (Hnone _ Hn). eexists _, _, _. split; [done|].
    split_and!; [set_unfold; naive_solver| |done].
    intros d. rewrite !elem_of_difference, !elem_of_singleton, cid_string_eq, mem_pinned_spec by done. tauto.
  - unfold mem_is_pinned. intros e ->. destruct s; eauto.
  - intros Hn. unfold mem_is_pinned. rewrite Hn. eexists _, (pinned_strings s), (pin_call_count s).
    split; [by rewrite <- (Hnone _ Hn); destruct s|]. split_and!; [done|by intros; rewrite mem_pinned_spec|].
    apply bool_decide_ext. by rewrite mem_pinned_spec.
  - unfold mem_list_pinned. intros e ->. destruct s; eauto.
  - intros Hn. unfold mem_list_pinned. rewrite Hn. set (l := sort_bytes _).
    assert (Hl : l ≡ₚ elements (pinned_strings s)) by apply sort_bytes_perm.
    assert (Hc : Forall (λ k, ∃ c, k = cid_to_string c) l).
    { rewrite Hl, Forall_forall. intros k. rewrite elem_of_elements. auto. }
    rewrite parse_cids_canonical by done. eexists _, (pinned_strings s), (pin_call_count s).
    split; [by rewrite <- (Hnone _ Hn); destruct s|]. split_and!; [done|by intros; rewrite mem_pinned_spec|].
    cbn [pinned mem_pin_view]. rewrite <- Hl. symmetry. apply elements_list_to_set.
    apply NoDup_omap_canonical; [done|]. rewrite Hl. apply NoDup_elements.
Qed.

(** However many attempts fail, the work was done or nothing was. *)
Lemma attempt_outcome {P A} `{!PinView P} (op : prog P PinError A) (f : gset Cid → gset Cid)
    (Q : gset Cid → A → Prop) n e s :
  (∀ C, f (f C) = f C) → (∀ C a, Q (f C) a → Q C a) →
  (∀ s, pin_inv s → pin_outcome s op (f (pinned s)) (Q (pinned s))) → pin_inv s →
  match attempt op n e s with
  | (Ok a, s') => pin_inv s' ∧ (pin_up s → pin_up s') ∧ pinned s' = f (pinned s) ∧ Q (pinned s) a
  | (Err _, s') => pin_inv s' ∧ (n = O ∨ ¬ pin_up s) ∧
      (pinned s' = pinned s ∨ pinned s' = f (pinned s))
  end.
Proof.
  intros Hf HQ Hop. revert e s. induction n as [|n IH]; intros e s Hi; simpl; [by auto|].
  pose proof (Hop s Hi) as Ho. unfold pin_outcome in Ho. destruct (op s) as [[a|e'] s1]; [done|].
  destruct Ho as (Hi1 & Hup & Hp). specialize (IH e' s1 Hi1).
  destruct (attempt op n e' s1) as [[a|e''] s2].
  - destruct IH as (Hi2 & _ & Hp2 & HQa). split_and!; [done|done| |].
    + destruct Hp as [->| ->] in Hp2; by rewrite ?Hf in Hp2.
    + destruct Hp as [<-|Hp]; [done|]. apply HQ. by rewrite <- Hp.
  - destruct IH as (Hi2 & _ & Hp2). split_and!; [done|by right|].
    destruct Hp as [->| ->] in Hp2; rewrite ?Hf in Hp2; tauto.
Qed.

Lemma retried_outcome {P A} `{!PinView P} (op : prog P PinError A) (f : gset Cid → gset Cid)
    (Q : gset Cid → A → Prop) (r : RetryPinClient P) :
  (∀ C, f (f C) = f C) → (∀ C a, Q (f C) a → Q C a) →
  (∀ s, pin_inv s → pin_outcome s op (f (pinned s)) (Q (pinned s))) → pin_inv r →
  pin_outcome r (retried op) (f (pinned r)) (Q (pinned r)).
Proof.
  intros Hf HQ Hop Hi. unfold pin_outcome, retried, with_retry. simpl in *.
  pose proof (attempt_outcome op f Q (max_attempts r) (Unreachable (lit "no attempts made"))
                (inner r) Hf HQ Hop Hi) as H'.
  destruct (attempt op _ _ _) as [[a|e] p]; simpl.
  - destruct H' as (? & ? & ? & ?). split_and!; naive_solver.
  - destruct H' as (? & ? & ?). split_and!; [done|naive_solver|done].
Qed.

#[export] Instance retry_pin_laws {P} `{!PinView P, !PinClient P, !PinLaws P} : PinLaws (RetryPinClient P).
Proof.
  split; intros; cbn [pin unpin is_pinned list_pinned retry_pin_client].
  - apply (retried_outcome _ (λ C, C ∪ {[ c ]}) (λ _ _, True)); [set_solver|done| |done]. intros; by apply pin_ok.
  - apply (retried_outcome _ (λ C, C ∖ {[ c ]}) (λ _ _, True)); [set_solver|done| |done]. intros; by apply unpin_ok.
  - pose (Q := λ (C : gset Cid) b, b = bool_decide (c ∈ C)).
    apply (retried_outcome _ id Q); [done..| |done]. intros; by apply is_pinned_ok.
  - apply (retried_outcome _ id (λ (C : gset Cid) l, l ≡ₚ elements C)); [done..| |done]. intros; by apply list_pinned_ok.
Qed.

End Clients.

End PinClient.
