(* ===== verification/Retention.v ===== *)
(** Garbage collection: [gc_candidates.rs], [gc_executor.rs], [audit_log.rs]
    and [gc.rs] of [crates/transit/src/retention], and their wiring in
    [crates/transit/src/main.rs].

    The collector works on three stores, each through its interface or its
    table: the pin client, the transit database (whose [articles] table the
    ingest pipeline fills) and the Message-ID map.  Any call to any of them may
    fail; the run goes on. *)

From S2P Require Import Prelude Bytes Decimal Crypto Sql LogEntry SqliteStorage MsgIdMap Pipeline Policy PinClient.

Module Retention.
Import Decimal Sql LogEntry SqliteStorage MsgIdMap Pipeline Policy PinClient.

(** ** Tables *)

Record GcAuditRecord := mkAudit {
  au_cid : bytes;
  au_group_name : bytes;
  au_ingested_at_ms : Z;
  au_gc_at_ms : Z;
  au_reason : bytes
}.

(** [articles], [pinned_cids(cid PRIMARY KEY, pinned_at_ms)] and the append-only
    [gc_audit_log]. *)
Record TransitDb := mkTransit {
  articles : gmap bytes ArticleRow;
  pinned_cids : gset bytes;
  gc_audit_log : list GcAuditRecord
}.

Definition db_error : () → StorageError := λ _, Database (lit "database error").

Definition append_audit_record (record : GcAuditRecord) : prog (Pool TransitDb) StorageError () :=
  let row := mkAudit (au_cid record) (au_group_name record) (as_i64 (au_ingested_at_ms record))
               (as_i64 (au_gc_at_ms record)) (au_reason record) in
  prog_map_err db_error
    (execute (λ t, mkTransit (articles t) (pinned_cids t) (gc_audit_log t ++ [row]))).

Definition delete_article (cid_str : bytes) (t : TransitDb) : TransitDb :=
  mkTransit (base.delete cid_str (articles t)) (pinned_cids t) (gc_audit_log t).

Section Gc.
Context {lib : CidLib} {engine : SqlEngine}.

(** ** Candidates *)

Record GcArticleRecord := mkRecord {
  rec_cid : Cid;
  rec_group : bytes;
  rec_ingested_at_ms : Z;
  rec_byte_count : Z
}.

Definition MS_PER_DAY : Z := 24 * 60 * 60 * 1000.

(** [WHERE ingested_at_ms < ? AND cid NOT IN (SELECT cid FROM pinned_cids)], in
    the order the engine returns the rows. *)
Definition old_rows (cutoff_ms : Z) (t : TransitDb) : list (bytes * ArticleRow) :=
  omap (λ k, pair k <$> articles t !! k)
    (row_order (filter (λ r : bytes * ArticleRow,
                          art_ingested_at_ms r.2 < cutoff_ms ∧ r.1 ∉ pinned_cids t)
                  (map_to_list (articles t))).*1).

Definition row_record (cid : Cid) (row : ArticleRow) : GcArticleRecord :=
  mkRecord cid (if bool_decide (art_group_name row = []) then lit "unknown" else art_group_name row)
    (wrapping_u64 (art_ingested_at_ms row)) (wrapping_u64 (art_byte_count row)).

Definition record_meta (now_ms : Z) (r : GcArticleRecord) : ArticleMeta :=
  mkMeta (rec_group r) (rec_byte_count r) (saturating_sub now_ms (rec_ingested_at_ms r) / MS_PER_DAY).

Fixpoint evaluate_rows (policy : PinPolicy) (now_ms : Z) (rs : list (bytes * ArticleRow)) :
    result StorageError (list GcArticleRecord) :=
  match rs with
  | [] => Ok []
  | (cid_str, row) :: rs' =>
      match cid_from_str cid_str with
      | None => Err (Database (lit "invalid CID in database"))
      | Some cid =>
          let r := row_record cid row in
          candidates ← evaluate_rows policy now_ms rs';
          mret (if negb (should_pin policy (record_meta now_ms r)) then r :: candidates
                else candidates)
      end
  end.

Definition select_gc_candidates (policy : PinPolicy) (now_ms grace_period_ms : Z) :
    prog (Pool TransitDb) StorageError (list GcArticleRecord) :=
  let cutoff_ms := as_i64 (saturating_sub now_ms grace_period_ms) in
  rs ← prog_map_err db_error (select (old_rows cutoff_ms));
  lift (evaluate_rows policy now_ms rs).

(** ** Execution *)

Inductive GcReason := NoMatchingRule.
Definition gc_reason_to_string (r : GcReason) : bytes :=
  match r with NoMatchingRule => lit "no_matching_rule" end.

Record GcExecutorCandidate := mkCandidate {
  x_cid : Cid;
  x_group_name : bytes;
  x_ingested_at_ms : Z;
  x_byte_count : Z;
  x_gc_reason : GcReason
}.

Record GcExecutorError := mkExecError { err_cid : bytes; err_reason : bytes }.

Record GcExecutorResult := mkExecResult {
  unpinned : nat;
  failed : nat;
  bytes_reclaimed : Z;
  errors : list GcExecutorError
}.

Definition default_result : GcExecutorResult := mkExecResult 0 0 0 [].

Context {P M : Type} {client : PinClient P} {mids : MsgIdStore M}.

(** What the executor is given: the client and the two optional pools. *)
Record GcWorld := mkGcWorld {
  gw_pins : P;
  gw_transit : option (Pool TransitDb);
  gw_core : option M
}.

(** The clean-up after a successful unpin; failures are only logged. *)
Definition forget (now_ms : Z) (candidate : GcExecutorCandidate) (w : GcWorld) : GcWorld :=
  match gw_transit w with
  | None => w
  | Some tp =>
      let cid_str := cid_to_string (x_cid candidate) in
      let tp1 := (execute (delete_article cid_str) tp).2 in
      let core := (λ mm, (delete_by_cid (x_cid candidate) mm).2) <$> gw_core w in
      let record := mkAudit cid_str (x_group_name candidate) (x_ingested_at_ms candidate) now_ms
                      (gc_reason_to_string (x_gc_reason candidate)) in
      let tp2 := (append_audit_record record tp1).2 in
      mkGcWorld (gw_pins w) (Some tp2) core
  end.

Definition collect_one (now_ms : Z) (candidate : GcExecutorCandidate)
    (st : GcExecutorResult * GcWorld) : GcExecutorResult * GcWorld :=
  let '(result, w) := st in
  match unpin (x_cid candidate) (gw_pins w) with
  | (Ok _, p) =>
      (mkExecResult (unpinned result + 1) (failed result)
         (wrapping_u64 (bytes_reclaimed result + x_byte_count candidate)) (errors result),
       forget now_ms candidate (mkGcWorld p (gw_transit w) (gw_core w)))
  | (Err e, p) =>
      (mkExecResult (unpinned result) (failed result + 1) (bytes_reclaimed result)
         (errors result ++ [mkExecError (cid_to_string (x_cid candidate)) (pin_error_to_string e)]),
       mkGcWorld p (gw_transit w) (gw_core w))
  end.

Definition run_gc_executor (candidates : list GcExecutorCandidate) (now_ms : Z) (w : GcWorld) :
    GcExecutorResult * GcWorld :=
  foldl (λ st c, collect_one now_ms c st) (default_result, w) candidates.

(** ** The runner *)

Record GcCandidate := mkGcCandidate {
  cd_cid : Cid;
  cd_group : bytes;
  cd_ingested_at_ms : Z;
  cd_byte_count : Z
}.

Definition from_record (r : GcArticleRecord) : GcCandidate :=
  mkGcCandidate (rec_cid r) (rec_group r) (rec_ingested_at_ms r) (rec_byte_count r).

Record GcReport := mkReport {
  run_id : bytes;
  started_at_ms : Z;
  completed_at_ms : Z;
  policy_desc : bytes;
  groups_scanned : nat;
  articles_evaluated : nat;
  articles_deleted : nat;
  rp_bytes_reclaimed : Z;
  rp_errors : list GcExecutorError
}.

Record GcRunner := mkRunner {
  runner_policy : PinPolicy;
  gc_articles_unpinned_total : Z;
  last_run_duration_ms : Z;
  last_report : option GcReport
}.

Definition exec_candidate (c : GcCandidate) : GcExecutorCandidate :=
  mkCandidate (cd_cid c) (cd_group c) (cd_ingested_at_ms c) (cd_byte_count c) NoMatchingRule.

(** What [run_once] takes from its surroundings: the random run id and the two
    clock readings at its end. *)
Record RunReadings := mkRunReadings { rr_run_id : bytes; rr_elapsed_ms : Z; rr_completed_at_ms : Z }.

Definition run_once (candidates : list GcCandidate) (now_ms : Z) (rr : RunReadings)
    (runner : GcRunner) (w : GcWorld) : nat * GcRunner * GcWorld :=
  let '(res, w') := run_gc_executor (exec_candidate <$> candidates) now_ms w in
  let report := mkReport (rr_run_id rr) now_ms (rr_completed_at_ms rr)
    (to_decimal (Z.of_nat (rule_count (runner_policy runner))) ++ lit " pin rule(s)")
    (length (remove_dups (cd_group <$> candidates))) (length candidates)
    (unpinned res) (bytes_reclaimed res) (errors res) in
  (unpinned res,
   mkRunner (runner_policy runner)
     (wrapping_u64 (gc_articles_unpinned_total runner + Z.of_nat (unpinned res)))
     (rr_elapsed_ms rr) (Some report),
   w').

(** ** The scheduler *)

(** [pg_try_advisory_lock] and [pg_advisory_unlock] of PostgreSQL, for the one
    lock id the scheduler uses: the lock belongs to a session. *)
Class AdvisoryLock (L : Type) := {
  Conn : Type;
  pg_try_advisory_lock : Conn → L → bool * L;
  pg_advisory_unlock : Conn → L → bool * L
}.

Context {L : Type} {pg : AdvisoryLock L}.

(** Outside PostgreSQL there is no lock; otherwise the pool lends the statement
    one of its connections, or none when it fails. *)
Definition try_gc_lock (pool : option L) (conn : option Conn) : bool * option L :=
  match pool with
  | None => (true, None)
  | Some l =>
      match conn with
      | None => (false, Some l)
      | Some c => let '(b, l') := pg_try_advisory_lock c l in (b, Some l')
      end
  end.

Definition release_gc_lock (pool : option L) (conn : option Conn) : option L :=
  match pool with
  | None => None
  | Some l =>
      match conn with
      | None => Some l
      | Some c => Some (pg_advisory_unlock c l).2
      end
  end.

Record GcDaemon := mkGcDaemon {
  gd_runner : GcRunner;
  gd_world : GcWorld;
  gd_lock : option L
}.

(** What one tick takes from its surroundings: the connections the pool lends
    for the two lock statements, the clock read before the run and the clock
    [candidates_fn] reads. *)
Record TickReadings := mkTickReadings {
  tk_acquire : option Conn;
  tk_release : option Conn;
  tk_now_ms : Z;
  tk_select_now_ms : Z;
  tk_run : RunReadings
}.

(** The closure [main.rs] passes: no candidates when the selection fails.  The
    daemon always has the transit pool. *)
Definition candidates_fn (policy : PinPolicy) (grace_ms now : Z) (w : GcWorld) :
    list GcCandidate * GcWorld :=
  match gw_transit w with
  | None => ([], w)
  | Some tp =>
      let '(r, tp') := select_gc_candidates policy now grace_ms tp in
      (match r with Ok cs => from_record <$> cs | Err _ => [] end,
       mkGcWorld (gw_pins w) (Some tp') (gw_core w))
  end.

(** One turn of the loop of [start_gc_scheduler]. *)
Definition gc_tick (policy : PinPolicy) (grace_ms : Z) (tk : TickReadings) (d : GcDaemon) : GcDaemon :=
  match try_gc_lock (gd_lock d) (tk_acquire tk) with
  | (false, lock) => mkGcDaemon (gd_runner d) (gd_world d) lock
  | (true, lock) =>
      let '(candidates, w) := candidates_fn policy grace_ms (tk_select_now_ms tk) (gd_world d) in
      let '(_, runner, w') := run_once candidates (tk_now_ms tk) (tk_run tk) (gd_runner d) w in
      mkGcDaemon runner w' (release_gc_lock lock (tk_release tk))
  end.

(** The rules [main.rs] makes of the configured names, and the grace period. *)
Definition pin_rules (max_age : Z) (names : list bytes) : list PinRule :=
  omap (λ r, if bool_decide (r = lit "pin-all") then Some (pin_all max_age) else None) names.

Definition grace_period_ms (max_age : Z) : Z := Z.min u64_max (max_age * MS_PER_DAY).

(** ** What is selected *)

Context {laws : CidLaws lib}.

Definition row_meta (now_ms : Z) (row : ArticleRow) : ArticleMeta :=
  mkMeta (if bool_decide (art_group_name row = []) then lit "unknown" else art_group_name row)
    (wrapping_u64 (art_byte_count row))
    (saturating_sub now_ms (wrapping_u64 (art_ingested_at_ms row)) / MS_PER_DAY).

(** An article the operator pinned, that is within the grace period or that the
    policy wants is retained; the other articles of the table are expired. *)
Definition retained (policy : PinPolicy) (now_ms grace_ms : Z) (t : TransitDb) (k : bytes)
    (row : ArticleRow) : Prop :=
  k ∈ pinned_cids t ∨
  as_i64 (saturating_sub now_ms grace_ms) <= art_ingested_at_ms row ∨
  should_pin policy (row_meta now_ms row) = true.

Definition expired (policy : PinPolicy) (now_ms grace_ms : Z) (t : TransitDb) (c : Cid) : Prop :=
  ∃ row, articles t !! cid_to_string c = Some row ∧
    ¬ retained policy now_ms grace_ms t (cid_to_string c) row.

(** The keys of the table are the strings of CIDs, as the pipeline writes them. *)
Definition keys_ok (t : gmap bytes ArticleRow) : Prop :=
  ∀ k row, t !! k = Some row → ∃ c, k = cid_to_string c.

Lemma upsert_keys_ok c all_groups ms n t :
  keys_ok t → keys_ok (upsert_article (cid_to_string c) all_groups ms n t).
Proof.
  intros Hk k row. unfold upsert_article.
  destruct (t !! cid_to_string c); intros [[<- _]|[_ ?]]%lookup_insert_Some; eauto.
Qed.

Lemma old_keys_spec cutoff t k :
  k ∈ (filter (λ r : bytes * ArticleRow, art_ingested_at_ms r.2 < cutoff ∧ r.1 ∉ pinned_cids t)
         (map_to_list (articles t))).*1 ↔
  ∃ row, articles t !! k = Some row ∧ art_ingested_at_ms row < cutoff ∧ k ∉ pinned_cids t.
Proof.
  rewrite list_elem_of_fmap. setoid_rewrite list_elem_of_filter.
  setoid_rewrite elem_of_map_to_list'. split.
  - intros ([k' row] & -> & ? & ?). eauto.
  - intros (row & ? & ? & ?). by exists (k, row).
Qed.

Lemma old_rows_spec cutoff t k row :
  (k, row) ∈ old_rows cutoff t ↔
  articles t !! k = Some row ∧ art_ingested_at_ms row < cutoff ∧ k ∉ pinned_cids t.
Proof.
  unfold old_rows. rewrite list_elem_of_omap. setoid_rewrite row_order_perm.
  setoid_rewrite old_keys_spec. split.
  - intros (k' & (row' & Hr & ?) & Heq). rewrite Hr in Heq. by simplify_eq/=.
  - intros (Hr & ? & ?). exists k. rewrite Hr. split; [eauto|done].
Qed.

Lemma old_rows_NoDup cutoff t : NoDup (old_rows cutoff t).*1.
Proof.
  unfold old_rows.
  assert (Hnd : NoDup (row_order (filter (λ r : bytes * ArticleRow,
      art_ingested_at_ms r.2 < cutoff ∧ r.1 ∉ pinned_cids t) (map_to_list (articles t))).*1)).
  { rewrite row_order_perm. eapply sublist_NoDup; [apply (NoDup_fst_map_to_list (articles t))|].
    apply fmap_sublist, sublist_filter. }
  induction Hnd as [|k ks Hk Hnd IH]; simpl; [apply NoDup_nil_2|].
  destruct (articles t !! k) as [row|]; simpl; [|done]. apply NoDup_cons. split; [|done].
  intros ([k' r] & -> & Hin)%list_elem_of_fmap. apply Hk.
  apply list_elem_of_omap in Hin as (k2 & Hin & Heq). apply fmap_Some in Heq as (? & _ & [= <- _]). done.
Qed.

(** The record of a row that the policy does not want. *)
Definition verdict (policy : PinPolicy) (now_ms : Z) (kr : bytes * ArticleRow) : option GcArticleRecord :=
  if should_pin policy (row_meta now_ms kr.2) then None
  else (λ c, row_record c kr.2) <$> cid_from_str kr.1.

Lemma evaluate_rows_ok policy now_ms rs :
  Forall (λ kr, is_Some (cid_from_str kr.1)) rs →
  evaluate_rows policy now_ms rs = Ok (omap (verdict policy now_ms) rs).
Proof.
  induction 1 as [|[k row] rs [c Hc] _ IH]; [done|]. simpl in *. unfold verdict at 1. simpl.
  rewrite Hc, IH. simpl. change (record_meta now_ms (row_record c row)) with (row_meta now_ms row).
  by destruct (should_pin policy (row_meta now_ms row)).
Qed.

Lemma verdict_cids policy now_ms grace_ms t c :
  keys_ok (articles t) →
  c ∈ rec_cid <$> omap (verdict policy now_ms)
                    (old_rows (as_i64 (saturating_sub now_ms grace_ms)) t) ↔
  expired policy now_ms grace_ms t c.
Proof.
  intros Hk. rewrite list_elem_of_fmap. setoid_rewrite list_elem_of_omap. unfold expired, retained, verdict. split.
  - intros (r & -> & [k row] & (Hr & Hage & Hp)%old_rows_spec & Hv). simpl in Hv.
    destruct (should_pin _ _) eqn:Es; [done|]. destruct (Hk _ _ Hr) as [d ->].
    rewrite cid_string_roundtrip in Hv. simplify_eq/=. exists row. split; [done|].
    rewrite Es. intros [?|[?|?]]; [done|lia|done].
  - intros (row & Hr & Hn). exists (row_record c row). split; [done|].
    exists (cid_to_string c, row). split.
    + apply old_rows_spec. split_and!; [done| |tauto].
      destruct (decide (as_i64 (saturating_sub now_ms grace_ms) <= art_ingested_at_ms row)); [tauto|lia].
    + simpl. rewrite cid_string_roundtrip. destruct (should_pin _ _); [tauto|done].
Qed.

Lemma verdict_NoDup policy now_ms rs :
  NoDup rs.*1 → (∀ kr, kr ∈ rs → ∃ c, kr.1 = cid_to_string c) →
  NoDup (rec_cid <$> omap (verdict policy now_ms) rs).
Proof.
  induction rs as [|[k row] rs IH]; simpl; [intros; apply NoDup_nil_2|].
  intros [Hk Hnd]%NoDup_cons Hc. assert (Hrec : NoDup (rec_cid <$> omap (verdict policy now_ms) rs)).
  { apply IH; [done|]. intros kr ?. apply Hc. by right. }
  destruct (Hc (k, row) (list_elem_of_here _ _)) as [c Hkc]. simpl in Hkc. subst k.
  unfold verdict at 1. simpl. destruct (should_pin _ _); [done|]. rewrite cid_string_roundtrip. simpl.
  apply NoDup_cons. split; [|done]. intros (r & -> & Hin)%list_elem_of_fmap.
  apply list_elem_of_omap in Hin as ([k' row'] & Hin & Hv). unfold verdict in Hv. simpl in *.
  destruct (should_pin _ _); [done|]. destruct (Hc _ (list_elem_of_further _ _ _ Hin)) as [d Hd]. simpl in Hd. subst k'.
  rewrite cid_string_roundtrip in Hv. simplify_eq/=. apply Hk. apply list_elem_of_fmap. eexists (_, _). split; [|exact Hin]. done.
Qed.

Lemma select_gc_candidates_ok policy now_ms grace_ms (p : Pool TransitDb) :
  keys_ok (articles (rows p)) →
  db_outcome p (select_gc_candidates policy now_ms grace_ms)
    (λ cs t, t = rows p ∧ NoDup (rec_cid <$> cs) ∧
       ∀ c, c ∈ rec_cid <$> cs ↔ expired policy now_ms grace_ms (rows p) c) (λ _, False).
Proof.
  intros Hk. unfold select_gc_candidates. cbv zeta.
  eapply (db_outcome_bind _ _ _ (λ rs, rs = old_rows (as_i64 (saturating_sub now_ms grace_ms)) (rows p))).
  { auto with sql_db. }
  intros rs p' Hp ->.
  assert (Hc : ∀ kr, kr ∈ old_rows (as_i64 (saturating_sub now_ms grace_ms)) (rows p) →
                 ∃ c, kr.1 = cid_to_string c).
  { intros [k row] (Hr & _)%old_rows_spec. by apply Hk in Hr. }
  rewrite evaluate_rows_ok.
  - unfold db_outcome. simpl. split_and!; [done|done| |intros c; by apply verdict_cids].
    apply verdict_NoDup; [apply old_rows_NoDup|done].
  - apply Forall_forall. intros kr Hin. destruct (Hc kr Hin) as [c ->]. rewrite cid_string_roundtrip. eauto.
Qed.

(** ** What a run touches *)

Context {pview : PinView P} {plaws : PinLaws P} {mview : MsgIdView M} {mlaws : MsgIdLaws M}.

Definition db_of (w : GcWorld) : TransitDb := from_option rows (mkTransit ∅ ∅ []) (gw_transit w).
Definition ids_of (w : GcWorld) : gmap bytes Cid := from_option msgids ∅ (gw_core w).

Definition world_inv (w : GcWorld) : Prop :=
  pin_inv (gw_pins w) ∧ ∀ m, gw_core w = Some m → msgid_inv m.

(** Every service is there and answers. *)
Definition world_up (w : GcWorld) : Prop :=
  pin_up (gw_pins w) ∧ (∃ tp, gw_transit w = Some tp ∧ pool_reliable tp) ∧
  (∃ m, gw_core w = Some m ∧ msgid_reliable m).

(** The article is as it was in all three stores. *)
Definition kept (c : Cid) (w w' : GcWorld) : Prop :=
  (c ∈ pinned (gw_pins w') ↔ c ∈ pinned (gw_pins w)) ∧
  articles (db_of w') !! cid_to_string c = articles (db_of w) !! cid_to_string c ∧
  ∀ mid, ids_of w' !! mid = Some c ↔ ids_of w !! mid = Some c.

(** The article is in none of them. *)
Definition gone (c : Cid) (w : GcWorld) : Prop :=
  c ∉ pinned (gw_pins w) ∧ articles (db_of w) !! cid_to_string c = None ∧
  ∀ mid, ids_of w !! mid ≠ Some c.

(** Nothing but the articles [C] changed, and the audit log only grew, by
    records of those articles. *)
Definition touches (C : list Cid) (w w' : GcWorld) : Prop :=
  world_inv w' ∧ pinned_cids (db_of w') = pinned_cids (db_of w) ∧
  articles (db_of w') ⊆ articles (db_of w) ∧
  (∃ new, gc_audit_log (db_of w') = gc_audit_log (db_of w) ++ new ∧
     Forall (λ a, au_cid a ∈ cid_to_string <$> C) new) ∧
  ∀ c, c ∉ C → kept c w w'.

Lemma gc_kept_refl c w : kept c w w.
Proof. done. Qed.

Lemma gc_kept_trans c w1 w2 w3 : kept c w1 w2 → kept c w2 w3 → kept c w1 w3.
Proof.
  intros (Hp & Ha & Hi) (Hp' & Ha' & Hi'). split_and!; [by rewrite Hp'|by rewrite Ha'|].
  intros mid. by rewrite Hi'.
Qed.

Lemma kept_gone c w w' : kept c w w' → gone c w → gone c w'.
Proof.
  intros (Hp & Ha & Hi) (? & ? & Hm). split_and!; [by rewrite Hp|by rewrite Ha|].
  intros mid ?. apply (Hm mid). by apply Hi.
Qed.

Lemma touches_refl C w : world_inv w → touches C w w.
Proof. intros Hi. split_and!; [done|done|done| |done]. exists []. by rewrite app_nil_r. Qed.

Lemma touches_weaken C C' w w' : C ⊆ C' → touches C w w' → touches C' w w'.
Proof.
  intros HC (Hi & Ho & Hs & (n & Ha & Hn) & Hk). split_and!; [done|done|done| |intros c ?; apply Hk; by auto].
  exists n. split; [done|]. eapply Forall_impl; [done|]. intros a. rewrite !list_elem_of_fmap. naive_solver.
Qed.

Lemma touches_trans C w1 w2 w3 : touches C w1 w2 → touches C w2 w3 → touches C w1 w3.
Proof.
  intros (_ & Ho & Hs & (n & Ha & Hn) & Hk) (Hi & Ho' & Hs' & (n' & Ha' & Hn') & Hk').
  split_and!; [done|by rewrite Ho'|by etrans| |].
  - exists (n ++ n'). rewrite Ha', Ha, app_assoc. split; [done|]. by apply Forall_app.
  - intros c Hc. eapply gc_kept_trans; [by apply Hk|by apply Hk'].
Qed.

(** A statement of the collector: it happens or it does not, and happens when
    the database answers. *)
Lemma execute_cases {T} (f : T → T) (p : Pool T) :
  (rows (execute f p).2 = f (rows p) ∨ rows (execute f p).2 = rows p ∧ ¬ pool_reliable p) ∧
  (pool_reliable p → pool_reliable (execute f p).2).
Proof.
  pose proof (execute_ok f p (λ _, False)) as H. unfold db_outcome in H.
  destruct (execute f p) as [[[]|[]] p']; simpl; destruct H as (? & H); [auto|].
  destruct H as (? & [[]|?]). auto.
Qed.

Lemma prog_map_err_snd {St E E' A} (f : E → E') (m : prog St E A) s : (prog_map_err f m s).2 = (m s).2.
Proof. unfold prog_map_err. by destruct (m s). Qed.

Definition audit_row (now_ms : Z) (c : GcExecutorCandidate) : GcAuditRecord :=
  mkAudit (cid_to_string (x_cid c)) (x_group_name c) (as_i64 (x_ingested_at_ms c)) (as_i64 now_ms)
    (gc_reason_to_string (x_gc_reason c)).

(** The two statements on the transit database. *)
Lemma forget_transit now_ms c (tp : Pool TransitDb) :
  let tp1 := (execute (delete_article (cid_to_string (x_cid c))) tp).2 in
  let tp2 := (append_audit_record (mkAudit (cid_to_string (x_cid c)) (x_group_name c)
                (x_ingested_at_ms c) now_ms (gc_reason_to_string (x_gc_reason c))) tp1).2 in
  pinned_cids (rows tp2) = pinned_cids (rows tp) ∧
  (articles (rows tp2) = base.delete (cid_to_string (x_cid c)) (articles (rows tp)) ∨
   articles (rows tp2) = articles (rows tp) ∧ ¬ pool_reliable tp) ∧
  (gc_audit_log (rows tp2) = gc_audit_log (rows tp) ++ [audit_row now_ms c] ∨
   gc_audit_log (rows tp2) = gc_audit_log (rows tp) ∧ ¬ pool_reliable tp) ∧
  (pool_reliable tp → pool_reliable tp2).
Proof.
  intros tp1 tp2.
  pose proof (execute_cases (delete_article (cid_to_string (x_cid c))) tp) as [H1 Hr1]. fold tp1 in H1, Hr1.
  unfold append_audit_record in tp2. cbv zeta in tp2. subst tp2. rewrite prog_map_err_snd.
  match goal with |- context [execute ?f tp1] => pose proof (execute_cases f tp1) as [H2 Hr2] end.
  destruct H2 as [H2|[H2 Hn2]]; rewrite H2; clear H2; cbn [articles pinned_cids gc_audit_log];
    destruct H1 as [->|[-> Hn1]]; cbn [articles pinned_cids gc_audit_log delete_article]; unfold audit_row;
    naive_solver.
Qed.

Lemma forget_ids c (m : M) :
  msgid_inv m →
  let m' := (delete_by_cid c m).2 in
  msgid_inv m' ∧ (msgid_reliable m → msgid_reliable m' ∧ ∀ mid, msgids m' !! mid ≠ Some c) ∧
  ∀ d mid, d ≠ c → msgids m' !! mid = Some d ↔ msgids m !! mid = Some d.
Proof.
  intros Hi. pose proof (delete_by_cid_ok c m Hi) as H. unfold msgid_outcome in H.
  destruct (delete_by_cid c m) as [[[]|e] m']; simpl.
  - destruct H as (Hi' & Hr & Hm). split_and!; [done| |].
    + intros Hu. split; [auto|]. intros mid. rewrite Hm. by case_decide.
    + intros d mid Hd. rewrite Hm. case_decide; [naive_solver|done].
  - destruct H as (Hi' & Hr & -> & [[]|?]). split_and!; [done|done|done].
Qed.

Lemma forget_touches now_ms c w : world_inv w → touches [x_cid c] w (forget now_ms c w).
Proof.
  intros [Hp Hm]. unfold forget. destruct w as [p [tp|] core]; cbn [gw_transit gw_core gw_pins] in *;
    [|by apply touches_refl].
  pose proof (forget_transit now_ms c tp) as H. cbv zeta in H. destruct H as (Ho & Ha & Hl & _).
  unfold touches, world_inv, kept, db_of, ids_of. cbn [gw_transit gw_core gw_pins from_option] in *.
  split_and!; [done| |done| | |].
  - intros m. destruct core as [m0|]; [|done]. intros [= <-]. by apply forget_ids, Hm.
  - destruct Ha as [->|[-> _]]; [apply delete_subseteq|done].
  - destruct Hl as [->|[-> _]]; [eexists; split; [done|]|exists []; by rewrite app_nil_r].
    apply Forall_singleton. by left.
  - intros d Hd. rewrite list_elem_of_singleton in Hd. split_and!; [done| |].
    + destruct Ha as [->|[-> _]]; [|done]. apply lookup_delete_ne. by intros ?%cid_to_string_inj.
    + intros mid. destruct core as [m0|]; [|done]. simpl. by apply forget_ids; [apply Hm|].
Qed.

Lemma collect_one_touches now_ms c r w :
  world_inv w → touches [x_cid c] w (collect_one now_ms c (r, w)).2.
Proof.
  intros Hi. pose proof Hi as [Hp Hm]. unfold collect_one.
  pose proof (unpin_ok (x_cid c) (gw_pins w) Hp) as Hu. unfold pin_outcome in Hu.
  assert (Hset : ∀ p, pin_inv p → pinned p = pinned (gw_pins w) ∨ pinned p = pinned (gw_pins w) ∖ {[x_cid c]} →
            touches [x_cid c] w (mkGcWorld p (gw_transit w) (gw_core w))).
  { intros p Hip Hpp. split_and!; [done|done|done|exists []; by rewrite app_nil_r|].
    intros d Hd. rewrite list_elem_of_singleton in Hd. split_and!; [|done|done]. simpl.
    destruct Hpp as [->| ->]; set_solver. }
  destruct (unpin (x_cid c) (gw_pins w)) as [[[]|e] p]; simpl.
  - destruct Hu as (Hip & _ & Hpp & _).
    eapply touches_trans; [by apply (Hset p); auto|]. by apply forget_touches.
  - destruct Hu as (Hip & _ & Hpp). by apply Hset.
Qed.

Lemma executor_touches now_ms cs st :
  world_inv st.2 →
  touches (x_cid <$> cs) st.2 (foldl (λ st c, collect_one now_ms c st) st cs).2.
Proof.
  revert st. induction cs as [|c cs IH]; intros [r w] Hi; [by apply touches_refl|]. simpl in *.
  pose proof (collect_one_touches now_ms c r w Hi) as H1.
  eapply touches_trans; eapply touches_weaken; [|exact H1| |apply IH; by destruct H1].
  - intros d. rewrite list_elem_of_singleton. intros ->. by left.
  - intros d ?. by right.
Qed.

(** ** What a run removes *)

(** When every service answers, a candidate is gone after its step, with one
    more audit record. *)
Lemma collect_one_up now_ms c r w :
  world_inv w → world_up w →
  let '(r', w') := collect_one now_ms c (r, w) in
  world_up w' ∧ gone (x_cid c) w' ∧
  gc_audit_log (db_of w') = gc_audit_log (db_of w) ++ [audit_row now_ms c] ∧
  unpinned r' = S (unpinned r) ∧ failed r' = failed r ∧ errors r' = errors r.
Proof.
  intros [Hp Hm] (Hup & (tp & Htp & Hr) & (m & Hc & Hmr)). unfold collect_one.
  pose proof (unpin_ok (x_cid c) (gw_pins w) Hp) as Hu. unfold pin_outcome in Hu.
  destruct (unpin (x_cid c) (gw_pins w)) as [[[]|e] p]; [|by destruct Hu as (_ & ? & _)].
  destruct Hu as (Hip & Hup' & Hpp & _). unfold forget. cbn [gw_transit]. rewrite Htp.
  pose proof (forget_transit now_ms c tp) as H. cbv zeta in H. destruct H as (_ & Ha & Hl & Hr').
  destruct (forget_ids (x_cid c) m (Hm m Hc)) as (_ & Hg & _). destruct (Hg Hmr) as [Hmr' Hnone].
  unfold world_up, gone, db_of, ids_of. cbn [gw_pins gw_transit gw_core]. rewrite Htp, Hc. simpl.
  split_and!; [by auto|by eauto|by eauto| | |done| |lia|done|done].
  - rewrite Hpp. set_solver.
  - destruct Ha as [->|[_ []]]; [|done]. apply lookup_delete_eq.
  - by destruct Hl as [->|[_ []]].
Qed.

Lemma executor_up now_ms cs st :
  world_inv st.2 → world_up st.2 →
  let '(r', w') := foldl (λ st c, collect_one now_ms c st) st cs in
  world_up w' ∧ (∀ c, c ∈ x_cid <$> cs → gone c w') ∧
  gc_audit_log (db_of w') = gc_audit_log (db_of st.2) ++ (audit_row now_ms <$> cs) ∧
  unpinned r' = (unpinned st.1 + length cs)%nat ∧ failed r' = failed st.1 ∧ errors r' = errors st.1.
Proof.
  revert st. induction cs as [|c cs IH]; intros [r w] Hi Hup.
  { simpl. split_and!; [done|set_solver|by rewrite app_nil_r|lia|done|done]. }
  cbn [foldl]. pose proof (collect_one_up now_ms c r w Hi Hup) as H1.
  pose proof (collect_one_touches now_ms c r w Hi) as [Hi1 _].
  destruct (collect_one now_ms c (r, w)) as [r1 w1] eqn:E. cbn [fst snd] in *.
  destruct H1 as (Hup1 & Hg1 & Ha1 & Hu1 & Hf1 & He1).
  specialize (IH (r1, w1) Hi1 Hup1). pose proof (executor_touches now_ms cs (r1, w1) Hi1) as (_ & _ & _ & _ & Hk).
  destruct (foldl _ (r1, w1) cs) as [r2 w2]. cbn [fst snd] in *.
  destruct IH as (Hup2 & Hg2 & Ha2 & Hu2 & Hf2 & He2). split_and!; [done| | |simpl; lia|congruence..].
  - intros d. destruct (decide (d ∈ x_cid <$> cs)) as [?|Hd]; [by auto|].
    rewrite fmap_cons, elem_of_cons. intros [->|?]; [|done]. by eapply kept_gone; [apply Hk|].
  - by rewrite Ha2, Ha1, <- app_assoc.
Qed.

(** ** A tick *)

Lemma candidates_fn_ok policy grace_ms now w :
  world_inv w → keys_ok (articles (db_of w)) →
  let '(cs, w1) := candidates_fn policy grace_ms now w in
  touches [] w w1 ∧ db_of w1 = db_of w ∧
  (∀ c, c ∈ cd_cid <$> cs → expired policy now grace_ms (db_of w) c) ∧
  (world_up w → world_up w1 ∧ NoDup (cd_cid <$> cs) ∧
     ∀ c, expired policy now grace_ms (db_of w) c → c ∈ cd_cid <$> cs).
Proof.
  intros Hi Hk. unfold candidates_fn. destruct (gw_transit w) as [tp|] eqn:Etp.
  2:{ split_and!; [by apply touches_refl|done|set_solver|]. intros (_ & (? & ? & _) & _). congruence. }
  assert (Hdb : db_of w = rows tp) by (unfold db_of; by rewrite Etp). rewrite Hdb in Hk.
  pose proof (select_gc_candidates_ok policy now grace_ms tp Hk) as H. unfold db_outcome in H.
  assert (Ht : ∀ tp', rows tp' = rows tp → touches [] w (mkGcWorld (gw_pins w) (Some tp') (gw_core w))).
  { intros tp' Heq. unfold touches, kept, db_of, world_inv. rewrite Etp. simpl. rewrite Heq.
    split_and!; [by apply Hi|by apply Hi|done|done|exists []; by rewrite app_nil_r|done]. }
  rewrite Hdb. destruct (select_gc_candidates policy now grace_ms tp) as [[cs|e] tp'].
  - destruct H as (Hr & Heq & Hnd & Hcs).
    assert (Hmap : cd_cid <$> (from_record <$> cs) = rec_cid <$> cs) by (by rewrite <- list_fmap_compose).
    rewrite Hmap. split_and!; [by apply Ht|done|by intros; apply Hcs|].
    intros (Hup & (tp0 & H0 & Hr0) & Hm). rewrite Etp in H0. injection H0 as <-.
    split_and!; [split_and!; [done|by eauto|done]|done|by intros; apply Hcs].
  - destruct H as (Hr & Heq & [[]|Hn]). split_and!; [by apply Ht|done|set_solver|].
    intros (Hup & (tp0 & H0 & Hr0) & Hm). rewrite Etp in H0. by injection H0 as <-.
Qed.

Lemma exec_cids (cs : list GcCandidate) : x_cid <$> (exec_candidate <$> cs) = cd_cid <$> cs.
Proof. by rewrite <- list_fmap_compose. Qed.

(** The articles a tick touches are all expired. *)
Lemma gc_tick_touches policy grace_ms tk (d : GcDaemon) :
  world_inv (gd_world d) → keys_ok (articles (db_of (gd_world d))) →
  ∃ C, touches C (gd_world d) (gd_world (gc_tick policy grace_ms tk d)) ∧
    ∀ c, c ∈ C → expired policy (tk_select_now_ms tk) grace_ms (db_of (gd_world d)) c.
Proof.
  intros Hi Hk. unfold gc_tick. destruct (try_gc_lock _ _) as [[] lock].
  2:{ exists []. split; [by apply touches_refl|set_solver]. }
  pose proof (candidates_fn_ok policy grace_ms (tk_select_now_ms tk) (gd_world d) Hi Hk) as H.
  destruct (candidates_fn _ _ _ _) as [cs w1]. destruct H as (Ht1 & Hdb & Hcs & _).
  unfold run_once, run_gc_executor.
  pose proof (executor_touches (tk_now_ms tk) (exec_candidate <$> cs) (default_result, w1) (proj1 Ht1)) as Ht2.
  destruct (foldl _ _ _) as [res w2]. simpl in *. rewrite exec_cids in Ht2.
  exists (cd_cid <$> cs). split; [|done]. eapply touches_trans; [|exact Ht2].
  eapply touches_weaken; [|exact Ht1]. set_solver.
Qed.

(** C14. Garbage collection never takes a retained article.  Whatever fails during
    a tick (any statement of either database, any call to the pin client, the
    lock), an article that the operator pinned, that is within the grace period,
    that the policy wants, or that is not in the table is left alone: it is
    pinned exactly if it was, its row is as it was and the same Message-IDs map
    to it.  The operator's pins do not change, the audit log only grows, and the
    invariant the next tick needs is kept. *)
Theorem gc_keeps_retained (policy : PinPolicy) (grace_ms : Z) (tk : TickReadings) (d : GcDaemon) :
  let w := gd_world d in
  let w' := gd_world (gc_tick policy grace_ms tk d) in
  world_inv w → keys_ok (articles (db_of w)) →
  (∀ c, ¬ expired policy (tk_select_now_ms tk) grace_ms (db_of w) c → kept c w w') ∧
  pinned_cids (db_of w') = pinned_cids (db_of w) ∧
  gc_audit_log (db_of w) `prefix_of` gc_audit_log (db_of w') ∧
  world_inv w' ∧ keys_ok (articles (db_of w')).
Proof.
  intros w w' Hi Hk.
  destruct (gc_tick_touches policy grace_ms tk d Hi Hk) as (C & (Hi' & Ho & Hs & (n & Ha & _) & Hkept) & HC).
  split_and!; [by auto|done|by exists n|done|].
  intros k row Hr. by eapply Hk, lookup_weaken.
Qed.

(** Garbage collection takes every expired article.  When the pin client and
    the two databases answer and the lock is obtained, one tick leaves every
    expired article unpinned, without a row and with no Message-ID mapping to it
    (so that it can be offered again), writes exactly one audit record for each,
    and reports their number and no error. *)
Theorem gc_collects_expired (policy : PinPolicy) (grace_ms : Z) (tk : TickReadings) (d : GcDaemon) :
  let w := gd_world d in
  let d' := gc_tick policy grace_ms tk d in
  let w' := gd_world d' in
  world_inv w → keys_ok (articles (db_of w)) → world_up w →
  (try_gc_lock (gd_lock d) (tk_acquire tk)).1 = true →
  (∀ c, expired policy (tk_select_now_ms tk) grace_ms (db_of w) c → gone c w') ∧
  ∃ cs rp, NoDup cs ∧ (∀ c, c ∈ cs ↔ expired policy (tk_select_now_ms tk) grace_ms (db_of w) c) ∧
    (au_cid <$> gc_audit_log (db_of w')) = (au_cid <$> gc_audit_log (db_of w)) ++ (cid_to_string <$> cs) ∧
    last_report (gd_runner d') = Some rp ∧ articles_deleted rp = length cs ∧ rp_errors rp = [].
Proof.
  intros w d' w' Hi Hk Hup Hl. subst d' w'. unfold gc_tick.
  destruct (try_gc_lock _ _) as [b lock]. simpl in Hl. subst b.
  pose proof (candidates_fn_ok policy grace_ms (tk_select_now_ms tk) w Hi Hk) as H. fold w.
  destruct (candidates_fn _ _ _ _) as [cs w1]. destruct H as (Ht1 & Hdb & Hcs & Hrest).
  destruct (Hrest Hup) as (Hup1 & Hnd & Hall). unfold run_once, run_gc_executor.
  pose proof (executor_up (tk_now_ms tk) (exec_candidate <$> cs) (default_result, w1) (proj1 Ht1) Hup1) as H2.
  destruct (foldl _ _ _) as [res w2]. simpl in *. rewrite exec_cids in H2.
  destruct H2 as (_ & Hg & Ha & Hu & _ & He). split; [by auto|].
  exists (cd_cid <$> cs). eexists. split_and!; [done|split; auto| |done| |done].
  - rewrite Ha, Hdb, fmap_app. f_equal. by rewrite <- !list_fmap_compose.
  - simpl. by rewrite Hu, !length_fmap.
Qed.

(** ** The daemon's configuration *)

(** With the one rule the daemon knows and the grace period of the same length,
    an article that is not pinned by the operator is kept for one day more than
    the configured age, the last day being counted in full. *)
Lemma retained_pin_all (max_age now_ms : Z) (t : TransitDb) (k : bytes) (row : ArticleRow) :
  0 <= max_age <= 36500 → 0 <= art_ingested_at_ms row <= now_ms → now_ms <= i64_max →
  group_names (group (row_meta now_ms row)) ≠ [] →
  retained (mkPolicy (pin_rules max_age [lit "pin-all"])) now_ms (grace_period_ms max_age) t k row ↔
  k ∈ pinned_cids t ∨ now_ms - art_ingested_at_ms row < (max_age + 1) * MS_PER_DAY.
Proof.
  intros Hd Hi Hn Hg. unfold retained.
  change (pin_rules max_age [lit "pin-all"]) with [pin_all max_age].
  rewrite should_pin_all by done. unfold row_meta, grace_period_ms, as_i64, saturating_sub, MS_PER_DAY.
  cbn [age_days]. rewrite Z.leb_le. unfold wrapping_u64, i64_max, u64_max in *.
  rewrite (Z.mod_small (art_ingested_at_ms row)) by lia.
  rewrite (proj2 (Z.leb_le _ _)) by lia. Z.div_mod_to_equations. split; intros [?|?]; lia || tauto || (right; lia).
Qed.

(** ** The advisory lock *)

(** PostgreSQL's documentation: the lock is held by a session and counted; a
    session that does not hold it can neither take nor release it. *)
Class AdvisoryLaws := {
  holder : L → option (Conn * nat);
  try_free c l : holder l = None →
    ∃ l', pg_try_advisory_lock c l = (true, l') ∧ holder l' = Some (c, 1%nat);
  try_other c d n l : holder l = Some (d, n) → c ≠ d → pg_try_advisory_lock c l = (false, l);
  unlock_own c n l : holder l = Some (c, S n) →
    ∃ l', pg_advisory_unlock c l = (true, l') ∧
      holder l' = match n with O => None | S _ => Some (c, n) end;
  unlock_other c d n l : holder l = Some (d, n) → c ≠ d → pg_advisory_unlock c l = (false, l)
}.

Context {pglaws : AdvisoryLaws}.

Lemma gc_tick_lock policy grace_ms tk (d : GcDaemon) :
  gd_lock (gc_tick policy grace_ms tk d) =
  match try_gc_lock (gd_lock d) (tk_acquire tk) with
  | (false, l) => l
  | (true, l) => release_gc_lock l (tk_release tk)
  end.
Proof.
  unfold gc_tick, run_once. destruct (try_gc_lock _ _) as [[] l]; [|done].
  destruct (candidates_fn _ _ _ _). by destruct (run_gc_executor _ _ _).
Qed.

(** Taken and released over the same connection, the lock is free again. *)
Lemma same_connection_releases policy grace_ms tk (d : GcDaemon) l c :
  gd_lock d = Some l → holder l = None → tk_acquire tk = Some c → tk_release tk = Some c →
  ∃ l', gd_lock (gc_tick policy grace_ms tk d) = Some l' ∧ holder l' = None.
Proof.
  intros Hl Hf Ha Hr. rewrite gc_tick_lock, Hl, Ha, Hr. simpl.
  destruct (try_free c l Hf) as (l1 & -> & Hh). simpl.
  destruct (unlock_own c 0 l1 Hh) as (l2 & -> & Hh2). eauto.
Qed.

(** The collector can lock itself out.  The two lock statements go to the pool,
    which may lend each another connection, but the lock belongs to the session
    that took it.  When one tick takes it over connection [a] and releases it
    over [b], it stays taken, and every later tick to which the pool lends any
    other connection than [a] does nothing. *)
Theorem lock_leaks policy grace_ms tk (tks : list TickReadings) (d : GcDaemon) l a b :
  gd_lock d = Some l → holder l = None →
  tk_acquire tk = Some a → tk_release tk = Some b → b ≠ a →
  Forall (λ t, tk_acquire t ≠ Some a) tks →
  let d' := gc_tick policy grace_ms tk d in
  (∃ l', gd_lock d' = Some l' ∧ holder l' = Some (a, 1%nat)) ∧
  foldl (λ d t, gc_tick policy grace_ms t d) d' tks = d'.
Proof.
  intros Hl Hf Ha Hb Hne Htks d'.
  assert (∃ l', gd_lock d' = Some l' ∧ holder l' = Some (a, 1%nat)) as (l' & Hl' & Hh).
  { subst d'. rewrite gc_tick_lock, Hl, Ha, Hb. simpl. destruct (try_free a l Hf) as (l1 & -> & Hh).
    simpl. exists l1. by rewrite (unlock_other b a 1 l1) by done. }
  split; [by eauto|]. clearbody d'. induction Htks as [|t tks Ht _ IH]; [done|]. simpl.
  assert (gc_tick policy grace_ms t d' = d') as ->; [|done].
  unfold gc_tick. rewrite Hl'. destruct (tk_acquire t) as [c|]; simpl.
  - rewrite (try_other c a 1 l') by congruence. rewrite <- Hl'. by destruct d'.
  - rewrite <- Hl'. by destruct d'.
Qed.

End Gc.

(** ** Concrete runs *)

Module RetentionSamples.
Import ToyCrypto LogEntry.Samples SqlSamples MsgIdMap.MsgIdSamples.

(** A lock that knows its holder. *)
#[export] Instance toy_lock : AdvisoryLock (option (nat * nat)) := {|
  Conn := nat;
  pg_try_advisory_lock c l :=
    match l with
    | None => (true, Some (c, 1%nat))
    | Some (d, n) => if (c =? d)%nat then (true, Some (d, S n)) else (false, l)
    end;
  pg_advisory_unlock c l :=
    match l with
    | Some (d, S n) => if (c =? d)%nat
                       then (true, match n with O => None | S _ => Some (d, n) end) else (false, l)
    | _ => (false, l)
    end
|}.

#[export] Instance toy_lock_laws : AdvisoryLaws (L := option (nat * nat)).
Proof.
  refine {| holder := (λ l, l) : option (nat * nat) → option (Conn (L := option (nat * nat)) * nat) |}.
  - intros c l ->. simpl. eauto.
  - intros c d n l -> Hne. simpl. by rewrite (proj2 (Nat.eqb_neq c d)).
  - intros c n l ->. simpl. rewrite Nat.eqb_refl. eauto.
  - intros c d n l -> Hne. simpl. destruct n; [done|]. by rewrite (proj2 (Nat.eqb_neq c d)).
Defined.

Definition now0 : Z := 40 * MS_PER_DAY.

(** Two articles of the same group, 39 and 3 days old; one rule keeps 30 days. *)
Definition db0 : TransitDb :=
  mkTransit (<[ cid_to_string cid_a := mkArticleRow (lit "comp.lang.rust") MS_PER_DAY 100 ]>
              (<[ cid_to_string cid_q := mkArticleRow (lit "comp.lang.rust") (37 * MS_PER_DAY) 200 ]> ∅))
    ∅ [].

Definition pins0 : MemPinClient := mkMemPin {[ cid_to_string cid_a; cid_to_string cid_q ]} None 0.
Definition ids0 : Pool (gmap bytes bytes) := mkPool {[ mid1 := cid_to_bytes cid_a ]} [].
Definition world0 := mkGcWorld pins0 (Some (mkPool db0 [])) (Some ids0).
Definition policy0 : PinPolicy := mkPolicy (pin_rules 30 [lit "pin-all"]).
Definition grace0 : Z := grace_period_ms 30.
Definition daemon0 : GcDaemon (L := option (nat * nat)) :=
  mkGcDaemon (mkRunner policy0 0 0 None) world0 None.
Definition tick0 : TickReadings (L := option (nat * nat)) :=
  mkTickReadings None None now0 now0 (mkRunReadings (lit "run-1") 5 now0).

Lemma world0_inv : world_inv world0.
Proof.
  split.
  - intros k. cbn [pinned_strings pins0 gw_pins world0]. rewrite elem_of_union, !elem_of_singleton.
    intros [->| ->]; [by exists cid_a|by exists cid_q].
  - intros m [= <-] mid b H. cbn [rows ids0] in H. apply lookup_singleton_Some in H as [_ <-]. by exists cid_a.
Qed.

Lemma world0_keys : keys_ok (articles (db_of world0)).
Proof.
  intros k row H. cbn [db_of world0 gw_transit from_option rows db0 articles] in H.
  apply lookup_insert_Some in H as [[<- _]|[_ [[<- _]|[_ H]]%lookup_insert_Some]];
    [by exists cid_a|by exists cid_q|].
  by rewrite lookup_empty in H.
Qed.

Lemma world0_up : world_up world0.
Proof. split_and!; [done|eexists; split; [done|apply Forall_nil_2]..]. Qed.

Lemma expired_a : expired policy0 now0 grace0 db0 cid_a.
Proof.
  exists (mkArticleRow (lit "comp.lang.rust") MS_PER_DAY 100). split; [vm_refl|].
  unfold policy0, grace0. rewrite retained_pin_all; [|vm_compute; split; discriminate..| |].
  - intros [H|H]; [by apply not_elem_of_empty in H|vm_compute in H; discriminate H].
  - vm_compute. discriminate.
  - vm_compute. discriminate.
Qed.

Lemma retained_q : ¬ expired policy0 now0 grace0 db0 cid_q.
Proof.
  intros (row & Hr & Hn). apply Hn.
  assert (row = mkArticleRow (lit "comp.lang.rust") (37 * MS_PER_DAY) 200) as ->.
  { assert (H : articles db0 !! cid_to_string cid_q =
                Some (mkArticleRow (lit "comp.lang.rust") (37 * MS_PER_DAY) 200)) by vm_refl. congruence. }
  right; left. vm_compute. discriminate.
Qed.

Lemma gc_keeps_retained_witness :
  kept cid_q world0 (gd_world (gc_tick policy0 grace0 tick0 daemon0)).
Proof.
  destruct (gc_keeps_retained policy0 grace0 tick0 daemon0 world0_inv world0_keys) as [H _].
  exact (H cid_q retained_q).
Defined.

Lemma gc_collects_expired_witness :
  gone cid_a (gd_world (gc_tick policy0 grace0 tick0 daemon0)).
Proof.
  destruct (gc_collects_expired policy0 grace0 tick0 daemon0 world0_inv world0_keys world0_up eq_refl)
    as [H _]. exact (H cid_a expired_a).
Defined.

(** The same daemon on PostgreSQL: the pool lends connection 1, then 2. *)
Definition daemon_pg : GcDaemon (L := option (nat * nat)) :=
  mkGcDaemon (mkRunner policy0 0 0 None) world0 (Some None).
Definition tick_on (a b : nat) : TickReadings (L := option (nat * nat)) :=
  mkTickReadings (Some a) (Some b) now0 now0 (mkRunReadings (lit "run-1") 5 now0).

Lemma lock_leaks_witness :
  let d := gc_tick policy0 grace0 (tick_on 1 2) daemon_pg in
  foldl (λ d t, gc_tick policy0 grace0 t d) d [tick_on 2 1; tick_on 3 3] = d.
Proof.
  refine (proj2 (lock_leaks policy0 grace0 (tick_on 1 2) [tick_on 2 1; tick_on 3 3] daemon_pg
    None 1%nat 2%nat eq_refl eq_refl eq_refl eq_refl _ _)).
  - discriminate.
  - repeat constructor; discriminate.
Defined.

End RetentionSamples.

End Retention.
