(* ===== verification/Drain.v ===== *)
(** The drain tasks of the transit daemon, [crates/transit/src/main.rs]: one
    pipeline run with its follow-up work ([run_pipeline_and_notify]), the loop
    that empties the ingestion queue, and the staging workers of [Staging] run
    with the real pipeline.

    This is where the session's checks, the queue, the staging area, the clock
    and the pipeline meet.  The theorems follow an article through them: what was
    ingested is refused as a duplicate from then on; a header line that makes the
    pipeline's scan panic ends the task that drains the queue; and a repeated run
    whose database fails takes the stored block away. *)

From S2P Require Import Prelude Bytes Utf8 Sql Hlc Wildmat Article Headers Crypto BlockStore LogEntry LogStorage MsgIdMap Ingest IngestQueue Pipeline Staging.
From S2P Require Import MemStorage SqliteStorage AppendTips.

Module Drain.
Import Utf8 Sql Hlc Wildmat Article Headers BlockStore LogEntry LogStorage MsgIdMap Ingest Pipeline.

(** A row of [remote_pin_jobs(cid, service_name, ..., UNIQUE (cid, service_name))];
    the other columns keep their defaults here. *)
Record PinJob := mkPinJob { pj_cid : bytes; pj_service_name : bytes }.

#[export] Instance pin_job_eq_dec : EqDecision PinJob.
Proof. solve_decision. Defined.

(** [INSERT ... ON CONFLICT DO NOTHING]. *)
Definition insert_pin_job (j : PinJob) (t : list PinJob) : list PinJob :=
  if bool_decide (j ∈ t) then t else t ++ [j].

Section Drain.
Context {lib : CidLib} {siglib : SigLib}.

Record IpnsEvent := mkIpnsEvent { ev_group : bytes; ev_cid : Cid }.

Section Run.
Context {I M S V X : Type} {ipfs : IpfsStore I} {mids : MsgIdStore M} {store : LogStorage S}.
(** [Sender::try_send] of the IPNS channel: whether there was room. *)
Context (ipns_try_send : IpnsEvent → X → bool * X).

Fixpoint publish_groups (cid : Cid) (groups : list bytes) (tx : X) : X :=
  match groups with
  | [] => tx
  | group :: groups' =>
      let '(_, tx') := ipns_try_send (mkIpnsEvent group cid) tx in
      publish_groups cid groups' tx'
  end.

Definition publish_ipns_tip (result : PipelineResult) (ipns_tx : option X) : option X :=
  match ipns_tx with
  | Some tx => Some (publish_groups (res_cid result) (res_groups result) tx)
  | None => None
  end.

Definition should_pin (filter : GroupPolicy) (groups : list bytes) : bool :=
  match filter with
  | None => true
  | Some f => existsb (accepts f) groups
  end.

Fixpoint pin_services (cid_str : bytes) (groups : list bytes) (fs : list (bytes * GroupPolicy))
    (pool : Pool (list PinJob)) : Pool (list PinJob) :=
  match fs with
  | [] => pool
  | (svc_name, filter) :: fs' =>
      let pool' :=
        if should_pin filter groups
        then (execute (insert_pin_job (mkPinJob cid_str svc_name)) pool).2
        else pool in
      pin_services cid_str groups fs' pool'
  end.

Definition enqueue_pin_jobs (result : PipelineResult) (pin_service_filters : list (bytes * GroupPolicy))
    (pool : Pool (list PinJob)) : Pool (list PinJob) :=
  match pin_service_filters with
  | [] => pool
  | _ => pin_services (cid_to_string (res_cid result)) (res_groups result) pin_service_filters pool
  end.

(** The fields of [PipelineArgs] that are not stores or channels. *)
Record PipelineArgs := mkArgs {
  pa_signing_key : SigningKey;
  pa_local_hostname : bytes;
  pa_verify : option (bytes → Cid → V → V);
  pa_group_filter : GroupPolicy;
  pa_pin_service_filters : list (bytes * GroupPolicy)
}.

(** The clock readings of one run: [SystemTime::now()] for the timestamp and for
    the articles table, in ms since the epoch ([None] before it), and the time
    the block write took. *)
Record Readings := mkReadings { rd_now : option Z; rd_clock : option Z; rd_elapsed_ms : Z }.

(** What a drain task works on; [d_runs] counts the runs. *)
Record Daemon := mkDaemon {
  d_hlc : HlcClock;
  d_node : @World I M S V;
  d_ipns : option X;
  d_pin_jobs : Pool (list PinJob);
  d_runs : nat
}.

Definition run_pipeline_and_notify (args : PipelineArgs) (rd : Readings) (data : bytes) :
    prog Daemon Panic Staging.PipelineOutcome := λ d,
  let now_ms := wrapping_u64 (default 0 (rd_now rd)) in
  let '(timestamp, hlc) := send (d_hlc d) now_ms in
  let ctx := mkCtx _ timestamp (pa_signing_key args) (pa_local_hostname args) (pa_verify args)
               (pa_group_filter args) in
  let '(r, node) := run_pipeline ctx (rd_clock rd) (rd_elapsed_ms rd) data (d_node d) in
  let d' ipns pins := mkDaemon hlc node ipns pins (Datatypes.S (d_runs d)) in
  match r with
  | Ok (result, _) =>
      (Ok Staging.Success,
       d' (publish_ipns_tip result (d_ipns d))
          (enqueue_pin_jobs result (pa_pin_service_filters args) (d_pin_jobs d)))
  | Err (Failed (Permanent _)) => (Ok Staging.PermanentFailure, d' (d_ipns d) (d_pin_jobs d))
  | Err (Failed (Transient _)) => (Ok Staging.TransientFailure, d' (d_ipns d) (d_pin_jobs d))
  | Err (Panicked p) => (Err p, d' (d_ipns d) (d_pin_jobs d))
  end.

(** The keys and the group filter are read anew for every article. *)
Context (args_at : nat → PipelineArgs) (readings_at : nat → Readings).

Definition run_next (data : bytes) : prog Daemon Panic Staging.PipelineOutcome := λ d,
  run_pipeline_and_notify (args_at (d_runs d)) (readings_at (d_runs d)) data d.

(** The ingestion drain task on the articles [recv] hands it.  A panic unwinds
    the task: no later article is received. *)
Fixpoint ingestion_drain (articles : list IngestQueue.QueuedArticle) : prog Daemon Panic () :=
  match articles with
  | [] => mret tt
  | article :: articles' =>
      _ ← run_next (IngestQueue.qa_bytes article);
      ingestion_drain articles'
  end.

(** What the staging worker runs for an article. *)
Definition staging_run (a : Staging.StagedArticle) (d : Daemon) :
    result Panic Staging.PipelineOutcome * Daemon :=
  run_next (Staging.sa_bytes a) d.

End Run.

(** ** What runs leave behind *)

Section RunSpec.
Context {I M S V X : Type} {ipfs : IpfsStore I} {mids : MsgIdStore M} {store : LogStorage S}.
Context {iview : BlockView I} {mview : MsgIdView M} {ilaws : IpfsLaws I} {mlaws : MsgIdLaws M}.
Context (ipns_try_send : IpnsEvent → X → bool * X).
Context (args_at : nat → PipelineArgs (V := V)) (readings_at : nat → Readings).

Abbreviation Node := (@World I M S V) (only parsing).
Abbreviation Daemon' := (@Daemon I M S V X) (only parsing).
Abbreviation run := (run_next ipns_try_send args_at readings_at).
Abbreviation drain := (ingestion_drain ipns_try_send args_at readings_at).

(** Mappings are only ever added, and stay readable. *)
Definition keeps (m m' : M) : Prop :=
  msgid_inv m' ∧ (msgid_reliable m → msgid_reliable m') ∧ msgids m ⊆ msgids m'.

Lemma keeps_refl m : msgid_inv m → keeps m m.
Proof. by unfold keeps. Qed.

Lemma keeps_trans m1 m2 m3 : keeps m1 m2 → keeps m2 m3 → keeps m1 m3.
Proof. intros (_ & Hr & Hs) (Hi & Hr' & Hs'). unfold keeps. split_and!; [done|auto|by etrans]. Qed.

(** The steps after the Message-ID insert leave the map alone and do not
    panic. *)
Lemma finish_msgids (ctx : PipelineCtx V) cid mid names clock n elapsed (w : Node) r w' :
  (appended_groups ← on_log (append_groups (timestamp _ ctx) (operator_signing_key _ ctx)
                               (group_filter _ ctx) cid names);
   _ ← on_articles (upsert_article (cid_to_string cid) mid clock n);
   mret (mkResult cid (fst <$> appended_groups), mkMetrics 1 elapsed)) w = (r, w') →
  w_msgids w' = w_msgids w ∧ ∀ p, r ≠ Err (Panicked p).
Proof.
  unfold mbind, mret, prog_bind, prog_ret, on_log, on_articles.
  destruct (append_groups _ _ _ _ _ _) as [[gs|e] s]; cbn [map_err]; [|intros [= <- <-]; done].
  destruct (execute _ _) as [[[]|[]] p]; cbn [map_err]; intros [= <- <-]; done.
Qed.

(** One run: a success maps the Message-ID the scan found, a panic is the
    scan's. *)
Lemma run_pipeline_msgids (ctx : PipelineCtx V) clock elapsed article (w : Node) r w' :
  let data := prepend_path_header article (local_hostname _ ctx) in
  msgid_inv (w_msgids w) → run_pipeline ctx clock elapsed article w = (r, w') →
  keeps (w_msgids w) (w_msgids w') ∧
  match r with
  | Ok _ => ∃ mid names, parse_message_id_and_newsgroups data = Ok (Some (mid, names)) ∧
      msgids (w_msgids w') !! mid = Some (raw_cid data)
  | Err (Panicked p) => parse_message_id_and_newsgroups data = Err p
  | Err (Failed _) => True
  end.
Proof.
  intros data Hi. unfold run_pipeline. cbv zeta. fold data. pose proof (keeps_refl _ Hi) as Hk.
  unfold mbind at 1, prog_bind at 1, on_ipfs. pose proof (put_raw_ok data (w_ipfs w)) as Hput.
  destruct (put_raw data (w_ipfs w)) as [[cid|e] i1]; cbn [map_err]; [|by intros [= <- <-]].
  assert (cid = raw_cid data) as -> by apply Hput. clear Hput.
  unfold mbind at 1, prog_bind at 1, record_verification.
  unfold mbind at 1, prog_bind at 1, lift. cbn [w_ipfs w_msgids w_log w_articles w_verify].
  destruct (parse_message_id_and_newsgroups data) as [[[mid names]|]|p]; cbn [map_err];
    [|by intros [= <- <-]|by intros [= <- <-]].
  unfold mbind at 1, prog_bind at 1, insert_msgid. cbn [w_ipfs w_msgids w_log w_articles w_verify].
  pose proof (msgid_insert_ok mid (raw_cid data) (w_msgids w) Hi) as Hins. unfold msgid_outcome in Hins.
  destruct (msgid_insert mid (raw_cid data) (w_msgids w)) as [[[]|e] m1].
  - destruct Hins as (Hi1 & Hr1 & Hm1 & Hold). intros [Hm Hnp]%finish_msgids. cbn [w_msgids] in Hm.
    rewrite Hm. split.
    + unfold keeps. split_and!; [done|done|]. rewrite Hm1. destruct Hold as [Hn|Hs]; [by apply insert_subseteq|].
      by rewrite insert_id.
    + destruct r as [res|[e|p]]; [|done|by destruct (Hnp p)]. exists mid, names. split; [done|].
      by rewrite Hm1, lookup_insert_eq.
  - destruct Hins as (Hi1 & Hr1 & Hm1 & _). destruct (delete_block _ i1) as [? i2].
    intros [= <- <-]. cbn [w_msgids]. split; [|done]. unfold keeps. by rewrite Hm1.
Qed.

(** The same of a run of the daemon. *)
Lemma run_next_msgids article (d : Daemon') r d' :
  let data := prepend_path_header article (pa_local_hostname (args_at (d_runs d))) in
  msgid_inv (w_msgids (d_node d)) → run article d = (r, d') →
  keeps (w_msgids (d_node d)) (w_msgids (d_node d')) ∧
  match r with
  | Ok Staging.Success => ∃ mid names, parse_message_id_and_newsgroups data = Ok (Some (mid, names)) ∧
      msgids (w_msgids (d_node d')) !! mid = Some (raw_cid data)
  | Ok _ => True
  | Err p => parse_message_id_and_newsgroups data = Err p
  end.
Proof.
  intros data Hi. unfold run_next, run_pipeline_and_notify. destruct (send _ _) as [ts hlc].
  destruct (run_pipeline _ _ _ _ _) as [r0 node] eqn:E.
  destruct (run_pipeline_msgids _ _ _ _ _ _ _ Hi E) as [Hk Hr]. cbn [local_hostname] in Hr. fold data in Hr.
  destruct r0 as [[res met]|[[?|?]|p]]; by intros [= <- <-].
Qed.

Lemma drain_msgids articles (d : Daemon') r d' :
  msgid_inv (w_msgids (d_node d)) → drain articles d = (r, d') →
  keeps (w_msgids (d_node d)) (w_msgids (d_node d')).
Proof.
  revert d. induction articles as [|a articles IH]; intros d Hi; cbn [ingestion_drain].
  { intros [= <- <-]. by apply keeps_refl. }
  unfold mbind, prog_bind. destruct (run _ d) as [[o|p] d1] eqn:E;
    destruct (run_next_msgids _ _ _ _ Hi E) as [Hk _].
  - intros H. eapply keeps_trans; [done|]. apply (IH d1); [apply Hk|done].
  - by intros [= <- <-].
Qed.

(** Only the header scan panics. *)
Lemma run_pipeline_panic (ctx : PipelineCtx V) clock elapsed article (w : Node) p :
  (run_pipeline ctx clock elapsed article w).1 = Err (Panicked p) →
  parse_message_id_and_newsgroups (prepend_path_header article (local_hostname _ ctx)) = Err p.
Proof.
  unfold run_pipeline. cbv zeta. set (data := prepend_path_header _ _).
  unfold mbind at 1, prog_bind at 1, on_ipfs.
  destruct (put_raw data (w_ipfs w)) as [[cid|e] i1]; cbn [map_err fst]; [|done].
  unfold mbind at 1, prog_bind at 1, record_verification.
  unfold mbind at 1, prog_bind at 1, lift. cbn [w_ipfs w_msgids w_log w_articles w_verify].
  destruct (parse_message_id_and_newsgroups data) as [[[mid names]|]|q]; cbn [map_err fst];
    [|done|congruence].
  unfold mbind at 1, prog_bind at 1, insert_msgid.
  destruct (msgid_insert _ _ _) as [[[]|e] m1]; [|by destruct (delete_block cid _)].
  match goal with |- fst ?x = _ → _ => destruct x as [r w'] eqn:E end.
  apply finish_msgids in E as [_ Hnp]. intros Hr. by destruct (Hnp p).
Qed.

(** The condition on the staged bytes under which [Staging]'s worker survives:
    the pipeline's scan of them does not panic. *)
Lemma staging_run_returns host a (d : Daemon') :
  (∀ n, pa_local_hostname (args_at n) = host) →
  is_ok (parse_message_id_and_newsgroups (prepend_path_header (Staging.sa_bytes a) host)) = true →
  ∃ o d', staging_run ipns_try_send args_at readings_at a d = (Ok o, d').
Proof.
  intros Hhost Hok. unfold staging_run, run_next, run_pipeline_and_notify.
  destruct (send _ _) as [ts hlc]. destruct (run_pipeline _ _ _ _ _) as [r node] eqn:E.
  destruct r as [[res met]|[[?|?]|p]]; [eauto..|].
  apply (f_equal fst), run_pipeline_panic in E. cbn [local_hostname] in E.
  by rewrite Hhost in E; rewrite E in Hok.
Qed.

(** *** What happens between two offers *)

(** A run of a drain task, or the garbage collector's deletion of a CID's rows
    from the Message-ID map. *)
Inductive Meanwhile := Drained (a : IngestQueue.QueuedArticle) | Collected (c : Cid).

Definition collect (c : Cid) (d : Daemon') : Daemon' :=
  let w := d_node d in
  mkDaemon (d_hlc d)
    (mkWorld (w_ipfs w) (delete_by_cid c (w_msgids w)).2 (w_log w) (w_articles w) (w_verify w))
    (d_ipns d) (d_pin_jobs d) (d_runs d).

Definition meanwhile (d : Daemon') (e : Meanwhile) : Daemon' :=
  match e with Drained a => (run (IngestQueue.qa_bytes a) d).2 | Collected c => collect c d end.

Lemma collect_msgids c (d : Daemon') :
  msgid_inv (w_msgids (d_node d)) →
  msgid_inv (w_msgids (d_node (collect c d))) ∧
  (msgid_reliable (w_msgids (d_node d)) → msgid_reliable (w_msgids (d_node (collect c d))) ∧
     ∀ mid, msgids (w_msgids (d_node (collect c d))) !! mid ≠ Some c) ∧
  ∀ mid c', c' ≠ c →
    msgids (w_msgids (d_node (collect c d))) !! mid = Some c' ↔ msgids (w_msgids (d_node d)) !! mid = Some c'.
Proof.
  intros Hi. unfold collect. cbn [d_node w_msgids]. pose proof (delete_by_cid_ok c _ Hi) as H. unfold msgid_outcome in H.
  destruct (delete_by_cid c (w_msgids (d_node d))) as [[[]|e] m']; cbn [snd].
  - destruct H as (Hi' & Hr & Hm). split_and!; [done| |].
    + intros Hu. split; [auto|]. intros mid. rewrite Hm. by case_decide.
    + intros mid c' Hne. rewrite Hm. case_decide; [naive_solver|done].
  - destruct H as (Hi' & Hr & -> & [[]|?]). by split_and!.
Qed.

Lemma meanwhile_msgids mid c later (d : Daemon') :
  msgid_inv (w_msgids (d_node d)) → msgids (w_msgids (d_node d)) !! mid = Some c → Collected c ∉ later →
  let d' := foldl meanwhile d later in
  msgid_inv (w_msgids (d_node d')) ∧ msgids (w_msgids (d_node d')) !! mid = Some c.
Proof.
  revert d. induction later as [|e later IH]; intros d Hi Hm Hc; [done|]. apply not_elem_of_cons in Hc as [He Hc].
  cbn [foldl]. assert (H : msgid_inv (w_msgids (d_node (meanwhile d e))) ∧ msgids (w_msgids (d_node (meanwhile d e))) !! mid = Some c);
    [|by apply IH; [apply H..|]]. destruct e as [a|c']; cbn [meanwhile].
  - destruct (run (IngestQueue.qa_bytes a) d) as [r d'] eqn:E. destruct (run_next_msgids _ _ _ _ Hi E) as [(Hi' & _ & Hsub) _].
    split; [done|]. by eapply lookup_weaken.
  - destruct (collect_msgids c' d Hi) as (Hi' & _ & Hk). split; [done|]. apply Hk; [congruence|done].
Qed.

(** C13. Once an article with unfolded ASCII headers was ingested, every later
    offer whose body has the same Message-ID is answered as a duplicate, under
    whatever envelope, bytes and path it comes and whatever was drained meanwhile,
    as long as the garbage collector does not delete the rows of the article's CID
    and the database answers; once it does delete them, the same offer is judged
    by its headers again. *)
Theorem ingested_is_duplicate hs body later envelope again (d d1 : Daemon') :
  let article := render hs ++ CRLF ++ body in
  let cid := raw_cid (prepend_path_header article (pa_local_hostname (args_at (d_runs d)))) in
  let d2 := foldl meanwhile d1 later in
  plain_host (pa_local_hostname (args_at (d_runs d))) → Forall plain_line hs →
  msgid_inv (w_msgids (d_node d)) →
  run article d = (Ok Staging.Success, d1) → Collected cid ∉ later →
  msgid_reliable (w_msgids (d_node d2)) →
  offerable envelope again →
  extract_body_msgid again = extract_body_msgid article → extract_body_msgid article ≠ Ok (Some []) →
  (check_ingest envelope again (w_msgids (d_node d2))).1 = Ok Duplicate ∧
  (check_ingest envelope again (w_msgids (d_node (collect cid d2)))).1 = Ok (check_headers again MANDATORY).
Proof.
  intros article cid d2 Hh Hhs Hi Hrun Hlater Hrel Hoff Hsame Hne.
  destruct (run_next_msgids _ _ _ _ Hi Hrun) as [(Hi1 & _ & _) (mid & names & Hp & Hc)]. fold article cid in Hp, Hc.
  destruct (meanwhile_msgids mid cid later d1 Hi1 Hc Hlater) as (Hi2 & Hc2). fold d2 in Hi2, Hc2.
  destruct (keys_agree _ hs body Hh Hhs) as (key & Hk & Hp'). fold article in Hk, Hp'.
  rewrite Hp' in Hp. destruct key as [m|]; [|done]. injection Hp as -> _.
  destruct (collect_msgids cid d2 Hi2) as (Hi3 & Hr3 & Hk3). destruct (Hr3 Hrel) as [Hrel3 Hgone].
  rewrite !(check_ingest_verdict _ _ mid) by (done || congruence). rewrite decide_True by (by exists cid). split; [done|].
  rewrite decide_False; [done|]. intros [c' Hc']. destruct (decide (c' = cid)) as [->|Hn]; [by apply (Hgone mid)|].
  apply (Hk3 mid c' Hn) in Hc'. congruence.
Qed.

(** What a run does whose scan panics: the block is written, nothing else. *)
Lemma run_next_panics article (d : Daemon') p :
  parse_message_id_and_newsgroups
    (prepend_path_header article (pa_local_hostname (args_at (d_runs d)))) = Err p →
  ipfs_reliable (w_ipfs (d_node d)) →
  ∃ d', run article d = (Err p, d') ∧ d_runs d' = Datatypes.S (d_runs d) ∧
    w_msgids (d_node d') = w_msgids (d_node d) ∧ w_log (d_node d') = w_log (d_node d) ∧
    w_articles (d_node d') = w_articles (d_node d).
Proof.
  intros Hp Hrel. unfold run_next, run_pipeline_and_notify. destruct (send _ _) as [ts hlc].
  unfold run_pipeline. cbv zeta. cbn [local_hostname]. set (data := prepend_path_header _ _) in *.
  unfold mbind at 1, prog_bind at 1, on_ipfs.
  pose proof (put_raw_ok data (w_ipfs (d_node d))) as Hput.
  destruct (put_raw data _) as [[cid|e] i1]; cbn [map_err]; [|by destruct Hput].
  unfold mbind at 1, prog_bind at 1, record_verification.
  unfold mbind at 1, prog_bind at 1, lift. rewrite Hp. cbn [map_err].
  eexists. split; [done|]. done.
Qed.

Lemma drain_app before rest (d : Daemon') :
  drain (before ++ rest) d =
  match drain before d with
  | (Ok _, d1) => drain rest d1
  | (Err p, d1) => (Err p, d1)
  end.
Proof.
  revert d. induction before as [|a before IH]; intros d; [done|].
  cbn [app ingestion_drain]. unfold mbind, prog_bind. destruct (run _ d) as [[o|p] d1]; [apply IH|done].
Qed.

(** A header line that only the pipeline's scan reads can stop ingestion.  Take
    an article within all limits, with all mandatory headers and a new
    Message-ID, in which a line after the Message-ID and before Newsgroups has
    byte 11 inside a UTF-8 character, such as a Japanese Subject.  The session
    accepts it; the task that drains the queue panics on it, having written the
    block but neither the Message-ID nor a log entry, and receives none of the
    articles behind it. *)
Theorem accepted_article_stops_drain pre bad post mid body envelope before (d d1 : Daemon') :
  let article := render (pre ++ bad :: post) ++ CRLF ++ body in
  poisonous pre bad post mid → mid ≠ [] → offerable envelope article → complete article →
  msgid_inv (w_msgids (d_node d)) → msgid_reliable (w_msgids (d_node d)) →
  msgids (w_msgids (d_node d)) !! mid = None →
  drain before d = (Ok tt, d1) → plain_host (pa_local_hostname (args_at (d_runs d1))) →
  ipfs_reliable (w_ipfs (d_node d1)) →
  (check_ingest envelope article (w_msgids (d_node d))).1 = Ok Accepted ∧
  ∃ d', d_runs d' = Datatypes.S (d_runs d1) ∧
    w_msgids (d_node d') = w_msgids (d_node d1) ∧ w_log (d_node d') = w_log (d_node d1) ∧
    ∀ rest, drain (before ++ IngestQueue.mkQueued article envelope :: rest) d = (Err CharBoundary, d').
Proof.
  intros article Hpo Hne Hoff Hc Hi Hrel Hnew Hbefore Hh Hipfs.
  destruct (poisonous_scans _ _ _ _ _ body Hh Hpo) as [Hext Hp]. fold article in Hext, Hp. split.
  - rewrite (check_ingest_verdict _ _ mid) by done.
    rewrite decide_False by (rewrite Hnew; by intros []). by rewrite complete_accepted.
  - destruct (run_next_panics article d1 CharBoundary Hp Hipfs) as (d' & Hrun & Hn & Hm & Hl & _).
    exists d'. split_and!; [done..|]. intros rest. rewrite drain_app, Hbefore. cbn [ingestion_drain IngestQueue.qa_bytes].
    unfold mbind, prog_bind. by rewrite Hrun.
Qed.

(** A repeated run can take a stored article away.  When an article that was
    ingested is run again, as a staging retry or a second offer of the same
    bytes, and the Message-ID database fails at that moment, the pipeline
    deletes the block as an orphan; the Message-ID still maps to it and the log
    still lists it. *)
Theorem failed_rerun_deletes_block (ctx : PipelineCtx V) clock elapsed article mid names (w : Node) :
  let data := prepend_path_header article (local_hostname _ ctx) in
  let cid := raw_cid data in
  (∀ c s, blocks (delete_block c s).2 !! c = None) →
  ipfs_reliable (w_ipfs w) → msgid_inv (w_msgids w) →
  parse_message_id_and_newsgroups data = Ok (Some (mid, names)) →
  blocks (w_ipfs w) !! cid = Some data → msgids (w_msgids w) !! mid = Some cid →
  is_ok (msgid_insert mid cid (w_msgids w)).1 = false →
  let '(r, w') := run_pipeline ctx clock elapsed article w in
  r = Err (Failed (Transient (lit "msgid insert failed"))) ∧
  msgids (w_msgids w') !! mid = Some cid ∧ w_log w' = w_log w ∧
  blocks (w_ipfs w') !! cid = None.
Proof.
  intros data cid Hdel Hrel Hi Hp Hb Hm Hfail. unfold run_pipeline. cbv zeta. fold data.
  unfold mbind at 1, prog_bind at 1, on_ipfs. pose proof (put_raw_ok data (w_ipfs w)) as Hput.
  destruct (put_raw data (w_ipfs w)) as [[c|e] i1]; cbn [map_err]; [|by destruct Hput].
  destruct Hput as (-> & _). fold cid. unfold mbind at 1, prog_bind at 1, record_verification.
  unfold mbind at 1, prog_bind at 1, lift. rewrite Hp. cbn [map_err].
  unfold mbind at 1, prog_bind at 1, insert_msgid. cbn [w_ipfs w_msgids w_log w_articles w_verify].
  pose proof (msgid_insert_ok mid cid (w_msgids w) Hi) as Hins. unfold msgid_outcome in Hins.
  destruct (msgid_insert mid cid (w_msgids w)) as [[[]|e] m1]; [done|].
  destruct Hins as (_ & _ & Hm1 & _). pose proof (Hdel cid i1) as Hd.
  destruct (delete_block cid i1) as [? i2]. cbn [w_ipfs w_msgids w_log]. by rewrite Hm1.
Qed.

End RunSpec.
End Drain.

(** ** A daemon at work *)

Module DrainSamples.
Import ToyCrypto LogEntry.Samples MemStorage SqliteStorage.SqlSamples MsgIdSamples HeaderSamples.
Import IngestSamples PipelineSamples.

(** An IPNS channel with room for one event. *)
Definition ipns_send (e : IpnsEvent) (q : list IpnsEvent) : bool * list IpnsEvent :=
  match q with [] => (true, [e]) | _ => (false, q) end.

Definition args0 (n : nat) : PipelineArgs (V := ()) :=
  mkArgs key host None None [(lit "pinata", None)].
Definition readings0 (n : nat) : Readings := mkReadings (Some 2000) (Some 2001) 3.

Definition daemon0 : Daemon := mkDaemon (new [0] 1000) world0 (Some ([] : list IpnsEvent)) (mkPool [] []) O.

Abbreviation run0 := (run_next ipns_send args0 readings0).
Abbreviation drain0 := (ingestion_drain ipns_send args0 readings0).

Definition daemon1 : Daemon := (run0 sample daemon0).2.

(** The first group's event found room, the second one's was dropped; the article
    is queued for pinning. *)
Lemma run0_sample :
  (run0 sample daemon0).1 = Ok Staging.Success ∧
  d_ipns daemon1 = Some [mkIpnsEvent rust cid0] ∧
  rows (d_pin_jobs daemon1) = [mkPinJob (cid_to_string cid0) (lit "pinata")].
Proof. split_and!; vm_refl. Qed.

Lemma sample_offerable : offerable envelope sample.
Proof. apply offerable_spec. split; [vm_refl|]. by apply (bool_decide_eq_true_1 _); vm_refl. Qed.

(** The sample is offered again after another run of it and a collection of
    another CID. *)
Lemma ingested_is_duplicate_witness :
  let d2 := foldl (meanwhile ipns_send args0 readings0) daemon1
              [Drained (IngestQueue.mkQueued sample envelope); Collected (raw_cid [])] in
  (check_ingest envelope sample (w_msgids (d_node d2))).1 = Ok Duplicate ∧
  (check_ingest envelope sample (w_msgids (d_node (collect cid0 d2)))).1 = Ok (check_headers sample MANDATORY).
Proof.
  destruct sample_plain as [Hh Hhs].
  refine (ingested_is_duplicate ipns_send args0 readings0 sample_headers sample_body
    [Drained (IngestQueue.mkQueued sample envelope); Collected (raw_cid [])] envelope sample
    daemon0 daemon1 Hh Hhs rows_ok_empty _ _ _ sample_offerable eq_refl _).
  - vm_refl.
  - intros [[=]|[[=H]|[]%not_elem_of_nil]%elem_of_cons]%elem_of_cons.
  - vm_compute. constructor.
  - vm_compute. discriminate.
Defined.

(** The Subject is in Japanese. *)
Definition pre0 : list bytes :=
  [lit "Path: peer"; lit "From: u@example.org"; lit "Date: 1 Jan 2024 00:00 GMT";
   lit "Message-ID: <2@example.org>"].
Definition bad0 : bytes := lit "Subject: " ++ [230; 151; 165; 230; 156; 172].
Definition post0 : list bytes := [lit "Newsgroups: comp.lang.rust"].
Definition poison : bytes := render (pre0 ++ bad0 :: post0) ++ CRLF ++ sample_body.

Lemma poison_poisonous : poisonous pre0 bad0 post0 (lit "<2@example.org>").
Proof.
  split_and!.
  - by apply (bool_decide_eq_true_1 _).
  - vm_refl.
  - vm_refl.
  - split; [split; vm_refl|vm_refl].
  - by apply (bool_decide_eq_true_1 _).
Qed.

Lemma poison_complete : complete poison.
Proof.
  pose proof (check_headers_spec poison MANDATORY) as H.
  assert (E : check_headers poison MANDATORY = Accepted) by vm_refl. by rewrite E in H.
Qed.

Lemma poison_offerable : offerable envelope poison.
Proof. apply offerable_spec. split; [vm_refl|]. by apply (bool_decide_eq_true_1 _); vm_refl. Qed.

Definition queued (data : bytes) : IngestQueue.QueuedArticle := IngestQueue.mkQueued data envelope.

Lemma accepted_article_stops_drain_witness :
  (check_ingest envelope poison (w_msgids (d_node daemon0))).1 = Ok Accepted ∧
  (drain0 [queued sample; queued poison; queued sample; queued sample] daemon0).1 = Err CharBoundary.
Proof.
  destruct (accepted_article_stops_drain ipns_send args0 readings0 pre0 bad0 post0 (lit "<2@example.org>")
    sample_body envelope [queued sample] daemon0 daemon1 poison_poisonous) as (Hc & d' & _ & _ & _ & Hd).
  - vm_compute. discriminate.
  - exact poison_offerable.
  - exact poison_complete.
  - exact rows_ok_empty.
  - vm_compute. constructor.
  - vm_refl.
  - vm_refl.
  - exact (proj1 sample_plain).
  - exact I.
  - split; [exact Hc|]. exact (f_equal fst (Hd [queued sample; queued sample])).
Defined.

(** A store that deletes at once, as the LMDB and RocksDB stores do. *)
Definition Cells := gmap Cid bytes.

#[export] Instance cells_store : IpfsStore Cells := {|
  put_raw data s := (Ok (raw_cid data), <[ raw_cid data := data ]> s);
  get_raw c s := (Ok (s !! c), s);
  delete_block c s := (Ok Immediate, delete c s)
|}.

#[export] Instance cells_view : BlockView Cells := {| blocks s := s; ipfs_reliable _ := True |}.

#[export] Instance cells_laws : IpfsLaws Cells.
Proof. split; [by intros data s|by intros c s|]. intros c s d Hd. by apply lookup_delete_ne. Qed.

Definition cells0 : World :=
  mkWorld (I := Cells) (M := Pool (gmap bytes bytes)) (S := MemLogStorage) (V := ())
    (∅ : Cells) sql_msgids_new mem_new (mkPool ∅ []) tt.
Definition cells1 : World := (run_pipeline ctx0 (Some 5) 3 sample cells0).2.

(** The next statement on the Message-ID database fails. *)
Definition cells2 : World :=
  mkWorld (w_ipfs cells1) (mkPool (rows (w_msgids cells1)) [true]) (w_log cells1) (w_articles cells1) tt.

Lemma cells2_inv : msgid_inv (w_msgids cells2).
Proof.
  assert (E : rows (w_msgids cells2) = {[ envelope := cid_to_bytes cid0 ]}) by vm_refl.
  intros mid b H. rewrite E in H. apply lookup_singleton_Some in H as [_ <-]. exists cid0. reflexivity.
Qed.

Lemma failed_rerun_deletes_block_witness :
  blocks (w_ipfs cells2) !! cid0 = Some data0 ∧
  blocks (w_ipfs (run_pipeline ctx0 (Some 6) 3 sample cells2).2) !! cid0 = None.
Proof.
  split; [vm_refl|].
  pose proof (failed_rerun_deletes_block (I := Cells) ctx0 (Some 6) 3 sample envelope [rust; alt] cells2)
    as H. cbv zeta in H.
  destruct (run_pipeline ctx0 (Some 6) 3 sample cells2) as [r w'] eqn:E. apply H.
  - intros c s. apply (lookup_delete_eq (M := gmap Cid)).
  - exact I.
  - exact cells2_inv.
  - vm_refl.
  - vm_refl.
  - vm_refl.
  - vm_refl.
Defined.

End DrainSamples.

End Drain.
