(* ===== verification/Lines.v ===== *)
(** Lines of an NNTP connection, as both daemons read them: [read_line] of
    [tokio::io::AsyncBufReadExt] on the bytes a client sends, the stripping of
    line ends, and the lines that travel unchanged. *)

From S2P Require Import Prelude Bytes Utf8 Headers Util.

Module Lines.
Import Utf8 Util.

(** The bytes up to and including the first newline, and the rest. *)
Fixpoint take_line (inp : bytes) : bytes * bytes :=
  match inp with
  | [] => ([], [])
  | c :: inp' =>
      if c =? LF then ([c], inp')
      else let '(l, r) := take_line inp' in (c :: l, r)
  end.

(** [reader.read_line(&mut line)]: [None] at the end of the stream ([Ok(0)]) and
    on a line that is not UTF-8 ([Err]), which every caller treats alike. *)
Definition read_line (inp : bytes) : option (bytes * bytes) :=
  let '(l, r) := take_line inp in
  if bool_decide (l = []) then None
  else if is_utf8 l then Some (l, r) else None.

(** [trim_end_matches(['\r', '\n'])]. *)
Definition trim_eol (l : bytes) : bytes :=
  rev (drop_while (λ c, (c =? CR) || (c =? LF)) (rev l)).

(** ** Reading consumes *)

Lemma take_line_app inp : (take_line inp).1 ++ (take_line inp).2 = inp.
Proof.
  induction inp as [|c inp IH]; [done|]. cbn [take_line]. destruct (c =? LF); [done|].
  destruct (take_line inp) as [l r]. simpl in *. by rewrite IH.
Qed.

Lemma read_line_Some inp l r : read_line inp = Some (l, r) → inp = l ++ r ∧ l ≠ [].
Proof.
  unfold read_line. pose proof (take_line_app inp) as H. destruct (take_line inp) as [l0 r0].
  case_bool_decide; [done|]. destruct (is_utf8 l0); [|done]. by intros [= <- <-].
Qed.

Lemma read_line_shorter inp l r : read_line inp = Some (l, r) → (length r < length inp)%nat.
Proof.
  intros [-> Hne]%read_line_Some. rewrite length_app. destruct l; [done|simpl; lia].
Qed.

(** ** Lines on the wire *)

(** A line that travels: UTF-8 text without newline, not ending in CR. *)
Definition sendable (l : bytes) : Prop := LF ∉ l ∧ last l ≠ Some CR ∧ is_utf8 l = true.

(** The line on the wire. *)
Definition wire (l : bytes) : bytes := (if starts_with l (lit ".") then lit "." else []) ++ l.

Lemma stuffed_wire l : stuffed_line l = wire l ++ CRLF.
Proof. unfold stuffed_line, wire. by rewrite <- app_assoc. Qed.

Lemma take_line_eol l r : LF ∉ l → take_line (l ++ LF :: r) = (l ++ [LF], r).
Proof.
  induction l as [|c l IH]; [done|]. rewrite not_elem_of_cons. intros [Hc Hl]. cbn [app take_line].
  destruct (Z.eqb_spec c LF); [congruence|]. by rewrite IH.
Qed.

Lemma trim_eol_line l : LF ∉ l → last l ≠ Some CR → trim_eol (l ++ CRLF) = l.
Proof.
  intros Hl Hc. unfold trim_eol. rewrite rev_app_distr.
  change (rev (drop_while (λ c, (c =? CR) || (c =? LF)) (rev l)) = l).
  destruct l as [|c l _] using rev_ind; [done|]. rewrite rev_app_distr. cbn [rev app drop_while].
  rewrite last_snoc in Hc. destruct (Z.eqb_spec c CR); [congruence|].
  destruct (Z.eqb_spec c LF); [subst; set_solver|]. simpl. by rewrite rev_involutive.
Qed.

Lemma wire_sendable l : sendable l → sendable (wire l).
Proof.
  intros (Hlf & Hcr & Hu). unfold wire, sendable. destruct (starts_with l (lit ".")) eqn:E; [|done].
  apply starts_with_spec in E as [r ->]. split_and!; [|rewrite last_app; by destruct (last (lit "." ++ r)) eqn:E'|done].
  rewrite elem_of_app. intros [H|?]; [|done]. by apply (list_elem_of_singleton (A := Z)) in H.
Qed.

Lemma read_line_wire l r : sendable l → read_line (l ++ CRLF ++ r) = Some (l ++ CRLF, r).
Proof.
  intros (Hlf & _ & Hu). unfold read_line.
  replace (l ++ CRLF ++ r) with ((l ++ [CR]) ++ LF :: r) by (by rewrite <- app_assoc).
  rewrite take_line_eol; [|rewrite elem_of_app; intros [?|H]; [done|];
    by apply (list_elem_of_singleton (A := Z)) in H].
  rewrite <- app_assoc. rewrite bool_decide_eq_false_2 by (by destruct l).
  by rewrite is_utf8_app.
Qed.

End Lines.
