(* ===== verification/NntpCommand.v ===== *)
(** The reader's command parser: [crates/reader/src/session/command.rs].

    A line is the UTF-8 bytes a client sent.  Every command printed in its
    canonical form is parsed back to itself. *)

From S2P Require Import Prelude Bytes Decimal Utf8 Headers Util Lines.

Module NntpCommand.
Import Decimal Utf8 Lines.

(** ** Data *)

Definition MAX_LINE_BYTES : Z := 510.

Inductive ArticleRef :=
| RefMessageId (s : bytes)
| RefNumber (n : Z)
| RefCid (s : bytes).

Inductive ArticleRange :=
| Single (n : Z)
| From (n : Z)
| Range (lo hi : Z).

Inductive ListSubcommand :=
| ListActive (wildmat : option bytes)
| ListNewsgroups
| ListOverviewFmt.

Inductive SearchKey := KeySubject | KeyFrom | KeyBody | KeyText | KeySince | KeyBefore.

Inductive OverArg :=
| OverRange (r : ArticleRange)
| OverMessageId (s : bytes).

Inductive Command :=
| Capabilities
| ModeReader
| Quit
| CmdList (sub : ListSubcommand)
| Newgroups (date time : bytes)
| Newnews (wildmat date time : bytes)
| Group (name : bytes)
| Next
| Last
| CmdArticle (arg : option ArticleRef)
| CmdHead (arg : option ArticleRef)
| CmdBody (arg : option ArticleRef)
| CmdStat (arg : option ArticleRef)
| Over (arg : option OverArg)
| Post
| Ihave (message_id : bytes)
| AuthinfoUser (user : bytes)
| AuthinfoPass (pass : bytes)
| AuthinfoSaslOauthbearer (initial_response : bytes)
| StartTls
| Xcid (arg : option bytes)
| Xget (cid : bytes)
| Xverify (message_id expected_cid : bytes) (verify_sig : bool)
| Hdr (field : bytes) (range_or_msgid : option bytes)
| CmdSearch (key : SearchKey) (value : bytes)
| CmdUnknown (line : bytes).

Inductive ParseError :=
| LineTooLong
| ParseUnknown (cmd : bytes).

(** ** Parsing *)

Definition word_is (w : bytes) (s : string) : bool := bool_decide (w = lit s).

Definition search_key (s : bytes) : option SearchKey :=
  let s := to_ascii_uppercase s in
  if word_is s "SUBJECT" then Some KeySubject
  else if word_is s "FROM" then Some KeyFrom
  else if word_is s "BODY" then Some KeyBody
  else if word_is s "TEXT" then Some KeyText
  else if word_is s "SINCE" then Some KeySince
  else if word_is s "BEFORE" then Some KeyBefore
  else None.

Definition parse_article_ref (s : bytes) : option ArticleRef :=
  if bool_decide (s = []) then None
  else if starts_with s (lit "<") then Some (RefMessageId s)
  else match strip_prefix (lit "cid:") s with
  | Some cid_str => Some (RefCid cid_str)
  | None => RefNumber <$> parse_u64 s
  end.

Definition DASH : Z := 45.

Definition parse_range (s : bytes) : ArticleRange :=
  match split_once DASH s with
  | Some (lo_str, hi_str) =>
      let lo := default 0 (parse_u64 lo_str) in
      if bool_decide (hi_str = []) then From lo
      else Range lo (default lo (parse_u64 hi_str))
  | None => Single (default 0 (parse_u64 s))
  end.

(** [splitn(2, char::is_whitespace)] and [splitn(3, ...)], as first piece and
    the pieces that follow, absent ones empty. *)
Definition splitn2 (s : bytes) : bytes * option bytes :=
  match split_once_ws s with Some (a, r) => (a, Some r) | None => (s, None) end.

Definition splitn3 (s : bytes) : bytes * bytes * bytes :=
  let '(a, r) := splitn2 s in
  let '(b, r') := splitn2 (default [] r) in
  (a, b, default [] r').

(** The subcommands with their own grammar; [line] is the whole line. *)
Definition parse_list (line rest : bytes) : Command :=
  match split_ascii_whitespace rest with
  | [] => CmdList (ListActive None)
  | sub :: toks =>
      let sub := to_ascii_uppercase sub in
      if word_is sub "ACTIVE" then CmdList (ListActive (head toks))
      else if word_is sub "" then CmdList (ListActive None)
      else if word_is sub "NEWSGROUPS" then CmdList ListNewsgroups
      else if word_is sub "OVERVIEW.FMT" then CmdList ListOverviewFmt
      else CmdUnknown line
  end.

Definition parse_newnews (rest : bytes) : Command :=
  let '(wildmat, date, remainder) := splitn3 rest in
  if bool_decide (date = []) then Newnews wildmat [] []
  else Newnews wildmat date (default [] (head (split_ascii_whitespace remainder))).

Definition parse_search (rest : bytes) : result ParseError Command :=
  let '(key_str, value_str) :=
    match split_once_by is_ascii_whitespace rest with
    | Some (k, v) => (trim k, trim v)
    | None => (trim rest, [])
    end in
  match search_key key_str with
  | None => Err (ParseUnknown (lit "unknown search key: " ++ key_str))
  | Some key =>
      if bool_decide (value_str = []) then Err (ParseUnknown (lit "SEARCH requires a value argument"))
      else Ok (CmdSearch key value_str)
  end.

Definition parse_hdr (rest : bytes) : Command :=
  let '(field, arg) := splitn2 rest in
  let arg := trim <$> arg in
  Hdr field (match arg with Some [] => None | _ => arg end).

Definition parse_over (rest : bytes) : Command :=
  if bool_decide (rest = []) then Over None
  else if starts_with rest (lit "<") then Over (Some (OverMessageId rest))
  else Over (Some (OverRange (parse_range rest))).

Definition parse_authinfo (line rest : bytes) : Command :=
  let '(sub, arg) := splitn2 rest in
  let sub := to_ascii_uppercase sub in
  let arg := trim (default [] arg) in
  if word_is sub "USER" then AuthinfoUser arg
  else if word_is sub "PASS" then AuthinfoPass arg
  else if word_is sub "SASL" then
    let '(mechanism, initial_response) := splitn2 arg in
    if word_is (to_ascii_uppercase mechanism) "OAUTHBEARER"
    then AuthinfoSaslOauthbearer (trim (default [] initial_response))
    else CmdUnknown line
  else CmdUnknown line.

Definition parse_newgroups (rest : bytes) : Command :=
  let toks := split_ascii_whitespace rest in
  Newgroups (default [] (head toks)) (default [] (head (tail toks))).

Definition parse_xverify (rest : bytes) : Command :=
  let '(message_id, expected_cid, sig) := splitn3 rest in
  Xverify message_id expected_cid (word_is (to_ascii_uppercase (trim sig)) "SIG").

Definition parse_verb (verb line rest : bytes) : result ParseError Command :=
  if word_is verb "CAPABILITIES" then Ok Capabilities
  else if word_is verb "QUIT" then Ok Quit
  else if word_is verb "NEXT" then Ok Next
  else if word_is verb "LAST" then Ok Last
  else if word_is verb "POST" then Ok Post
  else if word_is verb "STARTTLS" then Ok StartTls
  else if word_is verb "MODE" then
    Ok (if word_is (to_ascii_uppercase rest) "READER" then ModeReader else CmdUnknown line)
  else if word_is verb "LIST" then Ok (parse_list line rest)
  else if word_is verb "NEWGROUPS" then Ok (parse_newgroups rest)
  else if word_is verb "NEWNEWS" then Ok (parse_newnews rest)
  else if word_is verb "GROUP" then Ok (Group rest)
  else if word_is verb "ARTICLE" then Ok (CmdArticle (parse_article_ref rest))
  else if word_is verb "HEAD" then Ok (CmdHead (parse_article_ref rest))
  else if word_is verb "BODY" then Ok (CmdBody (parse_article_ref rest))
  else if word_is verb "STAT" then Ok (CmdStat (parse_article_ref rest))
  else if word_is verb "SEARCH" then parse_search rest
  else if word_is verb "XCID" then Ok (Xcid (if bool_decide (rest = []) then None else Some rest))
  else if word_is verb "XGET" then Ok (Xget rest)
  else if word_is verb "XVERIFY" then Ok (parse_xverify rest)
  else if word_is verb "HDR" then Ok (parse_hdr rest)
  else if word_is verb "OVER" || word_is verb "XOVER" then Ok (parse_over rest)
  else if word_is verb "IHAVE" then Ok (Ihave rest)
  else if word_is verb "AUTHINFO" then Ok (parse_authinfo line rest)
  else Err (ParseUnknown verb).

Definition blank (c : Z) : bool := (c =? SP) || (c =? HT).

Definition parse_command (line : bytes) : result ParseError Command :=
  if MAX_LINE_BYTES <? Z.of_nat (length line) then Err LineTooLong
  else
    let line := trim_eol line in
    let '(verb, rest) :=
      match split_once_by blank line with Some (v, r) => (v, r) | None => (line, []) end in
    parse_verb (to_ascii_uppercase verb) line (trim rest).

(** ** Printing *)

Definition print_ref (r : ArticleRef) : bytes :=
  match r with
  | RefMessageId s => s
  | RefNumber n => to_decimal n
  | RefCid s => lit "cid:" ++ s
  end.

Definition print_range (r : ArticleRange) : bytes :=
  match r with
  | Single n => to_decimal n
  | From n => to_decimal n ++ [DASH]
  | Range lo hi => to_decimal lo ++ DASH :: to_decimal hi
  end.

Definition print_key (k : SearchKey) : bytes :=
  match k with
  | KeySubject => lit "SUBJECT" | KeyFrom => lit "FROM" | KeyBody => lit "BODY"
  | KeyText => lit "TEXT" | KeySince => lit "SINCE" | KeyBefore => lit "BEFORE"
  end.

(** The words of a command, joined by single spaces on the line. *)
Definition command_words (c : Command) : list bytes :=
  match c with
  | Capabilities => [lit "CAPABILITIES"]
  | ModeReader => [lit "MODE"; lit "READER"]
  | Quit => [lit "QUIT"]
  | CmdList (ListActive None) => [lit "LIST"; lit "ACTIVE"]
  | CmdList (ListActive (Some w)) => [lit "LIST"; lit "ACTIVE"; w]
  | CmdList ListNewsgroups => [lit "LIST"; lit "NEWSGROUPS"]
  | CmdList ListOverviewFmt => [lit "LIST"; lit "OVERVIEW.FMT"]
  | Newgroups d t => [lit "NEWGROUPS"; d; t]
  | Newnews w d t => [lit "NEWNEWS"; w; d; t]
  | Group n => [lit "GROUP"; n]
  | Next => [lit "NEXT"]
  | Last => [lit "LAST"]
  | CmdArticle r => lit "ARTICLE" :: option_list (print_ref <$> r)
  | CmdHead r => lit "HEAD" :: option_list (print_ref <$> r)
  | CmdBody r => lit "BODY" :: option_list (print_ref <$> r)
  | CmdStat r => lit "STAT" :: option_list (print_ref <$> r)
  | Over None => [lit "OVER"]
  | Over (Some (OverRange r)) => [lit "OVER"; print_range r]
  | Over (Some (OverMessageId s)) => [lit "OVER"; s]
  | Post => [lit "POST"]
  | Ihave m => [lit "IHAVE"; m]
  | AuthinfoUser u => [lit "AUTHINFO"; lit "USER"; u]
  | AuthinfoPass p => [lit "AUTHINFO"; lit "PASS"; p]
  | AuthinfoSaslOauthbearer r => [lit "AUTHINFO"; lit "SASL"; lit "OAUTHBEARER"; r]
  | StartTls => [lit "STARTTLS"]
  | Xcid a => lit "XCID" :: option_list a
  | Xget c => [lit "XGET"; c]
  | Xverify m c b => [lit "XVERIFY"; m; c] ++ (if b then [lit "SIG"] else [])
  | Hdr f a => [lit "HDR"; f] ++ option_list a
  | CmdSearch k v => [lit "SEARCH"; print_key k; v]
  | CmdUnknown l => [l]
  end.

Definition print_command (c : Command) : bytes := join [SP] (command_words c).

(** ** Round trip *)

Definition text (s : bytes) : Prop := bordered s ∧ s ≠ [].

Definition wf_ref (r : ArticleRef) : Prop :=
  match r with
  | RefMessageId s => token s ∧ starts_with s (lit "<") = true
  | RefNumber n => in_u64 n
  | RefCid s => Forall graphic s
  end.

Definition wf_range (r : ArticleRange) : Prop :=
  match r with Single n | From n => in_u64 n | Range lo hi => in_u64 lo ∧ in_u64 hi end.

(** Words are words, free text does not begin or end with white space, numbers
    fit; [CmdUnknown] is not a command. *)
Definition wf_command (c : Command) : Prop :=
  match c with
  | CmdUnknown _ => False
  | CmdList (ListActive (Some w)) => token w
  | Newgroups d t => token d ∧ token t
  | Newnews w d t => token w ∧ token d ∧ token t
  | Group n | Ihave n | Xget n => text n
  | CmdArticle (Some r) | CmdHead (Some r) | CmdBody (Some r) | CmdStat (Some r) => wf_ref r
  | Over (Some (OverRange r)) => wf_range r
  | Over (Some (OverMessageId s)) => text s ∧ starts_with s (lit "<") = true
  | AuthinfoUser u | AuthinfoPass u | AuthinfoSaslOauthbearer u => text u
  | Xcid (Some m) => text m
  | Xverify m c _ => token m ∧ token c
  | Hdr f None => token f
  | Hdr f (Some a) => token f ∧ text a
  | CmdSearch _ v => text v
  | _ => True
  end.

Lemma token_text s : token s → text s.
Proof. intros [Hne Hs]. split; [by apply token_bordered|done]. Qed.

Lemma join_cons (w : bytes) ws : ws ≠ [] → join [SP] (w :: ws) = w ++ SP :: join [SP] ws.
Proof. by destruct ws. Qed.

Lemma text_join ws : ws ≠ [] → Forall text ws → text (join [SP] ws).
Proof.
  intros Hne Hws. induction Hws as [|w ws [Hb Hw] Hws IH]; [done|].
  destruct ws as [|w' ws]; [done|]. rewrite join_cons by done.
  destruct (IH ltac:(done)) as [Hb' Hw']. split; [by apply bordered_words|by destruct w].
Qed.

Lemma trim_eol_text s : text s → trim_eol s = s.
Proof.
  intros [(_ & _ & Hl) Hne]. unfold trim_eol.
  destruct s as [|b s _] using rev_ind; [done|]. rewrite rev_app_distr. simpl.
  specialize (Hl b s eq_refl). assert ((b =? CR) || (b =? LF) = false) as ->.
  { unfold ws1 in Hl. apply orb_false_iff in Hl as [Hl _]. apply orb_false_iff. unfold CR, LF.
    split; apply Z.eqb_neq; intros ->; done. }
  simpl. by rewrite rev_involutive.
Qed.

Lemma graphic_blank s : Forall graphic s → Forall (λ b, blank b = false) s.
Proof.
  intros H. eapply Forall_impl; [exact H|]. intros b Hb. unfold graphic in Hb. unfold blank, SP, HT.
  by rewrite !(proj2 (Z.eqb_neq b _)) by lia.
Qed.

(** The line is cut into its verb and the other words. *)
Lemma parse_line verb ws :
  token verb → to_ascii_uppercase verb = verb → Forall text ws →
  Z.of_nat (length (join [SP] (verb :: ws))) <= MAX_LINE_BYTES →
  parse_command (join [SP] (verb :: ws)) =
  parse_verb verb (join [SP] (verb :: ws)) (join [SP] ws).
Proof.
  intros Hv Hup Hws Hlen. unfold parse_command. rewrite (proj2 (Z.ltb_ge _ _) Hlen). cbv zeta.
  rewrite trim_eol_text by (apply text_join; [done|]; constructor; [by apply token_text|done]).
  destruct ws as [|w ws].
  - cbn [join]. rewrite split_once_by_none by (apply graphic_blank; apply Hv). by rewrite Hup.
  - rewrite join_cons, split_once_by_first by (done || apply graphic_blank; apply Hv).
    rewrite Hup, (trim_bordered (join [SP] (w :: ws))); [done|]. by apply text_join.
Qed.

Lemma decimal_token n : in_u64 n → token (to_decimal n).
Proof.
  unfold in_u64. intros Hn. split.
  - destruct (dec_digits_cons 19 n ltac:(lia)) as (c & s & E & _). unfold to_decimal. by rewrite E.
  - eapply Forall_impl; [apply (dec_digits_digit 20 n); lia|]. intros c Hc. unfold is_ascii_digit in Hc.
    to_prop. unfold graphic. lia.
Qed.

Lemma decimal_head n : in_u64 n →
  ∃ c s, to_decimal n = c :: s ∧ is_ascii_digit c = true.
Proof. unfold in_u64. intros Hn. apply (dec_digits_cons 19 n). lia. Qed.

Lemma digit_not_angle c s : is_ascii_digit c = true → starts_with (c :: s) (lit "<") = false.
Proof.
  intros Hc. destruct (starts_with (c :: s) (lit "<")) eqn:E; [|done].
  apply starts_with_spec in E as [r Er]. injection Er as -> _. done.
Qed.

Lemma decimal_no_dash n : in_u64 n → DASH ∉ to_decimal n.
Proof.
  unfold in_u64. intros Hn Hin. pose proof (dec_digits_digit 20 n ltac:(lia)) as Hd.
  rewrite Forall_forall in Hd. by apply Hd in Hin.
Qed.

Lemma print_ref_token r : wf_ref r → token (print_ref r).
Proof.
  destruct r as [s|n|s]; cbn [print_ref wf_ref]; [tauto|by apply decimal_token|]. intros Hs. split; [done|].
  apply Forall_app. split; [|done]. by apply (bool_decide_eq_true_1 _).
Qed.

Lemma parse_print_ref r : wf_ref r → parse_article_ref (print_ref r) = Some r.
Proof.
  unfold parse_article_ref. destruct r as [s|n|s]; cbn [print_ref wf_ref].
  - intros [[Hne _] Hs]. by rewrite bool_decide_eq_false_2, Hs.
  - intros Hn. destruct (decimal_head n Hn) as (c & s & E & Hc).
    rewrite bool_decide_eq_false_2 by (by rewrite E).
    assert (starts_with (to_decimal n) (lit "<") = false) as ->.
    { rewrite E. by apply digit_not_angle. }
    assert (strip_prefix (lit "cid:") (to_decimal n) = None) as ->.
    { rewrite E. destruct (strip_prefix (lit "cid:") (c :: s)) as [x|] eqn:Ex; [|done].
      apply strip_prefix_Some in Ex. injection Ex as -> _. done. }
    by rewrite parse_to_decimal.
  - intros _. done.
Qed.

Lemma split_once_none (c : Z) (s : bytes) : c ∉ s → split_once c s = None.
Proof.
  intros Hc. destruct (split_once c s) as [[l r]|] eqn:E; [|done].
  apply split_once_Some in E as [-> _]. set_solver.
Qed.

Lemma print_range_token r : wf_range r → token (print_range r).
Proof.
  assert (Hd : graphic DASH) by done.
  destruct r as [n|n|lo hi]; simpl; [by apply decimal_token| |intros [Hlo Hhi]].
  - intros Hn%decimal_token. split; [by destruct (to_decimal n)|].
    destruct Hn as [_ Hn]. apply Forall_app. split; [done|by constructor].
  - destruct (decimal_token lo Hlo), (decimal_token hi Hhi). split; [by destruct (to_decimal lo)|].
    apply Forall_app. split; [done|by constructor].
Qed.

Lemma parse_print_range r : wf_range r → parse_range (print_range r) = r.
Proof.
  unfold parse_range. destruct r as [n|n|lo hi]; simpl.
  - intros Hn. by rewrite split_once_none, parse_to_decimal by (done || by apply decimal_no_dash).
  - intros Hn. rewrite (proj2 (split_once_Some DASH _ (to_decimal n) [])) by (split; [done|by apply decimal_no_dash]).
    by rewrite parse_to_decimal.
  - intros [Hlo Hhi]. rewrite (proj2 (split_once_Some DASH _ (to_decimal lo) (to_decimal hi)))
      by (split; [done|by apply decimal_no_dash]).
    rewrite bool_decide_eq_false_2 by (by destruct (decimal_token hi Hhi)). by rewrite !parse_to_decimal.
Qed.

Lemma range_not_angle r : wf_range r → starts_with (print_range r) (lit "<") = false.
Proof.
  assert (H : ∀ n t, in_u64 n → starts_with (to_decimal n ++ t) (lit "<") = false).
  { intros n t (c & s & -> & Hc)%decimal_head. by apply digit_not_angle. }
  destruct r as [n|n|lo hi]; simpl; [rewrite <- (app_nil_r (to_decimal n))|..]; naive_solver.
Qed.

Lemma splitn2_two s t : Forall graphic s → splitn2 (s ++ SP :: t) = (s, Some t).
Proof. intros Hs. unfold splitn2. by rewrite split_once_ws_token. Qed.

Lemma splitn2_one s : Forall graphic s → splitn2 s = (s, None).
Proof. intros Hs. unfold splitn2. by rewrite split_once_ws_none. Qed.

Lemma splitn3_three s t u :
  Forall graphic s → Forall graphic t → splitn3 (s ++ SP :: t ++ SP :: u) = (s, t, u).
Proof. intros Hs Ht. unfold splitn3. rewrite splitn2_two by done. simpl. by rewrite (splitn2_two t). Qed.

Lemma splitn3_two s t : Forall graphic s → Forall graphic t → splitn3 (s ++ SP :: t) = (s, t, []).
Proof. intros Hs Ht. unfold splitn3. rewrite splitn2_two by done. simpl. by rewrite (splitn2_one t). Qed.

Lemma parse_list_words line (sub : bytes) ws :
  token sub → Forall token ws →
  parse_list line (join [SP] (sub :: ws)) =
  (let sub := to_ascii_uppercase sub in
   if word_is sub "ACTIVE" then CmdList (ListActive (head ws))
   else if word_is sub "" then CmdList (ListActive None)
   else if word_is sub "NEWSGROUPS" then CmdList ListNewsgroups
   else if word_is sub "OVERVIEW.FMT" then CmdList ListOverviewFmt
   else CmdUnknown line).
Proof.
  intros Hs Hws. unfold parse_list. destruct Hws as [|w ws Hw Hws].
  - cbn [join]. by rewrite split_ascii_whitespace_one.
  - rewrite join_cons, split_ascii_whitespace_token by done.
    assert (head (split_ascii_whitespace (join [SP] (w :: ws))) = Some w) as ->; [|done].
    destruct ws as [|w' ws]; [cbn [join]; by rewrite split_ascii_whitespace_one|].
    by rewrite join_cons, split_ascii_whitespace_token.
Qed.

Lemma parse_newgroups_words d t : token d → token t → parse_newgroups (d ++ SP :: t) = Newgroups d t.
Proof.
  intros Hd Ht. unfold parse_newgroups.
  by rewrite split_ascii_whitespace_token, split_ascii_whitespace_one by done.
Qed.

Lemma parse_newnews_words w d t :
  token w → token d → token t → parse_newnews (w ++ SP :: d ++ SP :: t) = Newnews w d t.
Proof.
  intros [_ Hw] [Hne Hd] Ht. unfold parse_newnews. rewrite splitn3_three by done.
  rewrite bool_decide_eq_false_2 by done. by rewrite split_ascii_whitespace_one.
Qed.

Lemma print_key_token k : token (print_key k).
Proof. destruct k; by apply (bool_decide_eq_true_1 _). Qed.

Lemma parse_search_words k v : text v → parse_search (print_key k ++ SP :: v) = Ok (CmdSearch k v).
Proof.
  intros [Hb Hne]. unfold parse_search. destruct (print_key_token k) as [_ Hk].
  rewrite split_once_by_first by (done || by apply token_not_whitespace).
  rewrite (trim_bordered v Hb), trim_bordered by (by apply token_bordered).
  assert (search_key (print_key k) = Some k) as -> by by destruct k.
  by rewrite bool_decide_eq_false_2.
Qed.

Lemma parse_hdr_words f a : token f → text a → parse_hdr (f ++ SP :: a) = Hdr f (Some a).
Proof.
  intros [_ Hf] [Hb Hne]. unfold parse_hdr. rewrite splitn2_two by done. cbn [fmap option_fmap option_map].
  rewrite (trim_bordered a Hb). by destruct a.
Qed.

Lemma parse_authinfo_words line (sub : bytes) a :
  token sub → text a →
  parse_authinfo line (sub ++ SP :: a) =
  (let sub := to_ascii_uppercase sub in
   if word_is sub "USER" then AuthinfoUser a
   else if word_is sub "PASS" then AuthinfoPass a
   else if word_is sub "SASL" then
     let '(mechanism, initial_response) := splitn2 a in
     if word_is (to_ascii_uppercase mechanism) "OAUTHBEARER"
     then AuthinfoSaslOauthbearer (trim (default [] initial_response))
     else CmdUnknown line
   else CmdUnknown line).
Proof.
  intros [_ Hs] [Hb _]. unfold parse_authinfo. rewrite splitn2_two by done. cbn [default from_option id].
  by rewrite (trim_bordered a Hb).
Qed.

Lemma parse_xverify_words m c (b : bool) :
  token m → token c →
  parse_xverify (join [SP] ([m; c] ++ (if b then [lit "SIG"] else []))) = Xverify m c b.
Proof.
  intros [_ Hm] [_ Hc]. unfold parse_xverify. destruct b; cbn [app join].
  - change (m ++ [SP] ++ c ++ [SP] ++ lit "SIG") with (m ++ SP :: c ++ SP :: lit "SIG").
    by rewrite splitn3_three.
  - change (m ++ [SP] ++ c) with (m ++ SP :: c). by rewrite splitn3_two.
Qed.

Lemma parse_over_arg s : s ≠ [] →
  parse_over s = Over (Some (if starts_with s (lit "<") then OverMessageId s else OverRange (parse_range s))).
Proof. intros Hs. unfold parse_over. rewrite bool_decide_eq_false_2 by done. by destruct (starts_with _ _). Qed.

(** Every word after the verb is text. *)
Lemma command_words_text c : wf_command c → Forall text (tail (command_words c)).
Proof.
  pose proof token_text as Htok. pose proof print_ref_token. pose proof print_range_token.
  destruct c as [| | |[[w|]| |]|d t|w d t|n| | |[r|]|[r|]|[r|]|[r|]|[[r|m]|]| |m|u|p|u| |[m|]|x|m x b|f [a|]|k v|l];
    cbn [command_words tail option_list fmap option_fmap option_map wf_command app];
    intros Hc; repeat apply Forall_cons_2; try apply Forall_nil_2;
    try (by apply Htok, (bool_decide_eq_true_1 _)); try naive_solver.
  - destruct b; [|apply Forall_nil_2]. apply Forall_singleton. by apply Htok, (bool_decide_eq_true_1 _).
  - apply Htok, print_key_token.
Qed.

Ltac lit_token := by apply (bool_decide_eq_true_1 _).

(** Decide the comparisons of literal words. *)
Ltac eval_words :=
  repeat match goal with
  | |- context [word_is (lit ?a) ?b] =>
      let v := eval vm_compute in (word_is (lit a) b) in change (word_is (lit a) b) with v
  | |- context [word_is (to_ascii_uppercase (lit ?a)) ?b] =>
      let v := eval vm_compute in (word_is (to_ascii_uppercase (lit a)) b) in
      change (word_is (to_ascii_uppercase (lit a)) b) with v
  end; cbv iota beta zeta; cbn [orb].

(** A command printed in its canonical form (words separated by single spaces,
    within the 510 bytes of a line) is parsed as itself, for every command the
    server knows. *)
Theorem command_roundtrip c :
  wf_command c → Z.of_nat (length (print_command c)) <= MAX_LINE_BYTES →
  parse_command (print_command c) = Ok c.
Proof.
  intros Hc Hlen. pose proof (command_words_text c Hc) as Hw. unfold print_command in *.
  assert (∃ verb ws, command_words c = verb :: ws ∧ token verb ∧ to_ascii_uppercase verb = verb)
    as (verb & ws & Ew & Hv & Hup).
  { destruct c as [| | |[[w|]| |]|d t|w d t|n| | |[r|]|[r|]|[r|]|[r|]|[[r|m]|]| |m|u|p|u| |[m|]|x|m x b|f [a|]|k v|l];
      try done; eexists _, _; (split; [reflexivity|]); split; by apply (bool_decide_eq_true_1 _). }
  rewrite Ew in *. rewrite parse_line by done. clear Hlen Hv Hup.
  destruct c as [| | |[[w|]| |]|d t|w d t|n| | |[r|]|[r|]|[r|]|[r|]|[[r|m]|]| |m|u|p|u| |[m|]|x|m x b|f [a|]|k v|l];
    try done; injection Ew as <- <-; unfold parse_verb; eval_words; cbn [join option_list fmap option_fmap option_map app];
    cbn [wf_command] in Hc; try done.
  all: first
    [ rewrite parse_print_ref by done; done
    | rewrite parse_over_arg by (by apply print_range_token || apply Hc);
      rewrite ?range_not_angle, ?parse_print_range by done; by rewrite ?(proj2 Hc)
    | idtac ].
  - f_equal. etrans; [apply (parse_list_words _ (lit "ACTIVE") [w]); [lit_token|by apply Forall_singleton]|].
    by eval_words.
  - by rewrite parse_newgroups_words by tauto.
  - by rewrite parse_newnews_words by tauto.
  - rewrite parse_authinfo_words by (lit_token || done). by eval_words.
  - rewrite parse_authinfo_words by (lit_token || done). by eval_words.
  - rewrite parse_authinfo_words.
    + eval_words. rewrite splitn2_two by (by apply (bool_decide_eq_true_1 _)). eval_words.
      simpl. by rewrite (trim_bordered u) by apply Hc.
    + lit_token.
    + apply (text_join [lit "OAUTHBEARER"; u]); [done|]. inversion Hw. by simplify_eq/=.
  - by rewrite bool_decide_eq_false_2 by apply Hc.
  - f_equal. exact (parse_xverify_words m x b (proj1 Hc) (proj2 Hc)).
  - by rewrite parse_hdr_words by tauto.
  - unfold parse_hdr. by rewrite splitn2_one by apply Hc.
  - by apply parse_search_words.
Qed.

Module CommandSamples.

Lemma command_roundtrip_witness :
  parse_command (print_command (Over (Some (OverRange (Range 10 25))))) =
  Ok (Over (Some (OverRange (Range 10 25)))).
Proof. apply command_roundtrip; [split; split; vm_compute; discriminate|vm_compute; discriminate]. Defined.

(** An argument that is neither a Message-ID, a CID nor a number in range is
    taken as no argument: the command is about the current article. *)
Example bad_number_is_no_argument :
  parse_command (lit "ARTICLE 18446744073709551616") = Ok (CmdArticle None) ∧
  parse_command (lit "BODY twelve") = Ok (CmdBody None).
Proof. split; vm_refl. Qed.

End CommandSamples.

End NntpCommand.
