(* ===== verification/ArticleNumbers.v ===== *)
(** Local article numbers: [crates/reader/src/store/article_numbers.rs].

    The table [article_numbers] with its primary key and its unique index is
    proved to implement, for every group, a list of distinct CIDs that only
    grows at its end: article [n] is the element at position [n - 1].  SQLite
    runs write transactions one after the other, which is what [Sql] models;
    the numbers are [i64] columns read and written with [as] casts. *)

From S2P Require Import Prelude Bytes Crypto Sql SqliteStorage.

Module ArticleNumbers.
Import SqliteStorage Sql.

(** What the callers see of a [sqlx::Error]. *)
Inductive SqlxError := DatabaseError | RowNotFound | DecodeError.

#[export] Instance sqlx_error_eq_dec : EqDecision SqlxError.
Proof. solve_decision. Defined.

Definition sqlx_error (_ : ()) : SqlxError := DatabaseError.

(** ** SQL aggregates and orders *)

Definition sel_max (l : list Z) : option Z :=
  match l with [] => None | x :: l' => Some (foldr Z.max x l') end.
Definition sel_min (l : list Z) : option Z :=
  match l with [] => None | x :: l' => Some (foldr Z.min x l') end.

(** [ORDER BY group_name, article_number]. *)
Definition key_le (a b : (bytes * Z) * bytes) : Prop :=
  (if bool_decide (a.1.1 = b.1.1) then a.1.2 <=? b.1.2 else lex_leb a.1.1 b.1.1) = true.

#[export] Instance key_le_dec : RelDecision key_le.
Proof. intros a b. unfold key_le. apply _. Defined.

Section Numbers.
Context {lib : CidLib} {engine : SqlEngine}.

(** [article_numbers(group_name, article_number, cid)], primary key
    [(group_name, article_number)], unique index on [(group_name, cid)]. *)
Abbreviation Numbers := (gmap (bytes * Z) bytes) (only parsing).

(** [WHERE group_name = ?]. *)
Definition group_rows (group : bytes) (t : Numbers) : list (Z * bytes) :=
  omap (λ r : (bytes * Z) * bytes, if bool_decide (r.1.1 = group) then Some (r.1.2, r.2) else None)
    (map_to_list t).

Definition numbers_with (group cid_bytes : bytes) (t : Numbers) : list Z :=
  (filter (λ r : Z * bytes, r.2 = cid_bytes) (group_rows group t)).*1.

(** [INSERT ... ON CONFLICT DO NOTHING]: either unique key suppresses it. *)
Definition insert_next (group cid_bytes : bytes) (t : Numbers) : Numbers :=
  let next := default 0 (sel_max (group_rows group t).*1) + 1 in
  if bool_decide (is_Some (t !! (group, next))) || negb (bool_decide (numbers_with group cid_bytes t = []))
  then t else <[ (group, next) := cid_bytes ]> t.

Definition assign_number (group : bytes) (cid : Cid) : prog (Pool Numbers) SqlxError Z :=
  let cid_bytes := cid_to_bytes cid in
  tx ← prog_map_err sqlx_error begin_tx;
  _ ← prog_map_err sqlx_error round_trip;
  let tx' := insert_next group cid_bytes tx in
  _ ← prog_map_err sqlx_error round_trip;
  match head (numbers_with group cid_bytes tx') with
  | None => throw RowNotFound
  | Some number =>
      _ ← prog_map_err sqlx_error (commit_tx tx');
      mret (wrapping_u64 number)
  end.

(** [Cid::try_from(bytes).map_err(Decode)]. *)
Definition decode_cid (b : bytes) : result SqlxError Cid :=
  match cid_try_from b with Some c => Ok c | None => Err DecodeError end.

Definition lookup_cid (group : bytes) (number : Z) : prog (Pool Numbers) SqlxError (option Cid) :=
  row ← prog_map_err sqlx_error (select (λ t : Numbers, t !! (group, as_i64 number)));
  match row with
  | None => mret None
  | Some b => lift (Some <$> decode_cid b)
  end.

Fixpoint decode_rows (l : list ((bytes * Z) * bytes)) : result SqlxError (list (bytes * Z * Cid)) :=
  match l with
  | [] => Ok []
  | (g, n, b) :: l' =>
      c ← decode_cid b;
      rest ← decode_rows l';
      Ok ((g, wrapping_u64 n, c) :: rest)
  end.

Definition list_all_articles : prog (Pool Numbers) SqlxError (list (bytes * Z * Cid)) :=
  rs ← prog_map_err sqlx_error (select (λ t : Numbers, merge_sort key_le (map_to_list t)));
  lift (decode_rows rs).

(** [MIN(article_number), MAX(article_number)]. *)
Definition min_max (group : bytes) (t : Numbers) : option Z * option Z :=
  (sel_min (group_rows group t).*1, sel_max (group_rows group t).*1).

Definition list_groups : prog (Pool Numbers) SqlxError (list (bytes * Z * Z)) :=
  prog_map_err sqlx_error (select (λ t : Numbers,
    (λ g, let mm := min_max g t in
          (g, wrapping_u64 (default 0 mm.1), wrapping_u64 (default 0 mm.2))) <$>
    sort_bytes (remove_dups ((λ r : (bytes * Z) * bytes, r.1.1) <$> map_to_list t)))).

Fixpoint batch_map (l : list (Z * bytes)) : result SqlxError (gmap Z Cid) :=
  match l with
  | [] => Ok ∅
  | (n, b) :: l' =>
      c ← decode_cid b;
      m ← batch_map l';
      Ok (<[ wrapping_u64 n := c ]> m)
  end.

Definition lookup_cids_batch (group : bytes) (numbers : list Z) :
    prog (Pool Numbers) SqlxError (gmap Z Cid) :=
  match numbers with
  | [] => mret ∅
  | _ =>
      rs ← prog_map_err sqlx_error (select (λ t : Numbers,
             filter (λ r : Z * bytes, r.1 ∈ (as_i64 <$> numbers)) (group_rows group t)));
      lift (batch_map rs)
  end.

(** [SELECT ... WHERE cid = ? LIMIT 1] without an order: the engine chooses
    the group. *)
Definition lookup_by_cid (cid : Cid) : prog (Pool Numbers) SqlxError (option (bytes * Z)) :=
  prog_map_err sqlx_error (select (λ t : Numbers,
    g ← head (row_order ((λ r : (bytes * Z) * bytes, r.1.1) <$>
               filter (λ r : (bytes * Z) * bytes, r.2 = cid_to_bytes cid) (map_to_list t)));
    n ← head (numbers_with g (cid_to_bytes cid) t);
    Some (g, wrapping_u64 n))).

(** [ORDER BY article_number ASC LIMIT 1] above a number, [DESC] below it. *)
Definition row_after (group : bytes) (current : Z) (t : Numbers) : option (Z * bytes) :=
  n ← sel_min (filter (λ n, current < n) (group_rows group t).*1);
  b ← t !! (group, n);
  Some (n, b).
Definition row_before (group : bytes) (current : Z) (t : Numbers) : option (Z * bytes) :=
  n ← sel_max (filter (λ n, n < current) (group_rows group t).*1);
  b ← t !! (group, n);
  Some (n, b).

Definition decode_row (row : option (Z * bytes)) : result SqlxError (option (Z * Cid)) :=
  match row with
  | None => Ok None
  | Some (n, b) => c ← decode_cid b; Ok (Some (wrapping_u64 n, c))
  end.

Definition next_after (group : bytes) (current : Z) :
    prog (Pool Numbers) SqlxError (option (Z * Cid)) :=
  row ← prog_map_err sqlx_error (select (row_after group (as_i64 current)));
  lift (decode_row row).

Definition prev_before (group : bytes) (current : Z) :
    prog (Pool Numbers) SqlxError (option (Z * Cid)) :=
  row ← prog_map_err sqlx_error (select (row_before group (as_i64 current)));
  lift (decode_row row).

Definition group_range (group : bytes) : prog (Pool Numbers) SqlxError (Z * Z) :=
  row ← prog_map_err sqlx_error (select (min_max group));
  match row with
  | (Some lo, Some hi) => mret (wrapping_u64 lo, wrapping_u64 hi)
  | _ => mret (1, 0)
  end.

(** ** The abstract numbering *)

(** Article [n] of a group is the element at position [n - 1]. *)
Definition nth_article (l : list Cid) (n : Z) : option Cid :=
  if 1 <=? n then l !! Z.to_nat (n - 1) else None.

Definition numbered (c : Cid) (l : list Cid) : list Cid :=
  if bool_decide (c ∈ l) then l else l ++ [c].

Definition record (g : bytes) (c : Cid) (L : bytes → list Cid) : bytes → list Cid :=
  λ g', if bool_decide (g' = g) then numbered c (L g) else L g'.

Definition represents (t : Numbers) (L : bytes → list Cid) : Prop :=
  (∀ g, NoDup (L g)) ∧ ∀ g n, t !! (g, n) = cid_to_bytes <$> nth_article (L g) n.

(** ** Lemmas *)

Context {laws : CidLaws lib}.

Lemma foldr_max_spec x l :
  foldr Z.max x l ∈ x :: l ∧ ∀ y, y ∈ x :: l → y <= foldr Z.max x l.
Proof.
  induction l as [|z l [IHin IHle]]; simpl.
  - split; [set_solver|]. intros y ->%list_elem_of_singleton. lia.
  - split; [destruct (Z.max_spec z (foldr Z.max x l)) as [[_ ->]|[_ ->]]; set_solver|].
    intros y Hy. assert (y = z ∨ y ∈ x :: l) as [->|Hin] by set_solver; [lia|].
    specialize (IHle y Hin). lia.
Qed.

Lemma foldr_min_spec x l :
  foldr Z.min x l ∈ x :: l ∧ ∀ y, y ∈ x :: l → foldr Z.min x l <= y.
Proof.
  induction l as [|z l [IHin IHle]]; simpl.
  - split; [set_solver|]. intros y ->%list_elem_of_singleton. lia.
  - split; [destruct (Z.min_spec z (foldr Z.min x l)) as [[_ ->]|[_ ->]]; set_solver|].
    intros y Hy. assert (y = z ∨ y ∈ x :: l) as [->|Hin] by set_solver; [lia|].
    specialize (IHle y Hin). lia.
Qed.

(** The aggregates of a list that holds exactly the numbers of an interval. *)
Lemma sel_max_interval l a b :
  (∀ n, n ∈ l ↔ a <= n <= b) → sel_max l = if a <=? b then Some b else None.
Proof.
  intros Hl. destruct l as [|x l]; simpl.
  - break_if; to_prop; [|done]. exfalso. apply (not_elem_of_nil b), Hl. lia.
  - destruct (foldr_max_spec x l) as [Hin Hle]. apply Hl in Hin.
    break_if; to_prop; [|lia]. f_equal.
    assert (b <= foldr Z.max x l) by (apply Hle, Hl; lia). lia.
Qed.

Lemma sel_min_interval l a b :
  (∀ n, n ∈ l ↔ a <= n <= b) → sel_min l = if a <=? b then Some a else None.
Proof.
  intros Hl. destruct l as [|x l]; simpl.
  - break_if; to_prop; [|done]. exfalso. apply (not_elem_of_nil b), Hl. lia.
  - destruct (foldr_min_spec x l) as [Hin Hle]. apply Hl in Hin.
    break_if; to_prop; [|lia]. f_equal.
    assert (foldr Z.min x l <= a) by (apply Hle, Hl; lia). lia.
Qed.

Lemma group_rows_spec (g : bytes) (n : Z) (b : bytes) (t : Numbers) : (n, b) ∈ group_rows g t ↔ t !! (g, n) = Some b.
Proof.
  unfold group_rows. rewrite list_elem_of_omap. rewrite <- elem_of_map_to_list. split.
  - intros ([[g' n'] b'] & Hin & Heq). simpl in Heq. case_bool_decide; naive_solver.
  - intros Hin. exists (g, n, b). split; [done|]. simpl. by rewrite bool_decide_true.
Qed.

Lemma nth_article_bound l n c : nth_article l n = Some c → 1 <= n <= Z.of_nat (length l).
Proof.
  unfold nth_article. break_if; [|done]. to_prop. intros H%lookup_lt_Some. lia.
Qed.

Lemma nth_article_lookup l n : 1 <= n <= Z.of_nat (length l) → is_Some (nth_article l n).
Proof.
  intros Hn. unfold nth_article. break_if; to_prop; [|lia]. apply lookup_lt_is_Some. lia.
Qed.

Lemma represents_numbers t L g n :
  represents t L → n ∈ (group_rows g t).*1 ↔ 1 <= n <= Z.of_nat (length (L g)).
Proof.
  intros [_ HL]. rewrite list_elem_of_fmap. split.
  - intros ([m b] & -> & Hin%group_rows_spec). rewrite HL in Hin.
    apply fmap_Some in Hin as (c & Hc & _). by apply nth_article_bound in Hc.
  - intros Hn%nth_article_lookup. destruct Hn as [c Hc]. exists (n, cid_to_bytes c).
    split; [done|]. apply group_rows_spec. by rewrite HL, Hc.
Qed.

Lemma represents_max t L g :
  represents t L → default 0 (sel_max (group_rows g t).*1) = Z.of_nat (length (L g)).
Proof.
  intros HL. rewrite (sel_max_interval _ 1 (Z.of_nat (length (L g)))) by (intros; by apply represents_numbers).
  break_if; to_prop; simpl; lia.
Qed.

Lemma numbers_with_spec t L g c n :
  represents t L → n ∈ numbers_with g (cid_to_bytes c) t ↔ nth_article (L g) n = Some c.
Proof.
  intros [_ HL]. unfold numbers_with. rewrite list_elem_of_fmap. split.
  - intros ([m b] & -> & [Hb Hin]%list_elem_of_filter). simpl in *. apply group_rows_spec in Hin.
    rewrite HL in Hin. apply fmap_Some in Hin as (d & Hd & ->). by apply cid_to_bytes_inj in Hb as ->.
  - intros Hn. exists (n, cid_to_bytes c). split; [done|]. apply list_elem_of_filter. split; [done|].
    apply group_rows_spec. by rewrite HL, Hn.
Qed.

Lemma nth_article_elem l c : c ∈ l ↔ ∃ n, nth_article l n = Some c.
Proof.
  split.
  - intros [i Hi]%list_elem_of_lookup. exists (Z.of_nat i + 1). unfold nth_article.
    break_if; to_prop; [|lia]. by replace (Z.to_nat (Z.of_nat i + 1 - 1)) with i by lia.
  - intros [n Hn]. unfold nth_article in Hn. break_if; [|done]. by eapply list_elem_of_lookup_2.
Qed.

Lemma nth_article_snoc l c n :
  nth_article (l ++ [c]) n = if n =? Z.of_nat (length l) + 1 then Some c else nth_article l n.
Proof.
  unfold nth_article. destruct (1 <=? n) eqn:E1; to_prop.
  - destruct (n =? Z.of_nat (length l) + 1) eqn:E; to_prop.
    + replace (Z.to_nat (n - 1)) with (length l) by lia. by rewrite lookup_app_r, Nat.sub_diag.
    + destruct (decide (Z.to_nat (n - 1) < length l)%nat).
      * by rewrite lookup_app_l.
      * rewrite !lookup_ge_None_2; [done|lia|]. rewrite length_app. simpl. lia.
  - destruct (n =? Z.of_nat (length l) + 1) eqn:E; to_prop; [lia|done].
Qed.

Lemma insert_next_record t L g c :
  represents t L → represents (insert_next g (cid_to_bytes c) t) (record g c L).
Proof.
  intros HL. unfold insert_next. rewrite (represents_max _ L) by done.
  rewrite bool_decide_false.
  2:{ destruct HL as [_ HL]. rewrite HL, fmap_is_Some. intros [d Hd%nth_article_bound]. lia. }
  unfold record, numbered. destruct (decide (c ∈ L g)) as [Hin|Hin].
  - rewrite (bool_decide_true (c ∈ L g)) by done.
    apply nth_article_elem in Hin as [n Hn]. rewrite <- numbers_with_spec in Hn by done.
    rewrite bool_decide_false by (intros Heq; rewrite Heq in Hn; by apply not_elem_of_nil in Hn). simpl.
    destruct HL as [Hnd HL]. split; intros g'; [case_bool_decide; auto|].
    intros m. rewrite HL. case_bool_decide; congruence.
  - rewrite (bool_decide_false (c ∈ L g)), bool_decide_true; simpl; [|..|done].
    2:{ destruct (numbers_with g (cid_to_bytes c) t) as [|n l] eqn:E; [done|]. exfalso. apply Hin.
        apply nth_article_elem. exists n. rewrite <- numbers_with_spec by done. rewrite E. set_solver. }
    destruct HL as [Hnd HL]. split; intros g'.
    + case_bool_decide; [|auto]. apply NoDup_app. split_and!; [auto|set_solver|apply NoDup_singleton].
    + intros m. destruct (decide (g' = g)) as [->|Hg].
      * rewrite bool_decide_true, nth_article_snoc by done. break_if; to_prop.
        -- subst m. by rewrite lookup_insert_eq.
        -- rewrite lookup_insert_ne, HL by congruence. done.
      * rewrite bool_decide_false, lookup_insert_ne, HL by congruence. done.
Qed.

Lemma decode_cid_bytes c : decode_cid (cid_to_bytes c) = Ok c.
Proof. unfold decode_cid. by rewrite cid_roundtrip. Qed.

Lemma length_numbered c l : (length l <= length (numbered c l) <= S (length l))%nat.
Proof. unfold numbered. case_bool_decide; [lia|]. rewrite length_app. simpl. lia. Qed.

(** A query that only reads: the rows stay and the answer is a function of
    them. *)
Lemma select_reads {A B : Type} (f : Numbers → A) (k : A → prog (Pool Numbers) SqlxError B) p b :
  (∀ p', k (f (rows p)) p' = (Ok b, p')) →
  db_outcome p (mbind k (prog_map_err sqlx_error (select f))) (λ r t, t = rows p ∧ r = b) (λ _, False).
Proof.
  intros Hk. eapply (db_outcome_bind _ _ _ (λ a, a = f (rows p))).
  - apply db_outcome_map_err, select_ok.
  - intros a p' Hr ->. unfold db_outcome. rewrite Hk. auto.
Qed.

Lemma assign_outcome p L g c :
  represents (rows p) L → Z.of_nat (length (L g)) < i64_max →
  db_outcome p (assign_number g c)
    (λ n t, represents t (record g c L) ∧ nth_article (record g c L g) n = Some c) (λ _, False).
Proof.
  intros HL Hlen. pose proof (insert_next_record _ _ g c HL) as HL'. unfold assign_number. cbv zeta.
  eapply (db_outcome_bind _ _ _ (λ t, t = rows p)); [auto with sql_db|].
  intros tx p1 H1 ->. apply db_outcome_trip. intros p2 H2. apply db_outcome_trip. intros p3 H3.
  assert (Hc : c ∈ record g c L g).
  { unfold record, numbered. rewrite bool_decide_true by done. case_bool_decide; set_solver. }
  apply nth_article_elem in Hc as [m Hm]. rewrite <- (numbers_with_spec _ _ _ _ _ HL') in Hm.
  destruct (numbers_with g (cid_to_bytes c) (insert_next g (cid_to_bytes c) (rows p))) as [|n l] eqn:E;
    [set_solver|].
  assert (Hn : nth_article (record g c L g) n = Some c).
  { rewrite <- (numbers_with_spec _ _ _ _ _ HL'), E. set_solver. }
  simpl. unfold db_outcome, mbind, prog_bind. cbn [prog_map_err].
  pose proof (commit_tx_ok (insert_next g (cid_to_bytes c) (rows p)) p3 (λ _, False)) as Hk.
  unfold db_outcome, prog_map_err in *. destruct (commit_tx _ p3) as [[[]|e] p4]; simpl.
  - destruct Hk as [Hk ->]. split; [done|]. split; [done|].
    rewrite wrapping_small; [done|]. pose proof (nth_article_bound _ _ _ Hn).
    pose proof (length_numbered c (L g)). unfold record in *. rewrite bool_decide_true in * by done.
    unfold in_u64, u64_max, i64_max in *. lia.
  - destruct Hk as (Hk & -> & [[]|Hk']). auto.
Qed.

Lemma lookup_cid_outcome p L g n :
  represents (rows p) L → Z.of_nat (length (L g)) < i64_max → in_u64 n →
  db_outcome p (lookup_cid g n) (λ r t, t = rows p ∧ r = nth_article (L g) n) (λ _, False).
Proof.
  intros [_ HL] Hlen Hn. apply select_reads. intros p'. rewrite HL.
  assert (nth_article (L g) (as_i64 n) = nth_article (L g) n) as ->.
  { unfold as_i64. break_if; to_prop; [done|]. unfold nth_article, in_u64, u64_max, i64_max in *.
    rewrite (proj2 (Z.leb_gt 1 (n - 2 ^ 64))) by lia. break_if; [|done].
    rewrite lookup_ge_None_2; [done|lia]. }
  destruct (nth_article (L g) n) as [c|]; simpl; [|done]. by rewrite decode_cid_bytes.
Qed.

Lemma row_after_spec t L g n :
  represents t L → 0 <= n →
  row_after g n t = (λ c, (n + 1, cid_to_bytes c)) <$> L g !! Z.to_nat n.
Proof.
  intros HL Hn. unfold row_after.
  rewrite (sel_min_interval _ (n + 1) (Z.of_nat (length (L g)))).
  2:{ intros m. rewrite list_elem_of_filter, represents_numbers by done. lia. }
  break_if; to_prop; cbn [mbind option_bind option_fmap option_map fmap].
  - rewrite (proj2 HL). unfold nth_article. rewrite (proj2 (Z.leb_le 1 (n + 1))) by lia.
    replace (n + 1 - 1) with n by lia. by destruct (L g !! Z.to_nat n).
  - rewrite lookup_ge_None_2; [done|lia].
Qed.

Lemma row_before_spec t L g n :
  represents t L → n <= Z.of_nat (length (L g)) + 1 →
  row_before g n t = (λ c, (n - 1, cid_to_bytes c)) <$> nth_article (L g) (n - 1).
Proof.
  intros HL Hn. unfold row_before.
  rewrite (sel_max_interval _ 1 (n - 1)).
  2:{ intros m. rewrite list_elem_of_filter, represents_numbers by done. lia. }
  break_if; to_prop; cbn [mbind option_bind option_fmap option_map fmap].
  - rewrite (proj2 HL). by destruct (nth_article (L g) (n - 1)).
  - unfold nth_article. by rewrite (proj2 (Z.leb_gt 1 (n - 1))) by lia.
Qed.

Lemma next_after_outcome p L g n :
  represents (rows p) L → Z.of_nat (length (L g)) < i64_max → 0 <= n <= i64_max →
  db_outcome p (next_after g n)
    (λ r t, t = rows p ∧ r = (λ c, (n + 1, c)) <$> L g !! Z.to_nat n) (λ _, False).
Proof.
  intros HL Hlen Hn. apply select_reads. intros p'. rewrite as_i64_small by done.
  rewrite (row_after_spec _ L) by (done || lia). unfold lift.
  destruct (L g !! Z.to_nat n) as [c|] eqn:E; simpl; [|done]. rewrite decode_cid_bytes. simpl.
  apply lookup_lt_Some in E.
  rewrite wrapping_small by (unfold in_u64, u64_max, i64_max in *; lia). done.
Qed.

Lemma prev_before_outcome p L g n :
  represents (rows p) L → Z.of_nat (length (L g)) < i64_max →
  0 <= n <= Z.of_nat (length (L g)) + 1 →
  db_outcome p (prev_before g n)
    (λ r t, t = rows p ∧ r = (λ c, (n - 1, c)) <$> nth_article (L g) (n - 1)) (λ _, False).
Proof.
  intros HL Hlen Hn. apply select_reads. intros p'.
  rewrite as_i64_small by (unfold i64_max in *; lia).
  rewrite (row_before_spec _ L) by (done || lia). unfold lift.
  destruct (nth_article (L g) (n - 1)) as [c|] eqn:E; simpl; [|done]. rewrite decode_cid_bytes. simpl.
  apply nth_article_bound in E.
  rewrite wrapping_small by (unfold in_u64, u64_max, i64_max in *; lia). done.
Qed.

Lemma group_range_outcome p L g :
  represents (rows p) L → Z.of_nat (length (L g)) < i64_max →
  db_outcome p (group_range g) (λ r t, t = rows p ∧ r = (1, Z.of_nat (length (L g)))) (λ _, False).
Proof.
  intros HL Hlen. apply select_reads. intros p'. unfold min_max.
  rewrite (sel_max_interval _ 1 (Z.of_nat (length (L g)))) by (intros; by apply represents_numbers).
  rewrite (sel_min_interval _ 1 (Z.of_nat (length (L g)))) by (intros; by apply represents_numbers).
  break_if; to_prop.
  - rewrite !wrapping_small by (unfold in_u64, u64_max, i64_max in *; lia). done.
  - by replace (Z.of_nat (length (L g))) with 0 by lia.
Qed.

(** C32. The article number store keeps, for every group, a list of distinct
    CIDs that only grows at its end, article [n] being the element at position
    [n - 1].  When the table represents such lists, [assign_number] appends
    the CID unless the group already has it and returns its number;
    [lookup_cid] reads the list, [next_after] and [prev_before] give the
    neighbouring article, and [group_range] is [1 .. length] (so [1 .. 0] for
    an empty group).  Each of them fails only when the database does, and then
    leaves the table as it was. *)
Theorem numbers_refine_lists p L g :
  represents (rows p) L → Z.of_nat (length (L g)) < i64_max →
  (∀ c, db_outcome p (assign_number g c)
     (λ n t, represents t (record g c L) ∧ nth_article (record g c L g) n = Some c) (λ _, False)) ∧
  (∀ n, in_u64 n →
     db_outcome p (lookup_cid g n) (λ r t, t = rows p ∧ r = nth_article (L g) n) (λ _, False)) ∧
  (∀ n, 0 <= n <= Z.of_nat (length (L g)) →
     db_outcome p (next_after g n)
       (λ r t, t = rows p ∧ r = (λ c, (n + 1, c)) <$> nth_article (L g) (n + 1)) (λ _, False) ∧
     db_outcome p (prev_before g n)
       (λ r t, t = rows p ∧ r = (λ c, (n - 1, c)) <$> nth_article (L g) (n - 1)) (λ _, False)) ∧
  db_outcome p (group_range g) (λ r t, t = rows p ∧ r = (1, Z.of_nat (length (L g)))) (λ _, False).
Proof.
  intros HL Hlen. split_and!.
  - intros c. by apply assign_outcome.
  - intros n Hn. by apply lookup_cid_outcome.
  - intros n Hn. split; [|apply prev_before_outcome; (done || lia)].
    assert (nth_article (L g) (n + 1) = L g !! Z.to_nat n) as ->.
    { unfold nth_article. rewrite (proj2 (Z.leb_le 1 (n + 1))) by lia. by replace (n + 1 - 1) with n by lia. }
    apply next_after_outcome; (done || lia).
  - by apply group_range_outcome.
Qed.

End Numbers.

(** ** Samples *)

Module NumberSamples.
Import ToyCrypto.

Definition g1 : bytes := lit "comp.test".
Definition sample_cid (n : Z) : Cid := cid_new_v1 113 18 [n].
Definition sample_lists (g : bytes) : list Cid :=
  if bool_decide (g = g1) then [sample_cid 7; sample_cid 8] else [].
Definition sample_rows : gmap (bytes * Z) bytes :=
  {[ (g1, 1) := cid_to_bytes (sample_cid 7); (g1, 2) := cid_to_bytes (sample_cid 8) ]}.

Lemma sample_represents : represents sample_rows sample_lists.
Proof.
  split.
  - intros g. unfold sample_lists. case_bool_decide; [|constructor].
    apply (bool_decide_eq_true_1 _). vm_refl.
  - intros g n. unfold sample_rows, sample_lists. destruct (decide (g = g1)) as [->|Hg].
    + rewrite bool_decide_true by done. destruct (decide (n = 1)) as [->|]; [by rewrite lookup_insert_eq|].
      rewrite lookup_insert_ne by congruence.
      destruct (decide (n = 2)) as [->|]; [by rewrite lookup_singleton_eq|].
      rewrite lookup_singleton_ne by congruence. unfold nth_article.
      break_if; [|done]. to_prop. rewrite lookup_ge_None_2; [done|]. simpl. lia.
    + rewrite bool_decide_false, lookup_insert_ne, lookup_singleton_ne by congruence.
      unfold nth_article. by break_if.
Qed.

Lemma numbers_refine_witness :
  represents sample_rows sample_lists ∧
  db_outcome (mkPool sample_rows []) (assign_number g1 (sample_cid 9))
    (λ n t, represents t (record g1 (sample_cid 9) sample_lists) ∧
       nth_article (record g1 (sample_cid 9) sample_lists g1) n = Some (sample_cid 9)) (λ _, False).
Proof.
  split; [exact sample_represents|].
  refine (proj1 (numbers_refine_lists (mkPool sample_rows []) sample_lists g1 sample_represents _) _).
  done.
Defined.

End NumberSamples.

End ArticleNumbers.
