(* ===== verification/Overview.v ===== *)
(** The overview index: [crates/reader/src/store/overview.rs] and the lines
    made of it, [crates/reader/src/session/commands/over.rs], [hdr.rs].

    [extract_overview] reads the five header fields of an article of arbitrary
    bytes; whatever the article holds, its OVER line is one line of eight
    tab-separated fields.  [chrono]'s date parser is the class [DateLib]. *)

From S2P Require Import Prelude Bytes Decimal Utf8 Sql SqliteStorage Wildmat Headers ArticleNumbers.

Module Overview.
Import Decimal Utf8 Wildmat ArticleNumbers SqliteStorage Sql.

(** [DateTime::parse_from_rfc2822(s).ok().map(|dt| dt.timestamp())]. *)
Class DateLib := { parse_from_rfc2822 : bytes → option Z }.

(** ** Records *)

Record OverviewRow := mkOverviewRow {
  row_article_number : Z;
  row_subject : bytes;
  row_from_header : bytes;
  row_date_header : bytes;
  row_message_id : bytes;
  row_references_header : bytes;
  row_byte_count : Z;
  row_line_count : Z;
  row_did_sig_valid : option Z
}.

Record OverviewRecord := mkOverview {
  article_number : Z;
  subject : bytes;
  from : bytes;
  date : bytes;
  message_id : bytes;
  references : bytes;
  byte_count : Z;
  line_count : Z;
  did_sig_valid : option bool
}.

#[export] Instance overview_record_eq_dec : EqDecision OverviewRecord.
Proof. solve_decision. Defined.

Definition MAX_OVER_RESULTS : nat := Z.to_nat 10000.

Definition to_row (record : OverviewRecord) : OverviewRow :=
  mkOverviewRow (as_i64 (article_number record)) (subject record) (from record) (date record)
    (message_id record) (references record) (as_i64 (byte_count record))
    (as_i64 (line_count record)) (Z.b2z <$> did_sig_valid record).

Definition of_row (r : OverviewRow) : OverviewRecord :=
  mkOverview (wrapping_u64 (row_article_number r)) (row_subject r) (row_from_header r)
    (row_date_header r) (row_message_id r) (row_references_header r)
    (wrapping_u64 (row_byte_count r)) (wrapping_u64 (row_line_count r))
    ((λ v, negb (v =? 0)) <$> row_did_sig_valid r).

(** ** The store *)

(** [overview], primary key [(group_name, article_number)]. *)
Abbreviation OverviewTable := (gmap (bytes * Z) OverviewRow) (only parsing).

Section Store.
Context {engine : SqlEngine} {dates : DateLib}.

(** [INSERT ... ON CONFLICT DO NOTHING]. *)
Definition insert (group : bytes) (record : OverviewRecord) : prog (Pool OverviewTable) SqlxError () :=
  let row := to_row record in
  prog_map_err sqlx_error (execute (λ t : OverviewTable,
    match t !! (group, row_article_number row) with
    | Some _ => t
    | None => <[ (group, row_article_number row) := row ]> t
    end)).

(** [WHERE message_id = ? ORDER BY article_number ASC LIMIT 1]; among equal
    numbers of different groups the engine chooses. *)
Definition row_with_msgid (message_id : bytes) (t : OverviewTable) : option OverviewRow :=
  let hits := filter (λ r : (bytes * Z) * OverviewRow, row_message_id r.2 = message_id) (map_to_list t) in
  n ← sel_min ((λ r : (bytes * Z) * OverviewRow, r.1.2) <$> hits);
  g ← head (row_order ((λ r : (bytes * Z) * OverviewRow, r.1.1) <$>
              filter (λ r : (bytes * Z) * OverviewRow, r.1.2 = n) hits));
  t !! (g, n).

Definition query_by_msgid (message_id : bytes) : prog (Pool OverviewTable) SqlxError (option OverviewRecord) :=
  row ← prog_map_err sqlx_error (select (row_with_msgid message_id));
  mret (of_row <$> row).

Definition query_by_number (group : bytes) (article_number : Z) :
    prog (Pool OverviewTable) SqlxError (option OverviewRecord) :=
  row ← prog_map_err sqlx_error (select (λ t : OverviewTable, t !! (group, as_i64 article_number)));
  mret (of_row <$> row).

(** [WHERE group_name = ? AND article_number BETWEEN low AND high ORDER BY
    article_number ASC]. *)
Definition numbers_between (group : bytes) (low high : Z) (t : OverviewTable) : list Z :=
  (λ r : (bytes * Z) * OverviewRow, r.1.2) <$>
    filter (λ r : (bytes * Z) * OverviewRow, r.1.1 = group ∧ low <= r.1.2 <= high) (map_to_list t).

Definition rows_between (group : bytes) (low high : Z) (t : OverviewTable) : list OverviewRow :=
  omap (λ n, t !! (group, n)) (merge_sort Z.le (numbers_between group low high t)).

Definition query_range (group : bytes) (low high : Z) :
    prog (Pool OverviewTable) SqlxError (list OverviewRecord) :=
  rs ← prog_map_err sqlx_error (select (λ t : OverviewTable,
         take MAX_OVER_RESULTS (rows_between group (as_i64 low) (as_i64 high) t)));
  mret (of_row <$> rs).

(** [Vec::dedup]. *)
Fixpoint dedup (l : list bytes) : list bytes :=
  match l with
  | x :: ((y :: _) as l') => if bool_decide (x = y) then dedup l' else x :: dedup l'
  | _ => l
  end.

Definition newer (wildmat : bytes) (since : Z) (r : (bytes * Z) * OverviewRow) : option bytes :=
  if negb (matches_wildmat r.1.1 wildmat) then None
  else
    let ts := default 0 (parse_from_rfc2822 (trim (row_date_header r.2))) in
    if since <? ts then Some (row_message_id r.2) else None.

Definition message_ids_since (wildmat : bytes) (since_unix_secs : Z) :
    prog (Pool OverviewTable) SqlxError (list bytes) :=
  rs ← prog_map_err sqlx_error (select (λ t : OverviewTable,
         filter (λ r : (bytes * Z) * OverviewRow, row_message_id r.2 ≠ []) (map_to_list t)));
  mret (dedup (sort_bytes (omap (newer wildmat (as_i64 since_unix_secs)) rs))).

End Store.

(** ** Extraction *)

Definition blank_field (c : Z) : bool := (c =? HT) || (c =? CR) || (c =? LF).

Definition sanitize_overview_field (s : bytes) : bytes :=
  if negb (existsb blank_field s) then s
  else (λ c, if blank_field c then SP else c) <$> s.

Definition strip_header_name (line name : bytes) : option bytes :=
  if is_char_boundary line (length name) && (length name <=? length line)%nat then
    if negb (eq_ignore_ascii_case (take (length name) line) name) then None
    else rest ← strip_prefix (lit ":") (drop (length name) line); Some (trim rest)
  else None.

Inductive CurField := FNone | FSubject | FFrom | FDate | FMessageId | FReferences.

Record Fields := mkFields {
  f_subject : bytes; f_from : bytes; f_date : bytes; f_message_id : bytes; f_references : bytes
}.

Definition no_fields : Fields := mkFields [] [] [] [] [].

Definition update_field (f : bytes → bytes) (cur : CurField) (fs : Fields) : Fields :=
  match fs, cur with
  | mkFields s fr d m r, FSubject => mkFields (f s) fr d m r
  | mkFields s fr d m r, FFrom => mkFields s (f fr) d m r
  | mkFields s fr d m r, FDate => mkFields s fr (f d) m r
  | mkFields s fr d m r, FMessageId => mkFields s fr d (f m) r
  | mkFields s fr d m r, FReferences => mkFields s fr d m (f r)
  | _, FNone => fs
  end.

(** The [if let ... else if let] chain. *)
Definition header_field (line : bytes) : CurField * bytes :=
  match strip_header_name line (lit "Subject") with Some v => (FSubject, v) | None =>
  match strip_header_name line (lit "From") with Some v => (FFrom, v) | None =>
  match strip_header_name line (lit "Date") with Some v => (FDate, v) | None =>
  match strip_header_name line (lit "Message-ID") with Some v => (FMessageId, v) | None =>
  match strip_header_name line (lit "References") with Some v => (FReferences, v) | None =>
  (FNone, []) end end end end end.

(** [raw.trim_end_matches('\r')]. *)
Definition trim_cr (raw : bytes) : bytes := rev (drop_while (Z.eqb CR) (rev raw)).

Fixpoint scan_header (cur : CurField) (fs : Fields) (raws : list bytes) : Fields :=
  match raws with
  | [] => fs
  | raw :: raws' =>
      let line := trim_cr raw in
      if bool_decide (line = []) then fs
      else if starts_with line (lit " ") || starts_with line [HT] then
        scan_header cur (update_field (λ v, v ++ [SP] ++ trim_start line) cur fs) raws'
      else
        let '(cur', value) := header_field line in
        scan_header cur' (update_field (λ _, value) cur' fs) raws'
  end.

Definition extract_overview (header_bytes body_bytes : bytes) : OverviewRecord :=
  let fs := scan_header FNone no_fields (split LF (from_utf8_lossy header_bytes)) in
  mkOverview 0
    (sanitize_overview_field (f_subject fs)) (sanitize_overview_field (f_from fs))
    (sanitize_overview_field (f_date fs)) (sanitize_overview_field (f_message_id fs))
    (sanitize_overview_field (f_references fs))
    (Z.of_nat (length body_bytes)) (Z.of_nat (length (filter (λ b, b = LF) body_bytes))) None.

(** [record.article_number = number]. *)
Definition with_number (number : Z) (r : OverviewRecord) : OverviewRecord :=
  mkOverview number (subject r) (from r) (date r) (message_id r) (references r)
    (byte_count r) (line_count r) (did_sig_valid r).

(** ** OVER and HDR lines *)

Definition format_overview_line (record : OverviewRecord) : bytes :=
  to_decimal (article_number record) ++ [HT] ++ subject record ++ [HT] ++ from record ++ [HT] ++
  date record ++ [HT] ++ message_id record ++ [HT] ++ references record ++ [HT] ++
  to_decimal (byte_count record) ++ [HT] ++ to_decimal (line_count record).

Record HdrRecord := mkHdr { hdr_number : Z; hdr_value : bytes }.

Definition hdr_body (records : list HdrRecord) : list bytes :=
  (λ r, to_decimal (hdr_number r) ++ [SP] ++ hdr_value r) <$> records.

Definition extract_field (record : OverviewRecord) (field : bytes) : option bytes :=
  let f := to_ascii_lowercase field in
  if bool_decide (f = lit "subject") then Some (subject record)
  else if bool_decide (f = lit "from") then Some (from record)
  else if bool_decide (f = lit "date") then Some (date record)
  else if bool_decide (f = lit "message-id") then Some (message_id record)
  else if bool_decide (f = lit "references") then Some (references record)
  else if bool_decide (f = lit ":bytes") then Some (to_decimal (byte_count record))
  else if bool_decide (f = lit ":lines") then Some (to_decimal (line_count record))
  else None.

(** ** Lemmas *)

Definition clean (s : bytes) : Prop := Forall (λ c, blank_field c = false) s.

Lemma sanitize_clean s : clean (sanitize_overview_field s).
Proof.
  unfold sanitize_overview_field, clean. destruct (existsb blank_field s) eqn:E; simpl.
  - apply Forall_fmap, Forall_true. intros c. simpl. by destruct (blank_field c) eqn:?.
  - by apply existsb_false.
Qed.

Lemma decimal_clean x : 0 <= x → clean (to_decimal x).
Proof.
  intros Hx. eapply Forall_impl; [by apply dec_digits_digit|]. intros c Hc.
  unfold is_ascii_digit in Hc. to_prop. unfold blank_field, HT, CR, LF.
  apply orb_false_iff; split; [apply orb_false_iff; split|]; apply Z.eqb_neq; lia.
Qed.

Lemma clean_not_elem s c : clean s → blank_field c = true → c ∉ s.
Proof. intros Hs Hc Hin. unfold clean in Hs. rewrite Forall_forall in Hs. specialize (Hs c Hin). congruence. Qed.

Definition overview_fields (r : OverviewRecord) : list bytes :=
  [to_decimal (article_number r); subject r; from r; date r; message_id r; references r;
   to_decimal (byte_count r); to_decimal (line_count r)].

(** A record whose numbers fit and whose texts hold no tab or newline. *)
Definition record_ok (r : OverviewRecord) : Prop :=
  in_u64 (article_number r) ∧ in_u64 (byte_count r) ∧ in_u64 (line_count r) ∧
  Forall clean (overview_fields r).

Lemma format_join r : format_overview_line r = join [HT] (overview_fields r).
Proof. reflexivity. Qed.

Lemma overview_line_split r :
  record_ok r → split HT (format_overview_line r) = overview_fields r.
Proof.
  intros (_ & _ & _ & Hc). rewrite format_join. apply split_join; [done|].
  eapply Forall_impl; [exact Hc|]. intros s Hs. by apply clean_not_elem.
Qed.

Lemma overview_line_one_line r c :
  record_ok r → c = CR ∨ c = LF → c ∉ format_overview_line r.
Proof.
  intros (_ & _ & _ & Hc) Hcc. unfold overview_fields in Hc.
  assert (blank_field c = true ∧ c ≠ HT) as [Hb Hne] by (by destruct Hcc as [-> | ->]).
  assert (Hs : ∀ s, clean s → c ∉ s) by (intros; by apply clean_not_elem).
  assert (Ht : c ∉ [HT]) by (intros ->%list_elem_of_singleton; done).
  rewrite !Forall_cons in Hc. destruct Hc as (?&?&?&?&?&?&?&?&_).
  unfold format_overview_line. rewrite !not_elem_of_app. auto 20.
Qed.

Lemma of_to_row r :
  in_u64 (article_number r) → in_u64 (byte_count r) → in_u64 (line_count r) → of_row (to_row r) = r.
Proof.
  intros H1 H2 H3. unfold of_row, to_row. cbn. rewrite !as_i64_u64 by done.
  destruct r as [? ? ? ? ? ? ? ? [[]|]]; reflexivity.
Qed.

Lemma numbers_between_elem (t : OverviewTable) g lo hi n :
  n ∈ numbers_between g lo hi t ↔ lo <= n <= hi ∧ is_Some (t !! (g, n)).
Proof.
  unfold numbers_between. rewrite list_elem_of_fmap. split.
  - intros ([[g' m] r] & -> & [[Hg Hb] Hin]%list_elem_of_filter). simpl in *. subst.
    apply elem_of_map_to_list in Hin. eauto.
  - intros (Hb & [r Hr]). exists ((g, n), r). split; [done|].
    apply list_elem_of_filter. split; [done|]. by apply elem_of_map_to_list.
Qed.

Lemma numbers_between_NoDup (t : OverviewTable) g lo hi : NoDup (numbers_between g lo hi t).
Proof.
  apply NoDup_fmap_2_strong.
  - intros [[g1 n1] r1] [[g2 n2] r2]. rewrite !list_elem_of_filter, !elem_of_map_to_list. simpl.
    intros [[-> _] H1] [[-> _] H2] ->. congruence.
  - apply NoDup_filter, NoDup_map_to_list.
Qed.

(** The rows of a range: exactly the stored ones, in ascending order. *)
Lemma rows_between_elem (t : OverviewTable) g lo hi row :
  row ∈ rows_between g lo hi t ↔ ∃ n, lo <= n <= hi ∧ t !! (g, n) = Some row.
Proof.
  unfold rows_between. rewrite list_elem_of_omap. setoid_rewrite merge_sort_Permutation.
  setoid_rewrite numbers_between_elem. split; [naive_solver|]. intros (n & Hn & Hr). eauto 10.
Qed.

Lemma rows_between_one (t : OverviewTable) g n row :
  t !! (g, n) = Some row → rows_between g n n t = [row].
Proof.
  intros Hr. unfold rows_between.
  assert (numbers_between g n n t ≡ₚ [n]) as Hp.
  { apply NoDup_Permutation; [apply numbers_between_NoDup|apply NoDup_singleton|].
    intros m. rewrite numbers_between_elem, list_elem_of_singleton.
    split; [lia|]. intros ->. eauto with lia. }
  rewrite <- (merge_sort_Permutation Z.le) in Hp. apply Permutation_singleton_r in Hp. rewrite Hp. simpl. by rewrite Hr.
Qed.

Lemma extract_ok header body n :
  in_u64 n → in_u64 (Z.of_nat (length body)) →
  record_ok (with_number n (extract_overview header body)).
Proof.
  intros Hn Hb. simpl.
  assert (in_u64 (Z.of_nat (length (filter (λ b, b = LF) body)))).
  { unfold in_u64 in *. pose proof (length_filter (λ b, b = LF) body). lia. }
  unfold in_u64 in *. split_and!; [done..|]. unfold overview_fields. simpl. repeat constructor; (apply sanitize_clean || apply decimal_clean; lia).
Qed.

(** [insert] of a new row, then the queries that find it. *)
Lemma insert_query `{SqlEngine} p g r :
  pool_reliable p → record_ok r → article_number r <= i64_max →
  rows p !! (g, article_number r) = None →
  ∃ p1 p2, insert g r p = (Ok tt, p1) ∧
    rows p1 = <[ (g, article_number r) := to_row r ]> (rows p) ∧
    query_range g (article_number r) (article_number r) p1 = (Ok [r], p2) ∧
    query_by_number g (article_number r) p1 = (Ok (Some r), p2).
Proof.
  intros Hp (Hn & Hb & Hl & _) Hmax Hnone.
  assert (Hi : as_i64 (article_number r) = article_number r)
    by (apply as_i64_small; unfold in_u64 in *; lia).
  unfold insert, query_range, query_by_number, prog_map_err, execute, select, mbind, prog_bind.
  destruct (round_trip_reliable p Hp) as (p1 & -> & Hr1 & Hp1). cbn [to_row row_article_number]. rewrite Hr1, Hi, Hnone.
  set (q := mkPool _ _). exists q. destruct (round_trip_reliable q Hp1) as (p2 & -> & Hr2 & Hp2). exists p2.
  split_and!; [done|done| |]; rewrite Hr2; unfold q; simpl rows.
  - rewrite (rows_between_one _ _ _ (to_row r)) by (apply lookup_insert_eq).
    rewrite take_ge by (unfold MAX_OVER_RESULTS; simpl length; lia).
    cbn [map_err fmap list_fmap]. by rewrite of_to_row.
  - rewrite lookup_insert_eq. cbn [map_err fmap option_fmap option_map]. by rewrite of_to_row.
Qed.

(** Whatever bytes an article consists of, its OVER line is one line of
    exactly eight tab-separated fields.  The record extracted from it, given a
    number and inserted into the index, is what [query_range] and
    [query_by_number] read back; the line formatted from it splits at the tabs
    into the number, the five header fields, the byte count and the line count,
    and holds no CR or LF, so that no header value can add a field or a
    line. *)
Theorem overview_line_is_one_row `{SqlEngine} p g n header body :
  pool_reliable p → 0 <= n <= i64_max → in_u64 (Z.of_nat (length body)) →
  rows p !! (g, n) = None →
  let r := with_number n (extract_overview header body) in
  (∃ p1 p2, insert g r p = (Ok tt, p1) ∧ query_range g n n p1 = (Ok [r], p2) ∧
     query_by_number g n p1 = (Ok (Some r), p2)) ∧
  split HT (format_overview_line r) =
    [to_decimal n; subject r; from r; date r; message_id r; references r;
     to_decimal (byte_count r); to_decimal (line_count r)] ∧
  CR ∉ format_overview_line r ∧ LF ∉ format_overview_line r.
Proof.
  intros Hp Hn Hb Hnone r.
  assert (Hok : record_ok r) by (apply extract_ok; [unfold in_u64, u64_max, i64_max in *; lia|done]).
  split_and!; [|exact (overview_line_split r Hok)|apply overview_line_one_line; auto..].
  destruct (insert_query p g r Hp Hok) as (p1 & p2 & H1 & _ & H2 & H3); [simpl; lia|done|].
  by exists p1, p2.
Qed.

Module OverviewSamples.

#[local] Instance sample_engine : SqlEngine := {| row_order l := l; row_order_perm l := Permutation_refl l |}.

Definition header0 : bytes :=
  lit "Subject: a" ++ [HT] ++ lit "b" ++ CRLF ++ [HT] ++ lit "folded" ++ CRLF ++ lit "From: x".

Lemma overview_line_witness :
  split HT (format_overview_line (with_number 5 (extract_overview header0 (lit "body" ++ CRLF)))) =
    [lit "5"; lit "a b folded"; lit "x"; []; []; []; lit "6"; lit "1"].
Proof.
  transitivity (overview_fields (with_number 5 (extract_overview header0 (lit "body" ++ CRLF))));
    [|vm_refl].
  apply (overview_line_is_one_row (mkPool ∅ []) (lit "g") 5 header0 (lit "body" ++ CRLF));
    [constructor|done|split; done|done].
Defined.

End OverviewSamples.

End Overview.
