(* ===== verification/NntpResponse.v ===== *)
(** NNTP responses of the reader: [crates/reader/src/session/response.rs], the
    response builders of [session/commands/{fetch,over,hdr,list}.rs], the
    article reader of [session/commands/post.rs] and the verification results
    of [crates/verify/src/{types,lib}.rs] they print.

    The multi-line framing is proved by a round trip: what BODY and ARTICLE
    write is read back by the server's own [read_dot_terminated]. *)

From S2P Require Import Prelude Bytes Decimal Utf8 Crypto Headers Util Wildmat Lines Overview.

Module NntpResponse.
Import Decimal Utf8 Headers Util Wildmat Lines Overview.

(** ** Responses *)

Record Response := mkResponse {
  code : Z;
  text : bytes;
  body : list bytes;
  multiline : bool
}.

#[export] Instance response_eq_dec : EqDecision Response.
Proof. solve_decision. Defined.

Definition new (code : Z) (text : bytes) : Response := mkResponse code text [] false.
Definition new_multiline (code : Z) (text : bytes) (body : list bytes) : Response :=
  mkResponse code text body true.

Definition service_available_posting_allowed := new 200 (lit "Service available, posting allowed").
Definition service_available_posting_prohibited := new 201 (lit "Service available, posting prohibited").

Definition capabilities_with_ctx (posting_allowed auth_required starttls_available sasl_oauthbearer
    search_available : bool) : Response :=
  let caps :=
    [lit "VERSION 2"; lit "READER"; lit "OVER"; lit "HDR"; lit "LIST ACTIVE NEWSGROUPS";
     lit "XCID"; lit "XVERIFY"; lit "XGET"; lit "X-CID-LOCATOR"; lit "X-USENET-IPFS-DID-VERIFIED"] ++
    (if search_available then [lit "SEARCH"] else []) ++
    (if starttls_available then [lit "STARTTLS"] else []) ++
    (if posting_allowed then [lit "POST"] else []) ++
    (if auth_required then [lit "AUTHINFO USER"] else []) ++
    (if sasl_oauthbearer then [lit "SASL OAUTHBEARER"] else []) in
  new_multiline 101 (lit "Capability list follows") caps.

Definition starttls_ready := new 382 (lit "Continue with TLS negotiation").
Definition closing_connection := new 205 (lit "Closing connection").
Definition group_selected (group : bytes) (count low high : Z) : Response :=
  new 211 (to_decimal count ++ [SP] ++ to_decimal low ++ [SP] ++ to_decimal high ++ [SP] ++ group).
Definition list_active_body := new_multiline 215 (lit "list of newsgroups follows").
Definition list_newsgroups_body := new_multiline 215 (lit "descriptions of newsgroups follow").
Definition newgroups_body := new_multiline 231 (lit "list of new newsgroups follows").
Definition newnews_body := new_multiline 230 (lit "list of new articles follows").
Definition article_exists (number : Z) (msgid : bytes) : Response :=
  new 223 (to_decimal number ++ [SP] ++ msgid ++ lit " Article exists").
Definition overview_follows := new 224 (lit "Overview info follows").
Definition hdr_follows := new_multiline 225 (lit "headers follow").
Definition xhdr_follows := new_multiline 221 (lit "Headers follow").
Definition overview_fmt_body := new_multiline 215 (lit "Order of fields in overview database.").
Definition authentication_accepted := new 281 (lit "Authentication accepted").
Definition send_article := new 340 (lit "Send article to be posted").
Definition enter_password := new 381 (lit "Enter password").
Definition no_such_newsgroup := new 411 (lit "No such newsgroup").
Definition no_newsgroup_selected := new 412 (lit "No newsgroup selected").
Definition current_article_invalid := new 420 (lit "Current article number is invalid").
Definition no_next_article := new 421 (lit "No next article").
Definition no_previous_article := new 422 (lit "No previous article").
Definition no_article_with_number := new 423 (lit "No article with that number").
Definition no_article_with_message_id := new 430 (lit "No article with that message-ID").
Definition posting_not_permitted := new 440 (lit "Posting not permitted").
Definition posting_failed := new 441 (lit "Posting failed").
Definition authentication_required := new 480 (lit "Authentication required").
Definition authentication_failed := new 481 (lit "Authentication failed").
Definition authentication_out_of_sequence :=
  new 482 (lit "Authentication commands issued out of sequence").
Definition unknown_command := new 500 (lit "Unknown command").
Definition syntax_error := new 501 (lit "Syntax error in command").
Definition command_unavailable := new 502 (lit "Command unavailable").
Definition program_fault := new 503 (lit "Program fault").

Definition status_line (r : Response) : bytes := to_decimal (code r) ++ [SP] ++ text r ++ CRLF.

Definition to_bytes (r : Response) : bytes :=
  status_line r ++ concat ((λ line, line ++ CRLF) <$> body r) ++
  (if multiline r then lit "." ++ CRLF else []).

(** ** Verification results *)

Inductive SigType := XUsenetIpfsSig | Dkim.

#[export] Instance sig_type_eq_dec : EqDecision SigType.
Proof. solve_decision. Defined.

Inductive VerifResult :=
  | Pass
  | VFail (reason : bytes)
  | DnsError (domain err : bytes)
  | NoKey
  | VParseError (reason : bytes)
  | Neutral (reason : bytes).

#[export] Instance verif_result_eq_dec : EqDecision VerifResult.
Proof. solve_decision. Defined.

Definition sig_type_as_str (s : SigType) : bytes :=
  match s with XUsenetIpfsSig => lit "x-stoa-sig" | Dkim => lit "dkim" end.

Definition verif_as_str (r : VerifResult) : bytes :=
  match r with
  | Pass => lit "pass" | VFail _ => lit "fail" | DnsError _ _ => lit "dns-error"
  | NoKey => lit "no-key" | VParseError _ => lit "parse-error" | Neutral _ => lit "neutral"
  end.

Definition verif_reason (r : VerifResult) : option bytes :=
  match r with
  | VFail reason => Some reason
  | DnsError _ err => Some err
  | VParseError reason => Some reason
  | Neutral reason => Some reason
  | _ => None
  end.

Definition is_pass (r : VerifResult) : bool := match r with Pass => true | _ => false end.

Record ArticleVerification := mkVerif {
  v_sig_type : SigType;
  v_result : VerifResult;
  v_identity : option bytes
}.

Definition aggregate_status (verifications : list ArticleVerification) : option bool :=
  match verifications with
  | [] => None
  | _ => Some (existsb (λ v, is_pass (v_result v)) verifications)
  end.

(** ** ARTICLE, HEAD, BODY *)

Section Fetch.
Context {lib : CidLib}.

Record ArticleContent := mkContent {
  c_article_number : Z;
  c_message_id : bytes;
  c_header_bytes : bytes;
  c_body_bytes : bytes;
  c_cid : option Cid;
  c_did_sig_valid : option bool;
  c_verifications : list ArticleVerification
}.

(** [nntp_dot_stuff] never slices out of range ([nntp_dot_stuff_eq]). *)
Definition dot_stuff (data : bytes) : bytes := default [] (nntp_dot_stuff data).

(** The lines between CRLFs; [cur] is the part of the open line already
    passed. *)
Fixpoint crlf_lines (cur data : bytes) : list bytes :=
  match data with
  | [] => match cur with [] => [] | _ => [cur] end
  | c :: data' =>
      match data' with
      | d :: data'' =>
          if (c =? CR) && (d =? LF) then cur :: crlf_lines [] data''
          else crlf_lines (cur ++ [c]) data'
      | [] => [cur ++ [c]]
      end
  end.

Definition bytes_to_lines (data : bytes) : list bytes := from_utf8_lossy <$> crlf_lines [] data.

Definition dot_stuffed_lines (data : bytes) : list bytes := bytes_to_lines (dot_stuff data).

Definition cid_header_line (content : ArticleContent) : option bytes :=
  (λ c, lit "X-Stoa-CID: " ++ cid_to_string c) <$> c_cid content.

Definition did_verified_header_line (content : ArticleContent) : option bytes :=
  (λ v : bool, lit "X-Stoa-DID-Verified: " ++ (if v then lit "true" else lit "false")) <$>
    c_did_sig_valid content.

Definition verified_header_line (content : ArticleContent) : option bytes :=
  let x_sig_only := filter (λ v, v_sig_type v = XUsenetIpfsSig) (c_verifications content) in
  (λ pass : bool, lit "X-Stoa-Verified: " ++ (if pass then lit "pass" else lit "fail")) <$>
    aggregate_status x_sig_only.

Definition injected_lines (content : ArticleContent) : list bytes :=
  option_list (cid_header_line content) ++ option_list (did_verified_header_line content) ++
  option_list (verified_header_line content).

Definition article_response (content : ArticleContent) : Response :=
  mkResponse 220
    (to_decimal (c_article_number content) ++ [SP] ++ c_message_id content ++ lit " Article follows")
    (bytes_to_lines (c_header_bytes content) ++ injected_lines content ++ [[]] ++
     dot_stuffed_lines (c_body_bytes content))
    true.

Definition head_response (content : ArticleContent) : Response :=
  mkResponse 221
    (to_decimal (c_article_number content) ++ [SP] ++ c_message_id content ++ lit " Headers follow")
    (bytes_to_lines (c_header_bytes content) ++ injected_lines content)
    true.

Definition body_response (content : ArticleContent) : Response :=
  mkResponse 222
    (to_decimal (c_article_number content) ++ [SP] ++ c_message_id content ++ lit " Body follows")
    (dot_stuffed_lines (c_body_bytes content))
    true.

Definition xcid_response (cid : Cid) : Response := new 290 (cid_to_string cid).

End Fetch.

(** ** OVER, HDR, LIST *)

Definition over_response (records : list OverviewRecord) : Response :=
  mkResponse 224 (lit "Overview information follows") (format_overview_line <$> records) true.

Definition hdr_response (records : list HdrRecord) : Response := hdr_follows (hdr_body records).
Definition xhdr_response (records : list HdrRecord) : Response := xhdr_follows (hdr_body records).

Record GroupInfo := mkGroupInfo {
  gi_name : bytes;
  gi_high : Z;
  gi_low : Z;
  gi_posting_allowed : bool;
  gi_description : bytes
}.

Definition active_line (g : GroupInfo) : bytes :=
  gi_name g ++ [SP] ++ to_decimal (gi_high g) ++ [SP] ++ to_decimal (gi_low g) ++ [SP] ++
  (if gi_posting_allowed g then lit "y" else lit "n").

Definition wanted (wildmat : option bytes) (g : GroupInfo) : bool :=
  match wildmat with Some pat => matches_wildmat (gi_name g) pat | None => true end.

Definition list_active (groups : list GroupInfo) (wildmat : option bytes) : Response :=
  list_active_body (active_line <$> filter (λ g, wanted wildmat g = true) groups).

Definition list_newsgroups (groups : list GroupInfo) (wildmat : option bytes) : Response :=
  list_newsgroups_body
    ((λ g, gi_name g ++ [SP] ++ gi_description g) <$> filter (λ g, wanted wildmat g = true) groups).

Definition newgroups (groups : list GroupInfo) (since_timestamp : Z) : Response :=
  newgroups_body (active_line <$> groups).

Definition list_overview_fmt : Response :=
  overview_fmt_body
    [lit "Subject:"; lit "From:"; lit "Date:"; lit "Message-ID:"; lit "References:";
     lit ":bytes"; lit ":lines"].

Definition newnews (groups : list GroupInfo) (since_timestamp : Z) (wildmat : option bytes) : Response :=
  newnews_body [].

(** [NaiveDateTime::parse_from_str(s, "%Y%m%d%H%M%S")] as a timestamp. *)
Class NaiveDateLib := { parse_naive : bytes → option Z }.

Definition parse_nntp_datetime `{NaiveDateLib} (date time : bytes) : Z :=
  if negb (length date =? 8)%nat || negb (length time =? 6)%nat then 0
  else match parse_naive (date ++ time) with
       | Some ts => if 0 <? ts then wrapping_u64 ts else 0
       | None => 0
       end.

(** ** Reading an article *)

Definition dot_unstuff (line : bytes) : bytes :=
  if starts_with line (lit "..") then drop 1 line else line.

(** [AsyncBufReadExt::read_line]: a line that is not UTF-8 is consumed and
    reported as [InvalidData]. *)
Inductive LineRead := ReadEof | ReadLine (line rest : bytes) | ReadInvalid (rest : bytes).

Definition read_text_line (inp : bytes) : LineRead :=
  let '(l, r) := take_line inp in
  if bool_decide (l = []) then ReadEof
  else if is_utf8 l then ReadLine l r else ReadInvalid r.

(** The [io::Error] of [read_dot_terminated]: both causes have the kind
    [InvalidData]. *)
Inductive ArticleReadError := TooLarge | NotUtf8.

(** The loop; the fuel bounds the number of lines. *)
Fixpoint read_article (fuel : nat) (inp article : bytes) (too_large : bool) (max_bytes : Z) :
    result ArticleReadError bytes * bytes :=
  match fuel with
  | O => (Err TooLarge, inp)
  | S fuel' =>
      match read_text_line inp with
      | ReadEof => (if too_large then Err TooLarge else Ok article, inp)
      | ReadInvalid rest => (Err NotUtf8, rest)
      | ReadLine l rest =>
          let bare := trim_eol l in
          if bool_decide (bare = lit ".") then (if too_large then Err TooLarge else Ok article, rest)
          else if too_large then read_article fuel' rest article true max_bytes
          else
            let content := dot_unstuff bare in
            if max_bytes <? Z.of_nat (length article) + Z.of_nat (length content) + 2
            then read_article fuel' rest article true max_bytes
            else read_article fuel' rest (article ++ content ++ CRLF) false max_bytes
      end
  end.

Definition read_dot_terminated (inp : bytes) (max_bytes : Z) : result ArticleReadError bytes * bytes :=
  read_article (S (length inp)) inp [] false max_bytes.

(** ** Framing *)

Lemma crlf_lines_step cur c d data :
  d ≠ LF → crlf_lines cur (c :: d :: data) = crlf_lines (cur ++ [c]) (d :: data).
Proof.
  intros Hd. change (crlf_lines cur (c :: d :: data)) with
    (if (c =? CR) && (d =? LF) then cur :: crlf_lines [] data else crlf_lines (cur ++ [c]) (d :: data)).
  by rewrite (proj2 (Z.eqb_neq d LF) Hd), andb_false_r.
Qed.

Lemma crlf_lines_line l cur rest :
  LF ∉ l → crlf_lines cur (l ++ CRLF ++ rest) = (cur ++ l) :: crlf_lines [] rest.
Proof.
  revert cur. induction l as [|c l IH]; intros cur Hl; [by rewrite app_nil_r|].
  apply not_elem_of_cons in Hl as [Hc Hl].
  assert (∃ d r, l ++ CRLF ++ rest = d :: r ∧ d ≠ LF) as (d & r & E & Hd).
  { destruct l as [|d l]; [by eexists CR, _|]. exists d, (l ++ CRLF ++ rest). set_solver. }
  cbn [app]. rewrite E, crlf_lines_step, <- E, IH by done.
  by rewrite <- app_assoc.
Qed.

Lemma crlf_lines_last l cur : LF ∉ l → cur ++ l ≠ [] → crlf_lines cur l = [cur ++ l].
Proof.
  revert cur. induction l as [|c l IH]; intros cur Hl Hne.
  - rewrite app_nil_r in *. by destruct cur.
  - apply not_elem_of_cons in Hl as [Hc Hl]. destruct l as [|d l]; [done|].
    rewrite crlf_lines_step, IH; [|done|by destruct cur|set_solver]. by rewrite <- app_assoc.
Qed.

Lemma crlf_lines_render ls rest :
  Forall (λ l, LF ∉ l) ls → crlf_lines [] (render ls ++ rest) = ls ++ crlf_lines [] rest.
Proof.
  induction 1 as [|l ls Hl _ IH]; [done|]. rewrite render_cons, crlf_lines_line by done.
  cbn [app]. by rewrite IH.
Qed.

Lemma lossy_sendable ls : Forall sendable ls → from_utf8_lossy <$> ls = ls.
Proof.
  induction 1 as [|l ls (_ & _ & Hu) _ IH]; [done|]. rewrite fmap_cons, IH. by rewrite lossy_valid.
Qed.

Lemma sendable_no_lf ls : Forall sendable ls → Forall (λ l, LF ∉ l) ls.
Proof. intros H. eapply Forall_impl; [exact H|]. by intros l [? _]. Qed.

Lemma dot_stuff_render ls : Forall sendable ls → dot_stuff (render ls) = render (wire <$> ls).
Proof.
  intros Hls. unfold dot_stuff.
  rewrite (nntp_dot_stuff_eq _ ((λ h, h ++ [CR]) <$> ls) []).
  - simpl. unfold stuffed. rewrite bool_decide_true, app_nil_r by done. unfold render. f_equal.
    rewrite <- !list_fmap_compose. apply list_fmap_ext. intros i l _. cbn [compose].
    by rewrite strip_cr_app, stuffed_wire.
  - rewrite <- (app_nil_r (render ls)), split_render_lines by (by apply sendable_no_lf). done.
Qed.

Lemma dot_stuffed_lines_render ls :
  Forall sendable ls → dot_stuffed_lines (render ls) = wire <$> ls.
Proof.
  intros Hls. unfold dot_stuffed_lines, bytes_to_lines. rewrite dot_stuff_render by done.
  assert (Hw : Forall sendable (wire <$> ls)).
  { apply Forall_fmap. eapply Forall_impl; [exact Hls|]. intros l Hl. by apply wire_sendable. }
  rewrite <- (app_nil_r (render _)), crlf_lines_render by (by apply sendable_no_lf).
  cbn [crlf_lines]. rewrite app_nil_r. by apply lossy_sendable.
Qed.

Lemma header_lines pre h :
  Forall sendable pre → sendable h → h ≠ [] → bytes_to_lines (render pre ++ h) = pre ++ [h].
Proof.
  intros Hp Hh Hne. unfold bytes_to_lines. rewrite crlf_lines_render by (by apply sendable_no_lf).
  rewrite crlf_lines_last; [|by destruct Hh|done]. apply lossy_sendable.
  apply Forall_app; split; [done|]. by apply Forall_singleton.
Qed.

(** ** Reading back *)

Lemma dot_unstuff_wire l : dot_unstuff (wire l) = l.
Proof.
  unfold dot_unstuff, wire. destruct (starts_with l (lit ".")) eqn:E.
  - apply starts_with_spec in E as [r ->].
    by rewrite (proj2 (starts_with_spec (lit "." ++ lit "." ++ r) (lit ".."))) by (by exists r).
  - simpl app. destruct (starts_with l (lit "..")) eqn:E2; [|done].
    apply starts_with_spec in E2 as [r ->].
    by rewrite (proj2 (starts_with_spec (lit ".." ++ r) (lit "."))) in E by (by exists (lit "." ++ r)).
Qed.

Lemma wire_not_dot l : wire l ≠ lit ".".
Proof.
  unfold wire. destruct (starts_with l (lit ".")) eqn:E.
  - apply starts_with_spec in E as [r ->]. done.
  - cbn [app]. by intros ->.
Qed.

Lemma read_text_line_wire l r : sendable l → read_text_line (l ++ CRLF ++ r) = ReadLine (l ++ CRLF) r.
Proof.
  intros Hl. pose proof (read_line_wire l r Hl) as H. unfold read_line in H. unfold read_text_line.
  destruct (take_line (l ++ CRLF ++ r)) as [l' r']. repeat break_if; naive_solver.
Qed.

(** The size the reader counts: each line with its CRLF. *)
Definition text_size (ls : list bytes) : Z := Z.of_nat (length (render ls)).

Lemma read_article_lines ws fuel article max rest :
  Forall (λ w, sendable w ∧ w ≠ lit ".") ws → (length ws < fuel)%nat →
  Z.of_nat (length article) + text_size (dot_unstuff <$> ws) <= max →
  read_article fuel (render ws ++ (lit "." ++ CRLF) ++ rest) article false max =
    (Ok (article ++ render (dot_unstuff <$> ws)), rest).
Proof.
  revert fuel article. induction ws as [|w ws IH]; intros [|fuel] article Hw Hf Hs; [simpl in Hf; lia| |simpl in Hf; lia|].
  - cbn [read_article]. change (render [] ++ (lit "." ++ CRLF) ++ rest) with (lit "." ++ CRLF ++ rest).
    rewrite read_text_line_wire by (by apply (bool_decide_eq_true_1 _)).
    change (trim_eol (lit "." ++ CRLF)) with (lit "."). rewrite bool_decide_true by done.
    by rewrite app_nil_r.
  - apply Forall_cons in Hw as [[Hw Hd] Hws]. rewrite render_cons. cbn [read_article].
    rewrite read_text_line_wire by done. rewrite trim_eol_line by apply Hw.
    rewrite bool_decide_false by done. cbv zeta.
    assert (Hsz : text_size (dot_unstuff <$> w :: ws) =
      Z.of_nat (length (dot_unstuff w)) + 2 + text_size (dot_unstuff <$> ws)).
    { unfold text_size, render. rewrite !fmap_cons. cbn [concat]. rewrite !length_app.
      change (length CRLF) with 2%nat. lia. }
    assert (0 <= text_size (dot_unstuff <$> ws)) by (unfold text_size; lia).
    break_if; to_prop; [lia|]. rewrite IH; [|done|simpl in Hf; lia|].
    + unfold render. rewrite !fmap_cons. cbn [concat]. by rewrite <- !app_assoc.
    + rewrite !length_app. change (length CRLF) with 2%nat. lia.
Qed.

Lemma render_fuel ws rest : (length ws < S (length (render ws ++ rest)))%nat.
Proof.
  rewrite length_app. assert (length ws <= length (render ws))%nat; [|lia].
  induction ws as [|w ws IH]; [simpl; lia|]. rewrite <- (app_nil_r (render _)), render_cons, app_nil_r.
  rewrite !length_app. change (length CRLF) with 2%nat. simpl. lia.
Qed.

Lemma read_dot_terminated_lines ws max rest :
  Forall (λ w, sendable w ∧ w ≠ lit ".") ws → text_size (dot_unstuff <$> ws) <= max →
  read_dot_terminated ((render ws ++ lit "." ++ CRLF) ++ rest) max =
    (Ok (render (dot_unstuff <$> ws)), rest).
Proof.
  intros Hws Hs. unfold read_dot_terminated. rewrite <- app_assoc.
  rewrite (read_article_lines ws); [done|done|apply render_fuel|simpl; lia].
Qed.

Lemma to_bytes_multiline r :
  multiline r = true → to_bytes r = status_line r ++ (render (body r) ++ lit "." ++ CRLF).
Proof. unfold to_bytes. by intros ->. Qed.

Lemma wire_lines ls :
  Forall sendable ls → Forall (λ w, sendable w ∧ w ≠ lit ".") (wire <$> ls).
Proof.
  intros Hls. apply Forall_fmap. eapply Forall_impl; [exact Hls|].
  intros l Hl. split; [by apply wire_sendable|apply wire_not_dot].
Qed.

Lemma unstuff_wire_lines (ls : list bytes) : dot_unstuff <$> (wire <$> ls) = ls.
Proof. induction ls as [|l ls IH]; [done|]. cbn. by rewrite dot_unstuff_wire, IH. Qed.

(** A header line goes out as it is: it must not begin with a dot. *)
Definition header_sendable (h : bytes) : Prop := sendable h ∧ starts_with h (lit ".") = false.

#[export] Instance sendable_dec l : Decision (sendable l).
Proof. unfold sendable. apply _. Defined.
#[export] Instance header_sendable_dec h : Decision (header_sendable h).
Proof. unfold header_sendable. apply _. Defined.

Lemma header_wire h : header_sendable h → wire h = h.
Proof. intros [_ H]. unfold wire. by rewrite H. Qed.

Lemma header_wires (hs : list bytes) : Forall header_sendable hs → hs = wire <$> hs.
Proof. induction 1 as [|h hs H _ IH]; [done|]. rewrite fmap_cons, <- IH. by rewrite header_wire. Qed.

Lemma header_sendables hs : Forall header_sendable hs → Forall sendable hs.
Proof. intros H. eapply Forall_impl; [exact H|]. by intros h [? _]. Qed.

(** A served article is read back as it was stored.  When the body of an
    article consists of lines of UTF-8 text (any of which may begin with a dot
    or be a single dot), the BODY response is a status line and a block that
    [read_dot_terminated], the server's own reader, turns back into exactly
    these lines, leaving the following input untouched; the ARTICLE response
    gives the header lines, the lines the server adds, an empty line and the
    body, provided that no header line begins with a dot. *)
Theorem served_article_reads_back `{CidLib} (c : ArticleContent) pre h ls max :
  Forall header_sendable pre → header_sendable h → h ≠ [] → Forall sendable ls →
  Forall header_sendable (injected_lines c) →
  c_header_bytes c = render pre ++ h → c_body_bytes c = render ls →
  text_size (pre ++ h :: injected_lines c ++ [] :: ls) <= max →
  (∃ block, to_bytes (body_response c) = status_line (body_response c) ++ block ∧
     ∀ rest, read_dot_terminated (block ++ rest) max = (Ok (render ls), rest)) ∧
  (∃ block, to_bytes (article_response c) = status_line (article_response c) ++ block ∧
     ∀ rest, read_dot_terminated (block ++ rest) max =
       (Ok (render (pre ++ h :: injected_lines c ++ [] :: ls)), rest)).
Proof.
  intros Hpre Hh Hne Hls Hinj Hhb Hbb Hsz.
  assert (Happ : ∀ a b, text_size (a ++ b) = text_size a + text_size b).
  { intros a b. unfold text_size, render. rewrite fmap_app, concat_app, length_app. lia. }
  assert (Hpos : ∀ a, 0 <= text_size a) by (intros; unfold text_size; lia).
  assert (Hall : Forall sendable (pre ++ h :: injected_lines c ++ [] :: ls)).
  { rewrite Forall_app, Forall_cons, Forall_app, Forall_cons.
    split_and!; auto using header_sendables; [by destruct Hh|by apply (bool_decide_eq_true_1 _)]. }
  split; (eexists; split; [by apply to_bytes_multiline|]); intros rest.
  - cbn [body body_response]. rewrite Hbb, dot_stuffed_lines_render by done.
    rewrite read_dot_terminated_lines; rewrite ?unstuff_wire_lines; [done|by apply wire_lines|].
    assert (Hs : text_size (pre ++ h :: injected_lines c ++ [] :: ls) =
      text_size (pre ++ h :: injected_lines c ++ [[]]) + text_size ls).
    { rewrite <- Happ. f_equal. rewrite <- app_assoc. cbn [app]. by rewrite <- app_assoc. }
    specialize (Hpos (pre ++ h :: injected_lines c ++ [[]])). lia.
  - assert (Hb : body (article_response c) = wire <$> (pre ++ h :: injected_lines c ++ [] :: ls)).
    { cbn [body article_response]. rewrite Hhb, Hbb, dot_stuffed_lines_render by done.
      rewrite header_lines by (auto using header_sendables; by destruct Hh).
      rewrite fmap_app, fmap_cons, fmap_app, fmap_cons.
      rewrite <- (header_wires pre), <- (header_wires (injected_lines c)) by done.
      rewrite (header_wire h) by done. by rewrite <- app_assoc. }
    rewrite Hb, read_dot_terminated_lines; rewrite ?unstuff_wire_lines; [done|by apply wire_lines|done].
Qed.

Module ResponseSamples.
Import ToyCrypto.

Definition pre0 : list bytes := [lit "From: a@b"].
Definition h0 : bytes := lit "Subject: x".
Definition ls0 : list bytes := [lit "."; lit "..dots"; []; lit "text"].
Definition content0 : ArticleContent :=
  mkContent 3 (lit "<1@x>") (render pre0 ++ h0) (render ls0) None (Some true)
    [mkVerif XUsenetIpfsSig Pass None].

Lemma served_article_witness :
  ∃ block, to_bytes (article_response content0) = status_line (article_response content0) ++ block ∧
    ∀ rest, read_dot_terminated (block ++ rest) 1000 =
      (Ok (render (pre0 ++ h0 :: injected_lines content0 ++ [] :: ls0)), rest).
Proof.
  refine (proj2 (served_article_reads_back content0 pre0 h0 ls0 1000 _ _ _ _ _ eq_refl eq_refl _));
    [by apply (bool_decide_eq_true_1 _)..|vm_compute; discriminate].
Defined.

End ResponseSamples.

End NntpResponse.
