(* ===== verification/Injection.v ===== *)
(** What the reader does to a posted article before it is checked and stored:
    [crates/reader/src/post/injection.rs], the header boundary of
    [crates/reader/src/post/mod.rs] and [crates/core/src/injection_source.rs].

    Clock readings, the process id and the Message-ID counter are arguments;
    [chrono]'s formatter and [mailparse]'s date parser are the class
    [InjectionLib]. *)

From S2P Require Import Prelude Bytes Decimal Utf8 Headers Util NntpResponse.

Module Injection.
Import Decimal Utf8 Headers Util NntpResponse.

Class InjectionLib := {
  (** [dt.format("%Y%m%d%H%M%S")] of a timestamp. *)
  format_compact : Z → bytes;
  (** [mailparse::dateparse(s).ok()]. *)
  dateparse : bytes → option Z
}.

(** ** Where an article came from *)

Inductive InjectionSource := NntpPost | SmtpNewsgroups | SmtpSieve | SmtpListId.

#[export] Instance injection_source_eq_dec : EqDecision InjectionSource.
Proof. solve_decision. Defined.

Definition is_peerable (s : InjectionSource) : bool :=
  match s with NntpPost | SmtpNewsgroups | SmtpSieve => true | SmtpListId => false end.

Definition injection_source_to_string (s : InjectionSource) : bytes :=
  match s with
  | NntpPost => lit "NntpPost" | SmtpNewsgroups => lit "SmtpNewsgroups"
  | SmtpSieve => lit "SmtpSieve" | SmtpListId => lit "SmtpListId"
  end.

(** ** The header boundary *)

Definition CRLF2 : bytes := CRLF ++ CRLF.
Definition LF2 : bytes := [LF; LF].

Definition find_header_boundary (b : bytes) : option nat :=
  match find_subsequence b CRLF2 with
  | Some i => Some (i + 4)%nat
  | None => (λ i, (i + 2)%nat) <$> find_subsequence b LF2
  end.

(** [body_start >= 4 && bytes[body_start - 4..body_start] == "\r\n\r\n"]. *)
Definition sep_len (b : bytes) (body_start : nat) : nat :=
  if (4 <=? body_start)%nat && bool_decide (take 4 (drop (body_start - 4) b) = CRLF2) then 4 else 2.

Definition split_header_body (b : bytes) : bytes * bytes :=
  match find_header_boundary b with
  | Some body_start => (take (body_start - sep_len b body_start) b, drop body_start b)
  | None => (b, [])
  end.

Definition find_header_end (b : bytes) : nat :=
  match find_header_boundary b with
  | Some body_start => (body_start - sep_len b body_start / 2)%nat
  | None => length b
  end.

(** ** Header lines *)

(** The lines of the header section with their terminators, as [find_line_end]
    and [skip_line_terminator] walk them.  The byte before the header's end is
    an LF whenever there is a boundary, so no terminator reaches past it. *)
Fixpoint segments (cur header : bytes) : list (bytes * bytes) :=
  match header with
  | [] => if bool_decide (cur = []) then [] else [(cur, [])]
  | c :: header' =>
      if c =? LF then (cur, [LF]) :: segments [] header'
      else if c =? CR then
        match header' with
        | d :: header'' =>
            if d =? LF then (cur, CRLF) :: segments [] header''
            else (cur, [CR]) :: segments [] header'
        | [] => [(cur, [CR])]
        end
      else segments (cur ++ [c]) header'
  end.

Definition header_segments (b : bytes) : list (bytes * bytes) :=
  segments [] (take (find_header_end b) b).

Definition unsegment (l : list (bytes * bytes)) : bytes := concat ((λ s, s.1 ++ s.2) <$> l).

(** [line.len() >= name.len() && line[..name.len()].eq_ignore_ascii_case(name)]. *)
Definition has_name (name line : bytes) : bool :=
  (length name <=? length line)%nat && eq_ignore_ascii_case (take (length name) line) name.

(** ** Stripping *)

Definition strip_all_occurrences (name b : bytes) : bytes :=
  unsegment (filter (λ s, has_name name s.1 = false) (header_segments b)) ++
  drop (find_header_end b) b.

Definition DID_VERIFIED : bytes := lit "x-stoa-did-verified:".
Definition VERIFIED : bytes := lit "x-stoa-verified:".
Definition STOA_CID : bytes := lit "x-stoa-cid:".

Definition strip_server_synthesized_headers (b : bytes) : bytes :=
  strip_all_occurrences STOA_CID (strip_all_occurrences VERIFIED (strip_all_occurrences DID_VERIFIED b)).

Definition INJECTION_SOURCE : bytes := lit "x-stoa-injection-source:".

Definition parse_injection_source (line : bytes) : InjectionSource :=
  let val := to_ascii_lowercase (trim (default [] (from_utf8 (drop (length INJECTION_SOURCE) line)))) in
  if bool_decide (val = lit "nntppost") then NntpPost
  else if bool_decide (val = lit "smtpnewsgroups") then SmtpNewsgroups
  else if bool_decide (val = lit "smtpsieve") then SmtpSieve
  else if bool_decide (val = lit "smtplistid") then SmtpListId
  else NntpPost.

(** The loop: the first matching line is taken out and the scan ends. *)
Fixpoint take_source (l : list (bytes * bytes)) : option (InjectionSource * list (bytes * bytes)) :=
  match l with
  | [] => None
  | s :: l' =>
      if has_name INJECTION_SOURCE s.1 then Some (parse_injection_source s.1, l')
      else '(src, rest) ← take_source l'; Some (src, s :: rest)
  end.

Definition extract_injection_source (b : bytes) : InjectionSource * bytes :=
  match take_source (header_segments b) with
  | Some (src, rest) => (src, unsegment rest ++ drop (find_header_end b) b)
  | None => (NntpPost, b)
  end.

(** ** Adding headers *)

Definition insert_header (line b : bytes) : bytes :=
  take (find_header_end b) b ++ line ++ CRLF ++ drop (find_header_end b) b.

Definition PATH_NAME : bytes := lit "path:".

Definition path_segment (hostname : bytes) (s : bytes * bytes) : bytes * bytes :=
  if has_name PATH_NAME s.1
  then (lit "Path: " ++ hostname ++ lit "!" ++ trim (from_utf8_lossy (drop 5 s.1)), CRLF)
  else s.

Definition prepend_path_header (b hostname : bytes) : bytes :=
  let l := header_segments b in
  unsegment (path_segment hostname <$> l) ++
  (if existsb (λ s, has_name PATH_NAME s.1) l then [] else lit "Path: " ++ hostname ++ CRLF) ++
  drop (find_header_end b) b.

Section Inject.
Context {inj : InjectionLib}.

(** [secs], [pid] and [seq] are the clock, the process id and the value
    [MSG_ID_COUNTER.fetch_add] returned. *)
Definition message_id_line (hostname : bytes) (secs pid seq : Z) : bytes :=
  lit "Message-ID: <" ++ format_compact secs ++ lit "." ++ to_decimal seq ++ lit "." ++ to_decimal pid ++
  lit "@" ++ hostname ++ lit ">".

Definition inject_message_id (b hostname : bytes) (secs pid seq : Z) : bytes :=
  if existsb (λ s, has_name (lit "message-id:") s.1) (header_segments b) then b
  else insert_header (message_id_line hostname secs pid seq) b.

Definition quoted (s : bytes) : bytes := [34] ++ s ++ [34].

Definition injection_info_line (client_ip : bytes) (username mail_complaints_to : option bytes) : bytes :=
  lit "Injection-Info: posting-host=" ++ quoted client_ip ++
  match username with Some u => lit "; posting-account=" ++ quoted u | None => [] end ++
  match mail_complaints_to with Some a => lit "; mail-complaints-to=" ++ quoted a | None => [] end.

Definition inject_injection_info (b client_ip : bytes) (username mail_complaints_to : option bytes) : bytes :=
  insert_header (injection_info_line client_ip username mail_complaints_to) b.

(** The value of the first [Date] line, when it is UTF-8 and a date. *)
Fixpoint header_date (l : list (bytes * bytes)) : option Z :=
  match l with
  | [] => None
  | s :: l' =>
      if has_name (lit "date:") s.1 then d ← from_utf8 (drop 5 s.1); dateparse (trim d)
      else header_date l'
  end.

Definition inject_injection_date (b : bytes) (max_clock_skew_secs : option Z) (now_secs : Z) : bytes :=
  match max_clock_skew_secs with
  | None => b
  | Some l =>
      let limit := as_i64 l in
      let needs_injection :=
        match header_date (header_segments b) with
        | None => true
        | Some ts => limit <? Z.abs (ts - now_secs)
        end in
      if negb needs_injection then b
      else insert_header (lit "Injection-Date: " ++ epoch_to_rfc2822 now_secs) b
  end.

(** What [run_post_pipeline] reads of the server's state and environment while
    it prepares an article. *)
Record PostEnv := mkPostEnv {
  path_hostname : bytes;
  mail_complaints_to : option bytes;
  max_clock_skew_secs : option Z;
  env_secs : Z;
  env_pid : Z;
  env_seq : Z
}.

(** Step 1 of [run_post_pipeline]: the source, the bytes before the [Path]
    header was added, and the article to check and sign. *)
Definition prepare_post (env : PostEnv) (is_drain_session : bool) (client_ip : bytes)
    (authenticated_user : option bytes) (posted : bytes) : InjectionSource * bytes * bytes :=
  let '(src, b) := extract_injection_source posted in
  let injection_source := if is_drain_session then src else NntpPost in
  let b := strip_server_synthesized_headers b in
  let pre_path := b in
  let b := prepend_path_header b (path_hostname env) in
  let b := inject_message_id b (path_hostname env) (env_secs env) (env_pid env) (env_seq env) in
  let b := inject_injection_info b client_ip authenticated_user (mail_complaints_to env) in
  let b := inject_injection_date b (max_clock_skew_secs env) (env_secs env) in
  (injection_source, pre_path, b).

End Inject.

(** ** Articles of CRLF lines *)

(** A header line without bare CR or LF. *)
Definition clean_line (h : bytes) : Prop := h ≠ [] ∧ CR ∉ h ∧ LF ∉ h.

#[export] Instance clean_line_dec h : Decision (clean_line h).
Proof. unfold clean_line. apply _. Defined.

Definition article (hs : list bytes) (body : bytes) : bytes := render hs ++ CRLF ++ body.

Lemma find_skip p s t :
  Forall (λ c, c ≠ CR) s →
  find_subsequence (s ++ t) (CR :: p) = (λ n, (length s + n)%nat) <$> find_subsequence t (CR :: p).
Proof.
  induction 1 as [|c s Hc _ IH]; [cbn [app]; by destruct (find_subsequence t _)|].
  cbn [app find_subsequence starts_with]. rewrite (proj2 (Z.eqb_neq CR c)) by congruence.
  cbn [andb]. rewrite IH. by destruct (find_subsequence t _).
Qed.

Lemma find_cons x s p :
  find_subsequence (x :: s) p =
    if starts_with (x :: s) p then Some O else S <$> find_subsequence s p.
Proof. done. Qed.

Lemma find_line_skip h c t :
  CR ∉ h → c ≠ CR →
  find_subsequence (h ++ CRLF ++ c :: t) CRLF2 =
    (λ n, (length h + 2 + n)%nat) <$> find_subsequence (c :: t) CRLF2.
Proof.
  intros Hh Hc. change (h ++ CRLF ++ c :: t) with (h ++ CR :: LF :: c :: t).
  unfold CRLF2, CRLF. cbn [app]. rewrite find_skip by (apply Forall_forall; by intros x Hx ->).
  rewrite (find_cons CR (LF :: _)), (find_cons LF (c :: t)).
  assert (starts_with (CR :: LF :: c :: t) [CR; LF; CR; LF] = false) as ->.
  { cbn [starts_with]. by rewrite !Z.eqb_refl, (proj2 (Z.eqb_neq CR c)) by congruence. }
  change (starts_with (LF :: c :: t) [CR; LF; CR; LF]) with false.
  destruct (find_subsequence (c :: t) _); simpl; f_equal. lia.
Qed.

Lemma find_last_line h t : CR ∉ h → find_subsequence (h ++ CRLF ++ CRLF ++ t) CRLF2 = Some (length h).
Proof.
  intros Hh. change (h ++ CRLF ++ CRLF ++ t) with (h ++ CR :: LF :: CR :: LF :: t).
  unfold CRLF2, CRLF. cbn [app]. rewrite find_skip by (apply Forall_forall; by intros x Hx ->).
  rewrite find_cons. change (starts_with (CR :: LF :: CR :: LF :: t) [CR; LF; CR; LF]) with true.
  simpl. f_equal. lia.
Qed.

Lemma length_render_pos hs : hs ≠ [] → (2 <= length (render hs))%nat.
Proof.
  destruct hs as [|h hs]; [done|]. rewrite <- (app_nil_r (render _)), render_cons, !length_app.
  simpl. lia.
Qed.

Lemma find_boundary_clean hs body :
  hs ≠ [] → Forall clean_line hs →
  find_subsequence (article hs body) CRLF2 = Some (length (render hs) - 2)%nat.
Proof.
  intros Hne Hhs. unfold article. induction Hhs as [|h hs (Hh & Hcr & _) Hhs IH]; [done|].
  rewrite render_cons.
  assert (Hlen : length (render (h :: hs)) = (length h + 2 + length (render hs))%nat).
  { rewrite <- (app_nil_r (render (h :: hs))), render_cons, !length_app. simpl. lia. }
  rewrite Hlen. destruct hs as [|h' hs].
  - cbn [render fmap list_fmap concat app length]. rewrite find_last_line by done. f_equal. lia.
  - inversion Hhs as [|? ? (Hh' & Hcr' & _) Hhs']; subst.
    destruct h' as [|c h']; [done|]. rewrite render_cons in *. cbn [app] in *.
    rewrite find_line_skip; [|done|set_solver]. rewrite IH by done.
    pose proof (length_render_pos ((c :: h') :: hs) ltac:(done)).
    cbn [fmap option_fmap option_map]. f_equal. lia.
Qed.

Lemma render_ends hs : hs ≠ [] → ∃ x, render hs = x ++ CRLF.
Proof.
  destruct hs as [|h hs _] using rev_ind; [done|]. intros _. exists (render hs ++ h).
  unfold render. rewrite fmap_app, concat_app. cbn. by rewrite app_nil_r, <- app_assoc.
Qed.

(** The boundary, the end of the header section and the split of a clean
    article. *)
Lemma boundary_clean hs body :
  hs ≠ [] → Forall clean_line hs →
  find_header_boundary (article hs body) = Some (length (render hs) + 2)%nat ∧
  sep_len (article hs body) (length (render hs) + 2) = 4%nat.
Proof.
  intros Hne Hhs. pose proof (length_render_pos hs Hne). split.
  - unfold find_header_boundary. rewrite find_boundary_clean by done. f_equal. lia.
  - unfold sep_len. rewrite (proj2 (Nat.leb_le _ _)) by lia.
    destruct (render_ends hs Hne) as [x Hx]. unfold article. rewrite Hx, length_app. simpl length.
    rewrite <- app_assoc. replace (length x + 2 + 2 - 4)%nat with (length x) by lia.
    by rewrite drop_app_length.
Qed.

Lemma header_end_clean hs body :
  hs ≠ [] → Forall clean_line hs → find_header_end (article hs body) = length (render hs).
Proof.
  intros Hne Hhs. unfold find_header_end. destruct (boundary_clean hs body Hne Hhs) as [-> ->]. simpl. lia.
Qed.

Lemma header_cut hs body :
  hs ≠ [] → Forall clean_line hs →
  take (find_header_end (article hs body)) (article hs body) = render hs ∧
  drop (find_header_end (article hs body)) (article hs body) = CRLF ++ body.
Proof.
  intros Hne Hhs. rewrite header_end_clean by done. unfold article.
  by rewrite take_app_length, drop_app_length.
Qed.

Lemma split_clean hs body :
  hs ≠ [] → Forall clean_line hs →
  ∃ h, render hs = h ++ CRLF ∧ split_header_body (article hs body) = (h, body).
Proof.
  intros Hne Hhs. unfold split_header_body. destruct (boundary_clean hs body Hne Hhs) as [-> ->].
  destruct (render_ends hs Hne) as [x Hx]. exists x. split; [done|]. unfold article. rewrite Hx, length_app.
  change (length CRLF) with 2%nat. f_equal.
  - replace (length x + 2 + 2 - 4)%nat with (length x) by lia. by rewrite <- app_assoc, take_app_length.
  - replace (length x + 2 + 2)%nat with (length ((x ++ CRLF) ++ CRLF))
      by (rewrite !length_app; simpl; lia).
    by rewrite app_assoc, drop_app_length.
Qed.

Lemma segments_line cur h t :
  CR ∉ h → LF ∉ h → segments cur (h ++ CRLF ++ t) = (cur ++ h, CRLF) :: segments [] t.
Proof.
  revert cur. induction h as [|c h IH]; intros cur Hcr Hlf; [by rewrite app_nil_r|].
  apply not_elem_of_cons in Hcr as [? Hcr], Hlf as [? Hlf].
  cbn [app segments]. rewrite (proj2 (Z.eqb_neq c LF)), (proj2 (Z.eqb_neq c CR)) by congruence.
  rewrite IH by done. by rewrite <- app_assoc.
Qed.

Lemma segments_clean hs : Forall clean_line hs → segments [] (render hs) = (λ h, (h, CRLF)) <$> hs.
Proof.
  intros H. rewrite <- (app_nil_r (render hs)).
  induction H as [|h hs (_ & Hcr & Hlf) _ IH]; [done|].
  by rewrite render_cons, segments_line, IH.
Qed.

Lemma header_segments_clean hs body :
  hs ≠ [] → Forall clean_line hs → header_segments (article hs body) = (λ h, (h, CRLF)) <$> hs.
Proof.
  intros Hne Hhs. unfold header_segments. destruct (header_cut hs body Hne Hhs) as [-> _].
  by apply segments_clean.
Qed.

Lemma unsegment_lines hs : unsegment ((λ h, (h, CRLF)) <$> hs) = render hs.
Proof. unfold unsegment, render. by rewrite <- list_fmap_compose. Qed.

Definition without (name : bytes) (hs : list bytes) : list bytes :=
  filter (λ h, has_name name h = false) hs.

Lemma filter_segments name (hs : list bytes) :
  filter (λ s : bytes * bytes, has_name name s.1 = false) ((λ h, (h, CRLF)) <$> hs) =
    (λ h, (h, CRLF)) <$> without name hs.
Proof.
  unfold without. induction hs as [|h hs IH]; [done|]. rewrite fmap_cons, !filter_cons. cbn [fst].
  destruct (decide (has_name name h = false)); [by rewrite IH, fmap_cons|done].
Qed.

Lemma strip_clean name hs body :
  hs ≠ [] → Forall clean_line hs →
  strip_all_occurrences name (article hs body) = article (without name hs) body.
Proof.
  intros Hne Hhs. unfold strip_all_occurrences. rewrite header_segments_clean by done.
  destruct (header_cut hs body Hne Hhs) as [_ ->]. by rewrite filter_segments, unsegment_lines.
Qed.

Lemma without_clean name hs : Forall clean_line hs → Forall clean_line (without name hs).
Proof.
  intros H. apply Forall_forall. intros h [_ Hh]%list_elem_of_filter.
  rewrite Forall_forall in H. auto.
Qed.

Lemma without_none name hs : Forall (λ h, has_name name h = false) (without name hs).
Proof. apply Forall_forall. intros h Hh. by apply list_elem_of_filter in Hh as [? _]. Qed.

(** The lines left of the server's own names. *)
Definition genuine (hs : list bytes) : list bytes :=
  without STOA_CID (without VERIFIED (without DID_VERIFIED hs)).

Lemma strip_server_clean hs body :
  Forall clean_line hs → genuine hs ≠ [] →
  strip_server_synthesized_headers (article hs body) = article (genuine hs) body.
Proof.
  intros Hhs Hne. unfold strip_server_synthesized_headers, genuine in *.
  assert (H1 : ∀ n l, without n l ≠ [] → l ≠ []) by (intros n [] H; [done|congruence]).
  rewrite !strip_clean; eauto 10 using without_clean.
Qed.

Lemma insert_clean line hs body :
  hs ≠ [] → Forall clean_line hs → insert_header line (article hs body) = article (hs ++ [line]) body.
Proof.
  intros Hne Hhs. unfold insert_header. destruct (header_cut hs body Hne Hhs) as [-> ->].
  unfold article, render. rewrite fmap_app, concat_app. cbn. by rewrite app_nil_r, <- !app_assoc.
Qed.

(** The [Path] lines of the result. *)
Definition path_line (hostname h : bytes) : bytes :=
  if has_name PATH_NAME h then lit "Path: " ++ hostname ++ lit "!" ++ trim (from_utf8_lossy (drop 5 h)) else h.

Definition with_path (hostname : bytes) (hs : list bytes) : list bytes :=
  (path_line hostname <$> hs) ++
  (if existsb (has_name PATH_NAME) hs then [] else [lit "Path: " ++ hostname]).

Lemma prepend_clean hostname hs body :
  hs ≠ [] → Forall clean_line hs →
  prepend_path_header (article hs body) hostname = article (with_path hostname hs) body.
Proof.
  intros Hne Hhs. unfold prepend_path_header. rewrite header_segments_clean by done.
  destruct (header_cut hs body Hne Hhs) as [_ ->].
  assert (Hmap : path_segment hostname <$> ((λ h, (h, CRLF)) <$> hs) =
    (λ h, (h, CRLF)) <$> (path_line hostname <$> hs)).
  { rewrite <- !list_fmap_compose. apply list_fmap_ext. intros i h _. unfold compose, path_segment, path_line.
    cbn [fst]. by destruct (has_name PATH_NAME h). }
  rewrite Hmap, unsegment_lines.
  assert (Hex : existsb (λ s : bytes * bytes, has_name PATH_NAME s.1) ((λ h, (h, CRLF)) <$> hs) =
    existsb (has_name PATH_NAME) hs).
  { clear. induction hs as [|h hs IH]; [done|]. cbn. by rewrite <- IH. }
  rewrite Hex. unfold article, with_path, render. rewrite fmap_app, concat_app, <- app_assoc. f_equal.
  destruct (existsb (has_name PATH_NAME) hs); [done|]. cbn. by rewrite app_nil_r, <- !app_assoc.
Qed.

(** The lines without the first [X-Stoa-Injection-Source]. *)
Fixpoint drop_source (hs : list bytes) : list bytes :=
  match hs with
  | [] => []
  | h :: hs' => if has_name INJECTION_SOURCE h then hs' else h :: drop_source hs'
  end.

Lemma take_source_clean hs :
  (take_source ((λ h, (h, CRLF)) <$> hs) = None ∧ drop_source hs = hs) ∨
  ∃ src, take_source ((λ h, (h, CRLF)) <$> hs) = Some (src, (λ h, (h, CRLF)) <$> drop_source hs).
Proof.
  induction hs as [|h hs IH]; [by left|]. rewrite fmap_cons. cbn [take_source drop_source fst].
  destruct (has_name INJECTION_SOURCE h); [right; eauto|].
  destruct IH as [[E1 E2]|[src E]].
  - left. by rewrite E1, E2.
  - right. exists src. by rewrite E, fmap_cons.
Qed.

Lemma extract_source_clean hs body :
  hs ≠ [] → Forall clean_line hs →
  ∃ src, extract_injection_source (article hs body) = (src, article (drop_source hs) body).
Proof.
  intros Hne Hhs. unfold extract_injection_source. rewrite header_segments_clean by done.
  destruct (take_source_clean hs) as [[-> ->]|[src ->]]; [by eexists|].
  destruct (header_cut hs body Hne Hhs) as [_ ->]. rewrite unsegment_lines. by eexists.
Qed.

Lemma drop_source_sublist hs : drop_source hs `sublist_of` hs.
Proof.
  induction hs as [|h hs IH]; [constructor|]. simpl. destruct (has_name INJECTION_SOURCE h).
  - by apply sublist_cons.
  - by constructor.
Qed.

Lemma sublist_clean hs hs' : hs' `sublist_of` hs → Forall clean_line hs → Forall clean_line hs'.
Proof. intros Hs H. rewrite Forall_forall in *. intros h Hh. apply H. by eapply elem_of_sublist. Qed.

(** ** Names *)

Lemma has_name_head c d name line :
  to_ascii_lower c ≠ to_ascii_lower d → has_name (c :: name) (d :: line) = false.
Proof.
  intros Hne. unfold has_name, eq_ignore_ascii_case. apply andb_false_iff. right.
  apply bool_decide_eq_false. cbn. congruence.
Qed.

(** A text that can stand in a header line. *)
Definition inline (s : bytes) : Prop := CR ∉ s ∧ LF ∉ s.

#[export] Instance inline_dec s : Decision (inline s).
Proof. unfold inline. apply _. Defined.

Lemma inline_app s t : inline s → inline t → inline (s ++ t).
Proof. unfold inline. rewrite !not_elem_of_app. tauto. Qed.

Lemma inline_clean s : s ≠ [] → inline s → clean_line s.
Proof. intros ? []. done. Qed.

Lemma inline_decimal x : inline (to_decimal x).
Proof.
  unfold to_decimal. generalize 20%nat as fuel. intros fuel. revert x.
  induction fuel as [|fuel IH]; intros x; [by apply (bool_decide_eq_true_1 _)|]. cbn [dec_digits].
  apply inline_app; [destruct (x <? 10); [by apply (bool_decide_eq_true_1 _)|done]|].
  pose proof (Z.mod_pos_bound x 10). unfold inline, CR, LF. rewrite !list_elem_of_singleton. lia.
Qed.

Ltac solve_inline :=
  repeat first [assumption | apply inline_decimal | by apply (bool_decide_eq_true_1 _) | apply inline_app].

Lemma inline_pad2 n : inline (pad2 n).
Proof. unfold pad2. destruct (n <? 10); [apply inline_app; [by apply (bool_decide_eq_true_1 _)|]|]; apply inline_decimal. Qed.

Lemma inline_show n : inline (show_i64 n).
Proof. unfold show_i64. destruct (n <? 0); [apply inline_app; [by apply (bool_decide_eq_true_1 _)|]|]; apply inline_decimal. Qed.

Lemma inline_nth n (l : list bytes) : Forall inline l → inline (nth n l []).
Proof. intros H. revert n. induction H as [|s l Hs _ IH]; intros [|n]; cbn [nth]; try done; by apply (bool_decide_eq_true_1 _). Qed.

Lemma inline_rfc2822 secs : inline (epoch_to_rfc2822 secs).
Proof.
  unfold epoch_to_rfc2822. destruct (civil_from_days _) as [[y m] d].
  repeat apply inline_app; try apply inline_pad2; try apply inline_show;
    try (apply inline_nth; by apply (bool_decide_eq_true_1 _)); by apply (bool_decide_eq_true_1 _).
Qed.

Lemma path_line_clean hostname h : inline hostname → clean_line h → clean_line (path_line hostname h).
Proof.
  intros Hn Hh. unfold path_line. destruct (has_name PATH_NAME h); [|done].
  apply inline_clean; [done|]. repeat apply inline_app; [by apply (bool_decide_eq_true_1 _)|done|
    by apply (bool_decide_eq_true_1 _)|].
  destruct Hh as (_ & Hcr & Hlf).
  assert (Hd : ∀ c, c ∈ drop 5 h → c ∈ h).
  { intros c Hc. rewrite <- (take_drop 5 h). apply elem_of_app. by right. }
  split; intros Hc%trim_elem%lossy_elem; [apply Hcr, Hd, Hc|done|apply Hlf, Hd, Hc|done].
Qed.

Lemma with_path_clean hostname hs :
  inline hostname → Forall clean_line hs → Forall clean_line (with_path hostname hs).
Proof.
  intros Hn Hhs. unfold with_path. apply Forall_app. split.
  - apply Forall_fmap. eapply Forall_impl; [exact Hhs|]. intros h Hh. by apply path_line_clean.
  - destruct (existsb _ _); [constructor|]. apply Forall_singleton.
    apply inline_clean; [done|]. apply inline_app; [by apply (bool_decide_eq_true_1 _)|done].
Qed.

Lemma with_path_nonempty hostname hs : hs ≠ [] → with_path hostname hs ≠ [].
Proof. by destruct hs. Qed.

(** Whether a name is one of the three the server writes. *)
Definition forged (h : bytes) : bool :=
  has_name DID_VERIFIED h || has_name VERIFIED h || has_name STOA_CID h.

Lemma genuine_not_forged hs : Forall (λ h, forged h = false) (genuine hs).
Proof.
  apply Forall_forall. intros h Hh. unfold genuine, without, forged in *.
  apply list_elem_of_filter in Hh as [H1 Hh]. apply list_elem_of_filter in Hh as [H2 Hh].
  apply list_elem_of_filter in Hh as [H3 _]. by rewrite H1, H2, H3.
Qed.

Lemma genuine_clean hs : Forall clean_line hs → Forall clean_line (genuine hs).
Proof. intros. unfold genuine. by repeat apply without_clean. Qed.

Lemma not_forged_head d line : to_ascii_lower d ≠ 120 → forged (d :: line) = false.
Proof.
  intros Hd. unfold forged. cbn [DID_VERIFIED VERIFIED STOA_CID].
  change DID_VERIFIED with (120 :: drop 1 DID_VERIFIED). change VERIFIED with (120 :: drop 1 VERIFIED).
  change STOA_CID with (120 :: drop 1 STOA_CID).
  by rewrite !has_name_head by (by change (to_ascii_lower 120) with 120).
Qed.

(** ** The prepared article *)

Section Prepared.
Context {inj : InjectionLib}.

(** The texts the server writes into header lines. *)
Definition env_inline (env : PostEnv) (client_ip : bytes) (user : option bytes) : Prop :=
  inline (path_hostname env) ∧ inline (format_compact (env_secs env)) ∧ inline client_ip ∧
  inline (default [] user) ∧ inline (default [] (mail_complaints_to env)).

#[export] Instance env_inline_dec env client_ip user : Decision (env_inline env client_ip user).
Proof. unfold env_inline. apply _. Defined.

(** The header lines of the result. *)
Definition with_message_id (env : PostEnv) (hs : list bytes) : list bytes :=
  if existsb (has_name (lit "message-id:")) hs then hs
  else hs ++ [message_id_line (path_hostname env) (env_secs env) (env_pid env) (env_seq env)].

Definition with_injection_date (env : PostEnv) (hs : list bytes) : list bytes :=
  match max_clock_skew_secs env with
  | None => hs
  | Some l =>
      if match header_date ((λ h, (h, CRLF)) <$> hs) with
         | None => true
         | Some ts => as_i64 l <? Z.abs (ts - env_secs env)
         end
      then hs ++ [lit "Injection-Date: " ++ epoch_to_rfc2822 (env_secs env)] else hs
  end.

Definition prepared (env : PostEnv) (client_ip : bytes) (user : option bytes) (hs : list bytes) : list bytes :=
  with_injection_date env
    (with_message_id env (with_path (path_hostname env) (genuine (drop_source hs))) ++
     [injection_info_line client_ip user (mail_complaints_to env)]).

Lemma existsb_segments name (hs : list bytes) :
  existsb (λ s : bytes * bytes, has_name name s.1) ((λ h, (h, CRLF)) <$> hs) = existsb (has_name name) hs.
Proof. induction hs as [|h hs IH]; [done|]. rewrite fmap_cons. cbn [existsb fst]. by rewrite IH. Qed.

Lemma message_id_line_clean env : inline (path_hostname env) → inline (format_compact (env_secs env)) →
  clean_line (message_id_line (path_hostname env) (env_secs env) (env_pid env) (env_seq env)).
Proof.
  intros H1 H2. apply inline_clean; [done|]. unfold message_id_line.
  solve_inline.
Qed.

Lemma injection_info_clean env client_ip user :
  env_inline env client_ip user → clean_line (injection_info_line client_ip user (mail_complaints_to env)).
Proof.
  intros (_ & _ & Hip & Hu & Hm). apply inline_clean; [done|]. unfold injection_info_line, quoted.
  destruct user, (mail_complaints_to env); simpl in Hu, Hm;
    solve_inline.
Qed.

Lemma Forall_snoc {A} (P : A → Prop) l x : Forall P l → P x → Forall P (l ++ [x]).
Proof. intros. apply Forall_app. split; [done|]. by apply Forall_singleton. Qed.

Lemma with_message_id_clean env hs :
  inline (path_hostname env) → inline (format_compact (env_secs env)) →
  Forall clean_line hs → Forall clean_line (with_message_id env hs).
Proof.
  intros H1 H2 Hhs. unfold with_message_id. destruct (existsb _ _); [done|].
  apply Forall_snoc; [done|]. by apply message_id_line_clean.
Qed.

Lemma with_injection_date_clean env hs : Forall clean_line hs → Forall clean_line (with_injection_date env hs).
Proof.
  intros Hhs. unfold with_injection_date. destruct (max_clock_skew_secs env); [|done].
  match goal with |- context [if ?b then _ else _] => destruct b end; [|done].
  apply Forall_snoc; [done|]. apply inline_clean; [done|].
  apply inline_app; [by apply (bool_decide_eq_true_1 _)|apply inline_rfc2822].
Qed.

Lemma inject_message_id_clean env hs body :
  hs ≠ [] → Forall clean_line hs →
  inject_message_id (article hs body) (path_hostname env) (env_secs env) (env_pid env) (env_seq env) =
    article (with_message_id env hs) body.
Proof.
  intros Hne Hhs. unfold inject_message_id, with_message_id.
  rewrite header_segments_clean, existsb_segments by done.
  destruct (existsb _ _); [done|]. by apply insert_clean.
Qed.

Lemma inject_date_clean env hs body :
  hs ≠ [] → Forall clean_line hs →
  inject_injection_date (article hs body) (max_clock_skew_secs env) (env_secs env) =
    article (with_injection_date env hs) body.
Proof.
  intros Hne Hhs. unfold inject_injection_date, with_injection_date.
  destruct (max_clock_skew_secs env) as [l|]; [|done]. rewrite header_segments_clean by done. cbv zeta.
  match goal with |- context [if ?b then _ ++ _ else _] => destruct b end; [|done]. by apply insert_clean.
Qed.

Lemma message_id_named hostname secs pid seq :
  has_name (lit "message-id:") (message_id_line hostname secs pid seq) = true.
Proof. done. Qed.

(** The whole of step 1 on an article of CRLF lines. *)
Lemma prepare_clean env drain client_ip user hs body :
  Forall clean_line hs → genuine (drop_source hs) ≠ [] → env_inline env client_ip user →
  ∃ src, prepare_post env drain client_ip user (article hs body) =
    (src, article (genuine (drop_source hs)) body, article (prepared env client_ip user hs) body) ∧
    (drain = false → src = NntpPost).
Proof.
  intros Hhs Hne Henv. assert (hs ≠ []) by (intros ->; by apply Hne).
  destruct (extract_source_clean hs body) as [src Hsrc]; [done..|].
  assert (Hd : Forall clean_line (drop_source hs)) by (eapply sublist_clean; [apply drop_source_sublist|done]).
  unfold prepare_post. rewrite Hsrc, strip_server_clean by done. cbv zeta.
  exists (if drain then src else NntpPost). split; [|by intros ->].
  pose proof Henv as (Hh & Hf & _).
  assert (Hg : Forall clean_line (genuine (drop_source hs))) by (by apply genuine_clean).
  assert (Hw : Forall clean_line (with_path (path_hostname env) (genuine (drop_source hs))))
    by (by apply with_path_clean).
  assert (Hwn := with_path_nonempty (path_hostname env) _ Hne).
  rewrite prepend_clean, inject_message_id_clean by done. unfold inject_injection_info.
  assert (Hmn : with_message_id env (with_path (path_hostname env) (genuine (drop_source hs))) ≠ []).
  { unfold with_message_id. destruct (existsb _ _); [done|]. by destruct (with_path _ _). }
  rewrite insert_clean by (auto using with_message_id_clean).
  rewrite inject_date_clean; [done|by destruct (with_message_id _ _)|].
  apply Forall_snoc; [by apply with_message_id_clean|by apply (injection_info_clean env)].
Qed.

(** Every line of the result is a genuine line of the client's, a [Path] line
    that opens with the server's name, or one of the lines the server adds. *)
Lemma prepared_elem env client_ip user hs h :
  h ∈ prepared env client_ip user hs →
  h ∈ path_line (path_hostname env) <$> genuine (drop_source hs) ∨
  (∃ t, h = lit "Path: " ++ t) ∨ (∃ t, h = lit "Message-ID: <" ++ t) ∨
  (∃ t, h = lit "Injection-Info: posting-host=" ++ t) ∨ (∃ t, h = lit "Injection-Date: " ++ t).
Proof.
  intros Hh.
  assert (Hd : h ∈ with_message_id env (with_path (path_hostname env) (genuine (drop_source hs))) ++
      [injection_info_line client_ip user (mail_complaints_to env)] ∨ ∃ t, h = lit "Injection-Date: " ++ t).
  { unfold prepared, with_injection_date in Hh. destruct (max_clock_skew_secs env); [|by left].
    match type of Hh with context [if ?b then _ else _] => destruct b end; [|by left].
    apply elem_of_app in Hh as [Hh|Hh%list_elem_of_singleton]; [by left|right; eauto]. }
  destruct Hd as [[Hm|Hi%list_elem_of_singleton]%elem_of_app|Hd]; [|subst h; unfold injection_info_line; eauto 8|eauto 8].
  assert (Hp : h ∈ with_path (path_hostname env) (genuine (drop_source hs)) ∨ ∃ t, h = lit "Message-ID: <" ++ t).
  { unfold with_message_id in Hm. destruct (existsb _ _); [by left|].
    apply elem_of_app in Hm as [Hm|Hm%list_elem_of_singleton]; [by left|right; subst h; unfold message_id_line; eauto]. }
  destruct Hp as [[Hp|Hp]%elem_of_app|Hp]; [by left| |eauto 8].
  destruct (existsb _ _); [by apply not_elem_of_nil in Hp|]. apply list_elem_of_singleton in Hp. eauto 8.
Qed.

Lemma prepared_not_forged env client_ip user hs :
  Forall (λ h, forged h = false) (prepared env client_ip user hs).
Proof.
  apply Forall_forall. intros h Hh. pose proof (genuine_not_forged (drop_source hs)) as Hg.
  rewrite Forall_forall in Hg.
  destruct (prepared_elem _ _ _ _ _ Hh) as [Hp|[[t ->]|[[t ->]|[[t ->]|[t ->]]]]];
    [|by apply not_forged_head..].
  apply list_elem_of_fmap in Hp as (g & -> & Hin). unfold path_line. destruct (has_name PATH_NAME g); [|by apply Hg].
  by apply not_forged_head.
Qed.

Lemma prepared_clean env client_ip user hs :
  Forall clean_line hs → env_inline env client_ip user → Forall clean_line (prepared env client_ip user hs).
Proof.
  intros Hhs Henv. pose proof Henv as (Hh & Hf & _). unfold prepared. apply with_injection_date_clean, Forall_snoc.
  - apply with_message_id_clean, with_path_clean, genuine_clean; [done..|].
    eapply sublist_clean; [apply drop_source_sublist|done].
  - by apply (injection_info_clean env).
Qed.

Lemma prepared_keeps env client_ip user hs h :
  h ∈ with_message_id env (with_path (path_hostname env) (genuine (drop_source hs))) →
  h ∈ prepared env client_ip user hs.
Proof.
  intros Hh. unfold prepared, with_injection_date. destruct (max_clock_skew_secs env); [|set_solver].
  match goal with |- context [if ?b then _ else _] => destruct b end; set_solver.
Qed.

Lemma with_message_id_keeps env hs h : h ∈ hs → h ∈ with_message_id env hs.
Proof. unfold with_message_id. destruct (existsb _ _); set_solver. Qed.

Lemma prepared_message_id env client_ip user hs :
  ∃ h, h ∈ prepared env client_ip user hs ∧ has_name (lit "message-id:") h = true.
Proof.
  set (l := with_path (path_hostname env) (genuine (drop_source hs))).
  destruct (existsb (has_name (lit "message-id:")) l) eqn:E.
  - apply existsb_exists in E as (h & Hin%list_elem_of_In & Hn). exists h. split; [|done].
    apply prepared_keeps. by apply with_message_id_keeps.
  - eexists. split; [apply prepared_keeps; unfold with_message_id; fold l; rewrite E; apply elem_of_app; right;
      by apply list_elem_of_singleton|]. by apply message_id_named.
Qed.

Lemma prepared_nonempty env client_ip user hs : prepared env client_ip user hs ≠ [].
Proof. destruct (prepared_message_id env client_ip user hs) as (m & Hm & _). by destruct (prepared env client_ip user hs); [apply not_elem_of_nil in Hm|]. Qed.

Lemma with_path_hosts hostname hs : ∃ t, lit "Path: " ++ hostname ++ t ∈ with_path hostname hs.
Proof.
  unfold with_path. destruct (existsb (has_name PATH_NAME) hs) eqn:E.
  - apply existsb_exists in E as (h & Hin%list_elem_of_In & Hn).
    exists (lit "!" ++ trim (from_utf8_lossy (drop 5 h))). apply elem_of_app. left.
    apply list_elem_of_fmap. exists h. split; [|done]. unfold path_line. by rewrite Hn.
  - exists []. rewrite app_nil_r. set_solver.
Qed.

Lemma genuine_keeps hs h :
  h ∈ hs → forged h = false → has_name INJECTION_SOURCE h = false → h ∈ genuine (drop_source hs).
Proof.
  intros Hin [[H1 H2]%orb_false_iff H3]%orb_false_iff Hs. unfold genuine, without.
  repeat (apply list_elem_of_filter; split; [done|]).
  induction hs as [|x hs IH]; [by apply not_elem_of_nil in Hin|]. cbn [drop_source].
  apply elem_of_cons in Hin as [->|Hin]; [rewrite Hs; by left|].
  destruct (has_name INJECTION_SOURCE x); [done|right; auto].
Qed.

(** C33. What [run_post_pipeline] makes of a posted article whose header lines
    hold no bare CR: the body is untouched; every header line is again a clean
    line, none of them is one of the names only the server may write
    (X-Stoa-DID-Verified, X-Stoa-Verified, X-Stoa-CID); there is a Message-ID
    and a Path line that opens with the server's host name; every other line of
    the client's but X-Stoa-Injection-Source and Path is kept; and a session
    that is not the drain's cannot choose the injection source. *)
Theorem prepared_post_is_genuine env drain client_ip user hs body :
  Forall clean_line hs → genuine (drop_source hs) ≠ [] → env_inline env client_ip user →
  ∃ src pre hs', prepare_post env drain client_ip user (article hs body) = (src, pre, article hs' body) ∧
    Forall clean_line hs' ∧
    header_segments (article hs' body) = (λ h, (h, CRLF)) <$> hs' ∧
    Forall (λ h, forged h = false) hs' ∧
    (∃ h, h ∈ hs' ∧ has_name (lit "message-id:") h = true) ∧
    (∃ t, lit "Path: " ++ path_hostname env ++ t ∈ hs') ∧
    (∀ h, h ∈ hs → forged h = false → has_name INJECTION_SOURCE h = false →
       has_name PATH_NAME h = false → h ∈ hs') ∧
    (drain = false → src = NntpPost).
Proof.
  intros Hhs Hne Henv. destruct (prepare_clean env drain client_ip user hs body Hhs Hne Henv) as (src & -> & Hsrc).
  assert (Hc := prepared_clean _ _ _ _ Hhs Henv).
  destruct (with_path_hosts (path_hostname env) (genuine (drop_source hs))) as [t Ht].
  exists src, (article (genuine (drop_source hs)) body), (prepared env client_ip user hs).
  split; [done|]. split; [done|].
  destruct (prepared_message_id env client_ip user hs) as (m & Hm & Hmn).
  split; [by apply header_segments_clean, Hc; apply prepared_nonempty|].
  split; [apply prepared_not_forged|]. split; [eauto|].
  split; [exists t; by apply prepared_keeps, with_message_id_keeps|]. split; [|done].
  intros h Hin Hf Hs Hp. apply prepared_keeps, with_message_id_keeps. apply elem_of_app. left.
  apply list_elem_of_fmap. exists h. split; [unfold path_line; by rewrite Hp|by apply genuine_keeps].
Qed.

End Prepared.

(** The stripping walks lines that end in CRLF, LF or a lone CR, the
    boundary is only CRLF CRLF.  An article whose last header line ends in a
    lone CR and is one of the stripped ones loses its blank line to the
    stripping, and the first lines of its body become headers: a client posts,
    through [read_dot_terminated], an article with no X-Stoa-Verified header
    and [strip_server_synthesized_headers] returns one with it. *)
Theorem bare_cr_forges_header :
  ∃ wire posted, read_dot_terminated wire 1000 = (Ok posted, []) ∧
    existsb (λ s, has_name VERIFIED s.1) (header_segments posted) = false ∧
    existsb (λ s, has_name VERIFIED s.1) (header_segments (strip_server_synthesized_headers posted)) = true.
Proof.
  exists (lit "Subject: x" ++ [CR] ++ lit "X-Stoa-CID: y" ++ CRLF ++ CRLF ++
          lit "X-Stoa-Verified: pass" ++ CRLF ++ CRLF ++ lit "body" ++ CRLF ++ lit "." ++ CRLF),
    (lit "Subject: x" ++ [CR] ++ lit "X-Stoa-CID: y" ++ CRLF ++ CRLF ++
     lit "X-Stoa-Verified: pass" ++ CRLF ++ CRLF ++ lit "body" ++ CRLF).
  split_and!; vm_refl.
Qed.

End Injection.

(** Sample articles. *)
Module InjectionSamples.
Import Utf8 Headers Util NntpResponse Injection.

#[export] Instance sample_injection : InjectionLib :=
  {| format_compact := λ _, lit "20240101000000"; dateparse := λ _, None |}.

Definition sample_env : PostEnv :=
  mkPostEnv (lit "news.example") (Some (lit "abuse@example")) (Some 3600) 1704067200 7 1.

Definition sample_lines : list bytes :=
  [lit "Subject: x"; lit "x-stoa-verified: pass"; lit "X-Stoa-Injection-Source: SmtpListId"; lit "Path: me"].

Lemma prepared_post_witness :
  ∃ src pre hs', prepare_post sample_env false (lit "192.0.2.1") (Some (lit "u")) (article sample_lines (lit "b")) =
      (src, pre, article hs' (lit "b")) ∧
    Forall (λ h, forged h = false) hs' ∧ src = NntpPost.
Proof.
  destruct (prepared_post_is_genuine sample_env false (lit "192.0.2.1") (Some (lit "u")) sample_lines (lit "b"))
    as (src & pre & hs' & H1 & _ & _ & H2 & _ & _ & _ & H3).
  - by apply (bool_decide_eq_true_1 _).
  - by apply (bool_decide_eq_true_1 _).
  - by apply (bool_decide_eq_true_1 _).
  - exists src, pre, hs'. auto.
Defined.

End InjectionSamples.
