(* ===== verification/Peers.v ===== *)
(** The transit daemon's knowledge of its peers: the registry of
    [crates/transit/src/peering/peer_registry.rs], the automatic blacklist of
    [crates/transit/src/peering/blacklist.rs] and the group lists of
    [crates/transit/src/peering/feed_negotiation.rs], over the tables [peers] and
    [peer_groups].

    The blacklist is characterised exactly: a peer is refused at a time when its
    last run of consecutive rejections reached the threshold less than the
    configured duration before. *)

From S2P Require Import Prelude Bytes Sql Article.

Module Peers.
Import Sql Article.

(** A row of [peers]; the key [peer_id] is the map's. *)
Record PeerRecord := mkPeer {
  address : bytes;
  last_seen_ms : Z;
  articles_accepted : Z;
  articles_rejected : Z;
  consecutive_failures : Z;
  blacklisted_until_ms : option Z;
  configured : bool
}.

(** [peers] and [peer_groups(peer_id, group_name, updated_at)]. *)
Record PeerDb := mkPeerDb {
  peers : gmap bytes PeerRecord;
  peer_groups : gmap (bytes * bytes) Z
}.

(** [StorageError::Database]. *)
Inductive PeerDbError := Database.

Definition query {A} (m : prog (Pool PeerDb) () A) : prog (Pool PeerDb) PeerDbError A :=
  prog_map_err (λ _, Database) m.

Definition update_peer (peer_id : bytes) (f : PeerRecord → PeerRecord) (t : PeerDb) : PeerDb :=
  mkPeerDb (alter f peer_id (peers t)) (peer_groups t).

(** ** [PeerRegistry] *)

Definition upsert (peer_id : bytes) (record : PeerRecord) : prog (Pool PeerDb) PeerDbError () :=
  query (execute (λ t, mkPeerDb (<[ peer_id := record ]> (peers t)) (peer_groups t))).

Definition get (peer_id : bytes) : prog (Pool PeerDb) PeerDbError (option PeerRecord) :=
  query (select (λ t, peers t !! peer_id)).

Definition new_peer (addr : bytes) (now_ms : Z) : PeerRecord := mkPeer addr now_ms 0 0 0 None false.

Definition ensure_registered (peer_id addr : bytes) (now_ms : Z) : prog (Pool PeerDb) PeerDbError () :=
  query (execute (λ t,
    match peers t !! peer_id with
    | Some _ => t
    | None => mkPeerDb (<[ peer_id := new_peer addr now_ms ]> (peers t)) (peer_groups t)
    end)).

Definition count_accepted (now_ms : Z) (r : PeerRecord) : PeerRecord :=
  mkPeer (address r) now_ms (articles_accepted r + 1) (articles_rejected r) 0
    (blacklisted_until_ms r) (configured r).

Definition record_accepted (peer_id : bytes) (now_ms : Z) : prog (Pool PeerDb) PeerDbError () :=
  query (execute (update_peer peer_id (count_accepted now_ms))).

Definition count_rejected (now_ms : Z) (r : PeerRecord) : PeerRecord :=
  mkPeer (address r) now_ms (articles_accepted r) (articles_rejected r + 1)
    (Z.min (consecutive_failures r + 1) 20) (blacklisted_until_ms r) (configured r).

Definition record_rejected (peer_id : bytes) (now_ms : Z) : prog (Pool PeerDb) PeerDbError () :=
  query (execute (update_peer peer_id (count_rejected now_ms))).

(** [WHERE blacklisted_until IS NULL OR blacklisted_until <= ?]. *)
Definition active (now_ms : Z) (r : PeerRecord) : bool :=
  match blacklisted_until_ms r with
  | None => true
  | Some until => until <=? now_ms
  end.

(** [ORDER BY last_seen DESC]: the database picks the order of equal rows. *)
Class ByLastSeen := by_last_seen : list (bytes * PeerRecord) → list (bytes * PeerRecord).

Definition list_active {O : ByLastSeen} (now_ms : Z) :
    prog (Pool PeerDb) PeerDbError (list (bytes * PeerRecord)) :=
  query (select (λ t, by_last_seen (List.filter (λ kr, active now_ms kr.2) (map_to_list (peers t))))).

(** ** The blacklist *)

Record BlacklistConfig := mkBlacklist { failure_threshold : Z; duration_secs : Z }.

Definition blacklist_default : BlacklistConfig := mkBlacklist 10 3600.

Definition set_blacklisted (until : option Z) (r : PeerRecord) : PeerRecord :=
  mkPeer (address r) (last_seen_ms r) (articles_accepted r) (articles_rejected r)
    (consecutive_failures r) until (configured r).

Definition check_and_blacklist (config : BlacklistConfig) (peer_id : bytes) (now_ms : Z) :
    prog (Pool PeerDb) PeerDbError bool :=
  row ← query (select (λ t, consecutive_failures <$> peers t !! peer_id));
  match row with
  | None => mret false
  | Some failures =>
      if failure_threshold config <=? failures then
        let blacklisted_until := now_ms + duration_secs config * 1000 in
        _ ← query (execute (update_peer peer_id (set_blacklisted (Some blacklisted_until))));
        mret true
      else mret false
  end.

Definition is_blacklisted (peer_id : bytes) (now_ms : Z) : prog (Pool PeerDb) PeerDbError bool :=
  row ← query (select (λ t, blacklisted_until_ms <$> peers t !! peer_id));
  mret (match row with
        | Some (Some until) => now_ms <? until
        | _ => false
        end).

Definition pardon (r : PeerRecord) : PeerRecord :=
  mkPeer (address r) (last_seen_ms r) (articles_accepted r) (articles_rejected r) 0 None (configured r).

Definition unblacklist (peer_id : bytes) : prog (Pool PeerDb) PeerDbError () :=
  query (execute (update_peer peer_id pardon)).

(** ** Feed negotiation *)

Definition delete_groups (peer_id : bytes) (t : PeerDb) : PeerDb :=
  mkPeerDb (peers t) (filter (λ kv : bytes * bytes * Z, kv.1.1 ≠ peer_id) (peer_groups t)).

(** The multi-row [INSERT]: [None] when a row breaks the primary key or the
    foreign key into [peers]. *)
Definition insert_groups (peer_id : bytes) (groups : list bytes) (now_ms : Z) (t : PeerDb) :
    option PeerDb :=
  if bool_decide (is_Some (peers t !! peer_id)) &&
     bool_decide (NoDup groups ∧ Forall (λ g, peer_groups t !! (peer_id, g) = None) groups)
  then Some (mkPeerDb (peers t)
               (foldr (λ g m, <[ (peer_id, g) := now_ms ]> m) (peer_groups t) groups))
  else None.

Definition update_peer_groups (peer_id : bytes) (groups : list bytes) (now_ms : Z) :
    prog (Pool PeerDb) PeerDbError () :=
  let valid_groups := List.filter (λ g, is_ok (group_new g)) groups in
  t ← query begin_tx;
  _ ← query round_trip;
  let t := delete_groups peer_id t in
  t ← (if bool_decide (valid_groups = []) then mret t
       else
         _ ← query round_trip;
         match insert_groups peer_id valid_groups now_ms t with
         | Some t' => mret t'
         | None => throw Database
         end);
  query (commit_tx t).

(** [ORDER BY] on a text column. *)
Definition groups_for_peer (peer_id : bytes) : prog (Pool PeerDb) PeerDbError (list bytes) :=
  query (select (λ t, merge_sort bytes_le
    (snd <$> List.filter (λ k, bool_decide (k.1 = peer_id)) (map_to_list (peer_groups t)).*1))).

Definition peers_serving_group (group_name : bytes) : prog (Pool PeerDb) PeerDbError (list bytes) :=
  query (select (λ t, merge_sort bytes_le
    (fst <$> List.filter (λ k, bool_decide (k.2 = group_name)) (map_to_list (peer_groups t)).*1))).

Definition peer_serves_group (peer_id group_name : bytes) : prog (Pool PeerDb) PeerDbError bool :=
  query (select (λ t, bool_decide (is_Some (peer_groups t !! (peer_id, group_name))))).

Definition clear_peer_groups (peer_id : bytes) : prog (Pool PeerDb) PeerDbError () :=
  query (execute (delete_groups peer_id)).

(** ** When a peer is blacklisted *)

(** What the session reports of an article: [record_accepted], or
    [record_rejected] followed by [check_and_blacklist], at a time. *)
Inductive Report := RAccepted (t : Z) | RRejected (t : Z).

Definition report_time (r : Report) : Z := match r with RAccepted t | RRejected t => t end.

Definition apply_report (config : BlacklistConfig) (peer_id : bytes) (r : Report) (p : Pool PeerDb) :
    Pool PeerDb :=
  match r with
  | RAccepted t => (record_accepted peer_id t p).2
  | RRejected t => (check_and_blacklist config peer_id t (record_rejected peer_id t p).2).2
  end.

(** The rejections since the last acceptance. *)
Fixpoint run_length (rev_reports : list Report) : Z :=
  match rev_reports with
  | RRejected _ :: rs => run_length rs + 1
  | _ => 0
  end.

(** The blacklisting a rejection causes after the reports [before], latest
    first. *)
Definition trigger (config : BlacklistConfig) (before : list Report) (r : Report) : option Z :=
  match r with
  | RRejected t =>
      if failure_threshold config <=? Z.min (run_length (r :: before)) 20
      then Some (t + duration_secs config * 1000) else None
  | RAccepted _ => None
  end.

(** The last blacklisting among the reports, latest first. *)
Fixpoint last_trigger (config : BlacklistConfig) (rev_reports : list Report) : option Z :=
  match rev_reports with
  | [] => None
  | r :: rs =>
      match trigger config rs r with
      | Some until => Some until
      | None => last_trigger config rs
      end
  end.

Lemma run_length_nonneg rs : 0 <= run_length rs.
Proof. induction rs as [|[] rs IH]; simpl; lia. Qed.

Lemma reliable_execute_pool (f : PeerDb → PeerDb) p :
  pool_reliable p → ∃ p', query (execute f) p = (Ok tt, p') ∧ rows p' = f (rows p) ∧ pool_reliable p'.
Proof.
  intros (p' & E & Hr & Hp')%(execute_reliable f). unfold query, prog_map_err. rewrite E. by eexists.
Qed.

Lemma reliable_select_pool {A} (f : PeerDb → A) p :
  pool_reliable p → ∃ p', query (select f) p = (Ok (f (rows p)), p') ∧ rows p' = rows p ∧ pool_reliable p'.
Proof.
  intros (p' & E & Hr & Hp')%(select_reliable f). unfold query, prog_map_err. rewrite E. by eexists.
Qed.

(** The row of the peer after the reports, latest first. *)
Definition row_after (config : BlacklistConfig) (rs : list Report) (r : PeerRecord) : Prop :=
  consecutive_failures r = Z.min (run_length rs) 20 ∧ blacklisted_until_ms r = last_trigger config rs.

Lemma apply_report_row config peer_id rs rep p r :
  pool_reliable p → peers (rows p) !! peer_id = Some r → row_after config rs r →
  let p' := apply_report config peer_id rep p in
  pool_reliable p' ∧ ∃ r', peers (rows p') !! peer_id = Some r' ∧ row_after config (rep :: rs) r'.
Proof.
  intros Hp Hr (Hc & Hu). pose proof (run_length_nonneg rs).
  destruct rep as [t|t]; cbn [apply_report run_length].
  - unfold record_accepted.
    destruct (reliable_execute_pool (update_peer peer_id (count_accepted t)) p Hp) as (p' & -> & R & Hp').
    cbn [snd]. split; [done|]. rewrite R. cbn [update_peer peers]. rewrite lookup_alter_eq, Hr.
    eexists. split; [done|]. by split.
  - unfold record_rejected, check_and_blacklist.
    destruct (reliable_execute_pool (update_peer peer_id (count_rejected t)) p Hp) as (p1 & -> & R1 & Hp1).
    cbn [snd]. unfold mbind, prog_bind.
    edestruct (λ A f, @reliable_select_pool A f p1 Hp1) as (p2 & E2 & R2 & Hp2). rewrite E2.
    rewrite R1. cbn [update_peer peers]. rewrite lookup_alter_eq, Hr. cbn [fmap option_fmap option_map].
    cbn [count_rejected consecutive_failures]. rewrite Hc.
    assert (Hn : Z.min (Z.min (run_length rs) 20 + 1) 20 = Z.min (run_length rs + 1) 20) by lia. rewrite Hn.
    unfold row_after. cbn [last_trigger trigger run_length].
    destruct (failure_threshold config <=? Z.min (run_length rs + 1) 20).
    + edestruct (λ f, reliable_execute_pool f p2 Hp2) as (p3 & E3 & R3 & Hp3). rewrite E3. cbn [mret prog_ret snd].
      split; [done|]. rewrite R3, R2, R1. cbn [update_peer peers].
      rewrite lookup_alter_eq, lookup_alter_eq, Hr. eexists. split; [done|]. simpl. by rewrite Hc, Hn.
    + cbn [mret prog_ret snd]. split; [done|]. rewrite R2, R1. cbn [update_peer peers].
      rewrite lookup_alter_eq, Hr. eexists. split; [done|]. simpl. by rewrite Hc, Hn.
Qed.

Lemma apply_reports_row config peer_id reports p r rs :
  pool_reliable p → peers (rows p) !! peer_id = Some r → row_after config rs r →
  let p' := foldl (λ p rep, apply_report config peer_id rep p) p reports in
  pool_reliable p' ∧ ∃ r', peers (rows p') !! peer_id = Some r' ∧ row_after config (rev reports ++ rs) r'.
Proof.
  revert p r rs. induction reports as [|rep reports IH]; intros p r rs Hp Hr Hrow; simpl; [eauto|].
  destruct (apply_report_row config peer_id rs rep p r Hp Hr Hrow) as (Hp' & r' & Hr' & Hrow').
  destruct (IH _ _ _ Hp' Hr' Hrow') as (Hp'' & r'' & Hr'' & Hrow''). split; [done|].
  exists r''. split; [done|]. by rewrite <- app_assoc.
Qed.

(** The last blacklisting covers every earlier one when time does not go
    back. *)
Lemma last_trigger_covers config reports now :
  (∀ r r' pre post, reports = pre ++ r :: post → r' ∈ post → report_time r <= report_time r') →
  match last_trigger config (rev reports) with
  | Some until => now < until
  | None => False
  end ↔
  ∃ pre t post, reports = pre ++ RRejected t :: post ∧
    failure_threshold config <= Z.min (run_length (RRejected t :: rev pre)) 20 ∧
    now < t + duration_secs config * 1000.
Proof.
  induction reports as [|r reports IH] using rev_ind; intros Hmono.
  { simpl. split; [done|]. by intros (pre & t & post & H & _); destruct pre. }
  rewrite rev_app_distr. cbn [app rev last_trigger].
  assert (Hsnoc : ∀ pre t post, reports ++ [r] = pre ++ RRejected t :: post →
    (r = RRejected t ∧ pre = reports ∧ post = []) ∨ ∃ post', post = post' ++ [r] ∧ reports = pre ++ RRejected t :: post').
  { intros pre t post H. destruct post as [|x post _] using rev_ind.
    - apply app_inj_tail in H as [-> ->]. by left.
    - right. exists post. rewrite app_comm_cons, app_assoc in H. apply app_inj_tail in H as [-> ->]. done. }
  destruct (trigger config (rev reports) r) as [until|] eqn:E.
  - destruct r as [t|t]; [done|]. cbn [trigger] in E. destruct (_ <=? _) eqn:Hle; [|done].
    injection E as <-. to_prop. split.
    + intros Hnow. exists reports, t, []. done.
    + intros (pre & t' & post & Heq & Hth & Hnow).
      destruct (Hsnoc _ _ _ Heq) as [([= ->] & _)|(post' & -> & ->)]; [done|].
      specialize (Hmono (RRejected t') (RRejected t) pre (post' ++ [RRejected t])).
      rewrite <- app_assoc in Hmono. specialize (Hmono eq_refl ltac:(set_solver)). simpl in Hmono. lia.
  - rewrite IH; clear IH.
    + split.
      * intros (pre & t & post & -> & ?). exists pre, t, (post ++ [r]). split; [|done].
        by rewrite <- app_assoc.
      * intros (pre & t & post & Heq & Hth & Hnow).
        destruct (Hsnoc _ _ _ Heq) as [(-> & -> & ->)|(post' & -> & ->)]; [|by exists pre, t, post'].
        cbn [trigger] in E. destruct (Z.leb_spec (failure_threshold config)
          (Z.min (run_length (RRejected t :: rev reports)) 20)); [done|lia].
    + intros r1 r2 pre post -> Hin. apply (Hmono r1 r2 pre (post ++ [r])); [by rewrite <- app_assoc|set_solver].
Qed.

(** A registered peer, whose reports arrive in the order of time, is refused at
    a time exactly when some rejection less than the configured duration before
    completed a run of at least [failure_threshold] consecutive rejections.
    The run is counted up to 20 only, so a larger threshold never blacklists
    anyone. *)
Theorem blacklist_spec config peer_id addr t0 reports now p :
  pool_reliable p → peers (rows p) !! peer_id = None →
  (∀ r r' pre post, reports = pre ++ r :: post → r' ∈ post → report_time r <= report_time r') →
  let p0 := (ensure_registered peer_id addr t0 p).2 in
  let p' := foldl (λ p rep, apply_report config peer_id rep p) p0 reports in
  ∃ b p'', is_blacklisted peer_id now p' = (Ok b, p'') ∧
    (b = true ↔ ∃ pre t post, reports = pre ++ RRejected t :: post ∧
       failure_threshold config <= Z.min (run_length (RRejected t :: rev pre)) 20 ∧
       now < t + duration_secs config * 1000) ∧
    (20 < failure_threshold config → b = false).
Proof.
  intros Hp Hnone Hmono p0 p'.
  assert (H0 : pool_reliable p0 ∧ peers (rows p0) !! peer_id = Some (new_peer addr t0)).
  { unfold p0, ensure_registered. edestruct (λ f, reliable_execute_pool f p Hp) as (p1 & E & R & Hp1).
    rewrite E. cbn [snd]. split; [done|]. rewrite R, Hnone. simpl. by rewrite lookup_insert_eq. }
  destruct H0 as [Hp0 Hr0].
  destruct (apply_reports_row config peer_id reports p0 _ [] Hp0 Hr0) as (Hp' & r & Hr & Hc & Hu); [done|].
  fold p' in Hp', Hr. rewrite app_nil_r in Hc, Hu. unfold is_blacklisted, mbind, prog_bind.
  edestruct (λ A f, @reliable_select_pool A f p' Hp') as (p'' & E & _). rewrite E, Hr. clear E.
  cbn [fmap option_fmap option_map]. rewrite Hu. eexists _, _. split; [reflexivity|].
  pose proof (last_trigger_covers config reports now Hmono) as Hiff.
  assert (Hb : (match last_trigger config (rev reports) with Some until => now <? until | None => false end)
    = true ↔ match last_trigger config (rev reports) with Some until => now < until | None => False end).
  { destruct (last_trigger config (rev reports)); [apply Z.ltb_lt|done]. }
  split; [by rewrite Hb|]. intros Hth. apply not_true_iff_false. rewrite Hb, Hiff.
  intros (pre & t & post & _ & Hle & _). lia.
Qed.

(** ** Group lists *)

Lemma insert_groups_lookup (peer_id : bytes) (groups : list bytes) (now_ms : Z) (m : gmap (bytes * bytes) Z)
    (k : bytes * bytes) :
  foldr (λ g m, <[ (peer_id, g) := now_ms ]> m) m groups !! k =
  if decide (k.1 = peer_id ∧ k.2 ∈ groups) then Some now_ms else m !! k.
Proof.
  induction groups as [|g groups IH]; simpl.
  - destruct (decide _) as [[_ H]|]; [by apply not_elem_of_nil in H|done].
  - destruct (decide ((peer_id, g) = k)) as [<-|Hne].
    + rewrite lookup_insert_eq. simpl. rewrite decide_True; [done|]. split; [done|by left].
    + rewrite lookup_insert_ne, IH by done. destruct k as [p' g']; simpl in *.
      destruct (decide (p' = peer_id ∧ g' ∈ groups)) as [[-> Hin]|Hn].
      * rewrite decide_True; [done|]. split; [done|by right].
      * rewrite decide_False; [done|]. intros [-> [->|?]%elem_of_cons]; [done|naive_solver].
Qed.

(** A new list replaces the peer's old one, names that are not group names are
    left out, and other peers keep theirs.  It fails, and leaves the old list,
    when the database does, the peer is unknown, or a valid name is listed
    twice. *)
Lemma update_peer_groups_spec peer_id groups now_ms p :
  let valid := List.filter (λ g, is_ok (group_new g)) groups in
  db_outcome p (update_peer_groups peer_id groups now_ms)
    (λ _ t, peers t = peers (rows p) ∧
       ∀ k, peer_groups t !! k =
         if decide (k.1 = peer_id)
         then (if decide (k.2 ∈ valid) then Some now_ms else None)
         else peer_groups (rows p) !! k)
    (λ _, valid ≠ [] ∧ (peers (rows p) !! peer_id = None ∨ ¬ NoDup valid)).
Proof.
  intros valid. unfold update_peer_groups. cbv zeta. fold valid. unfold query.
  eapply (db_outcome_bind _ _ _ (λ t, t = rows p)).
  { auto with sql_db. }
  intros t p1 R1 ->. apply db_outcome_trip. intros p2 R2.
  assert (Hdel : ∀ k, peer_groups (delete_groups peer_id (rows p)) !! k =
    if decide (k.1 = peer_id) then None else peer_groups (rows p) !! k).
  { intros k. cbn [delete_groups peer_groups]. destruct (decide (k.1 = peer_id)).
    - apply map_lookup_filter_None. right. intros x _. simpl. by intros ?.
    - destruct (peer_groups (rows p) !! k) as [x|] eqn:E.
      + by apply map_lookup_filter_Some.
      + apply map_lookup_filter_None. by left. }
  eapply (db_outcome_bind _ _ _ (λ t, peers t = peers (rows p) ∧ ∀ k, peer_groups t !! k =
         if decide (k.1 = peer_id)
         then (if decide (k.2 ∈ valid) then Some now_ms else None)
         else peer_groups (rows p) !! k)).
  - case_bool_decide as Hv.
    + apply db_outcome_ret. split; [done|]. split; [done|]. intros k. rewrite Hdel, Hv.
      destruct (decide (k.1 = peer_id)); [|done]. by rewrite decide_False by apply not_elem_of_nil.
    + apply db_outcome_trip. intros p3 R3. unfold insert_groups.
      destruct (_ && _) eqn:E; to_prop.
      * apply db_outcome_ret. split; [congruence|]. split; [done|]. intros k.
        cbn [peer_groups]. rewrite insert_groups_lookup, Hdel.
        destruct (decide (k.1 = peer_id)), (decide (k.2 ∈ valid));
          try (rewrite decide_True by done; done); rewrite decide_False by naive_solver; done.
      * apply db_outcome_throw. split; [done|]. apply andb_false_iff in E as [E|E]; to_prop.
        -- left. cbn [delete_groups peers] in E. destruct (peers (rows p) !! peer_id); [|done].
           by destruct E.
        -- right. intros Hnd. apply E. split; [done|]. apply Forall_forall. intros g _.
           rewrite Hdel. by rewrite decide_True.
  - intros t p3 R3 Ht. apply db_outcome_map_err.
    pose proof (commit_tx_ok t p3 (λ _, valid ≠ [] ∧ (peers (rows p) !! peer_id = None ∨ ¬ NoDup valid))) as H.
    eapply db_outcome_impl; [exact H| |done]. intros _ t' ->. done.
Qed.

(** ** A peer that misbehaves *)

Module PeerSamples.

Definition peer : bytes := lit "192.0.2.1".
Definition db0 : Pool PeerDb := mkPool (mkPeerDb ∅ ∅) [].
Definition config3 : BlacklistConfig := mkBlacklist 3 60.
Definition reports0 : list Report := [RRejected 1; RAccepted 2; RRejected 3; RRejected 4; RRejected 5].

Lemma reports0_ordered r r' pre post :
  reports0 = pre ++ r :: post → r' ∈ post → report_time r <= report_time r'.
Proof.
  intros E Hin. do 5 (destruct pre as [|? pre]; [injection E as <- <-; repeat
    (apply elem_of_cons in Hin as [->|Hin]; [simpl; lia|]); by apply not_elem_of_nil in Hin|
    injection E as _ E]). by destruct pre.
Qed.

Lemma blacklist_spec_witness :
  (is_blacklisted peer 60004
    (foldl (λ p rep, apply_report config3 peer rep p) (ensure_registered peer (lit "a") 0 db0).2 reports0)).1
  = Ok true.
Proof.
  destruct (blacklist_spec config3 peer (lit "a") 0 reports0 60004 db0) as (b & p & -> & Hb & _).
  - constructor.
  - reflexivity.
  - exact reports0_ordered.
  - simpl. f_equal. apply Hb. exists [RRejected 1; RAccepted 2; RRejected 3; RRejected 4], 5, [].
    split; [reflexivity|]. split; [vm_compute; discriminate|vm_compute; reflexivity].
Defined.

(** A list that names a group twice is refused as a whole. *)
Lemma duplicate_group_refused :
  (update_peer_groups peer [lit "comp.lang.rust"; lit "comp.lang.rust"] 7
     (ensure_registered peer (lit "a") 0 db0).2).1 = Err Database.
Proof. vm_refl. Qed.

End PeerSamples.

End Peers.
