(* ===== verification/PeerAuth.v ===== *)
(** Connections between transit daemons and the handshake that opens them:
    [crates/transit/src/peering/auth.rs].

    A connection is the bytes the peer will send, the writes made so far and the
    outcomes of the coming writes; a round of the handshake is a [join!] of a
    write and a read that advance byte by byte in any order.  The handshake accepts
    only a peer that signs this side's nonce with a trusted key (or sends this
    side's own frame back, when it trusts its own key), and two daemons that trust
    each other's keys accept each other under every schedule, without deadlock. *)

From S2P Require Import Prelude Bytes Crypto.

Module PeerAuth.

(** ** A connection *)

Record Conn := mkConn {
  inbox : bytes;
  outbox : list bytes;
  write_faults : list bool
}.

(** [write_all]; [false] is an I/O error. *)
Definition write_all (b : bytes) (c : Conn) : bool * Conn :=
  match write_faults c with
  | [] => (true, mkConn (inbox c) (outbox c ++ [b]) [])
  | true :: fs => (false, mkConn (inbox c) (outbox c) fs)
  | false :: fs => (true, mkConn (inbox c) (outbox c ++ [b]) fs)
  end.

(** [read_exact] of [n] bytes; [None] is an early end of the stream. *)
Definition read_exact (n : nat) (c : Conn) : option (bytes * Conn) :=
  if (length (inbox c) <? n)%nat then None
  else Some (take n (inbox c), mkConn (drop n (inbox c)) (outbox c) (write_faults c)).

(** ** Keys as bytes *)

(** [VerifyingKey::to_bytes] and [from_bytes], and [hex::decode]. *)
Class KeyLib {siglib : SigLib} := {
  vk_to_bytes : VerifyingKey → bytes;
  vk_from_bytes : bytes → option VerifyingKey;
  hex_decode : bytes → option bytes
}.

Class KeyLaws {siglib : SigLib} (keys : KeyLib) : Prop := {
  length_vk k : length (vk_to_bytes k) = 32%nat;
  vk_roundtrip k : vk_from_bytes (vk_to_bytes k) = Some k
}.

Inductive PeeringAuthError :=
| AuthIo
| InvalidKeyFormat
| InvalidKeyLength (got : Z)
| SignatureVerificationFailed
| PeerNotTrusted
| AuthTimeout.

Section Auth.
Context {siglib : SigLib} {keys : KeyLib}.

Definition parse_trusted_peer_key (s : bytes) : result PeeringAuthError VerifyingKey :=
  match strip_prefix (lit "ed25519:") s with
  | None => Err InvalidKeyFormat
  | Some hex_part =>
      match hex_decode hex_part with
      | None => Err InvalidKeyFormat
      | Some b =>
          if (length b =? 32)%nat then
            match vk_from_bytes b with
            | Some k => Ok k
            | None => Err InvalidKeyFormat
            end
          else Err (InvalidKeyLength (Z.of_nat (length b)))
      end
  end.

(** [map(..).collect()]: the first error. *)
Fixpoint parse_trusted_peer_keys (strings : list bytes) : result PeeringAuthError (list VerifyingKey) :=
  match strings with
  | [] => Ok []
  | s :: strings' =>
      k ← parse_trusted_peer_key s;
      ks ← parse_trusted_peer_keys strings';
      Ok (k :: ks)
  end.

(** The fold over all keys. *)
Definition is_trusted (trusted_keys : list VerifyingKey) (their_pubkey : bytes) : bool :=
  foldl (λ found k, found || bool_decide (vk_to_bytes k = their_pubkey)) false trusted_keys.

(** The frame answering the nonce [their_nonce]. *)
Definition auth_frame (signing_key : SigningKey) (their_nonce : bytes) : bytes :=
  let my_pubkey := vk_to_bytes (verifying_key signing_key) in
  my_pubkey ++ ed_sign signing_key (their_nonce ++ my_pubkey).

(** What is decided about the frame received. *)
Definition check_frame (trusted_keys : list VerifyingKey) (my_nonce in_frame : bytes) :
    result PeeringAuthError bytes :=
  let their_pubkey := take 32 in_frame in
  let their_sig := drop 32 in_frame in
  if negb (is_trusted trusted_keys their_pubkey) then Err PeerNotTrusted
  else
    match vk_from_bytes their_pubkey with
    | None => Err SignatureVerificationFailed
    | Some k =>
        if ed_verify k (my_nonce ++ their_pubkey) their_sig then Ok their_pubkey
        else Err SignatureVerificationFailed
    end.

(** *** A round: [tokio::join!] of a write and a read *)

(** What can happen to the two halves: a byte leaves, the write fails, a byte
    arrives, the stream ends. *)
Inductive IoEvent := WroteByte | WriteError | GotByte (b : Z) | ReadEof.

Inductive Writing := WPending (rest : bytes) | WDone (ok : bool).
Inductive Reading := RPending (got : bytes) (need : nat) | RDone (r : option bytes).

(** [join!] polls both halves: either may advance at any time. *)
Record Join := mkJoin { j_write : Writing; j_read : Reading }.

Definition writing (rest : bytes) : Writing := match rest with [] => WDone true | _ => WPending rest end.
Definition reading (got : bytes) (need : nat) : Reading :=
  match need with O => RDone (Some got) | _ => RPending got need end.

(** [join!(write_all(out), read_exact(n bytes))] as it starts. *)
Definition join_both (out : bytes) (n : nat) : Join := mkJoin (writing out) (reading [] n).

(** [None]: the event cannot happen. *)
Definition join_step (e : IoEvent) (j : Join) : option Join :=
  match e, j_write j, j_read j with
  | WroteByte, WPending (_ :: rest), r => Some (mkJoin (writing rest) r)
  | WriteError, WPending _, r => Some (mkJoin (WDone false) r)
  | GotByte b, w, RPending got (S need) => Some (mkJoin w (reading (got ++ [b]) need))
  | ReadEof, w, RPending _ _ => Some (mkJoin w (RDone None))
  | _, _, _ => None
  end.

(** Both halves have ended: the write's error is looked at first. *)
Definition joined (j : Join) : option (result PeeringAuthError bytes) :=
  match j_write j, j_read j with
  | WDone false, RDone _ | WDone true, RDone None => Some (Err AuthIo)
  | WDone true, RDone (Some b) => Some (Ok b)
  | _, _ => None
  end.

(** *** The handshake *)

(** One side: its fresh nonce, its key and the keys it trusts. *)
Record Party := mkParty { d_nonce : bytes; d_key : SigningKey; d_trusted : list VerifyingKey }.

Inductive Handshake :=
| Nonces (j : Join)
| Frames (j : Join)
| Finished (r : result PeeringAuthError bytes).

Definition hs_start (d : Party) : Handshake := Nonces (join_both (d_nonce d) 32).

(** What follows a round that has ended. *)
Definition hs_next (d : Party) (h : Handshake) : Handshake :=
  match h with
  | Nonces j =>
      match joined j with
      | Some (Ok their_nonce) => Frames (join_both (auth_frame (d_key d) their_nonce) 96)
      | Some (Err e) => Finished (Err e)
      | None => h
      end
  | Frames j =>
      match joined j with
      | Some (Ok in_frame) => Finished (check_frame (d_trusted d) (d_nonce d) in_frame)
      | Some (Err e) => Finished (Err e)
      | None => h
      end
  | Finished _ => h
  end.

Definition hs_step (d : Party) (e : IoEvent) (h : Handshake) : option Handshake :=
  match h with
  | Nonces j => hs_next d ∘ Nonces <$> join_step e j
  | Frames j => hs_next d ∘ Frames <$> join_step e j
  | Finished _ => None
  end.

(** A round over a connection. *)
Definition exchange (out : bytes) (n : nat) (c : Conn) : result PeeringAuthError bytes * Conn :=
  let '(wrote, c1) := write_all out c in
  match read_exact n c1 with
  | None => (Err AuthIo, c1)
  | Some (b, c2) => if wrote then (Ok b, c2) else (Err AuthIo, c2)
  end.

(** The handshake over a connection; [handshake_any_order] below shows that the
    order in which the halves of a round advance does not matter. *)
Definition handshake_inner (my_nonce : bytes) (signing_key : SigningKey)
    (trusted_keys : list VerifyingKey) : prog Conn PeeringAuthError bytes :=
  their_nonce ← exchange my_nonce 32;
  in_frame ← exchange (auth_frame signing_key their_nonce) 96;
  lift (check_frame trusted_keys my_nonce in_frame).

(** [timed_out] says that the 15 seconds ran out first. *)
Definition run_auth_handshake (timed_out : bool) (my_nonce : bytes) (signing_key : SigningKey)
    (trusted_keys : list VerifyingKey) : prog Conn PeeringAuthError bytes := λ c,
  let '(r, c') := handshake_inner my_nonce signing_key trusted_keys c in
  if timed_out then (Err AuthTimeout, c') else (r, c').

(** *** Two daemons connected to each other *)

(** The byte a side is about to write. *)
Definition to_write (h : Handshake) : option Z :=
  match h with
  | Nonces j | Frames j => match j_write j with WPending (x :: _) => Some x | _ => None end
  | Finished _ => None
  end.

(** A side writes a byte to a channel that holds at most [cap] bytes, or reads
    one from the other channel. *)
Inductive side_step (cap : nat) (d : Party) : Handshake * bytes * bytes → Handshake * bytes * bytes → Prop :=
| side_write h h' x out inp :
    to_write h = Some x → (length out < cap)%nat → hs_step d WroteByte h = Some h' →
    side_step cap d (h, out, inp) (h', out ++ [x], inp)
| side_read h h' x out inp :
    hs_step d (GotByte x) h = Some h' → side_step cap d (h, out, x :: inp) (h', out, inp).

Record Link := mkLink { l_a : Handshake; l_b : Handshake; a_to_b : bytes; b_to_a : bytes }.

Inductive link_step (cap : nat) (a b : Party) : Link → Link → Prop :=
| link_a ha ha' hb ab ab' ba ba' :
    side_step cap a (ha, ab, ba) (ha', ab', ba') → link_step cap a b (mkLink ha hb ab ba) (mkLink ha' hb ab' ba')
| link_b ha hb hb' ab ab' ba ba' :
    side_step cap b (hb, ba, ab) (hb', ba', ab') → link_step cap a b (mkLink ha hb ab ba) (mkLink ha hb' ab' ba').

Definition link_start (a b : Party) : Link := mkLink (hs_start a) (hs_start b) [] [].

(** ** What it proves about the peer *)

Lemma is_trusted_spec trusted b : is_trusted trusted b = true ↔ b ∈ vk_to_bytes <$> trusted.
Proof.
  unfold is_trusted.
  assert (H : ∀ found, foldl (λ found k, found || bool_decide (vk_to_bytes k = b)) found trusted = true ↔
    found = true ∨ b ∈ vk_to_bytes <$> trusted).
  { induction trusted as [|k ks IH]; intros found; simpl; [set_solver|].
    rewrite IH, orb_true_iff, bool_decide_eq_true, elem_of_cons. naive_solver. }
  rewrite H. naive_solver.
Qed.

Context {siglaws : SigLaws siglib} {klaws : KeyLaws keys}.

Lemma read_exact_Some n c b c' :
  read_exact n c = Some (b, c') → inbox c = b ++ inbox c' ∧ length b = n ∧ outbox c' = outbox c.
Proof.
  unfold read_exact. destruct (Nat.ltb_spec (length (inbox c)) n); [done|]. intros [= <- <-].
  simpl. rewrite take_drop, length_take. split_and!; [done|lia|done].
Qed.

Lemma exchange_Ok out n c b c' :
  exchange out n c = (Ok b, c') →
  inbox c = b ++ inbox c' ∧ length b = n ∧ outbox c' = outbox c ++ [out].
Proof.
  unfold exchange, write_all.
  destruct (write_faults c) as [|[] fs]; destruct (read_exact _ _) as [[b0 c0]|] eqn:E; intros [= <- <-];
    apply read_exact_Some in E as (? & ? & ?); simpl in *; split_and!; congruence.
Qed.

(** A round over a connection that carries both messages. *)
Lemma exchange_ready out (b : bytes) n rest outs fs :
  length b = n → head fs ≠ Some true →
  exchange out n (mkConn (b ++ rest) outs fs) = (Ok b, mkConn rest (outs ++ [out]) (tail fs)).
Proof.
  intros Hn Hf. assert (Hw : write_all out (mkConn (b ++ rest) outs fs) = (true, mkConn (b ++ rest) (outs ++ [out]) (tail fs))).
  { unfold write_all. cbn. by destruct fs as [|[] fs]. }
  unfold exchange, read_exact. rewrite Hw. cbn [write_faults inbox outbox].
  rewrite length_app. destruct (Nat.ltb_spec (length b + length rest) n); [lia|].
  subst n. by rewrite take_app_length, drop_app_length.
Qed.

Lemma length_auth_frame k nonce : length (auth_frame k nonce) = 96%nat.
Proof. unfold auth_frame. cbv zeta. by rewrite length_app, length_vk, length_ed_sign. Qed.

(** The answer of a trusted key to this side's nonce is accepted. *)
Lemma check_frame_honest trusted nonce k :
  verifying_key k ∈ trusted →
  check_frame trusted nonce (auth_frame k nonce) = Ok (vk_to_bytes (verifying_key k)).
Proof.
  intros Hin. unfold check_frame, auth_frame. cbv zeta.
  rewrite take_app_length', drop_app_length' by (by rewrite length_vk).
  rewrite (proj2 (is_trusted_spec _ _)) by (by apply list_elem_of_fmap_2).
  cbn [negb]. by rewrite vk_roundtrip, ed_sign_verifies.
Qed.

Lemma handshake_ready nonce key trusted their_nonce k rest :
  length their_nonce = 32%nat → verifying_key k ∈ trusted →
  run_auth_handshake false nonce key trusted
    (mkConn (their_nonce ++ auth_frame k nonce ++ rest) [] []) =
  (Ok (vk_to_bytes (verifying_key k)), mkConn rest [nonce; auth_frame key their_nonce] []).
Proof.
  intros Hn Hin. unfold run_auth_handshake, handshake_inner, mbind, prog_bind.
  rewrite exchange_ready by done. cbn [app tail]. rewrite exchange_ready by (done || apply length_auth_frame).
  unfold lift. by rewrite check_frame_honest.
Qed.

(** *** Any order of the events *)

Definition received (evs : list IoEvent) : bytes := omap (λ e, match e with GotByte b => Some b | _ => None end) evs.

Fixpoint hs_run (d : Party) (evs : list IoEvent) (h : Handshake) : option Handshake :=
  match evs with [] => Some h | e :: evs' => h' ← hs_step d e h; hs_run d evs' h' end.

(** The read half of a round of [n] bytes after [got]. *)
Definition reads (n : nat) (got : bytes) (j : Join) : Prop :=
  (j_read j = reading got (n - length got) ∧ (length got <= n)%nat) ∨ (j_read j = RDone None ∧ (length got < n)%nat).

Lemma reads_join out n : reads n [] (join_both out n).
Proof. left. split; [|cbn; lia]. cbn [length]. by rewrite Nat.sub_0_r. Qed.

Lemma join_step_reads n got e j j' : reads n got j → join_step e j = Some j' → reads n (got ++ received [e]) j'.
Proof.
  intros [[Hr Hl]|[Hr Hl]]; unfold join_step; rewrite Hr; destruct e as [| |b|]; cbn [received omap list_omap];
    rewrite ?app_nil_r; destruct (j_write j) as [[|x w]|ok]; try done;
    try (by intros [= <-]; left); try (by intros [= <-]; right);
    destruct (n - length got)%nat as [|need] eqn:En; try done; intros [= <-].
  all: try (by right; split; [|lia]).
  all: left; rewrite length_app; cbn; (split; [|lia]); by replace (n - (length got + 1))%nat with need by lia.
Qed.

(** A round that has ended is an [exchange] over a connection with these bytes. *)
Lemma joined_exchange n got j r out outs :
  reads n got j → joined j = Some r →
  ∃ f, (exchange out n (mkConn got outs [f])).1 = r ∧ (∀ b, r = Ok b → got = b ∧ length b = n).
Proof.
  intros Hr Hj. unfold joined in Hj. destruct (j_write j) as [|[]] eqn:Ew; [done| |].
  - exists false. unfold exchange, write_all, read_exact. cbn [write_faults inbox outbox].
    destruct Hr as [[Hr Hl]|[Hr Hl]]; rewrite Hr in Hj.
    + destruct (n - length got)%nat eqn:En; [|done]. injection Hj as <-. assert (length got = n) as Hn by lia.
      rewrite (proj2 (Nat.ltb_ge _ _)) by lia. rewrite take_ge by lia. split; [done|]. by intros b [= <-].
    + injection Hj as <-. by rewrite (proj2 (Nat.ltb_lt _ _)) by lia.
  - exists true. unfold exchange, write_all, read_exact. cbn [write_faults inbox outbox]. destruct (j_read j); [done|]. injection Hj as <-.
    by destruct (_ <? _)%nat.
Qed.

(** The handshake after some events. *)
Definition hs_inv (d : Party) (got : bytes) (h : Handshake) : Prop :=
  match h with
  | Nonces j => reads 32 got j
  | Frames j => ∃ tn got', got = tn ++ got' ∧ length tn = 32%nat ∧ reads 96 got' j
  | Finished r => ∃ faults, (handshake_inner (d_nonce d) (d_key d) (d_trusted d) (mkConn got [] faults)).1 = r
  end.

Lemma hs_step_inv d got e h h' : hs_inv d got h → hs_step d e h = Some h' → hs_inv d (got ++ received [e]) h'.
Proof.
  destruct h as [j|j|r]; cbn [hs_step hs_inv]; [| |done].
  - intros Hr. destruct (join_step e j) as [j'|] eqn:E; [|done]. intros [= <-]. apply (join_step_reads _ _ _ _ _ Hr) in E.
    unfold compose. cbn [hs_next]. destruct (joined j') as [r|] eqn:Ej; [|done].
    destruct (joined_exchange _ _ _ r (d_nonce d) [] E Ej) as (f & Hx & Hb). destruct r as [tn|er].
    + destruct (Hb tn eq_refl) as [-> Hl]. exists tn, []. rewrite app_nil_r. split_and!; [done|done|apply reads_join].
    + exists [f]. unfold handshake_inner, mbind, prog_bind. destruct (exchange _ _ _) as [r c]. cbn in Hx. by subst r.
  - intros (tn & got' & -> & Hn & Hr). destruct (join_step e j) as [j'|] eqn:E; [|done]. intros [= <-].
    apply (join_step_reads _ _ _ _ _ Hr) in E. unfold compose. cbn [hs_next]. destruct (joined j') as [r|] eqn:Ej.
    2:{ exists tn, (got' ++ received [e]). by rewrite app_assoc. }
    destruct (joined_exchange _ _ _ r (auth_frame (d_key d) tn) [d_nonce d] E Ej) as (f & Hx & _).
    assert (H : ∀ r', r' = (match r with Ok fr => check_frame (d_trusted d) (d_nonce d) fr | Err er => Err er end) →
      (handshake_inner (d_nonce d) (d_key d) (d_trusted d) (mkConn ((tn ++ got') ++ received [e]) [] [false; f])).1 = r').
    { intros r' ->. unfold handshake_inner, mbind, prog_bind. rewrite <- app_assoc, exchange_ready by done.
      cbn [tail app]. destruct (exchange _ 96 _) as [r1 c]. cbn in Hx. subst r1. by destruct r. }
    destruct r; exists [false; f]; by apply H.
Qed.

(** Whatever the order in which the halves of each round advance, and whichever
    fails, the outcome is that of [handshake_inner] over the bytes received. *)
Lemma handshake_any_order d evs r :
  hs_run d evs (hs_start d) = Some (Finished r) →
  ∃ faults, (handshake_inner (d_nonce d) (d_key d) (d_trusted d) (mkConn (received evs) [] faults)).1 = r.
Proof.
  assert (H : ∀ h got, hs_inv d got h → hs_run d evs h = Some (Finished r) → hs_inv d (got ++ received evs) (Finished r)).
  { induction evs as [|e evs IH]; intros h got Hi; cbn [hs_run]; [intros [= <-]; by rewrite app_nil_r|].
    destruct (hs_step d e h) as [h'|] eqn:E; [|done]. intros Hrun. apply (hs_step_inv _ _ _ _ _ Hi) in E.
    specialize (IH _ _ E Hrun). rewrite <- app_assoc in IH. by destruct e. }
  apply (H _ []), reads_join.
Qed.

(** *** Two daemons *)

Section Link.
Context (d d' : Party) (Hn : length (d_nonce d) = 32%nat) (Hn' : length (d_nonce d') = 32%nat).

(** All that [d] writes to [d']. *)
Definition sent_by (d d' : Party) : bytes := d_nonce d ++ auth_frame (d_key d) (d_nonce d').

(** Where [d] is after [i] bytes written and [j] read. *)
Definition legal (i j : nat) : Prop := (i <= 32 ∧ j <= 32 ∨ 32 <= i <= 128 ∧ 32 <= j <= 128)%nat.

Definition side_at (i j : nat) : Handshake :=
  if (i <? 32)%nat || (j <? 32)%nat
  then Nonces (mkJoin (writing (drop i (d_nonce d))) (reading (take j (d_nonce d')) (32 - j)))
  else if (i <? 128)%nat || (j <? 128)%nat
  then Frames (mkJoin (writing (drop (i - 32) (auth_frame (d_key d) (d_nonce d'))))
                 (reading (take (j - 32) (auth_frame (d_key d') (d_nonce d))) (128 - j)))
  else Finished (check_frame (d_trusted d) (d_nonce d) (auth_frame (d_key d') (d_nonce d))).

(** The byte that is next at position [i] of a round's message. *)
Definition can_write (i j : nat) : Prop := (i < 32 ∧ j <= 32 ∨ 32 <= i < 128 ∧ 32 <= j)%nat.

Lemma writing_drop (i : nat) (l : bytes) x :
  l !! i = Some x → writing (drop i l) = WPending (x :: drop (S i) l).
Proof. intros H. by rewrite (drop_S _ _ _ H). Qed.

Lemma writing_all (i : nat) (l : bytes) : (length l <= i)%nat → writing (drop i l) = WDone true.
Proof. intros H. by rewrite drop_ge. Qed.

(** A round at a position of its two messages, and what follows it. *)
Definition join_at (out inp : bytes) (i j : nat) : Join :=
  mkJoin (writing (drop i out)) (reading (take j inp) (length inp - j)).

Lemma joined_at out inp i j :
  joined (join_at out inp i j) =
  if (i <? length out)%nat || (j <? length inp)%nat then None else Some (Ok inp).
Proof.
  unfold joined, join_at. cbn [j_write j_read].
  destruct (Nat.ltb_spec i (length out)) as [Hi|Hi]; cbn [orb].
  - destruct (lookup_lt_is_Some_2 out i Hi) as [x Hx]. by rewrite (writing_drop _ _ _ Hx).
  - rewrite writing_all by lia. destruct (Nat.ltb_spec j (length inp)) as [Hj|Hj].
    + by destruct (length inp - j)%nat eqn:E; [lia|].
    + replace (length inp - j)%nat with 0%nat by lia. cbn. by rewrite take_ge by lia.
Qed.

Lemma join_at_write out inp i j :
  (i < length out)%nat → join_step WroteByte (join_at out inp i j) = Some (join_at out inp (S i) j).
Proof.
  intros Hi. destruct (lookup_lt_is_Some_2 out i Hi) as [x Hx]. unfold join_step, join_at. cbn [j_write j_read].
  by rewrite (writing_drop _ _ _ Hx).
Qed.

Lemma join_at_read out inp i j x :
  inp !! j = Some x → join_step (GotByte x) (join_at out inp i j) = Some (join_at out inp i (S j)).
Proof.
  intros Hx. pose proof (lookup_lt_Some _ _ _ Hx) as Hj. unfold join_step, join_at. cbn [j_write j_read].
  destruct (length inp - j)%nat as [|need] eqn:E; [lia|]. cbn [reading]. rewrite <- (take_S_r _ _ _ Hx).
  by replace (length inp - S j)%nat with need by lia.
Qed.

(** [side_at] by rounds. *)
Lemma side_at_nonces i j :
  (i <= 32)%nat → (j <= 32)%nat → side_at i j = hs_next d (Nonces (join_at (d_nonce d) (d_nonce d') i j)).
Proof.
  intros Hi Hj. cbn [hs_next]. rewrite joined_at, Hn, Hn'. unfold side_at, join_at. rewrite Hn'.
  destruct (Nat.ltb_spec i 32), (Nat.ltb_spec j 32); cbn [orb]; try done.
  replace i with 32%nat by lia. replace j with 32%nat by lia. done.
Qed.

Lemma side_at_frames i j :
  (32 <= i)%nat → (32 <= j)%nat →
  side_at i j = hs_next d (Frames (join_at (auth_frame (d_key d) (d_nonce d')) (auth_frame (d_key d') (d_nonce d)) (i - 32) (j - 32))).
Proof.
  intros Hi Hj. cbn [hs_next]. rewrite joined_at, !length_auth_frame. unfold side_at, join_at. rewrite length_auth_frame.
  rewrite (proj2 (Nat.ltb_ge i 32)), (proj2 (Nat.ltb_ge j 32)) by lia. cbn [orb].
  replace (96 - (j - 32))%nat with (128 - j)%nat by lia.
  destruct (Nat.ltb_spec i 128), (Nat.ltb_spec (i - 32) 96), (Nat.ltb_spec j 128), (Nat.ltb_spec (j - 32) 96); try lia; done.
Qed.

(** An unfinished round takes its step and then [hs_next]. *)
Lemma hs_step_nonces e out inp i j j' :
  joined (join_at out inp i j) = None → join_step e (join_at out inp i j) = Some j' →
  hs_step d e (hs_next d (Nonces (join_at out inp i j))) = Some (hs_next d (Nonces j')).
Proof. intros Hj He. cbn [hs_next]. rewrite Hj. cbn [hs_step]. by rewrite He. Qed.

Lemma hs_step_frames e out inp i j j' :
  joined (join_at out inp i j) = None → join_step e (join_at out inp i j) = Some j' →
  hs_step d e (hs_next d (Frames (join_at out inp i j))) = Some (hs_next d (Frames j')).
Proof. intros Hj He. cbn [hs_next]. rewrite Hj. cbn [hs_step]. by rewrite He. Qed.

Lemma joined_at_None out inp i j : (i < length out ∨ j < length inp)%nat → joined (join_at out inp i j) = None.
Proof. intros H. rewrite joined_at. destruct (Nat.ltb_spec i (length out)), (Nat.ltb_spec j (length inp)); done || lia. Qed.

Lemma side_at_write i j :
  legal i j → can_write i j →
  hs_step d WroteByte (side_at i j) = Some (side_at (S i) j) ∧ legal (S i) j.
Proof.
  intros Hl [[Hi Hj]|[Hi Hj]]; (split; [|unfold legal in *; lia]).
  - rewrite !side_at_nonces by lia. apply hs_step_nonces; [apply joined_at_None; lia|]. apply join_at_write. lia.
  - rewrite !side_at_frames by (unfold legal in *; lia). rewrite Nat.sub_succ_l by lia.
    apply hs_step_frames; [apply joined_at_None|apply join_at_write]; rewrite !length_auth_frame; lia.
Qed.

Lemma side_at_read i j x :
  legal i j → can_write j i → sent_by d' d !! j = Some x →
  hs_step d (GotByte x) (side_at i j) = Some (side_at i (S j)) ∧ legal i (S j).
Proof.
  unfold sent_by. intros Hl [[Hj Hi]|[Hj Hi]] Hx; (split; [|unfold legal in *; lia]).
  - rewrite lookup_app_l in Hx by lia. rewrite !side_at_nonces by lia.
    apply hs_step_nonces; [apply joined_at_None; lia|]. by apply join_at_read.
  - rewrite lookup_app_r, Hn' in Hx by lia. rewrite !side_at_frames by (unfold legal in *; lia).
    rewrite Nat.sub_succ_l by lia. apply hs_step_frames; [apply joined_at_None; rewrite !length_auth_frame; lia|].
    by apply join_at_read.
Qed.

Lemma to_write_nonces out inp i j :
  joined (join_at out inp i j) = None → to_write (hs_next d (Nonces (join_at out inp i j))) = out !! i.
Proof.
  intros Hj. cbn [hs_next]. rewrite Hj. cbn. destruct (out !! i) as [x|] eqn:Hx; [by rewrite (writing_drop _ _ _ Hx)|].
  by rewrite writing_all by (by apply lookup_ge_None).
Qed.

Lemma to_write_frames out inp i j :
  joined (join_at out inp i j) = None → to_write (hs_next d (Frames (join_at out inp i j))) = out !! i.
Proof.
  intros Hj. rewrite <- (to_write_nonces out inp i j Hj). cbn [hs_next]. by rewrite Hj.
Qed.

Lemma to_write_at i j x :
  legal i j → to_write (side_at i j) = Some x ↔ can_write i j ∧ sent_by d d' !! i = Some x.
Proof.
  intros Hl. unfold sent_by. destruct (decide (i < 32 ∨ j < 32)%nat).
  - rewrite side_at_nonces, to_write_nonces by (unfold legal in *; try apply joined_at_None; lia).
    split; [|intros [Hc Hx]; rewrite lookup_app_l in Hx; [done|unfold can_write, legal in *; lia]].
    intros Hx. pose proof (lookup_lt_Some _ _ _ Hx). rewrite lookup_app_l by lia. split; [|done].
    unfold can_write, legal in *. lia.
  - rewrite side_at_frames by lia. rewrite lookup_app_r, Hn by lia. destruct (decide (i < 128 ∨ j < 128)%nat).
    + rewrite to_write_frames by (apply joined_at_None; rewrite !length_auth_frame; lia).
      split; [|by intros [_ Hx]]. intros Hx. pose proof (lookup_lt_Some _ _ _ Hx) as Hlt. rewrite length_auth_frame in Hlt.
      split; [unfold can_write, legal in *; lia|done].
    + cbn [hs_next]. rewrite joined_at, !length_auth_frame, !(proj2 (Nat.ltb_ge _ _)) by lia. cbn.
      split; [done|]. intros [Hc _]. unfold can_write, legal in *. lia.
Qed.

(** A byte cannot arrive at other points. *)
Lemma join_at_read_inv out inp i j x j' : join_step (GotByte x) (join_at out inp i j) = Some j' → (j < length inp)%nat.
Proof.
  unfold join_step, join_at. cbn [j_write j_read]. destruct (length inp - j)%nat eqn:E; [done|lia].
Qed.

Lemma side_at_read_inv i j x h : legal i j → hs_step d (GotByte x) (side_at i j) = Some h → can_write j i.
Proof.
  intros Hl. destruct (decide (i < 32 ∨ j < 32)%nat); [|destruct (decide (i < 128 ∨ j < 128)%nat)].
  - rewrite side_at_nonces by (unfold legal in *; lia). cbn [hs_next].
    rewrite joined_at_None by lia. cbn [hs_step]. intros (j' & Hj & _)%fmap_Some. apply join_at_read_inv in Hj.
    unfold can_write, legal in *. lia.
  - rewrite side_at_frames by lia. cbn [hs_next]. rewrite joined_at_None by (rewrite !length_auth_frame; lia). cbn [hs_step].
    intros (j' & Hj & _)%fmap_Some. apply join_at_read_inv in Hj. rewrite length_auth_frame in Hj.
    unfold can_write, legal in *. lia.
  - rewrite side_at_frames by lia. cbn [hs_next]. by rewrite joined_at, !length_auth_frame, !(proj2 (Nat.ltb_ge _ _)) by lia.
Qed.

Lemma length_sent : length (sent_by d d') = 128%nat.
Proof. unfold sent_by. by rewrite length_app, Hn, length_auth_frame. Qed.

End Link.

(** A channel between the [j]-th byte, read next, and the [i]-th, written next. *)
Definition chan (l : bytes) (j i : nat) : bytes := take (i - j) (drop j l).

Lemma chan_write l j i x : l !! i = Some x → (j <= i)%nat → chan l j i ++ [x] = chan l j (S i).
Proof.
  intros Hx Hj. unfold chan. rewrite Nat.sub_succ_l by lia. symmetry. apply take_S_r. rewrite lookup_drop.
  by replace (j + (i - j))%nat with i by lia.
Qed.

Lemma chan_read l j i x : l !! j = Some x → (j < i)%nat → chan l j i = x :: chan l (S j) i.
Proof. intros Hx Hj. unfold chan. rewrite (drop_S _ _ _ Hx). by replace (i - j)%nat with (S (i - S j)) by lia. Qed.

Lemma length_chan l j i : (i <= length l)%nat → length (chan l j i) = (i - j)%nat.
Proof. intros H. unfold chan. rewrite length_take, length_drop. lia. Qed.

(** What a success shows. *)
Lemma handshake_Ok late nonce key trusted c pk c' :
  run_auth_handshake late nonce key trusted c = (Ok pk, c') →
  ∃ k their_nonce sig, k ∈ trusted ∧ pk = vk_to_bytes k ∧
    inbox c = their_nonce ++ pk ++ sig ++ inbox c' ∧ ed_verify k (nonce ++ pk) sig = true ∧
    outbox c' = outbox c ++ [nonce; auth_frame key their_nonce].
Proof.
  unfold run_auth_handshake, handshake_inner, mbind, prog_bind.
  destruct (exchange nonce 32 c) as [[tn|e] c1] eqn:E1; [|by destruct late].
  destruct (exchange (auth_frame key tn) 96 c1) as [[fr|e] c2] eqn:E2; [|by destruct late].
  apply exchange_Ok in E1 as (I1 & _ & O1). apply exchange_Ok in E2 as (I2 & L2 & O2).
  unfold lift. destruct late; [done|]. intros [= Hc <-]. unfold check_frame in Hc. cbv zeta in Hc.
  destruct (is_trusted trusted (take 32 fr)) eqn:Ht; [|done]. cbn [negb] in Hc.
  apply is_trusted_spec, list_elem_of_fmap in Ht as (k & Hk & Hin). rewrite Hk, vk_roundtrip in Hc.
  destruct (ed_verify k _ _) eqn:Hv; [|done]. injection Hc as <-.
  exists k, tn, (drop 32 fr). split_and!; try done.
  - rewrite I1, I2, (app_assoc (vk_to_bytes k)), <- Hk, take_drop. done.
  - by rewrite O2, O1, <- app_assoc.
Qed.

Section Pair.
Context (a b : Party) (Ha : length (d_nonce a) = 32%nat) (Hb : length (d_nonce b) = 32%nat) (cap : nat).

(** A step of one side, where the other has written [i'] bytes and read [j']. *)
Definition moved (d d' : Party) (i j i' j' : nat) (x : Handshake * bytes * bytes) : Prop :=
  (x = (side_at d d' (S i) j, chan (sent_by d d') j' (S i), chan (sent_by d' d) j i') ∧ legal (S i) j) ∨
  (x = (side_at d d' i (S j), chan (sent_by d d') j' i, chan (sent_by d' d) (S j) i') ∧ legal i (S j) ∧ (j < i')%nat).

Lemma side_moves d d' i j i' j' x :
  length (d_nonce d) = 32%nat → length (d_nonce d') = 32%nat →
  legal i j → (j' <= i)%nat → (j <= i')%nat → (i' <= 128)%nat →
  side_step cap d (side_at d d' i j, chan (sent_by d d') j' i, chan (sent_by d' d) j i') x → moved d d' i j i' j' x.
Proof.
  intros Hn Hn' Hl Hj' Hj Hi'. inversion 1 as [h h' y out inp Hy Hcap Hs|h h' y out inp Hs He]; subst.
  - left. apply to_write_at in Hy as [Hc Hy]; [|done..]. destruct (side_at_write d d' Hn Hn' i j Hl Hc) as [Hw Hl'].
    rewrite Hw in Hs. injection Hs as <-. by rewrite (chan_write _ _ _ _ Hy) by done.
  - right. pose proof (side_at_read_inv d d' Hn Hn' _ _ _ _ Hl Hs) as Hc.
    assert (j < i')%nat as Hlt.
    { apply (f_equal length) in H1. rewrite length_chan in H1; [cbn in H1; lia|by rewrite length_sent]. }
    destruct (lookup_lt_is_Some_2 (sent_by d' d) j) as [z Hz]; [rewrite length_sent by done; lia|].
    rewrite (chan_read _ _ _ _ Hz Hlt) in H1. injection H1 as <- <-.
    destruct (side_at_read d d' Hn Hn' i j _ Hl Hc Hz) as [Hr Hl']. rewrite Hr in Hs. by injection Hs as <-.
Qed.

(** The two daemons at a point of the handshake. *)
Definition link_at (ia ja ib jb : nat) : Link :=
  mkLink (side_at a b ia ja) (side_at b a ib jb) (chan (sent_by a b) jb ia) (chan (sent_by b a) ja ib).

Definition point (ia ja ib jb : nat) : Prop :=
  legal ia ja ∧ legal ib jb ∧ (jb <= ia)%nat ∧ (ja <= ib)%nat.

Lemma link_moves ia ja ib jb l :
  point ia ja ib jb → link_step cap a b (link_at ia ja ib jb) l →
  ∃ ia' ja' ib' jb', l = link_at ia' ja' ib' jb' ∧ point ia' ja' ib' jb' ∧
    (ia' + ja' + ib' + jb' = S (ia + ja + ib + jb))%nat.
Proof.
  intros (La & Lb & H1 & H2). inversion 1 as [ha ha' hb ab ab' ba ba' Hs|ha hb hb' ab ab' ba ba' Hs]; subst;
    apply side_moves in Hs; try done; try (unfold legal in *; lia);
    destruct Hs as [[He Hl]|(He & Hl & Hlt)]; simplify_eq.
  - exists (S ia), ja, ib, jb. split; [done|]. split; [|lia]. split_and!; [done|done|lia|done].
  - exists ia, (S ja), ib, jb. split; [done|]. split; [|lia]. split_and!; [done|done|done|lia].
  - exists ia, ja, (S ib), jb. split; [done|]. split; [|lia]. split_and!; [done|done|done|lia].
  - exists ia, ja, ib, (S jb). split; [done|]. split; [|lia]. split_and!; [done|done|lia|done].
Qed.

(** Some side can move until both have finished. *)
Lemma side_can_write d d' i j i' j' :
  length (d_nonce d) = 32%nat → length (d_nonce d') = 32%nat → legal i j → can_write i j → (i - j' < cap)%nat →
  ∃ x, side_step cap d (side_at d d' i j, chan (sent_by d d') j' i, chan (sent_by d' d) j i') x.
Proof.
  intros Hn Hn' Hl Hc Hcap. destruct (lookup_lt_is_Some_2 (sent_by d d') i) as [x Hx].
  { rewrite length_sent by done. unfold can_write in Hc. lia. }
  destruct (side_at_write d d' Hn Hn' i j Hl Hc) as [Hw _]. eexists. eapply side_write; [|..|exact Hw].
  - by apply to_write_at.
  - rewrite length_chan; [done|]. rewrite length_sent by done. unfold can_write in Hc. lia.
Qed.

Lemma side_can_read d d' i j i' j' :
  length (d_nonce d) = 32%nat → length (d_nonce d') = 32%nat → legal i j → can_write j i → (j < i')%nat →
  ∃ x, side_step cap d (side_at d d' i j, chan (sent_by d d') j' i, chan (sent_by d' d) j i') x.
Proof.
  intros Hn Hn' Hl Hc Hlt. destruct (lookup_lt_is_Some_2 (sent_by d' d) j) as [x Hx].
  { rewrite length_sent by done. unfold can_write in Hc. lia. }
  destruct (side_at_read d d' Hn Hn' i j x Hl Hc Hx) as [Hr _]. eexists. rewrite (chan_read _ _ _ _ Hx Hlt).
  by eapply side_read.
Qed.

Lemma link_progress ia ja ib jb :
  (0 < cap)%nat → point ia ja ib jb → (ia + ja + ib + jb < 512)%nat → ∃ l, link_step cap a b (link_at ia ja ib jb) l.
Proof.
  intros Hcap (La & Lb & H1 & H2) Hlt.
  assert ((can_write ia ja ∧ ia - jb < cap ∨ can_write ja ia ∧ ja < ib) ∨
          (can_write ib jb ∧ ib - ja < cap ∨ can_write jb ib ∧ jb < ia))%nat as [[[Hc Hl]|[Hc Hl]]|[[Hc Hl]|[Hc Hl]]].
  { unfold can_write, legal in *. lia. }
  - destruct (side_can_write a b ia ja ib jb Ha Hb La Hc Hl) as [[[h out] inp] Hs]. eexists. by eapply link_a.
  - destruct (side_can_read a b ia ja ib jb Ha Hb La Hc Hl) as [[[h out] inp] Hs]. eexists. by eapply link_a.
  - destruct (side_can_write b a ib jb ia ja Hb Ha Lb Hc Hl) as [[[h out] inp] Hs]. eexists. by eapply link_b.
  - destruct (side_can_read b a ib jb ia ja Hb Ha Lb Hc Hl) as [[[h out] inp] Hs]. eexists. by eapply link_b.
Qed.

Lemma link_runs n l :
  nsteps (link_step cap a b) n (link_start a b) l →
  ∃ ia ja ib jb, l = link_at ia ja ib jb ∧ point ia ja ib jb ∧ n = (ia + ja + ib + jb)%nat.
Proof.
  assert (H0 : link_start a b = link_at 0 0 0 0).
  { unfold link_start, hs_start, link_at, join_both, side_at. cbn [Nat.ltb Nat.leb orb take drop Nat.sub]. done. }
  assert (H : ∀ m l0, nsteps (link_step cap a b) m l0 l → ∀ ia ja ib jb, l0 = link_at ia ja ib jb → point ia ja ib jb →
    ∃ ia' ja' ib' jb', l = link_at ia' ja' ib' jb' ∧ point ia' ja' ib' jb' ∧ (m + (ia + ja + ib + jb) = ia' + ja' + ib' + jb')%nat).
  { induction 1 as [l0|m l0 l1 l2 Hs _ IH]; intros ia ja ib jb -> Hp; [eauto 10|].
    destruct (link_moves _ _ _ _ _ Hp Hs) as (ia' & ja' & ib' & jb' & -> & Hp' & Hsum).
    destruct (IH _ _ _ _ eq_refl Hp') as (x & y & z & w & -> & Hq & Hs'). exists x, y, z, w. split_and!; [done|apply Hq..|lia]. }
  intros Hn. destruct (H _ _ Hn 0 0 0 0)%nat as (x & y & z & w & -> & Hp & Hs); [done|unfold point, legal; lia|].
  exists x, y, z, w. split; [done|]. split; [done|lia].
Qed.

(** Every schedule ends after 512 bytes moved, with both frames checked. *)
Lemma link_schedules n l :
  (0 < cap)%nat → nsteps (link_step cap a b) n (link_start a b) l →
  (n <= 512)%nat ∧ ((n < 512)%nat → ∃ l', link_step cap a b l l') ∧
  (n = 512%nat → l = mkLink (Finished (check_frame (d_trusted a) (d_nonce a) (auth_frame (d_key b) (d_nonce a))))
                            (Finished (check_frame (d_trusted b) (d_nonce b) (auth_frame (d_key a) (d_nonce b)))) [] []).
Proof.
  intros Hcap (ia & ja & ib & jb & -> & Hp & ->)%link_runs. split; [unfold point, legal in Hp; lia|].
  split; [by apply link_progress|]. intros Hs.
  assert (ia = 128 ∧ ja = 128 ∧ ib = 128 ∧ jb = 128)%nat as (-> & -> & -> & ->) by (unfold point, legal in Hp; lia).
  done.
Qed.

End Pair.

(** C31. The peering handshake.  It succeeds only when the peer presents a trusted
    key and a signature of that key over this side's fresh nonce and the key;
    the frame is then one this side never writes itself, unless its own key is
    among the trusted ones, in which case a peer without any key that sends back
    what it receives succeeds too.  Two daemons that trust each other's keys, over
    channels of any capacity, never deadlock: every schedule of their reads and
    writes of single bytes goes on until 512 bytes were moved, and then both have
    succeeded, each with the other's key. *)
Theorem handshake_authenticates :
  (∀ late nonce key trusted c pk c',
     run_auth_handshake late nonce key trusted c = (Ok pk, c') →
     ∃ k their_nonce sig, k ∈ trusted ∧ pk = vk_to_bytes k ∧
       inbox c = their_nonce ++ pk ++ sig ++ inbox c' ∧ ed_verify k (nonce ++ pk) sig = true ∧
       outbox c' = outbox c ++ [nonce; auth_frame key their_nonce] ∧
       (verifying_key key ∉ trusted → ∀ n, pk ++ sig ≠ auth_frame key n)) ∧
  (∀ nonce key trusted rest,
     length nonce = 32%nat → verifying_key key ∈ trusted →
     ∃ c', run_auth_handshake false nonce key trusted (mkConn (nonce ++ auth_frame key nonce ++ rest) [] []) =
         (Ok (vk_to_bytes (verifying_key key)), c') ∧
       concat (outbox c') = nonce ++ auth_frame key nonce) ∧
  (∀ a b cap n l,
     length (d_nonce a) = 32%nat → length (d_nonce b) = 32%nat → (0 < cap)%nat →
     verifying_key (d_key b) ∈ d_trusted a → verifying_key (d_key a) ∈ d_trusted b →
     nsteps (link_step cap a b) n (link_start a b) l →
     (n <= 512)%nat ∧ ((n < 512)%nat → ∃ l', link_step cap a b l l') ∧
     (n = 512%nat → l = mkLink (Finished (Ok (vk_to_bytes (verifying_key (d_key b)))))
                               (Finished (Ok (vk_to_bytes (verifying_key (d_key a))))) [] [])).
Proof.
  split; [|split].
  - intros late nonce key trusted c pk c' (k & tn & sg & Hin & -> & Hi & Hv & Ho)%handshake_Ok.
    exists k, tn, sg. split_and!; try done. intros Hown n Heq. apply Hown.
    unfold auth_frame in Heq. cbv zeta in Heq. apply app_inj_1 in Heq as [Heq _]; [|by rewrite !length_vk].
    apply (f_equal vk_from_bytes) in Heq. rewrite !vk_roundtrip in Heq. by injection Heq as <-.
  - intros nonce key trusted rest Hn Hin. rewrite handshake_ready by done. eexists. split; [done|].
    simpl. by rewrite app_nil_r.
  - intros a b cap n l Ha Hb Hcap Hka Hkb Hn. rewrite <- (check_frame_honest _ (d_nonce a) _ Hka), <- (check_frame_honest _ (d_nonce b) _ Hkb).
    by apply link_schedules.
Qed.

End Auth.

Module AuthSamples.
Import ToyCrypto.

#[export] Instance toy_keys : KeyLib := {|
  vk_to_bytes k := (k : Z) :: replicate 31 0;
  vk_from_bytes := head;
  hex_decode := Some
|}.

#[export] Instance toy_key_laws : KeyLaws toy_keys.
Proof. by split. Qed.

Definition nonce : bytes := replicate 32 5.
Definition nonce' : bytes := replicate 32 6.

Definition skey : @SigningKey toy_sig := 3.
Definition skey' : @SigningKey toy_sig := 7.
Definition daemon_a : @Party toy_sig := mkParty nonce skey [skey'].
Definition daemon_b : @Party toy_sig := mkParty nonce' skey' [skey].

(** A daemon with key 3 that trusts key 7 only, and one the other way round. *)
Lemma handshake_authenticates_witness :
  (∃ k their_nonce sig, k ∈ [skey'] ∧ their_nonce ++ vk_to_bytes k ++ sig = nonce' ++ auth_frame skey' nonce ∧
     ∀ n, vk_to_bytes k ++ sig ≠ auth_frame skey n) ∧
  (∀ l, nsteps (link_step 1 daemon_a daemon_b) 512 (link_start daemon_a daemon_b) l →
     l = mkLink (Finished (Ok (vk_to_bytes skey'))) (Finished (Ok (vk_to_bytes skey))) [] []).
Proof.
  split.
  - destruct (proj1 (handshake_authenticates (siglib := toy_sig) (keys := toy_keys)) false nonce skey [skey']
      (mkConn (nonce' ++ auth_frame skey' nonce) [] []) (vk_to_bytes (verifying_key skey'))
      (mkConn [] [nonce; auth_frame skey nonce'] []) ltac:(vm_refl)) as (k & tn & sg & Hin & Hk & Hi & _ & _ & Hown).
    exists k, tn, sg. split; [exact Hin|]. rewrite Hk in Hi. simpl inbox in Hi. rewrite app_nil_r in Hi. split.
    + by rewrite <- Hi.
    + rewrite <- Hk. apply Hown. by intros [[=]|[]%not_elem_of_nil]%elem_of_cons.
  - intros l Hl.
    apply (proj2 (proj2 (handshake_authenticates (siglib := toy_sig) (keys := toy_keys))) daemon_a daemon_b 1%nat 512%nat l);
      [reflexivity|reflexivity|lia|by left|by left|exact Hl|reflexivity].
Defined.

End AuthSamples.

End PeerAuth.
