(* ===== verification/ArticleSig.v ===== *)
(** Signatures carried in article headers: the operator's [X-Stoa-Sig] as the
    reader writes and checks it ([crates/reader/src/post/sign.rs]) and as
    [crates/verify/src/x_sig.rs] checks it, and the author's [X-Stoa-DID-Sig]
    ([did_passthrough.rs], [did_verify.rs] of [crates/reader/src/post]).

    [base64], [bs58], [hex] and the parts of [ed25519_dalek] not in [SigLib] are
    the class [SigTextLib]. *)

From S2P Require Import Prelude Bytes Decimal Utf8 Headers Util Crypto Lines PeerAuth Overview NntpResponse Injection.

Module ArticleSig.
Import Decimal Utf8 Headers Util Lines PeerAuth Overview NntpResponse Injection.

Class SigTextLib {siglib : SigLib} := {
  (** [URL_SAFE_NO_PAD.encode] and [decode], with the text of its error. *)
  b64_encode : bytes → bytes;
  b64_decode : bytes → result bytes bytes;
  (** The text of [Signature::from_slice]'s error, [None] when it succeeds. *)
  signature_error : bytes → option bytes;
  (** [VerifyingKey::verify_strict]. *)
  ed_verify_strict : VerifyingKey → bytes → bytes → bool;
  (** [bs58::decode(_).into_vec()], and [hex::encode(Sha256::digest(_))]. *)
  bs58_decode : bytes → result bytes bytes;
  hex_sha256 : bytes → bytes
}.

Class SigTextLaws {siglib : SigLib} (lib : SigTextLib) : Prop := {
  b64_roundtrip b : b64_decode (b64_encode b) = Ok b;
  b64_token b : b ≠ [] → token (b64_encode b);
  (** Any 64 bytes are a signature. *)
  signature_64 b : length b = 64%nat → signature_error b = None;
  ed_sign_strict k m : ed_verify_strict (verifying_key k) m (ed_sign k m) = true
}.

(** [split_inclusive('\n')]. *)
Fixpoint split_inclusive (s : bytes) : list bytes :=
  match s with
  | [] => []
  | c :: s' =>
      if c =? LF then [c] :: split_inclusive s'
      else match split_inclusive s' with
           | [] => [[c]]
           | l :: ls => (c :: l) :: ls
           end
  end.

(** The article without the bytes [start..end]. *)
Definition cut (start stop : nat) (b : bytes) : bytes := take start b ++ drop stop b.

(** ** The operator's signature, as the reader sees it *)

Definition OPERATOR_SIG : bytes := lit "X-Stoa-Sig".
Definition SIG_PREFIX : bytes := lit "X-Stoa-Sig:".

(** The errors of [verify_article_sig], without their texts. *)
Inductive SigError := NoSeparator | HeadersNotUtf8 | SigNotFound | SigBase64 (e : bytes)
  | InvalidSignature (e : bytes) | VerificationFailed.

Section Operator.
Context {siglib : SigLib} {keys : KeyLib} {lib : SigTextLib}.

Definition sig_line (sig : bytes) : bytes := OPERATOR_SIG ++ lit ": " ++ b64_encode sig.

Definition sign_article (key : SigningKey) (b : bytes) : bytes * bytes :=
  let sig := ed_sign key b in
  let line := sig_line sig ++ CRLF in
  let out :=
    match find_header_boundary b with
    | Some body_start =>
        let insert_at := (body_start - if (sep_len b body_start =? 4)%nat then 2 else 1)%nat in
        take insert_at b ++ line ++ drop insert_at b
    | None => b
    end in
  (out, sig).

(** The loop: the value and the extent of the first signature line. *)
Fixpoint first_sig (cursor : nat) (lines : list bytes) : option (bytes * nat * nat) :=
  match lines with
  | [] => None
  | raw_line :: lines' =>
      let line := trim_eol raw_line in
      if starts_with line SIG_PREFIX
      then Some (trim (drop (length SIG_PREFIX) line), cursor, (cursor + length raw_line)%nat)
      else first_sig (cursor + length raw_line) lines'
  end.

Definition extract_sig_header (b : bytes) : result SigError (bytes * bytes) :=
  match find_header_boundary b with
  | None => Err NoSeparator
  | Some body_start =>
      match from_utf8 (take body_start b) with
      | None => Err HeadersNotUtf8
      | Some header_str =>
          match first_sig 0 (split_inclusive header_str) with
          | None => Err SigNotFound
          | Some (value, start, stop) =>
              match b64_decode value with
              | Err e => Err (SigBase64 e)
              | Ok sig_bytes => Ok (sig_bytes, cut start stop b)
              end
          end
      end
  end.

Definition verify_article_sig (pubkey : VerifyingKey) (b : bytes) : result SigError () :=
  match extract_sig_header b with
  | Err e => Err e
  | Ok (sig_bytes, without) =>
      match signature_error sig_bytes with
      | Some e => Err (InvalidSignature e)
      | None => if ed_verify pubkey without sig_bytes then Ok () else Err VerificationFailed
      end
  end.

(** ** The same signature, as [stoa-verify] sees it *)

Inductive ExtractError := NotFound | NonUtf8 | BadBase64 (e : bytes) | Duplicate.

(** The variables of the loop. *)
Record SigScan := mkScan {
  sig_value_buf : bytes;
  sig_lines : option (nat * nat);   (* sig_line_start, sig_line_end *)
  cursor : nat;
  in_sig : bool;
  sig_count : Z
}.

Definition scan_init : SigScan := mkScan [] None 0 false 0.

Definition is_wsp_line (line : bytes) : bool := starts_with line (lit " ") || starts_with line [HT].

Definition scan_line (raw_line : bytes) (st : SigScan) : result ExtractError SigScan :=
  let line := trim_eol raw_line in
  let next := (cursor st + length raw_line)%nat in
  if in_sig st && is_wsp_line line then
    Ok (mkScan (sig_value_buf st ++ trim line)
      ((λ p : nat * nat, (p.1, next)) <$> sig_lines st) next true (sig_count st))
  else
    match strip_prefix SIG_PREFIX line with
    | Some sig_rest =>
        if 1 <? sig_count st + 1 then Err Duplicate
        else Ok (mkScan (sig_value_buf st ++ trim sig_rest) (Some (cursor st, next)) next true (sig_count st + 1))
    | None => Ok (mkScan (sig_value_buf st) (sig_lines st) next false (sig_count st))
    end.

Fixpoint scan_lines (lines : list bytes) (st : SigScan) : result ExtractError SigScan :=
  match lines with
  | [] => Ok st
  | l :: lines' => match scan_line l st with Ok st' => scan_lines lines' st' | Err e => Err e end
  end.

(** [Extracted]: the signature and the article without it. *)
Definition extract_x_sig (b : bytes) : result ExtractError (bytes * bytes) :=
  match from_utf8 (take (default (length b) (find_header_boundary b)) b) with
  | None => Err NonUtf8
  | Some header_str =>
      match scan_lines (split_inclusive header_str) scan_init with
      | Err e => Err e
      | Ok st =>
          match sig_lines st with
          | None => Err NotFound
          | Some (start, stop) =>
              match b64_decode (sig_value_buf st) with
              | Err e => Err (BadBase64 e)
              | Ok sig_bytes => Ok (sig_bytes, cut start stop b)
              end
          end
      end
  end.

Definition pubkey_hex_id (key : VerifyingKey) : bytes := hex_sha256 (vk_to_bytes key).

Definition x_sig (result : VerifResult) (identity : option bytes) : ArticleVerification :=
  mkVerif XUsenetIpfsSig result identity.

Definition verify_x_sig (trusted_keys : list VerifyingKey) (b : bytes) : list ArticleVerification :=
  match extract_x_sig b with
  | Err NotFound => []
  | Err NonUtf8 => [x_sig (VParseError (lit "article headers contain non-UTF-8 bytes")) None]
  | Err (BadBase64 e) =>
      [x_sig (VParseError (lit "X-Stoa-Sig value is not valid base64url: " ++ e)) None]
  | Err Duplicate =>
      [x_sig (VParseError (lit "duplicate X-Stoa-Sig headers; article is malformed")) None]
  | Ok (sig_bytes, without) =>
      if (length trusted_keys =? 0)%nat then [x_sig NoKey None]
      else match signature_error sig_bytes with
           | Some e => [x_sig (VParseError (lit "invalid signature bytes: " ++ e)) None]
           | None =>
               match List.find (λ k, ed_verify_strict k without sig_bytes) trusted_keys with
               | Some key => [x_sig Pass (Some (pubkey_hex_id key))]
               | None =>
                   [x_sig (VFail (lit "signature did not verify against any of " ++
                      to_decimal (Z.of_nat (length trusted_keys)) ++ lit " trusted key(s)")) None]
               end
           end
  end.

End Operator.

(** ** The author's signature *)

Definition DID_SIG_PREFIX : bytes := lit "x-stoa-did-sig:".

Definition header_section (b : bytes) : bytes :=
  match find_header_boundary b with
  | Some body_start =>
      let sl := sep_len b body_start in
      take (body_start - sl + if (sl =? 4)%nat then 2 else 1)%nat b
  | None => b
  end.

(** [logical_lines]: continuation lines joined to the last logical line. *)
Definition push_physical (acc : list bytes) (physical_line : bytes) : list bytes :=
  let line := trim_cr physical_line in
  if is_wsp_line line then
    match last acc with
    | Some l => take (length acc - 1) acc ++ [l ++ [SP] ++ trim line]
    | None => acc
    end
  else acc ++ [line].

Definition logical_lines (text : bytes) : list bytes := foldl push_physical [] (split LF text).

Definition extract_did_sig (b : bytes) : option bytes :=
  text ← from_utf8 (header_section b);
  logical ← List.find (λ l, starts_with (to_ascii_lowercase l) DID_SIG_PREFIX) (logical_lines text);
  Some (trim (drop (length DID_SIG_PREFIX) logical)).

Inductive DidSigError :=
| InvalidFormat (msg : bytes)
| UnsupportedMethod (method : bytes)
| InvalidKeyEncoding (msg : bytes)
| InvalidSignatureEncoding (msg : bytes).

Definition MULTICODEC_ED25519_PUB : bytes := [0xed; 0x01].

(** The loop over all lines of the article, its body included. *)
Fixpoint strip_did_lines (skip : bool) (lines : list bytes) : list bytes :=
  match lines with
  | [] => []
  | line :: lines' =>
      let stripped := strip_cr line in
      if is_wsp_line stripped then
        if skip then strip_did_lines true lines' else line :: strip_did_lines false lines'
      else if has_name DID_SIG_PREFIX stripped then strip_did_lines true lines'
      else line :: strip_did_lines false lines'
  end.

Definition strip_did_sig_header (b : bytes) : bytes := join [LF] (strip_did_lines false (split LF b)).

Section Did.
Context {siglib : SigLib} {keys : KeyLib} {lib : SigTextLib}.

(** [vk_error] is the text of [VerifyingKey::from_bytes]'s error. *)
Definition parse_did_key (vk_error : bytes) (did_url : bytes) : result DidSigError VerifyingKey :=
  match strip_prefix (lit "did:key:") did_url with
  | None => Err (UnsupportedMethod (nth 1 (split 58 did_url) (lit "unknown")))
  | Some multibase_id =>
      match strip_prefix (lit "z") multibase_id with
      | None => Err (InvalidKeyEncoding (lit "not base58btc multibase (expected 'z' prefix)"))
      | Some b58_str =>
          match bs58_decode b58_str with
          | Err e => Err (InvalidKeyEncoding e)
          | Ok decoded =>
              if (length decoded <? 2)%nat || negb (bool_decide (take 2 decoded = MULTICODEC_ED25519_PUB)) then
                Err (InvalidKeyEncoding
                  (lit "not an Ed25519 did:key (multicodec prefix mismatch; only 0xed01 is supported)"))
              else
                let key_bytes := drop 2 decoded in
                if negb (length key_bytes =? 32)%nat then
                  Err (InvalidKeyEncoding (lit "expected 32-byte Ed25519 key, got " ++
                    to_decimal (Z.of_nat (length key_bytes)) ++ lit " bytes"))
                else match vk_from_bytes key_bytes with
                     | Some k => Ok k
                     | None => Err (InvalidKeyEncoding vk_error)
                     end
          end
      end
  end.

Definition verify_did_sig (vk_error b header_value : bytes) : result DidSigError bool :=
  match split_once SP header_value with
  | None => Err (InvalidFormat (lit "expected '<did-url> <base64url-sig>'"))
  | Some (d, s) =>
      let did_url := trim d in
      let sig_b64 := trim s in
      if bool_decide (did_url = []) || bool_decide (sig_b64 = []) then
        Err (InvalidFormat (lit "did-url or signature is empty"))
      else match b64_decode sig_b64 with
      | Err e => Err (InvalidSignatureEncoding e)
      | Ok sig_bytes =>
          if negb (length sig_bytes =? 64)%nat then
            Err (InvalidSignatureEncoding (lit "expected 64-byte Ed25519 signature, got " ++
              to_decimal (Z.of_nat (length sig_bytes)) ++ lit " bytes"))
          else match parse_did_key vk_error did_url with
               | Err e => Err e
               | Ok k => Ok (ed_verify_strict k (strip_did_sig_header b) sig_bytes)
               end
      end
  end.

(** What [run_post_pipeline] records of the author's signature. *)
Definition check_did_sig (vk_error pre_path : bytes) : option bool :=
  header_val ← extract_did_sig pre_path;
  Some (match verify_did_sig vk_error pre_path header_val with Ok valid => valid | Err _ => false end).

End Did.

(** ** Lines *)

Lemma split_inclusive_line h t : LF ∉ h → split_inclusive (h ++ LF :: t) = (h ++ [LF]) :: split_inclusive t.
Proof.
  induction h as [|c h IH]; intros Hh; [done|]. apply not_elem_of_cons in Hh as [Hc Hh].
  cbn [app split_inclusive]. rewrite (proj2 (Z.eqb_neq c LF)) by congruence. by rewrite IH.
Qed.

Definition eol (h : bytes) : bytes := h ++ CRLF.

Lemma clean_not_LF h : clean_line h → LF ∉ h ++ [CR].
Proof. intros (_ & _ & H). rewrite not_elem_of_app, list_elem_of_singleton. by split. Qed.

Lemma split_inclusive_render hs t :
  Forall clean_line hs → split_inclusive (render hs ++ t) = (eol <$> hs) ++ split_inclusive t.
Proof.
  induction 1 as [|h hs Hh _ IH]; [done|]. rewrite render_cons, fmap_cons. cbn [app].
  change (h ++ CRLF ++ render hs ++ t) with (h ++ [CR] ++ LF :: (render hs ++ t)).
  rewrite app_assoc, split_inclusive_line by (by apply clean_not_LF). rewrite IH. f_equal.
  by rewrite <- app_assoc.
Qed.

Lemma trim_eol_clean h : clean_line h → trim_eol (eol h) = h.
Proof.
  intros (_ & Hcr & Hlf). apply trim_eol_line; [done|]. intros Hl. apply Hcr.
  by apply last_Some_elem_of.
Qed.

Lemma length_render_snoc hs h : length (render (hs ++ [h])) = (length (render hs) + length (eol h))%nat.
Proof. unfold render. rewrite fmap_app, concat_app, length_app. cbn. by rewrite app_nil_r. Qed.

Lemma trim_sp_bordered s : s ≠ [] → bordered s → trim (SP :: s) = s.
Proof.
  intros Hne Hs. destruct s as [|c s]; [done|]. unfold trim.
  assert (trim_start (SP :: c :: s) = trim_start (c :: s)) as -> by (by destruct s).
  change (trim (c :: s) = c :: s). by apply trim_bordered.
Qed.

(** ** The operator's signature *)

(** A line that carries an [X-Stoa-Sig]. *)
Definition carries_sig (h : bytes) : bool := starts_with h SIG_PREFIX.

Section OperatorLaws.
Context {siglib : SigLib} {siglaws : SigLaws siglib} {keys : KeyLib} {lib : SigTextLib} {laws : SigTextLaws lib}.

Lemma sign_clean key hs body :
  hs ≠ [] → Forall clean_line hs →
  sign_article key (article hs body) =
    (article (hs ++ [sig_line (ed_sign key (article hs body))]) body, ed_sign key (article hs body)).
Proof.
  intros Hne Hhs. unfold sign_article. destruct (boundary_clean hs body Hne Hhs) as [-> ->].
  change (4 =? 4)%nat with true. cbv iota. f_equal.
  rewrite <- (insert_clean _ hs body Hne Hhs). unfold insert_header. rewrite header_end_clean by done.
  replace (length (render hs) + 2 - 2)%nat with (length (render hs)) by lia. by rewrite <- !app_assoc.
Qed.

Lemma sig_token key m : token (b64_encode (ed_sign key m)).
Proof. apply b64_token. pose proof (length_ed_sign key m). by destruct (ed_sign key m). Qed.

Lemma sig_line_ascii key m : Forall (λ b, 0 <= b < 128) (sig_line (ed_sign key m)).
Proof.
  unfold sig_line. rewrite !Forall_app. split; [|split]; [by apply (bool_decide_eq_true_1 _)..|].
  apply token_ascii, sig_token.
Qed.

Lemma sig_line_clean key m : clean_line (sig_line (ed_sign key m)).
Proof.
  split; [done|]. destruct (sig_token key m) as [_ Hg]. rewrite Forall_forall in Hg.
  unfold sig_line. rewrite !not_elem_of_app. unfold graphic, CR, LF in *.
  split_and!; try (by apply (bool_decide_eq_true_1 _)); intros Hc%Hg; lia.
Qed.

Lemma trim_sp_token s : token s → trim (SP :: s) = s.
Proof. intros [? ?]. apply trim_sp_bordered; [done|by apply token_bordered]. Qed.

(** The header section of a signed article as [extract_sig_header] slices it. *)
Lemma boundary_section hs body :
  hs ≠ [] → Forall clean_line hs → take (length (render hs) + 2) (article hs body) = render hs ++ CRLF.
Proof.
  intros Hne Hhs. unfold article. rewrite app_assoc.
  replace (length (render hs) + 2)%nat with (length (render hs ++ CRLF)) by (by rewrite length_app).
  by rewrite take_app_length.
Qed.

Lemma cut_line hs h body :
  cut (length (render hs)) (length (render hs) + length (eol h)) (article (hs ++ [h]) body) = article hs body.
Proof.
  unfold cut, article, render. rewrite fmap_app, concat_app. cbn [fmap list_fmap concat]. rewrite app_nil_r.
  rewrite <- app_assoc, take_app_length. f_equal. rewrite drop_app_add, drop_app_length. done.
Qed.

Lemma first_sig_skip hs cursor t :
  Forall clean_line hs → existsb carries_sig hs = false →
  first_sig cursor ((eol <$> hs) ++ t) = first_sig (cursor + length (render hs)) t.
Proof.
  intros Hhs. revert cursor. induction Hhs as [|h hs Hh _ IH]; intros cur Hn.
  - cbn. by rewrite Nat.add_0_r.
  - cbn [existsb] in Hn. apply orb_false_iff in Hn as [Hc Hn]. rewrite fmap_cons. cbn [app first_sig].
    rewrite trim_eol_clean by done. unfold carries_sig in Hc. rewrite Hc, IH by done. f_equal.
    rewrite <- (app_nil_r (render (h :: hs))), render_cons, !length_app. unfold eol. rewrite length_app. cbn. lia.
Qed.

Lemma sig_line_split key m :
  sig_line (ed_sign key m) = SIG_PREFIX ++ SP :: b64_encode (ed_sign key m).
Proof. done. Qed.

Lemma signed_utf8 key m hs : is_utf8 (render hs) = true → is_utf8 (render (hs ++ [sig_line (ed_sign key m)]) ++ CRLF) = true.
Proof.
  intros Hu. unfold render. rewrite fmap_app, concat_app. cbn [fmap list_fmap concat]. rewrite app_nil_r.
  rewrite <- !app_assoc. fold (render hs). rewrite is_utf8_app by done. apply ascii_is_utf8.
  apply Forall_app. split; [apply sig_line_ascii|by apply (bool_decide_eq_true_1 _)].
Qed.

(** What the reader extracts from its own article is the article it signed. *)
Lemma extract_signed key hs body :
  hs ≠ [] → Forall clean_line hs → is_utf8 (render hs) = true → existsb carries_sig hs = false →
  extract_sig_header (sign_article key (article hs body)).1 =
    Ok (ed_sign key (article hs body), article hs body).
Proof.
  intros Hne Hhs Hu Hn. rewrite sign_clean by done. cbn [fst].
  set (sig := ed_sign key (article hs body)). set (hs' := hs ++ [sig_line sig]).
  assert (Hhs' : Forall clean_line hs') by (apply Forall_snoc; [done|apply sig_line_clean]).
  assert (Hne' : hs' ≠ []) by (by destruct hs).
  unfold extract_sig_header. destruct (boundary_clean hs' body Hne' Hhs') as [-> _].
  rewrite boundary_section by done. unfold from_utf8.
  rewrite (signed_utf8 key (article hs body) hs Hu : is_utf8 (render hs' ++ CRLF) = true). 
  rewrite split_inclusive_render by done. unfold hs' at 1. rewrite fmap_app, <- app_assoc.
  rewrite first_sig_skip by done. cbn [fmap list_fmap app first_sig]. rewrite trim_eol_clean by apply sig_line_clean.
  unfold sig at 1 2. rewrite sig_line_split. fold sig.
  assert (starts_with (SIG_PREFIX ++ SP :: b64_encode sig) SIG_PREFIX = true) as ->
    by (apply starts_with_spec; eauto).
  rewrite drop_app_length, trim_sp_token by apply sig_token. rewrite b64_roundtrip.
  cbn [Nat.add]. by rewrite cut_line.
Qed.

(** *** The scan of [stoa-verify] *)

Lemma carries_prefix h : carries_sig h = true → ∃ r, strip_prefix SIG_PREFIX h = Some r ∧ is_wsp_line h = false.
Proof. intros [r ->]%starts_with_spec. exists r. split; [by apply strip_prefix_Some|done]. Qed.

Lemma not_carries_prefix h : carries_sig h = false → strip_prefix SIG_PREFIX h = None.
Proof.
  intros Hc. destruct (strip_prefix SIG_PREFIX h) as [r|] eqn:E; [|done]. apply strip_prefix_Some in E as ->.
  unfold carries_sig in Hc. rewrite (proj2 (starts_with_spec _ _)) in Hc; [done|eauto].
Qed.

(** A line that carries no signature leaves the count. *)
Lemma scan_other h st :
  clean_line h → carries_sig h = false →
  ∃ st', scan_line (eol h) st = Ok st' ∧ sig_count st' = sig_count st.
Proof.
  intros Hh Hc. unfold scan_line. rewrite trim_eol_clean by done.
  destruct (in_sig st && is_wsp_line h); [by eexists|]. rewrite not_carries_prefix by done. by eexists.
Qed.

Lemma scan_sig h st :
  clean_line h → carries_sig h = true →
  (sig_count st = 1 → scan_line (eol h) st = Err Duplicate) ∧
  (sig_count st = 0 → ∃ st', scan_line (eol h) st = Ok st' ∧ sig_count st' = 1).
Proof.
  intros Hh (r & Hr & Hw)%carries_prefix. unfold scan_line. rewrite trim_eol_clean, Hw, andb_false_r, Hr by done.
  split; intros ->; [done|]. by eexists.
Qed.

Lemma scan_second hs t st :
  Forall clean_line hs → sig_count st = 1 → existsb carries_sig hs = true →
  scan_lines ((eol <$> hs) ++ t) st = Err Duplicate.
Proof.
  intros Hhs. revert st. induction Hhs as [|h hs Hh _ IH]; intros st Hst He; [done|].
  rewrite fmap_cons. cbn [app scan_lines existsb] in *. destruct (carries_sig h) eqn:Hc.
  - destruct (scan_sig h st Hh Hc) as [H _]. by rewrite H.
  - destruct (scan_other h st Hh Hc) as (st' & -> & Hst'). apply IH; [congruence|done].
Qed.

Lemma scan_twice hs h t st :
  Forall clean_line hs → clean_line h → carries_sig h = true →
  sig_count st = 0 → existsb carries_sig hs = true →
  scan_lines ((eol <$> hs ++ [h]) ++ t) st = Err Duplicate.
Proof.
  intros Hhs Hh Hcar. revert st. induction Hhs as [|x hs Hx Hhs IH]; intros st Hst He; [done|].
  cbn [app]. rewrite fmap_cons. cbn [app scan_lines existsb] in *. destruct (carries_sig x) eqn:Hc.
  - destruct (scan_sig x st Hx Hc) as [_ (st' & -> & Hst')]; [done|].
    apply scan_second; [by apply Forall_snoc|done|]. rewrite existsb_app. cbn. by rewrite Hcar, orb_true_r.
  - destruct (scan_other x st Hx Hc) as (st' & -> & Hst'). apply IH; [congruence|done].
Qed.

Lemma scan_skip hs t c :
  Forall clean_line hs → existsb carries_sig hs = false →
  scan_lines ((eol <$> hs) ++ t) (mkScan [] None c false 0) =
    scan_lines t (mkScan [] None (c + length (render hs)) false 0).
Proof.
  intros Hhs. revert c. induction Hhs as [|h hs Hh _ IH]; intros c Hn.
  - cbn [fmap list_fmap app]. by rewrite Nat.add_0_r.
  - cbn [existsb] in Hn. apply orb_false_iff in Hn as [Hc Hn]. rewrite fmap_cons. cbn [app scan_lines].
    unfold scan_line. cbn [in_sig andb cursor sig_value_buf sig_lines sig_count].
    rewrite trim_eol_clean, not_carries_prefix, IH by done. do 2 f_equal.
    rewrite <- (app_nil_r (render (h :: hs))), render_cons, !length_app. unfold eol. rewrite length_app. cbn. lia.
Qed.

Lemma sig_line_carries key m : carries_sig (sig_line (ed_sign key m)) = true.
Proof. apply starts_with_spec. rewrite sig_line_split. eauto. Qed.

(** The header section [extract_x_sig] reads of an article. *)
Lemma x_sig_section hs body :
  hs ≠ [] → Forall clean_line hs →
  take (default (length (article hs body)) (find_header_boundary (article hs body))) (article hs body) =
    render hs ++ CRLF.
Proof. intros Hne Hhs. destruct (boundary_clean hs body Hne Hhs) as [-> _]. by apply boundary_section. Qed.

Lemma extract_x_signed key hs body :
  hs ≠ [] → Forall clean_line hs → is_utf8 (render hs) = true → existsb carries_sig hs = false →
  extract_x_sig (sign_article key (article hs body)).1 =
    Ok (ed_sign key (article hs body), article hs body).
Proof.
  intros Hne Hhs Hu Hn. rewrite sign_clean by done. cbn [fst].
  set (sig := ed_sign key (article hs body)). set (hs' := hs ++ [sig_line sig]).
  assert (Hhs' : Forall clean_line hs') by (apply Forall_snoc; [done|apply sig_line_clean]).
  assert (Hne' : hs' ≠ []) by (by destruct hs).
  unfold extract_x_sig. rewrite x_sig_section by done. unfold from_utf8.
  rewrite (signed_utf8 key (article hs body) hs Hu : is_utf8 (render hs' ++ CRLF) = true).
  rewrite split_inclusive_render by done. unfold hs' at 1. rewrite fmap_app, <- app_assoc. unfold scan_init.
  rewrite scan_skip by done. cbn [fmap list_fmap app scan_lines].
  unfold scan_line at 1. rewrite trim_eol_clean by apply sig_line_clean.
  cbn [in_sig andb cursor sig_value_buf sig_lines sig_count]. unfold sig at 1. rewrite sig_line_split.
  rewrite (proj2 (strip_prefix_Some SIG_PREFIX _ _) eq_refl). fold sig. change (1 <? 0 + 1) with false. cbv iota.
  change (split_inclusive CRLF) with [CRLF]. cbn [scan_lines app]. unfold scan_line.
  change (trim_eol CRLF) with (@nil Z). change (is_wsp_line []) with false. rewrite andb_false_r.
  change (strip_prefix SIG_PREFIX []) with (@None bytes). cbv iota. cbn [sig_lines sig_value_buf].
  rewrite trim_sp_token, b64_roundtrip by apply sig_token. cbn [Nat.add]. by rewrite cut_line.
Qed.

(** An article the reader signs is an article both verifiers accept: if its
    header lines are clean UTF-8 lines and none of them is an [X-Stoa-Sig], the
    signature and the very bytes that were signed are extracted from it, the
    reader's own check succeeds, and [verify_x_sig] reports a pass for any list
    of trusted keys with the operator's in it. *)
Theorem signed_article_verifies key hs body :
  hs ≠ [] → Forall clean_line hs → is_utf8 (render hs) = true → existsb carries_sig hs = false →
  let '(signed, sig) := sign_article key (article hs body) in
  extract_sig_header signed = Ok (sig, article hs body) ∧
  verify_article_sig (verifying_key key) signed = Ok () ∧
  (∀ trusted, verifying_key key ∈ trusted →
    ∃ k, k ∈ trusted ∧ verify_x_sig trusted signed = [x_sig Pass (Some (pubkey_hex_id k))]).
Proof.
  intros Hne Hhs Hu Hn. pose proof (extract_signed key hs body Hne Hhs Hu Hn) as H1.
  pose proof (extract_x_signed key hs body Hne Hhs Hu Hn) as H2.
  destruct (sign_article key (article hs body)) as [signed sig] eqn:E.
  rewrite sign_clean in E by done. injection E as _ <-. cbn [fst] in *.
  split; [done|]. pose proof (signature_64 _ (length_ed_sign key (article hs body))) as H3. split.
  - unfold verify_article_sig. rewrite H1, H3. by rewrite ed_sign_verifies.
  - intros trusted Hin. unfold verify_x_sig. rewrite H2, H3.
    rewrite (proj2 (Nat.eqb_neq _ _)) by (destruct trusted; [by apply not_elem_of_nil in Hin|done]).
    destruct (List.find _ trusted) as [k|] eqn:Ef.
    + apply find_some in Ef as [Hk _]. exists k. split; [by apply list_elem_of_In|done].
    + apply list_elem_of_In in Hin. eapply find_none in Ef; [|exact Hin]. simpl in Ef.
      by rewrite ed_sign_strict in Ef.
Qed.

(** *** A posted [X-Stoa-Sig] *)

Lemma has_name_differs p q c d name line :
  length p = length q → to_ascii_lower c ≠ to_ascii_lower d →
  has_name (p ++ c :: name) (q ++ d :: line) = false.
Proof.
  intros Hl Hne. unfold has_name, eq_ignore_ascii_case. apply andb_false_iff. right.
  apply bool_decide_eq_false. rewrite length_app. cbn [length].
  rewrite take_app_ge by lia. replace (length p + S (length name) - length q)%nat with (S (length name)) by lia.
  cbn [take]. intros E. unfold to_ascii_lowercase in E. rewrite !fmap_app, !fmap_cons in E.
  apply app_inj_1 in E as [_ E]; [|by rewrite !length_fmap]. congruence.
Qed.

Lemma carries_sig_kept h :
  carries_sig h = true → forged h = false ∧ has_name INJECTION_SOURCE h = false ∧ has_name PATH_NAME h = false.
Proof.
  intros [r ->]%starts_with_spec. unfold forged.
  change (SIG_PREFIX ++ r) with (lit "X-Stoa-" ++ 83 :: lit "ig:" ++ r).
  change DID_VERIFIED with (lit "x-stoa-" ++ 100 :: lit "id-verified:").
  change VERIFIED with (lit "x-stoa-" ++ 118 :: lit "erified:").
  change STOA_CID with (lit "x-stoa-" ++ 99 :: lit "id:").
  change INJECTION_SOURCE with (lit "x-stoa-" ++ 105 :: lit "njection-source:").
  change PATH_NAME with ([] ++ 112 :: lit "ath:").
  change (lit "X-Stoa-" ++ 83 :: lit "ig:" ++ r) with ([] ++ 88 :: (lit "-Stoa-" ++ 83 :: lit "ig:" ++ r)) at 5.
  by rewrite !has_name_differs by done.
Qed.

Lemma doubly_signed key hs body trusted :
  hs ≠ [] → Forall clean_line hs → existsb carries_sig hs = true →
  ∃ reason, verify_x_sig trusted (sign_article key (article hs body)).1 = [x_sig (VParseError reason) None].
Proof.
  intros Hne Hhs He. rewrite sign_clean by done. cbn [fst].
  set (m := article hs body). set (hs' := hs ++ [sig_line (ed_sign key m)]).
  assert (Hhs' : Forall clean_line hs') by (apply Forall_snoc; [done|apply sig_line_clean]).
  assert (Hne' : hs' ≠ []) by (by destruct hs).
  unfold verify_x_sig, extract_x_sig. rewrite x_sig_section by done. unfold from_utf8.
  destruct (is_utf8 (render hs' ++ CRLF)); [|by eexists].
  rewrite split_inclusive_render by done. unfold hs'.
  rewrite scan_twice; [by eexists|done|apply sig_line_clean|apply sig_line_carries|done|done].
Qed.

(** A posted [X-Stoa-Sig] line is neither refused nor removed, and defeats
    the verification of the operator's own: whatever the client writes in it,
    [verify_x_sig] reports a parse error, never a pass, for the article the
    reader prepared and signed, under any trusted keys. *)
Theorem posted_signature_defeats_verification `{InjectionLib} env drain client_ip user key trusted hs body h :
  Forall clean_line hs → env_inline env client_ip user → h ∈ hs → carries_sig h = true →
  let prepared := (prepare_post env drain client_ip user (article hs body)).2 in
  ∃ reason, verify_x_sig trusted (sign_article key prepared).1 = [x_sig (VParseError reason) None].
Proof.
  intros Hhs Henv Hin Hc. destruct (carries_sig_kept h Hc) as (Hf & Hi & Hp).
  assert (Hg := genuine_keeps hs h Hin Hf Hi).
  assert (Hne : genuine (drop_source hs) ≠ []) by (intros E; rewrite E in Hg; by apply not_elem_of_nil in Hg).
  destruct (prepare_clean env drain client_ip user hs body Hhs Hne Henv) as (src & -> & _). cbn [snd].
  assert (Hpre : h ∈ prepared env client_ip user hs).
  { apply prepared_keeps, with_message_id_keeps, elem_of_app. left. apply list_elem_of_fmap.
    exists h. split; [unfold path_line; by rewrite Hp|done]. }
  apply doubly_signed; [|by apply prepared_clean|].
  - intros E. rewrite E in Hpre. by apply not_elem_of_nil in Hpre.
  - apply existsb_exists. exists h. split; [by apply list_elem_of_In|done].
Qed.

End OperatorLaws.

(** ** The author's signature *)

Lemma strip_did_app l1 skip :
  ∃ skip', ∀ l2, strip_did_lines skip (l1 ++ l2) = strip_did_lines skip l1 ++ strip_did_lines skip' l2.
Proof.
  revert skip. induction l1 as [|l l1 IH]; intros skip; [by exists skip|].
  cbn [app strip_did_lines]. destruct (is_wsp_line (strip_cr l)).
  - destruct skip; destruct (IH true) as [s Hs], (IH false) as [s' Hs']; [by exists s|].
    exists s'. intros l2. by rewrite Hs'.
  - destruct (has_name DID_SIG_PREFIX (strip_cr l)); destruct (IH true) as [s Hs], (IH false) as [s' Hs'];
      [by exists s|]. exists s'. intros l2. by rewrite Hs'.
Qed.

(** Whether a line is a continuation, or a signature's first line. *)
Definition continues (l : bytes) : bool := is_wsp_line (strip_cr l).
Definition begins_did (l : bytes) : bool := negb (continues l) && has_name DID_SIG_PREFIX (strip_cr l).

Lemma strip_did_run d conts l skip :
  begins_did d = true → Forall (λ c, continues c = true) conts →
  from_option continues false (head l) = false →
  strip_did_lines skip (d :: conts ++ l) = strip_did_lines skip l.
Proof.
  intros [Hw Hd]%andb_true_iff Hc Hl. apply negb_true_iff in Hw. unfold continues in *.
  cbn [strip_did_lines]. rewrite Hw, Hd.
  assert (Hhead : ∀ b, strip_did_lines b l = strip_did_lines skip l).
  { intros b. destruct l as [|x l]; [done|]. cbn in Hl |- *. by rewrite Hl. }
  induction Hc as [|c conts Hc _ IH]; [apply Hhead|]. cbn [app strip_did_lines]. by rewrite Hc.
Qed.

(** The bytes of the lines [ls], each ended by LF. *)
Definition with_lf (ls : list bytes) : bytes := concat ((λ l, l ++ [LF]) <$> ls).

Lemma split_with_lf ls y : Forall (λ l, LF ∉ l) ls → split LF (with_lf ls ++ y) = ls ++ split LF y.
Proof.
  unfold with_lf. induction 1 as [|l ls Hl _ IH]; [done|]. rewrite fmap_cons. cbn [concat].
  rewrite <- !app_assoc. cbn [app]. by rewrite split_app_sep, IH.
Qed.

Lemma strip_smuggled x d conts y :
  Forall (λ l, LF ∉ l) (d :: conts) → begins_did d = true → Forall (λ c, continues c = true) conts →
  from_option continues false (head (split LF y)) = false →
  strip_did_sig_header (x ++ [LF] ++ with_lf (d :: conts) ++ y) = strip_did_sig_header (x ++ [LF] ++ y).
Proof.
  intros Hlf Hd Hc Hy. unfold strip_did_sig_header. f_equal. cbn [app]. rewrite !split_app, split_with_lf by done.
  destruct (strip_did_app (split LF x) false) as [skip ->]. destruct (strip_did_app (split LF x) false) as [skip' H].
  rewrite H. f_equal. cbn [app]. rewrite strip_did_run by done.
  destruct (split LF y) as [|l ls]; [done|]. cbn in Hy. cbn [strip_did_lines]. unfold continues in Hy. by rewrite Hy.
Qed.

Lemma did_section_clean hs body : hs ≠ [] → Forall clean_line hs → header_section (article hs body) = render hs.
Proof.
  intros Hne Hhs. unfold header_section. destruct (boundary_clean hs body Hne Hhs) as [-> ->].
  change (4 =? 4)%nat with true. cbv iota zeta. unfold article.
  replace (length (render hs) + 2 - 4 + 2)%nat with (length (render hs)); [by rewrite take_app_length|].
  pose proof (length_render_pos hs Hne). lia.
Qed.

Section DidLaws.
Context {siglib : SigLib} {siglaws : SigLaws siglib} {keys : KeyLib} {keylaws : KeyLaws keys}
  {lib : SigTextLib} {laws : SigTextLaws lib}.

(** The author's signature does not cover the whole body:
    [strip_did_sig_header] drops [X-Stoa-DID-Sig] lines and their continuation
    lines wherever they stand, so an article whose signature is recorded as
    valid stays valid when such a line, followed by any indented text, is put
    between two lines of its body. *)
Theorem did_signature_leaves_gaps vk_error hs b1 b2 d conts :
  hs ≠ [] → Forall clean_line hs → last (article hs b1) = Some LF →
  Forall (λ l, LF ∉ l) (d :: conts) → begins_did d = true → Forall (λ c, continues c = true) conts →
  from_option continues false (head (split LF b2)) = false →
  check_did_sig vk_error (article hs (b1 ++ with_lf (d :: conts) ++ b2)) =
    check_did_sig vk_error (article hs (b1 ++ b2)).
Proof.
  intros Hne Hhs Hlast Hlf Hd Hc Hb. unfold check_did_sig.
  assert (extract_did_sig (article hs (b1 ++ with_lf (d :: conts) ++ b2)) =
    extract_did_sig (article hs (b1 ++ b2))) as ->
    by (unfold extract_did_sig; by rewrite !did_section_clean).
  destruct (extract_did_sig _) as [hv|]; [|done]. cbn [mbind option_bind]. do 2 f_equal.
  unfold verify_did_sig. destruct (split_once SP hv) as [[dd ss]|]; [|done].
  apply last_Some in Hlast as [x Hx].
  assert (Happ : ∀ y, article hs (b1 ++ y) = x ++ [LF] ++ y)
    by (intros y; rewrite app_assoc, <- Hx; unfold article; by rewrite <- !app_assoc).
  rewrite !Happ, strip_smuggled by done. done.
Qed.

(** *** Signing and verifying *)

(** The header an author adds to the article they signed. *)
Definition did_line (b58 sig : bytes) : bytes :=
  lit "X-Stoa-DID-Sig: " ++ (lit "did:key:z" ++ b58) ++ [SP] ++ b64_encode sig.

Lemma split_clean_lines hs y :
  Forall clean_line hs → split LF (render hs ++ y) = ((λ h, h ++ [CR]) <$> hs) ++ split LF y.
Proof.
  induction 1 as [|h hs Hh _ IH]; [done|]. rewrite render_cons, fmap_cons.
  change (h ++ CRLF ++ render hs ++ y) with (h ++ [CR] ++ LF :: (render hs ++ y)).
  rewrite app_assoc, split_app_sep by (by apply clean_not_LF). by rewrite IH.
Qed.

Lemma strip_cr_clean h : strip_cr (h ++ [CR]) = h.
Proof. apply strip_cr_app. Qed.

Lemma strip_did_unsigned ls : Forall (λ l, begins_did l = false) ls → strip_did_lines false ls = ls.
Proof.
  induction 1 as [|l ls Hl _ IH]; [done|]. cbn [strip_did_lines]. unfold begins_did, continues in Hl.
  destruct (is_wsp_line (strip_cr l)); [by rewrite IH|]. cbn [negb andb] in Hl. by rewrite Hl, IH.
Qed.

Lemma strip_did_none skip ls :
  Forall (λ l, begins_did l = false) ls → from_option continues false (head ls) = false →
  strip_did_lines skip ls = ls.
Proof.
  intros H Hh. rewrite <- (strip_did_unsigned ls H) at 2. destruct ls as [|l ls]; [done|].
  cbn [head from_option] in Hh. unfold continues in Hh. cbn [strip_did_lines]. by rewrite Hh.
Qed.

(** Removing the line gives back the article. *)
Lemma strip_did_line d hs1 hs2 body :
  begins_did (d ++ [CR]) = true → clean_line d → Forall clean_line (hs1 ++ hs2) →
  Forall (λ l, begins_did l = false) (split LF (article (hs1 ++ hs2) body)) →
  from_option is_wsp_line false (head hs2) = false →
  strip_did_sig_header (article (hs1 ++ d :: hs2) body) = article (hs1 ++ hs2) body.
Proof.
  intros Hd Hdc Hhs Hn Hh. apply Forall_app in Hhs as [H1 H2]. unfold strip_did_sig_header, article in *.
  assert (Hr : ∀ a b, render (a ++ b) = render a ++ render b)
    by (intros; unfold render; by rewrite fmap_app, concat_app).
  rewrite Hr, <- !app_assoc in Hn |- *. rewrite split_clean_lines in Hn by done.
  rewrite split_clean_lines, render_cons by done.
  change (d ++ CRLF ++ render hs2 ++ CRLF ++ body) with (d ++ [CR] ++ LF :: (render hs2 ++ CRLF ++ body)).
  rewrite (app_assoc d), split_app_sep by (by apply clean_not_LF).
  set (rest := split LF (render hs2 ++ CRLF ++ body)) in *.
  apply Forall_app in Hn as [Hn1 Hn2].
  destruct (strip_did_app ((λ h, h ++ [CR]) <$> hs1) false) as [skip Hs]. rewrite Hs.
  assert (Hcont : from_option continues false (head rest) = false).
  { unfold rest. destruct hs2 as [|h hs2]; [done|]. rewrite split_clean_lines by done.
    cbn [app head from_option fmap list_fmap] in Hh |- *.
    unfold continues in *. by rewrite strip_cr_clean. }
  pose proof (strip_did_run (d ++ [CR]) [] rest skip Hd ltac:(done) Hcont) as Hrun. cbn [app] in Hrun.
  rewrite Hrun, (strip_did_none skip rest) by done.
  rewrite strip_did_unsigned by done. unfold rest. rewrite <- split_clean_lines by done.
  rewrite Hr, <- app_assoc. apply join_split.
Qed.

Lemma trim_cr_clean h : clean_line h → trim_cr (h ++ [CR]) = h.
Proof.
  intros (_ & Hcr & _). unfold trim_cr. rewrite rev_app_distr. cbn [rev app drop_while]. rewrite Z.eqb_refl.
  destruct (rev h) as [|c t] eqn:E; [by rewrite <- (rev_involutive h), E|]. cbn [drop_while].
  assert (Hc : CR ≠ c).
  { intros Hc. apply Hcr. apply list_elem_of_In, in_rev. rewrite E, Hc. by left. }
  rewrite (proj2 (Z.eqb_neq _ _) Hc), <- E. apply rev_involutive.
Qed.

(** Unfolded lines are their own logical lines. *)
Lemma logical_unfolded hs :
  Forall clean_line hs → Forall (λ h, is_wsp_line h = false) hs → logical_lines (render hs) = hs ++ [[]].
Proof.
  intros Hhs Hw. unfold logical_lines. rewrite <- (app_nil_r (render hs)), split_clean_lines by done.
  assert (Hf : ∀ acc t, foldl push_physical acc (((λ h, h ++ [CR]) <$> hs) ++ t) = foldl push_physical (acc ++ hs) t).
  { clear -Hhs Hw. induction Hhs as [|h hs Hh _ IH]; intros acc t; [by rewrite app_nil_r|].
    inversion Hw as [|? ? Hx Hw']; subst. rewrite fmap_cons. cbn [app foldl]. unfold push_physical at 2.
    rewrite trim_cr_clean, Hx, IH by done. by rewrite <- app_assoc. }
  by rewrite Hf.
Qed.

Lemma did_line_begins b58 sig : begins_did (did_line b58 sig ++ [CR]) = true.
Proof. unfold begins_did, continues. by rewrite strip_cr_clean. Qed.

Lemma find_app {A} (f : A → bool) l1 x l2 :
  Forall (λ y, f y = false) l1 → f x = true → List.find f (l1 ++ x :: l2) = Some x.
Proof. intros H Hx. induction H as [|y l1 Hy _ IH]; cbn; [by rewrite Hx|by rewrite Hy]. Qed.

Lemma starts_lower h :
  is_wsp_line h = false → begins_did (h ++ [CR]) = false →
  starts_with (to_ascii_lowercase h) DID_SIG_PREFIX = false.
Proof.
  intros Hw Hb. unfold begins_did, continues in Hb. rewrite strip_cr_clean, Hw in Hb. cbn [negb andb] in Hb.
  apply not_true_iff_false. intros [r Hr]%starts_with_spec. apply not_true_iff_false in Hb. apply Hb.
  unfold has_name. pose proof (length_to_ascii_lowercase h) as Hl. rewrite Hr, length_app in Hl.
  apply andb_true_iff. split; [apply Nat.leb_le; lia|].
  apply bool_decide_eq_true. unfold to_ascii_lowercase in *. rewrite fmap_take, Hr. done.
Qed.

(** The key of a [did:key] address. *)
Lemma parse_did_key_ok vk_error b58 k :
  bs58_decode b58 = Ok (MULTICODEC_ED25519_PUB ++ vk_to_bytes k) →
  parse_did_key vk_error (lit "did:key:z" ++ b58) = Ok k.
Proof.
  intros Hb. unfold parse_did_key.
  change (lit "did:key:z" ++ b58) with (lit "did:key:" ++ (lit "z" ++ b58)).
  rewrite (proj2 (strip_prefix_Some _ _ _) eq_refl), (proj2 (strip_prefix_Some _ _ _) eq_refl), Hb.
  cbn [length app take drop Nat.ltb Nat.leb orb MULTICODEC_ED25519_PUB]. rewrite bool_decide_true by done.
  cbn [negb]. cbv zeta. by rewrite drop_0, length_vk, Nat.eqb_refl, vk_roundtrip.
Qed.

Lemma verify_did_line vk_error b b58 k sig :
  token b58 → bs58_decode b58 = Ok (MULTICODEC_ED25519_PUB ++ vk_to_bytes k) → length sig = 64%nat →
  verify_did_sig vk_error b ((lit "did:key:z" ++ b58) ++ SP :: b64_encode sig) =
    Ok (ed_verify_strict k (strip_did_sig_header b) sig).
Proof.
  intros Ht Hb Hs. unfold verify_did_sig.
  assert (Hsig : token (b64_encode sig)) by (apply b64_token; by destruct sig).
  assert (Hdid : token (lit "did:key:z" ++ b58)).
  { split; [done|]. apply Forall_app. split; [by apply (bool_decide_eq_true_1 _)|apply Ht]. }
  assert (Hsp : SP ∉ lit "did:key:z" ++ b58).
  { intros Hin. destruct Hdid as [_ Hg]. rewrite Forall_forall in Hg. apply Hg in Hin. unfold graphic, SP in Hin. lia. }
  rewrite (proj2 (split_once_Some SP _ _ _) (conj eq_refl Hsp)). cbv zeta.
  rewrite !trim_bordered by (apply token_bordered; first [apply Hdid|apply Hsig]).
  rewrite !bool_decide_false by (first [apply Hdid|apply Hsig]). cbn [orb].
  by rewrite b64_roundtrip, Hs, Nat.eqb_refl, (parse_did_key_ok vk_error b58 k).
Qed.

Lemma did_line_printable b58 sig :
  token b58 → length sig = 64%nat → Forall (λ b, 32 <= b < 127) (did_line b58 sig).
Proof.
  intros [_ Ht] Hs. assert (token (b64_encode sig)) as [_ Hg] by (apply b64_token; by destruct sig).
  unfold did_line. rewrite !Forall_app. split_and!; try (by apply (bool_decide_eq_true_1 _)).
  - eapply Forall_impl; [exact Ht|]. unfold graphic. simpl. lia.
  - eapply Forall_impl; [exact Hg|]. unfold graphic. simpl. lia.
Qed.

Lemma printable_clean d : d ≠ [] → Forall (λ b, 32 <= b < 127) d → clean_line d.
Proof.
  intros Hne H. rewrite Forall_forall in H. split; [done|]. split; intros Hin%H; unfold CR, LF in Hin; lia.
Qed.

Lemma render_utf8 hs1 d hs2 :
  is_utf8 (render hs1) = true → is_utf8 (render hs2) = true → Forall (λ b, 32 <= b < 127) d →
  is_utf8 (render (hs1 ++ d :: hs2)) = true.
Proof.
  intros Hu1 Hu2 Hd. unfold render. rewrite fmap_app, concat_app, fmap_cons. cbn [concat]. fold (render hs1) (render hs2).
  rewrite is_utf8_app by done. rewrite <- app_assoc, is_utf8_app; [by rewrite is_utf8_app|].
  apply ascii_is_utf8. eapply Forall_impl; [exact Hd|]. simpl. lia.
Qed.

Lemma Forall_insert {A} (P : A → Prop) l1 x l2 : Forall P (l1 ++ l2) → P x → Forall P (l1 ++ x :: l2).
Proof. intros [? ?]%Forall_app ?. apply Forall_app. by split; [|constructor]. Qed.

Lemma extract_did_line b58 sig hs1 hs2 body :
  token b58 → length sig = 64%nat → Forall clean_line (hs1 ++ did_line b58 sig :: hs2) →
  is_utf8 (render (hs1 ++ did_line b58 sig :: hs2)) = true →
  Forall (λ h, is_wsp_line h = false) (hs1 ++ did_line b58 sig :: hs2) →
  Forall (λ h, begins_did (h ++ [CR]) = false) hs1 →
  extract_did_sig (article (hs1 ++ did_line b58 sig :: hs2) body) =
    Some ((lit "did:key:z" ++ b58) ++ SP :: b64_encode sig).
Proof.
  intros Ht Hs Hcl Hu Hw Hn. unfold extract_did_sig. rewrite did_section_clean by (done || by destruct hs1).
  unfold from_utf8. rewrite Hu. cbn [mbind option_bind]. rewrite logical_unfolded by done.
  rewrite <- app_assoc. cbn [app]. rewrite find_app; [| |done].
  - cbn [mbind option_bind]. f_equal. unfold did_line.
    change (lit "X-Stoa-DID-Sig: " ++ ?x) with (lit "X-Stoa-DID-Sig:" ++ SP :: x).
    change (length DID_SIG_PREFIX) with (length (lit "X-Stoa-DID-Sig:")). rewrite drop_app_length.
    apply trim_sp_bordered; [done|]. apply bordered_words; [apply token_bordered..|done|].
    + apply Forall_app. split; [by apply (bool_decide_eq_true_1 _)|apply Ht].
    + apply b64_token. by destruct sig.
    + apply b64_token. by destruct sig.
  - apply Forall_app in Hw as [Hw _]. rewrite Forall_forall in *. intros h Hh. apply starts_lower; auto.
Qed.

(** An author's signature is recognised: when an article is signed with the
    key of a [did:key] address and the [X-Stoa-DID-Sig] line is added anywhere
    among its (clean, UTF-8, unfolded) header lines, and no other line of the
    article begins with that name, the reader records the signature as valid. *)
Theorem did_signed_article_valid vk_error key b58 hs1 hs2 body :
  Forall clean_line (hs1 ++ hs2) → is_utf8 (render hs1) = true → is_utf8 (render hs2) = true →
  Forall (λ h, is_wsp_line h = false) (hs1 ++ hs2) →
  Forall (λ l, begins_did l = false) (split LF (article (hs1 ++ hs2) body)) →
  token b58 → bs58_decode b58 = Ok (MULTICODEC_ED25519_PUB ++ vk_to_bytes (verifying_key key)) →
  check_did_sig vk_error
    (article (hs1 ++ did_line b58 (ed_sign key (article (hs1 ++ hs2) body)) :: hs2) body) = Some true.
Proof.
  intros Hhs Hu1 Hu2 Hw Hn Ht Hb. pose proof (length_ed_sign key (article (hs1 ++ hs2) body)) as Hsig.
  pose proof (did_line_printable _ _ Ht Hsig) as Hd. assert (Hdc := printable_clean (did_line _ _) ltac:(done) Hd).
  unfold check_did_sig. rewrite extract_did_line; try done.
  - cbn [mbind option_bind]. rewrite (verify_did_line vk_error _ b58 (verifying_key key)) by done.
    rewrite strip_did_line; [by rewrite ed_sign_strict|apply did_line_begins|done..|].
    apply Forall_app in Hw as [_ Hw]. by destruct Hw.
  - by apply Forall_insert.
  - by apply render_utf8.
  - by apply Forall_insert.
  - unfold article in Hn. apply Forall_app in Hhs as [H1 H2].
    assert (Hr : render (hs1 ++ hs2) = render hs1 ++ render hs2) by (unfold render; by rewrite fmap_app, concat_app).
    rewrite Hr, <- app_assoc, split_clean_lines in Hn by done. apply Forall_app in Hn as [Hn _].
    by apply Forall_fmap in Hn.
Qed.

End DidLaws.

End ArticleSig.

(** Sample articles. *)
Module SigSamples.
Import Utf8 Headers Util PeerAuth AuthSamples NntpResponse Injection InjectionSamples ArticleSig ToyCrypto.

(** The binary digits of the code of a list. *)
Fixpoint digits (p : positive) : bytes :=
  match p with xI p => 49 :: digits p | xO p => 48 :: digits p | xH => [50] end.

Fixpoint undigits (s : bytes) : option positive :=
  match s with
  | [] => None
  | c :: s' => if c =? 50 then Some xH else if c =? 49 then xI <$> undigits s' else xO <$> undigits s'
  end.

Lemma undigits_digits p : undigits (digits p) = Some p.
Proof. induction p as [p IH|p IH|]; cbn; by rewrite ?IH. Qed.

Lemma digits_token p : token (digits p).
Proof.
  split; [by destruct p|]. induction p as [p IH|p IH|]; constructor; try done; unfold graphic; lia.
Qed.

#[export] Instance toy_text : SigTextLib := {|
  b64_encode b := digits (encode b);
  b64_decode s := match undigits s ≫= decode with Some b => Ok b | None => Err (lit "bad") end;
  signature_error b := if (length b =? 64)%nat then None else Some (lit "length");
  ed_verify_strict := ed_verify;
  bs58_decode s := Ok (MULTICODEC_ED25519_PUB ++ hd 0 s :: replicate 31 0);
  hex_sha256 b := b
|}.

#[export] Instance toy_text_laws : SigTextLaws toy_text.
Proof.
  split.
  - intros b. cbn. rewrite undigits_digits. cbn. by rewrite decode_encode.
  - intros b _. apply digits_token.
  - intros b Hb. cbn. by rewrite Hb.
  - intros k m. apply ed_sign_verifies.
Qed.

Definition operator : @SigningKey toy_sig := 65.
Definition lines1 : list bytes := [lit "From: a@b"; lit "Subject: x"].
Definition forged_lines : list bytes := lines1 ++ [lit "X-Stoa-Sig: y"].
Definition body1 : bytes := lit "text" ++ CRLF.

Lemma signed_article_witness :
  let '(signed, sig) := sign_article operator (article lines1 body1) in
  verify_article_sig (verifying_key operator) signed = Ok () ∧
  ∃ k, k ∈ [7; 65] ∧ verify_x_sig [7; 65] signed = [x_sig Pass (Some (pubkey_hex_id k))].
Proof.
  destruct (sign_article operator (article lines1 body1)) as [signed sig] eqn:E.
  pose proof (signed_article_verifies operator lines1 body1) as H. rewrite E in H.
  destruct H as (_ & H1 & H2); [by apply (bool_decide_eq_true_1 _)..|reflexivity|reflexivity|].
  split; [exact H1|]. apply H2. by apply (bool_decide_eq_true_1 _).
Defined.

Lemma posted_signature_witness :
  ∃ reason, verify_x_sig [65]
    (sign_article operator (prepare_post sample_env false (lit "192.0.2.1") None (article forged_lines body1)).2).1 =
      [x_sig (VParseError reason) None].
Proof.
  apply (posted_signature_defeats_verification sample_env false (lit "192.0.2.1") None operator [65]
    forged_lines body1 (lit "X-Stoa-Sig: y")); [by apply (bool_decide_eq_true_1 _)..|reflexivity].
Defined.

Definition lines2 : list bytes :=
  (lit "X-Stoa-DID-Sig: did:key:zA " ++ digits (encode (ed_sign operator (article lines1 (body1 ++ lit "end"))))) ::
  lines1.

Lemma did_gaps_witness :
  check_did_sig [] (article lines2 (body1 ++ with_lf [lit "X-Stoa-DID-Sig:"; lit " forged text"] ++ lit "end")) =
    check_did_sig [] (article lines2 (body1 ++ lit "end")).
Proof.
  apply did_signature_leaves_gaps; [by apply (bool_decide_eq_true_1 _)..|reflexivity|
    by apply (bool_decide_eq_true_1 _)|reflexivity].
Defined.

Lemma did_valid_witness :
  check_did_sig [] (article ([lit "From: a@b"] ++
    did_line [65] (ed_sign operator (article ([lit "From: a@b"] ++ [lit "Subject: x"]) body1)) :: [lit "Subject: x"])
    body1) = Some true.
Proof.
  apply did_signed_article_valid; first [reflexivity|by apply (bool_decide_eq_true_1 _)].
Defined.

End SigSamples.
