(* ===== verification/VerifStore.v ===== *)
(** Recorded signature checks: [crates/verify/src/store.rs] over the tables of
    [crates/verify/migrations], the DKIM results of [crates/verify/src/dkim.rs],
    and step 6b of the reader's [run_post_pipeline], which fills the store.

    The [mail-auth] parser and verifier (with the DNS behind them) are the class
    [DkimLib]; the order in which a [SELECT] without [ORDER BY] gives rows is
    [row_choice]. *)

From S2P Require Import Prelude Bytes Decimal Utf8 Headers Util Crypto Lines LogEntry Sql SqliteStorage ArticleNumbers PeerAuth Overview NntpResponse Injection ArticleSig.

Module VerifStore.
Import Utf8 Headers PeerAuth ArticleNumbers NntpResponse Injection ArticleSig Sql.

(** ** DKIM *)

(** [mail_auth::DkimResult], with the text of its error. *)
Inductive DkimResult :=
| DkimPass
| DkimNone
| DkimNeutral (err : bytes)
| DkimFail (err : bytes)
| DkimPermError (err : bytes)
| DkimTempError (err : bytes).

Class DkimLib := {
  AuthenticatedMessage : Type;
  auth_parse : bytes → option AuthenticatedMessage;
  (** One output per signature: [signature().d] and [result()]. *)
  auth_verify_dkim : AuthenticatedMessage → list (option bytes * DkimResult)
}.

Definition DKIM_SIGNATURE : bytes := lit "DKIM-Signature:".

Definition dkim_header_end (b : bytes) : nat :=
  match find_subsequence b CRLF2 with
  | Some pos => pos
  | None =>
      if negb (contains CR b) then default (length b) (find_subsequence b LF2) else length b
  end.

Definition has_dkim_signature_header (b : bytes) : bool :=
  existsb (λ line, has_name DKIM_SIGNATURE (strip_cr line)) (split LF (take (dkim_header_end b) b)).

Definition dkim_result (identity : option bytes) (r : DkimResult) : VerifResult :=
  match r with
  | DkimPass => Pass
  | DkimNone => NoKey
  | DkimNeutral err => Neutral err
  | DkimFail err => VFail err
  | DkimPermError err => VFail (lit "perm-error: " ++ err)
  | DkimTempError err => DnsError (default [] identity) err
  end.

Definition verify_dkim_headers `{DkimLib} (b : bytes) : list ArticleVerification :=
  if negb (has_dkim_signature_header b) then []
  else match auth_parse b with
       | None =>
           [mkVerif Dkim (VParseError (lit "mail-auth could not parse the article as an RFC 5322 message")) None]
       | Some msg => (λ out : option bytes * DkimResult, mkVerif Dkim (dkim_result out.1 out.2) out.1)
                       <$> auth_verify_dkim msg
       end.

(** ** Tables *)

(** [article_verifications], by [(cid, sig_type, identity)]. *)
Record VerifRow := mkVerifRow { vr_result : bytes; vr_reason : option bytes; vr_verified_at : Z }.
Definition VerifKey : Type := bytes * bytes * bytes.

(** [seen_keys], by [(key_type, key_id)]. *)
Record KeyRow := mkKeyRow { kr_key_data : bytes; kr_first_seen_cid : bytes; kr_first_seen_at : Z }.

Record VerifTables := mkVerifTables {
  article_verifications : gmap VerifKey VerifRow;
  seen_keys : gmap (bytes * bytes) KeyRow
}.

Class RowChoice := {
  row_choice : list (VerifKey * VerifRow) → list (VerifKey * VerifRow);
  row_choice_perm l : row_choice l ≡ₚ l
}.

Section Store.
Context {lib : CidLib} {choice : RowChoice}.

(** The value of the [reason] column. *)
Definition stored_reason (r : VerifResult) : option bytes :=
  match r with
  | DnsError domain err => Some (filter (λ c, c ≠ NUL) domain ++ [NUL] ++ err)
  | r => verif_reason r
  end.

Definition verif_key (cid : Cid) (v : ArticleVerification) : VerifKey :=
  (cid_to_bytes cid, sig_type_as_str (v_sig_type v), default [] (v_identity v)).

Definition verif_row (v : ArticleVerification) (verified_at_ms : Z) : VerifRow :=
  mkVerifRow (verif_as_str (v_result v)) (stored_reason (v_result v)) verified_at_ms.

(** [INSERT ... ON CONFLICT (cid, sig_type, identity) DO UPDATE]. *)
Definition upsert_verification (cid : Cid) (v : ArticleVerification) (verified_at_ms : Z) (t : VerifTables) :
    VerifTables :=
  mkVerifTables (<[ verif_key cid v := verif_row v verified_at_ms ]> (article_verifications t)) (seen_keys t).

Fixpoint record_verifications (cid : Cid) (verifications : list ArticleVerification) (verified_at_ms : Z) :
    prog (Pool VerifTables) SqlxError () :=
  match verifications with
  | [] => mret tt
  | v :: vs =>
      _ ← prog_map_err sqlx_error (execute (upsert_verification cid v verified_at_ms));
      record_verifications cid vs verified_at_ms
  end.

Definition parse_sig_type (s : bytes) : option SigType :=
  if bool_decide (s = lit "dkim") then Some Dkim
  else if bool_decide (s = lit "x-stoa-sig") then Some XUsenetIpfsSig
  else None.

Definition parse_result (result : bytes) (reason : option bytes) : VerifResult :=
  if bool_decide (result = lit "pass") then Pass
  else if bool_decide (result = lit "fail") then VFail (default (lit "unknown") reason)
  else if bool_decide (result = lit "dns-error") then
    let raw := default [] reason in
    match split_once NUL raw with
    | Some (d, e) => DnsError d e
    | None => DnsError [] raw
    end
  else if bool_decide (result = lit "no-key") then NoKey
  else if bool_decide (result = lit "neutral") then Neutral (default (lit "unknown") reason)
  else VParseError (lit "unknown result type '" ++ result ++ lit "': " ++ default [] reason).

Definition of_verif_row (kr : VerifKey * VerifRow) : option ArticleVerification :=
  let '((_, sig_type_str, identity), row) := kr in
  sig_type ← parse_sig_type sig_type_str;
  Some (mkVerif sig_type (parse_result (vr_result row) (vr_reason row))
          (if bool_decide (identity = []) then None else Some identity)).

Definition rows_of_cid (cid : Cid) (t : VerifTables) : list (VerifKey * VerifRow) :=
  filter (λ kr : VerifKey * VerifRow, kr.1.1.1 = cid_to_bytes cid) (map_to_list (article_verifications t)).

Definition get_verifications (cid : Cid) : prog (Pool VerifTables) SqlxError (list ArticleVerification) :=
  rs ← prog_map_err sqlx_error (select (λ t, row_choice (rows_of_cid cid t)));
  mret (omap of_verif_row rs).

(** [INSERT ... ON CONFLICT (key_type, key_id) DO NOTHING]. *)
Definition upsert_seen_ed25519_key (key_id key_data : bytes) (first_seen_cid : Cid) (first_seen_at_ms : Z) :
    prog (Pool VerifTables) SqlxError () :=
  prog_map_err sqlx_error (execute (λ t,
    match seen_keys t !! (lit "ed25519", key_id) with
    | Some _ => t
    | None => mkVerifTables (article_verifications t)
                (<[ (lit "ed25519", key_id) := mkKeyRow key_data (cid_to_bytes first_seen_cid) first_seen_at_ms ]>
                   (seen_keys t))
    end)).

(** Step 6b of [run_post_pipeline]: a failure is only logged. *)
Definition record_checks {siglib : SigLib} {keys : KeyLib} {text : SigTextLib} {dkim : DkimLib}
    (key : SigningKey) (cid : Cid) (signed_bytes : bytes) (now_ms : Z) (p : Pool VerifTables) : Pool VerifTables :=
  (record_verifications cid (verify_x_sig [verifying_key key] signed_bytes ++ verify_dkim_headers signed_bytes)
     (as_i64 now_ms) p).2.

(** ** What is read back *)

(** The result as [get_verifications] reads it. *)
Definition read_result (r : VerifResult) : VerifResult :=
  match r with
  | DnsError domain err => DnsError (filter (λ c, c ≠ NUL) domain) err
  | VParseError reason => VParseError (lit "unknown result type 'parse-error': " ++ reason)
  | r => r
  end.

Definition read_back (v : ArticleVerification) : ArticleVerification :=
  mkVerif (v_sig_type v) (read_result (v_result v)) (i ← v_identity v; if bool_decide (i = []) then None else Some i).

Lemma parse_stored r : parse_result (verif_as_str r) (stored_reason r) = read_result r.
Proof.
  destruct r as [|reason|domain err| |reason|reason]; try done. unfold parse_result.
  rewrite !bool_decide_false, bool_decide_true by done. cbn [stored_reason default].
  rewrite (proj2 (split_once_Some NUL _ (filter (λ c, c ≠ NUL) domain) err)); [done|]. split; [done|].
  by intros [Hn _]%list_elem_of_filter.
Qed.

Lemma of_row_read_back cid v ms : of_verif_row (verif_key cid v, verif_row v ms) = Some (read_back v).
Proof.
  unfold of_verif_row, verif_key, verif_row, read_back. cbn [vr_result vr_reason].
  assert (parse_sig_type (sig_type_as_str (v_sig_type v)) = Some (v_sig_type v)) as ->
    by (by destruct (v_sig_type v)).
  cbn [mbind option_bind]. rewrite parse_stored. do 2 f_equal. by destruct (v_identity v).
Qed.

Definition upsert_all (cid : Cid) (ms : Z) (t : VerifTables) (vs : list ArticleVerification) : VerifTables :=
  foldl (λ t v, upsert_verification cid v ms t) t vs.

Lemma record_reliable cid vs ms p :
  pool_reliable p →
  ∃ p', record_verifications cid vs ms p = (Ok tt, p') ∧ rows p' = upsert_all cid ms (rows p) vs ∧ pool_reliable p'.
Proof.
  revert p. induction vs as [|v vs IH]; intros p Hp; [by exists p|].
  destruct (execute_reliable (upsert_verification cid v ms) p Hp) as (p1 & E1 & Hr1 & Hp1).
  destruct (IH p1 Hp1) as (p2 & E2 & Hr2 & Hp2). exists p2. split_and!; [|by rewrite Hr2, Hr1|done].
  cbn [record_verifications]. unfold mbind, prog_bind, prog_map_err. by rewrite E1.
Qed.

Lemma get_reliable cid p :
  pool_reliable p →
  ∃ rs p', get_verifications cid p = (Ok rs, p') ∧ rs ≡ₚ omap of_verif_row (rows_of_cid cid (rows p)).
Proof.
  intros Hp. destruct (select_reliable (λ t, row_choice (rows_of_cid cid t)) p Hp) as (p1 & E1 & _ & _).
  unfold get_verifications, mbind, prog_bind, prog_map_err. rewrite E1.
  do 2 eexists. split; [done|]. by rewrite row_choice_perm.
Qed.

(** The key under which a result is stored for its article. *)
Definition check_key (v : ArticleVerification) : SigType * bytes := (v_sig_type v, default [] (v_identity v)).

Lemma verif_key_inj cid v w : verif_key cid v = verif_key cid w → check_key v = check_key w.
Proof.
  unfold verif_key, check_key. intros [= Ht ->]. f_equal.
  by destruct (v_sig_type v), (v_sig_type w).
Qed.

Lemma rows_of_upserts cid ms t vs :
  NoDup (check_key <$> vs) → (∀ v, v ∈ vs → article_verifications t !! verif_key cid v = None) →
  rows_of_cid cid (upsert_all cid ms t vs) ≡ₚ
    ((λ v, (verif_key cid v, verif_row v ms)) <$> vs) ++ rows_of_cid cid t.
Proof.
  revert t. induction vs as [|v vs IH]; intros t Hnd Hnone; [done|]. cbn [upsert_all foldl].
  apply NoDup_cons in Hnd as [Hv Hnd]. rewrite fmap_cons.
  fold (upsert_all cid ms (upsert_verification cid v ms t) vs). rewrite IH; [|done|].
  - unfold rows_of_cid at 1. cbn [article_verifications upsert_verification].
    rewrite map_to_list_insert by (apply Hnone; by left). rewrite filter_cons_True by done.
    by rewrite <- Permutation_middle.
  - intros w Hw. cbn. rewrite lookup_insert_ne; [apply Hnone; by right|].
    intros E%verif_key_inj. apply Hv. rewrite E. by apply list_elem_of_fmap_2.
Qed.

Lemma upserts_read_back cid ms t vs :
  NoDup (check_key <$> vs) → rows_of_cid cid t = [] →
  omap of_verif_row (rows_of_cid cid (upsert_all cid ms t vs)) ≡ₚ read_back <$> vs.
Proof.
  intros Hnd Hnone. rewrite rows_of_upserts, Hnone, app_nil_r; [|done|].
  - induction vs as [|v vs IH]; [done|]. rewrite !fmap_cons. cbn [omap list_omap]. rewrite of_row_read_back.
    apply Permutation_skip, IH. by apply NoDup_cons in Hnd as [_ ?].
  - intros v _. destruct (article_verifications t !! verif_key cid v) as [r|] eqn:E; [|done].
    apply elem_of_map_to_list in E. assert (Hin : (verif_key cid v, r) ∈ rows_of_cid cid t)
      by (by apply list_elem_of_filter). rewrite Hnone in Hin. by apply not_elem_of_nil in Hin.
Qed.

Lemma aggregate_perm rs rs' : rs ≡ₚ rs' → aggregate_status rs = aggregate_status rs'.
Proof.
  intros Hp. unfold aggregate_status. assert (Hl := Permutation_length Hp).
  destruct rs as [|v rs], rs' as [|v' rs']; [done..|]. f_equal. apply eq_true_iff_eq.
  rewrite !existsb_exists. setoid_rewrite <- list_elem_of_In. by setoid_rewrite Hp.
Qed.

Lemma aggregate_read_back vs : aggregate_status (read_back <$> vs) = aggregate_status vs.
Proof.
  unfold aggregate_status. destruct vs as [|v vs]; [done|]. rewrite fmap_cons. f_equal.
  assert (Hr : ∀ w, is_pass (v_result (read_back w)) = is_pass (v_result w))
    by (intros [? [] ?]; done).
  cbn [existsb]. rewrite Hr. f_equal. induction vs as [|w vs IH]; [done|]. rewrite fmap_cons. cbn [existsb].
  by rewrite Hr, IH.
Qed.

(** What the verification store gives back for an article whose checks were
    recorded once, on a database that answers: every result, if no two of them
    have both scheme and identity in common.  A pass is a pass and the verdict
    is the one of the recorded list; only a parse error's text and a NUL in a
    domain are altered. *)
Theorem verifications_read_back cid vs ms p :
  pool_reliable p → rows_of_cid cid (rows p) = [] → NoDup (check_key <$> vs) →
  ∃ p' rs p'', record_verifications cid vs ms p = (Ok tt, p') ∧ get_verifications cid p' = (Ok rs, p'') ∧
    rs ≡ₚ read_back <$> vs ∧ aggregate_status rs = aggregate_status vs.
Proof.
  intros Hp Hnone Hnd. destruct (record_reliable cid vs ms p Hp) as (p1 & E1 & Hr1 & Hp1).
  destruct (get_reliable cid p1 Hp1) as (rs & p2 & E2 & Hrs). exists p1, rs, p2. split_and!; [done..| |].
  - by rewrite Hrs, Hr1, upserts_read_back.
  - rewrite <- (aggregate_read_back vs). apply aggregate_perm. by rewrite Hrs, Hr1, upserts_read_back.
Qed.

(** Two DKIM results with the same domain are one row: an article that
    carries two signatures of one domain (one per algorithm, say), of which the
    first verifies and the second does not, passes as [verify_dkim_headers]
    reports it, and is recorded and read back as not verified. *)
Theorem second_signature_hides_pass cid domain reason ms p :
  pool_reliable p → rows_of_cid cid (rows p) = [] →
  let vs := [mkVerif Dkim Pass (Some domain); mkVerif Dkim (VFail reason) (Some domain)] in
  aggregate_status vs = Some true ∧
  ∃ p' rs p'', record_verifications cid vs ms p = (Ok tt, p') ∧ get_verifications cid p' = (Ok rs, p'') ∧
    aggregate_status rs = Some false.
Proof.
  intros Hp Hnone vs. split; [done|]. destruct (record_reliable cid vs ms p Hp) as (p1 & E1 & Hr1 & Hp1).
  destruct (get_reliable cid p1 Hp1) as (rs & p2 & E2 & Hrs). exists p1, rs, p2. split_and!; [done..|].
  assert (Ht : upsert_all cid ms (rows p) vs = upsert_all cid ms (rows p) [mkVerif Dkim (VFail reason) (Some domain)]).
  { unfold vs, upsert_all. cbn [foldl]. unfold upsert_verification. cbn [article_verifications seen_keys].
    unfold verif_key at 2. cbn [v_sig_type v_identity]. by rewrite insert_insert_eq. }
  rewrite (aggregate_perm _ _ Hrs), Hr1, Ht.
  rewrite (aggregate_perm _ (read_back <$> [mkVerif Dkim (VFail reason) (Some domain)])); [done|].
  apply upserts_read_back; [apply NoDup_singleton|done].
Qed.

End Store.

Module VerifSamples.
Import ToyCrypto.

#[local] Instance in_order : RowChoice := {| row_choice l := l; row_choice_perm l := reflexivity l |}.

Definition empty_pool : Pool VerifTables := mkPool (mkVerifTables ∅ ∅) [].
Definition cid1 : @Cid toy_cid := (0x71, [1; 2]).
Definition checks : list ArticleVerification :=
  [mkVerif XUsenetIpfsSig Pass (Some (lit "ab")); mkVerif Dkim (DnsError (lit "x.org") (lit "timeout")) (Some (lit "x.org"));
   mkVerif Dkim (VParseError (lit "bad")) None].

Lemma verifications_read_back_witness :
  ∃ p' rs p'', record_verifications cid1 checks 5 empty_pool = (Ok tt, p') ∧
    get_verifications cid1 p' = (Ok rs, p'') ∧ aggregate_status rs = Some true.
Proof.
  destruct (verifications_read_back cid1 checks 5 empty_pool) as (p' & rs & p'' & H1 & H2 & _ & H3);
    [by apply (bool_decide_eq_true_1 _)|reflexivity|by apply (bool_decide_eq_true_1 _)|].
  exists p', rs, p''. auto.
Defined.

Lemma second_signature_witness :
  ∃ p' rs p'', record_verifications cid1
      [mkVerif Dkim Pass (Some (lit "x.org")); mkVerif Dkim (VFail (lit "key")) (Some (lit "x.org"))] 5 empty_pool =
      (Ok tt, p') ∧
    get_verifications cid1 p' = (Ok rs, p'') ∧ aggregate_status rs = Some false.
Proof.
  apply (second_signature_hides_pass cid1 (lit "x.org") (lit "key") 5 empty_pool);
    [by apply (bool_decide_eq_true_1 _)|reflexivity].
Defined.

End VerifSamples.

End VerifStore.
