(* ===== verification/PostChecks.v ===== *)
(** What a posted article must satisfy: [crates/reader/src/post/validate_headers.rs],
    [complete_post] of [crates/reader/src/session/commands/post.rs], and the
    header reading of [lifecycle.rs] ([extract_post_metadata], [split_article],
    [extract_header_value]).

    The header parser of [mailparse] is the class [HeaderLib]; its date parser
    is that of [InjectionLib]. *)

From S2P Require Import Prelude Bytes Decimal Utf8 Wildmat Article Validation Headers Util Overview NntpResponse Injection.

Module PostChecks.
Import Wildmat Article Validation Decimal Utf8 Headers Util Overview NntpResponse Injection.

(** [mailparse::parse_headers(b)]: [get_key()] and [get_value()] of each header. *)
Class HeaderLib := { parse_headers : bytes → option (list (bytes * bytes)) }.

Definition MAX_HEADER_LINE_BYTES : nat := 998.
Definition DATE_WINDOW_SECS : Z := 86400.

Definition refused {A} (text : bytes) : result Response A := Err (new 441 text).

(** ** Line lengths *)

Definition long_line_name (line : bytes) : bytes :=
  match split_once 58 line with
  | Some (name, _) => from_utf8_lossy name
  | None => lit "(unknown)"
  end.

Fixpoint check_lines (lines : list bytes) : result Response () :=
  match lines with
  | [] => Ok tt
  | line :: lines' =>
      if (MAX_HEADER_LINE_BYTES <? length line)%nat
      then refused (lit "Header field too long: " ++ long_line_name line)
      else check_lines lines'
  end.

Definition check_line_lengths (header_bytes : bytes) : result Response () :=
  check_lines (split LF header_bytes).

(** ** The header map *)

Abbreviation HeaderMap := (gmap bytes (list bytes)).

Definition add_header (map : HeaderMap) (hdr : bytes * bytes) : HeaderMap :=
  let key := to_ascii_lowercase hdr.1 in
  <[ key := default [] (map !! key) ++ [hdr.2] ]> map.

Definition parse_header_map `{HeaderLib} (header_bytes : bytes) : result Response HeaderMap :=
  match parse_headers header_bytes with
  | None => refused (lit "Could not parse article headers")
  | Some parsed => Ok (foldl add_header ∅ parsed)
  end.

(** ** The checks *)

Fixpoint check_present (headers : HeaderMap) (names : list bytes) : result Response () :=
  match names with
  | [] => Ok tt
  | name :: names' =>
      match headers !! to_ascii_lowercase name with
      | Some _ => check_present headers names'
      | None => refused (lit "Missing required header: " ++ name)
      end
  end.

Definition REQUIRED : list bytes :=
  [lit "From"; lit "Date"; lit "Message-ID"; lit "Newsgroups"; lit "Subject"].

Definition check_mandatory_headers (headers : HeaderMap) : result Response () := check_present headers REQUIRED.

(** The names of a [Newsgroups] value. *)
Definition group_names (value : bytes) : list bytes :=
  filter (λ s, s ≠ []) (trim <$> split 44 value).

(** Lower case, and a group name. *)
Definition postable_name (name : bytes) : bool :=
  negb (existsb is_ascii_upper name) && is_valid_group_name name.

Fixpoint check_names (names : list bytes) : result Response () :=
  match names with
  | [] => Ok tt
  | name :: names' =>
      if negb (postable_name name) then refused (lit "Invalid group name in Newsgroups: " ++ name)
      else check_names names'
  end.

Definition check_newsgroups (headers : HeaderMap) : result Response () :=
  match headers !! lit "newsgroups" with
  | None => refused (lit "Missing required header: Newsgroups")
  | Some values => check_names (concat (group_names <$> values))
  end.

Definition check_date `{InjectionLib} (now : Z) (headers : HeaderMap) : result Response () :=
  match headers !! lit "date" ≫= head with
  | None => refused (lit "Missing required header: Date")
  | Some value =>
      match dateparse value with
      | None => refused (lit "Invalid Date header format")
      | Some ts =>
          if DATE_WINDOW_SECS <? Z.abs (ts - now) then refused (lit "Date header out of acceptable range")
          else Ok tt
      end
  end.

(** The bytes between the angle brackets. *)
Definition msgid_inner (id : bytes) : bytes := take (length id - 2) (drop 1 id).

Definition valid_inner (inner : bytes) : bool :=
  if contains LT inner || contains GT inner then false
  else if existsb (λ c, is_ascii_whitespace c || (c =? NUL)) inner then false
  else if negb (length (List.filter (Z.eqb AT) inner) =? 1)%nat then false
  else match split_once AT inner with
       | None => false (* unreachable: one @ confirmed above *)
       | Some (local, domain) => negb (bool_decide (local = [])) && negb (bool_decide (domain = []))
       end.

Definition is_valid_message_id (id : bytes) : bool :=
  let id := trim id in
  if negb (starts_with id [LT]) || negb (bool_decide (last id = Some GT)) then false
  else valid_inner (msgid_inner id).

Definition check_message_id (headers : HeaderMap) : result Response () :=
  match headers !! lit "message-id" ≫= head with
  | None => refused (lit "Missing required header: Message-ID")
  | Some value => if is_valid_message_id value then Ok tt else refused (lit "Invalid Message-ID format")
  end.

Section Post.
Context {hlib : HeaderLib} {inj : InjectionLib}.

Definition validate_post_headers (now : Z) (header_bytes : bytes) : result Response () :=
  _ ← check_line_lengths header_bytes;
  headers ← parse_header_map header_bytes;
  _ ← check_mandatory_headers headers;
  _ ← check_newsgroups headers;
  _ ← check_date now headers;
  check_message_id headers.

Definition complete_post (now : Z) (article_bytes : bytes) (max_article_bytes : Z) : result Response () :=
  if max_article_bytes <? Z.of_nat (length article_bytes) then refused (lit "Article too large")
  else validate_post_headers now (split_header_body article_bytes).1.

(** ** Reading the metadata *)

Fixpoint first_header (key : bytes) (parsed : list (bytes * bytes)) : option bytes :=
  match parsed with
  | [] => None
  | hdr :: parsed' =>
      if bool_decide (to_ascii_lowercase hdr.1 = key) then Some hdr.2 else first_header key parsed'
  end.

Fixpoint parse_groups (names : list bytes) : result Response (list GroupName) :=
  match names with
  | [] => Ok []
  | s :: names' =>
      match group_new s with
      | Err _ => refused (lit "Invalid group name: " ++ s)
      | Ok g => gs ← parse_groups names'; mret (g :: gs)
      end
  end.

Definition extract_post_metadata (article_bytes : bytes) : result Response (bytes * list GroupName) :=
  let parse_end := default (length article_bytes) (find_header_boundary article_bytes) in
  match parse_headers (take parse_end article_bytes) with
  | None => refused (lit "Could not parse article headers")
  | Some parsed =>
      match first_header (lit "message-id") parsed with
      | None => refused (lit "Missing Message-ID header")
      | Some message_id =>
          match first_header (lit "newsgroups") parsed with
          | None => refused (lit "Missing Newsgroups header")
          | Some newsgroups_val =>
              newsgroups ← parse_groups (group_names newsgroups_val);
              if bool_decide (newsgroups = []) then refused (lit "Newsgroups header is empty")
              else Ok (message_id, newsgroups)
          end
      end
  end.

End Post.

Definition split_article (b : bytes) : bytes * bytes :=
  match find_header_boundary b with
  | Some body_start => (take (body_start - sep_len b body_start) b, drop body_start b)
  | None => (b, [])
  end.

(** [str::lines()]. *)
Definition str_lines (s : bytes) : list bytes :=
  let ls := split LF s in
  strip_cr <$> (if bool_decide (last ls = Some []) then take (length ls - 1) ls else ls).

Fixpoint unfold_value (value : bytes) (lines : list bytes) : bytes :=
  match lines with
  | next :: lines' =>
      if starts_with next (lit " ") || starts_with next [HT]
      then unfold_value (value ++ [SP] ++ trim next) lines'
      else value
  | [] => value
  end.

(** [trim_end]. *)
Definition trim_end (s : bytes) : bytes := rev (trim_end_rev (rev s)).

Fixpoint header_value_in (prefix_colon : bytes) (lines : list bytes) : option bytes :=
  match lines with
  | [] => None
  | line :: lines' =>
      if starts_with (to_ascii_lowercase line) prefix_colon
      then Some (trim_end (unfold_value (trim_start (drop (length prefix_colon) line)) lines'))
      else header_value_in prefix_colon lines'
  end.

Definition extract_header_value (headers name : bytes) : option bytes :=
  header_value_in (to_ascii_lowercase name ++ lit ":") (str_lines headers).

(** ** The rules *)

(** Lower-case group names. *)
Definition postable_group (name : bytes) : Prop :=
  Forall (λ c, is_ascii_upper c = false) name ∧ valid_group (mkGroupName name).

Definition inner_char (c : Z) : Prop :=
  c ≠ LT ∧ c ≠ GT ∧ c ≠ AT ∧ c ≠ NUL ∧ is_ascii_whitespace c = false.

(** [<local@domain>], both parts non-empty. *)
Definition post_msgid (id : bytes) : Prop :=
  ∃ local domain, id = LT :: local ++ AT :: domain ++ [GT] ∧
    local ≠ [] ∧ domain ≠ [] ∧ Forall inner_char local ∧ Forall inner_char domain.

Lemma postable_name_spec name : postable_name name = true ↔ postable_group name.
Proof.
  unfold postable_name, postable_group, valid_group. cbn [as_str].
  rewrite andb_true_iff, negb_true_iff, existsb_false. done.
Qed.

Lemma check_names_spec names :
  check_names names = Ok tt ↔ Forall postable_group names.
Proof.
  induction names as [|n names IH]; [done|]. cbn [check_names]. rewrite Forall_cons, <- IH, <- postable_name_spec.
  destruct (postable_name n); simpl; naive_solver.
Qed.

Lemma check_lines_spec lines :
  check_lines lines = Ok tt ↔ Forall (λ l, (length l <= MAX_HEADER_LINE_BYTES)%nat) lines.
Proof.
  induction lines as [|l lines IH]; [done|]. cbn [check_lines]. rewrite Forall_cons, <- IH.
  destruct (Nat.ltb_spec MAX_HEADER_LINE_BYTES (length l)); naive_solver lia.
Qed.

(** *** Message-IDs *)

Lemma plain_spec (s : bytes) :
  contains LT s || contains GT s = false ∧ existsb (λ c, is_ascii_whitespace c || (c =? NUL)) s = false ↔
  Forall (λ c, c ≠ LT ∧ c ≠ GT ∧ c ≠ NUL ∧ is_ascii_whitespace c = false) s.
Proof.
  rewrite orb_false_iff, !contains_false, existsb_false.
  induction s as [|c s IH]; [set_solver|]. rewrite !Forall_cons, !not_elem_of_cons, <- IH, orb_false_iff, Z.eqb_neq.
  naive_solver.
Qed.

Lemma inner_char_spec (s : bytes) :
  Forall (λ c, c ≠ LT ∧ c ≠ GT ∧ c ≠ NUL ∧ is_ascii_whitespace c = false) s ∧ AT ∉ s ↔ Forall inner_char s.
Proof.
  unfold inner_char. induction s as [|c s IH]; [set_solver|]. rewrite !Forall_cons, not_elem_of_cons, <- IH. naive_solver.
Qed.

Lemma msgid_inner_spec s : msgid_inner (LT :: s ++ [GT]) = s.
Proof.
  unfold msgid_inner. cbn [drop length]. rewrite length_app. cbn [length].
  replace (S (length s + 1) - 2)%nat with (length s) by lia. apply take_app_length.
Qed.

Lemma bracketed id :
  starts_with id [LT] = true → last id = Some GT → id = LT :: msgid_inner id ++ [GT].
Proof.
  intros [r ->]%starts_with_spec Hl. apply last_Some in Hl as [x Hx]. cbn [app] in Hx |- *.
  destruct x as [|c x]; injection Hx as Hc Hr; [done|]. rewrite Hr. f_equal. by rewrite msgid_inner_spec.
Qed.

Lemma valid_inner_spec inner :
  valid_inner inner = true ↔
  ∃ l r, inner = l ++ AT :: r ∧ l ≠ [] ∧ r ≠ [] ∧ Forall inner_char l ∧ Forall inner_char r.
Proof.
  unfold valid_inner. split.
  - destruct (contains LT inner || contains GT inner) eqn:H1; [done|].
    destruct (existsb _ inner) eqn:H2; [done|]. pose proof (proj1 (plain_spec _) (conj H1 H2)) as Hp.
    break_if; [done|]. to_prop.
    destruct (split_once AT inner) as [[l r]|] eqn:E; [|done]. apply split_once_Some in E as [Ei Hat].
    assert (Har : AT ∉ r) by (by apply (split_one_at AT inner l r Ei Hat)). subst inner.
    apply Forall_app in Hp as [Hl [_ Hr]%Forall_cons].
    intros Hne. to_prop. exists l, r. rewrite <- !inner_char_spec. naive_solver.
  - intros (l & r & -> & Hl & Hr & [H1 H2]%inner_char_spec & [H3 H4]%inner_char_spec).
    assert (Hp : Forall (λ c, c ≠ LT ∧ c ≠ GT ∧ c ≠ NUL ∧ is_ascii_whitespace c = false) (l ++ AT :: r))
      by (apply Forall_app; split; [done|by constructor]).
    apply plain_spec in Hp as [-> ->]. rewrite (proj2 (split_one_at AT _ l r eq_refl H2) H4). cbn [negb Nat.eqb].
    rewrite (proj2 (split_once_Some AT _ l r) (conj eq_refl H2)).
    by rewrite !bool_decide_eq_false_2 by done.
Qed.

Lemma post_message_id_spec id : is_valid_message_id id = true ↔ post_msgid (trim id).
Proof.
  unfold is_valid_message_id, post_msgid. cbv zeta. set (t := trim id). split.
  - break_if; [done|]. to_prop. intros (l & r & Hi & Hlr)%valid_inner_spec. exists l, r. split; [|done].
    rewrite (bracketed t), Hi by done. by rewrite <- app_assoc.
  - intros (l & r & Ht & H).
    assert (Ht' : t = LT :: (l ++ AT :: r) ++ [GT]) by (rewrite Ht; simpl; by rewrite <- app_assoc).
    rewrite Ht', (msgid_inner_spec (l ++ AT :: r)). rewrite app_comm_cons, last_snoc, bool_decide_eq_true_2 by done.
    cbn. apply valid_inner_spec. eauto.
Qed.

(** *** The header map *)

Definition values (key : bytes) (parsed : list (bytes * bytes)) : list bytes :=
  (filter (λ hdr, to_ascii_lowercase hdr.1 = key) parsed).*2.

Lemma header_map_lookup parsed key :
  foldl add_header ∅ parsed !! key = if bool_decide (values key parsed = []) then None else Some (values key parsed).
Proof.
  assert (Hg : ∀ m, foldl add_header m parsed !! key =
    match m !! key, values key parsed with
    | None, [] => None
    | o, vs => Some (default [] o ++ vs)
    end).
  { induction parsed as [|hdr parsed IH]; intros m.
    - cbn. destruct (m !! key) as [vs|]; [by rewrite app_nil_r|done].
    - cbn [foldl]. rewrite IH. unfold add_header, values. cbv zeta. rewrite filter_cons.
      destruct (decide (to_ascii_lowercase hdr.1 = key)) as [->|Hne].
      + rewrite lookup_insert_eq, fmap_cons. destruct (m !! key); cbn; by rewrite <- ?app_assoc.
      + by rewrite lookup_insert_ne. }
  rewrite Hg, lookup_empty. by destruct (values key parsed).
Qed.

Lemma first_header_head key parsed : head (values key parsed) = first_header key parsed.
Proof.
  induction parsed as [|hdr parsed IH]; [done|]. unfold values. rewrite filter_cons. cbn [first_header].
  destruct (decide (to_ascii_lowercase hdr.1 = key)) as [E|E].
  - by rewrite bool_decide_eq_true_2.
  - by rewrite bool_decide_eq_false_2.
Qed.

Lemma map_first parsed key : foldl add_header ∅ parsed !! key ≫= head = first_header key parsed.
Proof. rewrite header_map_lookup, <- first_header_head. by destruct (values key parsed). Qed.

Lemma check_present_spec parsed names :
  check_present (foldl add_header ∅ parsed) names = Ok tt ↔
  Forall (λ n, is_Some (first_header (to_ascii_lowercase n) parsed)) names.
Proof.
  induction names as [|n names IH]; [done|]. cbn [check_present]. rewrite Forall_cons, <- IH, <- first_header_head.
  rewrite header_map_lookup. destruct (values (to_ascii_lowercase n) parsed); cbn; [|naive_solver].
  split; [done|]. by intros [[? ?] _].
Qed.

Lemma check_newsgroups_spec parsed :
  is_Some (first_header (lit "newsgroups") parsed) →
  check_newsgroups (foldl add_header ∅ parsed) = Ok tt ↔
  Forall (λ v, Forall postable_group (group_names v)) (values (lit "newsgroups") parsed).
Proof.
  rewrite <- first_header_head. unfold check_newsgroups. rewrite header_map_lookup.
  destruct (values (lit "newsgroups") parsed) as [|v vs] eqn:E; cbn [head bool_decide]; [by intros []|].
  intros _. rewrite bool_decide_eq_false_2 by done. rewrite check_names_spec. clear E.
  generalize (v :: vs). intros l. induction l as [|x l IH]; [done|]. rewrite fmap_cons. cbn [concat].
  by rewrite Forall_app, Forall_cons, IH.
Qed.

Section Rules.
Context {hlib : HeaderLib} {inj : InjectionLib}.

(** What the headers must satisfy. *)
Definition postable_headers (now : Z) (header_bytes : bytes) (parsed : list (bytes * bytes)) : Prop :=
  Forall (λ l, (length l <= MAX_HEADER_LINE_BYTES)%nat) (split LF header_bytes) ∧
  parse_headers header_bytes = Some parsed ∧
  Forall (λ n, is_Some (first_header (to_ascii_lowercase n) parsed)) REQUIRED ∧
  Forall (λ v, Forall postable_group (group_names v)) (values (lit "newsgroups") parsed) ∧
  (∃ d ts, first_header (lit "date") parsed = Some d ∧ dateparse d = Some ts ∧
     now - DATE_WINDOW_SECS <= ts <= now + DATE_WINDOW_SECS) ∧
  (∃ m, first_header (lit "message-id") parsed = Some m ∧ post_msgid (trim m)).

Lemma check_date_spec now parsed :
  check_date now (foldl add_header ∅ parsed) = Ok tt ↔
  ∃ d ts, first_header (lit "date") parsed = Some d ∧ dateparse d = Some ts ∧
    now - DATE_WINDOW_SECS <= ts <= now + DATE_WINDOW_SECS.
Proof.
  unfold check_date. rewrite map_first. destruct (first_header (lit "date") parsed) as [d|]; [|naive_solver].
  destruct (dateparse d) as [ts|] eqn:E; [|naive_solver].
  destruct (Z.ltb_spec DATE_WINDOW_SECS (Z.abs (ts - now))); split; intros H'.
  - done.
  - destruct H' as (d' & ts' & [= <-] & E' & Hb). rewrite E in E'. injection E' as ->. lia.
  - exists d, ts. split_and!; [done|done|lia|lia].
  - done.
Qed.

Lemma check_message_id_spec parsed :
  check_message_id (foldl add_header ∅ parsed) = Ok tt ↔
  ∃ m, first_header (lit "message-id") parsed = Some m ∧ post_msgid (trim m).
Proof.
  unfold check_message_id. rewrite map_first.
  destruct (first_header (lit "message-id") parsed) as [m|]; [|naive_solver].
  destruct (is_valid_message_id m) eqn:E.
  - apply post_message_id_spec in E. naive_solver.
  - split; [done|]. intros (m' & [= <-] & Hm%post_message_id_spec). congruence.
Qed.

Lemma bind_Ok {E A B} (m : result E A) (k : A → result E B) b :
  mbind k m = Ok b ↔ ∃ a, m = Ok a ∧ k a = Ok b.
Proof. destruct m; naive_solver. Qed.

Lemma newsgroups_required parsed :
  Forall (λ n, is_Some (first_header (to_ascii_lowercase n) parsed)) REQUIRED →
  is_Some (first_header (lit "newsgroups") parsed).
Proof. intros H. apply (proj1 (Forall_forall _ _) H (lit "Newsgroups")). by apply (bool_decide_eq_true_1 _). Qed.

Lemma validate_post_headers_spec now header_bytes :
  validate_post_headers now header_bytes = Ok tt ↔ ∃ parsed, postable_headers now header_bytes parsed.
Proof.
  unfold validate_post_headers, postable_headers, check_line_lengths, parse_header_map, check_mandatory_headers.
  rewrite bind_Ok. setoid_rewrite bind_Ok. setoid_rewrite bind_Ok. setoid_rewrite bind_Ok. setoid_rewrite bind_Ok.
  split.
  - intros ([] & Hl%check_lines_spec & hm & Hp & [] & Hm & [] & Hg & [] & Hd & Hi).
    destruct (parse_headers header_bytes) as [parsed|]; [|done]. injection Hp as <-. exists parsed.
    apply check_present_spec in Hm. apply check_newsgroups_spec in Hg; [|by apply newsgroups_required].
    by apply check_date_spec in Hd; apply check_message_id_spec in Hi.
  - intros (parsed & Hl & Hp & Hm & Hg & Hd & Hi). rewrite Hp.
    exists tt. split; [by apply check_lines_spec|]. eexists. split; [done|].
    exists tt. split; [by apply check_present_spec|]. exists tt. split.
    { apply check_newsgroups_spec; [by apply newsgroups_required|done]. }
    exists tt. split; [by apply check_date_spec|by apply check_message_id_spec].
Qed.

(** A check that refuses with 441. *)
Definition refuses {A} (m : result Response A) : Prop := match m with Ok _ => True | Err r => code r = 441 end.

Lemma refuses_bind {A B} (m : result Response A) (k : A → result Response B) :
  refuses m → (∀ a, refuses (k a)) → refuses (mbind k m).
Proof. destruct m; naive_solver. Qed.

Lemma validate_post_headers_code now header_bytes r :
  validate_post_headers now header_bytes = Err r → code r = 441.
Proof.
  intros E. enough (H : refuses (validate_post_headers now header_bytes)) by (by rewrite E in H).
  apply refuses_bind; [|intros _; apply refuses_bind; [|intros hm; repeat (apply refuses_bind; [|intros _])]].
  - unfold check_line_lengths. induction (split LF header_bytes) as [|l ls IH]; [done|]. cbn [check_lines].
    by destruct (_ <? _)%nat.
  - unfold parse_header_map. by destruct (parse_headers header_bytes).
  - unfold check_mandatory_headers. induction REQUIRED as [|n ns IH]; [done|]. cbn [check_present].
    by destruct (hm !! _).
  - unfold check_newsgroups. destruct (hm !! _) as [vs|]; [|done].
    induction (concat (group_names <$> vs)) as [|n ns IH]; [done|]. cbn [check_names]. by destruct (negb _).
  - unfold check_date. destruct (hm !! _ ≫= head) as [d|]; [|done]. destruct (dateparse d); [|done].
    by destruct (_ <? _).
  - unfold check_message_id. destruct (hm !! _ ≫= head) as [m|]; [|done]. by destruct (is_valid_message_id m).
Qed.

Lemma complete_post_rules now article_bytes max_article_bytes :
  match complete_post now article_bytes max_article_bytes with
  | Ok _ => Z.of_nat (length article_bytes) <= max_article_bytes ∧
            ∃ parsed, postable_headers now (split_header_body article_bytes).1 parsed
  | Err r => code r = 441 ∧
             ¬ (Z.of_nat (length article_bytes) <= max_article_bytes ∧
                ∃ parsed, postable_headers now (split_header_body article_bytes).1 parsed)
  end.
Proof.
  unfold complete_post. destruct (Z.ltb_spec max_article_bytes (Z.of_nat (length article_bytes))) as [Hlt|Hle].
  - split; [done|]. lia.
  - pose proof (validate_post_headers_spec now (split_header_body article_bytes).1) as Hs.
    destruct (validate_post_headers now _) as [[]|r] eqn:E; [split; [done|by apply Hs]|].
    split; [by apply (validate_post_headers_code _ _ _ E)|]. intros [_ H%Hs]. congruence.
Qed.


(** [parse_headers] stops at the blank line. *)
Class HeaderLaws : Prop := {
  parse_headers_crlf h : parse_headers (h ++ CRLF2) = parse_headers h;
  parse_headers_lf h : parse_headers (h ++ LF2) = parse_headers h
}.

Lemma find_subsequence_take hay needle i :
  find_subsequence hay needle = Some i → take (i + length needle) hay = take i hay ++ needle.
Proof.
  revert i. induction hay as [|c hay IH]; intros i; cbn [find_subsequence].
  - destruct (starts_with [] needle) eqn:E; [|done]. intros [= <-]. apply starts_with_spec in E as [r E].
    symmetry in E. by apply app_nil in E as [-> ->].
  - destruct (starts_with (c :: hay) needle) eqn:E.
    + intros [= <-]. apply starts_with_spec in E as [r E]. rewrite E. by rewrite Nat.add_0_l, take_app_length.
    + destruct (find_subsequence hay needle) as [j|]; [|done]. cbn. intros [= <-]. cbn. f_equal. by apply IH.
Qed.

Lemma boundary_take b body_start :
  find_header_boundary b = Some body_start →
  take body_start b = take (body_start - sep_len b body_start) b ++ CRLF2 ∨
  take body_start b = take (body_start - sep_len b body_start) b ++ LF2.
Proof.
  unfold find_header_boundary, sep_len. intros Hb.
  destruct ((4 <=? body_start)%nat && _) eqn:E.
  - left. to_prop. rewrite <- H0. replace body_start with (body_start - 4 + 4)%nat at 1 by lia.
    by rewrite take_take_drop.
  - right. destruct (find_subsequence b CRLF2) as [i|] eqn:Ec.
    + exfalso. injection Hb as <-. apply find_subsequence_take in Ec as Ht. apply andb_false_iff in E as [E|E].
      * to_prop. lia.
      * to_prop. apply E. change (length CRLF2) with 4%nat in Ht. rewrite <- take_take_drop in Ht.
        replace (i + 4 - 4)%nat with i by lia. by apply app_inv_head in Ht.
    + destruct (find_subsequence b LF2) as [i|] eqn:El; [|done]. injection Hb as <-.
      apply find_subsequence_take in El. change (length LF2) with 2%nat in El. by replace (i + 2 - 2)%nat with i by lia.
Qed.

Lemma parse_whole `{!HeaderLaws} b :
  parse_headers (take (default (length b) (find_header_boundary b)) b) = parse_headers (split_header_body b).1.
Proof.
  unfold split_header_body. destruct (find_header_boundary b) as [bs|] eqn:E; cbn [default from_option id fst].
  - destruct (boundary_take b bs E) as [-> | ->]; [apply parse_headers_crlf|apply parse_headers_lf].
  - by rewrite take_ge.
Qed.

Lemma parse_groups_ok names :
  Forall postable_group names → parse_groups names = Ok (mkGroupName <$> names).
Proof.
  induction 1 as [|n names [_ Hn] _ IH]; [done|]. cbn [parse_groups]. unfold group_new, valid_group in *.
  cbn [as_str] in Hn. rewrite Hn, IH. done.
Qed.

Lemma parse_groups_valid names :
  match parse_groups names with Ok gs => Forall valid_group gs | Err r => code r = 441 end.
Proof.
  induction names as [|n names IH]; [by constructor|]. cbn [parse_groups]. unfold group_new.
  destruct (is_valid_group_name n) eqn:Hn; [|done].
  destruct (parse_groups names); [|done]. by constructor.
Qed.

Lemma extract_post_metadata_groups b :
  match extract_post_metadata b with
  | Ok (_, gs) => gs ≠ [] ∧ Forall valid_group gs
  | Err r => code r = 441
  end.
Proof.
  unfold extract_post_metadata. cbv zeta. destruct (parse_headers _) as [parsed|]; [|done].
  destruct (first_header (lit "message-id") parsed) as [m|]; [|done].
  destruct (first_header (lit "newsgroups") parsed) as [ng|]; [|done].
  pose proof (parse_groups_valid (group_names ng)) as H. destruct (parse_groups (group_names ng)) as [gs|r]; [|done].
  cbn [mbind result_bind]. by case_bool_decide.
Qed.

Lemma first_header_elem key parsed v : first_header key parsed = Some v → v ∈ values key parsed.
Proof. rewrite <- first_header_head. destruct (values key parsed); [done|]. intros [= ->]. by left. Qed.

(** The metadata of an accepted article: its first Message-ID as parsed, and
    the groups of its first Newsgroups field, unless that field names none. *)
Lemma accepted_metadata `{!HeaderLaws} now b max parsed :
  complete_post now b max = Ok tt → parse_headers (split_header_body b).1 = Some parsed →
  ∃ m ng, first_header (lit "message-id") parsed = Some m ∧ post_msgid (trim m) ∧
    first_header (lit "newsgroups") parsed = Some ng ∧ Forall postable_group (group_names ng) ∧
    extract_post_metadata b =
      if bool_decide (group_names ng = []) then refused (lit "Newsgroups header is empty")
      else Ok (m, mkGroupName <$> group_names ng).
Proof.
  intros Hc Hp. pose proof (complete_post_rules now b max) as Hr. rewrite Hc in Hr.
  destruct Hr as (_ & parsed' & _ & Hp' & Hreq & Hng & _ & m & Hm & Hmid).
  rewrite Hp in Hp'. injection Hp' as <-. destruct (newsgroups_required _ Hreq) as [ng Hn].
  assert (Hgs : Forall postable_group (group_names ng))
    by (apply (proj1 (Forall_forall _ _) Hng), first_header_elem, Hn).
  exists m, ng. split_and!; [done..|]. unfold extract_post_metadata. cbv zeta.
  rewrite parse_whole, Hp, Hm, Hn, parse_groups_ok by done. cbn [mbind result_bind].
  by destruct (group_names ng).
Qed.

(** [complete_post] accepts exactly the articles that are not too large and
    whose headers have no line over 998 bytes, parse, include From, Date,
    Message-ID, Newsgroups and Subject, name only lower-case well-formed groups
    in every Newsgroups field, and start with a Date within a day of the clock
    and a Message-ID of the form [<local@domain>]; every refusal is a 441. *)
Theorem complete_post_spec now article_bytes max_article_bytes :
  match complete_post now article_bytes max_article_bytes with
  | Ok _ => Z.of_nat (length article_bytes) <= max_article_bytes ∧
            ∃ parsed, postable_headers now (split_header_body article_bytes).1 parsed
  | Err r => code r = 441 ∧
             ¬ (Z.of_nat (length article_bytes) <= max_article_bytes ∧
                ∃ parsed, postable_headers now (split_header_body article_bytes).1 parsed)
  end.
Proof. apply complete_post_rules. Qed.

End Rules.

(** A parser of [name: value] lines up to the first blank one. *)
Module HeaderSample.

Fixpoint parse_lines (ls : list bytes) : list (bytes * bytes) :=
  match ls with
  | [] => []
  | l :: ls' =>
      let line := trim_cr l in
      if bool_decide (line = []) then []
      else match split_once 58 line with
           | Some (k, v) => (k, trim v) :: parse_lines ls'
           | None => parse_lines ls'
           end
  end.

#[export] Instance line_parser : HeaderLib := {| parse_headers b := Some (parse_lines (split LF b)) |}.

Lemma parse_lines_end ls l l' rest :
  trim_cr l' = trim_cr l → parse_lines (ls ++ l' :: [CR] :: rest) = parse_lines (ls ++ [l]) ∧
  parse_lines (ls ++ l' :: [] :: rest) = parse_lines (ls ++ [l]).
Proof.
  intros Hl. induction ls as [|x ls [IH1 IH2]]; cbn [app parse_lines]; [by rewrite Hl|].
  by rewrite IH1, IH2.
Qed.

#[export] Instance line_parser_laws : HeaderLaws.
Proof.
  split; intros h; cbn [parse_headers line_parser]; f_equal.
  - destruct (split_snoc LF CR h ltac:(done)) as (ls & l & E1 & E2).
    change (h ++ CRLF2) with (h ++ [CR] ++ LF :: [CR] ++ LF :: []). rewrite app_assoc, split_app, E1, E2, <- app_assoc.
    apply (parse_lines_end ls l (l ++ [CR])). unfold trim_cr. by rewrite rev_app_distr.
  - destruct (split_snoc LF CR h ltac:(done)) as (ls & l & E1 & _).
    change (h ++ LF2) with (h ++ LF :: LF :: []). rewrite split_app, E1, <- app_assoc.
    by apply (parse_lines_end ls l l).
Qed.

End HeaderSample.

End PostChecks.
