(* ===== verification/Ipld.v ===== *)
(** The blocks of an article: [crates/core/src/ipld] ([blocks.rs], [header_map.rs],
    [metadata.rs], [mime.rs], [mime_parser.rs], [root_node.rs], [builder.rs],
    [cid_util.rs]).

    DAG-CBOR, the content-type parser of [mailparse], [chrono]'s dates,
    [quoted_printable] and [base64] are the class [IpldLib]; its laws say that a
    root node that was encoded decodes to itself. *)

From S2P Require Import Prelude Bytes Utf8 Wildmat Article Validation Headers Util Crypto BlockStore Overview NntpResponse Injection PostChecks.

Module Ipld.
Import Article Utf8 Util BlockStore Injection PostChecks.

(** ** Nodes *)

Inductive HeaderValue := Single (v : bytes) | Multi (vs : list bytes).

(** [BTreeMap<String, HeaderValue>]. *)
Abbreviation HeaderMapNode := (gmap bytes HeaderValue).

Record ArticleMetadata := mkMetadata {
  md_message_id : bytes;
  md_newsgroups : list bytes;
  md_hlc_timestamp : Z;
  md_operator_signature : bytes;
  md_byte_count : Z;
  md_line_count : Z;
  md_content_type_summary : bytes
}.

Definition SCHEMA_VERSION : Z := 1.
Definition CODEC_RAW : Z := 0x55.
Definition CODEC_DAG_CBOR : Z := 0x71.
Definition MH_SHA2_256 : Z := 0x12.

Section Nodes.
Context {lib : CidLib}.

Record ArticleRootNode := mkRoot {
  schema_version : Z;
  header_cid : Cid;
  header_map_cid : option Cid;
  body_cid : Cid;
  mime_cid : option Cid;
  metadata : ArticleMetadata
}.

Record SinglePartMime := mkSinglePart {
  sp_content_type : bytes;
  sp_transfer_encoding : bytes;
  sp_decoded_cid : Cid;
  sp_is_binary : bool
}.

Record MimePart := mkMimePart { mp_content_type : bytes; mp_decoded_cid : Cid; mp_is_binary : bool }.

Record MultipartMime := mkMultipart { mm_content_type : bytes; mm_parts : list MimePart }.

Inductive MimeNode := SinglePart (s : SinglePartMime) | Multipart (m : MultipartMime).

Class IpldLib := {
  (** [serde_ipld_dagcbor::to_vec] and [from_slice], with the text of the error. *)
  root_encode : ArticleRootNode → result bytes bytes;
  root_decode : bytes → result bytes ArticleRootNode;
  header_map_encode : HeaderMapNode → result bytes bytes;
  mime_encode : MimeNode → result bytes bytes;
  (** [mailparse::parse_content_type]: the type and the parameters. *)
  parse_content_type : bytes → bytes * gmap bytes bytes;
  (** [DateTime::parse_from_rfc2822(s).ok().map(|dt| dt.to_rfc3339())]. *)
  rfc2822_to_rfc3339 : bytes → option bytes;
  (** [quoted_printable::decode(_, Robust).ok()] and [STANDARD.decode(_).ok()]. *)
  qp_decode : bytes → option bytes;
  b64_standard_decode : bytes → option bytes
}.

(** A root node with well-formed group names, which is what the deserializer
    checks, decodes to itself. *)
Class IpldLaws (ipld : IpldLib) : Prop := {
  root_roundtrip n b :
    root_encode n = Ok b → Forall (λ g, is_valid_group_name g = true) (md_newsgroups (metadata n)) →
    root_decode b = Ok n
}.

(** ** Raw blocks *)

Definition raw_block (data : bytes) : Cid * bytes := (cid_new_v1 CODEC_RAW MH_SHA2_256 (sha256 data), data).

Definition header_block (header_bytes : bytes) : Cid * bytes := raw_block header_bytes.
Definition body_block (body_bytes : bytes) : Cid * bytes := raw_block body_bytes.
Definition make_raw_block (data : bytes) : Cid * bytes := raw_block data.

Definition dag_cbor_cid (b : bytes) : Cid := cid_new_v1 CODEC_DAG_CBOR MH_SHA2_256 (sha256 b).

(** [None] is the panic of [u32::try_from]. *)
Definition cid_for_article (header_bytes body_bytes : bytes) : option Cid :=
  if u32_max <? Z.of_nat (length header_bytes) then None
  else Some (cid_new_v1 CODEC_RAW MH_SHA2_256
    (sha256 (be_bytes 4 (Z.of_nat (length header_bytes)) ++ header_bytes ++ body_bytes))).

(** ** The header map *)

(** [tchar]. *)
Definition header_name_char (c : Z) : bool :=
  is_ascii_alphanumeric c || contains c (lit "-_!#$%&'*+.^`|~").

Definition is_valid_header_name (name : bytes) : bool :=
  negb (bool_decide (name = [])) && forallb header_name_char name.

Definition DATE_HEADERS : list bytes :=
  [lit "date"; lit "injection-date"; lit "nntp-posting-date"; lit "expires"].

Section Build.
Context {hlib : HeaderLib} {ipld : IpldLib}.

Definition accumulate (acc : gmap bytes (list bytes)) (hdr : bytes * bytes) : gmap bytes (list bytes) :=
  if negb (is_valid_header_name hdr.1) then acc
  else
    let key := to_ascii_lowercase hdr.1 in
    let value :=
      if bool_decide (key ∈ DATE_HEADERS) then default hdr.2 (rfc2822_to_rfc3339 hdr.2) else hdr.2 in
    <[ key := default [] (acc !! key) ++ [value] ]> acc.

Definition header_value (vs : list bytes) : HeaderValue :=
  match vs with [v] => Single v | _ => Multi vs end.

Definition build_header_map (raw_headers : bytes) : HeaderMapNode :=
  match parse_headers raw_headers with
  | None => ∅
  | Some parsed => header_value <$> foldl accumulate ∅ parsed
  end.

(** ** Metadata *)

Definition compute_byte_count (body_bytes : bytes) : Z := Z.of_nat (length body_bytes).

Definition compute_line_count (body_bytes : bytes) : Z :=
  Z.of_nat (length (List.filter (Z.eqb LF) body_bytes)).

(** [iter().find(|h| h.get_key().eq_ignore_ascii_case(name)).map(get_value)]. *)
Definition find_header (name : bytes) (headers : list (bytes * bytes)) : option bytes :=
  snd <$> List.find (λ h, eq_ignore_ascii_case h.1 name) headers.

Definition extract_content_type_summary (header_bytes : bytes) : bytes :=
  match parse_headers header_bytes with
  | None => lit "text/plain"
  | Some headers =>
      match find_header (lit "content-type") headers with
      | Some v => (parse_content_type v).1
      | None => lit "text/plain"
      end
  end.

Definition compute_metadata (header_bytes body_bytes message_id : bytes) (newsgroups : list bytes)
    (hlc_timestamp : Z) (operator_signature : bytes) : ArticleMetadata :=
  mkMetadata message_id newsgroups hlc_timestamp operator_signature
    (Z.of_nat (length header_bytes) + compute_byte_count body_bytes)
    (compute_line_count body_bytes) (extract_content_type_summary header_bytes).

(** ** MIME *)

Definition MAX_MIME_PARTS : nat := 100.

(** [memmem] from [search_from]: the first position at or after it. *)
Definition find_from (body delimiter : bytes) (search_from : nat) : option nat :=
  (λ p, (p + search_from)%nat) <$> find_subsequence (drop search_from body) delimiter.

Definition mime_line_end (buf : bytes) (pos : nat) : nat :=
  match find_subsequence (drop pos buf) [LF] with
  | Some i => (pos + i + 1)%nat
  | None => length buf
  end.

Definition trim_trailing_crlf (s : bytes) : bytes :=
  let s := default s (strip_suffix [LF] s) in
  default s (strip_suffix [CR] s).

Definition slice (start stop : nat) (b : bytes) : bytes := take (stop - start) (drop start b).

(** The loop of [split_on_boundary]; [None] when the fuel runs out. *)
Fixpoint split_loop (fuel : nat) (body delimiter end_delimiter : bytes) (section_start search_from : nat)
    (result : list bytes) : option (list bytes) :=
  match fuel with
  | O => None
  | S fuel =>
      match find_from body delimiter search_from with
      | None => Some (result ++ [trim_trailing_crlf (drop section_start body)])
      | Some pos =>
          let at_line_start := (pos =? 0)%nat || bool_decide (body !! (pos - 1)%nat = Some LF) in
          if negb at_line_start then
            split_loop fuel body delimiter end_delimiter section_start (pos + 1) result
          else
            let section := trim_trailing_crlf (slice section_start pos body) in
            if starts_with (drop pos body) end_delimiter then Some (result ++ [section])
            else
              let line_end := mime_line_end body pos in
              split_loop fuel body delimiter end_delimiter line_end line_end (result ++ [section])
      end
  end.

Definition split_on_boundary (body delimiter end_delimiter : bytes) : option (list bytes) :=
  split_loop (length body + 2) body delimiter end_delimiter 0 0 [].

Definition split_part_headers (part : bytes) : bytes * bytes :=
  match find_subsequence part CRLF2 with
  | Some pos => (take (pos + 2) part, drop (pos + 4) part)
  | None =>
      match find_subsequence part LF2 with
      | Some pos => (take (pos + 1) part, drop (pos + 2) part)
      | None => (part, [])
      end
  end.

Definition decode_body (body_bytes cte : bytes) : bytes * bytes :=
  let cte_lower := to_ascii_lowercase (trim cte) in
  if bool_decide (cte_lower ∈ [lit "7bit"; lit "8bit"; lit "binary"]) then (body_bytes, cte_lower)
  else if bool_decide (cte_lower = lit "quoted-printable") then
    (default body_bytes (qp_decode body_bytes), lit "quoted-printable")
  else if bool_decide (cte_lower = lit "base64") then
    (default body_bytes (b64_standard_decode (filter (λ b, is_ascii_whitespace b = false) body_bytes)), lit "base64")
  else (body_bytes, cte_lower).

(** [mimetype.split('/').next()], lower case. *)
Definition top_type (mimetype : bytes) : bytes := to_ascii_lowercase (nth 0 (split 47 mimetype) []).

Definition transfer_encoding (headers : list (bytes * bytes)) : bytes :=
  default (lit "7bit") (find_header (lit "content-transfer-encoding") headers).

(** One section of a multipart body. *)
Definition parse_part (section : bytes) : option (MimePart * (Cid * bytes)) :=
  if bool_decide (section = []) then None
  else
    let '(part_header_bytes, part_body_bytes) := split_part_headers section in
    part_headers ← parse_headers part_header_bytes;
    let part_ct_value := default (lit "text/plain") (find_header (lit "content-type") part_headers) in
    let mimetype := (parse_content_type part_ct_value).1 in
    let is_binary := negb (eq_ignore_ascii_case (top_type mimetype) (lit "text")) in
    let decoded := (decode_body part_body_bytes (transfer_encoding part_headers)).1 in
    let '(decoded_cid, block_bytes) := make_raw_block decoded in
    Some (mkMimePart mimetype decoded_cid is_binary, (decoded_cid, block_bytes)).

Record ParsedMime := mkParsedMime { pm_node : MimeNode; pm_blocks : list (Cid * bytes) }.

(** [None] when [split_on_boundary] does not return, which
    [split_on_boundary_total] excludes. *)
Definition parse_multipart (content_type_value boundary body_bytes : bytes) : option ParsedMime :=
  let delimiter := lit "--" ++ boundary in
  let end_delimiter := lit "--" ++ boundary ++ lit "--" in
  sections ← split_on_boundary body_bytes delimiter end_delimiter;
  let parts := omap parse_part (take MAX_MIME_PARTS (drop 1 sections)) in
  Some (mkParsedMime (Multipart (mkMultipart content_type_value parts.*1)) parts.*2).

Definition parse_mime (header_bytes body_bytes : bytes) : option ParsedMime :=
  headers ← parse_headers header_bytes;
  content_type_value ← find_header (lit "content-type") headers;
  let '(mimetype, params) := parse_content_type content_type_value in
  if bool_decide (top_type mimetype = lit "multipart") then
    parse_multipart content_type_value (default [] (params !! lit "boundary")) body_bytes
  else
    let is_binary := negb (eq_ignore_ascii_case (top_type mimetype) (lit "text")) in
    let '(decoded, cte_canonical) := decode_body body_bytes (transfer_encoding headers) in
    let '(decoded_cid, block_bytes) := make_raw_block decoded in
    Some (mkParsedMime (SinglePart (mkSinglePart mimetype cte_canonical decoded_cid is_binary))
            [(decoded_cid, block_bytes)]).

(** ** The block set *)

Inductive BuildError := CborEncode (msg : bytes).

Record BuiltArticle := mkBuilt {
  root_cid : Cid;
  built_blocks : list (Cid * bytes);
  root_node : ArticleRootNode
}.

Definition mime_part (header_bytes body_bytes : bytes) : result BuildError (option Cid * list (Cid * bytes)) :=
  match parse_mime header_bytes body_bytes with
  | None => Ok (None, [])
  | Some p =>
      mime_bytes ← map_err CborEncode (mime_encode (pm_node p));
      let cid := dag_cbor_cid mime_bytes in
      Ok (Some cid, (cid, mime_bytes) :: pm_blocks p)
  end.

Definition build_article (header_bytes body_bytes message_id : bytes) (newsgroups : list bytes)
    (hlc_timestamp : Z) (operator_signature : bytes) : result BuildError BuiltArticle :=
  let '(header_cid, header_block_bytes) := header_block header_bytes in
  let '(body_cid, body_block_bytes) := body_block body_bytes in
  header_map_bytes ← map_err CborEncode (header_map_encode (build_header_map header_bytes));
  let header_map_cid := dag_cbor_cid header_map_bytes in
  '(mime_cid, mime_blocks) ← mime_part header_bytes body_bytes;
  let metadata :=
    compute_metadata header_bytes body_bytes message_id newsgroups hlc_timestamp operator_signature in
  let node := mkRoot SCHEMA_VERSION header_cid (Some header_map_cid) body_cid mime_cid metadata in
  root_bytes ← map_err CborEncode (root_encode node);
  let root_cid := dag_cbor_cid root_bytes in
  Ok (mkBuilt root_cid
        ([(root_cid, root_bytes); (header_cid, header_block_bytes); (header_map_cid, header_map_bytes);
          (body_cid, body_block_bytes)] ++ mime_blocks) node).

(** ** Splitting a multipart body *)

Lemma find_subsequence_bound hay needle i :
  find_subsequence hay needle = Some i → (i + length needle <= length hay)%nat.
Proof.
  revert i. induction hay as [|c hay IH]; intros i; cbn [find_subsequence].
  - destruct (starts_with [] needle) eqn:E; [|done]. intros [= <-]. apply starts_with_spec in E as [r E].
    symmetry in E. by apply app_nil in E as [-> ->].
  - destruct (starts_with (c :: hay) needle) eqn:E.
    + intros [= <-]. apply starts_with_spec in E as [r E]. rewrite E, length_app. lia.
    + destruct (find_subsequence hay needle) as [j|]; [|done]. cbn. intros [= <-]. specialize (IH j eq_refl). lia.
Qed.

Lemma find_from_bound body d from pos :
  d ≠ [] → find_from body d from = Some pos → (from <= pos < length body)%nat.
Proof.
  unfold find_from. intros Hd. destruct (find_subsequence (drop from body) d) as [i|] eqn:E; [|done]. cbn.
  intros [= <-]. apply find_subsequence_bound in E. rewrite length_drop in E.
  destruct d; [done|]. cbn in E. lia.
Qed.

Lemma mime_line_end_bound body pos :
  (pos < length body)%nat → (pos < mime_line_end body pos <= length body)%nat.
Proof.
  intros Hp. unfold mime_line_end. destruct (find_subsequence (drop pos body) [LF]) as [i|] eqn:E; [|lia].
  apply find_subsequence_bound in E. rewrite length_drop in E. cbn in E. lia.
Qed.

Lemma split_loop_total body d e fuel start from result :
  d ≠ [] → (from <= length body)%nat → (length body - from < fuel)%nat →
  is_Some (split_loop fuel body d e start from result).
Proof.
  intros Hd. revert start from result. induction fuel as [|fuel IH]; intros start from result Hf Hfuel; [lia|].
  cbn [split_loop]. destruct (find_from body d from) as [pos|] eqn:E; [|done].
  apply find_from_bound in E; [|done]. cbv zeta. break_if; [apply IH; lia|].
  destruct (starts_with _ _); [done|]. pose proof (mime_line_end_bound body pos ltac:(lia)). apply IH; lia.
Qed.

Lemma split_total body d e : d ≠ [] → is_Some (split_on_boundary body d e).
Proof. intros Hd. apply split_loop_total; [done|lia|lia]. Qed.

(** A body of the given parts, each line of the boundary in place. *)
Definition multipart_body (d : bytes) (parts : list bytes) (epilogue : bytes) : bytes :=
  concat ((λ p, d ++ CRLF ++ p ++ CRLF) <$> parts) ++ d ++ lit "--" ++ epilogue.

(** A part that does not hold the delimiter. *)
Definition part_ok (d p : bytes) : Prop := find_subsequence (p ++ CRLF) d = None.

Lemma starts_with_prefix d (x r : bytes) : LF ∉ d → starts_with (x ++ LF :: r) d = true → starts_with (x ++ [LF]) d = true.
Proof.
  intros Hd [t Ht]%starts_with_spec. apply starts_with_spec.
  destruct (decide (length d <= length x)%nat) as [Hl|Hl].
  - exists (drop (length d) x ++ [LF]). apply (f_equal (take (length d))) in Ht.
    rewrite take_app_le, take_app_length in Ht by lia. rewrite app_assoc, <- Ht at 1. by rewrite take_drop.
  - exfalso. apply Hd. apply (f_equal (λ l : bytes, l !! length x)) in Ht.
    rewrite lookup_app_r, Nat.sub_diag in Ht by lia. rewrite lookup_app_l in Ht by lia.
    cbn in Ht. by eapply list_elem_of_lookup_2.
Qed.

Lemma find_at_start d r : d ≠ [] → find_subsequence (d ++ r) d = Some 0%nat.
Proof.
  intros Hne. assert (Hs : starts_with (d ++ r) d = true) by (apply starts_with_spec; eauto).
  destruct d as [|a d]; [done|]. cbn [app] in *. rewrite find_cons. by rewrite Hs.
Qed.

Lemma find_after_line d x r :
  d ≠ [] → LF ∉ d → find_subsequence (x ++ [LF]) d = None →
  find_subsequence (x ++ LF :: d ++ r) d = Some (length x + 1)%nat.
Proof.
  intros Hne Hd. induction x as [|c x IH]; intros Hn.
  - cbn [app find_subsequence]. assert (starts_with (LF :: d ++ r) d = false) as ->.
    { destruct d as [|a d]; [done|]. apply not_elem_of_cons in Hd as [Ha _]. cbn.
      by rewrite (proj2 (Z.eqb_neq a LF)) by congruence. }
    by rewrite find_at_start.
  - cbn [app find_subsequence] in Hn |- *.
    destruct (starts_with (c :: x ++ LF :: d ++ r) d) eqn:E.
    + apply (starts_with_prefix d (c :: x)) in E; [|done]. cbn [app] in E. by rewrite E in Hn.
    + destruct (starts_with (c :: x ++ [LF]) d); [done|].
      destruct (find_subsequence (x ++ [LF]) d); [done|]. by rewrite IH.
Qed.

Lemma find_lf d r : LF ∉ d → find_subsequence (d ++ LF :: r) [LF] = Some (length d).
Proof.
  induction d as [|c d IH]; intros Hd; [done|]. apply not_elem_of_cons in Hd as [Hc Hd].
  cbn [app find_subsequence starts_with]. rewrite (proj2 (Z.eqb_neq LF c)) by congruence. cbn [andb]. by rewrite IH.
Qed.

Lemma trim_part p : trim_trailing_crlf (p ++ CRLF) = p.
Proof.
  unfold trim_trailing_crlf. change (p ++ CRLF) with (p ++ [CR] ++ [LF]). rewrite app_assoc.
  rewrite (proj2 (strip_suffix_Some [LF] _ _) eq_refl). cbn [from_option id]. cbv zeta.
  by rewrite (proj2 (strip_suffix_Some [CR] _ _) eq_refl).
Qed.

(** One part: from behind a delimiter line to the next delimiter. *)
Lemma part_found d pre p z :
  d ≠ [] → LF ∉ d → part_ok d p →
  let body := pre ++ (p ++ CRLF) ++ d ++ z in
  let pos := (length pre + (length p + 2))%nat in
  find_from body d (length pre) = Some pos ∧ body !! (pos - 1)%nat = Some LF ∧
  slice (length pre) pos body = p ++ CRLF ∧ drop pos body = d ++ z.
Proof.
  intros Hne Hd Hp body pos.
  assert (Hlen : length (p ++ CRLF) = (length p + 2)%nat) by (by rewrite length_app).
  split_and!.
  - unfold find_from, body. rewrite drop_app_length.
    replace ((p ++ CRLF) ++ d ++ z) with ((p ++ [CR]) ++ LF :: d ++ z) by (by rewrite <- !app_assoc).
    unfold part_ok in Hp. change (p ++ CRLF) with (p ++ [CR] ++ [LF]) in Hp. rewrite app_assoc in Hp.
    rewrite (find_after_line d (p ++ [CR])) by done. cbn. f_equal. rewrite length_app. unfold pos. cbn. lia.
  - unfold body, pos. rewrite lookup_app_r by lia.
    replace (length pre + (length p + 2) - 1 - length pre)%nat with (length p + 1)%nat by lia.
    rewrite lookup_app_l by (rewrite Hlen; lia). rewrite lookup_app_r by lia.
    by replace (length p + 1 - length p)%nat with 1%nat by lia.
  - unfold slice, body, pos. rewrite drop_app_length.
    replace (length pre + (length p + 2) - length pre)%nat with (length (p ++ CRLF)) by lia. apply take_app_length.
  - unfold body, pos. rewrite (app_assoc pre), <- Hlen, <- length_app. apply drop_app_length.
Qed.

Lemma mime_line_end_crlf pre d z : LF ∉ d →
  mime_line_end (pre ++ d ++ CRLF ++ z) (length pre) = length (pre ++ d ++ CRLF).
Proof.
  intros Hd. unfold mime_line_end. rewrite drop_app_length.
  change (d ++ CRLF ++ z) with (d ++ [CR] ++ LF :: z). rewrite app_assoc, find_lf.
  - rewrite !length_app. cbn. lia.
  - rewrite not_elem_of_app, list_elem_of_singleton. by split.
Qed.

Lemma end_delimiter_not d z : starts_with (d ++ CRLF ++ z) (d ++ lit "--") = false.
Proof.
  apply not_true_iff_false. intros [r Hr]%starts_with_spec. rewrite <- app_assoc in Hr.
  apply app_inv_head in Hr. done.
Qed.

(** From behind a delimiter line, the loop gives the remaining parts. *)
Lemma split_loop_parts d epilogue parts :
  d ≠ [] → LF ∉ d → Forall (part_ok d) parts → ∀ p fuel pre result r,
  part_ok d p →
  split_loop fuel (pre ++ (p ++ CRLF) ++ multipart_body d parts epilogue) d (d ++ lit "--")
    (length pre) (length pre) result = Some r →
  r = result ++ p :: parts.
Proof.
  intros Hne Hd. induction 1 as [|q parts Hq Hparts IH]; intros p fuel pre result r Hp; destruct fuel as [|fuel];
    try done; cbn [split_loop].
  - unfold multipart_body. cbn [fmap list_fmap concat app].
    destruct (part_found d pre p (lit "--" ++ epilogue) Hne Hd Hp) as (-> & Hlf & Hs & Hdr). cbv zeta.
    rewrite Hlf, bool_decide_eq_true_2, orb_true_r by done. cbn [negb]. rewrite Hs, Hdr, trim_part.
    rewrite (proj2 (starts_with_spec _ _)); [by intros [= <-]|]. exists epilogue. by rewrite <- app_assoc.
  - unfold multipart_body. rewrite fmap_cons. cbn [concat].
    rewrite <- !app_assoc. set (z := CRLF ++ q ++ CRLF ++ concat ((λ p, d ++ CRLF ++ p ++ CRLF) <$> parts) ++ d ++ lit "--" ++ epilogue).
    replace (p ++ CRLF ++ d ++ z) with ((p ++ CRLF) ++ d ++ z) by (by rewrite <- app_assoc).
    destruct (part_found d pre p z Hne Hd Hp) as (-> & Hlf & Hs & Hdr). cbv zeta.
    rewrite Hlf, bool_decide_eq_true_2, orb_true_r by done. cbn [negb]. rewrite Hs, Hdr, trim_part.
    unfold z at 1. rewrite end_delimiter_not. intros Hr.
    replace (pre ++ (p ++ CRLF) ++ d ++ z) with
      ((pre ++ p ++ CRLF) ++ d ++ CRLF ++ (q ++ CRLF) ++ multipart_body d parts epilogue) in Hr
      by (unfold z, multipart_body; by rewrite <- !app_assoc).
    replace (length pre + (length p + 2))%nat with (length (pre ++ p ++ CRLF)) in Hr
      by (rewrite !length_app; done).
    rewrite mime_line_end_crlf in Hr by done.
    replace ((pre ++ p ++ CRLF) ++ d ++ CRLF ++ (q ++ CRLF) ++ multipart_body d parts epilogue) with
      (((pre ++ p ++ CRLF) ++ d ++ CRLF) ++ (q ++ CRLF) ++ multipart_body d parts epilogue) in Hr
      by (by rewrite <- !app_assoc).
    apply IH in Hr; [|done]. by rewrite Hr, <- app_assoc.
Qed.

(** Splitting a multipart body gives back its parts: when no part holds the
    delimiter and the boundary has no newline, [split_on_boundary] returns the
    empty preamble and the parts, byte for byte, whatever follows the closing
    delimiter; and on any body it returns. *)
Theorem split_on_boundary_parts :
  (∀ body boundary end_delimiter, is_Some (split_on_boundary body (lit "--" ++ boundary) end_delimiter)) ∧
  ∀ boundary parts epilogue,
    LF ∉ boundary → parts ≠ [] → Forall (part_ok (lit "--" ++ boundary)) parts →
    split_on_boundary (multipart_body (lit "--" ++ boundary) parts epilogue)
      (lit "--" ++ boundary) (lit "--" ++ boundary ++ lit "--") = Some ([] :: parts).
Proof.
  split; [intros; by apply split_total|]. intros b [|p parts] epilogue Hb Hn Hparts; [done|].
  set (d := lit "--" ++ b) in *. assert (Hne : d ≠ []) by done.
  assert (Hd : LF ∉ d) by (unfold d; rewrite not_elem_of_app; split; [by apply (bool_decide_eq_true_1 _)|done]).
  change (lit "--" ++ b ++ lit "--") with (d ++ lit "--").
  destruct (split_total (multipart_body d (p :: parts) epilogue) d (d ++ lit "--") Hne) as [r Hr].
  rewrite Hr. f_equal. apply Forall_cons in Hparts as [Hp Hparts].
  unfold split_on_boundary in Hr. rewrite Nat.add_succ_r in Hr. cbn [split_loop] in Hr.
  set (rest := (p ++ CRLF) ++ multipart_body d parts epilogue).
  assert (Hbody : multipart_body d (p :: parts) epilogue = d ++ CRLF ++ rest)
    by (unfold multipart_body, rest; rewrite fmap_cons; cbn [concat]; by rewrite <- !app_assoc).
  rewrite Hbody in Hr. unfold find_from in Hr at 1. rewrite drop_0 in Hr.
  rewrite find_at_start in Hr by done. cbn [fmap option_fmap option_map Nat.add Nat.eqb orb negb] in Hr. cbv zeta in Hr.
  rewrite drop_0, end_delimiter_not in Hr.
  rewrite (mime_line_end_crlf [] d rest Hd : mime_line_end (d ++ CRLF ++ rest) 0 = length (d ++ CRLF)) in Hr.
  replace (d ++ CRLF ++ rest) with ((d ++ CRLF) ++ rest) in Hr by (by rewrite <- app_assoc).
  apply (split_loop_parts d epilogue parts) in Hr; [|done..]. by rewrite Hr.
Qed.

(** ** Block sets *)

(** The CIDs a root node links to. *)
Definition links (n : ArticleRootNode) : list Cid :=
  [header_cid n; body_cid n] ++ option_list (header_map_cid n) ++ option_list (mime_cid n).

(** A block under the CID of its content. *)
Definition addressed (cb : Cid * bytes) : Prop :=
  cid_digest cb.1 = sha256 cb.2 ∧ (cid_codec cb.1 = CODEC_RAW ∨ cid_codec cb.1 = CODEC_DAG_CBOR).

Lemma length_omap {A B} (f : A → option B) l : (length (omap f l) <= length l)%nat.
Proof. induction l as [|x l IH]; [done|]. cbn [omap list_omap]. destruct (f x); cbn; lia. Qed.

Section BlockLaws.
Context {laws : CidLaws lib}.

Lemma raw_addressed data : addressed (raw_block data).
Proof. unfold addressed. cbn. rewrite cid_new_v1_digest, cid_new_v1_codec. auto. Qed.

Lemma dag_cbor_addressed b : addressed (dag_cbor_cid b, b).
Proof. unfold addressed. cbn. unfold dag_cbor_cid. rewrite cid_new_v1_digest, cid_new_v1_codec. auto. Qed.

Lemma part_addressed section p b : parse_part section = Some (p, b) → addressed b.
Proof.
  unfold parse_part. case_bool_decide; [done|]. destruct (split_part_headers section) as [ph pb].
  destruct (parse_headers ph); [|done]. cbn [mbind option_bind]. intros [= _ <-]. apply raw_addressed.
Qed.

Lemma mime_blocks_ok h b p :
  parse_mime h b = Some p → Forall addressed (pm_blocks p) ∧ (length (pm_blocks p) <= MAX_MIME_PARTS)%nat.
Proof.
  unfold parse_mime. destruct (parse_headers h) as [hs|]; [|done]. cbn [mbind option_bind].
  destruct (find_header _ hs) as [ct|]; [|done]. cbn [mbind option_bind].
  destruct (parse_content_type ct) as [mt params]. case_bool_decide.
  - unfold parse_multipart. destruct (split_on_boundary _ _ _) as [secs|]; [|done]. cbn [mbind option_bind].
    intros [= <-]. cbn [pm_blocks]. split.
    + apply Forall_forall. intros cb Hin. apply list_elem_of_fmap in Hin as ([p0 cb0] & -> & Hin).
      apply list_elem_of_omap in Hin as (sec & _ & Hsec). by eapply part_addressed.
    + rewrite length_fmap. etrans; [apply length_omap|]. rewrite length_take. lia.
  - destruct (decode_body _ _) as [dec cte]. intros [= <-]. cbn [pm_blocks]. split.
    + apply Forall_singleton, raw_addressed.
    + cbn. unfold MAX_MIME_PARTS. lia.
Qed.

Lemma mime_part_ok h b mc blocks :
  mime_part h b = Ok (mc, blocks) →
  Forall addressed blocks ∧ (length blocks <= 1 + MAX_MIME_PARTS)%nat ∧ (∀ c, mc = Some c → c ∈ blocks.*1).
Proof.
  unfold mime_part. destruct (parse_mime h b) as [p|] eqn:E.
  - apply mime_blocks_ok in E as [Ha Hl]. destruct (mime_encode (pm_node p)) as [mb|e]; [|done]. cbn.
    intros [= <- <-]. split_and!; [constructor; [apply dag_cbor_addressed|done]|cbn; lia|].
    intros c [= <-]. by left.
  - intros [= <- <-]. split_and!; [constructor|cbn; lia|done].
Qed.

(** What [build_article] returns when it succeeds. *)
Lemma build_article_inv h b mid ng ts sig a :
  build_article h b mid ng ts sig = Ok a →
  ∃ hmb mc mime_blocks rb,
    header_map_encode (build_header_map h) = Ok hmb ∧ mime_part h b = Ok (mc, mime_blocks) ∧
    root_node a = mkRoot SCHEMA_VERSION (raw_block h).1 (Some (dag_cbor_cid hmb)) (raw_block b).1 mc
                    (compute_metadata h b mid ng ts sig) ∧
    root_encode (root_node a) = Ok rb ∧ root_cid a = dag_cbor_cid rb ∧
    built_blocks a = [(dag_cbor_cid rb, rb); raw_block h; (dag_cbor_cid hmb, hmb); raw_block b] ++ mime_blocks.
Proof.
  unfold build_article. cbn [header_block body_block raw_block].
  destruct (header_map_encode (build_header_map h)) as [hmb|e]; [|done]. cbn [map_err mbind result_bind].
  destruct (mime_part h b) as [[mc mbs]|e]; [|done]. cbn [mbind result_bind].
  set (n := mkRoot _ _ _ _ _ _). destruct (root_encode n) as [rb|e] eqn:Er; [|done]. cbn [map_err mbind result_bind].
  intros [= <-]. exists hmb, mc, mbs, rb. by split_and!.
Qed.

(** What a reader of the blocks relies on. *)
Lemma block_set_wellformed h b mid ng ts sig a :
  build_article h b mid ng ts sig = Ok a →
  Forall addressed (built_blocks a) ∧
  (∃ rb, root_encode (root_node a) = Ok rb ∧ (root_cid a, rb) ∈ built_blocks a) ∧
  (header_cid (root_node a), h) ∈ built_blocks a ∧ (body_cid (root_node a), b) ∈ built_blocks a ∧
  md_newsgroups (metadata (root_node a)) = ng.
Proof.
  intros (hmb & mc & mbs & rb & _ & Hm & Hn & Hr & Hc & Hb)%build_article_inv.
  apply mime_part_ok in Hm as (Hma & _ & _). rewrite Hn in Hr. rewrite Hb, Hc, Hn. clear Hb Hc Hn.
  split_and!.
  - apply Forall_app. split; [|done]. rewrite !Forall_cons. split_and!; auto using raw_addressed, dag_cbor_addressed.
  - exists rb. split; [done|]. by left.
  - right. by left.
  - do 3 right. by left.
  - done.
Qed.

(** Whatever headers and body it is given, the block set [build_article]
    returns is well formed: at most 105 blocks, each stored under the CID of its
    content with the raw or the DAG-CBOR codec; the root's CID has the DAG-CBOR
    codec and its block is the encoded root node; the header and body blocks
    are the input bytes; every CID the root node links to is in the set; and
    the byte and line counts are those of the input. *)
Theorem built_article_wellformed h b mid ng ts sig a :
  build_article h b mid ng ts sig = Ok a →
  Forall addressed (built_blocks a) ∧ (length (built_blocks a) <= 105)%nat ∧
  cid_codec (root_cid a) = CODEC_DAG_CBOR ∧
  (∃ rb, root_encode (root_node a) = Ok rb ∧ (root_cid a, rb) ∈ built_blocks a) ∧
  (header_cid (root_node a), h) ∈ built_blocks a ∧ (body_cid (root_node a), b) ∈ built_blocks a ∧
  (∀ c, c ∈ links (root_node a) → c ∈ (built_blocks a).*1) ∧
  md_byte_count (metadata (root_node a)) = Z.of_nat (length (h ++ b)) ∧
  md_line_count (metadata (root_node a)) = Z.of_nat (length (List.filter (Z.eqb LF) b)).
Proof.
  intros Hb. pose proof (block_set_wellformed _ _ _ _ _ _ _ Hb) as (Ha & Hroot & Hh & Hbd & _).
  apply build_article_inv in Hb as (hmb & mc & mbs & rb & _ & Hm & Hn & _ & Hc & Hb).
  apply mime_part_ok in Hm as (_ & Hml & Hmc). split_and!; [done| | |done..| | |].
  - rewrite Hb, length_app. cbn. unfold MAX_MIME_PARTS in Hml. lia.
  - rewrite Hc. apply cid_new_v1_codec.
  - intros c Hin. rewrite Hn in Hin. rewrite Hb, fmap_app. apply elem_of_app.
    apply elem_of_cons in Hin as [->|Hin]; [left; right; by left|].
    apply elem_of_cons in Hin as [->|Hin]; [left; do 3 right; by left|].
    apply elem_of_cons in Hin as [->|Hin]; [left; do 2 right; by left|].
    right. apply Hmc. destruct mc; [|by apply not_elem_of_nil in Hin]. by apply list_elem_of_singleton in Hin as ->.
  - rewrite Hn. cbn. unfold compute_byte_count. rewrite length_app. lia.
  - by rewrite Hn.
Qed.

(** The canonical CID identifies an article's headers and body and the
    place where they are divided: two pairs that have the same one are equal,
    or their framed bytes are a collision of SHA-256. *)
Theorem canonical_cid_binds h b h' b' c :
  cid_for_article h b = Some c → cid_for_article h' b' = Some c →
  (h = h' ∧ b = b') ∨
  collision (be_bytes 4 (Z.of_nat (length h)) ++ h ++ b) (be_bytes 4 (Z.of_nat (length h')) ++ h' ++ b').
Proof.
  unfold cid_for_article. repeat (case_match; [done|]). to_prop. intros [= <-] [= E].
  apply (f_equal cid_digest) in E. rewrite !cid_new_v1_digest in E.
  set (x := be_bytes 4 (Z.of_nat (length h)) ++ h ++ b) in *.
  set (y := be_bytes 4 (Z.of_nat (length h')) ++ h' ++ b') in *.
  destruct (decide (x = y)) as [Hxy|Hne]; [left|right; by split].
  apply app_inj_1 in Hxy as [Hl Hr]; [|by rewrite !length_be_bytes].
  apply be_bytes_inj in Hl; [|unfold u32_max in *; lia..]. apply app_inj_1 in Hr as [-> ->]; [done|lia].
Qed.

End BlockLaws.

End Build.
End Nodes.

(** Nodes encoded as numbers. *)
Module IpldSamples.
Import ToyCrypto HeaderSample.

Definition root_tuple (n : @ArticleRootNode toy_cid) :=
  (schema_version n, header_cid n, header_map_cid n, body_cid n, mime_cid n,
   (md_message_id (metadata n), md_newsgroups (metadata n), md_hlc_timestamp (metadata n),
    md_operator_signature (metadata n), md_byte_count (metadata n), md_line_count (metadata n),
    md_content_type_summary (metadata n))).

Definition tuple_root t : @ArticleRootNode toy_cid :=
  let '(v, hc, hmc, bc, mc, (mid, ng, ts, sig, bs, ls, ct)) := t in
  mkRoot v hc hmc bc mc (mkMetadata mid ng ts sig bs ls ct).

#[export] Instance toy_ipld : IpldLib (lib := toy_cid) := {|
  root_encode n := Ok [Z.pos (encode (root_tuple n))];
  root_decode b :=
    match b with
    | [Z.pos p] => match decode p with Some t => Ok (tuple_root t) | None => Err (lit "cbor") end
    | _ => Err (lit "cbor")
    end;
  header_map_encode _ := Ok [1];
  mime_encode _ := Ok [2];
  parse_content_type v := (nth 0 (split 59 v) [], {[ lit "boundary" := lit "b" ]});
  rfc2822_to_rfc3339 _ := None;
  qp_decode _ := None;
  b64_standard_decode _ := None
|}.

#[export] Instance toy_ipld_laws : IpldLaws toy_ipld.
Proof.
  split. intros n b [= <-] _. cbn [root_decode toy_ipld]. rewrite decode_encode. by destruct n as [? ? ? ? ? []].
Qed.

Definition sample_head : bytes := lit "Subject: x" ++ CRLF ++ lit "Content-Type: multipart/mixed; boundary=b".
Definition sample_parts : list bytes := [lit "Content-Type: text/plain" ++ CRLF2 ++ lit "one"; lit "two"].

Lemma built_article_witness :
  ∃ a, build_article sample_head (multipart_body (lit "--b") sample_parts (lit "end")) (lit "<1@x>")
         [lit "a.b"] 7 [] = Ok a ∧
    Forall addressed (built_blocks a) ∧ cid_codec (root_cid a) = CODEC_DAG_CBOR.
Proof.
  destruct (build_article sample_head (multipart_body (lit "--b") sample_parts (lit "end")) (lit "<1@x>")
    [lit "a.b"] 7 []) as [a|e] eqn:E; [|discriminate E].
  exists a. split; [done|]. by apply built_article_wellformed in E as (H1 & _ & H2 & _).
Defined.

Lemma split_on_boundary_witness :
  split_on_boundary (multipart_body (lit "--b") sample_parts (lit "end")) (lit "--b") (lit "--b--") =
    Some ([] :: sample_parts).
Proof.
  apply (proj2 split_on_boundary_parts (lit "b") sample_parts (lit "end"));
    [by apply (bool_decide_eq_true_1 _)|done|]. repeat constructor.
Defined.

Lemma canonical_cid_witness : lit "ab" = lit "ab" ∧ lit "c" = lit "c".
Proof.
  destruct (cid_for_article (lib := toy_cid) (lit "ab") (lit "c")) as [c|] eqn:E; [|discriminate E].
  by destruct (canonical_cid_binds (lit "ab") (lit "c") (lit "ab") (lit "c") c E E) as [H|[H _]].
Defined.

End IpldSamples.

End Ipld.
