(* ===== verification/ReaderStore.v ===== *)
(** Where the reader keeps articles: the trait [IpfsBlockStore], its in-memory
    implementation and the two write functions of
    [crates/reader/src/post/ipfs_write.rs], and [fetch_article_wire_bytes] of
    [lifecycle.rs], which puts an article together again.

    The functions are proved against [BlockStoreLaws] and [MsgIdLaws]; the
    in-memory store satisfies the former.  The texts of responses leave out the
    errors the code interpolates. *)

From S2P Require Import Prelude Bytes Utf8 Wildmat Article Validation Headers Util Crypto BlockStore LogEntry Sql SqliteStorage MsgIdMap Overview NntpResponse Injection PostChecks Ipld.

Module ReaderStore.
Import Article Headers LogEntry MsgIdMap NntpResponse Injection PostChecks Ipld.

Inductive IpfsWriteError :=
| NotReachable (msg : bytes)
| WriteFailed (msg : bytes)
| ReadFailed (msg : bytes)
| NotFound (msg : bytes).

Section Store.
Context {lib : CidLib}.

Class IpfsBlockStore (I : Type) := {
  put_raw : bytes → prog I IpfsWriteError Cid;
  put_block : Cid → bytes → prog I IpfsWriteError ();
  get_raw : Cid → prog I IpfsWriteError bytes;
  delete : Cid → prog I IpfsWriteError BlockStore.DeletionOutcome
}.

(** The default body of [delete]. *)
Definition deferred_delete {I} (cid : Cid) : prog I IpfsWriteError BlockStore.DeletionOutcome :=
  mret (BlockStore.Deferred None).

Class BlockStoreView (I : Type) := {
  held : I → gmap Cid bytes;
  sound : I → Prop;
  dependable : I → Prop
}.

(** What the pipeline relies on: a block written under the CID of its content
    is held, nothing else changes, and a failure means an undependable store. *)
Class BlockStoreLaws (I : Type) `{BlockStoreView I} `{IpfsBlockStore I} : Prop := {
  put_raw_ok data s : sound s →
    match put_raw data s with
    | (Ok c, s') => sound s' ∧ c = (raw_block data).1 ∧ held s' = <[ c := data ]> (held s) ∧
                    (dependable s → dependable s')
    | (Err _, s') => sound s' ∧ held s' = held s ∧ ¬ dependable s
    end;
  put_block_ok c data s : sound s → addressed (c, data) →
    match put_block c data s with
    | (Ok _, s') => sound s' ∧ held s' = <[ c := data ]> (held s) ∧ (dependable s → dependable s')
    | (Err _, s') => sound s' ∧ held s' = held s ∧ ¬ dependable s
    end;
  get_raw_ok c s : sound s →
    match get_raw c s with
    | (Ok d, s') => sound s' ∧ held s !! c = Some d ∧ held s' = held s ∧ (dependable s → dependable s')
    | (Err _, s') => sound s' ∧ held s' = held s ∧ (dependable s → dependable s' ∧ held s !! c = None)
    end
}.

(** ** [MemIpfsStore] *)

(** [RwLock<HashMap<Vec<u8>, Vec<u8>>>], keyed by [cid.to_bytes()]. *)
Record MemIpfsStore := mkMem { mem_held : gmap bytes bytes }.

Definition mem_put_raw (data : bytes) : prog MemIpfsStore IpfsWriteError Cid := λ s,
  let cid := cid_new_v1 0x55 0x12 (sha256 data) in
  (Ok cid, mkMem (<[ cid_to_bytes cid := data ]> (mem_held s))).

Definition mem_put_block (cid : Cid) (data : bytes) : prog MemIpfsStore IpfsWriteError () := λ s,
  (Ok tt, mkMem (<[ cid_to_bytes cid := data ]> (mem_held s))).

Definition mem_get_raw (cid : Cid) : prog MemIpfsStore IpfsWriteError bytes := λ s,
  (match mem_held s !! cid_to_bytes cid with Some d => Ok d | None => Err (NotFound (cid_to_string cid)) end, s).

#[export] Instance mem_store : IpfsBlockStore MemIpfsStore :=
  {| put_raw := mem_put_raw; put_block := mem_put_block; get_raw := mem_get_raw; delete := deferred_delete |}.

#[export] Instance mem_view : BlockStoreView MemIpfsStore := {|
  held s := BlockStore.keyed_blocks cid_to_bytes cid_try_from (mem_held s);
  sound _ := True;
  dependable _ := True
|}.

#[export] Instance mem_store_laws `{!CidLaws lib} : BlockStoreLaws MemIpfsStore.
Proof.
  split.
  - intros data s _. cbv [put_raw mem_store mem_put_raw]. split_and!; [done|done| |done].
    apply BlockStore.keyed_blocks_insert, cid_roundtrip.
  - intros c data s _ _. cbv [put_block mem_store mem_put_block]. split_and!; [done| |done].
    apply BlockStore.keyed_blocks_insert, cid_roundtrip.
  - intros c s _. cbv [get_raw mem_store mem_get_raw]. cbn [held mem_view].
    rewrite BlockStore.keyed_blocks_lookup by apply cid_roundtrip.
    by destruct (mem_held s !! cid_to_bytes c).
Qed.

(** ** Writing *)

Section Write.
Context {I M : Type} {store : IpfsBlockStore I} {mids : MsgIdStore M}.
Context {hlib : HeaderLib} {ipld : IpldLib}.

Definition on_store {E A} (f : IpfsWriteError → E) (m : prog I IpfsWriteError A) : prog (I * M) E A := λ s,
  let '(r, i) := m s.1 in (map_err f r, (i, s.2)).

Definition on_msgids {E A} (f : StorageError → E) (m : prog M StorageError A) : prog (I * M) E A := λ s,
  let '(r, m') := m s.2 in (map_err f r, (s.1, m')).

Definition DUPLICATE : Response := new 441 (lit "Duplicate article: Message-ID already known").

(** The lookup both write functions start with. *)
Definition refuse_known (message_id : bytes) : prog (I * M) Response () :=
  known ← on_msgids (λ _, new 500 (lit "Internal error: storage lookup failed")) (lookup_by_msgid message_id);
  match known with Some _ => throw DUPLICATE | None => mret tt end.

Definition write_error (_ : IpfsWriteError) : Response := new 441 (lit "Posting failed: IPFS write error").
Definition record_error (_ : StorageError) : Response := new 441 (lit "Posting failed: storage error").

Definition write_article_to_ipfs (article_bytes message_id : bytes) : prog (I * M) Response Cid :=
  _ ← refuse_known message_id;
  cid ← on_store write_error (put_raw article_bytes);
  _ ← on_msgids record_error (msgid_insert message_id cid);
  mret cid.

Fixpoint put_blocks (blocks : list (Cid * bytes)) : prog I IpfsWriteError () :=
  match blocks with
  | [] => mret tt
  | (cid, data) :: blocks' => _ ← put_block cid data; put_blocks blocks'
  end.

Definition write_ipld_article_to_ipfs (article_bytes message_id : bytes) (newsgroups : list bytes)
    (hlc_timestamp : Z) (operator_signature : bytes) : prog (I * M) Response Cid :=
  _ ← refuse_known message_id;
  let '(header_bytes, body_bytes) := split_header_body article_bytes in
  built ← lift (map_err (λ _, new 441 (lit "Posting failed: IPLD build error"))
                  (build_article header_bytes body_bytes message_id newsgroups hlc_timestamp operator_signature));
  _ ← on_store write_error (put_blocks (built_blocks built));
  _ ← on_msgids record_error (msgid_insert message_id (root_cid built));
  mret (root_cid built).

(** ** Reading *)

(** The error is the text of the message, without what is interpolated. *)
Definition fetch_article_wire_bytes (root_cid : Cid) : prog I bytes bytes :=
  root_bytes ← prog_map_err (λ _, lit "IPFS fetch root block") (get_raw root_cid);
  root ← lift (map_err (λ _, lit "DAG-CBOR decode ArticleRootNode") (root_decode root_bytes));
  header_bytes ← prog_map_err (λ _, lit "IPFS fetch header block") (get_raw (header_cid root));
  body_bytes ← prog_map_err (λ _, lit "IPFS fetch body block") (get_raw (body_cid root));
  mret (header_bytes ++ CRLF2 ++ body_bytes).

(** ** A stored article *)

(** No CID stands for two contents. *)
Definition functional (l : list (Cid * bytes)) : Prop := ∀ c d d', (c, d) ∈ l → (c, d') ∈ l → d = d'.

(** Two of the contents collide. *)
Definition contents_collide (l : list bytes) : Prop := Exists (λ x, Exists (collision x) l) l.

#[export] Instance contents_collide_dec l : Decision (contents_collide l).
Proof. unfold contents_collide, collision. apply _. Defined.

Lemma addressed_functional l : Forall addressed l → functional l ∨ contents_collide l.*2.
Proof.
  intros Hl. destruct (decide (contents_collide l.*2)) as [|Hn]; [by right|left]. intros c d d' Hd Hd'.
  destruct (decide (d = d')) as [|Hne]; [done|]. destruct Hn. rewrite Forall_forall in Hl.
  apply Exists_exists. exists d. split; [apply list_elem_of_fmap; by exists (c, d)|].
  apply Exists_exists. exists d'. split; [apply list_elem_of_fmap; by exists (c, d')|].
  split; [done|]. destruct (Hl _ Hd) as [H1 _], (Hl _ Hd') as [H2 _]. cbn in *. congruence.
Qed.

Definition hold_all (m : gmap Cid bytes) (l : list (Cid * bytes)) : gmap Cid bytes :=
  foldl (λ m cd, <[ cd.1 := cd.2 ]> m) m l.

Lemma hold_all_other m l c : c ∉ l.*1 → hold_all m l !! c = m !! c.
Proof.
  revert m. induction l as [|[c' d'] l IH]; intros m Hc; [done|]. cbn in Hc. apply not_elem_of_cons in Hc as [Hne Hc].
  cbn [hold_all foldl fst snd]. fold (hold_all (<[ c' := d' ]> m) l). rewrite IH by done. by apply lookup_insert_ne.
Qed.

Lemma hold_all_lookup m l c d : functional l → (c, d) ∈ l → hold_all m l !! c = Some d.
Proof.
  revert m. induction l as [|[c' d'] l IH]; intros m Hf Hin; [by apply not_elem_of_nil in Hin|].
  cbn [hold_all foldl fst snd]. fold (hold_all (<[ c' := d' ]> m) l).
  assert (Hf' : functional l) by (intros ? ? ? ? ?; eapply Hf; by right).
  destruct (decide (c ∈ l.*1)) as [Hc|Hc].
  - apply list_elem_of_fmap in Hc as ([c1 d1] & -> & Hin1). apply IH; [done|].
    by rewrite (Hf c1 d d1) by (done || by right).
  - rewrite hold_all_other by done. apply elem_of_cons in Hin as [[= -> ->]|Hin]; [by apply lookup_insert_eq|].
    destruct Hc. apply list_elem_of_fmap. by exists (c, d).
Qed.

Section Spec.
Context {iview : BlockStoreView I} {ilaws : BlockStoreLaws I} {mview : MsgIdView M} {mlaws : MsgIdLaws M}.
Context {laws : CidLaws lib} {ipldlaws : IpldLaws ipld}.

Lemma put_blocks_ok l s :
  sound s → Forall addressed l →
  match put_blocks l s with
  | (Ok _, s') => sound s' ∧ held s' = hold_all (held s) l ∧ (dependable s → dependable s')
  | (Err _, s') => sound s' ∧ ¬ dependable s
  end.
Proof.
  intros Hs Hl. revert s Hs. induction Hl as [|[c d] l Hcd _ IH]; intros s Hs; [done|].
  cbn [put_blocks]. unfold mbind, prog_bind. pose proof (put_block_ok c d s Hs Hcd) as Hp.
  destruct (put_block c d s) as [[[]|e] s1]; [|naive_solver]. destruct Hp as (Hs1 & Hh & Hd).
  specialize (IH s1 Hs1). destruct (put_blocks l s1) as [[[]|e] s2]; [|naive_solver].
  destruct IH as (Hs2 & Hh2 & Hd2). cbn [hold_all foldl fst snd]. rewrite Hh2, Hh. auto.
Qed.

Lemma get_held c d s :
  sound s → dependable s → held s !! c = Some d →
  ∃ s', get_raw c s = (Ok d, s') ∧ sound s' ∧ dependable s' ∧ held s' = held s.
Proof.
  intros Hs Hd Hh. pose proof (get_raw_ok c s Hs) as Hg. destruct (get_raw c s) as [[d'|e] s'].
  - destruct Hg as (Hs' & Hh' & Hsame & Hdep). rewrite Hh in Hh'. injection Hh' as <-. eauto 6.
  - destruct Hg as (_ & _ & Hno). destruct (Hno Hd) as [_ Hn]. congruence.
Qed.

(** Three blocks are an article. *)
Lemma fetch_held n rb h b root s :
  sound s → dependable s → root_decode rb = Ok n →
  held s !! root = Some rb → held s !! header_cid n = Some h → held s !! body_cid n = Some b →
  ∃ s', fetch_article_wire_bytes root s = (Ok (h ++ CRLF2 ++ b), s').
Proof.
  intros Hs Hd Hn Hr Hh Hb. unfold fetch_article_wire_bytes, mbind, prog_bind, prog_map_err, lift.
  destruct (get_held _ _ _ Hs Hd Hr) as (s1 & -> & Hs1 & Hd1 & E1). cbn [map_err]. rewrite Hn. cbn [map_err].
  destruct (get_held (header_cid n) h s1) as (s2 & -> & Hs2 & Hd2 & E2); [done|done|by rewrite E1|]. cbn [map_err].
  destruct (get_held (body_cid n) b s2) as (s3 & -> & _); [done|done|by rewrite E2, E1|]. by eexists.
Qed.

Lemma refuse_known_ok mid (i : I) (m : M) :
  msgid_inv m →
  match refuse_known mid (i, m) with
  | (Ok _, (i', m')) => i' = i ∧ msgid_inv m' ∧ msgids m' = msgids m ∧ (msgid_reliable m → msgid_reliable m') ∧
                        msgids m !! mid = None
  | (Err r, (i', m')) => i' = i ∧ msgid_inv m' ∧ msgids m' = msgids m ∧
                         ((r = DUPLICATE ∧ is_Some (msgids m !! mid)) ∨ (code r = 500 ∧ ¬ msgid_reliable m))
  end.
Proof.
  intros Hm. unfold refuse_known, on_msgids, mbind, prog_bind. cbn [fst snd].
  pose proof (lookup_by_msgid_ok mid m Hm) as Hl. unfold msgid_outcome in Hl.
  destruct (lookup_by_msgid mid m) as [[[c|]|e] m']; cbn [map_err].
  - destruct Hl as (Hm' & Hr & Hs & Hc). split_and!; [done|done|done|]. left. split; [done|]. by exists c.
  - destruct Hl as (Hm' & Hr & Hs & Hc). by split_and!.
  - destruct Hl as (Hm' & Hr & Hs & [[]|Hn]). split_and!; [done|done|done|]. by right.
Qed.

(** What is stored when a block set has been written, read back. *)
Lemma fetch_built i m h b mid ng ts sig a :
  build_article h b mid ng ts sig = Ok a → Forall (λ g, is_valid_group_name g = true) ng →
  sound i → held i = hold_all m (built_blocks a) → dependable i →
  contents_collide (built_blocks a).*2 ∨ ∃ i', fetch_article_wire_bytes (root_cid a) i = (Ok (h ++ CRLF2 ++ b), i').
Proof.
  intros Hb Hng Hs Hh Hd. pose proof (block_set_wellformed _ _ _ _ _ _ _ Hb) as Hwf.
  destruct Hwf as (Ha & (rb & Hrb & Hroot) & Hhd & Hbd & Hmd).
  destruct (addressed_functional _ Ha) as [Hf|]; [right|by left].
  assert (Hl : ∀ c d, (c, d) ∈ built_blocks a → held i !! c = Some d)
    by (intros; rewrite Hh; by apply hold_all_lookup).
  apply (fetch_held (root_node a) rb); auto. apply root_roundtrip; [done|]. by rewrite Hmd.
Qed.

Lemma msgid_insert_new mid c (m : M) :
  msgid_inv m → msgids m !! mid = None →
  match msgid_insert mid c m with
  | (Ok _, m') => msgid_inv m' ∧ (msgid_reliable m → msgid_reliable m') ∧ msgids m' = <[ mid := c ]> (msgids m)
  | (Err _, m') => msgid_inv m' ∧ msgids m' = msgids m ∧ ¬ msgid_reliable m
  end.
Proof.
  intros Hm Hn. pose proof (msgid_insert_ok mid c m Hm) as H. unfold msgid_outcome in H.
  destruct (msgid_insert mid c m) as [[[]|e] m']; [naive_solver|].
  destruct H as (? & _ & ? & [(d & _ & Hd)|?]); [congruence|auto].
Qed.

(** The outcomes of [write_ipld_article_to_ipfs]. *)
Lemma write_ipld_ok art mid ng ts sig i m r i' m' :
  sound i → msgid_inv m → Forall (λ g, is_valid_group_name g = true) ng →
  write_ipld_article_to_ipfs art mid ng ts sig (i, m) = (r, (i', m')) →
  sound i' ∧ msgid_inv m' ∧
  match r with
  | Ok cid => msgids m !! mid = None ∧ msgids m' = <[ mid := cid ]> (msgids m) ∧
      cid_codec cid = CODEC_DAG_CBOR ∧ (dependable i → dependable i') ∧ (msgid_reliable m → msgid_reliable m') ∧
      ∃ a, build_article (split_header_body art).1 (split_header_body art).2 mid ng ts sig = Ok a ∧ cid = root_cid a ∧
      (dependable i' → contents_collide (built_blocks a).*2 ∨
         ∃ i'', fetch_article_wire_bytes cid i' =
           (Ok ((split_header_body art).1 ++ CRLF2 ++ (split_header_body art).2), i''))
  | Err resp => msgids m' = msgids m ∧ (code resp = 441 ∨ code resp = 500) ∧
      (is_Some (msgids m !! mid) ∨ ¬ dependable i ∨ ¬ msgid_reliable m ∨
       ∃ e, build_article (split_header_body art).1 (split_header_body art).2 mid ng ts sig = Err e)
  end.
Proof.
  intros Hi Hm Hng. unfold write_ipld_article_to_ipfs. unfold mbind at 1, prog_bind at 1.
  pose proof (refuse_known_ok mid i m Hm) as Hk. destruct (refuse_known mid (i, m)) as [[[]|resp] [i1 m1]].
  2:{ intros [= <- <- <-]. destruct Hk as (-> & Hm1 & Hs & [[-> Hd]|[Hc Hn]]); split_and!; auto. }
  destruct Hk as (-> & Hm1 & Hs1 & Hr1 & Hnone). destruct (split_header_body art) as [h b].
  unfold mbind at 1, prog_bind at 1, lift at 1.
  destruct (build_article h b mid ng ts sig) as [a|e] eqn:Hb; cbn [map_err fst snd].
  2:{ intros [= <- <- <-]. split_and!; [done|done|done|by left|]. do 3 right. eauto. }
  unfold mbind at 1, prog_bind at 1, on_store at 1. cbn [fst snd].
  pose proof (put_blocks_ok (built_blocks a) i Hi (proj1 (block_set_wellformed _ _ _ _ _ _ _ Hb))) as Hp.
  destruct (put_blocks (built_blocks a) i) as [[[]|e] i2]; cbn [map_err].
  2:{ intros [= <- <- <-]. destruct Hp as [Hs2 Hd]. split_and!; auto. }
  destruct Hp as (Hs2 & Hh & Hd). unfold mbind, prog_bind, on_msgids. cbn [fst snd].
  pose proof (msgid_insert_new mid (root_cid a) m1 Hm1) as Hins. rewrite Hs1 in Hins. specialize (Hins Hnone).
  destruct (msgid_insert mid (root_cid a) m1) as [[[]|e] m2]; cbn [map_err].
  2:{ intros [= <- <- <-]. destruct Hins as (? & ? & Hn). split_and!; [done|done|done|by left|]. naive_solver. }
  intros [= <- <- <-]. destruct Hins as (Hm2 & Hr2 & Hs). split_and!; [done..| | | |]; auto.
  - apply build_article_inv in Hb as (? & ? & ? & ? & _ & _ & _ & _ & -> & _). apply cid_new_v1_codec.
  - exists a. split_and!; [done|done|]. intros Hdep. eapply fetch_built; eauto.
Qed.

Lemma clean_wire hs body :
  hs ≠ [] → Forall clean_line hs →
  (split_header_body (article hs body)).1 ++ CRLF2 ++ (split_header_body (article hs body)).2 = article hs body.
Proof.
  intros Hne Hhs. destruct (split_clean hs body Hne Hhs) as (h & Hr & ->). cbn [fst snd].
  unfold article. rewrite Hr. unfold CRLF2. by rewrite <- !app_assoc.
Qed.

(** Writing and reading an article.  When [write_ipld_article_to_ipfs]
    succeeds the Message-ID was unknown and now maps to the root CID, whose codec
    is DAG-CBOR, and [fetch_article_wire_bytes] gives the article back byte for
    byte from a store that answers, unless SHA-256 collides on two of its blocks; when it fails the
    map is as it was, and the Message-ID was known, a store failed or a node
    could not be encoded. *)
Theorem stored_article_reads_back hs body mid ng ts sig i m r i' m' :
  hs ≠ [] → Forall clean_line hs → Forall (λ g, is_valid_group_name g = true) ng → sound i → msgid_inv m →
  write_ipld_article_to_ipfs (article hs body) mid ng ts sig (i, m) = (r, (i', m')) →
  match r with
  | Ok cid => msgids m !! mid = None ∧ msgids m' = <[ mid := cid ]> (msgids m) ∧ cid_codec cid = CODEC_DAG_CBOR ∧
      ∃ a, build_article (split_header_body (article hs body)).1 (split_header_body (article hs body)).2 mid ng ts sig = Ok a ∧ cid = root_cid a ∧
      (dependable i → contents_collide (built_blocks a).*2 ∨
         ∃ i'', fetch_article_wire_bytes cid i' = (Ok (article hs body), i''))
  | Err resp => msgids m' = msgids m ∧ (code resp = 441 ∨ code resp = 500) ∧
      (is_Some (msgids m !! mid) ∨ ¬ dependable i ∨ ¬ msgid_reliable m ∨
       ∃ h b e, build_article h b mid ng ts sig = Err e)
  end.
Proof.
  intros Hne Hhs Hng Hi Hm Hw. apply write_ipld_ok in Hw as (_ & _ & Hr); [|done..]. rewrite clean_wire in Hr by done.
  destruct r as [cid|resp]; naive_solver.
Qed.

End Spec.

End Write.

End Store.

(** ** Samples *)

Module ReaderStoreSamples.
Import ToyCrypto HeaderSample IpldSamples SqliteStorage.SqlSamples MsgIdSamples.

Definition lines : list bytes := [lit "From: a@b"; lit "Subject: x"].
Definition store_new : MemIpfsStore := mkMem ∅.

Definition lines_blocks : list bytes :=
  match build_article (split_header_body (article lines (lit "text"))).1 (split_header_body (article lines (lit "text"))).2
    (lit "<1@x>") [lit "a.b"] 7 [] with Ok a => (built_blocks a).*2 | Err _ => [] end.

Lemma lines_blocks_distinct : ¬ contents_collide lines_blocks.
Proof. apply (bool_decide_eq_false_1 _). vm_refl. Qed.

Lemma stored_article_witness :
  ∃ cid i' m' i'',
    write_ipld_article_to_ipfs (article lines (lit "text")) (lit "<1@x>") [lit "a.b"] 7 [] (store_new, sql_msgids_new) =
      (Ok cid, (i', m')) ∧
    fetch_article_wire_bytes cid i' = (Ok (article lines (lit "text")), i'').
Proof.
  destruct (write_ipld_article_to_ipfs (article lines (lit "text")) (lit "<1@x>") [lit "a.b"] 7 []
    (store_new, sql_msgids_new)) as [[cid|r] [i' m']] eqn:E; [|vm_compute in E; discriminate E].
  apply (stored_article_reads_back lines (lit "text")) in E as (_ & _ & _ & a & Ha & _ & H);
    [|by apply (bool_decide_eq_true_1 _)..|done|apply rows_ok_empty].
  exists cid, i', m'. destruct (H I) as [Hc|[i'' Hf]]; [exfalso|by exists i''].
  apply lines_blocks_distinct. unfold lines_blocks. by rewrite Ha.
Defined.

End ReaderStoreSamples.

End ReaderStore.
