(* ===== verification/ReaderPost.v ===== *)
(** The reader's POST pipeline: [append_to_groups] of
    [crates/reader/src/post/log_append.rs], [check_duplicate_msgid] of
    [post/pipeline.rs] and [run_post_pipeline] of [session/lifecycle.rs].

    The state is that of the block store, the Message-ID map, the group log, the
    article numbers, the overview index, the verification results and the HLC.
    Steps 9 and 10 hand an accepted article to the search index and the SMTP
    relay queue; they change none of these, their failures are only logged, and
    they are left out.  The texts of responses leave out the errors the code
    interpolates. *)

From S2P Require Import Prelude Bytes Decimal Utf8 Wildmat Article Validation Headers Util Crypto Canonical Hlc LogEntry LogStorage MemStorage Sql SqliteStorage MsgIdMap Append AppendTips Pipeline ArticleNumbers PeerAuth Overview NntpResponse Injection ArticleSig VerifStore PostChecks Ipld ReaderStore.

Module ReaderPost.
Import Decimal Article Canonical Hlc LogEntry LogStorage MsgIdMap Append AppendTips PeerAuth Overview ArticleNumbers NntpResponse Injection ArticleSig VerifStore PostChecks Ipld ReaderStore Sql.

Section Post.
Context {lib : CidLib} {siglib : SigLib} {keys : KeyLib} {text : SigTextLib} {dkim : DkimLib}.
Context {inj : InjectionLib} {hlib : HeaderLib} {ipld : IpldLib}.
Context {I M S : Type} {store : IpfsBlockStore I} {mids : MsgIdStore M} {log : LogStorage S}.

(** ** Group logs and numbers *)

Definition on_group_log {E A} (f : E → Response) (m : prog S E A) : prog (S * Pool (gmap (bytes * Z) bytes)) Response A := λ s,
  let '(r, l) := m s.1 in (map_err f r, (l, s.2)).

Definition on_numbers {E A} (f : E → Response) (m : prog (Pool (gmap (bytes * Z) bytes)) E A) :
    prog (S * Pool (gmap (bytes * Z) bytes)) Response A := λ s,
  let '(r, p) := m s.2 in (map_err f r, (s.1, p)).

(** The timestamp of a log entry: only the wall clock is kept. *)
Definition post_ts (hlc_ts : Z) : HlcTimestamp := mkTs hlc_ts 0 (replicate 8 0).

(** The entry of one group: signed, checked and appended. *)
Definition append_log_entry (article_cid : Cid) (signing_key : SigningKey) (group : GroupName) (hlc_ts : Z) :
    prog (S * Pool (gmap (bytes * Z) bytes)) Response () :=
  current_tips ← on_group_log (λ _, new 441 (lit "storage error listing tips")) (list_tips group);
  let parent_cids := to_cid <$> current_tips in
  let operator_signature := sign signing_key (log_entry_canonical_bytes hlc_ts article_cid parent_cids) in
  let entry := mkEntry (post_ts hlc_ts) article_cid operator_signature parent_cids in
  verified ← lift (map_err (λ _, new 441 (lit "log entry self-check failed"))
                     (verify_signature entry (verifying_key signing_key)));
  _ ← on_group_log (λ _, new 441 (lit "log append failed")) (append group verified);
  mret tt.

Fixpoint append_loop (article_cid : Cid) (signing_key : SigningKey) (source : InjectionSource)
    (groups : list (GroupName * Z)) : prog (S * Pool (gmap (bytes * Z) bytes)) Response (list (bytes * Z)) :=
  match groups with
  | [] => mret []
  | (group, hlc_ts) :: groups' =>
      _ ← (if is_peerable source then append_log_entry article_cid signing_key group hlc_ts else mret tt);
      article_number ← on_numbers (λ _, new 441 (lit "article number assignment failed"))
                         (assign_number (as_str group) article_cid);
      assignments ← append_loop article_cid signing_key source groups';
      mret ((as_str group, article_number) :: assignments)
  end.

Definition append_to_groups (hlc_timestamps : list Z) (article_cid : Cid) (signing_key : SigningKey)
    (newsgroups : list GroupName) (source : InjectionSource) :
    prog (S * Pool (gmap (bytes * Z) bytes)) Response (list (bytes * Z)) :=
  if negb (length hlc_timestamps =? length newsgroups)%nat then
    throw (new 500 (lit "Internal error: hlc_timestamps length " ++ to_decimal (Z.of_nat (length hlc_timestamps)) ++
      lit " != newsgroups length " ++ to_decimal (Z.of_nat (length newsgroups))))
  else append_loop article_cid signing_key source (zip newsgroups hlc_timestamps).

(** ** The pipeline *)

Record PostWorld := mkPost {
  pw_ipfs : I;
  pw_msgids : M;
  pw_log : S;
  pw_numbers : Pool (gmap (bytes * Z) bytes);
  pw_overview : Pool (gmap (bytes * Z) OverviewRow);
  pw_verif : Pool VerifTables;
  pw_clock : HlcClock
}.

Definition check_duplicate_msgid (message_id : bytes) : prog PostWorld Response () := λ w,
  let '(r, m) := lookup_by_msgid message_id (pw_msgids w) in
  (match r with
   | Ok (Some _) => Err DUPLICATE
   | Ok None => Ok tt
   | Err _ => Err (new 500 (lit "Internal error: storage lookup failed"))
   end,
   mkPost (pw_ipfs w) m (pw_log w) (pw_numbers w) (pw_overview w) (pw_verif w) (pw_clock w)).

(** [newsgroups.iter().map(|_| clock.send(now_ms).wall_ms)]. *)
Fixpoint send_all (n : nat) (now_ms : Z) (c : HlcClock) : list Z * HlcClock :=
  match n with
  | O => ([], c)
  | Datatypes.S n' =>
      let '(ts, c') := send c now_ms in
      let '(l, c'') := send_all n' now_ms c' in
      (wall_ms ts :: l, c'')
  end.

Definition hlc_timestamps (n : nat) (now_ms : Z) : prog PostWorld Response (list Z) := λ w,
  let '(l, c) := send_all n now_ms (pw_clock w) in
  (Ok l, mkPost (pw_ipfs w) (pw_msgids w) (pw_log w) (pw_numbers w) (pw_overview w) (pw_verif w) c).

Definition on_blocks {A} (m : prog (I * M) Response A) : prog PostWorld Response A := λ w,
  let '(r, (i, mi)) := m (pw_ipfs w, pw_msgids w) in
  (r, mkPost i mi (pw_log w) (pw_numbers w) (pw_overview w) (pw_verif w) (pw_clock w)).

Definition on_groups {A} (m : prog (S * Pool (gmap (bytes * Z) bytes)) Response A) : prog PostWorld Response A := λ w,
  let '(r, (l, p)) := m (pw_log w, pw_numbers w) in
  (r, mkPost (pw_ipfs w) (pw_msgids w) l p (pw_overview w) (pw_verif w) (pw_clock w)).

(** Step 6b. *)
Definition verify_stored (key : SigningKey) (cid : Cid) (signed_bytes : bytes) (now_ms : Z) :
    prog PostWorld Response () := λ w,
  (Ok tt, mkPost (pw_ipfs w) (pw_msgids w) (pw_log w) (pw_numbers w) (pw_overview w)
            (record_checks key cid signed_bytes now_ms (pw_verif w)) (pw_clock w)).

(** Step 8: a failed insert is only logged. *)
Definition index_overview (overview : OverviewRecord) (assignments : list (bytes * Z)) :
    prog PostWorld Response () := λ w,
  (Ok tt, mkPost (pw_ipfs w) (pw_msgids w) (pw_log w) (pw_numbers w)
            (foldl (λ p (gn : bytes * Z), (insert gn.1 (with_number gn.2 overview) p).2) (pw_overview w) assignments)
            (pw_verif w) (pw_clock w)).

Definition with_did (valid : option bool) (r : OverviewRecord) : OverviewRecord :=
  mkOverview (article_number r) (subject r) (from r) (date r) (message_id r) (references r)
    (byte_count r) (line_count r) valid.

Record PostAuditMeta := mkAuditMeta { am_message_id : bytes; am_newsgroups : bytes; am_cid : bytes }.

(** What a POST arrives with. *)
Record PostRequest := mkRequest {
  rq_bytes : bytes;
  rq_drain_session : bool;
  rq_client_ip : bytes;
  rq_user : option bytes
}.

(** Steps 4 to 8, for an article that passed the checks. *)
Definition store_post (key : SigningKey) (now_ms : Z) (source : InjectionSource) (did : option bool)
    (article_bytes message_id : bytes) (newsgroups : list GroupName) : prog PostWorld Response PostAuditMeta :=
  let '(signed_bytes, sig_bytes) := sign_article key article_bytes in
  hlcs ← hlc_timestamps (length newsgroups) now_ms;
  let primary_hlc := default now_ms (head hlcs) in
  cid ← on_blocks (write_ipld_article_to_ipfs signed_bytes message_id (as_str <$> newsgroups) primary_hlc sig_bytes);
  _ ← verify_stored key cid signed_bytes now_ms;
  assignments ← on_groups (append_to_groups hlcs cid key newsgroups source);
  let '(header_bytes, body_bytes) := split_article signed_bytes in
  _ ← index_overview (with_did did (extract_overview header_bytes body_bytes)) assignments;
  mret (mkAuditMeta message_id (join (lit ",") (as_str <$> newsgroups)) (cid_to_string cid)).

Definition run_post (key : SigningKey) (env : PostEnv) (vk_error : bytes) (now_ms : Z) (max_article_bytes : Z)
    (rq : PostRequest) : prog PostWorld Response PostAuditMeta :=
  let '(source, pre_path, article_bytes) :=
    prepare_post env (rq_drain_session rq) (rq_client_ip rq) (rq_user rq) (rq_bytes rq) in
  _ ← lift (complete_post (env_secs env) article_bytes max_article_bytes);
  '(message_id, newsgroups) ← lift (extract_post_metadata article_bytes);
  _ ← check_duplicate_msgid message_id;
  store_post key now_ms source (check_did_sig vk_error pre_path) article_bytes message_id newsgroups.

Definition run_post_pipeline (key : SigningKey) (env : PostEnv) (vk_error : bytes) (now_ms : Z) (max_article_bytes : Z)
    (rq : PostRequest) (w : PostWorld) : (Response * option PostAuditMeta) * PostWorld :=
  match run_post key env vk_error now_ms max_article_bytes rq w with
  | (Ok meta, w') => ((new 240 (lit "Article received OK"), Some meta), w')
  | (Err resp, w') => ((resp, None), w')
  end.

(** ** What one group's step does *)

Section Spec.
Context {iview : BlockStoreView I} {ilaws : BlockStoreLaws I} {mview : MsgIdView M} {mlaws : MsgIdLaws M}.
Context {view : StorageView S} {slaws : LogStorageLaws S}.
Context {laws : CidLaws lib} {siglaws : SigLaws siglib} {ipldlaws : IpldLaws ipld} {textlaws : SigTextLaws text}.

Lemma append_log_entry_ok cid key g ts s p :
  st_inv s → in_u64 ts →
  match append_log_entry cid key g ts (s, p) with
  | (Ok _, (s', p')) => p' = p ∧ st_inv s' ∧ entries_of s ⊆ entries_of s' ∧
      ∃ tips e, NoDup tips ∧ list_to_set tips = tips_of s g ∧ Pipeline.signed_for key cid tips e ∧ extended s s' g e
  | (Err r, (s', p')) => p' = p ∧ st_inv s' ∧ entries_of s ⊆ entries_of s' ∧ code r = 441
  end.
Proof.
  intros Hs Hts. unfold append_log_entry, on_group_log, lift, mbind, prog_bind. cbn [fst snd].
  pose proof (list_tips_ok g s Hs) as Hl. unfold outcome in Hl.
  destruct (list_tips g s) as [[tips|e] s1]; cbn [map_err].
  2:{ destruct Hl as (? & _ & [He _] & _). split_and!; [done|done|by rewrite He|done]. }
  destruct Hl as (Hi1 & _ & Hs1 & Hnd & Htips). pose proof Hs1 as [He1 Ht1].
  change (mkEntry (post_ts ts) cid _ (to_cid <$> tips)) with (Pipeline.build_entry (post_ts ts) key cid tips).
  rewrite (Pipeline.build_entry_verifies (post_ts ts) key cid). cbn [map_err].
  pose proof (append_on_tips g (Pipeline.build_entry (post_ts ts) key cid tips) tips s1 Hi1 Hts) as Ha.
  rewrite Ht1 in Ha. specialize (Ha Htips eq_refl). unfold outcome in Ha. cbn [fst snd].
  destruct (append g _ s1) as [[id|e] s2]; cbn [map_err].
  - destruct Ha as (Hi2 & _ & -> & Hext). rewrite <- He1. split_and!; [done|done|by eapply extended_mono|].
    exists tips, (Pipeline.build_entry (post_ts ts) key cid tips).
    split_and!; [done|done|apply Pipeline.build_entry_signed_for|by eapply extended_same_l].
  - destruct Ha as (Hi2 & _ & [He2 _] & _). rewrite He2, He1. done.
Qed.

(** ** The loop over the groups *)

Definition record_all (cid : Cid) (L : bytes → list Cid) (gs : list bytes) : bytes → list Cid :=
  foldl (λ L g, record g cid L) L gs.

Lemma record_keeps g cid L g' n c : nth_article (L g') n = Some c → nth_article (record g cid L g') n = Some c.
Proof.
  unfold record. case_bool_decide as Hg; [subst g'|done]. unfold numbered. case_bool_decide; [done|].
  unfold nth_article. break_if; [|done]. intros Hl. by apply lookup_app_l_Some.
Qed.

Lemma record_all_keeps cid L gs g' n c :
  nth_article (L g') n = Some c → nth_article (record_all cid L gs g') n = Some c.
Proof. revert L. induction gs as [|g gs IH]; intros L Hn; [done|]. apply (IH (record g cid L)), record_keeps, Hn. Qed.

Lemma record_length g cid L g' : (length (record g cid L g') <= length (L g') + 1)%nat.
Proof.
  unfold record. case_bool_decide as Hg; [subst g'|lia]. unfold numbered. case_bool_decide; [lia|].
  rewrite length_app. cbn. lia.
Qed.

(** Room for [n] more articles in every group. *)
Definition room (L : bytes → list Cid) (n : nat) : Prop := ∀ g, Z.of_nat (length (L g)) + Z.of_nat n < i64_max.

Lemma append_loop_ok cid key source groups s p L :
  st_inv s → Forall (λ gt : GroupName * Z, in_u64 gt.2) groups → represents (rows p) L → room L (length groups) →
  match append_loop cid key source groups (s, p) with
  | (Ok assignments, (s', p')) =>
      st_inv s' ∧ entries_of s ⊆ entries_of s' ∧ (is_peerable source = true → grown (Pipeline.signed_for key cid) s groups.*1 s') ∧
      (is_peerable source = false → s' = s) ∧
      assignments.*1 = as_str <$> groups.*1 ∧ represents (rows p') (record_all cid L (as_str <$> groups.*1)) ∧
      Forall (λ gn, nth_article (record_all cid L (as_str <$> groups.*1) gn.1) gn.2 = Some cid) assignments
  | (Err r, (s', p')) => st_inv s' ∧ entries_of s ⊆ entries_of s' ∧ code r = 441 ∧
      ∃ k, represents (rows p') (record_all cid L (take k (as_str <$> groups.*1)))
  end.
Proof.
  intros Hs Hg. revert s p L Hs. induction Hg as [|[g ts] groups Hts _ IH]; intros s p L Hs HL Hroom;
    [split_and!; try done; intros _; by constructor|].
  cbn [append_loop length] in *. unfold mbind at 1, prog_bind at 1.
  assert (Hone : match (if is_peerable source then append_log_entry cid key g ts else mret tt) (s, p) with
    | (Ok _, (s1, p1)) => p1 = p ∧ st_inv s1 ∧ entries_of s ⊆ entries_of s1 ∧
        (is_peerable source = true →
           ∃ tips e, NoDup tips ∧ list_to_set tips = tips_of s g ∧ Pipeline.signed_for key cid tips e ∧ extended s s1 g e) ∧
        (is_peerable source = false → s1 = s)
    | (Err r, (s1, p1)) => p1 = p ∧ st_inv s1 ∧ entries_of s ⊆ entries_of s1 ∧ code r = 441
    end).
  { destruct (is_peerable source); [|done]. pose proof (append_log_entry_ok cid key g ts s p Hs Hts) as H.
    destruct (append_log_entry cid key g ts (s, p)) as [[[]|r] [s1 p1]]; naive_solver. }
  destruct ((if is_peerable source then append_log_entry cid key g ts else mret tt) (s, p)) as [[[]|r] [s1 p1]];
    [|destruct Hone as (-> & ? & ? & ?); split_and!; [done..|by exists O]].
  destruct Hone as (-> & Hs1 & Hsub1 & Hlog1 & Hsame1).
  unfold mbind at 1, prog_bind at 1, on_numbers. cbn [fst snd].
  assert (Hr0 : Z.of_nat (length (L (as_str g))) < i64_max) by (specialize (Hroom (as_str g)); lia).
  pose proof (assign_outcome p L (as_str g) cid HL Hr0) as Ha. unfold db_outcome in Ha.
  destruct (assign_number (as_str g) cid p) as [[n|e] p2]; cbn [map_err];
    [|destruct Ha as (_ & -> & _); split_and!; [done..|by exists O]].
  destruct Ha as (_ & HL2 & Hn). unfold mbind, prog_bind.
  assert (Hroom2 : room (record (as_str g) cid L) (length groups)).
  { intros g'. specialize (Hroom g'). pose proof (record_length (as_str g) cid L g'). lia. }
  specialize (IH s1 p2 (record (as_str g) cid L) Hs1 HL2 Hroom2).
  destruct (append_loop cid key source groups (s1, p2)) as [[assignments|r] [s3 p3]].
  - destruct IH as (Hs3 & Hsub3 & Hlog3 & Hsame3 & Has & HL3 & Hall). unfold mret, prog_ret. rewrite !fmap_cons. cbn [fst].
    split_and!; [done|by etrans| | | |done|].
    + intros Hp. destruct (Hlog1 Hp) as (tips & e & ? & ? & ? & ?). eapply grown_cons; eauto.
    + intros Hp. by rewrite (Hsame3 Hp), (Hsame1 Hp).
    + by rewrite Has.
    + constructor; [|exact Hall]. exact (record_all_keeps cid (record (as_str g) cid L) _ _ _ _ Hn).
  - destruct IH as (? & ? & ? & k & ?). split_and!; [done|by etrans|done|]. by exists (Datatypes.S k).
Qed.

Lemma append_to_groups_ok hlcs cid key gs source s p L :
  st_inv s → length hlcs = length gs → Forall in_u64 hlcs → represents (rows p) L → room L (length gs) →
  match append_to_groups hlcs cid key gs source (s, p) with
  | (Ok assignments, (s', p')) =>
      st_inv s' ∧ entries_of s ⊆ entries_of s' ∧ (is_peerable source = true → grown (Pipeline.signed_for key cid) s gs s') ∧
      (is_peerable source = false → s' = s) ∧
      assignments.*1 = as_str <$> gs ∧ represents (rows p') (record_all cid L (as_str <$> gs)) ∧
      Forall (λ gn, nth_article (record_all cid L (as_str <$> gs) gn.1) gn.2 = Some cid) assignments
  | (Err r, (s', p')) => st_inv s' ∧ entries_of s ⊆ entries_of s' ∧ code r = 441 ∧
      ∃ k, represents (rows p') (record_all cid L (take k (as_str <$> gs)))
  end.
Proof.
  intros Hs Hlen Hts HL Hroom. unfold append_to_groups. rewrite Hlen, Nat.eqb_refl. cbn [negb].
  assert (Hf : (zip gs hlcs).*1 = gs) by (apply fst_zip; lia).
  assert (Hz : length (zip gs hlcs) = length gs) by (rewrite length_zip_with; lia).
  assert (Hu : Forall (λ gt : GroupName * Z, in_u64 gt.2) (zip gs hlcs)).
  { apply Forall_forall. intros [g t] ?%elem_of_zip_r. by eapply Forall_forall in Hts. }
  pose proof (append_loop_ok cid key source (zip gs hlcs) s p L Hs Hu HL) as Ha. rewrite Hf, Hz in Ha.
  specialize (Ha Hroom). destruct (append_loop _ _ _ _ _) as [[a|r] [s' p']]; [|done].
  done.
Qed.

(** ** The clock and the overview *)

Lemma send_all_ok n now c :
  in_u64 now → in_u64 (wall_ms (last c)) →
  let '(l, c') := send_all n now c in
  length l = n ∧ Forall in_u64 l ∧ in_u64 (wall_ms (last c')).
Proof.
  intros Hn. revert c. induction n as [|n IH]; intros c Hc; [by split_and!|]. cbn [send_all].
  destruct (send c now) as [ts c'] eqn:E.
  assert (H : in_u64 (wall_ms ts) ∧ in_u64 (wall_ms (last c'))).
  { unfold send in E. destruct (if _ =? _ then _ else _) as [nw nl] eqn:Eb. injection E as <- <-. cbn [wall_ms last].
    assert (in_u64 nw); [|done]. destruct (_ =? _); [|injection Eb as <- <-; unfold in_u64 in *; lia].
    unfold bump_logical in Eb. destruct (checked_add_u32 _ _); injection Eb as <- <-; [unfold in_u64 in *; lia|].
    apply wrapping_u64_range. }
  destruct H as [Hts Hc']. specialize (IH c' Hc'). destruct (send_all n now c') as [l c'']. cbn. naive_solver.
Qed.

(** Rows are only added. *)
Lemma overview_insert_reliable (g : bytes) (r : OverviewRecord) (p : Pool (gmap (bytes * Z) OverviewRow)) :
  pool_reliable p →
  pool_reliable (insert g r p).2 ∧ rows p ⊆ rows (insert g r p).2 ∧
  is_Some (rows (insert g r p).2 !! (g, as_i64 (article_number r))).
Proof.
  intros Hp. unfold insert, prog_map_err. cbv zeta.
  match goal with |- context [execute ?f p] => destruct (execute_reliable f p Hp) as (p' & E & Hr & Hp') end.
  rewrite E. cbn [snd]. rewrite Hr.
  cbn [row_article_number to_row]. split; [done|].
  destruct (rows p !! (g, as_i64 (article_number r))) eqn:El; [by split; [|eexists]|].
  split; [by apply insert_subseteq|]. rewrite lookup_insert_eq. by eexists.
Qed.

Lemma index_reliable (overview : OverviewRecord) (assignments : list (bytes * Z)) (p : Pool (gmap (bytes * Z) OverviewRow)) :
  pool_reliable p →
  let p' := foldl (λ p (gn : bytes * Z), (insert gn.1 (with_number gn.2 overview) p).2) p assignments in
  rows p ⊆ rows p' ∧ ∀ g n, (g, n) ∈ assignments → is_Some (rows p' !! (g, as_i64 n)).
Proof.
  revert p. induction assignments as [|[g n] l IH]; intros p Hp; cbn [foldl fst snd].
  - split; [done|]. by intros ? ? ?%not_elem_of_nil.
  - destruct (overview_insert_reliable g (with_number n overview) p Hp) as (Hp1 & Hsub & Hin).
    destruct (IH _ Hp1) as [Hsub2 Hin2]. split; [by etrans|].
    intros g' n' [[= -> ->]|H]%elem_of_cons; [|by apply Hin2].
    destruct Hin as [r Hr]. exists r. by eapply lookup_weaken.
Qed.

(** ** Storing *)

Definition post_ok (w : PostWorld) (L : bytes → list Cid) : Prop :=
  sound (pw_ipfs w) ∧ msgid_inv (pw_msgids w) ∧ st_inv (pw_log w) ∧ represents (rows (pw_numbers w)) L ∧
  in_u64 (wall_ms (last (pw_clock w))).

(** The block set of a post. *)
Definition post_blocks (key : SigningKey) (now : Z) (clock : HlcClock) (article_bytes mid : bytes) (names : list bytes) :
    result BuildError BuiltArticle :=
  let '(signed, sig) := sign_article key article_bytes in
  let '(header_bytes, body_bytes) := split_header_body signed in
  build_article header_bytes body_bytes mid names (default now (head (send_all (length names) now clock).1)) sig.

(** The article is where a reader will look for it: under its Message-ID, in its
    groups and in the overview; its blocks give it back, unless two of these very
    blocks collide; and each of its groups' logs has its entry. *)
Definition served (key : SigningKey) (source : InjectionSource) (now : Z) (article_bytes mid : bytes) (names : list bytes)
    (L : bytes → list Cid) (w w' : PostWorld) (cid : Cid) : Prop :=
  msgids (pw_msgids w) !! mid = None ∧ msgids (pw_msgids w') = <[ mid := cid ]> (msgids (pw_msgids w)) ∧
  (∃ a, post_blocks key now (pw_clock w) article_bytes mid names = Ok a ∧ cid = root_cid a ∧
     (dependable (pw_ipfs w) → contents_collide (built_blocks a).*2 ∨
        ∃ i, fetch_article_wire_bytes cid (pw_ipfs w') = (Ok (sign_article key article_bytes).1, i))) ∧
  (pool_reliable (pw_overview w) → ∀ g, g ∈ names → ∃ n, nth_article (record_all cid L names g) n = Some cid ∧
     is_Some (rows (pw_overview w') !! (g, as_i64 n))) ∧
  (is_peerable source = true → grown (Pipeline.signed_for key cid) (pw_log w) (mkGroupName <$> names) (pw_log w')) ∧
  (is_peerable source = false → pw_log w' = pw_log w).

(** A refused article leaves the stores as they were, or has taken its
    Message-ID and numbers in some of its groups. *)
Definition failed (r : Response) (mid : bytes) (names : list bytes) (L : bytes → list Cid) (w w' : PostWorld) : Prop :=
  (code r = 441 ∨ code r = 500) ∧
  ((msgids (pw_msgids w') = msgids (pw_msgids w) ∧ post_ok w' L) ∨
   ∃ cid k, msgids (pw_msgids w) !! mid = None ∧ msgids (pw_msgids w') = <[ mid := cid ]> (msgids (pw_msgids w)) ∧
     post_ok w' (record_all cid L (take k names))).

Lemma store_post_ok key now source did hs body mid gs w L :
  hs ≠ [] → Forall clean_line hs → post_ok w L → in_u64 now → Forall valid_group gs → room L (length gs) →
  match store_post key now source did (article hs body) mid gs w with
  | (Ok meta, w') => entries_of (pw_log w) ⊆ entries_of (pw_log w') ∧
      ∃ cid, meta = mkAuditMeta mid (join (lit ",") (as_str <$> gs)) (cid_to_string cid) ∧
        post_ok w' (record_all cid L (as_str <$> gs)) ∧ served key source now (article hs body) mid (as_str <$> gs) L w w' cid
  | (Err r, w') => entries_of (pw_log w) ⊆ entries_of (pw_log w') ∧ failed r mid (as_str <$> gs) L w w'
  end.
Proof.
  intros Hne Hhs (Hi & Hm & Hs & HL & Hc) Hnow Hgs Hroom. unfold store_post.
  assert (Hpb : post_blocks key now (pw_clock w) (article hs body) mid (as_str <$> gs) = _) by (unfold post_blocks; reflexivity).
  rewrite length_fmap in Hpb. unfold served. rewrite sign_clean in * by done. set (hs' := hs ++ _) in *. cbn [fst].
  assert (Hcl : Forall clean_line hs') by (apply Forall_snoc; [done|apply sig_line_clean]).
  assert (Hne' : hs' ≠ []) by (by destruct hs).
  unfold mbind at 1, prog_bind at 1, hlc_timestamps.
  pose proof (send_all_ok (length gs) now (pw_clock w) Hnow Hc) as Hsend.
  destruct (send_all (length gs) now (pw_clock w)) as [hlcs c']. destruct Hsend as (Hlen & Hts & Hc').
  unfold mbind at 1, prog_bind at 1, on_blocks. cbn [pw_ipfs pw_msgids pw_log pw_numbers pw_overview pw_verif pw_clock].
  destruct (write_ipld_article_to_ipfs _ mid _ _ _ _) as [r [i' m']] eqn:Ew.
  apply write_ipld_ok in Ew as (Hi' & Hm' & Hr); [|done|done|by apply Forall_fmap].
  rewrite clean_wire in Hr by done.
  destruct r as [cid|resp]; [|destruct Hr as (? & ? & _); split; [done|]; split; [done|]; by left].
  destruct Hr as (Hnone & Hins & _ & Hdep & _ & Hfetch).
  unfold mbind at 1, prog_bind at 1, verify_stored.
  unfold mbind at 1, prog_bind at 1, on_groups. cbn [pw_ipfs pw_msgids pw_log pw_numbers pw_overview pw_verif pw_clock].
  pose proof (append_to_groups_ok hlcs cid key gs source (pw_log w) (pw_numbers w) L Hs Hlen Hts HL Hroom) as Ha.
  destruct (append_to_groups hlcs cid key gs source (pw_log w, pw_numbers w)) as [[assignments|resp] [s' p']].
  2:{ destruct Ha as (? & ? & ? & k & ?). split; [done|]. split; [by left|]. right. exists cid, k. by split_and!. }
  destruct Ha as (Hs' & Hsub & Hlog & Hsame & Hfst & HL' & Hnth). destruct (split_article _) as [hb bb].
  unfold mbind, prog_bind, index_overview, mret, prog_ret.
  cbn [pw_ipfs pw_msgids pw_log pw_numbers pw_overview pw_verif pw_clock].
  split; [done|]. exists cid. split; [done|]. split; [by split_and!|]. unfold served. cbn [pw_ipfs pw_msgids pw_log pw_numbers pw_overview].
  destruct Hfetch as (a & Ha & Hcid & Hfetch). cbn [fst] in Hpb. destruct (split_header_body (article hs' body)) as [hb' bb']. cbn [fst snd] in Ha. rewrite Ha in Hpb.
  split_and!; [done|done|exists a; by auto| | |done].
  2:{ intros Hp. replace (mkGroupName <$> (as_str <$> gs)) with gs; [by apply Hlog|].
      clear. induction gs as [|[g] gs IH]; [done|]. cbn. by f_equal. }
  intros Hov g Hg. rewrite <- Hfst in Hg. apply list_elem_of_fmap in Hg as ([g' n] & -> & Hin).
  exists n. split; [exact (proj1 (Forall_forall _ _) Hnth _ Hin)|]. by eapply index_reliable.
Qed.

(** ** The whole pipeline *)

(** What [prepare_post] makes of a request. *)
Definition prepared_article (env : PostEnv) (rq : PostRequest) : bytes :=
  (prepare_post env (rq_drain_session rq) (rq_client_ip rq) (rq_user rq) (rq_bytes rq)).2.

Definition request_source (env : PostEnv) (rq : PostRequest) : InjectionSource :=
  (prepare_post env (rq_drain_session rq) (rq_client_ip rq) (rq_user rq) (rq_bytes rq)).1.1.

Lemma check_duplicate_ok mid w L :
  post_ok w L →
  match check_duplicate_msgid mid w with
  | (Ok _, w') => post_ok w' L ∧ msgids (pw_msgids w) !! mid = None ∧
      (∃ m, w' = mkPost (pw_ipfs w) m (pw_log w) (pw_numbers w) (pw_overview w) (pw_verif w) (pw_clock w)) ∧
      msgids (pw_msgids w') = msgids (pw_msgids w)
  | (Err r, w') => post_ok w' L ∧ pw_log w' = pw_log w ∧ msgids (pw_msgids w') = msgids (pw_msgids w) ∧
      ((r = DUPLICATE ∧ is_Some (msgids (pw_msgids w) !! mid)) ∨ (code r = 500 ∧ ¬ msgid_reliable (pw_msgids w)))
  end.
Proof.
  intros (Hi & Hm & Hs & HL & Hc). unfold check_duplicate_msgid.
  pose proof (lookup_by_msgid_ok mid (pw_msgids w) Hm) as Hl. unfold msgid_outcome in Hl.
  destruct (lookup_by_msgid mid (pw_msgids w)) as [[[c|]|e] m'].
  - destruct Hl as (Hm' & Hr & Hsame & Hl). split; [by split_and!|]. split_and!; [done|done|]. left. split; [done|]. by exists c.
  - destruct Hl as (Hm' & Hr & Hsame & Hl). split; [by split_and!|]. split_and!; [done|by eexists|done].
  - destruct Hl as (Hm' & Hr & Hsame & [[]|Hn]). split; [by split_and!|]. split_and!; [done|done|]. by right.
Qed.

(** What a response and the final state say of a request. *)
Definition post_result (key : SigningKey) (env : PostEnv) (now max : Z) (rq : PostRequest) (L : bytes → list Cid)
    (w : PostWorld) (resp : Response) (meta : option PostAuditMeta) (w' : PostWorld) : Prop :=
  let article_bytes := prepared_article env rq in
  entries_of (pw_log w) ⊆ entries_of (pw_log w') ∧
  match meta with
  | Some meta => code resp = 240 ∧ complete_post (env_secs env) article_bytes max = Ok tt ∧
      ∃ mid gs cid, extract_post_metadata article_bytes = Ok (mid, gs) ∧
        meta = mkAuditMeta mid (join (lit ",") (as_str <$> gs)) (cid_to_string cid) ∧
        post_ok w' (record_all cid L (as_str <$> gs)) ∧
        served key (request_source env rq) now article_bytes mid (as_str <$> gs) L w w' cid
  | None => (w' = w ∧ code resp = 441) ∨
      ∃ mid gs, complete_post (env_secs env) article_bytes max = Ok tt ∧
        extract_post_metadata article_bytes = Ok (mid, gs) ∧ failed resp mid (as_str <$> gs) L w w'
  end.

Lemma run_post_pipeline_ok key env vk_error now max rq hs body w L :
  rq_bytes rq = article hs body → Forall clean_line hs → genuine (drop_source hs) ≠ [] →
  env_inline env (rq_client_ip rq) (rq_user rq) → post_ok w L → in_u64 now →
  (∀ mid gs, extract_post_metadata (prepared_article env rq) = Ok (mid, gs) → room L (length gs)) →
  let '((resp, meta), w') := run_post_pipeline key env vk_error now max rq w in
  post_result key env now max rq L w resp meta w'.
Proof.
  intros Hrq Hhs Hgen Henv Hw Hnow Hroom. unfold post_result, run_post_pipeline, run_post, request_source.
  unfold prepared_article in *. rewrite Hrq in *.
  destruct (prepare_clean env (rq_drain_session rq) (rq_client_ip rq) (rq_user rq) hs body Hhs Hgen Henv) as (src & E & _).
  rewrite E in *. cbn [fst snd] in *. clear E. set (hs' := prepared env (rq_client_ip rq) (rq_user rq) hs) in *.
  assert (Hcl : Forall clean_line hs') by by apply prepared_clean.
  assert (Hne : hs' ≠ []) by apply prepared_nonempty.
  unfold mbind at 1, prog_bind at 1, lift at 1.
  pose proof (complete_post_rules (env_secs env) (article hs' body) max) as Hcp.
  destruct (complete_post (env_secs env) (article hs' body) max) as [[]|r]; [|by split; [done|left; destruct Hcp]].
  unfold mbind at 1, prog_bind at 1, lift at 1.
  pose proof (extract_post_metadata_groups (article hs' body)) as Hex.
  destruct (extract_post_metadata (article hs' body)) as [[mid gs]|r]; [|by split; [done|left]].
  destruct Hex as [Hgs Hvalid]. specialize (Hroom mid gs eq_refl).
  unfold mbind at 1, prog_bind at 1.
  pose proof (check_duplicate_ok mid w L Hw) as Hd.
  destruct (check_duplicate_msgid mid w) as [[[]|r] w1].
  2:{ destruct Hd as (Hw1 & Hlog & Hm & Hr). rewrite Hlog. split; [done|]. right. exists mid, gs. split_and!; [done..|].
      split; [|by left]. destruct Hr as [[-> _]|[? _]]; [left|right]; done. }
  destruct Hd as (Hw1 & Hnone & (m & ->) & Hm). cbn [pw_msgids] in Hm.
  pose proof (store_post_ok key now src (check_did_sig vk_error (article (genuine (drop_source hs)) body))
    hs' body mid gs _ L Hne Hcl Hw1 Hnow Hvalid Hroom) as Hst. cbn [pw_log] in Hst. cbv zeta in Hst.
  destruct (store_post _ _ _ _ _ _ _ _) as [[meta|r] w'].
  - destruct Hst as (Hsub & cid & -> & Hok & Hserved). split; [done|]. split_and!; [done|done|].
    exists mid, gs, cid. split_and!; [done|done|done|].
    unfold served in *. cbn [pw_msgids pw_ipfs pw_overview pw_log] in Hserved. by rewrite Hm in Hserved.
  - destruct Hst as (Hsub & Hf). split; [done|]. right. exists mid, gs. split_and!; [done|done|].
    unfold failed in *. cbn [pw_msgids] in Hf. by rewrite Hm in Hf.
Qed.

(** A Message-ID in the map refuses every article that carries it. *)
Lemma known_is_duplicate key env vk_error now max rq mid gs w L :
  post_ok w L → msgid_reliable (pw_msgids w) → is_Some (msgids (pw_msgids w) !! mid) →
  complete_post (env_secs env) (prepared_article env rq) max = Ok tt →
  extract_post_metadata (prepared_article env rq) = Ok (mid, gs) →
  (run_post_pipeline key env vk_error now max rq w).1 = (DUPLICATE, None).
Proof.
  intros Hw Hrel [c Hc] Hcp Hex. unfold prepared_article in *. unfold run_post_pipeline, run_post.
  destruct (prepare_post _ _ _ _ _) as [[src pre] art]. cbn [snd] in *.
  unfold mbind, prog_bind, lift. rewrite Hcp, Hex. pose proof (check_duplicate_ok mid w L Hw) as Hd.
  destruct (check_duplicate_msgid mid w) as [[[]|r] w1]; [destruct Hd as (_ & Hn & _); congruence|].
  by destruct Hd as (_ & _ & _ & [[-> _]|[_ ?]]).
Qed.


(** A post that fails after its Message-ID was recorded cannot be repeated:
    the poster was told 441, yet from then on every article with that Message-ID
    is refused as a duplicate. *)
Theorem failed_post_burns_message_id key env vk_error now max rq hs body w L resp w' :
  rq_bytes rq = article hs body → Forall clean_line hs → genuine (drop_source hs) ≠ [] →
  env_inline env (rq_client_ip rq) (rq_user rq) → post_ok w L → in_u64 now →
  (∀ mid gs, extract_post_metadata (prepared_article env rq) = Ok (mid, gs) → room L (length gs)) →
  run_post_pipeline key env vk_error now max rq w = ((resp, None), w') →
  msgids (pw_msgids w') ≠ msgids (pw_msgids w) → msgid_reliable (pw_msgids w') →
  ∃ mid gs, extract_post_metadata (prepared_article env rq) = Ok (mid, gs) ∧
    msgids (pw_msgids w) !! mid = None ∧ (code resp = 441 ∨ code resp = 500) ∧
    ∀ env' vk_error' now' max' rq' gs',
      complete_post (env_secs env') (prepared_article env' rq') max' = Ok tt →
      extract_post_metadata (prepared_article env' rq') = Ok (mid, gs') →
      (run_post_pipeline key env' vk_error' now' max' rq' w').1 = (DUPLICATE, None).
Proof.
  intros Hrq Hhs Hgen Henv Hw Hnow Hroom Hrun Hne Hrel.
  pose proof (run_post_pipeline_ok key env vk_error now max rq hs body w L Hrq Hhs Hgen Henv Hw Hnow Hroom) as H.
  rewrite Hrun in H. destruct H as [_ [[-> _]|(mid & gs & _ & Hex & Hcode & Hf)]]; [done|].
  destruct Hf as [[? _]|(cid & k & Hnone & Hins & Hok)]; [done|].
  exists mid, gs. split_and!; [done..|]. intros env' vk' now' max' rq' gs' Hcp' Hex'.
  eapply known_is_duplicate; eauto. rewrite Hins, lookup_insert_eq. by eexists.
Qed.

End Spec.

End Post.

(** ** Samples *)

Module ReaderPostSamples.
Import ToyCrypto AuthSamples SigSamples HeaderSample IpldSamples SqliteStorage.SqlSamples MsgIdSamples ReaderStoreSamples.
Import MemStorage.

#[export] Instance fixed_dates : InjectionLib :=
  {| format_compact := λ _, lit "20240101000000"; dateparse := λ _, Some 1704067200 |}.
#[export] Instance no_dkim : DkimLib :=
  {| AuthenticatedMessage := (); auth_parse := λ _, None; auth_verify_dkim := λ _, [] |}.

Definition env1 : PostEnv := mkPostEnv (lit "news.example") None None 1704067200 7 1.
Definition post_lines : list bytes :=
  [lit "From: a@b"; lit "Date: Mon, 1 Jan 2024 00:00:00 +0000"; lit "Message-ID: <1@x.y>"; lit "Newsgroups: a.b,a.c";
   lit "Subject: x"].
Definition request1 : PostRequest := mkRequest (article post_lines (lit "text")) false (lit "192.0.2.1") None.

(** The article numbers answer as [faults] says. *)
Definition world (faults : list bool) : PostWorld :=
  mkPost store_new sql_msgids_new MemStorage.mem_new (mkPool ∅ faults) (mkPool ∅ [])
    VerifSamples.empty_pool (mkClock (mkTs 0 0 (replicate 8 0)) (replicate 8 0) 1000).

Definition nothing (g : bytes) : list (@Cid toy_cid) := [].

Lemma represents_nothing : represents ∅ nothing.
Proof. split; [intros; constructor|]. intros g n. rewrite lookup_empty. unfold nth_article, nothing. by break_if. Qed.

Lemma world_ok faults : post_ok (world faults) nothing.
Proof.
  split_and!; [done|apply rows_ok_empty|exact (proj1 Append.AppendSamples.mem_new_empty)|apply represents_nothing|done].
Qed.

Lemma request1_room mid gs :
  extract_post_metadata (prepared_article env1 request1) = Ok (mid, gs) → room nothing (length gs).
Proof. intros E. vm_compute in E. injection E as <- <-. intros g. vm_compute. reflexivity. Qed.

(** What the samples look at. *)
Definition seen (x : (Response * option PostAuditMeta) * PostWorld (I := MemIpfsStore) (M := Pool (gmap bytes bytes))
    (S := MemLogStorage)) :=
  (code x.1.1, bool_decide (x.1.2 = None), faults (pw_msgids x.2), bool_decide (msgids (pw_msgids x.2) = ∅),
   size (rows (pw_numbers x.2))).

Lemma request1_fits :
  Forall clean_line post_lines ∧ genuine (drop_source post_lines) ≠ [] ∧
  env_inline env1 (rq_client_ip request1) (rq_user request1) ∧ in_u64 5.
Proof. split_and!; by apply (bool_decide_eq_true_1 _). Qed.

Lemma request1_metadata mid gs :
  extract_post_metadata (prepared_article env1 request1) = Ok (mid, gs) →
  mid = lit "<1@x.y>" ∧ gs = [mkGroupName (lit "a.b"); mkGroupName (lit "a.c")].
Proof. intros E. vm_compute in E. by injection E as <- <-. Qed.

Lemma seen_accepted : seen (run_post_pipeline operator env1 [] 5 100000 request1 (world [])) = (240, false, [], false, 2%nat).
Proof. vm_refl. Qed.

Lemma seen_failed : seen (run_post_pipeline operator env1 [] 5 100000 request1 (world [true])) = (441, true, [], false, 0%nat).
Proof. vm_refl. Qed.

Definition request1_contents : list bytes :=
  match post_blocks operator 5 (pw_clock (world [])) (prepared_article env1 request1) (lit "<1@x.y>") [lit "a.b"; lit "a.c"] with
  | Ok a => (built_blocks a).*2 | Err _ => [] end.

Lemma request1_distinct : ¬ contents_collide request1_contents.
Proof. apply (bool_decide_eq_false_1 _). vm_refl. Qed.


(** The first statement on the article numbers fails. *)
Lemma failed_post_witness :
  ∃ resp w', run_post_pipeline operator env1 [] 5 100000 request1 (world [true]) = ((resp, None), w') ∧ code resp = 441 ∧
    size (rows (pw_numbers w')) = 0%nat ∧
    (run_post_pipeline operator env1 [] 6 100000 request1 w').1 = (DUPLICATE, None).
Proof.
  destruct request1_fits as (H1 & H2 & H3 & H4). pose proof seen_failed as Hseen.
  pose proof (λ r w', failed_post_burns_message_id operator env1 [] 5 100000 request1 post_lines (lit "text") (world [true])
    nothing r w' eq_refl H1 H2 H3 (world_ok _) H4 request1_room) as Hspec.
  destruct (run_post_pipeline operator env1 [] 5 100000 request1 (world [true])) as [[resp [meta|]] w'];
    [discriminate Hseen|]. injection Hseen as Hcode Hfaults Hmids Hnumbers. exists resp, w'.
  destruct (Hspec _ _ eq_refl) as (mid & gs & Hex & _ & _ & Hdup).
  - intros Heq. apply bool_decide_eq_false_1 in Hmids. apply Hmids. etrans; [exact Heq|vm_refl].
  - cbn. unfold pool_reliable. rewrite Hfaults. constructor.
  - split_and!; [reflexivity|exact Hcode|exact Hnumbers|].
    apply (Hdup _ _ _ _ request1 gs); [vm_compute; reflexivity|exact Hex].
Defined.

End ReaderPostSamples.

End ReaderPost.
