(* ===== verification/AuthLimiter.v ===== *)
(** [AuthFailureTracker] of [crates/reader/src/auth_limiter.rs]: failures per
    address in a sliding window, with a bounded table.

    The clock reading of [record_failure] is an argument.  The binary heap is
    the sorted list of its elements: [push] inserts, [pop] takes the least. *)

From S2P Require Import Prelude.

Module AuthLimiter.

Inductive IpAddr := V4 (octets : Z) | V6 (octets : Z).

#[export] Instance ip_eq_dec : EqDecision IpAddr.
Proof. solve_decision. Defined.

#[export] Instance ip_countable : Countable IpAddr.
Proof.
  refine (inj_countable' (λ ip, match ip with V4 n => inl n | V6 n => inr n end)
    (λ x, match x with inl n => V4 n | inr n => V6 n end) _).
  by intros [].
Defined.

(** [Ord] of [IpAddr]: version 4 first. *)
Definition ip_leb (a b : IpAddr) : bool :=
  match a, b with
  | V4 x, V4 y | V6 x, V6 y => x <=? y
  | V4 _, V6 _ => true
  | V6 _, V4 _ => false
  end.

Definition key_leb (a b : Z * IpAddr) : bool :=
  (a.1 <? b.1) || ((a.1 =? b.1) && ip_leb a.2 b.2).

Fixpoint push (x : Z * IpAddr) (h : list (Z * IpAddr)) : list (Z * IpAddr) :=
  match h with
  | [] => [x]
  | y :: h' => if key_leb x y then x :: h else y :: push x h'
  end.

Record AuthFailureTracker := mkTracker {
  entries : gmap IpAddr (Z * Z);
  eviction_heap : list (Z * IpAddr);
  max_entries : nat;
  threshold : Z;
  window : Z
}.

Definition tracker_new (threshold window : Z) (max_entries : nat) : AuthFailureTracker :=
  mkTracker ∅ [] max_entries threshold window.

(** The eviction loop: pops until a heap entry is still in the table. *)
Fixpoint evict (h : list (Z * IpAddr)) (m : gmap IpAddr (Z * Z)) : list (Z * IpAddr) * gmap IpAddr (Z * Z) :=
  match h with
  | [] => ([], m)
  | (ts, victim_ip) :: h' =>
      match m !! victim_ip with
      | Some (_, entry_ts) => if entry_ts =? ts then (h', delete victim_ip m) else evict h' m
      | None => evict h' m
      end
  end.

Definition record_failure (now : Z) (ip : IpAddr) (t : AuthFailureTracker) : bool * AuthFailureTracker :=
  match entries t !! ip with
  | Some (count, start) =>
      if window t <? Z.max 0 (now - start) then
        (1 =? threshold t,
         mkTracker (<[ ip := (1, now) ]> (entries t)) (push (now, ip) (eviction_heap t))
           (max_entries t) (threshold t) (window t))
      else
        let count' := (count + 1) mod 2 ^ 32 in
        (count' =? threshold t,
         mkTracker (<[ ip := (count', start) ]> (entries t)) (eviction_heap t)
           (max_entries t) (threshold t) (window t))
  | None =>
      let '(h, m) := if (max_entries t <=? size (entries t))%nat then evict (eviction_heap t) (entries t)
                     else (eviction_heap t, entries t) in
      (1 =? threshold t,
       mkTracker (<[ ip := (1, now) ]> m) (push (now, ip) h) (max_entries t) (threshold t) (window t))
  end.

Definition record_success (ip : IpAddr) (t : AuthFailureTracker) : AuthFailureTracker :=
  mkTracker (delete ip (entries t)) (eviction_heap t) (max_entries t) (threshold t) (window t).

Definition failure_count (ip : IpAddr) (t : AuthFailureTracker) : Z := from_option fst 0 (entries t !! ip).

Definition tracked_count (t : AuthFailureTracker) : nat := size (entries t).

(** ** The invariant *)

Definition key_le (a b : Z * IpAddr) : Prop := key_leb a b = true.

Lemma ip_leb_total a b : ip_leb a b = true ∨ ip_leb b a = true.
Proof. destruct a, b; cbn; rewrite ?Z.leb_le; lia || auto. Qed.

Lemma key_le_ts a b : key_le a b → a.1 <= b.1.
Proof. unfold key_le, key_leb. intros. to_prop. lia. Qed.

Lemma key_le_total a b : key_leb a b = false → key_le b a.
Proof.
  unfold key_le, key_leb. rewrite orb_false_iff, andb_false_iff, Z.ltb_ge, Z.eqb_neq.
  intros [H1 H2]. rewrite orb_true_iff, andb_true_iff, Z.ltb_lt, Z.eqb_eq.
  destruct (ip_leb_total a.2 b.2) as [E|E]; [rewrite E in H2; lia|]. rewrite E. lia.
Qed.

#[export] Instance key_le_trans : Transitive key_le.
Proof.
  intros [a x] [b y] [c z]. unfold key_le, key_leb. cbn [fst snd].
  rewrite !orb_true_iff, !andb_true_iff, !Z.ltb_lt, !Z.eqb_eq. intros [?|[-> H1]] [?|[-> H2]]; try (left; lia).
  right. split; [done|]. destruct x, y, z; cbn in *; rewrite ?Z.leb_le in *; (lia || done).
Qed.

Lemma push_perm x h : push x h ≡ₚ x :: h.
Proof.
  induction h as [|y h IH]; [done|]. cbn [push]. destruct (key_leb x y); [done|]. rewrite IH. by constructor.
Qed.

Lemma push_sorted x h : StronglySorted key_le h → StronglySorted key_le (push x h).
Proof.
  induction 1 as [|y h Hs IH Hy]; [by repeat constructor|]. cbn [push]. destruct (key_leb x y) eqn:E.
  - constructor; [by constructor|]. constructor; [done|]. eapply Forall_impl; [exact Hy|]. intros z. by apply key_le_trans.
  - constructor; [done|]. rewrite push_perm. constructor; [by apply key_le_total|done].
Qed.

(** Every tracked address has its heap entry. *)
Definition live_in (m : gmap IpAddr (Z * Z)) (h : list (Z * IpAddr)) : Prop :=
  ∀ ip c ts, m !! ip = Some (c, ts) → (ts, ip) ∈ h.

Definition tracker_inv (t : AuthFailureTracker) : Prop :=
  StronglySorted key_le (eviction_heap t) ∧ live_in (entries t) (eviction_heap t) ∧
  (size (entries t) <= Nat.max 1 (max_entries t))%nat.

(** The oldest entries of a table. *)
Definition oldest (m : gmap IpAddr (Z * Z)) (ip : IpAddr) : Prop :=
  ∃ c ts, m !! ip = Some (c, ts) ∧ ∀ ip' c' ts', m !! ip' = Some (c', ts') → ts <= ts'.

Lemma evict_oldest h m :
  StronglySorted key_le h → live_in m h → m ≠ ∅ →
  ∃ ip h', evict h m = (h', delete ip m) ∧ oldest m ip ∧ StronglySorted key_le h' ∧ live_in (delete ip m) h'.
Proof.
  intros Hs. induction Hs as [|[ts ip] h Hs IH Hall]; intros Hl Hne.
  - apply map_choose in Hne as (ip & [c ts] & H). apply Hl in H. by apply not_elem_of_nil in H.
  - cbn [evict]. destruct (m !! ip) as [[c ts']|] eqn:E; [destruct (Z.eqb_spec ts' ts) as [->|Hts]|].
    + exists ip, h. split_and!; [done| |done|].
      * exists c, ts. split; [done|]. intros ip' c' ts' H. apply Hl in H. apply elem_of_cons in H as [[= -> ->]|H]; [done|].
        rewrite Forall_forall in Hall. by apply Hall, key_le_ts in H.
      * intros ip' c' ts' [Hne' H]%lookup_delete_Some. apply Hl in H. apply elem_of_cons in H as [[= -> ->]|H]; done.
    + apply IH; [|done]. intros ip' c' ts'' H. pose proof H as H'. apply Hl in H'.
      apply elem_of_cons in H' as [[= -> ->]|H']; [congruence|done].
    + apply IH; [|done]. intros ip' c' ts'' H. pose proof H as H'. apply Hl in H'.
      apply elem_of_cons in H' as [[= -> ->]|H']; [congruence|done].
Qed.

Lemma live_in_insert m h ip c ts : live_in m h → live_in (<[ ip := (c, ts) ]> m) (push (ts, ip) h).
Proof.
  intros Hl ip' c' ts'. rewrite push_perm. intros [[-> [= -> ->]]|[Hne H]]%lookup_insert_Some; [by left|].
  right. by eapply Hl.
Qed.

(** The count an attempt leaves: one more within the window, else one. *)
Definition next_count (now : Z) (ip : IpAddr) (t : AuthFailureTracker) : Z :=
  match entries t !! ip with
  | Some (count, start) => if window t <? Z.max 0 (now - start) then 1 else (count + 1) mod 2 ^ 32
  | None => 1
  end.

(** What happens to the other addresses. *)
Definition others_kept (ip : IpAddr) (t t' : AuthFailureTracker) : Prop :=
  (∀ ip', ip' ≠ ip → entries t' !! ip' = entries t !! ip') ∨
  entries t !! ip = None ∧ (max_entries t <= tracked_count t)%nat ∧
  ∃ victim, oldest (entries t) victim ∧ entries t' !! victim = None ∧
    ∀ ip', ip' ≠ ip → ip' ≠ victim → entries t' !! ip' = entries t !! ip'.

Lemma others_insert ip x t h n th w : others_kept ip t (mkTracker (<[ ip := x ]> (entries t)) h n th w).
Proof. left. intros ip' Hne. cbn. by apply lookup_insert_ne. Qed.

Lemma evict_empty h : evict h ∅ = ([], ∅).
Proof. induction h as [|[ts v] h IH]; [done|]. cbn [evict]. by rewrite lookup_empty. Qed.

(** A new address, at capacity or not. *)
Lemma record_new now ip t :
  tracker_inv t → entries t !! ip = None →
  let t' := (record_failure now ip t).2 in
  tracker_inv t' ∧ entries t' !! ip = Some (1, now) ∧ others_kept ip t t'.
Proof.
  intros (Hs & Hl & Hsz) Hip. unfold record_failure. rewrite Hip.
  destruct (Nat.leb_spec (max_entries t) (size (entries t))) as [Hfull|Hroom].
  - destruct (decide (entries t = ∅)) as [He|Hne].
    + assert (evict (eviction_heap t) (entries t) = ([], ∅)) as ->.
      { rewrite He. apply evict_empty. }
      cbn [snd]. split; [split_and!|]; cbn.
      * repeat constructor.
      * by apply (live_in_insert ∅ []).
      * rewrite map_size_insert_None by apply lookup_empty. rewrite map_size_empty. lia.
      * split; [apply lookup_insert_eq|]. left. intros ip' Hne. cbn. by rewrite He, lookup_insert_ne.
    + destruct (evict_oldest _ _ Hs Hl Hne) as (v & h' & -> & Hold & Hs' & Hl'). cbn [snd].
      pose proof Hold as (c & ts & Hv & _). assert (Hvip : v ≠ ip) by congruence.
      split; [split_and!|]; cbn.
      * by apply push_sorted.
      * by apply live_in_insert.
      * rewrite map_size_insert_None by (by rewrite lookup_delete_ne).
        rewrite map_size_delete_Some by (by rewrite Hv). lia.
      * split; [apply lookup_insert_eq|]. right. split_and!; [done|done|]. exists v. split_and!; [done| |].
        -- cbn. by rewrite lookup_insert_ne, lookup_delete_eq.
        -- intros ip' H1 H2. cbn. by rewrite lookup_insert_ne, lookup_delete_ne.
  - cbn [snd]. split; [split_and!|split; [apply lookup_insert_eq|apply others_insert]]; cbn.
    + by apply push_sorted.
    + by apply live_in_insert.
    + rewrite map_size_insert_None by done. lia.
Qed.

(** A tracked address. *)
Lemma record_known now ip t x :
  tracker_inv t → entries t !! ip = Some x →
  let t' := (record_failure now ip t).2 in
  tracker_inv t' ∧ failure_count ip t' = next_count now ip t ∧ others_kept ip t t'.
Proof.
  destruct x as [c ts]. intros (Hs & Hl & Hsz) Hip. unfold record_failure, failure_count, next_count. rewrite Hip.
  assert (Hz : ∀ y, size (<[ ip := y ]> (entries t)) = size (entries t))
    by (intros; apply map_size_insert_Some; by rewrite Hip).
  destruct (window t <? Z.max 0 (now - ts)); cbn [snd fst].
  - split_and!; [split_and!| |apply others_insert]; cbn; [by apply push_sorted|by apply live_in_insert| |].
    + by rewrite Hz.
    + by rewrite lookup_insert_eq.
  - split_and!; [split_and!| |apply others_insert]; cbn; [done| | |].
    + intros ip' c' ts' [[<- [= _ <-]]|[_ H]]%lookup_insert_Some; [by eapply Hl|by eapply Hl].
    + by rewrite Hz.
    + by rewrite lookup_insert_eq.
Qed.

Lemma record_failure_signal now ip t : (record_failure now ip t).1 = (next_count now ip t =? threshold t).
Proof.
  unfold record_failure, next_count. destruct (entries t !! ip) as [[c ts]|].
  - by destruct (window t <? _).
  - by destruct (if (_ <=? _)%nat then _ else _).
Qed.

Lemma record_failure_ok now ip t :
  tracker_inv t →
  let t' := (record_failure now ip t).2 in
  tracker_inv t' ∧ failure_count ip t' = next_count now ip t ∧ others_kept ip t t'.
Proof.
  intros Ht. destruct (entries t !! ip) as [x|] eqn:E; [by eapply record_known|].
  destruct (record_new now ip t Ht E) as (H1 & H2 & H3). split_and!; [done| |done].
  unfold failure_count, next_count. by rewrite H2, E.
Qed.

Lemma record_success_inv ip t : tracker_inv t → tracker_inv (record_success ip t).
Proof.
  intros (Hs & Hl & Hsz). split_and!; cbn; [done| |].
  - intros ip' c ts [_ H]%lookup_delete_Some. by eapply Hl.
  - assert (size (delete ip (entries t)) <= size (entries t))%nat; [|lia].
    destruct (entries t !! ip) eqn:E; [rewrite map_size_delete_Some by (by rewrite E); lia|by rewrite map_size_delete_None].
Qed.

(** ** Attempts in sequence *)

Inductive Attempt := Failure (now : Z) (ip : IpAddr) | Success (ip : IpAddr).

Definition attempt (t : AuthFailureTracker) (a : Attempt) : AuthFailureTracker :=
  match a with Failure now ip => (record_failure now ip t).2 | Success ip => record_success ip t end.

Lemma attempts_inv l t : tracker_inv t → tracker_inv (foldl attempt t l).
Proof.
  revert t. induction l as [|[now ip|ip] l IH]; intros t Ht; [done| |]; cbn [foldl attempt]; apply IH.
  - by apply record_failure_ok.
  - by apply record_success_inv.
Qed.

Lemma attempts_max l t : max_entries (foldl attempt t l) = max_entries t.
Proof.
  revert t. induction l as [|[now ip|ip] l IH]; intros t; [done| |]; cbn [foldl attempt]; rewrite IH; [|done].
  unfold record_failure. destruct (entries t !! ip) as [[c ts]|]; [by destruct (window t <? _)|].
  by destruct (if (_ <=? _)%nat then _ else _).
Qed.

(** After any sequence of attempts the table holds no more than
    [max_entries] addresses (one, when that is zero), and one more failure
    counts for its address within the window and starts again at one after it,
    signals a lockout exactly when the count becomes the threshold, and leaves
    every other address alone, except that a new address at capacity displaces
    exactly one, whose window is the oldest. *)
Theorem tracker_spec thr win max l now ip :
  let t := foldl attempt (tracker_new thr win max) l in
  (tracked_count t <= Nat.max 1 max)%nat ∧
  let '(lockout, t') := record_failure now ip t in
  (tracked_count t' <= Nat.max 1 max)%nat ∧
  failure_count ip t' = next_count now ip t ∧
  lockout = (failure_count ip t' =? threshold t) ∧ others_kept ip t t'.
Proof.
  intros t. assert (Ht : tracker_inv t).
  { apply attempts_inv. split_and!; [apply SSorted_nil| |cbn; rewrite map_size_empty; lia]. intros ? ? ?. cbn. by rewrite lookup_empty. }
  assert (Hm : max_entries t = max) by apply attempts_max.
  pose proof (record_failure_ok now ip t Ht) as (Ht' & Hc & Ho). pose proof (record_failure_signal now ip t) as Hsig.
  pose proof (attempts_max [Failure now ip] t) as Hm'. cbn [foldl attempt] in Hm'.
  destruct (record_failure now ip t) as [lockout t']. cbn [fst snd] in *. unfold tracked_count.
  destruct Ht as (_ & _ & Hsz), Ht' as (_ & _ & Hsz'). rewrite Hm in Hsz. rewrite Hm', Hm in Hsz'.
  split; [done|]. split_and!; [done|done| |done]. by rewrite Hsig, Hc.
Qed.

(** The failures of one address, each followed by a success. *)
Definition rounds (ip : IpAddr) (times : list Z) : list Attempt :=
  concat ((λ now, [Failure now ip; Success ip]) <$> times).

(** The eviction heap is not bounded by the table: an address that fails
    and then succeeds leaves a heap entry behind each time, while the table is
    empty throughout. *)
Theorem heap_outgrows_table thr win max ip times :
  let t := foldl attempt (tracker_new thr win (S max)) (rounds ip times) in
  tracked_count t = 0%nat ∧ length (eviction_heap t) = length times.
Proof.
  assert (H : ∀ t, max_entries t = S max → entries t = ∅ →
    let t' := foldl attempt t (rounds ip times) in
    entries t' = ∅ ∧ length (eviction_heap t') = (length times + length (eviction_heap t))%nat).
  { induction times as [|now times IH]; intros t Hm He; [done|].
    cbn [rounds concat fmap list_fmap app foldl attempt]. fold (rounds ip times).
    destruct (IH (record_success ip (record_failure now ip t).2)) as [H1 H2].
    - by rewrite <- Hm, <- (attempts_max [Failure now ip; Success ip] t).
    - unfold record_failure. rewrite He, lookup_empty, map_size_empty, Hm. cbn. by rewrite delete_insert_id.
    - split; [done|]. rewrite H2. unfold record_failure. rewrite He, lookup_empty, map_size_empty, Hm. cbn.
      rewrite push_perm. cbn. lia. }
  intros t. destruct (H (tracker_new thr win (S max))) as [H1 H2]; [done..|]. fold t in H1, H2.
  unfold tracked_count. rewrite H1, H2, map_size_empty. cbn. split; [done|lia].
Qed.

End AuthLimiter.
