(* ===== verification/Credentials.v ===== *)
(** The credential stores of [crates/auth]: passwords ([store.rs]), pinned
    certificates ([client_cert_store.rs]), trusted certificate issuers
    ([trusted_issuer_store.rs]) and OIDC providers ([oidc.rs]).

    bcrypt, X.509, JWT validation and the network are parameters; the clock is an
    argument.  A [HashMap] is a [gmap], its iteration order a parameter. *)

From S2P Require Import Prelude Bytes Decimal Utf8 Wildmat Article Validation Headers Util Crypto PeerAuth Overview NntpResponse Injection ArticleSig PostChecks.

Module Credentials.
Import Decimal Utf8 PeerAuth ArticleSig PostChecks.

(** ** Passwords *)

Record UserCredential := mkUser { username : bytes; password : bytes }.

Inductive CredentialStoreError :=
| IoError (label source : bytes)
| MalformedLine (label : bytes) (line_num : nat)
| EmptyUsername (label : bytes) (line_num : nat)
| BadHash (label username : bytes).

Class BcryptLib := {
  (** [bcrypt::hash(password, cost)]: a fresh salt is an argument. *)
  bcrypt_hash : bytes → bytes → Z → bytes;
  (** [bcrypt::verify(password, hash).unwrap_or(false)]. *)
  bcrypt_verify : bytes → bytes → bool;
  BCRYPT_DEFAULT_COST : Z;
  (** [HashMap::values]. *)
  hash_values : gmap bytes bytes → list bytes
}.

Class BcryptLaws (lib : BcryptLib) : Prop := {
  (** A hash verifies its password. *)
  bcrypt_verifies salt pw cost : 4 <= cost <= 31 → bcrypt_verify pw (bcrypt_hash salt pw cost) = true;
  default_cost_ok : 4 <= BCRYPT_DEFAULT_COST <= 31;
  hash_values_perm m : hash_values m ≡ₚ (map_to_list m).*2
}.

Section Passwords.
Context {bcrypt : BcryptLib}.

Definition parse_u32 (s : bytes) : option Z :=
  v ← parse_u64 s; if v <=? u32_max then Some v else None.

Definition BCRYPT_VERSIONS : list bytes := [lit "2a"; lit "2b"; lit "2x"; lit "2y"].

(** [splitn(4, '$')]: the second and third parts. *)
Definition parse_bcrypt_cost (hash : bytes) : option Z :=
  let parts := split 36 hash in
  version ← parts !! 1%nat;
  if bool_decide (version ∉ BCRYPT_VERSIONS) then None else
  cost ← (parts !! 2%nat ≫= parse_u32);
  if negb ((4 <=? cost) && (cost <=? 31)) then None else Some cost.

Definition looks_like_bcrypt_hash (s : bytes) : bool :=
  (60 <=? length s)%nat && bool_decide (is_Some (parse_bcrypt_cost s)).

Definition DUMMY_PASSWORD : bytes := lit "__dummy__never_matches__".

Fixpoint find_cost (hashes : list bytes) : option Z :=
  match hashes with
  | [] => None
  | h :: hashes' => match parse_bcrypt_cost h with Some c => Some c | None => find_cost hashes' end
  end.

Definition make_dummy_hash (salt : bytes) (entries : gmap bytes bytes) : bytes :=
  bcrypt_hash salt DUMMY_PASSWORD (default BCRYPT_DEFAULT_COST (find_cost (hash_values entries))).

Record CredentialStore := mkStore { entries : gmap bytes bytes; dummy_hash : bytes }.

Fixpoint check_hashes (users : list UserCredential) : result CredentialStoreError () :=
  match users with
  | [] => Ok tt
  | u :: users' =>
      if looks_like_bcrypt_hash (password u) then check_hashes users'
      else Err (BadHash (lit "inline users") (username u))
  end.

(** [collect] into a [HashMap]: a later entry replaces an earlier one. *)
Definition collect (l : list (bytes * bytes)) : gmap bytes bytes := foldl (λ m kv, <[ kv.1 := kv.2 ]> m) ∅ l.

Definition from_credentials (salt : bytes) (users : list UserCredential) : result CredentialStoreError CredentialStore :=
  _ ← check_hashes users;
  let entries := collect ((λ u, (to_ascii_lowercase (username u), password u)) <$> users) in
  mret (mkStore entries (make_dummy_hash salt entries)).

Definition empty (salt : bytes) : CredentialStore := mkStore ∅ (make_dummy_hash salt ∅).

Definition is_empty (s : CredentialStore) : bool := bool_decide (entries s = ∅).

(** One line of a credential file; [None] for one that is skipped. *)
Definition parse_credential_line (label : bytes) (lineno : nat) (line : bytes) :
    result CredentialStoreError (option (bytes * bytes)) :=
  let line := trim line in
  if bool_decide (line = []) || starts_with line (lit "#") then Ok None else
  match split_once 58 line with
  | None => Err (MalformedLine label (lineno + 1))
  | Some (user, hash) =>
      let user := to_ascii_lowercase (trim user) in
      let hash := trim hash in
      if bool_decide (user = []) then Err (EmptyUsername label (lineno + 1))
      else if negb (looks_like_bcrypt_hash hash) then Err (BadHash label user)
      else Ok (Some (user, hash))
  end.

Fixpoint read_entries (label : bytes) (lineno : nat) (lines : list bytes) (m : gmap bytes bytes) :
    result CredentialStoreError (gmap bytes bytes) :=
  match lines with
  | [] => Ok m
  | line :: lines' =>
      entry ← parse_credential_line label lineno line;
      read_entries label (S lineno) lines' (match entry with Some (user, hash) => <[ user := hash ]> m | None => m end)
  end.

Definition from_content (salt label content : bytes) : result CredentialStoreError CredentialStore :=
  entries ← read_entries label 0 (str_lines content) ∅;
  mret (mkStore entries (make_dummy_hash salt entries)).

(** [self.entries.extend(other.entries)]. *)
Definition merge_from_content (salt label content : bytes) (s : CredentialStore) :
    result CredentialStoreError CredentialStore :=
  other ← from_content salt label content;
  let merged := entries other ∪ entries s in
  mret (mkStore merged (make_dummy_hash salt merged)).

(** [fs::read_to_string] and [secretx::from_uri(_).get()]. *)
Class SecretSource := {
  read_to_string : bytes → result bytes bytes;
  read_secret : bytes → result bytes bytes
}.

Inductive BuildStoreError := BuildCredentials (e : CredentialStoreError) | BuildSecretx (msg : bytes).

Definition build_credential_store {source : SecretSource} (salt : bytes) (users : list UserCredential)
    (credential_file : option bytes) : result BuildStoreError CredentialStore :=
  store ← map_err BuildCredentials (from_credentials salt users);
  match credential_file with
  | None => mret store
  | Some path =>
      if starts_with path (lit "secretx:") then
        content ← map_err BuildSecretx (read_secret path);
        map_err BuildCredentials (merge_from_content salt path content store)
      else
        content ← map_err (λ e, BuildCredentials (IoError path e)) (read_to_string path);
        map_err BuildCredentials (merge_from_content salt path content store)
  end.

Definition check (s : CredentialStore) (username password : bytes) : bool :=
  let hash := default (dummy_hash s) (entries s !! to_ascii_lowercase username) in
  bcrypt_verify password hash.

End Passwords.

(** ** Pinned certificates *)

Definition normalise (fp : bytes) : bytes :=
  let lower := to_ascii_lowercase fp in
  lit "sha256:" ++ default lower (strip_prefix (lit "sha256:") lower).

Record ClientCertEntry := mkCertEntry { sha256_fingerprint : bytes; cert_username : bytes }.

Abbreviation ClientCertStore := (gmap bytes bytes) (only parsing).

Definition certs_from_config (entries : list ClientCertEntry) : ClientCertStore :=
  collect ((λ e, (normalise (sha256_fingerprint e), to_ascii_lowercase (cert_username e))) <$> entries).

Definition cert_lookup (store : ClientCertStore) (fingerprint : bytes) : option bytes :=
  store !! normalise fingerprint.

(** ** Trusted issuers *)

Definition OID_ED25519 : list Z := [1; 3; 101; 112].

(** What the code reads of a certificate. *)
Record X509 := mkX509 {
  x_not_after : Z;
  (** The attributes of the subject in order: is it a common name, and its text. *)
  x_subject : list (bool * option bytes);
  x_subject_raw : bytes;
  x_issuer_raw : bytes;
  x_sig_oid : option (list Z);
  x_tbs : bytes;
  x_signature : bytes;
  x_spki : bytes
}.

Class X509Lib := {
  (** [parse_x509_pem] and [X509Certificate::from_der]. *)
  parse_pem : bytes → result bytes bytes;
  parse_x509 : bytes → result bytes X509;
  (** [validity().is_valid()] at a time. *)
  is_valid_at : X509 → Z → bool;
  (** [SubjectPublicKeyInfo::from_der]: the algorithm's arcs and the key's bits. *)
  parse_spki : bytes → option (option (list Z) * bytes)
}.

Record TrustedIssuer := mkIssuer { spki_der : bytes; subject_der : bytes; not_after_secs : Z }.

Section Issuers.
Context {siglib : SigLib} {keys : KeyLib} {text : SigTextLib} {x509 : X509Lib}.

Definition issuer_from_pem (now : Z) (pem_bytes path : bytes) : result bytes TrustedIssuer :=
  der ← map_err (λ e, lit "trusted_issuer: cannot parse PEM from '" ++ path ++ lit "': " ++ e) (parse_pem pem_bytes);
  ca_cert ← map_err (λ e, lit "trusted_issuer: cannot parse X.509 from '" ++ path ++ lit "': " ++ e) (parse_x509 der);
  if negb (is_valid_at ca_cert now)
  then Err (lit "trusted_issuer: CA certificate '" ++ path ++ lit "' is expired or not yet valid")
  else mret (mkIssuer (x_spki ca_cert) (x_subject_raw ca_cert) (x_not_after ca_cert)).

Fixpoint issuers_from_config {source : SecretSource} (now : Z) (cert_paths : list bytes) :
    result bytes (list TrustedIssuer) :=
  match cert_paths with
  | [] => Ok []
  | path :: paths =>
      pem_bytes ← map_err (λ e, lit "trusted_issuer: cannot read '" ++ path ++ lit "': " ++ e) (read_to_string path);
      issuer ← issuer_from_pem now pem_bytes path;
      issuers ← issuers_from_config now paths;
      mret (issuer :: issuers)
  end.

(** The first common name that is text. *)
Fixpoint extract_cn (subject : list (bool * option bytes)) : option bytes :=
  match subject with
  | [] => None
  | (true, Some s) :: _ => Some s
  | _ :: subject' => extract_cn subject'
  end.

(** [0x00] and [n] bytes, or [n] bytes. *)
Definition bit_string (n : nat) (data : bytes) : option bytes :=
  if (length data =? S n)%nat && bool_decide (head data = Some 0) then Some (drop 1 data)
  else if (length data =? n)%nat then Some data
  else None.

Definition ed25519_verify_with_spki (tbs_bytes sig_bytes spki_der : bytes) : bool :=
  match parse_spki spki_der with
  | Some (Some alg_arcs, key_data) =>
      if bool_decide (alg_arcs ≠ OID_ED25519) then false else
      match bit_string 32 key_data with
      | None => false
      | Some key_bytes =>
          match vk_from_bytes key_bytes with
          | None => false
          | Some verifying_key =>
              if (length sig_bytes =? 64)%nat then ed_verify_strict verifying_key tbs_bytes sig_bytes else false
          end
      end
  | _ => false
  end.

Fixpoint try_issuers (now_secs : Z) (leaf : X509) (cn sig_bytes : bytes) (issuers : list TrustedIssuer) :
    result bytes (option bytes) :=
  match issuers with
  | [] => Ok None
  | issuer :: issuers' =>
      if not_after_secs issuer <? now_secs then try_issuers now_secs leaf cn sig_bytes issuers'
      else if negb (bool_decide (subject_der issuer = x_issuer_raw leaf)) then
        try_issuers now_secs leaf cn sig_bytes issuers'
      else if negb (ed25519_verify_with_spki (x_tbs leaf) sig_bytes (spki_der issuer)) then
        Err (lit "trusted_issuer: certificate has an invalid signature")
      else Ok (Some cn)
  end.

Definition verify_and_extract_cn (now : Z) (issuers : list TrustedIssuer) (leaf_der : bytes) :
    result bytes (option bytes) :=
  if bool_decide (issuers = []) then Ok None else
  match parse_x509 leaf_der with
  | Err _ => Ok None
  | Ok leaf =>
      if negb (is_valid_at leaf now) then Ok None else
      match extract_cn (x_subject leaf) with
      | None => Ok None
      | Some cn =>
          if negb (bool_decide (x_sig_oid leaf = Some OID_ED25519)) then Ok None else
          match bit_string 64 (x_signature leaf) with
          | None => Ok None
          | Some sig_bytes => try_issuers (Z.max 0 now) leaf cn sig_bytes issuers
          end
      end
  end.

End Issuers.

(** ** OIDC providers *)

Definition JWKS_TTL : Z := 3600.
Definition NBF_LEEWAY_SECS : Z := 60.

Record Jwk := mkJwk {
  kid : option bytes;
  kty : bytes;
  key_use : option bytes;
  alg : option bytes;
  rsa_n : option bytes;
  rsa_e : option bytes;
  ec_crv : option bytes;
  ec_x : option bytes;
  ec_y : option bytes
}.

Inductive Algorithm := RS256 | RS384 | RS512 | PS256 | PS384 | PS512 | ES256 | ES384.

Inductive OidcError :=
| AllProvidersFailed (s : bytes)
| OidcConfig (s : bytes)
| InvalidToken (s : bytes)
| InvalidKey (s : bytes)
| KeyNotFound
| MissingClaim (s : bytes)
| UnsupportedKeyType (s : bytes)
| UnsupportedAlgorithm (s : bytes)
| OidcHttp (e : bytes).

Definition oidc_error_text (e : OidcError) : bytes :=
  match e with
  | AllProvidersFailed s => lit "OIDC: " ++ s
  | OidcConfig s => lit "OIDC config: " ++ s
  | InvalidToken s => lit "OIDC invalid token: " ++ s
  | InvalidKey s => lit "OIDC invalid key: " ++ s
  | KeyNotFound => lit "OIDC key not found in JWKS"
  | MissingClaim s => lit "OIDC missing claim '" ++ s ++ lit "'"
  | UnsupportedKeyType s => lit "OIDC unsupported key type '" ++ s ++ lit "' (only RSA and EC supported)"
  | UnsupportedAlgorithm s => lit "OIDC unsupported algorithm '" ++ s ++ lit "'"
  | OidcHttp e => lit "OIDC HTTP error: " ++ e
  end.

Record OidcProviderConfig := mkProvider { oidc_issuer : bytes; oidc_audience : bytes; username_claim : bytes }.

(** The claims the code reads: strings by name, and [nbf] as an [i64]. *)
Record Claims := mkClaims { claim_str : bytes → option bytes; claim_nbf : option Z }.

Class OidcLib := {
  DecodingKey : Type;
  from_rsa_components : bytes → bytes → result bytes DecodingKey;
  from_ec_components : bytes → bytes → result bytes DecodingKey;
  (** [jsonwebtoken::decode_header]: the [kid]. *)
  decode_header : bytes → result bytes (option bytes);
  (** [jsonwebtoken::decode] of a token with a key, an algorithm, an audience
      and an issuer, [exp] required and checked, at a time. *)
  decode_token : bytes → DecodingKey → Algorithm → bytes → bytes → Z → result bytes Claims;
  (** GET of the discovery document, its [jwks_uri], and GET of the key set, at a time. *)
  get_jwks_uri : bytes → Z → result bytes (option bytes);
  get_jwks : bytes → Z → result bytes (list Jwk)
}.

(** A provider with its key cache and the time of the fetch. *)
Record ProviderValidator := mkValidator { pv_config : OidcProviderConfig; pv_cache : option (list Jwk * Z) }.

Section Oidc.
Context {oidc : OidcLib}.

Definition discover_jwks_uri (now : Z) (c : OidcProviderConfig) : result OidcError bytes :=
  let url := rev (drop_while (Z.eqb 47) (rev (oidc_issuer c))) ++ lit "/.well-known/openid-configuration" in
  uri ← map_err OidcHttp (get_jwks_uri url now);
  match uri with
  | Some u => Ok u
  | None => Err (OidcConfig (lit "jwks_uri not found in OIDC discovery document"))
  end.

Definition fetch_fresh_keys (now : Z) (c : OidcProviderConfig) : result OidcError (list Jwk) :=
  jwks_uri ← discover_jwks_uri now c;
  map_err OidcHttp (get_jwks jwks_uri now).

Definition get_keys (now : Z) (force : bool) : prog ProviderValidator OidcError (list Jwk) := λ p,
  let fetch :=
    match fetch_fresh_keys now (pv_config p) with
    | Ok keys => (Ok keys, mkValidator (pv_config p) (Some (keys, now)))
    | Err e => (Err e, p)
    end in
  if force then fetch
  else match pv_cache p with
       | Some (keys, fetched_at) => if now - fetched_at <? JWKS_TTL then (Ok keys, p) else fetch
       | None => fetch
       end.

Definition required {A} (x : option A) (e : OidcError) : result OidcError A :=
  match x with Some a => Ok a | None => Err e end.

Definition rsa_alg (jwk : Jwk) : result OidcError Algorithm :=
  match alg jwk with
  | None => Ok RS256
  | Some a =>
      if bool_decide (a = lit "RS256") then Ok RS256
      else if bool_decide (a = lit "RS384") then Ok RS384
      else if bool_decide (a = lit "RS512") then Ok RS512
      else if bool_decide (a = lit "PS256") then Ok PS256
      else if bool_decide (a = lit "PS384") then Ok PS384
      else if bool_decide (a = lit "PS512") then Ok PS512
      else Err (UnsupportedAlgorithm a)
  end.

Definition ec_alg (jwk : Jwk) : result OidcError Algorithm :=
  match alg jwk with
  | Some a =>
      if bool_decide (a = lit "ES256") then Ok ES256
      else if bool_decide (a = lit "ES384") then Ok ES384
      else Err (UnsupportedAlgorithm a)
  | None =>
      match ec_crv jwk with
      | Some c =>
          if bool_decide (c = lit "P-256") then Ok ES256
          else if bool_decide (c = lit "P-384") then Ok ES384
          else Err (UnsupportedAlgorithm (lit "EC curve '" ++ c ++ lit "' (no alg field; ES512/P-521 not supported)"))
      | None => Err (InvalidKey (lit "EC JWK has no 'alg' and no 'crv' field; cannot determine algorithm"))
      end
  end.

Definition decoding_key_and_alg (jwk : Jwk) : result OidcError (DecodingKey * Algorithm) :=
  if bool_decide (kty jwk = lit "RSA") then
    n ← required (rsa_n jwk) (InvalidKey (lit "RSA JWK missing 'n'"));
    e ← required (rsa_e jwk) (InvalidKey (lit "RSA JWK missing 'e'"));
    key ← map_err InvalidKey (from_rsa_components n e);
    alg ← rsa_alg jwk;
    mret (key, alg)
  else if bool_decide (kty jwk = lit "EC") then
    x ← required (ec_x jwk) (InvalidKey (lit "EC JWK missing 'x'"));
    y ← required (ec_y jwk) (InvalidKey (lit "EC JWK missing 'y'"));
    key ← map_err InvalidKey (from_ec_components x y);
    alg ← ec_alg jwk;
    mret (key, alg)
  else Err (UnsupportedKeyType (kty jwk)).

Definition try_key (now : Z) (c : OidcProviderConfig) (token : bytes) (jwk : Jwk) : result OidcError bytes :=
  '(decoding_key, alg) ← decoding_key_and_alg jwk;
  claims ← map_err InvalidToken (decode_token token decoding_key alg (oidc_audience c) (oidc_issuer c) now);
  _ ← (match claim_nbf claims with
       | Some nbf => if now + NBF_LEEWAY_SECS <? nbf then Err (InvalidToken (lit "token not yet valid")) else Ok tt
       | None => Ok tt
       end);
  match claim_str claims (username_claim c) with
  | Some u => Ok u
  | None => required (claim_str claims (lit "sub")) (MissingClaim (username_claim c))
  end.

Fixpoint try_keys (now : Z) (c : OidcProviderConfig) (token : bytes) (last_err : OidcError) (candidates : list Jwk) :
    result OidcError bytes :=
  match candidates with
  | [] => Err last_err
  | jwk :: candidates' =>
      match try_key now c token jwk with
      | Ok username => Ok username
      | Err e => try_keys now c token e candidates'
      end
  end.

Definition is_sig_key (k : Jwk) : bool := bool_decide (default (lit "sig") (key_use k) = lit "sig").

Definition validate_with_keys (now : Z) (c : OidcProviderConfig) (token : bytes) (keys : list Jwk) :
    result OidcError bytes :=
  header_kid ← map_err InvalidToken (decode_header token);
  let candidates :=
    match header_kid with
    | Some id => filter (λ k, is_sig_key k = true) (filter (λ k, kid k = Some id) keys)
    | None => filter (λ k, is_sig_key k = true) keys
    end in
  if bool_decide (candidates = []) then Err KeyNotFound
  else try_keys now c token KeyNotFound candidates.

Definition provider_validate_jwt (now : Z) (token : bytes) : prog ProviderValidator OidcError bytes := λ p,
  match get_keys now false p with
  | (Err e, p1) => (Err e, p1)
  | (Ok keys, p1) =>
      match validate_with_keys now (pv_config p) token keys with
      | Err KeyNotFound =>
          match get_keys now true p1 with
          | (Err e, p2) => (Err e, p2)
          | (Ok keys', p2) => (validate_with_keys now (pv_config p) token keys', p2)
          end
      | r => (r, p1)
      end
  end.

Fixpoint try_providers (now : Z) (token : bytes) (errors : list bytes) (ps : list ProviderValidator) :
    result OidcError bytes * list ProviderValidator :=
  match ps with
  | [] => (Err (AllProvidersFailed (lit "all providers rejected the token: [" ++ join (lit "; ") errors ++ lit "]")), [])
  | p :: ps' =>
      match provider_validate_jwt now token p with
      | (Ok username, p') => (Ok username, p' :: ps')
      | (Err e, p') =>
          let '(r, ps'') := try_providers now token (errors ++ [oidc_error_text e]) ps' in (r, p' :: ps'')
      end
  end.

Definition validate_jwt (now : Z) (token : bytes) : prog (list ProviderValidator) OidcError bytes := λ ps,
  if bool_decide (ps = []) then (Err (OidcConfig (lit "no OIDC providers configured")), ps)
  else try_providers now token [] ps.

End Oidc.

(** ** The configuration *)

(** [AuthConfig] of the servers for mail; of the trusted issuers only the paths. *)
Record AuthConfig := mkAuthConfig {
  auth_required : bool;
  auth_users : list UserCredential;
  auth_credential_file : option bytes;
  auth_client_certs : list ClientCertEntry;
  auth_trusted_issuers : list bytes;
  auth_oidc_providers : list OidcProviderConfig;
  operator_usernames : list bytes
}.

Definition is_dev_mode (c : AuthConfig) : bool :=
  negb (auth_required c) && bool_decide (auth_users c = []) && bool_decide (auth_credential_file c = None) &&
  bool_decide (auth_client_certs c = []) && bool_decide (auth_trusted_issuers c = []) && bool_decide (auth_oidc_providers c = []).

Definition is_operator (c : AuthConfig) (username : bytes) : bool :=
  existsb (λ u, bool_decide (to_ascii_lowercase u = to_ascii_lowercase username)) (operator_usernames c).

(** ** What a password is checked against *)

(** The last entry for a user. *)
Definition pick (user : bytes) (acc : option bytes) (kv : bytes * bytes) : option bytes :=
  if bool_decide (kv.1 = user) then Some kv.2 else acc.

Definition last_hash (user : bytes) (l : list (bytes * bytes)) : option bytes := foldl (pick user) None l.

Lemma foldl_insert_lookup (l : list (bytes * bytes)) (m : gmap bytes bytes) user :
  foldl (λ m kv, <[ kv.1 := kv.2 ]> m) m l !! user = foldl (pick user) (m !! user) l.
Proof.
  revert m. induction l as [|[k v] l IH]; intros m; [done|]. cbn [foldl fst snd]. rewrite IH. f_equal. unfold pick.
  case_bool_decide as Hk; cbn in Hk; [subst; apply lookup_insert_eq|by apply lookup_insert_ne].
Qed.

Lemma collect_lookup l user : collect l !! user = last_hash user l.
Proof. unfold collect, last_hash. by rewrite foldl_insert_lookup, lookup_empty. Qed.

Lemma foldl_pick user acc l :
  foldl (pick user) acc l = match last_hash user l with Some h => Some h | None => acc end.
Proof.
  unfold last_hash. revert acc. induction l as [|kv l IH]; intros acc; [done|]. cbn [foldl].
  rewrite IH, (IH (pick user None kv)). destruct (foldl _ None l); [done|]. unfold pick. by case_bool_decide.
Qed.

Lemma last_hash_app user l1 l2 :
  last_hash user (l1 ++ l2) = match last_hash user l2 with Some h => Some h | None => last_hash user l1 end.
Proof. unfold last_hash at 1. rewrite foldl_app. apply foldl_pick. Qed.

Section PasswordLaws.
Context {bcrypt : BcryptLib} {source : SecretSource}.

(** The entries of a credential file, in order. *)
Definition file_entries (label : bytes) (lines : list bytes) : list (bytes * bytes) :=
  omap (λ line, match parse_credential_line label 0 line with Ok kv => kv | Err _ => None end) lines.

Lemma parse_line_number label n n' line kv :
  parse_credential_line label n line = Ok kv → parse_credential_line label n' line = Ok kv.
Proof.
  unfold parse_credential_line. cbv zeta. destruct (bool_decide _ || _); [done|].
  destruct (split_once 58 (trim line)) as [[u h]|]; [|done]. destruct (bool_decide (_ = [])); [done|].
  by destruct (negb _).
Qed.

Lemma read_entries_Ok label n lines m m' :
  read_entries label n lines m = Ok m' → m' = foldl (λ m kv, <[ kv.1 := kv.2 ]> m) m (file_entries label lines).
Proof.
  revert n m. induction lines as [|line lines IH]; intros n m; cbn [read_entries]; [by intros [= ->]|].
  destruct (parse_credential_line label n line) as [kv|e] eqn:E; [|done]. cbn [mbind result_bind].
  intros H. apply IH in H. unfold file_entries. cbn [omap list_omap]. rewrite (parse_line_number _ _ 0 _ _ E).
  by destruct kv as [[u h]|].
Qed.

Definition inline_entries (users : list UserCredential) : list (bytes * bytes) :=
  (λ u, (to_ascii_lowercase (username u), password u)) <$> users.

(** What [credential_file] contributes. *)
Definition configured (users : list UserCredential) (credential_file : option bytes) (l : list (bytes * bytes)) : Prop :=
  match credential_file with
  | None => l = inline_entries users
  | Some path => ∃ content,
      (if starts_with path (lit "secretx:") then read_secret path else read_to_string path) = Ok content ∧
      l = inline_entries users ++ file_entries path (str_lines content)
  end.

Lemma from_credentials_Ok salt users s :
  from_credentials salt users = Ok s →
  entries s = collect (inline_entries users) ∧ dummy_hash s = make_dummy_hash salt (entries s).
Proof. unfold from_credentials. destruct (check_hashes users); [|done]. by intros [= <-]. Qed.

Lemma merge_Ok salt label content s s' :
  merge_from_content salt label content s = Ok s' →
  (∀ u, entries s' !! u = match last_hash u (file_entries label (str_lines content)) with
                          | Some h => Some h | None => entries s !! u end) ∧
  dummy_hash s' = make_dummy_hash salt (entries s').
Proof.
  unfold merge_from_content, from_content. destruct (read_entries _ _ _ _) as [m|e] eqn:E; [|done].
  cbn. intros [= <-]. cbn. split; [|done]. intros u. apply read_entries_Ok in E.
  rewrite lookup_union, E. fold (collect (file_entries label (str_lines content))). rewrite collect_lookup.
  by destruct (last_hash u _), (entries s !! u).
Qed.

(** The store holds the last entry of each user, the file's after the inline ones. *)
Lemma build_credential_store_Ok salt users file s :
  build_credential_store salt users file = Ok s →
  ∃ l, configured users file l ∧ (∀ u, entries s !! u = last_hash u l) ∧
    dummy_hash s = make_dummy_hash salt (entries s).
Proof.
  unfold build_credential_store. destruct (from_credentials salt users) as [s0|e] eqn:E0; [|done].
  apply from_credentials_Ok in E0 as [H1 H2]. cbn [map_err mbind result_bind]. destruct file as [path|].
  - intros H. assert (Hm : ∃ content,
      (if starts_with path (lit "secretx:") then read_secret path else read_to_string path) = Ok content ∧
      merge_from_content salt path content s0 = Ok s).
    { destruct (starts_with path (lit "secretx:"));
        [destruct (read_secret path) as [c|]|destruct (read_to_string path) as [c|]]; try done;
        exists c; cbn in H; destruct (merge_from_content salt path c s0); naive_solver. }
    destruct Hm as (content & Hc & Hm). apply merge_Ok in Hm as [Hm Hd].
    exists (inline_entries users ++ file_entries path (str_lines content)). split_and!; [by exists content| |done].
    intros u. by rewrite Hm, last_hash_app, H1, collect_lookup.
  - intros [= <-]. exists (inline_entries users). split_and!; [done| |done]. intros u. by rewrite H1, collect_lookup.
Qed.

Context {laws : BcryptLaws bcrypt}.

Lemma parse_bcrypt_cost_range h c : parse_bcrypt_cost h = Some c → 4 <= c <= 31.
Proof.
  unfold parse_bcrypt_cost. cbv zeta. destruct (split 36 h !! 1%nat); [|done]. cbn. case_bool_decide; [done|].
  destruct (split 36 h !! 2%nat ≫= parse_u32) as [x|]; [|done]. cbn.
  destruct (negb _) eqn:E; [done|]. intros [= <-]. to_prop. lia.
Qed.

(** The dummy hash is that of a fixed password, at a valid cost. *)
Lemma dummy_hash_made salt m :
  ∃ cost, 4 <= cost <= 31 ∧ make_dummy_hash salt m = bcrypt_hash salt DUMMY_PASSWORD cost.
Proof.
  unfold make_dummy_hash. eexists. split; [|done]. destruct (find_cost (hash_values m)) as [c|] eqn:E; [|apply default_cost_ok].
  cbn. induction (hash_values m) as [|h l IH]; [done|]. cbn [find_cost] in E.
  destruct (parse_bcrypt_cost h) as [c'|] eqn:Eh; [|by apply IH]. injection E as ->. by eapply parse_bcrypt_cost_range.
Qed.

(** C22. What [CredentialStore::check] accepts.  A store built from the inline
    users and the credential file checks the password of a user named there,
    in any case, against the last hash given for that name, the file's entries
    coming after the inline ones.  But a user named nowhere is checked against
    a hash of the fixed text [__dummy__never_matches__], and that password
    verifies: any unknown user name logs in with it. *)
Theorem unknown_user_logs_in salt users file s user :
  build_credential_store salt users file = Ok s →
  ∃ l, configured users file l ∧
    match last_hash (to_ascii_lowercase user) l with
    | Some h => ∀ pw, check s user pw = bcrypt_verify pw h
    | None => check s user DUMMY_PASSWORD = true
    end.
Proof.
  intros (l & Hl & He & Hd)%build_credential_store_Ok. exists l. split; [done|]. unfold check. rewrite He.
  destruct (last_hash (to_ascii_lowercase user) l) as [h|]; [done|]. cbn [default]. rewrite Hd.
  destruct (dummy_hash_made salt (entries s)) as (cost & Hc & ->). by apply bcrypt_verifies.
Qed.

End PasswordLaws.

(** ** Who signed a login *)

Section IssuerLaws.
Context {siglib : SigLib} {keys : KeyLib} {text : SigTextLib} {x509 : X509Lib}.

(** A certificate is signed by an issuer's Ed25519 key. *)
Definition signed_by (leaf : X509) (issuer : TrustedIssuer) : Prop :=
  ∃ arcs key_data key_bytes vk sig_bytes,
    parse_spki (spki_der issuer) = Some (Some arcs, key_data) ∧ arcs = OID_ED25519 ∧
    bit_string 32 key_data = Some key_bytes ∧ vk_from_bytes key_bytes = Some vk ∧
    bit_string 64 (x_signature leaf) = Some sig_bytes ∧ ed_verify_strict vk (x_tbs leaf) sig_bytes = true.

Lemma verify_with_spki_signed leaf issuer sig_bytes :
  bit_string 64 (x_signature leaf) = Some sig_bytes →
  ed25519_verify_with_spki (x_tbs leaf) sig_bytes (spki_der issuer) = true → signed_by leaf issuer.
Proof.
  intros Hs. unfold ed25519_verify_with_spki.
  destruct (parse_spki (spki_der issuer)) as [[[arcs|] key_data]|] eqn:E1; [|done..].
  case_bool_decide as Ha; [done|]. subst arcs.
  destruct (bit_string 32 key_data) as [kb|] eqn:E2; [|done]. destruct (vk_from_bytes kb) as [vk|] eqn:E3; [|done].
  destruct (_ =? _)%nat; [|done]. intros Hv. by exists OID_ED25519, key_data, kb, vk, sig_bytes.
Qed.

Lemma try_issuers_signed now leaf cn sig_bytes issuers cn' :
  bit_string 64 (x_signature leaf) = Some sig_bytes →
  try_issuers now leaf cn sig_bytes issuers = Ok (Some cn') →
  cn' = cn ∧ ∃ issuer, issuer ∈ issuers ∧ now <= not_after_secs issuer ∧ subject_der issuer = x_issuer_raw leaf ∧
    signed_by leaf issuer.
Proof.
  intros Hs. induction issuers as [|i issuers IH]; [done|]. cbn [try_issuers].
  assert (Hskip : try_issuers now leaf cn sig_bytes issuers = Ok (Some cn') →
    cn' = cn ∧ ∃ issuer, issuer ∈ i :: issuers ∧ now <= not_after_secs issuer ∧
      subject_der issuer = x_issuer_raw leaf ∧ signed_by leaf issuer).
  { intros (-> & i' & Hin & Hi)%IH. split; [done|]. exists i'. split; [by right|done]. }
  destruct (Z.ltb_spec (not_after_secs i) now) as [|Hexp]; [done|].
  case_bool_decide as Hdn; cbn [negb]; [|done].
  destruct (ed25519_verify_with_spki _ _ _) eqn:Ev; [|done]. intros [= <-]. split; [done|].
  exists i. split_and!; [by left|lia|done|by eapply verify_with_spki_signed].
Qed.

(** A name taken from a certificate is the first common name of a certificate
    valid now and signed by a configured issuer it names, itself not expired. *)
Lemma verify_and_extract_cn_signed now issuers der cn :
  verify_and_extract_cn now issuers der = Ok (Some cn) →
  ∃ leaf issuer, parse_x509 der = Ok leaf ∧ is_valid_at leaf now = true ∧ extract_cn (x_subject leaf) = Some cn ∧
    x_sig_oid leaf = Some OID_ED25519 ∧ issuer ∈ issuers ∧ now <= not_after_secs issuer ∧
    subject_der issuer = x_issuer_raw leaf ∧ signed_by leaf issuer.
Proof.
  unfold verify_and_extract_cn. case_bool_decide; [done|]. destruct (parse_x509 der) as [leaf|] eqn:Ep; [|done].
  destruct (is_valid_at leaf now) eqn:Ev; [|done]. cbn [negb].
  destruct (extract_cn (x_subject leaf)) as [cn0|] eqn:Ec; [|done].
  case_bool_decide as Ho; [|done]. cbn [negb]. destruct (bit_string 64 (x_signature leaf)) as [sg|] eqn:Eb; [|done].
  intros Ht. apply try_issuers_signed in Ht as (-> & i & Hi & Hn & Hd & Hs); [|done].
  exists leaf, i. split_and!; (done || lia).
Qed.

End IssuerLaws.

Section OidcLaws.
Context {oidc : OidcLib}.

(** A cache holds what the provider published when it was fetched. *)
Definition cache_ok (p : ProviderValidator) : Prop :=
  ∀ keys t, pv_cache p = Some (keys, t) → fetch_fresh_keys t (pv_config p) = Ok keys.

(** A token is good for a user name at a provider: a signature key the provider
    published less than [JWKS_TTL] ago, the one the token names if it names one,
    verifies it for the provider's issuer and audience, its [nbf] is not in the
    future and it carries the name. *)
Definition vouched (now : Z) (c : OidcProviderConfig) (token user : bytes) : Prop :=
  ∃ t ks jwk key alg claims id,
    now - JWKS_TTL < t <= now ∧ fetch_fresh_keys t c = Ok ks ∧ jwk ∈ ks ∧ is_sig_key jwk = true ∧
    decode_header token = Ok id ∧ (id = None ∨ kid jwk = id) ∧
    decoding_key_and_alg jwk = Ok (key, alg) ∧
    decode_token token key alg (oidc_audience c) (oidc_issuer c) now = Ok claims ∧
    (∀ nbf, claim_nbf claims = Some nbf → nbf <= now + NBF_LEEWAY_SECS) ∧
    (claim_str claims (username_claim c) = Some user ∨
     claim_str claims (username_claim c) = None ∧ claim_str claims (lit "sub") = Some user).

Lemma get_keys_ok now force p :
  cache_ok p → (∀ keys t, pv_cache p = Some (keys, t) → t <= now) →
  let '(r, p') := get_keys now force p in
  cache_ok p' ∧ pv_config p' = pv_config p ∧ (∀ keys t, pv_cache p' = Some (keys, t) → t <= now) ∧
  ∀ keys, r = Ok keys → ∃ t, now - JWKS_TTL < t <= now ∧ fetch_fresh_keys t (pv_config p) = Ok keys.
Proof.
  intros Hc Ht. unfold get_keys. cbv zeta.
  assert (Hf : let '(r, p') := match fetch_fresh_keys now (pv_config p) with
    | Ok keys => (Ok keys, mkValidator (pv_config p) (Some (keys, now))) | Err e => (Err e, p) end in
    cache_ok p' ∧ pv_config p' = pv_config p ∧ (∀ keys t, pv_cache p' = Some (keys, t) → t <= now) ∧
    ∀ keys, r = Ok keys → ∃ t, now - JWKS_TTL < t <= now ∧ fetch_fresh_keys t (pv_config p) = Ok keys).
  { destruct (fetch_fresh_keys now (pv_config p)) as [keys|e] eqn:E; [|done]. split_and!.
    - by intros k t [= <- <-].
    - done.
    - intros k t [= <- <-]. lia.
    - intros k [= <-]. exists now. split; [unfold JWKS_TTL; lia|done]. }
  destruct force; [done|]. destruct (pv_cache p) as [[keys t]|] eqn:Ep; [|done].
  destruct (Z.ltb_spec (now - t) JWKS_TTL); [|done]. split_and!; [done|done|by rewrite Ep|].
  intros k [= <-]. exists t. specialize (Ht keys t eq_refl). split; [lia|by apply Hc].
Qed.

Lemma try_key_ok now c token jwk user :
  try_key now c token jwk = Ok user →
  ∃ key alg claims, decoding_key_and_alg jwk = Ok (key, alg) ∧
    decode_token token key alg (oidc_audience c) (oidc_issuer c) now = Ok claims ∧
    (∀ nbf, claim_nbf claims = Some nbf → nbf <= now + NBF_LEEWAY_SECS) ∧
    (claim_str claims (username_claim c) = Some user ∨
     claim_str claims (username_claim c) = None ∧ claim_str claims (lit "sub") = Some user).
Proof.
  unfold try_key. destruct (decoding_key_and_alg jwk) as [[key alg]|] eqn:Ek; [|done]. cbn [mbind result_bind].
  destruct (decode_token _ _ _ _ _ _) as [claims|] eqn:Ed; [|done]. cbn [map_err mbind result_bind].
  intros H. exists key, alg, claims. split_and!; [done|done| |].
  - intros nbf Hn. rewrite Hn in H. destruct (Z.ltb_spec (now + NBF_LEEWAY_SECS) nbf); [done|lia].
  - assert (Hu : match claim_str claims (username_claim c) with Some u => Ok u
        | None => required (claim_str claims (lit "sub")) (MissingClaim (username_claim c)) end = Ok user).
    { destruct (claim_nbf claims) as [nbf|]; [destruct (_ <? nbf); [done|]|]; exact H. }
    destruct (claim_str claims (username_claim c)); [left; by simplify_eq|right].
    destruct (claim_str claims (lit "sub")); [|done]. by injection Hu as ->.
Qed.

Lemma try_keys_ok now c token e ks user :
  try_keys now c token e ks = Ok user → ∃ jwk, jwk ∈ ks ∧ try_key now c token jwk = Ok user.
Proof.
  revert e. induction ks as [|k ks IH]; intros e; cbn [try_keys]; [done|].
  destruct (try_key now c token k) as [u|e'] eqn:E.
  - intros [= ->]. exists k. split; [by left|done].
  - intros (j & Hj & Ht)%IH. exists j. split; [by right|done].
Qed.

Lemma validate_with_keys_ok now c token t ks user :
  now - JWKS_TTL < t <= now → fetch_fresh_keys t c = Ok ks →
  validate_with_keys now c token ks = Ok user → vouched now c token user.
Proof.
  intros Ht Hf. unfold validate_with_keys. destruct (decode_header token) as [id|] eqn:Eh; [|done].
  cbn [map_err mbind result_bind]. case_bool_decide; [done|]. intros (jwk & Hj & Hk)%try_keys_ok.
  apply try_key_ok in Hk as (key & alg & claims & H1 & H2 & H3 & H4).
  assert (Hin : jwk ∈ ks ∧ is_sig_key jwk = true ∧ (id = None ∨ kid jwk = id)).
  { destruct id as [id|]; rewrite !list_elem_of_filter in Hj; naive_solver. }
  destruct Hin as (? & ? & ?). by exists t, ks, jwk, key, alg, claims, id.
Qed.

Definition provider_ok (now : Z) (p : ProviderValidator) : Prop :=
  cache_ok p ∧ ∀ keys t, pv_cache p = Some (keys, t) → t <= now.

Lemma provider_validate_ok now token p :
  provider_ok now p →
  let '(r, p') := provider_validate_jwt now token p in
  provider_ok now p' ∧ pv_config p' = pv_config p ∧ (∀ user, r = Ok user → vouched now (pv_config p) token user).
Proof.
  intros [Hc Ht]. unfold provider_validate_jwt. pose proof (get_keys_ok now false p Hc Ht) as H1.
  destruct (get_keys now false p) as [[ks|e] p1];
    [|by destruct H1 as (? & ? & ? & _); split_and!; [split| |]]. destruct H1 as (Hc1 & Hp1 & Ht1 & Hk1).
  destruct (Hk1 ks eq_refl) as (t & Hr & Hf).
  pose proof (λ u, validate_with_keys_ok now (pv_config p) token t ks u Hr Hf) as Hv.
  pose proof (get_keys_ok now true p1 Hc1 Ht1) as H2.
  destruct (validate_with_keys now (pv_config p) token ks) as [u|e] eqn:E; [by split_and!; [split| |intros ? [= <-]; apply Hv]|].
  destruct e; try by split_and!; [split| |].
  destruct (get_keys now true p1) as [[ks'|e] p2]; [|destruct H2 as (? & ? & ? & _); split_and!; [split|congruence|done]; done].
  destruct H2 as (Hc2 & Hp2 & Ht2 & Hk2). destruct (Hk2 ks' eq_refl) as (t' & Hr' & Hf'). rewrite Hp1 in Hf'.
  split_and!; [by split|congruence|]. intros u. by apply (validate_with_keys_ok now (pv_config p) token t' ks').
Qed.

Lemma try_providers_ok now token errors ps :
  Forall (provider_ok now) ps →
  let '(r, ps') := try_providers now token errors ps in
  Forall (provider_ok now) ps' ∧ pv_config <$> ps' = pv_config <$> ps ∧
  ∀ user, r = Ok user → ∃ p, p ∈ ps ∧ vouched now (pv_config p) token user.
Proof.
  intros Hps. revert errors. induction Hps as [|p ps Hp Hps IH]; intros errors; cbn [try_providers]; [done|].
  pose proof (provider_validate_ok now token p Hp) as H1. destruct (provider_validate_jwt now token p) as [[u|e] p'].
  - destruct H1 as (H1 & H2 & H3). split_and!; [by constructor|by rewrite !fmap_cons, H2|].
    intros user [= <-]. exists p. split; [by left|by apply H3].
  - destruct H1 as (H1 & H2 & _). specialize (IH (errors ++ [oidc_error_text e])).
    destruct (try_providers _ _ _ ps) as [r ps']. destruct IH as (I1 & I2 & I3).
    split_and!; [by constructor|by rewrite !fmap_cons, H2, I2|].
    intros user Hu. destruct (I3 user Hu) as (q & ? & ?). exists q. split; [by right|done].
Qed.

(** A user name from [validate_jwt] is vouched for by a configured provider. *)
Lemma validate_jwt_ok now token ps :
  Forall (provider_ok now) ps →
  let '(r, ps') := validate_jwt now token ps in
  Forall (provider_ok now) ps' ∧ pv_config <$> ps' = pv_config <$> ps ∧
  ∀ user, r = Ok user → ∃ p, p ∈ ps ∧ vouched now (pv_config p) token user.
Proof. intros Hps. unfold validate_jwt. case_bool_decide; [done|]. by apply try_providers_ok. Qed.

End OidcLaws.

(** ** Samples *)

Module CredentialSamples.

(** A hash that is the password itself. *)
#[export] Instance plain_bcrypt : BcryptLib := {|
  bcrypt_hash _ pw _ := pw;
  bcrypt_verify pw h := bool_decide (pw = h);
  BCRYPT_DEFAULT_COST := 12;
  hash_values m := (map_to_list m).*2
|}.

#[export] Instance plain_bcrypt_laws : BcryptLaws plain_bcrypt.
Proof. split; [|done|done]. intros. by apply bool_decide_eq_true. Qed.

#[export] Instance no_files : SecretSource := {| read_to_string _ := Err (lit "none"); read_secret _ := Err (lit "none") |}.

Definition alice_hash : bytes := lit "$2b$12$abcdefghijklmnopqrstuvwxyzABCDEFGHIJKLMNOPQRSTUVWXYZ0".
Definition users : list UserCredential := [mkUser (lit "Alice") alice_hash].

Lemma unknown_user_witness :
  ∃ s, build_credential_store [] users None = Ok s ∧ check s (lit "root") DUMMY_PASSWORD = true.
Proof.
  destruct (build_credential_store [] users None) as [s|e] eqn:E; [|discriminate E]. exists s. split; [reflexivity|].
  destruct (unknown_user_logs_in [] users None s (lit "root") E) as (l & Hl & H). rewrite Hl in H. exact H.
Defined.

End CredentialSamples.

End Credentials.
