(* ===== verification/ReaderQuery.v ===== *)
(** The commands that read: the handlers of [crates/reader/src/session/lifecycle.rs],
    [commands/xget.rs], the fallback to the transit staging area
    ([store/staging_fallback.rs]) and the session's context ([session/context.rs],
    [session/state.rs]).

    A handler's [Err] is the response of an early return.  The staging area is
    the one [Staging] models for the transit daemon. *)

From S2P Require Import Prelude Bytes Decimal Utf8 Wildmat Article Validation Headers Util Crypto BlockStore Canonical Hlc LogEntry LogStorage MemStorage Sql SqliteStorage MsgIdMap Staging NntpCommand ArticleNumbers PeerAuth Overview NntpResponse Injection ArticleSig VerifStore PostChecks Ipld ReaderStore ReaderPost.

Module ReaderQuery.
Import Decimal Utf8 Article LogEntry SqliteStorage MsgIdMap NntpCommand PeerAuth Overview ArticleNumbers NntpResponse Injection ArticleSig VerifStore PostChecks Ipld ReaderStore ReaderPost Sql.

(** ** The session's context *)

Inductive SessionState := Authenticating | Active | GroupSelected.

#[export] Instance session_state_eq_dec : EqDecision SessionState.
Proof. solve_decision. Defined.

Definition state_group_selected (s : SessionState) : bool := bool_decide (s = GroupSelected).

Record SelectedGroup := mkSelected { sg_name : GroupName; sg_article_number : option Z }.

Record SessionContext := mkContext {
  cx_state : SessionState;
  cx_authenticated_user : option bytes;
  cx_tls_active : bool;
  cx_client_cert_fingerprint : option bytes;
  cx_client_cert_der : option bytes;
  cx_pending_auth_user : option bytes;
  cx_selected_group : option SelectedGroup;
  cx_posting_allowed : bool;
  cx_known_groups : list GroupInfo;
  cx_auth_failure_count : Z;
  cx_is_drain_session : bool;
  cx_starttls_available : bool;
  cx_search_available : bool
}.

Definition context_new (auth_required posting_allowed tls_active : bool) : SessionContext :=
  mkContext (if auth_required then Authenticating else Active) None tls_active None None None None posting_allowed
    [] 0 false false false.

(** Assignments to [ctx.selected_group] and [ctx.state]. *)
Definition set_selected (state : SessionState) (sg : option SelectedGroup) (c : SessionContext) : SessionContext :=
  mkContext state (cx_authenticated_user c) (cx_tls_active c) (cx_client_cert_fingerprint c) (cx_client_cert_der c)
    (cx_pending_auth_user c) sg (cx_posting_allowed c) (cx_known_groups c) (cx_auth_failure_count c)
    (cx_is_drain_session c) (cx_starttls_available c) (cx_search_available c).

(** [if let Some(sg) = ctx.selected_group.as_mut() { sg.article_number = Some(n) }] *)
Definition set_pointer (n : Z) (c : SessionContext) : SessionContext :=
  set_selected (cx_state c) ((λ sg, mkSelected (sg_name sg) (Some n)) <$> cx_selected_group c) c.

(** ** The stores *)

(** [SearchIndex::search_in_group], when there is an index. *)
Inductive SearchError := QueryTooLong (len max : Z) | SearchFailed.

Class SearchLib := { search_in_group : bytes → bytes → Z → result SearchError (list Z) }.

Section Query.
Context {lib : CidLib} {siglib : SigLib} {keys : KeyLib} {text : SigTextLib}.
Context {hlib : HeaderLib} {ipld : IpldLib} {engine : SqlEngine} {choice : RowChoice} {dates : DateLib}.
Context {naive : NaiveDateLib} {search : SearchLib}.
Context {I M S : Type} {store : IpfsBlockStore I} {mids : MsgIdStore M}.

Record Stores := mkStores {
  st_post : PostWorld (I := I) (M := M) (S := S);
  st_staging : option Staging.Store
}.

Definition with_post (w : PostWorld) (s : Stores) : Stores := mkStores w (st_staging s).

Definition on_ipfs {E A} (m : prog I E A) : prog Stores E A := λ s,
  let w := st_post s in
  let '(r, i) := m (pw_ipfs w) in
  (r, with_post (mkPost i (pw_msgids w) (pw_log w) (pw_numbers w) (pw_overview w) (pw_verif w) (pw_clock w)) s).

Definition on_msgid_map {E A} (m : prog M E A) : prog Stores E A := λ s,
  let w := st_post s in
  let '(r, i) := m (pw_msgids w) in
  (r, with_post (mkPost (pw_ipfs w) i (pw_log w) (pw_numbers w) (pw_overview w) (pw_verif w) (pw_clock w)) s).

Definition on_article_numbers {E A} (m : prog (Pool (gmap (bytes * Z) bytes)) E A) : prog Stores E A := λ s,
  let w := st_post s in
  let '(r, p) := m (pw_numbers w) in
  (r, with_post (mkPost (pw_ipfs w) (pw_msgids w) (pw_log w) p (pw_overview w) (pw_verif w) (pw_clock w)) s).

Definition on_overview {E A} (m : prog (Pool (gmap (bytes * Z) OverviewRow)) E A) : prog Stores E A := λ s,
  let w := st_post s in
  let '(r, p) := m (pw_overview w) in
  (r, with_post (mkPost (pw_ipfs w) (pw_msgids w) (pw_log w) (pw_numbers w) p (pw_verif w) (pw_clock w)) s).

Definition on_verif {E A} (m : prog (Pool VerifTables) E A) : prog Stores E A := λ s,
  let w := st_post s in
  let '(r, p) := m (pw_verif w) in
  (r, with_post (mkPost (pw_ipfs w) (pw_msgids w) (pw_log w) (pw_numbers w) (pw_overview w) p (pw_clock w)) s).

(** [m.await.ok()]. *)
Definition ok {St E A} (m : prog St E A) : prog St Response (option A) := λ s,
  let '(r, s') := m s in (Ok (match r with Ok a => Some a | Err _ => None end), s').

(** An error becomes a fixed response. *)
Definition or_reply {St E A} (resp : Response) (m : prog St E A) : prog St Response A := prog_map_err (λ _, resp) m.

(** [let Some(x) = x else { return resp }] *)
Definition some_or {St A} (resp : Response) (x : option A) : prog St Response A :=
  match x with Some a => mret a | None => throw resp end.

(** A handler's reply, however it was reached. *)
Definition reply {St} (m : prog St Response Response) (s : St) : Response * St :=
  let '(r, s') := m s in (match r with Ok resp | Err resp => resp end, s').

(** ** The staging fallback *)

Inductive StagingResult := Found (b : bytes) | NotStaged | StagingFailed.

Definition fetch_from_staging (msgid : bytes) (s : Staging.Store) : StagingResult * Staging.Store :=
  match select (λ t : Staging.Table, Staging.r_file_path <$> List.find (λ r, bool_decide (Staging.r_message_id r = msgid)) t)
          (Staging.db s) with
  | (Err _, p) => (StagingFailed, Staging.mkStore p (Staging.disk s))
  | (Ok None, p) => (NotStaged, Staging.mkStore p (Staging.disk s))
  | (Ok (Some file_path), p) =>
      let '(r, d) := Staging.fs_read file_path (Staging.disk s) in
      (match r with Ok b => Found b | Err _ => StagingFailed end, Staging.mkStore p d)
  end.

(** With [stores.staging_pool] a [None], nothing is staged. *)
Definition staged (msgid : bytes) : prog Stores Response StagingResult := λ s,
  match st_staging s with
  | None => (Ok NotStaged, s)
  | Some sg => let '(r, sg') := fetch_from_staging msgid sg in (Ok r, mkStores (st_post s) (Some sg'))
  end.

(** ** Articles by Message-ID *)

Definition resolve_msgid_to_wire (msgid : bytes) : prog Stores Response (option Cid * bytes * bytes) :=
  known ← or_reply program_fault (on_msgid_map (lookup_by_msgid msgid));
  match known with
  | Some cid =>
      wire_bytes ← or_reply program_fault (on_ipfs (fetch_article_wire_bytes cid));
      mret (Some cid, (split_article wire_bytes).1, (split_article wire_bytes).2)
  | None =>
      r ← staged msgid;
      match r with
      | Found wire_bytes => mret (None, (split_article wire_bytes).1, (split_article wire_bytes).2)
      | NotStaged | StagingFailed => throw no_article_with_message_id
      end
  end.

(** [query_by_msgid(..).await.ok().flatten().and_then(|r| r.did_sig_valid)] *)
Definition did_of_msgid (msgid : bytes) : prog Stores Response (option bool) :=
  r ← ok (on_overview (query_by_msgid msgid));
  mret (mjoin r ≫= did_sig_valid).

(** [get_verifications(cid).await.unwrap_or_default()] *)
Definition verifications_of (cid : Cid) : prog Stores Response (list ArticleVerification) :=
  r ← ok (on_verif (get_verifications cid));
  mret (default [] r).

Definition verifications_opt (cid_opt : option Cid) : prog Stores Response (list ArticleVerification) :=
  match cid_opt with Some cid => verifications_of cid | None => mret [] end.

Definition lookup_article_by_msgid (msgid : bytes) : prog Stores Response Response :=
  '(cid_opt, header_bytes, body_bytes) ← resolve_msgid_to_wire msgid;
  did ← did_of_msgid msgid;
  vs ← verifications_opt cid_opt;
  mret (article_response (mkContent 0 msgid header_bytes body_bytes cid_opt did vs)).

Definition lookup_head_by_msgid (msgid : bytes) : prog Stores Response Response :=
  '(cid_opt, header_bytes, body_bytes) ← resolve_msgid_to_wire msgid;
  did ← did_of_msgid msgid;
  vs ← verifications_opt cid_opt;
  mret (head_response (mkContent 0 msgid header_bytes body_bytes cid_opt did vs)).

Definition lookup_body_by_msgid (msgid : bytes) : prog Stores Response Response :=
  '(cid_opt, header_bytes, body_bytes) ← resolve_msgid_to_wire msgid;
  vs ← verifications_opt cid_opt;
  mret (body_response (mkContent 0 msgid header_bytes body_bytes cid_opt None vs)).

Definition stat_by_msgid (msgid : bytes) : prog Stores Response Response :=
  known ← or_reply program_fault (on_msgid_map (lookup_by_msgid msgid));
  match known with
  | Some _ => mret (article_exists 0 msgid)
  | None =>
      r ← staged msgid;
      match r with
      | Found _ => mret (article_exists 0 msgid)
      | NotStaged | StagingFailed => mret no_article_with_message_id
      end
  end.

(** ** Articles by number *)

(** The group a command works on. *)
Definition current_group (ctx : SessionContext) : option bytes := (λ sg, as_str (sg_name sg)) <$> cx_selected_group ctx.
Definition current_number (ctx : SessionContext) : option Z := cx_selected_group ctx ≫= sg_article_number.

(** Handlers that move the article pointer. *)
Definition in_ctx {A} (m : prog Stores Response A) : prog (SessionContext * Stores) Response A := λ s,
  let '(r, st) := m s.2 in (r, (s.1, st)).

Definition get_ctx : prog (SessionContext * Stores) Response SessionContext := λ s, (Ok s.1, s).

Definition update_ctx (f : SessionContext → SessionContext) : prog (SessionContext * Stores) Response () := λ s,
  (Ok tt, (f s.1, s.2)).

Definition lookup_article_content_by_number (number : Z) : prog (SessionContext * Stores) Response ArticleContent :=
  ctx ← get_ctx;
  group ← some_or no_newsgroup_selected (current_group ctx);
  found ← in_ctx (or_reply program_fault (on_article_numbers (lookup_cid group number)));
  cid ← some_or no_article_with_number found;
  wire_bytes ← in_ctx (or_reply program_fault (on_ipfs (fetch_article_wire_bytes cid)));
  let '(header_bytes, body_bytes) := split_article wire_bytes in
  overview ← in_ctx (ok (on_overview (query_by_number group number)));
  let overview := mjoin overview in
  let msgid := match overview with
               | Some r => message_id r
               | None => default [] (extract_header_value (from_utf8_lossy header_bytes) (lit "Message-ID"))
               end in
  vs ← in_ctx (verifications_of cid);
  _ ← update_ctx (set_pointer number);
  mret (mkContent number msgid header_bytes body_bytes (Some cid) (overview ≫= did_sig_valid) vs).

(** ARTICLE, HEAD, BODY and STAT with no argument. *)
Definition current_article {A} (k : Z → prog (SessionContext * Stores) Response A) : prog (SessionContext * Stores) Response A :=
  ctx ← get_ctx;
  sg ← some_or no_newsgroup_selected (cx_selected_group ctx);
  n ← some_or (new 420 (lit "Current article number is invalid")) (sg_article_number sg);
  k n.

Definition stat_response (content : ArticleContent) : Response :=
  article_exists (c_article_number content) (c_message_id content).

(** ** Articles by CID *)

Definition fetch_article_content_by_cid (cid_str : bytes) : prog Stores Response ArticleContent :=
  cid ← some_or syntax_error (cid_from_str cid_str);
  wire_bytes ← or_reply no_article_with_message_id (on_ipfs (fetch_article_wire_bytes cid));
  let '(header_bytes, body_bytes) := split_article wire_bytes in
  let msgid := default [] (extract_header_value (from_utf8_lossy header_bytes) (lit "Message-ID")) in
  did ← did_of_msgid msgid;
  vs ← verifications_of cid;
  mret (mkContent 0 msgid header_bytes body_bytes (Some cid) did vs).

Definition lookup_article_by_cid (cid_str : bytes) : prog Stores Response Response :=
  content ← fetch_article_content_by_cid cid_str; mret (article_response content).

Definition lookup_head_by_cid (cid_str : bytes) : prog Stores Response Response :=
  content ← fetch_article_content_by_cid cid_str; mret (head_response content).

Definition lookup_body_by_cid (cid_str : bytes) : prog Stores Response Response :=
  content ← fetch_article_content_by_cid cid_str; mret (body_response content).

Definition stat_by_cid (cid_str : bytes) : prog Stores Response Response :=
  content ← fetch_article_content_by_cid cid_str; mret (article_exists 0 (c_message_id content)).

(** ** The CID extensions *)

Definition handle_xcid (arg current_group : option bytes) (current_number : option Z) : prog Stores Response Response :=
  cid ← (match arg with
         | Some msgid =>
             known ← or_reply program_fault (on_msgid_map (lookup_by_msgid msgid));
             some_or no_article_with_message_id known
         | None =>
             group ← some_or no_newsgroup_selected current_group;
             number ← some_or current_article_invalid current_number;
             found ← or_reply program_fault (on_article_numbers (lookup_cid group number));
             some_or current_article_invalid found
         end);
  mret (xcid_response cid).

Definition handle_xverify (pubkey : VerifyingKey) (msgid expected_cid : bytes) (verify_sig : bool) :
    prog Stores Response Response :=
  known ← or_reply program_fault (on_msgid_map (lookup_by_msgid msgid));
  actual_cid ← some_or no_article_with_message_id known;
  if negb (bool_decide (cid_to_string actual_cid = expected_cid)) then throw (new 541 (lit "CID mismatch")) else
  _ ← (if verify_sig then
         wire_bytes ← or_reply program_fault (on_ipfs (fetch_article_wire_bytes actual_cid));
         match verify_article_sig pubkey wire_bytes with
         | Ok _ => mret tt
         | Err _ => throw (new 542 (lit "Signature verification failed"))
         end
       else mret tt);
  mret (new 291 (lit "Verified OK")).

(** [base64::STANDARD.encode]; its output has no line breaks of its own. *)
Definition handle_xget (b64 : bytes → bytes) (cid_str : bytes) : prog Stores Response Response :=
  cid ← some_or (new 501 (lit "Syntax error: not a valid CID")) (cid_from_str cid_str);
  known ← or_reply (new 403 (lit "Internal error during article lookup")) (on_msgid_map (MsgIdMap.lookup_by_cid cid));
  _ ← some_or (new 403 (lit "Not a known article CID")) known;
  block ← prog_map_err (λ e, match e with
                             | NotFound _ => new 430 (lit "CID not found")
                             | _ => new 403 (lit "Internal error fetching block")
                             end) (on_ipfs (get_raw cid));
  mret (mkResponse 290 (cid_str ++ lit " article follows")
    ([lit "From: ipfs-gateway@localhost"; lit "Subject: IPFS:" ++ cid_str;
      lit "Message-ID: <" ++ cid_str ++ lit "@ipfs.local>"; lit "X-Stoa-CID: " ++ cid_str;
      lit "MIME-Version: 1.0"; lit "Content-Type: application/octet-stream";
      lit "Content-Transfer-Encoding: base64"; []] ++
     ((λ line, if starts_with line (lit ".") then lit "." ++ line else line) <$> str_lines (b64 block))) true).

(** ** GROUP, NEXT, LAST, LIST ACTIVE, NEWNEWS *)

Definition handle_group_live (name : bytes) : prog (SessionContext * Stores) Response Response :=
  match group_new name with
  | Err _ => throw no_such_newsgroup
  | Ok group_name =>
      '(low, high) ← in_ctx (or_reply program_fault (on_article_numbers (group_range name)));
      if high <? low then throw no_such_newsgroup else
      let count := if low <=? high then wrapping_u64 (high - low + 1) else 0 in
      _ ← update_ctx (set_selected GroupSelected
                        (Some (mkSelected group_name (if 0 <? count then Some low else None))));
      mret (group_selected name count low high)
  end.

(** [query_by_number(..).await.ok().flatten().map(|r| r.message_id).unwrap_or_default()] *)
Definition msgid_of_number (group : bytes) (n : Z) : prog Stores Response bytes :=
  r ← ok (on_overview (query_by_number group n));
  mret (default [] (message_id <$> mjoin r)).

(** NEXT and LAST differ in the query and in the response at the end. *)
Definition step_pointer (query : bytes → Z → prog (Pool (gmap (bytes * Z) bytes)) SqlxError (option (Z * Cid)))
    (at_end : Response) : prog (SessionContext * Stores) Response Response :=
  ctx ← get_ctx;
  sg ← some_or no_newsgroup_selected (cx_selected_group ctx);
  current ← some_or current_article_invalid (sg_article_number sg);
  let group := as_str (sg_name sg) in
  found ← in_ctx (or_reply program_fault (on_article_numbers (query group current)));
  '(n, _) ← some_or at_end found;
  msgid ← in_ctx (msgid_of_number group n);
  _ ← update_ctx (set_pointer n);
  mret (article_exists n msgid).

Definition handle_next_live : prog (SessionContext * Stores) Response Response := step_pointer next_after no_next_article.
Definition handle_last_live : prog (SessionContext * Stores) Response Response :=
  step_pointer prev_before no_previous_article.

Definition handle_list_active_live (wildmat : option bytes) : prog Stores Response Response :=
  groups ← or_reply program_fault (on_article_numbers list_groups);
  mret (list_active_body
    ((λ g : bytes * Z * Z, let '(name, low, high) := g in
        name ++ [SP] ++ to_decimal high ++ [SP] ++ to_decimal low ++ lit " y") <$>
     filter (λ g : bytes * Z * Z,
       match wildmat with Some pat => Wildmat.matches_wildmat g.1.1 pat | None => true end = true) groups)).

Definition handle_newnews_live (wildmat date time : bytes) : prog Stores Response Response :=
  ids ← or_reply program_fault (on_overview (message_ids_since wildmat (parse_nntp_datetime date time)));
  mret (newnews_body ids).

(** ** OVER and HDR *)

(** [(low, high)] of a range in a group. *)
Definition range_bounds (group : bytes) (r : ArticleRange) : prog Stores Response (Z * Z) :=
  match r with
  | NntpCommand.Single n => mret (n, n)
  | From n => '(_, g_high) ← or_reply program_fault (on_article_numbers (group_range group)); mret (n, g_high)
  | Range lo hi => mret (lo, hi)
  end.

(** The group and the range both commands work on. *)
Definition selected_range (ctx : SessionContext) (range : option ArticleRange) : prog Stores Response (bytes * Z * Z) :=
  if negb (state_group_selected (cx_state ctx)) then throw no_newsgroup_selected else
  group ← some_or no_newsgroup_selected (current_group ctx);
  '(low, high) ← (match range with
                  | None => n ← some_or current_article_invalid (current_number ctx); mret (n, n)
                  | Some r => range_bounds group r
                  end);
  mret (group, low, high).

Definition handle_over_live (ctx : SessionContext) (arg : option OverArg) : prog Stores Response Response :=
  match arg with
  | Some (OverMessageId msgid) =>
      r ← or_reply program_fault (on_overview (query_by_msgid msgid));
      record ← some_or no_article_with_message_id r;
      mret (over_response [record])
  | _ =>
      '(group, low, high) ← selected_range ctx (match arg with Some (OverRange r) => Some r | _ => None end);
      records ← or_reply program_fault (on_overview (query_range group low high));
      mret (over_response records)
  end.

Definition HDR_FIELDS : list bytes :=
  [lit "subject"; lit "from"; lit "date"; lit "message-id"; lit "references"; lit ":bytes"; lit ":lines"].

Definition hdr_record (field : bytes) (r : OverviewRecord) : HdrRecord :=
  mkHdr (article_number r) (default [] (extract_field r field)).

Definition handle_hdr_live (ctx : SessionContext) (field : bytes) (range_or_msgid : option bytes) :
    prog Stores Response Response :=
  if negb (bool_decide (to_ascii_lowercase field ∈ HDR_FIELDS)) then throw (new 501 (lit "Field not supported")) else
  match range_or_msgid with
  | Some arg =>
      if starts_with arg (lit "<") then
        r ← or_reply program_fault (on_overview (query_by_msgid arg));
        record ← some_or no_article_with_message_id r;
        mret (hdr_response [hdr_record field record])
      else
        '(group, low, high) ← selected_range ctx (Some (parse_range arg));
        records ← or_reply program_fault (on_overview (query_range group low high));
        mret (hdr_response (hdr_record field <$> records))
  | None =>
      '(group, low, high) ← selected_range ctx None;
      records ← or_reply program_fault (on_overview (query_range group low high));
      mret (hdr_response (hdr_record field <$> records))
  end.

(** ** SEARCH *)

Definition TANTIVY_SPECIAL : bytes := lit "+-&|!(){}[]^~*?:\/" ++ [34].

Definition escape_tantivy_query (s : bytes) : bytes :=
  concat ((λ c, if contains c TANTIVY_SPECIAL then [92; c] else [c]) <$> s).

Definition quoted (field value : bytes) : bytes := field ++ lit ":" ++ [34] ++ escape_tantivy_query value ++ [34].

(** The bytes sent; [indexed] is [stores.search_index.is_some()]. *)
Definition handle_nntp_search (indexed : bool) (ctx : SessionContext) (key : SearchKey) (value : bytes) : bytes :=
  match current_group ctx with
  | None => lit "412 No newsgroup selected" ++ CRLF
  | Some group =>
      if negb indexed then lit "503 Search not available" ++ CRLF else
      match (match key with
             | KeySubject => Some (quoted (lit "subject") value)
             | KeyFrom => Some (quoted (lit "from_header") value)
             | KeySince | KeyBefore => None
             | KeyBody => Some (quoted (lit "body_text") value)
             | KeyText => Some (escape_tantivy_query value)
             end) with
      | None => lit "501 Date range search not yet implemented" ++ CRLF
      | Some query_str =>
          match search_in_group group query_str 10000 with
          | Ok nums => lit "100 Article list follows" ++ CRLF ++ concat ((λ n, to_decimal n ++ CRLF) <$> nums) ++ lit "." ++ CRLF
          | Err (QueryTooLong len max) =>
              lit "501 Query too long (" ++ to_decimal len ++ lit " bytes, max " ++ to_decimal max ++ lit ")" ++ CRLF
          | Err SearchFailed => lit "451 Program error" ++ CRLF
          end
      end
  end.

(** ** What the handlers find *)

(** The next step of a handler. *)
Ltac go := unfold mret, prog_ret; cbn [fst snd].

Section Laws.
Context {iview : BlockStoreView I} {ilaws : BlockStoreLaws I} {mview : MsgIdView M} {mlaws : MsgIdLaws M}.
Context {laws : CidLaws lib}.

Lemma db_outcome_reliable {T E A} (p : Pool T) (m : prog (Pool T) E A) (Q : A → T → Prop) :
  db_outcome p m Q (λ _, False) → pool_reliable p →
  ∃ a p', m p = (Ok a, p') ∧ pool_reliable p' ∧ Q a (rows p').
Proof.
  unfold db_outcome. destruct (m p) as [[a|e] p']; [naive_solver|]. intros (_ & _ & [[]|Hn]) Hp. done.
Qed.

(** The article numbers of a state are those of [L], and the database answers. *)
Definition numbers_ok (L : bytes → list Cid) (s : Stores) : Prop :=
  pool_reliable (pw_numbers (st_post s)) ∧ represents (rows (pw_numbers (st_post s))) L.

Lemma on_numbers_reliable {A} (L : bytes → list Cid) (s : Stores) (resp : Response) (m : prog (Pool (gmap (bytes * Z) bytes)) SqlxError A) (a : A) :
  numbers_ok L s →
  db_outcome (pw_numbers (st_post s)) m (λ r t, t = rows (pw_numbers (st_post s)) ∧ r = a) (λ _, False) →
  ∃ s', or_reply resp (on_article_numbers m) s = (Ok a, s') ∧ numbers_ok L s' ∧
    pw_ipfs (st_post s') = pw_ipfs (st_post s).
Proof.
  intros [Hp HL] Hm. apply db_outcome_reliable in Hm as (x & p' & E & Hp' & Ht & ->); [|done].
  unfold or_reply, prog_map_err, on_article_numbers. cbv zeta. rewrite E. eexists. split; [done|].
  split; [|done]. split; [done|]. cbn. by rewrite Ht.
Qed.

(** Reads of the other tables leave blocks and numbers alone. *)
Lemma ok_overview {A} (L : bytes → list Cid) (s : Stores) (m : prog (Pool (gmap (bytes * Z) OverviewRow)) SqlxError A) :
  numbers_ok L s →
  ∃ r s', ok (on_overview m) s = (Ok r, s') ∧ numbers_ok L s' ∧ pw_ipfs (st_post s') = pw_ipfs (st_post s).
Proof.
  intros Hs. unfold ok, on_overview. cbv zeta. destruct (m (pw_overview (st_post s))) as [r p]. by do 2 eexists.
Qed.

Lemma ok_verif (L : bytes → list Cid) (s : Stores) cid :
  numbers_ok L s →
  ∃ r s', verifications_of cid s = (Ok r, s') ∧ numbers_ok L s' ∧ pw_ipfs (st_post s') = pw_ipfs (st_post s).
Proof.
  intros Hs. unfold verifications_of, ok, on_verif, mbind, prog_bind. cbv zeta.
  destruct (get_verifications cid (pw_verif (st_post s))) as [r p]. by do 2 eexists.
Qed.

(** The article with number [n], fetched for the selected group. *)
Lemma content_by_number ctx (s : Stores) L g n cid wire i :
  current_group ctx = Some g → numbers_ok L s → Z.of_nat (length (L g)) < i64_max → in_u64 n →
  nth_article (L g) n = Some cid → fetch_article_wire_bytes cid (pw_ipfs (st_post s)) = (Ok wire, i) →
  ∃ content s', lookup_article_content_by_number n (ctx, s) = (Ok content, (set_pointer n ctx, s')) ∧
    c_article_number content = n ∧ c_cid content = Some cid ∧
    (c_header_bytes content, c_body_bytes content) = split_article wire.
Proof.
  intros Hg Hs Hlen Hn Hcid Hf. unfold lookup_article_content_by_number, mbind, prog_bind, get_ctx, some_or, in_ctx.
  go. rewrite Hg. go.
  pose proof (lookup_cid_outcome (pw_numbers (st_post s)) L g n (proj2 Hs) Hlen Hn) as Hl.
  destruct (on_numbers_reliable L s program_fault _ _ Hs Hl) as (s1 & -> & Hs1 & Hi1). rewrite Hcid.
  go. unfold or_reply at 1, prog_map_err at 1, on_ipfs at 1. cbv zeta.
  rewrite Hi1, Hf. cbn [map_err]. go. destruct (split_article wire) as [h b].
  go. match goal with |- context [ok (on_overview _) ?x] =>
    destruct (ok_overview L x (query_by_number g n)) as (r & s2 & -> & Hs2 & _); [exact Hs1|] end.
  go. destruct (ok_verif L s2 cid Hs2) as (vs & s3 & -> & _). by do 2 eexists.
Qed.

(** ** Walking a group *)

Lemma step_pointer_found ctx (s : Stores) L g n m cid at_end query :
  cx_selected_group ctx = Some (mkSelected (mkGroupName g) (Some n)) → numbers_ok L s →
  db_outcome (pw_numbers (st_post s)) (query g n)
    (λ r t, t = rows (pw_numbers (st_post s)) ∧ r = Some (m, cid)) (λ _, False) →
  ∃ msgid s', step_pointer query at_end (ctx, s) = (Ok (article_exists m msgid), (set_pointer m ctx, s')) ∧ numbers_ok L s'.
Proof.
  intros Hg Hs Hq. unfold step_pointer, mbind, prog_bind, get_ctx, some_or, in_ctx. go. rewrite Hg.
  go. cbn [sg_article_number sg_name as_str]. go.
  destruct (on_numbers_reliable L s program_fault _ _ Hs Hq) as (s1 & -> & Hs1 & _).
  go. unfold msgid_of_number, mbind, prog_bind. go.
  destruct (ok_overview L s1 (query_by_number g m) Hs1) as (r & s2 & -> & Hs2 & _). by do 2 eexists.
Qed.

Lemma step_pointer_end ctx (s : Stores) L g n at_end query :
  cx_selected_group ctx = Some (mkSelected (mkGroupName g) (Some n)) → numbers_ok L s →
  db_outcome (pw_numbers (st_post s)) (query g n) (λ r t, t = rows (pw_numbers (st_post s)) ∧ r = None) (λ _, False) →
  ∃ s', step_pointer query at_end (ctx, s) = (Err at_end, (ctx, s')) ∧ numbers_ok L s'.
Proof.
  intros Hg Hs Hq. unfold step_pointer, mbind, prog_bind, get_ctx, some_or, in_ctx. go. rewrite Hg.
  go. cbn [sg_article_number sg_name as_str]. go.
  destruct (on_numbers_reliable L s program_fault _ _ Hs Hq) as (s1 & -> & Hs1 & _). by eexists.
Qed.

Lemma handle_group_ok g ctx (s : Stores) L :
  is_valid_group_name g = true → numbers_ok L s → Z.of_nat (length (L g)) < i64_max →
  ∃ s', numbers_ok L s' ∧
    handle_group_live g (ctx, s) =
      if bool_decide (L g = []) then (Err no_such_newsgroup, (ctx, s'))
      else (Ok (group_selected g (Z.of_nat (length (L g))) 1 (Z.of_nat (length (L g)))),
            (set_selected GroupSelected (Some (mkSelected (mkGroupName g) (Some 1))) ctx, s')).
Proof.
  intros Hg Hs Hlen. unfold handle_group_live, group_new. rewrite Hg. unfold mbind, prog_bind, in_ctx. go.
  pose proof (group_range_outcome (pw_numbers (st_post s)) L g (proj2 Hs) Hlen) as Hr.
  destruct (on_numbers_reliable L s program_fault _ _ Hs Hr) as (s1 & -> & Hs1 & _). exists s1. split; [done|]. go.
  destruct (L g) as [|c l] eqn:El; [done|]. rewrite bool_decide_false by done. cbn [length] in *.
  rewrite (proj2 (Z.ltb_ge _ _)) by lia. rewrite (proj2 (Z.leb_le 1 _)) by lia.
  rewrite wrapping_small by (unfold in_u64, u64_max, i64_max in *; lia). replace (_ - 1 + 1) with (Z.of_nat (Datatypes.S (length l))) by lia.
  by rewrite (proj2 (Z.ltb_lt 0 _)) by lia.
Qed.

(** [k] times NEXT. *)
Fixpoint nexts (k : nat) (cs : SessionContext * Stores) : SessionContext * Stores :=
  match k with O => cs | Datatypes.S k' => (reply handle_next_live (nexts k' cs)).2 end.

Lemma next_moves ctx (s : Stores) L g n :
  cx_selected_group ctx = Some (mkSelected (mkGroupName g) (Some n)) → numbers_ok L s →
  Z.of_nat (length (L g)) < i64_max → 1 <= n <= Z.of_nat (length (L g)) →
  ∃ s', numbers_ok L s' ∧
    if n <? Z.of_nat (length (L g)) then
      ∃ msgid, reply handle_next_live (ctx, s) = (article_exists (n + 1) msgid, (set_pointer (n + 1) ctx, s'))
    else reply handle_next_live (ctx, s) = (no_next_article, (ctx, s')).
Proof.
  intros Hg Hs Hlen Hn. unfold reply, handle_next_live.
  pose proof (next_after_outcome (pw_numbers (st_post s)) L g n (proj2 Hs) Hlen ltac:(lia)) as Hq.
  destruct (Z.ltb_spec n (Z.of_nat (length (L g)))).
  - destruct (lookup_lt_is_Some_2 (L g) (Z.to_nat n) ltac:(lia)) as [c Hc]. rewrite Hc in Hq.
    destruct (step_pointer_found ctx s L g n (n + 1) c no_next_article next_after Hg Hs Hq) as (msgid & s' & -> & Hs').
    exists s'. split; [done|]. by exists msgid.
  - rewrite lookup_ge_None_2 in Hq by lia.
    destruct (step_pointer_end ctx s L g n no_next_article next_after Hg Hs Hq) as (s' & -> & Hs'). by exists s'.
Qed.

Lemma nexts_pointer ctx (s : Stores) L g k :
  cx_selected_group ctx = Some (mkSelected (mkGroupName g) (Some 1)) → numbers_ok L s →
  Z.of_nat (length (L g)) < i64_max → (k < length (L g))%nat →
  ∃ s', numbers_ok L s' ∧ nexts k (ctx, s) = (set_pointer (Z.of_nat k + 1) ctx, s').
Proof.
  intros Hg Hs Hlen. induction k as [|k IH]; intros Hk.
  - exists s. split; [done|]. cbn [nexts]. f_equal. unfold set_pointer, set_selected. rewrite Hg. by destruct ctx; cbn in *; subst.
  - destruct IH as (s1 & Hs1 & E); [lia|]. cbn [nexts]. rewrite E.
    destruct (next_moves (set_pointer (Z.of_nat k + 1) ctx) s1 L g (Z.of_nat k + 1)) as (s2 & Hs2 & Hn); [|done|done|lia|].
    + cbn. by rewrite Hg.
    + rewrite (proj2 (Z.ltb_lt _ _)) in Hn by lia. destruct Hn as [msgid ->]. exists s2. split; [done|].
      cbn [snd]. unfold set_pointer, set_selected. cbn. rewrite Hg. cbn. do 4 f_equal. f_equal. f_equal. lia.
Qed.

(** Walking a group.  GROUP refuses a group with no articles and otherwise
    reports all of them, from 1 to their count, with the pointer on the first;
    [k] times NEXT then puts the pointer on article [k + 1], for every article
    of the group, and one more on the last answers 421 and stays there: a client
    that sends NEXT until 421 visits every article exactly once, in order. *)
Theorem next_visits_every_article g ctx (s : Stores) L :
  is_valid_group_name g = true → numbers_ok L s → Z.of_nat (length (L g)) < i64_max →
  let '(resp, cs) := reply (handle_group_live g) (ctx, s) in
  if bool_decide (L g = []) then code resp = 411 ∧ cs.1 = ctx
  else resp = group_selected g (Z.of_nat (length (L g))) 1 (Z.of_nat (length (L g))) ∧
    cx_state cs.1 = GroupSelected ∧ current_group cs.1 = Some g ∧
    (∀ k, (k < length (L g))%nat → current_number (nexts k cs).1 = Some (Z.of_nat k + 1)) ∧
    let '(last, cs') := reply handle_next_live (nexts (length (L g) - 1) cs) in
    last = no_next_article ∧ current_number cs'.1 = Some (Z.of_nat (length (L g))).
Proof.
  intros Hg Hs Hlen. destruct (handle_group_ok g ctx s L Hg Hs Hlen) as (s1 & Hs1 & E). unfold reply at 1. rewrite E.
  case_bool_decide as Hl; [done|]. set (ctx1 := set_selected _ _ ctx).
  assert (Hpos : (0 < length (L g))%nat) by (destruct (L g); [done|cbn; lia]).
  split_and!; [done..| |].
  - intros k Hk. destruct (nexts_pointer ctx1 s1 L g k eq_refl Hs1 Hlen Hk) as (s2 & _ & ->). done.
  - destruct (nexts_pointer ctx1 s1 L g (length (L g) - 1) eq_refl Hs1 Hlen ltac:(lia)) as (s2 & Hs2 & ->).
    destruct (next_moves (set_pointer (Z.of_nat (length (L g) - 1) + 1) ctx1) s2 L g (Z.of_nat (length (L g))))
      as (s3 & _ & Hn); [|done|done|lia|].
    + cbn. do 3 f_equal. lia.
    + rewrite Z.ltb_irrefl in Hn. rewrite Hn. split; [done|]. cbn. f_equal. lia.
Qed.

(** ** Reading what was posted *)

Lemma nth_article_in_u64 l n c : nth_article l n = Some c → Z.of_nat (length l) < i64_max → in_u64 n.
Proof.
  unfold nth_article. break_if; [|done]. to_prop. intros Hl%lookup_lt_Some Hlen. unfold in_u64, i64_max, u64_max in *. lia.
Qed.


Lemma record_keeps_elem g cid L g' c : c ∈ L g' → c ∈ record g cid L g'.
Proof. unfold record, numbered. intros. repeat case_bool_decide; set_solver. Qed.

Lemma record_all_elem cid (gs : list bytes) L g : g ∈ gs → cid ∈ record_all cid L gs g.
Proof.
  assert (Hkeep : ∀ gs L, cid ∈ L g → cid ∈ record_all cid L gs g).
  { clear gs L. intros gs. induction gs as [|g' gs IH]; intros L Hc; [done|]. by apply IH, record_keeps_elem. }
  revert L. induction gs as [|g' gs IH]; intros L; [by intros ?%not_elem_of_nil|].
  intros [->|H]%elem_of_cons; [|by apply IH]. apply (Hkeep gs (record g' cid L)). unfold record, numbered.
  rewrite bool_decide_true by done. case_bool_decide; set_solver.
Qed.

Lemma record_all_length cid (gs : list bytes) L g : (length (record_all cid L gs g) <= length (L g) + length gs)%nat.
Proof.
  revert L. induction gs as [|g' gs IH]; intros L; [cbn; lia|]. cbn [record_all foldl length].
  specialize (IH (record g' cid L)). pose proof (record_length g' cid L g). unfold record_all in IH. lia.
Qed.

Lemma split_article_clean hs body :
  hs ≠ [] → Forall clean_line hs →
  (split_article (article hs body)).1 ++ CRLF2 ++ (split_article (article hs body)).2 = article hs body.
Proof.
  exact (clean_wire hs body).
Qed.

Context {dkim : DkimLib} {inj : InjectionLib} {log : LogStorage.LogStorage S}.
Context {view : LogStorage.StorageView S} {slaws : LogStorage.LogStorageLaws S}.
Context {siglaws : SigLaws siglib} {ipldlaws : IpldLaws ipld} {textlaws : SigTextLaws text}.

(** The operator-signed article is one with clean lines. *)
Lemma signed_is_clean key env rq hs body :
  rq_bytes rq = article hs body → Forall clean_line hs → genuine (drop_source hs) ≠ [] →
  env_inline env (rq_client_ip rq) (rq_user rq) →
  ∃ hs', hs' ≠ [] ∧ Forall clean_line hs' ∧ (sign_article key (prepared_article env rq)).1 = article hs' body.
Proof.
  intros Hrq Hhs Hgen Henv. unfold prepared_article. rewrite Hrq.
  destruct (prepare_clean env (rq_drain_session rq) (rq_client_ip rq) (rq_user rq) hs body Hhs Hgen Henv) as (src & -> & _).
  cbn [snd]. set (hs1 := prepared env (rq_client_ip rq) (rq_user rq) hs).
  assert (Hc : Forall clean_line hs1) by by apply prepared_clean.
  assert (Hne : hs1 ≠ []) by apply prepared_nonempty.
  rewrite sign_clean by done. cbn [fst]. eexists. split_and!; [|apply Forall_snoc; [exact Hc|apply sig_line_clean]|done].
  by destruct hs1.
Qed.


(** ** Reading what is staged *)

Lemma find_msgid mid (t : list Staging.Row) r :
  NoDup (Staging.r_message_id <$> t) → r ∈ t → Staging.r_message_id r = mid →
  List.find (λ x, bool_decide (Staging.r_message_id x = mid)) t = Some r.
Proof.
  induction t as [|x t IH]; [by intros _ ?%not_elem_of_nil|]. rewrite fmap_cons, NoDup_cons. intros [Hx Hnd] Hr Hm.
  cbn [List.find]. case_bool_decide as Hxm.
  - apply elem_of_cons in Hr as [->|Hr]; [done|]. destruct Hx. rewrite Hxm, <- Hm. apply list_elem_of_fmap. by exists r.
  - apply IH; [done| |done]. apply elem_of_cons in Hr as [->|Hr]; done.
Qed.

Lemma staged_held cfg id mid b (s : Stores) sg :
  st_staging s = Some sg → Staging.held cfg id mid b sg → NoDup (Staging.r_message_id <$> rows (Staging.db sg)) →
  pool_reliable (Staging.db sg) → Staging.io (Staging.disk sg) = [] →
  ∃ s', staged mid s = (Ok (Found b), s').
Proof.
  intros Hsg [(r & Hr & _ & Hm & Hp) Hf] Hnd Hrel Hio. unfold staged, fetch_from_staging. rewrite Hsg.
  match goal with |- context [select ?f _] => destruct (select_reliable f _ Hrel) as (p' & E & _) end. rewrite E.
  rewrite (find_msgid mid _ r Hnd Hr Hm). cbn [fmap option_fmap option_map]. rewrite Hp.
  unfold Staging.fs_read, Staging.next_io. rewrite Hio, Hf. by eexists.
Qed.

Lemma msgid_lookup_none mid (s : Stores) :
  msgid_inv (pw_msgids (st_post s)) → msgid_reliable (pw_msgids (st_post s)) →
  msgids (pw_msgids (st_post s)) !! mid = None →
  ∃ s', or_reply program_fault (on_msgid_map (lookup_by_msgid mid)) s = (Ok None, s') ∧ st_staging s' = st_staging s.
Proof.
  intros Hi Hr Hn. unfold or_reply, prog_map_err, on_msgid_map. cbv zeta.
  pose proof (lookup_by_msgid_ok mid _ Hi) as H. unfold msgid_outcome in H.
  destruct (lookup_by_msgid mid (pw_msgids (st_post s))) as [[x|e] m'].
  - destruct H as (_ & _ & _ & ->). rewrite Hn. by eexists.
  - by destruct H as (_ & _ & _ & [[]|?]).
Qed.

(** An article the transit daemon has staged can be read at once.  Once
    [try_stage] accepted it, and whatever operations on other articles follow,
    the reader that finds no block for its Message-ID serves the staged bytes,
    without a CID, and answers STAT with 223. *)
Theorem staged_article_is_served {O : Staging.OldestFirst} cfg id now mid b sg0 sg1 os (s : Stores) :
  Staging.try_stage cfg id now mid b sg0 = (Ok true, sg1) → Forall (Staging.leaves_alone cfg id) os →
  let sg := foldl (λ sg o, Staging.run_op cfg o sg) sg1 os in
  st_staging s = Some sg → NoDup (Staging.r_message_id <$> rows (Staging.db sg)) →
  pool_reliable (Staging.db sg) → Staging.io (Staging.disk sg) = [] →
  msgid_inv (pw_msgids (st_post s)) → msgid_reliable (pw_msgids (st_post s)) →
  msgids (pw_msgids (st_post s)) !! mid = None →
  (∃ s', resolve_msgid_to_wire mid s = (Ok (None, (split_article b).1, (split_article b).2), s')) ∧
  (∃ s', reply (stat_by_msgid mid) s = (article_exists 0 mid, s')).
Proof.
  intros Ht Hos sg Hsg Hnd Hrel Hio Hi Hr Hn.
  assert (Hh : Staging.held cfg id mid b sg).
  { apply Staging.held_ops; [|done]. pose proof (Staging.try_stage_rows cfg id now mid b sg0) as H. rewrite Ht in H.
    destruct H as (Hrows & Hf & _). split; [|done]. eexists. rewrite Hrows. split_and!; [apply elem_of_app; right;
      by apply list_elem_of_singleton|done..]. }
  destruct (msgid_lookup_none mid s Hi Hr Hn) as (s1 & E1 & Hsg1). rewrite <- Hsg1 in Hsg.
  destruct (staged_held cfg id mid b s1 sg Hsg Hh Hnd Hrel Hio) as (s2 & E2).
  unfold resolve_msgid_to_wire, reply, stat_by_msgid, mbind, prog_bind. rewrite E1, E2. by split; eexists.
Qed.

End Laws.

End Query.

(** ** Samples *)

Module QuerySamples.
Import ToyCrypto AuthSamples SigSamples HeaderSample IpldSamples SqliteStorage.SqlSamples MsgIdSamples ReaderStoreSamples.
Import MemStorage ReaderPostSamples NumberSamples.

#[export] Instance no_dates : DateLib := {| parse_from_rfc2822 _ := None |}.
#[export] Instance no_naive : NaiveDateLib := {| parse_naive _ := None |}.
#[export] Instance no_search : SearchLib := {| search_in_group _ _ _ := Err SearchFailed |}.
#[export] Instance in_order : RowChoice := {| row_choice l := l; row_choice_perm l := reflexivity l |}.

Definition stores_of (w : PostWorld (I := MemIpfsStore) (M := Pool (gmap bytes bytes)) (S := MemLogStorage)) :
  Stores := mkStores w None.

(** Two articles in [comp.test]. *)
Definition two_articles : Stores :=
  stores_of (mkPost store_new sql_msgids_new MemStorage.mem_new (mkPool sample_rows []) (mkPool ∅ [])
    VerifSamples.empty_pool (pw_clock (world []))).

Lemma next_walk_witness :
  let cs := (reply (handle_group_live g1) (context_new false true false, two_articles)).2 in
  current_number cs.1 = Some 1 ∧ current_number (nexts 1 cs).1 = Some 2 ∧
  (reply handle_next_live (nexts 1 cs)).1 = no_next_article.
Proof.
  pose proof (next_visits_every_article g1 (context_new false true false) two_articles sample_lists eq_refl
    (conj (Forall_nil_2 _) sample_represents)) as H.
  destruct (reply (handle_group_live g1) (context_new false true false, two_articles)) as [resp cs] eqn:E.
  change (sample_lists g1) with [sample_cid 7; sample_cid 8] in H. destruct H as (_ & _ & _ & Hk & Hl); [reflexivity|].
  cbn [snd]. split; [exact (Hk 0%nat (Nat.lt_0_2))|]. split; [exact (Hk 1%nat (Nat.lt_1_2))|].
  destruct (reply handle_next_live (nexts 1 cs)) as [last cs'] eqn:E'. cbn [length Nat.sub] in Hl. rewrite E' in Hl. apply Hl.
Defined.

Lemma accepted_faults : faults (pw_numbers (run_post_pipeline operator env1 [] 5 100000 request1 (world [])).2) = [].
Proof. vm_refl. Qed.


#[local] Existing Instance Staging.StagingSamples.first_oldest.

Lemma staged_served_witness :
  let s := mkStores (st_post two_articles)
    (Some (foldl (λ sg o, Staging.run_op Staging.StagingSamples.cfg o sg) Staging.StagingSamples.staged1 Staging.StagingSamples.mishaps)) in
  ∃ s', reply (stat_by_msgid (lit "<a@b>")) s = (article_exists 0 (lit "<a@b>"), s').
Proof.
  intros s.
  refine (proj2 (staged_article_is_served Staging.StagingSamples.cfg (lit "aa") 5 (lit "<a@b>") Staging.StagingSamples.body1
    Staging.StagingSamples.empty Staging.StagingSamples.staged1 Staging.StagingSamples.mishaps s _ _ _ _ _ _ _ _ _)).
  - vm_refl.
  - repeat constructor; by apply (bool_decide_eq_true_1 _); vm_refl.
  - reflexivity.
  - apply (bool_decide_eq_true_1 _). vm_refl.
  - apply (bool_decide_eq_true_1 _). vm_refl.
  - vm_refl.
  - apply rows_ok_empty.
  - constructor.
  - vm_refl.
Defined.

End QuerySamples.

End ReaderQuery.
