(* ===== verification/ReaderSession.v ===== *)
(** A reader session: [dispatch] and [try_cert_auth] of
    [crates/reader/src/session/dispatch.rs], and [run_command_loop],
    [run_plain_session], [run_session_post_starttls], [run_session_io] and
    [load_known_groups] of [session/lifecycle.rs].

    A connection is the bytes still to come from the client, what was sent to
    it, and which of the coming reads time out, writes fail and STARTTLS finds
    data in the buffer.  Clock readings come with each turn of the loop.  Log
    and audit records, spans and metrics are left out. *)

From S2P Require Import Prelude Bytes Decimal Utf8 Wildmat Article Validation Headers Util Crypto BlockStore Canonical Hlc LogEntry LogStorage MemStorage Sql SqliteStorage MsgIdMap Staging Lines NntpCommand ArticleNumbers PeerAuth Overview NntpResponse Injection ArticleSig VerifStore PostChecks Ipld ReaderStore ReaderPost AuthLimiter Credentials ReaderQuery.

Module ReaderSession.
Import Decimal Utf8 Article LogEntry SqliteStorage MsgIdMap Lines NntpCommand PeerAuth Overview ArticleNumbers NntpResponse Injection ArticleSig VerifStore PostChecks Ipld ReaderStore ReaderPost AuthLimiter Credentials ReaderQuery Sql.

(** [str::to_lowercase], with the Unicode tables. *)
Class UnicodeLib := { to_lowercase : bytes → bytes }.

(** [AuthConfig] of the reader; of the trusted issuers only the paths. *)
Record AuthConfig := mkAuth {
  ac_required : bool;
  ac_users : list UserCredential;
  ac_credential_file : option bytes;
  ac_client_certs : list ClientCertEntry;
  ac_trusted_issuers : list bytes;
  ac_oidc_providers : list OidcProviderConfig;
  ac_drain_username : option bytes
}.

Definition is_dev_mode (c : AuthConfig) : bool :=
  negb (ac_required c) && bool_decide (ac_users c = []) && bool_decide (ac_credential_file c = None) &&
  bool_decide (ac_oidc_providers c = []) && bool_decide (ac_client_certs c = []) && bool_decide (ac_trusted_issuers c = []).

Definition MAX_AUTH_FAILURES : Z := 5.

(** ** The connection *)

Record Conn := mkConn {
  inp : bytes;
  sent : list bytes;
  timeouts : list bool;
  write_errors : list bool;
  pipelined : list bool
}.

(** The next of a list of outcomes; [false] when there is none left. *)
Definition next_bool (l : list bool) : bool * list bool := match l with [] => (false, []) | b :: l' => (b, l') end.

Definition write_all (b : bytes) (c : Conn) : bool * Conn :=
  let '(e, es) := next_bool (write_errors c) in
  (negb e, mkConn (inp c) (if e then sent c else sent c ++ [b]) (timeouts c) es (pipelined c)).

Definition with_inp (i : bytes) (c : Conn) : Conn := mkConn i (sent c) (timeouts c) (write_errors c) (pipelined c).

(** [tokio::time::timeout]: does the coming read time out? *)
Definition timed_out (c : Conn) : bool * Conn :=
  let '(t, ts) := next_bool (timeouts c) in (t, mkConn (inp c) (sent c) ts (write_errors c) (pipelined c)).

(** [!reader.buffer().is_empty()]: some of what is to come may be there. *)
Definition buffered (c : Conn) : bool * Conn :=
  let '(b, bs) := next_bool (pipelined c) in
  (b && negb (bool_decide (inp c = [])), mkConn (inp c) (sent c) (timeouts c) (write_errors c) bs).

(** The clock readings of one turn of the loop, and the environment a POST uses. *)
Record Tick := mkTick { tk_secs : Z; tk_ms : Z; tk_instant : Z; tk_env : PostEnv; tk_vk_error : bytes }.

(** The two [unreachable!] of [dispatch]. *)
Inductive Unreachable := GroupDispatched | SearchDispatched.

Inductive CommandLoopExit := Done | StartTlsRequested.

Section Session.
Context {lib : CidLib} {siglib : SigLib} {keys : KeyLib} {text : SigTextLib} {dkim : DkimLib} {inj : InjectionLib}.
Context {hlib : HeaderLib} {ipld : IpldLib} {engine : SqlEngine} {choice : RowChoice} {dates : DateLib}.
Context {naive : NaiveDateLib} {search : SearchLib} {bcrypt : BcryptLib} {x509 : X509Lib} {oidc : OidcLib} {uni : UnicodeLib}.
Context {I M S : Type} {store : IpfsBlockStore I} {mids : MsgIdStore M} {log : LogStorage.LogStorage S}.

(** What a session shares with the others, unchanged by them. *)
Record Server := mkServer {
  sv_auth : AuthConfig;
  sv_max_article_bytes : Z;
  sv_read_only : bool;
  sv_credentials : CredentialStore;
  sv_certs : gmap bytes bytes;
  sv_issuers : list TrustedIssuer;
  sv_oidc : bool;
  sv_search : bool;
  sv_key : SigningKey;
  sv_b64 : bytes → bytes;
  sv_peer_ip : IpAddr;
  sv_peer_text : bytes
}.

#[local] Notation St := (Stores (I := I) (M := M) (S := S)).

Record Session := mkSession {
  se_ctx : SessionContext;
  se_stores : St;
  se_tracker : AuthFailureTracker;
  se_providers : list ProviderValidator;
  se_conn : Conn
}.

Context (sv : Server).

Definition with_ctx (c : SessionContext) (s : Session) : Session :=
  mkSession c (se_stores s) (se_tracker s) (se_providers s) (se_conn s).
Definition with_conn (c : Conn) (s : Session) : Session :=
  mkSession (se_ctx s) (se_stores s) (se_tracker s) (se_providers s) c.
Definition with_tracker (t : AuthFailureTracker) (s : Session) : Session :=
  mkSession (se_ctx s) (se_stores s) t (se_providers s) (se_conn s).

(** ** Certificates *)

Definition try_cert_auth (now : Z) (ctx : SessionContext) (username : bytes) : option bytes :=
  let pinned :=
    fp ← cx_client_cert_fingerprint ctx;
    cert_user ← cert_lookup (sv_certs sv) fp;
    if eq_ignore_ascii_case cert_user username then Some (to_lowercase cert_user) else None in
  match pinned with
  | Some u => Some u
  | None =>
      der ← cx_client_cert_der ctx;
      match verify_and_extract_cn now (sv_issuers sv) der with
      | Ok (Some cn) => if eq_ignore_ascii_case cn username then Some (to_lowercase cn) else None
      | _ => None
      end
  end.

(** ** [dispatch] *)

(** Assignments to [ctx.state], [ctx.authenticated_user] and [ctx.pending_auth_user]. *)
Definition set_auth (state : SessionState) (user pending : option bytes) (c : SessionContext) : SessionContext :=
  mkContext state user (cx_tls_active c) (cx_client_cert_fingerprint c) (cx_client_cert_der c) pending
    (cx_selected_group c) (cx_posting_allowed c) (cx_known_groups c) (cx_auth_failure_count c)
    (cx_is_drain_session c) (cx_starttls_available c) (cx_search_available c).

(** AUTHINFO USER, in either state; [accepted] is the state a certificate leads to. *)
Definition authinfo_user (now : Z) (accepted : SessionState) (username : bytes) (ctx : SessionContext) : Response * SessionContext :=
  if ac_required (sv_auth sv) && negb (cx_tls_active ctx) then
    (new 483 (lit "Encryption required for authentication"), ctx)
  else match try_cert_auth now ctx username with
       | Some authed_user => (authentication_accepted, set_auth accepted (Some authed_user) (cx_pending_auth_user ctx) ctx)
       | None => (enter_password, set_auth (cx_state ctx) (cx_authenticated_user ctx) (Some username) ctx)
       end.

Definition capabilities (auth : bool) (ctx : SessionContext) : Response :=
  capabilities_with_ctx (cx_posting_allowed ctx) auth (cx_starttls_available ctx && negb (cx_tls_active ctx))
    (negb (bool_decide (ac_oidc_providers (sv_auth sv) = []))) (cx_search_available ctx).

Definition dispatch_authenticating (now : Z) (ctx : SessionContext) (cmd : Command) : Response * SessionContext :=
  match cmd with
  | Capabilities => (capabilities true ctx, ctx)
  | Quit => (closing_connection, ctx)
  | AuthinfoPass _ => (authentication_out_of_sequence, ctx)
  | AuthinfoUser username => authinfo_user now Active username ctx
  | StartTls => (new 502 (lit "Command unavailable"), ctx)
  | _ => (authentication_required, ctx)
  end.

Definition no_group_or (ctx : SessionContext) (r : Response) : Response :=
  if negb (state_group_selected (cx_state ctx)) then no_newsgroup_selected else r.

Definition no_pointer_or (ctx : SessionContext) (r : Response) : Response :=
  match current_number ctx with None => current_article_invalid | Some _ => r end.

(** [Err] is one of the [unreachable!]s. *)
Definition dispatch (now : Z) (ctx : SessionContext) (cmd : Command) : result Unreachable (Response * SessionContext) :=
  if bool_decide (cx_state ctx = Authenticating) then Ok (dispatch_authenticating now ctx cmd)
  else match cmd with
  | Capabilities => Ok (capabilities false ctx, ctx)
  | ModeReader =>
      Ok (if cx_posting_allowed ctx then service_available_posting_allowed else service_available_posting_prohibited, ctx)
  | Quit => Ok (closing_connection, ctx)
  | Group _ => Err GroupDispatched
  | Next | Last => Ok (no_group_or ctx (no_pointer_or ctx no_article_with_number), ctx)
  | Over (Some (OverMessageId _)) => Ok (overview_follows, ctx)
  | Over None => Ok (no_group_or ctx (no_pointer_or ctx overview_follows), ctx)
  | Over (Some (OverRange _)) => Ok (no_group_or ctx overview_follows, ctx)
  | Hdr _ range_or_msgid =>
      Ok (match range_or_msgid with
          | Some arg => if starts_with arg (lit "<") then hdr_follows [] else no_group_or ctx (hdr_follows [])
          | None => no_group_or ctx (hdr_follows [])
          end, ctx)
  | Post => Ok (if negb (cx_posting_allowed ctx) then posting_not_permitted else send_article, ctx)
  | AuthinfoUser username => Ok (authinfo_user now (cx_state ctx) username ctx)
  | StartTls => Ok (new 502 (lit "Command unavailable"), ctx)
  | CmdList (ListActive wildmat) => Ok (list_active (cx_known_groups ctx) wildmat, ctx)
  | CmdList ListNewsgroups => Ok (list_newsgroups (cx_known_groups ctx) None, ctx)
  | CmdList ListOverviewFmt => Ok (list_overview_fmt, ctx)
  | Newgroups date time => Ok (newgroups (cx_known_groups ctx) (parse_nntp_datetime date time), ctx)
  | Newnews wildmat _ _ => Ok (newnews (cx_known_groups ctx) 0 (Some wildmat), ctx)
  | CmdArticle arg | CmdHead arg | CmdBody arg | CmdStat arg =>
      Ok (match arg with
          | Some (RefMessageId _) => no_article_with_message_id
          | _ => no_group_or ctx no_article_with_number
          end, ctx)
  | CmdSearch _ _ => Err SearchDispatched
  | _ => Ok (unknown_command, ctx)
  end.

(** ** Turns of the command loop *)

(** How a turn ends: [continue], [return] or a panic. *)
Inductive Turn :=
| Continue (s : Session)
| Exit (e : CommandLoopExit) (s : Session)
| Crash (u : Unreachable).

(** [send!]. *)
Definition send_bytes (b : bytes) (s : Session) : Turn :=
  let '(written, c) := write_all b (se_conn s) in
  if written then Continue (with_conn c s) else Exit Done (with_conn c s).

Definition send (r : Response) (s : Session) : Turn := send_bytes (to_bytes r) s.

(** [let _ = writer.write_all(..); return Done] *)
Definition send_last (b : bytes) (s : Session) : Turn := Exit Done (with_conn (write_all b (se_conn s)).2 s).

Definition via_stores (m : prog St Response Response) (s : Session) : Turn :=
  let '(resp, st) := reply m (se_stores s) in
  send resp (mkSession (se_ctx s) st (se_tracker s) (se_providers s) (se_conn s)).

Definition via_ctx (m : prog (SessionContext * St) Response Response) (s : Session) : Turn :=
  let '(resp, (ctx, st)) := reply m (se_ctx s, se_stores s) in
  send resp (mkSession ctx st (se_tracker s) (se_providers s) (se_conn s)).

Definition respond {A} (f : A → Response) (m : prog (SessionContext * St) Response A) :
    prog (SessionContext * St) Response Response := a ← m; mret (f a).

(** ARTICLE, HEAD, BODY and STAT, by their argument. *)
Definition fetch_turn (by_msgid by_cid : bytes → prog St Response Response) (f : ArticleContent → Response)
    (arg : option ArticleRef) : Session → Turn :=
  match arg with
  | Some (RefMessageId msgid) => via_stores (by_msgid msgid)
  | Some (RefCid cid_str) => via_stores (by_cid cid_str)
  | Some (RefNumber n) => via_ctx (respond f (lookup_article_content_by_number n))
  | None => via_ctx (respond f (current_article lookup_article_content_by_number))
  end.

(** A dot-terminated text from the client. *)
Inductive Upload := UploadTimeout | UploadOk (b : bytes) | UploadInvalid.

Definition read_upload (s : Session) : Upload * Session :=
  let '(late, c) := timed_out (se_conn s) in
  if late then (UploadTimeout, with_conn c s)
  else let '(r, rest) := read_dot_terminated (inp c) (sv_max_article_bytes sv) in
       (match r with Ok b => UploadOk b | Err _ => UploadInvalid end, with_conn (with_inp rest c) s).

Definition TIMEOUT_LINE : bytes := lit "400 Timeout - closing connection" ++ CRLF.

Definition ihave_turn (msgid : bytes) (s : Session) : Turn :=
  match Validation.validate_message_id msgid with
  | Err _ => send syntax_error s
  | Ok _ =>
      match send_bytes (lit "335 Send it; end with <CR-LF>.<CR-LF>" ++ CRLF) s with
      | Continue s =>
          match read_upload s with
          | (UploadTimeout, s) => send_last TIMEOUT_LINE s
          | (UploadOk _, s) => send_bytes (lit "437 Article rejected" ++ CRLF) s
          | (UploadInvalid, s) => send_bytes (lit "437 Article too large" ++ CRLF) s
          end
      | t => t
      end
  end.

(** STARTTLS; [None] falls through to [dispatch]. *)
Definition starttls_turn (s : Session) : option Turn :=
  if cx_starttls_available (se_ctx s) && negb (cx_tls_active (se_ctx s)) then
    let '(busy, c) := buffered (se_conn s) in
    let s := with_conn c s in
    Some (if busy then send_last (lit "502 Command unavailable" ++ CRLF) s
          else match send starttls_ready s with
               | Continue s => Exit StartTlsRequested s
               | t => t
               end)
  else None.

(** ** Logins *)

Definition set_login (user : bytes) (drain : bool) (c : SessionContext) : SessionContext :=
  mkContext Active (Some user) (cx_tls_active c) (cx_client_cert_fingerprint c) (cx_client_cert_der c)
    (cx_pending_auth_user c) (cx_selected_group c) (cx_posting_allowed c) (cx_known_groups c) 0 drain
    (cx_starttls_available c) (cx_search_available c).

Definition set_failures (n : Z) (c : SessionContext) : SessionContext :=
  mkContext (cx_state c) (cx_authenticated_user c) (cx_tls_active c) (cx_client_cert_fingerprint c) (cx_client_cert_der c)
    (cx_pending_auth_user c) (cx_selected_group c) (cx_posting_allowed c) (cx_known_groups c) n (cx_is_drain_session c)
    (cx_starttls_available c) (cx_search_available c).

Definition login_accepted (user : bytes) (drain : bool) (s : Session) : Turn :=
  send authentication_accepted
    (with_ctx (set_login user drain (se_ctx s)) (with_tracker (record_success (sv_peer_ip sv) (se_tracker s)) s)).

(** The lockout signal is only logged. *)
Definition login_refused (t : Tick) (s : Session) : Turn :=
  let tracker := (record_failure (tk_instant t) (sv_peer_ip sv) (se_tracker s)).2 in
  let failures := cx_auth_failure_count (se_ctx s) + 1 in
  let s := with_ctx (set_failures failures (se_ctx s)) (with_tracker tracker s) in
  if MAX_AUTH_FAILURES <=? failures then send_last (to_bytes (new 400 (lit "Too many authentication failures"))) s
  else send authentication_failed s.

Definition is_drain_user (user : bytes) : bool :=
  match ac_drain_username (sv_auth sv) with Some dn => eq_ignore_ascii_case dn user | None => false end.

Definition authinfo_pass (t : Tick) (password : bytes) (s : Session) : Turn :=
  if ac_required (sv_auth sv) && negb (cx_tls_active (se_ctx s)) then
    send (new 483 (lit "Encryption required for authentication")) s
  else
    let ctx := se_ctx s in
    let s := with_ctx (set_auth (cx_state ctx) (cx_authenticated_user ctx) None ctx) s in
    match cx_pending_auth_user ctx with
    | None => send authentication_out_of_sequence s
    | Some username =>
        let accepted := if is_dev_mode (sv_auth sv) then true else check (sv_credentials sv) username password in
        if accepted then login_accepted username (is_drain_user username) s
        else login_refused t s
    end.

Definition extract_oauthbearer_token (b64 : bytes) : option bytes :=
  decoded ← b64_standard_decode (trim b64);
  text ← from_utf8 decoded;
  let prefix := lit "auth=Bearer " in
  at_ ← find_subsequence text prefix;
  let token := take_while (λ c, negb (c =? 1)) (drop (at_ + length prefix) text) in
  if bool_decide (token = []) then None else Some token.

Definition authinfo_sasl (t : Tick) (initial_response : bytes) (s : Session) : Turn :=
  if ac_required (sv_auth sv) && negb (cx_tls_active (se_ctx s)) then
    send (new 483 (lit "Encryption required for authentication")) s
  else if negb (sv_oidc sv) then send (new 503 (lit "SASL OAUTHBEARER not configured on this server")) s
  else if bool_decide (initial_response = []) then
    send (new 481 (lit "Authentication failed: OAUTHBEARER initial response required")) s
  else match extract_oauthbearer_token initial_response with
       | None => send (new 481 (lit "Authentication failed: malformed OAUTHBEARER initial response")) s
       | Some token =>
           let '(r, ps) := validate_jwt (tk_secs t) token (se_providers s) in
           let s := mkSession (se_ctx s) (se_stores s) (se_tracker s) ps (se_conn s) in
           match r with
           | Ok username => login_accepted username (cx_is_drain_session (se_ctx s)) s
           | Err _ => login_refused t s
           end
       end.

(** ** The loop *)

(** Commands handled before [dispatch]. *)
Definition intercept (t : Tick) (cmd : Command) (s : Session) : option Turn :=
  match cmd with
  | CmdArticle arg => Some (fetch_turn lookup_article_by_msgid lookup_article_by_cid article_response arg s)
  | CmdHead arg => Some (fetch_turn lookup_head_by_msgid lookup_head_by_cid head_response arg s)
  | CmdBody arg => Some (fetch_turn lookup_body_by_msgid lookup_body_by_cid body_response arg s)
  | CmdStat arg => Some (fetch_turn stat_by_msgid stat_by_cid stat_response arg s)
  | Xcid arg =>
      Some (match arg ≫= λ m, match Validation.validate_message_id m with Err _ => Some m | Ok _ => None end with
            | Some _ => send syntax_error s
            | None => via_stores (handle_xcid arg (current_group (se_ctx s)) (current_number (se_ctx s))) s
            end)
  | Xverify message_id expected_cid verify_sig =>
      Some (match Validation.validate_message_id message_id with
            | Err _ => send syntax_error s
            | Ok _ => via_stores (handle_xverify (verifying_key (sv_key sv)) message_id expected_cid verify_sig) s
            end)
  | Xget cid_str => Some (via_stores (handle_xget (sv_b64 sv) cid_str) s)
  | Next => Some (via_ctx handle_next_live s)
  | Last => Some (via_ctx handle_last_live s)
  | Ihave message_id => Some (ihave_turn message_id s)
  | Group name => Some (via_ctx (handle_group_live name) s)
  | CmdList (ListActive wildmat) => Some (via_stores (handle_list_active_live wildmat) s)
  | Newnews wildmat date time => Some (via_stores (handle_newnews_live wildmat date time) s)
  | Over arg => Some (via_stores (handle_over_live (se_ctx s) arg) s)
  | Hdr field range_or_msgid => Some (via_stores (handle_hdr_live (se_ctx s) field range_or_msgid) s)
  | StartTls => starttls_turn s
  | AuthinfoPass password => Some (authinfo_pass t password s)
  | CmdSearch key value => Some (send_bytes (handle_nntp_search (sv_search sv) (se_ctx s) key value) s)
  | AuthinfoSaslOauthbearer initial_response => Some (authinfo_sasl t initial_response s)
  | _ => None
  end.

(** The article after a 340. *)
Definition post_turn (t : Tick) (s : Session) : Turn :=
  match read_upload s with
  | (UploadTimeout, s) => send_last TIMEOUT_LINE s
  | (UploadInvalid, s) => send_bytes (lit "441 Article too large" ++ CRLF) s
  | (UploadOk article_bytes, s) =>
      let rq := mkRequest article_bytes (cx_is_drain_session (se_ctx s)) (sv_peer_text sv) (cx_authenticated_user (se_ctx s)) in
      let '((final_resp, _), w) :=
        run_post_pipeline (sv_key sv) (tk_env t) (tk_vk_error t) (tk_ms t) (sv_max_article_bytes sv) rq (st_post (se_stores s)) in
      send final_resp (mkSession (se_ctx s) (with_post w (se_stores s)) (se_tracker s) (se_providers s) (se_conn s))
  end.

(** [dispatch] and what follows it. *)
Definition dispatch_turn (t : Tick) (cmd : Command) (s : Session) : Turn :=
  match dispatch (tk_secs t) (se_ctx s) cmd with
  | Err u => Crash u
  | Ok (resp, ctx) =>
      match send resp (with_ctx ctx s) with
      | Continue s =>
          match cmd with
          | Quit => Exit Done s
          | Post => if code resp =? 340 then post_turn t s else Continue s
          | _ => Continue s
          end
      | x => x
      end
  end.

Definition command_turn (t : Tick) (cmd : Command) (s : Session) : Turn :=
  if bool_decide (cx_state (se_ctx s) = Authenticating) then
    match dispatch (tk_secs t) (se_ctx s) cmd with
    | Err u => Crash u
    | Ok (resp, ctx) => send resp (with_ctx ctx s)
    end
  else match intercept t cmd s with
       | Some turn => turn
       | None => dispatch_turn t cmd s
       end.

Definition turn (t : Tick) (s : Session) : Turn :=
  let '(late, c) := timed_out (se_conn s) in
  let s := with_conn c s in
  if late then send_last (to_bytes (new 400 (lit "Timeout - closing connection"))) s
  else match read_text_line (inp c) with
       | ReadEof => Exit Done s
       | ReadInvalid rest => Exit Done (with_conn (with_inp rest c) s)
       | ReadLine line rest =>
           let s := with_conn (with_inp rest c) s in
           match parse_command (trim_eol line) with
           | Err _ => send unknown_command s
           | Ok cmd => command_turn t cmd s
           end
       end.

(** [run_command_loop]; turn [i] has the clock readings [ticks i].  [None] is
    running out of fuel. *)
Fixpoint command_loop (fuel : nat) (ticks : nat → Tick) (i : nat) (s : Session) : option Turn :=
  match fuel with
  | O => None
  | Datatypes.S fuel' =>
      match turn (ticks i) s with
      | Continue s' => command_loop fuel' ticks (Datatypes.S i) s'
      | t => Some t
      end
  end.

Definition run_command_loop (ticks : nat → Tick) (s : Session) : option Turn :=
  command_loop (Datatypes.S (length (inp (se_conn s)))) ticks 0 s.

(** ** Sessions *)

Definition name_le (g h : GroupInfo) : Prop := bytes_le (gi_name g) (gi_name h).

#[local] Instance name_le_dec : RelDecision name_le.
Proof. intros g h. unfold name_le. apply _. Defined.

Definition set_known_groups (gs : list GroupInfo) (c : SessionContext) : SessionContext :=
  mkContext (cx_state c) (cx_authenticated_user c) (cx_tls_active c) (cx_client_cert_fingerprint c) (cx_client_cert_der c)
    (cx_pending_auth_user c) (cx_selected_group c) (cx_posting_allowed c) gs (cx_auth_failure_count c)
    (cx_is_drain_session c) (cx_starttls_available c) (cx_search_available c).

(** A failed query leaves the groups as they are. *)
Definition load_known_groups (s : Session) : Session :=
  let '(r, st) := on_article_numbers list_groups (se_stores s) in
  let ctx := match r with
             | Ok groups => set_known_groups (merge_sort name_le
                 ((λ '(name, low, high), mkGroupInfo name high low true []) <$> groups)) (se_ctx s)
             | Err _ => se_ctx s
             end in
  mkSession ctx st (se_tracker s) (se_providers s) (se_conn s).

(** What the server has besides the connection when a session starts. *)
Record Shared := mkShared { sh_stores : St; sh_tracker : AuthFailureTracker; sh_providers : list ProviderValidator }.

Definition shared_of (s : Session) : Shared := mkShared (se_stores s) (se_tracker s) (se_providers s).

(** [crate::tls::extract_client_cert_data]: the fingerprint and the bytes of the
    certificate a handshake brought. *)
Record ClientCert := mkClientCert { cc_fingerprint : option bytes; cc_der : option bytes }.

(** The session before its first command: a new context, its fields as the
    caller assigns them, and the groups. *)
Definition new_session (is_tls starttls : bool) (cert : ClientCert) (sh : Shared) (c : Conn) : Session :=
  let ctx := context_new (ac_required (sv_auth sv)) (negb (sv_read_only sv)) is_tls in
  load_known_groups (mkSession
    (mkContext (cx_state ctx) (cx_authenticated_user ctx) (cx_tls_active ctx) (cc_fingerprint cert) (cc_der cert)
      (cx_pending_auth_user ctx) (cx_selected_group ctx) (cx_posting_allowed ctx) (cx_known_groups ctx)
      (cx_auth_failure_count ctx) (cx_is_drain_session ctx) starttls (sv_search sv))
    (sh_stores sh) (sh_tracker sh) (sh_providers sh) c).

Definition greeting : Response :=
  if negb (sv_read_only sv) then service_available_posting_allowed else service_available_posting_prohibited.

(** The greeting, then the loop. *)
Definition greet_and_run (ticks : nat → Tick) (s : Session) : option Turn :=
  match send greeting s with
  | Continue s => run_command_loop ticks s
  | x => Some x
  end.

Definition run_session_io (ticks : nat → Tick) (is_tls : bool) (cert : ClientCert) (sh : Shared) (c : Conn) : option Turn :=
  greet_and_run ticks (new_session is_tls false cert sh c).

Definition run_session_post_starttls (ticks : nat → Tick) (cert : ClientCert) (sh : Shared) (c : Conn) : option Turn :=
  run_command_loop ticks (new_session true false cert sh c).

(** [crate::tls::accept_tls]: what a handshake on the connection gives. *)
Inductive Handshake := HandshakeOk (cert : ClientCert) (c : Conn) | HandshakeFailed.

Definition no_cert : ClientCert := mkClientCert None None.

(** [acceptor]: whether TLS is configured.  The halves of one stream always
    reunite. *)
Definition run_plain_session (ticks ticks' : nat → Tick) (acceptor : bool) (h : Handshake) (sh : Shared) (c : Conn) : option Turn :=
  match greet_and_run ticks (new_session false acceptor no_cert sh c) with
  | Some (Exit StartTlsRequested s) =>
      match acceptor, h with
      | true, HandshakeOk cert c' => run_session_post_starttls ticks' cert (shared_of s) c'
      | _, _ => Some (Exit StartTlsRequested s)
      end
  | x => x
  end.

Inductive ListenerKind := Plain | Tls.

(** [None] inside: no session was started. *)
Definition run_session (ticks ticks' : nat → Tick) (kind : ListenerKind) (acceptor : bool) (h : Handshake) (sh : Shared) (c : Conn) :
    option (option Turn) :=
  match kind with
  | Tls =>
      match acceptor, h with
      | true, HandshakeOk cert c' => Some <$> run_session_io ticks true cert sh c'
      | _, _ => Some None
      end
  | Plain => Some <$> run_plain_session ticks ticks' acceptor h sh c
  end.

(** ** What handlers do to the context *)

(** The identity of the client and its connection stay as they are. *)
Definition same_client (c c' : SessionContext) : Prop :=
  cx_authenticated_user c' = cx_authenticated_user c ∧ cx_client_cert_fingerprint c' = cx_client_cert_fingerprint c ∧
  cx_client_cert_der c' = cx_client_cert_der c ∧ cx_tls_active c' = cx_tls_active c ∧
  cx_is_drain_session c' = cx_is_drain_session c ∧ (cx_state c' = Authenticating → cx_state c = Authenticating).

#[local] Instance same_client_refl : Reflexive same_client.
Proof. by intros c. Qed.

#[local] Instance same_client_trans : Transitive same_client.
Proof. intros a b c (A1 & A2 & A3 & A4 & A5 & A6) (B1 & B2 & B3 & B4 & B5 & B6). split_and!; [congruence..|auto]. Qed.

Definition keeps_client {A} (m : prog (SessionContext * St) Response A) : Prop := ∀ cs, same_client cs.1 (m cs).2.1.

Lemma keeps_client_bind {A B} (m : prog (SessionContext * St) Response A) (k : A → prog (SessionContext * St) Response B) :
  keeps_client m → (∀ a, keeps_client (k a)) → keeps_client (a ← m; k a).
Proof.
  intros Hm Hk cs. unfold mbind, prog_bind. specialize (Hm cs). destruct (m cs) as [[a|e] cs']; [|done].
  etrans; [exact Hm|]. apply Hk.
Qed.

Lemma keeps_client_ret {A} (a : A) : keeps_client (mret a).
Proof. by intros cs. Qed.

Lemma keeps_client_throw {A} r : keeps_client (throw r : prog _ _ A).
Proof. by intros cs. Qed.

Lemma keeps_client_some_or {A} r (x : option A) : keeps_client (some_or r x).
Proof. by destruct x; intros cs. Qed.

Lemma keeps_client_get : keeps_client get_ctx.
Proof. by intros cs. Qed.

Lemma keeps_client_in_ctx {A} (m : prog St Response A) : keeps_client (in_ctx m).
Proof. intros cs. unfold in_ctx. by destruct (m cs.2). Qed.

Lemma keeps_client_pointer n : keeps_client (update_ctx (set_pointer n)).
Proof. by intros [c s]. Qed.

Lemma keeps_client_select sg : keeps_client (update_ctx (set_selected GroupSelected sg)).
Proof. intros [c s]. by split_and!. Qed.

Hint Resolve keeps_client_bind keeps_client_ret keeps_client_throw keeps_client_some_or keeps_client_get
  keeps_client_in_ctx keeps_client_pointer keeps_client_select : keeps.

Ltac keeps := repeat first
  [ apply keeps_client_bind; [|intros ?]
  | solve [auto with keeps]
  | match goal with |- keeps_client (match ?x with _ => _ end) => destruct x end
  | match goal with |- keeps_client (if ?x then _ else _) => destruct x end ].

Lemma keeps_by_number n : keeps_client (lookup_article_content_by_number n).
Proof. unfold lookup_article_content_by_number. keeps. Qed.

Lemma keeps_current {A} (k : Z → prog (SessionContext * St) Response A) : (∀ n, keeps_client (k n)) → keeps_client (current_article k).
Proof. intros. unfold current_article. keeps. Qed.

Lemma keeps_step q r : keeps_client (step_pointer q r).
Proof. unfold step_pointer. keeps. Qed.

Lemma keeps_group name : keeps_client (handle_group_live name).
Proof. unfold handle_group_live. keeps. Qed.

Lemma keeps_respond {A} (f : A → Response) m : keeps_client m → keeps_client (respond f m).
Proof. intros. unfold respond. keeps. Qed.

(** ** What a turn does *)

Definition turn_session (t : Turn) : option Session :=
  match t with Continue s | Exit _ s => Some s | Crash _ => None end.

(** How a client may prove who it is. *)
Inductive vouched_for (t : Tick) (s : Session) (user : bytes) : Prop :=
| by_certificate name : try_cert_auth (tk_secs t) (se_ctx s) name = Some user → vouched_for t s user
| by_dev_mode : cx_pending_auth_user (se_ctx s) = Some user → is_dev_mode (sv_auth sv) = true → vouched_for t s user
| by_password pw :
    cx_pending_auth_user (se_ctx s) = Some user → check (sv_credentials sv) user pw = true → vouched_for t s user
| by_token token ps : validate_jwt (tk_secs t) token (se_providers s) = (Ok user, ps) → vouched_for t s user.

Definition same_certificate (c c' : SessionContext) : Prop :=
  cx_client_cert_fingerprint c' = cx_client_cert_fingerprint c ∧ cx_client_cert_der c' = cx_client_cert_der c ∧
  cx_tls_active c' = cx_tls_active c.

#[local] Instance same_certificate_refl : Reflexive same_certificate.
Proof. by intros c. Qed.

Ltac same := first [done|reflexivity|by left|lia].

(** A turn after the gate: the session goes on with the same client or with a
    user vouched for, and no more input is left than before. *)
Definition open_turn (t : Tick) (s : Session) (x : Turn) : Prop :=
  ∃ s', turn_session x = Some s' ∧ cx_state (se_ctx s') ≠ Authenticating ∧ same_certificate (se_ctx s) (se_ctx s') ∧
    (length (inp (se_conn s')) <= length (inp (se_conn s)))%nat ∧
    (cx_authenticated_user (se_ctx s') = cx_authenticated_user (se_ctx s) ∨
     ∃ u, cx_authenticated_user (se_ctx s') = Some u ∧ vouched_for t s u).

Lemma write_all_inp b c : inp (write_all b c).2 = inp c.
Proof. unfold write_all. by destruct (next_bool (write_errors c)). Qed.

Lemma send_bytes_session b s :
  ∃ c, turn_session (send_bytes b s) = Some (with_conn c s) ∧ inp c = inp (se_conn s).
Proof.
  unfold send_bytes. pose proof (write_all_inp b (se_conn s)) as H. destruct (write_all b (se_conn s)) as [[] c]; by exists c.
Qed.

Lemma open_send t s b (s1 : Session) :
  cx_state (se_ctx s1) ≠ Authenticating → same_certificate (se_ctx s) (se_ctx s1) →
  (length (inp (se_conn s1)) <= length (inp (se_conn s)))%nat →
  (cx_authenticated_user (se_ctx s1) = cx_authenticated_user (se_ctx s) ∨
   ∃ u, cx_authenticated_user (se_ctx s1) = Some u ∧ vouched_for t s u) →
  open_turn t s (send_bytes b s1).
Proof.
  intros H1 H2 H3 H4. destruct (send_bytes_session b s1) as (c & E & Hc).
  exists (with_conn c s1). split; [done|]. cbn. by rewrite Hc.
Qed.

Lemma open_send_last t s b (s1 : Session) :
  cx_state (se_ctx s1) ≠ Authenticating → same_certificate (se_ctx s) (se_ctx s1) →
  (length (inp (se_conn s1)) <= length (inp (se_conn s)))%nat →
  cx_authenticated_user (se_ctx s1) = cx_authenticated_user (se_ctx s) →
  open_turn t s (send_last b s1).
Proof.
  intros H1 H2 H3 H4. unfold send_last. eexists. split; [done|]. cbn. rewrite write_all_inp. split_and!; auto; apply H2.
Qed.

Lemma open_via_stores t s m : cx_state (se_ctx s) ≠ Authenticating → open_turn t s (via_stores m s).
Proof. intros Hs. unfold via_stores. destruct (reply m (se_stores s)) as [r st]. apply open_send; same. Qed.

Lemma open_via_ctx t s m : cx_state (se_ctx s) ≠ Authenticating → keeps_client m → open_turn t s (via_ctx m s).
Proof.
  intros Hs Hm. unfold via_ctx, reply. specialize (Hm (se_ctx s, se_stores s)).
  destruct (m (se_ctx s, se_stores s)) as [r [c st]]. destruct Hm as (H1 & H2 & H3 & H4 & _ & H6).
  apply open_send; cbn in *; [by auto|by split_and!|done|by left].
Qed.

Lemma open_fetch t s f g h arg :
  cx_state (se_ctx s) ≠ Authenticating → open_turn t s (fetch_turn f g h arg s).
Proof.
  intros Hs. unfold fetch_turn. destruct arg as [[m|n|c]|]; try by apply open_via_stores.
  - apply open_via_ctx; [done|]. apply keeps_respond, keeps_by_number.
  - apply open_via_ctx; [done|]. apply keeps_respond, keeps_current, keeps_by_number.
Qed.

Lemma read_text_line_shorter i l r : read_text_line i = ReadLine l r → (length r < length i)%nat.
Proof.
  unfold read_text_line. pose proof (take_line_app i) as E. destruct (take_line i) as [l' r']. cbn [fst snd] in E. case_bool_decide; [done|].
  destruct (is_utf8 l'); [|done]. intros [= <- <-]. rewrite <- E, length_app. destruct l'; [done|cbn; lia].
Qed.

Lemma read_text_line_rest i r : read_text_line i = ReadInvalid r → (length r <= length i)%nat.
Proof.
  unfold read_text_line. pose proof (take_line_app i) as E. destruct (take_line i) as [l' r']. cbn [fst snd] in E.
  case_bool_decide; [done|]. destruct (is_utf8 l'); [done|]. intros [= <-]. rewrite <- E, length_app. lia.
Qed.

Lemma read_article_shorter fuel i a tl max : (length (read_article fuel i a tl max).2 <= length i)%nat.
Proof.
  revert i a tl. induction fuel as [|fuel IH]; intros i a tl; [done|]. cbn [read_article].
  destruct (read_text_line i) as [|l r|r] eqn:E; [done| |].
  - apply read_text_line_shorter in E. case_bool_decide; [cbn; lia|]. destruct tl; [etrans; [apply IH|lia]|].
    destruct (max <? _); (etrans; [apply IH|lia]).
  - by apply read_text_line_rest.
Qed.

Lemma read_upload_session s :
  ∃ c, (read_upload s).2 = with_conn c s ∧ (length (inp c) <= length (inp (se_conn s)))%nat.
Proof.
  unfold read_upload, timed_out. destruct (next_bool (timeouts (se_conn s))) as [[] ts]; [by eexists|]. cbn [inp].
  pose proof (read_article_shorter (Datatypes.S (length (inp (se_conn s)))) (inp (se_conn s)) [] false (sv_max_article_bytes sv)) as H.
  unfold read_dot_terminated. destruct (read_article _ _ _ _ _) as [r rest]. by eexists.
Qed.

Lemma open_ihave t s m : cx_state (se_ctx s) ≠ Authenticating → open_turn t s (ihave_turn m s).
Proof.
  intros Hs. unfold ihave_turn. destruct (Validation.validate_message_id m); [|apply open_send; same].
  unfold send_bytes at 1. destruct (write_all _ (se_conn s)) as [[] c] eqn:E;
    pose proof (write_all_inp (lit "335 Send it; end with <CR-LF>.<CR-LF>" ++ CRLF) (se_conn s)) as Hi; rewrite E in Hi; cbn [snd] in Hi.
  - destruct (read_upload_session (with_conn c s)) as (c' & Hc & Hl). cbn in Hl, Hi.
    destruct (read_upload (with_conn c s)) as [[|b|] s2]; cbn [snd] in Hc; subst s2;
      (apply open_send_last || apply open_send); cbn; try same; rewrite <- Hi; same.
  - eexists. split; [done|]. cbn. rewrite Hi. split_and!; same.
Qed.

Lemma open_starttls t s x : cx_state (se_ctx s) ≠ Authenticating → starttls_turn s = Some x → open_turn t s x.
Proof.
  intros Hs. unfold starttls_turn. destruct (_ && _); [|done]. unfold buffered.
  destruct (next_bool (pipelined (se_conn s))) as [b bs]. intros [= <-]. destruct (b && _); [apply open_send_last; same|].
  set (c := mkConn _ _ _ _ bs). destruct (send_bytes_session (to_bytes starttls_ready) (with_conn c s)) as (c' & E & Hc).
  unfold send. destruct (send_bytes _ _) as [s'|e s'|u]; [| |done]; injection E as ->; eexists; split; [done| |done|];
    cbn; rewrite Hc; cbn; split_and!; same.
Qed.

Lemma open_login_accepted t s s0 u drain :
  cx_state (se_ctx s) ≠ Authenticating → same_certificate (se_ctx s0) (se_ctx s) →
  (length (inp (se_conn s)) <= length (inp (se_conn s0)))%nat → vouched_for t s0 u →
  open_turn t s0 (login_accepted u drain s).
Proof. intros Hs Hc Hl Hu. apply open_send; [done|done|done|]. right. by exists u. Qed.

Lemma open_login_refused t t' s s0 :
  cx_state (se_ctx s) ≠ Authenticating → same_certificate (se_ctx s0) (se_ctx s) →
  (length (inp (se_conn s)) <= length (inp (se_conn s0)))%nat →
  cx_authenticated_user (se_ctx s) = cx_authenticated_user (se_ctx s0) →
  open_turn t s0 (login_refused t' s).
Proof.
  intros Hs Hc Hl Hu. unfold login_refused. cbv zeta. destruct (_ <=? _); [apply open_send_last; same|].
  apply open_send; [done|done|done|by left].
Qed.

Lemma open_pass t pw s : cx_state (se_ctx s) ≠ Authenticating → open_turn t s (authinfo_pass t pw s).
Proof.
  intros Hs. unfold authinfo_pass. destruct (_ && _); [apply open_send; same|]. cbv zeta.
  destruct (cx_pending_auth_user (se_ctx s)) as [u|] eqn:Ep; [|apply open_send; same].
  destruct (if is_dev_mode _ then _ else _) eqn:Ea; [|apply open_login_refused; same].
  apply open_login_accepted; [done|same|done|].
  destruct (is_dev_mode (sv_auth sv)) eqn:Ed; [by apply by_dev_mode|by eapply by_password].
Qed.

Lemma open_sasl t r s : cx_state (se_ctx s) ≠ Authenticating → open_turn t s (authinfo_sasl t r s).
Proof.
  intros Hs. unfold authinfo_sasl. destruct (_ && _); [apply open_send; same|].
  destruct (negb _); [apply open_send; same|].
  case_bool_decide; [apply open_send; same|].
  destruct (extract_oauthbearer_token r) as [token|]; [|apply open_send; same].
  destruct (validate_jwt (tk_secs t) token (se_providers s)) as [[u|e] ps] eqn:E; cbv zeta.
  - apply open_login_accepted; [done|same|done|]. by eapply by_token.
  - apply open_login_refused; same.
Qed.

Lemma open_intercept t cmd s x :
  cx_state (se_ctx s) ≠ Authenticating → intercept t cmd s = Some x → open_turn t s x.
Proof.
  intros Hs. destruct cmd; cbn [intercept]; try done; try (intros [= <-]);
    try (by apply open_fetch); try (by apply open_via_stores); try (by apply open_ihave);
    try (by apply open_pass); try (by apply open_sasl).
  - destruct sub; [|done..]. intros [= <-]. by apply open_via_stores.
  - apply open_via_ctx; [done|apply keeps_group].
  - apply open_via_ctx; [done|apply keeps_step].
  - apply open_via_ctx; [done|apply keeps_step].
  - by apply open_starttls.
  - destruct (_ ≫= _); [apply open_send; same|by apply open_via_stores].
  - destruct (Validation.validate_message_id _); [by apply open_via_stores|apply open_send; same].
  - apply open_send; same.
Qed.

Lemma open_post t s : cx_state (se_ctx s) ≠ Authenticating → open_turn t s (post_turn t s).
Proof.
  intros Hs. unfold post_turn. destruct (read_upload_session s) as (c & Hc & Hl).
  destruct (read_upload s) as [[|b|] s2]; cbn [snd] in Hc; subst s2.
  - apply open_send_last; same.
  - destruct (run_post_pipeline _ _ _ _ _ _ _) as [[r m] w]. apply open_send; same.
  - apply open_send; same.
Qed.

(** AUTHINFO USER changes the user only for a certificate. *)
Lemma authinfo_user_ok now acc name ctx r ctx' :
  authinfo_user now acc name ctx = (r, ctx') →
  same_certificate ctx ctx' ∧
  (cx_state ctx' = cx_state ctx ∧ cx_authenticated_user ctx' = cx_authenticated_user ctx ∨
   ∃ u, cx_state ctx' = acc ∧ cx_authenticated_user ctx' = Some u ∧ try_cert_auth now ctx name = Some u).
Proof.
  unfold authinfo_user. destruct (_ && _); [intros [= <- <-]; split; [reflexivity|by left]|].
  destruct (try_cert_auth now ctx name) as [u|] eqn:E; intros [= <- <-]; (split; [same|]); [right; by exists u|by left].
Qed.

(** What is left for [dispatch] after the gate. *)
Lemma dispatch_open t s cmd :
  cx_state (se_ctx s) ≠ Authenticating → intercept t cmd s = None →
  ∃ r c, dispatch (tk_secs t) (se_ctx s) cmd = Ok (r, c) ∧ cx_state c ≠ Authenticating ∧ same_certificate (se_ctx s) c ∧
    (cx_authenticated_user c = cx_authenticated_user (se_ctx s) ∨
     ∃ u, cx_authenticated_user c = Some u ∧ vouched_for t s u).
Proof.
  intros Hs Hi. unfold dispatch. rewrite bool_decide_false by done.
  assert (Hkeep : ∀ r : Response, ∃ r' c, Ok (E := Unreachable) (r, se_ctx s) = Ok (r', c) ∧ cx_state c ≠ Authenticating ∧
    same_certificate (se_ctx s) c ∧ (cx_authenticated_user c = cx_authenticated_user (se_ctx s) ∨
     ∃ u, cx_authenticated_user c = Some u ∧ vouched_for t s u)).
  { intros r. exists r, (se_ctx s). split_and!; [done|done|reflexivity|by left]. }
  destruct cmd; try discriminate Hi; try (by apply Hkeep).
  - destruct sub; apply Hkeep.
  - destruct (authinfo_user (tk_secs t) (cx_state (se_ctx s)) user (se_ctx s)) as [r c] eqn:E.
    exists r, c. split; [done|]. apply authinfo_user_ok in E as (Hc & [[-> ->]|(u & -> & -> & Hu)]).
    + split_and!; [done|done|by left].
    + split_and!; [done|done|]. right. exists u. split; [done|]. by eapply by_certificate.
Qed.

Lemma open_turn_weaken t s s1 x :
  se_ctx s1 = se_ctx s → se_providers s1 = se_providers s → (length (inp (se_conn s1)) <= length (inp (se_conn s)))%nat →
  open_turn t s1 x → open_turn t s x.
Proof.
  intros Hc Hp Hl (s' & E & H1 & H2 & H3 & H4). exists s'. rewrite Hc in *. split_and!; [done|done|apply H2..|lia|].
  destruct H4 as [H4|(u & Hu & H4)]; [by left|right]. exists u. split; [done|].
  destruct H4 as [n Hn|Hn Hd|pw Hn Hk|tk ps Hv]; rewrite ?Hc, ?Hp in *;
    [by eapply by_certificate|by eapply by_dev_mode|by eapply by_password|by eapply by_token].
Qed.

Lemma open_dispatch t s cmd :
  cx_state (se_ctx s) ≠ Authenticating → intercept t cmd s = None → open_turn t s (dispatch_turn t cmd s).
Proof.
  intros Hs Hi. destruct (dispatch_open t s cmd Hs Hi) as (r & c & E & H1 & H2 & H3).
  unfold dispatch_turn. rewrite E.
  pose proof (open_send t s (to_bytes r) (with_ctx c s) H1 H2 (Nat.le_refl _) H3) as Ho.
  fold (send r (with_ctx c s)) in Ho. destruct (send r (with_ctx c s)) as [s1|e s1|u] eqn:Es; [|done..].
  destruct cmd; try done.
  destruct (_ =? _); [|done].
  assert (c = se_ctx s) as -> by (revert E; unfold dispatch; rewrite bool_decide_false by done; by intros [= _ <-]).
  destruct (send_bytes_session (to_bytes r) (with_ctx (se_ctx s) s)) as (c & Ec & Hc).
  unfold send in Es. rewrite Es in Ec. injection Ec as ->.
  eapply open_turn_weaken; [..|by apply open_post]; [done|done|]. cbn. by rewrite Hc.
Qed.

Lemma open_command t s cmd : cx_state (se_ctx s) ≠ Authenticating → open_turn t s (command_turn t cmd s).
Proof.
  intros Hs. unfold command_turn. rewrite bool_decide_false by done.
  destruct (intercept t cmd s) as [x|] eqn:E; [by eapply open_intercept|by apply open_dispatch].
Qed.

(** A turn at the gate: nothing the server shares changes, and only a
    certificate opens it. *)
Definition closed_turn (t : Tick) (s : Session) (x : Turn) : Prop :=
  ∃ s', turn_session x = Some s' ∧ shared_of s' = shared_of s ∧ same_certificate (se_ctx s) (se_ctx s') ∧
    (length (inp (se_conn s')) <= length (inp (se_conn s)))%nat ∧
    (cx_state (se_ctx s') = Authenticating ∧ cx_authenticated_user (se_ctx s') = cx_authenticated_user (se_ctx s) ∨
     ∃ u name, cx_state (se_ctx s') = Active ∧ cx_authenticated_user (se_ctx s') = Some u ∧
       try_cert_auth (tk_secs t) (se_ctx s) name = Some u).

Lemma closed_send t s b c :
  same_certificate (se_ctx s) c →
  (cx_state c = Authenticating ∧ cx_authenticated_user c = cx_authenticated_user (se_ctx s) ∨
   ∃ u name, cx_state c = Active ∧ cx_authenticated_user c = Some u ∧ try_cert_auth (tk_secs t) (se_ctx s) name = Some u) →
  closed_turn t s (send_bytes b (with_ctx c s)).
Proof.
  intros H1 H2. destruct (send_bytes_session b (with_ctx c s)) as (c' & E & Hc).
  exists (with_conn c' (with_ctx c s)). split_and!; [done|done|apply H1..| |done]. cbn. by rewrite Hc.
Qed.

Lemma closed_command t s cmd : cx_state (se_ctx s) = Authenticating → closed_turn t s (command_turn t cmd s).
Proof.
  intros Hs. unfold command_turn, dispatch. rewrite bool_decide_true by done.
  destruct (dispatch_authenticating (tk_secs t) (se_ctx s) cmd) as [r c] eqn:E. apply closed_send.
  - revert E. destruct cmd; cbn [dispatch_authenticating]; try (by intros [= <- <-]).
    by intros [H _]%authinfo_user_ok.
  - revert E. destruct cmd; cbn [dispatch_authenticating]; try (intros [= <- <-]; by left).
    intros [_ [[Hst Hu]|(u & Hst & Hu & Hc)]]%authinfo_user_ok; [left; by rewrite Hst|right; eauto].
Qed.

(** A turn that goes on has read a line. *)
Definition good_turn (t : Tick) (s : Session) (x : Turn) : Prop :=
  (if bool_decide (cx_state (se_ctx s) = Authenticating) then closed_turn t s x else open_turn t s x) ∧
  (∀ s', x = Continue s' → (length (inp (se_conn s')) < length (inp (se_conn s)))%nat).

Lemma closed_turn_weaken t s c x :
  (length (inp c) <= length (inp (se_conn s)))%nat → closed_turn t (with_conn c s) x → closed_turn t s x.
Proof. intros Hl (s' & E & H1 & H2 & H3 & H4). exists s'. cbn in *. split_and!; [done|done|apply H2..|lia|done]. Qed.

Lemma good_turn_weaken t s c x :
  (length (inp c) < length (inp (se_conn s)))%nat →
  (if bool_decide (cx_state (se_ctx s) = Authenticating) then closed_turn t (with_conn c s) x else open_turn t (with_conn c s) x) →
  good_turn t s x.
Proof.
  intros Hl H. split.
  - destruct (bool_decide _); [apply (closed_turn_weaken _ _ c)|eapply (open_turn_weaken t s (with_conn c s))]; try done; cbn; lia.
  - intros s' ->. destruct (bool_decide _).
    + destruct H as (s'' & [= <-] & _ & _ & H & _). cbn in H. lia.
    + destruct H as (s'' & [= <-] & _ & _ & H & _). cbn in H. lia.
Qed.

Lemma exit_good t s e c :
  (length (inp c) <= length (inp (se_conn s)))%nat → good_turn t s (Exit e (with_conn c s)).
Proof.
  intros Hl. split; [|done]. case_bool_decide as Hs; eexists; (split; [done|]); cbn; split_and!; try done; auto.
Qed.

Lemma turn_good t s : good_turn t s (turn t s).
Proof.
  unfold turn, timed_out. destruct (next_bool (timeouts (se_conn s))) as [late ts].
  set (c := mkConn (inp (se_conn s)) (sent (se_conn s)) ts (write_errors (se_conn s)) (pipelined (se_conn s))).
  destruct late; [apply (exit_good t s Done (write_all _ c).2); by rewrite write_all_inp|].
  destruct (read_text_line (inp c)) as [|line rest|rest] eqn:E; [by apply exit_good| |].
  - apply read_text_line_shorter in E.
    assert (Hl : (length (inp (with_inp rest c)) < length (inp (se_conn s)))%nat) by done.
    apply (good_turn_weaken _ _ (with_inp rest c)); [done|].
    destruct (parse_command (trim_eol line)) as [cmd|err]; case_bool_decide as Hs.
    + by apply closed_command.
    + by apply open_command.
    + apply (closed_send t (with_conn (with_inp rest c) s) (to_bytes unknown_command) (se_ctx s)); [same|by left].
    + apply open_send; same.
  - apply (exit_good t s Done (with_inp rest c)). by eapply read_text_line_rest.
Qed.

(** ** Runs *)

(** The session before turn [i] of a loop that starts as [s0]. *)
Inductive reached (ticks : nat → Tick) (s0 : Session) : nat → Session → Prop :=
| reached_start : reached ticks s0 0 s0
| reached_turn i s s' : reached ticks s0 i s → turn (ticks i) s = Continue s' → reached ticks s0 (Datatypes.S i) s'.

Lemma loop_ends ticks s0 fuel i s :
  reached ticks s0 i s → (length (inp (se_conn s)) < fuel)%nat →
  ∃ j s1 e s2, reached ticks s0 j s1 ∧ turn (ticks j) s1 = Exit e s2 ∧ command_loop fuel ticks i s = Some (Exit e s2).
Proof.
  revert i s. induction fuel as [|fuel IH]; intros i s Hr Hf; [lia|]. cbn [command_loop].
  destruct (turn_good (ticks i) s) as [Hg Hl]. destruct (turn (ticks i) s) as [s'|e s'|u] eqn:E.
  - apply IH; [by eapply reached_turn|]. specialize (Hl s' eq_refl). lia.
  - by exists i, s, e, s'.
  - exfalso. by destruct (bool_decide _), Hg as (? & ? & _).
Qed.

Lemma run_command_loop_ends ticks s :
  ∃ j s1 e s2, reached ticks s j s1 ∧ turn (ticks j) s1 = Exit e s2 ∧ run_command_loop ticks s = Some (Exit e s2).
Proof. apply loop_ends; [apply reached_start|lia]. Qed.

Lemma greet_and_run_ends ticks s : ∃ e s', greet_and_run ticks s = Some (Exit e s').
Proof.
  unfold greet_and_run, send. destruct (send_bytes_session (to_bytes greeting) s) as (c & E & _).
  destruct (send_bytes _ s) as [s1|e s1|u]; [|by exists e, s1|done].
  destruct (run_command_loop_ends ticks s1) as (_ & _ & e & s2 & _ & _ & ->). by exists e, s2.
Qed.

(** C23. Every reader session comes to an end: on either listener, with or
    without TLS, whatever the client sends, whichever reads time out, writes
    fail and queries fail, the loop returns after at most one turn per byte
    of input and neither [unreachable!] of [dispatch] is ever evaluated. *)
Theorem reader_session_ends ticks ticks' kind acceptor h sh c :
  ∃ r, run_session ticks ticks' kind acceptor h sh c = Some r ∧ ∀ x, r = Some x → ∃ e s', x = Exit e s'.
Proof.
  destruct kind; cbn [run_session].
  - unfold run_plain_session, run_session_post_starttls.
    destruct (greet_and_run_ends ticks (new_session false acceptor no_cert sh c)) as (e & s & ->).
    assert (Hs : ∀ e' s', ∃ r : option Turn, Some <$> Some (Exit e' s') = Some r ∧
      ∀ x, r = Some x → ∃ e s', x = Exit e s') by (intros; eexists; split; [done|]; intros ? [= <-]; eauto).
    destruct e; [apply Hs|]. destruct acceptor; [|apply Hs]. destruct h as [cert c'|]; [|apply Hs].
    destruct (run_command_loop_ends ticks' (new_session true false cert (shared_of s) c')) as (_ & _ & e & s2 & _ & _ & ->).
    apply Hs.
  - destruct acceptor; [|by exists None]. destruct h as [cert c'|]; [|by exists None]. unfold run_session_io.
    destruct (greet_and_run_ends ticks (new_session true false cert sh c')) as (e & s & ->).
    eexists. split; [done|]. intros ? [= <-]. eauto.
Qed.

Lemma load_known_groups_ctx s :
  cx_state (se_ctx (load_known_groups s)) = cx_state (se_ctx s) ∧
  cx_authenticated_user (se_ctx (load_known_groups s)) = cx_authenticated_user (se_ctx s) ∧
  same_certificate (se_ctx s) (se_ctx (load_known_groups s)).
Proof. unfold load_known_groups. by destruct (on_article_numbers list_groups (se_stores s)) as [[gs|e] st]. Qed.

(** A session that has to log in: at the gate, or let in by a vouched-for login. *)
Definition gated (ticks : nat → Tick) (s0 : Session) (i : nat) (s : Session) : Prop :=
  (cx_state (se_ctx s) = Authenticating ∧ cx_authenticated_user (se_ctx s) = None ∧ shared_of s = shared_of s0) ∨
  (cx_state (se_ctx s) ≠ Authenticating ∧ ∃ u j s1, cx_authenticated_user (se_ctx s) = Some u ∧ (j < i)%nat ∧
    reached ticks s0 j s1 ∧ vouched_for (ticks j) s1 u).

Lemma reached_gated ticks s0 i s :
  cx_state (se_ctx s0) = Authenticating → cx_authenticated_user (se_ctx s0) = None →
  reached ticks s0 i s → gated ticks s0 i s.
Proof.
  intros Hs Hu. induction 1 as [|i s s' Hr IH E]; [by left|].
  destruct (turn_good (ticks i) s) as [Hg _]. rewrite E in Hg. case_bool_decide as Hst.
  - destruct Hg as (s2 & [= <-] & H1 & H2 & _ & [[Hs1 Hu1]|(u & name & Hs1 & Hu1 & Hc)]).
    + left. destruct IH as [(_ & IHu & IHs)|[IH _]]; [|done]. split_and!; congruence.
    + right. split; [by rewrite Hs1|]. exists u, i, s. split_and!; [done|lia|done|by eapply by_certificate].
  - destruct Hg as (s2 & [= <-] & H1 & H2 & _ & Hu1). right. split; [done|].
    destruct IH as [[IH _]|[_ (u & j & s1 & IHu & Hj & IH1 & IH2)]]; [done|].
    destruct Hu1 as [Hu1|(v & Hu1 & Hv)].
    + exists u, j, s1. split_and!; [congruence|lia|done|done].
    + exists v, i, s. split_and!; [done|lia|done|done].
Qed.

Lemma new_session_gate is_tls starttls cert sh c :
  ac_required (sv_auth sv) = true →
  cx_state (se_ctx (new_session is_tls starttls cert sh c)) = Authenticating ∧
  cx_authenticated_user (se_ctx (new_session is_tls starttls cert sh c)) = None.
Proof.
  intros Hr. unfold new_session. rewrite Hr.
  match goal with |- context [load_known_groups ?s] => destruct (load_known_groups_ctx s) as (-> & -> & _) end. done.
Qed.

(** C2. Where authentication is required, nobody works on the server
    unauthenticated: before any turn of a session, either the session is still
    at the gate, has no user and nothing that sessions share has changed, or
    it has a user who, in an earlier turn of the same session, was vouched for
    by a certificate, by a password, by a token or by the development mode. *)
Theorem no_access_without_login ticks is_tls starttls cert sh c i s :
  ac_required (sv_auth sv) = true →
  reached ticks (new_session is_tls starttls cert sh c) i s →
  gated ticks (new_session is_tls starttls cert sh c) i s.
Proof. intros Hr H. destruct (new_session_gate is_tls starttls cert sh c Hr) as [H1 H2]. by apply reached_gated. Qed.

Lemma no_cert_no_login now ctx name :
  cx_client_cert_fingerprint ctx = None → cx_client_cert_der ctx = None → try_cert_auth now ctx name = None.
Proof. unfold try_cert_auth. by intros -> ->. Qed.

(** Where authentication is required, a client without a certificate never
    gets in: whatever it sends, a right user name and password or a valid
    token included, the session stays at the gate, and in particular the code
    that checks passwords is never reached.  ([dispatch] answers AUTHINFO
    PASS with 482 before that code, and STARTTLS with 502.) *)
Theorem password_login_impossible ticks is_tls starttls sh c i s :
  ac_required (sv_auth sv) = true →
  reached ticks (new_session is_tls starttls no_cert sh c) i s →
  cx_state (se_ctx s) = Authenticating ∧ cx_authenticated_user (se_ctx s) = None ∧
  shared_of s = shared_of (new_session is_tls starttls no_cert sh c).
Proof.
  intros Hr H. set (s0 := new_session is_tls starttls no_cert sh c) in *.
  enough (cx_state (se_ctx s) = Authenticating ∧ same_certificate (se_ctx s0) (se_ctx s)) as [Hs _].
  { destruct (new_session_gate is_tls starttls no_cert sh c Hr) as [H1 H2].
    destruct (reached_gated ticks s0 i s H1 H2 H) as [Hg|[Hg _]]; [exact Hg|done]. }
  assert (Hc : cx_client_cert_fingerprint (se_ctx s0) = None ∧ cx_client_cert_der (se_ctx s0) = None).
  { unfold s0, new_session.
    match goal with |- context [load_known_groups ?s] => destruct (load_known_groups_ctx s) as (_ & _ & -> & -> & _) end. done. }
  induction H as [|i s s' Hre IH E]; [split; [by apply new_session_gate|reflexivity]|].
  destruct IH as [IHs IHc]. destruct (turn_good (ticks i) s) as [Hg _]. rewrite E, bool_decide_true in Hg by done.
  destruct Hg as (s2 & [= <-] & _ & H2 & _ & [[H3 _]|(u & name & _ & _ & H3)]).
  - split; [done|]. destruct IHc as (? & ? & ?), H2 as (? & ? & ?). split_and!; congruence.
  - destruct IHc as (Hf & Hd & _). rewrite no_cert_no_login in H3; [done|rewrite Hf; apply Hc|rewrite Hd; apply Hc].
Qed.

Lemma read_article_not_utf8 ws fuel article tl max bad rest :
  Forall (λ w, sendable w ∧ w ≠ lit ".") ws → (length ws < fuel)%nat → LF ∉ bad → is_utf8 (bad ++ [LF]) = false →
  read_article fuel (Headers.render ws ++ bad ++ LF :: rest) article tl max = (Err NotUtf8, rest).
Proof.
  intros Hw Hf Hb Hu. revert fuel article tl Hw Hf.
  induction ws as [|w ws IH]; intros [|fuel] article tl Hw Hf; cbn [length] in Hf; try lia; cbn [read_article].
  - change (Headers.render []) with (@nil Z). cbn [app]. unfold read_text_line. rewrite take_line_eol by done.
    rewrite bool_decide_false by (by destruct bad). by rewrite Hu.
  - apply Forall_cons in Hw as [[Hw Hd] Hws]. rewrite Headers.render_cons. rewrite read_text_line_wire by done.
    rewrite trim_eol_line by apply Hw. rewrite bool_decide_false by done. cbv zeta.
    destruct tl; [apply IH; [done|lia]|]. destruct (max <? _); (apply IH; [done|lia]).
Qed.

(** A POST that has a line which is not UTF-8 is not drained: the rest of
    the article is taken for commands.  The server answers 340 and then 441
    [Article too large], whatever the size, with the text after that line
    still to be read by the command loop. *)
Theorem non_utf8_post_runs_rest t s ws bad rest :
  cx_state (se_ctx s) ≠ Authenticating → cx_posting_allowed (se_ctx s) = true →
  timeouts (se_conn s) = [] → write_errors (se_conn s) = [] →
  Forall (λ w, sendable w ∧ w ≠ lit ".") ws → LF ∉ bad → is_utf8 (bad ++ [LF]) = false →
  inp (se_conn s) = (lit "POST" ++ CRLF ++ Headers.render ws) ++ bad ++ LF :: rest →
  ∃ s', turn t s = Continue s' ∧ inp (se_conn s') = rest ∧ shared_of s' = shared_of s ∧ se_ctx s' = se_ctx s ∧
    sent (se_conn s') = sent (se_conn s) ++ [to_bytes send_article; lit "441 Article too large" ++ CRLF].
Proof.
  intros Hs Hp Ht Hw Hws Hb Hu Hi. unfold turn, timed_out. rewrite Ht. cbn [next_bool]. cbn [inp]. rewrite Hi.
  rewrite <- !app_assoc. rewrite read_text_line_wire by (by apply (bool_decide_eq_true_1 _)).
  change (parse_command (trim_eol (lit "POST" ++ CRLF))) with (Ok (E := ParseError) Post).
  unfold command_turn. rewrite bool_decide_false by done. cbn [intercept]. unfold dispatch_turn, dispatch.
  rewrite bool_decide_false by done. cbn [se_ctx with_conn]. rewrite Hp. cbn [negb].
  unfold send, send_bytes, write_all. cbn [se_conn with_conn with_ctx with_inp write_errors]. rewrite Hw. cbn [next_bool negb].
  change (code send_article =? 340) with true. cbv iota. unfold post_turn, read_upload, timed_out.
  cbn [se_conn with_conn with_ctx with_inp write_errors timeouts next_bool inp]. unfold read_dot_terminated.
  rewrite read_article_not_utf8; [|done|apply render_fuel|done|done].
  unfold send_bytes, write_all. cbn. eexists. split; [done|]. cbn. split_and!; [done|done|done|]. by rewrite <- app_assoc.
Qed.

End Session.

(** ** Samples *)

Module SessionSamples.
Import ToyCrypto AuthSamples SigSamples HeaderSample IpldSamples SqliteStorage.SqlSamples MsgIdSamples ReaderStoreSamples.
Import MemStorage ReaderPostSamples NumberSamples QuerySamples CredentialSamples.

#[export] Instance no_x509 : X509Lib :=
  {| parse_pem _ := Err []; parse_x509 _ := Err []; is_valid_at _ _ := false; parse_spki _ := None |}.
#[export] Instance no_oidc : OidcLib := {|
  DecodingKey := (); from_rsa_components _ _ := Err []; from_ec_components _ _ := Err []; decode_header _ := Err [];
  decode_token _ _ _ _ _ _ := Err []; get_jwks_uri _ _ := Err []; get_jwks _ _ := Err []
|}.
#[export] Instance ascii_case : UnicodeLib := {| to_lowercase := to_ascii_lowercase |}.

Definition tick : Tick := mkTick 1704067200 5 0 env1 [].

(** Alice has a password and a certificate. *)
Definition server (required : bool) : Server := mkServer
  (mkAuth required users None [] [] [] None) 100000 false (mkStore {[ lit "alice" := alice_hash ]} []) {[ normalise (lit "aa") := lit "alice" ]} []
  false false operator (λ b, b) (V4 1) (lit "192.0.2.1").

Definition shared : Shared := mkShared two_articles (tracker_new 5 60 10) [].

Definition conn (i : bytes) : Conn := mkConn i [] [] [] [].

Definition goes_on (x : Turn (I := MemIpfsStore) (M := Pool (gmap bytes bytes)) (S := MemLogStorage)) : bool :=
  match x with Continue _ => true | _ => false end.

Definition next_session (sv : Server) (s : Session (I := MemIpfsStore) (M := Pool (gmap bytes bytes)) (S := MemLogStorage)) : Session :=
  match turn sv tick s with Continue s' => s' | _ => s end.

Lemma reached_next sv s0 i s :
  reached sv (λ _, tick) s0 i s → goes_on (turn sv tick s) = true → reached sv (λ _, tick) s0 (S i) (next_session sv s).
Proof.
  intros H E. eapply reached_turn; [exact H|]. unfold next_session. by destruct (turn sv tick s).
Qed.

Definition alice_cert : ClientCert := mkClientCert (Some (lit "aa")) None.
Definition login : bytes := lit "AUTHINFO USER Alice" ++ CRLF ++ lit "AUTHINFO PASS " ++ alice_hash ++ CRLF.

Definition with_cert : Session := new_session (server true) true false alice_cert shared (conn login).
Definition without_cert : Session := new_session (server true) true false no_cert shared (conn login).

Lemma alice_logged_in : cx_authenticated_user (se_ctx (next_session (server true) with_cert)) = Some (lit "alice").
Proof. vm_refl. Qed.

Lemma alice_password : check (sv_credentials (server true)) (lit "Alice") alice_hash = true.
Proof. vm_refl. Qed.

Lemma login_read : inp (se_conn (next_session (server true) (next_session (server true) without_cert))) = [].
Proof. vm_refl. Qed.

Lemma no_access_witness :
  ∃ s, reached (server true) (λ _, tick) with_cert 1 s ∧ cx_authenticated_user (se_ctx s) = Some (lit "alice") ∧
    gated (server true) (λ _, tick) with_cert 1 s.
Proof.
  assert (H : reached (server true) (λ _, tick) with_cert 1 (next_session (server true) with_cert)).
  { apply reached_next; [apply reached_start|vm_refl]. }
  exists (next_session (server true) with_cert). split; [exact H|]. split; [exact alice_logged_in|].
  exact (no_access_without_login (server true) (λ _, tick) true false alice_cert shared (conn login) 1 _ eq_refl H).
Defined.

Lemma password_login_witness :
  ∃ s, reached (server true) (λ _, tick) without_cert 2 s ∧ check (sv_credentials (server true)) (lit "Alice") alice_hash = true ∧
    inp (se_conn s) = [] ∧ cx_state (se_ctx s) = Authenticating ∧ cx_authenticated_user (se_ctx s) = None ∧ shared_of s = shared_of without_cert.
Proof.
  assert (H : reached (server true) (λ _, tick) without_cert 2 (next_session (server true) (next_session (server true) without_cert))).
  { apply reached_next; [apply reached_next; [apply reached_start|]|]; vm_refl. }
  exists (next_session (server true) (next_session (server true) without_cert)).
  split; [exact H|]. split; [exact alice_password|]. split; [exact login_read|].
  exact (password_login_impossible (server true) (λ _, tick) true false shared (conn login) 2 _ eq_refl H).
Defined.

(** An article whose second line is Latin-1, and whose third is a command. *)
Definition article_lines : list bytes := [lit "Subject: x"].
Definition latin1 : bytes := lit "caf" ++ [233].
Definition posting : Session := new_session (server false) true false no_cert shared
  (conn ((lit "POST" ++ CRLF ++ Headers.render article_lines) ++ latin1 ++ LF :: lit "QUIT" ++ CRLF ++ lit "." ++ CRLF)).

Lemma article_quits : goes_on (turn (server false) tick (next_session (server false) posting)) = false.
Proof. vm_refl. Qed.

Lemma non_utf8_post_witness :
  ∃ s', turn (server false) tick posting = Continue s' ∧ inp (se_conn s') = lit "QUIT" ++ CRLF ++ lit "." ++ CRLF ∧
    goes_on (turn (server false) tick s') = false.
Proof.
  pose proof (non_utf8_post_runs_rest (server false) tick posting article_lines latin1 (lit "QUIT" ++ CRLF ++ lit "." ++ CRLF)) as H.
  pose proof article_quits as He.
  destruct H as (s' & H & Hi & _); [by apply (bool_decide_eq_true_1 _)|vm_refl|vm_refl|vm_refl| |by apply (bool_decide_eq_true_1 _)|vm_refl|vm_refl|].
  { by apply (bool_decide_eq_true_1 _). }
  exists s'. split; [exact H|]. split; [exact Hi|]. unfold next_session in He. rewrite H in He. exact He.
Defined.

End SessionSamples.

End ReaderSession.
