(* ===== verification/Session.v ===== *)
(** An inbound peering session: [crates/transit/src/peering/session.rs].

    The peer's side of the connection is the stream of bytes it sends; the daemon's
    state is what all sessions share.  Clock readings and staging identifiers come
    from an environment indexed by the number of readings made; the rate limiter,
    whose token buckets are floating-point numbers, is a parameter.

    A session ends; the articles it hands to the queue or the staging area are those
    the peer transferred and the session acknowledges, in order and byte for byte,
    but for a last one whose acknowledgement could not be written, and each passed
    the ingest checks; and what [nntp_dot_stuff] encodes is read back as it was. *)

From S2P Require Import Prelude Bytes Utf8 Validation Crypto LogEntry SqliteStorage MsgIdMap Headers Util Lines Ingest IngestQueue Sql Staging Peers PeerAuth.

Module Session.
Import Utf8 Validation MsgIdMap Headers Util Lines Ingest Sql Peers PeerAuth.

(** ** Reading lines and articles *)

Inductive DotStuffedResult := Data (b : bytes) | TooLarge | Eof.

Definition output_line (trimmed : bytes) : bytes :=
  match strip_prefix (lit "..") trimmed with
  | Some rest => lit "." ++ rest ++ CRLF
  | None => trimmed ++ CRLF
  end.

(** One unit of fuel per line. *)
Fixpoint dot_stuffed_loop (fuel : nat) (inp buf : bytes) (too_large : bool) :
    option (DotStuffedResult * bytes) :=
  match fuel with
  | O => None
  | S fuel' =>
      match read_line inp with
      | None => Some (Eof, [])
      | Some (line, rest) =>
          let trimmed := trim_eol line in
          if bool_decide (trimmed = lit ".")
          then Some (if too_large then TooLarge else Data buf, rest)
          else if too_large then dot_stuffed_loop fuel' rest buf true
          else
            let out := output_line trimmed in
            if MAX_ARTICLE_BYTES <? len buf + len out then dot_stuffed_loop fuel' rest buf true
            else dot_stuffed_loop fuel' rest (buf ++ out) false
      end
  end.

(** Every line takes a byte or more. *)
Definition read_dot_stuffed (inp : bytes) : option (DotStuffedResult * bytes) :=
  dot_stuffed_loop (S (length inp)) inp [] false.

(** ** The shared state *)

(** [PeerRateLimiter::check(ip).is_none()]: whether an article is let through. *)
Class RateLimiter (R : Type) := rate_allows : bytes → R → bool * R.

Record Env := mkEnv {
  wall_at : nat → Z;
  secs_at : nat → Z;
  staging_id_at : nat → bytes
}.

Section Session.
Context {lib : CidLib} {M R C : Type}.
Context {mids : MsgIdStore M} {limiter : RateLimiter R} {mpsc : IngestQueue.Mpsc C}.

(** The fields of [PeeringShared] a session uses after the handshake;
    [sh_readings] counts clock readings and staging identifiers drawn. *)
Record PeeringShared := mkShared {
  sh_msgid_map : M;
  sh_rate_limiter : R;
  sh_queue : IngestQueue.QueueMetrics * C;
  sh_staging : option (Staging.StagingConfig * Staging.Store);
  sh_transit_pool : Pool PeerDb;
  sh_readings : nat
}.

Record State := mkState {
  st_mode : PeeringMode;
  st_conn : Conn;
  st_shared : PeeringShared
}.

(** How the command loop is left. *)
Inductive Exit := Break | Panicking (p : Panic).

Context (env : Env) (blacklist_config : BlacklistConfig) (peer_ip : bytes).

Definition set_shared (f : PeeringShared → PeeringShared) (s : State) : State :=
  mkState (st_mode s) (st_conn s) (f (st_shared s)).

Definition tick (sh : PeeringShared) : PeeringShared :=
  mkShared (sh_msgid_map sh) (sh_rate_limiter sh) (sh_queue sh) (sh_staging sh) (sh_transit_pool sh)
    (S (sh_readings sh)).

Definition set_pool (p : Pool PeerDb) (sh : PeeringShared) : PeeringShared :=
  mkShared (sh_msgid_map sh) (sh_rate_limiter sh) (sh_queue sh) (sh_staging sh) p (sh_readings sh).

(** [wall_ms()]. *)
Definition wall_ms (sh : PeeringShared) : Z * PeeringShared := (wall_at env (sh_readings sh), tick sh).

(** The helper [record_accepted]: errors are logged. *)
Definition session_record_accepted (sh : PeeringShared) : PeeringShared :=
  let '(now_ms, sh) := wall_ms sh in
  set_pool (record_accepted peer_ip now_ms (sh_transit_pool sh)).2 sh.

Definition record_and_maybe_blacklist (sh : PeeringShared) : PeeringShared :=
  let '(now_ms, sh) := wall_ms sh in
  let p := (record_rejected peer_ip now_ms (sh_transit_pool sh)).2 in
  set_pool (check_and_blacklist blacklist_config peer_ip now_ms p).2 sh.

(** Whether the article was staged or queued. *)
Definition enqueue_article (msgid article : bytes) (sh : PeeringShared) : bool * PeeringShared :=
  match sh_staging sh with
  | Some (cfg, st) =>
      let '(r, st') :=
        Staging.try_stage cfg (staging_id_at env (sh_readings sh)) (secs_at env (sh_readings sh))
          msgid article st in
      (match r with Ok true => true | _ => false end,
       tick (mkShared (sh_msgid_map sh) (sh_rate_limiter sh) (sh_queue sh) (Some (cfg, st'))
               (sh_transit_pool sh) (sh_readings sh)))
  | None =>
      let '(r, q) := IngestQueue.try_enqueue (IngestQueue.mkQueued article msgid) (sh_queue sh) in
      (match r with Some (Ok _) => true | _ => false end,
       mkShared (sh_msgid_map sh) (sh_rate_limiter sh) q None (sh_transit_pool sh) (sh_readings sh))
  end.

Definition set_msgids (m : M) (sh : PeeringShared) : PeeringShared :=
  mkShared m (sh_rate_limiter sh) (sh_queue sh) (sh_staging sh) (sh_transit_pool sh) (sh_readings sh).

Definition on_msgids {E A} (f : E → Exit) (m : prog M E A) : prog State Exit A := λ s,
  let '(r, m') := m (sh_msgid_map (st_shared s)) in
  (map_err f r, set_shared (set_msgids m') s).

Definition check_msgid_only (msgid : bytes) : prog State Exit IngestResult := λ s,
  if negb (is_ok (validate_message_id msgid)) then (Ok (Rejected (lit "invalid Message-ID")), s)
  else
    let '(r, m') := lookup_by_msgid msgid (sh_msgid_map (st_shared s)) in
    (Ok (match r with
         | Err _ => TransientError []
         | Ok (Some _) => Duplicate
         | Ok None => Accepted
         end), set_shared (set_msgids m') s).

Definition modify (f : PeeringShared → PeeringShared) : prog State Exit () := λ s,
  (Ok tt, set_shared f s).

Definition rate_check : prog State Exit bool := λ s,
  let sh := st_shared s in
  let '(allowed, r) := rate_allows peer_ip (sh_rate_limiter sh) in
  (Ok allowed,
   set_shared (λ _, mkShared (sh_msgid_map sh) r (sh_queue sh) (sh_staging sh) (sh_transit_pool sh)
                      (sh_readings sh)) s).

Definition enqueue (msgid article : bytes) : prog State Exit bool := λ s,
  let '(ok, sh) := enqueue_article msgid article (st_shared s) in (Ok ok, set_shared (λ _, sh) s).

(** The body shared by the two commands that transfer an article: the verdict, what
    becomes of an accepted article, and the line that answers it; [again] answers an
    accepted article that the daemon cannot take now. *)
Definition offer (response : IngestResult → bytes) (again msgid article : bytes) :
    prog State Exit bytes :=
  result ← on_msgids Panicking (check_ingest msgid article);
  match result with
  | Accepted =>
      allowed ← rate_check;
      if allowed : bool then
        queued ← enqueue msgid article;
        if queued : bool then
          _ ← modify session_record_accepted;
          mret (response Accepted)
        else mret again
      else
        _ ← modify record_and_maybe_blacklist;
        mret again
  | Rejected msg =>
      _ ← modify record_and_maybe_blacklist;
      mret (response (Rejected msg))
  | _ => mret (response result)
  end.

(** [s.split_ascii_whitespace().next()]. *)
Definition first_word (s : bytes) : option bytes :=
  match drop_while is_ascii_whitespace s with
  | [] => None
  | s' => Some (take_while (λ c, negb (is_ascii_whitespace c)) s')
  end.

Definition coded (fallback resp msgid : bytes) : bytes :=
  default fallback (first_word resp) ++ lit " " ++ msgid ++ CRLF.

(** Takes the article off the stream; [Eof] leaves the loop. *)
Definition receive : prog State Exit DotStuffedResult := λ s,
  let c := st_conn s in
  match read_dot_stuffed (inbox c) with
  | Some (Eof, _) | None => (Err Break, s)
  | Some (r, rest) =>
      (Ok r, mkState (st_mode s) (mkConn rest (outbox c) (write_faults c)) (st_shared s))
  end.

Definition send (b : bytes) : prog State Exit () := λ s,
  let '(ok, c) := write_all b (st_conn s) in
  (if ok then Ok tt else Err Break, mkState (st_mode s) c (st_shared s)).

Definition TRY_LATER : bytes := lit "436 Transfer not possible; try again later".
Definition TRANSFER_FAILED : bytes := lit "436 Transfer failed, try again later" ++ CRLF.

Definition handle_check (msgid : bytes) : prog State Exit bytes := λ s,
  match check_mode_guard (st_mode s) with
  | Some guard_resp => (Ok guard_resp, s)
  | None =>
      (result ← check_msgid_only msgid;
       mret (coded (lit "438") (check_response result) msgid)) s
  end.

Definition handle_takethis (msgid : bytes) : prog State Exit bytes := λ s,
  match takethis_mode_guard (st_mode s) with
  | Some guard_resp => (Ok guard_resp, s)
  | None =>
      (r ← receive;
       match r with
       | Data article =>
           resp ← offer takethis_response TRY_LATER msgid article;
           mret (coded (lit "431") resp msgid)
       | _ => mret (lit "439 " ++ msgid ++ lit " Article too large" ++ CRLF)
       end) s
  end.

Definition handle_ihave (msgid : bytes) : prog State Exit bytes :=
  pre ← check_msgid_only msgid;
  match pre with
  | Accepted =>
      _ ← send (lit "335 Send it" ++ CRLF);
      r ← receive;
      match r with
      | Data article => offer ihave_response TRANSFER_FAILED msgid article
      | _ => mret (lit "437 Article too large" ++ CRLF)
      end
  | Duplicate => mret (lit "435 Duplicate" ++ CRLF)
  | TransientError _ => mret TRANSFER_FAILED
  | Rejected _ => mret (lit "437 Article rejected" ++ CRLF)
  end.

Definition handle_mode : prog State Exit bytes := λ s,
  let '(resp, new_mode) := handle_mode_stream (st_mode s) in
  (Ok resp, mkState new_mode (st_conn s) (st_shared s)).

(** [cmd_str.splitn(2, ' ')]. *)
Definition split_command (cmd : bytes) : bytes * bytes :=
  let verb := take_while (λ c, negb (c =? 32)) cmd in (verb, drop (S (length verb)) cmd).

Definition handle_quit : prog State Exit bytes := λ s,
  let '(_, c) := write_all (lit "205 Closing connection" ++ CRLF) (st_conn s) in
  (Err Break, mkState (st_mode s) c (st_shared s)).

(** The response to a command line. *)
Definition dispatch (cmd : bytes) : prog State Exit bytes :=
  let '(v, a) := split_command cmd in
  let verb := to_ascii_uppercase v in
  let arg := trim a in
  if bool_decide (verb = lit "CAPABILITIES") then mret capabilities_response
  else if bool_decide (verb = lit "MODE") && eq_ignore_ascii_case arg (lit "STREAM") then handle_mode
  else if bool_decide (verb = lit "QUIT") then handle_quit
  else if bool_decide (verb = lit "CHECK") then handle_check arg
  else if bool_decide (verb = lit "TAKETHIS") then handle_takethis arg
  else if bool_decide (verb = lit "IHAVE") then handle_ihave arg
  else if bool_decide (verb = lit "XCID") then mret (lit "502 Command unavailable" ++ CRLF)
  else mret (lit "500 Unknown command: " ++ verb ++ CRLF).

Definition answer (cmd : bytes) : prog State Exit () := resp ← dispatch cmd; send resp.

Definition set_inbox (rest : bytes) (s : State) : State :=
  mkState (st_mode s) (mkConn rest (outbox (st_conn s)) (write_faults (st_conn s))) (st_shared s).

(** One unit of fuel per line. *)
Fixpoint command_loop (fuel : nat) (s : State) : option (Exit * State) :=
  match fuel with
  | O => None
  | S fuel' =>
      match read_line (inbox (st_conn s)) with
      | None => Some (Break, s)
      | Some (line, rest) =>
          let cmd := trim_eol line in
          let s := set_inbox rest s in
          if bool_decide (cmd = []) then command_loop fuel' s
          else
            match answer cmd s with
            | (Ok _, s') => command_loop fuel' s'
            | (Err e, s') => Some (e, s')
            end
      end
  end.

Section Run.
Context {siglib : SigLib} {keys : KeyLib}.

(** What opening a connection depends on: the keys, and this side's nonce and
    whether the handshake runs out of time. *)
Record Opening := mkOpening {
  op_signing_key : SigningKey;
  op_trusted_keys : list VerifyingKey;
  op_nonce : bytes;
  op_timed_out : bool
}.

(** [None] only when fuel runs out. *)
Definition run_peering_session (op : Opening) (peer_addr : bytes) (c : Conn) (sh : PeeringShared) :
    option (Exit * Conn * PeeringShared) :=
  let '(now_ms, sh) := wall_ms sh in
  let p := (ensure_registered peer_ip peer_addr now_ms (sh_transit_pool sh)).2 in
  let '(blacklisted, p) := is_blacklisted peer_ip now_ms p in
  let sh := set_pool p sh in
  if (match blacklisted with Ok b => b | Err _ => false end) then Some (Break, c, sh)
  else
    let '(auth, c) :=
      match op_trusted_keys op with
      | [] => (true, c)
      | _ =>
          let '(r, c) := run_auth_handshake (op_timed_out op) (op_nonce op) (op_signing_key op)
                           (op_trusted_keys op) c in (is_ok r, c)
      end in
    if negb auth then Some (Break, c, sh)
    else
      let '(greeted, c) := write_all (lit "200 stoa-transit NNTP service ready" ++ CRLF) c in
      if negb greeted then Some (Break, c, sh)
      else
        '(e, s) ← command_loop (S (length (inbox c))) (mkState Ihave c sh);
        Some (e, st_conn s, st_shared s).

End Run.
End Session.

(** ** Every session ends *)

Lemma dot_stuffed_loop_total fuel inp buf big :
  (length inp < fuel)%nat →
  ∃ r rest, dot_stuffed_loop fuel inp buf big = Some (r, rest) ∧ (length rest <= length inp)%nat.
Proof.
  revert inp buf big. induction fuel as [|fuel IH]; intros inp buf big Hf; [lia|].
  cbn [dot_stuffed_loop]. destruct (read_line inp) as [[l r]|] eqn:E.
  2:{ eexists _, _. split; [done|]. simpl. lia. }
  apply read_line_shorter in E. cbv zeta. case_bool_decide; [eexists _, _; split; [done|lia]|].
  destruct big; [|destruct (_ <? _)];
    edestruct (λ b f, IH r b f ltac:(lia)) as (x & rest & Hx & Hl); rewrite Hx;
    eexists _, _; (split; [done|lia]).
Qed.

Lemma read_dot_stuffed_total inp :
  ∃ r rest, read_dot_stuffed inp = Some (r, rest) ∧ (length rest <= length inp)%nat.
Proof. apply dot_stuffed_loop_total. lia. Qed.

Section Steps.
Context {lib : CidLib} {M R C : Type}.
Context {mids : MsgIdStore M} {limiter : RateLimiter R} {mpsc : IngestQueue.Mpsc C}.
Context (env : Env) (blacklist_config : BlacklistConfig) (peer_ip : bytes).

Abbreviation St := (@State M R C) (only parsing).

(** The stream left is never longer. *)
Definition shorter (s s' : St) : Prop := (length (inbox (st_conn s')) <= length (inbox (st_conn s)))%nat.

Definition shortens {A} (m : prog St Exit A) : Prop := ∀ s, shorter s (m s).2.

Lemma shortens_ret {A} (a : A) : shortens (mret a).
Proof. intros s. unfold shorter. simpl. lia. Qed.

Lemma shortens_bind {A B} (m : prog St Exit A) (k : A → prog St Exit B) :
  shortens m → (∀ a, shortens (k a)) → shortens (m ≫= k).
Proof.
  intros Hm Hk s. specialize (Hm s). unfold mbind, prog_bind. destruct (m s) as [[a|e] s1]; [|done].
  specialize (Hk a s1). unfold shorter in *. simpl in *. lia.
Qed.

Lemma shortens_modify f : shortens (modify f).
Proof. intros s. unfold shorter. simpl. lia. Qed.

Lemma shortens_same {A} (m : prog St Exit A) :
  (∀ s, inbox (st_conn (m s).2) = inbox (st_conn s)) → shortens m.
Proof. intros H s. unfold shorter. by rewrite H. Qed.

Lemma write_all_inbox b c : inbox (write_all b c).2 = inbox c.
Proof. unfold write_all. by destruct (write_faults c) as [|[] ?]. Qed.

Lemma shortens_send b : shortens (send b).
Proof.
  apply shortens_same. intros s. unfold send. pose proof (write_all_inbox b (st_conn s)) as H.
  by destruct (write_all b (st_conn s)) as [[] c].
Qed.

Lemma shortens_receive : shortens receive.
Proof.
  intros s. unfold receive, shorter. destruct (read_dot_stuffed_total (inbox (st_conn s))) as (r & rest & -> & Hl).
  by destruct r; simpl; lia.
Qed.

Lemma shortens_msgids {E A} (f : E → Exit) (m : prog M E A) : shortens (on_msgids f m).
Proof. apply shortens_same. intros s. unfold on_msgids. by destruct (m _). Qed.

Lemma shortens_check_msgid msgid : shortens (check_msgid_only msgid).
Proof.
  apply shortens_same. intros s. unfold check_msgid_only. destruct (negb _); [done|]. by destruct (lookup_by_msgid _ _).
Qed.

Lemma shortens_rate : shortens (rate_check peer_ip).
Proof. apply shortens_same. intros s. unfold rate_check. by destruct (rate_allows _ _). Qed.

Lemma shortens_enqueue msgid article : shortens (enqueue env msgid article).
Proof. apply shortens_same. intros s. unfold enqueue. by destruct (enqueue_article _ _ _ _). Qed.

#[local] Hint Resolve shortens_ret shortens_modify shortens_send shortens_receive shortens_msgids
  shortens_check_msgid shortens_rate shortens_enqueue : core.

Lemma shortens_offer response again msgid article :
  shortens (offer env blacklist_config peer_ip response again msgid article).
Proof.
  unfold offer. apply shortens_bind; [auto|]. intros [| |msg|msg]; auto.
  - apply shortens_bind; [auto|]. intros []; apply shortens_bind; auto.
    intros []; [|auto]. apply shortens_bind; auto.
  - apply shortens_bind; auto.
Qed.

#[local] Hint Resolve shortens_offer : core.

Lemma shortens_dispatch cmd : shortens (dispatch env blacklist_config peer_ip cmd).
Proof.
  unfold dispatch. destruct (split_command cmd) as [v a]. repeat case_match; auto.
  - by apply shortens_same.
  - apply shortens_same. intros s. unfold handle_quit.
    pose proof (write_all_inbox (lit "205 Closing connection" ++ CRLF) (st_conn s)) as H'.
    by destruct (write_all _ (st_conn s)).
  - intros s. unfold handle_check. destruct (check_mode_guard (st_mode s)); [apply shortens_ret|].
    apply shortens_bind; auto.
  - intros s. unfold handle_takethis. destruct (takethis_mode_guard (st_mode s)); [apply shortens_ret|].
    apply shortens_bind; [auto|]. intros []; auto. apply shortens_bind; auto.
  - unfold handle_ihave. apply shortens_bind; [auto|]. intros []; auto.
    apply shortens_bind; [auto|]. intros []. apply shortens_bind; [auto|]. intros []; auto.
Qed.

Lemma command_loop_total fuel (s : St) :
  (length (inbox (st_conn s)) < fuel)%nat →
  is_Some (command_loop env blacklist_config peer_ip fuel s).
Proof.
  revert s. induction fuel as [|fuel IH]; intros s Hf; [lia|]. cbn [command_loop].
  destruct (read_line (inbox (st_conn s))) as [[l r]|] eqn:E; [|done].
  apply read_line_shorter in E. cbv zeta. case_bool_decide; [apply IH; simpl; lia|].
  assert (Ha : shortens (answer env blacklist_config peer_ip (trim_eol l))).
  { apply shortens_bind; [apply shortens_dispatch|auto]. }
  specialize (Ha (set_inbox r s)). unfold shorter in Ha. simpl in Ha.
  destruct (answer _ _ _ _ _) as [[[]|e] s1]; [|done]. apply IH. simpl in Ha. lia.
Qed.

(** Every session ends: whatever bytes the peer sends and whichever writes and
    database operations fail, the session returns after at most one command per
    byte received. *)
Theorem session_ends {siglib : SigLib} {keys : KeyLib} op peer_addr c (sh : @PeeringShared M R C) :
  ∃ e c' sh', run_peering_session env blacklist_config peer_ip op peer_addr c sh = Some (e, c', sh').
Proof.
  unfold run_peering_session. destruct (wall_ms env sh) as [now sh1]. cbv zeta.
  destruct (is_blacklisted _ _ _) as [b p]. destruct (match b with Ok b => b | Err _ => false end); [eauto|].
  destruct (match op_trusted_keys op with [] => _ | _ => _ end) as [auth c1].
  destruct auth; [|simpl; eauto]. cbn [negb]. destruct (write_all _ c1) as [g c2].
  destruct g; [|simpl; eauto]. cbn [negb].
  destruct (command_loop_total (S (length (inbox c2))) (mkState Ihave c2 (set_pool p sh1))) as [[e s] ->];
    [simpl; lia|]. simpl. eauto.
Qed.

End Steps.

(** ** What a session takes in is what it acknowledges *)

(** A connection after [n] more writes at most, some bytes of its input read. *)
Definition went_on (n : nat) (c c' : Conn) : Prop :=
  (write_faults c = [] → write_faults c' = []) ∧ (∃ pre, inbox c = pre ++ inbox c') ∧
  ∃ new, outbox c' = outbox c ++ new ∧ (length new <= n)%nat.

Lemma went_on_trans n m c1 c2 c3 : went_on n c1 c2 → went_on m c2 c3 → went_on (n + m) c1 c3.
Proof.
  intros (Hf & [pre Hi] & new & Ho & Hn) (Hf' & [pre' Hi'] & new' & Ho' & Hn'). split_and!; [auto| |].
  - exists (pre ++ pre'). by rewrite Hi, Hi', app_assoc.
  - exists (new ++ new'). rewrite length_app. split; [by rewrite Ho', Ho, app_assoc|lia].
Qed.

Lemma went_on_refl n c : went_on n c c.
Proof. split_and!; [done|by exists []|]. exists []. rewrite app_nil_r. split; [done|cbn; lia]. Qed.

Lemma went_on_write b c : went_on 1 c (write_all b c).2.
Proof.
  unfold write_all. destruct (write_faults c) as [|[] fs] eqn:E; (split_and!; [by rewrite ?E|by exists []|]).
  - exists [b]. by split; [|cbn; lia].
  - exists []. rewrite app_nil_r. by split; [|cbn; lia].
  - exists [b]. by split; [|cbn; lia].
Qed.

Lemma went_on_exchange out n c : went_on 1 c (exchange out n c).2.
Proof.
  unfold exchange. pose proof (went_on_write out c) as H. destruct (write_all out c) as [w c1]. cbn [snd] in H.
  unfold read_exact. destruct (_ <? _)%nat; [done|].
  assert (H1 : went_on 0 c1 (mkConn (drop n (inbox c1)) (outbox c1) (write_faults c1))).
  { split_and!; [done|exists (take n (inbox c1)); cbn; by rewrite take_drop|]. exists []. by rewrite app_nil_r. }
  pose proof (went_on_trans 1 0 _ _ _ H H1) as H2. by destruct w.
Qed.

(** The handshake writes at most two frames. *)
Lemma went_on_handshake {siglib : SigLib} {keys : KeyLib} late nonce (key : SigningKey) trusted c :
  went_on 2 c (run_auth_handshake late nonce key trusted c).2.
Proof.
  unfold run_auth_handshake, handshake_inner, mbind, prog_bind. pose proof (went_on_exchange nonce 32 c) as H1.
  destruct (exchange nonce 32 c) as [[tn|e] c1]; cbn [snd] in H1.
  - pose proof (went_on_exchange (auth_frame key tn) 96 c1) as H2. pose proof (went_on_trans 1 1 _ _ _ H1 H2) as H12.
    destruct (exchange _ 96 c1) as [[fr|e] c2]; by destruct late.
  - pose proof (went_on_trans 1 1 _ _ _ H1 (went_on_refl 1 c1)) as H12. by destruct late.
Qed.

Section Accounts.
Context {lib : CidLib} {M R C : Type}.
Context {mids : MsgIdStore M} {mview : MsgIdView M} {mlaws : MsgIdLaws M} {limiter : RateLimiter R}.
Context {mpsc : IngestQueue.Mpsc C} {qlaws : IngestQueue.MpscLaws C}.
Context (env : Env) (blacklist_config : BlacklistConfig) (peer_ip : bytes).

Abbreviation St := (@State M R C) (only parsing).
Abbreviation Sh := (@PeeringShared M R C) (only parsing).

(** *** The articles taken in *)

(** A row of the staging table stands for the article, and its file holds it. *)
Definition staged_as (cfg : Staging.StagingConfig) (st : Staging.Store) (r : Staging.Row) (a : IngestQueue.QueuedArticle) : Prop :=
  Staging.r_message_id r = IngestQueue.qa_message_id a ∧ Staging.r_byte_size r = IngestQueue.article_bytes a ∧
  Staging.held cfg (Staging.r_id r) (IngestQueue.qa_message_id a) (IngestQueue.qa_bytes a) st.

(** The queue, or the staging area, grew by exactly the articles [acc]. *)
Definition took (sh sh' : Sh) (acc : list IngestQueue.QueuedArticle) : Prop :=
  match sh_staging sh, sh_staging sh' with
  | None, None => IngestQueue.queued (sh_queue sh').2 = IngestQueue.queued (sh_queue sh).2 ++ acc
  | Some (cfg, st), Some (cfg', st') => cfg' = cfg ∧
      ∃ new, rows (Staging.db st') = rows (Staging.db st) ++ new ∧ Forall2 (staged_as cfg st') new acc
  | _, _ => False
  end.

(** The article passed the checks. *)
Definition checked (a : IngestQueue.QueuedArticle) : Prop :=
  offerable (IngestQueue.qa_message_id a) (IngestQueue.qa_bytes a) ∧ complete (IngestQueue.qa_bytes a).

(** *** What the peer sends *)

(** An article and the line that acknowledges it. *)
Record Transfer := mkTransfer { tf_article : IngestQueue.QueuedArticle; tf_reply : bytes }.

(** [cmd] offers an article under [msgid], and [reply] acknowledges it. *)
Definition transfer_command (cmd msgid reply : bytes) : Prop :=
  trim (split_command cmd).2 = msgid ∧
  (to_ascii_uppercase (split_command cmd).1 = lit "IHAVE" ∧ reply = lit "235 Article transferred OK" ++ CRLF ∨
   to_ascii_uppercase (split_command cmd).1 = lit "TAKETHIS" ∧ reply = lit "239 " ++ msgid ++ CRLF).

(** [inp] holds, in this order and each after the other, a command line that
    offers the article and the article, dot-stuffed. *)
Inductive offered : bytes → list Transfer → Prop :=
| offered_nil inp : offered inp []
| offered_skip inp line rest ts : read_line inp = Some (line, rest) → offered rest ts → offered inp ts
| offered_cons inp line rest rest' t ts :
    read_line inp = Some (line, rest) →
    transfer_command (trim_eol line) (IngestQueue.qa_message_id (tf_article t)) (tf_reply t) →
    read_dot_stuffed rest = Some (Data (IngestQueue.qa_bytes (tf_article t)), rest') →
    offered rest' ts → offered inp (t :: ts).

(** The answers that acknowledge an article. *)
Definition acknowledges (resp : bytes) : bool := starts_with resp (lit "235") || starts_with resp (lit "239").

(** *** Steps of a session *)

(** The identifiers drawn from the [n]-th on are new; those staged before stay. *)
Definition later (sh sh' : Sh) (new : list Staging.Row) : Prop :=
  (sh_readings sh <= sh_readings sh')%nat ∧
  Forall (λ r, ∃ k, (sh_readings sh <= k < sh_readings sh')%nat ∧ Staging.r_id r = staging_id_at env k) new ∧
  ∀ cfg st st', sh_staging sh = Some (cfg, st) → sh_staging sh' = Some (cfg, st') →
    ∀ k mid b, (k < sh_readings sh)%nat → Staging.held cfg (staging_id_at env k) mid b st →
    Staging.held cfg (staging_id_at env k) mid b st'.

(** [took] with what a later step needs. *)
Definition takes (sh sh' : Sh) (acc : list IngestQueue.QueuedArticle) : Prop :=
  match sh_staging sh, sh_staging sh' with
  | None, None => IngestQueue.queued (sh_queue sh').2 = IngestQueue.queued (sh_queue sh).2 ++ acc
  | Some (cfg, st), Some (cfg', st') => cfg' = cfg ∧
      ∃ new, rows (Staging.db st') = rows (Staging.db st) ++ new ∧ Forall2 (staged_as cfg st') new acc ∧ later sh sh' new
  | _, _ => False
  end.

Lemma takes_took sh sh' acc : takes sh sh' acc → took sh sh' acc.
Proof. unfold takes, took. destruct (sh_staging sh) as [[]|], (sh_staging sh') as [[]|]; naive_solver. Qed.

Lemma takes_same sh sh' :
  sh_queue sh' = sh_queue sh → sh_staging sh' = sh_staging sh → (sh_readings sh <= sh_readings sh')%nat → takes sh sh' [].
Proof.
  intros Hq Hs Hr. unfold takes. rewrite Hs, Hq. destruct (sh_staging sh) as [[cfg st]|] eqn:E; [|by rewrite app_nil_r].
  split; [done|]. exists []. rewrite app_nil_r. split_and!; [done|constructor|]. split_and!; [done|constructor|].
  intros cfg0 st0 st' H0 H1. rewrite Hs in H1. rewrite E in *. by simplify_eq.
Qed.

Lemma Forall2_impl_l {A B} (P : A → Prop) (Q Q' : A → B → Prop) l k :
  Forall P l → Forall2 Q l k → (∀ x y, P x → Q x y → Q' x y) → Forall2 Q' l k.
Proof. intros Hp Hq H. induction Hq; inversion Hp; subst; constructor; auto. Qed.

Lemma takes_trans sh1 sh2 sh3 acc acc' : takes sh1 sh2 acc → takes sh2 sh3 acc' → takes sh1 sh3 (acc ++ acc').
Proof.
  unfold takes. destruct (sh_staging sh1) as [[cfg st1]|] eqn:E1, (sh_staging sh2) as [[cfg2 st2]|] eqn:E2,
    (sh_staging sh3) as [[cfg3 st3]|] eqn:E3; try done.
  - intros (-> & new & Hr & Hf & Hle & Hk & Hkeep) (-> & new' & Hr' & Hf' & Hle' & Hk' & Hkeep'). split; [done|].
    exists (new ++ new'). split; [by rewrite Hr', Hr, app_assoc|]. split.
    + apply Forall2_app; [|done]. eapply Forall2_impl_l; [exact Hk|exact Hf|]. cbn.
      intros r a (k & Hkr & Hid) (Hm & Hz & Hh). split_and!; [done..|]. rewrite Hid in *. by eapply (Hkeep' _ st2); [..|lia|].
    + split_and!; [lia| |].
      * apply Forall_app. split; (eapply Forall_impl; [eassumption|]); cbn; intros r (k & ? & ?); exists k; (split; [lia|done]).
      * intros cfg0 st st' H0 H3 k mid b Hlt Hh. simplify_eq. eapply (Hkeep' _ st2); [done|done|lia|]. by eapply (Hkeep _ st1).
  - intros H H'. by rewrite H', H, app_assoc.
Qed.

(** A step that takes in nothing and leaves the connection alone. *)
Definition quiet (s s' : St) : Prop :=
  takes (st_shared s) (st_shared s') [] ∧ st_conn s' = st_conn s ∧
  (msgid_inv (sh_msgid_map (st_shared s)) → msgid_inv (sh_msgid_map (st_shared s'))).

Lemma quiet_refl s : quiet s s.
Proof. split_and!; [by apply takes_same|done|done]. Qed.

Lemma quiet_chain s1 s2 s3 : quiet s1 s2 → quiet s2 s3 → quiet s1 s3.
Proof. intros (H1 & H2 & H3) (H4 & H5 & H6). split_and!; [by apply (takes_trans _ _ _ [] [] H1)|congruence|auto]. Qed.

Lemma quiet_modify (f : Sh → Sh) s :
  (∀ sh, sh_queue (f sh) = sh_queue sh ∧ sh_staging (f sh) = sh_staging sh ∧ sh_msgid_map (f sh) = sh_msgid_map sh ∧
         (sh_readings sh <= sh_readings (f sh))%nat) →
  ∃ s', modify f s = (Ok tt, s') ∧ quiet s s'.
Proof.
  intros H. eexists. split; [done|]. destruct (H (st_shared s)) as (Hq & Hs & Hm & Hr).
  split_and!; [by apply takes_same|done|]. cbn. by rewrite Hm.
Qed.

Lemma quiet_accepted s : ∃ s', modify (session_record_accepted env peer_ip) s = (Ok tt, s') ∧ quiet s s'.
Proof. apply quiet_modify. intros sh. unfold session_record_accepted. split_and!; [done..|]. cbn. lia. Qed.

Lemma quiet_blacklist s :
  ∃ s', modify (record_and_maybe_blacklist env blacklist_config peer_ip) s = (Ok tt, s') ∧ quiet s s'.
Proof. apply quiet_modify. intros sh. unfold record_and_maybe_blacklist. split_and!; [done..|]. cbn. lia. Qed.

Lemma quiet_rate s : ∃ b s', rate_check peer_ip s = (Ok b, s') ∧ quiet s s'.
Proof.
  unfold rate_check. destruct (rate_allows _ _) as [b r]. eexists b, _. split; [done|]. split_and!; [|done|done].
  by apply takes_same.
Qed.

Lemma quiet_check_msgid msgid s :
  msgid_inv (sh_msgid_map (st_shared s)) → ∃ r s', check_msgid_only msgid s = (Ok r, s') ∧ quiet s s'.
Proof.
  intros Hi. unfold check_msgid_only. destruct (negb _); [eauto using quiet_refl|].
  pose proof (lookup_by_msgid_ok msgid _ Hi) as H. unfold msgid_outcome in H.
  destruct (lookup_by_msgid msgid _) as [r m']. eexists _, _. split; [done|]. split_and!; [by apply takes_same|done|].
  intros _. by destruct r; destruct H.
Qed.

Lemma quiet_check_ingest msgid article s :
  msgid_inv (sh_msgid_map (st_shared s)) →
  ∃ r s', on_msgids Panicking (check_ingest msgid article) s = (r, s') ∧ quiet s s' ∧
    (r = Ok Accepted → checked (IngestQueue.mkQueued article msgid)).
Proof.
  intros Hi. unfold on_msgids. destruct (check_ingest msgid article (sh_msgid_map (st_shared s))) as [r m'] eqn:E.
  pose proof (check_ingest_inv _ _ _ _ _ Hi E) as Hi'. apply check_ingest_ok in E as [_ Hr]; [|done].
  eexists _, _. split; [done|]. split; [split_and!; [by apply takes_same|done|done]|].
  destruct r as [r|p]; cbn [map_err]; [|done]. intros [= ->]. destruct Hr as (? & ? & _). by split.
Qed.

(** A call of [try_enqueue] that runs alone. *)
Lemma try_enqueue_queued a mc :
  match IngestQueue.try_enqueue a mc with
  | (Some (Ok _), mc') => IngestQueue.queued mc'.2 = IngestQueue.queued mc.2 ++ [a]
  | (_, mc') => IngestQueue.queued mc'.2 = IngestQueue.queued mc.2
  end.
Proof.
  destruct mc as [m c]. unfold IngestQueue.try_enqueue. cbn [IngestQueue.run_sender IngestQueue.sender_step].
  destruct (_ <? _); [done|]. cbn [IngestQueue.sender_step].
  pose proof (IngestQueue.try_send_law c a) as H. destruct (IngestQueue.try_send c a) as [[] c']; simpl.
  - by destruct H as (_ & _ & ? & _).
  - by destruct H as (_ & _ & ->).
  - by destruct H as (_ & ->).
Qed.

Context {fresh : Inj (=) (=) (staging_id_at env)}.

(** What [enqueue_article] adds. *)
Lemma enqueue_article_takes msgid article sh :
  let '(ok, sh') := enqueue_article env msgid article sh in
  takes sh sh' (if ok : bool then [IngestQueue.mkQueued article msgid] else []) ∧
  sh_msgid_map sh' = sh_msgid_map sh.
Proof.
  unfold enqueue_article, takes. destruct (sh_staging sh) as [[cfg st]|] eqn:E.
  - set (id := staging_id_at env (sh_readings sh)). set (now := secs_at env (sh_readings sh)).
    pose proof (Staging.try_stage_rows cfg id now msgid article st) as H.
    assert (Hkeep : ∀ k mid b, (k < sh_readings sh)%nat → Staging.held cfg (staging_id_at env k) mid b st →
      Staging.held cfg (staging_id_at env k) mid b (Staging.try_stage cfg id now msgid article st).2).
    { intros k mid b Hk Hh. eapply Staging.kept_held; [|exact Hh]. apply Staging.kept_try_stage.
      intros Hid. apply fresh in Hid. lia. }
    destruct (Staging.try_stage _ _ _ _ _ st) as [r st']; cbn [snd] in Hkeep; cbn [sh_staging tick sh_readings].
    assert (Hlater : ∀ new, Forall (λ r, Staging.r_id r = id) new →
      later sh (tick (mkShared (sh_msgid_map sh) (sh_rate_limiter sh) (sh_queue sh) (Some (cfg, st')) (sh_transit_pool sh) (sh_readings sh))) new).
    { intros new Hnew. split_and!; [cbn; lia| |].
      - eapply Forall_impl; [exact Hnew|]. cbn. intros x ->. exists (sh_readings sh). split; [lia|done].
      - cbn. intros cfg0 st0 st1 H0 [= <- <-]. rewrite E in H0. injection H0 as <-. exact Hkeep. }
    destruct r as [[]|e]; (split; [split; [done|]|done]).
    + destruct H as (Hr & Hf & Hn & Hz & _). eexists. split; [exact Hr|]. split; [|apply Hlater; by constructor].
      constructor; [|constructor]. split_and!; [done|done|]. split; [|done]. rewrite Hr. eexists.
      split; [apply elem_of_app; right; by left|done].
    + exists []. rewrite app_nil_r. split_and!; [done|constructor|by apply Hlater].
    + exists []. rewrite app_nil_r. split_and!; [done|constructor|by apply Hlater].
  - pose proof (try_enqueue_queued (IngestQueue.mkQueued article msgid) (sh_queue sh)) as H.
    destruct (IngestQueue.try_enqueue _ _) as [[[[]|e]|] q]; simpl; rewrite ?app_nil_r; done.
Qed.

(** [offer] takes the article in exactly when it answers [response Accepted]. *)
Lemma offer_takes response again msgid article s :
  msgid_inv (sh_msgid_map (st_shared s)) →
  match offer env blacklist_config peer_ip response again msgid article s with
  | (Ok resp, s') =>
      (resp = response Accepted ∧ checked (IngestQueue.mkQueued article msgid) ∧ st_conn s' = st_conn s ∧
        takes (st_shared s) (st_shared s') [IngestQueue.mkQueued article msgid] ∧ msgid_inv (sh_msgid_map (st_shared s'))) ∨
      (quiet s s' ∧ (resp = again ∨ ∃ r, r ≠ Accepted ∧ resp = response r))
  | (Err _, s') => quiet s s'
  end.
Proof.
  intros Hi. unfold offer, mbind, prog_bind.
  destruct (quiet_check_ingest msgid article s Hi) as (r & s1 & -> & Hq1 & Hc). destruct r as [[| |msg|msg]|p]; [| | | |done].
  - destruct (quiet_rate s1) as (b & s2 & -> & Hq2). pose proof (quiet_chain _ _ _ Hq1 Hq2) as Hq12. destruct b.
    + unfold enqueue. pose proof (enqueue_article_takes msgid article (st_shared s2)) as He.
      destruct (enqueue_article env msgid article (st_shared s2)) as [ok sh3]. destruct He as [Ht Hm].
      set (s3 := set_shared (λ _, sh3) s2). destruct Hq12 as (Ht12 & Hc12 & Hi12). specialize (Hi12 Hi).
      assert (Ht3 := takes_trans _ _ _ _ _ Ht12 Ht). assert (Hi3 : msgid_inv (sh_msgid_map sh3)) by by rewrite Hm.
      destruct ok.
      * destruct (quiet_accepted s3) as (s4 & -> & Ht4 & Hc4 & Hi4). left. specialize (Hc eq_refl). do 2 (split; [done|]). split; [by rewrite Hc4|]. split; [|auto].
        apply (takes_trans _ _ _ _ _ Ht3 Ht4).
      * right. split; [|by left]. split_and!; [done|done|done].
    + destruct (quiet_blacklist s2) as (s3 & -> & Hq3). right. split; [|by left]. by eapply quiet_chain.
  - right. split; [done|]. right. by exists Duplicate.
  - destruct (quiet_blacklist s1) as (s2 & -> & Hq2). right. split; [by eapply quiet_chain|]. right. by eexists (Rejected msg).
  - right. split; [done|]. right. by exists (TransientError msg).
Qed.

(** *** Commands *)

(** [rest] is what is left after some lines of [inp]. *)
Definition lines_to : relation bytes := rtc (λ inp rest, ∃ line, read_line inp = Some (line, rest)).

Lemma offered_lines inp rest ts : lines_to inp rest → offered rest ts → offered inp ts.
Proof. induction 1 as [|x y z [line Hl] _ IH]; [done|]. intros H. by eapply offered_skip; [exact Hl|apply IH]. Qed.

Lemma dot_stuffed_lines fuel inp buf big r rest :
  dot_stuffed_loop fuel inp buf big = Some (r, rest) → r ≠ Eof → lines_to inp rest.
Proof.
  revert inp buf big. induction fuel as [|fuel IH]; intros inp buf big; [done|]. cbn [dot_stuffed_loop].
  destruct (read_line inp) as [[l inp']|] eqn:E; [|by intros [= <- _]]. cbv zeta. intros H Hr.
  eapply rtc_l; [by exists l|]. revert H. case_bool_decide; [intros [= _ <-]; apply rtc_refl|].
  destruct big; [|destruct (_ <? _)]; intros Hd; by eapply IH.
Qed.

(** The connection after some writes that acknowledge nothing. *)
Definition silent (c c' : Conn) : Prop :=
  (write_faults c = [] → write_faults c' = []) ∧
  ∃ new, outbox c' = outbox c ++ new ∧ Forall (λ b, acknowledges b = false) new.

Lemma silent_same c c' : outbox c' = outbox c → write_faults c' = write_faults c → silent c c'.
Proof. intros Ho Hw. split; [congruence|]. exists []. rewrite app_nil_r. by split; [|constructor]. Qed.

Lemma silent_refl c : silent c c.
Proof. by apply silent_same. Qed.

Lemma silent_write b c : acknowledges b = false → silent c (write_all b c).2.
Proof.
  intros Hb. unfold silent, write_all. destruct (write_faults c) as [|[] fs]; cbn; (split; [done|]).
  - exists [b]. by split; [|constructor].
  - exists []. rewrite app_nil_r. by split; [|constructor].
  - exists [b]. by split; [|constructor].
Qed.

(** A command: its answer acknowledges the article it took in, or it took in
    none and acknowledges none. *)
Definition commanded (cmd : bytes) (s : St) (resp : bytes) (s' : St) : Prop :=
  silent (st_conn s) (st_conn s') ∧ msgid_inv (sh_msgid_map (st_shared s')) ∧
  ((∃ a, transfer_command cmd (IngestQueue.qa_message_id a) resp ∧
      read_dot_stuffed (inbox (st_conn s)) = Some (Data (IngestQueue.qa_bytes a), inbox (st_conn s')) ∧
      takes (st_shared s) (st_shared s') [a] ∧ checked a) ∨
   (acknowledges resp = false ∧ takes (st_shared s) (st_shared s') [] ∧ lines_to (inbox (st_conn s)) (inbox (st_conn s')))).

Definition left_early (s s' : St) : Prop := silent (st_conn s) (st_conn s') ∧ takes (st_shared s) (st_shared s') [].

(** What [dispatch] and the handlers guarantee. *)
Definition handles (cmd : bytes) (m : prog St Exit bytes) : Prop := ∀ s,
  msgid_inv (sh_msgid_map (st_shared s)) →
  match m s with (Ok resp, s') => commanded cmd s resp s' | (Err _, s') => left_early s s' end.

Lemma quiet_commanded cmd s resp s' :
  msgid_inv (sh_msgid_map (st_shared s)) → quiet s s' → acknowledges resp = false → commanded cmd s resp s'.
Proof.
  intros Hi (Ht & Hc & Hi') Hr. split_and!; [rewrite Hc; apply silent_refl|auto|]. right. rewrite Hc.
  split_and!; [done|done|apply rtc_refl].
Qed.

Lemma quiet_left s s' : quiet s s' → left_early s s'.
Proof. intros (Ht & Hc & _). split; [rewrite Hc; apply silent_refl|done]. Qed.

Lemma handles_ret cmd b : acknowledges b = false → handles cmd (mret b).
Proof. intros Hb s Hi. apply quiet_commanded; [done|apply quiet_refl|done]. Qed.

Lemma receive_spec (s : St) :
  match receive s with
  | (Ok r, s') => read_dot_stuffed (inbox (st_conn s)) = Some (r, inbox (st_conn s')) ∧ r ≠ Eof ∧
      st_shared s' = st_shared s ∧ silent (st_conn s) (st_conn s')
  | (Err _, s') => s' = s
  end.
Proof.
  unfold receive. destruct (read_dot_stuffed (inbox (st_conn s))) as [[[b| |] rest]|]; try done;
    (split_and!; [done|done|done|by apply silent_same]).
Qed.

(** Receiving an article and offering it. *)
Lemma receive_offer cmd response again too_large (wrap : bytes → bytes) msgid :
  transfer_command cmd msgid (wrap (response Accepted)) →
  (∀ r, r ≠ Accepted → acknowledges (wrap (response r)) = false) → acknowledges (wrap again) = false →
  acknowledges too_large = false →
  handles cmd (r ← receive;
    match r with
    | Data article => resp ← offer env blacklist_config peer_ip response again msgid article; mret (wrap resp)
    | _ => mret too_large
    end).
Proof.
  intros Hcmd Hno Hagain Hlarge s Hi. unfold mbind at 1, prog_bind at 1. pose proof (receive_spec s) as Hrec.
  destruct (receive s) as [[r|e] s1]; [|subst s1; apply quiet_left, quiet_refl].
  destruct Hrec as (Hread & Hne & Hsh & Hsil).
  assert (Hlines : lines_to (inbox (st_conn s)) (inbox (st_conn s1))) by by eapply dot_stuffed_lines.
  assert (Hi1 : msgid_inv (sh_msgid_map (st_shared s1))) by by rewrite Hsh.
  destruct r as [article| |].
  - unfold mbind, prog_bind. pose proof (offer_takes response again msgid article s1 Hi1) as Ho.
    destruct (offer _ _ _ _ _ _ _ _) as [[resp|e] s2].
    + cbn. destruct Ho as [(-> & Hc & Hconn & Ht & Hi2)|[(Ht & Hconn & Hi2) Hresp]]; (split_and!; [by rewrite Hconn|auto|]).
      * left. exists (IngestQueue.mkQueued article msgid). rewrite Hconn, <- Hsh. done.
      * right. rewrite Hconn, <- Hsh. split_and!; [|done|done]. destruct Hresp as [->|(r & Hr & ->)]; auto.
    + destruct Ho as (Ht & Hconn & _). split; [by rewrite Hconn|by rewrite <- Hsh].
  - split_and!; [done|done|]. right. split_and!; [done|rewrite Hsh; by apply takes_same|done].
  - by destruct Hne.
Qed.

Lemma handles_takethis cmd msgid :
  trim (split_command cmd).2 = msgid → to_ascii_uppercase (split_command cmd).1 = lit "TAKETHIS" →
  handles cmd (handle_takethis env blacklist_config peer_ip msgid).
Proof.
  intros Ha Hv s Hi. unfold handle_takethis. destruct (takethis_mode_guard (st_mode s)) as [g|] eqn:Eg.
  { apply quiet_commanded; [done|apply quiet_refl|]. unfold takethis_mode_guard in Eg. destruct (st_mode s); by simplify_eq. }
  apply (receive_offer cmd takethis_response TRY_LATER (lit "439 " ++ msgid ++ lit " Article too large" ++ CRLF)
    (λ resp, coded (lit "431") resp msgid) msgid); [|by intros []|done|done|done].
  split; [done|]. by right.
Qed.

Lemma send_spec b (s : St) :
  match send b s with
  | (Ok _, s') => write_all b (st_conn s) = (true, st_conn s') ∧ st_shared s' = st_shared s
  | (Err _, s') => write_all b (st_conn s) = (false, st_conn s') ∧ st_shared s' = st_shared s
  end.
Proof. unfold send. by destruct (write_all b (st_conn s)) as [[] c]. Qed.

Lemma silent_trans c1 c2 c3 : silent c1 c2 → silent c2 c3 → silent c1 c3.
Proof.
  intros [Hf (n1 & H1 & Hn1)] [Hf' (n2 & H2 & Hn2)]. split; [auto|]. exists (n1 ++ n2).
  split; [by rewrite H2, H1, app_assoc|by apply Forall_app].
Qed.

(** A quiet step or a write that acknowledges nothing, first. *)
Lemma handles_after cmd (m : prog St Exit bytes) s s1 :
  handles cmd m → msgid_inv (sh_msgid_map (st_shared s1)) → takes (st_shared s) (st_shared s1) [] →
  silent (st_conn s) (st_conn s1) → inbox (st_conn s1) = inbox (st_conn s) →
  match m s1 with (Ok resp, s') => commanded cmd s resp s' | (Err _, s') => left_early s s' end.
Proof.
  intros Hm Hi Ht Hs Hin. specialize (Hm s1 Hi). destruct (m s1) as [[resp|e] s'].
  - destruct Hm as (Hs' & Hi' & Hor). split_and!; [by eapply silent_trans|done|]. rewrite Hin in Hor.
    destruct Hor as [(a & H1 & H2 & H3 & H4)|(H1 & H2 & H3)]; [left; exists a|right]; (split_and!; try done);
      by apply (takes_trans _ _ _ [] _ Ht).
  - destruct Hm as [Hs' Ht']. split; [by eapply silent_trans|]. by apply (takes_trans _ _ _ [] [] Ht).
Qed.

Lemma handles_ihave cmd msgid :
  trim (split_command cmd).2 = msgid → to_ascii_uppercase (split_command cmd).1 = lit "IHAVE" →
  handles cmd (handle_ihave env blacklist_config peer_ip msgid).
Proof.
  intros Ha Hv s Hi. unfold handle_ihave. unfold mbind at 1, prog_bind at 1.
  destruct (quiet_check_msgid msgid s Hi) as (r & s1 & -> & Hq). pose proof Hq as (Ht & Hc & Hi1). specialize (Hi1 Hi).
  destruct r; [|by apply quiet_commanded..]. unfold mbind at 1, prog_bind at 1.
  pose proof (send_spec (lit "335 Send it" ++ CRLF) s1) as Hsend.
  pose proof (silent_write (lit "335 Send it" ++ CRLF) (st_conn s1) eq_refl) as Hsil.
  pose proof (write_all_inbox (lit "335 Send it" ++ CRLF) (st_conn s1)) as Hin.
  destruct (send _ s1) as [[[]|e] s2]; destruct Hsend as [Hw Hsh]; rewrite Hw in Hsil, Hin; cbn [snd] in Hsil, Hin; rewrite Hc in Hsil, Hin.
  - apply (handles_after cmd _ s s2); [|by rewrite Hsh|by rewrite Hsh|done|done].
    assert (H := receive_offer cmd ihave_response TRANSFER_FAILED (lit "437 Article too large" ++ CRLF) id msgid
      (conj Ha (or_introl (conj Hv eq_refl))) ltac:(by intros []) eq_refl eq_refl).
    intros s3 Hi3. specialize (H s3 Hi3). unfold mbind, prog_bind in *. destruct (receive s3) as [[[article| |]|e] s4]; try done.
    by destruct (offer _ _ _ _ _ _ _ _) as [[resp|e] s5].
  - split; [done|by rewrite Hsh].
Qed.

Lemma handles_dispatch cmd : handles cmd (dispatch env blacklist_config peer_ip cmd).
Proof.
  unfold dispatch. destruct (split_command cmd) as [v a] eqn:Ecmd. cbv zeta.
  repeat case_match; try (by apply handles_ret).
  - intros s Hi. unfold handle_quit. pose proof (silent_write (lit "205 Closing connection" ++ CRLF) (st_conn s) eq_refl) as Hs.
    destruct (write_all _ (st_conn s)) as [ok c]. split; [done|by apply takes_same].
  - intros s Hi. unfold handle_check. destruct (check_mode_guard (st_mode s)) as [g|] eqn:Eg.
    { apply quiet_commanded; [done|apply quiet_refl|]. unfold check_mode_guard in Eg. destruct (st_mode s); by simplify_eq. }
    unfold mbind, prog_bind. destruct (quiet_check_msgid (trim a) s Hi) as (r & s1 & -> & Hq).
    apply quiet_commanded; [done|done|]. by destruct r.
  - apply handles_takethis; rewrite Ecmd; [done|]. by to_prop.
  - apply handles_ihave; rewrite Ecmd; [done|]. by to_prop.
Qed.

(** *** The loop *)

(** The articles taken in, those acknowledged first; one more only when its
    acknowledgement could not be written. *)
Definition accounted (s s' : St) (inp : bytes) (acked unacked : list Transfer) : Prop :=
  offered inp (acked ++ unacked) ∧ takes (st_shared s) (st_shared s') (tf_article <$> acked ++ unacked) ∧
  Forall checked (tf_article <$> acked ++ unacked) ∧
  (∃ new, outbox (st_conn s') = outbox (st_conn s) ++ new ∧ List.filter acknowledges new = tf_reply <$> acked) ∧
  (length unacked <= 1)%nat ∧ (write_faults (st_conn s) = [] → unacked = []).

Lemma filter_silent new : Forall (λ b, acknowledges b = false) new → List.filter acknowledges new = [].
Proof. induction 1 as [|b new Hb _ IH]; [done|]. cbn. by rewrite Hb. Qed.

Lemma write_all_ok b c c' :
  write_all b c = (true, c') → outbox c' = outbox c ++ [b] ∧ (write_faults c = [] → write_faults c' = []).
Proof. unfold write_all. by destruct (write_faults c) as [|[] fs]; intros [= <-]. Qed.

Lemma write_all_err b c c' : write_all b c = (false, c') → outbox c' = outbox c ∧ write_faults c ≠ [].
Proof. unfold write_all. by destruct (write_faults c) as [|[] fs]; intros [= <-]. Qed.

(** [answer]: a command and its answer. *)
Lemma answer_spec cmd s :
  msgid_inv (sh_msgid_map (st_shared s)) →
  match answer env blacklist_config peer_ip cmd s with
  | (Ok _, s') => msgid_inv (sh_msgid_map (st_shared s')) ∧ (write_faults (st_conn s) = [] → write_faults (st_conn s') = []) ∧
      ∃ ts, takes (st_shared s) (st_shared s') (tf_article <$> ts) ∧ Forall checked (tf_article <$> ts) ∧
        (∃ new, outbox (st_conn s') = outbox (st_conn s) ++ new ∧ List.filter acknowledges new = tf_reply <$> ts) ∧
        ∀ inp line ts', read_line inp = Some (line, inbox (st_conn s)) → trim_eol line = cmd →
          offered (inbox (st_conn s')) ts' → offered inp (ts ++ ts')
  | (Err _, s') => ∃ unacked, takes (st_shared s) (st_shared s') (tf_article <$> unacked) ∧ Forall checked (tf_article <$> unacked) ∧
      (∃ new, outbox (st_conn s') = outbox (st_conn s) ++ new ∧ List.filter acknowledges new = []) ∧
      (length unacked <= 1)%nat ∧ (write_faults (st_conn s) = [] → unacked = []) ∧
      ∀ inp line, read_line inp = Some (line, inbox (st_conn s)) → trim_eol line = cmd → offered inp unacked
  end.
Proof.
  intros Hi. unfold answer, mbind, prog_bind. pose proof (handles_dispatch cmd s Hi) as Hd.
  destruct (dispatch _ _ _ cmd s) as [[resp|e] s1].
  2:{ destruct Hd as [[Hf (new & Hnew & Hno)] Ht]. exists []. split_and!; [done|constructor| |cbn; lia|done|constructor].
      exists new. split; [done|by apply filter_silent]. }
  destruct Hd as ([Hf (new & Hnew & Hno%filter_silent)] & Hi1 & Hor). pose proof (send_spec resp s1) as Hsend.
  assert (Hts : ∃ ts, takes (st_shared s) (st_shared s1) (tf_article <$> ts) ∧ Forall checked (tf_article <$> ts) ∧
    List.filter acknowledges [resp] = tf_reply <$> ts ∧ (length ts <= 1)%nat ∧
    ∀ inp line ts', read_line inp = Some (line, inbox (st_conn s)) → trim_eol line = cmd →
      offered (inbox (st_conn s1)) ts' → offered inp (ts ++ ts')).
  { destruct Hor as [(a & Hcmd & Hread & Ht & Hc)|(Hno' & Ht & Hl)].
    - exists [mkTransfer a resp]. split_and!; [done|by constructor| |cbn; lia|].
      + cbn. destruct Hcmd as [_ [[_ ->]|[_ ->]]]; done.
      + intros inp line ts' Hline <- Hts'. by eapply offered_cons.
    - exists []. split_and!; [done|constructor|cbn; by rewrite Hno'|cbn; lia|].
      intros inp line ts' Hline _ Hts'. eapply offered_skip; [exact Hline|]. by eapply offered_lines. }
  destruct Hts as (ts & Ht & Hc & Hack & Hlen & Hoff). pose proof (write_all_inbox resp (st_conn s1)) as Hin.
  destruct (send resp s1) as [[[]|e] s2]; destruct Hsend as [Hw Hsh]; rewrite Hsh; rewrite Hw in Hin; cbn [snd] in Hin.
  - rewrite Hin. apply write_all_ok in Hw as [Ho Hwf]. split; [done|]. split; [auto|]. exists ts. split_and!; [done|done| |done].
    exists (new ++ [resp]). rewrite List.filter_app, Hno. split; [|done]. by rewrite Ho, Hnew, app_assoc.
  - apply write_all_err in Hw as [Ho Hwf]. exists ts. split_and!; [done|done| |done| |].
    + exists new. by rewrite Ho.
    + intros H1. by destruct (Hwf (Hf H1)).
    + intros inp line Hl Hcmd. rewrite <- (app_nil_r ts). apply (Hoff _ _ _ Hl Hcmd). constructor.
Qed.

Lemma command_loop_accounts fuel s e s' :
  msgid_inv (sh_msgid_map (st_shared s)) → command_loop env blacklist_config peer_ip fuel s = Some (e, s') →
  ∃ acked unacked, accounted s s' (inbox (st_conn s)) acked unacked.
Proof.
  revert s. induction fuel as [|fuel IH]; intros s Hi; [done|]. cbn [command_loop].
  destruct (read_line (inbox (st_conn s))) as [[l r]|] eqn:El.
  2:{ intros [= <- <-]. exists [], []. split_and!; [constructor|by apply takes_same|constructor| |cbn; lia|done].
      exists []. by rewrite app_nil_r. }
  cbv zeta. case_bool_decide.
  - intros H'. destruct (IH (set_inbox r s) Hi H') as (acked & unacked & Ho & Hrest). exists acked, unacked.
    split; [|exact Hrest]. by eapply offered_skip.
  - pose proof (answer_spec (trim_eol l) (set_inbox r s) Hi) as Ha.
    destruct (answer _ _ _ _ _) as [[[]|e1] s1].
    + destruct Ha as (Hi1 & Hf & ts & Ht & Hc & (new & Hnew & Hack) & Hoff). intros H'.
      destruct (IH s1 Hi1 H') as (acked & unacked & Ho & Ht' & Hc' & (new' & Hnew' & Hack') & Hlen & Hun).
      exists (ts ++ acked), unacked. unfold accounted. rewrite <- app_assoc. split_and!; [by apply (Hoff _ l)| | | |done|auto].
      * rewrite fmap_app. by eapply takes_trans.
      * rewrite fmap_app. by apply Forall_app.
      * exists (new ++ new'). rewrite Hnew', Hnew, List.filter_app, Hack, Hack', fmap_app. by rewrite app_assoc.
    + destruct Ha as (unacked & Ht & Hc & (new & Hnew & Hack) & Hlen & Hun & Hoff). intros [= <- <-].
      exists [], unacked. split_and!; [by apply (Hoff _ l)|done|done|by exists new|done|done].
Qed.

(** A whole session: after an opening of at most three messages (one without a
    handshake), the acknowledgements written are those of the articles taken in,
    but for one article at most whose acknowledgement could not be written. *)
Definition account {siglib : SigLib} (op : Opening) (c : Conn) (sh : Sh) (c' : Conn) (sh' : Sh) : Prop :=
  ∃ pre inp acked unacked opening replies,
    inbox c = pre ++ inp ∧ (op_trusted_keys op = [] → pre = []) ∧ offered inp (acked ++ unacked) ∧
    took sh sh' (tf_article <$> acked ++ unacked) ∧ Forall checked (tf_article <$> acked ++ unacked) ∧
    outbox c' = outbox c ++ opening ++ replies ∧
    (length opening <= match op_trusted_keys op with [] => 1 | _ => 3 end)%nat ∧
    List.filter acknowledges replies = tf_reply <$> acked ∧
    (length unacked <= 1)%nat ∧ (write_faults c = [] → unacked = []).

Lemma account_after {siglib : SigLib} op c sh n s s' acked unacked :
  went_on n c (st_conn s) → (op_trusted_keys op = [] → inbox (st_conn s) = inbox c) →
  (n <= match op_trusted_keys op with [] => 1 | _ => 3 end)%nat → takes sh (st_shared s) [] →
  accounted s s' (inbox (st_conn s)) acked unacked → account op c sh (st_conn s') (st_shared s').
Proof.
  intros (Hf & [pre Hin] & new & Ho & Hn) Hk Hle Ht (Hoff & Ht' & Hc & (new' & Ho' & Hack) & Hlen & Hun).
  exists pre, (inbox (st_conn s)), acked, unacked, new, new'. split_and!; [done| |done| |done| |lia|done|done|auto].
  - intros Hop. rewrite (Hk Hop) in Hin. by apply (app_inv_tail (inbox c) pre []).
  - apply takes_took. by apply (takes_trans _ _ _ [] _ Ht).
  - by rewrite Ho', Ho, app_assoc.
Qed.

Lemma accounted_none s : accounted s s (inbox (st_conn s)) [] [].
Proof.
  split_and!; [constructor|by apply takes_same|constructor| |cbn; lia|done]. exists []. by rewrite app_nil_r.
Qed.


End Accounts.
(** ** Articles arrive as they were sent *)

(** Unstuffing undoes stuffing, and no stuffed line ends the article. *)
Lemma wire_output l : wire l ≠ lit "." ∧ output_line (wire l) = l ++ CRLF.
Proof.
  unfold wire, output_line. destruct (starts_with l (lit ".")) eqn:E.
  - apply starts_with_spec in E as [r ->]. split; [by destruct r|]. done.
  - rewrite app_nil_l. split; [by intros ->|].
    destruct (strip_prefix (lit "..") l) as [r|] eqn:E'; [|done].
    apply strip_prefix_Some in E' as ->. done.
Qed.

Lemma dot_stuffed_loop_lines ls rest fuel buf :
  Forall sendable ls → (length ls < fuel)%nat → len buf + len (render ls) <= MAX_ARTICLE_BYTES →
  dot_stuffed_loop fuel (concat ((λ l, wire l ++ CRLF) <$> ls) ++ lit "." ++ CRLF ++ rest) buf false =
  Some (Data (buf ++ render ls), rest).
Proof.
  intros Hls. revert fuel buf. induction Hls as [|l ls Hl Hls IH]; intros fuel buf Hf Hlen;
    destruct fuel as [|fuel]; simpl length in Hf; try lia; cbn [dot_stuffed_loop].
  - rewrite fmap_nil. cbn [concat]. rewrite app_nil_l, (read_line_wire (lit ".") rest) by (by apply (bool_decide_eq_true_1 _)).
    rewrite trim_eol_line by (by apply (bool_decide_eq_true_1 _)). cbv zeta.
    rewrite bool_decide_eq_true_2 by done. by rewrite app_nil_r.
  - rewrite fmap_cons. cbn [concat]. rewrite <- !app_assoc.
    pose proof (wire_sendable l Hl) as Hw. destruct (wire_output l) as [Hdot Hout].
    rewrite read_line_wire by done. cbv zeta. destruct Hw as (Hlf & Hcr & _).
    rewrite trim_eol_line by done. rewrite bool_decide_eq_false_2 by done. rewrite Hout.
    assert (Hr : render (l :: ls) = (l ++ CRLF) ++ render ls) by done.
    rewrite Hr in Hlen |- *. unfold len in *. rewrite length_app in Hlen.
    destruct (Z.ltb_spec MAX_ARTICLE_BYTES (Z.of_nat (length buf) + Z.of_nat (length (l ++ CRLF)))); [lia|].
    rewrite IH; [by rewrite <- app_assoc|lia|]. rewrite length_app. lia.
Qed.

(** An article of UTF-8 lines within the size limit that a sender encodes with
    [nntp_dot_stuff] and ends with a dot line is read back unchanged by the
    session, which continues exactly behind it; the encoder never fails. *)
Theorem transfer_roundtrip ls rest :
  Forall sendable ls → len (render ls) <= MAX_ARTICLE_BYTES →
  ∃ w, nntp_dot_stuff (render ls) = Some w ∧
    read_dot_stuffed (w ++ lit "." ++ CRLF ++ rest) = Some (Data (render ls), rest).
Proof.
  intros Hls Hlen. exists (concat ((λ l, wire l ++ CRLF) <$> ls)). split.
  - rewrite (nntp_dot_stuff_eq _ ((λ l, l ++ [CR]) <$> ls) []).
    + unfold stuffed. rewrite bool_decide_eq_true_2, app_nil_r, <- list_fmap_compose by done.
      f_equal. f_equal. apply list_fmap_ext. intros i l _. simpl. by rewrite strip_cr_app, stuffed_wire.
    + clear Hlen. induction Hls as [|l ls (Hlf & _) _ IH]; [done|].
      rewrite <- (app_nil_r (render (l :: ls))), render_cons, app_nil_r, split_render_line, IH by done. done.
  - unfold read_dot_stuffed. apply (dot_stuffed_loop_lines ls rest _ []); [done| |done].
    assert (H : (length ls <= length (concat ((λ l, wire l ++ CRLF) <$> ls)))%nat).
    { clear. induction ls as [|l ls IH]; [done|]. rewrite fmap_cons. cbn [concat length].
      rewrite !length_app. simpl. lia. }
    rewrite length_app. lia.
Qed.

(** ** Sessions *)

Module SessionSamples.
Import ToyCrypto AuthSamples LogEntry.Samples SqliteStorage.SqlSamples MsgIdSamples HeaderSamples IngestSamples.
Import IngestQueue.QueueSamples.

#[export] Instance no_limit : RateLimiter () := λ _ r, (true, r).

Definition env0 : Env := mkEnv Z.of_nat Z.of_nat (λ n, [Z.of_nat n]).
Definition peer : bytes := lit "192.0.2.1".
Definition shared0 : PeeringShared (C := ListChan) :=
  mkShared sql_msgids_new tt (IngestQueue.ingestion_queue 4 4096) None (mkPool (mkPeerDb ∅ ∅) []) O.
Definition open0 : Opening := mkOpening skey [] [] false.

Definition talk (input : bytes) :=
  run_peering_session env0 blacklist_default peer open0 (lit "192.0.2.1:4000") (mkConn input [] []) shared0.

Definition stuffed_sample : bytes := default [] (nntp_dot_stuff sample) ++ lit "." ++ CRLF.
Definition script0 : bytes :=
  lit "mode stream" ++ CRLF ++ lit "CHECK <1@example.org>" ++ CRLF ++
  lit "TAKETHIS <1@example.org>" ++ CRLF ++ stuffed_sample ++ lit "QUIT" ++ CRLF.

Definition replies0 : list bytes :=
  [lit "200 stoa-transit NNTP service ready" ++ CRLF; lit "203 Streaming permitted" ++ CRLF;
   lit "238 <1@example.org>" ++ CRLF; lit "239 <1@example.org>" ++ CRLF;
   lit "205 Closing connection" ++ CRLF].

Lemma talk_script0 :
  (λ '(e, c, sh), (outbox c, IngestQueue.queued (sh_queue sh).2)) <$> talk script0 =
  Some (replies0, [IngestQueue.mkQueued sample (lit "<1@example.org>")]).
Proof. vm_refl. Qed.

#[export] Instance env0_fresh : Inj (=) (=) (staging_id_at env0).
Proof. intros n m H. injection H as H. lia. Qed.


Lemma transfer_roundtrip_witness :
  ∃ w, nntp_dot_stuff (render [lit "a"; lit ".b"; lit "."]) = Some w ∧
    read_dot_stuffed (w ++ lit "." ++ CRLF ++ lit "QUIT") =
      Some (Data (render [lit "a"; lit ".b"; lit "."]), lit "QUIT").
Proof.
  apply (transfer_roundtrip [lit "a"; lit ".b"; lit "."] (lit "QUIT")).
  - by apply (bool_decide_eq_true_1 _); vm_refl.
  - by apply (bool_decide_eq_true_1 _); vm_refl.
Defined.

(** Outside streaming mode [TAKETHIS] is answered without reading the article
    that follows it: its lines are taken as commands. *)
Lemma takethis_body_runs_as_commands :
  (λ '(e, c, sh), outbox c) <$>
    talk (lit "TAKETHIS <1@example.org>" ++ CRLF ++ lit "Subject: x" ++ CRLF ++ lit "quit" ++ CRLF ++
          lit "CAPABILITIES" ++ CRLF) =
  Some [lit "200 stoa-transit NNTP service ready" ++ CRLF;
        lit "500 Command not available in current mode" ++ CRLF;
        lit "500 Unknown command: SUBJECT:" ++ CRLF;
        lit "205 Closing connection" ++ CRLF].
Proof. vm_refl. Qed.

(** A byte that is not UTF-8 anywhere in an article ends the session without an
    answer. *)
Lemma latin1_article_ends_session :
  (λ '(e, c, sh), (outbox c, IngestQueue.queued (sh_queue sh).2)) <$>
    talk (lit "IHAVE <1@example.org>" ++ CRLF ++ lit "From: a" ++ CRLF ++ CRLF ++ [233] ++ CRLF ++
          lit "." ++ CRLF ++ lit "QUIT" ++ CRLF) =
  Some ([lit "200 stoa-transit NNTP service ready" ++ CRLF; lit "335 Send it" ++ CRLF], []).
Proof. vm_refl. Qed.

End SessionSamples.

End Session.
