(* ===== verification/SieveLexer.v ===== *)
(** The Sieve tokenizer: [crates/sieve-native/src/lexer.rs] and
    [parse_error.rs].

    A script is its UTF-8 bytes.  The lexer only singles out ASCII characters,
    so walking bytes meets the characters [chars()] yields; the column counts
    characters, so continuation bytes do not advance it.  [lex_step] is one
    iteration of the main loop; every iteration consumes input, so [tokenize] is
    total, and a printed token list lexes back to itself. *)

From S2P Require Import Prelude Bytes Utf8 Decimal.

Module SieveLexer.
Import Utf8 Decimal.

Inductive Token :=
| Word (s : bytes)
| Tag (s : bytes)
| StringLit (s : bytes)
| Number (n : Z)
| LBracket
| RBracket
| LParen
| RParen
| LBrace
| RBrace
| Semicolon
| Comma.

#[export] Instance token_eq_dec : EqDecision Token.
Proof. solve_decision. Defined.

Record ParseError := mkParseError { message : bytes; line : Z; col : Z }.

(** [impl Display for ParseError], and its conversion to a [String]. *)
Definition error_to_string (e : ParseError) : bytes :=
  if (line e =? 0) && (col e =? 0) then lit "parse error: " ++ message e
  else lit "parse error at " ++ to_decimal (line e) ++ lit ":" ++ to_decimal (col e) ++ lit ": "
       ++ message e.

(** ** The cursor *)

Record Pos := mkPos { p_line : Z; p_col : Z }.

(** [advance!]. *)
Definition advance (p : Pos) (c : Z) : Pos :=
  if c =? LF then mkPos (p_line p + 1) 1
  else if is_continuation c then p
  else mkPos (p_line p) (p_col p + 1).

Definition advance_all (p : Pos) (s : bytes) : Pos := foldl advance p s.

Definition error_at {A} (p : Pos) (msg : bytes) : result ParseError A :=
  Err (mkParseError msg (p_line p) (p_col p)).

Definition HASH : Z := 35.
Definition SLASH : Z := 47.
Definition STAR : Z := 42.
Definition COLON : Z := 58.
Definition QUOTE : Z := 34.
Definition BACKSLASH : Z := 92.
Definition UNDERSCORE : Z := 95.

Definition ident_start (c : Z) : bool := is_ascii_alphabetic c || (c =? UNDERSCORE).
Definition ident_char (c : Z) : bool := is_ascii_alphanumeric c || (c =? UNDERSCORE).
Definition not_lf (c : Z) : bool := negb (c =? LF).

(** The body of a block comment, after its opening; [None] at the end of
    input. *)
Fixpoint block_comment (p : Pos) (s : bytes) : option (Pos * bytes) :=
  match s with
  | [] => None
  | c :: s' =>
      if c =? STAR then
        match s' with
        | d :: s'' =>
            if d =? SLASH then Some (advance (advance p c) d, s'') else block_comment (advance p c) s'
        | [] => block_comment (advance p c) s'
        end
      else block_comment (advance p c) s'
  end.

(** Punctuation. *)
Definition punct (c : Z) : option Token :=
  if c =? 91 then Some LBracket
  else if c =? 93 then Some RBracket
  else if c =? 40 then Some LParen
  else if c =? 41 then Some RParen
  else if c =? 123 then Some LBrace
  else if c =? 125 then Some RBrace
  else if c =? 59 then Some Semicolon
  else if c =? 44 then Some Comma
  else None.

(** The multiplier after a number, and the input after it. *)
Definition multiplier (p : Pos) (s : bytes) : Z * Pos * bytes :=
  match s with
  | c :: s' =>
      if (c =? 75) || (c =? 107) then (1024, advance p c, s')
      else if (c =? 77) || (c =? 109) then (1024 * 1024, advance p c, s')
      else if (c =? 71) || (c =? 103) then (1024 * 1024 * 1024, advance p c, s')
      else (1, p, s)
  | [] => (1, p, s)
  end.

Definition lex_number (p : Pos) (s : bytes) : result ParseError (Token * Pos * bytes) :=
  let num_str := take_while is_ascii_digit s in
  let p1 := advance_all p num_str in
  let s1 := drop_while is_ascii_digit s in
  match parse_u64 num_str with
  | None => error_at p1 (lit "number overflow: " ++ num_str)
  | Some base =>
      let '(m, p2, s2) := multiplier p1 s1 in
      if base * m <=? u64_max then Ok (Number (base * m), p2, s2)
      else error_at p2 (lit "number overflow applying multiplier to " ++ to_decimal base)
  end.

(** A line of a [text:] literal, once its newline (or the end of input) is
    reached: [None] when it terminates the literal. *)
Definition text_line (line_buf content : bytes) : option bytes :=
  let line_trimmed := default line_buf (strip_suffix [CR] line_buf) in
  if bool_decide (line_trimmed = [46]) then None
  else
    let stored := match strip_prefix [46; 46] line_trimmed with
                  | Some rest => 46 :: rest
                  | None => line_trimmed
                  end in
    Some ((if bool_decide (content = []) then [] else content ++ [LF]) ++ stored).

(** The lines of a [text:] literal.  At the end of input an unfinished line
    still counts, but nothing can follow it. *)
Fixpoint text_lines (p : Pos) (s line_buf content : bytes) : option (bytes * Pos * bytes) :=
  match s with
  | [] =>
      match line_buf with
      | [] => None
      | _ => match text_line line_buf content with None => Some (content, p, []) | Some _ => None end
      end
  | c :: s' =>
      if c =? LF then
        match text_line line_buf content with
        | None => Some (content, advance p c, s')
        | Some content' => text_lines (advance p c) s' [] content'
        end
      else text_lines (advance p c) s' (line_buf ++ [c]) content
  end.

(** [text:], after the word. *)
Definition lex_text (err : Pos) (s : bytes) : result ParseError (Token * Pos * bytes) :=
  let p1 := advance err COLON in
  let '(p2, s2) := match s with
                   | c :: s' => if c =? CR then (advance p1 c, s') else (p1, s)
                   | [] => (p1, s)
                   end in
  match s2 with
  | c :: s3 =>
      if c =? LF then
        match text_lines (advance p2 c) s3 [] [] with
        | None => error_at err (lit "unterminated multiline string (missing '.' terminator)")
        | Some (content, p3, s4) => Ok (StringLit content, p3, s4)
        end
      else error_at err (lit "expected newline after 'text:'")
  | [] => error_at err (lit "expected newline after 'text:'")
  end.

Definition lex_word (p : Pos) (s : bytes) : result ParseError (Token * Pos * bytes) :=
  let word := take_while ident_char s in
  let p1 := advance_all p word in
  match drop_while ident_char s with
  | c :: s' =>
      if bool_decide (word = lit "text") && (c =? COLON) then lex_text p1 s'
      else Ok (Word word, p1, c :: s')
  | [] => Ok (Word word, p1, [])
  end.

(** A quoted string after its opening quote. *)
Fixpoint lex_string (err p : Pos) (s acc : bytes) : result ParseError (Token * Pos * bytes) :=
  match s with
  | [] => error_at err (lit "unterminated string literal")
  | c :: s' =>
      if c =? QUOTE then Ok (StringLit acc, advance p c, s')
      else if c =? BACKSLASH then
        match s' with
        | [] => error_at err (lit "unexpected end of input after backslash")
        | d :: s'' =>
            let p' := advance (advance p c) d in
            if (d =? QUOTE) || (d =? BACKSLASH) then lex_string err p' s'' (acc ++ [d])
            else lex_string err p' s'' (acc ++ [BACKSLASH; d])
        end
      else lex_string err (advance p c) s' (acc ++ [c])
  end.

Definition lex_tag (p : Pos) (s : bytes) : result ParseError (Token * Pos * bytes) :=
  let p1 := advance p COLON in
  match s with
  | c :: _ =>
      if ident_start c then
        let ident := take_while ident_char s in
        Ok (Tag ident, advance_all p1 ident, drop_while ident_char s)
      else error_at p (lit "expected identifier after ':'")
  | [] => error_at p (lit "expected identifier after ':'")
  end.

Definition lex_slash (p : Pos) (s : bytes) : result ParseError (Pos * bytes) :=
  match s with
  | c :: s' =>
      if c =? STAR then
        match block_comment (advance (advance p SLASH) c) s' with
        | None => error_at p (lit "unterminated block comment")
        | Some r => Ok r
        end
      else error_at p (lit "unexpected '/'")
  | [] => error_at p (lit "unexpected '/'")
  end.

(** One iteration of the main loop on input [ch :: s]: the token it pushes, if
    any, and where it leaves the cursor. *)
Definition lex_step (p : Pos) (ch : Z) (s : bytes) :
    result ParseError (option Token * Pos * bytes) :=
  let token r := '(t, p', s') ← r; mret (Some t, p', s') in
  if is_ascii_whitespace ch then Ok (None, advance p ch, s)
  else if ch =? HASH then
    Ok (None, advance_all (advance p ch) (take_while not_lf s), drop_while not_lf s)
  else if ch =? SLASH then '(p', s') ← lex_slash p s; mret (None, p', s')
  else match punct ch with
  | Some t => Ok (Some t, advance p ch, s)
  | None =>
      if ch =? COLON then token (lex_tag p s)
      else if is_ascii_digit ch then token (lex_number p (ch :: s))
      else if ident_start ch then token (lex_word p (ch :: s))
      else if ch =? QUOTE then token (lex_string p (advance p ch) s [])
      else error_at p (lit "unexpected character '" ++ first_char (ch :: s) ++ lit "'")
  end.

Definition push_token (t : option Token) (r : result ParseError (list Token)) :
    result ParseError (list Token) :=
  match r with Ok ts => Ok (option_list t ++ ts) | Err e => Err e end.

(** The main loop; [None] if the fuel runs out. *)
Fixpoint lex_loop (fuel : nat) (p : Pos) (s : bytes) : option (result ParseError (list Token)) :=
  match s with
  | [] => Some (Ok [])
  | ch :: s' =>
      match fuel with
      | O => None
      | S f =>
          match lex_step p ch s' with
          | Err e => Some (Err e)
          | Ok (t, p', rest) =>
              push_token t <$> lex_loop f p' rest
          end
      end
  end.

(** One iteration per byte of input is enough ([tokenize_total]). *)
Definition tokenize (src : bytes) : option (result ParseError (list Token)) :=
  lex_loop (length src) (mkPos 1 1) src.

(** ** Every iteration consumes input *)

Lemma length_drop_while f s : (length (drop_while f s) <= length s)%nat.
Proof. induction s as [|c s IH]; simpl; [lia|]. destruct (f c); simpl; lia. Qed.

Lemma length_drop_while_hd f c s :
  f c = true → (length (drop_while f (c :: s)) <= length s)%nat.
Proof. intros Hf. simpl. rewrite Hf. apply length_drop_while. Qed.

Lemma block_comment_shrinks p s p' s' :
  block_comment p s = Some (p', s') → (length s' <= length s)%nat.
Proof.
  revert p. induction s as [|c s IH]; intros p; simpl; [done|].
  destruct (c =? STAR); [destruct s as [|d s1]; [|destruct (d =? SLASH)]|];
    intros H; try (apply IH in H; simpl in *; lia); try done.
  injection H as <- <-. simpl. lia.
Qed.

Lemma text_lines_shrinks p s buf content r p' s' :
  text_lines p s buf content = Some (r, p', s') → (length s' <= length s)%nat.
Proof.
  revert p buf content. induction s as [|c s IH]; intros p buf content; simpl.
  - destruct buf; [done|]. destruct (text_line _ _); [done|]. intros [= <- <- <-]. done.
  - destruct (c =? LF); [destruct (text_line _ _)|]; intros H;
      [apply IH in H; lia|injection H as <- <- <-; lia|apply IH in H; lia].
Qed.

Lemma lex_string_shrinks err p s acc t p' s' :
  lex_string err p s acc = Ok (t, p', s') → (length s' <= length s)%nat.
Proof.
  revert p acc. induction s as [s IH] using (induction_ltof1 _ length). unfold ltof in IH.
  intros p acc. destruct s as [|c s]; simpl; [done|].
  destruct (c =? QUOTE); [intros [= <- <- <-]; lia|].
  destruct (c =? BACKSLASH); [destruct s as [|d s]; [done|]; destruct (_ || _)|];
    intros H; apply IH in H; simpl in *; lia.
Qed.

Lemma lex_text_shrinks p s t p' s' : lex_text p s = Ok (t, p', s') → (length s' <= length s)%nat.
Proof.
  unfold lex_text.
  assert (Hcr : ∀ p1 : Pos, ∃ p2 s2, match s with
    | c :: s0 => if c =? CR then (advance p1 c, s0) else (p1, s) | [] => (p1, s) end = (p2, s2) ∧
    (length s2 <= length s)%nat).
  { intros p1. destruct s as [|c s]; [eauto|]. destruct (c =? CR); eexists _, _; split; eauto; simpl; lia. }
  destruct (Hcr (advance p COLON)) as (p2 & s2 & -> & Hle).
  destruct s2 as [|c s3]; [done|]. destruct (c =? LF); [|done].
  destruct (text_lines _ s3 [] []) as [[[content p3] s4]|] eqn:E; [|done].
  intros [= <- <- <-]. apply text_lines_shrinks in E. simpl in *. lia.
Qed.

Lemma multiplier_shrinks p s m p' s' : multiplier p s = (m, p', s') → (length s' <= length s)%nat.
Proof.
  unfold multiplier. destruct s as [|c s]; [by intros [= <- <- <-]|].
  repeat (break_if; [intros [= <- <- <-]; simpl; lia|]). by intros [= <- <- <-].
Qed.

Lemma lex_number_shrinks p c s t p' s' :
  is_ascii_digit c = true → lex_number p (c :: s) = Ok (t, p', s') → (length s' <= length s)%nat.
Proof.
  intros Hc. unfold lex_number. destruct (parse_u64 _) as [base|]; [|done].
  pose proof (length_drop_while_hd is_ascii_digit c s Hc) as Hd.
  destruct (multiplier _ _) as [[m p2] s2] eqn:E. apply multiplier_shrinks in E.
  break_if; [|done]. intros [= <- <- <-]. lia.
Qed.

Lemma ident_start_char c : ident_start c = true → ident_char c = true.
Proof.
  unfold ident_start, ident_char, is_ascii_alphanumeric. rewrite !orb_true_iff. tauto.
Qed.

Lemma lex_word_shrinks p c s t p' s' :
  ident_start c = true → lex_word p (c :: s) = Ok (t, p', s') → (length s' <= length s)%nat.
Proof.
  intros Hc. pose proof (ident_start_char c Hc) as Hi.
  pose proof (length_drop_while_hd ident_char c s Hi) as Hd. unfold lex_word.
  destruct (drop_while ident_char (c :: s)) as [|d s1]; simpl in *; [intros [= <- <- <-]; simpl; lia|].
  break_if; [|intros [= <- <- <-]; simpl; lia]. intros H. apply lex_text_shrinks in H. lia.
Qed.

Lemma lex_tag_shrinks p s t p' s' : lex_tag p s = Ok (t, p', s') → (length s' <= length s)%nat.
Proof.
  unfold lex_tag. destruct s as [|c s]; [done|]. destruct (ident_start c); [|done].
  intros [= <- <- <-]. apply (length_drop_while ident_char (c :: s)).
Qed.

Lemma lex_step_shrinks p c s t p' s' : lex_step p c s = Ok (t, p', s') → (length s' <= length s)%nat.
Proof.
  unfold lex_step, mbind, result_bind.
  destruct (is_ascii_whitespace c); [by intros [= <- <- <-]|].
  destruct (c =? HASH); [intros [= <- <- <-]; apply length_drop_while|].
  destruct (c =? SLASH).
  { unfold lex_slash. destruct s as [|d s]; [done|]. destruct (d =? STAR); [|done].
    destruct (block_comment _ _) as [[p1 s1]|] eqn:E; [|done]. intros [= <- <- <-].
    apply block_comment_shrinks in E. simpl. lia. }
  destruct (punct c); [by intros [= <- <- <-]|].
  assert (Htok : ∀ r : result ParseError (Token * Pos * bytes),
    (∀ t p' s', r = Ok (t, p', s') → (length s' <= length s)%nat) →
    match r with Ok a => let '(t, p', s') := a in mret (Some t, p', s') | Err e => Err e end =
      Ok (t, p', s') → (length s' <= length s)%nat).
  { intros [[[t1 p1] s1]|e] Hr; [|done]. intros [= <- <- <-]. eauto. }
  destruct (c =? COLON); [apply Htok; intros ???; apply lex_tag_shrinks|].
  destruct (is_ascii_digit c) eqn:Hd; [apply Htok; intros ???; by apply lex_number_shrinks|].
  destruct (ident_start c) eqn:Hi; [apply Htok; intros ???; by apply lex_word_shrinks|].
  destruct (c =? QUOTE); [apply Htok; intros ???; apply lex_string_shrinks|done].
Qed.

Lemma lex_loop_total fuel p s : (length s <= fuel)%nat → is_Some (lex_loop fuel p s).
Proof.
  revert p s. induction fuel as [|f IH]; intros p [|c s] Hn; simpl in *; [eauto|lia|eauto|].
  destruct (lex_step p c s) as [[[t p'] s']|e] eqn:E; [|eauto].
  apply lex_step_shrinks in E. destruct (IH p' s') as (r & ->); [lia|]. simpl. eauto.
Qed.

(** More fuel changes nothing. *)
Lemma lex_loop_mono fuel fuel' p s r :
  lex_loop fuel p s = Some r → (fuel <= fuel')%nat → lex_loop fuel' p s = Some r.
Proof.
  revert fuel' p s r. induction fuel as [|f IH]; intros fuel' p s r.
  - destruct s; [|done]. intros H _. by destruct fuel'.
  - destruct s as [|c s]; simpl; [intros H _; by destruct fuel'|].
    destruct fuel' as [|f']; [lia|]. simpl.
    destruct (lex_step p c s) as [[[t p'] s']|e]; [|done].
    destruct (lex_loop f p' s') as [r'|] eqn:E; [|done]. intros H Hle.
    erewrite (IH f'); [exact H|exact E|lia].
Qed.

Lemma tokenize_total src : is_Some (tokenize src).
Proof. by apply lex_loop_total. Qed.

(** ** Printing tokens *)

Definition escape_char (c : Z) : bytes :=
  if (c =? QUOTE) || (c =? BACKSLASH) then [BACKSLASH; c] else [c].

Definition render_token (t : Token) : bytes :=
  match t with
  | Word s => s
  | Tag s => COLON :: s
  | StringLit s => QUOTE :: flat_map escape_char s ++ [QUOTE]
  | Number n => to_decimal n
  | LBracket => [91]
  | RBracket => [93]
  | LParen => [40]
  | RParen => [41]
  | LBrace => [123]
  | RBrace => [125]
  | Semicolon => [59]
  | Comma => [44]
  end.

(** Tokens separated by spaces. *)
Definition render (ts : list Token) : bytes := flat_map (λ t, render_token t ++ [SP]) ts.

Definition is_ident (s : bytes) : Prop :=
  match s with
  | [] => False
  | c :: s' => ident_start c = true ∧ Forall (λ c, ident_char c = true) s'
  end.

Definition token_wf (t : Token) : Prop :=
  match t with
  | Word s | Tag s => is_ident s
  | Number n => in_u64 n
  | _ => True
  end.

Lemma take_while_all f s c rest :
  Forall (λ c, f c = true) s → f c = false →
  take_while f (s ++ c :: rest) = s ∧ drop_while f (s ++ c :: rest) = c :: rest.
Proof.
  intros Hs Hc. induction Hs as [|d s Hd Hs IH]; simpl; [by rewrite Hc|].
  rewrite Hd. destruct IH as [-> ->]. done.
Qed.

Lemma lex_string_render err p s acc rest :
  ∃ p', lex_string err p (flat_map escape_char s ++ QUOTE :: rest) acc =
        Ok (StringLit (acc ++ s), p', rest).
Proof.
  revert p acc. induction s as [|c s IH]; intros p acc.
  - exists (advance p QUOTE). simpl. by rewrite app_nil_r.
  - simpl. unfold escape_char at 1. destruct (_ || _)%bool eqn:Hc.
    + change ((([BACKSLASH; c] ++ flat_map escape_char s) ++ QUOTE :: rest))
        with (BACKSLASH :: c :: (flat_map escape_char s ++ QUOTE :: rest)).
      cbn [lex_string]. change (BACKSLASH =? QUOTE) with false.
      change (BACKSLASH =? BACKSLASH) with true. cbn iota. rewrite Hc.
      destruct (IH (advance (advance p BACKSLASH) c) (acc ++ [c])) as (p' & ->).
      exists p'. by rewrite <- app_assoc.
    + cbn [app lex_string]. apply orb_false_iff in Hc as [-> ->].
      destruct (IH (advance p c) (acc ++ [c])) as (p' & ->).
      exists p'. by rewrite <- app_assoc.
Qed.

Lemma ident_start_class c :
  ident_start c = true →
  is_ascii_whitespace c = false ∧ (c =? HASH) = false ∧ (c =? SLASH) = false ∧ punct c = None ∧
  (c =? COLON) = false ∧ is_ascii_digit c = false.
Proof.
  unfold ident_start, is_ascii_alphabetic, is_ascii_upper, is_ascii_lower. intros H.
  assert (Hr : 65 <= c <= 90 ∨ 97 <= c <= 122 ∨ c = 95).
  { unfold UNDERSCORE in H. rewrite !orb_true_iff, !andb_true_iff, !Z.leb_le, Z.eqb_eq in H. lia. }
  unfold is_ascii_whitespace, HASH, SLASH, COLON, punct, is_ascii_digit.
  repeat match goal with |- context [?x =? ?y] => rewrite (proj2 (Z.eqb_neq x y)) by lia end.
  split_and!; try done. apply andb_false_iff. right. apply Z.leb_gt. lia.
Qed.

Lemma digit_class c :
  is_ascii_digit c = true →
  is_ascii_whitespace c = false ∧ (c =? HASH) = false ∧ (c =? SLASH) = false ∧ punct c = None ∧
  (c =? COLON) = false.
Proof.
  unfold is_ascii_digit. rewrite andb_true_iff, !Z.leb_le. intros Hr.
  unfold is_ascii_whitespace, HASH, SLASH, COLON, punct.
  repeat match goal with |- context [?x =? ?y] => rewrite (proj2 (Z.eqb_neq x y)) by lia end.
  done.
Qed.

Lemma lex_word_render p c s rest :
  is_ident (c :: s) →
  ∃ p', lex_word p ((c :: s) ++ SP :: rest) = Ok (Word (c :: s), p', SP :: rest).
Proof.
  intros [Hc Hs]. unfold lex_word.
  destruct (take_while_all ident_char (c :: s) SP rest) as [-> ->]; [|done|].
  { constructor; [by apply ident_start_char|done]. }
  change (SP =? COLON) with false. rewrite andb_false_r. eauto.
Qed.

Lemma lex_tag_render p s rest :
  is_ident s → ∃ p', lex_tag p (s ++ SP :: rest) = Ok (Tag s, p', SP :: rest).
Proof.
  destruct s as [|c s]; [done|]. intros [Hc Hs]. unfold lex_tag. simpl app. cbn iota. rewrite Hc.
  destruct (take_while_all ident_char (c :: s) SP rest) as [Ht Hd]; [|done|].
  { constructor; [by apply ident_start_char|done]. }
  simpl app in Ht, Hd. rewrite Ht, Hd. eauto.
Qed.

Lemma lex_number_render p n rest :
  in_u64 n → ∃ p', lex_number p (to_decimal n ++ SP :: rest) = Ok (Number n, p', SP :: rest).
Proof.
  intros Hn. unfold lex_number.
  destruct (take_while_all is_ascii_digit (to_decimal n) SP rest) as [-> ->]; [|done|].
  { apply dec_digits_digit. unfold in_u64 in Hn. lia. }
  rewrite parse_to_decimal by done. unfold multiplier. simpl. rewrite Z.mul_1_r.
  unfold in_u64 in Hn. destruct (n <=? u64_max) eqn:?; to_prop; [eauto|lia].
Qed.

Lemma lex_step_render p t rest :
  token_wf t →
  ∃ c s p', render_token t ++ SP :: rest = c :: s ∧ lex_step p c s = Ok (Some t, p', SP :: rest).
Proof.
  intros Hwf. destruct t as [w|w|w|n| | | | | | | |];
    try (eexists _, _, _; split; [reflexivity|reflexivity]).
  - destruct w as [|c s]; [done|]. destruct (lex_word_render p c s rest Hwf) as (p' & Hp).
    destruct Hwf as [Hc _]. destruct (ident_start_class c Hc) as (H1 & H2 & H3 & H4 & H5 & H6).
    exists c, (s ++ SP :: rest), p'. split; [done|].
    unfold lex_step. rewrite H1, H2, H3, H4, H5, H6, Hc. simpl app in Hp. by rewrite Hp.
  - destruct (lex_tag_render p w rest Hwf) as (p' & Hp).
    exists COLON, (w ++ SP :: rest), p'. split; [done|].
    unfold lex_step. simpl. by rewrite Hp.
  - destruct (lex_string_render p (advance p QUOTE) w [] (SP :: rest)) as (p' & Hp).
    exists QUOTE, (flat_map escape_char w ++ QUOTE :: SP :: rest), p'.
    split; [simpl; by rewrite <- app_assoc|]. unfold lex_step. simpl. by rewrite Hp.
  - destruct (lex_number_render p n rest Hwf) as (p' & Hp).
    destruct (dec_digits_cons 19 n) as (c & s & E & Hc); [exact (proj1 Hwf)|].
    destruct (digit_class c Hc) as (H1 & H2 & H3 & H4 & H5). simpl render_token.
    unfold to_decimal in *. rewrite E in *. exists c, (s ++ SP :: rest), p'. split; [done|].
    unfold lex_step. rewrite H1, H2, H3, H4, H5, Hc. simpl app in Hp. by rewrite Hp.
Qed.

Lemma lex_loop_render ts p :
  Forall token_wf ts → ∃ fuel, lex_loop fuel p (render ts) = Some (Ok ts).
Proof.
  intros Hts. revert p. induction Hts as [|t ts Ht Hts IH]; intros p; [by exists O|].
  unfold render. simpl flat_map. rewrite <- app_assoc. simpl app. fold (render ts).
  destruct (lex_step_render p t (render ts) Ht) as (c & s & p' & -> & Hstep).
  destruct (IH (advance p' SP)) as (fuel & Hf).
  exists (S (S fuel)). cbn [lex_loop]. rewrite Hstep. simpl. rewrite Hf. done.
Qed.

(** A printed token list is read back as it was. *)
Lemma tokenize_render ts : Forall token_wf ts → tokenize (render ts) = Some (Ok ts).
Proof.
  intros Hts. destruct (lex_loop_render ts (mkPos 1 1) Hts) as (fuel & Hf).
  destruct (tokenize_total (render ts)) as (r & Hr). rewrite Hr. unfold tokenize in Hr.
  pose proof (lex_loop_mono _ (max fuel (length (render ts))) _ _ _ Hf ltac:(lia)) as H1.
  pose proof (lex_loop_mono _ (max fuel (length (render ts))) _ _ _ Hr ltac:(lia)) as H2.
  congruence.
Qed.

(** Blank lines at the start of a [text:] literal are lost: the separator is
    only pushed once the content is not empty. *)
Lemma text_drops_leading_blank_lines :
  tokenize (lit "text:" ++ [LF; LF] ++ lit "a" ++ [LF; 46; LF]) = Some (Ok [StringLit (lit "a")]) ∧
  tokenize (lit "text:" ++ [LF] ++ lit "a" ++ [LF; 46; LF]) = Some (Ok [StringLit (lit "a")]).
Proof. by split; vm_refl. Qed.

End SieveLexer.
