(* ===== verification/SieveForm.v ===== *)
(** The Sieve form reader: [crates/sieve-native/src/form.rs].

    Recursive descent over the token list; a position is the list of tokens
    from there on.  The functions call each other, so they take fuel; reading a
    list of [n] tokens needs at most [2 * n + 2] units.  A canonical script
    printed as tokens, and as source text, is read back unchanged. *)

From S2P Require Import Prelude Bytes Utf8 Decimal SieveLexer.

Module SieveForm.
Import SieveLexer.

Inductive Form :=
| FWord (s : bytes)
| FTag (s : bytes)
| FStr (s : bytes)
| FNum (n : Z)
| FStringList (l : list bytes)
| FTestList (tests : list (list Form))
| FBlock (stmts : list (list Form)).

Definition Stmt : Type := list Form.
Definition Script : Type := list Stmt.

(** A computation that may run out of fuel ([None]) or fail with a
    [ParseError]. *)
Definition reading (A : Type) : Type := option (result ParseError A).

Definition read_ok {A} (a : A) : reading A := Some (Ok a).

(** Structural errors have no source location. *)
Definition read_err {A} (msg : bytes) : reading A := Some (Err (mkParseError msg 0 0)).

Definition and_then {A B} (m : reading A) (k : A → reading B) : reading B :=
  match m with
  | None => None
  | Some (Err e) => Some (Err e)
  | Some (Ok a) => k a
  end.

(** [token_char]. *)
Definition token_char (t : Token) : bytes :=
  match t with
  | LBracket => [91]
  | RBracket => [93]
  | LParen => [40]
  | RParen => [41]
  | LBrace => [123]
  | RBrace => [125]
  | Semicolon => [59]
  | Comma => [44]
  | _ => [63]
  end.

Definition is_clause (w : bytes) : bool :=
  bool_decide (w = lit "elsif") || bool_decide (w = lit "else").

(** After the opening bracket; [strings] ([list] in the source) and [expect_comma]
    are the locals of the loop. *)
Fixpoint read_string_list (strings : list bytes) (expect_comma : bool) (ts : list Token) :
    reading (list bytes * list Token) :=
  match ts with
  | [] => read_err (lit "unclosed '[' in string list")
  | RBracket :: ts' => read_ok (strings, ts')
  | Comma :: ts' =>
      if negb expect_comma then read_err (lit "unexpected ',' in string list")
      else read_string_list strings false ts'
  | StringLit s :: ts' =>
      if expect_comma then read_err (lit "expected ',' between string list elements")
      else read_string_list (strings ++ [s]) true ts'
  | other :: _ =>
      read_err (lit "non-string token '" ++ token_char other ++ lit "' inside string list")
  end.

(** The locals of each loop ([stmt], [tests], [stmts]) come first. *)
Fixpoint read_stmt (fuel : nat) (stmt : Stmt) (ts : list Token) : reading (Stmt * list Token) :=
  match fuel with
  | O => None
  | S n =>
      match ts with
      | [] =>
          match stmt with
          | [] => read_ok (stmt, [])
          | _ => read_err (lit "unexpected end of input in statement (missing ';'?)")
          end
      | Semicolon :: ts' => read_ok (stmt, ts')
      | Word s :: ts' => read_stmt n (stmt ++ [FWord s]) ts'
      | Tag s :: ts' => read_stmt n (stmt ++ [FTag s]) ts'
      | StringLit s :: ts' => read_stmt n (stmt ++ [FStr s]) ts'
      | Number x :: ts' => read_stmt n (stmt ++ [FNum x]) ts'
      | LBracket :: ts' =>
          and_then (read_string_list [] false ts')
            (λ '(l, ts''), read_stmt n (stmt ++ [FStringList l]) ts'')
      | LParen :: ts' =>
          and_then (read_test_list n [] ts')
            (λ '(l, ts''), read_stmt n (stmt ++ [FTestList l]) ts'')
      | LBrace :: ts' =>
          and_then (read_block n [] ts')
            (λ '(b, ts''), read_clauses n (stmt ++ [FBlock b]) ts'')
      | Comma :: _ => read_err (lit "unexpected ',' outside string list or test list")
      | t :: _ => read_err (lit "unexpected closing delimiter '" ++ token_char t ++ lit "'")
      end
  end
(** The loop that absorbs [elsif] and [else] clauses after a block. *)
with read_clauses (fuel : nat) (stmt : Stmt) (ts : list Token) : reading (Stmt * list Token) :=
  match fuel with
  | O => None
  | S n =>
      match ts with
      | Word w :: ts' =>
          if is_clause w then
            and_then (read_clause_forms n (stmt ++ [FWord w]) ts')
              (λ '(stmt', ts''), read_clauses n stmt' ts'')
          else read_ok (stmt, ts)
      | _ => read_ok (stmt, ts)
      end
  end
(** Its inner loop: the forms of one clause, up to and including the block. *)
with read_clause_forms (fuel : nat) (stmt : Stmt) (ts : list Token) : reading (Stmt * list Token) :=
  match fuel with
  | O => None
  | S n =>
      match ts with
      | LBrace :: ts' =>
          and_then (read_block n [] ts') (λ '(b, ts''), read_ok (stmt ++ [FBlock b], ts''))
      | Word s :: ts' => read_clause_forms n (stmt ++ [FWord s]) ts'
      | Tag s :: ts' => read_clause_forms n (stmt ++ [FTag s]) ts'
      | StringLit s :: ts' => read_clause_forms n (stmt ++ [FStr s]) ts'
      | Number x :: ts' => read_clause_forms n (stmt ++ [FNum x]) ts'
      | LBracket :: ts' =>
          and_then (read_string_list [] false ts')
            (λ '(l, ts''), read_clause_forms n (stmt ++ [FStringList l]) ts'')
      | LParen :: ts' =>
          and_then (read_test_list n [] ts')
            (λ '(l, ts''), read_clause_forms n (stmt ++ [FTestList l]) ts'')
      | _ => read_ok (stmt, ts)
      end
  end
with read_test_list (fuel : nat) (tests : list Stmt) (ts : list Token) :
    reading (list Stmt * list Token) :=
  match fuel with
  | O => None
  | S n =>
      match ts with
      | [] => read_err (lit "unclosed '(' in test list")
      | RParen :: ts' => read_ok (tests, ts')
      | _ =>
          and_then (read_test_stmt n [] ts) (λ '(test_stmt, ts'),
            match ts' with
            | [] => read_err (lit "unclosed '(' in test list")
            | Comma :: ts'' => read_test_list n (tests ++ [test_stmt]) ts''
            | RParen :: ts'' => read_ok (tests ++ [test_stmt], ts'')
            | _ => read_err (lit "expected ',' or ')' after test in test list")
            end)
      end
  end
with read_test_stmt (fuel : nat) (stmt : Stmt) (ts : list Token) : reading (Stmt * list Token) :=
  match fuel with
  | O => None
  | S n =>
      match ts with
      | [] =>
          match stmt with
          | [] => read_ok (stmt, [])
          | _ => read_err (lit "unexpected end of input in test expression")
          end
      | Comma :: _ | RParen :: _ => read_ok (stmt, ts)
      | Word s :: ts' => read_test_stmt n (stmt ++ [FWord s]) ts'
      | Tag s :: ts' => read_test_stmt n (stmt ++ [FTag s]) ts'
      | StringLit s :: ts' => read_test_stmt n (stmt ++ [FStr s]) ts'
      | Number x :: ts' => read_test_stmt n (stmt ++ [FNum x]) ts'
      | LBracket :: ts' =>
          and_then (read_string_list [] false ts')
            (λ '(l, ts''), read_test_stmt n (stmt ++ [FStringList l]) ts'')
      | LParen :: ts' =>
          and_then (read_test_list n [] ts')
            (λ '(l, ts''), read_test_stmt n (stmt ++ [FTestList l]) ts'')
      | LBrace :: ts' =>
          and_then (read_block n [] ts') (λ '(b, ts''), read_ok (stmt ++ [FBlock b], ts''))
      | Semicolon :: _ => read_err (lit "unexpected ';' inside test list")
      | t :: _ =>
          read_err (lit "unexpected closing delimiter '" ++ token_char t ++
                    lit "' inside test expression")
      end
  end
with read_block (fuel : nat) (stmts : list Stmt) (ts : list Token) :
    reading (list Stmt * list Token) :=
  match fuel with
  | O => None
  | S n =>
      match ts with
      | [] => read_err (lit "unclosed '{' — missing '}'")
      | RBrace :: ts' => read_ok (stmts, ts')
      | Semicolon :: ts' => read_block n stmts ts'
      | _ =>
          and_then (read_stmt n [] ts) (λ '(stmt, ts'),
            read_block n (match stmt with [] => stmts | _ => stmts ++ [stmt] end) ts')
      end
  end.

Fixpoint read_stmts (fuel : nat) (script : Script) (ts : list Token) : reading Script :=
  match fuel with
  | O => None
  | S n =>
      match ts with
      | [] => read_ok script
      | Semicolon :: ts' => read_stmts n script ts'
      | _ =>
          and_then (read_stmt n [] ts) (λ '(stmt, ts'),
            read_stmts n (match stmt with [] => script | _ => script ++ [stmt] end) ts')
      end
  end.

Definition read_fuel (ts : list Token) : nat := 2 * length ts + 2.

Definition read_script (ts : list Token) : reading Script := read_stmts (read_fuel ts) [] ts.

(** ** Reading terminates

    One proof for the six functions: with enough fuel there is a result, and
    what is left over is no longer than the input (shorter where the caller
    relies on it). *)

Definition shrinks {A} (m : reading (A * list Token)) (bound : nat) : Prop :=
  match m with
  | None => False
  | Some (Err _) => True
  | Some (Ok (_, ts')) => (length ts' <= bound)%nat
  end.

Lemma shrinks_then {A B} (m : reading (A * list Token)) (k : A * list Token → reading (B * list Token))
    bound bound' :
  shrinks m bound →
  (∀ a ts', (length ts' <= bound)%nat → shrinks (k (a, ts')) bound') →
  shrinks (and_then m k) bound'.
Proof. destruct m as [[[a ts']|e]|]; simpl; [|done|done]. auto. Qed.

Lemma shrinks_weaken {A} (m : reading (A * list Token)) b b' :
  shrinks m b → (b <= b')%nat → shrinks m b'.
Proof. destruct m as [[[a ts']|e]|]; simpl; [lia|done|done]. Qed.

Lemma read_string_list_shrinks acc b ts : shrinks (read_string_list acc b ts) (length ts - 1).
Proof.
  revert acc b. induction ts as [|t ts IH]; intros acc b; [done|].
  destruct t; simpl; try done; [destruct b; simpl; [done|]|lia|destruct b; simpl; [|done]];
    eapply shrinks_weaken; [apply IH|lia|apply IH|lia].
Qed.

Definition reads_within (n : nat) : Prop :=
  (∀ stmt ts, (2 * length ts + 1 <= n)%nat → shrinks (read_stmt n stmt ts) (length ts - 1)) ∧
  (∀ stmt ts, (2 * length ts + 1 <= n)%nat → shrinks (read_clauses n stmt ts) (length ts)) ∧
  (∀ stmt ts, (2 * length ts + 1 <= n)%nat → shrinks (read_clause_forms n stmt ts) (length ts)) ∧
  (∀ tests ts, (2 * length ts + 2 <= n)%nat → shrinks (read_test_list n tests ts) (length ts - 1)) ∧
  (∀ stmt ts, (2 * length ts + 1 <= n)%nat → shrinks (read_test_stmt n stmt ts) (length ts)) ∧
  (∀ stmts ts, (2 * length ts + 2 <= n)%nat → shrinks (read_block n stmts ts) (length ts - 1)).

(** Finish a branch from the induction hypotheses, for the tail calls, and from
    a bound on a sub-call otherwise. *)
Ltac tail_call := cbn [length] in *; eapply shrinks_weaken; [eauto with lia|simpl in *; lia].
Ltac sub_call := cbn [length] in *; eapply shrinks_then; [eauto using read_string_list_shrinks with lia|];
  simpl; intros ? ? ?.

Lemma reads_within_all n : reads_within n.
Proof.
  induction n as [|n (IH1 & IH2 & IH3 & IH4 & IH5 & IH6)]; [repeat split; intros; lia|].
  assert (Hlist := read_string_list_shrinks [] false).
  split_and!; intros x ts Hn;
    cbn [read_stmt read_clauses read_clause_forms read_test_list read_test_stmt read_block].
  - destruct ts as [|[] ts]; simpl in *; try done; try tail_call; [destruct x; simpl; [lia|done]|..];
      try lia; sub_call; tail_call.
  - destruct ts as [|[] ts]; simpl in *; try lia. destruct (is_clause s); [|simpl; lia].
    sub_call. tail_call.
  - destruct ts as [|[] ts]; simpl in *; try lia; try tail_call; sub_call; try tail_call. simpl; lia.
  - destruct ts as [|t ts]; [done|].
    assert (Hb : shrinks (and_then (read_test_stmt n [] (t :: ts)) (λ '(test_stmt, ts'),
      match ts' with
      | [] => read_err (lit "unclosed '(' in test list")
      | Comma :: ts'' => read_test_list n (x ++ [test_stmt]) ts''
      | RParen :: ts'' => read_ok (x ++ [test_stmt], ts'')
      | _ => read_err (lit "expected ',' or ')' after test in test list")
      end)) (length (t :: ts) - 1)).
    { eapply shrinks_then; [apply IH5; simpl in *; lia|]. intros a ts' Hts'.
      destruct ts' as [|[] ts']; simpl in *; try done; try lia. tail_call. }
    destruct t; try exact Hb. simpl. lia.
  - destruct ts as [|[] ts]; simpl in *; try done; try lia; try tail_call; [destruct x; simpl; [lia|done]|..];
      sub_call; try tail_call. simpl; lia.
  - destruct ts as [|t ts]; [done|].
    assert (Hb : shrinks (and_then (read_stmt n [] (t :: ts)) (λ '(stmt, ts'),
      read_block n (match stmt with [] => x | _ => x ++ [stmt] end) ts')) (length (t :: ts) - 1)).
    { eapply shrinks_then; [apply IH1; simpl in *; lia|]. intros a ts' Hts'. simpl in *. tail_call. }
    destruct t; try exact Hb; simpl in *; [lia|tail_call].
Qed.

Lemma read_stmts_total n script ts : (2 * length ts + 2 <= n)%nat → is_Some (read_stmts n script ts).
Proof.
  revert script ts. induction n as [|n IH]; intros script ts Hn; [lia|].
  destruct (reads_within_all n) as (H1 & _). cbn [read_stmts].
  destruct ts as [|t ts]; [by eexists|]. specialize (H1 [] (t :: ts)).
  assert (Hb : is_Some (and_then (read_stmt n [] (t :: ts)) (λ '(stmt, ts'),
    read_stmts n (match stmt with [] => script | _ => script ++ [stmt] end) ts'))).
  { simpl in Hn, H1. specialize (H1 ltac:(lia)). unfold and_then.
    destruct (read_stmt n [] (t :: ts)) as [[[a ts']|e]|]; simpl in *; [|by eexists|done].
    apply IH. lia. }
  destruct t; try exact Hb. apply IH. simpl in *. lia.
Qed.

(** The fuel [read_script] starts with is enough. *)
Lemma read_script_total ts : is_Some (read_script ts).
Proof. by apply read_stmts_total. Qed.

(** ** More fuel changes nothing *)

Definition le_reading {A} (m m' : reading A) : Prop := ∀ r, m = Some r → m' = Some r.

Lemma le_reading_refl {A} (m : reading A) : le_reading m m.
Proof. by intros r. Qed.

Lemma le_reading_none {A} (m : reading A) : le_reading None m.
Proof. by intros r. Qed.

Lemma le_reading_then {A B} (m m' : reading A) (k k' : A → reading B) :
  le_reading m m' → (∀ a, le_reading (k a) (k' a)) → le_reading (and_then m k) (and_then m' k').
Proof.
  intros Hm Hk r. unfold and_then. destruct m as [[a|e]|]; [|by rewrite (Hm _ eq_refl)|done].
  rewrite (Hm _ eq_refl). apply Hk.
Qed.

Create HintDb reading.
#[local] Hint Resolve le_reading_refl le_reading_none le_reading_then : reading.

Definition fuel_mono (n m : nat) : Prop :=
  (∀ stmt ts, le_reading (read_stmt n stmt ts) (read_stmt m stmt ts)) ∧
  (∀ stmt ts, le_reading (read_clauses n stmt ts) (read_clauses m stmt ts)) ∧
  (∀ stmt ts, le_reading (read_clause_forms n stmt ts) (read_clause_forms m stmt ts)) ∧
  (∀ tests ts, le_reading (read_test_list n tests ts) (read_test_list m tests ts)) ∧
  (∀ stmt ts, le_reading (read_test_stmt n stmt ts) (read_test_stmt m stmt ts)) ∧
  (∀ stmts ts, le_reading (read_block n stmts ts) (read_block m stmts ts)).

Ltac mono_branch := intros; repeat case_match; auto with reading.

Lemma fuel_mono_all n m : (n <= m)%nat → fuel_mono n m.
Proof.
  revert m. induction n as [|n IH]; intros m Hle.
  - split_and!; intros ? ?; apply le_reading_none.
  - destruct m as [|m]; [lia|]. destruct (IH m ltac:(lia)) as (H1 & H2 & H3 & H4 & H5 & H6).
    split_and!; intros x ts;
      cbn [read_stmt read_clauses read_clause_forms read_test_list read_test_stmt read_block];
      destruct ts as [|[] ts]; auto with reading;
      first [apply le_reading_then; [auto with reading|intros []; mono_branch]
            |destruct (is_clause _); [|apply le_reading_refl];
             apply le_reading_then; [auto|intros []; mono_branch]].
Qed.

Lemma read_stmts_mono n m script ts :
  (n <= m)%nat → le_reading (read_stmts n script ts) (read_stmts m script ts).
Proof.
  revert m script ts. induction n as [|n IH]; intros m script ts Hle; [apply le_reading_none|].
  destruct m as [|m]; [lia|]. destruct (fuel_mono_all n m ltac:(lia)) as (H1 & _).
  cbn [read_stmts]. destruct ts as [|[] ts]; auto with reading lia;
    (apply le_reading_then; [apply H1|intros []; apply IH; lia]).
Qed.

(** ** Printing *)

Fixpoint commas (l : list (list Token)) : list Token :=
  match l with
  | [] => []
  | [x] => x
  | x :: l' => x ++ Comma :: commas l'
  end.

(** A statement that ends with a block needs no semicolon. *)
Definition terminator (stmt : Stmt) : list Token :=
  match last stmt with Some (FBlock _) => [] | _ => [Semicolon] end.

Fixpoint print_form (f : Form) : list Token :=
  match f with
  | FWord s => [Word s]
  | FTag s => [Tag s]
  | FStr s => [StringLit s]
  | FNum n => [Number n]
  | FStringList l => LBracket :: commas (List.map (λ s, [StringLit s]) l) ++ [RBracket]
  | FTestList tests => LParen :: commas (List.map (λ t, flat_map print_form t) tests) ++ [RParen]
  | FBlock stmts =>
      LBrace :: flat_map (λ s, flat_map print_form s ++ terminator s) stmts ++ [RBrace]
  end.

Definition print_forms (fs : list Form) : list Token := flat_map print_form fs.
Definition print_stmt (stmt : Stmt) : list Token := print_forms stmt ++ terminator stmt.
Definition print_script (script : Script) : list Token := flat_map print_stmt script.

(** ** Canonical scripts

    Forms other than blocks; tests; statements, which are a list of forms or end
    with a block and its [elsif] and [else] clauses. *)

Definition not_clause (fs : list Form) : Prop :=
  match fs with FWord w :: _ => is_clause w = false | _ => True end.

Inductive form_ok : Form → Prop :=
| ok_word s : is_ident s → form_ok (FWord s)
| ok_tag s : is_ident s → form_ok (FTag s)
| ok_str s : form_ok (FStr s)
| ok_num n : in_u64 n → form_ok (FNum n)
| ok_string_list l : form_ok (FStringList l)
| ok_test_list tests : tests_ok tests → form_ok (FTestList tests)
with forms_ok : list Form → Prop :=
| ok_forms_nil : forms_ok []
| ok_forms_cons f fs : form_ok f → forms_ok fs → forms_ok (f :: fs)
with tests_ok : list Stmt → Prop :=
| ok_tests_nil : tests_ok []
| ok_tests_cons t tests : t ≠ [] → forms_ok t → tests_ok tests → tests_ok (t :: tests)
with stmt_ok : Stmt → Prop :=
| ok_simple fs : fs ≠ [] → not_clause fs → forms_ok fs → stmt_ok fs
| ok_blocked fs b cs :
    not_clause fs → forms_ok fs → block_ok b → clauses_ok cs → stmt_ok (fs ++ FBlock b :: cs)
with clauses_ok : list Form → Prop :=
| ok_clauses_nil : clauses_ok []
| ok_clauses_cons w fs b cs :
    is_clause w = true → forms_ok fs → block_ok b → clauses_ok cs →
    clauses_ok (FWord w :: fs ++ FBlock b :: cs)
with block_ok : list Stmt → Prop :=
| ok_block_nil : block_ok []
| ok_block_cons s ss : stmt_ok s → block_ok ss → block_ok (s :: ss).

Scheme form_ok_ind' := Induction for form_ok Sort Prop
  with forms_ok_ind' := Induction for forms_ok Sort Prop
  with tests_ok_ind' := Induction for tests_ok Sort Prop
  with stmt_ok_ind' := Induction for stmt_ok Sort Prop
  with clauses_ok_ind' := Induction for clauses_ok Sort Prop
  with block_ok_ind' := Induction for block_ok Sort Prop.
Combined Scheme script_ok_ind from form_ok_ind', forms_ok_ind', tests_ok_ind', stmt_ok_ind',
  clauses_ok_ind', block_ok_ind'.

Definition script_ok : Script → Prop := block_ok.

(** ** Reading back *)

(** The three loops that collect forms treat everything but blocks and
    terminators alike. *)
Inductive Loop := InStmt | InClause | InTest.

Definition read_forms (k : Loop) : nat → Stmt → list Token → reading (Stmt * list Token) :=
  match k with
  | InStmt => read_stmt
  | InClause => read_clause_forms
  | InTest => read_test_stmt
  end.

Lemma read_forms_mono k n m stmt ts :
  (n <= m)%nat → le_reading (read_forms k n stmt ts) (read_forms k m stmt ts).
Proof. intros Hle. destruct (fuel_mono_all n m Hle) as (? & ? & ? & ? & ? & ?). by destruct k. Qed.

Lemma read_string_list_commas acc l rest :
  read_string_list acc false (commas (List.map (λ s, [StringLit s]) l) ++ RBracket :: rest) =
    read_ok (acc ++ l, rest).
Proof.
  revert acc. induction l as [|s [|s' l] IH]; intros acc; [by rewrite app_nil_r|done|].
  simpl. simpl in IH. rewrite IH. by rewrite <- app_assoc.
Qed.

(** [f] prints to tokens that every loop turns back into [f]. *)
Definition form_reads (f : Form) : Prop := ∀ k stmt rest r n,
  read_forms k n (stmt ++ [f]) rest = Some r →
  ∃ m, read_forms k m stmt (print_form f ++ rest) = Some r.

Definition forms_read (fs : list Form) : Prop := ∀ k stmt rest r n,
  read_forms k n (stmt ++ fs) rest = Some r →
  ∃ m, read_forms k m stmt (print_forms fs ++ rest) = Some r.

Definition tests_read (tests : list Stmt) : Prop := ∀ acc rest,
  ∃ n, read_test_list n acc (commas (List.map print_forms tests) ++ RParen :: rest) =
       read_ok (acc ++ tests, rest).

Definition no_clause (ts : list Token) : Prop :=
  match ts with Word w :: _ => is_clause w = false | _ => True end.

Definition stmt_reads (s : Stmt) : Prop := ∀ rest,
  no_clause rest → ∃ n, read_stmt n [] (print_stmt s ++ rest) = read_ok (s, rest).

Definition clauses_read (cs : list Form) : Prop := ∀ stmt rest,
  no_clause rest → ∃ n, read_clauses n stmt (print_forms cs ++ rest) = read_ok (stmt ++ cs, rest).

Definition block_reads (b : list Stmt) : Prop := ∀ acc rest,
  ∃ n, read_block n acc (flat_map print_stmt b ++ RBrace :: rest) = read_ok (acc ++ b, rest).

(** One more round of a loop, on a token that is a form by itself. *)
Lemma form_reads_token f t :
  print_form f = [t] →
  (∀ k n stmt ts, read_forms k (S n) stmt (t :: ts) = read_forms k n (stmt ++ [f]) ts) →
  form_reads f.
Proof. intros Hp Ht k stmt rest r n Hn. exists (S n). rewrite Hp. simpl. by rewrite Ht. Qed.

Lemma form_reads_string_list l : form_reads (FStringList l).
Proof.
  intros k stmt rest r n Hn. exists (S n). simpl. rewrite <- app_assoc. simpl.
  destruct k; simpl; rewrite read_string_list_commas; exact Hn.
Qed.

Lemma form_reads_test_list tests : tests_read tests → form_reads (FTestList tests).
Proof.
  intros Ht k stmt rest r n Hn. destruct (Ht [] rest) as (m & Hm).
  exists (S (max n m)).
  destruct (fuel_mono_all m (max n m) ltac:(lia)) as (_ & _ & _ & H4 & _).
  apply H4 in Hm. simpl. rewrite <- app_assoc. simpl.
  pose proof (read_forms_mono k n (max n m) (stmt ++ [FTestList tests]) rest ltac:(lia) _ Hn) as Hk.
  unfold print_forms in Hm. destruct k; simpl in *; rewrite Hm; exact Hk.
Qed.

Lemma forms_read_cons f fs : form_reads f → forms_read fs → forms_read (f :: fs).
Proof.
  intros Hf Hfs k stmt rest r n Hn. unfold print_forms. simpl. rewrite <- app_assoc.
  destruct (Hfs k (stmt ++ [f]) rest r n) as (m & Hm); [by rewrite <- app_assoc|].
  by apply (Hf _ _ _ _ m).
Qed.

(** A printed form starts with a token that continues every loop. *)
Definition opens (t : Token) : bool :=
  match t with RBracket | RParen | RBrace | Semicolon | Comma => false | _ => true end.

Lemma print_form_opens f : ∃ t ts, print_form f = t :: ts ∧ opens t = true.
Proof. destruct f; simpl; eexists _, _; done. Qed.

Lemma print_forms_opens fs : fs ≠ [] → ∃ t ts, print_forms fs = t :: ts ∧ opens t = true.
Proof.
  destruct fs as [|f fs]; [done|]. intros _. destruct (print_form_opens f) as (t & ts & E & Ho).
  unfold print_forms. simpl. rewrite E. simpl. eauto.
Qed.

Lemma read_test_list_step n acc ts t rest :
  ts ≠ [] → forms_read ts → t = Comma ∨ t = RParen →
  ∃ m, ∀ m', (m <= m')%nat → read_test_list (S m') acc (print_forms ts ++ t :: rest) =
    match t with
    | Comma => read_test_list m' (acc ++ [ts]) rest
    | _ => read_ok (acc ++ [ts], rest)
    end ∧ (n <= m')%nat.
Proof.
  intros Hne Hts Ht.
  destruct (Hts InTest [] (t :: rest) (Ok (ts, t :: rest)) 1%nat) as (m & Hm).
  { destruct Ht as [->| ->]; done. }
  exists (max n m). intros m' Hle. split; [|lia].
  pose proof (read_forms_mono InTest m m' [] _ ltac:(lia) _ Hm) as Hm'. simpl in Hm'.
  destruct (print_forms_opens ts Hne) as (t0 & ts0 & E & Ho). rewrite E in *. simpl app in *.
  cbn [read_test_list]. destruct t0; try done; rewrite Hm'; by destruct Ht as [->| ->].
Qed.

Lemma tests_read_cons t tests :
  t ≠ [] → forms_read t → tests_read tests → tests_read (t :: tests).
Proof.
  intros Hne Ht Htests acc rest. destruct tests as [|t' tests].
  - destruct (read_test_list_step 0 acc t RParen rest Hne Ht ltac:(auto)) as (m & Hm).
    exists (S m). by destruct (Hm m ltac:(lia)) as [? _].
  - destruct (Htests (acc ++ [t]) rest) as (n & Hn).
    set (toks := commas (List.map print_forms (t' :: tests)) ++ RParen :: rest) in *.
    destruct (read_test_list_step n acc t Comma toks Hne Ht ltac:(auto)) as (m & Hm).
    exists (S (max n m)). destruct (Hm (max n m) ltac:(lia)) as [He _].
    assert (commas (List.map print_forms (t :: t' :: tests)) ++ RParen :: rest =
            print_forms t ++ Comma :: toks) as -> by (unfold toks; simpl; by rewrite <- app_assoc).
    rewrite He.
    destruct (fuel_mono_all n (max n m) ltac:(lia)) as (_ & _ & _ & H4 & _).
    rewrite (H4 _ _ _ Hn). by rewrite <- app_assoc.
Qed.

Lemma stmt_reads_simple fs :
  fs ≠ [] → forms_ok fs → forms_read fs → stmt_reads fs.
Proof.
  intros Hne Hok Hfs rest _. unfold print_stmt.
  assert (Ht : terminator fs = [Semicolon]).
  { clear -Hok. unfold terminator. destruct (last fs) as [f|] eqn:E; [|done].
    apply last_Some in E as (fs' & ->). induction fs' as [|f' fs' IH]; inversion Hok; subst; [|auto].
    by match goal with H : form_ok f |- _ => destruct H end. }
  rewrite Ht, <- app_assoc. apply (Hfs InStmt [] _ _ 1%nat). done.
Qed.

Lemma terminator_block fs b cs :
  clauses_ok cs → terminator (fs ++ FBlock b :: cs) = [].
Proof.
  intros Hcs. unfold terminator.
  assert (∃ b', last (FBlock b :: cs) = Some (FBlock b')) as (b' & Hb).
  { revert b. induction Hcs as [|w gs b1 cs Hw Hgs Hb1 Hcs IH]; intros b; [by exists b|].
    destruct (IH b1) as (b' & Hb'). exists b'.
    change (FBlock b :: FWord w :: gs ++ FBlock b1 :: cs)
      with ((FBlock b :: FWord w :: gs) ++ FBlock b1 :: cs).
    by rewrite last_app, Hb'. }
  by rewrite last_app, Hb.
Qed.

Lemma print_block b rest :
  print_form (FBlock b) ++ rest = LBrace :: flat_map print_stmt b ++ RBrace :: rest.
Proof. simpl. by rewrite <- app_assoc. Qed.

Lemma print_forms_app fs gs : print_forms (fs ++ gs) = print_forms fs ++ print_forms gs.
Proof. apply flat_map_app. Qed.

Lemma stmt_reads_blocked fs b cs :
  clauses_ok cs → forms_read fs → block_reads b → clauses_read cs →
  stmt_reads (fs ++ FBlock b :: cs).
Proof.
  intros Hok Hfs Hb Hcs rest Hrest. unfold print_stmt.
  rewrite (terminator_block _ _ _ Hok), app_nil_r, print_forms_app, <- app_assoc.
  change (print_forms (FBlock b :: cs)) with (print_form (FBlock b) ++ print_forms cs).
  rewrite <- app_assoc, print_block.
  destruct (Hb [] (print_forms cs ++ rest)) as (n & Hn).
  destruct (Hcs (fs ++ [FBlock b]) rest Hrest) as (m & Hm).
  apply (Hfs InStmt [] _ _ (S (max n m))).
  destruct (fuel_mono_all n (max n m) ltac:(lia)) as (_ & _ & _ & _ & _ & H6).
  destruct (fuel_mono_all m (max n m) ltac:(lia)) as (_ & H2 & _).
  apply H6 in Hn. apply H2 in Hm. simpl in *. rewrite Hn. simpl. rewrite Hm.
  by rewrite <- app_assoc.
Qed.

Lemma clauses_read_cons w fs b cs :
  is_clause w = true → forms_read fs → block_reads b → clauses_read cs →
  clauses_read (FWord w :: fs ++ FBlock b :: cs).
Proof.
  intros Hw Hfs Hb Hcs stmt rest Hrest.
  assert (print_forms (FWord w :: fs ++ FBlock b :: cs) ++ rest =
    Word w :: print_forms fs ++ LBrace :: flat_map print_stmt b ++ RBrace :: print_forms cs ++ rest) as ->.
  { rewrite <- print_block.
    change (print_forms (FWord w :: fs ++ FBlock b :: cs))
      with (Word w :: print_forms (fs ++ FBlock b :: cs)).
    rewrite print_forms_app.
    change (print_forms (FBlock b :: cs)) with (print_form (FBlock b) ++ print_forms cs).
    rewrite <- app_comm_cons. by rewrite <- !app_assoc. }
  destruct (Hb [] (print_forms cs ++ rest)) as (n & Hn).
  destruct (Hcs (stmt ++ FWord w :: fs ++ [FBlock b]) rest Hrest) as (m & Hm).
  destruct (Hfs InClause (stmt ++ [FWord w])
    (LBrace :: flat_map print_stmt b ++ RBrace :: print_forms cs ++ rest)
    (Ok (stmt ++ FWord w :: fs ++ [FBlock b], print_forms cs ++ rest)) (S n)) as (k & Hk).
  { simpl in *. rewrite Hn. simpl. unfold read_ok. by rewrite <- !app_assoc. }
  exists (S (max k m)). cbn [read_clauses]. rewrite Hw.
  destruct (fuel_mono_all k (max k m) ltac:(lia)) as (_ & _ & H3 & _).
  destruct (fuel_mono_all m (max k m) ltac:(lia)) as (_ & H2 & _).
  simpl in Hk. rewrite (H3 _ _ _ Hk). simpl. rewrite (H2 _ _ _ Hm).
  by rewrite <- !app_assoc, <- app_comm_cons, <- app_assoc.
Qed.

Lemma stmt_ok_no_clause s rest : stmt_ok s → no_clause (print_stmt s ++ rest).
Proof.
  assert (Hgen : ∀ fs ts, fs ≠ [] → not_clause fs → no_clause (print_forms fs ++ ts)).
  { intros [|f fs] ts Hne Hnc; [done|]. by destruct f. }
  intros [fs Hne Hnc _|fs b cs Hnc _ _ _]; unfold print_stmt; rewrite <- app_assoc.
  - auto.
  - destruct fs as [|f fs]; [done|]. apply Hgen; [done|]. by destruct f.
Qed.

Lemma print_stmt_opens s : stmt_ok s → ∃ t ts, print_stmt s = t :: ts ∧ opens t = true.
Proof.
  intros Hs. assert (Hne : s ≠ []) by (destruct Hs as [|[|] ?]; done).
  destruct (print_forms_opens s Hne) as (t & ts & E & Ho). unfold print_stmt. rewrite E. simpl. eauto.
Qed.

Lemma block_no_clause b rest :
  block_ok b → no_clause rest → no_clause (flat_map print_stmt b ++ rest).
Proof.
  intros [|s ss Hs _]; [done|]. simpl. rewrite <- app_assoc. intros _. by apply stmt_ok_no_clause.
Qed.

Lemma stmt_ok_nonempty s : stmt_ok s → s ≠ [].
Proof. by intros [|[|] ?]. Qed.

Lemma block_reads_cons s ss :
  stmt_ok s → block_ok ss → stmt_reads s → block_reads ss → block_reads (s :: ss).
Proof.
  intros Hok Hoks Hs Hss acc rest. simpl. rewrite <- app_assoc.
  destruct (Hss (acc ++ [s]) rest) as (n & Hn).
  destruct (Hs (flat_map print_stmt ss ++ RBrace :: rest)) as (m & Hm); [by apply block_no_clause|].
  exists (S (max n m)). cbn [read_block].
  destruct (fuel_mono_all n (max n m) ltac:(lia)) as (_ & _ & _ & _ & _ & H6).
  destruct (fuel_mono_all m (max n m) ltac:(lia)) as (H1 & _).
  apply H6 in Hn. apply H1 in Hm.
  destruct (print_stmt_opens s Hok) as (t & ts & E & Ho). rewrite E in *. simpl app in *.
  pose proof (stmt_ok_nonempty s Hok) as Hne.
  destruct t; try done; rewrite Hm; simpl; (destruct s as [|f s]; [done|]);
    rewrite Hn; by rewrite <- app_assoc.
Qed.

Lemma canonical_reads :
  (∀ f, form_ok f → form_reads f) ∧ (∀ fs, forms_ok fs → forms_read fs) ∧
  (∀ tests, tests_ok tests → tests_read tests) ∧ (∀ s, stmt_ok s → stmt_reads s) ∧
  (∀ cs, clauses_ok cs → clauses_read cs) ∧ (∀ b, block_ok b → block_reads b).
Proof.
  apply script_ok_ind; intros.
  - by apply (form_reads_token _ (Word s)); [|intros []].
  - by apply (form_reads_token _ (Tag s)); [|intros []].
  - by apply (form_reads_token _ (StringLit s)); [|intros []].
  - by apply (form_reads_token _ (Number n)); [|intros []].
  - apply form_reads_string_list.
  - by apply form_reads_test_list.
  - intros k stmt rest r n Hn. exists n. by rewrite app_nil_r in Hn.
  - by apply forms_read_cons.
  - intros acc rest. exists 1%nat. simpl. by rewrite app_nil_r.
  - by apply tests_read_cons.
  - by apply stmt_reads_simple.
  - by apply stmt_reads_blocked.
  - intros stmt rest Hrest. exists 1%nat. rewrite app_nil_r. simpl.
    destruct rest as [|[] rest]; try done. simpl in Hrest. by rewrite Hrest.
  - by apply clauses_read_cons.
  - intros acc rest. exists 1%nat. simpl. by rewrite app_nil_r.
  - by apply block_reads_cons.
Qed.

Lemma read_stmts_canonical script : block_ok script → ∀ acc,
  ∃ n, read_stmts n acc (print_script script) = read_ok (acc ++ script).
Proof.
  induction 1 as [|s ss Hs Hss IH]; intros acc; [exists 1%nat; by rewrite app_nil_r|].
  destruct (IH (acc ++ [s])) as (n & Hn).
  destruct canonical_reads as (_ & _ & _ & Hread & _ & _).
  destruct (Hread s Hs (print_script ss)) as (m & Hm).
  { rewrite <- (app_nil_r (print_script ss)). by apply block_no_clause. }
  exists (S (max n m)). unfold print_script in *. cbn [flat_map read_stmts].
  destruct (fuel_mono_all m (max n m) ltac:(lia)) as (H1 & _). apply H1 in Hm.
  apply (read_stmts_mono n (max n m) _ _ ltac:(lia)) in Hn.
  destruct (print_stmt_opens s Hs) as (t & ts & E & Ho). rewrite E in *. simpl app in *.
  pose proof (stmt_ok_nonempty s Hs) as Hne.
  destruct t; try done; rewrite Hm; simpl; (destruct s as [|f s]; [done|]);
    rewrite Hn; by rewrite <- app_assoc.
Qed.

Lemma read_script_print script : script_ok script → read_script (print_script script) = read_ok script.
Proof.
  intros Hok. destruct (read_stmts_canonical script Hok []) as (n & Hn).
  destruct (read_script_total (print_script script)) as (r & Hr). rewrite Hr. unfold read_script in Hr.
  set (f := read_fuel (print_script script)) in *.
  apply (read_stmts_mono n (max n f) _ _ ltac:(lia)) in Hn.
  apply (read_stmts_mono f (max n f) _ _ ltac:(lia)) in Hr. rewrite Hn in Hr. by injection Hr as <-.
Qed.

Lemma is_clause_cases w : is_clause w = true → w = lit "elsif" ∨ w = lit "else".
Proof. unfold is_clause. rewrite orb_true_iff, !bool_decide_eq_true. tauto. Qed.

Lemma commas_wf l : Forall (Forall token_wf) l → Forall token_wf (commas l).
Proof.
  induction 1 as [|x l Hx Hl IH]; [constructor|]. destruct l as [|y l]; [done|].
  cbn [commas]. apply Forall_app. split; [done|]. by constructor.
Qed.

Lemma terminator_wf s : Forall token_wf (terminator s).
Proof. unfold terminator. repeat case_match; repeat constructor. Qed.

Lemma flat_map_wf {A} (f : A → list Token) l :
  Forall (λ x, Forall token_wf (f x)) l → Forall token_wf (flat_map f l).
Proof. induction 1; simpl; [constructor|]. apply Forall_app. auto. Qed.

Lemma canonical_tokens_wf :
  (∀ f, form_ok f → Forall token_wf (print_form f)) ∧
  (∀ fs, forms_ok fs → Forall token_wf (print_forms fs)) ∧
  (∀ tests, tests_ok tests → Forall (λ t, Forall token_wf (print_forms t)) tests) ∧
  (∀ s, stmt_ok s → Forall token_wf (print_forms s)) ∧
  (∀ cs, clauses_ok cs → Forall token_wf (print_forms cs)) ∧
  (∀ b, block_ok b → Forall (λ s, Forall token_wf (print_stmt s)) b).
Proof.
  assert (Hblock : ∀ b, Forall (λ s, Forall token_wf (print_stmt s)) b →
    Forall token_wf (print_form (FBlock b))).
  { intros b Hb. simpl. constructor; [done|]. apply Forall_app. split; [|by repeat constructor].
    by apply flat_map_wf. }
  apply script_ok_ind; intros.
  - by apply Forall_singleton.
  - by apply Forall_singleton.
  - by apply Forall_singleton.
  - by apply Forall_singleton.
  - simpl. constructor; [done|]. apply Forall_app. split; [|by repeat constructor].
    apply commas_wf, Forall_fmap, Forall_true. by repeat constructor.
  - simpl. constructor; [done|]. apply Forall_app. split; [|by repeat constructor].
    by apply commas_wf, Forall_fmap.
  - constructor.
  - unfold print_forms. simpl. apply Forall_app. auto.
  - constructor.
  - by constructor.
  - done.
  - rewrite print_forms_app. apply Forall_app. split; [done|].
    change (print_forms (FBlock b :: cs)) with (print_form (FBlock b) ++ print_forms cs).
    apply Forall_app. auto.
  - constructor.
  - change (print_forms (FWord w :: fs ++ FBlock b :: cs))
      with ([Word w] ++ print_forms (fs ++ FBlock b :: cs)).
    apply Forall_app. split.
    { apply Forall_singleton. destruct (is_clause_cases w) as [->| ->]; try done; split; try done;
        apply forallb_spec; vm_compute; reflexivity. }
    rewrite print_forms_app. apply Forall_app. split; [done|].
    change (print_forms (FBlock b :: cs)) with (print_form (FBlock b) ++ print_forms cs).
    apply Forall_app. auto.
  - constructor.
  - constructor; [|done]. unfold print_stmt. apply Forall_app. split; [done|apply terminator_wf].
Qed.

(** The source text of a script, and [lexer::tokenize] followed by
    [form::read_script]. *)
Definition print_source (script : Script) : bytes := render (print_script script).

Definition parse_source (src : bytes) : reading Script := and_then (tokenize src) read_script.

(** A canonical script printed as source text is lexed and parsed back to
    exactly itself, with the fuel the two functions start with. *)
Theorem source_roundtrip script :
  script_ok script → parse_source (print_source script) = Some (Ok script).
Proof.
  intros Hok. unfold parse_source, print_source. rewrite tokenize_render.
  - by apply read_script_print.
  - destruct canonical_tokens_wf as (_ & _ & _ & _ & _ & Hb). by apply flat_map_wf, Hb.
Qed.

Lemma parse_source_total src : is_Some (parse_source src).
Proof.
  unfold parse_source. destruct (tokenize_total src) as ([ts|e] & ->); simpl; [|by eexists].
  apply read_script_total.
Qed.

Module FormSamples.

Definition W (s : string) : Form := FWord (lit s).

Definition sample : Script :=
  [[W "require"; FStringList [lit "fileinto"; lit "variables"]];
   [W "if"; W "anyof"; FTestList [[W "header"; FTag (lit "is"); FStr (lit "X"); FStr [34; 92]];
                                  [W "size"; FTag (lit "over"); FNum 2048]];
    FBlock [[W "fileinto"; FStr (lit "a")]; [W "stop"]];
    W "elsif"; W "true"; FBlock [];
    W "else"; FBlock [[W "discard"]]];
   [W "keep"]].

Lemma sample_ok : script_ok sample.
Proof.
  assert (Hw : ∀ s, match lit s with c :: s' => ident_start c && forallb ident_char s' | [] => false end = true →
                    is_ident (lit s)).
  { intros s. unfold is_ident. destruct (lit s) as [|c l]; [done|]. intros H. to_prop.
    split; [done|by apply forallb_spec]. }
  assert (Hform : ∀ s, match lit s with c :: s' => ident_start c && forallb ident_char s' | [] => false end = true →
                       form_ok (W s)) by (intros; by apply ok_word, Hw).
  assert (Htag : ∀ s, match lit s with c :: s' => ident_start c && forallb ident_char s' | [] => false end = true →
                      form_ok (FTag (lit s))) by (intros; by apply ok_tag, Hw).
  apply ok_block_cons; [apply ok_simple; [done|hnf; vm_refl|]|].
  { repeat apply ok_forms_cons; [apply Hform; vm_refl|apply ok_string_list|constructor]. }
  apply ok_block_cons; [|apply ok_block_cons; [apply ok_simple; [done|hnf; vm_refl|]|constructor]].
  2: { repeat apply ok_forms_cons; [apply Hform; vm_refl|constructor]. }
  apply (ok_blocked [_; _; _] _ [_; _; _; _; _]); [hnf; vm_refl|..].
  - repeat apply ok_forms_cons; try (apply Hform; vm_refl); [|constructor].
    apply ok_test_list. apply ok_tests_cons; [done| |apply ok_tests_cons; [done| |constructor]];
      repeat apply ok_forms_cons; try (apply Hform; vm_refl); try (apply Htag; vm_refl); try constructor.
    split; [done|by apply Z.leb_le; vm_compute].
  - apply ok_block_cons; [|apply ok_block_cons; [|constructor]]; apply ok_simple; try done; try (hnf; vm_refl);
      repeat apply ok_forms_cons; try (apply Hform; vm_refl); constructor.
  - apply (ok_clauses_cons _ [_] _ [_; _]); [vm_refl| |constructor|].
    + repeat apply ok_forms_cons; [apply Hform; vm_refl|constructor].
    + apply (ok_clauses_cons _ [] _ []); [vm_refl|constructor| |constructor].
      apply ok_block_cons; [|constructor]. apply ok_simple; [done|hnf; vm_refl|].
      repeat apply ok_forms_cons; [apply Hform; vm_refl|constructor].
Qed.

Lemma source_roundtrip_witness : parse_source (print_source sample) = Some (Ok sample).
Proof. exact (source_roundtrip sample sample_ok). Defined.

End FormSamples.

End SieveForm.
