(* ===== verification/SieveMatch.v ===== *)
(** Strings and messages as Sieve tests see them:
    [crates/sieve-native/src/message.rs] and the matching helpers of
    [evaluator.rs] (lines 42 to 51 and 485 to 657).

    [fancy_regex] and the Unicode tables are parameters ([SieveLib]).  Glob
    patterns are translated to regular expressions; with the documented meaning
    of the few constructs the translation uses ([GlobLaws]) a [:matches] test
    accepts exactly the strings the pattern describes.  The per-thread cache of
    compiled expressions is shown to be invisible. *)

From S2P Require Import Prelude Bytes Utf8 Decimal SieveLexer.

Module SieveMatch.
Import Utf8 Decimal.

(** ** Message headers *)

Definition AT : Z := 64.
Definition LT : Z := 60.
Definition GT : Z := 62.

(** The last occurrence: [rfind] and the two slices around it. *)
Definition rsplit_once (c : Z) (s : bytes) : option (bytes * bytes) :=
  match split_once c (rev s) with
  | Some (a, b) => Some (rev b, rev a)
  | None => None
  end.

(** [last.1.push_str(line)] on [headers.last_mut()]. *)
Definition push_last (headers : list (bytes * bytes)) (line : bytes) : list (bytes * bytes) :=
  match rev headers with
  | (name, value) :: before => rev before ++ [(name, value ++ line)]
  | [] => []
  end.

Fixpoint header_lines (headers : list (bytes * bytes)) (lines : list bytes) : list (bytes * bytes) :=
  match lines with
  | [] => headers
  | l :: rest =>
      let line := default l (strip_suffix [CR] l) in
      if bool_decide (line = []) then headers
      else if starts_with line [SP] || starts_with line [HT] then
        header_lines (push_last headers line) rest
      else
        match split_once SieveLexer.COLON line with
        | Some (before, after) =>
            let name := to_ascii_lowercase (trim before) in
            header_lines (if bool_decide (name = []) then headers else headers ++ [(name, trim after)]) rest
        | None => header_lines headers rest
        end
  end.

Definition extract_headers (raw : bytes) : list (bytes * bytes) :=
  header_lines [] (split LF (from_utf8_lossy raw)).

(** The search for the rightmost [<...>] that holds an [@]; [None] when the
    loop is left without one. *)
Fixpoint bare_loop (fuel : nat) (rest : bytes) : option bytes :=
  match fuel with
  | O => None
  | S n =>
      match rsplit_once GT rest with
      | None => None
      | Some (prefix, _) =>
          match rsplit_once LT prefix with
          | None => None
          | Some (before, inner) =>
              if contains AT inner then Some (trim inner) else bare_loop n before
          end
      end
  end.

(** Every round drops two bytes at least, so the length is fuel enough
    ([bare_loop_fuel]). *)
Definition bare_address (addr0 : bytes) : bytes :=
  let addr := trim addr0 in default addr (bare_loop (S (length addr)) addr).

Definition address_part (addr part : bytes) : bytes :=
  let bare := bare_address addr in
  if bool_decide (part = lit "localpart") then
    match rsplit_once AT bare with Some (l, _) => l | None => [] end
  else if bool_decide (part = lit "domain") then
    match rsplit_once AT bare with Some (_, d) => d | None => [] end
  else bare.

Lemma split_once_length c s a b : split_once c s = Some (a, b) → length s = S (length a + length b).
Proof. intros (-> & _)%split_once_Some. rewrite length_app. simpl. lia. Qed.

Lemma rsplit_once_Some c s a b : rsplit_once c s = Some (a, b) ↔ s = a ++ c :: b ∧ c ∉ b.
Proof.
  unfold rsplit_once. destruct (split_once c (rev s)) as [[x y]|] eqn:E; split.
  - intros [= <- <-]. apply split_once_Some in E as (E & Hx).
    split; [|by rewrite list_elem_of_In, <- in_rev, <- list_elem_of_In].
    rewrite <- (rev_involutive s), E, rev_app_distr. simpl. by rewrite <- app_assoc.
  - intros (-> & Hb). apply split_once_Some in E as (E & Hx). revert E.
    rewrite rev_app_distr. simpl. rewrite <- app_assoc. simpl. intros E.
    apply sep_inj in E as [<- <-]; [by rewrite !rev_involutive| |done].
    by rewrite list_elem_of_In, <- in_rev, <- list_elem_of_In.
  - done.
  - intros (-> & Hb). revert E. rewrite rev_app_distr. simpl. rewrite <- app_assoc. simpl.
    intros E. exfalso. assert (Hs : split_once c (rev b ++ c :: rev a) = Some (rev b, rev a)); [|congruence].
    apply split_once_Some. split; [done|]. by rewrite list_elem_of_In, <- in_rev, <- list_elem_of_In.
Qed.

Lemma bare_loop_fuel n m rest : (length rest < n)%nat → (length rest < m)%nat →
  bare_loop n rest = bare_loop m rest.
Proof.
  revert m rest. induction n as [|n IH]; intros m rest Hn Hm; [lia|]. destruct m as [|m]; [lia|].
  cbn [bare_loop]. destruct (rsplit_once GT rest) as [[p q]|] eqn:E1; [|done].
  destruct (rsplit_once LT p) as [[b i]|] eqn:E2; [|done]. destruct (contains AT i); [done|].
  apply rsplit_once_Some in E1 as (E1 & _). apply rsplit_once_Some in E2 as (E2 & _).
  apply (f_equal length) in E1, E2. rewrite length_app in E1, E2. simpl in E1, E2. apply IH; lia.
Qed.

(** ** Characters *)

(** The bytes of each [char] of a string: a continuation byte belongs to the
    byte before it. *)
Definition add_byte (c : Z) (acc : list bytes) : list bytes :=
  match acc with
  | (b :: g) :: gs => if is_continuation b then (c :: b :: g) :: gs else [c] :: acc
  | _ => [c] :: acc
  end.

Definition chars (s : bytes) : list bytes := foldr add_byte [] s.

Lemma concat_chars s : concat (chars s) = s.
Proof.
  induction s as [|c s IH]; [done|]. simpl. unfold add_byte.
  destruct (chars s) as [|[|b g] gs]; simpl in *; [by subst|by subst|].
  destruct (is_continuation b); simpl; by rewrite IH.
Qed.

Lemma utf8_head s b s' : is_utf8 s = true → s = b :: s' → is_continuation b = false.
Proof.
  intros Hu ->. cbn [is_utf8] in Hu. unfold is_continuation, lead2, lead3, lead4 in *.
  apply andb_false_iff. destruct (b <? 128) eqn:H0; to_prop; [left; apply Z.leb_gt; lia|].
  destruct (194 <=? b) eqn:H1; to_prop; [right; apply Z.leb_gt; lia|]. simpl in Hu.
  destruct (224 <=? b) eqn:H2; to_prop; [lia|]. simpl in Hu.
  destruct (240 <=? b) eqn:H3; to_prop; [lia|]. done.
Qed.

Lemma chars_cons c s :
  match s with b :: _ => is_continuation b = false | [] => True end → chars (c :: s) = [c] :: chars s.
Proof.
  destruct s as [|b s]; [done|]. intros Hb. simpl. unfold add_byte at 1 3.
  assert (Hc : ∃ g gs, add_byte b (chars s) = (b :: g) :: gs).
  { unfold add_byte. destruct (chars s) as [|[|d g] gs]; eauto. destruct (is_continuation d); eauto. }
  destruct Hc as (g & gs & Hc). fold (add_byte b (chars s)). rewrite Hc. by rewrite Hb.
Qed.

Lemma chars_join c b g gs s :
  is_continuation b = true → chars (b :: s) = (b :: g) :: gs → chars (c :: b :: s) = (c :: b :: g) :: gs.
Proof. intros Hb Hc. change (chars (c :: b :: s)) with (add_byte c (chars (b :: s))). rewrite Hc. simpl. by rewrite Hb. Qed.

Definition one_char (c : bytes) : Prop := is_utf8 c = true ∧ chars c = [c].

Definition starts_char (s : bytes) : Prop :=
  match s with b :: _ => is_continuation b = false | [] => True end.

Lemma utf8_starts_char s : is_utf8 s = true → starts_char s.
Proof. destruct s as [|b s]; [done|]. intros H. by apply (utf8_head (b :: s) b s). Qed.

Lemma second_ok_continuation b0 b1 : second_ok b0 b1 = true → is_continuation b1 = true.
Proof. unfold second_ok. intros H. by to_prop. Qed.

(** A string with a multi-byte character in front: the continuation bytes stay
    with it. *)
Lemma chars_multi c conts s :
  Forall (λ b, is_continuation b = true) conts → starts_char s →
  chars (c :: conts ++ s) = (c :: conts) :: chars s.
Proof.
  intros Hc Hs. revert c. induction Hc as [|b conts Hb Hc IH]; intros c; [by apply chars_cons|].
  simpl app. by apply chars_join.
Qed.

Lemma utf8_chars_ok s : is_utf8 s = true → Forall one_char (chars s).
Proof.
  induction s as [s IH] using (induction_ltof1 _ length). unfold ltof in IH. intros Hu.
  destruct s as [|b0 s1]; [constructor|].
  assert (Hstep : ∀ conts s', s1 = conts ++ s' → Forall (λ b, is_continuation b = true) conts →
    is_utf8 s' = true → is_utf8 (b0 :: conts) = true → Forall one_char (chars (b0 :: s1))).
  { intros conts s' -> Hc Hs' Hb. rewrite chars_multi by (try done; by apply utf8_starts_char).
    constructor; [|apply IH; [simpl; rewrite length_app; lia|done]].
    split; [done|]. rewrite <- (app_nil_r conts) at 1. by rewrite chars_multi. }
  cbn [is_utf8] in Hu. destruct (b0 <? 128) eqn:H0.
  { apply (Hstep [] s1); try done. cbn [is_utf8]. by rewrite H0. }
  destruct (lead2 b0) eqn:H2.
  { destruct s1 as [|b1 s2]; [done|]. apply andb_true_iff in Hu as [Hc1 Hu]. apply (Hstep [b1] s2); try done.
    - by repeat constructor.
    - cbn [is_utf8]. by rewrite H0, H2, Hc1. }
  destruct (lead3 b0) eqn:H3.
  { destruct s1 as [|b1 [|b2 s3]]; try done. rewrite !andb_true_iff in Hu.
    destruct Hu as [[Hc1 Hc2] Hu]. apply (Hstep [b1; b2] s3); try done.
    - repeat constructor; [by eapply second_ok_continuation|done].
    - cbn [is_utf8]. by rewrite H0, H2, H3, Hc1, Hc2. }
  destruct (lead4 b0) eqn:H4; [|done].
  destruct s1 as [|b1 [|b2 [|b3 s4]]]; try done. rewrite !andb_true_iff in Hu.
  destruct Hu as [[[Hc1 Hc2] Hc3] Hu]. apply (Hstep [b1; b2; b3] s4); try done.
  - repeat constructor; try done. by eapply second_ok_continuation.
  - cbn [is_utf8]. by rewrite H0, H2, H3, H4, Hc1, Hc2, Hc3.
Qed.

Lemma chars_app a b : starts_char b → chars (a ++ b) = chars a ++ chars b.
Proof.
  intros Hb. induction a as [|c a IH]; [done|].
  destruct a as [|d a]; [by apply chars_cons|].
  change (chars ((c :: d :: a) ++ b)) with (add_byte c (chars ((d :: a) ++ b))).
  change (chars (c :: d :: a)) with (add_byte c (chars (d :: a))). rewrite IH.
  pose proof (concat_chars (d :: a)) as Hc. destruct (chars (d :: a)) as [|[|e g] gs]; [done|done|].
  simpl. by destruct (is_continuation e).
Qed.

(** ** Regular expressions *)

Class SieveLib := {
  (** [fancy_regex]: a failed compilation or execution is [None]. *)
  Regex : Type;
  regex_new : bytes → option Regex;
  regex_is_match : Regex → bytes → option bool;
  regex_captures : Regex → bytes → option (option (list (option bytes)));
  regex_escape : bytes → bytes;
  (** Equality of characters, and under [(?i)]. *)
  char_eq : bool → bytes → bytes → bool;
  (** [str::to_lowercase]. *)
  to_lowercase : bytes → bytes;
}.

Section Match.
Context {lib : SieveLib}.

Definition case_flag (casemap : bool) : bytes := if casemap then lit "(?i)" else [].

Definition BACKSLASH_CHAR : bytes := [SieveLexer.BACKSLASH].
Definition STAR_CHAR : bytes := [SieveLexer.STAR].
Definition QUESTION_CHAR : bytes := [63].

(** The loop of [sieve_glob_to_regex_capturing] over the characters. *)
Fixpoint glob_body (cs : list bytes) : bytes * nat :=
  match cs with
  | [] => ([], O)
  | ch :: cs' =>
      if bool_decide (ch = BACKSLASH_CHAR) then
        match cs' with
        | next :: cs'' =>
            let '(out, stars) := glob_body cs'' in
            if bool_decide (next = STAR_CHAR) || bool_decide (next = QUESTION_CHAR)
            then (regex_escape next ++ out, stars)
            else (regex_escape ch ++ regex_escape next ++ out, stars)
        | [] => (regex_escape BACKSLASH_CHAR, O)
        end
      else
        let '(out, stars) := glob_body cs' in
        if bool_decide (ch = STAR_CHAR) then (lit "(.*)" ++ out, S stars)
        else if bool_decide (ch = QUESTION_CHAR) then (lit "." ++ out, stars)
        else (regex_escape ch ++ out, stars)
  end.

Definition sieve_glob_to_regex_capturing (pattern : bytes) : bytes * nat :=
  let '(out, star_count) := glob_body (chars pattern) in
  (lit "(?s)\A" ++ out ++ lit "\z", star_count).

(** Compile and run; errors are logged and count as no match. *)
Definition matches_regex_pat (value anchored : bytes) (casemap : bool) : bool :=
  match regex_new (case_flag casemap ++ anchored) with
  | None => false
  | Some re => default false (regex_is_match re value)
  end.

Definition str_matches_glob (value pattern : bytes) (casemap : bool) : bool :=
  matches_regex_pat value (sieve_glob_to_regex_capturing pattern).1 casemap.

(** [caps.get(i).map(|m| m.as_str()).unwrap_or(_)] *)
Definition group (caps : list (option bytes)) (i : nat) : bytes :=
  default [] (default None (caps !! i)).

(** The captured variables [0], [1], ... [star_count]. *)
Definition capture_vars (caps : list (option bytes)) (star_count : nat) : gmap bytes bytes :=
  foldl (λ m i, <[ to_decimal (Z.of_nat i) := group caps i ]> m) ∅ (seq 0 (S star_count)).

(** [Some] with the captured variables on a match. *)
Definition str_matches_glob_captures (value pattern : bytes) (casemap : bool) :
    option (gmap bytes bytes) :=
  let '(regex_pat, star_count) := sieve_glob_to_regex_capturing pattern in
  match regex_new (case_flag casemap ++ regex_pat) with
  | None => None
  | Some re =>
      match regex_captures re value with
      | Some (Some caps) => Some (capture_vars caps star_count)
      | _ => None
      end
  end.

Definition anchor (pattern : bytes) : bytes := lit "(?s)\A(?:" ++ pattern ++ lit ")\z".

Definition str_matches_regex (value pattern : bytes) (casemap : bool) : bool :=
  matches_regex_pat value (anchor pattern) casemap.

Definition str_is (a b : bytes) (casemap : bool) : bool :=
  if casemap then eq_ignore_ascii_case a b else bool_decide (a = b).

(** [haystack.windows(n).any(|w| w.eq_ignore_ascii_case(needle))]. *)
Fixpoint any_window (hay needle : bytes) : bool :=
  if (length hay <? length needle)%nat then false
  else eq_ignore_ascii_case (take (length needle) hay) needle ||
       match hay with [] => false | _ :: hay' => any_window hay' needle end.

Definition str_contains (haystack needle : bytes) (casemap : bool) : bool :=
  if casemap then
    if bool_decide (needle = []) then true else any_window haystack needle
  else contains_seq haystack needle.

Inductive MatchType := Is | Contains | Matches | RegexMatch.

Definition apply_match (value key : bytes) (mt : MatchType) (casemap : bool) : bool :=
  match mt with
  | Is => str_is value key casemap
  | Contains => str_contains value key casemap
  | Matches => str_matches_glob value key casemap
  | RegexMatch => str_matches_regex value key casemap
  end.

(** ** What a glob pattern means *)

Inductive Piece := PChar (c : bytes) | PAny | PStar.

(** RFC 5228, 2.7.1: a backslash takes the meaning from a wildcard. *)
Fixpoint glob_parse (cs : list bytes) : list Piece :=
  match cs with
  | [] => []
  | ch :: cs' =>
      if bool_decide (ch = BACKSLASH_CHAR) then
        match cs' with
        | next :: cs'' =>
            if bool_decide (next = STAR_CHAR) || bool_decide (next = QUESTION_CHAR)
            then PChar next :: glob_parse cs''
            else PChar ch :: PChar next :: glob_parse cs''
        | [] => [PChar ch]
        end
      else if bool_decide (ch = STAR_CHAR) then PStar :: glob_parse cs'
      else if bool_decide (ch = QUESTION_CHAR) then PAny :: glob_parse cs'
      else PChar ch :: glob_parse cs'
  end.

Inductive glob_matches (eqc : bytes → bytes → bool) : list Piece → list bytes → Prop :=
| gm_nil : glob_matches eqc [] []
| gm_char p c ps cs :
    eqc p c = true → glob_matches eqc ps cs → glob_matches eqc (PChar p :: ps) (c :: cs)
| gm_any c ps cs : glob_matches eqc ps cs → glob_matches eqc (PAny :: ps) (c :: cs)
| gm_star taken ps cs : glob_matches eqc ps cs → glob_matches eqc (PStar :: ps) (taken ++ cs).

(** The same, as a search that gives each star as much as it can, from the
    left, and returns what the stars took. *)
Fixpoint glob_captures (eqc : bytes → bytes → bool) (ps : list Piece) (cs : list bytes) :
    option (list bytes) :=
  match ps with
  | [] => match cs with [] => Some [] | _ => None end
  | PChar p :: ps' =>
      match cs with
      | c :: cs' => if eqc p c then glob_captures eqc ps' cs' else None
      | [] => None
      end
  | PAny :: ps' => match cs with _ :: cs' => glob_captures eqc ps' cs' | [] => None end
  | PStar :: ps' =>
      (fix longest (k : nat) : option (list bytes) :=
         match glob_captures eqc ps' (drop k cs) with
         | Some caps => Some (concat (take k cs) :: caps)
         | None => match k with O => None | S k' => longest k' end
         end) (length cs)
  end.

(** ** The regular expressions of the translation *)

Definition piece_regex (p : Piece) : bytes :=
  match p with PChar c => regex_escape c | PAny => lit "." | PStar => lit "(.*)" end.

Definition glob_regex (ps : list Piece) : bytes :=
  lit "(?s)\A" ++ flat_map piece_regex ps ++ lit "\z".

Definition piece_ok (p : Piece) : Prop := match p with PChar c => one_char c | _ => True end.

Fixpoint stars (ps : list Piece) : nat :=
  match ps with
  | [] => O
  | PStar :: ps' => S (stars ps')
  | _ :: ps' => stars ps'
  end.

(** Documented meaning of an anchored sequence of escaped characters, [.] under
    [(?s)] and greedy groups that repeat it: such an expression compiles, has no
    construct that could exceed a backtracking limit, and prefers longer matches
    for the groups on the left. *)
Class GlobLaws : Prop := {
  glob_law casemap ps : Forall piece_ok ps →
    ∃ re, regex_new (case_flag casemap ++ glob_regex ps) = Some re ∧
      ∀ v, is_utf8 v = true →
        regex_is_match re v = Some (bool_decide (is_Some (glob_captures (char_eq casemap) ps (chars v)))) ∧
        regex_captures re v =
          Some ((λ caps, Some v :: (Some <$> caps)) <$> glob_captures (char_eq casemap) ps (chars v));
  char_eq_exact c d : char_eq false c d = true ↔ c = d;
  char_eq_ascii c d : 0 <= c < 128 → 0 <= d < 128 →
    char_eq true [c] [d] = (to_ascii_lower c =? to_ascii_lower d);
}.

Lemma glob_captures_star eqc ps cs :
  is_Some (glob_captures eqc (PStar :: ps) cs) ↔
  ∃ k, (k <= length cs)%nat ∧ is_Some (glob_captures eqc ps (drop k cs)).
Proof.
  simpl. generalize (length cs) as n. induction n as [|n IH].
  - split.
    + destruct (glob_captures eqc ps (drop 0 cs)) eqn:E; [|intros [? ?]; done]. exists O. split; [lia|].
      by rewrite E.
    + intros (k & Hk & Hs). assert (k = O) as -> by lia. destruct Hs as (x & ->). eauto.
  - destruct (glob_captures eqc ps (drop (S n) cs)) eqn:E.
    + split; [intros _; exists (S n); split; [lia|by rewrite E]|eauto].
    + rewrite IH. split; intros (k & Hk & Hs); exists k; (split; [|done]); [lia|].
      destruct (decide (k = S n)) as [->|]; [|lia]. rewrite E in Hs. by destruct Hs.
Qed.

Lemma glob_captures_spec eqc ps cs :
  is_Some (glob_captures eqc ps cs) ↔ glob_matches eqc ps cs.
Proof.
  revert cs. induction ps as [|p ps IH]; intros cs.
  - destruct cs; simpl; split; [constructor|eauto|intros [? ?]; done|inversion 1].
  - destruct p as [p| |].
    + destruct cs as [|c cs]; simpl; [split; [intros [? ?]; done|inversion 1]|].
      destruct (eqc p c) eqn:E; [rewrite IH|].
      * split; [by constructor|by inversion 1].
      * split; [intros [? ?]; done|]. inversion 1; congruence.
    + destruct cs as [|c cs]; simpl; [split; [intros [? ?]; done|inversion 1]|].
      rewrite IH. split; [by constructor|by inversion 1].
    + rewrite glob_captures_star. split.
      * intros (k & Hk & Hs%IH). rewrite <- (take_drop k cs). by constructor.
      * inversion 1 as [| | |taken ps' cs' Hm]; subst. exists (length taken).
        rewrite length_app, drop_app_length. split; [lia|by apply IH].
Qed.

Lemma glob_body_eq cs : glob_body cs = (flat_map piece_regex (glob_parse cs), stars (glob_parse cs)).
Proof.
  induction cs as [cs IH] using (induction_ltof1 _ length). unfold ltof in IH.
  destruct cs as [|ch cs']; [done|]. cbn [glob_body glob_parse].
  destruct (bool_decide (ch = BACKSLASH_CHAR)) eqn:Hb.
  - to_prop. subst. destruct cs' as [|next cs'']; [simpl; by rewrite app_nil_r|].
    rewrite IH by (simpl; lia). destruct (_ || _)%bool; done.
  - rewrite IH by (simpl; lia). destruct (bool_decide (ch = STAR_CHAR)); [done|].
    destruct (bool_decide (ch = QUESTION_CHAR)); done.
Qed.

Lemma glob_parse_ok cs : Forall one_char cs → Forall piece_ok (glob_parse cs).
Proof.
  induction cs as [cs IH] using (induction_ltof1 _ length). unfold ltof in IH.
  destruct cs as [|ch cs']; [constructor|]. intros (Hch & Hcs)%Forall_cons. cbn [glob_parse].
  destruct (bool_decide _).
  - destruct cs' as [|next cs'']; [by apply Forall_singleton|].
    apply Forall_cons in Hcs as (Hn & Hcs). specialize (IH cs'' ltac:(simpl; lia) Hcs).
    destruct (_ || _)%bool; [by constructor|]. constructor; [done|by constructor].
  - specialize (IH cs' ltac:(simpl; lia) Hcs).
    repeat destruct (bool_decide _); by constructor.
Qed.

Lemma glob_translation pattern :
  sieve_glob_to_regex_capturing pattern =
  (glob_regex (glob_parse (chars pattern)), stars (glob_parse (chars pattern))).
Proof. unfold sieve_glob_to_regex_capturing. by rewrite glob_body_eq. Qed.

Lemma length_chars s : (length (chars s) <= length s)%nat.
Proof.
  induction s as [|c s IH]; [done|]. simpl. unfold add_byte.
  destruct (chars s) as [|[|b g] gs]; simpl in *; try lia. destruct (is_continuation b); simpl; lia.
Qed.

Lemma stars_le cs : (stars (glob_parse cs) <= length cs)%nat.
Proof.
  induction cs as [cs IH] using (induction_ltof1 _ length). unfold ltof in IH.
  destruct cs as [|ch cs']; [simpl; lia|]. cbn [glob_parse]. destruct (bool_decide _).
  - destruct cs' as [|next cs'']; [simpl; lia|]. specialize (IH cs'' ltac:(simpl; lia)).
    destruct (_ || _)%bool; simpl; lia.
  - specialize (IH cs' ltac:(simpl; lia)). repeat destruct (bool_decide _); simpl; lia.
Qed.

Lemma to_decimal_inj x y : in_u64 x → in_u64 y → to_decimal x = to_decimal y → x = y.
Proof. intros Hx Hy H. apply (f_equal parse_u64) in H. rewrite !parse_to_decimal in H by done. congruence. Qed.

Lemma capture_foldl caps m i :
  (i < m)%nat → in_u64 (Z.of_nat m) →
  foldl (λ (v : gmap bytes bytes) k, <[ to_decimal (Z.of_nat k) := group caps k ]> v) ∅ (seq 0 m)
    !! to_decimal (Z.of_nat i) = Some (group caps i).
Proof.
  induction m as [|m IH]; intros Hi Hm; [lia|]. unfold in_u64 in Hm.
  rewrite seq_S, foldl_app. simpl. destruct (decide (i = m)) as [->|Hne].
  - by rewrite lookup_insert_eq.
  - rewrite lookup_insert_ne; [apply IH; unfold in_u64; lia|].
    intros H%to_decimal_inj; unfold in_u64; lia.
Qed.

Lemma group_captures v caps i x :
  caps !! i = Some x → group (Some v :: (Some <$> caps)) (S i) = x.
Proof. intros H. unfold group. simpl. by rewrite list_lookup_fmap, H. Qed.

Context {laws : GlobLaws}.

Lemma glob_regex_run value pattern casemap :
  is_utf8 value = true → is_utf8 pattern = true →
  let caps := glob_captures (char_eq casemap) (glob_parse (chars pattern)) (chars value) in
  str_matches_glob value pattern casemap = bool_decide (is_Some caps) ∧
  str_matches_glob_captures value pattern casemap =
    (λ l, capture_vars (Some value :: (Some <$> l)) (stars (glob_parse (chars pattern)))) <$> caps.
Proof.
  intros Hv Hp. unfold str_matches_glob, matches_regex_pat, str_matches_glob_captures.
  rewrite glob_translation. simpl fst.
  destruct (glob_law casemap (glob_parse (chars pattern))) as (re & Hre & Hrun).
  { by apply glob_parse_ok, utf8_chars_ok. }
  destruct (Hrun value Hv) as (Hm & Hc). rewrite Hre, Hm, Hc. split; [done|].
  by destruct (glob_captures _ _ _).
Qed.

Lemma glob_captures_length eqc ps cs caps :
  glob_captures eqc ps cs = Some caps → length caps = stars ps.
Proof.
  revert cs caps. induction ps as [|p ps IH]; intros cs caps; simpl.
  - destruct cs; [|done]. by intros [= <-].
  - destruct p as [p| |].
    + destruct cs as [|c cs]; [done|]. destruct (eqc p c); [|done]. apply IH.
    + destruct cs as [|c cs]; [done|]. apply IH.
    + generalize (length cs) as k. induction k as [|k IHk].
      * destruct (glob_captures eqc ps _) eqn:E; [|done]. intros [= <-]. simpl. by rewrite (IH _ _ E).
      * destruct (glob_captures eqc ps _) eqn:E; [|done]. intros [= <-]. simpl. by rewrite (IH _ _ E).
Qed.

(** A [:matches] test accepts exactly the values its glob pattern describes,
    with and without the [variables] extension; with it, [${0}] is the whole
    value and [${i}] what the [i]-th star took in the leftmost-longest match. *)
Theorem matches_glob_spec value pattern casemap :
  is_utf8 value = true → is_utf8 pattern = true → in_u64 (Z.of_nat (length pattern) + 1) →
  let ps := glob_parse (chars pattern) in
  (str_matches_glob value pattern casemap = true ↔
   glob_matches (char_eq casemap) ps (chars value)) ∧
  match str_matches_glob_captures value pattern casemap with
  | None => ¬ glob_matches (char_eq casemap) ps (chars value)
  | Some vars =>
      glob_matches (char_eq casemap) ps (chars value) ∧
      vars !! lit "0" = Some value ∧
      ∃ caps, glob_captures (char_eq casemap) ps (chars value) = Some caps ∧
        length caps = stars ps ∧
        ∀ i x, caps !! i = Some x → vars !! to_decimal (Z.of_nat (S i)) = Some x
  end.
Proof.
  intros Hv Hp Hlen ps. destruct (glob_regex_run value pattern casemap Hv Hp) as (Hm & Hc).
  fold ps in Hm, Hc. rewrite Hm, Hc. rewrite bool_decide_eq_true, glob_captures_spec. split; [done|].
  destruct (glob_captures _ ps _) as [caps|] eqn:E; simpl.
  - assert (Hl := glob_captures_length _ _ _ _ E).
    assert (Hstars : in_u64 (Z.of_nat (S (stars ps)))).
    { pose proof (stars_le (chars pattern)). pose proof (length_chars pattern).
      unfold in_u64 in *. fold ps in H. lia. }
    assert (Hlook := λ i Hi, capture_foldl (Some value :: (Some <$> caps)) (S (stars ps)) i Hi Hstars).
    split_and!; [apply glob_captures_spec; by rewrite E|exact (Hlook O ltac:(lia))|].
    exists caps. split_and!; [done..|]. intros i x Hx. unfold capture_vars.
    rewrite Hlook; [by rewrite (group_captures _ _ _ _ Hx)|].
    apply lookup_lt_Some in Hx. lia.
  - rewrite <- glob_captures_spec, E. by intros [? ?].
Qed.

End Match.

(** ** The cache of compiled expressions

    [lru::LruCache], of which the code uses [get], which may reorder the
    entries, and [put], which may evict others. *)

Class LruLib (K V : Type) := {
  Lru : Type;
  lru_lookup : Lru → K → option V;
  lru_get : K → Lru → option V * Lru;
  lru_put : K → V → Lru → Lru;
}.

Class LruLaws (K V : Type) {L : LruLib K V} : Prop := {
  lru_get_law k c : (lru_get k c).1 = lru_lookup c k ∧
    ∀ k', lru_lookup (lru_get k c).2 k' = lru_lookup c k';
  lru_put_hit k v c : lru_lookup (lru_put k v c) k = Some v;
  lru_put_miss k v c k' v' : k' ≠ k → lru_lookup (lru_put k v c) k' = Some v' →
    lru_lookup c k' = Some v';
}.

Section Cache.
Context {lib : SieveLib} {L : LruLib (bytes * bool) Regex} {laws : LruLaws (bytes * bool) Regex}.

(** Insert on a miss; [None] when the pattern does not compile. *)
Definition cached_regex (anchored : bytes) (casemap : bool) (cache : Lru) : option Regex * Lru :=
  let key := (anchored, casemap) in
  match lru_get key cache with
  | (Some _, cache') => lru_get key cache'
  | (None, cache') =>
      match regex_new (case_flag casemap ++ anchored) with
      | None => (None, cache')
      | Some re => lru_get key (lru_put key re cache')
      end
  end.

Definition str_matches_regex_pat (value anchored : bytes) (casemap : bool) (cache : Lru) :
    bool * Lru :=
  match cached_regex anchored casemap cache with
  | (None, cache') => (false, cache')
  | (Some re, cache') => (default false (regex_is_match re value), cache')
  end.

(** Every cached expression is the one its key compiles to. *)
Definition cache_ok (cache : Lru) : Prop := ∀ pat cm re,
  lru_lookup cache (pat, cm) = Some re → regex_new (case_flag cm ++ pat) = Some re.

Lemma cached_regex_ok anchored casemap cache :
  cache_ok cache →
  (cached_regex anchored casemap cache).1 = regex_new (case_flag casemap ++ anchored) ∧
  cache_ok (cached_regex anchored casemap cache).2.
Proof.
  intros Hok. unfold cached_regex. destruct (lru_get_law (anchored, casemap) cache) as (Hg & Hl).
  destruct (lru_get _ cache) as [[re|] c1]; simpl in *.
  - destruct (lru_get_law (anchored, casemap) c1) as (Hg2 & Hl2). rewrite Hg2, Hl, <- Hg. split.
    + symmetry. by apply Hok.
    + intros pat cm re'. rewrite Hl2, Hl. apply Hok.
  - destruct (regex_new _) as [re|] eqn:Hre; simpl.
    + destruct (lru_get_law (anchored, casemap) (lru_put (anchored, casemap) re c1)) as (Hg2 & Hl2).
      rewrite Hg2, lru_put_hit. split; [done|]. intros pat cm re'. rewrite Hl2.
      destruct (decide ((pat, cm) = (anchored, casemap))) as [[= -> ->]|Hne].
      * rewrite lru_put_hit. by intros [= <-].
      * intros Hx. apply lru_put_miss in Hx; [|done]. rewrite Hl in Hx. by apply Hok.
    + split; [done|]. intros pat cm re'. rewrite Hl. apply Hok.
Qed.

(** The cache cannot be seen: whatever it holds and evicts, a test gives the
    answer of a fresh compilation. *)
Theorem cache_transparent value anchored casemap cache :
  cache_ok cache →
  (str_matches_regex_pat value anchored casemap cache).1 = matches_regex_pat value anchored casemap ∧
  cache_ok (str_matches_regex_pat value anchored casemap cache).2.
Proof.
  intros Hok. destruct (cached_regex_ok anchored casemap cache Hok) as (Hr & Hc).
  unfold str_matches_regex_pat, matches_regex_pat. rewrite <- Hr.
  by destruct (cached_regex anchored casemap cache) as [[re|] c].
Qed.

End Cache.

(** ** A library for the fragment *)

Module ToySieveLib.

Definition toy_eq (casemap : bool) (c d : bytes) : bool :=
  if casemap then
    match c, d with
    | [x], [y] => to_ascii_lower x =? to_ascii_lower y
    | _, _ => bool_decide (c = d)
    end
  else bool_decide (c = d).

(** Escaped characters are written backslash, [x], character. *)
Definition toy_escape (c : bytes) : bytes := 92 :: 120 :: c.

Fixpoint toy_pieces (cs : list bytes) : option (list Piece) :=
  match cs with
  | [46] :: cs' => cons PAny <$> toy_pieces cs'
  | [40] :: [46] :: [42] :: [41] :: cs' => cons PStar <$> toy_pieces cs'
  | [92] :: [120] :: c :: cs' => cons (PChar c) <$> toy_pieces cs'
  | [[92]; [122]] => Some []
  | _ => None
  end.

Definition toy_body (casemap : bool) (cs : list bytes) : option (bool * list Piece) :=
  match cs with
  | [40] :: [63] :: [115] :: [41] :: [92] :: [65] :: cs' => pair casemap <$> toy_pieces cs'
  | _ => None
  end.

Definition toy_new (s : bytes) : option (bool * list Piece) :=
  match chars s with
  | [40] :: [63] :: [105] :: [41] :: cs => toy_body true cs
  | cs => toy_body false cs
  end.

#[export] Instance toy_sieve : SieveLib := {|
  Regex := bool * list Piece;
  regex_new := toy_new;
  regex_is_match re v := Some (bool_decide (is_Some (glob_captures (toy_eq re.1) re.2 (chars v))));
  regex_captures re v :=
    Some ((λ caps, Some v :: (Some <$> caps)) <$> glob_captures (toy_eq re.1) re.2 (chars v));
  regex_escape := toy_escape;
  char_eq := toy_eq;
  to_lowercase := to_ascii_lowercase;
|}.

Lemma toy_pieces_regex ps :
  Forall piece_ok ps →
  starts_char (flat_map piece_regex ps ++ lit "\z") ∧
  toy_pieces (chars (flat_map piece_regex ps ++ lit "\z")) = Some ps.
Proof.
  induction 1 as [|p ps Hp Hps (Hs & IH)]; [done|]. simpl flat_map. rewrite <- app_assoc.
  destruct p as [c| |]; (split; [done|]).
  - destruct Hp as (Hu & Hc). pose proof (utf8_starts_char c Hu) as Hsc.
    assert (Hne : c ≠ []) by (intros ->; done).
    change (piece_regex (PChar c) ++ ?r) with (92 :: 120 :: (c ++ r)).
    rewrite chars_cons by done. rewrite chars_cons by (by destruct c).
    rewrite chars_app, Hc by done. simpl. by rewrite IH.
  - change (piece_regex PAny ++ ?r) with (46 :: r). rewrite chars_cons by done. simpl. by rewrite IH.
  - change (piece_regex PStar ++ ?r) with (40 :: 46 :: 42 :: 41 :: r).
    do 3 (rewrite chars_cons by done). rewrite chars_cons by done. simpl. by rewrite IH.
Qed.

Lemma toy_new_glob casemap ps :
  Forall piece_ok ps → toy_new (case_flag casemap ++ glob_regex ps) = Some (casemap, ps).
Proof.
  intros Hps. destruct (toy_pieces_regex ps Hps) as (Hs & Hp).
  unfold toy_new, glob_regex. set (r := flat_map piece_regex ps ++ lit "\z") in *.
  assert (Hbody : chars (lit "(?s)\A" ++ r) = [[40]; [63]; [115]; [41]; [92]; [65]] ++ chars r).
  { by rewrite chars_app. }
  destruct casemap.
  - rewrite chars_app by done. rewrite Hbody. simpl. by rewrite Hp.
  - change (case_flag false ++ ?x) with x. rewrite Hbody. simpl. by rewrite Hp.
Qed.

#[export] Instance toy_glob_laws : GlobLaws.
Proof.
  split.
  - intros casemap ps Hps. exists (casemap, ps). split; [by apply toy_new_glob|]. done.
  - intros c d. simpl. apply bool_decide_eq_true.
  - done.
Qed.

Definition pattern1 : bytes := lit "*@*.org".
Definition value1 : bytes := lit "ann@lists.example.ORG".

Lemma matches_glob_spec_witness :
  str_matches_glob value1 pattern1 true = true ∧
  glob_matches (toy_eq true) (glob_parse (chars pattern1)) (chars value1).
Proof.
  pose proof (matches_glob_spec value1 pattern1 true ltac:(vm_refl) ltac:(vm_refl)) as H.
  destruct H as (H & _); [split; [done|by apply Z.leb_le; vm_refl]|].
  assert (Hm : str_matches_glob value1 pattern1 true = true) by vm_refl.
  split; [exact Hm|]. by apply H.
Defined.

End ToySieveLib.

End SieveMatch.
