(* ===== verification/SieveEval.v ===== *)
(** The Sieve compiler checks and evaluator:
    [crates/sieve-native/src/lib.rs] and [evaluator.rs].

    [compile] and [evaluate] are total (the fuel of the evaluator is the depth
    of its calls, for which the size of the script is enough), [evaluate] yields
    exactly one action, a compiled script is evaluated within a bounded depth of
    calls ([sieve_bounded]), and an
    [if]/[elsif]/[else] chain runs the first clause whose test holds, as long as
    the chain fits the evaluator's depth limit. *)

From S2P Require Import Prelude Bytes Utf8 Decimal SieveLexer SieveForm SieveMatch.

Module SieveEval.
Import Utf8 Decimal SieveLexer SieveForm SieveMatch.

(** ** Environment and context *)

Definition SieveEnv : Type := gmap bytes bytes.

Definition env_new : SieveEnv := ∅.
Definition env_set (key value : bytes) (env : SieveEnv) : SieveEnv := <[ key := value ]> env.
Definition env_get (env : SieveEnv) (key : bytes) : bytes := default [] (env !! key).

Inductive SieveAction :=
| AKeep
| AFileInto (folder : bytes)
| ADiscard
| AReject (reason : bytes).

#[export] Instance sieve_action_eq_dec : EqDecision SieveAction.
Proof. solve_decision. Defined.

Definition MAX_EVAL_DEPTH : Z := 32.

Record Ctx := mkCtx {
  headers : list (bytes * bytes);
  message_size : Z;
  envelope_from : bytes;
  envelope_to : bytes;
  variables : gmap bytes bytes;
  variables_enabled : bool;
  environment_enabled : bool;
  env : SieveEnv;
  last_action : option SieveAction;
  nesting_depth : Z;
}.

Definition set_variables (v : gmap bytes bytes) (c : Ctx) : Ctx :=
  mkCtx (headers c) (message_size c) (envelope_from c) (envelope_to c) v (variables_enabled c)
    (environment_enabled c) (env c) (last_action c) (nesting_depth c).
Definition set_last_action (a : SieveAction) (c : Ctx) : Ctx :=
  mkCtx (headers c) (message_size c) (envelope_from c) (envelope_to c) (variables c)
    (variables_enabled c) (environment_enabled c) (env c) (Some a) (nesting_depth c).
Definition add_depth (d : Z) (c : Ctx) : Ctx :=
  mkCtx (headers c) (message_size c) (envelope_from c) (envelope_to c) (variables c)
    (variables_enabled c) (environment_enabled c) (env c) (last_action c) (nesting_depth c + d).

Inductive StmtResult :=
| Continue
| Keep
| Discard
| FileInto (folder : bytes)
| Reject (reason : bytes)
| Stop.

Section Eval.
Context {lib : SieveLib}.

(** ** Arguments of a test *)

Inductive Comparator := AsciiCasemap | Octet.

#[export] Instance match_type_eq_dec : EqDecision MatchType.
Proof. solve_decision. Defined.

Definition match_type_tag (t : bytes) : option MatchType :=
  if bool_decide (t = lit "is") then Some Is
  else if bool_decide (t = lit "contains") then Some Contains
  else if bool_decide (t = lit "matches") then Some Matches
  else if bool_decide (t = lit "regex") then Some RegexMatch
  else None.

(** The last tag wins; all of them are removed. *)
Fixpoint extract_match_type (mt : MatchType) (forms : list Form) : MatchType * list Form :=
  match forms with
  | [] => (mt, [])
  | f :: fs =>
      match (match f with FTag t => match_type_tag t | _ => None end) with
      | Some mt' => extract_match_type mt' fs
      | None => let '(m, rest) := extract_match_type mt fs in (m, f :: rest)
      end
  end.

Definition is_tag (name : bytes) (f : Form) : bool :=
  match f with FTag t => bool_decide (t = name) | _ => false end.

(** [:comparator] takes the next form with it, whatever it is. *)
Fixpoint extract_comparator (cmp : Comparator) (forms : list Form) : Comparator * list Form :=
  match forms with
  | [] => (cmp, [])
  | f :: fs =>
      if is_tag (lit "comparator") f then
        match fs with
        | [] => (cmp, [])
        | FStr s :: fs' =>
            extract_comparator (if bool_decide (s = lit "i;octet") then Octet else cmp) fs'
        | _ :: fs' => extract_comparator cmp fs'
        end
      else let '(c, rest) := extract_comparator cmp fs in (c, f :: rest)
  end.

Definition address_part_tag (t : bytes) : option bytes :=
  if bool_decide (t = lit "localpart") then Some (lit "localpart")
  else if bool_decide (t = lit "domain") then Some (lit "domain")
  else if bool_decide (t = lit "all") then Some (lit "all")
  else None.

Fixpoint extract_address_part (part : bytes) (forms : list Form) : bytes * list Form :=
  match forms with
  | [] => (part, [])
  | f :: fs =>
      match (match f with FTag t => address_part_tag t | _ => None end) with
      | Some part' => extract_address_part part' fs
      | None => let '(p, rest) := extract_address_part part fs in (p, f :: rest)
      end
  end.

Definition form_strings (f : Form) : option (list bytes) :=
  match f with
  | FStr s => Some [s]
  | FStringList v => Some v
  | _ => None
  end.

Definition collect_two_string_lists (forms : list Form) : list bytes * list bytes :=
  let lists := omap form_strings forms in
  (default [] (lists !! 0%nat), default [] (lists !! 1%nat)).

Definition collect_one_string_list (forms : list Form) : list bytes :=
  concat (omap form_strings forms).

Definition casemap_of (cmp : Comparator) : bool :=
  match cmp with AsciiCasemap => true | Octet => false end.

(** ** The tests *)

(** The first [Some]. *)
Fixpoint first_some {A B} (f : A → option B) (l : list A) : option B :=
  match l with
  | [] => None
  | x :: l' => match f x with Some y => Some y | None => first_some f l' end
  end.

(** One value against one key: [Some] on a match, with the variables it
    captures. *)
Definition try_key (mt : MatchType) (casemap variables_on : bool) (value key : bytes) :
    option (gmap bytes bytes) :=
  if bool_decide (mt = Matches) && variables_on then str_matches_glob_captures value key casemap
  else if apply_match value key mt casemap then Some ∅ else None.

(** [ctx.variables.extend(captures)] when the search succeeded. *)
Definition finish_search (r : option (gmap bytes bytes)) (ctx : Ctx) : bool * Ctx :=
  match r with
  | Some captures => (true, set_variables (captures ∪ variables ctx) ctx)
  | None => (false, ctx)
  end.

Definition eval_header_test (forms : list Form) (ctx : Ctx) : bool * Ctx :=
  let '(mt, after_mt) := extract_match_type Is forms in
  let '(cmp, after_cmp) := extract_comparator AsciiCasemap after_mt in
  let casemap := casemap_of cmp in
  let '(field_names, keys) := collect_two_string_lists after_cmp in
  finish_search
    (first_some (λ '(hdr_name, hdr_value),
       first_some (λ fname,
         if eq_ignore_ascii_case hdr_name fname then
           first_some (try_key mt casemap (variables_enabled ctx) hdr_value) keys
         else None) field_names) (headers ctx)) ctx.

Definition eval_address_test (forms : list Form) (ctx : Ctx) : bool * Ctx :=
  let '(mt, after_mt) := extract_match_type Is forms in
  let '(cmp, after_cmp) := extract_comparator AsciiCasemap after_mt in
  let casemap := casemap_of cmp in
  let '(part, after_part) := extract_address_part (lit "all") after_cmp in
  let '(field_names, keys) := collect_two_string_lists after_part in
  finish_search
    (first_some (λ '(hdr_name, hdr_value),
       first_some (λ fname,
         if eq_ignore_ascii_case hdr_name fname then
           first_some (try_key mt casemap (variables_enabled ctx) (address_part hdr_value part)) keys
         else None) field_names) (headers ctx)) ctx.

Definition eval_envelope_test (forms : list Form) (ctx : Ctx) : bool * Ctx :=
  let '(mt, after_mt) := extract_match_type Is forms in
  let '(cmp, after_cmp) := extract_comparator AsciiCasemap after_mt in
  let casemap := casemap_of cmp in
  let '(part, after_part) := extract_address_part (lit "all") after_cmp in
  let '(part_names, keys) := collect_two_string_lists after_part in
  finish_search
    (first_some (λ pname,
       let pname' := to_ascii_lowercase pname in
       match (if bool_decide (pname' = lit "from") then Some (envelope_from ctx)
              else if bool_decide (pname' = lit "to") then Some (envelope_to ctx) else None) with
       | None => None
       | Some raw_addr =>
           first_some (try_key mt casemap (variables_enabled ctx) (address_part raw_addr part)) keys
       end) part_names) ctx.

Definition eval_environment_test (forms : list Form) (ctx : Ctx) : bool :=
  if negb (environment_enabled ctx) then false
  else
    let '(mt, after_mt) := extract_match_type Is forms in
    let '(cmp, after_cmp) := extract_comparator AsciiCasemap after_mt in
    let casemap := casemap_of cmp in
    let '(item_names, keys) := collect_two_string_lists after_cmp in
    existsb (λ item, existsb (λ key, apply_match (env_get (env ctx) item) key mt casemap) keys) item_names.

Definition eval_exists_test (forms : list Form) (ctx : Ctx) : bool :=
  forallb (λ name, existsb (λ h, eq_ignore_ascii_case h.1 name) (headers ctx))
    (collect_one_string_list forms).

(** The loop of [eval_size_test]: [over], [under] and the last number. *)
Definition size_args (forms : list Form) : bool * bool * option Z :=
  foldl (λ '(over, under, limit) f,
    if is_tag (lit "over") f then (true, under, limit)
    else if is_tag (lit "under") f then (over, true, limit)
    else match f with FNum n => (over, under, Some n) | _ => (over, under, limit) end)
    (false, false, None) forms.

Definition eval_size_test (forms : list Form) (size : Z) : bool :=
  match size_args forms with
  | (_, _, None) => false
  | (over, under, Some limit) =>
      if over : bool then limit <? size else if under : bool then size <? limit else false
  end.

(** [iter().all] and [iter().any], which stop at the first answer. *)
Fixpoint all_tests (ev : list Form → Ctx → option (bool * Ctx)) (tests : list Stmt) (ctx : Ctx) :
    option (bool * Ctx) :=
  match tests with
  | [] => Some (true, ctx)
  | t :: ts =>
      match ev t ctx with
      | None => None
      | Some (false, ctx') => Some (false, ctx')
      | Some (true, ctx') => all_tests ev ts ctx'
      end
  end.

Fixpoint any_tests (ev : list Form → Ctx → option (bool * Ctx)) (tests : list Stmt) (ctx : Ctx) :
    option (bool * Ctx) :=
  match tests with
  | [] => Some (false, ctx)
  | t :: ts =>
      match ev t ctx with
      | None => None
      | Some (true, ctx') => Some (true, ctx')
      | Some (false, ctx') => any_tests ev ts ctx'
      end
  end.

Definition is_word (name : string) (w : bytes) : bool := bool_decide (w = lit name).

Fixpoint eval_test (fuel : nat) (forms : list Form) (ctx : Ctx) : option (bool * Ctx) :=
  match fuel with
  | O => None
  | S n =>
      match forms with
      | FWord w :: rest =>
          if is_word "header" w then Some (eval_header_test rest ctx)
          else if is_word "address" w then Some (eval_address_test rest ctx)
          else if is_word "envelope" w then Some (eval_envelope_test rest ctx)
          else if is_word "environment" w then Some (eval_environment_test rest ctx, ctx)
          else if is_word "exists" w then Some (eval_exists_test rest ctx, ctx)
          else if is_word "size" w then Some (eval_size_test rest (message_size ctx), ctx)
          else if is_word "allof" w then
            match rest with
            | [FTestList tests] => all_tests (eval_test n) tests ctx
            | _ => Some (false, ctx)
            end
          else if is_word "anyof" w then
            match rest with
            | [FTestList tests] => any_tests (eval_test n) tests ctx
            | _ => Some (false, ctx)
            end
          else if is_word "not" w then
            match eval_test n rest ctx with
            | None => None
            | Some (b, ctx') => Some (negb b, ctx')
            end
          else if is_word "true" w then Some (true, ctx)
          else Some (false, ctx)
      | _ => Some (false, ctx)
      end
  end.

(** ** Variables *)

Definition DOLLAR : Z := 36.
Definition OPEN_BRACE : Z := 123.
Definition CLOSE_BRACE : Z := 125.

(** The loop of [expand_vars]; [Some name] while it reads a variable name. *)
Fixpoint expand_loop (vars : gmap bytes bytes) (reading : option bytes) (s : bytes) : bytes :=
  match reading with
  | Some name =>
      match s with
      | [] => [DOLLAR; OPEN_BRACE] ++ name
      | c :: s' =>
          if c =? CLOSE_BRACE then default [] (vars !! to_lowercase name) ++ expand_loop vars None s'
          else expand_loop vars (Some (name ++ [c])) s'
      end
  | None =>
      match s with
      | [] => []
      | c :: s' =>
          if c =? BACKSLASH then
            match s' with
            | d :: s'' =>
                if d =? DOLLAR then DOLLAR :: expand_loop vars None s''
                else BACKSLASH :: expand_loop vars None s'
            | [] => [BACKSLASH]
            end
          else if c =? DOLLAR then
            match s' with
            | d :: s'' =>
                if d =? OPEN_BRACE then expand_loop vars (Some []) s''
                else c :: expand_loop vars None s'
            | [] => [c]
            end
          else c :: expand_loop vars None s'
      end
  end.

Definition expand_vars (s : bytes) (ctx : Ctx) : bytes :=
  if negb (variables_enabled ctx) then s else expand_loop (variables ctx) None s.

Definition precedence (m : bytes) : Z :=
  if is_word "lower" m || is_word "upper" m then 40
  else if is_word "length" m then 30
  else if is_word "quotewildcard" m then 20
  else if is_word "firstline" m then 10
  else 0.

(** [sort_by_key(|m| Reverse(precedence(m)))], which is stable. *)
Fixpoint insert_modifier (m : bytes) (l : list bytes) : list bytes :=
  match l with
  | [] => [m]
  | x :: l' => if precedence m <? precedence x then x :: insert_modifier m l' else m :: l
  end.
Definition sort_modifiers (l : list bytes) : list bytes := foldr insert_modifier [] l.

(** [v.replace(c, "\c")]. *)
Definition quote_char (c : Z) (v : bytes) : bytes :=
  flat_map (λ x, if x =? c then [BACKSLASH; c] else [x]) v.

Definition first_line (v : bytes) : bytes :=
  match split_once LF v with
  | Some (l, _) => default l (strip_suffix [CR] l)
  | None => v
  end.

Definition apply_modifier (v m : bytes) : bytes :=
  if is_word "lower" m then to_ascii_lowercase v
  else if is_word "upper" m then to_ascii_uppercase v
  else if is_word "length" m then to_decimal (Z.of_nat (length (chars v)))
  else if is_word "quotewildcard" m then quote_char 63 (quote_char 42 v)
  else if is_word "firstline" m then first_line v
  else v.

Definition apply_set_modifiers (value : bytes) (modifiers : list bytes) : bytes :=
  foldl apply_modifier value (sort_modifiers modifiers).

(** The leading tags of a [set] command. *)
Fixpoint leading_tags (forms : list Form) : list bytes * list Form :=
  match forms with
  | FTag t :: fs => let '(ts, rest) := leading_tags fs in (t :: ts, rest)
  | _ => ([], forms)
  end.

Definition eval_set (rest : list Form) (ctx : Ctx) : Ctx :=
  let '(modifier_names, args) := leading_tags rest in
  match args with
  | FStr name :: FStr value :: _ =>
      let modified := apply_set_modifiers (expand_vars value ctx) modifier_names in
      set_variables (<[ to_lowercase name := modified ]> (variables ctx)) ctx
  | _ => ctx
  end.

(** ** Statements *)

(** The forms before the first block, the block, and the forms after it. *)
Fixpoint split_block (forms : list Form) : option (list Form * list Stmt * list Form) :=
  match forms with
  | [] => None
  | FBlock b :: fs => Some ([], b, fs)
  | f :: fs =>
      match split_block fs with
      | Some (before, b, after) => Some (f :: before, b, after)
      | None => None
      end
  end.

(** The loop of [eval_stmt_list].  A finished list is [None] in the source and
    [Continue] here, which its callers treat alike. *)
Fixpoint run_stmts (ev : Stmt → Ctx → option (StmtResult * Ctx)) (stmts : list Stmt) (ctx : Ctx) :
    option (StmtResult * Ctx) :=
  match stmts with
  | [] => Some (Continue, ctx)
  | stmt :: rest =>
      match ev stmt ctx with
      | None => None
      | Some (Continue, ctx') => run_stmts ev rest ctx'
      | Some (other, ctx') => Some (other, ctx')
      end
  end.

(** [None]: out of fuel.  Only calls take fuel, loops do not: the fuel is the
    depth to which calls may nest. *)
Fixpoint eval_stmt_list (fuel : nat) (stmts : list Stmt) (ctx : Ctx) : option (StmtResult * Ctx) :=
  match fuel with
  | O => None
  | S n => run_stmts (eval_stmt n) stmts ctx
  end
with eval_stmt (fuel : nat) (stmt : Stmt) (ctx : Ctx) : option (StmtResult * Ctx) :=
  match fuel with
  | O => None
  | S n =>
      match stmt with
      | FWord w :: rest =>
          if is_word "require" w then Some (Continue, ctx)
          else if is_word "if" w then eval_if n rest ctx
          else if is_word "fileinto" w then
            match rest with
            | [FStr folder] =>
                let folder := expand_vars folder ctx in
                Some (FileInto folder, set_last_action (AFileInto folder) ctx)
            | _ => Some (Continue, ctx)
            end
          else if is_word "reject" w then
            match rest with
            | [FStr reason] =>
                let reason := expand_vars reason ctx in
                Some (Reject reason, set_last_action (AReject reason) ctx)
            | _ => Some (Continue, ctx)
            end
          else if is_word "discard" w then
            match rest with
            | [] => Some (Discard, set_last_action ADiscard ctx)
            | _ => Some (Continue, ctx)
            end
          else if is_word "keep" w then
            match rest with
            | [] => Some (Keep, set_last_action AKeep ctx)
            | _ => Some (Continue, ctx)
            end
          else if is_word "stop" w then
            match rest with [] => Some (Stop, ctx) | _ => Some (Continue, ctx) end
          else if is_word "set" w then Some (Continue, eval_set rest ctx)
          else Some (Continue, ctx)
      | _ => Some (Continue, ctx)
      end
  end
with eval_if (fuel : nat) (rest : list Form) (ctx : Ctx) : option (StmtResult * Ctx) :=
  match fuel with
  | O => None
  | S n =>
      if MAX_EVAL_DEPTH <=? nesting_depth ctx then Some (Continue, ctx)
      else
        let ctx1 := add_depth 1 ctx in
        match split_block rest with
        | None => Some (Continue, add_depth (-1) ctx1)
        | Some (test_forms, block, after_block) =>
            match eval_test n test_forms ctx1 with
            | None => None
            | Some (b, ctx2) =>
                match (if b : bool then eval_stmt_list n block ctx2
                       else eval_elsif_else n after_block ctx2) with
                | None => None
                | Some (r, ctx3) => Some (r, add_depth (-1) ctx3)
                end
            end
        end
  end
with eval_elsif_else (fuel : nat) (rest : list Form) (ctx : Ctx) : option (StmtResult * Ctx) :=
  match fuel with
  | O => None
  | S n =>
      match rest with
      | FWord w :: tail =>
          if is_word "elsif" w then eval_if n tail ctx
          else if is_word "else" w then
            match tail with
            | FBlock stmts :: _ => eval_stmt_list n stmts ctx
            | _ => Some (Continue, ctx)
            end
          else Some (Continue, ctx)
      | _ => Some (Continue, ctx)
      end
  end.

(** ** Sizes, which bound the recursion *)

Fixpoint form_size (f : Form) : nat :=
  S match f with
    | FTestList ss | FBlock ss =>
        list_sum (List.map (λ s, S (list_sum (List.map form_size s))) ss)
    | _ => O
    end.

Definition forms_size (fs : list Form) : nat := S (list_sum (List.map form_size fs)).
Definition stmts_size (ss : list Stmt) : nat := S (list_sum (List.map forms_size ss)).

(** Two units per node: one for the statement, one for the clause it may be. *)
Definition script_fuel (script : Script) : nat := 2 * stmts_size script.

(** ** Entry point *)

Definition requires (name : bytes) (stmt : Stmt) : bool :=
  match stmt with
  | FWord w :: rest =>
      if is_word "require" w then
        existsb (λ f, match f with
                      | FStr s => bool_decide (s = name)
                      | FStringList v => existsb (λ s, bool_decide (s = name)) v
                      | _ => false
                      end) rest
      else false
  | _ => false
  end.

Definition has_require (script : Script) (name : bytes) : bool := existsb (requires name) script.

Definition start_ctx (script : Script) (raw_message from to : bytes) (e : SieveEnv) : Ctx :=
  mkCtx (extract_headers raw_message) (Z.of_nat (length raw_message)) from to ∅
    (has_require script (lit "variables")) (has_require script (lit "environment")) e None 0.

Definition actions_of (r : StmtResult) (ctx : Ctx) : list SieveAction :=
  match r with
  | Continue => [AKeep]
  | Stop => [default AKeep (last_action ctx)]
  | Keep => [AKeep]
  | Discard => [ADiscard]
  | FileInto folder => [AFileInto folder]
  | Reject reason => [AReject reason]
  end.

Definition eval_within (fuel : nat) (script : Script) (raw_message from to : bytes) (e : SieveEnv) :
    option (list SieveAction) :=
  match eval_stmt_list fuel script (start_ctx script raw_message from to e) with
  | None => None
  | Some (r, ctx) => Some (actions_of r ctx)
  end.

(** With fuel for any script. *)
Definition eval_script (script : Script) : bytes → bytes → bytes → SieveEnv → option (list SieveAction) :=
  eval_within (script_fuel script) script.

(** ** The evaluator terminates *)

Definition weight (fs : list Form) : nat := list_sum (List.map form_size fs).

Lemma weight_cons f fs : weight (f :: fs) = (form_size f + weight fs)%nat.
Proof. done. Qed.

Lemma form_size_block b : form_size (FBlock b) = stmts_size b.
Proof. done. Qed.

Lemma form_size_tests ts : form_size (FTestList ts) = stmts_size ts.
Proof. done. Qed.

Lemma form_size_pos f : (1 <= form_size f)%nat.
Proof. destruct f; simpl; lia. Qed.

Lemma stmts_size_cons s ss : stmts_size (s :: ss) = (S (weight s) + stmts_size ss)%nat.
Proof. unfold stmts_size, forms_size, weight. simpl. lia. Qed.

Lemma split_block_weight rest before b after :
  split_block rest = Some (before, b, after) →
  rest = before ++ FBlock b :: after ∧ (weight before + stmts_size b + weight after = weight rest)%nat.
Proof.
  revert before. induction rest as [|f rest IH]; intros before; [done|]. simpl.
  destruct f; try (destruct (split_block rest) as [[[bf b'] af]|]; [|done]; intros [= <- <- <-];
    destruct (IH bf eq_refl) as (-> & Hw); split; [done|]; rewrite !weight_cons; lia).
  intros [= <- <- <-]. split; [done|]. rewrite weight_cons, form_size_block. unfold weight at 1. simpl. lia.
Qed.

Lemma all_tests_total ev tests ctx :
  (∀ t ctx, t ∈ tests → is_Some (ev t ctx)) → is_Some (all_tests ev tests ctx).
Proof.
  revert ctx. induction tests as [|t ts IH]; intros ctx Hev; simpl; [eauto|].
  destruct (Hev t ctx ltac:(set_solver)) as ([[] ctx'] & ->); [|eauto]. apply IH. set_solver.
Qed.

Lemma any_tests_total ev tests ctx :
  (∀ t ctx, t ∈ tests → is_Some (ev t ctx)) → is_Some (any_tests ev tests ctx).
Proof.
  revert ctx. induction tests as [|t ts IH]; intros ctx Hev; simpl; [eauto|].
  destruct (Hev t ctx ltac:(set_solver)) as ([[] ctx'] & ->); [eauto|]. apply IH. set_solver.
Qed.

Lemma stmts_size_elem t ts : t ∈ ts → (weight t + 2 <= stmts_size ts)%nat.
Proof.
  induction 1 as [t ts|t s ts Hin IH]; rewrite stmts_size_cons; [unfold stmts_size; lia|lia].
Qed.

Lemma eval_test_total n forms ctx : (weight forms < n)%nat → is_Some (eval_test n forms ctx).
Proof.
  revert forms ctx. induction n as [|n IH]; intros forms ctx Hn; [lia|]. cbn [eval_test].
  destruct forms as [|f rest]; [eauto|]. destruct f as [w| | | | | |]; eauto.
  rewrite weight_cons in Hn. simpl form_size in Hn.
  assert (Hsub : ∀ tests t c, rest = [FTestList tests] → t ∈ tests → is_Some (eval_test n t c)).
  { intros tests t c -> Ht. apply IH. apply stmts_size_elem in Ht.
    rewrite weight_cons, form_size_tests in Hn. lia. }
  repeat (destruct (is_word _ w); [try by eexists|]); try by eexists.
  - destruct rest as [|[] [|]]; eauto. apply all_tests_total. eauto.
  - destruct rest as [|[] [|]]; eauto. apply any_tests_total. eauto.
  - destruct (IH rest ctx) as ([b c] & ->); [lia|]. eauto.
Qed.

Lemma run_stmts_total ev ss ctx :
  (∀ s ctx, s ∈ ss → is_Some (ev s ctx)) → is_Some (run_stmts ev ss ctx).
Proof.
  revert ctx. induction ss as [|s ss IH]; intros ctx Hev; simpl; [eauto|].
  destruct (Hev s ctx ltac:(set_solver)) as ([[] ctx'] & ->); eauto. apply IH. set_solver.
Qed.

Definition evals_within (n : nat) : Prop :=
  (∀ ss ctx, (2 * stmts_size ss <= n)%nat → is_Some (eval_stmt_list n ss ctx)) ∧
  (∀ s ctx, (2 * weight s + 2 <= n)%nat → is_Some (eval_stmt n s ctx)) ∧
  (∀ rest ctx, (2 * weight rest + 1 <= n)%nat → is_Some (eval_if n rest ctx)) ∧
  (∀ rest ctx, (2 * weight rest + 1 <= n)%nat → is_Some (eval_elsif_else n rest ctx)).

Lemma evals_within_all n : evals_within n.
Proof.
  induction n as [|n (IH1 & IH2 & IH3 & IH4)].
  { repeat split; intros; unfold stmts_size in *; lia. }
  split_and!; intros x ctx Hn; cbn [eval_stmt_list eval_stmt eval_if eval_elsif_else].
  - apply run_stmts_total. intros s c Hs%stmts_size_elem. apply IH2. lia.
  - destruct x as [|f rest]; [eauto|]. destruct f as [w| | | | | |]; eauto.
    rewrite weight_cons in Hn. simpl form_size in Hn.
    destruct (is_word "require" w); [eauto|]. destruct (is_word "if" w); [apply IH3; lia|].
    repeat (destruct (is_word _ w); [repeat case_match; eauto|]). eauto.
  - destruct (MAX_EVAL_DEPTH <=? nesting_depth ctx); [eauto|].
    destruct (split_block x) as [[[before b] after]|] eqn:E; [|eauto].
    apply split_block_weight in E as (_ & Hw). assert (Hb : (1 <= stmts_size b)%nat) by (unfold stmts_size; lia).
    destruct (eval_test_total n before (add_depth 1 ctx)) as ([[] c] & ->); [lia|..].
    + destruct (IH1 b c) as ([r c3] & ->); [lia|]. eauto.
    + destruct (IH4 after c) as ([r c3] & ->); [lia|]. eauto.
  - destruct x as [|f tail]; [eauto|]. destruct f as [w| | | | | |]; eauto.
    rewrite weight_cons in Hn. simpl form_size in Hn.
    destruct (is_word "elsif" w); [apply IH3; lia|]. destruct (is_word "else" w); [|eauto].
    destruct tail as [|[] tail]; eauto. rewrite weight_cons, form_size_block in Hn. apply IH1. lia.
Qed.

Lemma eval_script_total script raw from to e : is_Some (eval_script script raw from to e).
Proof.
  unfold eval_script, eval_within. destruct (evals_within_all (script_fuel script)) as (H1 & _).
  destruct (H1 script (start_ctx script raw from to e) ltac:(done)) as ([r c] & ->). eauto.
Qed.

(** ** Compilation *)

(** The reasons for which [compile] refuses a script. *)
Inductive CompileError :=
| InvalidUtf8
| Syntax (e : ParseError)
| UnsupportedExtension (ext : bytes)
| UndeclaredTest (keyword : bytes)
| NestingTooDeep
| UnsupportedComparator (name : bytes)
| ComparatorNotString
| ComparatorMissing
| InvalidRegex (pattern : bytes).

Definition KNOWN : list bytes :=
  [lit "fileinto"; lit "reject"; lit "variables"; lit "regex"; lit "environment"].

Definition known (ext : bytes) : bool := existsb (λ k, bool_decide (k = ext)) KNOWN.

(** The strings of a [require] statement. *)
Definition extensions (stmt : Stmt) : list bytes :=
  match stmt with
  | FWord w :: rest => if is_word "require" w then collect_one_string_list rest else []
  | _ => []
  end.

(** The inner loop over the extensions of one statement. *)
Fixpoint check_known (declared exts : list bytes) : result CompileError (list bytes) :=
  match exts with
  | [] => Ok declared
  | ext :: exts' =>
      if known ext then check_known (declared ++ [ext]) exts' else Err (UnsupportedExtension ext)
  end.

Fixpoint declared_extensions (declared : list bytes) (script : Script) : result CompileError (list bytes) :=
  match script with
  | [] => Ok declared
  | stmt :: rest =>
      match check_known declared (extensions stmt) with
      | Ok declared' => declared_extensions declared' rest
      | Err e => Err e
      end
  end.

(** [for x in l { f(x)?; }] *)
Definition for_each {A} (f : A → result CompileError ()) : list A → result CompileError () :=
  fix go l := match l with
              | [] => Ok tt
              | x :: l' => match f x with Ok _ => go l' | Err e => Err e end
              end.

Definition is_if (f : Form) : bool :=
  match f with FWord w => is_word "if" w || is_word "elsif" w | _ => false end.

(** The loop of [check_stmt_no_test_keyword], given the check of the statements
    inside a form. *)
Definition scan_keyword (keyword : bytes) (inside : Form → result CompileError ()) :
    list Form → result CompileError () :=
  fix go l :=
    match l with
    | [] => Ok tt
    | f :: l' =>
        if is_if f && match l' with FWord t :: _ => bool_decide (t = keyword) | _ => false end
        then Err (UndeclaredTest keyword)
        else match inside f with Ok _ => go l' | Err e => Err e end
    end.

Fixpoint check_inside (keyword : bytes) (f : Form) : result CompileError () :=
  match f with
  | FBlock ss | FTestList ss => for_each (scan_keyword keyword (check_inside keyword)) ss
  | _ => Ok tt
  end.

Definition check_stmt_no_test_keyword (keyword : bytes) (stmt : Stmt) : result CompileError () :=
  scan_keyword keyword (check_inside keyword) stmt.

Definition check_no_test_keyword (script : Script) (keyword : bytes) : result CompileError () :=
  for_each (check_stmt_no_test_keyword keyword) script.

Definition MAX_VALIDATE_DEPTH : nat := 32.

Definition known_comparator (name : bytes) : bool :=
  is_word "i;ascii-casemap" name || is_word "i;octet" name.

(** The scan of [validate_stmt], given the check of nested statements. *)
Definition scan_stmt (inside : Form → result CompileError ()) : list Form → result CompileError () :=
  fix go l :=
    match l with
    | [] => Ok tt
    | f :: l' =>
        if is_tag (lit "comparator") f then
          match l' with
          | FStr name :: l'' =>
              if known_comparator name then go l'' else Err (UnsupportedComparator name)
          | _ :: _ => Err ComparatorNotString
          | [] => Err ComparatorMissing
          end
        else match inside f with Ok _ => go l' | Err e => Err e end
    end.

(** A [:regex] tag that the scan reaches. *)
Fixpoint has_regex_tag (l : list Form) : bool :=
  match l with
  | [] => false
  | f :: l' =>
      if is_tag (lit "comparator") f then match l' with _ :: l'' => has_regex_tag l'' | [] => false end
      else is_tag (lit "regex") f || has_regex_tag l'
  end.

Definition check_regex (pattern : bytes) : result CompileError () :=
  match regex_new (anchor pattern) with Some _ => Ok tt | None => Err (InvalidRegex pattern) end.

(** The last string or string list of the statement holds the patterns. *)
Definition check_patterns (stmt : Stmt) : result CompileError () :=
  if has_regex_tag stmt then
    match last (omap form_strings stmt) with
    | Some patterns => for_each check_regex patterns
    | None => Ok tt
    end
  else Ok tt.

Definition validate_with (inside : Form → result CompileError ()) (depth : nat) (stmt : Stmt) :
    result CompileError () :=
  if (MAX_VALIDATE_DEPTH <=? depth)%nat then Err NestingTooDeep
  else match scan_stmt inside stmt with
       | Ok _ => check_patterns stmt
       | Err e => Err e
       end.

Fixpoint validate_inside (depth : nat) (f : Form) : result CompileError () :=
  match f with
  | FBlock ss | FTestList ss => for_each (validate_with (validate_inside (S depth)) (S depth)) ss
  | _ => Ok tt
  end.

Definition validate_stmt (stmt : Stmt) (depth : nat) : result CompileError () :=
  validate_with (validate_inside depth) depth stmt.

Definition validate_script (script : Script) : result CompileError () :=
  for_each (λ stmt, validate_stmt stmt 0) script.

(** The checks that follow parsing. *)
Definition check_script (parsed : Script) : result CompileError Script :=
  match declared_extensions [] parsed with
  | Err e => Err e
  | Ok declared =>
      match (if existsb (λ d, bool_decide (d = lit "environment")) declared then Ok tt
             else check_no_test_keyword parsed (lit "environment")) with
      | Err e => Err e
      | Ok _ =>
          match validate_script parsed with
          | Err e => Err e
          | Ok _ => Ok parsed
          end
      end
  end.

Definition compile (script : bytes) : option (result CompileError Script) :=
  match from_utf8 script with
  | None => Some (Err InvalidUtf8)
  | Some source =>
      match parse_source source with
      | None => None
      | Some (Err e) => Some (Err (Syntax e))
      | Some (Ok parsed) => Some (check_script parsed)
      end
  end.

Definition evaluate (script : Script) (raw_message from to : bytes) (e : SieveEnv) :
    option (list SieveAction) := eval_script script raw_message from to e.

Lemma compile_total source : is_Some (compile source).
Proof.
  unfold compile. destruct (from_utf8 source) as [src|]; [|eauto].
  destruct (parse_source_total src) as ([p|err] & ->); eauto.
Qed.

Lemma evaluate_one script raw from to e : ∃ action, evaluate script raw from to e = Some [action].
Proof.
  unfold evaluate. destruct (eval_script_total script raw from to e) as (l & Hl). rewrite Hl.
  unfold eval_script, eval_within in Hl. destruct (eval_stmt_list _ _ _) as [[r c]|]; [|done].
  injection Hl as <-. destruct r; simpl; eauto.
Qed.

(** ** More fuel changes nothing *)

Definition le_opt {A} (m m' : option A) : Prop := ∀ r, m = Some r → m' = Some r.

Lemma le_opt_refl {A} (m : option A) : le_opt m m.
Proof. by intros r. Qed.

Lemma le_opt_match {A B} (m m' : option A) (k k' : A → option B) :
  le_opt m m' → (∀ a, le_opt (k a) (k' a)) →
  le_opt (match m with None => None | Some a => k a end) (match m' with None => None | Some a => k' a end).
Proof. intros Hm Hk r. destruct m as [a|]; [|done]. rewrite (Hm a eq_refl). apply Hk. Qed.

Lemma all_tests_mono ev ev' tests ctx :
  (∀ t c, le_opt (ev t c) (ev' t c)) → le_opt (all_tests ev tests ctx) (all_tests ev' tests ctx).
Proof.
  intros Hev. revert ctx. induction tests as [|t ts IH]; intros ctx; [apply le_opt_refl|].
  simpl. intros r. pose proof (Hev t ctx) as H. destruct (ev t ctx) as [[[] c]|]; [| |done];
    rewrite (H _ eq_refl); [apply IH|done].
Qed.

Lemma any_tests_mono ev ev' tests ctx :
  (∀ t c, le_opt (ev t c) (ev' t c)) → le_opt (any_tests ev tests ctx) (any_tests ev' tests ctx).
Proof.
  intros Hev. revert ctx. induction tests as [|t ts IH]; intros ctx; [apply le_opt_refl|].
  simpl. intros r. pose proof (Hev t ctx) as H. destruct (ev t ctx) as [[[] c]|]; [| |done];
    rewrite (H _ eq_refl); [done|apply IH].
Qed.

Lemma run_stmts_mono ev ev' ss ctx :
  (∀ s c, le_opt (ev s c) (ev' s c)) → le_opt (run_stmts ev ss ctx) (run_stmts ev' ss ctx).
Proof.
  intros Hev. revert ctx. induction ss as [|s ss IH]; intros ctx; [apply le_opt_refl|].
  simpl. intros r. pose proof (Hev s ctx) as H. destruct (ev s ctx) as [[sr c]|]; [|done].
  rewrite (H _ eq_refl). destruct sr; try done. apply IH.
Qed.

Lemma eval_test_mono n m forms ctx :
  (n <= m)%nat → le_opt (eval_test n forms ctx) (eval_test m forms ctx).
Proof.
  revert m forms ctx. induction n as [|n IH]; intros m forms ctx Hle; [by intros r|].
  destruct m as [|m]; [lia|]. cbn [eval_test].
  assert (IH' : ∀ t c, le_opt (eval_test n t c) (eval_test m t c)) by (intros; apply IH; lia).
  destruct forms as [|f rest]; [apply le_opt_refl|]. destruct f as [w| | | | | |]; try apply le_opt_refl.
  repeat (destruct (is_word _ w); [first [apply le_opt_refl|idtac]|]); try apply le_opt_refl.
  - destruct rest as [|[] [|]]; try apply le_opt_refl. by apply all_tests_mono.
  - destruct rest as [|[] [|]]; try apply le_opt_refl. by apply any_tests_mono.
  - intros r. pose proof (IH' rest ctx) as H. destruct (eval_test n rest ctx) as [[b c]|]; [|done].
    by rewrite (H _ eq_refl).
Qed.

Definition eval_mono (n m : nat) : Prop :=
  (∀ ss ctx, le_opt (eval_stmt_list n ss ctx) (eval_stmt_list m ss ctx)) ∧
  (∀ s ctx, le_opt (eval_stmt n s ctx) (eval_stmt m s ctx)) ∧
  (∀ rest ctx, le_opt (eval_if n rest ctx) (eval_if m rest ctx)) ∧
  (∀ rest ctx, le_opt (eval_elsif_else n rest ctx) (eval_elsif_else m rest ctx)).

Lemma eval_mono_all n m : (n <= m)%nat → eval_mono n m.
Proof.
  revert m. induction n as [|n IH]; intros m Hle; [by split_and!; intros x ctx r|].
  destruct m as [|m]; [lia|]. destruct (IH m ltac:(lia)) as (H1 & H2 & H3 & H4).
  split_and!; intros x ctx; cbn [eval_stmt_list eval_stmt eval_if eval_elsif_else].
  - by apply run_stmts_mono.
  - destruct x as [|f rest]; [apply le_opt_refl|]. destruct f as [w| | | | | |]; try apply le_opt_refl.
    destruct (is_word "require" w); [apply le_opt_refl|].
    destruct (is_word "if" w); [apply H3|apply le_opt_refl].
  - destruct (MAX_EVAL_DEPTH <=? nesting_depth ctx); [apply le_opt_refl|].
    destruct (split_block x) as [[[before b] after]|]; [|apply le_opt_refl].
    apply le_opt_match; [apply eval_test_mono; lia|]. intros [[] c];
      (apply le_opt_match; [auto|intros []; apply le_opt_refl]).
  - destruct x as [|f tail]; [apply le_opt_refl|]. destruct f as [w| | | | | |]; try apply le_opt_refl.
    destruct (is_word "elsif" w); [apply H3|]. destruct (is_word "else" w); [|apply le_opt_refl].
    destruct tail as [|[] tail]; try apply le_opt_refl. apply H1.
Qed.

(** ** Chains of clauses *)

Definition Clause : Type := list Form * list Stmt.

Definition no_block (f : Form) : bool := match f with FBlock _ => false | _ => true end.
Definition clause_ok (c : Clause) : Prop := forallb no_block c.1 = true.

Definition else_forms (els : option (list Stmt)) : list Form :=
  match els with Some b => [FWord (lit "else"); FBlock b] | None => [] end.

(** What follows the word [if], or a block, in the statement of a chain. *)
Fixpoint chain_forms (c : Clause) (cs : list Clause) (els : option (list Stmt)) : list Form :=
  c.1 ++ FBlock c.2 ::
  match cs with
  | [] => else_forms els
  | c' :: cs' => FWord (lit "elsif") :: chain_forms c' cs' els
  end.

Definition rest_forms (cs : list Clause) (els : option (list Stmt)) : list Form :=
  match cs with
  | [] => else_forms els
  | c' :: cs' => FWord (lit "elsif") :: chain_forms c' cs' els
  end.

Lemma chain_forms_eq c cs els : chain_forms c cs els = c.1 ++ FBlock c.2 :: rest_forms cs els.
Proof. by destruct cs. Qed.

Lemma split_block_app before b after :
  forallb no_block before = true → split_block (before ++ FBlock b :: after) = Some (before, b, after).
Proof.
  induction before as [|f before IH]; [done|]. simpl. intros H. to_prop.
  rewrite IH by done. by destruct f.
Qed.

(** [cs] are tested in order and all fail, which takes [ctx] to [ctx']; every
    [elsif] is one level deeper. *)
Inductive falls_through : list Clause → Ctx → Ctx → Prop :=
| falls_nil ctx : falls_through [] ctx ctx
| falls_cons n c cs ctx ctx1 ctx2 :
    clause_ok c → eval_test n c.1 (add_depth 1 ctx) = Some (false, ctx1) →
    falls_through cs ctx1 ctx2 → falls_through (c :: cs) ctx ctx2.

(** The outcome of the clauses [cs] and the [else] block: the first clause
    whose test holds is run. *)
Inductive chain_runs : list Clause → option (list Stmt) → Ctx → StmtResult → Ctx → Prop :=
| runs_clause n cs1 c cs2 els ctx ctx1 ctx2 r ctx3 :
    falls_through cs1 ctx ctx1 → clause_ok c →
    eval_test n c.1 (add_depth 1 ctx1) = Some (true, ctx2) →
    eval_stmt_list n c.2 ctx2 = Some (r, ctx3) →
    chain_runs (cs1 ++ c :: cs2) els ctx r (add_depth (- Z.of_nat (S (length cs1))) ctx3)
| runs_else n cs b ctx ctx1 r ctx2 :
    falls_through cs ctx ctx1 → eval_stmt_list n b ctx1 = Some (r, ctx2) →
    chain_runs cs (Some b) ctx r (add_depth (- Z.of_nat (length cs)) ctx2)
| runs_none cs ctx ctx1 :
    falls_through cs ctx ctx1 →
    chain_runs cs None ctx Continue (add_depth (- Z.of_nat (length cs)) ctx1).

Lemma add_depth_add a b ctx : add_depth a (add_depth b ctx) = add_depth (b + a) ctx.
Proof. unfold add_depth. simpl. f_equal. lia. Qed.

Lemma add_depth_0 ctx : add_depth 0 ctx = ctx.
Proof. destruct ctx. unfold add_depth. simpl. f_equal. lia. Qed.

Lemma eval_if_step n c cs els ctx :
  clause_ok c → nesting_depth ctx < MAX_EVAL_DEPTH →
  eval_if (S n) (chain_forms c cs els) ctx =
  match eval_test n c.1 (add_depth 1 ctx) with
  | None => None
  | Some (b, ctx2) =>
      match (if b : bool then eval_stmt_list n c.2 ctx2
             else eval_elsif_else n (rest_forms cs els) ctx2) with
      | None => None
      | Some (r, ctx3) => Some (r, add_depth (-1) ctx3)
      end
  end.
Proof.
  intros Hc Hd. cbn [eval_if]. rewrite chain_forms_eq, split_block_app by done.
  rewrite (proj2 (Z.leb_gt _ _)) by done. done.
Qed.

(** A test leaves the depth alone. *)
Lemma finish_search_depth r ctx : nesting_depth (finish_search r ctx).2 = nesting_depth ctx.
Proof. by destruct r. Qed.

Lemma eval_header_depth fs ctx : nesting_depth (eval_header_test fs ctx).2 = nesting_depth ctx.
Proof. unfold eval_header_test. repeat case_match. apply finish_search_depth. Qed.
Lemma eval_address_depth fs ctx : nesting_depth (eval_address_test fs ctx).2 = nesting_depth ctx.
Proof. unfold eval_address_test. repeat case_match. apply finish_search_depth. Qed.
Lemma eval_envelope_depth fs ctx : nesting_depth (eval_envelope_test fs ctx).2 = nesting_depth ctx.
Proof. unfold eval_envelope_test. repeat case_match. apply finish_search_depth. Qed.

Lemma tests_depth ev :
  (∀ t c b c', ev t c = Some (b, c') → nesting_depth c' = nesting_depth c) →
  ∀ tests c b c', (all_tests ev tests c = Some (b, c') → nesting_depth c' = nesting_depth c) ∧
                  (any_tests ev tests c = Some (b, c') → nesting_depth c' = nesting_depth c).
Proof.
  intros Hev tests. induction tests as [|t ts IH]; intros c b c'; simpl.
  - split; intros [= <- <-]; done.
  - destruct (ev t c) as [[b1 c1]|] eqn:E; [|done]. apply Hev in E. destruct (IH c1 b c') as (I1 & I2).
    destruct b1; split; try (intros [= <- <-]; done); intros H; [apply I1 in H|apply I2 in H]; congruence.
Qed.

Lemma eval_test_depth n fs ctx b ctx' :
  eval_test n fs ctx = Some (b, ctx') → nesting_depth ctx' = nesting_depth ctx.
Proof.
  revert fs ctx b ctx'. induction n as [|n IH]; intros fs ctx b ctx'; [done|]. cbn [eval_test].
  destruct fs as [|f rest]; [by intros [= <- <-]|]. destruct f as [w| | | | | |]; try by intros [= <- <-].
  destruct (is_word "header" w); [intros [= H]; by rewrite <- (eval_header_depth rest ctx), H|].
  destruct (is_word "address" w); [intros [= H]; by rewrite <- (eval_address_depth rest ctx), H|].
  destruct (is_word "envelope" w); [intros [= H]; by rewrite <- (eval_envelope_depth rest ctx), H|].
  do 3 (destruct (is_word _ w); [by intros [= <- <-]|]).
  destruct (is_word "allof" w).
  { destruct rest as [|[] [|]]; try by intros [= <- <-]. intros H. by eapply (tests_depth _ IH) in H. }
  destruct (is_word "anyof" w).
  { destruct rest as [|[] [|]]; try by intros [= <- <-]. intros H. by eapply (tests_depth _ IH) in H. }
  destruct (is_word "not" w).
  { destruct (eval_test n rest ctx) as [[b' c]|] eqn:E; [|done]. intros [= <- <-]. by apply IH in E. }
  destruct (is_word "true" w); by intros [= <- <-].
Qed.

Lemma falls_through_depth cs ctx ctx' :
  falls_through cs ctx ctx' → nesting_depth ctx' = nesting_depth ctx + Z.of_nat (length cs).
Proof.
  induction 1 as [|n c cs ctx ctx1 ctx2 Hc Ht Hf IH]; simpl; [lia|].
  apply eval_test_depth in Ht. simpl in Ht. lia.
Qed.

Lemma elsif_eq n c cs els ctx :
  eval_elsif_else (S n) (rest_forms (c :: cs) els) ctx = eval_if n (chain_forms c cs els) ctx.
Proof. done. Qed.

Lemma falls_through_app cs1 cs2 els ctx ctx1 n r ctx2 :
  falls_through cs1 ctx ctx1 → nesting_depth ctx + Z.of_nat (length cs1) <= MAX_EVAL_DEPTH →
  eval_elsif_else n (rest_forms cs2 els) ctx1 = Some (r, ctx2) →
  ∃ m, eval_elsif_else m (rest_forms (cs1 ++ cs2) els) ctx =
       Some (r, add_depth (- Z.of_nat (length cs1)) ctx2).
Proof.
  intros Hf. revert n r ctx2. induction Hf as [ctx|k c cs ctx ctx1 ctx3 Hc Ht Hf IH]; intros n r ctx2 Hd Hn.
  - exists n. simpl. by rewrite add_depth_0.
  - pose proof (eval_test_depth _ _ _ _ _ Ht) as Hd1. simpl in Hd1, Hd.
    destruct (IH n r ctx2 ltac:(lia) Hn) as (m & Hm).
    exists (S (S (max k m))). simpl app. rewrite elsif_eq, eval_if_step by (done || lia).
    rewrite (eval_test_mono k (max k m) _ _ ltac:(lia) _ Ht).
    destruct (eval_mono_all m (max k m) ltac:(lia)) as (_ & _ & _ & H4).
    rewrite (H4 _ _ _ Hm). rewrite add_depth_add. do 3 f_equal. simpl length. lia.
Qed.

Lemma chain_runs_eval cs els ctx r ctx' :
  chain_runs cs els ctx r ctx' → nesting_depth ctx + Z.of_nat (length cs) <= MAX_EVAL_DEPTH →
  ∃ n, eval_elsif_else n (rest_forms cs els) ctx = Some (r, ctx').
Proof.
  intros Hrun Hd. destruct Hrun as [n cs1 c cs2 els ctx ctx1 ctx2 r ctx3 Hf Hc Ht Hb
                                   |n cs b ctx ctx1 r ctx2 Hf Hb|cs ctx ctx1 Hf].
  - rewrite length_app in Hd. simpl in Hd. pose proof (falls_through_depth _ _ _ Hf) as Hd1.
    destruct (falls_through_app cs1 (c :: cs2) els ctx ctx1 (S (S n)) r (add_depth (-1) ctx3) Hf)
      as (m & Hm); [lia| |exists m; rewrite Hm, add_depth_add; do 3 f_equal; lia].
    rewrite elsif_eq, eval_if_step by (done || lia). by rewrite Ht, Hb.
  - destruct (falls_through_app cs [] (Some b) ctx ctx1 (S n) r ctx2 Hf Hd Hb) as (m & Hm).
    exists m. by rewrite app_nil_r in Hm.
  - destruct (falls_through_app cs [] None ctx ctx1 1 Continue ctx1 Hf Hd eq_refl) as (m & Hm).
    exists m. by rewrite app_nil_r in Hm.
Qed.

(** The statement of a chain. *)
Definition if_stmt (c : Clause) (cs : list Clause) (els : option (list Stmt)) : Stmt :=
  FWord (lit "if") :: chain_forms c cs els.

Lemma if_stmt_eval n c cs els ctx r :
  eval_elsif_else n (rest_forms (c :: cs) els) ctx = Some r →
  ∀ m, (n <= m)%nat → eval_stmt m (if_stmt c cs els) ctx = Some r.
Proof.
  destruct n as [|n]; [done|]. rewrite elsif_eq. intros Hn m Hle. destruct m as [|m]; [lia|].
  destruct (eval_mono_all n m ltac:(lia)) as (_ & _ & H3 & _). exact (H3 _ _ _ Hn).
Qed.

(** An [if]/[elsif]/[else] statement of at most as many clauses as there are
    levels left runs exactly the block of the first clause whose test holds, or
    the [else] block, with the variables the tests captured, and restores the
    nesting depth. *)
Theorem if_chain_first_match c cs els ctx r ctx' :
  chain_runs (c :: cs) els ctx r ctx' →
  nesting_depth ctx + Z.of_nat (length (c :: cs)) <= MAX_EVAL_DEPTH →
  ∃ n, ∀ m, (n <= m)%nat → eval_stmt m (if_stmt c cs els) ctx = Some (r, ctx').
Proof.
  intros Hrun Hd. destruct (chain_runs_eval _ _ _ _ _ Hrun Hd) as (n & Hn).
  exists n. by apply if_stmt_eval.
Qed.

(** Every [elsif] costs a level of nesting: once as many clauses have failed
    as there were levels left, the remaining clauses, tests, blocks and [else]
    included, are silently skipped. *)
Theorem long_chain_is_cut c cs els ctx cs1 cs2 ctx1 :
  c :: cs = cs1 ++ cs2 → cs2 ≠ [] → falls_through cs1 ctx ctx1 →
  nesting_depth ctx + Z.of_nat (length cs1) = MAX_EVAL_DEPTH →
  ∃ n, ∀ m, (n <= m)%nat →
    eval_stmt m (if_stmt c cs els) ctx =
      Some (Continue, add_depth (- Z.of_nat (length cs1)) ctx1).
Proof.
  intros Hcs Hne Hf Hd. destruct cs2 as [|c2 cs2]; [done|].
  destruct (falls_through_app cs1 (c2 :: cs2) els ctx ctx1 2 Continue ctx1 Hf) as (n & Hn); [lia| |].
  { rewrite elsif_eq. cbn [eval_if]. pose proof (falls_through_depth _ _ _ Hf) as Hd1.
    rewrite (proj2 (Z.leb_le _ _)) by lia. done. }
  exists n. apply if_stmt_eval. by rewrite Hcs.
Qed.

(** ** How deep calls nest *)

Lemma eval_set_depth rest ctx : nesting_depth (eval_set rest ctx) = nesting_depth ctx.
Proof. unfold eval_set. by repeat case_match. Qed.

Definition depth_kept (m : option (StmtResult * Ctx)) (ctx : Ctx) : Prop :=
  ∀ r ctx', m = Some (r, ctx') → nesting_depth ctx' = nesting_depth ctx.

Lemma run_stmts_depth ev ss ctx : (∀ s c, depth_kept (ev s c) c) → depth_kept (run_stmts ev ss ctx) ctx.
Proof.
  intros Hev. revert ctx. induction ss as [|s ss IH]; intros ctx r ctx'; simpl; [by intros [= <- <-]|].
  destruct (ev s ctx) as [[sr c]|] eqn:E; [|done]. apply Hev in E. rewrite <- E.
  destruct sr; try (by intros [= <- <-]). apply IH.
Qed.

Definition depths_kept (n : nat) : Prop :=
  (∀ ss ctx, depth_kept (eval_stmt_list n ss ctx) ctx) ∧ (∀ s ctx, depth_kept (eval_stmt n s ctx) ctx) ∧
  (∀ rest ctx, depth_kept (eval_if n rest ctx) ctx) ∧ (∀ rest ctx, depth_kept (eval_elsif_else n rest ctx) ctx).

Lemma depths_kept_all n : depths_kept n.
Proof.
  induction n as [|n (IH1 & IH2 & IH3 & IH4)]; [by split_and!; intros x ctx|].
  split_and!; intros x ctx; cbn [eval_stmt_list eval_stmt eval_if eval_elsif_else].
  - by apply run_stmts_depth.
  - destruct x as [|[w| | | | | |] rest]; try (by intros r c' [= <- <-]).
    destruct (is_word "require" w); [by intros r c' [= <- <-]|]. destruct (is_word "if" w); [apply IH3|].
    do 5 (destruct (is_word _ w); [by repeat case_match; intros r c' [= <- <-]|]).
    destruct (is_word "set" w); intros r c' [= <- <-]; [apply eval_set_depth|done].
  - destruct (MAX_EVAL_DEPTH <=? nesting_depth ctx); [by intros r c' [= <- <-]|].
    destruct (split_block x) as [[[before b] after]|]; [|intros r c' [= <- <-]; cbn; lia].
    destruct (eval_test n before (add_depth 1 ctx)) as [[t c]|] eqn:E; [|done]. apply eval_test_depth in E. cbn in E.
    destruct (if t : bool then _ else _) as [[r c3]|] eqn:Er; [|done]. intros r' c' [= <- <-]. cbn.
    assert (nesting_depth c3 = nesting_depth c) by (destruct t; [by eapply IH1|by eapply IH4]). lia.
  - destruct x as [|[w| | | | | |] tail]; try (by intros r c' [= <- <-]).
    destruct (is_word "elsif" w); [apply IH3|]. destruct (is_word "else" w); [|by intros r c' [= <- <-]].
    destruct tail as [|[] tail]; try (by intros r c' [= <- <-]). apply IH1.
Qed.

(** How deep blocks and test lists nest. *)
Fixpoint form_depth (f : Form) : nat :=
  match f with
  | FTestList ss | FBlock ss => S (list_max (List.map (λ s, list_max (List.map form_depth s)) ss))
  | _ => O
  end.

Definition forms_depth (fs : list Form) : nat := list_max (List.map form_depth fs).
Definition stmts_depth (ss : list Stmt) : nat := list_max (List.map forms_depth ss).

(** The words [not] of a single statement or test, at most. *)
Definition is_not (f : Form) : bool := match f with FWord w => is_word "not" w | _ => false end.
Definition nots (fs : list Form) : nat := length (List.filter is_not fs).

Fixpoint form_nots (f : Form) : nat :=
  match f with
  | FTestList ss | FBlock ss => list_max (List.map (λ s, max (nots s) (list_max (List.map form_nots s))) ss)
  | _ => O
  end.

Definition forms_nots (fs : list Form) : nat := max (nots fs) (list_max (List.map form_nots fs)).
Definition stmts_nots (ss : list Stmt) : nat := list_max (List.map forms_nots ss).

Lemma list_max_elem {A} (f : A → nat) x l : x ∈ l → (f x <= list_max (List.map f l))%nat.
Proof. induction 1; simpl; lia. Qed.

Lemma list_max_sublist {A} (f : A → nat) l l' : sublist l l' → (list_max (List.map f l) <= list_max (List.map f l'))%nat.
Proof. induction 1; simpl; lia. Qed.

Lemma nots_sublist fs gs : sublist fs gs → (nots fs <= nots gs)%nat.
Proof. unfold nots. induction 1 as [|f fs gs _ IH|f fs gs _ IH]; simpl; [done|destruct (is_not f); simpl; lia|destruct (is_not f); simpl; lia]. Qed.

Lemma forms_nots_sublist fs gs : sublist fs gs → (forms_nots fs <= forms_nots gs)%nat.
Proof. intros H. unfold forms_nots. pose proof (nots_sublist _ _ H). pose proof (list_max_sublist form_nots _ _ H). lia. Qed.

Lemma forms_depth_sublist fs gs : sublist fs gs → (forms_depth fs <= forms_depth gs)%nat.
Proof. apply list_max_sublist. Qed.

Lemma stmts_nots_elem s ss : s ∈ ss → (forms_nots s <= stmts_nots ss)%nat.
Proof. apply list_max_elem. Qed.

Lemma stmts_depth_elem s ss : s ∈ ss → (forms_depth s <= stmts_depth ss)%nat.
Proof. apply list_max_elem. Qed.

(** A test inside a test list. *)
Lemma listed_test w tests t :
  t ∈ tests →
  (forms_nots t <= forms_nots [FWord w; FTestList tests])%nat ∧
  (S (forms_depth t) <= forms_depth [FWord w; FTestList tests])%nat.
Proof.
  intros Ht. pose proof (list_max_elem forms_nots t tests Ht) as H1. pose proof (list_max_elem forms_depth t tests Ht) as H2.
  split.
  - etrans; [exact H1|]. unfold forms_nots at 2. cbn [List.map list_max foldr form_nots]. unfold forms_nots. lia.
  - unfold forms_depth at 2. cbn [List.map list_max foldr form_depth]. unfold forms_depth in *. lia.
Qed.

(** A test needs a call for each [not], and a level of a test list another. *)
Lemma eval_test_nests n R fs ctx :
  (forms_nots fs <= R)%nat → (1 + nots fs + (R + 1) * forms_depth fs <= n)%nat → is_Some (eval_test n fs ctx).
Proof.
  revert fs ctx. induction n as [|n IH]; intros fs ctx HR Hn; [lia|]. cbn [eval_test].
  destruct fs as [|[w| | | | | |] rest]; try (eexists; reflexivity).
  assert (Hsub : ∀ tests t c, rest = [FTestList tests] → t ∈ tests → is_Some (eval_test n t c)).
  { intros tests t c -> Ht. destruct (listed_test w tests t Ht) as [H1 H2]. apply IH; [lia|].
    assert (Hm := Nat.mul_le_mono_l _ _ (R + 1) H2). rewrite Nat.mul_succ_r in Hm.
    assert (nots t <= R)%nat by (unfold forms_nots in *; lia). lia. }
  do 6 (destruct (is_word _ w); [by eexists|]).
  destruct (is_word "allof" w); [destruct rest as [|[] [|]]; try (by eexists); (apply all_tests_total; by eauto)|].
  destruct (is_word "anyof" w); [destruct rest as [|[] [|]]; try (by eexists); (apply any_tests_total; by eauto)|].
  destruct (is_word "not" w) eqn:Hw; [|destruct (is_word "true" w); by eexists].
  assert (nots (FWord w :: rest) = S (nots rest)) as Hnots by (unfold nots; cbn [List.filter is_not]; by rewrite Hw).
  destruct (IH rest ctx) as ([b c] & ->); [|change (forms_depth rest) with (forms_depth (FWord w :: rest)); lia|by eexists].
  etrans; [|exact HR]. apply forms_nots_sublist. by constructor.
Qed.

(** Enough for every test of a script with at most [R] words [not] in a statement
    and [D] levels of nesting. *)
Definition test_calls (R D : nat) : nat := (R + 1) * (D + 1).

Lemma eval_test_calls n R D fs ctx :
  (forms_nots fs <= R)%nat → (forms_depth fs <= D)%nat → (test_calls R D <= n)%nat → is_Some (eval_test n fs ctx).
Proof.
  intros HR HD Hn. apply (eval_test_nests n R); [done|]. unfold test_calls in Hn. unfold forms_nots in HR.
  assert (Hm := Nat.mul_le_mono_l _ _ (R + 1) HD). rewrite Nat.mul_add_distr_l in Hn. lia.
Qed.

Lemma run_stmts_calls ev ss ctx :
  (∀ s c, depth_kept (ev s c) c) → (∀ s c, s ∈ ss → nesting_depth c = nesting_depth ctx → is_Some (ev s c)) →
  is_Some (run_stmts ev ss ctx).
Proof.
  intros Hk. assert (H : ∀ c, nesting_depth c = nesting_depth ctx →
    (∀ s c, s ∈ ss → nesting_depth c = nesting_depth ctx → is_Some (ev s c)) → is_Some (run_stmts ev ss c)); [|auto].
  induction ss as [|s ss IH]; intros c Hc Hev; simpl; [eauto|].
  destruct (Hev s c ltac:(set_solver) Hc) as ([r c'] & E). rewrite E. apply Hk in E.
  destruct r; eauto. apply IH; [congruence|]. set_solver.
Qed.

(** What [split_block] finds is no deeper and has no more [not]s. *)
Lemma split_block_within R D rest before b after :
  split_block rest = Some (before, b, after) → (forms_nots rest <= R)%nat → (forms_depth rest <= D)%nat →
  ((forms_nots before <= R)%nat ∧ (forms_depth before <= D)%nat) ∧
  ((stmts_nots b <= R)%nat ∧ (stmts_depth b <= D)%nat) ∧ ((forms_nots after <= R)%nat ∧ (forms_depth after <= D)%nat).
Proof.
  intros [-> _]%split_block_weight HR HD.
  assert (Hb : FBlock b ∈ before ++ FBlock b :: after) by set_solver.
  assert (S1 : sublist before (before ++ FBlock b :: after)) by (apply sublist_inserts_r; done).
  assert (S2 : sublist after (before ++ FBlock b :: after)) by (apply sublist_inserts_l, sublist_cons; done).
  pose proof (forms_nots_sublist _ _ S1). pose proof (forms_nots_sublist _ _ S2).
  pose proof (forms_depth_sublist _ _ S1). pose proof (forms_depth_sublist _ _ S2).
  pose proof (list_max_elem form_nots _ _ Hb) as N. pose proof (list_max_elem form_depth _ _ Hb) as M.
  change (form_nots (FBlock b)) with (stmts_nots b) in N. change (form_depth (FBlock b)) with (S (stmts_depth b)) in M.
  assert (stmts_nots b <= forms_nots (before ++ FBlock b :: after))%nat by (unfold forms_nots; lia).
  fold (forms_depth (before ++ FBlock b :: after)) in M. split_and!; lia.
Qed.

(** With [k] levels of [if] left. *)
Definition calls_suffice (R D n : nat) : Prop := ∀ k ctx, MAX_EVAL_DEPTH <= nesting_depth ctx + Z.of_nat k →
  (∀ ss, (stmts_nots ss <= R)%nat → (stmts_depth ss <= D)%nat → (4 * k + 3 + test_calls R D <= n)%nat →
     is_Some (eval_stmt_list n ss ctx)) ∧
  (∀ s, (forms_nots s <= R)%nat → (forms_depth s <= D)%nat → (4 * k + 2 + test_calls R D <= n)%nat →
     is_Some (eval_stmt n s ctx)) ∧
  (∀ rest, (forms_nots rest <= R)%nat → (forms_depth rest <= D)%nat → (4 * k + 1 + test_calls R D <= n)%nat →
     is_Some (eval_if n rest ctx)) ∧
  (∀ rest, (forms_nots rest <= R)%nat → (forms_depth rest <= D)%nat → (4 * k + 4 + test_calls R D <= n)%nat →
     is_Some (eval_elsif_else n rest ctx)).

Lemma forms_tail f rest R D :
  (forms_nots (f :: rest) <= R)%nat → (forms_depth (f :: rest) <= D)%nat →
  (forms_nots rest <= R)%nat ∧ (forms_depth rest <= D)%nat.
Proof.
  intros HR HD. pose proof (forms_nots_sublist rest (f :: rest) ltac:(by constructor)).
  pose proof (forms_depth_sublist rest (f :: rest) ltac:(by constructor)). lia.
Qed.

Lemma calls_suffice_all R D n : calls_suffice R D n.
Proof.
  induction n as [|n IH]; intros k ctx Hk; [split_and!; intros; lia|].
  split_and!; intros x HR HD Hn; cbn [eval_stmt_list eval_stmt eval_if eval_elsif_else].
  - apply run_stmts_calls; [apply depths_kept_all|]. intros s c Hs Hc.
    destruct (IH k c) as (_ & H2 & _); [lia|]. apply H2; [|etrans; [by apply stmts_depth_elem|done]|lia].
    etrans; [by apply stmts_nots_elem|done].
  - destruct x as [|[w| | | | | |] rest]; try by eexists. destruct (forms_tail _ _ _ _ HR HD).
    destruct (is_word "require" w); [by eexists|]. destruct (is_word "if" w).
    { destruct (IH k ctx Hk) as (_ & _ & H3 & _). apply H3; [done..|lia]. }
    repeat (destruct (is_word _ w); [repeat case_match; by eexists|]). by eexists.
  - destruct (Z.leb_spec MAX_EVAL_DEPTH (nesting_depth ctx)); [by eexists|]. destruct k as [|k]; [lia|].
    destruct (split_block x) as [[[before b] after]|] eqn:E; [|by eexists].
    destruct (split_block_within R D x before b after E HR HD) as ([B1 B2] & [N1 N2] & [A1 A2]).
    destruct (eval_test_calls n R D before (add_depth 1 ctx)) as ([t c] & Et); [done|done|lia|]. rewrite Et.
    apply eval_test_depth in Et. cbn in Et. destruct (IH k c) as (H1 & _ & _ & H4); [lia|].
    destruct t; [destruct (H1 b) as ([r c3] & ->)|destruct (H4 after) as ([r c3] & ->)]; (done || lia || by eexists).
  - destruct x as [|[w| | | | | |] tail]; try by eexists. destruct (forms_tail _ _ _ _ HR HD) as [T1 T2].
    destruct (IH k ctx Hk) as (H1 & _ & H3 & _).
    destruct (is_word "elsif" w); [apply H3; [done..|lia]|]. destruct (is_word "else" w); [|by eexists].
    destruct tail as [|[] tail]; try by eexists.
    destruct (split_block_within R D (FBlock stmts :: tail) [] stmts tail eq_refl T1 T2) as (_ & [N1 N2] & _).
    apply H1; [done..|lia].
Qed.

(** The depth of a script that [compile] accepts. *)
Lemma for_each_Ok {A} (f : A → result CompileError ()) l : for_each f l = Ok tt ↔ Forall (λ x, f x = Ok tt) l.
Proof.
  induction l as [|x l IH]; simpl; [by split|]. rewrite Forall_cons, <- IH. destruct (f x) as [[]|]; [|naive_solver].
  naive_solver.
Qed.

Lemma scan_stmt_Ok inside l :
  scan_stmt inside l = Ok tt → Forall (λ f, inside f = Ok tt ∨ form_depth f = O) l.
Proof.
  revert l. fix IH 1. intros [|f l]; simpl; [constructor|]. destruct (is_tag (lit "comparator") f) eqn:Et.
  - destruct l as [|[| |name| | | |] l]; try done. destruct (known_comparator name); [|done]. intros H.
    constructor; [right; by destruct f|]. constructor; [by right|]. by apply IH.
  - destruct (inside f) as [[]|] eqn:Ef; [|done]. intros H. constructor; [by left|]. by apply IH.
Qed.

Lemma list_max_le_all {A} (f : A → nat) l n : Forall (λ x, (f x <= n)%nat) l → (list_max (List.map f l) <= n)%nat.
Proof. induction 1; simpl; lia. Qed.

Lemma form_size_elem f fs : f ∈ fs → (form_size f <= weight fs)%nat.
Proof. induction 1; rewrite weight_cons; lia. Qed.

Lemma validate_inside_depth n d f :
  (form_size f <= n)%nat → (d < MAX_VALIDATE_DEPTH)%nat → validate_inside d f = Ok tt → (d + form_depth f <= MAX_VALIDATE_DEPTH)%nat.
Proof.
  revert d f. induction n as [|n IH]; intros d f Hn Hd; [pose proof (form_size_pos f); lia|].
  assert (Hss : ∀ ss, (stmts_size ss <= S n)%nat → for_each (validate_with (validate_inside (S d)) (S d)) ss = Ok tt →
    (d + S (list_max (List.map (λ s, list_max (List.map form_depth s)) ss)) <= MAX_VALIDATE_DEPTH)%nat).
  { intros ss Hsz Hss%for_each_Ok. cut (list_max (List.map (λ s, list_max (List.map form_depth s)) ss) <= MAX_VALIDATE_DEPTH - S d)%nat; [lia|].
    apply list_max_le_all. rewrite Forall_forall in *. intros s Hs. specialize (Hss s Hs). unfold validate_with in Hss.
    destruct (Nat.leb_spec MAX_VALIDATE_DEPTH (S d)); [done|]. destruct (scan_stmt _ s) as [[]|] eqn:Es; [|done].
    apply scan_stmt_Ok in Es. apply list_max_le_all. rewrite Forall_forall in *. intros g Hg.
    destruct (Es g Hg) as [Hok|Hz]; [|lia]. apply stmts_size_elem in Hs.
    pose proof (form_size_elem g s Hg).
    specialize (IH (S d) g ltac:(lia) ltac:(lia) Hok). lia. }
  destruct f; cbn [validate_inside form_depth]; intros Hv; try lia; apply Hss; done.
Qed.

Lemma check_script_depth parsed script :
  check_script parsed = Ok script → script = parsed ∧ (stmts_depth script <= MAX_VALIDATE_DEPTH)%nat.
Proof.
  unfold check_script. destruct (declared_extensions [] parsed) as [declared|]; [|done].
  destruct (if existsb _ declared then _ else _) as [[]|]; [|done].
  destruct (validate_script parsed) as [[]|] eqn:Ev; [|done]. intros [= <-]. split; [done|].
  unfold validate_script in Ev. rewrite for_each_Ok, Forall_forall in Ev. apply list_max_le_all, Forall_forall.
  intros s Hs. specialize (Ev s Hs). unfold validate_stmt, validate_with in Ev.
  destruct (scan_stmt (validate_inside 0) s) as [[]|] eqn:Es; [|done]. apply scan_stmt_Ok in Es.
  apply list_max_le_all. rewrite Forall_forall in *. intros f Hf. destruct (Es f Hf) as [Hok|Hz]; [|lia].
  apply (validate_inside_depth (form_size f) 0 f); [done|unfold MAX_VALIDATE_DEPTH; lia|done].
Qed.

(** The depth to which the calls of an evaluation nest, for at most [R] words
    [not] in a statement. *)
Definition call_depth (R : nat) : nat := 4 * 32 + 3 + test_calls R MAX_VALIDATE_DEPTH.

Lemma evaluate_nests script raw from to e :
  (stmts_depth script <= MAX_VALIDATE_DEPTH)%nat →
  eval_within (call_depth (stmts_nots script)) script raw from to e = evaluate script raw from to e.
Proof.
  intros Hd. unfold evaluate, eval_script, eval_within. set (ctx := start_ctx _ _ _ _ _).
  destruct (calls_suffice_all (stmts_nots script) MAX_VALIDATE_DEPTH (call_depth (stmts_nots script)) 32%nat ctx ltac:(done))
    as (H1 & _). destruct (H1 script) as ([r c] & E); [done|done|unfold call_depth; lia|].
  destruct (evals_within_all (script_fuel script)) as (H2 & _). destruct (H2 script ctx ltac:(done)) as ([r' c'] & E').
  set (m := max (call_depth (stmts_nots script)) (script_fuel script)).
  destruct (eval_mono_all (call_depth (stmts_nots script)) m ltac:(lia)) as (M1 & _).
  destruct (eval_mono_all (script_fuel script) m ltac:(lia)) as (M2 & _).
  pose proof (M1 _ _ _ E) as F1. pose proof (M2 _ _ _ E') as F2. rewrite F1 in F2. injection F2 as -> ->. by rewrite E, E'.
Qed.

(** C34. Compiling always gives an answer, and a script that [compile] accepts can be
    evaluated in a bounded stack: its blocks and test lists nest at most 32 deep,
    and on every message it yields exactly one action, in calls that nest to a depth
    that only depends on the number of words [not] in a single statement of it
    (164, plus 33 for each).  The recursion of the reader is not so bounded: see
    [reader_nests_without_limit]. *)
Theorem sieve_bounded source :
  ∃ r, compile source = Some r ∧
  ∀ script, r = Ok script →
    (stmts_depth script <= MAX_VALIDATE_DEPTH)%nat ∧
    ∀ raw from to e, ∃ action,
      eval_within (call_depth (stmts_nots script)) script raw from to e = Some [action] ∧
      evaluate script raw from to e = Some [action].
Proof.
  destruct (compile_total source) as [r Hr]. exists r. split; [done|]. intros script ->. unfold compile in Hr.
  destruct (from_utf8 source) as [src|]; [|done]. destruct (parse_source src) as [[parsed|]|]; try done.
  injection Hr as Hr. apply check_script_depth in Hr as [-> Hd]. split; [done|]. intros raw from to e.
  destruct (evaluate_one parsed raw from to e) as [action Ha]. exists action. by rewrite (evaluate_nests _ _ _ _ _ Hd).
Qed.

End Eval.

Module EvalSamples.
Import ToySieveLib.

Definition W (s : string) : Form := FWord (lit s).
Definition false_clause : Clause := ([W "false"], []).
Definition true_clause : Clause := ([W "true"], [[W "discard"]]).
Definition ctx0 : Ctx := start_ctx [] [] [] [] ∅.

Lemma falls_false ctx : falls_through [false_clause] ctx (add_depth 1 ctx).
Proof. apply (falls_cons 1 false_clause [] ctx (add_depth 1 ctx)); [done|done|constructor]. Qed.

Lemma falls_false_n n ctx :
  falls_through (repeat false_clause n) ctx (add_depth (Z.of_nat n) ctx).
Proof.
  revert ctx. induction n as [|n IH]; intros ctx; [rewrite add_depth_0; constructor|].
  apply (falls_cons 1 _ _ ctx (add_depth 1 ctx)); [done|done|].
  replace (add_depth (Z.of_nat (S n)) ctx) with (add_depth (Z.of_nat n) (add_depth 1 ctx)); [apply IH|].
  rewrite add_depth_add. f_equal. lia.
Qed.

Lemma if_chain_first_match_witness :
  ∃ n, ∀ m, (n <= m)%nat →
    eval_stmt m (if_stmt false_clause [true_clause] None) ctx0 = Some (Discard, set_last_action ADiscard ctx0).
Proof.
  apply (if_chain_first_match false_clause [true_clause] None ctx0 Discard).
  - apply (runs_clause 5 [false_clause] true_clause [] None ctx0 (add_depth 1 ctx0) (add_depth 2 ctx0)
             Discard (set_last_action ADiscard (add_depth 2 ctx0)));
      [apply falls_false|reflexivity|reflexivity|reflexivity].
  - apply Z.leb_le. reflexivity.
Defined.

(** Thirty-two failing clauses, then one that holds. *)
Definition long_chain : list Clause := repeat false_clause 31 ++ [true_clause].

Lemma long_chain_is_cut_witness :
  ∃ n, ∀ m, (n <= m)%nat →
    eval_stmt m (if_stmt false_clause long_chain None) ctx0 =
      Some (Continue, add_depth (-32) (add_depth 32 ctx0)).
Proof.
  apply (long_chain_is_cut false_clause long_chain None ctx0 (repeat false_clause 32) [true_clause]);
    [reflexivity|discriminate|apply (falls_false_n 32)|reflexivity].
Defined.

(** The script is accepted, and the message kept although the last clause
    discards it. *)
Definition long_script : Script := [if_stmt false_clause long_chain None].

Lemma long_script_keeps :
  check_script long_script = Ok long_script ∧ evaluate long_script [] [] [] ∅ = Some [AKeep] ∧
  evaluate [if_stmt false_clause [true_clause] None] [] [] [] ∅ = Some [ADiscard].
Proof. split_and!; vm_refl. Qed.

(** An undeclared [environment] test is only noticed right after [if] or
    [elsif]. *)
Definition not_environment : Script :=
  [[W "if"; W "not"; W "environment"; FStr (lit "name"); FStr (lit "x"); FBlock [[W "discard"]]]].

Lemma undeclared_environment_accepted :
  check_script not_environment = Ok not_environment ∧
  evaluate not_environment [] [] [] ∅ = Some [ADiscard].
Proof. split; vm_refl. Qed.

(** [if true { if true { ... } }]. *)
Fixpoint nest (n : nat) : Script :=
  match n with O => [] | S m => [[W "if"; W "true"; FBlock (nest m)]] end.

Lemma nest_ok n : script_ok (nest n).
Proof.
  assert (Hw : ∀ s, match lit s with c :: s' => ident_start c && forallb ident_char s' | [] => false end = true →
                    form_ok (W s)).
  { intros s. intros H. apply ok_word. unfold is_ident. destruct (lit s) as [|c l]; [done|]. to_prop.
    split; [done|by apply forallb_spec]. }
  induction n as [|n IH]; [constructor|]. apply ok_block_cons; [|constructor].
  apply (ok_blocked [_; _] _ []); [hnf; vm_refl| |exact IH|constructor].
  repeat apply ok_forms_cons; try (apply Hw; vm_refl). constructor.
Qed.

(** The reader has no limit: twelve bytes of source make it recurse once more,
    before the depth is checked. *)
Lemma reader_nests_without_limit n :
  parse_source (print_source (nest n)) = Some (Ok (nest n)) ∧ stmts_depth (nest n) = n ∧
  length (print_source (nest n)) = (12 * n)%nat.
Proof.
  split; [by apply source_roundtrip, nest_ok|]. split; [|unfold print_source].
  - induction n as [|n IH]; [done|]. change (stmts_depth (nest (S n))) with (max (max 0 (max 0 (max (S (stmts_depth (nest n))) 0))) 0).
    lia.
  - induction n as [|n IH]; [done|].
    change (print_script (nest (S n))) 
      with ((([Word (lit "if"); Word (lit "true")] ++ ([LBrace] ++ (print_script (nest n) ++ [RBrace])) ++ []) ++ []) ++ []).
    unfold render in *. rewrite !flat_map_app, !length_app, IH.
    change (length (flat_map _ [Word (lit "if"); Word (lit "true")])) with 8%nat. cbn. lia.
Qed.

(** A script nested too deep is read, and then refused. *)
Lemma deep_script_refused :
  check_script (nest 32) = Ok (nest 32) ∧ check_script (nest 33) = Err NestingTooDeep.
Proof. split; vm_refl. Qed.

(** Nothing limits the words [not] of a test, each of which is a call. *)
Definition negations (n : nat) : Script := [W "if" :: repeat (W "not") n ++ [W "true"; FBlock [[W "discard"]]]].

Lemma negations_accepted : check_script (negations 1000) = Ok (negations 1000) ∧ stmts_nots (negations 1000) = 1000%nat.
Proof. split; vm_refl. Qed.

(** The first action ends the script: later ones are not taken. *)
Lemma first_action_ends_script :
  evaluate [[W "fileinto"; FStr (lit "a")]; [W "fileinto"; FStr (lit "b")]; [W "discard"]] [] [] [] ∅ =
    Some [AFileInto (lit "a")].
Proof. vm_refl. Qed.

End EvalSamples.

End SieveEval.
