(* ===== verification/SmtpText.v ===== *)
(** Text the SMTP server works on: the header scanners of
    [crates/smtp/src/queue.rs] and [routing.rs], and the readers and parsers of
    [session.rs] (command lines, DATA bodies, addresses, parameters, SASL PLAIN,
    hop counting).

    What a DATA body reads back to is exact for every message and every size
    limit; two further theorems state how a body ends where it should not. *)

From S2P Require Import Prelude Bytes Utf8 Headers Util Lines Crypto Credentials.

Module SmtpText.
Import Utf8 Headers Util Lines Credentials.

(** ** Header scanners *)

Definition CRLFCRLF : bytes := CRLF ++ CRLF.

Definition header_section_end (b : bytes) : nat :=
  match find_subsequence b CRLFCRLF with
  | Some p => p + 2
  | None => match find_subsequence b [LF; LF] with
            | Some p => p + 1
            | None => length b
            end
  end.

(** The two nested loops as one over the bytes: [at_start] says that the outer
    loop looks at this byte, [i] is its index. *)
Fixpoint find_header_end_from (at_start : bool) (i : nat) (b : bytes) : nat :=
  match b with
  | [] => i
  | c :: b' =>
      if at_start && starts_with b CRLFCRLF then (i + 4)%nat
      else if at_start && starts_with b [LF; LF] then (i + 2)%nat
      else find_header_end_from (c =? LF) (S i) b'
  end.

Definition find_header_end (b : bytes) : nat := find_header_end_from true 0 b.

Definition strip_field_name (line field_name : bytes) : option bytes :=
  if (length line <=? length field_name)%nat then None
  else match drop (length field_name) line with
       | c :: rest =>
           if eq_ignore_ascii_case (take (length field_name) line) field_name && (c =? 58) then Some rest else None
       | [] => None
       end.

Definition trim_angles (v : bytes) : bytes :=
  rev (drop_while (Z.eqb 62) (rev (drop_while (Z.eqb 60) v))).

Fixpoint message_id_in (lines : list bytes) : option bytes :=
  match lines with
  | [] => None
  | line :: lines' =>
      match strip_field_name (strip_cr line) (lit "message-id") with
      | Some rest => Some (trim_angles (trim (default [] (from_utf8 rest))))
      | None => message_id_in lines'
      end
  end.

Definition extract_message_id (b : bytes) : option bytes := message_id_in (split LF (take (find_header_end b) b)).

(** The lines between newlines; the empty piece after a last newline, which the
    loop does not visit, is never counted. *)
Definition is_received (line : bytes) : bool :=
  let line := strip_cr line in
  (9 <=? length line)%nat && eq_ignore_ascii_case (take 9 line) (lit "received:").

Definition count_received_headers (msg : bytes) : nat :=
  length (List.filter is_received (split LF (take (header_section_end msg) msg))).

(** [windows(n).any(|w| w.eq_ignore_ascii_case(needle))] *)
Fixpoint contains_ignore_case (hay needle : bytes) : bool :=
  ((length needle <=? length hay)%nat && eq_ignore_ascii_case (take (length needle) hay) needle) ||
  match hay with [] => false | _ :: hay' => contains_ignore_case hay' needle end.

Definition has_newsgroups_header (raw_message : bytes) : bool :=
  let headers := take (header_section_end raw_message) raw_message in
  contains_ignore_case headers (LF :: lit "Newsgroups:") ||
  ((11 <=? length headers)%nat && eq_ignore_ascii_case (take 11 headers) (lit "Newsgroups:")).

Inductive NewsgroupNameError := NameHasCrLf | NameEmpty | NameHasInvalid.

Definition is_group_char (c : Z) : bool :=
  is_ascii_lower c || is_ascii_digit c || (c =? 46) || (c =? 45) || (c =? 43).

Definition validate_newsgroup_name (name : bytes) : result NewsgroupNameError () :=
  if contains CR name || contains LF name then Err NameHasCrLf
  else if bool_decide (name = []) then Err NameEmpty
  else if negb (forallb is_group_char name) then Err NameHasInvalid
  else Ok tt.

Definition add_newsgroups_header (raw_message newsgroup : bytes) : result NewsgroupNameError bytes :=
  _ ← validate_newsgroup_name newsgroup;
  mret ((lit "Newsgroups: " ++ newsgroup ++ CRLF) ++ raw_message).

(** [str::find] and [str::rfind] of a character. *)
Fixpoint find_char (c : Z) (s : bytes) : option nat :=
  match s with
  | [] => None
  | d :: s' => if d =? c then Some O else S <$> find_char c s'
  end.

Definition rfind_char (c : Z) (s : bytes) : option nat :=
  (λ n, length s - 1 - n)%nat <$> find_char c (rev s).

Definition parse_list_id (header_value : bytes) : option bytes :=
  let trimmed := trim header_value in
  start ← find_char 60 trimmed;
  stop ← rfind_char 62 trimmed;
  if (stop <=? start)%nat then None
  else
    let inner := trim (take (stop - (start + 1)) (drop (start + 1) trimmed)) in
    if bool_decide (inner = []) then None else Some inner.

(** [mail_parser]: the raw value of the List-Id header of a header section. *)
Class MailParserLib := { list_id_raw : bytes → option bytes }.

Definition extract_list_id `{MailParserLib} (raw_message : bytes) : option bytes :=
  raw ← list_id_raw (take (header_section_end raw_message) raw_message);
  parse_list_id raw.

(** ** Command lines *)

Definition MAX_LINE_BYTES : Z := 4096.

Inductive CmdLine := CmdLineOk (line rest : bytes) | CmdEof | CmdTooLong (rest : bytes).

(** The inner loop that drains a line: what follows its newline. *)
Fixpoint drain_line (inp : bytes) : option bytes :=
  match inp with
  | [] => None
  | c :: inp' => if c =? LF then Some inp' else drain_line inp'
  end.

Fixpoint read_command_from (max_bytes : Z) (buf inp : bytes) : CmdLine :=
  match inp with
  | [] => CmdEof
  | c :: inp' =>
      let buf := buf ++ [c] in
      if c =? LF then CmdLineOk (from_utf8_lossy buf) inp'
      else if max_bytes <=? Z.of_nat (length buf) then
        match drain_line inp' with Some rest => CmdTooLong rest | None => CmdEof end
      else read_command_from max_bytes buf inp'
  end.

Definition read_command_line (inp : bytes) : CmdLine := read_command_from MAX_LINE_BYTES [] inp.

Definition split_command (line : bytes) : bytes * bytes :=
  match split_once_by is_ascii_whitespace line with
  | Some (v, a) => (to_ascii_uppercase v, trim a)
  | None => (to_ascii_uppercase line, [])
  end.

(** ** DATA *)

Definition is_terminator (line : bytes) : bool :=
  bool_decide (line = lit "." ++ CRLF) || bool_decide (line = lit "." ++ [LF]).

Definition unstuff (line : bytes) : bytes := if starts_with line (lit "..") then drop 1 line else line.

(** What a whole line does to [body] and [too_large]; [None] ends the body. *)
Definition push_line (max_bytes : Z) (line body : bytes) (too_large : bool) : option (bytes * bool) :=
  if is_terminator line then None
  else if too_large then Some (body, true)
  else
    let body := body ++ unstuff line in
    if max_bytes <? Z.of_nat (length body) then Some ([], true) else Some (body, false).

(** The loops over the bytes: [draining] is the one that skips the rest of an
    overlong line, [line] is [line_buf].  The result has the bytes left. *)
Fixpoint data_loop (max_bytes : Z) (inp : bytes) (draining : bool) (line body : bytes) (too_large : bool) :
    bytes * bool * bytes :=
  match inp with
  | [] => (body, too_large, [])
  | c :: inp' =>
      if draining then data_loop max_bytes inp' (negb (c =? LF)) [] body too_large
      else
        let line := line ++ [c] in
        if c =? LF then
          match push_line max_bytes line body too_large with
          | None => (body, too_large, inp')
          | Some (body, too_large) => data_loop max_bytes inp' false [] body too_large
          end
        else if max_bytes <? Z.of_nat (length line) then data_loop max_bytes inp' true [] [] true
        else data_loop max_bytes inp' false line body too_large
  end.

Definition read_data_body (inp : bytes) (max_bytes : Z) : bytes * bool * bytes :=
  data_loop max_bytes inp false [] [] false.

(** ** Arguments *)

Definition parse_angle_addr (args : bytes) : bytes :=
  let after_colon := match split_once 58 args with Some (_, r) => r | None => args end in
  let trimmed := trim after_colon in
  match split_once 60 trimmed with
  | Some (_, r) => match split_once 62 r with Some (addr, _) => addr | None => trimmed end
  | None => trimmed
  end.

Definition has_requiretls_param (args : bytes) : bool :=
  let params := match split_once 62 args with Some (_, r) => r | None => args end in
  existsb (λ tok, eq_ignore_ascii_case tok (lit "REQUIRETLS")) (split_ascii_whitespace params).

(** ** SASL PLAIN *)

(** [base64::engine::general_purpose::STANDARD]. *)
Class Base64Lib := { base64_decode : bytes → option bytes }.

Definition verify_sasl_plain `{Base64Lib, BcryptLib} (store : CredentialStore) (b64_response : bytes) : option bytes :=
  decoded ← base64_decode (trim b64_response);
  '(p0, rest) ← split_once NUL decoded;
  '(p1, p2) ← split_once NUL rest;
  authzid ← from_utf8 p0;
  authcid ← from_utf8 p1;
  passwd ← from_utf8 p2;
  if bool_decide (authcid = []) then None
  else if negb (bool_decide (authzid = [])) then None
  else if check store authcid passwd then Some (to_ascii_lowercase authcid) else None.

(** ** DATA bodies *)

Lemma data_drain max l rest body tl :
  LF ∉ l → data_loop max (l ++ LF :: rest) true [] body tl = data_loop max rest false [] body tl.
Proof.
  induction l as [|c l IH]; cbn [app data_loop]; [done|]. rewrite not_elem_of_cons. intros [Hc Hl].
  destruct (Z.eqb_spec c LF); [congruence|]. by apply IH.
Qed.

(** A line from the start of it. *)
Lemma data_line_from max l line rest body tl :
  LF ∉ l → Z.of_nat (length line) <= max →
  data_loop max (l ++ LF :: rest) false line body tl =
    if max <? Z.of_nat (length (line ++ l)) then data_loop max rest false [] [] true
    else match push_line max (line ++ l ++ [LF]) body tl with
         | None => (body, tl, rest)
         | Some (body, tl) => data_loop max rest false [] body tl
         end.
Proof.
  revert line. induction l as [|c l IH]; intros line Hl Hm.
  - cbn [app data_loop]. rewrite app_nil_r. cbn. destruct (Z.ltb_spec max (Z.of_nat (length line))); [lia|done].
  - apply not_elem_of_cons in Hl as [Hc Hl]. cbn [app data_loop]. destruct (Z.eqb_spec c LF); [congruence|].
    replace (line ++ c :: l) with ((line ++ [c]) ++ l) by (by rewrite <- app_assoc).
    replace (line ++ c :: l ++ [LF]) with ((line ++ [c]) ++ l ++ [LF]) by (by rewrite <- app_assoc).
    destruct (Z.ltb_spec max (Z.of_nat (length (line ++ [c])))) as [Hlt|Hge]; [|by apply IH].
    rewrite data_drain by done. destruct (Z.ltb_spec max (Z.of_nat (length ((line ++ [c]) ++ l)))) as [|Hle]; [done|].
    rewrite (length_app (line ++ [c])) in Hle. lia.
Qed.

Lemma data_line max l rest body tl :
  0 <= max → LF ∉ l →
  data_loop max (l ++ LF :: rest) false [] body tl =
    if max <? Z.of_nat (length l) then data_loop max rest false [] [] true
    else match push_line max (l ++ [LF]) body tl with
         | None => (body, tl, rest)
         | Some (body, tl) => data_loop max rest false [] body tl
         end.
Proof. intros Hm Hl. by apply (data_line_from max l []). Qed.

Lemma wire_unstuff l : unstuff (wire l ++ CRLF) = l ++ CRLF.
Proof.
  unfold wire, unstuff. destruct (starts_with l (lit ".")) eqn:E.
  - apply starts_with_spec in E as [r ->]. done.
  - cbn [app]. destruct (starts_with (l ++ CRLF) (lit "..")) eqn:E2; [|done].
    apply starts_with_spec in E2 as [r E2]. destruct l as [|c l]; [done|]. injection E2 as -> _.
    by rewrite (proj2 (starts_with_spec _ _)) in E by (by exists l).
Qed.

Lemma wire_not_terminator l : is_terminator (wire l ++ CRLF) = false.
Proof.
  unfold is_terminator, wire. destruct (starts_with l (lit ".")) eqn:E.
  - apply starts_with_spec in E as [r ->]. apply orb_false_intro; apply bool_decide_eq_false_2; [|done].
    by destruct r as [|? [|]].
  - cbn [app]. apply orb_false_intro; apply bool_decide_eq_false_2; destruct l as [|c [|d l]]; try done.
    + by intros [= ->].
    + by destruct l as [|? [|]].
    + by destruct l.
Qed.

Lemma wire_no_lf l : LF ∉ l → LF ∉ wire l ++ [CR].
Proof.
  intros Hl. unfold wire. rewrite !elem_of_app. intros [[H|H]|H]; [|done|by apply (list_elem_of_singleton (A := Z)) in H].
  destruct (starts_with l (lit ".")); [by apply (list_elem_of_singleton (A := Z)) in H|by apply elem_of_nil in H].
Qed.

Lemma length_wire l : (length l <= length (wire l) <= S (length l))%nat.
Proof. unfold wire. rewrite length_app. destruct (starts_with l (lit ".")); simpl; lia. Qed.

(** One line of a message, on the wire. *)
Lemma data_stuffed max l rest body tl :
  0 <= max → LF ∉ l → (tl = true → body = []) →
  data_loop max (stuffed_line l ++ rest) false [] body tl =
    if tl || (max <? Z.of_nat (length (body ++ l ++ CRLF))) then data_loop max rest false [] [] true
    else data_loop max rest false [] (body ++ l ++ CRLF) false.
Proof.
  intros Hm Hl Hb. rewrite stuffed_wire.
  replace ((wire l ++ CRLF) ++ rest) with ((wire l ++ [CR]) ++ LF :: rest) by (by rewrite <- !app_assoc).
  rewrite data_line by (done || by apply wire_no_lf). pose proof (length_wire l) as Hw.
  replace ((wire l ++ [CR]) ++ [LF]) with (wire l ++ CRLF) by (by rewrite <- app_assoc).
  unfold push_line. rewrite wire_not_terminator, wire_unstuff.
  destruct (Z.ltb_spec max (Z.of_nat (length (wire l ++ [CR])))) as [H|H].
  - replace (max <? _) with true; [by rewrite orb_true_r|]. symmetry. apply Z.ltb_lt.
    rewrite !length_app in *. simpl in *. lia.
  - destruct tl; cbn [orb]; [by rewrite Hb|]. by destruct (max <? _).
Qed.

Definition message_size (ls : list bytes) : Z := Z.of_nat (length (render ls)).

Lemma data_lines max ls rest body tl :
  0 <= max → Forall (λ l, LF ∉ l) ls → (tl = true → body = []) → Z.of_nat (length body) <= max →
  data_loop max (concat (stuffed_line <$> ls) ++ rest) false [] body tl =
    if tl || (max <? Z.of_nat (length body) + message_size ls) then data_loop max rest false [] [] true
    else data_loop max rest false [] (body ++ render ls) false.
Proof.
  intros Hm Hls. revert body tl. induction Hls as [|l ls Hl Hls IH]; intros body tl Hb Hbm.
  - cbn [fmap list_fmap concat app]. unfold message_size. cbn. rewrite Z.add_0_r, app_nil_r.
    destruct tl; cbn [orb]; [by rewrite Hb|]. destruct (Z.ltb_spec max (Z.of_nat (length body))); [lia|done].
  - rewrite fmap_cons. cbn [concat]. rewrite <- app_assoc, data_stuffed by done.
    assert (Hs : message_size (l :: ls) = Z.of_nat (length (l ++ CRLF)) + message_size ls).
    { unfold message_size, render. rewrite fmap_cons. cbn [concat]. rewrite length_app. lia. }
    assert (0 <= message_size ls) by (unfold message_size; lia).
    rewrite (length_app body). rewrite Nat2Z.inj_add. rewrite Hs.
    destruct (tl || (max <? Z.of_nat (length body) + Z.of_nat (length (l ++ CRLF)))) eqn:E.
    + rewrite IH by (done || simpl; lia). cbn [orb]. replace (tl || _) with true; [done|].
      symmetry. destruct tl; [done|]. cbn [orb] in *. apply Z.ltb_lt in E. apply Z.ltb_lt. lia.
    + apply orb_false_elim in E as [-> E]. apply Z.ltb_ge in E.
      rewrite IH by (done || rewrite length_app, Nat2Z.inj_add; lia). cbn [orb].
      rewrite (length_app body), Nat2Z.inj_add, Z.add_assoc. destruct (max <? _); [done|].
      unfold render. rewrite fmap_cons. cbn [concat]. by rewrite <- !app_assoc.
Qed.

(** A message of any lines, sent the way RFC 5321 says (every line ended by
    CRLF, leading dots doubled, then the dot), is read back exactly when it
    fits the limit, and refused as too large exactly when it does not; either
    way the connection is left at the first byte after the dot. *)
Lemma data_read_back ls rest max :
  2 <= max → Forall (λ l, LF ∉ l) ls →
  read_data_body (concat (stuffed_line <$> ls) ++ (lit "." ++ CRLF) ++ rest) max =
    if max <? message_size ls then ([], true, rest) else (render ls, false, rest).
Proof.
  intros Hm Hls. unfold read_data_body. change ((lit "." ++ CRLF) ++ rest) with ([46; CR] ++ LF :: rest).
  rewrite data_lines by (done || simpl; lia). change ([] ++ render ls) with (render ls). cbn [orb length].
  rewrite Z.add_0_l.
  assert (Hd : LF ∉ [46; CR]) by (by apply (bool_decide_eq_true_1 _)).
  assert (Hl : max <? Z.of_nat (length [46; CR]) = false) by (apply Z.ltb_ge; simpl; lia).
  destruct (max <? message_size ls); rewrite data_line by (done || lia); by rewrite Hl.
Qed.

(** The end of the connection ends a message like the dot does: of a message
    cut off after any of its lines, what has arrived is returned as if it were
    the whole. *)
Theorem truncated_body_is_complete ls max :
  0 <= max → Forall (λ l, LF ∉ l) ls → message_size ls <= max →
  read_data_body (concat (stuffed_line <$> ls)) max = (render ls, false, []).
Proof.
  intros Hm Hls Hs. unfold read_data_body. rewrite <- (app_nil_r (concat _)).
  rewrite data_lines by (done || simpl; lia). cbn [orb length app]. rewrite Z.add_0_l.
  destruct (Z.ltb_spec max (message_size ls)); [lia|]. done.
Qed.

(** A dot between bare newlines ends a message too.  For a sender whose
    lines end in CRLF only, [x LF . LF y] is one line of text; here the message
    ends within it, and [y] is read as commands. *)
Theorem bare_newlines_end_body ls x y max :
  2 <= max → Forall (λ l, LF ∉ l) ls → LF ∉ x → starts_with x (lit ".") = false →
  message_size ls + Z.of_nat (length x) + 1 <= max →
  read_data_body (concat (stuffed_line <$> ls) ++ (x ++ LF :: lit "." ++ LF :: y)) max =
    (render ls ++ x ++ [LF], false, y).
Proof.
  intros Hm Hls Hx Hdot Hs. unfold read_data_body. rewrite data_lines by (done || simpl; lia).
  change ([] ++ render ls) with (render ls). cbn [orb length].
  rewrite Z.add_0_l. destruct (Z.ltb_spec max (message_size ls)); [lia|].
  assert (Hlen : Z.of_nat (length (render ls)) = message_size ls) by done.
  rewrite data_line by (done || lia). destruct (Z.ltb_spec max (Z.of_nat (length x))); [unfold message_size in *; lia|].
  unfold push_line. replace (is_terminator (x ++ [LF])) with false.
  2:{ symmetry. unfold is_terminator. apply orb_false_intro; apply bool_decide_eq_false_2.
      - by destruct x as [|? [|? [|]]]; intros [= ->].
      - destruct x as [|? [|? [|]]]; try done. by intros [= ->]. }
  replace (unstuff (x ++ [LF])) with (x ++ [LF]).
  2:{ unfold unstuff. destruct (starts_with (x ++ [LF]) (lit "..")) eqn:E; [|done].
      apply starts_with_spec in E as [r E]. destruct x as [|c x]; [done|]. injection E as -> _.
      by rewrite (proj2 (starts_with_spec _ _)) in Hdot by (by exists x). }
  destruct (Z.ltb_spec max (Z.of_nat (length (render ls ++ x ++ [LF])))) as [Hlt|_].
  { rewrite !length_app in Hlt. cbn [length] in Hlt. lia. }
  change (lit "." ++ LF :: y) with ([46] ++ LF :: y).
  rewrite data_line by (lia || by apply (bool_decide_eq_true_1 _)).
  destruct (Z.ltb_spec max (Z.of_nat (length [46]))); [simpl in *; lia|]. done.
Qed.

(** ** Headers put in front *)

(** The rest of a message after a header line: not a blank line. *)
Definition not_blank (m : bytes) : Prop := starts_with m [LF] = false ∧ starts_with m CRLF = false.

Lemma find_past_line needle h m :
  needle = CRLFCRLF ∨ needle = [LF; LF] → LF ∉ h → not_blank m →
  find_subsequence (h ++ CRLF ++ m) needle = Nat.add (length h + 2) <$> find_subsequence m needle.
Proof.
  intros Hn Hh [Hm1 Hm2].
  assert (Hskip : ∀ c b, (match b with LF' :: _ => LF' | [] => 0 end ≠ LF) →
    find_subsequence (c :: b) needle = S <$> find_subsequence b needle).
  { intros c b Hb. cbn [find_subsequence]. replace (starts_with (c :: b) needle) with false; [done|].
    symmetry. destruct (starts_with (c :: b) needle) eqn:E; [|done]. apply starts_with_spec in E as [r E].
    by destruct Hn as [-> | ->]; injection E as -> ->. }
  induction h as [|c h IH].
  - cbn [app length]. change (CRLF ++ m) with (CR :: LF :: m). cbn [find_subsequence].
    assert (starts_with (CR :: LF :: m) needle = false) as ->.
    { destruct (starts_with (CR :: LF :: m) needle) eqn:E; [|done]. apply starts_with_spec in E as [r E].
      destruct Hn as [-> | ->]; [|done]. injection E as ->. by rewrite (proj2 (starts_with_spec _ CRLF)) in Hm2 by (by exists r). }
    assert (starts_with (LF :: m) needle = false) as ->.
    { destruct (starts_with (LF :: m) needle) eqn:E; [|done]. apply starts_with_spec in E as [r E].
      destruct Hn as [-> | ->]; [done|]. injection E as ->. by rewrite (proj2 (starts_with_spec _ [LF])) in Hm1 by (by exists r). }
    by destruct (find_subsequence m needle).
  - apply not_elem_of_cons in Hh as [Hc Hh]. cbn [app]. rewrite Hskip, IH by
      first [done|destruct h as [|d h]; [done|]; cbn; intros ->; apply Hh; constructor].
    by destruct (find_subsequence m needle).
Qed.

Lemma header_section_end_line h m :
  LF ∉ h → not_blank m → header_section_end (h ++ CRLF ++ m) = (length h + 2 + header_section_end m)%nat.
Proof.
  intros Hh Hm. unfold header_section_end. rewrite !find_past_line by auto.
  destruct (find_subsequence m CRLFCRLF); cbn; [lia|]. destruct (find_subsequence m [LF; LF]); cbn; [lia|].
  rewrite length_app. simpl. lia.
Qed.

Lemma header_section_line h m :
  LF ∉ h → not_blank m →
  take (header_section_end (h ++ CRLF ++ m)) (h ++ CRLF ++ m) = h ++ CRLF ++ take (header_section_end m) m.
Proof.
  intros Hh Hm. rewrite header_section_end_line by done. rewrite (app_assoc h), take_app.
  rewrite length_app. change (length CRLF) with 2%nat. rewrite take_ge by (rewrite length_app; simpl; lia).
  replace (_ + _ - _)%nat with (header_section_end m) by lia. by rewrite <- app_assoc.
Qed.

Definition hops (h : bytes) : nat := if is_received (h ++ [CR]) then 1 else 0.

(** A header line in front of a message is counted, and nothing else changes. *)
Lemma count_received_line h m :
  LF ∉ h → not_blank m → count_received_headers (h ++ CRLF ++ m) = (hops h + count_received_headers m)%nat.
Proof.
  intros Hh Hm. unfold count_received_headers, hops. rewrite header_section_line by done.
  replace (h ++ CRLF ++ take (header_section_end m) m) with ((h ++ [CR]) ++ LF :: take (header_section_end m) m)
    by (by rewrite <- app_assoc).
  rewrite split_app_sep by (rewrite elem_of_app; intros [?|H]; [done|by apply (list_elem_of_singleton (A := Z)) in H]).
  cbn [List.filter]. by destruct (is_received (h ++ [CR])).
Qed.

(** ** The end that is not found *)

Definition text_line (h : bytes) : Prop := LF ∉ h ∧ match h with c :: _ => c ≠ CR | [] => False end.

Lemma starts_with_head c s d p : c ≠ d → starts_with (c :: s) (d :: p) = false.
Proof.
  intros H. destruct (starts_with (c :: s) (d :: p)) eqn:E; [|done]. apply starts_with_spec in E as [r E].
  by injection E as ->.
Qed.

Lemma starts_with_head2 c d s p : starts_with s p = false → starts_with (c :: d :: s) (c :: d :: p) = false.
Proof. intros H. cbn. rewrite !Z.eqb_refl. by rewrite H. Qed.

Lemma header_end_mid i h m :
  LF ∉ h → find_header_end_from false i (h ++ LF :: m) = find_header_end_from true (i + length h + 1) m.
Proof.
  revert i. induction h as [|c h IH]; intros i Hh; cbn [app find_header_end_from andb].
  - change (LF =? LF) with true. f_equal. cbn. lia.
  - apply not_elem_of_cons in Hh as [Hc Hh]. destruct (Z.eqb_spec c LF); [congruence|]. rewrite IH by done.
    f_equal. cbn [length]. lia.
Qed.

Lemma header_end_line i h m :
  text_line h → find_header_end_from true i (h ++ CRLF ++ m) = find_header_end_from true (i + length (h ++ CRLF)) m.
Proof.
  intros [Hh Hc]. destruct h as [|c h]; [done|]. apply not_elem_of_cons in Hh as [Hlf Hh].
  change ((c :: h) ++ CRLF ++ m) with (c :: h ++ CRLF ++ m). cbn [find_header_end_from andb].
  replace (starts_with (c :: h ++ CRLF ++ m) CRLFCRLF) with false.
  2:{ symmetry. by apply starts_with_head. }
  replace (starts_with (c :: h ++ CRLF ++ m) [LF; LF]) with false.
  2:{ symmetry. by apply starts_with_head. }
  destruct (Z.eqb_spec c LF); [congruence|].
  replace (h ++ CRLF ++ m) with ((h ++ [CR]) ++ LF :: m) by (by rewrite <- app_assoc).
  rewrite header_end_mid by (rewrite elem_of_app; intros [?|H]; [done|by apply (list_elem_of_singleton (A := Z)) in H]).
  f_equal. rewrite !length_app. simpl. lia.
Qed.

Lemma header_end_lines hs i m :
  Forall text_line hs → find_header_end_from true i (render hs ++ m) = find_header_end_from true (i + length (render hs)) m.
Proof.
  intros Hhs. revert i. induction Hhs as [|h hs Hh Hhs IH]; intros i; [f_equal; simpl; lia|].
  rewrite render_cons. rewrite header_end_line, IH by done. f_equal. unfold render. rewrite fmap_cons. cbn [concat].
  rewrite (length_app (h ++ CRLF)). lia.
Qed.

(** [find_header_end] looks for the blank line at the start of a line only
    together with the end of the line before, so it does not find it: in an
    article whose body has no two blank lines in a row everything is header, and
    [extract_message_id] can return an identifier the body quotes. *)
Theorem header_end_not_found hs bs :
  Forall text_line hs → Forall text_line bs →
  find_header_end (render hs ++ CRLF ++ render bs) = length (render hs ++ CRLF ++ render bs).
Proof.
  intros Hhs Hbs. unfold find_header_end. rewrite header_end_lines by done. cbn [Nat.add].
  assert (Hblank : ∀ i, find_header_end_from true i (CRLF ++ render bs) = find_header_end_from true (i + 2) (render bs ++ [])).
  { intros i. rewrite app_nil_r. change (CRLF ++ render bs) with (CR :: LF :: render bs). cbn [find_header_end_from andb].
    replace (starts_with (CR :: LF :: render bs) CRLFCRLF) with false.
    2:{ symmetry. destruct bs as [|b bs]; [done|]. apply Forall_inv in Hbs as [_ Hb]. destruct b as [|c b]; [done|].
        apply (starts_with_head2 CR LF). unfold render. rewrite fmap_cons. by apply starts_with_head. }
    cbn. f_equal. lia. }
  rewrite Hblank, header_end_lines by done. cbn [find_header_end_from]. rewrite !length_app. simpl. lia.
Qed.

Module TextSamples.

Lemma smuggling_witness :
  read_data_body (concat (stuffed_line <$> [lit "a"]) ++ (lit "b" ++ LF :: lit "." ++ LF :: lit "MAIL FROM:<x>")) 100 =
    (render [lit "a"] ++ lit "b" ++ [LF], false, lit "MAIL FROM:<x>").
Proof.
  refine (bare_newlines_end_body [lit "a"] (lit "b") (lit "MAIL FROM:<x>") 100 _ _ _ _ _); [lia| | |reflexivity|by vm_compute].
  - repeat constructor; by apply (bool_decide_eq_true_1 _).
  - by apply (bool_decide_eq_true_1 _).
Defined.

End TextSamples.

End SmtpText.
