(* ===== verification/SmtpStore.v ===== *)
(** The SMTP server's own database, [crates/smtp/src/store.rs]: Sieve scripts
    and delivered messages; the evaluation of the active script with its cache
    ([sieve_global] of [session.rs]); and the administration of scripts over
    HTTP ([sieve_admin.rs]).

    The script operations refine an abstract map of scripts with at most one
    active script per user, whatever fails.  Two theorems state where the
    composition falls short: uploading a new text of the active script switches
    it off, and a delivery that overlaps an activation puts the old script back
    into the cache. *)

From S2P Require Import Prelude Bytes Utf8 Decimal Sql SieveLexer SieveForm SieveMatch SieveEval.

Module SmtpStore.
Import Utf8 Decimal SieveForm SieveMatch SieveEval Sql.

(** ** Tables *)

Record MailboxMessage := mkMessage {
  mm_username : bytes;
  mm_mailbox : bytes;
  mm_envelope_from : bytes;
  mm_envelope_to : bytes;
  mm_raw_message : bytes
}.

Record SmtpDb := mkDb {
  (** [user_sieve_scripts] by (username, script_name): the text and [active]. *)
  scripts : gmap (bytes * bytes) (bytes * bool);
  mailbox_messages : list MailboxMessage
}.

Definition with_scripts (f : gmap (bytes * bytes) (bytes * bool) → gmap (bytes * bytes) (bytes * bool)) (t : SmtpDb) : SmtpDb :=
  mkDb (f (scripts t)) (mailbox_messages t).

Definition user_scripts (username : bytes) (t : SmtpDb) : list (bytes * (bytes * bool)) :=
  (λ r : (bytes * bytes) * (bytes * bool), (r.1.2, r.2)) <$>
    List.filter (λ r : (bytes * bytes) * (bytes * bool), bool_decide (r.1.1 = username)) (map_to_list (scripts t)).

Definition active_scripts (username : bytes) (t : SmtpDb) : list bytes :=
  (λ r : bytes * (bytes * bool), r.2.1) <$> List.filter (λ r : bytes * (bytes * bool), r.2.2) (user_scripts username t).

(** ** Operations *)

Definition load_active_script (username : bytes) (p : Pool SmtpDb) : option bytes * Pool SmtpDb :=
  match select (λ t, head (active_scripts username t)) p with
  | (Ok r, p') => (r, p')
  | (Err _, p') => (None, p')
  end.

(** [UPDATE .. SET active = 0 WHERE username = ? AND script_name != ? AND active = 1] *)
Definition deactivate_others (username script_name : bytes) : SmtpDb → SmtpDb :=
  with_scripts (map_imap (λ k v, Some (if bool_decide (k.1 = username ∧ k.2 ≠ script_name) then (v.1, false) else v))).

(** The partial unique index: an active row of a user excludes another. *)
Definition other_active (username script_name : bytes) (t : SmtpDb) : bool :=
  existsb (λ r : bytes * (bytes * bool), r.2.2 && negb (bool_decide (r.1 = script_name))) (user_scripts username t).

(** [INSERT .. ON CONFLICT(username, script_name) DO UPDATE SET ..] *)
Definition upsert (username script_name script_bytes : bytes) (active : bool) (t : SmtpDb) : result () SmtpDb :=
  if active && other_active username script_name t then Err tt
  else Ok (with_scripts <[ (username, script_name) := (script_bytes, active) ]> t).

Definition save_script (username script_name script_bytes : bytes) (active : bool) : prog (Pool SmtpDb) () () :=
  tx ← begin_tx;
  tx ← (if active then _ ← round_trip; mret (deactivate_others username script_name tx) else mret tx);
  _ ← round_trip;
  tx ← lift (upsert username script_name script_bytes active tx);
  commit_tx tx.

Definition deliver (username mailbox envelope_from envelope_to raw_message : bytes) : prog (Pool SmtpDb) () () :=
  execute (λ t, mkDb (scripts t)
    (mailbox_messages t ++ [mkMessage username mailbox envelope_from envelope_to raw_message])).

(** [ORDER BY script_name] *)
Definition name_le (a b : bytes * bool) : Prop := bytes_le a.1 b.1.

#[export] Instance name_le_dec : RelDecision name_le.
Proof. intros a b. unfold name_le. apply _. Defined.

Definition list_scripts (username : bytes) : prog (Pool SmtpDb) () (list (bytes * bool)) :=
  select (λ t, merge_sort name_le ((λ r : bytes * (bytes * bool), (r.1, r.2.2)) <$> user_scripts username t)).

Definition get_script (username script_name : bytes) : prog (Pool SmtpDb) () (option bytes) :=
  select (λ t, fst <$> scripts t !! (username, script_name)).

(** [DELETE]; the number of rows it affects comes from the same round trip. *)
Definition delete_script (username script_name : bytes) : prog (Pool SmtpDb) () bool := λ p,
  match execute (with_scripts (delete (username, script_name))) p with
  | (Ok _, p') => (Ok (bool_decide (is_Some (scripts (rows p) !! (username, script_name)))), p')
  | (Err e, p') => (Err e, p')
  end.

Definition deactivate_all (username : bytes) : SmtpDb → SmtpDb :=
  with_scripts (map_imap (λ k v, Some (if bool_decide (k.1 = username) then (v.1, false) else v))).

(** [UPDATE .. SET active = 1 WHERE username = ? AND script_name = ?] *)
Definition activate (username script_name : bytes) (t : SmtpDb) : result () SmtpDb :=
  if other_active username script_name t then Err tt
  else Ok (with_scripts (alter (λ v, (v.1, true)) (username, script_name)) t).

Definition set_active (username script_name : bytes) : prog (Pool SmtpDb) () bool :=
  tx ← begin_tx;
  _ ← round_trip;
  if bool_decide (scripts tx !! (username, script_name) = None) then mret false
  else
    _ ← round_trip;
    let tx := deactivate_all username tx in
    _ ← round_trip;
    tx ← lift (activate username script_name tx);
    _ ← commit_tx tx;
    mret true.

Definition GLOBAL_SCRIPT_KEY : bytes := lit "_global".

(** The continued lines of the literal lose their leading spaces. *)
Definition DEFAULT_GLOBAL_SIEVE_SCRIPT : bytes :=
  lit "require [" ++ [34] ++ lit "fileinto" ++ [34] ++ lit ", " ++ [34] ++ lit "variables" ++ [34] ++ lit "];" ++ [LF; LF] ++
  lit "if header :matches " ++ [34] ++ lit "List-Id" ++ [34] ++ lit " " ++ [34] ++ lit "*<*>*" ++ [34] ++ lit " {" ++ [LF] ++
  lit "set " ++ [34] ++ lit "list_id" ++ [34] ++ lit " " ++ [34] ++ lit "${2}" ++ [34] ++ lit ";" ++ [LF] ++
  lit "fileinto " ++ [34] ++ lit "List/${list_id}" ++ [34] ++ lit ";" ++ [LF] ++
  lit "stop;" ++ [LF] ++ lit "}" ++ [LF].

Definition provision_global_sieve : prog (Pool SmtpDb) () () :=
  already_active ← select (λ t, head (active_scripts GLOBAL_SCRIPT_KEY t));
  match already_active with
  | Some _ => mret tt
  | None => save_script GLOBAL_SCRIPT_KEY (lit "default") DEFAULT_GLOBAL_SIEVE_SCRIPT true
  end.

(** ** The scripts as a map *)

Record ScriptSpec := mkSpec { sp_text : gmap (bytes * bytes) bytes; sp_active : gmap bytes bytes }.

Definition is_active (sp : ScriptSpec) (k : bytes * bytes) : bool := bool_decide (sp_active sp !! k.1 = Some k.2).

Definition represents (t : SmtpDb) (sp : ScriptSpec) : Prop :=
  (∀ k : bytes * bytes, scripts t !! k = (λ b, (b, is_active sp k)) <$> sp_text sp !! k) ∧
  (∀ u n : bytes, sp_active sp !! u = Some n → is_Some (sp_text sp !! (u, n))).

(** The script a user's mail is filtered with. *)
Definition current_script (sp : ScriptSpec) (u : bytes) : option bytes := n ← sp_active sp !! u; sp_text sp !! (u, n).

Inductive ScriptOp :=
| OpSave (username script_name script_bytes : bytes) (active : bool)
| OpDelete (username script_name : bytes)
| OpSetActive (username script_name : bytes).

Definition run_op (o : ScriptOp) : prog (Pool SmtpDb) () bool :=
  match o with
  | OpSave u n b a => _ ← save_script u n b a; mret true
  | OpDelete u n => delete_script u n
  | OpSetActive u n => set_active u n
  end.

Definition forget (u n : bytes) (active : gmap bytes bytes) : gmap bytes bytes :=
  if bool_decide (active !! u = Some n) then delete u active else active.

Definition spec_op (o : ScriptOp) (sp : ScriptSpec) : bool * ScriptSpec :=
  match o with
  | OpSave u n b a =>
      (true, mkSpec (<[ (u, n) := b ]> (sp_text sp)) (if a then <[ u := n ]> (sp_active sp) else forget u n (sp_active sp)))
  | OpDelete u n =>
      (bool_decide (is_Some (sp_text sp !! (u, n))), mkSpec (delete (u, n) (sp_text sp)) (forget u n (sp_active sp)))
  | OpSetActive u n =>
      if bool_decide (sp_text sp !! (u, n) = None) then (false, sp)
      else (true, mkSpec (sp_text sp) (<[ u := n ]> (sp_active sp)))
  end.

Lemma elem_of_user_scripts u n v t : (n, v) ∈ user_scripts u t ↔ scripts t !! (u, n) = Some v.
Proof.
  unfold user_scripts. rewrite list_elem_of_fmap. split.
  - intros ([[u' n'] v'] & Heq & H). injection Heq as -> ->. apply list_elem_of_In, filter_In in H as [H Hu].
    apply bool_decide_eq_true in Hu. cbn in Hu. subst u'. by apply elem_of_map_to_list, list_elem_of_In.
  - intros H. exists ((u, n), v). split; [done|]. apply list_elem_of_In, filter_In. split; [|by apply bool_decide_eq_true].
    by apply list_elem_of_In, elem_of_map_to_list.
Qed.

Lemma other_active_spec u n t :
  other_active u n t = true ↔ ∃ n' b, n' ≠ n ∧ scripts t !! (u, n') = Some (b, true).
Proof.
  unfold other_active. rewrite existsb_exists. split.
  - intros ([n' [b a]] & Hin & Ha). apply list_elem_of_In, elem_of_user_scripts in Hin. cbn in Ha.
    apply andb_true_iff in Ha as [-> Hn]. apply negb_true_iff, bool_decide_eq_false in Hn. eauto.
  - intros (n' & b & Hn & Hl). exists (n', (b, true)). split; [by apply list_elem_of_In, elem_of_user_scripts|].
    cbn. by rewrite bool_decide_eq_false_2.
Qed.

Lemma load_spec u t sp : represents t sp → head (active_scripts u t) = current_script sp u.
Proof.
  intros [Hs Ha]. unfold active_scripts.
  assert (Hin : ∀ n v, (n, v) ∈ List.filter (λ r : bytes * (bytes * bool), r.2.2) (user_scripts u t) ↔
    scripts t !! (u, n) = Some v ∧ v.2 = true).
  { intros n v. by rewrite list_elem_of_In, filter_In, <- list_elem_of_In, elem_of_user_scripts. }
  destruct (List.filter _ _) as [|[n [b a]] l] eqn:E; cbn.
  - unfold current_script. destruct (sp_active sp !! u) as [n|] eqn:Eu; [|done]. cbn.
    destruct (Ha u n Eu) as [b Hb]. destruct (Hin n (b, true)) as [_ []%elem_of_nil]. split; [|done].
    rewrite Hs, Hb. cbn. unfold is_active. by rewrite bool_decide_eq_true_2.
  - destruct (Hin n (b, a)) as [[Hl Hv] _]; [by left|]. cbn in Hv. subst a. rewrite Hs in Hl.
    destruct (sp_text sp !! (u, n)) as [b'|] eqn:Et; [|done]. injection Hl as -> Hact.
    apply bool_decide_eq_true in Hact. cbn in Hact. unfold current_script. by rewrite Hact.
Qed.

Lemma deactivate_others_lookup (u n : bytes) (t : SmtpDb) (k : bytes * bytes) :
  scripts (deactivate_others u n t) !! k =
    (λ v : bytes * bool, if bool_decide (k.1 = u ∧ k.2 ≠ n) then (v.1, false) else v) <$> scripts t !! k.
Proof. cbn. rewrite map_lookup_imap. by destruct (scripts t !! k). Qed.

Lemma deactivate_all_lookup (u : bytes) (t : SmtpDb) (k : bytes * bytes) :
  scripts (deactivate_all u t) !! k =
    (λ v : bytes * bool, if bool_decide (k.1 = u) then (v.1, false) else v) <$> scripts t !! k.
Proof. cbn. rewrite map_lookup_imap. by destruct (scripts t !! k). Qed.

Lemma forget_lookup (u n : bytes) (m : gmap bytes bytes) (u' n' : bytes) :
  forget u n m !! u' = Some n' ↔ m !! u' = Some n' ∧ ¬ (u' = u ∧ n' = n).
Proof.
  unfold forget. case_bool_decide as H; [rewrite lookup_delete_Some|]; naive_solver.
Qed.

Lemma is_active_insert (t : gmap (bytes * bytes) bytes) (m : gmap bytes bytes) (u n : bytes) (k : bytes * bytes) :
  is_active (mkSpec t (<[ u := n ]> m)) k = if bool_decide (k.1 = u) then bool_decide (k.2 = n) else bool_decide (m !! k.1 = Some k.2).
Proof.
  unfold is_active. cbn [sp_active]. destruct (decide (k.1 = u)) as [Hk|Hk].
  - rewrite (bool_decide_eq_true_2 _ Hk), Hk, lookup_insert_eq. apply bool_decide_ext. naive_solver.
  - by rewrite (bool_decide_eq_false_2 _ Hk), lookup_insert_ne.
Qed.

Lemma is_active_forget (t : gmap (bytes * bytes) bytes) (m : gmap bytes bytes) (u n : bytes) (k : bytes * bytes) :
  is_active (mkSpec t (forget u n m)) k = bool_decide (m !! k.1 = Some k.2) && negb (bool_decide (k = (u, n))).
Proof.
  unfold is_active. cbn. rewrite (bool_decide_ext _ _ (forget_lookup u n m k.1 k.2)). destruct k as [k1 k2]. cbn.
  repeat case_bool_decide; naive_solver.
Qed.

Lemma save_represents (u n b : bytes) (a : bool) (t : SmtpDb) (sp : ScriptSpec) :
  represents t sp →
  ∃ t', upsert u n b a (if a then deactivate_others u n t else t) = Ok t' ∧ represents t' (spec_op (OpSave u n b a) sp).2.
Proof.
  intros [Hs Ha]. unfold upsert. destruct a; cbn [andb].
  - replace (other_active u n (deactivate_others u n t)) with false.
    2:{ symmetry. apply not_true_iff_false. rewrite other_active_spec. intros (n' & b' & Hn & Hl).
        rewrite deactivate_others_lookup in Hl. cbn in Hl. rewrite bool_decide_eq_true_2 in Hl by done.
        by destruct (scripts t !! (u, n')). }
    eexists. split; [done|]. split; cbn [spec_op snd scripts with_scripts sp_text sp_active].
    + intros k. rewrite is_active_insert. destruct (decide (k = (u, n))) as [->|Hk].
      * rewrite !lookup_insert_eq. cbn. by rewrite !bool_decide_eq_true_2.
      * rewrite !lookup_insert_ne by done. rewrite deactivate_others_lookup, Hs. unfold is_active.
        destruct (sp_text sp !! k); [|done]. cbn. destruct k as [k1 k2]. cbn. repeat case_bool_decide; naive_solver.
    + intros u' n' H. destruct (decide (u' = u)) as [->|Hu].
      * rewrite lookup_insert_eq in H. injection H as ->. rewrite lookup_insert_eq. eauto.
      * rewrite lookup_insert_ne in H by done. rewrite lookup_insert_ne by congruence. eauto.
  - eexists. split; [done|]. split; cbn [spec_op snd scripts with_scripts sp_text sp_active].
    + intros k. rewrite is_active_forget. destruct (decide (k = (u, n))) as [->|Hk].
      * rewrite !lookup_insert_eq. cbn. by rewrite (bool_decide_eq_true_2 ((u, n) = (u, n))), andb_false_r.
      * rewrite !lookup_insert_ne by done. rewrite Hs, (bool_decide_eq_false_2 (k = (u, n))), andb_true_r by done. done.
    + intros u' n' [H Hne]%forget_lookup. rewrite lookup_insert_ne by naive_solver. eauto.
Qed.

Lemma delete_represents (u n : bytes) (t : SmtpDb) (sp : ScriptSpec) :
  represents t sp → represents (with_scripts (delete (u, n)) t) (spec_op (OpDelete u n) sp).2.
Proof.
  intros [Hs Ha]. split; cbn [spec_op snd scripts with_scripts sp_text sp_active].
  - intros k. rewrite is_active_forget. destruct (decide (k = (u, n))) as [->|Hk].
    + by rewrite !lookup_delete_eq.
    + rewrite !lookup_delete_ne by done. rewrite Hs, (bool_decide_eq_false_2 (k = (u, n))), andb_true_r by done. done.
  - intros u' n' [H Hne]%forget_lookup. rewrite lookup_delete_ne by naive_solver. eauto.
Qed.

Lemma activate_represents (u n : bytes) (t : SmtpDb) (sp : ScriptSpec) :
  represents t sp → is_Some (sp_text sp !! (u, n)) →
  ∃ t', activate u n (deactivate_all u t) = Ok t' ∧ represents t' (mkSpec (sp_text sp) (<[ u := n ]> (sp_active sp))).
Proof.
  intros [Hs Ha] Hn. unfold activate. replace (other_active u n (deactivate_all u t)) with false.
  2:{ symmetry. apply not_true_iff_false. rewrite other_active_spec. intros (n' & b' & _ & Hl).
      rewrite deactivate_all_lookup in Hl. cbn in Hl. rewrite bool_decide_eq_true_2 in Hl by done.
      by destruct (scripts t !! (u, n')). }
  eexists. split; [done|]. split; cbn [scripts with_scripts sp_text sp_active].
  - intros k. rewrite is_active_insert. destruct (decide (k = (u, n))) as [->|Hk].
    + rewrite lookup_alter_eq, deactivate_all_lookup, Hs. destruct (sp_text sp !! (u, n)); [|done]. cbn.
      by rewrite !(bool_decide_eq_true_2 (_ = _)).
    + rewrite lookup_alter_ne by done. rewrite deactivate_all_lookup, Hs. unfold is_active.
      destruct (sp_text sp !! k); [|done]. cbn. destruct k as [k1 k2]. cbn. repeat case_bool_decide; naive_solver.
  - intros u' n' H. destruct (decide (u' = u)) as [->|Hu].
    + rewrite lookup_insert_eq in H. by injection H as <-.
    + rewrite lookup_insert_ne in H by done. eauto.
Qed.

(** A statement of a transaction. *)
Lemma db_outcome_step {B} (p : Pool SmtpDb) (k : prog (Pool SmtpDb) () B) Q X :
  (∀ p', rows p' = rows p → db_outcome p' k Q X) → db_outcome p (mbind (λ _, k) round_trip) Q X.
Proof.
  intros Hk. eapply (db_outcome_bind _ _ _ (λ _, True)); [|auto].
  eapply db_outcome_impl; [apply (round_trip_ok p X)|naive_solver|done].
Qed.

Lemma save_script_ok u n b a p sp :
  represents (rows p) sp →
  db_outcome p (save_script u n b a) (λ _ t, represents t (spec_op (OpSave u n b a) sp).2) (λ _, False).
Proof.
  intros Hr. unfold save_script.
  eapply (db_outcome_bind _ _ _ (λ tx, tx = rows p)); [apply begin_tx_ok|]. intros tx p1 H1 ->.
  eapply (db_outcome_bind _ _ _ (λ tx, tx = if a then deactivate_others u n (rows p) else rows p)).
  { destruct a; [|by apply db_outcome_ret].
    apply db_outcome_step. intros p2 H2. by apply db_outcome_ret. }
  intros tx p2 H2 ->.
  apply db_outcome_step. intros p3 H3.
  destruct (save_represents u n b a _ _ Hr) as (t' & -> & Ht').
  eapply (db_outcome_bind _ _ _ (λ x, x = t')); [by apply db_outcome_ret|]. intros x p4 H4 ->.
  eapply db_outcome_impl; [apply (commit_tx_ok t' p4 (λ _, False))| |done]. by intros _ t ->.
Qed.

Lemma set_active_ok u n p sp :
  represents (rows p) sp →
  db_outcome p (set_active u n) (λ b t, b = (spec_op (OpSetActive u n) sp).1 ∧ represents t (spec_op (OpSetActive u n) sp).2) (λ _, False).
Proof.
  intros Hr. unfold set_active.
  eapply (db_outcome_bind _ _ _ (λ tx, tx = rows p)); [apply begin_tx_ok|]. intros tx p1 H1 ->.
  apply db_outcome_step. intros p2 H2.
  assert (Hex : scripts (rows p) !! (u, n) = None ↔ sp_text sp !! (u, n) = None).
  { destruct Hr as [-> _]. by destruct (sp_text sp !! (u, n)). }
  cbn [spec_op]. rewrite (bool_decide_ext _ _ Hex). case_bool_decide as Hn; [apply db_outcome_ret; split; [done|]; by rewrite H2, H1|].
  apply db_outcome_step. intros p3 H3.
  apply db_outcome_step. intros p4 H4.
  destruct (activate_represents u n _ _ Hr) as (t' & -> & Ht'); [by destruct (sp_text sp !! (u, n))|].
  eapply (db_outcome_bind _ _ _ (λ x, x = t')); [by apply db_outcome_ret|]. intros x p5 H5 ->.
  pose proof (commit_tx_ok t' p5 (λ _, False)) as Hc. unfold db_outcome, mbind, prog_bind in *.
  destruct (commit_tx t' p5) as [[]  p6]; [|done]. destruct Hc as [Hc Ht]. unfold mret, prog_ret. rewrite Ht. auto.
Qed.

(** The script table is a map of scripts in which a user has at most one
    active script.  Saving, deleting and activating change it exactly as the
    map, each as a whole or not at all: an operation fails only when the
    database does, and then nothing has changed; what the mail filter loads is
    the active script. *)
Theorem scripts_refine_map (o : ScriptOp) (p : Pool SmtpDb) (sp : ScriptSpec) :
  represents (rows p) sp →
  db_outcome p (run_op o) (λ b t, b = (spec_op o sp).1 ∧ represents t (spec_op o sp).2) (λ _, False) ∧
  (pool_reliable p → ∀ u, (load_active_script u p).1 = current_script sp u).
Proof.
  intros Hr. split.
  - destruct o as [u n b a|u n|u n]; cbn [run_op].
    + pose proof (save_script_ok u n b a p sp Hr) as H. unfold db_outcome, mbind, prog_bind in *.
      destruct (save_script u n b a p) as [[]  p']; [|done]. destruct H as [? ?]. cbn. auto.
    + pose proof (execute_ok (with_scripts (delete (u, n))) p (λ _, False)) as H. unfold db_outcome, delete_script in *.
      destruct (execute _ p) as [[]  p']; [|done]. destruct H as [H ->]. split; [done|]. split; [|by apply delete_represents].
      cbn. apply bool_decide_ext. destruct Hr as [-> _]. by rewrite fmap_is_Some.
    + by apply set_active_ok.
  - intros Hp u. unfold load_active_script. destruct (select_reliable (λ t, head (active_scripts u t)) p Hp) as (p' & -> & _).
    cbn. by apply load_spec.
Qed.

(** ** Evaluating the active script *)

Section Scripts.
Context {lib : SieveLib}.

(** [compile] and [evaluate] always return ([SieveEval.compile_total],
    [SieveEval.evaluate_one]): the other arms are never taken. *)
Definition compile_script (b : bytes) : result CompileError Script := default (Err InvalidUtf8) (compile b).

Definition run_script (script : Script) (raw from to : bytes) (env : SieveEnv) : list SieveAction :=
  default [] (evaluate script raw from to env).

Lemma run_script_one script raw from to env : ∃ a, run_script script raw from to env = [a].
Proof. unfold run_script. destruct (evaluate_one script raw from to env) as (a & ->). by exists a. Qed.

Abbreviation SieveCache := (gmap bytes Script) (only parsing).

(** The part of [sieve_global] after the script has been loaded. *)
Definition finish_sieve (script_bytes : option bytes) (raw from to : bytes) (env : SieveEnv) (cache : option SieveCache) :
    list SieveAction * option SieveCache :=
  match script_bytes with
  | Some b =>
      match compile_script b with
      | Ok compiled => (run_script compiled raw from to env, insert GLOBAL_SCRIPT_KEY compiled <$> cache)
      | Err _ => ([AKeep], cache)
      end
  | None => ([AKeep], cache)
  end.

Definition sieve_global (raw from to : bytes) (env : SieveEnv) (p : Pool SmtpDb) (cache : option SieveCache) :
    list SieveAction * Pool SmtpDb * option SieveCache :=
  match cache ≫= lookup GLOBAL_SCRIPT_KEY with
  | Some compiled => (run_script compiled raw from to env, p, cache)
  | None =>
      let '(script_bytes, p) := load_active_script GLOBAL_SCRIPT_KEY p in
      let '(actions, cache) := finish_sieve script_bytes raw from to env cache in
      (actions, p, cache)
  end.

Lemma sieve_global_one raw from to env p cache : ∃ a, (sieve_global raw from to env p cache).1.1 = [a].
Proof.
  unfold sieve_global. destruct (cache ≫= _) as [c|]; [apply run_script_one|].
  destruct (load_active_script _ p) as [[b|] p']; cbn; [|by exists AKeep].
  destruct (compile_script b); cbn; [apply run_script_one|by exists AKeep].
Qed.

(** ** Administration *)

Record AdminConfig := mkAdmin { ad_users : list bytes; ad_max_script_bytes : Z; ad_bearer_token : option bytes }.

Record AdminState := mkAdminState { ad_pool : Pool SmtpDb; ad_cache : SieveCache }.

Inductive HttpBody := BodyText (b : bytes) | BodyScripts (l : list (bytes * bool)) | BodyScript (b : bytes) | BodyError.

Record HttpReply := mkReply { status : Z; content : HttpBody }.

Context (cfg : AdminConfig).

Definition valid_script_name (name : bytes) : bool :=
  negb (bool_decide (name = [])) && (Z.of_nat (length name) <=? 256) && negb (contains 47 name) && negb (contains NUL name) &&
  negb (contains_seq name (lit "..")).

Definition user_exists (username : bytes) : bool :=
  eq_ignore_ascii_case username GLOBAL_SCRIPT_KEY || existsb (λ u, bool_decide (u = username)) (ad_users cfg).

Definition normalize_username (username : bytes) : bytes :=
  if eq_ignore_ascii_case username GLOBAL_SCRIPT_KEY then GLOBAL_SCRIPT_KEY else username.

(** The middleware; [auth] is the value of the Authorization header. *)
Definition require_bearer_token {A} (auth : option bytes) (next : A → HttpReply * A) (s : A) : HttpReply * A :=
  match ad_bearer_token cfg with
  | Some expected =>
      if bool_decide (auth = Some (lit "Bearer " ++ expected)) then next s
      else (mkReply 401 (BodyText (lit "Unauthorized")), s)
  | None => next s
  end.

Definition on_pool {A} (m : prog (Pool SmtpDb) () A) (k : A → AdminState → HttpReply * AdminState) (s : AdminState) :
    HttpReply * AdminState :=
  match m (ad_pool s) with
  | (Ok a, p) => k a (mkAdminState p (ad_cache s))
  | (Err _, p) => (mkReply 500 BodyError, mkAdminState p (ad_cache s))
  end.

Definition uncache (username : bytes) (s : AdminState) : AdminState :=
  mkAdminState (ad_pool s) (delete username (ad_cache s)).

Definition admin_list_scripts (username : bytes) (s : AdminState) : HttpReply * AdminState :=
  if negb (user_exists username) then (mkReply 404 (BodyText (lit "user not found")), s)
  else on_pool (list_scripts (normalize_username username)) (λ l s, (mkReply 200 (BodyScripts l), s)) s.

Definition admin_get_script (username name : bytes) (s : AdminState) : HttpReply * AdminState :=
  if negb (user_exists username) then (mkReply 404 (BodyText (lit "user not found")), s)
  else if negb (valid_script_name name) then (mkReply 400 (BodyText (lit "invalid script name")), s)
  else on_pool (get_script (normalize_username username) name)
         (λ r s, (match r with
                  | Some b => mkReply 200 (BodyScript b)
                  | None => mkReply 404 (BodyText (lit "script not found"))
                  end, s)) s.

Definition put_script (username name body : bytes) (s : AdminState) : HttpReply * AdminState :=
  if negb (user_exists username) then (mkReply 404 (BodyText (lit "user not found")), s)
  else if negb (valid_script_name name) then (mkReply 400 (BodyText (lit "invalid script name")), s)
  else if ad_max_script_bytes cfg <? Z.of_nat (length body) then (mkReply 413 (BodyText (lit "script exceeds size limit")), s)
  else match compile_script body with
       | Err _ => (mkReply 422 BodyError, s)
       | Ok _ =>
           on_pool (save_script (normalize_username username) name body false)
             (λ _ s, (mkReply 201 (BodyText []), uncache (normalize_username username) s)) s
       end.

(** DELETE and activate differ in the operation only. *)
Definition admin_change (op : bytes → bytes → prog (Pool SmtpDb) () bool) (username name : bytes) (s : AdminState) :
    HttpReply * AdminState :=
  if negb (user_exists username) then (mkReply 404 (BodyText (lit "user not found")), s)
  else if negb (valid_script_name name) then (mkReply 400 (BodyText (lit "invalid script name")), s)
  else on_pool (op (normalize_username username) name)
         (λ found s, if found : bool then (mkReply 204 (BodyText []), uncache (normalize_username username) s)
                     else (mkReply 404 (BodyText (lit "script not found")), s)) s.

Definition admin_delete_script : bytes → bytes → AdminState → HttpReply * AdminState := admin_change delete_script.
Definition activate_script : bytes → bytes → AdminState → HttpReply * AdminState := admin_change set_active.

Definition admin_check_script (body : bytes) (s : AdminState) : HttpReply * AdminState :=
  (if ad_max_script_bytes cfg <? Z.of_nat (length body) then mkReply 413 (BodyText (lit "script exceeds size limit"))
   else match compile_script body with
        | Ok _ => mkReply 200 (BodyText (lit "OK"))
        | Err _ => mkReply 422 BodyError
        end, s).

(** Uploading a new text of the active script switches the filter off: the
    upload is answered 201, and from then on no script is active, every message
    is kept, and, at the next start, the default script is installed. *)
Theorem upload_disables_active_script (name body : bytes) (s : AdminState) (sp : ScriptSpec) :
  represents (rows (ad_pool s)) sp → sp_active sp !! GLOBAL_SCRIPT_KEY = Some name →
  (put_script GLOBAL_SCRIPT_KEY name body s).1 = mkReply 201 (BodyText []) →
  let s' := (put_script GLOBAL_SCRIPT_KEY name body s).2 in
  (∀ raw from to env, (sieve_global raw from to env (ad_pool s') (Some (ad_cache s'))).1.1 = [AKeep]) ∧
  (pool_reliable (ad_pool s') → ∃ p', provision_global_sieve (ad_pool s') = (Ok tt, p') ∧
     (load_active_script GLOBAL_SCRIPT_KEY p').1 = Some DEFAULT_GLOBAL_SIEVE_SCRIPT).
Proof.
  intros Hr Hact. unfold put_script.
  destruct (negb (user_exists _)); [done|]. destruct (negb (valid_script_name name)); [done|].
  destruct (_ <? _); [done|]. destruct (compile_script body); [|done].
  change (normalize_username GLOBAL_SCRIPT_KEY) with GLOBAL_SCRIPT_KEY. unfold on_pool.
  pose proof (save_script_ok GLOBAL_SCRIPT_KEY name body false _ _ Hr) as H. unfold db_outcome in H.
  destruct (save_script _ _ _ _ _) as [[]  p1]; [|done]. destruct H as [_ H1]. intros _. cbn.
  assert (Hnone : current_script (spec_op (OpSave GLOBAL_SCRIPT_KEY name body false) sp).2 GLOBAL_SCRIPT_KEY = None).
  { unfold current_script. cbn [spec_op snd sp_active]. unfold forget. rewrite bool_decide_eq_true_2 by done.
    by rewrite lookup_delete_eq. }
  assert (Hload : head (active_scripts GLOBAL_SCRIPT_KEY (rows p1)) = None) by (rewrite (load_spec _ _ _ H1); exact Hnone).
  split.
  - intros raw from to env. unfold sieve_global. cbn. rewrite lookup_delete_eq.
    unfold load_active_script, select. pose proof (round_trip_ok p1 (λ _, True)) as Ht. unfold db_outcome in Ht.
    destruct (round_trip p1) as [[]  p2]; [|done]. destruct Ht as [_ ->]. by rewrite Hload.
  - intros Hp. unfold provision_global_sieve.
    destruct (select_reliable (λ t, head (active_scripts GLOBAL_SCRIPT_KEY t)) p1 Hp) as (p2 & E2 & Hr2 & Hp2).
    unfold mbind, prog_bind. rewrite E2, Hload.
    pose proof (save_script_ok GLOBAL_SCRIPT_KEY (lit "default") DEFAULT_GLOBAL_SIEVE_SCRIPT true p2 _ ltac:(rewrite Hr2; exact H1)) as H2.
    unfold db_outcome in H2. destruct (save_script _ _ _ _ _) as [[[]|] p3]; [|by destruct H2 as (_ & _ & [[]|])].
    destruct H2 as [Hp3 H3]. exists p3. split; [done|]. unfold load_active_script.
    destruct (select_reliable (λ t, head (active_scripts GLOBAL_SCRIPT_KEY t)) p3 (Hp3 Hp2)) as (p4 & -> & _). cbn.
    rewrite (load_spec _ _ _ H3). unfold current_script. cbn [spec_op snd sp_active sp_text].
    rewrite lookup_insert_eq. cbn. by rewrite lookup_insert_eq.
Qed.

(** A delivery that overlaps an activation brings the old script back.  The
    delivery finds the cache empty and loads the active script; the
    administrator activates another script and is told 204, the cache is
    cleared; then the delivery stores what it compiled.  From then on every
    message is filtered by the old script, although the table has the new one
    as active. *)
Theorem stale_script_stays_cached (name old new : bytes) (old_script : Script) (p : Pool SmtpDb) (sp : ScriptSpec)
    (cache : gmap bytes Script) (raw from to : bytes) (env : SieveEnv) :
  represents (rows p) sp → pool_reliable p → cache !! GLOBAL_SCRIPT_KEY = None →
  current_script sp GLOBAL_SCRIPT_KEY = Some old → compile_script old = Ok old_script →
  valid_script_name name = true → sp_text sp !! (GLOBAL_SCRIPT_KEY, name) = Some new →
  let '(loaded, p1) := load_active_script GLOBAL_SCRIPT_KEY p in
  let '(reply, s2) := activate_script GLOBAL_SCRIPT_KEY name (mkAdminState p1 cache) in
  let '(_, cache3) := finish_sieve loaded raw from to env (Some (ad_cache s2)) in
  reply = mkReply 204 (BodyText []) ∧ (load_active_script GLOBAL_SCRIPT_KEY (ad_pool s2)).1 = Some new ∧
  ∀ raw' from' to' env', sieve_global raw' from' to' env' (ad_pool s2) cache3 =
    (run_script old_script raw' from' to' env', ad_pool s2, cache3).
Proof.
  intros Hr Hp Hc Hcur Hold Hname Hnew. unfold load_active_script at 1.
  destruct (select_reliable (λ t, head (active_scripts GLOBAL_SCRIPT_KEY t)) p Hp) as (p1 & -> & Hr1 & Hp1).
  rewrite (load_spec _ _ _ Hr), Hcur. unfold activate_script, admin_change.
  assert (user_exists GLOBAL_SCRIPT_KEY = true) as -> by done. rewrite Hname. cbn [negb].
  change (normalize_username GLOBAL_SCRIPT_KEY) with GLOBAL_SCRIPT_KEY. unfold on_pool. cbn [ad_pool ad_cache].
  pose proof (set_active_ok GLOBAL_SCRIPT_KEY name p1 sp ltac:(by rewrite Hr1)) as H2. unfold db_outcome in H2.
  cbn [spec_op] in H2. rewrite bool_decide_eq_false_2 in H2 by (by rewrite Hnew).
  destruct (set_active GLOBAL_SCRIPT_KEY name p1) as [[b|e] p2]; [|by destruct H2 as (_ & _ & [[]|])].
  destruct H2 as (Hp2 & -> & Hr2). unfold finish_sieve. rewrite Hold. cbn. split; [done|]. split.
  - unfold load_active_script. destruct (select_reliable (λ t, head (active_scripts GLOBAL_SCRIPT_KEY t)) p2 (Hp2 Hp1)) as (p3 & -> & _).
    cbn. rewrite (load_spec _ _ _ Hr2). unfold current_script. cbn [snd sp_active sp_text]. by rewrite lookup_insert_eq.
  - intros raw' from' to' env'. unfold sieve_global. cbn. by rewrite lookup_insert_eq.
Qed.

End Scripts.

(** ** Samples *)

Module StoreSamples.
Import ToySieveLib.

Definition keep_text : bytes := lit "keep;".
Definition drop_text : bytes := lit "discard;".

(** Two scripts, [a] active. *)
Definition spec : ScriptSpec :=
  mkSpec {[ (GLOBAL_SCRIPT_KEY, lit "a") := drop_text; (GLOBAL_SCRIPT_KEY, lit "b") := keep_text ]}
    {[ GLOBAL_SCRIPT_KEY := lit "a" ]}.
Definition db : SmtpDb :=
  mkDb {[ (GLOBAL_SCRIPT_KEY, lit "a") := (drop_text, true); (GLOBAL_SCRIPT_KEY, lit "b") := (keep_text, false) ]} [].

Lemma db_represents : represents db spec.
Proof.
  split.
  - intros k. unfold db, spec, is_active. cbn [scripts sp_text sp_active].
    destruct (decide (k = (GLOBAL_SCRIPT_KEY, lit "a"))) as [->|Ha]; [by rewrite !lookup_insert_eq|].
    rewrite !(lookup_insert_ne _ (GLOBAL_SCRIPT_KEY, lit "a")) by done.
    destruct (decide (k = (GLOBAL_SCRIPT_KEY, lit "b"))) as [->|Hb]; [by rewrite !lookup_singleton_eq|].
    by rewrite (lookup_singleton_ne _ _ (keep_text, false)), (lookup_singleton_ne _ _ keep_text) by congruence.
  - intros u n H. cbn [spec sp_active] in H. apply lookup_singleton_Some in H as [<- <-]. cbn [spec sp_text]. rewrite lookup_insert_eq. eauto.
Qed.

Definition admin_cfg : AdminConfig := mkAdmin [] 1000 None.

Lemma scripts_witness :
  db_outcome (mkPool db [false; true]) (run_op (OpDelete GLOBAL_SCRIPT_KEY (lit "a")))
    (λ b t, b = true ∧ represents t (spec_op (OpDelete GLOBAL_SCRIPT_KEY (lit "a")) spec).2) (λ _, False).
Proof. exact (proj1 (scripts_refine_map (OpDelete GLOBAL_SCRIPT_KEY (lit "a")) (mkPool db [false; true]) spec db_represents)). Defined.

Lemma upload_witness :
  (sieve_global [] [] [] ∅ (mkPool db []) None).1.1 = [ADiscard] ∧
  (sieve_global [] [] [] ∅ (ad_pool (put_script admin_cfg GLOBAL_SCRIPT_KEY (lit "a") drop_text (mkAdminState (mkPool db []) ∅)).2)
    (Some (ad_cache (put_script admin_cfg GLOBAL_SCRIPT_KEY (lit "a") drop_text (mkAdminState (mkPool db []) ∅)).2))).1.1 = [AKeep].
Proof.
  split; [vm_refl|].
  exact (proj1 (upload_disables_active_script admin_cfg (lit "a") drop_text (mkAdminState (mkPool db []) ∅) spec db_represents
    ltac:(vm_refl) ltac:(vm_refl)) [] [] [] ∅).
Defined.

Lemma stale_witness :
  let '(loaded, p1) := load_active_script GLOBAL_SCRIPT_KEY (mkPool db []) in
  let '(reply, s2) := activate_script admin_cfg GLOBAL_SCRIPT_KEY (lit "b") (mkAdminState p1 ∅) in
  let '(_, cache3) := finish_sieve loaded [] [] [] ∅ (Some (ad_cache s2)) in
  reply = mkReply 204 (BodyText []) ∧ (load_active_script GLOBAL_SCRIPT_KEY (ad_pool s2)).1 = Some keep_text ∧
  ∀ raw' from' to' env', sieve_global raw' from' to' env' (ad_pool s2) cache3 =
    (run_script [[FWord (lit "discard")]] raw' from' to' env', ad_pool s2, cache3).
Proof.
  apply (stale_script_stays_cached admin_cfg (lit "b") drop_text keep_text _ (mkPool db []) spec ∅ [] [] [] ∅);
    [exact db_represents|constructor|reflexivity|vm_refl|vm_refl|vm_refl|vm_refl].
Defined.

End StoreSamples.

End SmtpStore.
