(* ===== verification/Spool.v ===== *)
(** Spool directories, as the queues of [crates/smtp/src] use them: named files
    that are written, renamed, read and removed one system call at a time, any
    of which can fail.

    A queue entry has a stem without dots; its files are told apart by their
    suffixes, with the rules of [std::path::Path]. *)

From S2P Require Import Prelude Bytes.

Module Spool.

(** ** File names *)

Definition DOT : Z := 46.

(** [rsplit_once('.')]. *)
Definition rsplit_dot (name : bytes) : option (bytes * bytes) :=
  match split_once DOT (rev name) with
  | Some (a, b) => Some (rev b, rev a)
  | None => None
  end.

(** [Path::extension] and [Path::with_extension] of a file name. *)
Definition extension (name : bytes) : option bytes :=
  match rsplit_dot name with
  | Some (before, after) => if bool_decide (before = []) then None else Some after
  | None => None
  end.

Definition with_extension (name ext : bytes) : bytes :=
  match rsplit_dot name with
  | Some (before, _) => (if bool_decide (before = []) then name else before) ++ [DOT] ++ ext
  | None => name ++ [DOT] ++ ext
  end.

Definition ends_with (s p : bytes) : bool := match strip_suffix p s with Some _ => true | None => false end.

(** [format!("{stem}.msg")] and so on. *)
Inductive Kind := Msg | MsgTmp | Env | EnvTmp.

Definition suffix (k : Kind) : bytes :=
  match k with Msg => lit "msg" | MsgTmp => lit "msg.tmp" | Env => lit "env" | EnvTmp => lit "env.tmp" end.

Definition file (k : Kind) (stem : bytes) : bytes := stem ++ [DOT] ++ suffix k.

#[global] Arguments file : simpl never.

(** ** The directory *)

Abbreviation Dir := (gmap bytes bytes) (only parsing).

(** What becomes of a system call; a failed write may leave something. *)
Inductive Io := IoOk | IoFail (left : option bytes).

Definition io_ok (o : Io) : bool := match o with IoOk => true | IoFail _ => false end.

(** [tokio::fs::write]. *)
Definition fs_write (o : Io) (name data : bytes) (d : Dir) : bool * Dir :=
  match o with
  | IoOk => (true, <[ name := data ]> d)
  | IoFail (Some part) => (false, <[ name := part ]> d)
  | IoFail None => (false, d)
  end.

(** [tokio::fs::rename]. *)
Definition fs_rename (o : Io) (src dst : bytes) (d : Dir) : bool * Dir :=
  match o, d !! src with
  | IoOk, Some data => (true, <[ dst := data ]> (delete src d))
  | _, _ => (false, d)
  end.

(** [tokio::fs::remove_file]. *)
Definition fs_remove (o : Io) (name : bytes) (d : Dir) : bool * Dir :=
  match o, d !! name with
  | IoOk, Some _ => (true, delete name d)
  | _, _ => (false, d)
  end.

(** [tokio::fs::read]. *)
Definition fs_read (o : Io) (name : bytes) (d : Dir) : option bytes :=
  match o with IoOk => d !! name | IoFail _ => None end.

(** ** Names of entries *)

Definition stem_ok (stem : bytes) : Prop := stem ≠ [] ∧ DOT ∉ stem.

#[export] Instance stem_ok_dec stem : Decision (stem_ok stem).
Proof. unfold stem_ok. apply _. Defined.

Lemma file_split k stem : DOT ∉ stem → split_once DOT (file k stem) = Some (stem, suffix k).
Proof. intros H. by apply split_once_Some. Qed.

Lemma file_inj k k' st st' : DOT ∉ st → DOT ∉ st' → file k st = file k' st' → k = k' ∧ st = st'.
Proof.
  intros H H' E. pose proof (file_split k st H) as E1. rewrite E, file_split in E1 by done. injection E1 as -> Es.
  by destruct k, k'.
Qed.

Lemma file_ne k k' st st' : DOT ∉ st → DOT ∉ st' → (k ≠ k' ∨ st ≠ st') → file k st ≠ file k' st'.
Proof. intros H H' Hn E. apply file_inj in E as [-> ->]; [|done|done]. naive_solver. Qed.

Lemma strip_suffix_app p s : strip_suffix p (s ++ p) = Some s.
Proof. by apply strip_suffix_Some. Qed.

Lemma ends_with_app s p : ends_with (s ++ p) p = true.
Proof. unfold ends_with. by rewrite strip_suffix_app. Qed.

Lemma rsplit_dot_app b e : DOT ∉ e → rsplit_dot (b ++ [DOT] ++ e) = Some (b, e).
Proof.
  intros H. unfold rsplit_dot. rewrite !rev_app_distr, <- app_assoc.
  assert (E : split_once DOT (rev e ++ rev [DOT] ++ rev b) = Some (rev e, rev b)).
  { apply split_once_Some. split; [done|]. by rewrite list_elem_of_In, <- in_rev, <- list_elem_of_In. }
  rewrite E. by rewrite !rev_involutive.
Qed.

Lemma extension_file k stem :
  stem_ok stem → extension (file k stem) = Some (match k with Msg => lit "msg" | Env => lit "env" | _ => lit "tmp" end).
Proof.
  intros [Hne _]. unfold extension, file. destruct k; cbn [suffix].
  2, 4: change (lit "msg.tmp") with (lit "msg" ++ [DOT] ++ lit "tmp"); change (lit "env.tmp") with (lit "env" ++ [DOT] ++ lit "tmp");
    rewrite !app_assoc, <- (app_assoc _ [DOT]).
  all: rewrite rsplit_dot_app by (by apply (bool_decide_eq_true_1 _)); rewrite bool_decide_eq_false_2; [done|].
  all: by destruct stem.
Qed.

Lemma env_of_msg stem : stem_ok stem → with_extension (file Msg stem) (lit "env") = file Env stem.
Proof.
  intros [Hne _]. unfold with_extension, file. rewrite rsplit_dot_app by (by apply (bool_decide_eq_true_1 _)).
  by rewrite bool_decide_eq_false_2.
Qed.

(** The names the queues sweep as left over. *)
Definition is_tmp (name : bytes) : bool := ends_with name (lit ".msg.tmp") || ends_with name (lit ".env.tmp").

Lemma is_tmp_file k stem : is_tmp (file k stem) = true → k = MsgTmp ∨ k = EnvTmp.
Proof.
  unfold is_tmp, ends_with. destruct k; auto; intros H.
  all: destruct (strip_suffix (lit ".msg.tmp") _) eqn:E1; [apply strip_suffix_Some in E1|
    destruct (strip_suffix (lit ".env.tmp") _) eqn:E2; [apply strip_suffix_Some in E2|done]].
  all: match goal with E : file _ _ = _ |- _ => apply (f_equal last) in E; unfold file in E; rewrite !last_app in E; by cbn in E end.
Qed.

Lemma file_kind k k' st : DOT ∉ st → k ≠ k' → file k st ≠ file k' st.
Proof. intros. apply file_ne; auto. Qed.

Lemma file_of_stem n st : (∃ k, n = file k st) ∨ (∀ k, n ≠ file k st).
Proof.
  destruct (decide (n ∈ [file Msg st; file MsgTmp st; file Env st; file EnvTmp st])) as [H|H].
  - left. rewrite !elem_of_cons in H. destruct H as [->|[->|[->|[->|[]%elem_of_nil]]]]; eauto.
  - right. intros k ->. apply H. rewrite !elem_of_cons. destruct k; auto.
Qed.

(** What a removal leaves. *)
Lemma fs_remove_sub (o : Io) (name : bytes) (d : gmap bytes bytes) (n b : bytes) : (fs_remove o name d).2 !! n = Some b → d !! n = Some b.
Proof.
  unfold fs_remove. destruct o, (d !! name); cbn; try done. by intros [_ ?]%lookup_delete_Some.
Qed.

Lemma remove_other (o : Io) (name : bytes) (d : gmap bytes bytes) (n : bytes) : n ≠ name → (fs_remove o name d).2 !! n = d !! n.
Proof. intros Hn. unfold fs_remove. destruct o, (d !! name); cbn; try done. by rewrite lookup_delete_ne. Qed.

(** Look up the files of one stem after a step. *)
Ltac files :=
  repeat first
    [ rewrite lookup_insert_eq | rewrite lookup_insert_ne by (by apply file_kind)
    | rewrite lookup_delete_eq | rewrite lookup_delete_ne by (by apply file_kind) ].

End Spool.
