(* ===== verification/NntpClient.v ===== *)
(** The NNTP client the SMTP server posts articles with,
    [crates/smtp/src/nntp_client.rs].

    The conversation is a program over the connection: the lines the server
    answers, the writes that fail, and what was sent.  [post_rounds_spec] gives the
    result for every number of transient refusals, [payload_read_back] what the
    server's own reader makes of the article. *)

From S2P Require Import Prelude Bytes Utf8 Headers Util Lines Overview NntpResponse.

Module NntpClient.
Import Utf8 Headers Lines NntpResponse.

Inductive NntpClientError :=
| Io
| TimedOut
| AuthFailed (reply : bytes)
| PermanentRejection (reply : bytes)
| TransientExhausted (reply : bytes)
| Protocol (reply : bytes).

Record NntpClientConfig := mkClientConfig {
  username : option bytes;
  password : option bytes;
  max_retries : nat
}.

(** The connection.  An answer of [None] is a failed read; after the last answer
    the server has closed, which [read_line] reports as an empty line.  A write
    fails when its entry of [broken] is [true]. *)
Record Wire := mkWire { answers : list (option bytes); broken : list bool; sent : list bytes }.

Definition read_line : prog Wire NntpClientError bytes := λ w,
  match answers w with
  | [] => (Ok [], w)
  | a :: l => (match a with Some line => Ok line | None => Err Io end, mkWire l (broken w) (sent w))
  end.

Definition write_all (b : bytes) : prog Wire NntpClientError () := λ w,
  match broken w with
  | true :: l => (Err Io, mkWire (answers w) l (sent w))
  | l => (Ok tt, mkWire (answers w) (tail l) (sent w ++ [b]))
  end.

Definition trim_end (s : bytes) : bytes := rev (trim_end_rev (rev s)).

Definition expect (code : bytes) (e : bytes → NntpClientError) : prog Wire NntpClientError () :=
  line ← read_line;
  if starts_with line code then mret tt else throw (e (trim_end line)).

Fixpoint stuff_from (line_start : bool) (b : bytes) : bytes :=
  match b with
  | [] => []
  | c :: b' => (if line_start && (c =? 46) then [46] else []) ++ c :: stuff_from (c =? LF) b'
  end.

Definition dot_stuff (b : bytes) : bytes := stuff_from true b.

Definition authenticate (config : NntpClientConfig) : prog Wire NntpClientError () :=
  match username config, password config with
  | Some user, Some pass =>
      _ ← write_all (lit "AUTHINFO USER " ++ user ++ CRLF);
      _ ← expect (lit "381") AuthFailed;
      _ ← write_all (lit "AUTHINFO PASS ");
      _ ← write_all pass;
      _ ← write_all CRLF;
      expect (lit "281") AuthFailed
  | _, _ => mret tt
  end.

Definition TERMINATOR : bytes := CRLF ++ lit "." ++ CRLF.

(** One round of the loop: [true] when the server took the article, [false] when
    it asks for another try. *)
Definition post_round (stuffed : bytes) (last_try : bool) : prog Wire NntpClientError bool :=
  _ ← write_all (lit "POST" ++ CRLF);
  _ ← expect (lit "340") Protocol;
  _ ← write_all stuffed;
  _ ← write_all TERMINATOR;
  line ← read_line;
  let code := if bool_decide (3 <= length line)%nat then take 3 line else [] in
  if bool_decide (code = lit "240") || bool_decide (code = lit "250") then mret true
  else if bool_decide (code = lit "437") then throw (PermanentRejection (trim_end line))
  else if bool_decide (code = lit "436") then
    if last_try then throw (TransientExhausted (trim_end line)) else mret false
  else throw (Protocol (trim_end line)).

(** The loop; [left] is how often it may still come round, [max_retries - 1] at
    first, because [attempt >= max_retries] is tested after the increment. *)
Fixpoint post_loop (stuffed : bytes) (left : nat) : prog Wire NntpClientError () :=
  taken ← post_round stuffed (bool_decide (left = 0%nat));
  match taken, left with
  | false, S left' => post_loop stuffed left'
  | _, _ => mret tt
  end.

(** A failed [write_all] whose result is dropped. *)
Definition try_write (b : bytes) : prog Wire NntpClientError () := λ w, (Ok tt, (write_all b w).2).

Definition do_post (config : NntpClientConfig) (connects : bool) (article message_id : bytes) : prog Wire NntpClientError () :=
  if negb connects then throw Io else
  _ ← expect (lit "200") Protocol;
  _ ← authenticate config;
  _ ← post_loop (dot_stuff article) (max_retries config - 1);
  _ ← write_all (lit "ARTICLE <" ++ message_id ++ lit ">" ++ CRLF);
  _ ← read_line;
  try_write (lit "QUIT" ++ CRLF).

(** The whole conversation; the timer can cut it off after any write. *)
Definition post_article (config : NntpClientConfig) (connects : bool) (timer : option nat) (article message_id : bytes) (w : Wire) :
    result NntpClientError () * list bytes :=
  let '(r, w') := do_post config connects article message_id w in
  match timer with
  | None => (r, sent w')
  | Some n => (Err TimedOut, take n (sent w'))
  end.

(** ** What the server reads *)

Lemma stuff_line l rest b : LF ∉ l → stuff_from b (l ++ LF :: rest) = (if b then wire l else l) ++ LF :: stuff_from true rest.
Proof.
  assert (H : ∀ l, LF ∉ l → stuff_from false (l ++ LF :: rest) = l ++ LF :: stuff_from true rest).
  { clear. induction l as [|c l IH]; intros Hl; [done|]. apply not_elem_of_cons in Hl as [Hc Hl]. cbn.
    destruct (Z.eqb_spec c LF); [congruence|]. by rewrite IH. }
  intros Hl. destruct b; [|by apply H]. destruct l as [|c l]; [done|].
  apply not_elem_of_cons in Hl as [Hc Hl]. cbn -[wire]. destruct (Z.eqb_spec c LF); [congruence|]. rewrite H by done.
  unfold wire. change (starts_with (c :: l) (lit ".")) with ((46 =? c) && starts_with l []).
  rewrite (Z.eqb_sym 46 c). cbn. by destruct (c =? 46).
Qed.

Lemma wire_cr l : wire (l ++ [CR]) = wire l ++ [CR].
Proof. unfold wire. rewrite app_assoc. f_equal. by destruct l. Qed.

Lemma dot_stuff_lines (ls : list bytes) (rest : bytes) :
  Forall (λ l, LF ∉ l) ls → stuff_from true (render ls ++ rest) = render (wire <$> ls) ++ stuff_from true rest.
Proof.
  induction 1 as [|l ls Hl _ IH]; [done|]. unfold render in *. cbn [fmap list_fmap concat]. rewrite <- !app_assoc.
  replace (l ++ CRLF ++ concat ((λ h, h ++ CRLF) <$> ls) ++ rest)
    with ((l ++ [CR]) ++ LF :: (concat ((λ h, h ++ CRLF) <$> ls) ++ rest)) by (by rewrite <- app_assoc).
  rewrite stuff_line, IH; [|intros [?|H%(list_elem_of_singleton (A := Z))]%elem_of_app; done].
  rewrite wire_cr, <- !app_assoc. done.
Qed.

(** What [do_post] writes for an article of lines: the server reads back these
    lines and an empty one more, because the terminator starts with a line end of
    its own.  It stops right after the terminator. *)
Theorem payload_read_back (ls : list bytes) (max : Z) (rest : bytes) :
  Forall sendable ls → text_size (ls ++ [[]]) <= max →
  read_dot_terminated (dot_stuff (render ls) ++ TERMINATOR ++ rest) max = (Ok (render (ls ++ [[]])), rest).
Proof.
  intros Hls Hmax. unfold dot_stuff.
  rewrite <- (app_nil_r (render ls)), dot_stuff_lines, !app_nil_r by (by apply sendable_no_lf).
  replace (render (wire <$> ls) ++ TERMINATOR ++ rest)
    with ((render (wire <$> (ls ++ [[]])) ++ lit "." ++ CRLF) ++ rest).
  2:{ unfold render, TERMINATOR. rewrite !fmap_app, concat_app, <- !app_assoc. done. }
  rewrite read_dot_terminated_lines; rewrite ?unstuff_wire_lines; [done| |done].
  apply wire_lines, Forall_app. split; [done|]. constructor; [|done]. by apply (bool_decide_eq_true_1 _).
Qed.

(** ** The rounds *)

Definition code_is (code line : bytes) : Prop := starts_with line code = true.

(** [k] refusals, each after the server asked for the article. *)
Definition rounds (go again : bytes) (k : nat) : list (option bytes) := concat (replicate k [Some go; Some again]).

Definition round_sent (stuffed : bytes) : list bytes := [lit "POST" ++ CRLF; stuffed; TERMINATOR].

(** The verdict on the last answer. *)
Definition verdict (line : bytes) (last_try : bool) : result NntpClientError () :=
  if starts_with line (lit "240") || starts_with line (lit "250") then Ok tt
  else if starts_with line (lit "437") then Err (PermanentRejection (trim_end line))
  else if starts_with line (lit "436") && last_try then Err (TransientExhausted (trim_end line))
  else Err (Protocol (trim_end line)).

Lemma code_prefix (line code : bytes) :
  length code = 3%nat →
  bool_decide ((if bool_decide (3 <= length line)%nat then take 3 line else []) = code) = starts_with line code.
Proof.
  intros Hc. destruct (starts_with line code) eqn:E.
  - apply starts_with_spec in E as [r ->]. apply bool_decide_eq_true_2.
    rewrite bool_decide_eq_true_2 by (rewrite length_app; lia). by rewrite <- Hc, take_app_length.
  - apply bool_decide_eq_false_2. intros H. destruct (decide (3 <= length line)%nat) as [Hl|Hl].
    + rewrite bool_decide_eq_true_2 in H by done.
      enough (starts_with line code = true) by congruence. apply starts_with_spec. exists (drop 3 line).
      by rewrite <- H, take_drop.
    + rewrite bool_decide_eq_false_2 in H by done. by subst.
Qed.

Lemma post_round_one (stuffed go line : bytes) (last_try : bool) (more : list (option bytes)) (out : list bytes) :
  code_is (lit "340") go →
  post_round stuffed last_try (mkWire (Some go :: Some line :: more) [] out) =
    (match verdict line last_try with
     | Ok _ => Ok true
     | Err e => if starts_with line (lit "436") && negb last_try then Ok false else Err e
     end, mkWire more [] (out ++ round_sent stuffed)).
Proof.
  intros Hgo. unfold post_round, expect, round_sent, verdict, code_is, mbind, prog_bind in *. cbn -[starts_with lit trim_end take]. rewrite Hgo.
  cbn -[starts_with lit trim_end take]. rewrite <- !app_assoc. cbn -[starts_with lit trim_end take]. rewrite !code_prefix by done.
  destruct (starts_with line (lit "240")); [done|]. destruct (starts_with line (lit "250")); [done|].
  destruct (starts_with line (lit "437")) eqn:E7.
  - destruct (starts_with line (lit "436")) eqn:E6; [|done].
    apply starts_with_spec in E7 as [r ->], E6 as [r' E6]. done.
  - destruct (starts_with line (lit "436")), last_try; done.
Qed.

Lemma post_loop_rounds (stuffed go again line : bytes) (k left : nat) (more : list (option bytes)) (out : list bytes) :
  code_is (lit "340") go → code_is (lit "436") again → (k <= left)%nat → ~ (code_is (lit "436") line ∧ k < left)%nat →
  post_loop stuffed left (mkWire (rounds go again k ++ Some go :: Some line :: more) [] out) =
    (verdict line (bool_decide (k = left)), mkWire more [] (out ++ concat (replicate (S k) (round_sent stuffed)))).
Proof.
  intros Hgo Hagain. revert left out. induction k as [|k IH]; intros left out Hk Hline.
  - assert (He : post_loop stuffed left (mkWire (Some go :: Some line :: more) [] out) =
      (verdict line (bool_decide (left = 0%nat)), mkWire more [] (out ++ round_sent stuffed))).
    { assert (Hv : starts_with line (lit "436") && negb (bool_decide (left = 0%nat)) = false).
      { unfold code_is in Hline. destruct (starts_with line (lit "436")); [|done].
        rewrite bool_decide_eq_true_2; [done|]. destruct left; [done|]. exfalso. apply Hline. split; [done|lia]. }
      destruct left; cbn [post_loop]; unfold mbind, prog_bind; rewrite post_round_one, Hv by done;
        by destruct (verdict line _) as [[]|]. }
    cbn [rounds replicate concat app]. rewrite He, app_nil_r.
    by replace (bool_decide (left = 0%nat)) with (bool_decide (0%nat = left)) by (apply bool_decide_ext; naive_solver).
  - destruct left as [|left]; [lia|]. cbn [post_loop rounds replicate concat app].
    unfold mbind, prog_bind. rewrite post_round_one by done. unfold code_is in Hagain. rewrite Hagain.
    rewrite (bool_decide_eq_false_2 (S left = 0%nat)) by done.
    assert (∃ e, verdict again false = Err e) as [e ->].
    { apply starts_with_spec in Hagain as [r ->]. cbn. by eexists. }
    cbn [negb andb]. replace (concat (replicate k [Some go; Some again])) with (rounds go again k) by done.
    rewrite IH; [|lia|intros [? ?]; apply Hline; split; [done|lia]]. rewrite <- app_assoc. f_equal.
    f_equal. apply bool_decide_ext. lia.
Qed.

(** The whole conversation, for a server that greets, asks for the article
    every time, refuses it [k] times with 436 and then gives a last answer: the
    client posts [k + 1] times, at most [max_retries] times, or once when
    [max_retries] is 0; it reports success exactly on 240 and 250, the permanent refusal on 437,
    and exhaustion when the last answer it may get is another 436.  The check with
    ARTICLE, whatever it answers, changes nothing. *)
Theorem post_rounds_spec (config : NntpClientConfig) (article message_id hello go again line check : bytes) (k : nat) :
  username config = None → code_is (lit "200") hello → code_is (lit "340") go → code_is (lit "436") again →
  (k <= max_retries config - 1)%nat → ~ (code_is (lit "436") line ∧ k < max_retries config - 1)%nat →
  let posts := concat (replicate (S k) (round_sent (dot_stuff article))) in
  let r := verdict line (bool_decide (k = max_retries config - 1)%nat) in
  post_article config true None article message_id
      (mkWire (Some hello :: rounds go again k ++ [Some go; Some line; Some check]) [] []) =
    (r, posts ++ match r with
                 | Ok _ => [lit "ARTICLE <" ++ message_id ++ lit ">" ++ CRLF; lit "QUIT" ++ CRLF]
                 | Err _ => []
                 end).
Proof.
  intros Hu Hhello Hgo Hagain Hk Hline. cbv zeta. unfold post_article, do_post, expect, mbind, prog_bind.
  cbn [negb answers read_line broken sent]. unfold code_is in Hhello. rewrite Hhello. unfold authenticate. rewrite Hu.
  cbn [mret prog_ret]. rewrite post_loop_rounds by done. rewrite app_nil_l.
  destruct (verdict _ _) as [[]|e]; cbn; [|by rewrite app_nil_r]. by rewrite <- !app_assoc.
Qed.

Module ClientSamples.

Lemma post_rounds_witness :
  post_article (mkClientConfig None None 3) true None (lit "x") (lit "a@b")
    (mkWire [Some (lit "200 hi"); Some (lit "340 go"); Some (lit "436 later"); Some (lit "340 go"); Some (lit "240 ok"); Some (lit "430 no")] [] []) =
  (Ok tt, [lit "POST" ++ CRLF; lit "x"; TERMINATOR; lit "POST" ++ CRLF; lit "x"; TERMINATOR;
           lit "ARTICLE <" ++ lit "a@b" ++ lit ">" ++ CRLF; lit "QUIT" ++ CRLF]).
Proof.
  apply (post_rounds_spec (mkClientConfig None None 3) (lit "x") (lit "a@b") (lit "200 hi") (lit "340 go") (lit "436 later")
    (lit "240 ok") (lit "430 no") 1); try done; cbn; [lia|]. by intros [H _].
Defined.

End ClientSamples.

End NntpClient.
