(* ===== verification/SmtpQueue.v ===== *)
(** The queue of articles the SMTP server posts to the reader,
    [crates/smtp/src/queue.rs].

    Several sessions enqueue at once while one task drains, every system call is
    a step of its own, any call can fail, and the process can stop between any
    two of them.  An article whose sender was told it is queued stays in the
    directory until the server has accepted or finally refused it
    ([queued_article_not_lost]).  The sweep of temporary files at every cycle,
    though, makes an enqueue fail that nothing else disturbs
    ([sweep_breaks_enqueue]). *)

From S2P Require Import Prelude Bytes Utf8 Headers Util Lines Overview NntpResponse Injection SmtpText Spool NntpClient.

Module SmtpQueue.
Import Utf8 Headers Lines NntpResponse Injection SmtpText Spool.

(** [serde_json] for [NntpEnvelope]; [None] is a decoding error. *)
Class EnvelopeLib := {
  envelope_to_vec : InjectionSource → bytes;
  envelope_from_slice : bytes → option InjectionSource
}.

Class EnvelopeLaws (lib : EnvelopeLib) : Prop :=
  envelope_roundtrip s : envelope_from_slice (envelope_to_vec s) = Some s.

(** The DKIM signer: the header line it makes, or an error. *)
Class SignerLib := { dkim_header : option (bytes → option bytes) }.

Definition default_injection_source : InjectionSource := SmtpSieve.

Section Queue.
Context {envs : EnvelopeLib} {signer : SignerLib}.

(** ** Enqueueing *)

Inductive Stage := WriteMsg | WriteEnv | RenameEnv | RenameMsg | Notify | Queued | Refused.

Record Enqueue := mkEnqueue { eq_stem : bytes; eq_article : bytes; eq_source : InjectionSource; eq_stage : Stage }.

Definition at_stage (g : Stage) (e : Enqueue) : Enqueue := mkEnqueue (eq_stem e) (eq_article e) (eq_source e) g.

(** The next system call of [enqueue]; [?] turns a failure into [Refused]. *)
Definition enqueue_step (o : Io) (e : Enqueue) (d : gmap bytes bytes) : Enqueue * gmap bytes bytes :=
  let next (g : Stage) (r : bool * gmap bytes bytes) := (at_stage (if r.1 then g else Refused) e, r.2) in
  let st := eq_stem e in
  match eq_stage e with
  | WriteMsg => next WriteEnv (fs_write o (file MsgTmp st) (eq_article e) d)
  | WriteEnv => next RenameEnv (fs_write o (file EnvTmp st) (envelope_to_vec (eq_source e)) d)
  | RenameEnv => next RenameMsg (fs_rename o (file EnvTmp st) (file Env st) d)
  | RenameMsg => next Notify (fs_rename o (file MsgTmp st) (file Msg st) d)
  | Notify => (at_stage Queued e, d)
  | Queued | Refused => (e, d)
  end.

(** ** Draining *)

(** What the article is sent as; [None] when signing fails. *)
Definition outbound (source : InjectionSource) (b : bytes) : option bytes :=
  let body := (lit "X-Stoa-Injection-Source: " ++ injection_source_to_string source ++ CRLF) ++ b in
  match dkim_header with
  | Some sign => (λ h, h ++ body) <$> sign body
  | None => Some body
  end.

(** The outcomes of [nntp_client::post_article] the drain tells apart. *)
Inductive Verdict := Delivered | Rejected437 | Retry.

Definition verdict_of (r : result NntpClient.NntpClientError ()) : Verdict :=
  match r with
  | Ok _ => Delivered
  | Err (NntpClient.PermanentRejection _) => Rejected437
  | Err _ => Retry
  end.

(** Where the drain task is: between entries, or within one. *)
Inductive Drain :=
| Scanning
| ReadMsg (name : bytes) (source : InjectionSource)
| Posting (name : bytes) (source : InjectionSource) (b : bytes)
| RemoveMsg (name : bytes)
| RemoveEnv (name : bytes).

(** An article the server took or finally refused. *)
Record Posted := mkPosted { po_name : bytes; po_source : InjectionSource; po_bytes : bytes; po_verdict : Verdict }.

(** The next step of [drain_once].  [name] is the entry the directory stream
    gives, which may be any; [o] and [v] are what the call and the server do. *)
Definition drain_step (name : bytes) (o : Io) (v : Verdict) (s : Drain) (d : gmap bytes bytes) :
    Drain * gmap bytes bytes * option Posted :=
  match s with
  | Scanning =>
      if is_tmp name then (Scanning, (fs_remove o name d).2, None)
      else if bool_decide (extension name = Some (lit "msg")) then
        let source := match fs_read o (with_extension name (lit "env")) d with
                      | Some env_bytes => default default_injection_source (envelope_from_slice env_bytes)
                      | None => default_injection_source
                      end in
        (ReadMsg name source, d, None)
      else (Scanning, d, None)
  | ReadMsg name source =>
      match fs_read o name d with
      | Some b => (match outbound source b with Some _ => Posting name source b | None => Scanning end, d, None)
      | None => (Scanning, d, None)
      end
  | Posting name source b =>
      match v with
      | Retry => (Scanning, d, None)
      | _ => (RemoveMsg name, d, Some (mkPosted name source b v))
      end
  | RemoveMsg name =>
      let '(ok, d) := fs_remove o name d in ((if ok then RemoveEnv name else Scanning), d, None)
  | RemoveEnv name => (Scanning, (fs_remove o (with_extension name (lit "env")) d).2, None)
  end.

(** ** The queue with its users *)

Record Queue := mkQueue {
  q_dir : gmap bytes bytes;
  q_drain : Drain;
  (** Calls of [enqueue] that have not returned. *)
  q_running : list Enqueue;
  (** Those that returned [Ok], and what the server took: never read by the code. *)
  q_acked : list Enqueue;
  q_posted : list Posted;
  (** The stems [unique_stem] has given out. *)
  q_stems : list bytes
}.

Definition queue_new : Queue := mkQueue ∅ Scanning [] [] [] [].

Definition returned (e : Enqueue) : list Enqueue := match eq_stage e with Queued => [e] | _ => [] end.
Definition still_running (e : Enqueue) : list Enqueue := match eq_stage e with Queued | Refused => [] | _ => [e] end.

Inductive queue_step : Queue → Queue → Prop :=
| step_call q stem article source :
    stem_ok stem → stem ∉ q_stems q →
    queue_step q (mkQueue (q_dir q) (q_drain q) (mkEnqueue stem article source WriteMsg :: q_running q)
      (q_acked q) (q_posted q) (stem :: q_stems q))
| step_enqueue q l1 e l2 o e' d' :
    q_running q = l1 ++ e :: l2 → enqueue_step o e (q_dir q) = (e', d') →
    queue_step q (mkQueue d' (q_drain q) (l1 ++ still_running e' ++ l2) (returned e' ++ q_acked q) (q_posted q) (q_stems q))
| step_drain q name o v s' d' p :
    drain_step name o v (q_drain q) (q_dir q) = (s', d', p) →
    queue_step q (mkQueue d' s' (q_running q) (q_acked q) (option_list p ++ q_posted q) (q_stems q))
| step_crash q :
    queue_step q (mkQueue (q_dir q) Scanning [] (q_acked q) (q_posted q) (q_stems q)).

Definition queue_reached (q : Queue) : Prop := rtc queue_step queue_new q.

(** ** Nothing acknowledged is lost *)

Context {laws : EnvelopeLaws envs}.

(** The article was handed to the server, with its own source or, when the
    envelope could not be read, with the default one. *)
Definition was_posted (ps : list Posted) (e : Enqueue) : Prop :=
  ∃ p, p ∈ ps ∧ po_name p = file Msg (eq_stem e) ∧ po_bytes p = eq_article e ∧
    (po_source p = eq_source e ∨ po_source p = default_injection_source) ∧ po_verdict p ≠ Retry.

Definition in_queue (d : gmap bytes bytes) (e : Enqueue) : Prop :=
  d !! file Msg (eq_stem e) = Some (eq_article e) ∧
  d !! file Env (eq_stem e) = Some (envelope_to_vec (eq_source e)).

(** The files of an entry by the stage of its [enqueue]. *)
Definition entry_ok (d : gmap bytes bytes) (ps : list Posted) (e : Enqueue) : Prop :=
  let at_ k := d !! file k (eq_stem e) in
  let holds k x := ∀ b, at_ k = Some b → b = x in
  let env := envelope_to_vec (eq_source e) in
  holds Env env ∧
  match eq_stage e with
  | WriteMsg => at_ Msg = None
  | WriteEnv => at_ Msg = None ∧ holds MsgTmp (eq_article e)
  | RenameEnv => at_ Msg = None ∧ holds MsgTmp (eq_article e) ∧ holds EnvTmp env
  | RenameMsg => at_ Msg = None ∧ holds MsgTmp (eq_article e) ∧ at_ Env = Some env
  | Notify | Queued => holds Msg (eq_article e) ∧ (in_queue d e ∨ was_posted ps e)
  | Refused => True
  end.

Definition committed (e : Enqueue) : Prop := eq_stage e = Notify ∨ eq_stage e = Queued.

Definition source_ok (e : Enqueue) (source : InjectionSource) : Prop :=
  source = eq_source e ∨ source = default_injection_source.

(** What the drain task knows of an entry. *)
Definition drain_ok (s : Drain) (ps : list Posted) (e : Enqueue) : Prop :=
  match s with
  | Scanning => True
  | ReadMsg n source => n = file Msg (eq_stem e) → source_ok e source
  | Posting n source b => n = file Msg (eq_stem e) → committed e ∧ source_ok e source ∧ b = eq_article e
  | RemoveMsg n | RemoveEnv n => n = file Msg (eq_stem e) → committed e ∧ was_posted ps e
  end.

(** The name the drain task works on: of an entry, or nobody's. *)
Definition drain_name_ok (s : Drain) (stems : list bytes) : Prop :=
  match s with
  | Scanning => True
  | ReadMsg n source =>
      extension n = Some (lit "msg") ∧
      ∀ st, n = file Msg st → stem_ok st → st ∉ stems → source = default_injection_source
  | Posting n _ _ | RemoveMsg n | RemoveEnv n => ∃ st, n = file Msg st ∧ stem_ok st ∧ st ∈ stems
  end.

Definition entries (q : Queue) : list Enqueue := q_running q ++ q_acked q.

Record queue_inv (q : Queue) : Prop := {
  inv_names n b : q_dir q !! n = Some b → ∃ k st, n = file k st ∧ stem_ok st ∧ st ∈ q_stems q;
  inv_distinct : NoDup (eq_stem <$> entries q);
  inv_stems e : e ∈ entries q → stem_ok (eq_stem e) ∧ eq_stem e ∈ q_stems q;
  inv_entries e : e ∈ entries q → entry_ok (q_dir q) (q_posted q) e;
  inv_drain e : e ∈ entries q → drain_ok (q_drain q) (q_posted q) e;
  inv_name : drain_name_ok (q_drain q) (q_stems q);
  inv_acked e : e ∈ q_acked q → eq_stage e = Queued;
  inv_live e : e ∈ entries q → eq_stage e ≠ Refused
}.

Lemma was_posted_more ps p e : was_posted ps e → was_posted (p ++ ps) e.
Proof. intros (x & Hx & H). exists x. split; [|done]. apply elem_of_app. by right. Qed.

Lemma drain_ok_more s ps p e : drain_ok s ps e → drain_ok s (p ++ ps) e.
Proof. destruct s; cbn; auto; intros H Hn; destruct (H Hn); eauto using was_posted_more. Qed.

(** An entry sees its own files only. *)
Lemma entry_ok_frame d d' ps p e :
  (∀ k, d' !! file k (eq_stem e) = d !! file k (eq_stem e)) → entry_ok d ps e → entry_ok d' (p ++ ps) e.
Proof.
  intros Hd. unfold entry_ok, in_queue. cbv zeta. rewrite !Hd. intros [H1 H]. split; [done|].
  destruct (eq_stage e); rewrite ?Hd; try done.
  all: destruct H as [H [?|?]]; auto using was_posted_more.
Qed.

Lemma enqueue_step_entry o e d ps e' d' :
  DOT ∉ eq_stem e → entry_ok d ps e → enqueue_step o e d = (e', d') → entry_ok d' ps e'.
Proof.
  intros Hst. unfold entry_ok, enqueue_step, fs_write, fs_rename, in_queue. cbv zeta. intros [HE H].
  destruct (eq_stage e) eqn:Eg.
  - destruct o as [|[part|]]; intros [= <- <-]; cbn; files; naive_solver.
  - destruct H as [HM HT]. destruct o as [|[part|]]; intros [= <- <-]; cbn; files; naive_solver.
  - destruct H as (HM & HT & HET). destruct (d !! file EnvTmp (eq_stem e)) as [x|] eqn:Ex, o as [|part];
      intros [= <- <-]; cbn; files; naive_solver.
  - destruct H as (HM & HT & HEn). destruct (d !! file MsgTmp (eq_stem e)) as [x|] eqn:Ex, o as [|part];
      intros [= <- <-]; cbn; files; try done. rewrite (HT x eq_refl).
    split; [done|]. split; [naive_solver|]. by left.
  - intros [= <- <-]. done.
  - intros [= <- <-]. rewrite Eg. done.
  - intros [= <- <-]. rewrite Eg. done.
Qed.

Lemma enqueue_step_same o e d e' d' :
  enqueue_step o e d = (e', d') →
  eq_stem e' = eq_stem e ∧ eq_article e' = eq_article e ∧ eq_source e' = eq_source e ∧ (committed e → committed e').
Proof.
  unfold enqueue_step, committed. destruct (eq_stage e) eqn:Eg; intros [= <- <-]; cbn; try (split_and!; auto; naive_solver).
Qed.

Lemma enqueue_step_others o e d e' d' n :
  enqueue_step o e d = (e', d') → (∀ k, n ≠ file k (eq_stem e)) → d' !! n = d !! n.
Proof.
  unfold enqueue_step, fs_write, fs_rename. intros E Hn.
  destruct (eq_stage e); try (by injection E as <- <-).
  1, 2: destruct o as [|[part|]]; injection E as <- <-; cbn; by rewrite ?lookup_insert_ne by (by intros <-; eapply Hn).
  all: match type of E with context [?m !! ?x] => destruct (m !! x) end; destruct o; injection E as <- <-; cbn; try done.
  all: by rewrite lookup_insert_ne, lookup_delete_ne by (intros <-; by eapply Hn).
Qed.

Lemma drain_ok_same s ps e e' :
  eq_stem e' = eq_stem e → eq_article e' = eq_article e → eq_source e' = eq_source e → (committed e → committed e') →
  drain_ok s ps e → drain_ok s ps e'.
Proof.
  intros H1 H2 H3 Hc. unfold drain_ok, source_ok, was_posted. destruct s; rewrite ?H1, ?H2, ?H3; naive_solver.
Qed.

Lemma inv_new_call q stem article source :
  queue_inv q → stem_ok stem → stem ∉ q_stems q →
  queue_inv (mkQueue (q_dir q) (q_drain q) (mkEnqueue stem article source WriteMsg :: q_running q)
    (q_acked q) (q_posted q) (stem :: q_stems q)).
Proof.
  intros [I1 I2 I3 I4 I5 I6 I7 I8] Hok Hnew.
  assert (Hfree : ∀ k, q_dir q !! file k stem = None).
  { intros k. destruct (q_dir q !! file k stem) as [b|] eqn:E; [|done].
    apply I1 in E as (k' & st & E & [_ Hst] & Hin). apply file_inj in E as [_ ->]; [done|apply Hok|done]. }
  split; cbn; unfold entries; cbn.
  - intros n b (k & st & -> & Hst & Hin)%I1. exists k, st. split_and!; [done|done|by right].
  - constructor; [|exact I2]. intros ([? ? ? ?] & -> & He)%list_elem_of_fmap. by apply I3 in He as [_ ?].
  - intros e [->|He]%elem_of_cons; [by split; [|left]|]. destruct (I3 e He). by split; [|right].
  - intros e [->|He]%elem_of_cons; [|by apply I4]. split; cbn; [by rewrite Hfree|apply Hfree].
  - intros e [->|He]%elem_of_cons; [|by apply I5]. unfold drain_ok, drain_name_ok in *.
    destruct (q_drain q) as [|n src|n src b|n|n]; [done| |..]; cbn; intros ->; [right; by eapply (proj2 I6)|..];
      destruct I6 as (st & E & [_ Hst] & Hin); apply file_inj in E as [_ ->]; done || apply Hok.
  - unfold drain_name_ok in *. destruct (q_drain q) as [|n src|n src b|n|n]; [done| |..].
    + destruct I6 as [He I6]. split; [done|]. intros st Hn Hst Hni. eapply I6; [done|done|]. intros ?. apply Hni. by right.
    + destruct I6 as (st & ? & ? & ?). exists st. split_and!; [done|done|by right].
    + destruct I6 as (st & ? & ? & ?). exists st. split_and!; [done|done|by right].
    + destruct I6 as (st & ? & ? & ?). exists st. split_and!; [done|done|by right].
  - exact I7.
  - intros e [->|He]%elem_of_cons; [done|by apply I8].
Qed.

Lemma inv_crash q : queue_inv q → queue_inv (mkQueue (q_dir q) Scanning [] (q_acked q) (q_posted q) (q_stems q)).
Proof.
  intros [I1 I2 I3 I4 I5 I6 I7 I8]. unfold entries in *.
  assert (Hsub : ∀ e, e ∈ q_acked q → e ∈ q_running q ++ q_acked q) by (intros; apply elem_of_app; auto).
  split; unfold entries; cbn; auto. rewrite fmap_app in I2. by apply NoDup_app in I2 as (_ & _ & ?).
Qed.

Lemma still_or_returned e : e ∈ still_running e ++ returned e → eq_stage e ≠ Refused.
Proof. unfold still_running, returned. destruct (eq_stage e); try done. by intros []%elem_of_nil. Qed.

Lemma enqueue_entries (l1 l2 acked : list Enqueue) (e e' : Enqueue) :
  eq_stem e' = eq_stem e → NoDup (eq_stem <$> (l1 ++ e :: l2) ++ acked) →
  NoDup (eq_stem <$> (l1 ++ still_running e' ++ l2) ++ returned e' ++ acked) ∧
  ∀ x, x ∈ (l1 ++ still_running e' ++ l2) ++ returned e' ++ acked →
    x = e' ∧ eq_stage e' ≠ Refused ∨ x ∈ (l1 ++ e :: l2) ++ acked ∧ eq_stem x ≠ eq_stem e.
Proof.
  intros Hst Hnd.
  assert (Hp : (l1 ++ e :: l2) ++ acked ≡ₚ e :: (l1 ++ l2 ++ acked)) by solve_Permutation.
  assert (Hp' : (l1 ++ still_running e' ++ l2) ++ returned e' ++ acked ≡ₚ (still_running e' ++ returned e') ++ (l1 ++ l2 ++ acked))
    by solve_Permutation.
  rewrite Hp in Hnd. cbn in Hnd. apply NoDup_cons in Hnd as [Hni Hnd]. split.
  - rewrite Hp', fmap_app. unfold still_running, returned. destruct (eq_stage e'); cbn; try done; rewrite Hst; by constructor.
  - intros x. rewrite Hp', Hp, elem_of_app, elem_of_cons. intros [Hx|Hx].
    + left. assert (x = e') as ->; [|split; [done|by apply still_or_returned]].
      unfold still_running, returned in Hx. destruct (eq_stage e'); cbn in Hx; by apply list_elem_of_singleton in Hx || by apply elem_of_nil in Hx.
    + right. split; [by right|]. intros E. apply Hni. apply list_elem_of_fmap. by exists x.
Qed.

Lemma inv_enqueue q l1 e l2 o e' d' :
  queue_inv q → q_running q = l1 ++ e :: l2 → enqueue_step o e (q_dir q) = (e', d') →
  queue_inv (mkQueue d' (q_drain q) (l1 ++ still_running e' ++ l2) (returned e' ++ q_acked q) (q_posted q) (q_stems q)).
Proof.
  intros [I1 I2 I3 I4 I5 I6 I7 I8] Hrun E. unfold entries in *. rewrite Hrun in *.
  assert (He : e ∈ (l1 ++ e :: l2) ++ q_acked q) by (rewrite !elem_of_app, elem_of_cons; auto).
  destruct (enqueue_step_same _ _ _ _ _ E) as (Hst & Har & Hsrc & Hcom). destruct (I3 e He) as [[Hne Hdot] Hin].
  destruct (enqueue_entries l1 l2 (q_acked q) e e' Hst I2) as [Hnd Hmem].
  split; unfold entries; cbn.
  - intros n b Hb. destruct (file_of_stem n (eq_stem e)) as [[k ->]|Hn]; [by exists k, (eq_stem e)|].
    rewrite (enqueue_step_others _ _ _ _ _ n E Hn) in Hb. by eapply I1.
  - exact Hnd.
  - intros x [[-> _]|[Hx _]]%Hmem; [by rewrite Hst|by apply I3].
  - intros x [[-> _]|[Hx Hne']]%Hmem; [by eapply enqueue_step_entry; eauto|].
    apply (entry_ok_frame (q_dir q) d' (q_posted q) []); [|by apply I4]. intros k.
    apply (enqueue_step_others _ _ _ _ _ _ E). intros k' Ek. apply file_inj in Ek as [_ ?]; [done|apply I3, Hx|done].
  - intros x [[-> _]|[Hx _]]%Hmem; [eapply drain_ok_same; eauto|by apply I5].
  - exact I6.
  - intros x. rewrite elem_of_app. intros [Hx|Hx]; [|by apply I7]. unfold returned in Hx.
    destruct (eq_stage e') eqn:Eg; try (by apply elem_of_nil in Hx). by apply list_elem_of_singleton in Hx as ->.
  - intros x [[-> ?]|[Hx _]]%Hmem; [done|by apply I8].
Qed.

(** The directory may lose temporary files, and files of posted entries. *)
Lemma entry_ok_shrink d d' ps p e :
  (∀ k b, d' !! file k (eq_stem e) = Some b → d !! file k (eq_stem e) = Some b) →
  (committed e ∧ was_posted (p ++ ps) e ∨
   d' !! file Msg (eq_stem e) = d !! file Msg (eq_stem e) ∧ d' !! file Env (eq_stem e) = d !! file Env (eq_stem e)) →
  entry_ok d ps e → entry_ok d' (p ++ ps) e.
Proof.
  intros Hsub Hpost [HE H]. split; [eauto|]. destruct Hpost as [[Hc Hp]|[HM HEn]].
  - destruct Hc as [Hc|Hc]; rewrite Hc in *; destruct H as [HM _]; (split; [eauto|by right]).
  - unfold in_queue in *. rewrite HM, ?HEn. destruct (eq_stage e); try done; naive_solver eauto using was_posted_more.
Qed.

(** The steps that only take files away. *)
Lemma inv_shrink q s' d' p :
  queue_inv q →
  (∀ n b, d' !! n = Some b → q_dir q !! n = Some b) →
  (∀ e, e ∈ entries q → committed e ∧ was_posted (p ++ q_posted q) e ∨
     d' !! file Msg (eq_stem e) = q_dir q !! file Msg (eq_stem e) ∧ d' !! file Env (eq_stem e) = q_dir q !! file Env (eq_stem e)) →
  (∀ e, e ∈ entries q → drain_ok s' (p ++ q_posted q) e) → drain_name_ok s' (q_stems q) →
  queue_inv (mkQueue d' s' (q_running q) (q_acked q) (p ++ q_posted q) (q_stems q)).
Proof.
  intros [I1 I2 I3 I4 I5 I6 I7 I8] Hsub Hkeep Hd Hn. split; unfold entries in *; cbn; auto.
  - intros n b Hb. by eapply I1, Hsub.
  - intros e He. eapply entry_ok_shrink; [intros k b; apply Hsub|by apply Hkeep|by apply I4].
Qed.

Lemma env_file_source q name st e :
  queue_inv q → stem_ok st → name = file Msg st → e ∈ entries q → eq_stem e = st → ∀ o,
  source_ok e (match fs_read o (with_extension name (lit "env")) (q_dir q) with
               | Some env_bytes => default default_injection_source (envelope_from_slice env_bytes)
               | None => default_injection_source
               end).
Proof.
  intros I Hst -> He <- o. rewrite env_of_msg by done. unfold fs_read.
  destruct o as [|part]; [|by right]. destruct (q_dir q !! file Env (eq_stem e)) as [b|] eqn:E; [|by right].
  destruct (inv_entries q I e He) as [HE _]. rewrite (HE b E), envelope_roundtrip. by left.
Qed.

(** A message file in the directory is one of a committed entry. *)
Lemma msg_file_committed q e b :
  queue_inv q → e ∈ entries q → q_dir q !! file Msg (eq_stem e) = Some b → committed e ∧ b = eq_article e.
Proof.
  intros I He Hb. destruct (inv_entries q I e He) as [_ H]. pose proof (inv_live q I e He) as Hl.
  unfold committed. rewrite Hb in H. destruct (eq_stage e); try (by destruct H); try done.
  all: destruct H as [H _]; split; [auto|by apply H].
Qed.

Lemma inv_scan q name o v s' d' p :
  queue_inv q → q_drain q = Scanning → drain_step name o v Scanning (q_dir q) = (s', d', p) →
  queue_inv (mkQueue d' s' (q_running q) (q_acked q) (option_list p ++ q_posted q) (q_stems q)).
Proof.
  intros I Hs. unfold drain_step. destruct (is_tmp name) eqn:Et; [|case_bool_decide as Hx]; intros [= <- <- <-].
  - apply inv_shrink; [done|intros; by eapply fs_remove_sub| |done|done]. intros e He. right.
    assert (Hne : ∀ k, k = Msg ∨ k = Env → file k (eq_stem e) ≠ name).
    { intros k Hk <-. apply is_tmp_file in Et. naive_solver. }
    rewrite !remove_other by auto. done.
  - apply inv_shrink; [done|done|by right| |].
    + intros e He. cbn. intros Hn. eapply env_file_source; [done|apply (inv_stems q I e He)|done|done|done].
    + split; [done|]. intros st Hn Hst Hni. rewrite Hn, env_of_msg by done. unfold fs_read.
      destruct o; [|done]. destruct (q_dir q !! file Env st) as [b|] eqn:E; [|done].
      apply (inv_names q I) in E as (k & st' & E & [_ Hd] & Hin). apply file_inj in E as [_ ->]; [done|apply Hst|done].
  - apply inv_shrink; [done|done|by right|done|done].
Qed.

Lemma inv_drain_step q name o v s' d' p :
  queue_inv q → drain_step name o v (q_drain q) (q_dir q) = (s', d', p) →
  queue_inv (mkQueue d' s' (q_running q) (q_acked q) (option_list p ++ q_posted q) (q_stems q)).
Proof.
  intros I E. pose proof (inv_drain q I) as HD. pose proof (inv_name q I) as HN.
  assert (Hstay : queue_inv (mkQueue (q_dir q) Scanning (q_running q) (q_acked q) ([] ++ q_posted q) (q_stems q))).
  { apply inv_shrink; [done|done|by right|done|done]. }
  destruct (q_drain q) as [|n src|n src b|n|n] eqn:Ed; [by eapply inv_scan| |..]; cbn in E, HD, HN.
  - unfold fs_read in E. destruct o as [|part]; [|injection E as <- <- <-; exact Hstay].
    destruct (q_dir q !! n) as [b|] eqn:Eb; [|injection E as <- <- <-; exact Hstay].
    destruct (outbound src b); injection E as <- <- <-; [|exact Hstay].
    apply inv_shrink; [done|done|by right| |].
    + intros e He. cbn. intros ->. destruct (msg_file_committed q e b I He Eb) as [Hc ->]. split_and!; [done|by apply HD|done].
    + apply (inv_names q I) in Eb as (k & st & -> & Hst & Hin). exists st. split_and!; [|done|done].
      destruct HN as [HN _]. rewrite extension_file in HN by done. by destruct k.
  - assert (Hgo : ∀ v', v' ≠ Retry → queue_inv (mkQueue (q_dir q) (RemoveMsg n) (q_running q) (q_acked q)
      ([mkPosted n src b v'] ++ q_posted q) (q_stems q))).
    { intros v' Hv. apply inv_shrink; [done|done|by right| |done].
      intros e He. cbn. intros Hn. destruct (HD e He Hn) as (Hc & Hsrc & Hb). split; [done|].
      exists (mkPosted n src b v'). split_and!; [by left|done|done|exact Hsrc|done]. }
    destruct v; injection E as <- <- <-; [by apply Hgo|by apply Hgo|exact Hstay].
  - destruct HN as (st & -> & Hst & Hin).
    assert (Hrest : ∀ o' e, e ∈ entries q → committed e ∧ was_posted (q_posted q) e ∨
      (fs_remove o' (file Msg st) (q_dir q)).2 !! file Msg (eq_stem e) = q_dir q !! file Msg (eq_stem e) ∧
      (fs_remove o' (file Msg st) (q_dir q)).2 !! file Env (eq_stem e) = q_dir q !! file Env (eq_stem e)).
    { intros o' e He. destruct (inv_stems q I e He) as [[_ Hd] _]. destruct (decide (eq_stem e = st)) as [<-|Hne]; [by left; apply HD|].
      right. rewrite !remove_other by (apply file_ne; auto; apply Hst). done. }
    destruct (fs_remove o (file Msg st) (q_dir q)) as [ok d1] eqn:Er. injection E as <- <- <-.
    pose proof (Hrest o) as Hr. pose proof (fs_remove_sub o (file Msg st) (q_dir q)) as Hsub. rewrite Er in Hr, Hsub.
    apply inv_shrink; [done|exact Hsub|exact Hr|by destruct ok|]. destruct ok; [|done]. by exists st.
  - injection E as <- <- <-. destruct HN as (st & -> & Hst & Hin). rewrite env_of_msg by done.
    apply inv_shrink; [done|intros; by eapply fs_remove_sub| |done|done].
    intros e He. destruct (inv_stems q I e He) as [[_ Hd] _]. destruct (decide (eq_stem e = st)) as [<-|Hne]; [by left; apply HD|].
    right. rewrite !remove_other by (apply file_ne; auto; apply Hst). done.
Qed.

Lemma queue_new_inv : queue_inv queue_new.
Proof.
  split; unfold entries; cbn; try done; try (by intros e He; apply elem_of_nil in He).
  constructor.
Qed.

Lemma reached_inv q : queue_reached q → queue_inv q.
Proof.
  intros H. unfold queue_reached in H. remember queue_new as q0 eqn:E. assert (I : queue_inv q0) by (subst; apply queue_new_inv).
  clear E. induction H as [q|q0 q1 q2 Hs _ IH]; [done|]. apply IH.
  destruct Hs; [by apply inv_new_call|by eapply inv_enqueue|by eapply inv_drain_step|by apply inv_crash].
Qed.

(** C9. An article whose [enqueue] returned success is not lost: in every state
    the queue can reach, with sessions and the drain task interleaved at their
    system calls, calls failing and the process stopping anywhere, its message
    and its envelope are in the directory unless the news server has accepted
    or finally refused exactly that article. *)
Theorem queued_article_not_lost q e :
  queue_reached q → e ∈ q_acked q → in_queue (q_dir q) e ∨ was_posted (q_posted q) e.
Proof.
  intros I%reached_inv He. destruct (inv_entries q I e) as [_ H]; [apply elem_of_app; by right|].
  rewrite (inv_acked q I e He) in H. apply H.
Qed.

(** An [enqueue] no failure and no sweep disturbs returns. *)
Lemma undisturbed_enqueue (q : Queue) (stem article : bytes) (source : InjectionSource) :
  queue_reached q → stem_ok stem → stem ∉ q_stems q → q_running q = [] →
  ∃ q', queue_reached q' ∧ q_acked q' = mkEnqueue stem article source Queued :: q_acked q.
Proof.
  intros Hq Hok Hnew Hrun. eexists. split.
  - eapply transitivity; [exact Hq|]. eapply rtc_l; [by apply (step_call _ stem article source)|]. rewrite Hrun.
    destruct Hok as [_ Hdot].
    do 2 (eapply rtc_l; [eapply (step_enqueue _ [] _ [] IoOk); reflexivity|]; cbn).
    do 2 (eapply rtc_l; [eapply (step_enqueue _ [] _ [] IoOk); [reflexivity|]; cbn; unfold fs_rename; files; reflexivity|]; cbn).
    eapply rtc_l; [eapply (step_enqueue _ [] _ [] IoOk); reflexivity|]. apply rtc_refl.
  - reflexivity.
Qed.

(** The sweep of temporary files runs at every cycle, not only after a crash:
    when it comes between the first and the last call of an [enqueue], that
    [enqueue] fails although no system call did, and leaves its envelope behind. *)
Theorem sweep_breaks_enqueue (stem article : bytes) (source : InjectionSource) (v : Verdict) (d : gmap bytes bytes) :
  stem_ok stem →
  let '(e1, d1) := enqueue_step IoOk (mkEnqueue stem article source WriteMsg) d in
  let '(s, d2, _) := drain_step (file MsgTmp stem) IoOk v Scanning d1 in
  let '(e2, d3) := enqueue_step IoOk e1 d2 in
  let '(e3, d4) := enqueue_step IoOk e2 d3 in
  let '(e4, d5) := enqueue_step IoOk e3 d4 in
  eq_stage e4 = Refused ∧ d5 !! file Env stem = Some (envelope_to_vec source).
Proof.
  intros [Hne Hdot]. cbn. assert (is_tmp (file MsgTmp stem) = true) as ->.
  { unfold is_tmp. replace (file MsgTmp stem) with (stem ++ lit ".msg.tmp") by done. by rewrite ends_with_app. }
  unfold fs_remove. cbn. rewrite lookup_insert_eq. cbn. unfold fs_rename. files. cbn. files. cbn. split; [done|]. by files.
Qed.

(** ** One [enqueue] after another *)

(** [unique_stem]: the clock and a counter. *)
Class StemLib := { unique_stem : nat → bytes }.

Context {stems : StemLib}.

(** The queue as one session sees it: the directory, what the coming system calls
    do, and the counter. *)
Record Spooler := mkSpooler { sp_dir : gmap bytes bytes; sp_io : list Io; sp_seq : nat }.

Fixpoint finish_enqueue (n : nat) (io : list Io) (e : Enqueue) (d : gmap bytes bytes) : Enqueue * list Io * gmap bytes bytes :=
  match n, eq_stage e with
  | O, _ | _, Queued | _, Refused => (e, io, d)
  | S n', _ => let '(e', d') := enqueue_step (default IoOk (head io)) e d in finish_enqueue n' (tail io) e' d'
  end.

(** Five calls at most. *)
Definition enqueue (article : bytes) (source : InjectionSource) : prog Spooler () () := λ q,
  let e := mkEnqueue (unique_stem (sp_seq q)) article source WriteMsg in
  let '(e', io, d) := finish_enqueue 5 (sp_io q) e (sp_dir q) in
  (match eq_stage e' with Queued => Ok tt | _ => Err tt end, mkSpooler d io (S (sp_seq q))).

Lemma finish_enqueue_ok (n : nat) (io : list Io) (e : Enqueue) (d : gmap bytes bytes) (e' : Enqueue) (io' : list Io) (d' : gmap bytes bytes) :
  DOT ∉ eq_stem e → entry_ok d [] e → finish_enqueue n io e d = (e', io', d') →
  entry_ok d' [] e' ∧ eq_stem e' = eq_stem e ∧ eq_article e' = eq_article e ∧ eq_source e' = eq_source e ∧
  ∀ x, (∀ k, x ≠ file k (eq_stem e)) → d' !! x = d !! x.
Proof.
  revert io e d. induction n as [|n IH]; intros io e d Hdot He; cbn [finish_enqueue].
  - destruct (eq_stage e); by intros [= <- <- <-].
  - destruct (enqueue_step (default IoOk (head io)) e d) as [e1 d1] eqn:E.
    destruct (enqueue_step_same _ _ _ _ _ E) as (H1 & H2 & H3 & _).
    assert (Hgo : finish_enqueue n (tail io) e1 d1 = (e', io', d') → entry_ok d' [] e' ∧ eq_stem e' = eq_stem e ∧
      eq_article e' = eq_article e ∧ eq_source e' = eq_source e ∧ ∀ x, (∀ k, x ≠ file k (eq_stem e)) → d' !! x = d !! x).
    { intros Hf. destruct (IH (tail io) e1 d1) as (A & B & C & D & F); [by rewrite H1|by eapply enqueue_step_entry|done|].
      split_and!; [done|congruence..|]. intros x Hx. rewrite F by (by rewrite H1). by eapply enqueue_step_others. }
    destruct (eq_stage e) eqn:Eg; try exact Hgo; by intros [= <- <- <-].
Qed.

(** The stems are new: nothing in the directory has the coming ones. *)
Definition spooler_ok (q : Spooler) : Prop :=
  (∀ i, stem_ok (unique_stem i)) ∧ (∀ i j, unique_stem i = unique_stem j → i = j) ∧
  ∀ i k, (sp_seq q <= i)%nat → sp_dir q !! file k (unique_stem i) = None.

Lemma enqueue_outcome (article : bytes) (source : InjectionSource) (q : Spooler) :
  spooler_ok q →
  let '(r, q') := enqueue article source q in
  spooler_ok q' ∧ sp_seq q' = S (sp_seq q) ∧
  (∀ x, (∀ k, x ≠ file k (unique_stem (sp_seq q))) → sp_dir q' !! x = sp_dir q !! x) ∧
  (r = Ok tt → in_queue (sp_dir q') (mkEnqueue (unique_stem (sp_seq q)) article source Queued)).
Proof.
  intros (Hok & Hinj & Hfree). unfold enqueue.
  destruct (finish_enqueue _ _ _ _) as [[e' io'] d'] eqn:E.
  apply finish_enqueue_ok in E as (He & H1 & H2 & H3 & Hothers); [|apply Hok|].
  2:{ split; cbn; [|by apply Hfree]. intros b. by rewrite Hfree. }
  cbn in *. split_and!; [|done|done|].
  - split_and!; [done|done|]. cbn. intros i k Hi. rewrite Hothers; [apply Hfree; lia|].
    intros k' Ek. apply file_inj in Ek as [_ Ek]; [|apply Hok..]. apply Hinj in Ek. lia.
  - destruct He as [_ He]. destruct (eq_stage e') eqn:Eg; try done. intros _. destruct He as [_ [Hq|(p & Hp & _)]]; [|by apply elem_of_nil in Hp].
    unfold in_queue in *. cbn. by rewrite H1, H2, H3 in Hq.
Qed.

End Queue.

Module QueueSamples.

#[export] Instance sample_envs : EnvelopeLib := {
  envelope_to_vec s := injection_source_to_string s;
  envelope_from_slice b :=
    list_find (λ s, injection_source_to_string s = b) [NntpPost; SmtpNewsgroups; SmtpSieve; SmtpListId] ≫= λ p, Some p.2
}.

#[export] Instance sample_laws : EnvelopeLaws sample_envs.
Proof. by intros []. Qed.

#[export] Instance sample_signer : SignerLib := { dkim_header := None }.

(** Stems of [n + 1] letters. *)
#[export] Instance sample_stems : StemLib := { unique_stem n := replicate (S n) 97 }.

Lemma sample_stem_ok n : stem_ok (unique_stem n).
Proof.
  split; [done|]. intros [Hc _]%elem_of_replicate. discriminate Hc.
Qed.

Lemma sample_spooler_ok io : spooler_ok (mkSpooler ∅ io 0).
Proof.
  split_and!; [apply sample_stem_ok| |by intros]. intros i j H%(f_equal length). cbn in H. rewrite !length_replicate in H. lia.
Qed.

Definition sample : Enqueue := mkEnqueue (lit "1_2") (lit "article") SmtpListId Queued.

Lemma queued_witness : ∃ q, sample ∈ q_acked q ∧ (in_queue (q_dir q) sample ∨ was_posted (q_posted q) sample).
Proof.
  destruct (undisturbed_enqueue queue_new (lit "1_2") (lit "article") SmtpListId) as (q & Hq & Ha);
    [apply rtc_refl|split; [done|by apply (bool_decide_eq_true_1 _)]|apply not_elem_of_nil|done|].
  exists q. assert (He : sample ∈ q_acked q) by (rewrite Ha; by left). split; [done|].
  by apply queued_article_not_lost.
Defined.

End QueueSamples.

End SmtpQueue.
