(* ===== verification/MailAuth.v ===== *)
(** The inbound authentication pipeline of the SMTP server,
    [crates/smtp/src/auth.rs]: when a DMARC policy refuses a message, and what
    the Sieve script is told of the results.

    The checks themselves are [mail_auth]'s and parameters here.
    [dmarc_result_spec] says when a script is told of a DMARC pass. *)

From S2P Require Import Prelude Bytes SieveLexer SieveForm SieveMatch SieveEval.

Module MailAuth.
Import SieveEval.

(** ** What [mail_auth] answers *)

(** [DkimOutput]: [result() == Pass], and the [d=] of the signature. *)
Record DkimOutput := mkDkim { dkim_pass : bool; dkim_domain : option bytes }.

Inductive SpfResult := SpfPass | SpfFail | SpfSoftFail | SpfNeutral | SpfNone | SpfTempError | SpfPermError.
Inductive DmarcResult := DmarcPass | DmarcFail | DmarcTempError | DmarcPermError | DmarcNone.
Inductive Policy := PolicyNone | Quarantine | Reject | Unspecified.

Record DmarcOutput := mkDmarc { policy : Policy; dkim_result : DmarcResult; spf_result : DmarcResult }.

Class MailAuthLib := {
  ArcOutput : Type;
  (** [AuthenticatedMessage::parse]: the addresses of From, or a failure. *)
  parse_from : bytes → option (list bytes);
  verify_dkim : bytes → list DkimOutput;
  (** The client's address, EHLO domain, host name and MAIL FROM. *)
  verify_spf : bytes → bytes → bytes → bytes → SpfResult;
  verify_dmarc : bytes → list DkimOutput → bytes → SpfResult → DmarcOutput;
  verify_arc : bytes → ArcOutput;
  (** [AuthenticationResults] with all four results, as a string. *)
  authentication_results : bytes → list DkimOutput → bytes → SpfResult → bytes → bytes → bytes → DmarcOutput → ArcOutput → bytes
}.

Record InboundAuthResult := mkAuthResult { header : bytes; dmarc_reject : bool; sieve_env : SieveEnv }.

(** ** The Sieve environment *)

Definition spf_string (r : SpfResult) : bytes :=
  match r with
  | SpfPass => lit "pass"
  | SpfFail => lit "fail"
  | SpfSoftFail => lit "softfail"
  | SpfNeutral => lit "neutral"
  | SpfNone | SpfTempError | SpfPermError => lit "none"
  end.

Definition policy_string (p : Policy) : bytes :=
  match p with Reject => lit "reject" | Quarantine => lit "quarantine" | _ => lit "none" end.

Definition dmarc_strings (d : DmarcOutput) : bytes * bytes :=
  match dkim_result d with
  | DmarcPass => (lit "pass", policy_string (policy d))
  | DmarcNone => (lit "none", lit "none")
  | _ => match spf_result d with
         | DmarcPass => (lit "pass", policy_string (policy d))
         | _ => (lit "fail", policy_string (policy d))
         end
  end.

Definition dkim_strings (rs : list DkimOutput) : bytes * bytes :=
  match List.find dkim_pass rs with
  | Some r => (lit "pass", default [] (dkim_domain r))
  | None => match rs with
            | [] => (lit "none", [])
            | r :: _ => (lit "fail", default [] (dkim_domain r))
            end
  end.

Definition build_sieve_env (hostname : bytes) (dkim : list DkimOutput) (spf : SpfResult) (dmarc : DmarcOutput) : SieveEnv :=
  env_set (lit "vnd.stoa.dmarc-policy") (dmarc_strings dmarc).2
    (env_set (lit "vnd.stoa.dmarc-result") (dmarc_strings dmarc).1
      (env_set (lit "vnd.stoa.spf-result") (spf_string spf)
        (env_set (lit "vnd.stoa.dkim-domain") (dkim_strings dkim).2
          (env_set (lit "vnd.stoa.dkim-result") (dkim_strings dkim).1
            (env_set (lit "phase") (lit "during")
              (env_set (lit "location") (lit "MTA")
                (env_set (lit "host") hostname (env_set (lit "domain") hostname env_new)))))))).

(** ** The pipeline *)

Section Inbound.
Context `{MailAuthLib}.

(** [mail_from.rsplit_once('@').map(|(_, d)| d).unwrap_or(ehlo_domain)] *)
Definition rfc5321_domain (mail_from ehlo_domain : bytes) : bytes :=
  match split_once 64 (rev mail_from) with Some (d, _) => rev d | None => ehlo_domain end.

Definition is_fail (r : DmarcResult) : bool := match r with DmarcFail => true | _ => false end.

Definition verify_inbound (raw_message client_ip ehlo_domain mail_from hostname : bytes) : InboundAuthResult :=
  match parse_from raw_message with
  | None => mkAuthResult (hostname ++ lit "; auth=permerror (message parse failed)") false env_new
  | Some from =>
      let dkim := verify_dkim raw_message in
      let spf := verify_spf client_ip ehlo_domain hostname mail_from in
      let dmarc := verify_dmarc raw_message dkim (rfc5321_domain mail_from ehlo_domain) spf in
      let arc := verify_arc raw_message in
      let reject := match policy dmarc with Reject => is_fail (dkim_result dmarc) && is_fail (spf_result dmarc) | _ => false end in
      mkAuthResult
        (authentication_results hostname dkim (default [] (head from)) spf client_ip mail_from ehlo_domain dmarc arc)
        reject (build_sieve_env hostname dkim spf dmarc)
  end.

End Inbound.

(** ** What a script can rely on *)

Lemma env_get_set k k' v env : env_get (env_set k v env) k' = if bool_decide (k = k') then v else env_get env k'.
Proof.
  unfold env_get, env_set, SieveEnv in *. case_bool_decide as E; [subst; by rewrite lookup_insert_eq|].
  by rewrite lookup_insert_ne.
Qed.

(** The value a script reads. *)
Lemma env_dmarc_result hostname dkim spf dmarc :
  env_get (build_sieve_env hostname dkim spf dmarc) (lit "vnd.stoa.dmarc-result") = (dmarc_strings dmarc).1.
Proof. unfold build_sieve_env. by rewrite !env_get_set. Qed.

(** DMARC passes when either identifier is aligned and passes.  A script is
    told so exactly when the signature passes, or SPF does and the signature
    result is not [None]: for an unsigned message that passes through SPF the
    script reads "none". *)
Theorem dmarc_result_spec hostname dkim spf dmarc :
  env_get (build_sieve_env hostname dkim spf dmarc) (lit "vnd.stoa.dmarc-result") = lit "pass" ↔
  dkim_result dmarc = DmarcPass ∨ (spf_result dmarc = DmarcPass ∧ dkim_result dmarc ≠ DmarcNone).
Proof.
  rewrite env_dmarc_result. unfold dmarc_strings. destruct (dkim_result dmarc), (spf_result dmarc); cbn; naive_solver.
Qed.

End MailAuth.
