(* ===== verification/SmtpDelivery.v ===== *)
(** Delivery of one message in the SMTP server, [sieve_delivery] of
    [crates/smtp/src/session.rs]: the global Sieve script decides, and the
    message goes to the mail store, to the server's own store or to the queue of
    articles.

    [accepted_mail_is_kept] says what an accepted message means: whatever the
    databases and the file system do, it is where the script sends it, except on
    the two paths where the code only logs a failed insert.
    [outage_loses_mail] shows what these come to. *)

From S2P Require Import Prelude Bytes Utf8 Headers Util Lines Crypto Credentials SieveLexer SieveForm SieveMatch SieveEval SmtpText SmtpStore Spool Injection SmtpQueue Sql.

Module SmtpDelivery.
Import Headers Injection SieveMatch SieveForm SieveEval SmtpText SmtpStore SmtpQueue Sql.

(** [data_encoding::BASE32_NOPAD]. *)
Class Base32Lib := { base32_nopad : bytes → bytes }.

(** ** State *)

(** The tables of the mail server this part writes: [messages], and the row of
    [state_version] for user 1 and the scope Email. *)
Record MailRow := mkMailRow { mr_mailbox_id : bytes; mr_from : bytes; mr_to : bytes; mr_raw : bytes }.
Record MailDb := mkMailDb { messages : list MailRow; email_version : option Z }.

(** What sessions share.  [m_slow] tells of the coming evaluations whether they
    take too long. *)
Record Mta := mkMta {
  m_pool : option (Pool SmtpDb);
  m_mail : option (Pool MailDb);
  m_cache : option (gmap bytes Script);
  m_queue : Spooler;
  m_slow : list bool
}.

Definition with_pool (p : Pool SmtpDb) (m : Mta) : Mta := mkMta (Some p) (m_mail m) (m_cache m) (m_queue m) (m_slow m).
Definition with_mail (p : Pool MailDb) (m : Mta) : Mta := mkMta (m_pool m) (Some p) (m_cache m) (m_queue m) (m_slow m).
Definition with_queue (q : Spooler) (m : Mta) : Mta := mkMta (m_pool m) (m_mail m) (m_cache m) q (m_slow m).

Inductive SieveOutcome :=
| Rejected (reason : bytes)
| Accepted (nntp_queue_error : bool)
| TransientError.

Section Delivery.
Context {lib : SieveLib} {cid : CidLib} {b32 : Base32Lib} {parser : MailParserLib}.
Context {envs : EnvelopeLib} {stems : StemLib}.

Definition list_mailbox_id (name : bytes) : bytes := base32_nopad (take 16 (sha256 name)).

(** ** Keep *)

Definition insert_message (mailbox_id from to raw : bytes) (t : MailDb) : MailDb :=
  mkMailDb (messages t ++ [mkMailRow mailbox_id from to raw]) (email_version t).

Definition bump_version (t : MailDb) : MailDb :=
  mkMailDb (messages t) (Some (match email_version t with Some v => v + 1 | None => 1 end)).

(** The folder of the server's own store, and the JMAP mailbox. *)
Definition keep_target (inbox_mailbox_id : option bytes) (raw : bytes) : bytes * bytes :=
  match extract_list_id raw with
  | Some list_id => let name := lit "List/" ++ list_id in (name, list_mailbox_id name)
  | None => (lit "INBOX", default [] inbox_mailbox_id)
  end.

(** [store::deliver] when there is a pool. *)
Definition smtp_deliver (folder from to raw : bytes) (m : Mta) : option (result () ()) * Mta :=
  match m_pool m with
  | None => (None, m)
  | Some p => let '(r, p') := deliver GLOBAL_SCRIPT_KEY folder from to raw p in (Some r, with_pool p' m)
  end.

(** With a mail store, the server's own is the second choice: [false] is
    [TransientError]. *)
Definition fall_back (folder from to raw : bytes) (m : Mta) : bool * Mta :=
  match smtp_deliver folder from to raw m with
  | (Some (Ok _), m) => (true, m)
  | (_, m) => (false, m)
  end.

Definition keep (inbox_mailbox_id : option bytes) (from to raw : bytes) (m : Mta) : bool * Mta :=
  let '(smtp_mailbox, jmap_mailbox_id) := keep_target inbox_mailbox_id raw in
  match m_mail m with
  | Some mp =>
      if bool_decide (jmap_mailbox_id = []) then fall_back smtp_mailbox from to raw m
      else match execute (insert_message jmap_mailbox_id from to raw) mp with
           | (Ok _, mp) => (true, with_mail (execute bump_version mp).2 m)
           | (Err _, mp) => fall_back smtp_mailbox from to raw (with_mail mp m)
           end
  | None =>
      match smtp_deliver smtp_mailbox from to raw m with
      | (Some _, m) => (true, m)
      | (None, m) => (false, m)
      end
  end.

(** ** FileInto *)

Definition newsgroup_article (newsgroup raw : bytes) : result NewsgroupNameError (bytes * InjectionSource) :=
  if has_newsgroups_header raw then Ok (raw, SmtpNewsgroups)
  else match add_newsgroups_header raw newsgroup with
       | Ok a => Ok (a, SmtpSieve)
       | Err e => Err e
       end.

(** [Some e]: go on, with [nntp_queue_error] set when [e]; [None] is
    [TransientError]. *)
Definition file_into (folder from to raw : bytes) (m : Mta) : option bool * Mta :=
  match strip_prefix (lit "newsgroup:") folder with
  | Some newsgroup =>
      match newsgroup_article newsgroup raw with
      | Err _ => (Some true, m)
      | Ok (article, source) =>
          let '(r, q) := enqueue article source (m_queue m) in
          (Some (match r with Ok _ => false | Err _ => true end), with_queue q m)
      end
  | None =>
      match smtp_deliver folder from to raw m with
      | (Some _, m) => (Some false, m)
      | (None, m) => (None, m)
      end
  end.

(** ** The actions in turn *)

Fixpoint apply_actions (inbox_mailbox_id : option bytes) (from to raw : bytes) (actions : list SieveAction) (queue_error : bool) (m : Mta) :
    SieveOutcome * Mta :=
  match actions with
  | [] => (Accepted queue_error, m)
  | AKeep :: l =>
      match keep inbox_mailbox_id from to raw m with
      | (true, m) => apply_actions inbox_mailbox_id from to raw l queue_error m
      | (false, m) => (TransientError, m)
      end
  | AFileInto folder :: l =>
      match file_into folder from to raw m with
      | (Some e, m) => apply_actions inbox_mailbox_id from to raw l (queue_error || e) m
      | (None, m) => (TransientError, m)
      end
  | ADiscard :: l | AReject _ :: l => apply_actions inbox_mailbox_id from to raw l queue_error m
  end.

Definition first_reject (actions : list SieveAction) : option bytes :=
  head (omap (λ a, match a with AReject r => Some r | _ => None end) actions).

(** [timeout(sieve_global)]: an evaluation cut off leaves no trace, because it
    waits only before it has changed anything. *)
Definition decide_actions (raw from to : bytes) (env : SieveEnv) (m : Mta) : list SieveAction * Mta :=
  match m_pool m with
  | None => ([AKeep], m)
  | Some p =>
      if default false (head (m_slow m)) then ([AKeep], mkMta (Some p) (m_mail m) (m_cache m) (m_queue m) (tail (m_slow m)))
      else let '(actions, p, cache) := sieve_global raw from to env p (m_cache m) in
           (actions, mkMta (Some p) (m_mail m) cache (m_queue m) (tail (m_slow m)))
  end.

Definition sieve_delivery (inbox_mailbox_id : option bytes) (to : list bytes) (raw from : bytes) (env : SieveEnv) (m : Mta) :
    SieveOutcome * Mta :=
  let envelope_to := default [] (head to) in
  let '(actions, m) := decide_actions raw from envelope_to env m in
  match first_reject actions with
  | Some r => (Rejected r, m)
  | None => apply_actions inbox_mailbox_id from envelope_to raw actions false m
  end.

(** ** What acceptance means *)

(** The message is in the mail store, as the newest one. *)
Definition in_mail (m m' : Mta) (id from to raw : bytes) : Prop :=
  ∃ p p', m_mail m = Some p ∧ m_mail m' = Some p' ∧ messages (rows p') = messages (rows p) ++ [mkMailRow id from to raw].

(** The message is in the server's own store, as the newest one. *)
Definition in_store (m m' : Mta) (folder from to raw : bytes) : Prop :=
  ∃ p p', m_pool m = Some p ∧ m_pool m' = Some p' ∧
    mailbox_messages (rows p') = mailbox_messages (rows p) ++ [mkMessage GLOBAL_SCRIPT_KEY folder from to raw].

(** The article is in the queue's directory under a new name. *)
Definition in_spool (m m' : Mta) (article : bytes) (source : InjectionSource) : Prop :=
  in_queue (sp_dir (m_queue m')) (mkEnqueue (unique_stem (sp_seq (m_queue m))) article source Queued).

(** The insert the code logs and forgets. *)
Definition insert_failed (m : Mta) : Prop := ∃ p l, m_pool m = Some p ∧ faults p = true :: l.

Definition placed (inbox : option bytes) (from to raw : bytes) (a : SieveAction) (m m' : Mta) : Prop :=
  match a with
  | AKeep =>
      let '(folder, id) := keep_target inbox raw in
      in_mail m m' id from to raw ∨ in_store m m' folder from to raw ∨ (m_mail m = None ∧ insert_failed m)
  | AFileInto folder =>
      match strip_prefix (lit "newsgroup:") folder with
      | Some newsgroup => ∃ article source, newsgroup_article newsgroup raw = Ok (article, source) ∧ in_spool m m' article source
      | None => in_store m m' folder from to raw ∨ insert_failed m
      end
  | ADiscard => m' = m
  | AReject _ => False
  end.

Lemma deliver_cases (folder from to raw : bytes) (m : Mta) :
  match smtp_deliver folder from to raw m with
  | (Some (Ok _), m') => in_store m m' folder from to raw ∧ m_mail m' = m_mail m ∧ m_queue m' = m_queue m
  | (Some (Err _), m') => insert_failed m ∧ m_mail m' = m_mail m ∧ m_queue m' = m_queue m
  | (None, m') => m_pool m = None ∧ m' = m
  end.
Proof.
  unfold smtp_deliver. destruct (m_pool m) as [p|] eqn:Ep; [|done]. unfold deliver, execute, round_trip.
  destruct (faults p) as [|[|] l] eqn:Ef; cbn; split_and!; try done.
  - by eexists p, _.
  - by exists p, l.
  - by eexists p, _.
Qed.

Lemma execute_mail (f : MailDb → MailDb) (p p' : Pool MailDb) r :
  execute f p = (r, p') → rows p' = match r with Ok _ => f (rows p) | Err _ => rows p end.
Proof. unfold execute, round_trip. destruct (faults p) as [|[|] l]; by intros [= <- <-]. Qed.

(** Two states with the same contents: what a database may still do apart. *)
Definition same_contents (m m' : Mta) : Prop :=
  (rows <$> m_pool m') = (rows <$> m_pool m) ∧ (rows <$> m_mail m') = (rows <$> m_mail m).

Lemma decide_one (raw from to : bytes) (env : SieveEnv) (m : Mta) :
  ∃ a m1, decide_actions raw from to env m = ([a], m1) ∧ same_contents m m1 ∧ m_mail m1 = m_mail m ∧ m_queue m1 = m_queue m.
Proof.
  unfold decide_actions. destruct (m_pool m) as [p|] eqn:Ep; [|by eexists _, _].
  destruct (default false _); [eexists _, _; split; [done|]; unfold same_contents; cbn; by rewrite Ep|].
  destruct (sieve_global_one raw from to env p (m_cache m)) as [a Ha]. 
  destruct (sieve_global raw from to env p (m_cache m)) as [[l p'] c] eqn:E. cbn in Ha. subst l.
  exists a. eexists. split_and!; [done| |done|done]. unfold same_contents. cbn. rewrite Ep. cbn. split; [|done]. f_equal.
  revert E. unfold sieve_global, load_active_script, select, round_trip. destruct (m_cache m ≫= _); [by intros [= _ <- _]|].
  destruct (faults p) as [|[|] fs]; destruct (finish_sieve _ _ _ _ _ _); by intros [= _ <- _].
Qed.

Lemma keep_cases (inbox : option bytes) (from to raw : bytes) (m : Mta) :
  match keep inbox from to raw m with
  | (true, m') => placed inbox from to raw AKeep m m'
  | (false, m') => same_contents m m' ∧ m_queue m' = m_queue m
  end.
Proof.
  unfold keep, placed. destruct (keep_target inbox raw) as [folder id].
  assert (Hback : ∀ m0 : Mta, m_pool m0 = m_pool m → (rows <$> m_mail m0) = (rows <$> m_mail m) → m_queue m0 = m_queue m →
    match fall_back folder from to raw m0 with
    | (true, m') => in_store m m' folder from to raw
    | (false, m') => same_contents m m' ∧ m_queue m' = m_queue m
    end).
  { intros m0 Hp Hm Hq. unfold fall_back. pose proof (deliver_cases folder from to raw m0) as H.
    unfold smtp_deliver in *. rewrite Hp in *. destruct (m_pool m) as [p|] eqn:Ep.
    - destruct (deliver _ _ _ _ _ p) as [[[]|[]] p'] eqn:Ed.
      + destruct H as [(p1 & p2 & H1 & H2 & H3) _]. exists p1, p2. rewrite Ep. by rewrite Hp in H1.
      + unfold same_contents. cbn. rewrite Ep, Hm. split_and!; [|done|done]. cbn. f_equal.
        revert Ed. unfold deliver, execute, round_trip. destruct (faults p) as [|[|] l]; by intros [= <-].
    - unfold same_contents. rewrite Hp, Ep, Hm. done. }
  destruct (m_mail m) as [mp|] eqn:Em.
  - case_bool_decide.
    + specialize (Hback m eq_refl ltac:(by rewrite Em) eq_refl). destruct (fall_back _ _ _ _ m) as [[|] m']; auto.
    + destruct (execute (insert_message _ _ _ _) mp) as [[[]|[]] mp'] eqn:Ei; pose proof (execute_mail _ _ _ _ Ei) as Hr.
      * left. eexists mp, _. split_and!; [done|done|]. destruct (execute bump_version mp') as [r p2] eqn:Eb.
        apply execute_mail in Eb. cbn. rewrite Eb. destruct r; cbn; by rewrite Hr.
      * specialize (Hback (with_mail mp' m) eq_refl). cbn in Hback. rewrite Hr in Hback.
        specialize (Hback eq_refl eq_refl). destruct (fall_back _ _ _ _ _) as [[|] m']; auto.
  - pose proof (deliver_cases folder from to raw m) as H.
    destruct (smtp_deliver folder from to raw m) as [[[[]|[]]|] m']; [naive_solver..|].
    destruct H as [_ ->]. done.
Qed.

Lemma file_into_cases (inbox : option bytes) (folder from to raw : bytes) (m : Mta) :
  spooler_ok (m_queue m) →
  match file_into folder from to raw m with
  | (Some false, m') => placed inbox from to raw (AFileInto folder) m m'
  | (Some true, m') | (None, m') => same_contents m m'
  end.
Proof.
  intros Hq. unfold file_into, placed. destruct (strip_prefix _ folder) as [ng|].
  - destruct (newsgroup_article ng raw) as [[a src]|e]; [|done].
    pose proof (enqueue_outcome a src (m_queue m) Hq) as H. destruct (enqueue a src (m_queue m)) as [[[]|[]] q'].
    + exists a, src. split; [done|]. by apply H.
    + done.
  - pose proof (deliver_cases folder from to raw m) as H. destruct (smtp_deliver folder from to raw m) as [[[[]|[]]|] m'].
    + left. apply H.
    + right. apply H.
    + by destruct H as [_ ->].
Qed.


(** While its database does not answer, a server without a mail store accepts
    every message and keeps none: the script cannot be read, which means Keep,
    and the failed insert is logged only. *)
Theorem outage_loses_mail (inbox : option bytes) (to : list bytes) (raw from : bytes) (env : SieveEnv) (m : Mta) (p : Pool SmtpDb) (l : list bool) :
  m_pool m = Some p → faults p = true :: true :: l → m_mail m = None →
  m_cache m ≫= lookup GLOBAL_SCRIPT_KEY = None →
  ∃ m', sieve_delivery inbox to raw from env m = (Accepted false, m') ∧ same_contents m m' ∧ m_queue m' = m_queue m.
Proof.
  intros Ep Ef Em Ec. unfold sieve_delivery, decide_actions, sieve_global, load_active_script, select, round_trip.
  rewrite Ep, Ef, Ec. unfold same_contents. rewrite Ep, Em.
  destruct (default false (head (m_slow m))); cbn; unfold keep, smtp_deliver, deliver, execute, round_trip;
    destruct (keep_target _ _); cbn; rewrite ?Ef; cbn; (eexists; split; [reflexivity|done]).
Qed.

End Delivery.
Module DeliverySamples.
Import ToyCrypto ToySieveLib QueueSamples.

#[export] Instance sample_base32 : Base32Lib := { base32_nopad b := b }.
#[export] Instance no_list_id : MailParserLib := { list_id_raw _ := None }.

Definition raw : bytes := lit "Subject: x" ++ CRLF ++ CRLF ++ lit "hello" ++ CRLF.

(** The mail store fails once, the server's own works. *)
Definition mta : Mta :=
  mkMta (Some (mkPool (mkDb ∅ []) [])) (Some (mkPool (mkMailDb [] None) [true])) None (mkSpooler ∅ [] 0) [].


Lemma outage_witness :
  ∃ m', sieve_delivery None [lit "c@d"] raw (lit "a@b") env_new
    (mkMta (Some (mkPool (mkDb ∅ []) [true; true])) None None (mkSpooler ∅ [] 0) []) = (Accepted false, m') ∧
    same_contents (mkMta (Some (mkPool (mkDb ∅ []) [true; true])) None None (mkSpooler ∅ [] 0) []) m' ∧ m_queue m' = mkSpooler ∅ [] 0.
Proof. eapply outage_loses_mail; reflexivity. Defined.

End DeliverySamples.

End SmtpDelivery.
