(* ===== verification/SmtpSession.v ===== *)
(** An SMTP session, [run_session] of [crates/smtp/src/session.rs]: the state
    machine of RFC 5321 with AUTH PLAIN, STARTTLS, the size, recipient and hop
    limits, the trace header, and delivery through [SmtpDelivery].

    Every session ends, and nothing is delivered unless a password was accepted,
    when the server has any ([no_mail_without_login]).
    The trace header is one line whatever the client says in EHLO, and stops a
    mail loop ([mail_loop_stops]).  After STARTTLS the server greets a second
    time ([starttls_greets_again]). *)

From S2P Require Import Prelude Bytes Decimal Utf8 Headers Util Lines Crypto Credentials SieveLexer SieveForm SieveMatch SieveEval SmtpText SmtpStore Spool Injection SmtpQueue MailAuth SmtpDelivery Sql.

Module SmtpSession.
Import Utf8 Decimal Headers Util Lines Credentials Injection SieveMatch SieveForm SieveEval SmtpText SmtpStore SmtpQueue MailAuth SmtpDelivery Sql.

(** ** Connections *)

Record Conn := mkConn { inp : bytes; sent : list bytes; timeouts : list bool; write_errors : list bool }.

Definition next_bool (l : list bool) : bool * list bool := match l with [] => (false, []) | b :: l' => (b, l') end.

Definition write_all (b : bytes) (c : Conn) : bool * Conn :=
  let '(e, es) := next_bool (write_errors c) in
  (negb e, mkConn (inp c) (if e then sent c else sent c ++ [b]) (timeouts c) es).

Definition with_inp (i : bytes) (c : Conn) : Conn := mkConn i (sent c) (timeouts c) (write_errors c).

Definition timed_out (c : Conn) : bool * Conn :=
  let '(t, ts) := next_bool (timeouts c) in (t, mkConn (inp c) (sent c) ts (write_errors c)).

(** ** Sessions *)

Inductive SessionState :=
| Fresh
| Greeted (ehlo_domain : bytes)
| Mail (ehlo_domain from : bytes) (require_tls : bool)
| Rcpt (ehlo_domain from : bytes) (to : list bytes) (require_tls : bool).

(** What a session is given.  [tls_acceptor] turns what follows on the wire into
    the stream inside TLS; [client_ip] is the address as it is printed. *)
Record Server := mkServer {
  hostname : bytes;
  max_message_bytes : Z;
  max_recipients : nat;
  credential_store : CredentialStore;
  authenticates : bool;
  inbox_mailbox_id : option bytes;
  client_ip : bytes;
  is_submission : bool;
  tls_acceptor : option (bytes → option bytes)
}.

Record Sess := mkSess {
  se_conn : Conn;
  se_state : SessionState;
  authenticated_user : option bytes;
  auth_failures : Z;
  se_mta : Mta;
  (** What the clock will say. *)
  se_times : list Z
}.

Definition with_conn (c : Conn) (s : Sess) : Sess :=
  mkSess c (se_state s) (authenticated_user s) (auth_failures s) (se_mta s) (se_times s).
Definition with_state (st : SessionState) (s : Sess) : Sess :=
  mkSess (se_conn s) st (authenticated_user s) (auth_failures s) (se_mta s) (se_times s).
Definition with_auth (u : option bytes) (n : Z) (s : Sess) : Sess :=
  mkSess (se_conn s) (se_state s) u n (se_mta s) (se_times s).
Definition with_mta (m : Mta) (s : Sess) : Sess :=
  mkSess (se_conn s) (se_state s) (authenticated_user s) (auth_failures s) m (se_times s).

(** What a handler does: the next turn of the loop, [break], or the upgrade. *)
Inductive Step := Continue (s : Sess) | Stop (s : Sess) | Upgrade (s : Sess) (accept : bytes → option bytes).

(** [if write_all(b).is_err() { break }], then [k]. *)
Definition say (b : bytes) (k : Sess → Step) (s : Sess) : Step :=
  let '(ok, c) := write_all b (se_conn s) in if ok then k (with_conn c s) else Stop (with_conn c s).

(** [let _ = write_all(b); break]. *)
Definition farewell (b : bytes) (s : Sess) : Step := Stop (with_conn (write_all b (se_conn s)).2 s).

Definition reply (text : bytes) : bytes := text ++ CRLF.

Section Session.
Context {lib : SieveLib} {cid : CidLib} {b32 : Base32Lib} {parser : MailParserLib} {envs : EnvelopeLib} {stems : StemLib}.
Context {b64 : Base64Lib} {bcrypt : BcryptLib} {mauth : MailAuthLib}.
Context (sv : Server).

Definition greeting : bytes := reply (lit "220 " ++ hostname sv ++ lit " ESMTP stoa-smtp").

(** ** EHLO and HELO *)

Definition bad_domain (args : bytes) : bool := existsb (λ b, (b =? CR) || (b =? LF) || (b =? NUL)) args.

Definition syntax_error : Sess → Step := say (reply (lit "501 5.5.2 Syntax error in parameters")) Continue.

Definition ehlo_reply (is_tls : bool) : bytes :=
  reply (lit "250-" ++ hostname sv) ++ reply (lit "250-SIZE " ++ to_decimal (max_message_bytes sv)) ++
  reply (lit "250-8BITMIME") ++ reply (lit "250-SMTPUTF8") ++ reply (lit "250-PIPELINING") ++
  (if negb is_tls && bool_decide (is_Some (tls_acceptor sv)) then reply (lit "250-STARTTLS") else []) ++
  (if (is_tls || is_submission sv) && negb (is_empty (credential_store sv)) then reply (lit "250-AUTH PLAIN") else []) ++
  (if is_tls then reply (lit "250-REQUIRETLS") else []) ++ reply (lit "250 OK").

Definition handle_greeting (answer args : bytes) (s : Sess) : Step :=
  if bad_domain args then syntax_error s
  else say answer (λ s, Continue (with_state (Greeted args) s)) s.

(** ** AUTH *)

(** [true]: a command line; the timer can fire first. *)
Definition read_line (c : Conn) : option CmdLine * Conn :=
  let '(t, c) := timed_out c in
  if t then (None, c)
  else let r := read_command_line (inp c) in
       (Some r, with_inp (match r with CmdLineOk _ rest | CmdTooLong rest => rest | CmdEof => [] end) c).

Definition check_plain (response : bytes) (s : Sess) : Step :=
  match verify_sasl_plain (credential_store sv) response with
  | Some username => say (reply (lit "235 2.7.0 Authentication successful")) Continue (with_auth (Some username) 0 s)
  | None =>
      let s := with_auth (authenticated_user s) (auth_failures s + 1) s in
      if 3 <=? auth_failures s then farewell (reply (lit "535 5.7.8 Too many authentication failures")) s
      else say (reply (lit "535 5.7.8 Authentication credentials invalid")) Continue s
  end.

Definition two_step (s : Sess) : Step :=
  let '(r, c) := read_line (se_conn s) in
  let s := with_conn c s in
  match r with
  | Some (CmdLineOk line _) =>
      if bool_decide (trim_eol line = lit "*") then say (reply (lit "501 5.7.0 Authentication exchange cancelled")) Continue s
      else check_plain (trim_eol line) s
  | _ => farewell (reply (lit "535 5.7.8 Authentication credentials invalid")) s
  end.

Definition handle_auth (is_tls : bool) (args : bytes) (s : Sess) : Step :=
  if negb is_tls && negb (is_submission sv) then
    farewell (reply (if bool_decide (is_Some (tls_acceptor sv)) then lit "530 5.7.0 Must issue a STARTTLS command first"
                     else lit "534 5.7.9 Encryption required for requested authentication mechanism")) s
  else if bool_decide (is_Some (authenticated_user s)) then say (reply (lit "503 5.5.1 Already authenticated")) Continue s
  else
    let mechanism := to_ascii_uppercase args in
    if bool_decide (mechanism = lit "PLAIN") || starts_with mechanism (lit "PLAIN ") then
      let initial := if (5 <? length args)%nat then trim (drop 5 args) else [] in
      if bool_decide (initial = []) then say (reply (lit "334 ")) two_step s else check_plain initial s
    else say (reply (lit "504 5.5.4 Unrecognized authentication type")) Continue s.

(** ** MAIL and RCPT *)

Definition bad_sequence : Sess → Step := say (reply (lit "503 Bad sequence of commands")) Continue.
Definition ok_250 : bytes := reply (lit "250 OK").

Definition handle_mail (is_tls : bool) (args : bytes) (s : Sess) : Step :=
  match se_state s with
  | Greeted ehlo_domain =>
      if negb (is_empty (credential_store sv)) && bool_decide (authenticated_user s = None) then
        say (reply (lit "530 5.7.0 Authentication required")) Continue s
      else if has_requiretls_param args && negb is_tls then say (reply (lit "530 5.7.0 REQUIRETLS requires TLS")) Continue s
      else say ok_250 (λ s, Continue (with_state (Mail ehlo_domain (parse_angle_addr args) (has_requiretls_param args)) s)) s
  | _ => bad_sequence s
  end.

(** The recipient is there before the answer is written. *)
Definition handle_rcpt (args : bytes) (s : Sess) : Step :=
  let to_addr := parse_angle_addr args in
  match se_state s with
  | Mail ehlo_domain from require_tls => say ok_250 (λ s, Continue (with_state (Rcpt ehlo_domain from [to_addr] require_tls) s)) s
  | Rcpt ehlo_domain from to require_tls =>
      if (max_recipients sv <=? length to)%nat then say (reply (lit "452 Too many recipients")) Continue s
      else say ok_250 Continue (with_state (Rcpt ehlo_domain from (to ++ [to_addr]) require_tls) s)
  | _ => bad_sequence s
  end.

(** ** DATA *)

Definition MAX_HOPS : nat := 25.

Definition with_clause (is_tls require_tls : bool) : bytes :=
  match is_tls, require_tls with
  | true, true => lit "ESMTPS (REQUIRETLS)"
  | true, false => lit "ESMTPS"
  | false, _ => lit "ESMTP"
  end.

Definition received_line (is_tls require_tls : bool) (ehlo_domain : bytes) (now : Z) : bytes :=
  lit "Received: from " ++ ehlo_domain ++ lit " ([" ++ client_ip sv ++ lit "]) by " ++ hostname sv ++ lit " with " ++
  with_clause is_tls require_tls ++ lit "; " ++ epoch_to_rfc2822 now.

(** The answer to a message that was read, and what became of it. *)
Definition outcome_reply (o : SieveOutcome) : bytes :=
  match o with
  | Rejected _ => reply (lit "550 Message rejected by recipient policy")
  | Accepted true => reply (lit "452 4.3.1 Queue write failed - try again later")
  | Accepted false => ok_250
  | TransientError => reply (lit "452 4.3.0 Mailbox temporarily unavailable")
  end.

(** Back to [Greeted], after the answer. *)
Definition answer (text : bytes) (ehlo_domain : bytes) : Sess → Step :=
  say text (λ s, Continue (with_state (Greeted ehlo_domain) s)).

Definition accept_message (is_tls : bool) (ehlo_domain from : bytes) (to : list bytes) (require_tls : bool) (raw : bytes) (env : SieveEnv) (s : Sess) : Step :=
  let now := default 0 (head (se_times s)) in
  let raw := received_line is_tls require_tls ehlo_domain now ++ CRLF ++ raw in
  let '(o, m) := sieve_delivery (inbox_mailbox_id sv) to raw from env (se_mta s) in
  answer (outcome_reply o) ehlo_domain
    (mkSess (se_conn s) (se_state s) (authenticated_user s) (auth_failures s) m (tail (se_times s))).

Definition take_message (is_tls : bool) (ehlo_domain from : bytes) (to : list bytes) (require_tls : bool) (raw : bytes) (s : Sess) : Step :=
  if (MAX_HOPS <=? count_received_headers raw)%nat then
    answer (reply (lit "554 5.4.6 Too many hops - mail loop detected")) ehlo_domain s
  else if authenticates sv then
    let r := verify_inbound raw (client_ip sv) ehlo_domain from (hostname sv) in
    if dmarc_reject r then answer (reply (lit "550 5.7.1 Message rejected due to DMARC policy")) ehlo_domain s
    else accept_message is_tls ehlo_domain from to require_tls
           (lit "Authentication-Results: " ++ header r ++ CRLF ++ raw) (sieve_env r) s
  else accept_message is_tls ehlo_domain from to require_tls raw env_new s.

Definition read_message (is_tls : bool) (ehlo_domain from : bytes) (to : list bytes) (require_tls : bool) (s : Sess) : Step :=
  let '(t, c) := timed_out (se_conn s) in
  if t then farewell (reply (lit "421 4.4.2 Timeout - closing connection")) (with_conn c s)
  else
    let '(raw, too_large, rest) := read_data_body (inp c) (max_message_bytes sv) in
    let s := with_conn (with_inp rest c) s in
    if too_large : bool then answer (reply (lit "552 Message too large")) ehlo_domain s
    else take_message is_tls ehlo_domain from to require_tls raw s.

Definition handle_data (is_tls : bool) (s : Sess) : Step :=
  match se_state s with
  | Rcpt ehlo_domain from (t :: to) require_tls =>
      say (reply (lit "354 End data with <CR><LF>.<CR><LF>")) (read_message is_tls ehlo_domain from (t :: to) require_tls) s
  | _ => bad_sequence s
  end.

(** ** The rest *)

Definition handle_rset (s : Sess) : Step :=
  match se_state s with
  | Fresh => bad_sequence s
  | Greeted d | Mail d _ _ | Rcpt d _ _ _ => say ok_250 (λ s, Continue (with_state (Greeted d) s)) s
  end.

Definition handle_starttls (is_tls : bool) (s : Sess) : Step :=
  if is_tls then say (reply (lit "503 5.5.1 STARTTLS already active")) Continue s
  else match tls_acceptor sv with
       | None => say (reply (lit "454 TLS not available")) Continue s
       | Some accept => say (reply (lit "220 Ready to start TLS")) (λ s, Upgrade s accept) s
       end.

Definition handle_command (is_tls : bool) (line : bytes) (s : Sess) : Step :=
  let '(verb, args) := split_command (trim_eol line) in
  let verb_is v := bool_decide (verb = lit v) in
  if verb_is "EHLO"%string then handle_greeting (ehlo_reply is_tls) args s
  else if verb_is "HELO"%string then handle_greeting (reply (lit "250 " ++ hostname sv)) args s
  else if verb_is "AUTH"%string then handle_auth is_tls args s
  else if verb_is "MAIL"%string then handle_mail is_tls args s
  else if verb_is "RCPT"%string then handle_rcpt args s
  else if verb_is "DATA"%string then handle_data is_tls s
  else if verb_is "RSET"%string then handle_rset s
  else if verb_is "NOOP"%string then say ok_250 Continue s
  else if verb_is "QUIT"%string then farewell (reply (lit "221 Bye")) s
  else if verb_is "STARTTLS"%string then handle_starttls is_tls s
  else say (reply (lit "500 Command unrecognized")) Continue s.

(** One turn of the loop. *)
Definition turn (is_tls : bool) (s : Sess) : Step :=
  let '(r, c) := read_line (se_conn s) in
  let s := with_conn c s in
  match r with
  | None => farewell (reply (lit "421 4.4.2 Timeout - closing connection")) s
  | Some CmdEof => Stop s
  | Some (CmdTooLong _) => farewell (reply (lit "500 Line too long")) s
  | Some (CmdLineOk line _) => handle_command is_tls line s
  end.

(** [None] when the fuel runs out. *)
Fixpoint session_loop (fuel : nat) (is_tls : bool) (s : Sess) : option Step :=
  match fuel with
  | O => None
  | Datatypes.S fuel' =>
      match turn is_tls s with
      | Continue s => session_loop fuel' is_tls s
      | st => Some st
      end
  end.

Definition start (c : Conn) (m : Mta) (times : list Z) : Sess := mkSess c Fresh None 0 m times.

(** The greeting and the loop: [inl] when the session is over. *)
Definition serve (is_tls : bool) (c : Conn) (m : Mta) (times : list Z) : option (Sess + Sess * (bytes → option bytes)) :=
  let '(ok, c) := write_all greeting c in
  if negb ok then Some (inl (start c m times))
  else match session_loop (Datatypes.S (length (inp c))) is_tls (start c m times) with
       | None => None
       | Some (Upgrade s accept) => Some (inr (s, accept))
       | Some (Continue s) | Some (Stop s) => Some (inl s)
       end.

(** ** Reading consumes *)

Lemma read_command_from_spec max buf i line rest :
  read_command_from max buf i = CmdLineOk line rest → ∃ l, i = l ++ rest ∧ l ≠ [] ∧ line = from_utf8_lossy (buf ++ l).
Proof.
  revert buf. induction i as [|c i IH]; intros buf; cbn [read_command_from]; [done|].
  destruct (c =? LF); [intros [= <- <-]; by exists [c]|].
  destruct (max <=? _); [by destruct (drain_line i)|]. intros (l & -> & _ & ->)%IH. exists (c :: l).
  split_and!; [done..|]. by rewrite <- app_assoc.
Qed.

Lemma data_loop_rest max i dr line body tl : ∃ l, i = l ++ (data_loop max i dr line body tl).2.
Proof.
  revert dr line body tl. induction i as [|c i IH]; intros dr line body tl; cbn [data_loop]; [by exists []|].
  destruct dr; [destruct (IH (negb (c =? LF)) [] body tl) as [l Hl]; exists (c :: l); cbn; congruence|].
  destruct (c =? LF).
  - destruct (push_line max (line ++ [c]) body tl) as [[b t]|]; [|by exists [c]].
    destruct (IH false [] b t) as [l Hl]. exists (c :: l). cbn. congruence.
  - destruct (max <? _).
    + destruct (IH true [] [] true) as [l Hl]. exists (c :: l). cbn. congruence.
    + destruct (IH false (line ++ [c]) body tl) as [l Hl]. exists (c :: l). cbn. congruence.
Qed.

Lemma smtp_write_inp b c : inp (write_all b c).2 = inp c.
Proof. unfold write_all. by destruct (next_bool _). Qed.

Lemma timed_out_inp c : inp (timed_out c).2 = inp c.
Proof. unfold timed_out. by destruct (next_bool _). Qed.

(** ** What a turn keeps *)

Definition outcome (P Q : Sess → Prop) (st : Step) : Prop :=
  match st with Continue s => P s | Stop s | Upgrade s _ => Q s end.

(** Properties that see no more of the connection than what is still to be read. *)
Definition sees_inp (P : Sess → Prop) : Prop := ∀ s c, inp c = inp (se_conn s) → P s → P (with_conn c s).

Lemma say_outcome (P Q : Sess → Prop) b k s :
  (∀ c, inp c = inp (se_conn s) → outcome P Q (k (with_conn c s)) ∧ Q (with_conn c s)) → outcome P Q (say b k s).
Proof.
  intros H. unfold say. pose proof (smtp_write_inp b (se_conn s)) as Hi. destruct (write_all b (se_conn s)) as [[|] c]; by apply H.
Qed.

Lemma farewell_outcome (P Q : Sess → Prop) b s : sees_inp Q → Q s → outcome P Q (farewell b s).
Proof. intros HQ Hs. apply HQ; [apply smtp_write_inp|done]. Qed.

(** A response the client sent in a stream: a line of its own, or the argument of
    an AUTH command. *)
Definition said (stream response : bytes) : Prop :=
  ∃ line, (∃ pre post, stream = pre ++ line ++ post) ∧
    (response = trim_eol (from_utf8_lossy line) ∨
     ∃ args, split_command (trim_eol (from_utf8_lossy line)) = (lit "AUTH", args) ∧ response = trim (drop 5 args)).

Definition proven (stream : bytes) : Prop :=
  ∃ response user, said stream response ∧ verify_sasl_plain (credential_store sv) response = Some user.

Definition logged_in (is_tls : bool) (stream : bytes) : Prop := is_tls || is_submission sv = true ∧ proven stream.

Definition in_transaction (st : SessionState) : bool := match st with Mail _ _ _ | Rcpt _ _ _ _ => true | _ => false end.
Definition domain_of (st : SessionState) : bytes := match st with Fresh => [] | Greeted d | Mail d _ _ | Rcpt d _ _ _ => d end.

(** [stream] is all the client sends, [m0] the state of the server before. *)
Record done_well (is_tls : bool) (stream : bytes) (m0 : Mta) (s : Sess) : Prop := {
  g_rest : inp (se_conn s) `suffix_of` stream;
  g_mta : se_mta s = m0 ∨ is_empty (credential_store sv) = true ∨ logged_in is_tls stream
}.

Record good (is_tls : bool) (stream : bytes) (m0 : Mta) (s : Sess) : Prop := {
  g_done : done_well is_tls stream m0 s;
  g_login : is_Some (authenticated_user s) → logged_in is_tls stream;
  g_mail : in_transaction (se_state s) = true → is_empty (credential_store sv) = true ∨ is_Some (authenticated_user s);
  g_domain : bad_domain (domain_of (se_state s)) = false;
  g_failures : 0 <= auth_failures s < 3
}.

Lemma done_sees is_tls stream m0 : sees_inp (done_well is_tls stream m0).
Proof. intros s c Hc [H1 H2]. split; cbn; [by rewrite Hc|done]. Qed.

Lemma good_sees is_tls stream m0 : sees_inp (good is_tls stream m0).
Proof. intros s c Hc [H1 H2 H3 H4 H5]. split; cbn; [by apply done_sees|done..]. Qed.

Section Turn.
Context (is_tls : bool) (stream : bytes) (m0 : Mta).

Notation kept := (outcome (good is_tls stream m0) (done_well is_tls stream m0)).

Lemma kept_say b s : good is_tls stream m0 s → kept (say b Continue s).
Proof.
  intros Hs. apply say_outcome. intros c Hc. split; [by apply good_sees|]. apply done_sees; [done|]. by apply g_done.
Qed.

(** The answer, then a new state. *)
Lemma kept_state b st s :
  good is_tls stream m0 s → bad_domain (domain_of st) = false →
  (in_transaction st = true → is_empty (credential_store sv) = true ∨ is_Some (authenticated_user s)) →
  kept (say b (λ s, Continue (with_state st s)) s).
Proof.
  intros [H1 H2 H3 H4 H5] Hd Ht. apply say_outcome. intros c Hc.
  assert (done_well is_tls stream m0 (with_conn c s)) as Hdn by (by apply done_sees). split; [|done].
  split; cbn; [|done..]. by destruct Hdn.
Qed.

Lemma kept_answer b d s : good is_tls stream m0 s → bad_domain d = false → kept (answer b d s).
Proof. intros Hs Hd. by apply kept_state. Qed.

Lemma kept_farewell b s : done_well is_tls stream m0 s → kept (farewell b s).
Proof. intros Hs. apply farewell_outcome; [apply done_sees|done]. Qed.

Lemma kept_check response s :
  is_tls || is_submission sv = true → said stream response → good is_tls stream m0 s → kept (check_plain response s).
Proof.
  intros Ht Hsaid [H1 H2 H3 H4 H5]. unfold check_plain. destruct (verify_sasl_plain _ response) as [user|] eqn:Ev.
  - apply kept_say. split; cbn; [by destruct H1|intros _; split; [done|by exists response, user]|by right|done|lia].
  - destruct (Z.leb_spec 3 (auth_failures (with_auth (authenticated_user s) (auth_failures s + 1) s))) as [|Hlt].
    + apply kept_farewell. by destruct H1.
    + apply kept_say. split; cbn in *; [by destruct H1|done..|lia].
Qed.

(** Reading a line keeps the session good and tells where the line comes from. *)
Lemma read_line_good s r c :
  good is_tls stream m0 s → read_line (se_conn s) = (r, c) →
  good is_tls stream m0 (with_conn c s) ∧
  match r with
  | Some (CmdLineOk line _) =>
      (∃ l, line = from_utf8_lossy l ∧ ∃ pre post, stream = pre ++ l ++ post) ∧ (length (inp c) < length (inp (se_conn s)))%nat
  | _ => True
  end.
Proof.
  intros Hs. unfold read_line. pose proof (timed_out_inp (se_conn s)) as Ht.
  destruct (timed_out (se_conn s)) as [[|] c1]; cbn in Ht; [intros [= <- <-]; split; [by apply good_sees|done]|].
  intros [= <- <-]. destruct Hs as [[H0 H1] H2 H3 H4 H5]. destruct H0 as [pre Hpre].
  assert (Hg : ∀ i, i `suffix_of` inp (se_conn s) → good is_tls stream m0 (with_conn (with_inp i c1) s)).
  { intros i [l Hi]. split; [split; cbn; [exists (pre ++ l); rewrite Hpre, Hi; by rewrite app_assoc|done]|done..]. }
  rewrite Ht. destruct (read_command_line (inp (se_conn s))) as [line rest| |rest] eqn:E.
  - apply read_command_from_spec in E as (l & Hl & Hne & ->). split; [apply Hg; by exists l|]. cbn. split.
    + exists l. split; [done|]. exists pre, rest. by rewrite Hpre, Hl.
    + rewrite Hl, length_app. destruct l; [done|]. cbn. lia.
  - split; [|done]. apply Hg. eexists. symmetry. apply app_nil_r.
  - split; [|done]. apply Hg. revert E. unfold read_command_line. generalize (@nil Z). generalize (inp (se_conn s)).
    intros i. induction i as [|x i IH]; intros buf; cbn [read_command_from]; [done|]. destruct (x =? LF); [done|].
    destruct (MAX_LINE_BYTES <=? _); [|intros E; destruct (IH _ E) as [l ->]; by exists (x :: l)].
    assert (Hd : ∀ j rest, drain_line j = Some rest → rest `suffix_of` j).
    { induction j as [|y j IHj]; intros rest0; cbn; [done|]. destruct (y =? LF); [intros [= <-]; by exists [y]|].
      intros [l ->]%IHj. by exists (y :: l). }
    destruct (drain_line i) as [rest0|] eqn:Ed; [|done]. intros [= <-]. apply Hd in Ed as [l ->]. by exists (x :: l).
Qed.

Lemma kept_two_step s : is_tls || is_submission sv = true → good is_tls stream m0 s → kept (two_step s).
Proof.
  intros Ht Hs. unfold two_step. destruct (read_line (se_conn s)) as [r c] eqn:E.
  destruct (read_line_good s r c Hs E) as [Hg Hr].
  assert (Hf : ∀ b, kept (farewell b (with_conn c s))) by (intros; apply kept_farewell, Hg).
  destruct r as [[line rest| |rest]|]; try apply Hf. destruct Hr as [(l & -> & Hl) _].
  case_bool_decide; [by apply kept_say|]. apply kept_check; [done| |done]. exists l. split; [done|by left].
Qed.

Lemma kept_auth l args s :
  (∃ pre post, stream = pre ++ l ++ post) → split_command (trim_eol (from_utf8_lossy l)) = (lit "AUTH", args) →
  good is_tls stream m0 s → kept (handle_auth is_tls args s).
Proof.
  intros Hl Hargs Hs. unfold handle_auth. destruct (negb is_tls && negb (is_submission sv)) eqn:Et; [apply kept_farewell, Hs|].
  assert (Ht : is_tls || is_submission sv = true) by (by destruct is_tls, (is_submission sv)).
  case_bool_decide; [by apply kept_say|]. destruct (bool_decide (to_ascii_uppercase args = _) || _); [|by apply kept_say].
  case_bool_decide as Hi.
  - apply say_outcome. intros c Hc. split; [apply kept_two_step; [done|by apply good_sees]|].
    apply done_sees; [done|]. apply Hs.
  - apply kept_check; [done| |done]. exists l. split; [done|]. right. exists args. split; [done|].
    by destruct (5 <? length args)%nat.
Qed.

Lemma kept_accept d from to req raw env s :
  good is_tls stream m0 s → in_transaction (se_state s) = true → bad_domain d = false →
  kept (accept_message is_tls d from to req raw env s).
Proof.
  intros [[H0 H1] H2 H3 H4 H5] Ht Hd. unfold accept_message. destruct (sieve_delivery _ _ _ _ _ _) as [o m].
  apply kept_answer; [|done]. split; cbn; [|done..]. split; cbn; [done|]. right. destruct (H3 Ht); [by left|right; auto].
Qed.

Lemma kept_data s : good is_tls stream m0 s → kept (handle_data is_tls s).
Proof.
  intros Hs. unfold handle_data. destruct (se_state s) as [| | |d from [|t to] req] eqn:Est; try by apply kept_say.
  assert (Hd : bad_domain d = false) by (pose proof (g_domain _ _ _ _ Hs) as H; by rewrite Est in H).
  apply say_outcome. intros c Hc. split; [|apply done_sees; [done|apply Hs]].
  apply (good_sees _ _ _ s c Hc) in Hs. unfold read_message. cbn [se_conn with_conn].
  pose proof (timed_out_inp c) as Hto. destruct (timed_out c) as [[|] c']; cbn in Hto.
  { apply kept_farewell. apply done_sees; [done|apply Hs]. }
  destruct (data_loop_rest (max_message_bytes sv) (inp c') false [] [] false) as [l Hl]. unfold read_data_body.
  destruct (data_loop _ (inp c') false [] [] false) as [[raw large] rest]. cbn in Hl.
  assert (Hs' : good is_tls stream m0 (with_conn (with_inp rest c') (with_conn c s))).
  { destruct Hs as [[[pre H0] H1] H2 H3 H4 H5]. split; [|done..]. split; [|done]. cbn in *.
    exists (pre ++ l). by rewrite H0, <- Hto, Hl, app_assoc. }
  destruct large; [by apply kept_answer|]. unfold take_message. destruct (_ <=? _)%nat; [by apply kept_answer|].
  assert (Htr : in_transaction (se_state (with_conn (with_inp rest c') (with_conn c s))) = true) by (cbn; by rewrite Est).
  destruct (authenticates sv); [|by apply kept_accept]. destruct (dmarc_reject _); [by apply kept_answer|by apply kept_accept].
Qed.

Lemma kept_command l s :
  (∃ pre post, stream = pre ++ l ++ post) → good is_tls stream m0 s → kept (handle_command is_tls (from_utf8_lossy l) s).
Proof.
  intros Hl Hs. unfold handle_command. destruct (split_command (trim_eol (from_utf8_lossy l))) as [verb args] eqn:Ec.
  assert (Hgreet : ∀ b, kept (handle_greeting b args s)).
  { intros b. unfold handle_greeting. destruct (bad_domain args) eqn:Ed; [by apply kept_say|by apply kept_state]. }
  pose proof Hs as [H1 H2 H3 H4 H5].
  repeat (case_bool_decide as Hv; [|clear Hv]); subst.
  - apply Hgreet.
  - apply Hgreet.
  - by eapply kept_auth.
  - unfold handle_mail. destruct (se_state s) as [|d|d f r|d f t r] eqn:Est; try by apply kept_say.
    destruct (negb (is_empty (credential_store sv)) && _) eqn:Ea; [by apply kept_say|].
    destruct (has_requiretls_param args && _); [by apply kept_say|]. apply kept_state; [done|done|]. intros _.
    destruct (is_empty (credential_store sv)); [by left|]. right. cbn in Ea. apply bool_decide_eq_false in Ea.
    by destruct (authenticated_user s).
  - unfold handle_rcpt. destruct (se_state s) as [|d|d f r|d f t r] eqn:Est; try by apply kept_say.
    + apply kept_state; [done|done|auto].
    + destruct (_ <=? _)%nat; [by apply kept_say|]. apply kept_say. split; cbn; [by destruct H1|done..].
  - by apply kept_data.
  - unfold handle_rset. destruct (se_state s) as [|d|d f r|d f t r] eqn:Est; [by apply kept_say|by apply kept_state..].
  - by apply kept_say.
  - apply kept_farewell, Hs.
  - assert (Hsay : ∀ b, kept (say b Continue s)) by (intros; by apply kept_say).
    unfold handle_starttls. destruct is_tls; [apply Hsay|]. destruct (tls_acceptor sv); [|apply Hsay].
    apply say_outcome. intros c Hc. split; apply done_sees; done || apply Hs.
  - by apply kept_say.
Qed.

Lemma kept_turn s : good is_tls stream m0 s → kept (turn is_tls s).
Proof.
  intros Hs. unfold turn. destruct (read_line (se_conn s)) as [r c] eqn:E.
  destruct (read_line_good s r c Hs E) as [Hg Hr].
  destruct r as [[line rest| |rest]|]; [|apply Hg|apply kept_farewell, Hg..].
  destruct Hr as [(l & -> & Hl) _]. by apply kept_command.
Qed.

Lemma kept_loop fuel s st : good is_tls stream m0 s → session_loop fuel is_tls s = Some st → kept st.
Proof.
  revert s. induction fuel as [|fuel IH]; intros s Hs; cbn [session_loop]; [done|].
  pose proof (kept_turn s Hs) as Ht. destruct (turn is_tls s); [by apply IH|by intros [= <-]..].
Qed.

End Turn.

(** ** Every turn reads *)

Definition short (n : nat) (s : Sess) : Prop := (length (inp (se_conn s)) <= n)%nat.

(** An upgrade needs an acceptor. *)
Definition upgrades (st : Step) : Prop := match st with Upgrade _ accept => tls_acceptor sv = Some accept | _ => True end.

Definition shrinks (n : nat) (st : Step) : Prop := outcome (short n) (λ _, True) st ∧ upgrades st.

Lemma shrink_say n b k s :
  (∀ c, inp c = inp (se_conn s) → shrinks n (k (with_conn c s))) → shrinks n (say b k s).
Proof.
  intros H. unfold say. pose proof (smtp_write_inp b (se_conn s)) as Hi. destruct (write_all b (se_conn s)) as [[|] c]; [|done].
  by apply H.
Qed.

Lemma shrink_state n b st s : short n s → shrinks n (say b (λ s, Continue (with_state st s)) s).
Proof. intros Hs. apply shrink_say. intros c Hc. split; [|done]. unfold outcome, short in *. cbn. by rewrite Hc. Qed.

Lemma shrink_continue n b s : short n s → shrinks n (say b Continue s).
Proof. intros Hs. apply shrink_say. intros c Hc. split; [|done]. unfold outcome, short in *. cbn. by rewrite Hc. Qed.

Lemma shrink_check n response s : short n s → shrinks n (check_plain response s).
Proof.
  intros Hs. unfold check_plain. destruct (verify_sasl_plain _ _); [by apply shrink_continue|].
  destruct (_ <=? _); [done|by apply shrink_continue].
Qed.

Lemma read_line_short n c r c' : (length (inp c) <= n)%nat → read_line c = (r, c') → (length (inp c') <= n)%nat.
Proof.
  intros Hn. unfold read_line. pose proof (timed_out_inp c) as Ht. destruct (timed_out c) as [[|] c1]; cbn in Ht.
  { intros [= <- <-]. by rewrite Ht. }
  intros [= <- <-]. rewrite Ht. destruct (read_command_line (inp c)) as [line rest| |rest] eqn:E; cbn; [|lia|].
  - apply read_command_from_spec in E as (l & Hl & _). rewrite Hl, length_app in Hn. lia.
  - revert Hn E. unfold read_command_line. generalize (@nil Z). generalize (inp c). intros i. revert n.
    induction i as [|x i IH]; intros n buf Hn; cbn [read_command_from]; [done|]. cbn in Hn. destruct (x =? LF); [done|].
    destruct (_ <=? _); [|intros E; eapply IH; [|exact E]; lia].
    assert (Hd : ∀ j r, drain_line j = Some r → (length r <= length j)%nat).
    { induction j as [|y j IHj]; intros r0; cbn; [done|]. destruct (y =? LF); [intros [= <-]; lia|].
      intros H%IHj. lia. }
    destruct (drain_line i) as [r0|] eqn:Ed; [|done]. intros [= <-]. apply Hd in Ed. lia.
Qed.

Lemma shrink_data n is_tls s : short n s → shrinks n (handle_data is_tls s).
Proof.
  intros Hs. unfold handle_data. destruct (se_state s) as [| | |d from [|t to] req]; try by apply shrink_continue.
  apply shrink_say. intros c Hc. unfold read_message. cbn [se_conn with_conn].
  pose proof (timed_out_inp c) as Hto. destruct (timed_out c) as [[|] c']; cbn in Hto; [done|].
  destruct (data_loop_rest (max_message_bytes sv) (inp c') false [] [] false) as [l Hl]. unfold read_data_body.
  destruct (data_loop _ (inp c') false [] [] false) as [[raw large] rest]. cbn in Hl.
  set (s' := with_conn (with_inp rest c') (with_conn c s)).
  assert (Hs' : short n s').
  { unfold short in *. subst s'. cbn. apply (f_equal length) in Hl. rewrite Hto, Hc, length_app in Hl. lia. }
  assert (Ha : ∀ r env, shrinks n (accept_message is_tls d from (t :: to) req r env s')).
  { intros r env. unfold accept_message. destruct (sieve_delivery _ _ _ _ _ _). by apply shrink_state. }
  destruct large; [by apply shrink_state|]. unfold take_message. destruct (_ <=? _)%nat; [by apply shrink_state|].
  destruct (authenticates sv); [|done]. destruct (dmarc_reject _); [by apply shrink_state|done].
Qed.

Lemma shrink_auth n is_tls args s : short n s → shrinks n (handle_auth is_tls args s).
Proof.
  intros Hs. unfold handle_auth. destruct (_ && _); [done|]. case_bool_decide; [by apply shrink_continue|].
  destruct (_ || _); [|by apply shrink_continue]. case_bool_decide; [|by apply shrink_check].
  apply shrink_say. intros c Hc. unfold two_step. destruct (read_line (se_conn (with_conn c s))) as [r c'] eqn:E.
  apply (read_line_short n) in E; [|unfold short in Hs; cbn; by rewrite Hc].
  destruct r as [[line rest| |rest]|]; try done.
  case_bool_decide; [by apply shrink_continue|by apply shrink_check].
Qed.

Lemma shrink_command n is_tls line s : short n s → shrinks n (handle_command is_tls line s).
Proof.
  intros Hs. unfold handle_command. destruct (split_command _) as [verb args].
  assert (Hgreet : ∀ b, shrinks n (handle_greeting b args s)).
  { intros b. unfold handle_greeting. destruct (bad_domain args); [by apply shrink_continue|by apply shrink_state]. }
  repeat (case_bool_decide as Hv; [|clear Hv]).
  - apply Hgreet.
  - apply Hgreet.
  - by apply shrink_auth.
  - unfold handle_mail. destruct (se_state s); try by apply shrink_continue.
    destruct (_ && _); [by apply shrink_continue|]. destruct (_ && _); [by apply shrink_continue|by apply shrink_state].
  - unfold handle_rcpt. destruct (se_state s); [by apply shrink_continue..|by apply shrink_state|].
    destruct (_ <=? _)%nat; by apply shrink_continue.
  - by apply shrink_data.
  - unfold handle_rset. destruct (se_state s); [by apply shrink_continue|by apply shrink_state..].
  - by apply shrink_continue.
  - done.
  - unfold handle_starttls. destruct is_tls; [by apply shrink_continue|].
    destruct (tls_acceptor sv) eqn:Et; [|by apply shrink_continue].
    apply shrink_say. intros c _. split; [done|]. cbn. by rewrite Et.
  - by apply shrink_continue.
Qed.

Lemma turn_shrinks is_tls s : shrinks (length (inp (se_conn s)) - 1) (turn is_tls s).
Proof.
  unfold turn, read_line. pose proof (timed_out_inp (se_conn s)) as Ht. destruct (timed_out (se_conn s)) as [[|] c]; cbn in Ht; [done|].
  rewrite Ht. destruct (read_command_line (inp (se_conn s))) as [line rest| |rest] eqn:E; try done.
  apply shrink_command. apply read_command_from_spec in E as (l & -> & Hne & _). unfold short. cbn. rewrite length_app.
  destruct l; [done|]. cbn. lia.
Qed.

Lemma smtp_loop_ends fuel is_tls s :
  (length (inp (se_conn s)) < fuel)%nat → ∃ st, session_loop fuel is_tls s = Some st ∧ upgrades st ∧ (∀ s', st ≠ Continue s').
Proof.
  revert s. induction fuel as [|fuel IH]; intros s Hf; [lia|]. cbn [session_loop].
  destruct (turn_shrinks is_tls s) as [H1 H2].
  destruct (decide (inp (se_conn s) = [])) as [He|He].
  - assert (∃ s', turn is_tls s = Stop s') as [s' ->].
    { unfold turn, read_line. pose proof (timed_out_inp (se_conn s)) as Ht. destruct (timed_out (se_conn s)) as [[|] c]; cbn in Ht.
      - by eexists.
      - rewrite Ht, He. by eexists. }
    by eexists.
  - destruct (turn is_tls s) as [s'|s'|s' a]; [|by eexists..]. apply IH. unfold outcome, short in H1.
    destruct (inp (se_conn s)); [done|]. cbn in *. lia.
Qed.

Lemma serve_ends is_tls c m times :
  ∃ r, serve is_tls c m times = Some r ∧ match r with inl _ => True | inr (_, accept) => tls_acceptor sv = Some accept end.
Proof.
  unfold serve. destruct (write_all greeting c) as [[|] c']; [|by eexists]. cbn [negb].
  destruct (smtp_loop_ends (S (length (inp c'))) is_tls (start c' m times)) as (st & -> & Hu & _); [cbn; lia|].
  destruct st; by eexists.
Qed.

(** ** Loops *)

(** One pass through the server: how the session was secured, what EHLO said,
    when, and the lines of Authentication-Results, if any. *)
Record Hop := mkHop { hop_tls : bool; hop_require : bool; hop_domain : bytes; hop_time : Z; hop_results : list bytes }.

(** What the server hands on. *)
Definition stamp (h : Hop) (raw : bytes) : bytes :=
  received_line (hop_tls h) (hop_require h) (hop_domain h) (hop_time h) ++ CRLF ++ render (hop_results h) ++ raw.

Definition hop_ok (h : Hop) : Prop := bad_domain (hop_domain h) = false ∧ Forall text_line (hop_results h).

Lemma domain_inline d : bad_domain d = false → inline d.
Proof.
  unfold bad_domain. intros H. split; intros Hin; enough (existsb (λ b, (b =? CR) || (b =? LF) || (b =? NUL)) d = true) by congruence;
    apply existsb_exists; eexists; split; [by apply list_elem_of_In| |by apply list_elem_of_In|]; done.
Qed.

Lemma received_inline is_tls req d now :
  inline (client_ip sv) → inline (hostname sv) → bad_domain d = false → inline (received_line is_tls req d now).
Proof.
  intros Hip Hh Hd%domain_inline. unfold received_line.
  assert (Hw : inline (with_clause is_tls req)) by (by destruct is_tls, req; apply (bool_decide_eq_true_1 _)).
  pose proof (inline_rfc2822 now).
  repeat first [assumption | solve [by apply (bool_decide_eq_true_1 _)] | apply inline_app].
Qed.

Lemma text_line_not_blank l m : text_line l → not_blank (l ++ m).
Proof.
  intros [Hlf Hcr]. destruct l as [|x l]; [done|]. apply not_elem_of_cons in Hlf as [Hx _].
  split; by apply starts_with_head.
Qed.

Lemma count_lines ls m :
  Forall text_line ls → not_blank m →
  not_blank (render ls ++ m) ∧ (count_received_headers m <= count_received_headers (render ls ++ m))%nat.
Proof.
  intros Hls Hm. induction Hls as [|l ls Hl _ [IH1 IH2]]; [done|]. rewrite render_cons. split; [by apply text_line_not_blank|].
  rewrite count_received_line by (done || apply Hl). lia.
Qed.

Lemma hops_received r : SmtpText.hops (lit "Received:" ++ r) = 1%nat.
Proof.
  unfold SmtpText.hops, is_received. rewrite strip_cr_app, length_app, (take_app_length' _ _ 9) by done.
  by change (length (lit "Received:")) with 9%nat.
Qed.

Lemma stamp_counts h raw :
  inline (client_ip sv) → inline (hostname sv) → hop_ok h → not_blank raw →
  not_blank (stamp h raw) ∧ (S (count_received_headers raw) <= count_received_headers (stamp h raw))%nat.
Proof.
  intros Hip Hh [Hd Hr] Hraw. destruct (count_lines (hop_results h) raw Hr Hraw) as [H1 H2].
  destruct (received_inline (hop_tls h) (hop_require h) (hop_domain h) (hop_time h) Hip Hh Hd) as [_ Hlf].
  split; [by split|]. unfold stamp. rewrite count_received_line by done.
  unfold received_line. change (lit "Received: from ") with (lit "Received:" ++ lit " from "). rewrite <- app_assoc, hops_received. lia.
Qed.

(** The hop count is not up to the client: whatever EHLO says, each pass
    through the server adds a Received line of its own, so a message that comes
    back again and again, also with Authentication-Results lines in between, is
    refused at the latest when it has passed 25 times, and nothing is stored. *)
Theorem mail_loop_stops (hops : list Hop) (raw : bytes) (is_tls : bool) (d from : bytes) (to : list bytes) (req : bool) (s : Sess) :
  inline (client_ip sv) → inline (hostname sv) → Forall hop_ok hops → not_blank raw → (25 <= length hops)%nat →
  take_message is_tls d from to req (foldr stamp raw hops) s =
    answer (reply (lit "554 5.4.6 Too many hops - mail loop detected")) d s.
Proof.
  intros Hip Hh Hhops Hraw Hlen.
  assert (H : not_blank (foldr stamp raw hops) ∧ (length hops <= count_received_headers (foldr stamp raw hops))%nat).
  { clear Hlen. induction Hhops as [|h hops Hok _ [IH1 IH2]]; [by split; [|apply Nat.le_0_l]|]. cbn [foldr length].
    destruct (stamp_counts h _ Hip Hh Hok IH1). split; [done|lia]. }
  unfold take_message, MAX_HOPS. destruct (Nat.leb_spec 25 (count_received_headers (foldr stamp raw hops))); [done|lia].
Qed.

(** ** The upgrade *)

Lemma starttls_turn c m times inside accept :
  write_errors c = [] → timeouts c = [] → inp c = lit "STARTTLS" ++ CRLF ++ inside → tls_acceptor sv = Some accept →
  serve false c m times =
    Some (inr (start (mkConn inside (sent c ++ [greeting; reply (lit "220 Ready to start TLS")]) [] []) m times, accept)).
Proof.
  intros Hw Ht Hi Ha. unfold serve, write_all. rewrite Hw. cbn [next_bool negb inp]. rewrite Hi.
  cbn [session_loop]. unfold turn, read_line, timed_out. cbn [se_conn start inp timeouts]. rewrite Ht. cbn [next_bool inp sent timeouts write_errors with_inp].
  assert (Hr : read_command_line (lit "STARTTLS" ++ CRLF ++ inside) = CmdLineOk (lit "STARTTLS" ++ CRLF) inside) by reflexivity.
  assert (Hc : ∀ s, handle_command false (lit "STARTTLS" ++ CRLF) s = handle_starttls false s) by reflexivity.
  rewrite Hr, Hc. unfold handle_starttls. rewrite Ha. unfold say, write_all. cbn -[lit greeting reply]. by rewrite <- app_assoc.
Qed.

End Session.

Definition without_tls (sv : Server) : Server :=
  mkServer (hostname sv) (max_message_bytes sv) (max_recipients sv) (credential_store sv) (authenticates sv)
    (inbox_mailbox_id sv) (client_ip sv) (is_submission sv) None.

Section Run.
Context {lib : SieveLib} {cid : CidLib} {b32 : Base32Lib} {parser : MailParserLib} {envs : EnvelopeLib} {stems : StemLib}.
Context {b64 : Base64Lib} {bcrypt : BcryptLib} {mauth : MailAuthLib}.

(** STARTTLS calls [run_session] again, inside TLS and without an acceptor. *)
Definition run_session (sv : Server) (is_tls : bool) (c : Conn) (m : Mta) (times : list Z) : option Sess :=
  match serve sv is_tls c m times with
  | None => None
  | Some (inl s) => Some s
  | Some (inr (s, accept)) =>
      match accept (inp (se_conn s)) with
      | None => Some s
      | Some inside =>
          match serve (without_tls sv) true (with_inp inside (se_conn s)) (se_mta s) (se_times s) with
          | Some (inl s) => Some s
          | _ => None
          end
      end
  end.

(** The loop needs no more turns than there are bytes to read, and inside TLS
    there is no second upgrade. *)
Lemma run_ends (sv : Server) (is_tls : bool) (c : Conn) (m : Mta) (times : list Z) :
  ∃ s, run_session sv is_tls c m times = Some s.
Proof.
  unfold run_session. destruct (serve_ends sv is_tls c m times) as (r & -> & Hr).
  destruct r as [s|[s accept]]; [by eexists|]. destruct (accept _) as [inside|]; [|by eexists].
  destruct (serve_ends (without_tls sv) true (with_inp inside (se_conn s)) (se_mta s) (se_times s)) as (r & -> & Hr').
  by destruct r as [s'|[s' a]]; [eexists|].
Qed.

Lemma start_good (sv : Server) (is_tls : bool) (c : Conn) (m : Mta) (times : list Z) :
  good sv is_tls (inp c) m (start c m times).
Proof. split; cbn; [|by intros []|done|done|lia]. split; [done|by left]. Qed.

Lemma serve_kept (sv : Server) (is_tls : bool) (c : Conn) (m : Mta) (times : list Z) r :
  serve sv is_tls c m times = Some r →
  done_well sv is_tls (inp c) m (match r with inl s => s | inr (s, _) => s end) ∧
  match r with inl _ => True | inr (_, accept) => tls_acceptor sv = Some accept end.
Proof.
  unfold serve. pose proof (smtp_write_inp (greeting sv) c) as Hi. destruct (write_all (greeting sv) c) as [[|] c']; cbn in Hi.
  2:{ intros [= <-]. split; [|done]. rewrite <- Hi. apply start_good. }
  cbn [negb]. destruct (smtp_loop_ends sv (S (length (inp c'))) is_tls (start c' m times)) as (st & E & Hu & _); [cbn; lia|].
  rewrite E.
  pose proof (kept_loop sv is_tls (inp c) m _ _ st ltac:(rewrite <- Hi; apply start_good) E) as Hk.
  destruct st; intros [= <-]; (split; [|done]); try done. apply Hk.
Qed.

(** C3. Every session ends, whatever the client, the network, the databases and
    the clock do.  And when the server has any credentials, nothing the client
    did has changed what the server stores unless the client sent, inside TLS or
    on the submission port, a response that the credential check accepts. *)
Theorem no_mail_without_login (sv : Server) (is_tls : bool) (c : Conn) (m : Mta) (times : list Z) :
  ∃ s, run_session sv is_tls c m times = Some s ∧
  (is_empty (credential_store sv) = false →
   se_mta s = m ∨ (is_tls || is_submission sv = true ∧ proven sv (inp c)) ∨
   ∃ accept rest inside, tls_acceptor sv = Some accept ∧ rest `suffix_of` inp c ∧ accept rest = Some inside ∧ proven sv inside).
Proof.
  destruct (run_ends sv is_tls c m times) as [s Hrun]. exists s. split; [done|]. intros Hne.
  revert Hrun. unfold run_session. destruct (serve sv is_tls c m times) as [r|] eqn:E; [|done].
  apply serve_kept in E as [[Hrest Hm] Ha]. rewrite Hne in Hm. destruct r as [s1|[s1 accept]]; [intros [= <-]; naive_solver|].
  destruct (accept (inp (se_conn s1))) as [inside|] eqn:Eacc; [|intros [= <-]; naive_solver].
  destruct (serve (without_tls sv) _ _ _ _) as [[s2|]|] eqn:E2; [|done..]. intros [= <-].
  apply serve_kept in E2 as [[_ Hm2] _]. cbn in Hm2. rewrite Hne in Hm2.
  destruct Hm2 as [-> |[?|[_ Hp]]]; [|done|].
  - destruct Hm as [->|[?|?]]; [by left|done|by right; left].
  - right. right. by exists accept, (inp (se_conn s1)), inside.
Qed.

(** After STARTTLS the server greets again, where the protocol has it wait for
    the client's EHLO: a client that only upgrades and then listens is sent the
    220 greeting a second time inside TLS. *)
Theorem starttls_greets_again (sv : Server) (c : Conn) (m : Mta) (times : list Z) (rest : bytes) (accept : bytes → option bytes) :
  write_errors c = [] → timeouts c = [] → inp c = lit "STARTTLS" ++ CRLF ++ rest →
  tls_acceptor sv = Some accept → accept rest = Some [] →
  ∃ s, run_session sv false c m times = Some s ∧ se_mta s = m ∧
    sent (se_conn s) = sent c ++ [greeting sv; reply (lit "220 Ready to start TLS"); greeting sv].
Proof.
  intros Hw Ht Hi Ha Hin. unfold run_session. rewrite (starttls_turn sv c m times rest accept) by done.
  cbn [se_conn start inp]. rewrite Hin. eexists. split; [reflexivity|]. split; [reflexivity|].
  cbn -[greeting reply lit]. by rewrite <- app_assoc.
Qed.

End Run.
Module SessionSamples.
Import ToyCrypto ToySieveLib QueueSamples DeliverySamples CredentialSamples.

#[local] Instance plain_base64 : Base64Lib := { base64_decode b := Some b }.
#[local] Instance no_checks : MailAuthLib := {
  ArcOutput := ();
  parse_from _ := None;
  verify_dkim _ := [];
  verify_spf _ _ _ _ := SpfNone;
  verify_dmarc _ _ _ _ := mkDmarc PolicyNone DmarcNone DmarcNone;
  verify_arc _ := tt;
  authentication_results _ _ _ _ _ _ _ _ _ := []
}.

(** One user, whose password is the hash of the sample library. *)
Definition store : CredentialStore := mkStore {[ lit "al" := lit "pw" ]} (lit "-").

Definition sv : Server := mkServer (lit "mx") 1000 5 store false None (lit "10.0.0.1") true (Some (λ _, Some [])).

Definition hop : Hop := mkHop true false (lit "client.example") 0 [lit "Authentication-Results: mx; none"].

Lemma loop_witness :
  take_message sv true (lit "c") (lit "a@b") [lit "c@d"] false (foldr (stamp sv) (lit "Subject: x" ++ CRLF) (replicate 25 hop))
    (start (mkConn [] [] [] []) mta []) =
  answer (reply (lit "554 5.4.6 Too many hops - mail loop detected")) (lit "c") (start (mkConn [] [] [] []) mta []).
Proof.
  apply (mail_loop_stops sv (replicate 25 hop) (lit "Subject: x" ++ CRLF)).
  - by apply (bool_decide_eq_true_1 _).
  - by apply (bool_decide_eq_true_1 _).
  - apply Forall_replicate. split; [reflexivity|]. repeat constructor; [by apply (bool_decide_eq_true_1 _)|done].
  - split; reflexivity.
  - rewrite length_replicate. lia.
Defined.

End SessionSamples.

End SmtpSession.
