(* ===== verification/MtaSts.v ===== *)
(** MTA-STS (RFC 8461) in the SMTP server: the policy file and its parser
    ([crates/smtp/src/mta_sts_policy.rs]), the page that serves it
    ([serve_mta_sts_policy] of [sieve_admin.rs]), the DNS record
    ([mta_sts_dns.rs]), the check of a host against the patterns
    ([mta_sts_mx.rs]), the fetch ([mta_sts_fetcher.rs]) and the enforcer with its
    cache ([MtaStsEnforcer] of [relay_client.rs]).

    [policy_roundtrip] states that what one server serves another parses back;
    [mx_pattern_spec] what a pattern matches; [enforced_while_cached] that under a
    cached enforcing policy a delivery that breaks it is refused, and
    [rotation_lifts_policy] how that can be got around. *)

From S2P Require Import Prelude Bytes Utf8 Decimal Headers.

Module MtaSts.
Import Utf8 Decimal Headers.

Inductive MtaStsMode := ModeNone | Testing | Enforce.

#[export] Instance mode_eq_dec : EqDecision MtaStsMode.
Proof. solve_decision. Defined.

Inductive MtaStsError :=
| DnsLookupFailed
| DnsTxtMultipleRecords
| DnsTxtMissingId
| DnsTxtIdTooLong
| DnsTxtIdInvalid
| PolicyFetchFailed (message : bytes)
| PolicyFetchRedirectForbidden
| PolicyFetchHttpError (status : Z)
| PolicyFetchTooLarge
| PolicyParseFailed (message : bytes).

(** ** The policy file *)

Record MtaStsPolicy := mkPolicy { mode : MtaStsMode; mx_patterns : list bytes; max_age : Z }.

(** [trim_end_matches('\r')] *)
Definition trim_end_cr (l : bytes) : bytes := rev (drop_while (Z.eqb CR) (rev l)).

(** [split_once(": ")] *)
Definition split_colon (l : bytes) : option (bytes * bytes) :=
  match find_subsequence l (lit ": ") with
  | Some n => Some (take n l, drop (n + 2) l)
  | None => None
  end.

Definition parse_u32 (s : bytes) : option Z :=
  match parse_u64 s with Some x => if x <=? 2 ^ 32 - 1 then Some x else None | None => None end.

Record Fields := mkFields { f_mode : option MtaStsMode; f_mx : list bytes; f_max_age : option Z }.

Definition parse_mode (value : bytes) : result MtaStsError MtaStsMode :=
  if bool_decide (value = lit "none") then Ok ModeNone
  else if bool_decide (value = lit "testing") then Ok Testing
  else if bool_decide (value = lit "enforce") then Ok Enforce
  else Err (PolicyParseFailed (lit "unknown mode value: " ++ value)).

Definition parse_field (f : Fields) (line : bytes) : result MtaStsError Fields :=
  match split_colon line with
  | None => Ok f
  | Some (k, v) =>
      let key := trim k in
      let value := trim v in
      if bool_decide (key = lit "mode") then
        match f_mode f with
        | Some _ => Err (PolicyParseFailed (lit "duplicate 'mode' field"))
        | None => m ← parse_mode value; Ok (mkFields (Some m) (f_mx f) (f_max_age f))
        end
      else if bool_decide (key = lit "mx") then
        if bool_decide (value = lit "*.") then
          Err (PolicyParseFailed (lit "invalid mx pattern: '*.' requires a non-empty suffix"))
        else Ok (mkFields (f_mode f) (f_mx f ++ [value]) (f_max_age f))
      else if bool_decide (key = lit "max_age") then
        match f_max_age f with
        | Some _ => Err (PolicyParseFailed (lit "duplicate 'max_age' field"))
        | None =>
            match parse_u32 value with
            | None => Err (PolicyParseFailed (lit "max_age is not a valid u32: " ++ value))
            | Some n =>
                if 31557600 <? n then Err (PolicyParseFailed (lit "max_age " ++ to_decimal n ++ lit " exceeds maximum 31557600"))
                else Ok (mkFields (f_mode f) (f_mx f) (Some n))
            end
        end
      else Ok f
  end.

Fixpoint parse_fields (f : Fields) (lines : list bytes) : result MtaStsError Fields :=
  match lines with
  | [] => Ok f
  | l :: lines' => f' ← parse_field f l; parse_fields f' lines'
  end.

Definition policy_lines (body : bytes) : list bytes :=
  List.filter (λ l, negb (bool_decide (trim l = []))) (trim_end_cr <$> split LF body).

Definition finish_policy (f : Fields) : result MtaStsError MtaStsPolicy :=
  match f_mode f with
  | None => Err (PolicyParseFailed (lit "missing 'mode' field"))
  | Some m =>
      if negb (bool_decide (m = ModeNone)) && bool_decide (f_mx f = []) then
        Err (PolicyParseFailed (lit "at least one 'mx' field is required for enforce/testing mode"))
      else match f_max_age f with
           | None => Err (PolicyParseFailed (lit "missing 'max_age' field"))
           | Some n => Ok (mkPolicy m (f_mx f) n)
           end
  end.

Definition parse_mta_sts_policy (body : bytes) (max_body_bytes : Z) : result MtaStsError MtaStsPolicy :=
  if max_body_bytes <? Z.of_nat (length body) then Err (PolicyParseFailed (lit "policy body too large"))
  else match policy_lines body with
       | first :: lines =>
           if bool_decide (first = lit "version: STSv1") then
             f ← parse_fields (mkFields None [] None) lines; finish_policy f
           else Err (PolicyParseFailed (lit "first line must be 'version: STSv1'"))
       | [] => Err (PolicyParseFailed (lit "first line must be 'version: STSv1'"))
       end.

(** ** Serving it *)

Record MtaStsDomainConfig := mkDomain { domain : bytes; cfg_mode : MtaStsMode; cfg_mx_patterns : list bytes; max_age_secs : Z }.

Definition mode_str (m : MtaStsMode) : bytes :=
  match m with ModeNone => lit "none" | Testing => lit "testing" | Enforce => lit "enforce" end.

Definition policy_body (cfg : MtaStsDomainConfig) : bytes :=
  lit "version: STSv1" ++ CRLF ++ lit "mode: " ++ mode_str (cfg_mode cfg) ++ CRLF ++
  concat ((λ mx, lit "mx: " ++ mx ++ CRLF) <$> cfg_mx_patterns cfg) ++
  lit "max_age: " ++ to_decimal (max_age_secs cfg) ++ CRLF.

(** [rsplit_once(':')], the part before; the whole when there is none. *)
Definition without_port (host : bytes) : bytes :=
  match split_once 58 (rev host) with Some (_, h) => rev h | None => host end.

(** [None] is 404. *)
Definition serve_mta_sts_policy (hosted : list MtaStsDomainConfig) (host : option bytes) : option bytes :=
  match strip_prefix (lit "mta-sts.") (without_port (default [] host)) with
  | Some (c :: d) => policy_body <$> List.find (λ cfg, eq_ignore_ascii_case (domain cfg) (c :: d)) hosted
  | _ => None
  end.

(** ** Hosts *)

Definition mx_matches_pattern (mx_hostname pattern : bytes) : bool :=
  let mx := to_ascii_lowercase mx_hostname in
  let pat := to_ascii_lowercase pattern in
  match strip_prefix (lit "*.") pat with
  | Some base =>
      match strip_suffix base mx with
      | Some before_base =>
          match strip_suffix (lit ".") before_base with
          | Some label => negb (bool_decide (label = [])) && negb (contains 46 label)
          | None => false
          end
      | None => false
      end
  | None => bool_decide (mx = pat)
  end.

Definition check_mx_against_policy (mx : bytes) (patterns : list bytes) : bool := existsb (mx_matches_pattern mx) patterns.

(** ** The DNS record *)

Definition is_sts (text : bytes) : bool :=
  match split 59 text with t :: _ => bool_decide (trim t = lit "v=STSv1") | [] => false end.

(** The last [id=] wins. *)
Definition sts_id (text : bytes) : option bytes :=
  last (omap (λ pair, trim <$> strip_prefix (lit "id=") (trim pair)) (split 59 text)).

Definition parse_sts_record (text : bytes) : result MtaStsError (option bytes) :=
  if negb (is_sts text) then Ok None
  else match sts_id text with
       | None => Err DnsTxtMissingId
       | Some id =>
           if bool_decide (id = []) then Err DnsTxtMissingId
           else if (32 <? length id)%nat then Err DnsTxtIdTooLong
           else if negb (forallb is_ascii_alphanumeric id) then Err DnsTxtIdInvalid
           else Ok (Some id)
       end.

(** [resolver.txt_lookup]: the parts of each record, no such record, or a failure. *)
Inductive TxtAnswer := TxtRecords (records : list (list bytes)) | NoRecordsFound | TxtFailed.

Definition lookup_mta_sts_txt (txt_lookup : bytes → TxtAnswer) (dom : bytes) : result MtaStsError (option bytes) :=
  let name := lit "_mta-sts." ++ rev (drop_while (Z.eqb 46) (rev dom)) ++ lit "." in
  match txt_lookup name with
  | NoRecordsFound => Ok None
  | TxtFailed => Err DnsLookupFailed
  | TxtRecords records =>
      match List.filter is_sts ((λ parts, concat (from_utf8_lossy <$> parts)) <$> records) with
      | [] => Ok None
      | [r] => parse_sts_record r
      | _ => Err DnsTxtMultipleRecords
      end
  end.

(** ** The fetch *)

(** The HTTP client: a failed request, or a status and the chunks of the body, of
    which [None] is a failed read. *)
Definition HttpAnswer : Type := option (Z * list (option bytes)).

Fixpoint read_chunks (max : Z) (buf : bytes) (chunks : list (option bytes)) : result MtaStsError bytes :=
  match chunks with
  | [] => Ok buf
  | None :: _ => Err (PolicyFetchFailed (lit "body read failed"))
  | Some b :: l =>
      if max <? Z.of_nat (length buf) + Z.of_nat (length b) then Err PolicyFetchTooLarge else read_chunks max (buf ++ b) l
  end.

Definition fetch_url (get : bytes → HttpAnswer) (url : bytes) (max_body_bytes : Z) : result MtaStsError bytes :=
  match get url with
  | None => Err (PolicyFetchFailed (lit "request failed"))
  | Some (status, chunks) =>
      if (300 <=? status) && (status <? 400) then Err PolicyFetchRedirectForbidden
      else if negb ((200 <=? status) && (status <? 300)) then Err (PolicyFetchHttpError status)
      else b ← read_chunks max_body_bytes [] chunks;
           match from_utf8 b with
           | Some s => Ok s
           | None => Err (PolicyFetchFailed (lit "invalid UTF-8 in response"))
           end
  end.

Definition fetch_mta_sts_policy_body (get : bytes → HttpAnswer) (dom : bytes) (max_body_bytes : Z) : result MtaStsError bytes :=
  if bool_decide (dom = []) || contains 58 dom || contains 47 dom || contains 64 dom || contains 35 dom || contains 63 dom ||
     contains 91 dom || contains 93 dom
  then Err (PolicyFetchFailed (lit "invalid domain"))
  else fetch_url get (lit "https://mta-sts." ++ rev (drop_while (Z.eqb 46) (rev dom)) ++ lit "/.well-known/mta-sts.txt") max_body_bytes.

(** ** Enforcement *)

Inductive PeerTlsStatus := Connected | Plain.

#[export] Instance tls_eq_dec : EqDecision PeerTlsStatus.
Proof. solve_decision. Defined.

Inductive TlsrptFailureType := StarttlsNotSupported | StsPolicyInvalid.

(** A failure record: the type and the peer; the other fields are constants. *)
Record TlsrptFailureRecord := mkFailure { result_type : TlsrptFailureType; receiving_mx_hostname : bytes }.

Definition record_failure (recipient_domain : bytes) (r : TlsrptFailureRecord) (m : gmap bytes (list TlsrptFailureRecord)) :
    gmap bytes (list TlsrptFailureRecord) :=
  <[ recipient_domain := default [] (m !! recipient_domain) ++ [r] ]> m.

Record CachedStsEntry := mkEntry {
  policy_id : bytes;
  e_mode : MtaStsMode;
  e_mx_patterns : list bytes;
  last_id_check : Z;
  valid_until : Z
}.

Record MtaStsEnforcer := mkEnforcer {
  cache : gmap bytes CachedStsEntry;
  tlsrpt : gmap bytes (list TlsrptFailureRecord)
}.

Definition ID_CHECK_INTERVAL : Z := 60.

(** What the network answers during one call, the limit, and the time in seconds. *)
Record Net := mkNet { txt_lookup : bytes → TxtAnswer; http_get : bytes → HttpAnswer; max_body_bytes : Z; now : Z }.

Definition set_cache (c : gmap bytes CachedStsEntry) (e : MtaStsEnforcer) : MtaStsEnforcer := mkEnforcer c (tlsrpt e).

(** [None] on any failure. *)
Definition load_fresh_policy (net : Net) (rcpt_domain id : bytes) (e : MtaStsEnforcer) :
    option (MtaStsMode * list bytes) * MtaStsEnforcer :=
  match fetch_mta_sts_policy_body (http_get net) rcpt_domain (max_body_bytes net) with
  | Err _ => (None, e)
  | Ok body =>
      match parse_mta_sts_policy body (max_body_bytes net) with
      | Err _ => (None, e)
      | Ok p =>
          let entry := mkEntry id (mode p) (mx_patterns p) (now net) (now net + Z.max (max_age p) 60) in
          (Some (mode p, mx_patterns p), set_cache (<[ rcpt_domain := entry ]> (cache e)) e)
      end
  end.

(** Steps 1 and 2: the policy that applies, if one is known or can be had. *)
Definition current_policy (net : Net) (rcpt_domain : bytes) (e : MtaStsEnforcer) :
    option (MtaStsMode * list bytes) * MtaStsEnforcer :=
  let e := set_cache (filter (λ kv : bytes * CachedStsEntry, now net < valid_until kv.2) (cache e)) e in
  match cache e !! rcpt_domain with
  | Some entry =>
      if ID_CHECK_INTERVAL <=? now net - last_id_check entry then
        let keep := (Some (e_mode entry, e_mx_patterns entry),
                     set_cache (<[ rcpt_domain := mkEntry (policy_id entry) (e_mode entry) (e_mx_patterns entry) (now net) (valid_until entry) ]> (cache e)) e) in
        match lookup_mta_sts_txt (txt_lookup net) rcpt_domain with
        | Ok (Some id) =>
            if bool_decide (id = policy_id entry) then keep
            else load_fresh_policy net rcpt_domain id (set_cache (delete rcpt_domain (cache e)) e)
        | _ => keep
        end
      else (Some (e_mode entry, e_mx_patterns entry), e)
  | None =>
      match lookup_mta_sts_txt (txt_lookup net) rcpt_domain with
      | Ok (Some id) => load_fresh_policy net rcpt_domain id e
      | _ => (None, e)
      end
  end.

Definition failed (dom : bytes) (t : TlsrptFailureType) (peer : bytes) (e : MtaStsEnforcer) : MtaStsEnforcer :=
  mkEnforcer (cache e) (record_failure dom (mkFailure t peer) (tlsrpt e)).

(** [false] is [Err(Permanent)]. *)
Definition enforce_for_delivery (net : Net) (rcpt_domain peer_host : bytes) (peer_tls : PeerTlsStatus) (e : MtaStsEnforcer) :
    bool * MtaStsEnforcer :=
  match current_policy net rcpt_domain e with
  | (None, e) => (true, e)
  | (Some (ModeNone, _), e) | (Some (Testing, _), e) => (true, e)
  | (Some (Enforce, mx), e) =>
      if bool_decide (peer_tls = Plain) then (false, failed rcpt_domain StarttlsNotSupported peer_host e)
      else if negb (check_mx_against_policy peer_host mx) then (false, failed rcpt_domain StsPolicyInvalid peer_host e)
      else (true, e)
  end.

(** ** Patterns *)

(** A pattern with a star matches the hosts with exactly one more label, another
    only itself; case does not matter. *)
Lemma mx_pattern_spec (mx pat : bytes) :
  mx_matches_pattern mx pat = true ↔
  (∃ base label, to_ascii_lowercase pat = lit "*." ++ base ∧ to_ascii_lowercase mx = label ++ lit "." ++ base ∧
     label ≠ [] ∧ 46 ∉ label) ∨
  (to_ascii_lowercase mx = to_ascii_lowercase pat ∧ strip_prefix (lit "*.") (to_ascii_lowercase pat) = None).
Proof.
  unfold mx_matches_pattern. destruct (strip_prefix (lit "*.") (to_ascii_lowercase pat)) as [base|] eqn:Ep.
  - apply strip_prefix_Some in Ep. rewrite Ep.
    destruct (strip_suffix base (to_ascii_lowercase mx)) as [before|] eqn:Es.
    + apply strip_suffix_Some in Es. rewrite Es. destruct (strip_suffix (lit ".") before) as [label|] eqn:El.
      * apply strip_suffix_Some in El as ->. rewrite andb_true_iff, !negb_true_iff, bool_decide_eq_false, contains_false. split.
        -- intros [Hl Hd]. left. exists base, label. rewrite <- app_assoc. by split_and!.
        -- intros [(b & l & Hb & Hm & Hl & Hd)|[_ ?]]; [|done]. apply app_inj_1 in Hb as [_ <-]; [|done].
           rewrite <- app_assoc in Hm. apply app_inj_2 in Hm as [<- _]; [|done]. by split.
      * split; [done|]. intros [(b & l & Hb & Hm & _)|[_ ?]]; [|done]. apply app_inj_1 in Hb as [_ <-]; [|done].
        rewrite app_assoc in Hm. apply app_inj_2 in Hm as [-> _]; [|done].
        by rewrite (proj2 (strip_suffix_Some (lit ".") (l ++ lit ".") l) eq_refl) in El.
    + split; [done|]. intros [(b & l & Hb & Hm & _)|[_ ?]]; [|done]. apply app_inj_1 in Hb as [_ <-]; [|done].
      rewrite app_assoc in Hm. apply strip_suffix_Some in Hm. congruence.
  - rewrite bool_decide_eq_true. split; [by right|]. intros [(b & l & Hb & _)|[? _]]; [|done].
    apply strip_prefix_Some in Hb. congruence.
Qed.

(** ** The cache *)

Definition rotated (net : Net) (dom : bytes) (entry : CachedStsEntry) : Prop :=
  ∃ id, lookup_mta_sts_txt (txt_lookup net) dom = Ok (Some id) ∧ id ≠ policy_id entry.

Lemma fresh_lookup (net : Net) (dom : bytes) (entry : CachedStsEntry) (e : MtaStsEnforcer) :
  cache e !! dom = Some entry → now net < valid_until entry →
  filter (λ kv : bytes * CachedStsEntry, now net < valid_until kv.2) (cache e) !! dom = Some entry.
Proof. intros H1 H2. by apply map_lookup_filter_Some. Qed.

(** C21. While an enforcing policy of a domain is cached and its identifier in DNS
    is not another, a delivery is allowed exactly over TLS to a host that matches
    the policy, whatever else DNS and the web server answer; and the policy
    stays in the cache. *)
Theorem enforced_while_cached (net : Net) (dom peer : bytes) (tls : PeerTlsStatus) (e : MtaStsEnforcer) (entry : CachedStsEntry) :
  cache e !! dom = Some entry → now net < valid_until entry → e_mode entry = Enforce → ~ rotated net dom entry →
  let '(allowed, e') := enforce_for_delivery net dom peer tls e in
  allowed = bool_decide (tls = Connected) && check_mx_against_policy peer (e_mx_patterns entry) ∧
  ∃ entry', cache e' !! dom = Some entry' ∧ policy_id entry' = policy_id entry ∧ e_mode entry' = Enforce ∧
    e_mx_patterns entry' = e_mx_patterns entry ∧ valid_until entry' = valid_until entry.
Proof.
  intros Hc Hv Hm Hr.
  assert (H : ∃ e1 entry1, current_policy net dom e = (Some (Enforce, e_mx_patterns entry), e1) ∧ cache e1 !! dom = Some entry1 ∧
    policy_id entry1 = policy_id entry ∧ e_mode entry1 = Enforce ∧ e_mx_patterns entry1 = e_mx_patterns entry ∧ valid_until entry1 = valid_until entry).
  { unfold current_policy. cbn [cache set_cache]. rewrite (fresh_lookup net dom entry) by done. rewrite Hm.
    destruct (ID_CHECK_INTERVAL <=? _); [|by eexists _, entry; split; [reflexivity|]; cbn; rewrite (fresh_lookup net dom entry)].
    destruct (lookup_mta_sts_txt (txt_lookup net) dom) as [[id|]|err] eqn:El.
    - rewrite bool_decide_eq_true_2 by (destruct (decide (id = policy_id entry)); [done|]; exfalso; apply Hr; by exists id).
      eexists _, _. split; [reflexivity|]. by split; [apply lookup_insert_eq|].
    - eexists _, _. split; [reflexivity|]. by split; [apply lookup_insert_eq|].
    - eexists _, _. split; [reflexivity|]. by split; [apply lookup_insert_eq|]. }
  destruct H as (e1 & entry1 & Hp & He & H1 & H2 & H3 & H4). unfold enforce_for_delivery. rewrite Hp.
  destruct tls; cbn; [|split; [done|by exists entry1]].
  destruct (check_mx_against_policy peer (e_mx_patterns entry)); cbn; (split; [done|by exists entry1]).
Qed.

(** A new identifier in DNS removes the cached policy before the new one is
    fetched: when the fetch fails, the delivery is allowed, also in the clear and
    to any host, and nothing is cached any more.  RFC 8461 has the sender apply
    the cached policy in this case. *)
Theorem rotation_lifts_policy (net : Net) (dom peer : bytes) (tls : PeerTlsStatus) (e : MtaStsEnforcer) (entry : CachedStsEntry) :
  cache e !! dom = Some entry → now net < valid_until entry → ID_CHECK_INTERVAL <= now net - last_id_check entry →
  rotated net dom entry → (∀ url, http_get net url = None) →
  ∃ e', enforce_for_delivery net dom peer tls e = (true, e') ∧ cache e' !! dom = None.
Proof.
  intros Hc Hv Hi (id & Hid & Hne) Hget. unfold enforce_for_delivery, current_policy. cbn [cache set_cache].
  rewrite (fresh_lookup net dom entry) by done. rewrite (proj2 (Z.leb_le _ _) Hi), Hid, bool_decide_eq_false_2 by done.
  unfold load_fresh_policy, fetch_mta_sts_policy_body, fetch_url. rewrite Hget.
  destruct (_ || _); (eexists; split; [reflexivity|]; apply lookup_delete_eq).
Qed.

(** ** What is served is parsed back *)

(** Lines the parser sees as they are. *)
Definition field_line (l : bytes) : Prop := LF ∉ l ∧ last l ≠ Some CR ∧ trim l ≠ [].

Lemma trim_end_cr_line l : last l ≠ Some CR → trim_end_cr (l ++ [CR]) = l.
Proof.
  intros Hl. unfold trim_end_cr. rewrite rev_app_distr. cbn [rev app drop_while]. change (Z.eqb CR CR) with true. cbv iota.
  destruct l as [|c l _] using rev_ind; [done|]. rewrite rev_app_distr. cbn [rev app drop_while]. rewrite last_snoc in Hl.
  destruct (Z.eqb_spec CR c) as [<-|]; [done|]. cbn. by rewrite rev_involutive.
Qed.

Lemma policy_lines_render (ls : list bytes) : Forall field_line ls → policy_lines (render ls) = ls.
Proof.
  intros Hls. unfold policy_lines. rewrite <- (app_nil_r (render ls)), split_render_lines.
  2:{ eapply Forall_impl; [exact Hls|]. by intros l (? & _). }
  assert (Htrim : trim_end_cr <$> ((λ h, h ++ [CR]) <$> ls) = ls).
  { induction Hls as [|l ls (H1 & H2 & H3) _ IH]; [done|]. rewrite !fmap_cons, IH. f_equal. by apply trim_end_cr_line. }
  rewrite fmap_app, Htrim, List.filter_app. change (List.filter _ (trim_end_cr <$> split LF [])) with (@nil bytes). rewrite app_nil_r.
  clear Htrim. induction Hls as [|l ls (H1 & H2 & H3) _ IH]; [done|]. cbn [List.filter]. by rewrite bool_decide_eq_false_2, IH.
Qed.

(** A pattern that can be served. *)
Definition mx_ok (mx : bytes) : Prop := token mx ∧ mx ≠ lit "*.".

Lemma field_line_of (k v : bytes) : token k → token v → field_line (k ++ SP :: v).
Proof.
  intros [Hk1 Hk2] [Hv1 Hv2].
  assert (Hno : ∀ c s, c = LF ∨ c = CR → Forall graphic s → c ∉ s).
  { intros c s Hc Hs Hin. rewrite Forall_forall in Hs. apply Hs in Hin. unfold graphic, LF, CR in *. lia. }
  split_and!.
  - rewrite elem_of_app, elem_of_cons. intros [H|[H|H]]; [by apply (Hno LF k) in H; auto|done|by apply (Hno LF v) in H; auto].
  - destruct v as [|c v _] using rev_ind; [done|]. rewrite (app_assoc k (SP :: v) [c] : k ++ SP :: v ++ [c] = _), last_snoc.
    intros [= ->]. apply (Hno CR (v ++ [CR])); [auto|done|]. apply elem_of_app. right. by apply list_elem_of_singleton.
  - rewrite trim_bordered by (apply bordered_words; [by apply token_bordered..|done|done]). by destruct k.
Qed.

Lemma decimal_graphic n : 0 <= n → Forall graphic (to_decimal n).
Proof.
  intros Hn. eapply Forall_impl; [by apply (dec_digits_digit 20)|]. intros c Hc. cbn in Hc. unfold is_ascii_digit in Hc.
  unfold graphic. to_prop. lia.
Qed.

Lemma decimal_not_nil n : 0 <= n → to_decimal n ≠ [].
Proof. intros Hn. destruct (dec_digits_cons 19 n Hn) as (c & s & E & _). unfold to_decimal. by rewrite E. Qed.

Definition config_lines (cfg : MtaStsDomainConfig) : list bytes :=
  lit "version: STSv1" :: (lit "mode:" ++ SP :: mode_str (cfg_mode cfg)) ::
  ((λ mx, lit "mx:" ++ SP :: mx) <$> cfg_mx_patterns cfg) ++ [lit "max_age:" ++ SP :: to_decimal (max_age_secs cfg)].

Lemma policy_body_lines cfg : policy_body cfg = render (config_lines cfg).
Proof.
  unfold policy_body, config_lines, render. rewrite !fmap_cons, fmap_app. cbn [concat]. rewrite concat_app.
  rewrite <- list_fmap_compose. cbn [fmap list_fmap concat]. rewrite app_nil_r, <- !app_assoc.
  by replace ((λ h, h ++ CRLF) ∘ (λ mx, lit "mx:" ++ SP :: mx) <$> cfg_mx_patterns cfg)
    with ((λ mx, lit "mx: " ++ mx ++ CRLF) <$> cfg_mx_patterns cfg).
Qed.

Lemma config_lines_fields cfg :
  Forall mx_ok (cfg_mx_patterns cfg) → 0 <= max_age_secs cfg → Forall field_line (config_lines cfg).
Proof.
  intros Hmx Hage.
  assert (Hk : ∀ k, bool_decide (Forall graphic k) && negb (bool_decide (k = [])) = true → token k).
  { intros k H. apply andb_prop in H as [H1 H2]. split; [by apply negb_true_iff, bool_decide_eq_false in H2|by apply bool_decide_eq_true in H1]. }
  apply Forall_cons. split; [|apply Forall_cons; split; [|apply Forall_app; split]].
  - apply (field_line_of (lit "version:") (lit "STSv1")); by apply Hk.
  - apply field_line_of; [by apply Hk|]. destruct (cfg_mode cfg); by apply Hk.
  - apply Forall_fmap. eapply Forall_impl; [exact Hmx|]. intros mx [Ht _]. apply field_line_of; [by apply Hk|done].
  - apply Forall_singleton, field_line_of; [by apply Hk|]. split; [by apply decimal_not_nil|by apply decimal_graphic].
Qed.

Lemma parse_mx f v : mx_ok v → parse_field f (lit "mx:" ++ SP :: v) = Ok (mkFields (f_mode f) (f_mx f ++ [v]) (f_max_age f)).
Proof.
  intros [[Hne Ht] Hs]. unfold parse_field.
  assert (split_colon (lit "mx:" ++ SP :: v) = Some (lit "mx", v)) as -> by reflexivity.
  rewrite (trim_bordered v) by (by apply token_bordered). change (trim (lit "mx")) with (lit "mx").
  rewrite (bool_decide_eq_false_2 (lit "mx" = _)), bool_decide_eq_true_2 by done. by rewrite bool_decide_eq_false_2.
Qed.

Lemma parse_mxs f mxs rest :
  Forall mx_ok mxs →
  parse_fields f (((λ mx, lit "mx:" ++ SP :: mx) <$> mxs) ++ rest) = parse_fields (mkFields (f_mode f) (f_mx f ++ mxs) (f_max_age f)) rest.
Proof.
  intros Hm. revert f. induction Hm as [|v mxs Hv _ IH]; intros f.
  - cbn. rewrite app_nil_r. by destruct f.
  - rewrite fmap_cons. cbn [app parse_fields]. rewrite parse_mx by done. cbn [mbind result_bind]. rewrite IH. cbn. by rewrite <- app_assoc.
Qed.

Lemma parse_age f n :
  0 <= n <= 31557600 → f_max_age f = None →
  parse_field f (lit "max_age:" ++ SP :: to_decimal n) = Ok (mkFields (f_mode f) (f_mx f) (Some n)).
Proof.
  intros Hn Hf. unfold parse_field.
  assert (split_colon (lit "max_age:" ++ SP :: to_decimal n) = Some (lit "max_age", to_decimal n)) as -> by reflexivity.
  rewrite (trim_bordered (to_decimal n)) by (apply token_bordered, decimal_graphic; lia). change (trim (lit "max_age")) with (lit "max_age").
  rewrite (bool_decide_eq_false_2 (lit "max_age" = lit "mode")), (bool_decide_eq_false_2 (lit "max_age" = lit "mx")) by done.
  rewrite bool_decide_eq_true_2, Hf by done. unfold parse_u32.
  rewrite parse_to_decimal by (unfold in_u64, u64_max; lia).
  rewrite (proj2 (Z.leb_le n _)) by lia. by rewrite (proj2 (Z.ltb_ge _ n)) by lia.
Qed.

(** The policy a server hosts, served for its domain, is parsed back by a
    sender as it was configured: mode, patterns and age.  The configuration has
    to keep to the format, which nothing checks: a pattern of printable
    characters, one at least unless the mode is none, and an age of a year at
    most. *)
Theorem policy_roundtrip (cfg : MtaStsDomainConfig) (max : Z) :
  Forall mx_ok (cfg_mx_patterns cfg) → (cfg_mode cfg = ModeNone ∨ cfg_mx_patterns cfg ≠ []) →
  0 <= max_age_secs cfg <= 31557600 → Z.of_nat (length (policy_body cfg)) <= max → domain cfg ≠ [] → 58 ∉ domain cfg →
  ∃ body, serve_mta_sts_policy [cfg] (Some (lit "mta-sts." ++ domain cfg)) = Some body ∧
    parse_mta_sts_policy body max = Ok (mkPolicy (cfg_mode cfg) (cfg_mx_patterns cfg) (max_age_secs cfg)).
Proof.
  intros Hmx Hmode Hage Hmax Hd Hcolon. exists (policy_body cfg). split.
  - unfold serve_mta_sts_policy. cbn [default from_option id].
    assert (without_port (lit "mta-sts." ++ domain cfg) = lit "mta-sts." ++ domain cfg) as ->.
    { unfold without_port. destruct (split_once 58 (rev (lit "mta-sts." ++ domain cfg))) as [[l r]|] eqn:E; [|done].
      apply split_once_Some in E as [E _]. apply (f_equal (λ x, 58 ∈ x)) in E.
      exfalso. assert (58 ∈ rev (lit "mta-sts." ++ domain cfg)) as Hin by (rewrite E; apply elem_of_app; right; by left).
      apply list_elem_of_In, List.in_rev, list_elem_of_In in Hin. apply elem_of_app in Hin as [Hin|Hin]; [|done].
      by apply (bool_decide_eq_true_1 (58 ∉ lit "mta-sts.")). }
    rewrite (proj2 (strip_prefix_Some _ _ _) eq_refl). destruct (domain cfg) as [|c d] eqn:Ed; [done|]. cbn [List.find].
    rewrite Ed. unfold eq_ignore_ascii_case. by rewrite bool_decide_eq_true_2.
  - unfold parse_mta_sts_policy. rewrite (proj2 (Z.ltb_ge _ _)) by lia. rewrite policy_body_lines, policy_lines_render.
    + unfold config_lines. rewrite bool_decide_eq_true_2 by done. cbn [parse_fields].
      assert (parse_field (mkFields None [] None) (lit "mode:" ++ SP :: mode_str (cfg_mode cfg)) = Ok (mkFields (Some (cfg_mode cfg)) [] None)) as ->
        by (by destruct (cfg_mode cfg)).
      cbn [mbind result_bind]. rewrite parse_mxs by done. cbn [parse_fields f_mode f_mx f_max_age app]. rewrite parse_age by done.
      unfold finish_policy. cbn. destruct Hmode as [->|Hne]; [done|]. rewrite (bool_decide_eq_false_2 (cfg_mx_patterns cfg = [])) by done.
      by rewrite andb_false_r.
    + apply config_lines_fields; [done|lia].
Qed.

Module StsSamples.

Definition cfg : MtaStsDomainConfig := mkDomain (lit "ex.org") Enforce [lit "mx.ex.org"; lit "*.ex.net"] 86400.

Lemma policy_witness :
  ∃ body, serve_mta_sts_policy [cfg] (Some (lit "mta-sts." ++ lit "ex.org")) = Some body ∧
    parse_mta_sts_policy body 1000 = Ok (mkPolicy Enforce [lit "mx.ex.org"; lit "*.ex.net"] 86400).
Proof.
  refine (policy_roundtrip cfg 1000 _ _ _ _ _ _).
  - repeat constructor; try done; by apply (bool_decide_eq_true_1 _).
  - right. discriminate.
  - cbn. lia.
  - by vm_compute.
  - discriminate.
  - by apply (bool_decide_eq_true_1 _).
Defined.

Definition entry : CachedStsEntry := mkEntry (lit "1") Enforce [lit "mx.ex.org"] 0 1000.
Definition enforcer : MtaStsEnforcer := mkEnforcer {[ lit "ex.org" := entry ]} ∅.

(** DNS has a new identifier, the web server does not answer. *)
Definition attack : Net := mkNet (λ _, TxtRecords [[lit "v=STSv1; id=2"]]) (λ _, None) 1000 100.

Lemma rotation_witness :
  ∃ e', enforce_for_delivery attack (lit "ex.org") (lit "evil.example") Plain enforcer = (true, e') ∧ cache e' !! lit "ex.org" = None.
Proof.
  apply (rotation_lifts_policy attack (lit "ex.org") (lit "evil.example") Plain enforcer entry); try done.
  exists (lit "2"). split; [by vm_compute|done].
Defined.

(** DNS does not answer either. *)
Definition silence : Net := mkNet (λ _, TxtFailed) (λ _, None) 1000 100.

Lemma enforced_witness :
  let '(allowed, e') := enforce_for_delivery silence (lit "ex.org") (lit "mx.ex.org") Plain enforcer in
  allowed = bool_decide (Plain = Connected) && check_mx_against_policy (lit "mx.ex.org") [lit "mx.ex.org"] ∧
  ∃ entry', cache e' !! lit "ex.org" = Some entry' ∧ policy_id entry' = lit "1" ∧ e_mode entry' = Enforce ∧
    e_mx_patterns entry' = [lit "mx.ex.org"] ∧ valid_until entry' = 1000.
Proof.
  apply (enforced_while_cached silence (lit "ex.org") (lit "mx.ex.org") Plain enforcer entry); try done.
  intros (id & Hid & _). discriminate Hid.
Defined.

End StsSamples.

End MtaSts.
