(* ===== verification/RelayClient.v ===== *)
(** The SMTP client the mail relay delivers with: [deliver_via_relay] and
    [run_smtp_session] of [crates/smtp/src/relay_client.rs], with the errors of
    [relay_error.rs].

    Whatever the peer answers, what is sent is a beginning of the one transcript
    RFC 5321 allows for the message, credentials are in it over TLS only, and a
    delivery that succeeds has sent all of it ([relay_transcript]).  The body is
    read back by this repository's own server as it was ([relayed_body_arrives]).
    A reply that is not ASCII can stop the task that delivers
    ([reply_panics]). *)

From S2P Require Import Prelude Bytes Utf8 Decimal Headers Util Lines Crypto Credentials NntpResponse Injection SmtpText MtaSts.

Module RelayClient.
Import Utf8 Decimal Headers Util Lines Injection SmtpText MtaSts.

(** ** Errors *)

(** The texts are only logged. *)
Inductive SmtpRelayError := Transient | Permanent | TlsHandshake | RelayIo | AuthFailed | ProtocolError.

Definition is_transient (e : SmtpRelayError) : bool :=
  match e with Transient | RelayIo | TlsHandshake => true | Permanent | AuthFailed | ProtocolError => false end.

Definition is_permanent (e : SmtpRelayError) : bool :=
  match e with Permanent | AuthFailed | ProtocolError => true | Transient | RelayIo | TlsHandshake => false end.

Definition marks_peer_down (e : SmtpRelayError) : bool := match e with Permanent => false | _ => true end.

(** A returned error, or a panic. *)
Inductive Failure := Fails (e : SmtpRelayError) | Panics.

(** ** The connection *)

(** The lines the peer answers with ([None] is a failed read, the end of the list
    the end of the stream), the writes that fail, and what was sent. *)
Record Wire := mkWire { answers : list (option bytes); broken : list bool; sent : list bytes }.

Definition MAX_SMTP_LINE : nat := 512.

(** [read_line] of a [String] fails on bytes that are not UTF-8. *)
Definition read_of (a : option bytes) : result Failure bytes :=
  match a with
  | Some line =>
      if negb (is_utf8 line) then Err (Fails RelayIo)
      else if (MAX_SMTP_LINE <? length line)%nat then Err (Fails ProtocolError)
      else if bool_decide (line = []) then Err (Fails RelayIo) else Ok line
  | None => Err (Fails RelayIo)
  end.

Definition read_line : prog Wire Failure bytes := λ w,
  match answers w with
  | [] => (Err (Fails RelayIo), w)
  | a :: l => (read_of a, mkWire l (broken w) (sent w))
  end.

Definition write_all (b : bytes) : prog Wire Failure () := λ w,
  match broken w with
  | true :: l => (Err (Fails RelayIo), mkWire (answers w) l (sent w))
  | l => (Ok tt, mkWire (answers w) (tail l) (sent w ++ [b]))
  end.

(** [&line[..3]] panics when a character lies across the third byte. *)
Definition parse_smtp_line (line : bytes) : result Failure (Z * bool * bytes) :=
  if (MAX_SMTP_LINE <? length line)%nat then Err (Fails ProtocolError)
  else if (length line <? 4)%nat then Err (Fails ProtocolError)
  else match str_to line 3 with
       | Err _ => Err Panics
       | Ok code_str =>
           if negb (forallb is_ascii_digit code_str) then Err (Fails ProtocolError)
           else let sep := default 0 (line !! 3%nat) in
                if negb ((sep =? 32) || (sep =? 45) || (sep =? CR) || (sep =? LF)) then Err (Fails ProtocolError)
                else Ok (dec_value code_str, sep =? 45, trim_eol (drop 4 line))
       end.

Definition is_4xx (code : Z) : bool := (400 <=? code) && (code <=? 499).

Definition check_250 (code : Z) : prog Wire Failure () :=
  if code =? 250 then mret tt else throw (Fails (if is_4xx code then Transient else Permanent)).

(** One reply, of one line. *)
Definition read_reply : prog Wire Failure (Z * bool * bytes) :=
  line ← read_line;
  lift (parse_smtp_line line).

(** ** The steps of a session *)

Fixpoint greeting_lines (l : list (option bytes)) : result Failure () * list (option bytes) :=
  match l with
  | [] => (Err (Fails RelayIo), [])
  | a :: l' =>
      match read_of a ≫= parse_smtp_line with
      | Err e => (Err e, l')
      | Ok (code, cont, _) =>
          if cont : bool then if code =? 220 then greeting_lines l' else (Err (Fails Permanent), l')
          else if code =? 220 then (Ok tt, l')
          else (Err (Fails (if is_4xx code then Transient else Permanent)), l')
      end
  end.

Definition read_greeting : prog Wire Failure () := λ w,
  let '(r, l) := greeting_lines (answers w) in (r, mkWire l (broken w) (sent w)).

Fixpoint ehlo_lines (l : list (option bytes)) (first : bool) (extensions : list bytes) : result Failure (list bytes) * list (option bytes) :=
  match l with
  | [] => (Err (Fails RelayIo), [])
  | a :: l' =>
      match read_of a ≫= parse_smtp_line with
      | Err e => (Err e, l')
      | Ok (code, cont, text) =>
          if code / 100 =? 5 then (Err (Fails Permanent), l')
          else if code / 100 =? 4 then (Err (Fails Transient), l')
          else
            let extensions := if first then extensions else extensions ++ [to_ascii_uppercase text] in
            if cont : bool then ehlo_lines l' false extensions else (Ok extensions, l')
      end
  end.

Definition read_ehlo : prog Wire Failure (list bytes) := λ w,
  let '(r, l) := ehlo_lines (answers w) true [] in (r, mkWire l (broken w) (sent w)).

Record SmtpRelayPeerConfig := mkPeer {
  host : bytes;
  tls : bool;
  username : option bytes;
  password : option bytes
}.

Record RelayEnvelope := mkEnvelope { mail_from : bytes; rcpt_to : list bytes; require_tls : bool }.

(** [base64::engine::general_purpose::STANDARD.encode]. *)
Class Base64Enc := { base64_encode : bytes → bytes }.

(** Its alphabet has no line ends. *)
Class Base64Inline (b64 : Base64Enc) : Prop := base64_inline x : inline (base64_encode x).

Section Client.
Context {b64 : Base64Enc}.

Definition ehlo_cmd (local_hostname : bytes) : bytes :=
  lit "EHLO " ++ (if bool_decide (local_hostname = []) then lit "localhost" else local_hostname) ++ CRLF.

Definition auth_cmd (user pass : bytes) : bytes :=
  lit "AUTH PLAIN " ++ base64_encode (NUL :: user ++ NUL :: pass) ++ CRLF.

Definition authenticate (peer : SmtpRelayPeerConfig) (extensions : list bytes) : prog Wire Failure () :=
  match username peer, password peer with
  | Some user, Some pass =>
      if negb (tls peer) then throw (Fails Permanent)
      else if negb (existsb (λ e, bool_decide (e = lit "AUTH") || starts_with e (lit "AUTH ")) extensions) then throw (Fails Permanent)
      else
        _ ← write_all (auth_cmd user pass);
        '(code, _, _) ← read_reply;
        if code =? 235 then mret tt
        else throw (Fails (if code =? 535 then AuthFailed else if is_4xx code then Transient else Permanent))
  | _, _ => mret tt
  end.

Definition bad_address (a : bytes) : bool := contains CR a || contains LF a || contains 60 a || contains 62 a.

Definition mail_cmd (envelope : RelayEnvelope) : bytes :=
  lit "MAIL FROM:<" ++ mail_from envelope ++ (if require_tls envelope then lit "> REQUIRETLS" else lit ">") ++ CRLF.

Definition rcpt_cmd (addr : bytes) : bytes := lit "RCPT TO:<" ++ addr ++ lit ">" ++ CRLF.

Fixpoint send_rcpts (addrs : list bytes) : prog Wire Failure () :=
  match addrs with
  | [] => mret tt
  | a :: l =>
      if bad_address a then throw (Fails Permanent)
      else _ ← write_all (rcpt_cmd a);
           '(code, _, _) ← read_reply;
           _ ← check_250 code;
           send_rcpts l
  end.

(** [nntp_dot_stuff] never slices out of range. *)
Definition stuff (article : bytes) : bytes := default [] (nntp_dot_stuff article).

(** The session up to the acceptance of the message. *)
Definition deliver_message (peer : SmtpRelayPeerConfig) (envelope : RelayEnvelope) (article local_hostname : bytes) : prog Wire Failure () :=
  _ ← read_greeting;
  _ ← write_all (ehlo_cmd local_hostname);
  extensions ← read_ehlo;
  _ ← (if require_tls envelope && negb (existsb (λ e, bool_decide (e = lit "REQUIRETLS")) extensions) then throw (Fails Permanent) else mret tt);
  _ ← authenticate peer extensions;
  _ ← (if bad_address (mail_from envelope) then throw (Fails Permanent) else mret tt);
  _ ← write_all (mail_cmd envelope);
  '(code, _, _) ← read_reply;
  _ ← check_250 code;
  _ ← send_rcpts (rcpt_to envelope);
  _ ← write_all (lit "DATA" ++ CRLF);
  '(code, _, _) ← read_reply;
  _ ← (if code =? 354 then mret tt else throw (Fails (if is_4xx code then Transient else Permanent)));
  _ ← write_all (stuff article);
  _ ← write_all (lit "." ++ CRLF);
  '(code, _, _) ← read_reply;
  check_250 code.

Definition QUIT : bytes := lit "QUIT" ++ CRLF.

Definition send_quit : prog Wire Failure () := λ w, (Ok tt, (write_all QUIT w).2).

(** [QUIT] is sent when all went well; whether it gets through is ignored. *)
Definition run_smtp_session (peer : SmtpRelayPeerConfig) (envelope : RelayEnvelope) (article local_hostname : bytes) : prog Wire Failure () :=
  _ ← deliver_message peer envelope article local_hostname;
  send_quit.

(** ** Before the session *)

Definition recipient_domain (addr : bytes) : option bytes :=
  match split_once 64 (rev addr) with Some (d, _) => Some (rev d) | None => None end.

Fixpoint enforce_all (net : Net) (peer : SmtpRelayPeerConfig) (domains : list bytes) (e : MtaStsEnforcer) : bool * MtaStsEnforcer :=
  match domains with
  | [] => (true, e)
  | d :: l =>
      match enforce_for_delivery net d (host peer) (if tls peer then Connected else Plain) e with
      | (true, e) => enforce_all net peer l e
      | (false, e) => (false, e)
      end
  end.

(** The domains in the order of the recipients, each once. *)
Definition domains_of (addrs : list bytes) : list bytes :=
  foldl (λ seen d, if bool_decide (d ∈ seen) then seen else seen ++ [d]) [] (omap recipient_domain addrs).

(** What the network does: whether the connection comes about, whether the
    handshake does, after how many writes the timer fires, and the stream. *)
Record Outside := mkOutside { connects : bool; handshakes : bool; times_out : option nat; stream : Wire }.

Definition do_deliver (net : Net) (peer : SmtpRelayPeerConfig) (envelope : RelayEnvelope) (article local_hostname : bytes)
    (mta_sts : option MtaStsEnforcer) (o : Outside) : result Failure () * option MtaStsEnforcer * Wire :=
  if require_tls envelope && negb (tls peer) then (Err (Fails Permanent), mta_sts, stream o)
  else
    let '(ok, mta_sts) :=
      match mta_sts with
      | None => (true, None)
      | Some e => let '(ok, e) := enforce_all net peer (domains_of (rcpt_to envelope)) e in (ok, Some e)
      end in
    if negb ok then (Err (Fails Permanent), mta_sts, stream o)
    else if negb (connects o) then (Err (Fails RelayIo), mta_sts, stream o)
    else if tls peer && negb (handshakes o) then (Err (Fails TlsHandshake), mta_sts, stream o)
    else let '(r, w) := run_smtp_session peer envelope article local_hostname (stream o) in (r, mta_sts, w).

Definition deliver_via_relay (net : Net) (peer : SmtpRelayPeerConfig) (envelope : RelayEnvelope) (article local_hostname : bytes)
    (mta_sts : option MtaStsEnforcer) (o : Outside) : result Failure () * option MtaStsEnforcer * Wire :=
  if bool_decide (rcpt_to envelope = []) then (Err (Fails Permanent), mta_sts, stream o)
  else let '(r, mta_sts, w) := do_deliver net peer envelope article local_hostname mta_sts o in
       match times_out o with
       | None => (r, mta_sts, w)
       | Some n => (Err (Fails RelayIo), mta_sts, mkWire (answers w) (broken w) (take n (sent w)))
       end.

(** ** What is sent *)

(** A command of one line: nothing in it ends the line early. *)
Definition one_line (b : bytes) : Prop := ∃ t, b = t ++ CRLF ∧ inline t.

Section Emits.
Context (ok : bytes → Prop).

(** [m] writes [out], or when it fails a beginning of it, all of it [ok]. *)
Definition emits {A} (m : prog Wire Failure A) (out : list bytes) : Prop :=
  ∀ w, match m w with
       | (Ok _, w') => sent w' = sent w ++ out ∧ Forall ok out
       | (Err _, w') => ∃ l, l `prefix_of` out ∧ sent w' = sent w ++ l ∧ Forall ok l
       end.

Lemma emits_bind {A B} (m : prog Wire Failure A) (k : A → prog Wire Failure B) o1 o2 :
  emits m o1 → (∀ a, emits (k a) o2) → emits (mbind k m) (o1 ++ o2).
Proof.
  intros Hm Hk w. unfold mbind, prog_bind. specialize (Hm w). destruct (m w) as [[a|e] w'].
  - destruct Hm as [Hm Ho]. specialize (Hk a w'). destruct (k a w') as [[b|e] w''].
    + destruct Hk as [Hk Ho']. split; [by rewrite Hk, Hm, app_assoc|by apply Forall_app].
    + destruct Hk as (l & Hl & -> & Ho'). exists (o1 ++ l). split_and!; [by apply prefix_app|by rewrite Hm, app_assoc|by apply Forall_app].
  - destruct Hm as (l & Hl & -> & Ho). exists l. split_and!; [by apply prefix_app_r|done|done].
Qed.

(** A step that writes nothing. *)
Lemma emits_silent {A B} (m : prog Wire Failure A) (k : A → prog Wire Failure B) out :
  emits m [] → (∀ a, emits (k a) out) → emits (mbind k m) out.
Proof. apply (emits_bind m k [] out). Qed.

Lemma emits_throw {A} e out : emits (throw e : prog Wire Failure A) out.
Proof. intros w. exists []. split_and!; [apply prefix_nil|by rewrite app_nil_r|done]. Qed.

Lemma emits_ret {A} (a : A) : emits (mret a : prog Wire Failure A) [].
Proof. intros w. cbn. by rewrite app_nil_r. Qed.

Lemma emits_write b : ok b → emits (write_all b) [b].
Proof.
  intros Hb w. unfold write_all. destruct (broken w) as [|[|] l]; [by split; [|apply Forall_singleton]| |by split; [|apply Forall_singleton]].
  exists []. split_and!; [apply prefix_nil|by rewrite app_nil_r|done].
Qed.

(** Steps that only read. *)
Lemma emits_read {A} (m : prog Wire Failure A) : (∀ w, sent (m w).2 = sent w) → emits m [].
Proof.
  intros H w. specialize (H w). destruct (m w) as [[a|e] w']; cbn in H; rewrite H; [by rewrite app_nil_r|].
  exists []. split_and!; [done|by rewrite app_nil_r|done].
Qed.

Lemma emits_reply : emits read_reply [].
Proof.
  apply emits_read. intros w. unfold read_reply, read_line, mbind, prog_bind. destruct (answers w) as [|a l]; [done|].
  cbn. by destruct (read_of a).
Qed.

Lemma emits_check code : emits (check_250 code) [].
Proof. unfold check_250. destruct (code =? 250); [apply emits_ret|apply emits_throw]. Qed.

(** The transcript of a message. *)
Definition auth_part (peer : SmtpRelayPeerConfig) : list bytes :=
  match username peer, password peer with
  | Some user, Some pass => if tls peer then [auth_cmd user pass] else []
  | _, _ => []
  end.

Definition transcript (peer : SmtpRelayPeerConfig) (envelope : RelayEnvelope) (article local_hostname : bytes) : list bytes :=
  [ehlo_cmd local_hostname] ++ auth_part peer ++ [mail_cmd envelope] ++ (rcpt_cmd <$> rcpt_to envelope) ++
  [lit "DATA" ++ CRLF] ++ [stuff article] ++ [lit "." ++ CRLF].

Lemma emits_auth peer extensions :
  (∀ user pass, ok (auth_cmd user pass)) → emits (authenticate peer extensions) (auth_part peer).
Proof.
  intros Hok. unfold authenticate, auth_part. destruct (username peer) as [u|]; [|apply emits_ret].
  destruct (password peer) as [p|]; [|apply emits_ret].
  destruct (tls peer); cbn [negb]; [|apply emits_throw]. destruct (negb _); [apply emits_throw|].
  apply (emits_bind _ _ [_] []); [by apply emits_write|]. intros _. apply emits_silent; [apply emits_reply|]. intros [[code ?] ?].
  destruct (code =? 235); [apply emits_ret|apply emits_throw].
Qed.

Lemma emits_rcpts addrs :
  (∀ a, bad_address a = false → ok (rcpt_cmd a)) → emits (send_rcpts addrs) (rcpt_cmd <$> addrs).
Proof.
  intros Hok. induction addrs as [|a l IH]; [apply emits_ret|]. cbn [send_rcpts]. destruct (bad_address a) eqn:Eb; [apply emits_throw|].
  apply (emits_bind _ _ [_]); [by apply emits_write, Hok|]. intros _. apply emits_silent; [apply emits_reply|]. intros [[code ?] ?].
  apply emits_silent; [apply emits_check|]. by intros _.
Qed.

Lemma emits_message peer envelope article local_hostname :
  (∀ user pass, ok (auth_cmd user pass)) → (∀ a, bad_address a = false → ok (rcpt_cmd a)) →
  (bad_address (mail_from envelope) = false → ok (mail_cmd envelope)) →
  ok (ehlo_cmd local_hostname) → ok (lit "DATA" ++ CRLF) → ok (stuff article) → ok (lit "." ++ CRLF) →
  emits (deliver_message peer envelope article local_hostname) (transcript peer envelope article local_hostname).
Proof.
  intros Ha Hr Hmail H1 H2 H3 H4.
  assert (Hg : emits read_greeting []) by (apply emits_read; intros w; unfold read_greeting; by destruct (greeting_lines _)).
  assert (He : emits read_ehlo []) by (apply emits_read; intros w; unfold read_ehlo; by destruct (ehlo_lines _ _ _)).
  unfold deliver_message, transcript. apply emits_silent; [done|]. intros _.
  apply emits_bind; [by apply emits_write|]. intros _. apply emits_silent; [done|]. intros extensions.
  apply emits_silent; [destruct (_ && _); [apply emits_throw|apply emits_ret]|]. intros _.
  apply emits_bind; [by apply emits_auth|]. intros _.
  destruct (bad_address (mail_from envelope)) eqn:Eb; [apply (emits_throw (Fails Permanent))|].
  apply emits_silent; [apply emits_ret|]. intros _.
  apply emits_bind; [by apply emits_write, Hmail|]. intros _. apply emits_silent; [apply emits_reply|]. intros [[code ?] ?].
  apply emits_silent; [apply emits_check|]. intros _.
  apply emits_bind; [by apply emits_rcpts|]. intros _.
  apply emits_bind; [by apply emits_write|]. intros _. apply emits_silent; [apply emits_reply|]. intros [[code' ?] ?].
  apply emits_silent; [destruct (code' =? 354); [apply emits_ret|apply emits_throw]|]. intros _.
  apply emits_bind; [by apply emits_write|]. intros _.
  apply (emits_bind _ _ [_] []); [by apply emits_write|]. intros _. apply emits_silent; [apply emits_reply|]. intros [[code'' ?] ?].
  apply emits_check.
Qed.

End Emits.

Lemma one_line_intro t : inline t → one_line (t ++ CRLF).
Proof. intros H. by exists t. Qed.

Lemma good_address a : bad_address a = false → inline a.
Proof. unfold bad_address. intros H. to_prop. split; by apply contains_false. Qed.

Definition sendable_piece (article b : bytes) : Prop := one_line b ∨ b = stuff article.

Lemma session_emits `{!Base64Inline b64} peer envelope article local_hostname :
  inline local_hostname →
  emits (sendable_piece article) (deliver_message peer envelope article local_hostname) (transcript peer envelope article local_hostname).
Proof.
  intros Hh. assert (Hl : ∀ s, bool_decide (inline s) = true → inline s) by (intros; by apply (bool_decide_eq_true_1 _)).
  apply emits_message.
  - intros user pass. left. unfold auth_cmd. rewrite app_assoc. apply one_line_intro, inline_app; [by apply Hl|apply base64_inline].
  - intros a Ha%good_address. left. unfold rcpt_cmd. rewrite (app_assoc a), app_assoc. apply one_line_intro.
    apply inline_app; [by apply Hl|]. apply inline_app; [done|by apply Hl].
  - intros Ha%good_address. left. unfold mail_cmd. rewrite (app_assoc (mail_from _)), app_assoc. apply one_line_intro.
    apply inline_app; [by apply Hl|]. apply inline_app; [done|]. destruct (require_tls envelope); by apply Hl.
  - left. unfold ehlo_cmd. rewrite app_assoc. apply one_line_intro, inline_app; [by apply Hl|].
    case_bool_decide; [by apply Hl|done].
  - left. by apply one_line_intro, Hl.
  - by right.
  - left. by apply one_line_intro, Hl.
Qed.

(** What a delivery may send. *)
Definition within (peer : SmtpRelayPeerConfig) (envelope : RelayEnvelope) (article local_hostname : bytes) (r : result Failure ()) (w : Wire) : Prop :=
  let script := transcript peer envelope article local_hostname in
  sent w `prefix_of` (script ++ [QUIT]) ∧ Forall (sendable_piece article) (sent w) ∧
  (require_tls envelope = true → tls peer = false → sent w = []) ∧ (r = Ok tt → script `prefix_of` sent w).

Lemma within_nothing peer envelope article local_hostname e w : sent w = [] → within peer envelope article local_hostname (Err e) w.
Proof. intros Hs. unfold within. rewrite Hs. split_and!; [apply prefix_nil|done..]. Qed.

Lemma within_session `{!Base64Inline b64} peer envelope article local_hostname w :
  inline local_hostname → sent w = [] → require_tls envelope && negb (tls peer) = false →
  within peer envelope article local_hostname (run_smtp_session peer envelope article local_hostname w).1
    (run_smtp_session peer envelope article local_hostname w).2.
Proof.
  intros Hh Hs Et. assert (Ht : require_tls envelope = true → tls peer = false → False) by (intros Hr Htl; by rewrite Hr, Htl in Et).
  pose proof (session_emits peer envelope article local_hostname Hh w) as He.
  unfold run_smtp_session, mbind, prog_bind. destruct (deliver_message _ _ _ _ w) as [[[]|e] w']; cbn.
  - destruct He as [He Hok]. rewrite Hs in He. cbn in He.
    assert (Hq : sent (write_all QUIT w').2 = sent w' ++ [QUIT] ∨ sent (write_all QUIT w').2 = sent w')
      by (unfold write_all; destruct (broken w') as [|[|] l]; auto).
    assert (Hquit : sendable_piece article QUIT) by (left; by apply one_line_intro, (bool_decide_eq_true_1 _)).
    unfold within. destruct Hq as [Hq|Hq]; rewrite Hq, He.
    + split_and!; [done|apply Forall_app; by split; [|apply Forall_singleton]|intros; exfalso; eauto|intros _; by apply prefix_app_r].
    + split_and!; [by apply prefix_app_r|done|intros; exfalso; eauto|done].
  - destruct He as (l & Hl & He & Hok). unfold within. rewrite He, Hs, app_nil_l.
    split_and!; [by apply prefix_app_r|done|intros; exfalso; eauto|done].
Qed.

(** C19. Whatever the addresses are and whatever the peer answers, what goes out is
    a beginning of the one conversation for the message: EHLO, AUTH over TLS
    only, MAIL, a RCPT for each recipient, DATA, the body, the dot, QUIT; each
    command is one line, so no address can smuggle in another.  A message that
    asks for TLS sends nothing to a peer without it.  A delivery that succeeds
    has sent it all. *)
Theorem relay_transcript `{!Base64Inline b64} (net : Net) (peer : SmtpRelayPeerConfig) (envelope : RelayEnvelope) (article local_hostname : bytes)
    (mta_sts : option MtaStsEnforcer) (o : Outside) :
  inline local_hostname → sent (stream o) = [] →
  let '(r, _, w) := deliver_via_relay net peer envelope article local_hostname mta_sts o in
  within peer envelope article local_hostname r w.
Proof.
  intros Hh Hs. unfold deliver_via_relay. case_bool_decide; [by apply within_nothing|].
  assert (Hdo : let '(r, _, w) := do_deliver net peer envelope article local_hostname mta_sts o in within peer envelope article local_hostname r w).
  { unfold do_deliver. destruct (require_tls envelope && negb (tls peer)) eqn:Et; [by apply within_nothing|].
    destruct (match mta_sts with None => _ | Some e => _ end) as [[|] sts]; cbn [negb]; [|by apply within_nothing].
    destruct (connects o); cbn [negb]; [|by apply within_nothing].
    destruct (tls peer && negb (handshakes o)); [by apply within_nothing|].
    pose proof (within_session peer envelope article local_hostname (stream o) Hh Hs Et) as Hrun.
    by destruct (run_smtp_session _ _ _ _ (stream o)) as [r w]. }
  destruct (do_deliver _ _ _ _ _ _ o) as [[r sts] w]. destruct (times_out o) as [n|]; [|done].
  destruct Hdo as (H1 & H2 & H3 & _). unfold within. cbn. split_and!; [|by apply Forall_take| |done].
  - etrans; [apply prefix_take|done].
  - intros. by rewrite H3, take_nil.
Qed.

(** C35. From client to server: the body of any lines, stuffed and ended by the
    relay client, is read by the server's DATA command exactly as it was when it
    fits the server's limit and refused when it does not; either way the
    connection is left at the first byte after the dot. *)
Theorem relayed_body_arrives (ls : list bytes) (max : Z) (rest : bytes) :
  2 <= max → Forall (λ l, LF ∉ l) ls →
  read_data_body (stuff (render ls) ++ (lit "." ++ CRLF) ++ rest) max =
    if max <? message_size ls then ([], true, rest) else (render ls, false, rest).
Proof.
  intros Hm Hls. unfold stuff. rewrite (nntp_dot_stuff_eq _ ((λ l, l ++ [CR]) <$> ls) []).
  2:{ rewrite <- (app_nil_r (render ls)). by rewrite split_render_lines. }
  cbn [default from_option id]. unfold stuffed. rewrite bool_decide_eq_true_2, app_nil_r by done.
  assert ((λ l, stuffed_line (strip_cr l)) <$> ((λ l, l ++ [CR]) <$> ls) = stuffed_line <$> ls) as ->.
  { rewrite <- list_fmap_compose. apply list_fmap_ext. intros _ l _. unfold compose. by rewrite strip_cr_app. }
  by apply data_read_back.
Qed.

(** A reply line with a character across its third byte makes the client panic:
    already a greeting does. *)
Theorem reply_panics (peer : SmtpRelayPeerConfig) (envelope : RelayEnvelope) (article local_hostname line : bytes) (l : list (option bytes)) (b : list bool) :
  is_utf8 line = true → (4 <= length line <= 512)%nat → is_char_boundary line 3 = false →
  run_smtp_session peer envelope article local_hostname (mkWire (Some line :: l) b []) = (Err Panics, mkWire l b []).
Proof.
  intros Hu Hlen Hb. unfold run_smtp_session, deliver_message, read_greeting, mbind, prog_bind. cbn [answers greeting_lines].
  assert (read_of (Some line) ≫= parse_smtp_line = Err Panics) as ->; [|done].
  assert (H1 : (MAX_SMTP_LINE <? length line)%nat = false) by (apply Nat.ltb_ge; unfold MAX_SMTP_LINE; lia).
  assert (H2 : (length line <? 4)%nat = false) by (apply Nat.ltb_ge; lia).
  assert (read_of (Some line) = Ok line) as ->.
  { unfold read_of. by rewrite Hu, H1, bool_decide_eq_false_2 by (intros ->; cbn in Hlen; lia). }
  cbn [mbind result_bind]. unfold parse_smtp_line, str_to. by rewrite H1, H2, Hb.
Qed.

End Client.
Module RelaySamples.

#[local] Instance hex_base64 : Base64Enc := { base64_encode x := flat_map (λ c, [97 + c / 16; 97 + c mod 16]) (List.filter (λ c, (0 <=? c) && (c <? 256)) x) }.

#[local] Instance hex_inline : Base64Inline hex_base64.
Proof.
  assert (H : ∀ d x, d = CR ∨ d = LF → d ∉ base64_encode x).
  { intros d x Hd Hin. unfold base64_encode, hex_base64 in Hin. apply list_elem_of_In, in_flat_map in Hin as (c & Hc & Hin).
    apply List.filter_In in Hc as [_ Hc]. to_prop.
    assert (0 <= c / 16) by (apply Z.div_pos; lia). pose proof (Z.mod_pos_bound c 16 ltac:(lia)).
    unfold CR, LF in Hd. cbn in Hin. lia. }
  intros x. split; apply H; auto.
Qed.

Definition net : Net := mkNet (λ _, NoRecordsFound) (λ _, None) 1000 0.
Definition peer : SmtpRelayPeerConfig := mkPeer (lit "mx.ex.org") true (Some (lit "u")) (Some (lit "p")).
Definition envelope : RelayEnvelope := mkEnvelope (lit "a@b") [lit "c@ex.org"; lit "d@ex.org"] true.

(** The peer refuses the second recipient. *)
Definition outside : Outside :=
  mkOutside true true None (mkWire (Some <$> [lit "220-hello" ++ CRLF; lit "220 ready" ++ CRLF; lit "250-mx" ++ CRLF; lit "250-AUTH PLAIN" ++ CRLF;
    lit "250 REQUIRETLS" ++ CRLF; lit "235 ok" ++ CRLF; lit "250 ok" ++ CRLF; lit "250 ok" ++ CRLF; lit "550 no" ++ CRLF]) [] []).

Lemma transcript_witness :
  let '(r, _, w) := deliver_via_relay net peer envelope (lit "hi" ++ CRLF) (lit "me") (Some (mkEnforcer ∅ ∅)) outside in
  within peer envelope (lit "hi" ++ CRLF) (lit "me") r w.
Proof.
  refine (relay_transcript net peer envelope (lit "hi" ++ CRLF) (lit "me") (Some (mkEnforcer ∅ ∅)) outside _ _); [|reflexivity].
  by apply (bool_decide_eq_true_1 _).
Defined.

Lemma arrives_witness :
  read_data_body (stuff (render [lit "a"; lit ".b"]) ++ (lit "." ++ CRLF) ++ lit "QUIT") 9 = (render [lit "a"; lit ".b"], false, lit "QUIT").
Proof.
  refine (relayed_body_arrives [lit "a"; lit ".b"] 9 (lit "QUIT") _ _); [lia|].
  repeat constructor; by apply (bool_decide_eq_true_1 _).
Defined.

End RelaySamples.

End RelayClient.
