(* ===== verification/RelayQueue.v ===== *)
(** The queue of mail for relay peers, [crates/smtp/src/relay_queue.rs], and the
    choice of a peer, [relay_health.rs].

    [relayed_mail_not_lost]: with enqueues, the drain task and the scans at
    start-up interleaved call by call, calls failing and the process stopping
    anywhere, a message whose [enqueue] returned is in the queue, was accepted by
    a peer, or is kept in the dead-letter directory.  [selection_is_fair]: a peer
    that stays eligible is chosen within as many selections as there are peers. *)

From S2P Require Import Prelude Bytes Utf8 Headers Util Lines Crypto Credentials NntpResponse Injection SmtpText MtaSts Spool RelayClient.

Module RelayQueue.
Import Spool MtaSts RelayClient.

(** ** Health of peers *)

Record PeerStatus := mkStatus {
  is_up : bool;
  last_success : option Z;
  last_failure : option Z;
  attempt_count : Z;
  success_count : Z;
  failure_count : Z
}.

Record PeerHealthState := mkHealth { peers : list (SmtpRelayPeerConfig * PeerStatus); rr_index : nat; down_backoff : Z }.

Definition health_new (ps : list SmtpRelayPeerConfig) (backoff : Z) : PeerHealthState :=
  mkHealth ((λ p, (p, mkStatus true None None 0 0 0)) <$> ps) 0 backoff.

Definition on_peer (idx : nat) (f : PeerStatus → PeerStatus) (h : PeerHealthState) : PeerHealthState :=
  mkHealth (alter (λ p : SmtpRelayPeerConfig * PeerStatus, (p.1, f p.2)) idx (peers h)) (rr_index h) (down_backoff h).

Definition mark_up (now : Z) (idx : nat) : PeerHealthState → PeerHealthState :=
  on_peer idx (λ s, mkStatus true (Some now) (last_failure s) (attempt_count s) (success_count s + 1) (failure_count s)).

Definition mark_down (now : Z) (idx : nat) : PeerHealthState → PeerHealthState :=
  on_peer idx (λ s, mkStatus false (last_success s) (Some now) (attempt_count s) (success_count s) (failure_count s + 1)).

Definition status_eligible (now backoff : Z) (s : PeerStatus) : bool :=
  is_up s || match last_failure s with None => true | Some t => backoff <=? now - t end.

Definition eligible (now : Z) (h : PeerHealthState) (i : nat) : bool :=
  match peers h !! i with Some (_, s) => status_eligible now (down_backoff h) s | None => false end.

Definition eligible_list (now : Z) (h : PeerHealthState) : list nat :=
  List.filter (eligible now h) (seq 0 (length (peers h))).

Definition select_peer (now : Z) (h : PeerHealthState) : option nat * PeerHealthState :=
  let n := length (peers h) in
  match eligible_list now h with
  | [] => (None, h)
  | first :: _ =>
      let start := (rr_index h mod n)%nat in
      let chosen := default first (List.find (λ i, (start <=? i)%nat) (eligible_list now h)) in
      let h := on_peer chosen (λ s, mkStatus (is_up s) (last_success s) (last_failure s) (attempt_count s + 1) (success_count s) (failure_count s)) h in
      (Some chosen, mkHealth (peers h) ((chosen + 1) mod n) (down_backoff h))
  end.

Definition has_healthy_peer (now : Z) (h : PeerHealthState) : bool :=
  existsb (λ p : SmtpRelayPeerConfig * PeerStatus, status_eligible now (down_backoff h) p.2) (peers h).

(** ** Fairness *)

(** How far the cursor is from a peer, going round. *)
Definition distance (n idx rr : nat) : nat := if (rr mod n <=? idx)%nat then (idx - rr mod n)%nat else (idx + n - rr mod n)%nat.

Lemma eligible_lt now h i : eligible now h i = true → (i < length (peers h))%nat.
Proof. unfold eligible. destruct (peers h !! i) eqn:E; [|done]. by apply lookup_lt_Some in E. Qed.

Lemma eligible_list_spec now h i : i ∈ eligible_list now h ↔ eligible now h i = true.
Proof.
  unfold eligible_list. rewrite list_elem_of_In, List.filter_In, in_seq. split; [by intros [_ ?]|].
  intros H. split; [|done]. apply eligible_lt in H. lia.
Qed.

(** The first of an increasing list that is not below [start]. *)
Lemma find_first (l : list nat) (start i : nat) :
  Sorted.StronglySorted lt l → i ∈ l → (start <= i)%nat →
  ∃ j, List.find (λ i, (start <=? i)%nat) l = Some j ∧ (start <= j <= i)%nat ∧ j ∈ l.
Proof.
  induction 1 as [|x l Hl IH Hx]; [by intros []%elem_of_nil|]. intros Hi Hs. cbn.
  destruct (Nat.leb_spec start x) as [Hle|Hlt].
  - exists x. split_and!; [done|done| |by left]. apply elem_of_cons in Hi as [->|Hi]; [done|].
    rewrite Forall_forall in Hx. apply Hx in Hi. lia.
  - apply elem_of_cons in Hi as [->|Hi]; [lia|]. destruct (IH Hi Hs) as (j & -> & Hj & Hin). exists j. split_and!; [done|lia..|by right].
Qed.

Lemma eligible_list_sorted now h : Sorted.StronglySorted lt (eligible_list now h).
Proof.
  unfold eligible_list. generalize 0%nat, (length (peers h)). intros a n. revert a. induction n as [|n IH]; intros a; [constructor|].
  cbn. destruct (eligible now h a); [|apply IH]. constructor; [apply IH|]. apply Forall_forall. intros x Hx.
  apply list_elem_of_In, List.filter_In in Hx as [Hx%in_seq _]. lia.
Qed.

(** A selection is of an eligible peer, and brings the cursor nearer to any other
    eligible one. *)
Lemma select_nearer now h idx :
  eligible now h idx = true →
  ∃ j h', select_peer now h = (Some j, h') ∧ eligible now h j = true ∧ rr_index h' = ((j + 1) mod length (peers h))%nat ∧
    length (peers h') = length (peers h) ∧
    (j = idx ∨ (distance (length (peers h)) idx (rr_index h') < distance (length (peers h)) idx (rr_index h))%nat).
Proof.
  intros Hidx. pose proof (eligible_lt _ _ _ Hidx) as Hn. set (n := length (peers h)) in *.
  assert (Hin : idx ∈ eligible_list now h) by (by apply eligible_list_spec).
  unfold select_peer. destruct (eligible_list now h) as [|first l] eqn:El; [by apply elem_of_nil in Hin|]. rewrite <- El in *.
  pose proof (eligible_list_sorted now h) as Hsort. set (start := (rr_index h mod length (peers h))%nat).
  assert (Hstart : (start < n)%nat) by (apply Nat.mod_upper_bound; lia).
  set (j := default first (List.find (λ i, (start <=? i)%nat) (eligible_list now h))).
  assert (Hj : j ∈ eligible_list now h ∧ ((start <= idx)%nat → (start <= j <= idx)%nat) ∧
    ((idx < start)%nat → (start <= j)%nat ∨ (j <= idx)%nat)).
  { destruct (decide (start <= idx)%nat) as [Hle|Hgt].
    - destruct (find_first _ start idx Hsort Hin Hle) as (x & Hx & Hb & Hinx). subst j. rewrite Hx. cbn. split_and!; [done|lia..].
    - subst j. destruct (List.find _ _) as [x|] eqn:Ef; cbn.
      + apply List.find_some in Ef as [Hx Hs]. apply Nat.leb_le in Hs. split_and!; [by apply list_elem_of_In|lia..].
      + split_and!; [rewrite El; by left|lia|]. intros _. right. rewrite El in Hsort, Hin. apply elem_of_cons in Hin as [->|Hin]; [done|].
        inversion Hsort as [|? ? ? Hall]; subst. rewrite Forall_forall in Hall. apply Hall in Hin. lia. }
  destruct Hj as (Hjin & Hj1 & Hj2). assert (Hjn : (j < n)%nat) by (apply (eligible_lt now), eligible_list_spec, Hjin).
  eexists j, _. split_and!; [reflexivity|by apply eligible_list_spec|reflexivity|cbn; by rewrite length_alter|].
  cbn [rr_index]. destruct (decide (j = idx)); [by left|]. right. unfold distance. fold n. change (rr_index h mod n)%nat with start.
  rewrite Nat.Div0.mod_mod. destruct (decide (j + 1 = n)%nat) as [He|He].
  - rewrite He, Nat.Div0.mod_same. cbn. destruct (Nat.leb_spec start idx); lia.
  - rewrite (Nat.mod_small (j + 1)) by lia. destruct (Nat.leb_spec start idx), (Nat.leb_spec (j + 1) idx); lia.
Qed.

Inductive HealthOp := Select (now : Z) | MarkUp (now : Z) (idx : nat) | MarkDown (now : Z) (idx : nat).

Definition run_health (o : HealthOp) (h : PeerHealthState) : option nat * PeerHealthState :=
  match o with
  | Select now => select_peer now h
  | MarkUp now i => (None, mark_up now i h)
  | MarkDown now i => (None, mark_down now i h)
  end.

(** The peers chosen, in order. *)
Fixpoint chosen (ops : list HealthOp) (h : PeerHealthState) : list nat :=
  match ops with
  | [] => []
  | o :: ops' => let '(r, h') := run_health o h in option_list r ++ chosen ops' h'
  end.

Definition is_select (o : HealthOp) : bool := match o with Select _ => true | _ => false end.
Definition selections (ops : list HealthOp) : nat := length (List.filter is_select ops).

(** A peer is eligible at each selection. *)
Fixpoint stays_eligible (idx : nat) (ops : list HealthOp) (h : PeerHealthState) : Prop :=
  match ops with
  | [] => True
  | o :: ops' =>
      match o with Select now => eligible now h idx = true | _ => True end ∧ stays_eligible idx ops' (run_health o h).2
  end.

Lemma distance_lt n idx rr : (idx < n)%nat → (distance n idx rr < n)%nat.
Proof.
  intros Hn. unfold distance. pose proof (Nat.mod_upper_bound rr n ltac:(lia)).
  destruct (Nat.leb_spec (rr mod n) idx); lia.
Qed.

(** Whatever is marked up or down meanwhile, a peer that is eligible at each
    selection is chosen at least once in any run of as many selections as there
    are peers: none starves. *)
Theorem selection_is_fair (idx : nat) (ops : list HealthOp) (h : PeerHealthState) :
  (idx < length (peers h))%nat → stays_eligible idx ops h → (length (peers h) <= selections ops)%nat → idx ∈ chosen ops h.
Proof.
  intros Hidx Hstay Hn.
  assert (Hd : (distance (length (peers h)) idx (rr_index h) < selections ops)%nat).
  { pose proof (distance_lt _ _ (rr_index h) Hidx). lia. }
  clear Hn Hidx. remember (length (peers h)) as n eqn:En. revert h En Hstay Hd.
  induction ops as [|o ops IH]; intros h En Hstay Hd; [unfold selections in Hd; cbn in Hd; lia|].
  destruct Hstay as [Ho Hstay]. cbn [chosen]. destruct o as [now|now i|now i]; cbn [run_health] in *.
  - destruct (select_nearer now h idx Ho) as (j & h' & Es & _ & Hrr & Hlen & Hj). rewrite Es in *. cbn in Hstay |- *.
    apply elem_of_cons. destruct Hj as [->|Hj]; [by left|]. right. apply IH; [congruence|done|].
    unfold selections in Hd. cbn in Hd. rewrite En in *. unfold selections. lia.
  - apply IH; [cbn; by rewrite length_alter|done|exact Hd].
  - apply IH; [cbn; by rewrite length_alter|done|exact Hd].
Qed.

(** ** The queue *)

(** [serde_json] for [EnvelopeFile]; [None] is a decoding error. *)
Class EnvelopeFileLib := {
  envelope_to_vec : RelayEnvelope → bytes;
  envelope_from_slice : bytes → option RelayEnvelope
}.

Class EnvelopeFileLaws (lib : EnvelopeFileLib) : Prop :=
  envelope_file_roundtrip e : envelope_from_slice (envelope_to_vec e) = Some e.

Section Queue.
Context {envs : EnvelopeFileLib} {b64 : Base64Enc}.
(** [signer.sign(article)] with [to_header], [None] when it fails; and the host name. *)
Context (dkim_signer : option (bytes → option bytes)) (local_hostname : bytes).

(** The queue directory and its subdirectory [dead]. *)
Record Disk := mkDisk { dir : gmap bytes bytes; dead : gmap bytes bytes }.

Definition with_dir (d : gmap bytes bytes) (k : Disk) : Disk := mkDisk d (dead k).

(** [rename] of a file into [dead]. *)
Definition bury (o : Io) (name : bytes) (k : Disk) : bool * Disk :=
  match o, dir k !! name with
  | IoOk, Some b => (true, mkDisk (delete name (dir k)) (<[ name := b ]> (dead k)))
  | _, _ => (false, k)
  end.

Inductive Stage := WriteMsg | RenameMsg | WriteEnv | RenameEnv | Notify | Queued | Refused.

(** A call of [enqueue], under the identifier it drew. *)
Record Enqueue := mkEnqueue { eq_article : bytes; eq_envelope : RelayEnvelope; eq_stage : Stage }.

Definition at_stage (g : Stage) (e : Enqueue) : Enqueue := mkEnqueue (eq_article e) (eq_envelope e) g.

(** The test at the head of [enqueue]: without peers or recipients nothing is written. *)
Definition must_queue (h : PeerHealthState) (envelope : RelayEnvelope) : bool :=
  negb (bool_decide (length (peers h) = 0%nat) || bool_decide (rcpt_to envelope = [])).

(** The next system call of [enqueue]; [Refused] is the return of an error. *)
Definition enqueue_step (o : Io) (st : bytes) (e : Enqueue) (k : Disk) : Enqueue * Disk :=
  let next (g : Stage) (r : bool * gmap bytes bytes) := (at_stage (if r.1 then g else Refused) e, with_dir r.2 k) in
  match eq_stage e with
  | WriteMsg => next RenameMsg (fs_write o (file MsgTmp st) (eq_article e) (dir k))
  | RenameMsg => next WriteEnv (fs_rename o (file MsgTmp st) (file Msg st) (dir k))
  | WriteEnv => next RenameEnv (fs_write o (file EnvTmp st) (envelope_to_vec (eq_envelope e)) (dir k))
  | RenameEnv => next Notify (fs_rename o (file EnvTmp st) (file Env st) (dir k))
  | Notify => (at_stage Queued e, k)
  | Queued | Refused => (e, k)
  end.

(** Where the drain task is: the two scans at start-up, and the loop.  The names
    are those of [.env] files, but for [Orphan]. *)
Inductive Drain :=
| CleanTmp
| CleanOrphans
| Orphan (name : bytes)
| Draining
| ReadMsg (name : bytes) (envelope : RelayEnvelope)
| Sending (name : bytes) (envelope : RelayEnvelope) (b : bytes)
| RemoveMsg (name : bytes)
| RemoveEnv (name : bytes)
| DropEnv (name : bytes)
| BuryMsg (name : bytes)
| BuryEnv (name : bytes)
| Gone.

Definition msg_of (name : bytes) : bytes := with_extension name (lit "msg").

(** The next step of the task outside [try_deliver_one].  [name] is the entry of
    the directory it comes to, in any order; [stop] says that a scan is at its end. *)
Definition drain_step (name : bytes) (stop : bool) (o : Io) (s : Drain) (k : Disk) : Drain * Disk :=
  match s with
  | CleanTmp =>
      if stop then (CleanOrphans, k)
      else (CleanTmp, if is_tmp name then with_dir (fs_remove o name (dir k)).2 k else k)
  | CleanOrphans =>
      if stop then (Draining, k)
      else if bool_decide (extension name = Some (lit "msg")) && io_ok o && bool_decide (dir k !! with_extension name (lit "env") = None)
      then (Orphan name, k) else (CleanOrphans, k)
  | Orphan n => (CleanOrphans, (bury o n k).2)
  | Draining =>
      if bool_decide (extension name = Some (lit "env")) then
        match fs_read o name (dir k) ≫= envelope_from_slice with
        | Some envelope => (ReadMsg name envelope, k)
        | None => (Draining, k)
        end
      else (Draining, k)
  | ReadMsg n envelope =>
      match o, dir k !! msg_of n with
      | IoOk, Some b => (Sending n envelope b, k)
      | IoOk, None => (DropEnv n, k)
      | IoFail _, _ => (Draining, k)
      end
  | RemoveMsg n => (RemoveEnv n, with_dir (fs_remove o (msg_of n) (dir k)).2 k)
  | RemoveEnv n | DropEnv n => (Draining, with_dir (fs_remove o n (dir k)).2 k)
  | BuryMsg n => let '(ok, k) := bury o (msg_of n) k in (if ok then BuryEnv n else Draining, k)
  | BuryEnv n => (Draining, (bury o n k).2)
  | Sending _ _ _ | Gone => (s, k)
  end.

(** What the signer makes of an article. *)
Definition signed (b : bytes) : option bytes :=
  match dkim_signer with
  | Some sign => (λ h, h ++ b) <$> sign b
  | None => Some b
  end.

(** A message a peer accepted, with the bytes sent. *)
Record Delivery := mkDelivery { de_name : bytes; de_envelope : RelayEnvelope; de_bytes : bytes }.

(** The peers and the policies, as the task sees them. *)
Record Relay := mkRelay { r_health : PeerHealthState; r_enforcer : option MtaStsEnforcer }.

(** [try_deliver_one], up to the removal or the move of the files; a peer is
    selected at [now] and marked at [later]. *)
Definition try_deliver_one (now later : Z) (net : Net) (out : Outside) (n : bytes) (envelope : RelayEnvelope) (b : bytes) (r : Relay) :
    Drain * Relay * option Delivery :=
  let '(idx, h) := select_peer now (r_health r) in
  match idx ≫= λ i, (λ p : SmtpRelayPeerConfig * PeerStatus, (i, p.1)) <$> peers h !! i with
  | None => (Draining, mkRelay h (r_enforcer r), None)
  | Some (i, peer) =>
      match signed b with
      | None => (BuryMsg n, mkRelay h (r_enforcer r), None)
      | Some bs =>
          let '(res, enforcer, _) := deliver_via_relay net peer envelope bs local_hostname (r_enforcer r) out in
          match res with
          | Ok _ => (RemoveMsg n, mkRelay (mark_up later i h) enforcer, Some (mkDelivery n envelope bs))
          | Err (Fails e) =>
              if is_transient e then (Draining, mkRelay (mark_down later i h) enforcer, None)
              else (BuryMsg n, mkRelay (if marks_peer_down e then mark_down later i h else h) enforcer, None)
          | Err Panics => (Gone, mkRelay h enforcer, None)
          end
      end
  end.

Record Queue := mkQueue {
  q_disk : Disk;
  q_relay : Relay;
  q_drain : Drain;
  (** The calls of [enqueue], by identifier, and the deliveries: never read by the code. *)
  q_calls : gmap bytes Enqueue;
  q_delivered : list Delivery
}.

Definition queue_new (r : Relay) : Queue := mkQueue (mkDisk ∅ ∅) r CleanTmp ∅ [].

(** A call that has not returned when the process stops never does. *)
Definition cut_short (e : Enqueue) : Enqueue := match eq_stage e with Queued => e | _ => at_stage Refused e end.

Inductive queue_step : Queue → Queue → Prop :=
| step_call q st article envelope :
    stem_ok st → q_calls q !! st = None → must_queue (r_health (q_relay q)) envelope = true →
    queue_step q (mkQueue (q_disk q) (q_relay q) (q_drain q) (<[ st := mkEnqueue article envelope WriteMsg ]> (q_calls q)) (q_delivered q))
| step_enqueue q st e o :
    q_calls q !! st = Some e →
    queue_step q (let '(e', k') := enqueue_step o st e (q_disk q) in
      mkQueue k' (q_relay q) (q_drain q) (<[ st := e' ]> (q_calls q)) (q_delivered q))
| step_drain q name stop o :
    queue_step q (let '(s', k') := drain_step name stop o (q_drain q) (q_disk q) in
      mkQueue k' (q_relay q) s' (q_calls q) (q_delivered q))
| step_send q now later net out n envelope b :
    q_drain q = Sending n envelope b →
    queue_step q (let '(s', r', d) := try_deliver_one now later net out n envelope b (q_relay q) in
      mkQueue (q_disk q) r' s' (q_calls q) (option_list d ++ q_delivered q))
| step_crash q r :
    queue_step q (mkQueue (q_disk q) r CleanTmp (cut_short <$> q_calls q) (q_delivered q)).

(** The queues that can come about, started with [r]. *)
Definition queue_reached (r : Relay) (q : Queue) : Prop := rtc queue_step (queue_new r) q.

(** ** Nothing acknowledged is lost *)

Context {laws : EnvelopeFileLaws envs}.

Definition was_delivered (ps : list Delivery) (st : bytes) (e : Enqueue) : Prop :=
  ∃ bs, signed (eq_article e) = Some bs ∧ mkDelivery (file Env st) (eq_envelope e) bs ∈ ps.

Definition in_queue (k : Disk) (st : bytes) (e : Enqueue) : Prop :=
  dir k !! file Msg st = Some (eq_article e) ∧ dir k !! file Env st = Some (envelope_to_vec (eq_envelope e)).

Definition in_dead (k : Disk) (st : bytes) (e : Enqueue) : Prop := dead k !! file Msg st = Some (eq_article e).

Definition settled (k : Disk) (ps : list Delivery) (st : bytes) (e : Enqueue) : Prop := was_delivered ps st e ∨ in_dead k st e.

Definition holds (d : gmap bytes bytes) (n x : bytes) : Prop := ∀ b, d !! n = Some b → b = x.

(** The files of an entry by the stage of its [enqueue]. *)
Definition entry_ok (k : Disk) (ps : list Delivery) (st : bytes) (e : Enqueue) : Prop :=
  let env := envelope_to_vec (eq_envelope e) in
  eq_stage e ≠ Refused →
  holds (dir k) (file Msg st) (eq_article e) ∧ holds (dir k) (file Env st) env ∧ holds (dead k) (file Msg st) (eq_article e) ∧
  match eq_stage e with
  | WriteMsg => dir k !! file Msg st = None ∧ dir k !! file Env st = None
  | RenameMsg => dir k !! file Msg st = None ∧ dir k !! file Env st = None ∧ holds (dir k) (file MsgTmp st) (eq_article e)
  | WriteEnv => dir k !! file Env st = None ∧ (dir k !! file Msg st = Some (eq_article e) ∨ settled k ps st e)
  | RenameEnv => dir k !! file Env st = None ∧ (dir k !! file Msg st = Some (eq_article e) ∨ settled k ps st e) ∧ holds (dir k) (file EnvTmp st) env
  | Notify | Queued => in_queue k st e ∨ settled k ps st e
  | Refused => True
  end.

(** What the task knows of an entry. *)
Definition drain_ok (s : Drain) (k : Disk) (ps : list Delivery) (st : bytes) (e : Enqueue) : Prop :=
  eq_stage e ≠ Refused →
  match s with
  | ReadMsg n envelope => n = file Env st → envelope = eq_envelope e ∧ (eq_stage e = Notify ∨ eq_stage e = Queued)
  | Sending n envelope b => n = file Env st → envelope = eq_envelope e ∧ b = eq_article e
  | RemoveMsg n | RemoveEnv n | DropEnv n | BuryEnv n => n = file Env st → settled k ps st e
  | _ => True
  end.

Definition known (calls : gmap bytes Enqueue) (n : bytes) : Prop := ∃ kd st, n = file kd st ∧ stem_ok st ∧ is_Some (calls !! st).

(** The name the task works on. *)
Definition drain_name_ok (s : Drain) (calls : gmap bytes Enqueue) : Prop :=
  match s with
  | Orphan n => extension n = Some (lit "msg")
  | ReadMsg n _ | Sending n _ _ | RemoveMsg n | RemoveEnv n | DropEnv n | BuryMsg n | BuryEnv n =>
      extension n = Some (lit "env") ∧ known calls n
  | _ => True
  end.

Record queue_inv (q : Queue) : Prop := {
  inv_names n : is_Some (dir (q_disk q) !! n) ∨ is_Some (dead (q_disk q) !! n) → known (q_calls q) n;
  inv_stems st e : q_calls q !! st = Some e → stem_ok st;
  inv_entries st e : q_calls q !! st = Some e → entry_ok (q_disk q) (q_delivered q) st e;
  inv_drain st e : q_calls q !! st = Some e → drain_ok (q_drain q) (q_disk q) (q_delivered q) st e;
  inv_name : drain_name_ok (q_drain q) (q_calls q)
}.

Lemma msg_of_env st : stem_ok st → msg_of (file Env st) = file Msg st.
Proof.
  intros [Hne _]. unfold msg_of, with_extension, file. rewrite rsplit_dot_app by (by apply (bool_decide_eq_true_1 _)).
  by rewrite bool_decide_eq_false_2.
Qed.

Lemma known_more (calls calls' : gmap bytes Enqueue) (n : bytes) :
  (∀ st, is_Some (calls !! st) → is_Some (calls' !! st)) → known calls n → known calls' n.
Proof. intros H (kd & st & -> & Hst & Hk). exists kd, st. auto. Qed.

Lemma drain_name_more (s : Drain) (calls calls' : gmap bytes Enqueue) :
  (∀ st, is_Some (calls !! st) → is_Some (calls' !! st)) → drain_name_ok s calls → drain_name_ok s calls'.
Proof. intros H. destruct s; cbn; try done; intros [? ?]; eauto using known_more. Qed.

Lemma known_file (calls : gmap bytes Enqueue) (kd : Kind) (st : bytes) : DOT ∉ st → known calls (file kd st) → is_Some (calls !! st).
Proof. intros Hd (kd' & st' & E & [_ Hst] & Hk). by apply file_inj in E as [_ ->]. Qed.

Lemma insert_known (calls : gmap bytes Enqueue) (st : bytes) (e : Enqueue) (st' : bytes) : is_Some (calls !! st') → is_Some (<[ st := e ]> calls !! st').
Proof. intros H. destruct (decide (st = st')) as [->|]; [rewrite lookup_insert_eq|rewrite lookup_insert_ne by done]; eauto. Qed.

Lemma inv_relay_call (q : Queue) (st article : bytes) (envelope : RelayEnvelope) :
  queue_inv q → stem_ok st → q_calls q !! st = None →
  queue_inv (mkQueue (q_disk q) (q_relay q) (q_drain q) (<[ st := mkEnqueue article envelope WriteMsg ]> (q_calls q)) (q_delivered q)).
Proof.
  intros [I1 I2 I3 I4 I5] Hok Hnew. pose proof Hok as [_ Hdot].
  assert (Hfree : ∀ kd, ¬ known (q_calls q) (file kd st)).
  { intros kd [e He]%known_file; [|done]. congruence. }
  assert (Hno : ∀ kd, dir (q_disk q) !! file kd st = None ∧ dead (q_disk q) !! file kd st = None).
  { intros kd. split; apply eq_None_not_Some; intros H; apply (Hfree kd), I1; auto. }
  split; cbn.
  - intros n Hn. eapply known_more; [|by apply I1]. intros st'. apply insert_known.
  - intros st' e [[<- _]|[_ ?]]%lookup_insert_Some; eauto.
  - intros st' e [[<- <-]|[_ ?]]%lookup_insert_Some; [|by eapply I3].
    intros _. cbn. destruct (Hno Msg) as [H1 H2], (Hno Env) as [H3 _]. unfold holds. rewrite H1, H2, H3. by split_and!.
  - intros st' e [[<- <-]|[_ ?]]%lookup_insert_Some; [|by eapply I4].
    intros _. unfold drain_ok, drain_name_ok in *. destruct (q_drain q); try done; intros ->; by destruct (Hfree Env (proj2 I5)).
  - eapply drain_name_more; [|exact I5]. intros st'. apply insert_known.
Qed.

Lemma inv_relay_crash (q : Queue) (r : Relay) : queue_inv q → queue_inv (mkQueue (q_disk q) r CleanTmp (cut_short <$> q_calls q) (q_delivered q)).
Proof.
  intros [I1 I2 I3 I4 I5]. split; cbn.
  - intros n Hn. apply (known_more (q_calls q)); [|by apply I1]. intros st [e He]. rewrite lookup_fmap, He. eauto.
  - intros st e. rewrite lookup_fmap. intros (e' & ? & ->)%fmap_Some. eauto.
  - intros st e. rewrite lookup_fmap. intros (e' & He & ->)%fmap_Some. unfold cut_short.
    destruct (eq_stage e') eqn:Eg; try (by intros []). exact (I3 st e' He).
  - done.
  - done.
Qed.

Lemma enqueue_own (o : Io) (st : bytes) (e e' : Enqueue) (k k' : Disk) (ps : list Delivery) :
  DOT ∉ st → entry_ok k ps st e → enqueue_step o st e k = (e', k') → entry_ok k' ps st e'.
Proof.
  intros Hst H. unfold entry_ok, enqueue_step, fs_write, fs_rename in *. cbv zeta in *. intros E.
  destruct (eq_stage e) eqn:Eg; [..|by injection E as <- <-; rewrite Eg|by injection E as <- <-; rewrite Eg].
  all: destruct (H ltac:(done)) as (HM & HE & HD & HS); clear H; unfold holds, in_queue in *.
  - destruct o as [|[part|]]; injection E as <- <-; cbn; [|done|done]. intros _. files. naive_solver.
  - destruct HS as (H1 & H2 & HT). destruct o as [|?], (dir k !! file MsgTmp st) as [x|] eqn:Ex; injection E as <- <-; cbn; try done.
    intros _. files. rewrite (HT x eq_refl). naive_solver.
  - destruct HS as (H1 & HS). destruct o as [|[part|]]; injection E as <- <-; cbn; [|done|done]. intros _. files. naive_solver.
  - destruct HS as (H1 & HS & HT). destruct o as [|?], (dir k !! file EnvTmp st) as [x|] eqn:Ex; injection E as <- <-; cbn; try done.
    intros _. files. rewrite (HT x eq_refl). split_and!; try naive_solver.
  - injection E as <- <-. intros _. by split_and!.
Qed.

Lemma enqueue_same (o : Io) (st : bytes) (e e' : Enqueue) (k k' : Disk) :
  enqueue_step o st e k = (e', k') →
  eq_article e' = eq_article e ∧ eq_envelope e' = eq_envelope e ∧ dead k' = dead k ∧
  (eq_stage e = Refused → eq_stage e' = Refused) ∧ (eq_stage e = Notify ∨ eq_stage e = Queued → eq_stage e' = Notify ∨ eq_stage e' = Queued).
Proof. unfold enqueue_step. destruct (eq_stage e) eqn:Eg; intros [= <- <-]; cbn; rewrite ?Eg; naive_solver. Qed.

Lemma enqueue_others (o : Io) (st : bytes) (e e' : Enqueue) (k k' : Disk) (n : bytes) :
  enqueue_step o st e k = (e', k') → (∀ kd, n ≠ file kd st) → dir k' !! n = dir k !! n.
Proof.
  unfold enqueue_step, fs_write, fs_rename. intros E Hn.
  destruct (eq_stage e); try (by injection E as <- <-).
  1, 3: destruct o as [|[part|]]; injection E as <- <-; cbn; by rewrite ?lookup_insert_ne by (by intros <-; eapply Hn).
  all: match type of E with context [?m !! ?x] => destruct (m !! x) end; destruct o; injection E as <- <-; cbn; try done.
  all: by rewrite lookup_insert_ne, lookup_delete_ne by (intros <-; by eapply Hn).
Qed.

Lemma relay_entry_frame (k k' : Disk) (ps : list Delivery) (st : bytes) (e : Enqueue) :
  (∀ kd, dir k' !! file kd st = dir k !! file kd st) → dead k' = dead k → entry_ok k ps st e → entry_ok k' ps st e.
Proof. intros Hd He. unfold entry_ok, in_queue, settled, in_dead, holds. cbv zeta. by rewrite He, !Hd. Qed.

Lemma drain_ok_frame (s : Drain) (k k' : Disk) (ps : list Delivery) (st : bytes) (e e' : Enqueue) :
  eq_article e' = eq_article e → eq_envelope e' = eq_envelope e → dead k' = dead k → (eq_stage e = Refused → eq_stage e' = Refused) →
  (eq_stage e = Notify ∨ eq_stage e = Queued → eq_stage e' = Notify ∨ eq_stage e' = Queued) → drain_ok s k ps st e → drain_ok s k' ps st e'.
Proof.
  intros Ha He Hd H1 H2 H Hl. unfold drain_ok, settled, was_delivered, in_dead in *. rewrite Ha, He, Hd.
  specialize (H ltac:(auto)). destruct s; try done. intros ->. destruct (H eq_refl) as [? Hc]. auto.
Qed.

Lemma inv_relay_enqueue (q : Queue) (st : bytes) (e e' : Enqueue) (o : Io) (k' : Disk) :
  queue_inv q → q_calls q !! st = Some e → enqueue_step o st e (q_disk q) = (e', k') →
  queue_inv (mkQueue k' (q_relay q) (q_drain q) (<[ st := e' ]> (q_calls q)) (q_delivered q)).
Proof.
  intros [I1 I2 I3 I4 I5] He E. pose proof (I2 st e He) as [Hne Hdot].
  destruct (enqueue_same _ _ _ _ _ _ E) as (Ha & Hen & Hd & Hr & Hc).
  split; cbn.
  - intros n Hn. destruct (file_of_stem n st) as [[kd ->]|Hf].
    { exists kd, st. split_and!; [done|done|]. rewrite lookup_insert_eq. eauto. }
    rewrite (enqueue_others _ _ _ _ _ _ n E Hf), Hd in Hn.
    eapply known_more; [|by apply I1]. intros st'. apply insert_known.
  - intros st' x [[<- <-]|[_ ?]]%lookup_insert_Some; eauto.
  - intros st' x [[<- <-]|[Hst Hx]]%lookup_insert_Some; [eapply enqueue_own; eauto|].
    eapply relay_entry_frame; [|done|by apply I3]. intros kd. apply (enqueue_others _ _ _ _ _ _ _ E). intros kd'.
    apply file_ne; [apply (I2 st' x Hx)|done|auto].
  - intros st' x [[<- <-]|[Hst Hx]]%lookup_insert_Some; [by eapply drain_ok_frame; eauto|].
    eapply (drain_ok_frame _ (q_disk q) k' _ st' x x); auto.
  - eapply drain_name_more; [|exact I5]. intros st'. apply insert_known.
Qed.

(** A file was taken from the directory, and is in [dead] or of no use. *)
Record taken (k k' : Disk) (ps : list Delivery) (st : bytes) (e : Enqueue) : Prop := {
  taken_dir kd : dir k' !! file kd st = dir k !! file kd st ∨ dir k' !! file kd st = None;
  taken_dead : holds (dead k) (file Msg st) (eq_article e) → holds (dead k') (file Msg st) (eq_article e);
  taken_kept : settled k ps st e → settled k' ps st e;
  taken_lost : settled k' ps st e ∨
    dir k' !! file Msg st = dir k !! file Msg st ∧ dir k' !! file Env st = dir k !! file Env st
}.

Lemma entry_ok_taken (k k' : Disk) (ps : list Delivery) (st : bytes) (e : Enqueue) :
  taken k k' ps st e → entry_ok k ps st e → entry_ok k' ps st e.
Proof.
  intros [Hdir Hdead Hset Hlost] H Hl. destruct (H Hl) as (HM & HE & HD & HS).
  assert (Hh : ∀ kd x, holds (dir k) (file kd st) x → holds (dir k') (file kd st) x).
  { intros kd x Hx b Hb. destruct (Hdir kd) as [E|E]; rewrite E in Hb; [by apply Hx|done]. }
  assert (Hn : ∀ kd, dir k !! file kd st = None → dir k' !! file kd st = None).
  { intros kd Hx. destruct (Hdir kd) as [->|?]; done. }
  split_and!; [by apply Hh|by apply Hh|by apply Hdead|].
  assert (HQ : ∀ P Q : Prop, (dir k' !! file Msg st = dir k !! file Msg st → dir k' !! file Env st = dir k !! file Env st → P → Q) →
    P ∨ settled k ps st e → Q ∨ settled k' ps st e).
  { intros P Q HPQ [HP|HP]; [|by right; apply Hset]. destruct Hlost as [?|[H1 H2]]; [by right|left; by apply HPQ]. }
  unfold in_queue in *. destruct (eq_stage e); try done.
  - destruct HS. auto.
  - destruct HS as (? & ? & ?). auto.
  - destruct HS as [? HS]. split; [auto|]. revert HS. apply HQ. by intros -> _.
  - destruct HS as (? & HS & ?). split_and!; [auto| |auto]. revert HS. apply HQ. by intros -> _.
  - revert HS. apply HQ. by intros -> ->.
  - revert HS. apply HQ. by intros -> ->.
Qed.

Lemma taken_same (k : Disk) (ps : list Delivery) (st : bytes) (e : Enqueue) : taken k k ps st e.
Proof. split; auto. Qed.

Lemma taken_remove (o : Io) (m : bytes) (k : Disk) (ps : list Delivery) (st : bytes) (e : Enqueue) :
  (m = file Msg st ∨ m = file Env st → settled k ps st e) → taken k (with_dir (fs_remove o m (dir k)).2 k) ps st e.
Proof.
  intros Hm. split; [intros kd; cbn|done|done|].
  - unfold fs_remove. destruct o, (dir k !! m); cbn; auto. rewrite lookup_delete. case_decide; auto.
  - destruct (decide (m = file Msg st)) as [->|H1]; [left; apply Hm; auto|].
    destruct (decide (m = file Env st)) as [->|H2]; [left; apply Hm; auto|].
    right. cbn. by rewrite !remove_other by done.
Qed.

Lemma taken_bury (o : Io) (m : bytes) (k : Disk) (ps : list Delivery) (st : bytes) (e : Enqueue) :
  holds (dir k) (file Msg st) (eq_article e) → (m = file Env st → settled k ps st e) → taken k (bury o m k).2 ps st e.
Proof.
  intros Hh Hm. unfold bury. destruct o as [|?]; [|apply taken_same]. destruct (dir k !! m) as [b|] eqn:E; [|apply taken_same].
  destruct (decide (m = file Msg st)) as [->|H1].
  - assert (Hin : in_dead (mkDisk (delete (file Msg st) (dir k)) (<[ file Msg st := b ]> (dead k))) st e).
    { unfold in_dead. cbn. rewrite lookup_insert_eq. by rewrite (Hh b E). }
    split; cbn; [|unfold holds; rewrite lookup_insert_eq, (Hh b E); naive_solver|by right|by left; right].
    intros kd. rewrite lookup_delete. case_decide; auto.
  - assert (Hs : settled k ps st e → settled (mkDisk (delete m (dir k)) (<[ m := b ]> (dead k))) ps st e).
    { intros [?|H]; [by left|right]. unfold in_dead in *. cbn. by rewrite lookup_insert_ne. }
    split; cbn; [|unfold holds; by rewrite lookup_insert_ne|done|].
    + intros kd. rewrite lookup_delete. case_decide; auto.
    + destruct (decide (m = file Env st)) as [->|H2]; [left; auto|]. right. by rewrite !lookup_delete_ne.
Qed.

Lemma env_name (calls : gmap bytes Enqueue) (n : bytes) :
  extension n = Some (lit "env") → known calls n → ∃ st, n = file Env st ∧ stem_ok st ∧ is_Some (calls !! st).
Proof.
  intros He (kd & st & -> & Hst & Hk). exists st. split; [|done]. rewrite extension_file in He by done. by destruct kd.
Qed.

(** No file comes about. *)
Definition fewer (k k' : Disk) : Prop :=
  ∀ n, is_Some (dir k' !! n) ∨ is_Some (dead k' !! n) → is_Some (dir k !! n) ∨ is_Some (dead k !! n).

Lemma fewer_remove (o : Io) (m : bytes) (k : Disk) : fewer k (with_dir (fs_remove o m (dir k)).2 k).
Proof. intros n [[b Hb]|H]; [|by right]. left. exists b. exact (fs_remove_sub o m _ n b Hb). Qed.

Lemma fewer_bury (o : Io) (m : bytes) (k : Disk) : fewer k (bury o m k).2.
Proof.
  intros n. unfold bury. destruct o as [|?]; [|done]. destruct (dir k !! m) as [b|] eqn:E; [|done]. cbn.
  intros [[x [_ Hx]%lookup_delete_Some]|[x [[<- _]|[_ Hx]]%lookup_insert_Some]]; eauto.
Qed.

Lemma inv_task (q : Queue) (s' : Drain) (k' : Disk) :
  queue_inv q → fewer (q_disk q) k' → drain_name_ok s' (q_calls q) →
  (∀ st e, q_calls q !! st = Some e → eq_stage e ≠ Refused →
    taken (q_disk q) k' (q_delivered q) st e ∧ drain_ok s' k' (q_delivered q) st e) →
  queue_inv (mkQueue k' (q_relay q) s' (q_calls q) (q_delivered q)).
Proof.
  intros [I1 I2 I3 I4 I5] Hf Hn H. split; cbn; [|exact I2| | |exact Hn].
  - intros n Hx. by apply I1, Hf.
  - intros st e He Hl. refine (entry_ok_taken (q_disk q) _ _ _ _ _ _ Hl); [by apply H|by apply I3].
  - intros st e He Hl. by apply H.
Qed.

(** The steps that only read. *)
Lemma inv_look (q : Queue) (s' : Drain) :
  queue_inv q → drain_name_ok s' (q_calls q) →
  (∀ st e, q_calls q !! st = Some e → drain_ok s' (q_disk q) (q_delivered q) st e) →
  queue_inv (mkQueue (q_disk q) (q_relay q) s' (q_calls q) (q_delivered q)).
Proof. intros I Hn H. apply inv_task; [done|by intros n|done|]. intros st e He _. auto using taken_same. Qed.

Lemma inv_read_env (q : Queue) (name : bytes) (o : Io) (envelope : RelayEnvelope) :
  queue_inv q → extension name = Some (lit "env") → fs_read o name (dir (q_disk q)) ≫= envelope_from_slice = Some envelope →
  queue_inv (mkQueue (q_disk q) (q_relay q) (ReadMsg name envelope) (q_calls q) (q_delivered q)).
Proof.
  intros I He E. apply bind_Some in E as (b & Hb & E). destruct o as [|?]; [cbn in Hb|done].
  apply inv_look; [done|split; [done|apply (inv_names q I); eauto]|].
  intros st e Hst Hl ->. destruct (inv_entries q I st e Hst Hl) as (_ & HE & _ & HS).
  rewrite (HE b Hb), envelope_file_roundtrip in E. split; [congruence|].
  destruct (eq_stage e); auto; try done; destruct HS as (? & HS); [congruence|destruct HS; congruence|congruence|congruence].
Qed.

Lemma inv_read_msg (q : Queue) (n : bytes) (envelope : RelayEnvelope) :
  queue_inv q → q_drain q = ReadMsg n envelope →
  queue_inv (mkQueue (q_disk q) (q_relay q)
    (match dir (q_disk q) !! msg_of n with Some b => Sending n envelope b | None => DropEnv n end) (q_calls q) (q_delivered q)).
Proof.
  intros I Es. pose proof (inv_name q I) as Hn. pose proof (inv_drain q I) as Hd. rewrite Es in Hn, Hd. destruct Hn as [He Hk].
  destruct (env_name _ _ He Hk) as (st0 & -> & Hst0 & _). rewrite msg_of_env by done.
  destruct (dir (q_disk q) !! file Msg st0) as [b|] eqn:Eb; (apply inv_look; [done|done|]); intros st e Hc Hl Hf.
  all: destruct (Hd st e Hc Hl Hf) as [-> Hcom]; destruct (inv_entries q I st e Hc Hl) as (HM & _ & _ & HS).
  all: apply file_inj in Hf as [_ ->]; [|apply Hst0|apply (inv_stems q I st e Hc)].
  - split; [done|by apply HM].
  - assert (in_queue (q_disk q) st e ∨ settled (q_disk q) (q_delivered q) st e) as [[? _]|?] by (by destruct Hcom as [Hg|Hg]; rewrite Hg in HS);
      [congruence|done].
Qed.

(** The steps that take a file away. *)
Lemma inv_remove (q : Queue) (o : Io) (m : bytes) (s' : Drain) :
  queue_inv q → drain_name_ok s' (q_calls q) →
  (∀ st e, q_calls q !! st = Some e → eq_stage e ≠ Refused →
    (m = file Msg st ∨ m = file Env st → settled (q_disk q) (q_delivered q) st e) ∧ drain_ok s' (q_disk q) (q_delivered q) st e) →
  queue_inv (mkQueue (with_dir (fs_remove o m (dir (q_disk q))).2 (q_disk q)) (q_relay q) s' (q_calls q) (q_delivered q)).
Proof.
  intros I Hn H. apply inv_task; [done|apply fewer_remove|done|]. intros st e He Hl. destruct (H st e He Hl) as [H1 H2].
  split; [by apply taken_remove|exact H2].
Qed.

Lemma inv_bury (q : Queue) (o : Io) (m : bytes) (s' : Drain) :
  queue_inv q → drain_name_ok s' (q_calls q) →
  (∀ st e, q_calls q !! st = Some e → eq_stage e ≠ Refused →
    (m = file Env st → settled (q_disk q) (q_delivered q) st e) ∧ drain_ok s' (bury o m (q_disk q)).2 (q_delivered q) st e) →
  queue_inv (mkQueue (bury o m (q_disk q)).2 (q_relay q) s' (q_calls q) (q_delivered q)).
Proof.
  intros I Hn H. apply inv_task; [done|apply fewer_bury|done|]. intros st e He Hl. destruct (H st e He Hl) as [H1 H2].
  split; [|exact H2]. apply taken_bury; [|done]. apply (inv_entries q I st e He Hl).
Qed.

Lemma inv_bury_msg (q : Queue) (o : Io) (n : bytes) :
  queue_inv q → q_drain q = BuryMsg n →
  queue_inv (let '(ok, k') := bury o (msg_of n) (q_disk q) in
    mkQueue k' (q_relay q) (if ok then BuryEnv n else Draining) (q_calls q) (q_delivered q)).
Proof.
  intros I Es. pose proof (inv_name q I) as Hn. rewrite Es in Hn. pose proof Hn as [He Hk].
  destruct (env_name _ _ He Hk) as (st0 & -> & Hst0 & _). rewrite msg_of_env by done.
  assert (Hne : ∀ st e, q_calls q !! st = Some e → file Msg st0 ≠ file Env st).
  { intros st e Hc. apply file_ne; [apply Hst0|apply (inv_stems q I st e Hc)|by left]. }
  pose proof (λ s H, inv_bury q o (file Msg st0) s I H) as Hb.
  destruct (bury o (file Msg st0) (q_disk q)) as [ok k'] eqn:E. cbn in Hb.
  apply Hb; [by destruct ok|]. intros st e Hc Hl. split; [intros Hf; by destruct (Hne st e Hc)|].
  destruct ok; [|done]. intros _ Hf. right.
  apply file_inj in Hf as [_ ->]; [|apply Hst0|apply (inv_stems q I st e Hc)].
  unfold bury in E. destruct o as [|?]; [|done]. destruct (dir (q_disk q) !! file Msg st) as [b|] eqn:Eb; [|done].
  injection E as <-. unfold in_dead. cbn. rewrite lookup_insert_eq.
  by rewrite (proj1 (inv_entries q I st e Hc Hl) b Eb).
Qed.

Lemma inv_relay_drain (q : Queue) (name : bytes) (stop : bool) (o : Io) :
  queue_inv q →
  queue_inv (let '(s', k') := drain_step name stop o (q_drain q) (q_disk q) in mkQueue k' (q_relay q) s' (q_calls q) (q_delivered q)).
Proof.
  intros I. pose proof (inv_name q I) as Hn. pose proof (inv_drain q I) as Hd.
  assert (Hidle : ∀ s, s = CleanTmp ∨ s = CleanOrphans ∨ s = Draining →
    queue_inv (mkQueue (q_disk q) (q_relay q) s (q_calls q) (q_delivered q))).
  { intros s Hs. apply inv_look; [done|by destruct Hs as [->|[->| ->]]|]. intros st e _ _. by destruct Hs as [->|[->| ->]]. }
  assert (Hmsg : ∀ m st e, q_calls q !! st = Some e → extension m = Some (lit "env") → m ≠ file Msg st).
  { intros m st e Hc He ->. by rewrite extension_file in He by (by apply (inv_stems q I st e)). }
  unfold drain_step. destruct (q_drain q) as [| |n| |n envelope|n envelope b|n|n|n|n|n|] eqn:Es; cbn in Hn.
  - destruct stop; [auto|]. destruct (is_tmp name) eqn:Et; [|auto]. apply inv_remove; [done|done|].
    intros st e _ _. split; [|done]. intros [->| ->]; by apply is_tmp_file in Et as [?|?].
  - destruct stop; [auto|].
    destruct (bool_decide (extension name = Some (lit "msg")) && io_ok o && bool_decide (dir (q_disk q) !! with_extension name (lit "env") = None)) eqn:E; [|auto].
    to_prop. apply inv_look; [done|by cbn|]. by intros st e _ _.
  - apply inv_bury; [done|done|]. intros st e Hc _. split; [|done]. intros ->.
    by rewrite extension_file in Hn by (by apply (inv_stems q I st e)).
  - case_bool_decide as He; [|auto]. destruct (fs_read o name (dir (q_disk q)) ≫= envelope_from_slice) as [envelope|] eqn:E; [|auto].
    by eapply inv_read_env.
  - destruct o as [|?]; [|auto]. pose proof (inv_read_msg q n envelope I Es) as H. by destruct (dir (q_disk q) !! msg_of n).
  - by destruct q; cbn in *; subst.
  - destruct Hn as [He Hk]. destruct (env_name _ _ He Hk) as (st0 & -> & Hst0 & Hin). rewrite msg_of_env by done.
    apply inv_remove; [done|done|]. intros st e Hc Hl. split; [|exact (Hd st e Hc)].
    intros [Hf|Hf]; apply file_inj in Hf as [? ->]; try done; try apply Hst0; try apply (inv_stems q I st e Hc).
    by apply (Hd st e Hc Hl).
  - apply inv_remove; [done|done|]. intros st e Hc Hl. split; [|done].
    intros [Hf|Hf]; [by destruct (Hmsg n st e Hc (proj1 Hn))|by apply (Hd st e Hc Hl)].
  - apply inv_remove; [done|done|]. intros st e Hc Hl. split; [|done].
    intros [Hf|Hf]; [by destruct (Hmsg n st e Hc (proj1 Hn))|by apply (Hd st e Hc Hl)].
  - pose proof (inv_bury_msg q o n I Es) as H. by destruct (bury o (msg_of n) (q_disk q)).
  - apply inv_bury; [done|done|]. intros st e Hc Hl. split; [|done]. intros Hf. by apply (Hd st e Hc Hl).
  - by destruct q; cbn in *; subst.
Qed.

Lemma settled_more (k : Disk) (ps p : list Delivery) (st : bytes) (e : Enqueue) : settled k ps st e → settled k (p ++ ps) st e.
Proof. intros [(bs & ? & ?)|?]; [left; exists bs; rewrite elem_of_app; auto|by right]. Qed.

Lemma entry_ok_more (k : Disk) (ps p : list Delivery) (st : bytes) (e : Enqueue) : entry_ok k ps st e → entry_ok k (p ++ ps) st e.
Proof.
  intros H Hl. destruct (H Hl) as (HM & HE & HD & HS). split_and!; [done..|]. pose proof (settled_more k ps p st e) as Hm.
  destruct (eq_stage e); try done; naive_solver.
Qed.

Lemma try_deliver_outcome (now later : Z) (net : Net) (out : Outside) (n : bytes) (envelope : RelayEnvelope) (b : bytes) (r r' : Relay) (s' : Drain) d :
  try_deliver_one now later net out n envelope b r = (s', r', d) →
  d = None ∧ (s' = Draining ∨ s' = BuryMsg n ∨ s' = Gone) ∨
  (∃ bs, signed b = Some bs ∧ d = Some (mkDelivery n envelope bs) ∧ s' = RemoveMsg n).
Proof.
  unfold try_deliver_one. destruct (select_peer now (r_health r)) as [idx h].
  destruct (idx ≫= _) as [[i peer]|]; [|intros [= <- <- <-]; auto].
  destruct (signed b) as [bs|]; [|intros [= <- <- <-]; auto].
  destruct (deliver_via_relay net peer envelope bs local_hostname (r_enforcer r) out) as [[res enforcer] w].
  destruct res as [u|[x|]]; [intros [= <- <- <-]; eauto|destruct (is_transient x); intros [= <- <- <-]; auto|intros [= <- <- <-]; auto].
Qed.

Lemma inv_relay_send (q : Queue) (now later : Z) (net : Net) (out : Outside) (n : bytes) (envelope : RelayEnvelope) (b : bytes) :
  queue_inv q → q_drain q = Sending n envelope b →
  queue_inv (let '(s', r', d) := try_deliver_one now later net out n envelope b (q_relay q) in
    mkQueue (q_disk q) r' s' (q_calls q) (option_list d ++ q_delivered q)).
Proof.
  intros [I1 I2 I3 I4 I5] Es. rewrite Es in I4, I5.
  destruct (try_deliver_one now later net out n envelope b (q_relay q)) as [[s' r'] d] eqn:E. apply try_deliver_outcome in E.
  split; cbn; [exact I1|exact I2|intros; by apply entry_ok_more, I3|intros st e Hc Hl|].
  - destruct E as [[-> Hs]|(bs & Hb & -> & ->)]; [by destruct Hs as [->|[->| ->]]|]. intros ->.
    destruct (I4 st e Hc Hl eq_refl) as [-> ->]. left. exists bs. split; [done|]. by left.
  - destruct E as [[-> Hs]|(bs & Hb & -> & ->)]; [by destruct Hs as [->|[->| ->]]|exact I5].
Qed.

Lemma queue_inv_reached (r : Relay) (q : Queue) : queue_reached r q → queue_inv q.
Proof.
  intros H. apply (rtc_ind_r queue_inv (queue_new r)) in H; [done| |].
  - split; cbn; try done. intros n. rewrite !lookup_empty. by intros [[? ?]|[? ?]].
  - intros x y _ Hs I. destruct Hs as [q' st article envelope Hst Hn _|q' st e o He|q' name stop o|q' now later net out n envelope b Es|q' r'].
    + by apply inv_relay_call.
    + destruct (enqueue_step o st e (q_disk q')) as [e' k'] eqn:E. by eapply inv_relay_enqueue.
    + by apply inv_relay_drain.
    + by apply inv_relay_send.
    + by apply inv_relay_crash.
Qed.

(** C10. With calls of [enqueue], the drain task and its scans at start-up
    interleaved file operation by file operation, any of these failing, the
    process stopping and starting again anywhere and peers answering anything, a
    message whose [enqueue] returned is in the queue with its envelope, was
    accepted by a peer, signed and with that envelope, or is kept under [dead]. *)
Theorem relayed_mail_not_lost (r : Relay) (q : Queue) (st : bytes) (e : Enqueue) :
  queue_reached r q → q_calls q !! st = Some e → eq_stage e = Queued →
  in_queue (q_disk q) st e ∨ was_delivered (q_delivered q) st e ∨ in_dead (q_disk q) st e.
Proof.
  intros Hq Hc Hg. destruct (inv_entries q (queue_inv_reached r q Hq) st e Hc) as (_ & _ & _ & HS); [by rewrite Hg|].
  rewrite Hg in HS. exact HS.
Qed.

(** Left alone and with no call failing, an [enqueue] returns. *)
Lemma enqueue_returns (q : Queue) (st article : bytes) (envelope : RelayEnvelope) :
  stem_ok st → q_calls q !! st = None → must_queue (r_health (q_relay q)) envelope = true →
  ∃ q', rtc queue_step q q' ∧ q_calls q' !! st = Some (mkEnqueue article envelope Queued).
Proof.
  intros Hst Hn Ha. destruct q as [[d dd] r s calls ps]. cbn in *.
  assert (Hnext : ∀ q1 q2 e o e' k', q_calls q1 !! st = Some e → enqueue_step o st e (q_disk q1) = (e', k') →
    rtc queue_step (mkQueue k' (q_relay q1) (q_drain q1) (<[ st := e' ]> (q_calls q1)) (q_delivered q1)) q2 → rtc queue_step q1 q2).
  { intros q1 q2 e o e' k' He E H. eapply rtc_l; [|exact H]. pose proof (step_enqueue q1 st e o He) as Hs. by rewrite E in Hs. }
  eexists. split.
  - eapply rtc_l; [by apply (step_call _ st article envelope)|]. cbn.
    eapply (Hnext _ _ _ IoOk); [apply lookup_insert_eq|reflexivity|]. cbn.
    eapply (Hnext _ _ _ IoOk); [apply lookup_insert_eq|cbn; unfold fs_rename; rewrite lookup_insert_eq; reflexivity|]. cbn.
    eapply (Hnext _ _ _ IoOk); [apply lookup_insert_eq|reflexivity|]. cbn.
    eapply (Hnext _ _ _ IoOk); [apply lookup_insert_eq|cbn; unfold fs_rename; rewrite lookup_insert_eq; reflexivity|]. cbn.
    eapply (Hnext _ _ _ IoOk); [apply lookup_insert_eq|reflexivity|]. apply rtc_refl.
  - cbn. apply lookup_insert_eq.
Qed.

End Queue.

Module QueueSamples.

(** Any coding that can be read back will do. *)
#[local] Instance sample_envs : EnvelopeFileLib := {
  envelope_to_vec e := [Zpos (encode (mail_from e, rcpt_to e, require_tls e))];
  envelope_from_slice b :=
    match b with
    | [Zpos p] => (λ t : bytes * list bytes * bool, mkEnvelope t.1.1 t.1.2 t.2) <$> decode p
    | _ => None
    end
}.

#[local] Instance sample_laws : EnvelopeFileLaws sample_envs.
Proof. intros [f t s]. cbn. by rewrite decode_encode. Qed.

#[local] Instance sample_base64 : Base64Enc := { base64_encode x := x }.

Definition two_peers : PeerHealthState :=
  health_new [mkPeer (lit "a") false None None; mkPeer (lit "b") false None None] 300.

Lemma not_lost_witness :
  let e := mkEnqueue (lit "mail") (mkEnvelope (lit "a@b") [lit "c@d"] false) Queued in
  ∃ q, queue_reached None (lit "me") (mkRelay two_peers None) q ∧
    (in_queue (q_disk q) (lit "1") e ∨ was_delivered None (q_delivered q) (lit "1") e ∨ in_dead (q_disk q) (lit "1") e).
Proof.
  intros e.
  destruct (enqueue_returns None (lit "me") (queue_new (mkRelay two_peers None)) (lit "1") (eq_article e) (eq_envelope e)) as (q & Hq & Hc);
    [by apply (bool_decide_eq_true_1 _)|done|reflexivity|].
  exists q. split; [exact Hq|].
  exact (relayed_mail_not_lost None (lit "me") (mkRelay two_peers None) q (lit "1") e Hq Hc eq_refl).
Defined.

(** The second peer, with the first selected, marked down and selected again later. *)
Lemma fair_witness : 1%nat ∈ chosen [Select 0; MarkDown 1 0; Select 2] two_peers.
Proof. refine (selection_is_fair 1 [Select 0; MarkDown 1 0; Select 2] two_peers _ _ _); [cbn; lia|vm_compute; tauto|cbn; lia]. Defined.

End QueueSamples.

End RelayQueue.
