(* ===== verification/ImapMailbox.v ===== *)
(** Mailboxes of the IMAP server: [crates/imap/src/session/mailbox.rs].

    Rows of [imap_uid_validity] are the mailboxes; SELECT makes one for whatever
    name it is given.  The two-row dynamic program [glob_bytes] is proved equal
    to the meaning of a LIST pattern, and LIST to that meaning on all rows, so
    that the LIKE filter in front of it loses nothing ([list_spec]).
    [uid_validity_agrees]: sessions that open a mailbox at the same time, with
    statements failing, are told one UIDVALIDITY.  [listed_names_unusable]: a
    name LIST gives is not the name of the mailbox it stands for. *)

From S2P Require Import Prelude Bytes Utf8 Sql.

Module ImapMailbox.
Import Utf8 Sql.

(** ** Names *)

Inductive Mailbox := Inbox | Other (name : bytes).

Definition mailbox_name (m : Mailbox) : bytes :=
  match m with
  | Inbox => lit "INBOX"
  | Other b => from_utf8_lossy b
  end.

(** [Mailbox::try_from] of the [imap_types] crate. *)
Class MailboxLib := { mailbox_try_from : bytes → option Mailbox }.

(** The rows: mailbox, uidvalidity, next_uid. *)
Abbreviation Uids := (gmap bytes (Z * Z)) (only parsing).

(** ** Wildcards *)

Definition STAR : Z := 42.
Definition PERCENT : Z := 37.
Definition SLASH : Z := 47.

Definition MAX_GLOB_BYTES : Z := 1024.

(** The inner loop: [p] is [pat[i-1]], [c] the entry [curr[j-1]], [prev] starts
    at index [j-1]. *)
Fixpoint glob_row (p : Z) (c : bool) (s : bytes) (prev : list bool) : list bool :=
  match s, prev with
  | x :: s', pj1 :: ((pj :: _) as prev') =>
      let cj :=
        if p =? STAR then pj || c
        else if p =? PERCENT then pj || (negb (x =? SLASH) && c)
        else pj1 && (p =? x) in
      cj :: glob_row p cj s' prev'
  | _, _ => []
  end.

Definition next_glob_row (s : bytes) (prev : list bool) (p : Z) : list bool :=
  let c := if (p =? STAR) || (p =? PERCENT) then default false (head prev) else false in
  c :: glob_row p c s prev.

Definition glob_bytes (pat s : bytes) : bool :=
  default false (foldl (next_glob_row s) (true :: replicate (length s) false) pat !! length s).

Definition glob_match (pattern name : bytes) : bool :=
  if MAX_GLOB_BYTES <? Z.of_nat (length pattern) + Z.of_nat (length name) then false else glob_bytes pattern name.

(** ** LIKE *)

(** [a LIKE b ESCAPE '\'] of SQLite: ASCII letters in either case. *)
Definition BACKSLASH : Z := 92.
Definition UNDERSCORE : Z := 95.

Fixpoint suffixes (s : bytes) : list bytes := s :: match s with [] => [] | _ :: s' => suffixes s' end.

Definition same_letter (a b : Z) : bool := to_ascii_lower a =? to_ascii_lower b.

Fixpoint like (pat : bytes) (s : bytes) : bool :=
  match pat with
  | [] => bool_decide (s = [])
  | p :: pat' =>
      if p =? BACKSLASH then
        match pat', s with
        | q :: pat'', x :: s' => same_letter q x && like pat'' s'
        | _, _ => false
        end
      else if p =? PERCENT then existsb (like pat') (suffixes s)
      else if p =? UNDERSCORE then
        match s with [] => false | _ => like pat' (drop (length (first_char s)) s) end
      else match s with x :: s' => same_letter p x && like pat' s' | [] => false end
  end.

(** [str::replace] of one character. *)
Definition replace_char (c : Z) (by_ : bytes) (s : bytes) : bytes := flat_map (λ x, if x =? c then by_ else [x]) s.

Definition escape_like (s : bytes) : bytes :=
  replace_char UNDERSCORE (lit "\_") (replace_char PERCENT (lit "\%") (replace_char BACKSLASH (lit "\\") s)).

Definition is_wild (c : Z) : bool := (c =? STAR) || (c =? PERCENT).

(** What comes before the first wildcard. *)
Fixpoint literal_part (s : bytes) : bytes :=
  match s with
  | c :: s' => if is_wild c then [] else c :: literal_part s'
  | [] => []
  end.

Definition NEWS : bytes := lit "News/".

Definition db_prefix (pattern : bytes) : option bytes :=
  let literal := literal_part (default [] (strip_prefix NEWS pattern)) in
  if bool_decide (literal = []) then None else Some (escape_like literal ++ lit "%").

(** ** LIST *)

Inductive NameAttribute := Noselect | Extension (atom : bytes).

Definition has_no_children : NameAttribute := Extension (lit "HasNoChildren").
Definition has_children : NameAttribute := Extension (lit "HasChildren").

Definition special_use (name : bytes) : option bytes :=
  if bool_decide (name = lit "INBOX") then Some (lit "Inbox")
  else if bool_decide (name ∈ [lit "Sent"; lit "Drafts"; lit "Trash"; lit "Junk"; lit "Archive"]) then Some name
  else None.

Definition mailbox_flags (name : bytes) : list NameAttribute :=
  if bool_decide (last name = Some SLASH) then [has_children; Noselect]
  else match special_use name with
       | Some flag => [Extension flag; has_no_children]
       | None => [has_no_children]
       end.

Record ListData := mkList { l_items : list NameAttribute; l_mailbox : Mailbox }.

Section List.
Context {lib : MailboxLib}.

Definition list_pattern (reference : Mailbox) (wildcard : bytes) : bytes :=
  let prefix := mailbox_name reference in
  if bool_decide (prefix = []) then wildcard else prefix ++ [SLASH] ++ wildcard.

(** The rows a query selects, in the order of their names. *)
Definition names_where (p : bytes → bool) (t : gmap bytes (Z * Z)) : list bytes :=
  sort_bytes (List.filter p (map_to_list t).*1).

Definition list_item (pattern db_name : bytes) : option ListData :=
  let imap_name := NEWS ++ db_name in
  if glob_match pattern imap_name then mkList (mailbox_flags imap_name) <$> mailbox_try_from imap_name else None.

Definition handle_list (reference : Mailbox) (wildcard : bytes) (p : Pool (gmap bytes (Z * Z))) : list ListData * Pool (gmap bytes (Z * Z)) :=
  let pattern := list_pattern reference wildcard in
  let query := match db_prefix pattern with Some like_pat => names_where (like like_pat) | None => names_where (λ _, true) end in
  match select query p with
  | (Ok names, p) => (omap (list_item pattern) names, p)
  | (Err _, p) => ([], p)
  end.

End List.

(** ** UIDVALIDITY *)

Definition clamp_u32 (v : Z) : Z := if (0 <=? v) && (v <=? u32_max) then v else 1.

(** The value for a new row, [now] in seconds. *)
Definition new_uidvalidity (now : Z) : Z := Z.max 1 (Z.min now u32_max).

(** [INSERT OR IGNORE]. *)
Definition insert_or_ignore (mailbox : bytes) (row : Z * Z) (t : gmap bytes (Z * Z)) : gmap bytes (Z * Z) :=
  match t !! mailbox with Some _ => t | None => <[ mailbox := row ]> t end.

(** Where a call of [get_or_create_uidvalidity] is between its statements. *)
Inductive UidStage := Fetch | InsertRow | Refetch | Got (uidvalidity next_uid : Z) | Failed.

Definition uid_step (now : Z) (mailbox : bytes) (g : UidStage) (p : Pool (gmap bytes (Z * Z))) : UidStage * Pool (gmap bytes (Z * Z)) :=
  match g with
  | Fetch | Refetch =>
      match select (lookup mailbox) p with
      | (Ok (Some (v, n)), p) => (Got (clamp_u32 v) (clamp_u32 n), p)
      | (Ok None, p) => (match g with Fetch => InsertRow | _ => Failed end, p)
      | (Err _, p) => (Failed, p)
      end
  | InsertRow =>
      match execute (insert_or_ignore mailbox (new_uidvalidity now, 1)) p with
      | (Ok _, p) => (Refetch, p)
      | (Err _, p) => (Failed, p)
      end
  | Got _ _ | Failed => (g, p)
  end.

(** The call when nothing comes between. *)
Definition get_or_create_uidvalidity (now : Z) (mailbox : bytes) : prog (Pool (gmap bytes (Z * Z))) () (Z * Z) := λ p,
  let '(g, p) := uid_step now mailbox Fetch p in
  let '(g, p) := uid_step now mailbox g p in
  let '(g, p) := uid_step now mailbox g p in
  match g with Got v n => (Ok (v, n), p) | _ => (Err tt, p) end.

(** ** SELECT, EXAMINE, STATUS *)

Record SelectResult := mkSelect { uidvalidity : Z; next_uid : Z; s_mailbox_name : bytes; s_read_only : bool }.

(** [None] is the tagged NO. *)
Definition handle_select (now : Z) (mailbox : Mailbox) (read_only : bool) (p : Pool (gmap bytes (Z * Z))) :
    option SelectResult * Pool (gmap bytes (Z * Z)) :=
  let name := mailbox_name mailbox in
  match get_or_create_uidvalidity now name p with
  | (Ok (v, n), p) => (Some (mkSelect v n name read_only), p)
  | (Err _, p) => (None, p)
  end.

(** [NonZeroU32::new(x).unwrap_or(1)]. *)
Definition non_zero (x : Z) : Z := if x =? 0 then 1 else x.

Inductive StatusItemName := NMessages | NRecent | NUnseen | NDeleted | NDeletedStorage | NUidNext | NUidValidity.
Inductive StatusItem := SMessages (n : Z) | SRecent (n : Z) | SUnseen (n : Z) | SDeleted (n : Z) | SDeletedStorage (n : Z)
  | SUidNext (n : Z) | SUidValidity (n : Z).

Definition status_item (v n : Z) (i : StatusItemName) : StatusItem :=
  match i with
  | NMessages => SMessages 0
  | NRecent => SRecent 0
  | NUnseen => SUnseen 0
  | NDeleted => SDeleted 0
  | NDeletedStorage => SDeletedStorage 0
  | NUidNext => SUidNext (non_zero n)
  | NUidValidity => SUidValidity (non_zero v)
  end.

Definition handle_status (mailbox : Mailbox) (item_names : list StatusItemName) (p : Pool (gmap bytes (Z * Z))) :
    option (list StatusItem) * Pool (gmap bytes (Z * Z)) :=
  match select (lookup (mailbox_name mailbox)) p with
  | (Ok (Some (v, n)), p) => (Some (status_item (clamp_u32 v) (clamp_u32 n) <$> item_names), p)
  | (Ok None, p) | (Err _, p) => (None, p)
  end.

(** ** The meaning of a pattern *)

(** RFC 3501: [*] stands for any text, [%] for any without the delimiter. *)
Definition seg_matches (p : Z) (seg : bytes) : Prop :=
  if p =? STAR then True
  else if p =? PERCENT then SLASH ∉ seg
  else seg = [p].

Definition imap_glob : bytes → bytes → Prop := segmented seg_matches.

Lemma imap_glob_nil p x : imap_glob (p ++ [x]) [] ↔ is_wild x = true ∧ imap_glob p [].
Proof.
  unfold imap_glob, is_wild. rewrite segmented_snoc. unfold seg_matches. split.
  - intros (t1 & s & Ht & Hp & Hx). symmetry in Ht. apply app_nil in Ht as [-> ->].
    destruct (x =? STAR), (x =? PERCENT); done.
  - intros [Hx Hp]. exists [], []. split_and!; [done|done|]. destruct (x =? STAR), (x =? PERCENT); try done; apply not_elem_of_nil.
Qed.

(** One more character of the name: the recurrence of the program. *)
Lemma imap_glob_step p x t c :
  imap_glob (p ++ [x]) (t ++ [c]) ↔
    if x =? STAR then imap_glob p (t ++ [c]) ∨ imap_glob (p ++ [x]) t
    else if x =? PERCENT then imap_glob p (t ++ [c]) ∨ c ≠ SLASH ∧ imap_glob (p ++ [x]) t
    else imap_glob p t ∧ x = c.
Proof.
  assert (Hsn : ∀ u, imap_glob (p ++ [x]) u ↔ ∃ t1 s, u = t1 ++ s ∧ imap_glob p t1 ∧ seg_matches x s) by (intros; apply segmented_snoc).
  unfold seg_matches in Hsn.
  destruct (Z.eqb_spec x STAR) as [->|Hs]; [|destruct (Z.eqb_spec x PERCENT) as [->|Hp]]; rewrite !Hsn; split.
  - intros (t1 & s & Ht & Hg & _). destruct s as [|z s _] using rev_ind.
    + left. rewrite app_nil_r in Ht. by rewrite Ht.
    + right. rewrite app_assoc in Ht. apply app_inj_tail in Ht as [-> ->]. by exists t1, s.
  - intros [Hg|(t1 & s & -> & Hg & _)]; [exists (t ++ [c]), []|exists t1, (s ++ [c])]; by rewrite ?app_nil_r, ?app_assoc.
  - intros (t1 & s & Ht & Hg & Hn). destruct s as [|z s _] using rev_ind.
    + left. rewrite app_nil_r in Ht. by rewrite Ht.
    + right. rewrite app_assoc in Ht. apply app_inj_tail in Ht as [-> ->].
      rewrite not_elem_of_app, list_elem_of_singleton in Hn. destruct Hn as [Hn Hz]. split; [congruence|]. by exists t1, s.
  - intros [Hg|(Hc & t1 & s & -> & Hg & Hn)].
    + exists (t ++ [c]), []. rewrite app_nil_r. split_and!; [done|done|apply not_elem_of_nil].
    + exists t1, (s ++ [c]). rewrite app_assoc, not_elem_of_app, list_elem_of_singleton. split_and!; auto.
  - intros (t1 & s & Ht & Hg & ->). by apply app_inj_tail in Ht as [-> ->].
  - intros [Hg ->]. by exists t, [c].
Qed.

(** A row of the program: for each prefix of the name, whether it is matched. *)
Inductive row_ok (p : bytes) : bytes → bytes → list bool → Prop :=
| row_end pre b : (b = true ↔ imap_glob p pre) → row_ok p pre [] [b]
| row_more pre x s b l : (b = true ↔ imap_glob p pre) → row_ok p (pre ++ [x]) s l → row_ok p pre (x :: s) (b :: l).

Lemma row_head p pre s l : row_ok p pre s l → ∃ b l', l = b :: l' ∧ (b = true ↔ imap_glob p pre).
Proof. destruct 1; eauto. Qed.

Lemma row_last p pre s l : row_ok p pre s l → ∃ b, l !! length s = Some b ∧ (b = true ↔ imap_glob p (pre ++ s)).
Proof.
  induction 1 as [pre b Hb|pre x s b l Hb Hl (b' & E & IH)]; [exists b; by rewrite app_nil_r|].
  exists b'. split; [exact E|]. by rewrite cons_middle, app_assoc.
Qed.

Lemma glob_row_ok p x pre s l c :
  row_ok p pre s l → (c = true ↔ imap_glob (p ++ [x]) pre) → row_ok (p ++ [x]) pre s (c :: glob_row x c s l).
Proof.
  intros Hl. revert c. induction Hl as [pre b Hb|pre y s b l Hb Hl IH]; intros c Hc; [by constructor|].
  destruct (row_head _ _ _ _ Hl) as (b' & l' & -> & Hb'). constructor; [done|]. apply IH. rewrite imap_glob_step.
  destruct (x =? STAR); [rewrite orb_true_iff; tauto|]. destruct (x =? PERCENT).
  - rewrite orb_true_iff, andb_true_iff, negb_true_iff, Z.eqb_neq. tauto.
  - rewrite andb_true_iff, Z.eqb_eq. tauto.
Qed.

Lemma first_row pre s : pre ≠ [] → row_ok [] pre s (replicate (S (length s)) false).
Proof.
  revert pre. induction s as [|x s IH]; intros pre Hp; constructor; try (split; [done|by intros H%segmented_nil]). apply IH. by destruct pre.
Qed.

Lemma rows_ok pat p s l : row_ok p [] s l → row_ok (p ++ pat) [] s (foldl (next_glob_row s) l pat).
Proof.
  revert p l. induction pat as [|x pat IH]; intros p l Hl; cbn; [by rewrite app_nil_r|].
  rewrite cons_middle, app_assoc. apply IH. apply glob_row_ok; [done|].
  destruct (row_head _ _ _ _ Hl) as (b & l' & -> & Hb). cbn. rewrite imap_glob_nil. fold (is_wild x).
  destruct (is_wild x); naive_solver.
Qed.

Lemma glob_bytes_correct pat s : glob_bytes pat s = true ↔ imap_glob pat s.
Proof.
  unfold glob_bytes.
  assert (H : row_ok [] [] s (true :: replicate (length s) false)).
  { assert (H0 : true = true ↔ imap_glob [] []) by (split; [intros _; by apply segmented_nil|done]).
    destruct s as [|x s]; constructor; [done|done|by apply first_row]. }
  apply (rows_ok pat) in H. destruct (row_last _ _ _ _ H) as (b & -> & Hb). exact Hb.
Qed.

#[export] Instance imap_glob_dec p s : Decision (imap_glob p s).
Proof.
  destruct (glob_bytes p s) eqn:E; [left; by apply glob_bytes_correct|].
  right. intros H%glob_bytes_correct. by rewrite H in E.
Defined.

(** ** The LIKE filter loses nothing *)

Definition escape_char (c : Z) : bytes := if (c =? BACKSLASH) || (c =? PERCENT) || (c =? UNDERSCORE) then [BACKSLASH; c] else [c].

Lemma escape_like_cons c s : escape_like (c :: s) = escape_char c ++ escape_like s.
Proof.
  unfold escape_like, replace_char, escape_char. cbn [flat_map]. rewrite !flat_map_app. f_equal.
  destruct (Z.eqb_spec c BACKSLASH) as [->|H1]; [done|]. destruct (Z.eqb_spec c PERCENT) as [->|H2]; [done|].
  cbn. destruct (Z.eqb_spec c PERCENT); [done|]. cbn. by destruct (Z.eqb_spec c UNDERSCORE) as [->|H3].
Qed.

Lemma like_escaped c p s : like (escape_char c ++ p) (c :: s) = like p s.
Proof.
  assert (same_letter c c = true) as Hc by (unfold same_letter; by rewrite Z.eqb_refl).
  unfold escape_char. destruct ((c =? BACKSLASH) || (c =? PERCENT) || (c =? UNDERSCORE)) eqn:E; cbn.
  - by rewrite Hc.
  - apply orb_false_iff in E as [[E1 E2]%orb_false_iff E3]. by rewrite E1, E2, E3, Hc.
Qed.

Lemma like_prefix literal s : like (escape_like literal ++ lit "%") (literal ++ s) = true.
Proof.
  induction literal as [|c l IH]; [|by rewrite escape_like_cons, <- app_assoc; cbn [app]; rewrite like_escaped].
  cbn. apply existsb_exists. exists []. split; [|done]. induction s as [|c s IH]; cbn; auto.
Qed.

Lemma literal_part_split s : ∃ rest, s = literal_part s ++ rest ∧ Forall (λ c, is_wild c = false) (literal_part s).
Proof.
  induction s as [|c s (rest & E & H)]; [by exists []|]. cbn. destruct (is_wild c) eqn:Ec; [by exists (c :: s)|].
  exists rest. split; [cbn; congruence|by constructor].
Qed.

Lemma imap_glob_literal l p t :
  Forall (λ c, is_wild c = false) l → imap_glob (l ++ p) t → ∃ t1, t = l ++ t1 ∧ imap_glob p t1.
Proof.
  intros Hl. revert t. induction Hl as [|c l Hc _ IH]; intros t; [by exists t|]. cbn. intros (s & t1 & -> & Hs & Ht)%segmented_cons.
  unfold seg_matches, is_wild in *. apply orb_false_iff in Hc as [Hc1 Hc2]. rewrite Hc1, Hc2 in Hs. subst s.
  destruct (IH t1 Ht) as (t2 & -> & ?). by exists t2.
Qed.

Lemma db_prefix_lossless pattern like_pat n :
  db_prefix pattern = Some like_pat → glob_match pattern (NEWS ++ n) = true → like like_pat n = true.
Proof.
  unfold db_prefix, glob_match. intros E. destruct (MAX_GLOB_BYTES <? _); [done|]. intros Hg%glob_bytes_correct. revert E Hg.
  destruct (strip_prefix NEWS pattern) as [news|] eqn:Es; [|done]. apply strip_prefix_Some in Es as ->. cbn [default from_option].
  destruct (literal_part_split news) as (rest & Er & Hl). case_bool_decide; [done|]. intros [= <-] Hg.
  apply imap_glob_literal in Hg as (t1 & Et & Hg); [|by repeat constructor]. apply app_inv_head in Et as <-.
  rewrite Er in Hg. apply imap_glob_literal in Hg as (t2 & -> & _); [|done]. apply like_prefix.
Qed.

Lemma filter_perm (P : bytes → bool) (l1 l2 : list bytes) : l1 ≡ₚ l2 → List.filter P l1 ≡ₚ List.filter P l2.
Proof.
  induction 1 as [|x l1 l2 _ IH|x y l|l1 l2 l3 _ IH1 _ IH2]; cbn; [done| | |by rewrite IH1].
  - by destruct (P x); rewrite IH.
  - destruct (P x), (P y); by try constructor.
Qed.

Lemma sort_filter (P : bytes → bool) (l : list bytes) : sort_bytes (List.filter P l) = List.filter P (sort_bytes l).
Proof.
  apply (StronglySorted_unique bytes_le); [apply StronglySorted_merge_sort; apply _| |].
  - assert (H : StronglySorted bytes_le (sort_bytes l)) by (apply StronglySorted_merge_sort; apply _).
    induction H as [|x l' _ IH Hx]; cbn; [constructor|]. destruct (P x); [|done]. constructor; [done|].
    rewrite Forall_forall in *. intros y Hy. apply Hx. apply list_elem_of_In, List.filter_In in Hy as [Hy _]. by apply list_elem_of_In.
  - rewrite sort_bytes_perm. apply filter_perm. symmetry. apply sort_bytes_perm.
Qed.

Lemma omap_filter {A} (P : bytes → bool) (f : bytes → option A) (l : list bytes) :
  (∀ x, is_Some (f x) → P x = true) → omap f (List.filter P l) = omap f l.
Proof.
  intros H. induction l as [|x l IH]; cbn; [done|]. destruct (f x) eqn:E.
  - rewrite H by (by eexists). cbn. by rewrite E, IH.
  - destruct (P x); cbn; by rewrite ?E.
Qed.

Section Theorems.
Context {lib : MailboxLib}.

(** What LIST says of a mailbox. *)
Definition listed (db_name : bytes) : option ListData := mkList (mailbox_flags (NEWS ++ db_name)) <$> mailbox_try_from (NEWS ++ db_name).

(** C36. LIST answers, in order of name, with those mailboxes whose name under
    [News/] the pattern means: neither the dynamic program nor the LIKE filter,
    with its escapes, adds or loses one, up to 1024 bytes of pattern and name. *)
Theorem list_spec (reference : Mailbox) (wildcard : bytes) (p : Pool (gmap bytes (Z * Z))) :
  pool_reliable p →
  (handle_list reference wildcard p).1 =
  let pattern := list_pattern reference wildcard in
  omap (λ n, if decide (imap_glob pattern (NEWS ++ n) ∧ Z.of_nat (length pattern) + Z.of_nat (length (NEWS ++ n)) <= 1024)
             then listed n else None)
    (sort_bytes (map_to_list (rows p)).*1).
Proof.
  intros Hp. cbv zeta. unfold handle_list. set (pattern := list_pattern reference wildcard).
  set (query := match db_prefix pattern with Some like_pat => names_where (like like_pat) | None => names_where (λ _, true) end).
  destruct (select_reliable query p Hp) as (p' & -> & _ & _). cbn [fst].
  transitivity (omap (list_item pattern) (sort_bytes (map_to_list (rows p)).*1)).
  - unfold query, names_where. destruct (db_prefix pattern) as [lp|] eqn:E; rewrite sort_filter; apply omap_filter; [|done].
    intros n [d Hd]. unfold list_item in Hd. destruct (glob_match pattern (NEWS ++ n)) eqn:Eg; [|done]. by eapply db_prefix_lossless.
  - apply list_omap_ext, Forall_Forall2_diag, Forall_forall. intros n _. unfold list_item, glob_match, listed, MAX_GLOB_BYTES.
    destruct (Z.ltb_spec 1024 (Z.of_nat (length pattern) + Z.of_nat (length (NEWS ++ n)))); [rewrite decide_False by lia; done|].
    destruct (glob_bytes pattern (NEWS ++ n)) eqn:Eg.
    + rewrite decide_True; [done|]. split; [by apply glob_bytes_correct|lia].
    + rewrite decide_False; [done|]. intros [Hg%glob_bytes_correct _]. congruence.
Qed.

End Theorems.

(** ** One UIDVALIDITY per mailbox *)

Definition Opening : Type := bytes * UidStage.

(** Calls for any mailboxes, statement by statement in any order; the pool says
    which statements fail, and the clocks may say anything. *)
Inductive open_step : list Opening * Pool (gmap bytes (Z * Z)) → list Opening * Pool (gmap bytes (Z * Z)) → Prop :=
| open_new m s p : open_step (s, p) ((m, Fetch) :: s, p)
| open_run l1 m g l2 now p : open_step (l1 ++ (m, g) :: l2, p) (let '(g', p') := uid_step now m g p in (l1 ++ (m, g') :: l2, p')).

Definition uid_ok (x : Z) : Prop := 1 <= x <= u32_max.

(** What the rows keep: valid values, and every row there was. *)
Definition rows_ok_since (t0 t : gmap bytes (Z * Z)) : Prop := t0 ⊆ t ∧ map_Forall (λ _ r, uid_ok r.1 ∧ uid_ok r.2) t.

Lemma clamp_ok x : uid_ok x → clamp_u32 x = x.
Proof. unfold uid_ok, clamp_u32. intros H. destruct (Z.leb_spec 0 x), (Z.leb_spec x u32_max); cbn; lia. Qed.

Lemma select_read {T A} (f : T → A) (p p' : Pool T) r : select f p = (r, p') → rows p' = rows p ∧ ∀ a, r = Ok a → a = f (rows p).
Proof. unfold select, round_trip. destruct p as [t [|[] fs]]; intros [= <- <-]; cbn; split; try done; by intros a [= <-]. Qed.

Lemma insert_ignored (mailbox : bytes) (row : Z * Z) (t : gmap bytes (Z * Z)) :
  t ⊆ insert_or_ignore mailbox row t ∧
  ∀ P : bytes → Z * Z → Prop, P mailbox row → map_Forall P t → map_Forall P (insert_or_ignore mailbox row t).
Proof.
  unfold insert_or_ignore. destruct (t !! mailbox) eqn:E; [done|]. split; [by apply insert_subseteq|].
  intros P HP Ht. by apply map_Forall_insert_2.
Qed.

Lemma uid_step_ok now m g p g' p' t0 :
  rows_ok_since t0 (rows p) → uid_step now m g p = (g', p') →
  rows_ok_since t0 (rows p') ∧ rows p ⊆ rows p' ∧
  (∀ v n, g' = Got v n → g = Got v n ∨ rows p' !! m = Some (v, n)).
Proof.
  intros [H0 Hok] E.
  assert (Hsel : ∀ g1 g2, (match select (lookup m) p with
      | (Ok (Some (v, n)), p) => (Got (clamp_u32 v) (clamp_u32 n), p)
      | (Ok None, p) => (g1, p)
      | (Err _, p) => (g2, p) end) = (g', p') → (∀ v n, g1 ≠ Got v n) → (∀ v n, g2 ≠ Got v n) →
    rows_ok_since t0 (rows p') ∧ rows p ⊆ rows p' ∧ (∀ v n, g' = Got v n → g = Got v n ∨ rows p' !! m = Some (v, n))).
  { intros g1 g2 Es Hg1 Hg2. destruct (select (lookup m) p) as [r q] eqn:Eq. apply select_read in Eq as [Hr Ha].
    destruct r as [[[v n]|]|e]; injection Es as <- <-; rewrite Hr; (split_and!; [by split|done|intros v' n' Eg]); try (by destruct (Hg1 v' n')); try (by destruct (Hg2 v' n')).
    specialize (Ha _ eq_refl). injection Eg as <- <-. destruct (Hok m (v, n) (eq_sym Ha)) as [Hv Hn]. right. rewrite !clamp_ok by done. done. }
  destruct g as [| | |v n|]; cbn in E; [by apply (Hsel InsertRow Failed)| |by apply (Hsel Failed Failed)| |].
  - unfold execute, round_trip in E. destruct p as [t [|[] fs]]; injection E as <- <-; cbn in *; [|by split_and!|].
    all: destruct (insert_ignored m (new_uidvalidity now, 1) t) as [Hsub Hall]; split_and!; [|done|done].
    all: split; [by etrans|]. all: apply Hall; [|done]. all: unfold uid_ok, new_uidvalidity, u32_max; cbn; lia.
  - injection E as <- <-. split_and!; [by split|done|]. by left.
  - injection E as <- <-. split_and!; [by split|done|]. by left.
Qed.

Definition openings_ok (t0 : gmap bytes (Z * Z)) (x : list Opening * Pool (gmap bytes (Z * Z))) : Prop :=
  rows_ok_since t0 (rows x.2) ∧ ∀ m v n, (m, Got v n) ∈ x.1 → rows x.2 !! m = Some (v, n).

Lemma openings_step t0 x y : openings_ok t0 x → open_step x y → openings_ok t0 y.
Proof.
  intros [Hr Hg] Hs. destruct Hs as [m s p|l1 m g l2 now p]; cbn in *.
  - split; [done|]. intros m' v n [E|Hin]%elem_of_cons; [done|by apply Hg].
  - destruct (uid_step now m g p) as [g' p'] eqn:E. destruct (uid_step_ok _ _ _ _ _ _ _ Hr E) as (Hr' & Hsub & Hgot). split; [done|]. cbn.
    assert (Hold : ∀ m' v n, (m', Got v n) ∈ l1 ++ (m, g) :: l2 → rows p' !! m' = Some (v, n)).
    { intros m' v n Hin. eapply lookup_weaken; [by apply Hg|done]. }
    intros m' v n. rewrite elem_of_app, elem_of_cons. intros [Hin|[[= -> <-]|Hin]]; [apply Hold; set_solver| |apply Hold; set_solver].
    destruct (Hgot v n eq_refl) as [->|?]; [apply Hold; set_solver|done].
Qed.

(** C37. However the statements of calls for a mailbox interleave, whichever of
    them fail and whatever the clocks say, every call that succeeds reports the
    UIDVALIDITY and the next UID of the one row of the mailbox; rows are never
    changed, and the values stay in the range of the protocol. *)
Theorem uid_validity_agrees (p p' : Pool (gmap bytes (Z * Z))) (s : list Opening) (m : bytes) (v n : Z) :
  map_Forall (λ _ r, uid_ok r.1 ∧ uid_ok r.2) (rows p) → rtc open_step ([], p) (s, p') → (m, Got v n) ∈ s →
  rows p ⊆ rows p' ∧ rows p' !! m = Some (v, n) ∧ uid_ok v ∧ uid_ok n ∧
  ∀ v' n', (m, Got v' n') ∈ s → v' = v ∧ n' = n.
Proof.
  intros Hp H Hin. assert (Hinv : openings_ok (rows p) (s, p')).
  { apply (rtc_ind_r (openings_ok (rows p)) ([], p)) in H; [done| |].
    - split; [by split|]. by intros ? ? ? ?%elem_of_nil.
    - intros x y _ Hs Hx. by eapply openings_step. }
  destruct Hinv as [[Hsub Hok] Hg]. cbn in *. pose proof (Hg m v n Hin) as Hm. destruct (Hok m (v, n) Hm).
  split_and!; [done|done|done|done|]. intros v' n' Hin'. specialize (Hg m v' n' Hin'). rewrite Hm in Hg. by injection Hg as -> ->.
Qed.

(** ** Names out of LIST *)

Lemma new_mailbox (now : Z) (name : bytes) (p : Pool (gmap bytes (Z * Z))) :
  pool_reliable p → rows p !! name = None →
  ∃ p', get_or_create_uidvalidity now name p = (Ok (new_uidvalidity now, 1), p') ∧
    rows p' = <[ name := (new_uidvalidity now, 1) ]> (rows p) ∧ pool_reliable p'.
Proof.
  intros Hp Hn. unfold get_or_create_uidvalidity.
  destruct (select_reliable (lookup name) p Hp) as (p1 & E1 & Hr1 & Hp1).
  destruct (execute_reliable (insert_or_ignore name (new_uidvalidity now, 1)) p1 Hp1) as (p2 & E2 & Hr2 & Hp2).
  destruct (select_reliable (lookup name) p2 Hp2) as (p3 & E3 & Hr3 & Hp3).
  assert (Hrow : rows p2 = <[ name := (new_uidvalidity now, 1) ]> (rows p)).
  { rewrite Hr2, Hr1. unfold insert_or_ignore. by rewrite Hn. }
  exists p3. cbn [uid_step]. rewrite E1, Hn. cbn [uid_step]. rewrite E2. cbn [uid_step]. rewrite E3, Hrow, lookup_insert_eq.
  split_and!; [|congruence|done]. rewrite !clamp_ok; [done|unfold uid_ok, u32_max; lia|unfold uid_ok, new_uidvalidity, u32_max; lia].
Qed.

(** The name LIST shows for a mailbox is not one the other commands know it
    by: STATUS of it fails, and SELECT of it makes another mailbox, with its own
    UIDVALIDITY, which LIST then shows with the prefix twice. *)
Theorem listed_names_unusable (now : Z) (n : bytes) (items : list StatusItemName) (r : Z * Z) (p : Pool (gmap bytes (Z * Z))) :
  pool_reliable p → is_utf8 (NEWS ++ n) = true → rows p !! n = Some r → rows p !! (NEWS ++ n) = None →
  (handle_status (Other (NEWS ++ n)) items p).1 = None ∧
  ∃ p', handle_select now (Other (NEWS ++ n)) false p = (Some (mkSelect (new_uidvalidity now) 1 (NEWS ++ n) false), p') ∧
    rows p' !! n = Some r ∧ (NEWS ++ n) ∈ sort_bytes (map_to_list (rows p')).*1.
Proof.
  intros Hp Hu Hr Hn. unfold handle_status, handle_select. cbn [mailbox_name]. rewrite lossy_valid by done. split.
  - destruct (select_reliable (lookup (NEWS ++ n)) p Hp) as (p' & -> & _ & _). by rewrite Hn.
  - destruct (new_mailbox now (NEWS ++ n) p Hp Hn) as (p' & -> & Hr' & _). exists p'. rewrite Hr'. split_and!; [done| |].
    + rewrite lookup_insert_ne; [done|]. intros E. apply (f_equal length) in E. rewrite length_app in E. change (length NEWS) with 5%nat in E. lia.
    + rewrite sort_bytes_perm. apply list_elem_of_fmap. exists (NEWS ++ n, (new_uidvalidity now, 1)). split; [done|].
      apply elem_of_map_to_list, lookup_insert_eq.
Qed.

Module MailboxSamples.

#[local] Instance sample_mailboxes : MailboxLib := { mailbox_try_from b := Some (Other b) }.

Definition one_group : gmap bytes (Z * Z) := {[ lit "a.b" := (7, 1) ]}.

Lemma list_witness :
  (handle_list (Other []) (lit "News/a%") (mkPool one_group [])).1 = [mkList [has_no_children] (Other (lit "News/a.b"))].
Proof.
  rewrite (list_spec (Other []) (lit "News/a%") (mkPool one_group []) (Forall_nil_2 _)).
  vm_compute. reflexivity.
Defined.

Lemma agrees_witness :
  ∃ s p', rtc open_step ([], mkPool ∅ []) (s, p') ∧ (lit "a", Got 9 1) ∈ s ∧ ∀ v n, (lit "a", Got v n) ∈ s → v = 9 ∧ n = 1.
Proof.
  set (t := insert_or_ignore (lit "a") (9, 1) ∅).
  set (s := [(lit "a", Got 9 1); (lit "a", Refetch)]).
  assert (H : rtc open_step ([], mkPool ∅ []) (s, mkPool t [])).
  { eapply rtc_l; [apply (open_new (lit "a"))|]. eapply rtc_l; [apply (open_new (lit "a"))|].
    eapply rtc_l; [apply (open_run [] (lit "a") Fetch _ 9)|]. eapply rtc_l; [apply (open_run [_] (lit "a") Fetch [] 8)|].
    eapply rtc_l; [apply (open_run [] (lit "a") InsertRow _ 9)|]. eapply rtc_l; [apply (open_run [] (lit "a") Refetch _ 9)|].
    eapply rtc_l; [apply (open_run [_] (lit "a") InsertRow [] 8)|]. vm_compute. apply rtc_refl. }
  exists s, (mkPool t []). split_and!; [exact H|by left|].
  refine (proj2 (proj2 (proj2 (proj2 (uid_validity_agrees (mkPool ∅ []) (mkPool t []) s (lit "a") 9 1 _ H _))))); [|by left].
  apply map_Forall_empty.
Defined.

Lemma unusable_witness :
  (handle_status (Other (NEWS ++ lit "a.b")) [NUidNext] (mkPool one_group [])).1 = None ∧
  ∃ p', handle_select 50 (Other (NEWS ++ lit "a.b")) false (mkPool one_group []) = (Some (mkSelect (new_uidvalidity 50) 1 (NEWS ++ lit "a.b") false), p') ∧
    rows p' !! lit "a.b" = Some (7, 1) ∧ (NEWS ++ lit "a.b") ∈ sort_bytes (map_to_list (rows p')).*1.
Proof.
  refine (listed_names_unusable 50 (lit "a.b") [NUidNext] (7, 1) (mkPool one_group []) _ _ _ _); [constructor|reflexivity..].
Defined.

End MailboxSamples.

End ImapMailbox.
