(* ===== verification/ImapSession.v ===== *)
(** The IMAP session: [crates/imap/src/session/mod.rs] with [auth.rs],
    [commands.rs] and [fetch.rs].

    The protocol engine of the [imap_next] crate is outside: a session is fed
    the events the engine reports, and its calls into the engine are its output.
    [imap_needs_login]: mailboxes are shown, and the database is used, only in the
    state of a user whose name the client presented before, inside TLS, with a
    password that the credential store accepts for it.  [imap_guesses_bounded]: no more than three wrong
    passwords in a row are tried.  [login_locks_after_one_mistake]: with
    AUTH=LOGIN it is one. *)

From S2P Require Import Prelude Bytes Utf8 Credentials Sql ImapMailbox.

Module ImapSession.
Import Utf8 Credentials Sql ImapMailbox.

(** ** The engine *)

Abbreviation Tag := bytes (only parsing).

Inductive Kind := KOk | KNo | KBad | KBye.

Inductive Code := UidValidity (v : Z) | UidNext (n : Z) | PermanentFlags | ReadOnly | ReadWrite.

Record Status := mkStatus { st_kind : Kind; st_tag : option bytes; st_code : option Code; st_text : bytes }.

Inductive Mechanism := Plain | Login | OtherMechanism (name : bytes).

Inductive Capability := Imap4Rev1 | AuthCap (m : Mechanism) | Idle | UidPlus | Move | SaslIr | StartTls | Enable | Unselect | Namespace
  | OtherCap (name : bytes).

Inductive Data :=
| DCapability (l : list Capability)
| DFlags
| DExists (n : Z)
| DRecent (n : Z)
| DList (d : ListData)
| DStatus (m : Mailbox) (items : list StatusItem)
| DSearch
| DEnabled (l : list bytes)
| DNamespace.

Inductive CommandBody :=
| CCapability
| CNoop
| CStartTls
| CLogout
| CSelect (m : Mailbox)
| CExamine (m : Mailbox)
| CList (reference : Mailbox) (wildcard : bytes)
| CStatus (m : Mailbox) (items : list StatusItemName)
| CFetch
| CStore
| CSearch (uid : bool)
| CExpunge
| CClose
| CUnselect
| CEnable (caps : list bytes)
| CExpungeUid
| CMove
| CAppend
| CNamespace
| COther.

Inductive AuthenticateData := Cancel | Continue (payload : bytes).

Inductive Event :=
| GreetingSent
| ResponseSent
| CommandReceived (tag : bytes) (body : CommandBody)
| CommandAuthenticateReceived (tag : bytes) (mechanism : Mechanism) (initial_response : option bytes)
| AuthenticateDataReceived (data : AuthenticateData)
| IdleCommandReceived (tag : bytes)
| IdleDoneReceived.

(** What [stream.next] gives: an event, with the time and whether the engine
    takes the continuation request that answers it; an error; or nothing in time. *)
Inductive Next := Ev (e : Event) (taken : bool) (now : Z) | Broken | TimedOut.

(** The calls into the engine. *)
Inductive Out :=
| EnqueueData (d : Data)
| EnqueueStatus (s : Status)
| AuthenticateFinish (s : Status)
| AuthenticateContinue (text : bytes)
| IdleAccept
| IdleReject (s : Status).

Definition ok (tag : bytes) (text : bytes) : Status := mkStatus KOk (Some tag) None text.
Definition no (tag : bytes) (text : bytes) : Status := mkStatus KNo (Some tag) None text.
Definition bad (tag : bytes) (text : bytes) : Status := mkStatus KBad (Some tag) None text.
Definition bye (text : bytes) : Status := mkStatus KBye None None text.
Definition untagged_ok (code : Code) (text : bytes) : Status := mkStatus KOk None (Some code) text.

(** ** The session *)

Inductive ImapState :=
| NotAuthenticated
| Authenticated (username : bytes)
| Selected (username mailbox : bytes) (read_only : bool)
| Logout.

Inductive AuthProgress :=
| NoProgress
| PlainExpectingPayload (tag : bytes)
| LoginExpectingUsername (tag : bytes)
| LoginExpectingPassword (tag username : bytes).

Definition MAX_AUTH_FAILURES : Z := 3.

Record SessionContext := mkCtx {
  cx_pool : Pool (gmap bytes (Z * Z));
  cx_tls : bool;
  cx_tls_acceptor : bool;
  cx_state : ImapState;
  cx_auth_progress : AuthProgress;
  cx_idle_tag : option bytes;
  cx_auth_failures : Z;
  cx_imap4rev2_enabled : bool;
  (** The credentials checked so far, latest first: never read by the code. *)
  cx_checked : list (bytes * bytes)
}.

Definition set_pool (p : Pool (gmap bytes (Z * Z))) (c : SessionContext) : SessionContext :=
  mkCtx p (cx_tls c) (cx_tls_acceptor c) (cx_state c) (cx_auth_progress c) (cx_idle_tag c) (cx_auth_failures c) (cx_imap4rev2_enabled c) (cx_checked c).
Definition set_state (s : ImapState) (c : SessionContext) : SessionContext :=
  mkCtx (cx_pool c) (cx_tls c) (cx_tls_acceptor c) s (cx_auth_progress c) (cx_idle_tag c) (cx_auth_failures c) (cx_imap4rev2_enabled c) (cx_checked c).
Definition set_progress (a : AuthProgress) (c : SessionContext) : SessionContext :=
  mkCtx (cx_pool c) (cx_tls c) (cx_tls_acceptor c) (cx_state c) a (cx_idle_tag c) (cx_auth_failures c) (cx_imap4rev2_enabled c) (cx_checked c).
Definition set_idle (t : option bytes) (c : SessionContext) : SessionContext :=
  mkCtx (cx_pool c) (cx_tls c) (cx_tls_acceptor c) (cx_state c) (cx_auth_progress c) t (cx_auth_failures c) (cx_imap4rev2_enabled c) (cx_checked c).
Definition set_failures (n : Z) (c : SessionContext) : SessionContext :=
  mkCtx (cx_pool c) (cx_tls c) (cx_tls_acceptor c) (cx_state c) (cx_auth_progress c) (cx_idle_tag c) n (cx_imap4rev2_enabled c) (cx_checked c).
Definition set_rev2 (b : bool) (c : SessionContext) : SessionContext :=
  mkCtx (cx_pool c) (cx_tls c) (cx_tls_acceptor c) (cx_state c) (cx_auth_progress c) (cx_idle_tag c) (cx_auth_failures c) b (cx_checked c).
Definition log_check (u p : bytes) (c : SessionContext) : SessionContext :=
  mkCtx (cx_pool c) (cx_tls c) (cx_tls_acceptor c) (cx_state c) (cx_auth_progress c) (cx_idle_tag c) (cx_auth_failures c) (cx_imap4rev2_enabled c)
    ((u, p) :: cx_checked c).

Definition session_ctx (tls acceptor : bool) (p : Pool (gmap bytes (Z * Z))) : SessionContext :=
  mkCtx p tls acceptor NotAuthenticated NoProgress None 0 false [].

(** ** commands.rs *)

Definition capability_list (tls tls_available : bool) : list Capability :=
  [Imap4Rev1] ++
  (if tls then [AuthCap Plain; AuthCap Login; Idle; UidPlus; Move; SaslIr]
   else if tls_available then [StartTls] else []) ++
  [Enable; Unselect; OtherCap (lit "IMAP4rev2"); Namespace; OtherCap (lit "SPECIAL-USE")].

(** ** Data of SELECT *)

Definition select_untagged_data (rev2_mode : bool) : list Data :=
  [DFlags; DExists 0] ++ (if rev2_mode then [] else [DRecent 0]).

Definition select_status_responses (r : SelectResult) : list Status :=
  [untagged_ok (UidValidity (non_zero (uidvalidity r))) (lit "UIDs valid");
   untagged_ok (UidNext (non_zero (next_uid r))) (lit "Predicted next UID");
   untagged_ok PermanentFlags (lit "Permanent flags")].

Definition select_ok (tag : bytes) (read_only : bool) : Status :=
  if read_only then mkStatus KOk (Some tag) (Some ReadOnly) (lit "EXAMINE complete")
  else mkStatus KOk (Some tag) (Some ReadWrite) (lit "SELECT complete").

(** [handle_enable]: whether the capability is new, and the flag after it. *)
Definition handle_enable (cap : bytes) (enabled : bool) : bool * bool :=
  if eq_ignore_ascii_case cap (lit "IMAP4rev2") && negb enabled then (true, true) else (false, enabled).

Fixpoint enable_all (caps : list bytes) (enabled : bool) : list bytes * bool :=
  match caps with
  | [] => ([], enabled)
  | cap :: caps' =>
      let '(new, enabled) := handle_enable cap enabled in
      let '(l, enabled) := enable_all caps' enabled in
      ((if new then [lit "IMAP4rev2"] else []) ++ l, enabled)
  end.

Section Session.
Context {bc : BcryptLib} {lib : MailboxLib} (store : CredentialStore).

(** ** auth.rs *)

(** The user when it succeeded, the calls and the context after. *)
Definition Auth : Type := option bytes * list Out * SessionContext.

Definition refuse_auth (s : Status) (c : SessionContext) : Auth := (None, [AuthenticateFinish s], c).

(** [verify_credentials], and the answer. *)
Definition verify_credentials (tag u p : bytes) (c : SessionContext) : Auth :=
  if check store u p then (Some u, [AuthenticateFinish (ok tag (lit "Authentication successful"))], log_check u p c)
  else refuse_auth (no tag (lit "Invalid credentials")) (log_check u p c).

Definition NUL : Z := 0.

(** [splitn(3, 0)] when there are three parts. *)
Definition plain_parts (payload : bytes) : option (bytes * bytes * bytes) :=
  '(p0, rest) ← split_once NUL payload;
  '(p1, p2) ← split_once NUL rest;
  Some (p0, p1, p2).

Definition plain_finish (tag payload : bytes) (c : SessionContext) : Auth :=
  match plain_parts payload with
  | None => refuse_auth (no tag (lit "Invalid PLAIN payload format")) c
  | Some (authzid, user, pass) =>
      if negb (is_utf8 user) then refuse_auth (no tag (lit "Invalid UTF-8 in PLAIN username")) c
      else if negb (is_utf8 pass) then refuse_auth (no tag (lit "Invalid UTF-8 in PLAIN password")) c
      else if negb (bool_decide (authzid = [])) && negb (is_utf8 authzid) then refuse_auth (no tag (lit "Invalid UTF-8 in PLAIN authzid")) c
      else if negb (bool_decide (authzid = [])) && negb (bool_decide (authzid = user))
      then refuse_auth (no tag (lit "Authorization identity not supported")) c
      else verify_credentials tag user pass c
  end.

(** [authenticate_continue]: the progress is recorded when the engine takes it. *)
Definition challenge (taken : bool) (text : bytes) (a : AuthProgress) (c : SessionContext) : Auth :=
  (None, [AuthenticateContinue text], if taken then set_progress a c else c).

Definition handle_authenticate_start (taken : bool) (tag : bytes) (mechanism : Mechanism) (initial_response : option bytes) (c : SessionContext) : Auth :=
  match mechanism with
  | Plain =>
      match initial_response with
      | Some payload => plain_finish tag payload c
      | None => challenge taken [] (PlainExpectingPayload tag) c
      end
  | Login => challenge taken (lit "Username:") (LoginExpectingUsername tag) c
  | OtherMechanism _ => refuse_auth (no tag (lit "Unsupported authentication mechanism")) c
  end.

Definition handle_authenticate_data (taken : bool) (data : AuthenticateData) (c : SessionContext) : Auth :=
  let progress := cx_auth_progress c in
  let c := set_progress NoProgress c in
  match data, progress with
  | Cancel, _ => refuse_auth (mkStatus KNo None None (lit "Authentication cancelled")) c
  | Continue payload, PlainExpectingPayload tag => plain_finish tag payload c
  | Continue payload, LoginExpectingUsername tag =>
      if negb (is_utf8 payload) then refuse_auth (no tag (lit "Invalid UTF-8 in username")) c
      else challenge taken (lit "Password:") (LoginExpectingPassword tag payload) c
  | Continue payload, LoginExpectingPassword tag username =>
      if negb (is_utf8 payload) then refuse_auth (no tag (lit "Invalid UTF-8 in password")) c
      else verify_credentials tag username payload c
  | Continue _, NoProgress => refuse_auth (mkStatus KBad None None (lit "Internal authentication error")) c
  end.

(** ** Commands *)

(** What the loop does after an event. *)
Inductive Flow := Go | Done | Upgrade.

Definition Turn : Type := list Out * SessionContext * Flow.

Definition answer (s : Status) (c : SessionContext) : Turn := ([EnqueueStatus s], c, Go).

Definition user_of (s : ImapState) : option bytes :=
  match s with Authenticated u | Selected u _ _ => Some u | _ => None end.

Definition select_command (now : Z) (tag : bytes) (m : Mailbox) (read_only : bool) (c : SessionContext) : Turn :=
  match user_of (cx_state c) with
  | Some u =>
      match handle_select now m read_only (cx_pool c) with
      | (Some r, p) =>
          ((EnqueueData <$> select_untagged_data (cx_imap4rev2_enabled c)) ++ (EnqueueStatus <$> select_status_responses r) ++
             [EnqueueStatus (select_ok tag read_only)],
           set_state (Selected u (s_mailbox_name r) read_only) (set_pool p c), Go)
      | (None, p) => answer (no tag (lit "Internal error")) (set_pool p c)
      end
  | None => answer (no tag (lit "Not in authenticated state")) c
  end.

(** A command for the selected state that shows [outs]. *)
Definition when_selected (tag : bytes) (outs : list Out) (c : SessionContext) : Turn :=
  match cx_state c with
  | Selected _ _ _ => (outs, c, Go)
  | _ => answer (no tag (lit "Not in selected state")) c
  end.

Definition deselect (tag text : bytes) (c : SessionContext) : Turn :=
  match cx_state c with
  | Selected u _ _ => answer (ok tag text) (set_state (Authenticated u) c)
  | _ => answer (no tag (lit "Not in selected state")) c
  end.

Definition handle_command (now : Z) (tag : bytes) (body : CommandBody) (c : SessionContext) : Turn :=
  match body with
  | CCapability => ([EnqueueData (DCapability (capability_list (cx_tls c) (cx_tls_acceptor c))); EnqueueStatus (ok tag (lit "CAPABILITY complete"))], c, Go)
  | CNoop => answer (ok tag (lit "NOOP completed")) c
  | CStartTls =>
      if cx_tls c then answer (bad tag (lit "Already in TLS")) c
      else match cx_state c with
           | NotAuthenticated =>
               if cx_tls_acceptor c then ([EnqueueStatus (ok tag (lit "Begin TLS negotiation now"))], c, Upgrade)
               else answer (bad tag (lit "STARTTLS not available")) c
           | _ => answer (bad tag (lit "STARTTLS not permitted in authenticated state")) c
           end
  | CLogout => ([EnqueueStatus (bye (lit "Logging out")); EnqueueStatus (ok tag (lit "LOGOUT completed"))], set_state Logout c, Done)
  | CSelect m => select_command now tag m false c
  | CExamine m => select_command now tag m true c
  | CList reference wildcard =>
      match user_of (cx_state c) with
      | Some _ =>
          let '(l, p) := handle_list reference wildcard (cx_pool c) in
          (((λ d, EnqueueData (DList d)) <$> l) ++ [EnqueueStatus (ok tag (lit "LIST complete"))], set_pool p c, Go)
      | None => answer (no tag (lit "Not in authenticated state")) c
      end
  | CStatus m items =>
      match user_of (cx_state c) with
      | Some _ =>
          match handle_status m items (cx_pool c) with
          | (Some l, p) => ([EnqueueData (DStatus m l); EnqueueStatus (ok tag (lit "STATUS complete"))], set_pool p c, Go)
          | (None, p) => answer (no tag (lit "No such mailbox")) (set_pool p c)
          end
      | None => answer (no tag (lit "Not in authenticated state")) c
      end
  | CFetch => when_selected tag [EnqueueStatus (ok tag (lit "FETCH complete"))] c
  | CStore => when_selected tag [EnqueueStatus (ok tag (lit "STORE complete"))] c
  | CSearch uid =>
      when_selected tag [EnqueueData DSearch; EnqueueStatus (ok tag (if uid then lit "UID SEARCH complete" else lit "SEARCH complete"))] c
  | CExpunge => when_selected tag [EnqueueStatus (ok tag (lit "EXPUNGE complete"))] c
  | CClose => deselect tag (lit "CLOSE complete") c
  | CUnselect => deselect tag (lit "UNSELECT complete") c
  | CEnable caps =>
      match user_of (cx_state c) with
      | Some _ =>
          let '(l, enabled) := enable_all caps (cx_imap4rev2_enabled c) in
          ([EnqueueData (DEnabled l); EnqueueStatus (ok tag (lit "ENABLE complete"))], set_rev2 enabled c, Go)
      | None => answer (no tag (lit "Not in authenticated state")) c
      end
  | CExpungeUid => when_selected tag [EnqueueStatus (ok tag (lit "UID EXPUNGE complete"))] c
  | CMove => when_selected tag [EnqueueStatus (ok tag (lit "MOVE complete"))] c
  | CAppend => answer (no tag (lit "APPEND not yet supported")) c
  | CNamespace =>
      match user_of (cx_state c) with
      | Some _ => ([EnqueueData DNamespace; EnqueueStatus (ok tag (lit "NAMESPACE complete"))], c, Go)
      | None => answer (no tag (lit "not authenticated")) c
      end
  | COther => answer (bad tag (lit "Command not yet implemented in this server version")) c
  end.

(** ** The loop *)

(** A failure is counted; at the limit the session says BYE and ends. *)
Definition count_failure (outs : list Out) (c : SessionContext) : Turn :=
  let c := set_failures (cx_auth_failures c + 1) c in
  if MAX_AUTH_FAILURES <=? cx_auth_failures c
  then (outs ++ [EnqueueStatus (bye (lit "Too many authentication failures"))], c, Done)
  else (outs, c, Go).

Definition logged_in (u : bytes) (outs : list Out) (c : SessionContext) : Turn :=
  (outs, set_state (Authenticated u) (set_failures 0 c), Go).

(** After the handler: the user is logged in, or a failure may be counted. *)
Definition after_auth (counts : bool) (a : Auth) : Turn :=
  let '(r, outs, c) := a in
  match r with
  | Some u => logged_in u outs c
  | None => if counts then count_failure outs c else (outs, c, Go)
  end.

Definition turn (now : Z) (taken : bool) (e : Event) (c : SessionContext) : Turn :=
  match e with
  | GreetingSent | ResponseSent => ([], c, Go)
  | CommandReceived tag body => handle_command now tag body c
  | CommandAuthenticateReceived tag mechanism initial_response =>
      if negb (cx_tls c) then count_failure [AuthenticateFinish (no tag (lit "LOGINDISABLED: authenticate over TLS"))] c
      else let a := handle_authenticate_start taken tag mechanism initial_response c in
           after_auth (match cx_auth_progress a.2 with NoProgress => true | _ => false end) a
  | AuthenticateDataReceived data =>
      after_auth (match data with Cancel => false | Continue _ => true end) (handle_authenticate_data taken data c)
  | IdleCommandReceived tag =>
      match user_of (cx_state c) with
      | Some _ => ([IdleAccept], if taken then set_idle (Some tag) c else c, Go)
      | None => ([IdleReject (no tag (lit "Not in authenticated state"))], c, Go)
      end
  | IdleDoneReceived =>
      match cx_idle_tag c with
      | Some tag => ([EnqueueStatus (ok tag (lit "IDLE terminated"))], set_idle None c, Go)
      | None => ([], c, Go)
      end
  end.

(** [run_command_loop]; [Upgrade] is the exit for STARTTLS. *)
Fixpoint run_command_loop (events : list Next) (c : SessionContext) : Turn :=
  match events with
  | [] | Broken :: _ => ([], c, Done)
  | TimedOut :: _ => ([EnqueueStatus (bye (lit "Idle timeout — connection closed"))], c, Done)
  | Ev e taken now :: events' =>
      match turn now taken e c with
      | (outs, c, Go) => let '(outs', c, f) := run_command_loop events' c in (outs ++ outs', c, f)
      | t => t
      end
  end.

Definition run_session_tls (p : Pool (gmap bytes (Z * Z))) (events : list Next) : list Out * SessionContext :=
  (run_command_loop events (session_ctx true false p)).1.

(** The plain port: the events before STARTTLS, and those after its handshake. *)
Definition run_session_plain (acceptor handshake : bool) (p : Pool (gmap bytes (Z * Z))) (events tls_events : list Next) :
    list Out * SessionContext :=
  match run_command_loop events (session_ctx false acceptor p) with
  | (outs, c, Upgrade) =>
      if handshake then
        let c := mkCtx (cx_pool c) true false NotAuthenticated NoProgress None 0 false (cx_checked c) in
        let '(outs', c, _) := run_command_loop tls_events c in (outs ++ outs', c)
      else (outs, c)
  | (outs, c, _) => (outs, c)
  end.

(** ** Nothing without a login *)

(** The responses a client sends for its authentication. *)
Definition payloads (n : Next) : list bytes :=
  match n with
  | Ev (CommandAuthenticateReceived _ _ (Some b)) _ _ => [b]
  | Ev (AuthenticateDataReceived (Continue b)) _ _ => [b]
  | _ => []
  end.

Definition sent (events : list Next) : list bytes := flat_map payloads events.

(** User name and password came in one PLAIN response, or in two of LOGIN, the
    name first. *)
Definition presented (u p : bytes) (l : list bytes) : Prop :=
  (∃ payload z, payload ∈ l ∧ plain_parts payload = Some (z, u, p)) ∨ sublist [u; p] l.

Definition vouched (l : list bytes) (u : bytes) : Prop := ∃ p, check store u p = true ∧ presented u p l.

(** What only a user that has logged in is told. *)
Definition for_users (o : Out) : bool :=
  match o with
  | EnqueueData (DCapability _) => false
  | EnqueueData _ => true
  | EnqueueStatus s => match st_code s with Some _ => true | None => false end
  | IdleAccept => true
  | _ => false
  end.

(** Wrong passwords in a row, from the latest check back. *)
Fixpoint wrong_streak (l : list (bytes * bytes)) : Z :=
  match l with
  | [] => 0
  | (u, p) :: l' => if check store u p then 0 else 1 + wrong_streak l'
  end.

Definition guesses_ok (l : list (bytes * bytes)) : Prop := ∀ k, wrong_streak (drop k l) <= MAX_AUTH_FAILURES.

(** What holds of a session that has been sent [l] since its start or the
    handshake. *)
Record session_ok (l : list bytes) (c : SessionContext) : Prop := {
  ok_user u : user_of (cx_state c) = Some u → cx_tls c = true ∧ vouched l u;
  ok_login t u : cx_auth_progress c = LoginExpectingPassword t u → u ∈ l;
  ok_plain : cx_tls c = false → cx_auth_progress c = NoProgress ∧ cx_checked c = []
}.

(** While the session goes on. *)
Definition paced (c : SessionContext) : Prop :=
  guesses_ok (cx_checked c) ∧ wrong_streak (cx_checked c) <= cx_auth_failures c < MAX_AUTH_FAILURES.

Lemma presented_more u p l l' : presented u p l → presented u p (l ++ l').
Proof.
  intros [(b & z & H & E)|H]; [left; exists b, z; rewrite elem_of_app; auto|right]. by apply sublist_inserts_r.
Qed.

Lemma vouched_more l l' u : vouched l u → vouched (l ++ l') u.
Proof. intros (p & H & Hp). exists p. eauto using presented_more. Qed.

Lemma session_ok_more l l' c : session_ok l c → session_ok (l ++ l') c.
Proof.
  intros [H1 H2 H3]. split; [|intros t u E; rewrite elem_of_app; eauto|done].
  intros u Hu. destruct (H1 u Hu). eauto using vouched_more.
Qed.

Lemma guesses_cons u p l : guesses_ok l → wrong_streak ((u, p) :: l) <= MAX_AUTH_FAILURES → guesses_ok ((u, p) :: l).
Proof. intros Hl H [|k]; [done|apply Hl]. Qed.

(** A user that has not logged in learns nothing and reaches no database. *)
Lemma command_closed now tag body c outs c' f :
  user_of (cx_state c) = None → handle_command now tag body c = (outs, c', f) →
  cx_pool c' = cx_pool c ∧ existsb for_users outs = false.
Proof.
  intros Hu. unfold handle_command, select_command, when_selected, deselect. rewrite Hu.
  destruct body; try (intros [= <- <- <-]; done).
  all: destruct (cx_state c); try done; try (intros [= <- <- <-]; done).
  all: destruct (cx_tls c), (cx_tls_acceptor c); intros [= <- <- <-]; done.
Qed.

(** A command leaves alone what concerns logins, but for the state. *)
Lemma command_keeps now tag body c outs c' f :
  handle_command now tag body c = (outs, c', f) →
  cx_tls c' = cx_tls c ∧ cx_auth_progress c' = cx_auth_progress c ∧ cx_checked c' = cx_checked c ∧ cx_auth_failures c' = cx_auth_failures c ∧
  (user_of (cx_state c') = None ∨ user_of (cx_state c') = user_of (cx_state c)).
Proof.
  unfold handle_command, select_command, when_selected, deselect, answer.
  destruct body; try (intros [= <- <- <-]; by auto 10).
  all: repeat match goal with
       | |- context [match ?x with _ => _ end] => lazymatch x with context [match _ with _ => _ end] => fail | _ => destruct x eqn:? end
       end; intros [= <- <- <-]; cbn in *; repeat split; auto;
       repeat match goal with H : cx_state _ = _ |- _ => rewrite H end; cbn; auto.
Qed.

(** What the authentication handlers do to a session that was sent [l]. *)
Definition auth_ok (l : list bytes) (c : SessionContext) (a : Auth) : Prop :=
  let '(r, outs, c') := a in
  cx_pool c' = cx_pool c ∧ cx_tls c' = cx_tls c ∧ cx_state c' = cx_state c ∧ cx_auth_failures c' = cx_auth_failures c ∧
  existsb for_users outs = false ∧
  (∀ t u, cx_auth_progress c' = LoginExpectingPassword t u → u ∈ l) ∧
  (r = None ∧ cx_checked c' = cx_checked c ∨
   ∃ u p, cx_checked c' = (u, p) :: cx_checked c ∧ presented u p l ∧ r = if check store u p then Some u else None).

(** No password is awaited whose user name was not sent. *)
Definition names_sent (l : list bytes) (a : AuthProgress) : Prop := ∀ t u, a = LoginExpectingPassword t u → u ∈ l.

Lemma refuse_auth_ok l c s : names_sent l (cx_auth_progress c) → auth_ok l c (refuse_auth s c).
Proof. intros H. unfold auth_ok, refuse_auth. split_and!; auto. Qed.

Lemma verify_ok l c tag u p : names_sent l (cx_auth_progress c) → presented u p l → auth_ok l c (verify_credentials tag u p c).
Proof.
  intros H Hp. unfold verify_credentials. destruct (check store u p) eqn:E; unfold auth_ok, refuse_auth; cbn; split_and!; auto.
  all: right; exists u, p; by rewrite E.
Qed.

Lemma plain_ok l c tag payload : names_sent l (cx_auth_progress c) → payload ∈ l → auth_ok l c (plain_finish tag payload c).
Proof.
  intros H Hp. unfold plain_finish. destruct (plain_parts payload) as [[[z u] p]|] eqn:E; [|by apply refuse_auth_ok].
  repeat (case_match; [by apply refuse_auth_ok|]). apply verify_ok; [done|]. left. by exists payload, z.
Qed.

Lemma challenge_ok l c taken text a : names_sent l (cx_auth_progress c) → names_sent l a → auth_ok l c (challenge taken text a c).
Proof. intros H Ha. unfold auth_ok, challenge. destruct taken; split_and!; auto. Qed.

Lemma start_ok l c taken tag mechanism ir now :
  names_sent l (cx_auth_progress c) →
  auth_ok (l ++ payloads (Ev (CommandAuthenticateReceived tag mechanism ir) taken now)) c (handle_authenticate_start taken tag mechanism ir c).
Proof.
  intros H. set (l' := l ++ _). assert (H' : names_sent l' (cx_auth_progress c)) by (intros t u E; apply elem_of_app; left; eauto).
  unfold handle_authenticate_start. destruct mechanism as [| |m].
  - destruct ir as [b|]; [|by apply challenge_ok]. apply plain_ok; [done|]. apply elem_of_app. right. by left.
  - by apply challenge_ok.
  - by apply refuse_auth_ok.
Qed.

Lemma auth_ok_reset l c a : auth_ok l (set_progress NoProgress c) a → auth_ok l c a.
Proof. by destruct a as [[r outs] c']. Qed.

Lemma data_ok l c taken data now :
  names_sent l (cx_auth_progress c) →
  auth_ok (l ++ payloads (Ev (AuthenticateDataReceived data) taken now)) c (handle_authenticate_data taken data c).
Proof.
  intros H. set (l' := l ++ _). assert (H0 : names_sent l' (cx_auth_progress (set_progress NoProgress c))) by done.
  unfold handle_authenticate_data. destruct data as [|b]; [by apply auth_ok_reset, refuse_auth_ok|].
  assert (Hb : b ∈ l') by (apply elem_of_app; right; by left).
  destruct (cx_auth_progress c) as [|tag|tag|tag u] eqn:E; apply auth_ok_reset.
  - by apply refuse_auth_ok.
  - by apply plain_ok.
  - destruct (is_utf8 b); [|by apply refuse_auth_ok]. apply challenge_ok; [done|]. by intros t u [= _ <-].
  - destruct (is_utf8 b); [|by apply refuse_auth_ok]. apply verify_ok; [done|]. right.
    apply (sublist_app [u] l [b] [b]); [|done]. apply singleton_sublist_l. by eapply H.
Qed.

Lemma wrong_streak_nonneg l : 0 <= wrong_streak l.
Proof. induction l as [|[u p] l IH]; cbn [wrong_streak]; [done|]. destruct (check store u p); lia. Qed.

Lemma count_failure_spec outs c :
  ∃ more f, count_failure outs c = (outs ++ more, set_failures (cx_auth_failures c + 1) c, f) ∧ existsb for_users more = false ∧
    (f = Go ∧ cx_auth_failures c + 1 < MAX_AUTH_FAILURES ∨ f = Done).
Proof.
  unfold count_failure. cbn. destruct (Z.leb_spec MAX_AUTH_FAILURES (cx_auth_failures c + 1)).
  - eexists _, Done. split_and!; auto.
  - exists [], Go. rewrite app_nil_r. split_and!; auto.
Qed.

Lemma auth_turn_session (l : list bytes) (c c' : SessionContext) (a : Auth) (counts : bool) (outs : list Out) (f : Flow) :
  session_ok l c → auth_ok l c a →
  (cx_tls c = true ∨ a.1.1 = None ∧ cx_checked a.2 = cx_checked c ∧ cx_auth_progress a.2 = NoProgress) →
  after_auth counts a = (outs, c', f) →
  session_ok l c' ∧ cx_tls c' = cx_tls c ∧ cx_pool c' = cx_pool c ∧ existsb for_users outs = false ∧ f ≠ Upgrade.
Proof.
  destruct a as [[r outs1] c1]. intros [I1 I2 I3] (Hp & Htls & Hst & Hf & Ho & Hn & Hr) Ht E. cbn in *.
  assert (Hbase : ∀ n, session_ok l (set_failures n c1)).
  { intros n. split; cbn; [rewrite Hst, Htls; exact I1|exact Hn|]. rewrite Htls. intros Hf0. destruct (I3 Hf0) as [_ He].
    destruct Ht as [?|(_ & -> & ->)]; [congruence|by split]. }
  destruct r as [u|]; [|destruct counts].
  - destruct Ht as [Ht|[? _]]; [|done]. destruct Hr as [[? _]|(u' & p & _ & Hpr & Hr)]; [done|].
    destruct (check store u' p) eqn:Ec; [|done]. injection Hr as ->. injection E as <- <- <-. split_and!; try done.
    split; cbn; [|exact Hn|congruence]. intros u [= <-]. split; [congruence|]. by exists p.
  - destruct (count_failure_spec outs1 c1) as (more & f' & Ec & Hm & Hf'). rewrite Ec in E. injection E as <- <- <-.
    split_and!; try done; [by rewrite existsb_app, Ho|by destruct Hf' as [[-> _]| ->]].
  - injection E as <- <- <-. split_and!; try done. replace c1 with (set_failures (cx_auth_failures c1) c1) by (by destruct c1). apply Hbase.
Qed.

Lemma auth_turn_paced (l : list bytes) (c c' : SessionContext) (a : Auth) (counts : bool) (outs : list Out) (f : Flow) :
  paced c → auth_ok l c a → (counts = false → a.1.1 = None → cx_checked a.2 = cx_checked c) → after_auth counts a = (outs, c', f) →
  guesses_ok (cx_checked c') ∧ (f = Go → paced c').
Proof.
  destruct a as [[r outs1] c1]. intros [Hg [Hs1 Hs2]] (_ & _ & _ & Hf & _ & _ & Hr) Hq E. cbn in *.
  pose proof (wrong_streak_nonneg (cx_checked c)).
  assert (Hg1 : guesses_ok (cx_checked c1) ∧ wrong_streak (cx_checked c1) <= cx_auth_failures c + 1 ∧ (∀ u, r = Some u → wrong_streak (cx_checked c1) = 0)).
  { destruct Hr as [[-> ->]|(u & p & -> & Hpr & ->)]; [split_and!; [done|lia|done]|]. cbn [wrong_streak]. unfold MAX_AUTH_FAILURES in *.
    destruct (check store u p) eqn:Ec; (split_and!; [apply guesses_cons; [done|]; cbn [wrong_streak]; rewrite Ec; unfold MAX_AUTH_FAILURES; lia|lia|done]). }
  destruct Hg1 as (Hg1 & Hg2 & Hg3). destruct r as [u|]; [|destruct counts].
  - injection E as <- <- <-. specialize (Hg3 u eq_refl). split; [done|]. intros _. split; [done|]. cbn. unfold MAX_AUTH_FAILURES. lia.
  - destruct (count_failure_spec outs1 c1) as (more & f' & Ec & Hm & Hf'). rewrite Ec in E. injection E as <- <- <-. split; [done|].
    intros ->. split; [done|]. cbn. destruct Hf' as [[_ ?]|?]; [lia|done].
  - injection E as <- <- <-. split; [done|]. intros _. split; [done|]. rewrite Hf, Hq by done. done.
Qed.

Lemma command_upgrades now tag body c outs c' : handle_command now tag body c = (outs, c', Upgrade) → cx_tls c = false ∧ cx_pool c' = cx_pool c.
Proof.
  unfold handle_command, select_command, when_selected, deselect, answer. destruct body; try done.
  all: repeat match goal with |- context [match ?x with _ => _ end] => destruct x eqn:? end; try done. intros [= <- <-]. by split.
Qed.

Lemma turn_ok (l : list bytes) (c c' : SessionContext) (now : Z) (taken : bool) (e : Event) (outs : list Out) (f : Flow) :
  session_ok l c → turn now taken e c = (outs, c', f) →
  session_ok (l ++ payloads (Ev e taken now)) c' ∧ cx_tls c' = cx_tls c ∧ (f = Upgrade → cx_tls c = false) ∧
  (user_of (cx_state c) = None → cx_pool c' = cx_pool c ∧ existsb for_users outs = false).
Proof.
  intros Hok. set (l' := l ++ _). pose proof (session_ok_more l (payloads (Ev e taken now)) c Hok) as Hok'. fold l' in Hok'.
  pose proof Hok' as [I1 I2 I3]. unfold turn. destruct e as [| |tag body|tag mechanism ir|data|tag|].
  - intros [= <- <- <-]. by split_and!.
  - intros [= <- <- <-]. by split_and!.
  - intros E. destruct (command_keeps _ _ _ _ _ _ _ E) as (Ht & Ha & Hc & Hf & Hu).
    split_and!; [|done|intros ->; by eapply command_upgrades|intros Hn; by eapply command_closed].
    split; rewrite ?Ht, ?Ha, ?Hc; [|done..]. intros u E'. apply I1. destruct Hu as [Hu|Hu]; congruence.
  - destruct (cx_tls c) eqn:Et; cbn [negb]; intros E.
    + pose proof (start_ok l c taken tag mechanism ir now (ok_login l c Hok)) as Ha.
      destruct (auth_turn_session l' c c' _ _ outs f Hok' Ha (or_introl Et) E) as (? & ? & ? & ? & ?). split_and!; congruence || done.
    + pose proof (refuse_auth_ok l' c (no tag (lit "LOGINDISABLED: authenticate over TLS")) I2) as Ha.
      destruct (auth_turn_session l' c c' _ true outs f Hok' Ha) as (? & ? & ? & ? & ?); [|done|split_and!; congruence || done].
      right. destruct (ok_plain l' c Hok' Et) as [? _]. by split_and!.
  - intros E. pose proof (data_ok l c taken data now (ok_login l c Hok)) as Ha.
    assert (Hside : cx_tls c = true ∨ (handle_authenticate_data taken data c).1.1 = None ∧
      cx_checked (handle_authenticate_data taken data c).2 = cx_checked c ∧ cx_auth_progress (handle_authenticate_data taken data c).2 = NoProgress);
      [|destruct (auth_turn_session l' c c' _ _ outs f Hok' Ha Hside E) as (? & ? & ? & ? & ?); split_and!; congruence || done].
    destruct (cx_tls c) eqn:Et; [by left|]. right. destruct (ok_plain l' c Hok' Et) as [Hn _].
    unfold handle_authenticate_data. rewrite Hn. by destruct data.
  - destruct (user_of (cx_state c)) as [u|] eqn:Eu; intros [= <- <- <-]; (split_and!; [|by destruct taken|done|done]); [|done].
    destruct taken; [|done]. split; cbn; [exact (ok_user _ _ Hok')|exact I2|exact I3].
  - destruct (cx_idle_tag c) as [t|]; intros [= <- <- <-]; split_and!; try done.
Qed.

(** The engine reports AUTHENTICATE only between exchanges: within one all input
    is data of the exchange. *)
Definition between_exchanges (e : Event) (c : SessionContext) : Prop :=
  match e with CommandAuthenticateReceived _ _ _ => cx_auth_progress c = NoProgress | _ => True end.

Lemma turn_paced (l : list bytes) (c c' : SessionContext) (now : Z) (taken : bool) (e : Event) (outs : list Out) (f : Flow) :
  session_ok l c → paced c → between_exchanges e c → turn now taken e c = (outs, c', f) →
  guesses_ok (cx_checked c') ∧ (f = Go → paced c').
Proof.
  intros Hok Hp He. pose proof Hp as [Hg Hs]. unfold turn. destruct e as [| |tag body|tag mechanism ir|data|tag|]; cbn in He.
  - by intros [= <- <- <-].
  - by intros [= <- <- <-].
  - intros E. destruct (command_keeps _ _ _ _ _ _ _ E) as (_ & _ & Hc & Hf & _). unfold paced. by rewrite Hc, Hf.
  - destruct (cx_tls c); cbn [negb]; intros E.
    + refine (auth_turn_paced _ c c' _ _ outs f Hp (start_ok l c taken tag mechanism ir now (ok_login l c Hok)) _ E).
      unfold handle_authenticate_start, plain_finish, verify_credentials, refuse_auth, challenge.
      destruct mechanism as [| |m], ir as [b|]; repeat case_match; cbn in *; congruence.
    + exact (auth_turn_paced l c c' _ true outs f Hp (refuse_auth_ok l c (no tag _) (ok_login l c Hok)) ltac:(done) E).
  - intros E. refine (auth_turn_paced _ c c' _ _ outs f Hp (data_ok l c taken data now (ok_login l c Hok)) _ E).
    unfold handle_authenticate_data. by destruct data.
  - destruct (user_of (cx_state c)); intros [= <- <- <-]; by destruct taken.
  - destruct (cx_idle_tag c); by intros [= <- <- <-].
Qed.

Definition closed (p p' : Pool (gmap bytes (Z * Z))) (outs : list Out) : Prop := p' = p ∧ existsb for_users outs = false.

Lemma loop_ok (events : list Next) (l : list bytes) (c c' : SessionContext) (outs : list Out) (f : Flow) :
  session_ok l c → run_command_loop events c = (outs, c', f) →
  session_ok (l ++ sent events) c' ∧ cx_tls c' = cx_tls c ∧ (f = Upgrade → cx_tls c = false) ∧
  (closed (cx_pool c) (cx_pool c') outs ∨ cx_tls c = true ∧ ∃ u, vouched (l ++ sent events) u).
Proof.
  revert l c outs. induction events as [|[e taken now| |] events IH]; intros l c outs Hok; cbn [run_command_loop sent flat_map].
  1, 3, 4: intros [= <- <- <-]; split_and!; try done; [by apply session_ok_more|by left].
  destruct (turn now taken e c) as [[outs1 c1] f1] eqn:E. destruct (turn_ok l c c1 now taken e outs1 f1 Hok E) as (H1 & Ht & Hup & Hcl).
  fold (sent events). rewrite app_assoc. set (l1 := l ++ payloads (Ev e taken now)) in *.
  assert (Hfirst : closed (cx_pool c) (cx_pool c1) outs1 ∨ cx_tls c = true ∧ ∃ u, vouched (l1 ++ sent events) u).
  { destruct (user_of (cx_state c)) as [u|] eqn:Eu; [|left; by apply Hcl]. right. destruct (ok_user l c Hok u Eu) as [? ?].
    split; [done|]. exists u. unfold l1. rewrite <- app_assoc. by apply vouched_more. }
  destruct f1; [|intros [= <- <- <-]; split_and!; auto using session_ok_more..].
  destruct (run_command_loop events c1) as [[outs2 c2] f2] eqn:El. intros [= <- <- <-].
  destruct (IH l1 c1 outs2 H1 El) as (H2 & Ht2 & Hup2 & Hcl2). rewrite Ht in *. split_and!; [done|congruence|done|].
  destruct Hfirst as [[Hp Ho]|?]; [|by right]. destruct Hcl2 as [[Hp2 Ho2]|?]; [|by right]. left. split; [congruence|].
  by rewrite existsb_app, Ho, Ho2.
Qed.

(** One more event at the end. *)
Definition opened (r r' : list Out * SessionContext) (l : list bytes) : Prop :=
  let '(outs, c) := r in let '(outs', c') := r' in
  ∃ more, outs' = outs ++ more ∧
    (closed (cx_pool c) (cx_pool c') more ∨ ∃ u, user_of (cx_state c) = Some u ∧ vouched l u).

Lemma opened_same (r : list Out * SessionContext) (l : list bytes) : opened r r l.
Proof. destruct r as [outs c]. exists []. rewrite app_nil_r. split; [done|by left]. Qed.

Lemma loop_extend (events : list Next) (n : Next) (l : list bytes) (c : SessionContext) :
  session_ok l c → opened (run_command_loop events c).1 (run_command_loop (events ++ [n]) c).1 (l ++ sent events).
Proof.
  revert l c. induction events as [|[e taken now| |] events IH]; intros l c Hok; cbn [run_command_loop app sent flat_map].
  3, 4: apply opened_same.
  - destruct n as [e taken now| |]; [|apply opened_same|by eexists; split; [done|left]].
    destruct (turn now taken e c) as [[outs c1] f] eqn:E. destruct (turn_ok l c c1 now taken e outs f Hok E) as (_ & _ & _ & Hcl).
    assert (H : opened ([], c) (outs, c1) (l ++ [])).
    { exists outs. split; [done|]. rewrite app_nil_r. destruct (user_of (cx_state c)) as [u|] eqn:Eu; [right|left; by apply Hcl].
      exists u. split; [done|]. by apply (ok_user l c Hok). }
    destruct f; cbn; rewrite ?app_nil_r in *; exact H.
  - destruct (turn now taken e c) as [[outs c1] f] eqn:E. destruct (turn_ok l c c1 now taken e outs f Hok E) as (H1 & _).
    destruct f; [|apply opened_same..]. specialize (IH _ c1 H1). fold (sent events). rewrite app_assoc.
    destruct (run_command_loop events c1) as [[outs2 c2] f2], (run_command_loop (events ++ [n]) c1) as [[outs3 c3] f3].
    destruct IH as (more & -> & Hm). exists more. by rewrite app_assoc.
Qed.

Lemma session_start_ok tls acceptor p : session_ok [] (session_ctx tls acceptor p).
Proof. by split. Qed.

Lemma opened_app (outs : list Out) (r r' : list Out * SessionContext) (l : list bytes) :
  opened r r' l → opened (outs ++ r.1, r.2) (outs ++ r'.1, r'.2) l.
Proof. destruct r, r'. intros (more & -> & H). cbn [fst snd]. exists more. by rewrite app_assoc. Qed.

(** C4. Nothing about mailboxes is said and the database is not used except for a
    logged-in user who proved to be that user.  On either port and whatever the
    client sends: if one more event makes the session say something about
    mailboxes or use the database, then it was in the state of a user whose name
    the client had presented in the events before, inside TLS, together with a
    password the credential store accepts for that name.  Before the TLS handshake
    nothing is said at all, and what was sent then does not count. *)
Theorem imap_needs_login (p : Pool (gmap bytes (Z * Z))) (events tls_events : list Next) (n : Next) (acceptor handshake : bool) :
  opened (run_session_tls p events) (run_session_tls p (events ++ [n])) (sent events) ∧
  opened (run_session_plain acceptor handshake p events tls_events)
    (run_session_plain acceptor handshake p events (tls_events ++ [n])) (sent tls_events) ∧
  (let '(outs, c) := run_session_plain acceptor handshake p events [] in closed p (cx_pool c) outs).
Proof.
  split; [apply (loop_extend events n [] _ (session_start_ok true false p))|].
  unfold run_session_plain. destruct (run_command_loop events (session_ctx false acceptor p)) as [[outs c] f] eqn:E.
  destruct (loop_ok events [] _ _ _ _ (session_start_ok _ _ _) E) as (Hok & Ht & _ & [Hc|[? _]]); [|done].
  destruct f; [by split; [apply opened_same|]..|]. destruct handshake; [|by split; [apply opened_same|]].
  destruct (ok_plain _ _ Hok Ht) as [_ ->]. cbn [run_command_loop]. split; [|by rewrite app_nil_r].
  pose proof (loop_extend tls_events n [] _ (session_start_ok true false (cx_pool c))) as H.
  apply (opened_app outs) in H. unfold session_ctx in H.
  destruct (run_command_loop tls_events _) as [[o2 c2] f2], (run_command_loop (tls_events ++ [n]) _) as [[o3 c3] f3]. exact H.
Qed.

(** ** Guesses *)

Fixpoint engine_ok (events : list Next) (c : SessionContext) : Prop :=
  match events with
  | Ev e taken now :: events' =>
      between_exchanges e c ∧ match turn now taken e c with (_, c', Go) => engine_ok events' c' | _ => True end
  | _ => True
  end.

(** In a session there are never more than three wrong passwords in a row,
    given that the protocol engine reports AUTHENTICATE only between exchanges. *)
Theorem imap_guesses_bounded (events : list Next) (tls acceptor : bool) (p : Pool (gmap bytes (Z * Z))) :
  engine_ok events (session_ctx tls acceptor p) →
  guesses_ok (cx_checked (run_command_loop events (session_ctx tls acceptor p)).1.2).
Proof.
  assert (H0 : guesses_ok []) by (intros [|k]; done).
  assert (Hp : paced (session_ctx tls acceptor p)) by done. pose proof (session_start_ok tls acceptor p) as Hok.
  revert Hp Hok. generalize (session_ctx tls acceptor p), (@nil bytes).
  induction events as [|[e taken now| |] events IH]; intros c l Hp Hok He; cbn [run_command_loop]; try (by apply Hp).
  destruct He as [He1 He2]. destruct (turn now taken e c) as [[outs c1] f] eqn:E.
  destruct (turn_paced l c c1 now taken e outs f Hok Hp He1 E) as [Hg Hgo].
  destruct (turn_ok l c c1 now taken e outs f Hok E) as (Hok1 & _). destruct f; try done.
  specialize (IH c1 _ (Hgo eq_refl) Hok1 He2). by destruct (run_command_loop events c1) as [[? ?] ?].
Qed.

Lemma loop_go e taken now events c o c1 o2 c2 f :
  turn now taken e c = (o, c1, Go) → run_command_loop events c1 = (o2, c2, f) → run_command_loop (Ev e taken now :: events) c = (o ++ o2, c2, f).
Proof. intros E1 E2. cbn [run_command_loop]. by rewrite E1, E2. Qed.

Lemma loop_done e taken now events c o c1 : turn now taken e c = (o, c1, Done) → run_command_loop (Ev e taken now :: events) c = (o, c1, Done).
Proof. intros E1. cbn [run_command_loop]. by rewrite E1. Qed.

Lemma login_asks now tag c :
  cx_tls c = true →
  turn now true (CommandAuthenticateReceived tag Login None) c =
  ([AuthenticateContinue (lit "Username:")], set_progress (LoginExpectingUsername tag) c, Go).
Proof. intros H. unfold turn. by rewrite H. Qed.

Lemma login_named now u tag c :
  is_utf8 u = true → cx_auth_progress c = LoginExpectingUsername tag →
  turn now true (AuthenticateDataReceived (Continue u)) c =
  count_failure [AuthenticateContinue (lit "Password:")] (set_progress (LoginExpectingPassword tag u) c).
Proof. intros Hu E. unfold turn, handle_authenticate_data. by rewrite E, Hu. Qed.

Lemma login_refused now u pw tag c :
  is_utf8 pw = true → check store u pw = false → cx_auth_progress c = LoginExpectingPassword tag u →
  turn now true (AuthenticateDataReceived (Continue pw)) c =
  count_failure [AuthenticateFinish (no tag (lit "Invalid credentials"))] (log_check u pw (set_progress NoProgress c)).
Proof. intros Hp Hc E. unfold turn, handle_authenticate_data, verify_credentials. by rewrite E, Hp, Hc. Qed.

(** With AUTH=LOGIN the answer to the user name challenge already counts as
    a failure: a user who mistypes the password once is disconnected when giving
    the user name again, and the right password is never asked for. *)
Theorem login_locks_after_one_mistake (u pw t1 t2 : bytes) (now : Z) (rest : list Next) (p : Pool (gmap bytes (Z * Z))) :
  is_utf8 u = true → is_utf8 pw = true → check store u pw = false →
  let ev e := Ev e true now in
  let events := [ev (CommandAuthenticateReceived t1 Login None); ev (AuthenticateDataReceived (Continue u));
                 ev (AuthenticateDataReceived (Continue pw));
                 ev (CommandAuthenticateReceived t2 Login None); ev (AuthenticateDataReceived (Continue u))] in
  run_session_tls p (events ++ rest) = run_session_tls p events ∧
  last (run_session_tls p events).1 = Some (EnqueueStatus (bye (lit "Too many authentication failures"))) ∧
  cx_checked (run_session_tls p events).2 = [(u, pw)].
Proof.
  intros Hu Hp Hc ev events. unfold run_session_tls.
  assert (H : ∃ outs c, cx_checked c = [(u, pw)] ∧ ∀ r, run_command_loop (events ++ r) (session_ctx true false p) =
    (outs ++ [EnqueueStatus (bye (lit "Too many authentication failures"))], c, Done)).
  { eexists ([_] ++ [_] ++ [_] ++ [_] ++ [_]), _. split; [|intros r; unfold events, ev; cbn [app]].
    2: { eapply (loop_go _ _ _ _ _ [_]); [by apply login_asks|].
         eapply (loop_go _ _ _ _ _ [_]); [by rewrite (login_named now u t1)|].
         eapply (loop_go _ _ _ _ _ [_]); [by rewrite (login_refused now u pw t1)|].
         eapply (loop_go _ _ _ _ _ [_]); [by apply login_asks|].
         apply loop_done. rewrite (login_named now u t2) by done. reflexivity. }
    reflexivity. }
  destruct H as (outs & c & Hch & H). pose proof (H []) as H0. rewrite app_nil_r in H0. rewrite H, H0. cbn [fst snd].
  split_and!; [done|by rewrite last_snoc|done].
Qed.

End Session.

Module ImapSamples.

(** A library under which no password verifies. *)
#[local] Instance strict_bcrypt : BcryptLib := {
  bcrypt_hash salt pw cost := lit "h";
  bcrypt_verify pw h := false;
  BCRYPT_DEFAULT_COST := 12;
  hash_values m := (map_to_list m).*2
}.

#[local] Instance sample_names : MailboxLib := { mailbox_try_from b := Some (Other b) }.

Definition no_users : CredentialStore := mkStore ∅ (lit "h").

Definition guess : Next := Ev (CommandAuthenticateReceived (lit "a") Plain (Some ([0] ++ lit "u" ++ [0] ++ lit "p"))) true 0.

Lemma guesses_witness :
  guesses_ok no_users (cx_checked (run_command_loop no_users [guess; guess; guess; guess] (session_ctx true false (mkPool ∅ []))).1.2).
Proof. refine (imap_guesses_bounded no_users [guess; guess; guess; guess] true false (mkPool ∅ []) _). vm_compute. tauto. Defined.

Lemma locks_witness :
  cx_checked (run_session_tls no_users (mkPool ∅ [])
    [Ev (CommandAuthenticateReceived (lit "1") Login None) true 0; Ev (AuthenticateDataReceived (Continue (lit "u"))) true 0;
     Ev (AuthenticateDataReceived (Continue (lit "p"))) true 0;
     Ev (CommandAuthenticateReceived (lit "2") Login None) true 0; Ev (AuthenticateDataReceived (Continue (lit "u"))) true 0]).2 = [(lit "u", lit "p")].
Proof.
  refine (proj2 (proj2 (login_locks_after_one_mistake no_users (lit "u") (lit "p") (lit "1") (lit "2") 0 [] (mkPool ∅ []) _ _ _))); reflexivity.
Defined.

End ImapSamples.

End ImapSession.
