(* ===== verification/Json.v ===== *)
(** JSON values, [serde_json::Value], with the accessors the mail server uses. *)

From S2P Require Import Prelude Bytes.

Module Json.

(** The members of an object are in the order of the map, each name once. *)
Inductive Json :=
| JNull
| JBool (b : bool)
| JNum (n : Z)
| JStr (s : bytes)
| JArr (l : list Json)
| JObj (m : list (bytes * Json)).

Fixpoint member (k : bytes) (m : list (bytes * Json)) : option Json :=
  match m with
  | [] => None
  | (k', v) :: m' => if bool_decide (k' = k) then Some v else member k m'
  end.

Definition get (k : bytes) (j : Json) : option Json := match j with JObj m => member k m | _ => None end.
Definition as_str (j : Json) : option bytes := match j with JStr s => Some s | _ => None end.
Definition as_bool (j : Json) : option bool := match j with JBool b => Some b | _ => None end.
Definition as_array (j : Json) : option (list Json) := match j with JArr l => Some l | _ => None end.
Definition as_object (j : Json) : option (list (bytes * Json)) := match j with JObj m => Some m | _ => None end.

End Json.
