(* ===== verification/MailEmail.v ===== *)
(** Email objects of the JMAP server: [crates/mail/src/email/get.rs],
    [set.rs] (creation) and [types.rs].

    [jmap_article_genuine]: an article made from an Email object has exactly the
    five headers the server writes; nothing in the object adds one.
    [created_email_not_found]: the identifier returned for it cannot be read
    back.  [one_mail_breaks_email_get]: a received message whose From header has
    its brackets the wrong way round makes every request for it panic. *)

From S2P Require Import Prelude Bytes Utf8 Decimal Lines Article Headers Crypto LogEntry Sql SqliteStorage MsgIdMap NntpResponse Injection PostChecks Ipld ReaderStore SmtpText Json.

Module MailEmail.
Import Utf8 Decimal Lines Article Headers LogEntry MsgIdMap NntpResponse Injection Ipld ReaderStore SmtpText Json Sql.

(** A slice whose end comes before its start. *)
Inductive Fault := SlicePanics.

(** [&s[a..b]] between ASCII characters. *)
Definition slice (s : bytes) (a b : nat) : result Fault bytes :=
  if (a <=? b)%nat then Ok (take (b - a) (drop a s)) else Err SlicePanics.

(** ** Email objects *)

Record EmailAddress := mkAddress { ea_name : option bytes; ea_email : bytes }.

Record Email := mkEmail {
  em_id : bytes;
  em_mailbox_ids : list bytes;
  em_keywords : list (bytes * bool);
  em_received_at : bytes;
  em_size : Z;
  em_from : option (list EmailAddress);
  em_subject : option bytes;
  em_message_id : option (list bytes);
  em_ipfs_cid : option bytes;
  em_ipfs_sig : option bytes
}.

(** [mailparse::parse_mail(raw).ok()]: names and values of the headers; and the
    texts of [chrono], [BASE64URL_NOPAD] and [BASE32_NOPAD]. *)
Class MailLib := {
  parse_mail : bytes → option (list (bytes * bytes));
  hlc_ms_to_rfc3339 : Z → bytes;
  to_rfc2822 : Z → bytes;
  base64url : bytes → bytes;
  base32 : bytes → bytes
}.

Section Email.
Context {lib : MailLib} {cid : CidLib}.

Definition mailbox_id_for_group (name : bytes) : bytes := base32 (take 16 (sha256 name)).

Definition header_of (name : bytes) (hs : list (bytes * bytes)) : option bytes :=
  snd <$> List.find (λ h, eq_ignore_ascii_case h.1 name) hs.

Definition QUOTE : Z := 34.
Definition LT : Z := 60.
Definition GT : Z := 62.

(** [trim_matches] of the quotation mark. *)
Definition trim_quotes (s : bytes) : bytes := rev (drop_while (Z.eqb QUOTE) (rev (drop_while (Z.eqb QUOTE) s))).

Definition from_address (f : bytes) : result Fault EmailAddress :=
  let addr := trim f in
  email_addr ← match rfind_char LT addr, rfind_char GT addr with
               | Some lt, Some gt => a ← slice addr (lt + 1) gt; Ok (trim a)
               | _, _ => Ok addr
               end;
  let name := match rfind_char LT addr with
              | Some lt => let n := trim_quotes (trim (take lt addr)) in if bool_decide (n = []) then None else Some n
              | None => None
              end in
  Ok (mkAddress name email_addr).

(** SQLite's text of a time, as RFC 3339. *)
Definition rfc3339_of_sqlite (s : bytes) : bytes :=
  if contains 84 s then (if bool_decide (last s = Some 90) then s else s ++ lit "Z")
  else match split_once SP s with
       | Some (a, b) => a ++ lit "T" ++ b
       | None => s
       end ++ lit "Z".

Definition from_smtp_message (smtp_id raw mailbox_id received_at : bytes) : result Fault Email :=
  let hs := default [] (parse_mail raw) in
  from ← match header_of (lit "From") hs with
         | Some f => a ← from_address f; Ok (Some [a])
         | None => Ok None
         end;
  Ok (mkEmail smtp_id [mailbox_id] [] (rfc3339_of_sqlite received_at) (Z.of_nat (length raw)) from
        (header_of (lit "Subject") hs) ((λ m, [m]) <$> header_of (lit "Message-ID") hs) None None).

(** As [fetch_email] calls it, without a header map. *)
Definition from_root_node (c : Cid) (root : ArticleRootNode) : Email :=
  let m := metadata root in
  mkEmail (cid_to_string c) (mailbox_id_for_group <$> md_newsgroups m) [] (hlc_ms_to_rfc3339 (md_hlc_timestamp m)) (md_byte_count m)
    None None (Some [md_message_id m]) (Some (cid_to_string c))
    (if bool_decide (md_operator_signature m = []) then None else Some (base64url (md_operator_signature m))).

(** ** Email/get *)

(** [str::parse::<i64>]. *)
Definition parse_i64 (s : bytes) : option Z :=
  let '(sign, ds) := match s with
                     | 45 :: s' => (-1, s')
                     | 43 :: s' => (1, s')
                     | _ => (1, s)
                     end in
  if bool_decide (ds = []) || negb (forallb is_ascii_digit ds) then None
  else let v := sign * dec_value ds in
       if (- 2 ^ 63 <=? v) && (v <? 2 ^ 63) then Some v else None.

Definition i64_to_string (v : Z) : bytes := if v <? 0 then lit "-" ++ to_decimal (- v) else to_decimal v.

Definition SMTP_PREFIX : bytes := lit "smtp:".

Definition smtp_row (id : bytes) : option Z := strip_prefix SMTP_PREFIX id ≫= parse_i64.

(** A row of [messages]: the message, its mailbox and when it came. *)
Record MessageRow := mkMessage { mg_raw : bytes; mg_mailbox_id : bytes; mg_received_at : bytes }.
Abbreviation Messages := (gmap Z MessageRow) (only parsing).

(** [SELECT ... WHERE id IN (...)]. *)
Definition fetch_smtp_messages_batch (row_ids : list Z) : prog (Pool Messages) () Messages :=
  select (λ t : Messages, filter (λ kv : Z * MessageRow, kv.1 ∈ row_ids) t).

Definition smtp_email (kv : Z * MessageRow) : result Fault (Z * Email) :=
  e ← from_smtp_message (SMTP_PREFIX ++ i64_to_string kv.1) (mg_raw kv.2) (mg_mailbox_id kv.2) (mg_received_at kv.2);
  Ok (kv.1, e).

Fixpoint traverse {E A B} (f : A → result E B) (l : list A) : result E (list B) :=
  match l with
  | [] => Ok []
  | x :: l' => y ← f x; ys ← traverse f l'; Ok (y :: ys)
  end.

Section Get.
Context {I : Type} {store : IpfsBlockStore I} {ipld : IpldLib}.

Definition fetch_smtp_emails_batch (row_ids : list Z) (s : Pool Messages) : result Fault (gmap Z Email) * Pool Messages :=
  match fetch_smtp_messages_batch row_ids s with
  | (Ok rows, s') => (es ← traverse smtp_email (map_to_list rows); Ok (list_to_map es), s')
  | (Err _, s') => (Ok ∅, s')
  end.

Definition fetch_email (id : bytes) : prog I () (option Email) := λ i,
  match cid_from_str id with
  | None => (Err tt, i)
  | Some c =>
      match get_raw c i with
      | (Ok raw, i') => (match root_decode raw with Ok root => Ok (Some (from_root_node c root)) | Err _ => Err tt end, i')
      | (Err (NotFound _), i') => (Ok None, i')
      | (Err _, i') => (Err tt, i')
      end
  end.

(** The list and the identifiers not found. *)
Fixpoint get_each (smtp_map : gmap Z Email) (ids : list bytes) (i : I) : (list Email * list bytes) * I :=
  match ids with
  | [] => (([], []), i)
  | id :: ids' =>
      let '(found, i') :=
        if starts_with id SMTP_PREFIX then (smtp_row id ≫= λ r, smtp_map !! r, i)
        else match fetch_email id i with
             | (Ok e, i') => (e, i')
             | (Err _, i') => (None, i')
             end in
      let '((es, missing), i'') := get_each smtp_map ids' i' in
      (match found with Some e => (e :: es, missing) | None => (es, id :: missing) end, i'')
  end.

Definition handle_email_get (ids : list bytes) (smtp_store : option (Pool Messages)) (i : I) :
    result Fault (list Email * list bytes) * (I * option (Pool Messages)) :=
  let row_ids := omap smtp_row ids in
  let '(smtp_map, smtp_store') :=
    match smtp_store with
    | Some p => if bool_decide (row_ids = []) then (Ok ∅, Some p)
                else let '(r, p') := fetch_smtp_emails_batch row_ids p in (r, Some p')
    | None => (Ok ∅, None)
    end in
  match smtp_map with
  | Ok m => let '(r, i') := get_each m ids i in (Ok r, (i', smtp_store'))
  | Err f => (Err f, (i, smtp_store'))
  end.

End Get.

(** ** Email/set: creation *)

Definition AT : Z := 64.

Definition strip_crlf (s : bytes) : bytes := List.filter (λ c, negb (c =? CR) && negb (c =? LF)) s.
Definition strip_nul (s : bytes) : bytes := List.filter (λ c, negb (c =? 0)) s.

(** [c.is_ascii_control() || c.is_whitespace() || !c.is_ascii()]; a character
    outside ASCII has only bytes outside ASCII. *)
Definition addr_refused (c : Z) : bool := (c <? 33) || (c =? 127) || (128 <=? c).

Definition is_valid_addr_spec (email : bytes) : bool :=
  if existsb addr_refused email then false
  else if negb (length (List.filter (Z.eqb AT) email) =? 1)%nat then false
  else match split_once AT email with
       | Some (local, domain) => negb (bool_decide (local = [])) && negb (bool_decide (domain = []))
       | None => false
       end.

Definition extract_email_addrs (field : option Json) : list bytes :=
  match field ≫= as_array with
  | Some arr => strip_crlf <$> List.filter (contains AT) (omap (λ o, get (lit "email") o ≫= as_str) arr)
  | None => []
  end.

(** [{:016x}] of a [u64]. *)
Definition hex_digit (x : Z) : Z := if x <? 10 then 48 + x else 87 + x.

Fixpoint hex_digits (n : nat) (x : Z) : bytes :=
  match n with
  | O => []
  | S n' => hex_digits n' (x / 16) ++ [hex_digit (x mod 16)]
  end.

Definition INVALID_FROM : bytes := lit "from must be a valid ASCII email address".
Definition MISSING_FROM : bytes := lit "from is required".
Definition NO_MAILBOX : bytes := lit "mailboxIds must not be empty".
Definition UNKNOWN_MAILBOX : bytes := lit "mailboxId does not correspond to a known newsgroup".
Definition WRITE_FAILED : bytes := lit "IPFS write failed".

(** The first element's member [k] of the array [field] of [obj]. *)
Definition first_member (field k : bytes) (obj : Json) : option bytes :=
  arr ← get field obj ≫= as_array; x ← head arr; get k x ≫= as_str.

Definition sender (obj : Json) : result bytes bytes :=
  match first_member (lit "from") (lit "email") obj with
  | Some s => let stripped := strip_crlf s in
              if is_valid_addr_spec stripped then Ok stripped else Err INVALID_FROM
  | None => Err MISSING_FROM
  end.

(** [HashMap] from the identifiers of the groups to their names. *)
Definition id_to_group (groups : list bytes) : gmap bytes bytes :=
  list_to_map ((λ name, (mailbox_id_for_group name, name)) <$> rev groups).

Definition newsgroup_names (names : gmap bytes bytes) (obj : Json) : result bytes (list bytes) :=
  let keys := from_option (λ m, m.*1) [] (get (lit "mailboxIds") obj ≫= as_object) in
  if bool_decide (keys = []) then Err NO_MAILBOX
  else traverse (λ id, match names !! id with Some name => Ok name | None => Err UNKNOWN_MAILBOX end) keys.

(** What the clock and the generator give to one creation. *)
Record Moment := mkMoment { now_ms : Z; random_component : Z }.

Definition new_message_id (m : Moment) : bytes :=
  lit "<jmap-" ++ to_decimal (now_ms m) ++ lit "." ++ hex_digits 16 (random_component m) ++ lit "@stoa.local>".

(** The header lines, in order. *)
Definition jmap_headers (groups : list bytes) (from_email subject : bytes) (m : Moment) : list bytes :=
  [lit "Newsgroups: " ++ join (lit ", ") groups;
   lit "From: " ++ from_email;
   lit "Subject: " ++ subject;
   lit "Date: " ++ to_rfc2822 (now_ms m);
   lit "Message-ID: " ++ new_message_id m].

Definition subject_of (obj : Json) : bytes := strip_crlf (default (lit "(no subject)") (get (lit "subject") obj ≫= as_str)).
Definition body_of (obj : Json) : bytes := strip_nul (default [] (first_member (lit "textBody") (lit "value") obj)).

(** The sender and the text of the article. *)
Definition compose (names : gmap bytes bytes) (obj : Json) (m : Moment) : result bytes (bytes * bytes) :=
  from_email ← sender obj;
  groups ← newsgroup_names names obj;
  Ok (from_email, article (jmap_headers groups from_email (subject_of obj) m) (body_of obj)).

Inductive MessageType := Transactional | Bulk | System.
Record OutboundEnvelope := mkEnvelope { mail_from : bytes; rcpt_to : list bytes; message : bytes; message_type : MessageType }.

Definition recipients (obj : Json) : list bytes :=
  extract_email_addrs (get (lit "to") obj) ++ extract_email_addrs (get (lit "cc") obj).

Section Create.
Context {I M W : Type} {store : IpfsBlockStore I} {mids : MsgIdStore M}.
Context (mailer : option (OutboundEnvelope → prog W () ())).

Definition create_one_email (names : gmap bytes bytes) (obj : Json) (m : Moment) : prog ((I * M) * W) bytes Cid := λ s,
  match compose names obj m with
  | Err e => (Err e, s)
  | Ok (from_email, text) =>
      match write_article_to_ipfs text (new_message_id m) s.1 with
      | (Err _, st) => (Err WRITE_FAILED, (st, s.2))
      | (Ok c, st) =>
          let w := match mailer, recipients obj with
                   | Some send, (_ :: _) as rcpts => (send (mkEnvelope from_email rcpts text Transactional) s.2).2
                   | _, _ => s.2
                   end in
          (Ok c, (st, w))
      end
  end.

(** The created identifiers and the refusals, by creation id. *)
Fixpoint create_each (names : gmap bytes bytes) (l : list (bytes * Json)) (ms : list Moment) (s : (I * M) * W) :
    (list (bytes * bytes) * list (bytes * bytes)) * ((I * M) * W) :=
  match l, ms with
  | (k, obj) :: l', m :: ms' =>
      let '(r, s') := create_one_email names obj m s in
      let '((created, refused), s'') := create_each names l' ms' s' in
      (match r with
       | Ok c => ((k, cid_to_string c) :: created, refused)
       | Err e => (created, (k, e) :: refused)
       end, s'')
  | _, _ => (([], []), s)
  end.

(** [ms] gives each creation its moment. *)
Definition handle_email_create (create_map : list (bytes * Json)) (groups : list bytes) (ms : list Moment) (s : (I * M) * W) :
    (list (bytes * bytes) * list (bytes * bytes)) * ((I * M) * W) :=
  create_each (id_to_group groups) create_map ms s.

End Create.

(** ** The articles made *)

Definition one_line (s : bytes) : Prop := CR ∉ s ∧ LF ∉ s.

Lemma one_line_app a b : one_line (a ++ b) ↔ one_line a ∧ one_line b.
Proof. unfold one_line. set_solver. Qed.

Lemma one_line_Forall s : Forall (λ c, 14 <= c) s → one_line s.
Proof. intros H. split; intros Hin; rewrite Forall_forall in H; apply H in Hin; unfold CR, LF in Hin; lia. Qed.

Lemma strip_crlf_line s : one_line (strip_crlf s).
Proof. split; intros H%list_elem_of_In; apply filter_In in H as [_ H]; by vm_compute in H. Qed.

Lemma join_line sep l : one_line sep → Forall one_line l → one_line (join sep l).
Proof.
  intros Hsep. induction 1 as [|x [|y l'] Hx Hl IH]; [split; apply not_elem_of_nil|done|].
  change (one_line (x ++ sep ++ join sep (y :: l'))). by rewrite !one_line_app.
Qed.

Lemma hex_digits_line n x : one_line (hex_digits n x).
Proof.
  apply one_line_Forall. revert x. induction n as [|n IH]; intros x; [constructor|]. cbn [hex_digits].
  apply Forall_app. split; [apply IH|]. constructor; [|constructor]. unfold hex_digit.
  pose proof (Z.mod_pos_bound x 16 ltac:(lia)). case_match; lia.
Qed.

Lemma to_decimal_line x : one_line (to_decimal x).
Proof.
  apply one_line_Forall. unfold to_decimal. generalize 20%nat. intros n. revert x.
  induction n as [|n IH]; intros x; [constructor|]. cbn [dec_digits]. apply Forall_app. split.
  - case_match; [constructor|apply IH].
  - constructor; [|constructor]. pose proof (Z.mod_pos_bound x 10 ltac:(lia)). lia.
Qed.

Lemma lit_line s : forallb (Z.leb 14) (lit s) = true → one_line (lit s).
Proof. intros H. apply one_line_Forall. apply Forall_forall. intros c Hc%list_elem_of_In. rewrite forallb_forall in H. apply Z.leb_le. auto. Qed.

Lemma traverse_Ok {E A B} (f : A → result E B) l r : traverse f l = Ok r → Forall2 (λ x y, f x = Ok y) l r.
Proof.
  revert r. induction l as [|x l IH]; intros r; cbn; [intros [= <-]; constructor|].
  destruct (f x) as [y|] eqn:Ey; cbn; [|done]. destruct (traverse f l) as [ys|]; cbn; [|done].
  intros [= <-]. constructor; auto.
Qed.

Lemma id_to_group_Some groups id g : id_to_group groups !! id = Some g → g ∈ groups ∧ id = mailbox_id_for_group g.
Proof.
  intros H%elem_of_list_to_map_2. apply list_elem_of_fmap in H as (x & [= -> ->] & Hx).
  split; [|done]. by apply list_elem_of_In, in_rev, list_elem_of_In.
Qed.

Definition requested (obj : Json) : list bytes := from_option (λ m, m.*1) [] (get (lit "mailboxIds") obj ≫= as_object).

Lemma newsgroup_names_Ok groups obj gs :
  newsgroup_names (id_to_group groups) obj = Ok gs →
  gs ≠ [] ∧ Forall2 (λ id g, g ∈ groups ∧ id = mailbox_id_for_group g) (requested obj) gs.
Proof.
  unfold newsgroup_names. fold (requested obj). case_bool_decide as Hne; [done|]. intros H%traverse_Ok. split.
  - intros ->. by apply Forall2_nil_inv_r in H.
  - eapply Forall2_impl; [exact H|]. cbn. intros id g Hg. apply id_to_group_Some. by destruct (id_to_group groups !! id); simplify_eq.
Qed.

Lemma sender_Ok obj f : sender obj = Ok f → one_line f ∧ is_valid_addr_spec f = true.
Proof.
  unfold sender. destruct (first_member _ _ _) as [s|]; [|done]. destruct (is_valid_addr_spec (strip_crlf s)) eqn:E; [|done].
  intros [= <-]. split; [apply strip_crlf_line|done].
Qed.

Lemma header_clean s v : lit s ≠ [] → forallb (Z.leb 14) (lit s) = true → one_line v → clean_line (lit s ++ v).
Proof.
  intros Hne Hs%lit_line Hv. split; [by intros [? _]%app_nil|]. by apply one_line_app.
Qed.

Lemma jmap_headers_clean gs f subj m :
  Forall one_line gs → one_line f → one_line subj → one_line (to_rfc2822 (now_ms m)) →
  Forall clean_line (jmap_headers gs f subj m).
Proof.
  intros Hgs Hf Hs Hd. assert (Hid : one_line (new_message_id m)).
  { unfold new_message_id. rewrite !one_line_app. split_and!; (apply to_decimal_line || apply hex_digits_line || by apply lit_line). }
  unfold jmap_headers. repeat apply Forall_cons_2; try apply Forall_nil_2.
  all: apply header_clean; [done|done|done || (apply join_line; [by apply lit_line|done])].
Qed.

(** C20. Email/set: the article made from an Email object has exactly the five
    header lines the server writes, whatever strings the object holds, and the
    body of the object after them: nothing in it can add a header or end the
    headers early.  The sender is one valid address, and the groups are known
    ones, those whose mailboxes the object names. *)
Theorem jmap_article_genuine (groups : list bytes) (obj : Json) (m : Moment) (from text : bytes) :
  Forall one_line groups → one_line (to_rfc2822 (now_ms m)) →
  compose (id_to_group groups) obj m = Ok (from, text) →
  ∃ gs h, Forall2 (λ id g, g ∈ groups ∧ id = mailbox_id_for_group g) (requested obj) gs ∧ gs ≠ [] ∧
    is_valid_addr_spec from = true ∧
    Forall clean_line (jmap_headers gs from (subject_of obj) m) ∧
    render (jmap_headers gs from (subject_of obj) m) = h ++ CRLF ∧
    split_header_body text = (h, body_of obj).
Proof.
  intros Hg Hd Hc. unfold compose in Hc. destruct (sender obj) as [f|] eqn:Ef; cbn in Hc; [|done].
  destruct (newsgroup_names _ obj) as [gs|] eqn:Egs; cbn in Hc; [|done]. injection Hc as -> <-.
  apply sender_Ok in Ef as [Hf Hvalid]. apply newsgroup_names_Ok in Egs as [Hne Hgs].
  assert (Hclean : Forall clean_line (jmap_headers gs from (subject_of obj) m)).
  { apply jmap_headers_clean; [|done|apply strip_crlf_line|done]. apply Forall_forall. intros g Hin.
    apply list_elem_of_lookup in Hin as [i Hi]. destruct (Forall2_lookup_r _ _ _ _ _ Hgs Hi) as (id & _ & Hin & _).
    by eapply Forall_forall in Hg. }
  destruct (split_clean (jmap_headers gs from (subject_of obj) m) (body_of obj)) as (h & Hr & Hs); [done..|]. by exists gs, h.
Qed.

(** ** What Email/get answers *)

Section GetSpec.
Context {I M W : Type} {store : IpfsBlockStore I} {mids : MsgIdStore M} {ipld : IpldLib}.
Context {iview : BlockStoreView I} {ilaws : BlockStoreLaws I} {claws : CidLaws cid}.
Context (mailer : option (OutboundEnvelope → prog W () ())).

(** A [struct] is decoded from a CBOR map or array: the major type of the first
    byte is 4 or 5. *)
Definition decodes_structs : Prop := ∀ b n, root_decode b = Ok n → ∃ c b', b = c :: b' ∧ 4 <= Z.shiftr c 5 <= 5.

Lemma compose_not_cbor names obj m from text :
  decodes_structs → compose names obj m = Ok (from, text) → ∀ n, root_decode text ≠ Ok n.
Proof.
  intros Hdec Hc n Hn. destruct (Hdec _ _ Hn) as (c & b' & -> & Hmajor). unfold compose in Hc.
  destruct (sender obj); cbn in Hc; [|done]. destruct (newsgroup_names names obj); cbn in Hc; [|done].
  injection Hc as _ <- _. by vm_compute in Hmajor; destruct Hmajor.
Qed.

Lemma write_article_held text mid (s s' : I * M) c :
  sound s.1 → write_article_to_ipfs text mid s = (Ok c, s') → sound s'.1 ∧ held s'.1 !! c = Some text.
Proof.
  destruct s as [i m]. cbn [fst]. intros Hs. unfold write_article_to_ipfs, refuse_known, on_msgids, on_store, mbind, prog_bind.
  cbn [fst snd]. destruct (lookup_by_msgid mid m) as [[[?|]|?] m1]; cbn [map_err mret prog_ret]; [done| |done].
  pose proof (put_raw_ok text i Hs) as Hput. cbn [fst snd]. destruct (put_raw text i) as [[c'|?] i']; cbn [map_err]; [|done].
  destruct Hput as (Hs' & _ & Hheld & _). cbn [fst snd]. destruct (msgid_insert mid c' m1) as [[[]|?] m2]; cbn; [|done].
  intros [= -> <-]. cbn. by rewrite Hheld, lookup_insert_eq.
Qed.

(** Email/set and Email/get do not agree on what an identifier names: the
    article of a created Email is one raw block, Email/get decodes a root node,
    so the identifier the client is given is never found. *)
Theorem created_email_not_found names obj m (s s' : (I * M) * W) c smtp :
  sound s.1.1 → decodes_structs → starts_with (cid_to_string c) SMTP_PREFIX = false →
  create_one_email mailer names obj m s = (Ok c, s') →
  (handle_email_get [cid_to_string c] smtp s'.1.1).1 = Ok ([], [cid_to_string c]).
Proof.
  intros Hs Hdec Hpre. unfold create_one_email. destruct (compose names obj m) as [[from text]|] eqn:Ec; [|done].
  destruct (write_article_to_ipfs text (new_message_id m) s.1) as [[c'|?] st] eqn:Ew; [|done]. intros [= -> <-]. cbn [fst].
  apply write_article_held in Ew as [Hs' Hheld]; [|done]. unfold handle_email_get. cbn [omap list_omap].
  assert (Hrow : smtp_row (cid_to_string c) = None).
  { unfold smtp_row. destruct (strip_prefix _ _) as [r|] eqn:E; [|done]. apply strip_prefix_Some in E.
    enough (starts_with (cid_to_string c) SMTP_PREFIX = true) by congruence. apply starts_with_spec. eauto. }
  rewrite Hrow. cbn [get_each]. rewrite Hpre. unfold fetch_email. rewrite cid_string_roundtrip.
  pose proof (get_raw_ok c st.1 Hs') as Hget. destruct (get_raw c st.1) as [[raw|err] i'].
  - destruct Hget as (_ & Hraw & _). rewrite Hheld in Hraw. injection Hraw as <-.
    destruct (root_decode text) as [n|] eqn:En; [by destruct (compose_not_cbor _ _ _ _ _ Hdec Ec n)|]. by destruct smtp.
  - destruct err, smtp; done.
Qed.

End GetSpec.

(** ** A message that breaks Email/get *)

Definition crossed_brackets (f : bytes) : Prop :=
  ∃ lt gt, rfind_char LT (trim f) = Some lt ∧ rfind_char GT (trim f) = Some gt ∧ (gt <= lt)%nat.

Lemma crossed_panics f : crossed_brackets f → from_address f = Err SlicePanics.
Proof.
  intros (lt & gt & Hlt & Hgt & Hle). unfold from_address. rewrite Hlt, Hgt. unfold slice.
  by rewrite (proj2 (Nat.leb_gt _ _)) by lia.
Qed.

Lemma traverse_Err {A B} (f : A → result Fault B) l x : x ∈ l → f x = Err SlicePanics → traverse f l = Err SlicePanics.
Proof.
  intros Hin Hx. induction Hin as [x l|x y l Hin IH]; cbn; [by rewrite Hx|].
  destruct (f y) as [z|[]]; cbn; [|done]. by rewrite IH.
Qed.

(** C40. A message someone sends, with a From header in which the last closing
    bracket comes before the last opening one, makes every Email/get that names
    it panic, so that the other messages asked for are not returned either. *)
Theorem one_mail_breaks_email_get {I} {store : IpfsBlockStore I} {ipld : IpldLib} (ids : list bytes) id row (t : Messages) g f (i : I) (p : Pool Messages) :
  id ∈ ids → smtp_row id = Some row → rows p = t → pool_reliable p → t !! row = Some g →
  header_of (lit "From") (default [] (parse_mail (mg_raw g))) = Some f → crossed_brackets f →
  (handle_email_get ids (Some p) i).1 = Err SlicePanics.
Proof.
  intros Hid Hrow Ht Hp Hg Hf Hx. unfold handle_email_get.
  assert (Hin : row ∈ omap smtp_row ids) by (apply list_elem_of_omap; eauto).
  rewrite bool_decide_eq_false_2 by (intros E; rewrite E in Hin; by apply not_elem_of_nil in Hin).
  unfold fetch_smtp_emails_batch, fetch_smtp_messages_batch.
  destruct (select_reliable (λ t : Messages, filter (λ kv : Z * MessageRow, kv.1 ∈ omap smtp_row ids) t) p Hp) as (p' & -> & _ & _).
  rewrite Ht, (traverse_Err _ _ (row, g)); [done| |].
  - apply elem_of_map_to_list, map_lookup_filter_Some. done.
  - unfold smtp_email, from_smtp_message. cbn [fst snd]. by rewrite Hf, (crossed_panics f Hx).
Qed.

End Email.

(** ** Witnesses *)

Module EmailSamples.
Import ToyCrypto PostChecks.HeaderSample IpldSamples SqliteStorage.SqlSamples MsgIdSamples ReaderStoreSamples.

(** Every message has the header From: [a> <]. *)
#[export] Instance toy_mail : MailLib := {|
  parse_mail _ := Some [(lit "from", lit "a> <")];
  hlc_ms_to_rfc3339 _ := lit "1970-01-01T00:00:00+00:00";
  to_rfc2822 _ := lit "Thu, 1 Jan 1970 00:00:00 +0000";
  base64url b := b;
  base32 b := b
|}.

(** Root nodes as maps: [0xa6] before the toy encoding. *)
#[export] Instance map_ipld : IpldLib (lib := toy_cid) := {|
  root_encode n := b ← root_encode n; Ok (0xa6 :: b);
  root_decode b := match b with 0xa6 :: b' => root_decode b' | _ => Err (lit "cbor") end;
  header_map_encode := header_map_encode;
  mime_encode := mime_encode;
  parse_content_type := parse_content_type;
  rfc2822_to_rfc3339 := rfc2822_to_rfc3339;
  qp_decode := qp_decode;
  b64_standard_decode := b64_standard_decode
|}.

Definition group : bytes := lit "a.b".
Definition draft : Json := JObj [
  (lit "subject", JStr (lit "hi" ++ CRLF ++ lit "Approved: yes"));
  (lit "from", JArr [JObj [(lit "email", JStr (lit "me@x"))]]);
  (lit "mailboxIds", JObj [(mailbox_id_for_group group, JBool true)]);
  (lit "textBody", JArr [JObj [(lit "value", JStr (lit "text"))]])].
Definition moment : Moment := mkMoment 12 255.

Lemma genuine_witness :
  ∃ from text, compose (id_to_group [group]) draft moment = Ok (from, text) ∧
    ∃ gs h, is_valid_addr_spec from = true ∧ render (jmap_headers gs from (subject_of draft) moment) = h ++ CRLF ∧
      split_header_body text = (h, body_of draft).
Proof.
  destruct (compose (id_to_group [group]) draft moment) as [[from text]|] eqn:E; [|vm_compute in E; discriminate E].
  exists from, text. split; [done|].
  destruct (jmap_article_genuine [group] draft moment from text) as (gs & h & _ & _ & H1 & _ & H2 & H3);
    [repeat constructor; by apply (bool_decide_eq_true_1 _)|split; by apply (bool_decide_eq_true_1 _)|done|].
  exists gs, h. split_and!; assumption.
Defined.

Definition bad_row : MessageRow := mkMessage (lit "x") (lit "inbox") (lit "2024-01-01 00:00:00").
Definition mail : gmap Z MessageRow := {[ 7 := bad_row ]}.

Lemma breaks_witness : (handle_email_get [lit "x"; lit "smtp:7"] (Some (mkPool mail [])) store_new).1 = Err SlicePanics.
Proof.
  apply (one_mail_breaks_email_get [lit "x"; lit "smtp:7"] (lit "smtp:7") 7 mail bad_row (lit "a> <") store_new (mkPool mail []));
    [by right; left|vm_compute; reflexivity|reflexivity|constructor|apply lookup_singleton_eq|reflexivity|].
  exists 3%nat, 1%nat. split_and!; [reflexivity|reflexivity|lia].
Defined.

Lemma map_decodes : decodes_structs (ipld := map_ipld).
Proof. intros [|c b] n; [done|]. intros H. exists c, b. split; [done|]. cbn in H. by repeat (case_match; try done). Qed.

Definition sent := create_one_email (W := ()) None (id_to_group [group]) draft moment ((store_new, sql_msgids_new), tt).

Definition sent_id : Cid := match sent.1 with Ok c => c | Err _ => cid_new_v1 0 0 [] end.

Lemma not_found_witness :
  sent.1 = Ok sent_id ∧ (handle_email_get [cid_to_string sent_id] None sent.2.1.1).1 = Ok ([], [cid_to_string sent_id]).
Proof.
  assert (E : sent.1 = Ok sent_id) by (vm_compute; reflexivity). split; [exact E|].
  apply (created_email_not_found None (id_to_group [group]) draft moment ((store_new, sql_msgids_new), tt) sent.2);
    [exact I|apply map_decodes|vm_compute; reflexivity|]. change (sent = (Ok sent_id, sent.2)). rewrite <- E. apply surjective_pairing.
Defined.

End EmailSamples.

End MailEmail.
