(* ===== verification/MailState.v ===== *)
(** Per-user state of the JMAP server: [crates/mail/src/state] (subscriptions,
    flags, versions, change log), [email/set.rs], [mailbox/set.rs], the methods
    Email/set and Mailbox/set of [server.rs] and [get_changes] of
    [jmap/backend.rs].

    [changes_complete]: a client that asks Email/changes for what happened since
    the state it holds is told of exactly the Emails set since.
    [change_lost_in_between] and [delivered_mail_not_reported] are the two ways it
    is not told: it asks between the statements of an Email/set, or the
    change is mail that came in.  [refused_update_applied]: an update that is
    refused takes effect.  [preferences_never_stored]: without a row in [users],
    which nothing inserts, no flag and no subscription is ever stored. *)

From S2P Require Import Prelude Bytes Utf8 Decimal Article Headers Crypto LogEntry Sql SqliteStorage MsgIdMap NntpResponse Injection PostChecks Ipld ReaderStore SmtpText SmtpStore SmtpDelivery Json MailEmail.

Module MailState.
Import Decimal Article Json ReaderStore MsgIdMap MailEmail Sql.

(** ** Tables *)

Inductive Change := Created | Updated | Destroyed.

Record LogRow := mkLogRow { lr_user : Z; lr_seq : Z; lr_scope : bytes; lr_item : bytes; lr_change : Change }.

Record Flags := mkFlags { seen : bool; flagged : bool }.

(** [users] is by name; the log in the order of insertion; of the tables
    [messages] and [state_version] the SMTP server writes rows, too. *)
Record MailTables := mkTables {
  tb_users : gmap bytes Z;
  tb_subscriptions : gmap (Z * bytes) Z;
  tb_flags : gmap (Z * bytes) Flags;
  tb_versions : gmap (Z * bytes) Z;
  tb_log : list LogRow;
  tb_messages : list SmtpDelivery.MailRow
}.

Definition with_subscriptions (m : gmap (Z * bytes) Z) (t : MailTables) : MailTables :=
  mkTables (tb_users t) m (tb_flags t) (tb_versions t) (tb_log t) (tb_messages t).
Definition with_flags (m : gmap (Z * bytes) Flags) (t : MailTables) : MailTables :=
  mkTables (tb_users t) (tb_subscriptions t) m (tb_versions t) (tb_log t) (tb_messages t).
Definition with_versions (m : gmap (Z * bytes) Z) (t : MailTables) : MailTables :=
  mkTables (tb_users t) (tb_subscriptions t) (tb_flags t) m (tb_log t) (tb_messages t).
Definition with_log (l : list LogRow) (t : MailTables) : MailTables :=
  mkTables (tb_users t) (tb_subscriptions t) (tb_flags t) (tb_versions t) l (tb_messages t).

(** [FOREIGN KEY (user_id) REFERENCES users(id)]. *)
Definition user_exists (user : Z) (t : MailTables) : bool := bool_decide (user ∈ (map_to_list (tb_users t)).*2).

(** A statement the database refuses when the constraint [ok] fails. *)
Definition execute_if (ok : MailTables → bool) (f : MailTables → MailTables) : prog (Pool MailTables) () () := λ p,
  match round_trip p with
  | (Ok _, p') => if ok (rows p') then (Ok tt, mkPool (f (rows p')) (faults p')) else (Err tt, p')
  | (Err e, p') => (Err e, p')
  end.

Definition SINGLETON_USER_ID : Z := 1.

Definition resolve_user_id (username : bytes) : prog (Pool MailTables) () (option Z) :=
  select (λ t : MailTables, Some (default SINGLETON_USER_ID (tb_users t !! username))).

(** ** Subscriptions *)

Definition subscribe (user : Z) (group : bytes) (now : Z) : prog (Pool MailTables) () () :=
  execute_if (user_exists user) (λ t,
    with_subscriptions (match tb_subscriptions t !! (user, group) with
                        | Some _ => tb_subscriptions t
                        | None => <[ (user, group) := now ]> (tb_subscriptions t)
                        end) t).

Definition unsubscribe (user : Z) (group : bytes) : prog (Pool MailTables) () () :=
  execute (λ t, with_subscriptions (base.delete (user, group) (tb_subscriptions t)) t).

Definition is_subscribed (user : Z) (group : bytes) : prog (Pool MailTables) () bool :=
  select (λ t, bool_decide (is_Some (tb_subscriptions t !! (user, group)))).

(** In the order of the names in the code. *)
Definition list_subscribed (user : Z) : prog (Pool MailTables) () (list bytes) :=
  select (λ t, snd <$> List.filter (λ k, k.1 =? user) (map_to_list (tb_subscriptions t)).*1).

(** ** Versions *)

Definition version (user : Z) (scope : bytes) (t : MailTables) : Z := default 0 (tb_versions t !! (user, scope)).

Definition get_state (user : Z) (scope : bytes) : prog (Pool MailTables) () bytes :=
  select (λ t, i64_to_string (version user scope t)).

Definition bump (user : Z) (scope : bytes) (t : MailTables) : MailTables :=
  with_versions (<[ (user, scope) := version user scope t + 1 ]> (tb_versions t)) t.

(** [INSERT ... ON CONFLICT DO UPDATE ... RETURNING version]. *)
Definition bump_state (user : Z) (scope : bytes) : prog (Pool MailTables) () bytes := λ p,
  match round_trip p with
  | (Ok _, p') => let t' := bump user scope (rows p') in (Ok (i64_to_string (version user scope t')), mkPool t' (faults p'))
  | (Err e, p') => (Err e, p')
  end.

(** ** The change log *)

Definition same_key (a b : LogRow) : bool :=
  (lr_user a =? lr_user b) && (lr_seq a =? lr_seq b) && bool_decide (lr_scope a = lr_scope b) && bool_decide (lr_item a = lr_item b).

Definition insert_or_ignore (l : list LogRow) (r : LogRow) : list LogRow := if existsb (same_key r) l then l else l ++ [r].

Definition record_action (user : Z) (scope : bytes) (item_ids : list bytes) (seq : Z) (change : Change) : prog (Pool MailTables) () () :=
  if bool_decide (item_ids = []) then mret tt
  else execute (λ t, with_log (foldl insert_or_ignore (tb_log t) ((λ id, mkLogRow user seq scope id change) <$> item_ids)) t).

Definition record_created (user : Z) (scope : bytes) (item_ids : list bytes) (seq : Z) : prog (Pool MailTables) () () :=
  record_action user scope item_ids seq Created.
Definition record_updated (user : Z) (scope : bytes) (item_ids : list bytes) (seq : Z) : prog (Pool MailTables) () () :=
  record_action user scope item_ids seq Updated.

#[export] Instance change_eq_dec : EqDecision Change.
Proof. solve_decision. Defined.

Definition seq_le (a b : LogRow) : Prop := lr_seq a <= lr_seq b.
#[export] Instance seq_le_dec : RelDecision seq_le := λ a b, Z_le_dec (lr_seq a) (lr_seq b).

Definition since (user : Z) (scope : bytes) (since_seq : Z) (l : list LogRow) : list LogRow :=
  merge_sort seq_le (List.filter (λ r, (lr_user r =? user) && bool_decide (lr_scope r = scope) && (since_seq <? lr_seq r)) l).

Definition items (c : Change) (l : list LogRow) : list bytes := lr_item <$> List.filter (λ r, bool_decide (lr_change r = c)) l.

Definition query_since (user : Z) (scope : bytes) (since_seq : Z) : prog (Pool MailTables) () (list bytes * list bytes * list bytes) :=
  select (λ t, let l := since user scope since_seq (tb_log t) in (items Created l, items Updated l, items Destroyed l)).

(** ** Email/changes *)

Definition EMAIL : bytes := lit "Email".
Definition MAILBOX : bytes := lit "Mailbox".

Inductive ChangesError := TooManyChanges | Other.

Record ChangesResult := mkChanges { ch_created : list bytes; ch_updated : list bytes; ch_destroyed : list bytes; ch_new_state : bytes }.

(** [unwrap_or_else]. *)
Definition or_else {S E A} (d : A) (m : prog S E A) : prog S E A := λ s,
  match m s with (Ok a, s') => (Ok a, s') | (Err _, s') => (Ok d, s') end.

Definition get_changes (type_name : bytes) (user : Z) (since_state : bytes) : prog (Pool MailTables) ChangesError ChangesResult :=
  if bool_decide (type_name = EMAIL) then
    match parse_i64 since_state with
    | Some n =>
        if n <? 0 then throw TooManyChanges
        else
          new_state ← prog_map_err (λ _, Other) (or_else (lit "0") (get_state user EMAIL));
          lists ← prog_map_err (λ _, Other) (query_since user EMAIL n);
          mret (mkChanges lists.1.1 lists.1.2 lists.2 new_state)
    | None => throw TooManyChanges
    end
  else throw TooManyChanges.

(** ** Email/set *)

Section Set_.
Context {lib : MailLib} {cid : CidLib}.

Definition set_flags (user : Z) (c : Cid) (f : Flags) : prog (Pool MailTables) () () :=
  execute_if (user_exists user) (λ t, with_flags (<[ (user, cid_to_bytes c) := f ]> (tb_flags t)) t).

Definition get_flags (user : Z) (c : Cid) : prog (Pool MailTables) () (option Flags) :=
  select (λ t, tb_flags t !! (user, cid_to_bytes c)).

Inductive SetError := NotPermitted | InvalidArguments | ServerFail | NoSuchMailbox.

(** [handle_email_set]: what is refused outright. *)
Definition touches_mailboxes (patch : Json) : bool :=
  bool_decide (is_Some (get (lit "mailboxIds") patch)) ||
  match as_object patch with
  | Some m => existsb (λ kv, starts_with kv.1 (lit "mailboxIds/")) m
  | None => false
  end.

Definition updates (args : Json) : list (bytes * Json) := default [] (get (lit "update") args ≫= as_object).

Definition refused_updates (args : Json) : gmap bytes SetError :=
  list_to_map ((λ kv, (kv.1, NotPermitted)) <$> List.filter (λ kv, touches_mailboxes kv.2) (updates args)).

Definition refused_destroys (args : Json) : gmap bytes SetError :=
  list_to_map ((λ id, (id, NotPermitted)) <$> omap as_str (default [] (get (lit "destroy") args ≫= as_array))).

Definition keyword (k : bytes) (keywords : Json) : bool := default false (get k keywords ≫= as_bool).

(** The identifiers updated, in order, and those not. *)
Fixpoint handle_keyword_update (user : Z) (l : list (bytes * Json)) (p : Pool MailTables) :
    (list bytes * gmap bytes SetError) * Pool MailTables :=
  match l with
  | [] => (([], ∅), p)
  | (id, patch) :: l' =>
      match get (lit "keywords") patch with
      | None => handle_keyword_update user l' p
      | Some keywords =>
          match cid_from_str id with
          | None => let '((u, n), p') := handle_keyword_update user l' p in ((u, <[ id := InvalidArguments ]> n), p')
          | Some c =>
              let '(r, p1) := set_flags user c (mkFlags (keyword (lit "$seen") keywords) (keyword (lit "$flagged") keywords)) p in
              let '((u, n), p') := handle_keyword_update user l' p1 in
              (match r with Ok _ => (id :: u, n) | Err _ => (u, <[ id := ServerFail ]> n) end, p')
          end
      end
  end.

Record EmailSetResponse := mkEmailSet {
  es_old_state : bytes;
  es_new_state : bytes;
  es_created : list (bytes * bytes);
  es_not_created : list (bytes * bytes);
  es_updated : list bytes;
  es_not_updated : gmap bytes SetError;
  es_not_destroyed : gmap bytes SetError
}.

Section Handlers.
Context {I M W : Type} {store : IpfsBlockStore I} {mids : MsgIdStore M}.
Context (mailer : option (OutboundEnvelope → prog W () ())).

Abbreviation World := (Pool MailTables * ((I * M) * W))%type (only parsing).

(** What is written after the handlers: the version, then the log.  A request
    of another connection can be served before each of the three statements,
    and after the last. *)
Inductive Publishing :=
| Bumping
| LoggingCreated (new_state : bytes)
| LoggingUpdated (new_state : bytes)
| Published (new_state : bytes).

Definition new_state_of (old_state : bytes) (s : Publishing) : bytes :=
  match s with Bumping => old_state | LoggingCreated st | LoggingUpdated st | Published st => st end.

Definition new_seq (new_state : bytes) : Z := default 0 (parse_i64 new_state).

(** Up to the next statement. *)
Definition publish_step (user : Z) (old_state : bytes) (created updated : list bytes) (s : Publishing) (p : Pool MailTables) :
    Publishing * Pool MailTables :=
  match s with
  | Bumping =>
      if bool_decide (created = []) && bool_decide (updated = []) then (LoggingCreated old_state, p)
      else match bump_state user EMAIL p with
           | (Ok st, p') => (LoggingCreated st, p')
           | (Err _, p') => (LoggingCreated old_state, p')
           end
  | LoggingCreated new_state => (LoggingUpdated new_state, (record_created user EMAIL created (new_seq new_state) p).2)
  | LoggingUpdated new_state => (Published new_state, (record_updated user EMAIL updated (new_seq new_state) p).2)
  | Published new_state => (s, p)
  end.

Fixpoint publish_steps (k : nat) (user : Z) (old_state : bytes) (created updated : list bytes) (s : Publishing) (p : Pool MailTables) :
    Publishing * Pool MailTables :=
  match k with
  | O => (s, p)
  | S k' =>
      let '(s', p') := publish_step user old_state created updated s p in
      publish_steps k' user old_state created updated s' p'
  end.

Definition publish (user : Z) (old_state : bytes) (created updated : list bytes) (p : Pool MailTables) : bytes * Pool MailTables :=
  let '(s, p') := publish_steps 3 user old_state created updated Bumping p in (new_state_of old_state s, p').

(** Email/set up to [publish].  [groups] is what [list_groups] returns, [ms] the
    moments of the creations. *)
Definition email_work (user : Z) (args : Json) (groups : list bytes) (ms : list Moment) (w : World) : EmailSetResponse * World :=
  let '(old, p0) := get_state user EMAIL w.1 in
  let old_state := match old with Ok s => s | Err _ => lit "0" end in
  let refused := refused_updates args in
  let '((updated, failed), p1) := handle_keyword_update user (updates args) p0 in
  let updated := List.filter (λ id, bool_decide (refused !! id = None)) updated in
  let '((created, not_created), st) :=
    handle_email_create mailer (default [] (get (lit "create") args ≫= as_object)) groups ms w.2 in
  (mkEmailSet old_state old_state created not_created updated (failed ∪ refused) (refused_destroys args), (p1, st)).

Definition with_new_state (new_state : bytes) (r : EmailSetResponse) : EmailSetResponse :=
  mkEmailSet (es_old_state r) new_state (es_created r) (es_not_created r) (es_updated r) (es_not_updated r) (es_not_destroyed r).

Definition email_set (user : Z) (args : Json) (groups : list bytes) (ms : list Moment) (w : World) : EmailSetResponse * World :=
  let '(r, (p, st)) := email_work user args groups ms w in
  let '(new_state, p') := publish user (es_old_state r) (es_created r).*2 (es_updated r) p in
  (with_new_state new_state r, (p', st)).

(** An Email/set of which [k] statements of [publish] are done when another
    connection of the user asks for the changes since the old state. *)
Definition email_set_asked (k : nat) (user : Z) (args : Json) (groups : list bytes) (ms : list Moment) (w : World) :
    result ChangesError ChangesResult * (EmailSetResponse * World) :=
  let '(r, (p, st)) := email_work user args groups ms w in
  let '(s1, p1) := publish_steps k user (es_old_state r) (es_created r).*2 (es_updated r) Bumping p in
  let '(ch, p2) := get_changes EMAIL user (es_old_state r) p1 in
  let '(s2, p3) := publish_steps (3 - k) user (es_old_state r) (es_created r).*2 (es_updated r) s1 p2 in
  (ch, (with_new_state (new_state_of (es_old_state r) s2) r, (p3, st))).

(** ** Mailbox/set *)

Definition is_newsgroup_name (name : bytes) : bool :=
  contains 46 name && match group_new name with Ok _ => true | Err _ => false end.

Fixpoint create_mailboxes (user now : Z) (l : list (bytes * Json)) (p : Pool MailTables) :
    (list (bytes * bytes) * list (bytes * SetError)) * Pool MailTables :=
  match l with
  | [] => (([], []), p)
  | (client_id, props) :: l' =>
      let '(r, p1) :=
        match get (lit "name") props ≫= as_str with
        | None => (Err InvalidArguments, p)
        | Some name =>
            if is_newsgroup_name name then
              match subscribe user name now p with
              | (Ok _, p1) => (Ok (mailbox_id_for_group name), p1)
              | (Err _, p1) => (Err ServerFail, p1)
              end
            else (Err InvalidArguments, p)
        end in
      let '((created, refused), p2) := create_mailboxes user now l' p1 in
      (match r with
       | Ok id => ((client_id, id) :: created, refused)
       | Err e => (created, (client_id, e) :: refused)
       end, p2)
  end.

Fixpoint destroy_mailboxes (user : Z) (names : gmap bytes bytes) (l : list Json) (p : Pool MailTables) :
    (list bytes * list (Json * SetError)) * Pool MailTables :=
  match l with
  | [] => (([], []), p)
  | v :: l' =>
      let '(r, p1) :=
        match as_str v with
        | None => (Err InvalidArguments, p)
        | Some id =>
            match names !! id with
            | None => (Err NoSuchMailbox, p)
            | Some name => match unsubscribe user name p with
                           | (Ok _, p1) => (Ok id, p1)
                           | (Err _, p1) => (Err ServerFail, p1)
                           end
            end
        end in
      let '((destroyed, refused), p2) := destroy_mailboxes user names l' p1 in
      (match r with
       | Ok id => (id :: destroyed, refused)
       | Err e => (destroyed, (v, e) :: refused)
       end, p2)
  end.

Record MailboxSetResponse := mkMailboxSet {
  ms_old_state : bytes;
  ms_new_state : bytes;
  ms_created : list (bytes * bytes);
  ms_not_created : list (bytes * SetError);
  ms_destroyed : list bytes;
  ms_not_destroyed : list (Json * SetError)
}.

Definition handle_mailbox_set (user now : Z) (args : Json) (groups : list bytes) (p : Pool MailTables) :
    ((list (bytes * bytes) * list (bytes * SetError)) * (list bytes * list (Json * SetError))) * Pool MailTables :=
  let '(c, p1) := create_mailboxes user now (default [] (get (lit "create") args ≫= as_object)) p in
  let '(d, p2) := destroy_mailboxes user (id_to_group groups) (default [] (get (lit "destroy") args ≫= as_array)) p1 in
  ((c, d), p2).

Definition mailbox_set (user now : Z) (args : Json) (groups : list bytes) (p : Pool MailTables) : MailboxSetResponse * Pool MailTables :=
  let '(old, p0) := get_state user MAILBOX p in
  let old_state := match old with Ok s => s | Err _ => lit "0" end in
  let '(((created, not_created), (destroyed, not_destroyed)), p1) := handle_mailbox_set user now args groups p0 in
  let '(new_state, p2) :=
    if bool_decide (created = []) && bool_decide (destroyed = []) then (old_state, p1)
    else match bump_state user MAILBOX p1 with
         | (Ok s, p') => (s, p')
         | (Err _, p') => (old_state, p')
         end in
  (mkMailboxSet old_state new_state created not_created destroyed not_destroyed, p2).

End Handlers.
End Set_.

(** ** Statements on a reliable database *)

Lemma parse_i64_string v : 0 <= v < 2 ^ 63 → parse_i64 (i64_to_string v) = Some v.
Proof.
  intros Hv. unfold i64_to_string. rewrite (proj2 (Z.ltb_ge v 0)) by lia. unfold to_decimal.
  destruct (dec_digits_cons 19 v ltac:(lia)) as (c & s & Hs & Hc).
  assert (Hval : dec_value (dec_digits 20 v) = v) by (apply dec_digits_value; cbn; lia).
  pose proof (dec_digits_digit 20 v ltac:(lia)) as Hdig. rewrite Hs in *. unfold parse_i64.
  assert (Hsign : match c :: s with 45 :: s' => (-1, s') | 43 :: s' => (1, s') | _ => (1, c :: s) end = (1, c :: s)).
  { unfold is_ascii_digit in Hc. to_prop. assert (Hr : In c (seqZ 48 10)) by (apply list_elem_of_In, elem_of_seqZ; lia).
    cbn in Hr. by repeat destruct Hr as [<-|Hr]. }
  rewrite Hsign. rewrite bool_decide_eq_false_2 by done.
  rewrite (proj2 (forallb_forall _ _)) by (by setoid_rewrite <- list_elem_of_In; apply Forall_forall).
  cbn [negb orb]. rewrite Hval, Z.mul_1_l.
  rewrite (proj2 (Z.leb_le _ _)), (proj2 (Z.ltb_lt _ _)) by lia. done.
Qed.

Lemma execute_if_reliable ok f p :
  pool_reliable p →
  ∃ p', execute_if ok f p = (if ok (rows p) then Ok tt else Err tt, p') ∧ pool_reliable p' ∧
        rows p' = if ok (rows p) then f (rows p) else rows p.
Proof.
  intros (p' & E & Hr & Hp)%round_trip_reliable. unfold execute_if. rewrite E, Hr. destruct (ok (rows p)); by eexists.
Qed.

Lemma version_bump user scope t : version user scope (bump user scope t) = version user scope t + 1.
Proof. unfold version at 1, bump. cbn [tb_versions with_versions]. by rewrite lookup_insert_eq. Qed.

Lemma version_bump_ne user scope user' scope' t :
  (user, scope) ≠ (user', scope') → version user' scope' (bump user scope t) = version user' scope' t.
Proof. intros Hne. unfold version at 1, bump. cbn [tb_versions with_versions]. by rewrite lookup_insert_ne. Qed.

Lemma bump_state_reliable user scope p :
  pool_reliable p →
  ∃ p', bump_state user scope p = (Ok (i64_to_string (version user scope (rows p) + 1)), p') ∧ pool_reliable p' ∧
        rows p' = bump user scope (rows p).
Proof.
  intros (p' & E & Hr & Hp)%round_trip_reliable. unfold bump_state. rewrite E, Hr. cbn zeta. rewrite version_bump. by eexists.
Qed.

(** ** What the log says *)

(** The user is told of [id] when asking for the changes since [n]. *)
Definition reported (user n : Z) (t : MailTables) (id : bytes) : Prop :=
  ∃ r, r ∈ tb_log t ∧ lr_user r = user ∧ lr_scope r = EMAIL ∧ n < lr_seq r ∧ lr_item r = id.

(** No row of the log is ahead of the version. *)
Definition log_ok (t : MailTables) : Prop :=
  ∀ r, r ∈ tb_log t → lr_scope r = EMAIL → lr_seq r <= version (lr_user r) EMAIL t.

Lemma nothing_new user t id : log_ok t → ¬ reported user (version user EMAIL t) t id.
Proof. intros Hok (r & Hr & <- & Hs & Hn & _). specialize (Hok r Hr Hs). lia. Qed.

Lemma elem_of_items c l id : id ∈ items c l ↔ ∃ r, r ∈ l ∧ lr_change r = c ∧ lr_item r = id.
Proof.
  unfold items. rewrite list_elem_of_fmap. setoid_rewrite list_elem_of_In. setoid_rewrite filter_In.
  setoid_rewrite bool_decide_eq_true. naive_solver.
Qed.

Lemma elem_of_since user n l r : r ∈ since user EMAIL n l ↔ r ∈ l ∧ lr_user r = user ∧ lr_scope r = EMAIL ∧ n < lr_seq r.
Proof.
  unfold since. rewrite merge_sort_Permutation, list_elem_of_In, filter_In, <- list_elem_of_In, !andb_true_iff, bool_decide_eq_true,
    Z.eqb_eq, Z.ltb_lt. tauto.
Qed.

Definition changed (ch : ChangesResult) : list bytes := ch_created ch ++ ch_updated ch ++ ch_destroyed ch.

(** [get_changes] tells what the log says. *)
Lemma get_changes_reported user n p :
  pool_reliable p → 0 <= n < 2 ^ 63 →
  ∃ ch p', get_changes EMAIL user (i64_to_string n) p = (Ok ch, p') ∧ pool_reliable p' ∧ rows p' = rows p ∧
    ch_new_state ch = i64_to_string (version user EMAIL (rows p)) ∧ ∀ id, id ∈ changed ch ↔ reported user n (rows p) id.
Proof.
  intros Hp Hn. unfold get_changes. rewrite bool_decide_eq_true_2 by done. rewrite parse_i64_string by done.
  rewrite (proj2 (Z.ltb_ge n 0)) by lia. unfold mbind, prog_bind, prog_map_err, or_else, get_state, query_since.
  destruct (select_reliable (λ t, i64_to_string (version user EMAIL t)) p Hp) as (p1 & -> & Hr1 & Hp1). cbn [map_err].
  match goal with |- context [ select ?f p1 ] => destruct (select_reliable f p1 Hp1) as (p2 & -> & Hr2 & Hp2) end.
  eexists _, p2. split; [reflexivity|]. split_and!; [done|congruence|done|]. intros id. rewrite Hr1. cbn.
  unfold changed. cbn. rewrite !elem_of_app, !elem_of_items. unfold reported. setoid_rewrite elem_of_since.
  split; [naive_solver|]. intros (r & ? & ? & ? & ? & ?). destruct (lr_change r) eqn:E; [left|right; left|right; right]; eauto 10.
Qed.

(** ** Recording *)

Lemma same_key_true a b :
  same_key a b = true ↔ lr_user a = lr_user b ∧ lr_seq a = lr_seq b ∧ lr_scope a = lr_scope b ∧ lr_item a = lr_item b.
Proof. unfold same_key. rewrite !andb_true_iff, !Z.eqb_eq, !bool_decide_eq_true. tauto. Qed.

Definition key_of (r : LogRow) : Z * Z * bytes * bytes := (lr_user r, lr_seq r, lr_scope r, lr_item r).

(** A row that is ignored has its key in the log. *)
Lemma keys_insert l rs k : k ∈ key_of <$> foldl insert_or_ignore l rs ↔ k ∈ key_of <$> l ∨ k ∈ key_of <$> rs.
Proof.
  revert l. induction rs as [|r rs IH]; intros l; cbn [foldl fmap list_fmap]; [set_solver|].
  rewrite IH, elem_of_cons. unfold insert_or_ignore. destruct (existsb (same_key r) l) eqn:E.
  - apply existsb_exists in E as (r' & Hr'%list_elem_of_In & (H1 & H2 & H3 & H4)%same_key_true).
    assert (key_of r ∈ key_of <$> l); [|naive_solver].
    apply list_elem_of_fmap. exists r'. split; [|done]. unfold key_of. congruence.
  - rewrite fmap_app, elem_of_app. cbn [fmap list_fmap]. rewrite list_elem_of_singleton. tauto.
Qed.

Lemma reported_keys user n t id : reported user n t id ↔ ∃ q, n < q ∧ (user, q, EMAIL, id) ∈ key_of <$> tb_log t.
Proof.
  setoid_rewrite list_elem_of_fmap. unfold reported, key_of. split.
  - intros (r & Hr & <- & <- & Hn & <-). by exists (lr_seq r); split; [done|]; exists r.
  - intros (q & Hn & r & [= -> -> -> ->] & Hr). by exists r.
Qed.

Lemma log_ok_keys t : log_ok t ↔ ∀ u q id, (u, q, EMAIL, id) ∈ key_of <$> tb_log t → q <= version u EMAIL t.
Proof.
  unfold log_ok. setoid_rewrite list_elem_of_fmap. unfold key_of. split.
  - intros H u q id (r & [= -> -> Hs ->] & Hr). by apply H.
  - intros H r Hr Hs. apply (H _ _ (lr_item r)). exists r. by rewrite Hs.
Qed.

(** The rows [record_action] writes, as keys. *)
Lemma log_reliable user scope ids seq c p :
  pool_reliable p →
  ∃ p', record_action user scope ids seq c p = (Ok tt, p') ∧ pool_reliable p' ∧
    tb_versions (rows p') = tb_versions (rows p) ∧
    ∀ k, k ∈ key_of <$> tb_log (rows p') ↔ k ∈ key_of <$> tb_log (rows p) ∨ ∃ id, id ∈ ids ∧ k = (user, seq, scope, id).
Proof.
  intros Hp. unfold record_action. case_bool_decide as Hids.
  - exists p. split_and!; [done..|]. intros k. subst. split; [by left|]. intros [?|(? & ?%not_elem_of_nil & _)]; done.
  - match goal with |- context [ execute ?f p ] => destruct (execute_reliable f p Hp) as (p' & -> & Hr & Hp') end.
    exists p'. rewrite Hr. split_and!; [done..|]. intros k. cbn [tb_log with_log]. rewrite keys_insert.
    rewrite <- list_fmap_compose. apply or_iff_compat_l. rewrite list_elem_of_fmap. cbn. split; intros (x & ? & ?); by exists x.
Qed.

Lemma publish_reliable user old created updated p :
  pool_reliable p → log_ok (rows p) → 0 <= version user EMAIL (rows p) < 2 ^ 63 - 1 → old = i64_to_string (version user EMAIL (rows p)) →
  ∃ p', publish user old created updated p = (i64_to_string (version user EMAIL (rows p')), p') ∧ pool_reliable p' ∧ log_ok (rows p') ∧
    (∀ u, u ≠ user → version u EMAIL (rows p') = version u EMAIL (rows p)) ∧
    version user EMAIL (rows p) <= version user EMAIL (rows p') <= version user EMAIL (rows p) + 1 ∧
    ∀ u n id, n <= version u EMAIL (rows p) →
      (reported u n (rows p') id ↔ reported u n (rows p) id ∨ (u = user ∧ id ∈ created ++ updated)).
Proof.
  intros Hp Hok Hv ->. unfold publish. cbn [publish_steps publish_step]. set (v := version user EMAIL (rows p)) in *.
  destruct (decide (created = [] ∧ updated = [])) as [[-> ->]|Hne].
  { cbn. exists p. split_and!; [done..|lia|lia|]. intros u n id _. rewrite elem_of_nil. tauto. }
  replace (bool_decide (created = []) && bool_decide (updated = [])) with false
    by (symmetry; apply andb_false_iff; rewrite !bool_decide_eq_false; destruct (decide (created = [])); naive_solver).
  destruct (bump_state_reliable user EMAIL p Hp) as (p1 & -> & Hp1 & Hr1). fold v. cbn [publish_steps publish_step new_state_of]. unfold new_seq. rewrite parse_i64_string by lia. cbn [default].
  destruct (log_reliable user EMAIL created (v + 1) Created p1 Hp1) as (p2 & E2 & Hp2 & Hv2 & Hk2).
  destruct (log_reliable user EMAIL updated (v + 1) Updated p2 Hp2) as (p3 & E3 & Hp3 & Hv3 & Hk3).
  unfold record_created, record_updated. cbn [from_option id]. rewrite E2. cbn [snd]. rewrite E3. cbn [snd].
  assert (Hver : ∀ u sc, version u sc (rows p3) = version u sc (bump user EMAIL (rows p)))
    by (intros u sc; unfold version; by rewrite Hv3, Hv2, Hr1).
  assert (Hkeys : ∀ k, k ∈ key_of <$> tb_log (rows p3) ↔
      k ∈ key_of <$> tb_log (rows p) ∨ ∃ id, id ∈ created ++ updated ∧ k = (user, v + 1, EMAIL, id)).
  { intros k. rewrite Hk3, Hk2, Hr1. cbn [bump with_versions tb_log]. setoid_rewrite elem_of_app. naive_solver. }
  exists p3. rewrite (Hver user), version_bump. fold v. split_and!; [done|done| | |lia|lia|].
  - apply log_ok_keys. intros u q id [Hk|(id' & _ & [= -> -> ->])]%Hkeys.
    + rewrite Hver. pose proof (proj1 (log_ok_keys _) Hok _ _ _ Hk). destruct (decide (user = u)) as [<-|Hd].
      * rewrite version_bump. lia.
      * rewrite version_bump_ne; [done|congruence].
    + rewrite Hver, version_bump. fold v. lia.
  - intros u Hu. rewrite Hver. apply version_bump_ne. congruence.
  - intros u n id Hn. rewrite !reported_keys. setoid_rewrite Hkeys. split.
    + intros (q & Hq & [Hk|(id' & Hid & [= -> -> ->])]); [left; eauto|by right].
    + intros [(q & Hq & Hk)|[-> Hid]]; [eauto|]. exists (v + 1). split; [fold v in Hn; lia|]. eauto.
Qed.

(** ** Sequences of requests *)

(** The log and the versions of the scope Email are as they were. *)
Definition same_log (t t' : MailTables) : Prop := tb_log t' = tb_log t ∧ ∀ u, version u EMAIL t' = version u EMAIL t.

#[export] Instance same_log_refl : Reflexive same_log.
Proof. by split. Qed.
#[export] Instance same_log_trans : Transitive same_log.
Proof. intros t1 t2 t3 [H1 H2] [H3 H4]. split; [congruence|]. intros u. by rewrite H4. Qed.

(** [p'] follows [p] on a reliable database without touching either. *)
Definition quiet (p p' : Pool MailTables) : Prop := pool_reliable p → pool_reliable p' ∧ same_log (rows p) (rows p').

Lemma quiet_trans p1 p2 p3 : quiet p1 p2 → quiet p2 p3 → quiet p1 p3.
Proof. intros H1 H2 Hp. destruct (H1 Hp) as [Hp2 Hs]. destruct (H2 Hp2) as [Hp3 Hs']. split; [done|]. by etrans. Qed.

Lemma execute_if_quiet ok f p : (∀ t, same_log t (f t)) → quiet p (execute_if ok f p).2.
Proof.
  intros Hf Hp. destruct (execute_if_reliable ok f p Hp) as (p' & -> & Hp' & Hr). split; [done|]. cbn. rewrite Hr.
  by destruct (ok (rows p)).
Qed.

Lemma execute_quiet f p : (∀ t, same_log t (f t)) → quiet p (execute f p).2.
Proof. intros Hf Hp. destruct (execute_reliable f p Hp) as (p' & -> & Hr & Hp'). split; [done|]. cbn. by rewrite Hr. Qed.

Section Requests.
Context {lib : MailLib} {cid : CidLib}.

Lemma subscribe_quiet user g now p : quiet p (subscribe user g now p).2.
Proof. by apply execute_if_quiet. Qed.

Lemma unsubscribe_quiet user g p : quiet p (unsubscribe user g p).2.
Proof. by apply execute_quiet. Qed.

Lemma set_flags_quiet user c f p : quiet p (set_flags user c f p).2.
Proof. by apply execute_if_quiet. Qed.

Lemma keyword_update_quiet user l p : quiet p (handle_keyword_update user l p).2.
Proof.
  revert p. induction l as [|[id patch] l IH]; intros p; [by intros ?|]. cbn [handle_keyword_update].
  destruct (get (lit "keywords") patch) as [kw|]; [|apply IH]. destruct (cid_from_str id) as [c|].
  - match goal with |- context [ set_flags user c ?f p ] => pose proof (set_flags_quiet user c f p) as H1; destruct (set_flags user c f p) as [r p1] end.
    pose proof (IH p1) as H2. destruct (handle_keyword_update user l p1) as [[u n] p2]. by eapply quiet_trans.
  - pose proof (IH p) as H. by destruct (handle_keyword_update user l p) as [[u n] p'].
Qed.

Lemma create_mailboxes_quiet user now l p : quiet p (create_mailboxes user now l p).2.
Proof.
  revert p. induction l as [|[k props] l IH]; intros p; [by intros ?|]. cbn [create_mailboxes].
  set (step := match get (lit "name") props ≫= as_str with Some _ => _ | None => _ end).
  assert (H1 : quiet p step.2).
  { subst step. destruct (get _ props ≫= as_str) as [name|]; [|by intros ?]. destruct (is_newsgroup_name name); [|by intros ?].
    pose proof (subscribe_quiet user name now p) as H. by destruct (subscribe user name now p) as [[] p1]. }
  destruct step as [r p1]. pose proof (IH p1) as H2. destruct (create_mailboxes user now l p1) as [[c e] p2].
  by eapply quiet_trans.
Qed.

Lemma destroy_mailboxes_quiet user names l p : quiet p (destroy_mailboxes user names l p).2.
Proof.
  revert p. induction l as [|v l IH]; intros p; [by intros ?|]. cbn [destroy_mailboxes].
  set (step := match as_str v with Some _ => _ | None => _ end).
  assert (H1 : quiet p step.2).
  { subst step. destruct (as_str v) as [id|]; [|by intros ?]. destruct (names !! id) as [name|]; [|by intros ?].
    pose proof (unsubscribe_quiet user name p) as H. by destruct (unsubscribe user name p) as [[] p1]. }
  destruct step as [r p1]. pose proof (IH p1) as H2. destruct (destroy_mailboxes user names l p1) as [[c e] p2].
  by eapply quiet_trans.
Qed.

Lemma get_state_quiet user scope p : quiet p (get_state user scope p).2.
Proof.
  intros Hp. unfold get_state. destruct (select_reliable (λ t, i64_to_string (version user scope t)) p Hp) as (p' & -> & Hr & Hp').
  cbn. by rewrite Hr.
Qed.

Lemma mailbox_set_quiet user now args groups p : quiet p (mailbox_set user now args groups p).2.
Proof.
  unfold mailbox_set, handle_mailbox_set. pose proof (get_state_quiet user MAILBOX p) as H0.
  destruct (get_state user MAILBOX p) as [old p0].
  pose proof (create_mailboxes_quiet user now (default [] (get (lit "create") args ≫= as_object)) p0) as H1.
  destruct (create_mailboxes _ _ _ _) as [[c nc] p1].
  pose proof (destroy_mailboxes_quiet user (id_to_group groups) (default [] (get (lit "destroy") args ≫= as_array)) p1) as H2.
  destruct (destroy_mailboxes _ _ _ _) as [[d nd] p2]. cbn [fst snd] in *.
  assert (H : quiet p p2) by (eapply quiet_trans; [|exact H2]; by eapply quiet_trans).
  destruct (_ && _); [done|]. intros Hp. destruct (H Hp) as [Hp2 Hs].
  destruct (bump_state_reliable user MAILBOX p2 Hp2) as (p3 & -> & Hp3 & Hr). split; [done|]. cbn [snd]. rewrite Hr.
  etrans; [exact Hs|]. split; [done|]. intros u. by apply version_bump_ne.
Qed.

Section Run.
Context {I M W : Type} {store : IpfsBlockStore I} {mids : MsgIdStore M}.
Context (mailer : option (OutboundEnvelope → prog W () ())).

Abbreviation World := (Pool MailTables * ((I * M) * W))%type (only parsing).

Inductive Call :=
| CEmailSet (user : Z) (args : Json) (groups : list bytes) (ms : list Moment)
| CMailboxSet (user now : Z) (args : Json) (groups : list bytes).

(** The answers to Email/set, with who asked. *)
Fixpoint run (calls : list Call) (w : World) : list (Z * EmailSetResponse) * World :=
  match calls with
  | [] => ([], w)
  | CEmailSet user args groups ms :: calls' =>
      let '(r, w1) := email_set mailer user args groups ms w in
      let '(rs, w2) := run calls' w1 in ((user, r) :: rs, w2)
  | CMailboxSet user now args groups :: calls' => run calls' ((mailbox_set user now args groups w.1).2, w.2)
  end.

Definition set_ids (r : EmailSetResponse) : list bytes := (es_created r).*2 ++ es_updated r.

(** Every user's version leaves room for [n] more. *)
Definition room (n : nat) (t : MailTables) : Prop := ∀ u, 0 <= version u EMAIL t < 2 ^ 63 - Z.of_nat n.

Definition good (n : nat) (p : Pool MailTables) : Prop := pool_reliable p ∧ log_ok (rows p) ∧ room n (rows p).

(** From [p] to [p'], [user] is told of [ids] in addition. *)
Definition tells (p p' : Pool MailTables) (user : Z) (ids : list bytes) : Prop := ∀ u n id,
  n <= version u EMAIL (rows p) → n <= version u EMAIL (rows p') ∧
  (reported u n (rows p') id ↔ reported u n (rows p) id ∨ (u = user ∧ id ∈ ids)).

Lemma good_quiet n p p' : quiet p p' → good n p → good n p' ∧ tells p p' 0 [].
Proof.
  intros Hq (Hp & Hok & Hroom). destruct (Hq Hp) as [Hp' [Hl Hv]]. unfold good, log_ok, room, tells, reported. rewrite Hl.
  split_and!; [done| | |].
  - intros r. rewrite Hv. apply Hok.
  - intros u. rewrite Hv. apply Hroom.
  - intros u k id. rewrite Hv, elem_of_nil. tauto.
Qed.

Lemma tells_quiet p p1 p2 user ids : tells p p1 0 [] → tells p1 p2 user ids → tells p p2 user ids.
Proof.
  intros H1 H2 u n id Hn. destruct (H1 u n id Hn) as [Hn1 E1]. destruct (H2 u n id Hn1) as [Hn2 E2]. split; [done|].
  rewrite E2, E1, elem_of_nil. tauto.
Qed.

(** Up to [publish], neither log nor versions change. *)
Lemma email_work_quiet user args groups ms (w : World) :
  pool_reliable w.1 →
  ∃ r p st, email_work mailer user args groups ms w = (r, (p, st)) ∧ quiet w.1 p ∧
    es_old_state r = i64_to_string (version user EMAIL (rows p)).
Proof.
  intros Hp. unfold email_work. pose proof (get_state_quiet user EMAIL w.1) as Hq0. unfold get_state in *.
  destruct (select_reliable (λ t, i64_to_string (version user EMAIL t)) w.1 Hp) as (p0 & E0 & _ & _). rewrite E0 in *.
  pose proof (keyword_update_quiet user (updates args) p0) as Hq1.
  destruct (handle_keyword_update user (updates args) p0) as [[updated failed] p1].
  destruct (handle_email_create _ _ _ _ _) as [[created not_created] st].
  pose proof (quiet_trans _ _ _ Hq0 Hq1) as Hq. eexists _, p1, st. split_and!; [done..|].
  destruct (Hq Hp) as [_ [_ Hv]]. cbn [es_old_state]. by rewrite <- Hv.
Qed.

Lemma email_set_tells n user args groups ms (w : World) :
  good (S n) w.1 →
  let '(r, w') := email_set mailer user args groups ms w in good n w'.1 ∧ tells w.1 w'.1 user (set_ids r).
Proof.
  intros Hg. unfold email_set. destruct (email_work_quiet user args groups ms w (proj1 Hg)) as (r & p & st & -> & Hq & Hold).
  destruct (good_quiet _ _ _ Hq Hg) as [(Hp1 & Hok1 & Hroom1) Ht1].
  destruct (publish_reliable user (es_old_state r) (es_created r).*2 (es_updated r) p)
    as (p2 & -> & Hp2 & Hok2 & Hother & Hown & Htell); [done|done|pose proof (Hroom1 user); lia|done|].
  cbn [fst]. split; [split; [done|split; [done|]]|].
  - intros u. destruct (decide (u = user)) as [->|Hu]; [pose proof (Hroom1 user); lia|]. rewrite Hother by done. pose proof (Hroom1 u). lia.
  - eapply tells_quiet; [exact Ht1|]. intros u k id Hk. split; [|by apply Htell].
    destruct (decide (u = user)) as [->|Hu]; [lia|by rewrite Hother].
Qed.

Lemma run_tells calls n (w : World) :
  good (length calls + n) w.1 →
  let '(rs, w') := run calls w in
  good n w'.1 ∧ ∀ u k id, k <= version u EMAIL (rows w.1) →
    (reported u k (rows w'.1) id ↔ reported u k (rows w.1) id ∨ ∃ r, (u, r) ∈ rs ∧ id ∈ set_ids r).
Proof.
  revert w. induction calls as [|[user args groups ms|user now args groups] calls IH]; intros w Hg; cbn [run].
  - split; [done|]. intros u k id _. split; [by left|]. intros [?|(r & ?%not_elem_of_nil & _)]; done.
  - pose proof (email_set_tells _ user args groups ms w Hg) as Hstep. destruct (email_set _ _ _ _ _ w) as [r w1].
    destruct Hstep as [Hg1 Ht]. specialize (IH w1 Hg1). destruct (run calls w1) as [rs w2]. destruct IH as [Hg2 IH].
    split; [done|]. intros u k id Hk. destruct (Ht u k id Hk) as [Hk1 E1]. rewrite (IH u k id Hk1), E1.
    setoid_rewrite elem_of_cons. naive_solver.
  - assert (Hg' : good (length calls + n) w.1)
      by (destruct Hg as (? & ? & Hroom); split_and!; [done..|]; intros u; specialize (Hroom u); cbn [length] in Hroom; lia).
    destruct (good_quiet _ _ _ (mailbox_set_quiet user now args groups w.1) Hg') as [Hg1 Ht].
    specialize (IH ((mailbox_set user now args groups w.1).2, w.2) Hg1). destruct (run calls _) as [rs w2]. destruct IH as [Hg2 IH].
    split; [done|]. intros u k id Hk. destruct (Ht u k id Hk) as [Hk1 E1]. rewrite (IH u k id Hk1), E1, elem_of_nil. tauto.
Qed.

(** C12. Email/changes, with the requests one after the other on a database that
    does not fail: a client that asks for the changes since the state it holds
    is told of exactly the Emails its user created or updated since, whatever
    requests of whatever users came in between, and gets the current state. *)
Theorem changes_complete (calls : list Call) (w : World) (user : Z) :
  good (length calls) w.1 →
  let '(rs, w') := run calls w in
  ∃ ch p', get_changes EMAIL user (i64_to_string (version user EMAIL (rows w.1))) w'.1 = (Ok ch, p') ∧
    ch_new_state ch = i64_to_string (version user EMAIL (rows w'.1)) ∧
    ∀ id, id ∈ changed ch ↔ ∃ r, (user, r) ∈ rs ∧ id ∈ set_ids r.
Proof.
  intros Hg. pose proof (run_tells calls 0 w ltac:(by rewrite Nat.add_0_r)) as H. destruct (run calls w) as [rs w'].
  destruct H as [(Hp & _ & _) Ht]. destruct Hg as (_ & Hok & Hroom). specialize (Hroom user).
  destruct (get_changes_reported user (version user EMAIL (rows w.1)) w'.1 Hp ltac:(lia)) as (ch & p' & E & _ & _ & Hst & Hch).
  exists ch, p'. split_and!; [done..|]. intros id. rewrite Hch, Ht by done. pose proof (nothing_new user (rows w.1) id Hok). tauto.
Qed.

(** ** Refused, yet done *)

(** Email/set: an update with both [mailboxIds] and [keywords] is answered
    [notPermitted], and the state stays as it is; the flags are stored. *)
Theorem refused_update_applied (user : Z) (id : bytes) (c : Cid) (patch keywords : Json) (groups : list bytes) (w : World) :
  pool_reliable w.1 → user_exists user (rows w.1) = true → cid_from_str id = Some c →
  is_Some (get (lit "mailboxIds") patch) → get (lit "keywords") patch = Some keywords →
  let '(r, w') := email_set mailer user (JObj [(lit "update", JObj [(id, patch)])]) groups [] w in
  es_updated r = [] ∧ es_not_updated r !! id = Some NotPermitted ∧ es_new_state r = es_old_state r ∧
  tb_flags (rows w'.1) !! (user, cid_to_bytes c) =
    Some (mkFlags (keyword (lit "$seen") keywords) (keyword (lit "$flagged") keywords)).
Proof.
  intros Hp Huser Hc Hmb Hkw. unfold email_set, email_work, get_state.
  destruct (select_reliable (λ t, i64_to_string (version user EMAIL t)) w.1 Hp) as (p0 & -> & Hr0 & Hp0).
  assert (Href : refused_updates (JObj [(lit "update", JObj [(id, patch)])]) = {[ id := NotPermitted ]}).
  { assert (Ht : touches_mailboxes patch = true) by (unfold touches_mailboxes; by rewrite (bool_decide_eq_true_2 _ Hmb)).
    unfold refused_updates. change (updates _) with [(id, patch)]. cbn [List.filter snd]. by rewrite Ht. }
  rewrite Href. change (updates _) with [(id, patch)]. cbn [handle_keyword_update]. rewrite Hkw, Hc. unfold set_flags.
  match goal with |- context [ execute_if ?ok ?f p0 ] => destruct (execute_if_reliable ok f p0 Hp0) as (p1 & -> & Hp1 & Hr1) end.
  rewrite Hr0, Huser in *. cbn [List.filter]. rewrite bool_decide_eq_false_2 by (by rewrite lookup_singleton_eq).
  change (default [] _) with (@nil (bytes * Json)). cbn [handle_email_create create_each fmap list_fmap].
  cbn -[lookup]. rewrite Hr1. cbn [tb_flags with_flags]. split_and!; [done| |done|apply lookup_insert_eq].
  by rewrite (left_id_L ∅ (∪)), lookup_singleton_eq.
Qed.

(** ** Preferences *)

Definition no_preferences (t : MailTables) : Prop := tb_users t = ∅ ∧ tb_subscriptions t = ∅ ∧ tb_flags t = ∅.

Lemma execute_if_refused user f p : no_preferences (rows p) → ∃ p', execute_if (user_exists user) f p = (Err tt, p') ∧ rows p' = rows p.
Proof.
  intros [Hu _]. unfold execute_if. pose proof (round_trip_rows p) as Hr. destruct (round_trip p) as [[[]|[]] p']; cbn [snd] in Hr; [|by eexists].
  unfold user_exists. rewrite Hr, Hu, map_to_list_empty. by eexists.
Qed.

Lemma execute_prefs f p : (∀ t, no_preferences t → no_preferences (f t)) → no_preferences (rows p) → no_preferences (rows (execute f p).2).
Proof. intros Hf Hp. unfold execute. pose proof (round_trip_rows p) as Hr. destruct (round_trip p) as [[]]; cbn in *; rewrite Hr; auto. Qed.

Lemma bump_state_prefs user scope p : no_preferences (rows p) → no_preferences (rows (bump_state user scope p).2).
Proof. intros Hp. unfold bump_state. pose proof (round_trip_rows p) as Hr. destruct (round_trip p) as [[]]; cbn in *; by rewrite Hr. Qed.

Lemma keyword_update_prefs user l p :
  no_preferences (rows p) → (handle_keyword_update user l p).1.1 = [] ∧ no_preferences (rows (handle_keyword_update user l p).2).
Proof.
  revert p. induction l as [|[id patch] l IH]; intros p Hp; [done|]. cbn [handle_keyword_update].
  destruct (get (lit "keywords") patch) as [kw|]; [|by apply IH]. destruct (cid_from_str id) as [c|].
  - unfold set_flags. match goal with |- context [ execute_if _ ?f p ] => destruct (execute_if_refused user f p Hp) as (p1 & -> & Hr) end.
    specialize (IH p1 ltac:(by rewrite Hr)). by destruct (handle_keyword_update user l p1) as [[u n] p2].
  - specialize (IH p Hp). by destruct (handle_keyword_update user l p) as [[u n] p2].
Qed.

Lemma record_prefs user scope ids seq c p : no_preferences (rows p) → no_preferences (rows (record_action user scope ids seq c p).2).
Proof. intros Hp. unfold record_action. case_bool_decide; [done|]. by apply execute_prefs. Qed.

Lemma publish_prefs user old created updated p : no_preferences (rows p) → no_preferences (rows (publish user old created updated p).2).
Proof.
  intros Hp. unfold publish. cbn [publish_steps publish_step]. destruct (_ && _).
  - by apply record_prefs, record_prefs.
  - pose proof (bump_state_prefs user EMAIL p Hp) as Hb. destruct (bump_state user EMAIL p) as [[] p']; by apply record_prefs, record_prefs.
Qed.

Lemma create_mailboxes_prefs user now l p :
  no_preferences (rows p) → (create_mailboxes user now l p).1.1 = [] ∧ no_preferences (rows (create_mailboxes user now l p).2).
Proof.
  revert p. induction l as [|[k props] l IH]; intros p Hp; [done|]. cbn [create_mailboxes].
  set (step := match get (lit "name") props ≫= as_str with Some _ => _ | None => _ end).
  assert (H1 : ∃ e p1, step = (Err e, p1) ∧ no_preferences (rows p1)).
  { subst step. destruct (get _ props ≫= as_str) as [name|]; [|by eexists _, p]. destruct (is_newsgroup_name name); [|by eexists _, p].
    unfold subscribe. match goal with |- context [ execute_if _ ?f p ] => destruct (execute_if_refused user f p Hp) as (p1 & -> & Hr) end.
    eexists _, p1. by rewrite Hr. }
  destruct H1 as (e & p1 & -> & Hp1). specialize (IH p1 Hp1). by destruct (create_mailboxes user now l p1) as [[c r] p2].
Qed.

Lemma destroy_mailboxes_prefs user names l p : no_preferences (rows p) → no_preferences (rows (destroy_mailboxes user names l p).2).
Proof.
  revert p. induction l as [|v l IH]; intros p Hp; [done|]. cbn [destroy_mailboxes].
  set (step := match as_str v with Some _ => _ | None => _ end).
  assert (H1 : no_preferences (rows step.2)).
  { subst step. destruct (as_str v) as [id|]; [|done]. destruct (names !! id) as [name|]; [|done].
    assert (H : no_preferences (rows (unsubscribe user name p).2)); [|by destruct (unsubscribe user name p) as [[] p1]].
    apply execute_prefs; [|done]. intros t (? & Hs & ?). split_and!; [done| |done]. cbn. by rewrite Hs, delete_empty. }
  destruct step as [r p1]. specialize (IH p1 H1). by destruct (destroy_mailboxes user names l p1) as [[c e] p2].
Qed.

Lemma get_state_rows user scope p : rows (get_state user scope p).2 = rows p.
Proof. unfold get_state, select. pose proof (round_trip_rows p) as H. by destruct (round_trip p) as [[] p']. Qed.

Lemma mailbox_set_prefs user now args groups p : no_preferences (rows p) → no_preferences (rows (mailbox_set user now args groups p).2).
Proof.
  intros Hp. unfold mailbox_set, handle_mailbox_set. rewrite <- (get_state_rows user MAILBOX p) in Hp.
  destruct (get_state user MAILBOX p) as [old p0]. cbn [snd] in Hp.
  pose proof (create_mailboxes_prefs user now (default [] (get (lit "create") args ≫= as_object)) p0 Hp) as [_ H1].
  destruct (create_mailboxes _ _ _ _) as [[c nc] p1]. cbn [snd] in H1.
  pose proof (destroy_mailboxes_prefs user (id_to_group groups) (default [] (get (lit "destroy") args ≫= as_array)) p1 H1) as H2.
  destruct (destroy_mailboxes _ _ _ _) as [[d nd] p2]. cbn [snd] in H2. destruct (_ && _); [done|].
  pose proof (bump_state_prefs user MAILBOX p2 H2) as H3. by destruct (bump_state user MAILBOX p2) as [[] p3].
Qed.

Lemma email_set_prefs user args groups ms (w : World) :
  no_preferences (rows w.1) →
  let '(r, w') := email_set mailer user args groups ms w in es_updated r = [] ∧ no_preferences (rows w'.1).
Proof.
  intros Hp. unfold email_set, email_work. rewrite <- (get_state_rows user EMAIL w.1) in Hp. destruct (get_state user EMAIL w.1) as [old p0].
  cbn [snd] in Hp. destruct (keyword_update_prefs user (updates args) p0 Hp) as [Hu Hp1].
  destruct (handle_keyword_update user (updates args) p0) as [[updated failed] p1]. cbn [fst snd] in *. subst updated.
  destruct (handle_email_create _ _ _ _ _) as [[created not_created] st].
  match goal with |- context [ publish user ?o ?c ?u p1 ] =>
    pose proof (publish_prefs user o c u p1 Hp1) as H; destruct (publish user o c u p1) as [ns p2] end. done.
Qed.

(** C39. The tables of flags and subscriptions refer to [users], into which no
    code of the server inserts.  So from the database the migrations make, and
    whatever the requests and the failures of the database, no flag and no
    subscription is ever stored, and no Email/set reports an update. *)
Theorem preferences_never_stored (calls : list Call) (w : World) :
  no_preferences (rows w.1) →
  let '(rs, w') := run calls w in no_preferences (rows w'.1) ∧ ∀ u r, (u, r) ∈ rs → es_updated r = [].
Proof.
  revert w. induction calls as [|[user args groups ms|user now args groups] calls IH]; intros w Hp; cbn [run].
  - split; [done|]. by intros u r ?%not_elem_of_nil.
  - pose proof (email_set_prefs user args groups ms w Hp) as Hstep. destruct (email_set _ _ _ _ _ w) as [r w1].
    destruct Hstep as [Hr Hp1]. specialize (IH w1 Hp1). destruct (run calls w1) as [rs w2]. destruct IH as [Hp2 IH].
    split; [done|]. intros u r' [[= -> ->]|Hin]%elem_of_cons; eauto.
  - apply (IH ((mailbox_set user now args groups w.1).2, w.2)). by apply mailbox_set_prefs.
Qed.

(** ** Asking while an Email/set is at work *)

(** [p] and [q] are two connections to the same reliable database. *)
Definition alike (p q : Pool MailTables) : Prop := pool_reliable p ∧ pool_reliable q ∧ rows p = rows q.

Lemma record_alike user scope ids seq c p q :
  alike p q → alike (record_action user scope ids seq c p).2 (record_action user scope ids seq c q).2.
Proof.
  intros (Hp & Hq & E). unfold record_action. case_bool_decide; [done|].
  match goal with |- context [ execute ?f _ ] =>
    destruct (execute_reliable f p Hp) as (p' & -> & Hr & Hp'); destruct (execute_reliable f q Hq) as (q' & -> & Hr' & Hq') end.
  split_and!; [done..|]. cbn. congruence.
Qed.

Lemma publish_steps_alike k user old created updated s p q :
  alike p q →
  ∃ s' p' q', publish_steps k user old created updated s p = (s', p') ∧ publish_steps k user old created updated s q = (s', q') ∧ alike p' q'.
Proof.
  revert s p q. induction k as [|k IH]; intros s p q Hpq; [by eexists _, _, _|]. cbn [publish_steps].
  destruct s; cbn [publish_step]; [|by apply IH, record_alike|by apply IH, record_alike|by apply IH].
  destruct (_ && _); [by apply IH|]. destruct Hpq as (Hp & Hq & E).
  destruct (bump_state_reliable user EMAIL p Hp) as (p' & -> & Hp' & Hr).
  destruct (bump_state_reliable user EMAIL q Hq) as (q' & -> & Hq' & Hr'). rewrite E in *. apply IH. split_and!; [done..|congruence].
Qed.

Lemma publish_steps_add a b user old created updated s p :
  publish_steps (a + b) user old created updated s p =
  let '(s', p') := publish_steps a user old created updated s p in publish_steps b user old created updated s' p'.
Proof.
  revert s p. induction a as [|a IH]; intros s p; [done|]. cbn [publish_steps Nat.add]. destruct (publish_step _ _ _ _ s p). apply IH.
Qed.

(** Of what the log tells once [k] statements are done. *)
Definition logged_by (k : nat) (created updated : list bytes) : list bytes :=
  match k with
  | 0%nat | 1%nat => []
  | 2%nat => created
  | _ => created ++ updated
  end.

Lemma bumping_reliable user created updated p :
  pool_reliable p → 0 <= version user EMAIL (rows p) < 2 ^ 63 - 1 →
  ∃ v p1, publish_step user (i64_to_string (version user EMAIL (rows p))) created updated Bumping p = (LoggingCreated (i64_to_string v), p1) ∧
    pool_reliable p1 ∧ tb_log (rows p1) = tb_log (rows p) ∧ version user EMAIL (rows p1) = v ∧
    version user EMAIL (rows p) <= v < 2 ^ 63 ∧ (created ++ updated ≠ [] → version user EMAIL (rows p) < v).
Proof.
  intros Hp Hv. cbn [publish_step]. destruct (_ && _) eqn:E.
  - apply andb_true_iff in E as [->%bool_decide_eq_true ->%bool_decide_eq_true]. eexists _, p. split_and!; [done..|lia|lia|done].
  - destruct (bump_state_reliable user EMAIL p Hp) as (p1 & -> & Hp1 & Hr). eexists _, p1. rewrite Hr, version_bump.
    split_and!; [done..|lia|lia|lia].
Qed.

Lemma logging_reliable user ids v c p :
  pool_reliable p → let p' := (record_action user EMAIL ids v c p).2 in
  pool_reliable p' ∧ version user EMAIL (rows p') = version user EMAIL (rows p) ∧
  ∀ n id, (ids ≠ [] → n < v) → reported user n (rows p') id ↔ reported user n (rows p) id ∨ id ∈ ids.
Proof.
  intros Hp. destruct (log_reliable user EMAIL ids v c p Hp) as (p' & -> & Hp' & Hv & Hk). cbn. unfold version at 1. rewrite Hv.
  split_and!; [done..|]. intros n id Hn. rewrite !reported_keys. setoid_rewrite Hk. split.
  - intros (q & Hq & [?|(? & ? & [= -> ->])]); [left; eauto|by right].
  - intros [(q & Hq & ?)|Hid]; [eauto|]. exists v. split; [apply Hn; by intros ->; apply not_elem_of_nil in Hid|eauto].
Qed.

Lemma published_stays k user old created updated st p :
  publish_steps k user old created updated (Published st) p = (Published st, p).
Proof. by induction k. Qed.

Lemma publish_paused k user created updated p :
  pool_reliable p → log_ok (rows p) → 0 <= version user EMAIL (rows p) < 2 ^ 63 - 1 →
  ∃ s1 p1, publish_steps k user (i64_to_string (version user EMAIL (rows p))) created updated Bumping p = (s1, p1) ∧ pool_reliable p1 ∧
    (k = 0%nat → rows p1 = rows p) ∧
    (k ≠ 0%nat → version user EMAIL (rows p1) =
                 version user EMAIL (rows (publish user (i64_to_string (version user EMAIL (rows p))) created updated p).2)) ∧
    ∀ id, reported user (version user EMAIL (rows p)) (rows p1) id ↔ id ∈ logged_by k created updated.
Proof.
  intros Hp Hok Hroom. unfold publish. set (n := version user EMAIL (rows p)) in *.
  destruct (bumping_reliable user created updated p Hp Hroom) as (v & p1 & E1 & Hp1 & Hl & Hv & Hnv & Hlt). fold n in E1, Hnv, Hlt.
  cbn [publish_steps]. rewrite E1. cbn [publish_step]. unfold new_seq, record_created, record_updated.
  rewrite parse_i64_string by lia. cbn [default].
  destruct (logging_reliable user created v Created p1 Hp1) as (Hp2 & Hv2 & Hr2). set (p2 := (record_action _ _ created _ _ p1).2) in *.
  destruct (logging_reliable user updated v Updated p2 Hp2) as (Hp3 & Hv3 & Hr3). set (p3 := (record_action _ _ updated _ _ p2).2) in *.
  assert (H1 : ∀ id, ¬ reported user n (rows p1) id) by (intros id; unfold reported; rewrite Hl; by apply nothing_new).
  assert (H2 : ∀ id, reported user n (rows p2) id ↔ id ∈ created).
  { intros id. rewrite Hr2; [specialize (H1 id); tauto|]. intros Hne. apply Hlt. by intros [-> _]%app_eq_nil. }
  assert (H3 : ∀ id, reported user n (rows p3) id ↔ id ∈ created ++ updated).
  { intros id. rewrite Hr3, H2, elem_of_app; [done|]. intros Hne. apply Hlt. by intros [_ ->]%app_eq_nil. }
  destruct k as [|[|[|k]]]; cbn [publish_steps logged_by]; rewrite ?E1; cbn [publish_step].
  - exists Bumping, p. split_and!; [done..|]. intros id. rewrite elem_of_nil. by split; [apply nothing_new|].
  - eexists _, p1. split_and!; [done..|cbn; congruence|]. intros id. rewrite elem_of_nil. by split; [apply H1|].
  - eexists _, p2. unfold new_seq, record_created. rewrite parse_i64_string by lia. by split_and!; [|..|cbn; congruence|].
  - eexists _, p3. unfold new_seq, record_created, record_updated. rewrite parse_i64_string by lia. cbn [default].
    rewrite published_stays. by split_and!.
Qed.

Lemma publish_resumes k user old created updated p :
  let '(s1, p1) := publish_steps k user old created updated Bumping p in
  publish_steps (3 - k) user old created updated s1 p1 = publish_steps 3 user old created updated Bumping p.
Proof.
  destruct (decide (k <= 3)%nat) as [Hk|Hk].
  - pose proof (publish_steps_add k (3 - k) user old created updated Bumping p) as H. replace (k + (3 - k))%nat with 3%nat in H by lia.
    by destruct (publish_steps k _ _ _ _ _ _).
  - pose proof (publish_steps_add 3 (k - 3) user old created updated Bumping p) as H. replace (3 + (k - 3))%nat with k in H by lia.
    rewrite H. replace (3 - k)%nat with 0%nat by lia. cbn [publish_steps publish_step].
    destruct (_ && _); [|destruct (bump_state user EMAIL p) as [[] p1]]; cbn [publish_step]; by rewrite published_stays.
Qed.

(** [m] is the state the client is given. *)
Lemma asked_reliable n k user args groups ms (w : World) :
  good (S n) w.1 →
  ∃ ch r w1 m, email_set_asked mailer k user args groups ms w = (Ok ch, (r, w1)) ∧
    r = (email_set mailer user args groups ms w).1 ∧ rows w1.1 = rows (email_set mailer user args groups ms w).2.1 ∧
    good n w1.1 ∧ (∀ id, id ∈ changed ch ↔ id ∈ logged_by k (es_created r).*2 (es_updated r)) ∧
    ch_new_state ch = i64_to_string m ∧ 0 <= m < 2 ^ 63 ∧ m <= version user EMAIL (rows w1.1) ∧
    ∀ id, reported user m (rows w1.1) id ↔ k = 0%nat ∧ id ∈ set_ids r.
Proof.
  intros Hg. pose proof (email_set_tells n user args groups ms w Hg) as Hset. unfold email_set, email_set_asked in *.
  destruct (email_work_quiet user args groups ms w (proj1 Hg)) as (r & p & st & E & Hq & Hold). rewrite E in *. rewrite Hold in *.
  destruct (good_quiet _ _ _ Hq Hg) as [(Hp & Hok & Hroom) _]. specialize (Hroom user).
  set (old := i64_to_string _) in *. set (cs := (es_created r).*2) in *. set (us := es_updated r) in *.
  destruct (publish_reliable user old cs us p Hp Hok ltac:(lia) eq_refl) as (q3 & Epub & Hq3 & Hok3 & _ & Hown & Htell).
  destruct (publish_paused k user cs us p Hp Hok ltac:(lia)) as (s1 & p1 & E1 & Hp1 & Hk0 & Hk1 & Hrep). fold old in E1, Hk1.
  rewrite Epub in *. cbn [snd] in Hk1. rewrite E1.
  destruct (get_changes_reported user (version user EMAIL (rows p)) p1 Hp1 ltac:(lia)) as (ch & p2 & Ech & Hp2 & Hr2 & Hst & Hch).
  fold old in Ech. rewrite Ech. pose proof (publish_resumes k user old cs us p) as Hres. rewrite E1 in Hres.
  destruct (publish_steps_alike (3 - k) user old cs us s1 p1 p2) as (s2 & p3 & p3' & E3 & -> & Hp3 & Hp3' & Hr3); [by split_and!|].
  rewrite E3 in Hres. unfold publish in Epub. rewrite <- Hres in Epub. injection Epub as Es Ep. rewrite Es.
  subst q3. assert (Hm : ∀ id, reported user (version user EMAIL (rows p1)) (rows p3) id ↔ k = 0%nat ∧ id ∈ cs ++ us).
  { intros id. destruct (decide (k = 0%nat)) as [Hk|Hk].
    - rewrite (Hk0 Hk), Htell by done. pose proof (nothing_new user (rows p) id Hok). tauto.
    - rewrite (Hk1 Hk). pose proof (nothing_new user (rows p3) id Hok3). tauto. }
  assert (Hv1 : version user EMAIL (rows p) <= version user EMAIL (rows p1) <= version user EMAIL (rows p3))
    by (destruct (decide (k = 0%nat)) as [Hk|Hk]; [rewrite (Hk0 Hk)|rewrite (Hk1 Hk)]; lia).
  destruct Hset as [(_ & _ & Hroom3) _]. cbn [fst snd] in *. pose proof (Hroom3 user). eexists ch, _, _, _. rewrite Hr3 in *.
  split_and!; [done|done|done|by split; [|split]| |exact Hst|lia|lia|apply Hv1|exact Hm]. intros id. by rewrite Hch.
Qed.

(** C38. An Email/set raises the version and writes the log in separate
    statements.  A client of the same user that asks Email/changes when [k] of
    the three are done is told of what is logged by then; asking again from the state it was
    given, after any further requests, it is told of the Emails of this
    Email/set only if it had asked before the version went up, and otherwise
    only of Emails set again.  So when it asks after the first statement
    it never learns of the Emails created and updated, and after the second
    never of those updated.  The Email/set itself is not disturbed. *)
Theorem change_lost_in_between (k : nat) (user : Z) (args : Json) (groups : list bytes) (ms : list Moment) (calls : list Call) (w : World) :
  good (S (length calls)) w.1 →
  ∃ ch r w1, email_set_asked mailer k user args groups ms w = (Ok ch, (r, w1)) ∧
    r = (email_set mailer user args groups ms w).1 ∧ rows w1.1 = rows (email_set mailer user args groups ms w).2.1 ∧
    (∀ id, id ∈ changed ch ↔ id ∈ logged_by k (es_created r).*2 (es_updated r)) ∧
    let '(rs, w2) := run calls w1 in
    ∃ ch' p', get_changes EMAIL user (ch_new_state ch) w2.1 = (Ok ch', p') ∧
      ∀ id, id ∈ changed ch' ↔ (k = 0%nat ∧ id ∈ set_ids r) ∨ ∃ r', (user, r') ∈ rs ∧ id ∈ set_ids r'.
Proof.
  intros Hg. destruct (asked_reliable _ k user args groups ms w Hg) as (ch & r & w1 & m & E & Hr & Hw & Hg1 & Hch & Hst & Hm & Hle & Hrep).
  exists ch, r, w1. split_and!; [done..|]. pose proof (run_tells calls 0 w1 ltac:(by rewrite Nat.add_0_r)) as H.
  destruct (run calls w1) as [rs w2]. destruct H as [(Hp2 & _ & _) Ht]. rewrite Hst.
  destruct (get_changes_reported user m w2.1 Hp2 Hm) as (ch' & p' & E' & _ & _ & _ & Hch').
  exists ch', p'. split; [done|]. intros id. by rewrite Hch', Ht, Hrep.
Qed.

End Run.

(** ** Mail that comes in *)

(** What the SMTP server does to the tables when it delivers. *)
Definition mail_view (t : MailTables) : SmtpDelivery.MailDb := SmtpDelivery.mkMailDb (tb_messages t) (tb_versions t !! (1, EMAIL)).

Definition put_view (d : SmtpDelivery.MailDb) (t : MailTables) : MailTables :=
  mkTables (tb_users t) (tb_subscriptions t) (tb_flags t)
    (match SmtpDelivery.email_version d with Some v => <[ (1, EMAIL) := v ]> (tb_versions t) | None => base.delete (1, EMAIL) (tb_versions t) end)
    (tb_log t) (SmtpDelivery.messages d).

Definition delivered (mailbox_id from to raw : bytes) (t : MailTables) : MailTables :=
  put_view (SmtpDelivery.bump_version (SmtpDelivery.insert_message mailbox_id from to raw (mail_view t))) t.

(** Mail that comes in: Email/changes gives the client the new state, and
    no change. *)
Theorem delivered_mail_not_reported (mailbox_id from to raw : bytes) (p : Pool MailTables) :
  good 1 p →
  let n := version 1 EMAIL (rows p) in
  let p' := mkPool (delivered mailbox_id from to raw (rows p)) (faults p) in
  last (tb_messages (rows p')) = Some (SmtpDelivery.mkMailRow mailbox_id from to raw) ∧
  ∃ ch p'', get_changes EMAIL 1 (i64_to_string n) p' = (Ok ch, p'') ∧ ch_new_state ch = i64_to_string (n + 1) ∧ changed ch = [].
Proof.
  intros (Hp & Hok & Hroom). specialize (Hroom 1). cbn zeta. split; [apply last_snoc|].
  set (p' := mkPool _ _). destruct (get_changes_reported 1 (version 1 EMAIL (rows p)) p' Hp ltac:(lia)) as (ch & p'' & -> & _ & _ & Hst & Hch).
  exists ch, p''. split; [done|]. split.
  - rewrite Hst. f_equal. unfold version, p', delivered, mail_view, put_view, SmtpDelivery.bump_version. cbn.
    destruct (tb_versions (rows p) !! (1, EMAIL)); by rewrite lookup_insert_eq.
  - apply elem_of_nil_inv. intros id Hid%Hch. by apply (nothing_new 1 (rows p) id Hok).
Qed.

End Requests.

(** ** Witnesses *)

Module StateSamples.
Import ToyCrypto SqliteStorage.SqlSamples MsgIdSamples ReaderStoreSamples EmailSamples.

Definition tables (users : gmap bytes Z) : MailTables := mkTables users ∅ ∅ ∅ [] [].
Definition alice : gmap bytes Z := {[ lit "alice" := 1 ]}.
Definition db (users : gmap bytes Z) : Pool MailTables := mkPool (tables users) [].
Definition world (users : gmap bytes Z) := (db users, ((store_new, sql_msgids_new), tt)).
Definition email : Cid := cid_new_v1 0x71 0x12 (lit "x").

Definition mark_seen : Json := JObj [(lit "update", JObj [(cid_to_string email, JObj [(lit "keywords", JObj [(lit "$seen", JBool true)])])])].
Definition calls : list Call := [CEmailSet 1 mark_seen [] []; CMailboxSet 1 0 (JObj []) []].

Lemma good_db n users : (n < 100)%nat → good n (db users).
Proof.
  intros Hn. split; [constructor|]. split; [by intros r ?%not_elem_of_nil|]. intros u. unfold version. cbn [db rows tables tb_versions].
  rewrite lookup_empty. cbn [default]. lia.
Qed.

Lemma complete_witness :
  let '(rs, w') := run (W := ()) None calls (world alice) in
  ∃ ch p', get_changes EMAIL 1 (lit "0") w'.1 = (Ok ch, p') ∧ ∀ id, id ∈ changed ch ↔ ∃ r, (1, r) ∈ rs ∧ id ∈ set_ids r.
Proof.
  pose proof (changes_complete (W := ()) None calls (world alice) 1 (good_db 2 alice ltac:(lia))) as H.
  destruct (run None calls (world alice)) as [rs w']. destruct H as (ch & p' & H1 & _ & H2). exists ch, p'. split; [exact H1|exact H2].
Defined.

(** The flag of [email] is set; the client asks once the version is raised, and
    again after a further request. *)
Lemma lost_witness :
  ∃ ch r w1, email_set_asked (W := ()) None 1 1 mark_seen [] [] (world alice) = (Ok ch, (r, w1)) ∧
    es_updated r = [cid_to_string email] ∧ changed ch = [] ∧
    let '(rs, w2) := run None [CMailboxSet 1 0 (JObj []) []] w1 in
    ∃ ch' p', get_changes EMAIL 1 (ch_new_state ch) w2.1 = (Ok ch', p') ∧ changed ch' = [].
Proof.
  destruct (change_lost_in_between (W := ()) None 1 1 mark_seen [] [] [CMailboxSet 1 0 (JObj []) []] (world alice) (good_db 2 alice ltac:(lia)))
    as (ch & r & w1 & E & Hr & _ & Hch & H).
  exists ch, r, w1. split; [exact E|]. split; [by rewrite Hr; vm_compute|]. split; [apply elem_of_nil_inv; intros id Hid%Hch; by apply not_elem_of_nil in Hid|].
  destruct (run None _ w1) as [rs w2] eqn:Erun. destruct H as (ch' & p' & E' & Hch'). exists ch', p'. split; [exact E'|].
  cbn in Erun. injection Erun as <- _. apply elem_of_nil_inv. intros id [[[=] _]|(r' & Hin & _)]%Hch'. by apply not_elem_of_nil in Hin.
Defined.

Lemma not_reported_witness :
  ∃ ch p'', get_changes EMAIL 1 (lit "0") (mkPool (delivered (lit "m") (lit "a@b") (lit "c@d") (lit "x") (tables alice)) []) = (Ok ch, p'') ∧
    changed ch = [].
Proof.
  destruct (delivered_mail_not_reported (lit "m") (lit "a@b") (lit "c@d") (lit "x") (db alice) (good_db 1 alice ltac:(lia)))
    as (_ & ch & p'' & H1 & _ & H2). exists ch, p''. split; [exact H1|exact H2].
Defined.

Definition both : Json := JObj [(lit "mailboxIds", JObj []); (lit "keywords", JObj [(lit "$seen", JBool true)])].

Lemma applied_witness :
  let '(r, w') := email_set (W := ()) None 1 (JObj [(lit "update", JObj [(cid_to_string email, both)])]) [] [] (world alice) in
  es_updated r = [] ∧ tb_flags (rows w'.1) !! (1, cid_to_bytes email) = Some (mkFlags true false).
Proof.
  pose proof (refused_update_applied (W := ()) None 1 (cid_to_string email) email both (JObj [(lit "$seen", JBool true)]) [] (world alice)
    ltac:(constructor) ltac:(reflexivity) ltac:(apply cid_string_roundtrip) ltac:(eexists; reflexivity) ltac:(reflexivity)) as H.
  destruct (email_set _ _ _ _ _ _) as [r w']. destruct H as (H1 & _ & _ & H2). split; [exact H1|exact H2].
Defined.

Lemma never_witness :
  let '(rs, w') := run (W := ()) None calls (world ∅) in no_preferences (rows w'.1) ∧ ∀ u r, (u, r) ∈ rs → es_updated r = [].
Proof. apply (preferences_never_stored None calls (world ∅)). split_and!; reflexivity. Defined.

End StateSamples.

End MailState.
