(* ===== verification/MailTokens.v ===== *)
(** Who calls the JMAP server: bearer tokens ([crates/mail/src/token_store.rs]),
    the three requests about them ([auth_token.rs]), [basic_auth_middleware] and
    the choice of the caller in [server.rs], and [AuthConfig] of
    [crates/auth/src/config.rs].

    [tokens_are_live]: a token is accepted for a user exactly while it is issued,
    not expired and not revoked by that user.  [callers_authenticated]: outside
    the development mode a request is passed on only with a name a provider
    vouches for, a live token carries, or the credential store accepts.
    [operator_without_account]: the last is not enough. *)

From S2P Require Import Prelude Bytes Utf8 Crypto Credentials Sql.

Module MailTokens.
Import Utf8 Credentials Sql.

(** [BASE64URL_NOPAD] and [BASE64] of [data_encoding]. *)
Class EncodingLib := {
  b64url_encode : bytes → bytes;
  b64url_decode : bytes → option bytes;
  b64_decode : bytes → option bytes
}.

Class EncodingLaws (enc : EncodingLib) : Prop := { b64url_roundtrip b : b64url_decode (b64url_encode b) = Some b }.

(** ** The token store *)

(** A row of [bearer_tokens]. *)
Record TokenRow := mkTokenRow {
  tk_id : bytes;
  tk_hash : bytes;
  tk_username : bytes;
  tk_label : option bytes;
  tk_created_at : Z;
  tk_expires_at : option Z
}.

Record TokenInfo := mkTokenInfo { ti_id : bytes; ti_label : option bytes; ti_created_at : Z; ti_expires_at : option Z }.

(** [i64] arithmetic, without overflow checks. *)
Definition wrapping_i64 (x : Z) : Z := (x + 2 ^ 63) mod 2 ^ 64 - 2 ^ 63.

Definition expiry (now : Z) (days : option Z) : option Z := (λ d, wrapping_i64 (now + wrapping_i64 (d * 86400))) <$> days.

Section Tokens.
Context {cid : CidLib} {enc : EncodingLib}.

(** [raw] and [id] are what the random generators give.  The key and the hash
    are unique. *)
Definition issue (raw id username : bytes) (label : option bytes) (expires_in_days : option Z) (now : Z) :
    prog (Pool (list TokenRow)) () (bytes * bytes * option Z) := λ p,
  let expires_at := expiry now expires_in_days in
  let row := mkTokenRow id (sha256 raw) username label now expires_at in
  match round_trip p with
  | (Ok _, p') =>
      if existsb (λ r, bool_decide (tk_id r = id) || bool_decide (tk_hash r = sha256 raw)) (rows p') then (Err tt, p')
      else (Ok (b64url_encode raw, id, expires_at), mkPool (rows p' ++ [row]) (faults p'))
  | (Err e, p') => (Err e, p')
  end.

Definition unexpired (now : Z) (e : option Z) : bool := match e with Some t => now <? t | None => true end.

Definition verify (token : bytes) (now : Z) : prog (Pool (list TokenRow)) () (option bytes) := λ p,
  match b64url_decode token with
  | None => (Ok None, p)
  | Some raw =>
      let hash := sha256 raw in
      match select (List.find (λ r, bool_decide (tk_hash r = hash) && unexpired now (tk_expires_at r))) p with
      | (Ok row, p') => (Ok (r ← row; if bool_decide (tk_hash r = hash) then Some (tk_username r) else None), p')
      | (Err e, p') => (Err e, p')
      end
  end.

(** Oldest first in the code. *)
Definition list_tokens (username : bytes) : prog (Pool (list TokenRow)) () (list TokenInfo) :=
  select (λ t, (λ r, mkTokenInfo (tk_id r) (tk_label r) (tk_created_at r) (tk_expires_at r)) <$>
    List.filter (λ r, bool_decide (tk_username r = username)) t).

Definition owned (username id : bytes) (r : TokenRow) : bool := bool_decide (tk_id r = id) && bool_decide (tk_username r = username).

(** Whether a row was deleted. *)
Definition revoke (username id : bytes) : prog (Pool (list TokenRow)) () bool := λ p,
  match round_trip p with
  | (Ok _, p') => (Ok (existsb (owned username id) (rows p')), mkPool (List.filter (λ r, negb (owned username id r)) (rows p')) (faults p'))
  | (Err e, p') => (Err e, p')
  end.

(** ** Requests about tokens *)

Definition DEV_USERNAME : bytes := lit "dev".

Inductive TokenResponse :=
| TCreated (token id : bytes) (expires_at : option Z)
| TList (l : list TokenInfo)
| TDeleted
| TNotFound
| TServerError.

Definition post_token (user : option bytes) (label : option bytes) (days : option Z) (raw id : bytes) (now : Z) (p : Pool (list TokenRow)) :
    TokenResponse * Pool (list TokenRow) :=
  let username := match user with Some (_ :: _ as u) => u | _ => DEV_USERNAME end in
  match issue raw id username label days now p with
  | (Ok (token, id', e), p') => (TCreated token id' e, p')
  | (Err _, p') => (TServerError, p')
  end.

Definition get_tokens (user : option bytes) (p : Pool (list TokenRow)) : TokenResponse * Pool (list TokenRow) :=
  match list_tokens (default DEV_USERNAME user) p with
  | (Ok l, p') => (TList l, p')
  | (Err _, p') => (TServerError, p')
  end.

Definition delete_token (user : option bytes) (id : bytes) (p : Pool (list TokenRow)) : TokenResponse * Pool (list TokenRow) :=
  match revoke (default DEV_USERNAME user) id p with
  | (Ok true, p') => (TDeleted, p')
  | (Ok false, p') => (TNotFound, p')
  | (Err _, p') => (TServerError, p')
  end.

(** ** The middleware *)

(** The request is passed on, with the user put into its extensions if any. *)
Inductive Passage := Passed (user : option bytes) | Unauthorized.

Record Gate := mkGate { g_oidc : option (list ProviderValidator); g_tokens : Pool (list TokenRow) }.

Section Middleware.
Context {bcrypt : BcryptLib} {oidc : OidcLib}.

Definition looks_like_jwt (token : bytes) : bool := (length (List.filter (Z.eqb 46) token) =? 2)%nat.

(** [None]: fall through to the tokens the server issued. *)
Definition try_oidc (token : bytes) (now : Z) (g : Gate) : option bytes * Gate :=
  match g_oidc g with
  | Some ps =>
      if looks_like_jwt token then
        let '(r, ps') := validate_jwt now token ps in
        (match r with Ok u => Some u | Err _ => None end, mkGate (Some ps') (g_tokens g))
      else (None, g)
  | None => (None, g)
  end.

Definition basic_credentials (header : bytes) : option (bytes * bytes) :=
  encoded ← strip_prefix (lit "Basic ") header;
  decoded ← b64_decode encoded;
  s ← from_utf8 decoded;
  split_once 58 s.

(** [header] is the value of Authorization, when it is text. *)
Definition basic_auth_middleware (c : AuthConfig) (store : CredentialStore) (header : option bytes) (now : Z) (g : Gate) : Passage * Gate :=
  if is_dev_mode c then (Passed None, g)
  else match header ≫= strip_prefix (lit "Bearer ") with
       | Some token =>
           match try_oidc token now g with
           | (Some u, g') => (Passed (Some u), g')
           | (None, g') =>
               let '(r, p') := verify token now (g_tokens g') in
               (match r with Ok (Some u) => Passed (Some u) | _ => Unauthorized end, mkGate (g_oidc g') p')
           end
       | None =>
           match header ≫= basic_credentials with
           | Some (username, password) => (if check store username password then Passed (Some username) else Unauthorized, g)
           | None => (Unauthorized, g)
           end
       end.

(** [JmapCaller]: the name, the account and the role. *)
Record JmapCaller := mkCaller { jc_username : bytes; jc_account_id : bytes; jc_is_operator : bool }.

Definition caller_of (c : AuthConfig) (user : option bytes) : JmapCaller :=
  let username := default (lit "anonymous") user in
  mkCaller username (lit "u_" ++ username) (is_operator c username).

End Middleware.

(** ** What a history of requests leaves *)

Inductive Op :=
| Issue (raw id username : bytes) (label : option bytes) (days : option Z) (now : Z)
| Revoke (username id : bytes).

(** Whether each was answered with success. *)
Fixpoint serve (ops : list Op) (p : Pool (list TokenRow)) : list bool * Pool (list TokenRow) :=
  match ops with
  | [] => ([], p)
  | Issue raw id u label days now :: ops' =>
      let '(r, p1) := issue raw id u label days now p in
      let '(bs, p2) := serve ops' p1 in ((match r with Ok _ => true | Err _ => false end) :: bs, p2)
  | Revoke u id :: ops' =>
      let '(r, p1) := revoke u id p in
      let '(bs, p2) := serve ops' p1 in ((match r with Ok b => b | Err _ => false end) :: bs, p2)
  end.

(** The specification: a token is live from when its issue succeeds until a
    revocation of its identifier by its owner does. *)
Record Live := mkLive { lv_id : bytes; lv_raw : bytes; lv_user : bytes; lv_expires : option Z }.

Definition after (h : list Live) (op : Op) (ok : bool) : list Live :=
  match op with
  | Issue raw id u _ days now => if ok then h ++ [mkLive id raw u (expiry now days)] else h
  | Revoke u id => if ok then List.filter (λ l, negb (bool_decide (lv_id l = id) && bool_decide (lv_user l = u))) h else h
  end.

Fixpoint live (ops : list Op) (oks : list bool) (h : list Live) : list Live :=
  match ops, oks with
  | op :: ops', ok :: oks' => live ops' oks' (after h op ok)
  | _, _ => h
  end.

(** A row and the token it stands for. *)
Definition stands (r : TokenRow) (l : Live) : Prop :=
  tk_id r = lv_id l ∧ tk_hash r = sha256 (lv_raw l) ∧ tk_username r = lv_user l ∧ tk_expires_at r = lv_expires l.

Definition refines (t : list TokenRow) (h : list Live) : Prop := Forall2 stands t h ∧ NoDup (tk_hash <$> t).

Lemma issue_refines raw id u label days now p h :
  refines (rows p) h →
  let '(r, p') := issue raw id u label days now p in
  refines (rows p') (after h (Issue raw id u label days now) (match r with Ok _ => true | Err _ => false end)).
Proof.
  intros [Hf Hnd]. unfold issue. pose proof (round_trip_rows p) as Hr. destruct (round_trip p) as [[[]|[]] p']; cbn [snd] in Hr; rewrite Hr.
  2: done. destruct (existsb _ (rows p)) eqn:E; [by rewrite Hr|]. cbn [rows after]. split.
  - apply Forall2_app; [done|]. by repeat constructor.
  - rewrite fmap_app. cbn. apply NoDup_app. split; [done|]. split; [|apply NoDup_singleton].
    intros x Hx ->%list_elem_of_singleton. apply list_elem_of_fmap in Hx as (r & Heq & Hin%list_elem_of_In).
    apply not_true_iff_false in E. apply E, existsb_exists. exists r. split; [done|]. apply orb_true_iff. right. by apply bool_decide_eq_true.
Qed.

Lemma filter_refines (f : TokenRow → bool) (g : Live → bool) t h :
  (∀ r l, stands r l → f r = g l) → Forall2 stands t h → Forall2 stands (List.filter f t) (List.filter g h).
Proof.
  intros Hfg. induction 1 as [|r l t h Hrl _ IH]; [constructor|]. cbn. rewrite (Hfg r l Hrl). destruct (g l); [by constructor|done].
Qed.

Lemma hashes_filter (f : TokenRow → bool) t : NoDup (tk_hash <$> t) → NoDup (tk_hash <$> List.filter f t).
Proof.
  induction t as [|r t IH]; [done|]. cbn. intros [Hn Hnd]%NoDup_cons. destruct (f r); [|auto]. cbn. apply NoDup_cons. split; [|auto].
  intros (x & Hx & Hin)%list_elem_of_fmap. apply list_elem_of_In, filter_In in Hin as [Hin _].
  apply Hn, list_elem_of_fmap. exists x. by rewrite list_elem_of_In.
Qed.

Lemma filter_none (f : Live → bool) h : (∀ l, l ∈ h → f l = true) → List.filter f h = h.
Proof.
  induction h as [|l h IH]; intros Hf; [done|]. cbn. rewrite Hf by (by left). f_equal. apply IH. intros. apply Hf. by right.
Qed.

Lemma owned_stands u id r l : stands r l → owned u id r = bool_decide (lv_id l = id) && bool_decide (lv_user l = u).
Proof. intros (H1 & _ & H2 & _). unfold owned. by rewrite H1, H2. Qed.

Lemma revoke_refines u id p h :
  refines (rows p) h →
  let '(r, p') := revoke u id p in refines (rows p') (after h (Revoke u id) (match r with Ok b => b | Err _ => false end)).
Proof.
  intros [Hf Hnd]. unfold revoke. pose proof (round_trip_rows p) as Hr. destruct (round_trip p) as [[[]|[]] p']; cbn [snd] in Hr; rewrite Hr; [|done].
  cbn [rows]. assert (H : Forall2 stands (List.filter (λ r, negb (owned u id r)) (rows p))
      (List.filter (λ l, negb (bool_decide (lv_id l = id) && bool_decide (lv_user l = u))) h)).
  { apply filter_refines; [|done]. intros r l Hrl. by rewrite (owned_stands _ _ _ _ Hrl). }
  split; [|by apply hashes_filter]. cbn [after]. destruct (existsb _ (rows p)) eqn:E; [done|].
  rewrite (filter_none _ h) in H; [done|]. intros l Hl. apply list_elem_of_lookup in Hl as [i Hi].
  destruct (Forall2_lookup_r _ _ _ _ _ Hf Hi) as (r & Hri & Hrl). rewrite <- (owned_stands _ _ _ _ Hrl). apply negb_true_iff, not_true_iff_false.
  intros Ho. apply not_true_iff_false in E. apply E, existsb_exists. exists r. split; [|done]. by eapply list_elem_of_In, list_elem_of_lookup_2.
Qed.

Lemma serve_refines ops p h :
  refines (rows p) h → let '(oks, p') := serve ops p in refines (rows p') (live ops oks h).
Proof.
  revert p h. induction ops as [|[raw id u label days now|u id] ops IH]; intros p h Hr; cbn [serve]; [done| |].
  - pose proof (issue_refines raw id u label days now p h Hr) as H. destruct (issue _ _ _ _ _ _ p) as [r p1].
    specialize (IH p1 _ H). by destruct (serve ops p1) as [oks p2].
  - pose proof (revoke_refines u id p h Hr) as H. destruct (revoke u id p) as [r p1].
    specialize (IH p1 _ H). by destruct (serve ops p1) as [oks p2].
Qed.

(** ** Verification *)

(** The token is that of [l], or its bytes collide with those of [l]. *)
Definition matches (token : bytes) (l : Live) : Prop :=
  ∃ raw, b64url_decode token = Some raw ∧ (raw = lv_raw l ∨ collision raw (lv_raw l)).

Lemma verify_sound token now p p' user h :
  refines (rows p) h → verify token now p = (Ok (Some user), p') →
  ∃ l, l ∈ h ∧ lv_user l = user ∧ unexpired now (lv_expires l) = true ∧ matches token l.
Proof.
  intros [Hf _]. unfold verify. destruct (b64url_decode token) as [raw|] eqn:Ed; [|done].
  unfold select. pose proof (round_trip_rows p) as Hr. destruct (round_trip p) as [[[]|[]] p1]; cbn [snd] in Hr; [|done]. rewrite Hr.
  destruct (List.find _ (rows p)) as [r|] eqn:Efind; [|done]. cbn. case_bool_decide as Hh; [|done]. intros [= <- <-].
  apply find_some in Efind as [Hin%list_elem_of_In [_ Hexp]%andb_true_iff]. apply list_elem_of_lookup in Hin as [i Hi].
  destruct (Forall2_lookup_l _ _ _ _ _ Hf Hi) as (l & Hl & _ & Hhash & Hu & He). exists l.
  split_and!; [by eapply list_elem_of_lookup_2|done|by rewrite <- He|]. exists raw. split; [done|].
  destruct (decide (raw = lv_raw l)); [by left|right]. split; [done|]. congruence.
Qed.

Lemma find_unique (f : TokenRow → bool) t r :
  NoDup (tk_hash <$> t) → r ∈ t → f r = true → (∀ r', f r' = true → tk_hash r' = tk_hash r) → List.find f t = Some r.
Proof.
  intros Hnd Hin Hf Hu. induction Hin as [r t|r x t Hin IH]; cbn; [by rewrite Hf|].
  cbn in Hnd. apply NoDup_cons in Hnd as [Hn Hnd]. destruct (f x) eqn:Ex; [|by apply IH].
  exfalso. apply Hn, list_elem_of_fmap. exists r. by rewrite (Hu x Ex).
Qed.

Lemma verify_complete {laws : EncodingLaws enc} now p h l :
  pool_reliable p → refines (rows p) h → l ∈ h → unexpired now (lv_expires l) = true →
  ∃ p', verify (b64url_encode (lv_raw l)) now p = (Ok (Some (lv_user l)), p').
Proof.
  intros Hp [Hf Hnd] Hl He. apply list_elem_of_lookup in Hl as [i Hi].
  destruct (Forall2_lookup_r _ _ _ _ _ Hf Hi) as (r & Hr & _ & Hhash & Hu & Hexp).
  unfold verify. rewrite b64url_roundtrip.
  match goal with |- context [ select ?f p ] => destruct (select_reliable f p Hp) as (p' & -> & _ & _) end.
  exists p'. rewrite (find_unique _ _ r); [|done|by eapply list_elem_of_lookup_2| |].
  - cbn. by rewrite (bool_decide_eq_true_2 _ Hhash), Hu.
  - rewrite (bool_decide_eq_true_2 _ Hhash), Hexp. done.
  - intros r' [H%bool_decide_eq_true _]%andb_true_iff. congruence.
Qed.

(** C11. Bearer tokens.  After any requests on an empty table, answered as they
    were: a token that is accepted for a user is one issued to that user, not
    expired and not revoked (or collides with it under SHA-256), and, when the
    database answers, every such token is accepted. *)
Theorem tokens_are_live {laws : EncodingLaws enc} (ops : list Op) (fs : list bool) :
  let '(oks, p) := serve ops (mkPool [] fs) in
  (∀ token now user p', verify token now p = (Ok (Some user), p') →
     ∃ l, l ∈ live ops oks [] ∧ lv_user l = user ∧ unexpired now (lv_expires l) = true ∧ matches token l) ∧
  (∀ now l, l ∈ live ops oks [] → unexpired now (lv_expires l) = true → pool_reliable p →
     ∃ p', verify (b64url_encode (lv_raw l)) now p = (Ok (Some (lv_user l)), p')).
Proof.
  pose proof (serve_refines ops (mkPool [] fs) []) as H. destruct (serve ops (mkPool [] fs)) as [oks p].
  assert (Hr : refines (rows p) (live ops oks [])) by (apply H; split; constructor). split.
  - intros token now user p'. by apply verify_sound.
  - intros now l Hl He Hp. by eapply verify_complete.
Qed.

(** ** The middleware *)

Section Callers.
Context {bcrypt : BcryptLib} {oidc : OidcLib}.

(** The three ways to be [user] with the header [h]. *)
Definition authenticated (store : CredentialStore) (ps : list ProviderValidator) (tokens : list Live) (now : Z) (h user : bytes) : Prop :=
  (∃ token, h = lit "Bearer " ++ token ∧
     ((∃ pv, pv ∈ ps ∧ vouched now (pv_config pv) token user) ∨
      (∃ l, l ∈ tokens ∧ lv_user l = user ∧ unexpired now (lv_expires l) = true ∧ matches token l))) ∨
  (∃ pw, basic_credentials h = Some (user, pw) ∧ check store user pw = true).

Lemma try_oidc_ok token now g :
  Forall (provider_ok now) (default [] (g_oidc g)) →
  g_tokens (try_oidc token now g).2 = g_tokens g ∧
  ∀ u, (try_oidc token now g).1 = Some u → ∃ pv, pv ∈ default [] (g_oidc g) ∧ vouched now (pv_config pv) token u.
Proof.
  unfold try_oidc. destruct (g_oidc g) as [ps|]; [|done]. cbn [default]. intros Hps. destruct (looks_like_jwt token); [|done].
  pose proof (validate_jwt_ok now token ps Hps) as H. destruct (validate_jwt now token ps) as [[u|e] ps']; [|done].
  destruct H as (_ & _ & H). split; [done|]. intros u' [= <-]. by apply H.
Qed.

(** C5. Outside the development mode a request reaches the JMAP handlers only
    with a user name, and only when a provider vouches for it, a live token of
    the server carries it, or the credential store accepts it with its password. *)
Theorem callers_authenticated (c : AuthConfig) (store : CredentialStore) (header : option bytes) (now : Z)
    (ops : list Op) (fs oks : list bool) (p : Pool (list TokenRow)) (ps : option (list ProviderValidator)) (user : option bytes) (g' : Gate) :
  is_dev_mode c = false → serve ops (mkPool [] fs) = (oks, p) → Forall (provider_ok now) (default [] ps) →
  basic_auth_middleware c store header now (mkGate ps p) = (Passed user, g') →
  ∃ h u, header = Some h ∧ user = Some u ∧ authenticated store (default [] ps) (live ops oks []) now h u.
Proof.
  intros Hdev Hserve Hps. assert (Hr : refines (rows p) (live ops oks [])).
  { pose proof (serve_refines ops (mkPool [] fs) []) as H. rewrite Hserve in H. apply H. split; constructor. }
  unfold basic_auth_middleware. rewrite Hdev. destruct header as [h|]; [|done]. cbn [mbind option_bind].
  destruct (strip_prefix (lit "Bearer ") h) as [token|] eqn:Eb.
  - apply strip_prefix_Some in Eb. pose proof (try_oidc_ok token now (mkGate ps p) Hps) as [Ht Ho].
    destruct (try_oidc token now (mkGate ps p)) as [[u|] g1].
    + intros [= <- <-]. exists h, u. split_and!; [done..|]. left. exists token. split; [done|]. left. by apply Ho.
    + cbn [snd] in Ht. rewrite Ht. cbn [g_tokens]. destruct (verify token now p) as [[[u|]|] p1] eqn:Ev; [|done|done].
      intros [= <- <-]. exists h, u. split_and!; [done..|]. left. exists token. split; [done|]. right. by eapply verify_sound.
  - destruct (basic_credentials h) as [[u pw]|] eqn:Ec; [|done]. destruct (check store u pw) eqn:Ek; [|done].
    intros [= <- <-]. exists h, u. split_and!; [done..|]. right. by exists pw.
Qed.

(** An operator without a password, known to an identity provider only: with
    the name of the operator and the fixed text [__dummy__never_matches__]
    anyone is passed on as the operator. *)
Theorem operator_without_account {laws : BcryptLaws bcrypt} {source : SecretSource} (c : AuthConfig) salt users file s (u header : bytes) now g :
  is_dev_mode c = false → build_credential_store salt users file = Ok s → entries s !! to_ascii_lowercase u = None →
  is_operator c u = true → basic_credentials header = Some (u, DUMMY_PASSWORD) →
  basic_auth_middleware c s (Some header) now g = (Passed (Some u), g) ∧ jc_is_operator (caller_of c (Some u)) = true.
Proof.
  intros Hdev (l & _ & _ & Hd)%build_credential_store_Ok Hnone Hop Hcred. split; [|done].
  unfold basic_auth_middleware. rewrite Hdev. cbn [mbind option_bind].
  assert (Hb : strip_prefix (lit "Bearer ") header = None).
  { unfold basic_credentials in Hcred. destruct (strip_prefix (lit "Basic ") header) as [e|] eqn:E; [|done].
    by apply strip_prefix_Some in E as ->. }
  rewrite Hb, Hcred. unfold check. rewrite Hnone. cbn [default]. rewrite Hd.
  destruct (dummy_hash_made salt (entries s)) as (cost & Hc & ->). cbn [from_option id]. by rewrite bcrypt_verifies.
Qed.

End Callers.

End Tokens.

(** ** Witnesses *)

Module TokenSamples.
Import ToyCrypto CredentialSamples.

#[export] Instance plain_encoding : EncodingLib := {| b64url_encode b := b; b64url_decode b := Some b; b64_decode b := Some b |}.

#[export] Instance plain_encoding_laws : EncodingLaws plain_encoding.
Proof. by split. Qed.

Definition config : AuthConfig := mkAuthConfig true users None [] [] [] [lit "root"].
Definition ops : list Op := [Issue (lit "secret") (lit "1") (lit "alice") None (Some 1) 100; Issue (lit "other") (lit "2") (lit "bob") None None 100;
  Revoke (lit "bob") (lit "2"); Revoke (lit "bob") (lit "1")].

Lemma live_witness :
  let '(oks, p) := serve ops (mkPool [] []) in
  live ops oks [] = [mkLive (lit "1") (lit "secret") (lit "alice") (Some 86500)] ∧
  ∃ p', verify (lit "secret") 86499 p = (Ok (Some (lit "alice")), p').
Proof.
  pose proof (tokens_are_live ops []) as H. destruct (serve ops (mkPool [] [])) as [oks p] eqn:E.
  assert (Hl : live ops oks [] = [mkLive (lit "1") (lit "secret") (lit "alice") (Some 86500)]) by (vm_compute in E; injection E as <- <-; reflexivity).
  split; [exact Hl|]. destruct H as [_ H]. apply (H 86499 (mkLive (lit "1") (lit "secret") (lit "alice") (Some 86500)));
    [rewrite Hl; by left|reflexivity|vm_compute in E; injection E as <- <-; constructor].
Defined.

#[export] Instance no_oidc : OidcLib := {|
  DecodingKey := (); from_rsa_components _ _ := Err []; from_ec_components _ _ := Err []; decode_header _ := Err [];
  decode_token _ _ _ _ _ _ := Err []; get_jwks_uri _ _ := Err []; get_jwks _ _ := Err []
|}.

Definition tokens : Pool (list TokenRow) := (serve ops (mkPool [] [])).2.

Lemma authenticated_witness :
  ∃ h u, Some (lit "Bearer secret") = Some h ∧ Some (lit "alice") = Some u ∧
    authenticated (empty []) [] (live ops (serve ops (mkPool [] [])).1 []) 101 h u.
Proof.
  apply (callers_authenticated config (empty []) (Some (lit "Bearer secret")) 101 ops [] (serve ops (mkPool [] [])).1 tokens None
    (Some (lit "alice")) (mkGate None tokens)); [reflexivity|apply surjective_pairing|constructor|].
  assert (Ht : tokens = mkPool [mkTokenRow (lit "1") (sha256 (lit "secret")) (lit "alice") None 100 (Some 86500)] [])
    by (vm_compute; reflexivity).
  rewrite Ht. vm_compute. reflexivity.
Defined.

Lemma operator_witness :
  ∃ s, build_credential_store [] users None = Ok s ∧
    (basic_auth_middleware config s (Some (lit "Basic root:__dummy__never_matches__")) 0 (mkGate None tokens)).1 = Passed (Some (lit "root")).
Proof.
  destruct (build_credential_store [] users None) as [s|e] eqn:E; [|discriminate E]. exists s. split; [reflexivity|].
  destruct (operator_without_account config [] users None s (lit "root") (lit "Basic root:__dummy__never_matches__") 0 (mkGate None tokens))
    as [H _]; [reflexivity|exact E| |reflexivity|vm_compute; reflexivity|].
  - injection E as <-. reflexivity.
  - rewrite H. reflexivity.
Defined.

End TokenSamples.

End MailTokens.
